(* ===== verification/_CoqProject ===== *)
-Q . S2P
Prelude.v
Slices.v
Discovery.v
Persist.v
Clock.v
Paths.v
Net.v
TcpTarget.v
Crypto.v
Grant.v
Authority.v
Policy.v
RecordWire.v
Records.v
Codecs.v
FileStore.v
Collect.v
Publisher.v
Admission.v
Http.v
Service.v
Lookup.v
Directory.v
Reconcile.v
Snapshot.v
AgentRevocations.v
Authz.v
Agent.v
Frames.v
SyncProto.v
Confined.v
Journal.v
Transfer.v
Reliable.v
Complete.v
Session.v
Client.v
Mailbox.v
Clipboard.v
MediaGate.v
Serving.v
Delivery.v
Viewing.v
Playback.v
RelayPeers.v
RelayServer.v
RelayTunnel.v
Candidates.v
PathPolicy.v
Mux.v
Audio.v
Identity.v
LocalSessions.v
