(* ===== verification/Prelude.v ===== *)
(** * remote-device-sync: a verification library

    The program lets a device serve a few services (ping, info, TCP forwarding, desktop,
    file sync) to peers over authenticated QUIC connections.  A peer is admitted by its
    endpoint key, authorizes with a signed, short-lived grant, and each stream it opens
    is served within the scope of that grant.  Policy (authorities, revocations, the
    name registry) is distributed as signed snapshots and kept by a durable store.  File
    sync moves content-addressed chunks into a resumable journal and replaces the
    destination in one step; directory sync compares canonical manifests and makes
    one-way plans.  Endpoints find each other through a directory of signed records, reach
    each other directly or through a relay, and a local manager shares their connections
    between the programs of a user.

    ** What models what (paths below [src/crates/])

    - [Prelude], [Slices], [Paths], [Net]: results and the [?] operator, integers at their
      width, bytes, the slice, path and address functions of the standard library.
    - [Discovery], [Clock]: the errors and constants of [rds-discovery], and leases on two
      clocks ([rds-discovery/src/clock.rs]).  A clock reading is an argument.
    - [Crypto]: Ed25519, BLAKE3, postcard and serde_json are not part of the repository;
      each is a class of operations with a second class for its documented laws, and toy
      instances serve the witnesses.
    - [Grant]: [rds-core/src/grant.rs].  [Authority]: the signed objects of
      [rds-discovery] ([authority.rs], [revocations.rs], [registry.rs]).  [Policy]: the
      store of [policy.rs] with every outcome of reading and writing its file.
    - [AgentRevocations], [Authz], [TcpTarget], [Agent]: the denylist and its feeds, the
      authorization state machine of connections with its concurrent tasks
      ([rds-agent/src/revocations.rs], [authz.rs]), [rds-core/src/tcp_target.rs], and the
      deployment policy, resource gate and stream decisions of [rds-agent/src/lib.rs] and
      [limits.rs].
    - [Directory], [Reconcile], [Snapshot]: [rds-sync/src/directory.rs],
      [directory/reconcile.rs] and [directory/wire.rs].
    - [Frames]: [rds-net/src/wire.rs].  [SyncProto]: [rds-sync/src/lib.rs], [proto.rs] and
      the wire profiles and handshake of [engine.rs].
    - [Confined], [Journal]: [rds-sync/src/confined.rs] and [journal.rs] over the class
      [Posix] of system calls that may fail, with [PosixLaws] for what each call does to
      directory entries, and an in-memory instance.
    - [Transfer], [Session], [Client]: the phases of [rds-sync/src/engine.rs]: manifests
      and chunk streams, the control reader and the serving end, the calling end.
    - [Reliable], [Complete]: disks that do not fail, and the liveness of transfers.
    - [Persist], [RecordWire], [Records], [Codecs], [FileStore], [Collect], [Publisher],
      [Admission], [Http], [Service], [Lookup]: the directory of [rds-discovery].  [Persist]
      is [persist.rs] on a device that loses what was not synchronized; [RecordWire] the
      signed records ([record_wire.rs], [relay_route.rs]); [Records], [FileStore] and
      [Collect] the in-memory and the durable store ([records/entry.rs],
      [records/memory.rs], [records.rs]) and their collection; [Publisher]
      [publisher.rs]; [Admission] [admission.rs]; [Http] [http.rs]; [Service]
      [service.rs], against an interface [RecordStore] that both stores implement;
      [Lookup] the client ([client.rs], [tls.rs]) together with the service.  [Codecs]
      has total codecs for witnesses.
    - [Mailbox], [Clipboard], [MediaGate], [Serving], [Delivery], [Viewing], [Playback]:
      the desktop sessions of [rds-desktop].  [Mailbox] is [mailbox.rs], [Clipboard]
      [clipboard.rs]; [MediaGate] holds the gates of [media_repair.rs], [receipts.rs] and
      [session.rs]; [Serving] the capture, writer and receipt tasks of [session.rs] and
      [Delivery] what they guarantee; [Viewing] the receiving half ([client.rs],
      [order.rs]); [Playback] both ends together.
    - [RelayPeers], [RelayServer], [RelayTunnel]: the owned relay.  [RelayPeers] is its
      datagrams ([rds-core/src/relay.rs]), synthetic addresses and the peer table
      ([rds-net/src/backends/noq/relay/peers.rs]); [RelayServer] is
      [rds-relay/src/server.rs]; [RelayTunnel] the endpoint's tunnel
      ([backends/noq/relay.rs]) and two tunnels with the relay between them.
    - [Candidates], [PathPolicy], [Mux]: which addresses an endpoint dials and which paths
      wait to be opened, acknowledgement progress and path selection, and the socket that
      shares several transports ([rds-net/src/ack_progress.rs] and [candidates.rs],
      [policy.rs], [socket.rs], [socket/health.rs], [dial.rs] of [backends/noq]).
    - [Audio]: [rds-audio/src/lib.rs], packets, codec sessions and the jitter buffer.
    - [Identity]: endpoint ids ([rds-core/src/endpoint.rs]) and the TLS identity of a
      connection ([rds-net/src/backends/noq/tls.rs]).
    - [LocalSessions]: the sessions a local manager shares between its callers
      ([rds-client/src/local/state.rs] and its uses in [connect.rs] and [mod.rs]).

    ** How code becomes definitions

    Pure functions are functions.  Fallible code returns [result]; code that can panic
    returns [option].  The policy store and the agent pass their state explicitly; the
    authorization system is a step relation over any number of connections and tasks,
    interleaved at the granularity of the mutexes.  Disk code is a state and error monad
    over the world ([ioe]).  Await points that race (the control reader against the
    phases, a watcher against chunk tasks) are explicit sequences of turns or an argument
    that says which side won.  Integers are [Z] with wrap-around, saturation or overflow
    checks written out where the source has them.

    ** What the theorems show

    - Transfers: a push that reports success was delivered; a received file is complete
      and verified whatever the sender and the disk do; a failure loses no verified chunk
      and never leaves a partial destination; on a disk that does not fail an honest
      transfer completes, in any order of its streams.
    - Authorization: the replay guard holds exactly the grants of live connections; a
      scope handed to a stream belongs to a verified, live, unrevoked grant; every served
      stream and every disk effect of a sync session lies within that scope.
    - Policy: the store never rolls back, reopens to its last durable state, serves only
      fresh signed data; verification and signing round-trip.
    - Directories: manifests are canonical, differences classify every entry, one-way
      plans mirror the source step by step, snapshots round-trip within their bounds.
    - Protocol: bitmaps, manifests, frames, limits and targets round-trip and are exact.
    - Directory records: what a client fetches is never older than what was acknowledged to
      a publisher; an acknowledged change is never undone by a stop or a failing disk; the
      durable and the in-memory store agree; a publisher never uses a revision twice; a
      name resolves only through a chain of signatures from the configured authority.
    - Desktop: under every interleaving a viewer decodes an uninterrupted stretch of what was
      sent, nothing counts as delivered without a matching receipt, and both ends stay
      within their budgets.
    - Relay: what arrives from a relayed address was sent by the identity it stands for;
      the relay forwards nothing under a wrong name and its state stays bounded; the peer
      table keeps leased peers as long as no peer is reported gone.
    - Transport: a connection has the identity that was dialled; the selected path is usable
      and paths are closed only with a replacement; no transport of the socket starves.
    - Audio: what is played is a subsequence of what was captured, each position once, and
      audio is declared missing only when it is.
    - Local sessions: at most one session per peer, shared only under the same credential;
      no connection leaks, no session stays busy and no waiting caller is left behind.

    ** Bounds and fuel

    Loops over lists recurse on the list.  The loops that consume something else take fuel,
    at least as many turns as what they consume allows, and each turn makes it smaller:
    [search_loop] (the window of a binary search), [fmt_radix] (the digits of a number),
    [ancestor_conflicts] (the components of a path), [collect_parts], [chunks_fuel],
    [chunks_of] and [send_all] (what is left to batch or send), [collect_stream] (the bytes
    of a stream, by [read_frame_shorter]), [play] and [evict] (the frames held).  The eight
    turns of [recv_loop] are the source's own bound.  No theorem has running out of fuel as a way to hold:
    the liveness and round-trip theorems give the result at the fuel the code is called with.

    ** Not modelled

    QUIC transports and the vendored stacks under [src/vendor], native capture, codecs and
    windows, process wiring, command lines, metrics export and benchmarks: calls into
    third-party or operating-system interfaces.  Deadlines appear as failures that may
    happen at any read.  Text that the code formats into error messages is cut to its
    constant part.  A file that is pulled is read as it was when it was opened.
    Of the parts that are modelled, these pieces are left out: the listener, TLS accept and
    task groups of the directory service; the bounded file under the record database; the
    bitrate control and the control loop of desktop sessions and their platform backends;
    the token bucket of the relay, known only by its answers; dialling the relay; the driver
    task that feeds path selection with engine events; the socket protocol of the local
    manager.  Random session ids are taken to differ.  Not modelled at all are the directory
    scanner, the import of older records, configuration files and the relaying of streams
    over the local socket. *)

From stdpp Require Export prelude gmap strings list sorting fin_maps relations.
From Stdlib Require Export Ascii ZArith Lia.

#[global] Open Scope Z_scope.

(** ** Results: Rust's [Result] and its [?] operator *)

Inductive result (A E : Type) : Type :=
| Ok (a : A)
| Err (e : E).
Arguments Ok {A E} a.
Arguments Err {A E} e.

#[export] Instance result_eq_dec {A E} `{EqDecision A, EqDecision E} :
  EqDecision (result A E).
Proof. solve_decision. Defined.

Lemma Ok_inj {A E} (a b : A) : @Ok A E a = Ok b -> a = b.
Proof. by intros [= ->]. Qed.

Declare Scope rust_scope.
Delimit Scope rust_scope with rust.
#[global] Open Scope rust_scope.

(** [let? x := e in k] is [let x = e?; k]. *)
Notation "'let?' x ':=' e 'in' k" :=
  (match e with Ok x => k | Err err => Err err end)
  (at level 10, x pattern, e at level 200, k at level 200,
   format "'[v' 'let?'  x  ':='  e  'in' '/' k ']'") : rust_scope.

Definition is_ok {A E} (r : result A E) : bool :=
  match r with Ok _ => true | Err _ => false end.

(** [Option::ok_or]. *)
Definition ok_or {A E} (o : option A) (e : E) : result A E :=
  match o with Some a => Ok a | None => Err e end.

(** [Result::map_err]. *)
Definition map_err {A E F} (f : E -> F) (r : result A E) : result A F :=
  match r with Ok a => Ok a | Err e => Err (f e) end.

(** [Option::is_some_and] and [Option::is_none_or]. *)
Definition is_some_and {A} (o : option A) (p : A -> bool) : bool :=
  match o with Some a => p a | None => false end.
Definition is_none_or {A} (o : option A) (p : A -> bool) : bool :=
  match o with Some a => p a | None => true end.
Definition is_some {A} (o : option A) : bool :=
  match o with Some _ => true | None => false end.
Definition is_none {A} (o : option A) : bool := negb (is_some o).

(** A loop [for x in l { f(x)?; }]. *)
Fixpoint try_for_each {A E} (f : A -> result unit E) (l : list A) : result unit E :=
  match l with
  | [] => Ok tt
  | x :: l => let? _ := f x in try_for_each f l
  end.

(** A loop [for x in l { s = f(s, x)?; }] that threads an accumulator. *)
Fixpoint try_fold {A S E} (f : S -> A -> result S E) (s : S) (l : list A) : result S E :=
  match l with
  | [] => Ok s
  | x :: l => let? s := f s x in try_fold f s l
  end.

(** [iter().map(f).collect::<Result<Vec<_>, _>>()]. *)
Fixpoint try_map {A B E} (f : A -> result B E) (l : list A) : result (list B) E :=
  match l with
  | [] => Ok []
  | x :: l => let? y := f x in let? ys := try_map f l in Ok (y :: ys)
  end.

(** ** Automation *)

(** Opens a hypothesis [match e with .. end = r] down to the branch it took. *)
Ltac inv_res H :=
  repeat match type of H with
  | (match ?x with _ => _ end) = _ =>
      let E := fresh "E" in destruct x eqn:E; try discriminate H
  end.

Ltac inv_all :=
  repeat match goal with
  | H : (match ?x with _ => _ end) = _ |- _ =>
      let E := fresh "E" in destruct x eqn:E; try discriminate H
  | H : Ok _ = Ok _ |- _ => injection H as H
  | H : Err _ = Err _ |- _ => injection H as H
  | H : Some _ = Some _ |- _ => injection H as H
  end.

Create Rewrite HintDb b2p.
#[export] Hint Rewrite orb_false_iff orb_true_iff andb_true_iff andb_false_iff
  negb_true_iff negb_false_iff Z.ltb_lt Z.ltb_ge Z.leb_le Z.leb_gt Z.eqb_eq Z.eqb_neq
  Nat.ltb_lt Nat.ltb_ge Nat.leb_le Nat.leb_gt Nat.eqb_eq Nat.eqb_neq
  bool_decide_eq_true bool_decide_eq_false Z.gtb_lt Z.geb_le : b2p.

(** Turns the boolean tests of the code into the propositions they decide. *)
Ltac b2p := autorewrite with b2p in *.
Ltac b2p_in H := autorewrite with b2p in H.

Lemma try_for_each_ok {A E} (f : A -> result unit E) l :
  try_for_each f l = Ok tt <-> Forall (fun x => f x = Ok tt) l.
Proof.
  induction l as [|x l IH]; simpl; [split; [constructor|done]|].
  rewrite Forall_cons. destruct (f x) as [[]|e]; naive_solver.
Qed.

Lemma try_map_ok {A B E} (f : A -> result B E) l ys :
  try_map f l = Ok ys <-> Forall2 (fun x y => f x = Ok y) l ys.
Proof.
  revert ys. induction l as [|x l IH]; intros ys; simpl.
  - split; [intros [= <-]; constructor|by inversion 1].
  - split.
    + intros H. inv_res H. injection H as <-. constructor; [done|by apply IH].
    + inversion 1 as [|? y ? ys' Hx Hl]; subst. rewrite Hx.
      by rewrite (proj2 (IH ys') Hl).
Qed.

Lemma filter_ext_in {A} (P Q : A -> Prop) `{!forall x, Decision (P x), !forall x, Decision (Q x)}
    (l : list A) :
  (forall x, x ∈ l -> P x <-> Q x) -> filter P l = filter Q l.
Proof.
  induction l as [|x l IH]; intros Hpq; [done|].
  assert (IH' : filter P l = filter Q l) by (apply IH; intros y Hy; apply Hpq; by right).
  destruct (decide (P x)) as [Hp|Hp].
  - rewrite !filter_cons_True; [by f_equal|by apply Hpq; [left|]|done].
  - rewrite !filter_cons_False; [done|by rewrite <-Hpq by left|done].
Qed.

(** ** Machine integers

    An unsigned integer of the code is a [Z]; its operations write out the
    behaviour at the edge of its width. *)

Definition u8_max : Z := 2 ^ 8 - 1.
Definition u16_max : Z := 2 ^ 16 - 1.
Definition u32_max : Z := 2 ^ 32 - 1.
Definition u64_max : Z := 2 ^ 64 - 1.

Definition in_u64 (n : Z) : Prop := 0 <= n <= u64_max.
Definition in_u32 (n : Z) : Prop := 0 <= n <= u32_max.

(** [u64::saturating_add], [u64::saturating_sub], [u64::saturating_mul]. *)
Definition sat_add64 (a b : Z) : Z := Z.min (a + b) u64_max.
Definition sat_sub64 (a b : Z) : Z := Z.max (a - b) 0.
Definition sat_mul64 (a b : Z) : Z := Z.min (a * b) u64_max.

(** [u64::checked_add]. *)
Definition checked_add64 (a b : Z) : option Z :=
  if a + b <=? u64_max then Some (a + b) else None.
Definition checked_sub64 (a b : Z) : option Z := if b <=? a then Some (a - b) else None.

(** [usize] is 64 bits wide; the length of a slice or a [Vec]. *)
Definition zlen {A} (l : list A) : Z := Z.of_nat (length l).

Lemma zlen_nonneg {A} (l : list A) : 0 <= zlen l.
Proof. unfold zlen. lia. Qed.
Lemma zlen_app {A} (l k : list A) : zlen (l ++ k) = zlen l + zlen k.
Proof. unfold zlen. rewrite length_app. lia. Qed.
Lemma zlen_cons {A} (x : A) l : zlen (x :: l) = zlen l + 1.
Proof. unfold zlen. simpl. lia. Qed.
Lemma zlen_Permutation {A} (l k : list A) : l ≡ₚ k -> zlen l = zlen k.
Proof. intros H. unfold zlen. by rewrite H. Qed.

(** ** [Duration]: nanoseconds, at most [u64::MAX] seconds and a fraction *)

Abbreviation duration := Z (only parsing).

Definition nanos_per_sec : Z := 1000000000.
Definition duration_max : Z := u64_max * nanos_per_sec + (nanos_per_sec - 1).
Definition in_duration (d : Z) : Prop := 0 <= d <= duration_max.

(** [Duration::from_secs], [Duration::as_secs], [Duration::checked_sub] and
    [Duration::checked_add]. *)
Definition from_secs (s : Z) : duration := s * nanos_per_sec.
Definition as_secs (d : duration) : Z := d / nanos_per_sec.
(** [from_millis]; [Instant::elapsed], which is zero for an instant in the future. *)
Definition from_millis (ms : Z) : duration := ms * 1000000.
Definition since (at_ now : Z) : duration := Z.max (now - at_) 0.
Definition dur_checked_sub (a b : duration) : option duration :=
  if b <=? a then Some (a - b) else None.
Definition dur_checked_add (a b : duration) : option duration :=
  if a + b <=? duration_max then Some (a + b) else None.

(** Comparing whole seconds with a bound is comparing the instant with it. *)
Lemma as_secs_lt d s : as_secs d < s <-> d < from_secs s.
Proof.
  unfold as_secs, from_secs, nanos_per_sec. split; intros H.
  - pose proof (Z.mul_succ_div_gt d 1000000000). lia.
  - apply Z.div_lt_upper_bound; lia.
Qed.
Lemma as_secs_ge d s : s <= as_secs d <-> from_secs s <= d.
Proof. pose proof (as_secs_lt d s). lia. Qed.
Lemma as_secs_mono d e : d <= e -> as_secs d <= as_secs e.
Proof. intros H. by apply Z.div_le_mono. Qed.
Lemma from_secs_le a b : from_secs a <= from_secs b <-> a <= b.
Proof. unfold from_secs, nanos_per_sec. lia. Qed.

(** ** Bytes and strings

    A [Vec<u8>], a [&[u8]], a [[u8; N]] and the UTF-8 bytes of a [String] are all
    lists of bytes.  [bs] writes a literal. *)

Abbreviation bytes := (list ascii).

Definition bs (s : string) : bytes := String.list_ascii_of_string s.
#[global] Arguments bs : simpl never.
Definition byte_val (c : ascii) : Z := Z.of_N (N_of_ascii c).

(** The lexicographic order of [[u8]] and of [str]. *)
Fixpoint bytes_compare (a b : bytes) : comparison :=
  match a, b with
  | [], [] => Eq
  | [], _ :: _ => Lt
  | _ :: _, [] => Gt
  | x :: a, y :: b =>
      match N.compare (N_of_ascii x) (N_of_ascii y) with
      | Eq => bytes_compare a b
      | c => c
      end
  end.
Definition bytes_lt (a b : bytes) : Prop := bytes_compare a b = Lt.
Definition bytes_le (a b : bytes) : Prop := bytes_compare a b <> Gt.

#[export] Instance bytes_lt_dec : RelDecision bytes_lt.
Proof. intros a b. unfold bytes_lt. solve_decision. Defined.
#[export] Instance bytes_le_dec : RelDecision bytes_le.
Proof. intros a b. unfold bytes_le. solve_decision. Defined.

Lemma N_of_ascii_inj x y : N_of_ascii x = N_of_ascii y -> x = y.
Proof. intros H. by rewrite <-(ascii_N_embedding x), H, ascii_N_embedding. Qed.

Lemma bytes_compare_eq a b : bytes_compare a b = Eq <-> a = b.
Proof.
  revert b. induction a as [|x a IH]; intros [|y b]; simpl; try naive_solver.
  destruct (N.compare_spec (N_of_ascii x) (N_of_ascii y)) as [H|H|H].
  - apply N_of_ascii_inj in H as ->. rewrite IH. naive_solver.
  - split; [done|]. intros [= -> ->]. lia.
  - split; [done|]. intros [= -> ->]. lia.
Qed.

Lemma bytes_compare_antisym a b : bytes_compare b a = CompOpp (bytes_compare a b).
Proof.
  revert b. induction a as [|x a IH]; intros [|y b]; simpl; try done.
  rewrite (N.compare_antisym (N_of_ascii x) (N_of_ascii y)).
  destruct (N.compare (N_of_ascii x) (N_of_ascii y)); simpl; auto.
Qed.

Lemma bytes_lt_trans a b c : bytes_lt a b -> bytes_lt b c -> bytes_lt a c.
Proof.
  unfold bytes_lt. revert b c.
  induction a as [|x a IH]; intros [|y b] [|z c]; simpl; try done.
  destruct (N.compare_spec (N_of_ascii x) (N_of_ascii y)) as [H|H|H]; try done;
  destruct (N.compare_spec (N_of_ascii y) (N_of_ascii z)) as [K|K|K]; try done;
  intros Ha Hb;
  destruct (N.compare_spec (N_of_ascii x) (N_of_ascii z)) as [L|L|L]; try done; try lia.
  by apply (IH b).
Qed.

#[export] Instance bytes_lt_strict : StrictOrder bytes_lt.
Proof.
  split; [|intros a b c; apply bytes_lt_trans].
  intros a H. unfold bytes_lt in H.
  by rewrite (proj2 (bytes_compare_eq a a) eq_refl) in H.
Qed.

Lemma bytes_le_lt_eq a b : bytes_le a b <-> bytes_lt a b \/ a = b.
Proof.
  unfold bytes_le, bytes_lt. rewrite <-bytes_compare_eq.
  destruct (bytes_compare a b); naive_solver.
Qed.
Lemma bytes_not_le a b : ~ bytes_le a b <-> bytes_lt b a.
Proof.
  unfold bytes_le, bytes_lt. rewrite (bytes_compare_antisym a b).
  destruct (bytes_compare a b); naive_solver.
Qed.
Lemma bytes_trichotomy a b : bytes_lt a b \/ a = b \/ bytes_lt b a.
Proof.
  unfold bytes_lt. rewrite (bytes_compare_antisym a b), <-bytes_compare_eq.
  destruct (bytes_compare a b); naive_solver.
Qed.

#[export] Instance bytes_le_total : TotalOrder bytes_le.
Proof.
  repeat split.
  - intros a. apply bytes_le_lt_eq. by right.
  - intros a b c. rewrite !bytes_le_lt_eq. intros [H| ->] [K| ->]; auto.
    left. by transitivity b.
  - intros a b. rewrite !bytes_le_lt_eq. intros [H| ->] [K|K]; auto.
    exfalso. apply (irreflexivity bytes_lt a). by transitivity b.
  - intros a b. unfold strict. rewrite !bytes_le_lt_eq.
    destruct (bytes_trichotomy a b) as [H|[H|H]]; [left|right; by left|right; right].
    + split; [by left|]. intros [K|K].
      * apply (irreflexivity bytes_lt a). by transitivity b.
      * subst. by apply (irreflexivity bytes_lt a).
    + split; [by left|]. intros [K|K].
      * apply (irreflexivity bytes_lt a). by transitivity b.
      * subst. by apply (irreflexivity bytes_lt b).
Qed.
#[export] Instance bytes_le_Total : Total bytes_le.
Proof.
  intros a b. rewrite !bytes_le_lt_eq.
  destruct (bytes_trichotomy a b) as [H|[H|H]]; auto.
Qed.

(** ** [BTreeMap] with byte-string keys

    A [BTreeMap<K, V>] whose keys compare as bytes is a finite map; the order shows
    only when it is iterated, which lists the pairs by increasing key. *)

Section BTree.
  Context {V : Type}.

Definition key_le (a b : bytes * V) : Prop := bytes_le a.1 b.1.
Definition key_lt (a b : bytes * V) : Prop := bytes_lt a.1 b.1.

#[export] Instance key_le_dec : RelDecision key_le.
Proof. intros a b. unfold key_le. apply _. Defined.
#[export] Instance key_le_Total : Total key_le.
Proof. intros a b. apply (total bytes_le). Qed.
#[export] Instance key_le_trans : Transitive key_le.
Proof. intros a b c. unfold key_le. apply transitivity. Qed.
#[export] Instance key_lt_trans : Transitive key_lt.
Proof. intros a b c. unfold key_lt. apply transitivity. Qed.

(** Iteration. *)
Definition btree_items (m : gmap bytes V) : list (bytes * V) :=
  merge_sort key_le (map_to_list m).

(** [BTreeMap] built by inserting in order: the last value of a key stays. *)
Definition btree_collect (l : list (bytes * V)) : gmap bytes V := list_to_map (reverse l).

Lemma btree_items_perm m : btree_items m ≡ₚ map_to_list m.
Proof. apply merge_sort_Permutation. Qed.

Lemma elem_of_btree_items m k v : (k, v) ∈ btree_items m <-> m !! k = Some v.
Proof. by rewrite btree_items_perm, elem_of_map_to_list. Qed.

Lemma btree_items_nodup m : NoDup (btree_items m).*1.
Proof. rewrite btree_items_perm. apply NoDup_fst_map_to_list. Qed.

Lemma btree_items_length m : length (btree_items m) = size m.
Proof. by rewrite btree_items_perm, length_map_to_list. Qed.

Lemma key_sorted_strict (l : list (bytes * V)) :
  NoDup l.*1 -> StronglySorted key_le l -> StronglySorted key_lt l.
Proof.
  induction l as [|[k v] l IH]; csimpl; intros Hn Hs; [constructor|].
  apply NoDup_cons in Hn as [Hk Hn]. apply StronglySorted_inv in Hs as [Hs Hf].
  constructor; [by apply IH|]. rewrite Forall_forall in *. intros [k' v'] Hin.
  specialize (Hf _ Hin). unfold key_le, key_lt in *. simpl in *.
  apply bytes_le_lt_eq in Hf as [Hf|Hf]; [done|].
  exfalso. apply Hk, list_elem_of_fmap. by exists (k', v').
Qed.

Lemma btree_items_sorted m : StronglySorted key_lt (btree_items m).
Proof.
  apply key_sorted_strict; [apply btree_items_nodup|].
  apply StronglySorted_merge_sort; apply _.
Qed.

Lemma key_sorted_nodup (l : list (bytes * V)) : StronglySorted key_lt l -> NoDup l.*1.
Proof.
  induction 1 as [|[k v] l Hs IH Hf]; csimpl; [constructor|]. constructor; [|done].
  intros [[k' v'] [Hk Hin]]%list_elem_of_fmap. simpl in Hk. subst k'.
  rewrite Forall_forall in Hf. specialize (Hf _ Hin).
  by apply (irreflexivity bytes_lt k).
Qed.

(** A strictly sorted list is determined by its elements. *)
Lemma key_sorted_unique (l k : list (bytes * V)) :
  StronglySorted key_lt l -> StronglySorted key_lt k -> l ≡ₚ k -> l = k.
Proof.
  revert k. induction l as [|x l IH]; intros [|y k] Hl Hk Hp.
  - done.
  - by apply Permutation_nil_cons in Hp.
  - symmetry in Hp. by apply Permutation_nil_cons in Hp.
  - apply StronglySorted_inv in Hl as [Hl Fl]. apply StronglySorted_inv in Hk as [Hk Fk].
    rewrite Forall_forall in Fl, Fk.
    assert (x = y) as ->.
    { assert (Hx : x ∈ y :: k) by (rewrite <-Hp; left).
      assert (Hy : y ∈ x :: l) by (rewrite Hp; left).
      apply elem_of_cons in Hx as [?|Hx]; [done|]. apply elem_of_cons in Hy as [?|Hy]; [done|].
      exfalso. apply (irreflexivity bytes_lt x.1). etrans; [apply (Fl y Hy)|apply (Fk x Hx)]. }
    f_equal. apply IH; [done|done|]. by apply Permutation_cons_inv in Hp.
Qed.

Lemma btree_items_collect l :
  StronglySorted key_lt l -> btree_items (btree_collect l) = l.
Proof.
  intros Hs. apply key_sorted_unique; [apply btree_items_sorted|done|].
  rewrite btree_items_perm. unfold btree_collect. rewrite map_to_list_to_map.
  - apply reverse_Permutation.
  - rewrite fmap_reverse. rewrite reverse_Permutation. by apply key_sorted_nodup.
Qed.

Lemma btree_collect_items m : btree_collect (btree_items m) = m.
Proof.
  unfold btree_collect. apply map_eq. intros k. apply option_eq. intros v.
  rewrite <-elem_of_list_to_map.
  - rewrite elem_of_reverse. apply elem_of_btree_items.
  - rewrite fmap_reverse, reverse_Permutation. apply btree_items_nodup.
Qed.

End BTree.

(** Sublists. *)

Lemma Forall_sublist {A} (P : A -> Prop) l k : l `sublist_of` k -> Forall P k -> Forall P l.
Proof. induction 1; rewrite ?Forall_cons; naive_solver. Qed.
Lemma sublist_map {A B} (f : A -> B) l k : l `sublist_of` k -> (f <$> l) `sublist_of` (f <$> k).
Proof. induction 1; cbn; by constructor. Qed.
Lemma StronglySorted_sublist {A} (R : A -> A -> Prop) l k :
  l `sublist_of` k -> StronglySorted R k -> StronglySorted R l.
Proof.
  induction 1 as [|x l k Hs IH|x l k Hs IH]; intros Hk; [done| |]; apply StronglySorted_inv in Hk as [Hk Hx]; [|by apply IH].
  constructor; [by apply IH|]. by eapply Forall_sublist.
Qed.
