(* ===== verification/Slices.v ===== *)
(** * Slice operations of the standard library

    What the components use of [slice::binary_search_by], [slice::windows(2)] and
    [slice::sort_by], with the facts about sorted slices they rely on. *)

From S2P Require Import Prelude.

(** ** Adjacent pairs *)

(** [windows(2).any(p)]. *)
Fixpoint any_adjacent {A} (p : A -> A -> bool) (l : list A) : bool :=
  match l with
  | x :: ((y :: _) as l') => p x y || any_adjacent p l'
  | _ => false
  end.

Lemma any_adjacent_cons {A} (p : A -> A -> bool) x y l :
  any_adjacent p (x :: y :: l) = p x y || any_adjacent p (y :: l).
Proof. done. Qed.

(** No adjacent pair out of a transitive order means the whole list is in order. *)
Lemma any_adjacent_sorted {A} (p : A -> A -> bool) (R : A -> A -> Prop) `{!Transitive R} l :
  (forall x y, p x y = false -> R x y) -> any_adjacent p l = false -> StronglySorted R l.
Proof.
  intros Hp. induction l as [|x l IH]; intros Hl; [constructor|].
  destruct l as [|y l]; [repeat constructor|].
  rewrite any_adjacent_cons in Hl. apply orb_false_iff in Hl as [Hxy Hl].
  specialize (IH Hl). constructor; [done|]. apply Hp in Hxy.
  apply StronglySorted_inv in IH as [_ Hf]. constructor; [done|].
  eapply Forall_impl; [exact Hf|]. intros z Hz. by transitivity y.
Qed.

Lemma any_adjacent_sorted_2 {A} (p : A -> A -> bool) (R : A -> A -> Prop) l :
  (forall x y, R x y -> p x y = false) -> StronglySorted R l -> any_adjacent p l = false.
Proof.
  intros Hp Hs. induction Hs as [|x l Hs IH Hf]; [done|].
  destruct l as [|y l]; [done|]. rewrite any_adjacent_cons, IH, orb_false_r.
  apply Hp. by apply Forall_cons in Hf as [? _].
Qed.

(** ** Binary search *)

(** The loop of [binary_search_by]: [size] shrinks until one candidate is left. *)
Fixpoint search_loop {A} (cmp : A -> comparison) (l : list A) (fuel base size : nat) : nat :=
  match fuel with
  | O => base
  | S fuel =>
      if (size <=? 1)%nat then base else
      let half := Nat.div2 size in
      let mid := (base + half)%nat in
      let base := match l !! mid with
                  | Some x => match cmp x with Gt => base | _ => mid end
                  | None => base
                  end in
      search_loop cmp l fuel base (size - half)
  end.

(** [binary_search_by]; each round removes at least one of [length l] candidates. *)
Definition binary_search_by {A} (cmp : A -> comparison) (l : list A) : result nat nat :=
  match l with
  | [] => Err 0%nat
  | _ =>
      let base := search_loop cmp l (length l) 0 (length l) in
      match l !! base with
      | Some x => match cmp x with
                  | Eq => Ok base
                  | Lt => Err (base + 1)%nat
                  | Gt => Err base
                  end
      | None => Err base
      end
  end.

Lemma binary_search_nonempty {A} (cmp : A -> comparison) (l : list A) :
  (0 < length l)%nat ->
  binary_search_by cmp l =
  (let base := search_loop cmp l (length l) 0 (length l) in
   match l !! base with
   | Some x => match cmp x with Eq => Ok base | Lt => Err (base + 1)%nat | Gt => Err base end
   | None => Err base
   end).
Proof. destruct l; simpl; [lia|done]. Qed.

Lemma binary_search_ok {A} (cmp : A -> comparison) (l : list A) i :
  binary_search_by cmp l = Ok i -> exists x, l !! i = Some x /\ cmp x = Eq.
Proof.
  unfold binary_search_by. destruct l as [|a k]; [done|].
  destruct ((a :: k) !! _) as [x|] eqn:Ex; [|done].
  destruct (cmp x) eqn:Ec; [|done|done]. intros [= <-]. by exists x.
Qed.

Section Search.
  Context {A : Type} (cmp : A -> comparison) (l : list A).
  (** The slice is ordered with respect to the probe: nothing after a [Gt] is not [Gt],
      and at most one element is [Eq]. *)
  Context (Hgt : forall i j x y, (i <= j)%nat -> l !! i = Some x -> l !! j = Some y ->
             cmp x = Gt -> cmp y = Gt).
  Context (Heq : forall i j x y, (i < j)%nat -> l !! i = Some x -> l !! j = Some y ->
             cmp x = Eq -> cmp y = Gt).

Lemma search_loop_spec fuel base size :
  (size <= fuel)%nat -> (1 <= size)%nat -> (base + size <= length l)%nat ->
  (forall j y, (base + size <= j)%nat -> l !! j = Some y -> cmp y = Gt) ->
  (base = 0%nat \/ exists x, l !! base = Some x /\ cmp x <> Gt) ->
  let b := search_loop cmp l fuel base size in
  (b < length l)%nat /\
  (forall j y, (b < j)%nat -> l !! j = Some y -> cmp y = Gt) /\
  (b = 0%nat \/ exists x, l !! b = Some x /\ cmp x <> Gt).
Proof.
  revert base size. induction fuel as [|fuel IH]; intros base size Hf H1 Hb Hhi Hlo; [lia|].
  simpl. destruct (size <=? 1)%nat eqn:Es; b2p.
  { split; [lia|]. split; [|done]. intros j y Hj. apply Hhi. lia. }
  pose proof (Nat.div2_div size) as Hd.
  assert (Hhalf : (1 <= Nat.div2 size < size)%nat /\ (2 * Nat.div2 size <= size)%nat).
  { rewrite Hd. pose proof (Nat.div_mod size 2). pose proof (Nat.mod_bound_pos size 2). lia. }
  assert (Hm : (base + Nat.div2 size < length l)%nat) by lia.
  apply lookup_lt_is_Some in Hm as [x Hx]. rewrite Hx.
  destruct (cmp x) eqn:Ex.
  - apply IH; try lia; [|right; exists x; split; [done|congruence]].
    intros j y Hj. apply Hhi. lia.
  - apply IH; try lia; [|right; exists x; split; [done|congruence]].
    intros j y Hj. apply Hhi. lia.
  - apply IH; try lia; [|done]. intros j y Hj Hy.
    eapply (Hgt (base + Nat.div2 size)%nat j x y); [lia|done|done|done].
Qed.

Lemma binary_search_found i x :
  l !! i = Some x -> cmp x = Eq -> binary_search_by cmp l = Ok i.
Proof.
  intros Hi Ex. pose proof (lookup_lt_Some _ _ _ Hi) as Hlen.
  rewrite binary_search_nonempty by lia.
  destruct (search_loop_spec (length l) 0 (length l)) as (Hb & Hhi & Hlo);
    [lia|lia|lia| |by left|].
  { intros j y Hj Hy. apply lookup_lt_Some in Hy. lia. }
  set (b := search_loop cmp l (length l) 0 (length l)) in *.
  assert (Hib : (i <= b)%nat).
  { destruct (decide (i <= b)%nat) as [|Hn]; [done|].
    assert (Hc : cmp x = Gt) by (apply (Hhi i); [lia|done]). congruence. }
  assert (i = b) as <-.
  { destruct (decide (i = b)) as [|Hn]; [done|]. exfalso.
    destruct Hlo as [Hlo|(y & Hy & Ey)]; [lia|]. apply Ey.
    apply (Heq i b x y); [lia|done|done|done]. }
  cbn zeta. by rewrite Hi, Ex.
Qed.

End Search.

(** Searching a slice strictly sorted by a byte-string key. *)
Lemma binary_search_key {A} (key : A -> bytes) (l : list A) (target : bytes) :
  StronglySorted (fun a b => bytes_lt (key a) (key b)) l ->
  forall x, x ∈ l -> key x = target ->
  exists i, binary_search_by (fun c => bytes_compare (key c) target) l = Ok i /\ l !! i = Some x.
Proof.
  intros Hs x Hx Hk. apply list_elem_of_lookup_1 in Hx as [i Hi]. exists i. split; [|done].
  assert (Hlt : forall i j a b, (i < j)%nat -> l !! i = Some a -> l !! j = Some b ->
    bytes_lt (key a) (key b)).
  { clear -Hs. induction Hs as [|y l Hs IH Hf]; intros i j a b Hij Ha Hb; [done|].
    destruct i as [|i], j as [|j]; try lia; simpl in *.
    - injection Ha as ->. rewrite Forall_forall in Hf. apply Hf. by eapply list_elem_of_lookup_2.
    - by apply (IH i j); [lia| |]. }
  apply (binary_search_found _ _) with (x := x); [| |done|by apply bytes_compare_eq].
  - intros i' j' a b Hij Ha Hb Hg. destruct (decide (i' = j')) as [->|Hn]; [congruence|].
    assert (K : bytes_lt (key a) (key b)) by (apply (Hlt i' j'); [lia|done|done]).
    rewrite bytes_compare_antisym in Hg |- *.
    destruct (bytes_compare target (key a)) eqn:E; try done.
    assert (L : bytes_lt target (key b)) by (transitivity (key a); done).
    unfold bytes_lt in L. by rewrite L.
  - intros i' j' a b Hij Ha Hb He. apply bytes_compare_eq in He. rewrite <-He.
    assert (K : bytes_lt (key a) (key b)) by (apply (Hlt i' j'); done).
    rewrite bytes_compare_antisym. unfold bytes_lt in K. by rewrite K.
Qed.
