(* ===== verification/Discovery.v ===== *)
(** * Shared vocabulary of the discovery crate

    The error type, endpoint keys and service tags of
    [src/crates/rds-discovery/src/lib.rs], and the two helpers of
    [authority.rs] every signed stream uses: [invalid] and [lifetime]. *)

From S2P Require Import Prelude.

(** [DiscoveryError].  The payload of [StorageUnavailable] is an operating-system
    error, kept as its text. *)
Inductive DiscoveryError : Type :=
| Busy
| Configuration (message : string)
| BadSignature
| InvalidRecord (message : string)
| DExpired
| DStale
| NotFound
| Unreachable (message : string)
| Http (status : Z) (message : string)
| RateLimited
| NotEnrolled
| Store (message : string)
| StorageUnavailable (os : string).

#[export] Instance DiscoveryError_eq_dec : EqDecision DiscoveryError.
Proof. solve_decision. Defined.

(** [EndpointKey]: the 32 bytes of an Ed25519 verifying key. *)
Abbreviation EndpointKey := bytes (only parsing).

(** [Service]. *)
Inductive Service : Type :=
| SvcPing | SvcInfo | SvcTcpForward | SvcDesktop | SvcAudio | SvcSync.

#[export] Instance Service_eq_dec : EqDecision Service.
Proof. solve_decision. Defined.

(** [authority::invalid]. *)
Definition invalid (message : string) : DiscoveryError := InvalidRecord message.

(** [authority::lifetime].  The subtraction runs only when [issued < expires]. *)
Definition lifetime (issued expires now max_ttl : Z) : result unit DiscoveryError :=
  if (now <? issued) || (expires <=? issued) || (max_ttl <? expires - issued)
  then Err (invalid "invalid policy validity interval")
  else if expires <=? now then Err DExpired
  else Ok tt.

Lemma lifetime_ok issued expires now max_ttl :
  lifetime issued expires now max_ttl = Ok tt <->
  issued <= now < expires /\ expires - issued <= max_ttl.
Proof.
  unfold lifetime. destruct (_ || _ || _) eqn:E; b2p.
  - split; [done|]. lia.
  - destruct (expires <=? now) eqn:E2; b2p; split; try done; lia.
Qed.
