(* ===== verification/Persist.v ===== *)
(** * Atomic state files

    Models [src/crates/rds-discovery/src/persist.rs] on a device that can lose what was
    not synchronized.  The device has the files and the directory the process sees, and
    the directory that is on stable storage; a file whose data was not synchronized
    can hold anything after a power loss.  Each call of the operating system gets an
    outcome as an argument: it succeeds, it fails having done part of its work, or the
    machine stops there. *)

From S2P Require Import Prelude Discovery.

Definition MAX_STATE : Z := 2 * 1024 * 1024.

(** ** The device *)

Record Inode : Type := mkInode { in_data : bytes; in_synced : bool; in_regular : bool }.
Record Device : Type := mkDevice {
  dv_inodes : gmap positive Inode;
  dv_dir : gmap bytes positive;
  dv_stable : gmap bytes positive;
  dv_locked : gset positive
}.

(** An operating-system error: its code and its text. *)
Record IoError : Type := mkIoError { io_code : Z; io_text : string }.
Definition NOSPC : Z := 28.
Definition DQUOT : Z := 122.

(** The outcome of a call; the number says how much of its work a failed or interrupted
    call did. *)
Inductive Fault : Type := Fine | Fails (e : IoError) (work : nat) | Halts (work : nat).
(** What a sequence of calls comes to: a result, or nothing when the machine stopped. *)
Inductive outcome (A : Type) : Type := Ran (r : result A DiscoveryError) | Halted.
Arguments Ran {A} r.
Arguments Halted {A}.

Definition Dev (A : Type) : Type := Device -> Device * outcome A.
Definition dev_ret {A} (r : result A DiscoveryError) : Dev A := fun d => (d, Ran r).
Definition dev_bind {A B} (m : Dev A) (k : A -> Dev B) : Dev B := fun d =>
  match m d with
  | (d, Ran (Ok a)) => k a d
  | (d, Ran (Err e)) => (d, Ran (Err e))
  | (d, Halted) => (d, Halted)
  end.
Notation "'do!' x := m 'in' k" := (dev_bind m (fun x => k))
  (at level 10, x name, m at level 100, k at level 200).

(** One call: [effect] is what it does, all of it or some. *)
Definition dev_call (err : IoError -> DiscoveryError) (f : Fault)
    (effect : option nat -> Device -> Device) : Dev unit := fun d =>
  match f with
  | Fine => (effect None d, Ran (Ok tt))
  | Fails e n => (effect (Some n) d, Ran (Err (err e)))
  | Halts n => (effect (Some n) d, Halted)
  end.
(** A call that does its work or not. *)
Definition whole (f : Device -> Device) (work : option nat) (d : Device) : Device :=
  match work with Some O => d | _ => f d end.

Definition set_inode (i : positive) (x : Inode) (d : Device) : Device :=
  mkDevice (<[i := x]> (dv_inodes d)) (dv_dir d) (dv_stable d) (dv_locked d).
Definition set_dir (dir : gmap bytes positive) (d : Device) : Device :=
  mkDevice (dv_inodes d) dir (dv_stable d) (dv_locked d).
Definition sync_dir (d : Device) : Device :=
  mkDevice (dv_inodes d) (dv_dir d) (dv_dir d) (dv_locked d).
Definition sync_inode (i : positive) (d : Device) : Device :=
  match dv_inodes d !! i with
  | Some x => set_inode i (mkInode (in_data x) true (in_regular x)) d
  | None => d
  end.
Definition write_inode (i : positive) (b : bytes) (work : option nat) (d : Device) : Device :=
  set_inode i (mkInode (match work with None => b | Some n => take n b end) false true) d.
Definition create_file (name : bytes) (i : positive) (d : Device) : Device :=
  set_dir (<[name := i]> (dv_dir d)) (set_inode i (mkInode [] false true) d).
Definition rename (from to : bytes) (i : positive) (d : Device) : Device :=
  set_dir (<[to := i]> (delete from (dv_dir d))) d.
Definition set_locked (l : gset positive) (d : Device) : Device :=
  mkDevice (dv_inodes d) (dv_dir d) (dv_stable d) l.

(** ** The state file *)

(** [store]. *)
Definition persist_store (e : IoError) : DiscoveryError := Store (io_text e).
(** [write_error]: a full disk is told apart. *)
Definition write_error (e : IoError) : DiscoveryError :=
  if (io_code e =? NOSPC) || (io_code e =? DQUOT)
  then StorageUnavailable (io_text e) else persist_store e.

(** [regular]: [in_regular] is a regular file with one link. *)
Definition regular (x : Inode) : result unit DiscoveryError :=
  if negb (in_regular x) then Err (Store "policy state must be a singly linked regular file") else Ok tt.

(** [AtomicFile]: the names are relative to the pinned directory. *)
Record AtomicFile : Type := mkAtomicFile { af_lock : positive; af_state_name : bytes }.

Definition lookup_file (name : bytes) (d : Device) : option Inode :=
  match dv_dir d !! name with Some i => dv_inodes d !! i | None => None end.

(** [AtomicFile::from_directory]; the lock file is created when [create] is set. *)
Definition from_directory (state_name lock_name : bytes) (create : bool) (f_open f_lock : Fault)
    : Dev AtomicFile := fun d =>
  match dev_call persist_store f_open (fun work d =>
          match dv_dir d !! lock_name with
          | Some _ => d
          | None => if create then whole (create_file lock_name (fresh (dom (dv_inodes d)))) work d else d
          end) d with
  | (d, Halted) => (d, Halted)
  | (d, Ran (Err e)) => (d, Ran (Err e))
  | (d, Ran (Ok _)) =>
      match dv_dir d !! lock_name with
      | None => (d, Ran (Err (Store "No such file or directory")))
      | Some i =>
          match dv_inodes d !! i with
          | None => (d, Ran (Err (Store "No such file or directory")))
          | Some x =>
              match regular x with
              | Err e => (d, Ran (Err e))
              | Ok _ =>
                  match f_lock with
                  | Halts _ => (d, Halted)
                  | Fails e _ => (d, Ran (Err (persist_store e)))
                  | Fine =>
                      if bool_decide (i ∈ dv_locked d) then (d, Ran (Err Busy))
                      else (set_locked ({[i]} ∪ dv_locked d) d, Ran (Ok (mkAtomicFile i state_name)))
                  end
              end
          end
      end
  end.

(** [Drop for AtomicFile]. *)
Definition af_drop (a : AtomicFile) (d : Device) : Device :=
  set_locked (dv_locked d ∖ {[af_lock a]}) d.

(** [AtomicFile::initialized]. *)
Definition initialized (a : AtomicFile) (f : Fault) : Dev bool :=
  do! _ := dev_call persist_store f (fun _ d => d) in
  fun d => (d, Ran (Ok (is_some_and (dv_inodes d !! af_lock a)
                          (fun x => negb (zlen (in_data x) =? 0))))).

(** [AtomicFile::seal]. *)
Definition seal (a : AtomicFile) (f_write f_sync f_dir : Fault) : Dev unit :=
  do! _ := dev_call persist_store f_write (fun work d =>
             write_inode (af_lock a) (bs "rds-policy-state/v1" ++ ["010"%char]) work d) in
  do! _ := dev_call persist_store f_sync (whole (sync_inode (af_lock a))) in
  dev_call persist_store f_dir (whole sync_dir).

(** [AtomicFile::read]. *)
Definition af_read (a : AtomicFile) (f : Fault) : Dev (option bytes) :=
  do! _ := dev_call persist_store f (fun _ d => d) in
  fun d => (d, Ran (match lookup_file (af_state_name a) d with
                    | None => Ok None
                    | Some x =>
                        let? _ := regular x in
                        if MAX_STATE <? zlen (in_data x)
                        then Err (Store "policy state exceeds limit") else Ok (Some (in_data x))
                    end)).

(** [format!(".policy-{:032x}.tmp", n)]. *)
Definition hex_digit (n : Z) : ascii :=
  nth (Z.to_nat n) (bs "0123456789abcdef") "0"%char.
Fixpoint hex_pad (width : nat) (n : Z) : bytes :=
  match width with
  | O => []
  | S width => hex_pad width (n / 16) ++ [hex_digit (n mod 16)]
  end.
Definition staging_name (n : Z) : bytes := bs ".policy-" ++ hex_pad 32 n ++ bs ".tmp".

(** The loop that allocates a staging file; [randoms] are the numbers drawn. *)
Fixpoint allocate (tries : nat) (randoms : list Z) (f : Fault) : Dev (bytes * positive) := fun d =>
  match tries, randoms with
  | S tries, n :: randoms =>
      let name := staging_name n in
      match f with
      | Fine =>
          match dv_dir d !! name with
          | Some _ => allocate tries randoms f d
          | None =>
              let i := fresh (dom (dv_inodes d)) in
              (create_file name i d, Ran (Ok (name, i)))
          end
      | Fails e _ => (d, Ran (Err (write_error e)))
      | Halts work => (whole (create_file name (fresh (dom (dv_inodes d)))) (Some work) d, Halted)
      end
  | _, _ => (d, Ran (Err (Store "cannot allocate policy staging")))
  end.

(** The outcomes of the calls of one [write]. *)
Record WriteFaults : Type := mkFaults {
  wf_read : Fault; wf_create : Fault; wf_data : Fault; wf_sync : Fault; wf_rename : Fault;
  wf_dirsync : Fault; wf_unlink : Fault
}.
Definition no_faults : WriteFaults := mkFaults Fine Fine Fine Fine Fine Fine Fine.

(** The closure of [write]: data, file, name, directory. *)
Definition write_staged (a : AtomicFile) (name : bytes) (i : positive) (b : bytes) (w : WriteFaults)
    : Dev unit :=
  do! _ := dev_call write_error (wf_data w) (write_inode i b) in
  do! _ := dev_call write_error (wf_sync w) (whole (sync_inode i)) in
  do! _ := dev_call write_error (wf_rename w) (whole (rename name (af_state_name a) i)) in
  dev_call write_error (wf_dirsync w) (whole sync_dir).

(** [AtomicFile::write]. *)
Definition af_write (a : AtomicFile) (b : bytes) (randoms : list Z) (w : WriteFaults) : Dev unit :=
  if MAX_STATE <? zlen b then dev_ret (Err (Store "policy state exceeds limit")) else
  do! _ := af_read a (wf_read w) in
  do! staging := allocate 16 randoms (wf_create w) in
  fun d =>
    match write_staged a staging.1 staging.2 b w d with
    | (d, Halted) => (d, Halted)
    | (d, Ran r) =>
        (* the result of the removal is dropped *)
        let unlink d := set_dir (delete staging.1 (dv_dir d)) d in
        match wf_unlink w with
        | Fine => (unlink d, Ran r)
        | Fails _ work => (whole unlink (Some work) d, Ran r)
        | Halts work => (whole unlink (Some work) d, Halted)
        end
    end.

(** ** Power loss *)

(** What a name may hold afterwards: every entry is the one in use or the one on stable
    storage, and data that was not synchronized is unknown. *)
Definition may_hold (d : Device) (i : option positive) (x : option bytes) : Prop :=
  match i with
  | None => x = None
  | Some i => match dv_inodes d !! i with
              | None => x = None
              | Some n => exists b, x = Some b /\ (in_synced n = true -> b = in_data n)
              end
  end.
Definition survives (d : Device) (name : bytes) (x : option bytes) : Prop :=
  may_hold d (dv_dir d !! name) x \/ may_hold d (dv_stable d !! name) x.
(** What the process reads. *)
Definition content (d : Device) (name : bytes) : option bytes :=
  option_map in_data (lookup_file name d).

(** Every entry names a file. *)
Definition closed (d : Device) : Prop :=
  (forall n i, dv_dir d !! n = Some i -> is_Some (dv_inodes d !! i))
  /\ (forall n i, dv_stable d !! n = Some i -> is_Some (dv_inodes d !! i)).
(** The entry of a name and the data it names are on stable storage. *)
Definition settled (d : Device) (name : bytes) : Prop :=
  dv_stable d !! name = dv_dir d !! name
  /\ forall i x, dv_dir d !! name = Some i -> dv_inodes d !! i = Some x -> in_synced x = true.

Lemma settled_survives d name x :
  settled d name -> survives d name x -> x = content d name.
Proof.
  intros [E S] H. unfold survives in H. rewrite E in H.
  assert (H' : may_hold d (dv_dir d !! name) x) by tauto. clear H.
  unfold content, lookup_file. unfold may_hold in H'. destruct (dv_dir d !! name) as [i|]; [|done].
  destruct (dv_inodes d !! i) as [n|] eqn:En; [|done]. destruct H' as (b & -> & Hb). simpl.
  by rewrite (Hb (S i n eq_refl En)).
Qed.

Section Write.
Variables (a : AtomicFile) (b : bytes) (d0 : Device).
Let s : bytes := af_state_name a.
Hypothesis Hc : closed d0.
Hypothesis Hs : settled d0 s.
Hypothesis Hn : forall r, staging_name r <> s.

(** The files that were there, and the names that are not staging names. *)
Record kept (d : Device) : Prop := {
  kp_inodes : forall j, is_Some (dv_inodes d0 !! j) -> dv_inodes d !! j = dv_inodes d0 !! j;
  kp_dir : forall n, n <> s -> (forall r, n <> staging_name r) -> dv_dir d !! n = dv_dir d0 !! n
}.
(** Before the rename: the old state is in place. *)
Record old_state (d : Device) : Prop := {
  os_kept : kept d;
  os_dir : dv_dir d !! s = dv_dir d0 !! s;
  os_stable : dv_stable d !! s = dv_dir d0 !! s
}.
(** From the rename on: the new state is in place, on stable storage or not yet. *)
Record new_state (i : positive) (d : Device) : Prop := {
  ns_kept : kept d;
  ns_dir : dv_dir d !! s = Some i;
  ns_data : dv_inodes d !! i = Some (mkInode b true true);
  ns_stable : dv_stable d !! s = dv_dir d0 !! s \/ dv_stable d !! s = Some i
}.

Lemma old_kept j : dv_dir d0 !! s = Some j -> is_Some (dv_inodes d0 !! j).
Proof. apply Hc. Qed.

Lemma may_hold_old d x : kept d -> may_hold d (dv_dir d0 !! s) x -> x = content d0 s.
Proof.
  intros [K _] H. apply (settled_survives _ _ _ Hs). left. unfold may_hold in *.
  destruct (dv_dir d0 !! s) as [j|] eqn:E; [|done]. by rewrite <-(K j (old_kept j E)).
Qed.

Lemma old_state_content d : old_state d -> content d s = content d0 s.
Proof.
  intros [[K _] E _]. unfold content, lookup_file. rewrite E.
  destruct (dv_dir d0 !! s) as [j|] eqn:Ej; [|done]. by rewrite (K j (old_kept j Ej)).
Qed.
Lemma old_state_survives d x : old_state d -> survives d s x -> x = content d0 s.
Proof. intros [K E1 E2] H. apply (may_hold_old d); [done|]. unfold survives in H. rewrite E1, E2 in H. tauto. Qed.

Lemma may_hold_new i d x : new_state i d -> may_hold d (Some i) x -> x = Some b.
Proof. intros [_ _ E _] H. simpl in H. rewrite E in H. destruct H as (c & -> & Hb). by rewrite Hb. Qed.
Lemma new_state_content i d : new_state i d -> content d s = Some b.
Proof. intros [_ E1 E2 _]. unfold content, lookup_file. by rewrite E1, E2. Qed.
Lemma new_state_survives i d x : new_state i d -> survives d s x -> x = content d0 s \/ x = Some b.
Proof.
  intros N H. destruct N as [K E1 E2 E3] eqn:EN. destruct H as [H|H].
  - rewrite E1 in H. right. by apply (may_hold_new i d).
  - destruct E3 as [E3|E3]; rewrite E3 in H; [left; by apply (may_hold_old d)|].
    right. by apply (may_hold_new i d).
Qed.

Lemma old_state_refl : old_state d0.
Proof. split; [by split|done|apply Hs]. Qed.

Lemma old_state_inode i x d :
  dv_inodes d0 !! i = None -> old_state d -> old_state (set_inode i x d).
Proof.
  intros Ni [[K1 K2] E1 E2]. split; [split|done|done]; [|done].
  intros j Hj. simpl. rewrite lookup_insert_ne; [by apply K1|]. intros ->. rewrite Ni in Hj. by destruct Hj.
Qed.
Lemma old_state_names d name f :
  name <> s -> (exists r, name = staging_name r) -> old_state d ->
  (forall n, n <> name -> f !! n = dv_dir d !! n) -> old_state (set_dir f d).
Proof.
  intros Ne [r Er] [[K1 K2] E1 E2] F. split; [split|simpl; rewrite F; done|done]; [done|].
  intros n Nn Ns. simpl. rewrite F; [by apply K2|]. intros ->. by apply (Ns r).
Qed.
Lemma new_state_names i d name f :
  name <> s -> (exists r, name = staging_name r) -> new_state i d ->
  (forall n, n <> name -> f !! n = dv_dir d !! n) -> new_state i (set_dir f d).
Proof.
  intros Ne [r Er] [[K1 K2] E1 E2 E3] F. split; [split|simpl; rewrite F; done|done|done]; [done|].
  intros n Nn Ns. simpl. rewrite F; [by apply K2|]. intros ->. by apply (Ns r).
Qed.

Lemma fresh_inode d : kept d -> dv_inodes d0 !! fresh (dom (dv_inodes d)) = None.
Proof.
  intros [K _]. destruct (dv_inodes d0 !! fresh (dom (dv_inodes d))) as [x|] eqn:E; [|done].
  exfalso. apply (is_fresh (dom (dv_inodes d))). apply elem_of_dom. rewrite K; by rewrite E.
Qed.
Lemma old_state_create d r :
  old_state d -> old_state (create_file (staging_name r) (fresh (dom (dv_inodes d))) d).
Proof.
  intros O. unfold create_file. eapply (old_state_names _ (staging_name r)); [apply Hn|by exists r| |].
  - apply old_state_inode; [|done]. apply fresh_inode, O.
  - intros n Ne. simpl. by rewrite lookup_insert_ne.
Qed.

Lemma allocate_ok tries rs f d d' out :
  old_state d -> allocate tries rs f d = (d', out) ->
  old_state d' /\ forall name i, out = Ran (Ok (name, i)) ->
    (exists r, name = staging_name r) /\ dv_inodes d0 !! i = None.
Proof.
  intros O. revert rs. induction tries as [|tries IH]; intros [|r rs] H; simpl in H;
    try (injection H as <- <-; by split).
  destruct f as [|e n|n].
  - destruct (dv_dir d !! staging_name r); [by apply (IH rs)|]. injection H as <- <-.
    split; [by apply old_state_create|]. intros name i [= <- <-]. split; [by exists r|apply fresh_inode, O].
  - injection H as <- <-. by split.
  - injection H as <- <-. split; [|done]. destruct n; simpl; [done|by apply old_state_create].
Qed.

Lemma old_state_write i work d :
  dv_inodes d0 !! i = None -> old_state d -> old_state (write_inode i b work d).
Proof. intros Ni O. by apply old_state_inode. Qed.
Lemma old_state_sync i d : dv_inodes d0 !! i = None -> old_state d -> old_state (sync_inode i d).
Proof. intros Ni O. unfold sync_inode. destruct (dv_inodes d !! i); [by apply old_state_inode|done]. Qed.

Lemma rename_ok r i d :
  old_state d -> dv_inodes d !! i = Some (mkInode b true true) ->
  new_state i (rename (staging_name r) s i d).
Proof.
  intros [[K1 K2] E1 E2] Ei. split; simpl.
  - split; [done|]. intros n N1 N2. simpl. rewrite lookup_insert_ne by done.
    rewrite lookup_delete_ne; [by apply K2|]. intros <-. by apply (N2 r).
  - by rewrite lookup_insert, decide_True.
  - done.
  - by left.
Qed.
Lemma sync_dir_ok i d : new_state i d -> new_state i (sync_dir d).
Proof. intros [[K1 K2] E1 E2 _]. split; [by split|done|done|]. right. done. Qed.

Lemma write_staged_ok r i w d d' out :
  old_state d -> dv_inodes d0 !! i = None -> write_staged a (staging_name r) i b w d = (d', out) ->
  (old_state d' /\ out <> Ran (Ok tt))
  \/ (new_state i d' /\ (out = Ran (Ok tt) -> dv_stable d' !! s = Some i)).
Proof.
  intros O Ni H. unfold write_staged, dev_bind, dev_call in H.
  pose proof (fun work => old_state_write i work d Ni O) as O1.
  destruct (wf_data w); [|injection H as <- <-; left; by split; [apply O1|]..].
  specialize (O1 None). set (d1 := write_inode i b None d) in *.
  pose proof (old_state_sync i d1 Ni O1) as O2.
  destruct (wf_sync w) as [|e n|n]; [|injection H as <- <-; left; split; [by destruct n|done]..].
  cbn [whole] in H. set (d2 := sync_inode i d1) in *.
  assert (Ei : dv_inodes d2 !! i = Some (mkInode b true true)).
  { unfold d2, sync_inode, d1. simpl. rewrite lookup_insert, decide_True by done. simpl.
    by rewrite lookup_insert, decide_True. }
  pose proof (rename_ok r i d2 O2 Ei) as N3.
  destruct (wf_rename w) as [|e [|n]|[|n]]; cbn [whole] in H;
    try (injection H as <- <-; (by left) || (right; by split)).
  set (d3 := rename _ _ _ d2) in *. pose proof (sync_dir_ok i d3 N3) as N4. right.
  destruct (wf_dirsync w) as [|e [|n]|[|n]]; cbn [whole] in H; injection H as <- <-; split; try done.
  intros _. apply N3.
Qed.

(** What replacing a state file promises. *)
Record replaces (name : bytes) (d d' : Device) (out : outcome unit) : Prop := {
  rp_content : content d' name = content d name \/ content d' name = Some b;
  rp_survives : forall x, survives d' name x -> x = content d name \/ x = Some b;
  rp_done : out = Ran (Ok tt) -> content d' name = Some b /\ settled d' name;
  rp_others : forall n, n <> name -> (forall r, n <> staging_name r) -> dv_dir d' !! n = dv_dir d !! n
}.

Lemma old_replaces d out : old_state d -> out <> Ran (Ok tt) -> replaces s d0 d out.
Proof.
  intros O Ne. split.
  - left. by apply old_state_content.
  - intros x Sx. left. by eapply old_state_survives.
  - done.
  - apply O.
Qed.
Lemma new_replaces i d out :
  new_state i d -> (out = Ran (Ok tt) -> dv_stable d !! s = Some i) -> replaces s d0 d out.
Proof.
  intros N St. split.
  - right. by eapply new_state_content.
  - intros x Sx. by eapply new_state_survives.
  - intros E. split; [by eapply new_state_content|]. destruct N as [_ E1 E2 _]. split.
    + by rewrite E1, St.
    + intros j x Ej Ex. rewrite E1 in Ej. injection Ej as <-. rewrite E2 in Ex. by injection Ex as <-.
  - apply N.
Qed.

Lemma af_write_ok randoms w d' out :
  af_write a b randoms w d0 = (d', out) -> replaces s d0 d' out.
Proof.
  intros H. pose proof old_state_refl as O. unfold af_write in H. destruct (_ <? _).
  { injection H as <- <-. by apply old_replaces. }
  unfold dev_bind in H. destruct (af_read a (wf_read w) d0) as [d1 o1] eqn:R.
  assert (d1 = d0) as -> by (unfold af_read, dev_bind, dev_call in R; by destruct (wf_read w); injection R).
  destruct o1 as [[x|e]|]; [|injection H as <- <-; by apply old_replaces..].
  destruct (allocate 16 randoms (wf_create w) d0) as [d2 o2] eqn:A.
  destruct (allocate_ok _ _ _ _ _ _ O A) as [O2 Al].
  destruct o2 as [[[name i]|e]|]; [|injection H as <- <-; by apply old_replaces..].
  destruct (Al name i eq_refl) as [[r ->] Ni]. cbn [fst snd] in H.
  destruct (write_staged a (staging_name r) i b w d2) as [d3 o3] eqn:W.
  pose proof (write_staged_ok _ _ _ _ _ _ O2 Ni W) as C.
  set (unlink d := set_dir (delete (staging_name r) (dv_dir d)) d) in H.
  assert (C' : forall d4 o4, d4 = d3 \/ d4 = unlink d3 -> (o4 = o3 \/ o4 = Halted) -> replaces s d0 d4 o4).
  { intros d4 o4 Hd Ho.
    assert (U : forall n, n <> staging_name r ->
      delete (staging_name r) (dv_dir d3) !! n = dv_dir d3 !! n) by (intros n Ne; by apply lookup_delete_ne).
    destruct C as [[O3 No]|[N3 St]].
    - apply old_replaces; [|by destruct Ho as [->| ->]]. destruct Hd as [->| ->]; [done|].
      eapply (old_state_names _ (staging_name r)); [apply Hn|by exists r|done|done].
    - apply (new_replaces i); [|intros ->; destruct Ho as [Ho|Ho]; [|done]].
      + destruct Hd as [->| ->]; [done|].
        eapply (new_state_names i _ (staging_name r)); [apply Hn|by exists r|done|done].
      + destruct Hd as [->| ->]; by apply St. }
  destruct o3 as [r3|]; [|injection H as <- <-; apply C'; by left].
  destruct (wf_unlink w) as [|e [|n]|[|n]]; cbn [whole] in H; injection H as <- <-; apply C'; auto.
Qed.
End Write.

(** C21: Replacing a state file is atomic and durable.  Whatever call fails, and wherever the
    machine stops, the file holds the old state or all of the new one - as the process sees
    it, and after a power loss; once the write has returned, the new state survives any
    power loss.  No name but the state and the staging file is touched. *)
Theorem write_crash_safe a b randoms w d d' out :
  closed d -> settled d (af_state_name a) -> (forall r, staging_name r <> af_state_name a) ->
  af_write a b randoms w d = (d', out) ->
  replaces b (af_state_name a) d d' out
  /\ (out = Ran (Ok tt) -> forall x, survives d' (af_state_name a) x -> x = Some b).
Proof.
  intros Hc Hs Hn H. pose proof (af_write_ok a b d Hc Hs Hn _ _ _ _ H) as R. split; [done|].
  intros E x Sx. destruct (rp_done _ _ _ _ _ R E) as [C S]. rewrite <-C. by apply settled_survives.
Qed.

(** ** When no call fails *)

Lemma allocate_done tries rs d :
  (exists r, r ∈ take tries rs /\ dv_dir d !! staging_name r = None) ->
  exists r, dv_dir d !! staging_name r = None
    /\ allocate tries rs Fine d
       = (create_file (staging_name r) (fresh (dom (dv_inodes d))) d,
          Ran (Ok (staging_name r, fresh (dom (dv_inodes d))))).
Proof.
  revert rs. induction tries as [|tries IH]; intros [|x rs] (r & Er & Nr);
    try (by apply not_elem_of_nil in Er). simpl.
  destruct (dv_dir d !! staging_name x) eqn:Ex; [|by exists x].
  apply IH. exists r. split; [|done]. simpl in Er. apply elem_of_cons in Er as [->|Er]; [congruence|done].
Qed.

(** A write succeeds when the old state is readable, the new one fits, one of the names
    drawn is unused and no call fails. *)
Theorem write_completes a b randoms d :
  closed d -> settled d (af_state_name a) -> (forall r, staging_name r <> af_state_name a) ->
  zlen b <= MAX_STATE -> (af_read a Fine d).2 <> Halted -> (forall e, (af_read a Fine d).2 <> Ran (Err e)) ->
  (exists r, r ∈ take 16 randoms /\ dv_dir d !! staging_name r = None) ->
  exists d', af_write a b randoms no_faults d = (d', Ran (Ok tt))
    /\ (forall x, survives d' (af_state_name a) x -> x = Some b)
    /\ (af_read a Fine d').2 = Ran (Ok (Some b)).
Proof.
  intros Hc Hs Hn Hl R1 R2 Hr. destruct (af_write a b randoms no_faults d) as [d' out] eqn:W.
  pose proof (af_write_ok a b d Hc Hs Hn _ _ _ _ W) as R.
  destruct (allocate_done _ _ _ Hr) as (r & Nr & Al).
  unfold af_write in W. rewrite (proj2 (Z.ltb_ge _ _)) in W by done. unfold dev_bind in W.
  assert (E1 : (af_read a Fine d).1 = d) by done.
  cbn [wf_read wf_create no_faults] in W.
  destruct (af_read a Fine d) as [d1 [[x|e]|]] eqn:Rd; [|by destruct (R2 e)|done]. simpl in E1. subst d1.
  rewrite Al in W. cbn [fst snd] in W. unfold write_staged, dev_bind, dev_call in W.
  cbn [wf_data wf_sync wf_rename wf_dirsync wf_unlink no_faults whole] in W.
  set (i := fresh (dom (dv_inodes d))) in W. injection W as Ed <-.
  exists d'. split; [done|]. destruct (rp_done _ _ _ _ _ R eq_refl) as [C S]. split.
  - intros y Sy. rewrite <-C. by apply settled_survives.
  - assert (Ei : lookup_file (af_state_name a) d' = Some (mkInode b true true)).
    { rewrite <-Ed. unfold lookup_file, rename. simpl.
      rewrite lookup_delete_ne, lookup_insert, decide_True by done.
      unfold sync_inode. simpl. rewrite lookup_insert, decide_True by done. simpl.
      by rewrite lookup_insert, decide_True. }
    unfold af_read, dev_bind, dev_call. rewrite Ei. simpl. by rewrite (proj2 (Z.ltb_ge _ _)).
Qed.

Lemma from_directory_ok state_name lock_name d a d' :
  from_directory state_name lock_name true Fine Fine d = (d', Ran (Ok a)) ->
  af_state_name a = state_name /\ dv_dir d' !! lock_name = Some (af_lock a)
  /\ (exists x, dv_inodes d' !! af_lock a = Some x /\ in_regular x = true)
  /\ af_lock a ∈ dv_locked d'.
Proof.
  unfold from_directory. destruct (dev_call _ _ _ d) as [d1 [[u|]|]]; [|done..].
  destruct (dv_dir d1 !! lock_name) as [i|] eqn:Ed; [|done].
  destruct (dv_inodes d1 !! i) as [x|] eqn:Ei; [|done]. unfold regular.
  destruct (in_regular x) eqn:Er; [|done]. simpl. case_bool_decide; [done|].
  intros [= <- <-]. split_and!; [done|done|by exists x|set_solver].
Qed.

(** Opening a directory whose lock file exists. *)
Lemma from_directory_again state_name lock_name f_open f_lock d i x :
  dv_dir d !! lock_name = Some i -> dv_inodes d !! i = Some x -> in_regular x = true ->
  from_directory state_name lock_name true f_open f_lock d =
  match f_open, f_lock with
  | Fine, Fine => if bool_decide (i ∈ dv_locked d) then (d, Ran (Err Busy))
                  else (set_locked ({[i]} ∪ dv_locked d) d, Ran (Ok (mkAtomicFile i state_name)))
  | Fine, Fails e _ | Fails e _, _ => (d, Ran (Err (persist_store e)))
  | Fine, Halts _ | Halts _, _ => (d, Halted)
  end.
Proof.
  intros Ed Ei Er. unfold from_directory, dev_call. destruct f_open; rewrite Ed; try done.
  rewrite Ed, Ei. unfold regular. rewrite Er. simpl. by destruct f_lock.
Qed.

(** While one owner holds the lock, a second one is turned away; when the owner is dropped
    the lock is free. *)
Theorem owner_exclusive state_name lock_name d a d' f_open f_lock state_name' :
  from_directory state_name lock_name true Fine Fine d = (d', Ran (Ok a)) ->
  (forall a', (from_directory state_name' lock_name true f_open f_lock d').2 <> Ran (Ok a'))
  /\ (from_directory state_name' lock_name true Fine Fine d').2 = Ran (Err Busy)
  /\ (from_directory state_name' lock_name true Fine Fine (af_drop a d')).2
     = Ran (Ok (mkAtomicFile (af_lock a) state_name')).
Proof.
  intros H. destruct (from_directory_ok _ _ _ _ _ H) as (_ & Ed & (x & Ei & Er) & Il).
  rewrite !(from_directory_again _ _ _ _ d' _ x Ed Ei Er).
  rewrite (from_directory_again _ _ _ _ (af_drop a d') (af_lock a) x) by done.
  rewrite !bool_decide_eq_true_2 by done. simpl. rewrite bool_decide_eq_false_2 by set_solver.
  split_and!; [|done|done]. intros a'. by destruct f_open, f_lock.
Qed.

(** Stopped after the rename: the new state is in place and the stable directory is the
    old one. *)
Lemma write_halted a b randoms d :
  zlen b <= MAX_STATE -> (exists x, (af_read a Fine d).2 = Ran (Ok x)) ->
  (exists r, r ∈ take 16 randoms /\ dv_dir d !! staging_name r = None) ->
  exists d1 i, af_write a b randoms (mkFaults Fine Fine Fine Fine Fine (Halts 0) Fine) d = (d1, Halted)
    /\ dv_dir d1 !! af_state_name a = Some i /\ dv_inodes d1 !! i = Some (mkInode b true true)
    /\ dv_stable d1 = dv_stable d
    /\ (forall j, is_Some (dv_inodes d !! j) -> dv_inodes d1 !! j = dv_inodes d !! j)
    /\ (forall n, n <> af_state_name a -> (forall r, staging_name r <> n) -> dv_dir d1 !! n = dv_dir d !! n).
Proof.
  intros Hl [x R] Hr. destruct (allocate_done _ _ _ Hr) as (r & Nr & Al).
  unfold af_write. rewrite (proj2 (Z.ltb_ge _ _)) by done. unfold dev_bind.
  assert (E1 : (af_read a Fine d).1 = d) by done. cbn [wf_read wf_create].
  destruct (af_read a Fine d) as [d0 o]. simpl in R, E1. subst o d0. rewrite Al. cbn [fst snd].
  unfold write_staged, dev_bind, dev_call. cbn [wf_data wf_sync wf_rename wf_dirsync wf_unlink whole].
  set (i := fresh (dom (dv_inodes d))). set (d1 := rename _ _ _ _). exists d1, i.
  assert (Ei : forall j, dv_inodes d1 !! j = <[i := mkInode b true true]> (dv_inodes d) !! j).
  { intros j. unfold d1, sync_inode. simpl. rewrite lookup_insert, decide_True by done. simpl.
    by rewrite !insert_insert_eq. }
  split_and!.
  - done.
  - unfold d1. simpl. by rewrite lookup_insert, decide_True.
  - rewrite Ei. by rewrite lookup_insert, decide_True.
  - unfold d1, sync_inode. simpl. rewrite lookup_insert, decide_True by done. done.
  - intros j Hj. rewrite Ei, lookup_insert_ne; [done|]. intros <-.
    apply (is_fresh (dom (dv_inodes d))). by apply elem_of_dom.
  - intros n N1 N2. unfold d1. simpl. rewrite lookup_insert_ne, lookup_delete_ne by done.
    unfold sync_inode. simpl. rewrite lookup_insert, decide_True by done. simpl. by rewrite lookup_insert_ne.
Qed.

(** Stopping between the rename and the synchronization of the directory leaves a state that
    the next owner reads although a power loss can still take it back: opening and reading
    synchronize nothing. *)
Theorem read_before_durable a b randoms d lock_name f_lock :
  closed d -> settled d (af_state_name a) -> zlen b <= MAX_STATE ->
  (exists x, (af_read a Fine d).2 = Ran (Ok x)) ->
  (exists r, r ∈ take 16 randoms /\ dv_dir d !! staging_name r = None) ->
  is_Some (dv_dir d !! lock_name) -> lock_name <> af_state_name a -> (forall r, staging_name r <> lock_name) ->
  exists d1, af_write a b randoms (mkFaults Fine Fine Fine Fine Fine (Halts 0) Fine) d = (d1, Halted)
    /\ let d2 := (from_directory (af_state_name a) lock_name true Fine f_lock d1).1 in
       (af_read a Fine d2).2 = Ran (Ok (Some b)) /\ survives d2 (af_state_name a) (content d (af_state_name a)).
Proof.
  intros Hc [Hs Hy] Hl R Hr [k Hk] Hkn Hks.
  destruct (write_halted a b randoms d Hl R Hr) as (d1 & i & W & D & I & St & Old & Dk).
  exists d1. split; [done|]. set (d2 := (from_directory _ _ _ _ _ d1).1).
  assert (Same : dv_inodes d2 = dv_inodes d1 /\ dv_dir d2 = dv_dir d1 /\ dv_stable d2 = dv_stable d1).
  { unfold d2, from_directory, dev_call. assert (E : dv_dir d1 !! lock_name = Some k) by (rewrite Dk; done).
    rewrite !E. destruct (dv_inodes d1 !! k) as [y|]; [|done]. destruct (regular y); [|done].
    destruct f_lock; try done. by case_bool_decide. }
  destruct Same as (S1 & S2 & S3). split.
  - unfold af_read, dev_bind, dev_call, lookup_file. rewrite S1, S2, D, I. simpl.
    by rewrite (proj2 (Z.ltb_ge _ _)).
  - right. rewrite S3, St, Hs. unfold may_hold, content, lookup_file. rewrite S1.
    destruct (dv_dir d !! af_state_name a) as [j|] eqn:Ej; [|done].
    destruct (proj1 Hc _ _ Ej) as [y Ey]. rewrite Old by (by rewrite Ey). rewrite Ey.
    exists (in_data y). by split.
Qed.

(** ** Witnesses *)

Module PersistWitness.
Definition file : AtomicFile := mkAtomicFile 1 (bs "policy.json").
(** A directory with its lock file and a state. *)
Definition device : Device :=
  mkDevice {[ 1%positive := mkInode (bs "sealed") true true; 2%positive := mkInode (bs "old") true true ]}
    {[ bs "policy.lock" := 1%positive; bs "policy.json" := 2%positive ]}
    {[ bs "policy.lock" := 1%positive; bs "policy.json" := 2%positive ]} ∅.

Lemma device_closed : closed device.
Proof.
  assert (H : forall n i, dv_dir device !! n = Some i -> is_Some (dv_inodes device !! i)).
  { intros n i. unfold device. simpl. rewrite lookup_insert. case_decide.
    - intros [= <-]. by eexists.
    - rewrite lookup_singleton. case_decide; [|done]. intros [= <-]. by eexists. }
  by split.
Qed.
Lemma device_settled : settled device (af_state_name file).
Proof.
  split; [done|]. intros i x E1 E2. assert (i = 2%positive) as -> by (vm_compute in E1; by injection E1 as <-).
  vm_compute in E2. by injection E2 as <-.
Qed.
Lemma not_staging r : staging_name r <> af_state_name file.
Proof. done. Qed.
Lemma not_lock r : staging_name r <> bs "policy.lock".
Proof. done. Qed.
Lemma unused : exists r, r ∈ take 16 [5] /\ dv_dir device !! staging_name r = None.
Proof. exists 5. split; [left|]. vm_compute. done. Qed.

(** The machine stops after half of the data. *)
Definition torn : WriteFaults := mkFaults Fine Fine (Halts 1) Fine Fine Fine Fine.

Lemma write_crash_safe_witness :
  replaces (bs "new") (bs "policy.json") device (af_write file (bs "new") [5] torn device).1
    (af_write file (bs "new") [5] torn device).2
  /\ (af_write file (bs "new") [5] torn device).2 = Halted.
Proof.
  destruct (write_crash_safe file (bs "new") [5] torn device _ _ device_closed device_settled not_staging
    (surjective_pairing _)) as [R _].
  split; [exact R|]. vm_compute. reflexivity.
Defined.

Lemma write_completes_witness :
  exists d', af_write file (bs "new") [5] no_faults device = (d', Ran (Ok tt))
    /\ (forall x, survives d' (bs "policy.json") x -> x = Some (bs "new"))
    /\ (af_read file Fine d').2 = Ran (Ok (Some (bs "new"))).
Proof.
  exact (write_completes file (bs "new") [5] device device_closed device_settled not_staging ltac:(done)
           ltac:(vm_compute; discriminate) ltac:(vm_compute; discriminate) unused).
Defined.

Definition locked : Device := (from_directory (bs "policy.json") (bs "policy.lock") true Fine Fine device).1.
Lemma owner_exclusive_witness :
  (from_directory (bs "policy.json") (bs "policy.lock") true Fine Fine locked).2 = Ran (Err Busy)
  /\ (from_directory (bs "policy.json") (bs "policy.lock") true Fine Fine (af_drop file locked)).2
     = Ran (Ok (mkAtomicFile 1 (bs "policy.json"))).
Proof.
  assert (E : from_directory (bs "policy.json") (bs "policy.lock") true Fine Fine device = (locked, Ran (Ok file)))
    by (vm_compute; reflexivity).
  exact (proj2 (owner_exclusive _ _ _ _ _ Fine Fine (bs "policy.json") E)).
Defined.

Lemma read_before_durable_witness :
  exists d1, af_write file (bs "new") [5] (mkFaults Fine Fine Fine Fine Fine (Halts 0) Fine) device = (d1, Halted)
    /\ let d2 := (from_directory (bs "policy.json") (bs "policy.lock") true Fine Fine d1).1 in
       (af_read file Fine d2).2 = Ran (Ok (Some (bs "new"))) /\ survives d2 (bs "policy.json") (Some (bs "old")).
Proof.
  exact (read_before_durable file (bs "new") [5] device (bs "policy.lock") Fine device_closed device_settled
           ltac:(done) ltac:(by eexists) unused ltac:(by eexists) ltac:(done) not_lock).
Defined.
End PersistWitness.
