(* ===== verification/Clock.v ===== *)
(** * Leases on signed data: wall clock and continuous clock

    Models [src/crates/rds-discovery/src/clock.rs].  A [Reading] samples the boot
    identifier, the wall clock and the monotonic clock that counts sleep; a [Lease]
    is usable only while all three agree with the moment it was accepted.  The
    operating-system calls are the arguments of [Reading_sample]. *)

From S2P Require Import Prelude Discovery.

Record Reading : Type := mkReading {
  rd_boot : bytes;
  rd_wall : duration;
  rd_continuous : duration
}.

(** [Reading::sample]: [tv_sec] and [tv_nsec] come from [clock_gettime], [wall] is
    [SystemTime::now().duration_since(UNIX_EPOCH)], [boot] the cached boot
    identifier or the text of the failure to read it. *)
Definition Reading_sample (boot : result bytes string) (tv_sec tv_nsec : Z)
    (wall : option duration) : result Reading DiscoveryError :=
  let? seconds := (if (0 <=? tv_sec) && (tv_sec <=? u64_max) then Ok tv_sec
                   else Err (invalid "negative monotonic clock")) in
  let? nanos := (if (0 <=? tv_nsec) && (tv_nsec <=? u32_max) then Ok tv_nsec
                 else Err (invalid "invalid monotonic clock")) in
  if nanos_per_sec <=? nanos then Err (invalid "invalid monotonic clock") else
  let continuous := from_secs seconds + nanos in
  let? wall := ok_or wall (invalid "clock before epoch") in
  let? boot := map_err invalid boot in
  Ok (mkReading boot wall continuous).

Record Lease : Type := mkLease {
  ls_boot : bytes;
  ls_issued_at : Z;
  ls_expires_at : Z;
  ls_accepted_wall : duration;
  ls_accepted_continuous : duration;
  ls_deadline : duration
}.

#[export] Instance Lease_eq_dec : EqDecision Lease.
Proof. solve_decision. Defined.

(** [Lease::new]. *)
Definition Lease_new (issued_at expires_at : Z) (now : Reading) :
    result Lease DiscoveryError :=
  if as_secs (rd_wall now) <? issued_at
  then Err (invalid "signed data is from the future") else
  let? remaining :=
    (match dur_checked_sub (from_secs expires_at) (rd_wall now) with
     | Some d => if d =? 0 then Err DExpired else Ok d
     | None => Err DExpired
     end) in
  let? deadline := ok_or (dur_checked_add (rd_continuous now) remaining)
                         (invalid "signed-data deadline overflow") in
  Ok {| ls_boot := rd_boot now;
        ls_issued_at := issued_at;
        ls_expires_at := expires_at;
        ls_accepted_wall := rd_wall now;
        ls_accepted_continuous := rd_continuous now;
        ls_deadline := deadline |}.

(** [Lease::valid_at]. *)
Definition Lease_valid_at (l : Lease) (now : Reading) : bool :=
  bool_decide (rd_boot now = ls_boot l)
  && (ls_accepted_wall l <=? rd_wall now)
  && (ls_issued_at l <=? as_secs (rd_wall now))
  && (as_secs (rd_wall now) <? ls_expires_at l)
  && (ls_accepted_continuous l <=? rd_continuous now)
  && (rd_continuous now <? ls_deadline l).

(** [Lease::remaining_at].  [Duration]'s [-] panics when it would be negative:
    [None] is that panic. *)
Definition Lease_remaining_at (l : Lease) (now : Reading) : option duration :=
  if negb (Lease_valid_at l now) then Some 0 else
  match dur_checked_sub (from_secs (ls_expires_at l)) (rd_wall now),
        dur_checked_sub (ls_deadline l) (rd_continuous now) with
  | Some a, Some b => Some (Z.min a b)
  | _, _ => None
  end.

(** [Lease::matches_interval]. *)
Definition Lease_matches_interval (l : Lease) (issued expires : Z) : bool :=
  (ls_issued_at l =? issued)
  && (ls_expires_at l =? expires)
  && (issued <=? as_secs (ls_accepted_wall l))
  && (as_secs (ls_accepted_wall l) <? expires)
  && bool_decide (dur_checked_sub (ls_deadline l) (ls_accepted_continuous l)
                  = dur_checked_sub (from_secs expires) (ls_accepted_wall l)).

(** ** What each test means *)

Lemma Lease_new_ok i e now l :
  Lease_new i e now = Ok l <->
  i <= as_secs (rd_wall now) /\ rd_wall now < from_secs e /\
  rd_continuous now + (from_secs e - rd_wall now) <= duration_max /\
  l = mkLease (rd_boot now) i e (rd_wall now) (rd_continuous now)
        (rd_continuous now + (from_secs e - rd_wall now)).
Proof.
  unfold Lease_new, dur_checked_sub, dur_checked_add.
  destruct (as_secs _ <? i) eqn:E1; b2p; [naive_solver lia|].
  destruct (rd_wall now <=? from_secs e) eqn:E2; b2p; [|naive_solver lia].
  destruct (from_secs e - rd_wall now =? 0) eqn:E3; b2p; [naive_solver lia|].
  destruct (_ <=? duration_max) eqn:E4; b2p; simpl; naive_solver lia.
Qed.

(** [Lease::new] refuses data dated in the future, expired data and an overflowing
    deadline, in that order. *)
Lemma Lease_new_err i e now :
  (as_secs (rd_wall now) < i -> Lease_new i e now = Err (invalid "signed data is from the future")) /\
  (i <= as_secs (rd_wall now) -> from_secs e <= rd_wall now -> Lease_new i e now = Err DExpired).
Proof.
  unfold Lease_new, dur_checked_sub. split.
  - intros H%Z.ltb_lt. by rewrite H.
  - intros H%Z.ltb_ge H2. rewrite H.
    destruct (rd_wall now <=? from_secs e) eqn:E; b2p; [|done].
    by replace (from_secs e - rd_wall now =? 0) with true by (symmetry; b2p; lia).
Qed.

Lemma Lease_valid_at_iff l now :
  Lease_valid_at l now = true <->
  rd_boot now = ls_boot l /\ ls_accepted_wall l <= rd_wall now /\
  from_secs (ls_issued_at l) <= rd_wall now < from_secs (ls_expires_at l) /\
  ls_accepted_continuous l <= rd_continuous now < ls_deadline l.
Proof.
  unfold Lease_valid_at. b2p. rewrite as_secs_ge, as_secs_lt. naive_solver.
Qed.

Lemma Lease_remaining_valid l now :
  Lease_valid_at l now = true ->
  Lease_remaining_at l now =
    Some (Z.min (from_secs (ls_expires_at l) - rd_wall now) (ls_deadline l - rd_continuous now)).
Proof.
  intros Hv. unfold Lease_remaining_at. rewrite Hv. simpl.
  apply Lease_valid_at_iff in Hv. unfold dur_checked_sub.
  destruct (rd_wall now <=? _) eqn:E1; b2p; [|lia].
  destruct (rd_continuous now <=? _) eqn:E2; b2p; [done|lia].
Qed.

(** ** Correctness of the lease *)

Lemma Lease_new_valid_at i e now l :
  Lease_new i e now = Ok l -> Lease_valid_at l now = true.
Proof.
  intros (Hi & He & Hd & ->)%Lease_new_ok.
  apply Lease_valid_at_iff. simpl. apply as_secs_ge in Hi. repeat split; lia.
Qed.

Lemma Lease_new_matches i e now l :
  Lease_new i e now = Ok l -> Lease_matches_interval l i e = true.
Proof.
  intros (K1 & K2 & K3 & ->)%Lease_new_ok. unfold Lease_matches_interval, dur_checked_sub. simpl.
  b2p. rewrite as_secs_lt. split_and!; try done.
  rewrite !(proj2 (Z.leb_le _ _)) by lia. f_equal. lia.
Qed.

(** A lease accepted by [Lease::new] is valid at the reading that accepted it,
    describes the signed interval it was made from, and has exactly the rest of
    that interval left. *)
Theorem Lease_new_valid i e now l :
  Lease_new i e now = Ok l ->
  Lease_valid_at l now = true /\
  Lease_matches_interval l i e = true /\
  Lease_remaining_at l now = Some (from_secs e - rd_wall now).
Proof.
  intros Hl. pose proof (Lease_new_valid_at _ _ _ _ Hl) as Hv.
  split; [done|]. split; [by eapply Lease_new_matches|].
  rewrite (Lease_remaining_valid _ _ Hv). apply Lease_new_ok in Hl as (_ & He & _ & ->).
  simpl. f_equal. lia.
Qed.

(** No clock can stretch a lease.  While it is valid the machine has not
    rebooted, the continuous clock has advanced by less than what was left of the
    signed interval at acceptance, and the wall clock is between the acceptance
    and the signed expiry; so a rewound wall clock never revives it. *)
Theorem Lease_bounded_by_both_clocks i e t0 t l :
  Lease_new i e t0 = Ok l -> Lease_valid_at l t = true ->
  rd_boot t = rd_boot t0 /\
  0 <= rd_continuous t - rd_continuous t0 < from_secs e - rd_wall t0 /\
  rd_wall t0 <= rd_wall t < from_secs e /\ i <= as_secs (rd_wall t).
Proof.
  intros (Hi & He & Hd & ->)%Lease_new_ok Hv%Lease_valid_at_iff. simpl in Hv.
  destruct Hv as (Hb & Hw & Hs & Hc). split; [done|].
  pose proof (as_secs_mono _ _ Hw). lia.
Qed.

(** [remaining_at] never panics; it is zero exactly when the lease is not valid,
    and otherwise positive, at most the rest of the signed interval, and the lease
    does expire within it on the continuous clock. *)
Theorem Lease_remaining_exact l now :
  exists d, Lease_remaining_at l now = Some d /\
    (Lease_valid_at l now = false <-> d = 0) /\
    (Lease_valid_at l now = true ->
       0 < d <= from_secs (ls_expires_at l) - rd_wall now /\
       d <= ls_deadline l - rd_continuous now).
Proof.
  destruct (Lease_valid_at l now) eqn:Hv.
  - rewrite (Lease_remaining_valid _ _ Hv). eexists; split; [done|].
    apply Lease_valid_at_iff in Hv. split; [split; [done|lia]|]. intros _. lia.
  - unfold Lease_remaining_at. rewrite Hv. exists 0. naive_solver.
Qed.

(** Expiry is final.  If a lease is not valid at [t] although [t] is not before its
    acceptance on either clock, it is not valid at any later reading of the two
    clocks. *)
Theorem Lease_expiry_final l t t' :
  ls_accepted_wall l <= rd_wall t -> from_secs (ls_issued_at l) <= rd_wall t ->
  ls_accepted_continuous l <= rd_continuous t -> rd_boot t = rd_boot t' ->
  rd_wall t <= rd_wall t' -> rd_continuous t <= rd_continuous t' ->
  Lease_valid_at l t = false -> Lease_valid_at l t' = false.
Proof.
  intros ?? ? Hb ? ? Hv. apply not_true_iff_false. intros Hv'.
  apply not_true_iff_false in Hv. apply Hv. apply Lease_valid_at_iff.
  apply Lease_valid_at_iff in Hv' as (Hb' & ? & ? & ?).
  repeat split; try lia. congruence.
Qed.

(** ** Witnesses *)

Definition boot3 : bytes := replicate 16 "003"%char.
Definition rd_start : Reading := mkReading boot3 100100000000 10000000000.
Definition rd_suspended : Reading := mkReading boot3 100100000000 10800000000.
Definition rd_over : Reading := mkReading boot3 100100000000 10900000000.
Definition rd_after : Reading := mkReading boot3 100500000000 11000000000.
Definition lease_start : Lease :=
  mkLease boot3 100 101 100100000000 10000000000 10900000000.

Lemma Lease_new_valid_witness :
  Lease_new 100 101 rd_start = Ok lease_start /\
  Lease_remaining_at lease_start rd_start = Some (from_secs 101 - rd_wall rd_start).
Proof.
  assert (H : Lease_new 100 101 rd_start = Ok lease_start) by (vm_compute; reflexivity).
  exact (conj H (proj2 (proj2 (Lease_new_valid 100 101 rd_start lease_start H)))).
Defined.

Lemma Lease_bounded_witness :
  rd_boot rd_suspended = rd_boot rd_start /\
  0 <= rd_continuous rd_suspended - rd_continuous rd_start < from_secs 101 - rd_wall rd_start.
Proof.
  assert (H : Lease_new 100 101 rd_start = Ok lease_start) by (vm_compute; reflexivity).
  assert (V : Lease_valid_at lease_start rd_suspended = true) by (vm_compute; reflexivity).
  destruct (Lease_bounded_by_both_clocks 100 101 rd_start rd_suspended lease_start H V)
    as (Hb & Hc & _). exact (conj Hb Hc).
Defined.

Lemma Lease_expiry_final_witness : Lease_valid_at lease_start rd_after = false.
Proof.
  apply (Lease_expiry_final lease_start rd_over rd_after);
    vm_compute; congruence || reflexivity.
Defined.
