(* ===== verification/Paths.v ===== *)
(** * Relative paths: lexical validation of peer-supplied names

    Models [check_rel_path] of [src/crates/rds-sync/src/proto.rs] and the string and
    path operations of the standard library it uses ([str::split], [PathBuf::push],
    [Path::components]), on a Unix target: a path is its bytes, [/] separates. *)

From S2P Require Import Prelude.

(** [SyncError] of [src/crates/rds-sync/src/lib.rs]; a message keeps its constant
    part, not the formatted value. *)
Inductive SyncError : Type :=
| Io (kind : string)
| ManifestErr (message : string).

#[export] Instance SyncError_eq_dec : EqDecision SyncError.
Proof. solve_decision. Defined.

(** ** The standard library's string and path operations *)

Definition is_slash (c : ascii) : bool := bool_decide (c = "/"%char).
Definition is_backslash (c : ascii) : bool := bool_decide (c = "\"%char).
(** The pattern [['/', '\\']]. *)
Definition is_sep (c : ascii) : bool := is_slash c || is_backslash c.

(** [str::split] with a character pattern: one part more than separators. *)
Fixpoint split_on (p : ascii -> bool) (s : bytes) : list bytes :=
  match s with
  | [] => [[]]
  | c :: s =>
      if p c then [] :: split_on p s
      else match split_on p s with
           | [] => [[c]]
           | w :: ws => (c :: w) :: ws
           end
  end.

Fixpoint join (sep : ascii) (l : list bytes) : bytes :=
  match l with
  | [] => []
  | [w] => w
  | w :: ws => w ++ sep :: join sep ws
  end.

Definition contains_byte (c : ascii) (s : bytes) : bool := bool_decide (c ∈ s).
Definition starts_with_byte (p : ascii -> bool) (s : bytes) : bool :=
  match s with c :: _ => p c | [] => false end.

(** [u8::to_ascii_lowercase] and [str::eq_ignore_ascii_case]. *)
Definition ascii_lower (c : ascii) : ascii :=
  if (65 <=? byte_val c) && (byte_val c <=? 90)
  then ascii_of_N (N_of_ascii c + 32) else c.
Definition eq_ignore_ascii_case (a b : bytes) : bool :=
  bool_decide (ascii_lower <$> a = ascii_lower <$> b).

(** [PathBuf::push] on Unix. *)
Definition path_push (path part : bytes) : bytes :=
  if starts_with_byte is_slash part then part
  else match last path with
       | None => path ++ part
       | Some c => if is_slash c then path ++ part else path ++ "/"%char :: part
       end.

(** [Path::components] on Unix: empty parts vanish, [.] survives only in front. *)
Inductive Component : Type :=
| RootDir
| CurDir
| ParentDir
| Normal (name : bytes).

#[export] Instance Component_eq_dec : EqDecision Component.
Proof. solve_decision. Defined.

Definition component_of (part : bytes) : option Component :=
  if bool_decide (part = []) then None
  else if bool_decide (part = bs ".") then None
  else if bool_decide (part = bs "..") then Some ParentDir
  else Some (Normal part).

Definition path_components (path : bytes) : list Component :=
  let parts := split_on is_slash path in
  (if starts_with_byte is_slash path then [RootDir]
   else match parts with
        | part :: _ => if bool_decide (part = bs ".") then [CurDir] else []
        | [] => []
        end) ++ omap component_of parts.

(** [Path == Path] and [Path::starts_with] compare components. *)
Definition path_eqb (a b : bytes) : bool :=
  bool_decide (path_components a = path_components b).
Definition path_starts_with (a b : bytes) : bool :=
  bool_decide (path_components b `prefix_of` path_components a).

(** ** The code *)

(** [journal::STATE_DIR] and [proto::MAX_REL_PATH]. *)
Definition STATE_DIR : bytes := bs ".rds-sync".
Definition MAX_REL_PATH : Z := 512.

(** One round of the loop over [rel.split(['/', '\\'])]. *)
Definition rel_path_part (out part : bytes) : result bytes SyncError :=
  if bool_decide (part = []) || bool_decide (part = bs ".") then Ok out
  else if bool_decide (part = bs "..") then Err (ManifestErr "traversal in rel_path")
  else if eq_ignore_ascii_case part STATE_DIR
  then Err (ManifestErr "rel_path enters the sync journal")
  else Ok (path_push out part).

(** [proto::check_rel_path]. *)
Definition check_rel_path (rel : bytes) : result bytes SyncError :=
  if bool_decide (rel = []) || (MAX_REL_PATH <? zlen rel)
  then Err (ManifestErr "bad rel_path") else
  if contains_byte "000"%char rel then Err (ManifestErr "rel_path contains NUL") else
  if starts_with_byte is_sep rel || bool_decide (rel !! 1%nat = Some ":"%char)
     || starts_with_byte (fun c => bool_decide (c = "~"%char)) rel
  then Err (ManifestErr "absolute rel_path") else
  let? out := try_fold rel_path_part [] (split_on is_sep rel) in
  if bool_decide (out = []) then Err (ManifestErr "empty rel_path") else Ok out.

(** ** Splitting and joining *)

Lemma split_on_cons p s : exists w ws, split_on p s = w :: ws.
Proof.
  induction s as [|c s (w & ws & IH)]; simpl; [eauto|].
  rewrite IH. destruct (p c); eauto.
Qed.

Lemma split_on_forall p s : Forall (Forall (fun c => p c = false)) (split_on p s).
Proof.
  induction s as [|c s IH]; simpl; [repeat constructor|].
  destruct (p c) eqn:E; [by constructor|].
  destruct (split_on p s) as [|w ws]; [repeat constructor; done|].
  apply Forall_cons in IH as [Hw Hws]. repeat constructor; done.
Qed.

Lemma split_on_nosep p s : Forall (fun c => p c = false) s -> split_on p s = [s].
Proof.
  induction 1 as [|c s Hc Hs IH]; simpl; [done|]. by rewrite Hc, IH.
Qed.

Lemma split_on_app p w c s :
  Forall (fun c => p c = false) w -> p c = true ->
  split_on p (w ++ c :: s) = w :: split_on p s.
Proof.
  intros Hw Hc. induction Hw as [|x w Hx Hw IH]; simpl; [by rewrite Hc|].
  by rewrite Hx, IH.
Qed.

Lemma split_join p sep ws :
  p sep = true -> ws <> [] -> Forall (Forall (fun c => p c = false)) ws ->
  split_on p (join sep ws) = ws.
Proof.
  intros Hsep. induction ws as [|w ws IH]; [done|]. intros _ [Hw Hws]%Forall_cons.
  destruct ws as [|w' ws]; simpl; [by apply split_on_nosep|].
  rewrite split_on_app by done. f_equal. by apply IH.
Qed.

(** Total length of the parts, one byte for every separator between them. *)
Lemma split_on_length p s : 
  (length s = sum_list (length <$> split_on p s) + (length (split_on p s) - 1))%nat.
Proof.
  induction s as [|c s IH]; simpl; [done|].
  destruct (split_on_cons p s) as (w & ws & E). rewrite E in *. simpl in *.
  destruct (p c); simpl; lia.
Qed.

Lemma join_length sep ws : 
  (length (join sep ws) = sum_list (length <$> ws) + (length ws - 1))%nat.
Proof.
  induction ws as [|w ws IH]; simpl; [done|]. destruct ws as [|w' ws]; simpl in *; [lia|].
  rewrite length_app. simpl in *. lia.
Qed.

Lemma elem_of_join sep ws c : c ∈ join sep ws -> c = sep \/ exists w, w ∈ ws /\ c ∈ w.
Proof.
  induction ws as [|w ws IH]; simpl; [by intros ?%elem_of_nil|].
  destruct ws as [|w' ws]; [set_solver|].
  rewrite elem_of_app, elem_of_cons. set_solver.
Qed.

Lemma elem_of_split p s c w : w ∈ split_on p s -> c ∈ w -> c ∈ s.
Proof.
  revert w. induction s as [|x s IH]; simpl; intros w.
  - intros ->%list_elem_of_singleton. done.
  - destruct (split_on_cons p s) as (v & vs & E). rewrite E in *.
    destruct (p x); rewrite elem_of_cons; intros [->|Hw] Hc.
    + by apply elem_of_nil in Hc.
    + right. by apply (IH w).
    + apply elem_of_cons in Hc as [->|Hc]; [left|right].
      apply (IH v); [left|done].
    + right. apply (IH w); [by right|done].
Qed.

(** [PathBuf::push] of nonempty parts builds the [/]-separated string. *)
Definition plain_part (w : bytes) : Prop := w <> [] /\ Forall (fun c => is_slash c = false) w.

Lemma path_push_plain path w :
  plain_part w -> Forall (fun c => is_slash c = false) (default [] (last path ≫= fun c => Some [c])) ->
  path_push path w = if bool_decide (path = []) then w else path ++ "/"%char :: w.
Proof.
  intros [Hne Hw] Hlast. unfold path_push.
  destruct w as [|c w]; [done|]. simpl. apply Forall_cons in Hw as [Hc Hw]. rewrite Hc.
  destruct path as [|x path] using rev_ind; [done|]. rewrite last_snoc in *. simpl in Hlast.
  apply Forall_cons in Hlast as [Hx _]. rewrite Hx.
  rewrite bool_decide_eq_false_2; [done|]. by destruct path.
Qed.

Lemma join_snoc sep ws w : ws <> [] -> join sep (ws ++ [w]) = join sep ws ++ sep :: w.
Proof.
  induction ws as [|v ws IH]; [done|]. intros _. destruct ws as [|v' ws]; simpl; [done|].
  rewrite <-app_assoc. simpl. f_equal. f_equal. by apply IH.
Qed.

Lemma last_join ws w : plain_part w -> last (join "/" (ws ++ [w])) = last w.
Proof.
  intros [Hne _]. destruct w as [|c w] using rev_ind; [done|]. clear IHw.
  destruct (decide (ws = [])) as [->|Hws]; simpl; [done|].
  rewrite join_snoc by done. rewrite app_comm_cons, app_assoc, !last_snoc. done.
Qed.

Lemma join_ne sep ws : ws <> [] -> Forall (fun w => w <> []) ws -> join sep ws <> [].
Proof.
  destruct ws as [|w ws]; [done|]. intros _ [Hw _]%Forall_cons. destruct ws; simpl; [done|].
  by destruct w.
Qed.

Lemma path_push_join ws w :
  Forall plain_part ws -> plain_part w ->
  path_push (join "/" ws) w = join "/" (ws ++ [w]).
Proof.
  intros Hws Hw. destruct ws as [|v ws _] using rev_ind; simpl.
  - unfold path_push. destruct w as [|c w]; simpl; [done|].
    destruct Hw as [_ [Hc _]%Forall_cons]. by rewrite Hc.
  - apply Forall_app in Hws as [Hws [Hv _]%Forall_cons].
    rewrite path_push_plain; [|done|].
    + rewrite bool_decide_eq_false_2, (join_snoc _ (ws ++ [v])); [done|by destruct ws|].
      apply join_ne; [by destruct ws|]. apply Forall_app. split.
      * eapply Forall_impl; [done|]. by intros ? [? _].
      * constructor; [by destruct Hv|constructor].
    + rewrite last_join by done. destruct Hv as [_ Hv].
      destruct v as [|c v _] using rev_ind; simpl; [constructor|].
      rewrite last_snoc. simpl. apply Forall_app in Hv as [_ [Hc _]%Forall_cons].
      constructor; [done|constructor].
Qed.

(** ** What [check_rel_path] accepts *)

Definition kept_part (w : bytes) : Prop := w <> [] /\ w <> bs ".".
#[export] Instance kept_part_dec w : Decision (kept_part w).
Proof. unfold kept_part. apply _. Defined.

(** The components of a raw name: its parts without the empty and dot ones. *)
Definition rel_comps (rel : bytes) : list bytes := filter kept_part (split_on is_sep rel).

(** A component that neither climbs out of the root nor names the journal. *)
Definition safe_part (w : bytes) : Prop :=
  w <> bs ".." /\ eq_ignore_ascii_case w STATE_DIR = false.

(** The leading forms refused as absolute. *)
Definition looks_absolute (rel : bytes) : Prop :=
  starts_with_byte is_sep rel = true \/ rel !! 1%nat = Some ":"%char \/
  starts_with_byte (fun c => bool_decide (c = "~"%char)) rel = true.

Lemma kept_plain w :
  kept_part w -> Forall (fun c => is_sep c = false) w -> plain_part w.
Proof.
  intros [Hne _] Hw. split; [done|]. eapply Forall_impl; [done|].
  intros c Hc. unfold is_sep in Hc. by apply orb_false_iff in Hc as [Hc _].
Qed.

Lemma rel_path_part_kept out w :
  kept_part w -> rel_path_part out w =
    if bool_decide (w = bs "..") then Err (ManifestErr "traversal in rel_path")
    else if eq_ignore_ascii_case w STATE_DIR
    then Err (ManifestErr "rel_path enters the sync journal")
    else Ok (path_push out w).
Proof.
  intros [H1 H2]. unfold rel_path_part.
  by rewrite (bool_decide_eq_false_2 (w = [])), (bool_decide_eq_false_2 (w = bs ".")).
Qed.

Lemma rel_path_part_dropped out w : ~ kept_part w -> rel_path_part out w = Ok out.
Proof.
  intros H. unfold rel_path_part. destruct (_ || _) eqn:E; [done|].
  b2p. exfalso. apply H. by unfold kept_part.
Qed.

Lemma try_fold_rel_path parts ws out :
  Forall plain_part ws -> Forall (Forall (fun c => is_sep c = false)) parts ->
  try_fold rel_path_part (join "/" ws) parts = Ok out <->
  Forall safe_part (filter kept_part parts) /\ out = join "/" (ws ++ filter kept_part parts).
Proof.
  intros Hws Hparts. revert ws Hws.
  induction Hparts as [|w parts Hw Hparts IH]; intros ws Hws; simpl.
  - rewrite app_nil_r. split; [intros [= <-]; split; [constructor|done]|by intros [_ ->]].
  - destruct (decide (kept_part w)) as [Hk|Hk].
    + rewrite filter_cons_True, rel_path_part_kept by done.
      rewrite Forall_cons. unfold safe_part at 1.
      destruct (bool_decide (w = bs "..")) eqn:E1; b2p; [split; [done|naive_solver]|].
      destruct (eq_ignore_ascii_case w STATE_DIR) eqn:E2; [split; [done|naive_solver]|].
      rewrite path_push_join; [|done|by apply kept_plain].
      rewrite IH by (apply Forall_app; split; [done|constructor; [by apply kept_plain|constructor]]).
      rewrite <-app_assoc. naive_solver.
    + rewrite filter_cons_False, rel_path_part_dropped by done. by apply IH.
Qed.

Lemma rel_comps_plain rel : Forall plain_part (rel_comps rel).
Proof.
  apply Forall_forall. intros w [Hk Hw]%list_elem_of_filter.
  apply kept_plain; [done|]. pose proof (split_on_forall is_sep rel) as H.
  rewrite Forall_forall in H. by apply H.
Qed.

Lemma check_rel_path_ok rel p :
  check_rel_path rel = Ok p <->
  rel <> [] /\ zlen rel <= MAX_REL_PATH /\ ~ ("000"%char ∈ rel) /\ ~ looks_absolute rel /\
  Forall safe_part (rel_comps rel) /\ rel_comps rel <> [] /\ p = join "/" (rel_comps rel).
Proof.
  unfold check_rel_path, looks_absolute, contains_byte.
  destruct (bool_decide (rel = []) || _) eqn:E1; b2p; [naive_solver lia|].
  destruct (bool_decide ("000"%char ∈ rel)) eqn:E2; b2p; [naive_solver|].
  destruct (starts_with_byte is_sep rel || _ || _) eqn:E3; b2p; [naive_solver|].
  destruct (try_fold _ _ _) as [out|e] eqn:E4.
  - apply (try_fold_rel_path _ []) in E4 as [Hs ->]; [|constructor|apply split_on_forall].
    simpl. fold (rel_comps rel) in *.
    destruct (bool_decide (join "/" (rel_comps rel) = [])) eqn:E5; b2p.
    + split; [done|]. intros (_ & _ & _ & _ & _ & Hne & _). exfalso.
      eapply join_ne; [exact Hne| |exact E5].
      eapply Forall_impl; [apply rel_comps_plain|]. by intros ? [? _].
    + assert (rel_comps rel <> []) by (intros Hx; rewrite Hx in E5; done).
      destruct E1 as [E1 E1'], E3 as [[E3 E3'] E3''].
      split; [|by intros (_ & _ & _ & _ & _ & _ & ->)]. intros [= <-].
      repeat split; try done. by intros [H1|[H1|H1]]; congruence.
  - split; [done|]. intros (_ & _ & _ & _ & Hs & _). exfalso.
    assert (K : try_fold rel_path_part (join "/" []) (split_on is_sep rel)
                = Ok (join "/" ([] ++ rel_comps rel)))
      by (apply try_fold_rel_path; [constructor|apply split_on_forall|by split]).
    simpl in K. congruence.
Qed.

Lemma omap_component ws :
  Forall kept_part ws -> Forall (fun w => w <> bs "..") ws ->
  omap component_of ws = Normal <$> ws.
Proof.
  induction 1 as [|w ws [H1 H2] Hws IH]; [done|]. intros [H3 H4]%Forall_cons. simpl.
  unfold component_of at 1. rewrite !bool_decide_eq_false_2 by done.
  f_equal. by apply IH.
Qed.

Lemma path_components_join ws :
  ws <> [] -> Forall plain_part ws -> Forall kept_part ws ->
  Forall (fun w => w <> bs "..") ws ->
  path_components (join "/" ws) = Normal <$> ws.
Proof.
  intros Hne Hp Hk Hd. unfold path_components.
  rewrite (split_join is_slash "/") by (done || (eapply Forall_impl; [exact Hp|by intros ? [_ ?]])).
  rewrite omap_component by done.
  destruct ws as [|w ws]; [done|]. apply Forall_cons in Hp as [[Hw1 Hw2] _].
  apply Forall_cons in Hk as [[_ Hk] _].
  replace (starts_with_byte is_slash (join "/" (w :: ws))) with false.
  - by rewrite bool_decide_eq_false_2.
  - destruct w as [|c w]; [done|]. apply Forall_cons in Hw2 as [Hc _].
    by destruct ws; simpl; rewrite Hc.
Qed.

Lemma rel_comps_kept rel : Forall kept_part (rel_comps rel).
Proof. apply Forall_forall. by intros w [Hk _]%list_elem_of_filter. Qed.

Lemma filter_length_sum (ws : list bytes) :
  (sum_list (length <$> filter kept_part ws) + length (filter kept_part ws)
   <= sum_list (length <$> ws) + length ws)%nat.
Proof.
  induction ws as [|w ws IH]; [done|].
  destruct (decide (kept_part w)); [rewrite filter_cons_True by done|rewrite filter_cons_False by done];
    csimpl in *; lia.
Qed.

(** Confinement of peer-supplied names.  A path accepted by [check_rel_path] has only
    ordinary components (no root, no [.], no [..]), at least one of them, none equal to
    the journal directory in any letter case, no NUL byte, and at most 512 bytes. *)
Theorem check_rel_path_confined rel p :
  check_rel_path rel = Ok p ->
  exists names, names <> [] /\ path_components p = Normal <$> names /\
    Forall (fun n => n <> [] /\ n <> bs "." /\ n <> bs ".." /\
                     eq_ignore_ascii_case n STATE_DIR = false /\
                     ~ ("/"%char ∈ n) /\ ~ ("\"%char ∈ n)) names /\
    ~ ("000"%char ∈ p) /\ zlen p <= MAX_REL_PATH.
Proof.
  intros (Hne & Hlen & Hnul & Habs & Hsafe & Hc & ->)%check_rel_path_ok.
  exists (rel_comps rel). split; [done|]. split; [|split; [|split]].
  - apply path_components_join; auto using rel_comps_plain, rel_comps_kept.
    eapply Forall_impl; [exact Hsafe|]. by intros ? [? _].
  - apply Forall_forall. intros w Hw. rewrite Forall_forall in Hsafe.
    destruct (Hsafe w Hw) as [H1 H2]. apply list_elem_of_filter in Hw as [[H3 H4] Hw].
    pose proof (split_on_forall is_sep rel) as Hsep. rewrite Forall_forall in Hsep.
    specialize (Hsep w Hw). rewrite Forall_forall in Hsep.
    repeat split; try done; intros Hin; by specialize (Hsep _ Hin).
  - intros [Hx|(w & Hw & Hin)]%elem_of_join; [done|].
    apply list_elem_of_filter in Hw as [_ Hw]. apply Hnul. by eapply elem_of_split.
  - unfold zlen, MAX_REL_PATH in *. rewrite join_length.
    pose proof (split_on_length is_sep rel). unfold rel_comps in *.
    pose proof (filter_length_sum (split_on is_sep rel)).
    destruct (split_on_cons is_sep rel) as (w & ws & E). rewrite E in *.
    destruct (filter kept_part (w :: ws)); csimpl in *; lia.
Qed.

Lemma rel_comps_join ws :
  ws <> [] -> Forall kept_part ws -> Forall (Forall (fun c => is_sep c = false)) ws ->
  rel_comps (join "/" ws) = ws.
Proof.
  intros Hne Hk Hs. unfold rel_comps. rewrite split_join by done.
  induction Hk as [|w ws Hw Hws IH]; [done|]. apply Forall_cons in Hs as [_ Hs].
  rewrite filter_cons_True by done. f_equal. destruct ws; [done|]. by apply IH.
Qed.

Lemma rel_comps_nosep rel : Forall (Forall (fun c => is_sep c = false)) (rel_comps rel).
Proof.
  apply Forall_forall. intros w [_ Hw]%list_elem_of_filter.
  pose proof (split_on_forall is_sep rel) as H. rewrite Forall_forall in H. by apply H.
Qed.

Lemma check_rel_path_rel_comps rel p :
  check_rel_path rel = Ok p -> rel_comps p = rel_comps rel.
Proof.
  intros (_ & _ & _ & _ & _ & Hc & ->)%check_rel_path_ok.
  apply rel_comps_join; auto using rel_comps_kept, rel_comps_nosep.
Qed.

(** Normalization is a fixed point up to the leading forms the raw check refuses.  The
    normalized path is accepted again, unchanged, exactly when it does not itself start
    with [~] or carry a [:] as second byte, the two forms a leading [./] can hide. *)
Theorem check_rel_path_stable rel p :
  check_rel_path rel = Ok p ->
  check_rel_path p = Ok p <->
  p !! 1%nat <> Some ":"%char /\
  starts_with_byte (fun c => bool_decide (c = "~"%char)) p = false.
Proof.
  intros Hok. pose proof (check_rel_path_rel_comps _ _ Hok) as Hcomps.
  destruct (check_rel_path_confined _ _ Hok) as (names & Hn & Hp & _ & Hnul & Hlen).
  apply check_rel_path_ok in Hok as (_ & _ & _ & _ & Hs & Hc & Hjoin).
  rewrite check_rel_path_ok, Hcomps.
  assert (Hhead : p <> [] /\ starts_with_byte is_sep p = false).
  { pose proof (rel_comps_nosep rel) as Hnosep. pose proof (rel_comps_kept rel) as Hkept.
    rewrite Hjoin. destruct (rel_comps rel) as [|[|c w] ws]; [done| |].
    - apply Forall_cons in Hkept as [[? _] _]. done.
    - apply Forall_cons in Hnosep as [[Hcc _]%Forall_cons _].
      destruct ws; simpl; by rewrite Hcc. }
  destruct Hhead as [Hne Hsep]. unfold looks_absolute. rewrite Hsep.
  destruct (starts_with_byte (fun c => bool_decide (c = "~"%char)) p); split.
  - intros (_ & _ & _ & K & _). exfalso. apply K. by right; right.
  - intros [_ K]. done.
  - intros (_ & _ & _ & K & _). split; [|done]. intros K2. apply K. by right; left.
  - intros [K _]. repeat split; auto. intros [?|[?|?]]; done.
Qed.

(** A leading [./] lets a drive prefix and a home prefix through: the raw forms are
    refused as absolute, the same forms behind [./] are accepted and come out as the
    refused path. *)
Theorem check_rel_path_dot_prefix :
  check_rel_path (bs "C:/x") = Err (ManifestErr "absolute rel_path") /\
  check_rel_path (bs "./C:/x") = Ok (bs "C:/x") /\
  check_rel_path (bs "~/x") = Err (ManifestErr "absolute rel_path") /\
  check_rel_path (bs "./~/x") = Ok (bs "~/x").
Proof. repeat split; vm_compute; reflexivity. Qed.

Lemma check_rel_path_confined_witness :
  exists names, names <> [] /\ path_components (bs "a/b.c") = Normal <$> names.
Proof.
  destruct (check_rel_path_confined (bs "./a//b.c") (bs "a/b.c")) as (names & H1 & H2 & _);
    [vm_compute; reflexivity|]. exists names. exact (conj H1 H2).
Defined.

Lemma check_rel_path_stable_witness : check_rel_path (bs "a/b.c") = Ok (bs "a/b.c").
Proof.
  apply (check_rel_path_stable (bs "./a//b.c")); vm_compute; [reflexivity|].
  split; [congruence|reflexivity].
Defined.
