(* ===== verification/Net.v ===== *)
(** * Addresses of the standard library

    [core::net]: the parser of IP addresses, their [Display] and the predicates the
    program uses, and the numbers they contain.  The parser passes the rest of its input
    on; a reader that fails leaves its input alone, which here is returning nothing. *)

From S2P Require Import Prelude Paths.

(** ** Digits *)

Definition is_ascii_digit (c : ascii) : bool := (48 <=? byte_val c) && (byte_val c <=? 57).
Definition is_ascii_alphanumeric (c : ascii) : bool :=
  is_ascii_digit c || ((65 <=? byte_val c) && (byte_val c <=? 90))
  || ((97 <=? byte_val c) && (byte_val c <=? 122)).

(** [char::to_digit] for a radix up to 16. *)
Definition digit_value (c : ascii) : option Z :=
  let b := byte_val c in
  if (48 <=? b) && (b <=? 57) then Some (b - 48)
  else if (97 <=? b) && (b <=? 102) then Some (b - 87)
  else if (65 <=? b) && (b <=? 70) then Some (b - 55)
  else None.
Definition to_digit (radix : Z) (c : ascii) : option Z :=
  match digit_value c with
  | Some d => if d <? radix then Some d else None
  | None => None
  end.

(** The digit a number is printed with. *)
Definition digit_char (d : Z) : ascii :=
  ascii_of_N (Z.to_N (if d <? 10 then d + 48 else d + 87)).

(** [Display] and [LowerHex] of an unsigned integer of at most [fuel] digits. *)
Fixpoint fmt_radix (fuel : nat) (radix n : Z) : bytes :=
  match fuel with
  | O => []
  | S fuel => if n <? radix then [digit_char n]
              else fmt_radix fuel radix (n / radix) ++ [digit_char (n mod radix)]
  end.
Definition fmt_u8 (n : Z) : bytes := fmt_radix 3 10 n.
Definition fmt_u16 (n : Z) : bytes := fmt_radix 5 10 n.
Definition fmt_hex16 (n : Z) : bytes := fmt_radix 4 16 n.

(** [u16::from_str] on a string of decimal digits. *)
Definition parse_u16 (s : bytes) : option Z :=
  let step acc c := match acc, to_digit 10 c with
                    | Some n, Some d => Some (n * 10 + d)
                    | _, _ => None
                    end in
  match s with
  | [] => None
  | _ => match foldl step (Some 0) s with
         | Some n => if n <=? u16_max then Some n else None
         | None => None
         end
  end.

(** ** Addresses *)

Inductive IpAddr : Type :=
| V4 (a b c d : Z)
| V6 (segments : list Z).

#[export] Instance IpAddr_eq_dec : EqDecision IpAddr.
Proof. solve_decision. Defined.

Abbreviation parser A := (bytes -> option (A * bytes)) (only parsing).

(** [Parser::read_number] with a digit limit: the value, the number of digits and the
    rest, or nothing when there are too many digits. *)
Fixpoint read_digits (radix : Z) (max count : nat) (acc : Z) (s : bytes)
    : option (Z * nat * bytes) :=
  match s with
  | [] => Some (acc, count, [])
  | c :: s' =>
      match to_digit radix c with
      | None => Some (acc, count, s)
      | Some d =>
          if (max <? S count)%nat then None
          else read_digits radix max (S count) (acc * radix + d) s'
      end
  end.

Definition read_number (radix : Z) (max : nat) (allow_zero_prefix : bool) (bound : Z)
    : parser Z := fun s =>
  let has_leading_zero := starts_with_byte (fun c => bool_decide (c = "0"%char)) s in
  match read_digits radix max 0 0 s with
  | Some (n, count, rest) =>
      if (count =? 0)%nat then None
      else if negb allow_zero_prefix && has_leading_zero && (1 <? count)%nat then None
      else if n <=? bound then Some (n, rest) else None
  | None => None
  end.

Definition read_given_char (c : ascii) (s : bytes) : option bytes :=
  match s with
  | x :: s => if bool_decide (x = c) then Some s else None
  | [] => None
  end.

Definition read_separator {A} (sep : ascii) (index : nat) (inner : parser A) : parser A :=
  fun s => match index with
           | O => inner s
           | S _ => match read_given_char sep s with Some s => inner s | None => None end
           end.

Definition read_octet (index : nat) : parser Z :=
  read_separator "."%char index (read_number 10 3 false u8_max).

Definition read_ipv4_addr : parser (Z * Z * Z * Z) := fun s =>
  match read_octet 0 s with None => None | Some (a, s) =>
  match read_octet 1 s with None => None | Some (b, s) =>
  match read_octet 2 s with None => None | Some (c, s) =>
  match read_octet 3 s with None => None | Some (d, s) => Some ((a, b, c, d), s)
  end end end end.

(** [read_groups] with [slots] slots left, at position [i]: the groups read, whether the
    last two came from an embedded IPv4 address, and the rest. *)
Fixpoint read_groups (slots i : nat) (s : bytes) : list Z * bool * bytes :=
  match slots with
  | O => ([], false, s)
  | S slots =>
      match (if (0 <? slots)%nat then read_separator ":"%char i read_ipv4_addr s else None) with
      | Some ((a, b, c, d), s) => ([a * 256 + b; c * 256 + d], true, s)
      | None =>
          match read_separator ":"%char i (read_number 16 4 true u16_max) s with
          | Some (g, s) => let '(gs, v4, s) := read_groups slots (S i) s in (g :: gs, v4, s)
          | None => ([], false, s)
          end
      end
  end.

Definition read_ipv6_addr : parser (list Z) := fun s =>
  let '(head, head_ipv4, s) := read_groups 8 0 s in
  if (length head =? 8)%nat then Some (head, s)
  else if head_ipv4 then None else
  match read_given_char ":"%char s with None => None | Some s =>
  match read_given_char ":"%char s with None => None | Some s =>
    let '(tail, _, s) := read_groups (8 - (length head + 1)) 0 s in
    Some (head ++ replicate (8 - length head - length tail) 0 ++ tail, s)
  end end.

(** [Parser::parse_with]: the whole input has to be used. *)
Definition parse_with {A} (inner : parser A) (s : bytes) : option A :=
  match inner s with Some (a, []) => Some a | _ => None end.

(** [IpAddr::from_str] and [Ipv6Addr::from_str]. *)
Definition parse_ip (s : bytes) : option IpAddr :=
  parse_with (fun s =>
    match read_ipv4_addr s with
    | Some ((a, b, c, d), s) => Some (V4 a b c d, s)
    | None => match read_ipv6_addr s with Some (g, s) => Some (V6 g, s) | None => None end
    end) s.
Definition parse_ipv6 (s : bytes) : option (list Z) := parse_with read_ipv6_addr s.

(** [Ipv6Addr::to_ipv4_mapped] and [IpAddr::to_canonical]. *)
Definition to_ipv4_mapped (g : list Z) : option (Z * Z * Z * Z) :=
  match g with
  | [0; 0; 0; 0; 0; 65535; ab; cd] => Some (ab / 256, ab mod 256, cd / 256, cd mod 256)
  | _ => None
  end.
Definition to_canonical (ip : IpAddr) : IpAddr :=
  match ip with
  | V4 _ _ _ _ => ip
  | V6 g => match to_ipv4_mapped g with Some (a, b, c, d) => V4 a b c d | None => ip end
  end.

Definition is_unspecified (ip : IpAddr) : bool :=
  match ip with
  | V4 a b c d => (a =? 0) && (b =? 0) && (c =? 0) && (d =? 0)
  | V6 g => bool_decide (g = replicate 8 0)
  end.
Definition is_multicast (ip : IpAddr) : bool :=
  match ip with
  | V4 a _ _ _ => (224 <=? a) && (a <=? 239)
  | V6 g => match g with s :: _ => s / 256 =? 255 | [] => false end
  end.
Definition is_broadcast (ip : IpAddr) : bool :=
  match ip with
  | V4 a b c d => (a =? 255) && (b =? 255) && (c =? 255) && (d =? 255)
  | V6 _ => false
  end.

(** ** [Display] *)

Definition fmt_ipv4 (a b c d : Z) : bytes :=
  join "." [fmt_u8 a; fmt_u8 b; fmt_u8 c; fmt_u8 d].

(** The first longest run of zeros: where it starts and its length. *)
Record Span : Type := mkSpan { sp_start : nat; sp_len : nat }.

Fixpoint zero_span (i : nat) (g : list Z) (longest current : Span) : Span :=
  match g with
  | [] => longest
  | s :: g =>
      if s =? 0 then
        let current := mkSpan (if (sp_len current =? 0)%nat then i else sp_start current)
                         (S (sp_len current)) in
        zero_span (S i) g (if (sp_len longest <? sp_len current)%nat then current else longest)
          current
      else zero_span (S i) g longest (mkSpan 0 0)
  end.

Definition fmt_subslice (g : list Z) : bytes := join ":" (fmt_hex16 <$> g).

Definition fmt_ipv6 (g : list Z) : bytes :=
  match to_ipv4_mapped g with
  | Some (a, b, c, d) => bs "::ffff:" ++ fmt_ipv4 a b c d
  | None =>
      let zeroes := zero_span 0 g (mkSpan 0 0) (mkSpan 0 0) in
      if (1 <? sp_len zeroes)%nat
      then fmt_subslice (take (sp_start zeroes) g) ++ bs "::"
           ++ fmt_subslice (drop (sp_start zeroes + sp_len zeroes) g)
      else fmt_subslice g
  end.

Definition fmt_ip (ip : IpAddr) : bytes :=
  match ip with V4 a b c d => fmt_ipv4 a b c d | V6 g => fmt_ipv6 g end.

(** Values of the types. *)
Definition in_u8 (n : Z) : Prop := 0 <= n <= u8_max.
Definition in_u16 (n : Z) : Prop := 0 <= n <= u16_max.
Definition ip_typed (ip : IpAddr) : Prop :=
  match ip with
  | V4 a b c d => in_u8 a /\ in_u8 b /\ in_u8 c /\ in_u8 d
  | V6 g => length g = 8%nat /\ Forall in_u16 g
  end.

(** The examples of the standard library's documentation. *)
Lemma parse_examples :
  (fmt_ip <$> parse_ip (bs "127.0.0.1"), fmt_ip <$> parse_ip (bs "0:0:0:0:0:0:0:1"),
   fmt_ip <$> parse_ip (bs "2001:DB8::1"), fmt_ip <$> parse_ip (bs "::ffff:127.0.0.1"),
   parse_ip (bs "127.0.00.1"), parse_ip (bs "1:2:3:4:5:6:7"), parse_ip (bs "1::2::3"),
   fmt_ip <$> parse_ip (bs "1:0:0:2:0:0:0:3"), fmt_ip <$> parse_ip (bs "1::1.2.3.4"))
  = (Some (bs "127.0.0.1"), Some (bs "::1"), Some (bs "2001:db8::1"),
     Some (bs "::ffff:127.0.0.1"), None, None, None, Some (bs "1:0:0:2::3"),
     Some (bs "1::102:304")).
Proof. vm_compute. reflexivity. Qed.

(** ** Printed numbers are read back *)

Lemma digit_char_value d : 0 <= d < 16 -> digit_value (digit_char d) = Some d.
Proof.
  intros Hd. assert (Hin : d ∈ seqZ 0 16) by (apply elem_of_seqZ; lia).
  revert Hin. clear Hd. intros Hin. vm_compute in Hin.
  repeat (apply elem_of_cons in Hin as [->|Hin]; [reflexivity|]). by apply elem_of_nil in Hin.
Qed.

Lemma to_digit_char radix d : 0 <= d < radix -> radix <= 16 -> to_digit radix (digit_char d) = Some d.
Proof.
  intros Hd Hr. unfold to_digit. rewrite digit_char_value by lia.
  by rewrite (proj2 (Z.ltb_lt _ _)) by lia.
Qed.

Definition is_digit (radix : Z) (c : ascii) : Prop := is_Some (to_digit radix c).

(** The rest of the input does not go on with a digit. *)
Definition stops (radix : Z) (rest : bytes) : Prop :=
  match rest with c :: _ => to_digit radix c = None | [] => True end.

Definition digits_value (radix acc : Z) (s : bytes) : Z :=
  foldl (fun acc c => acc * radix + default 0 (to_digit radix c)) acc s.

Lemma read_digits_stop radix max count acc rest :
  stops radix rest -> read_digits radix max count acc rest = Some (acc, count, rest).
Proof. destruct rest as [|c rest]; [done|]. simpl. by intros ->. Qed.

Lemma read_digits_app radix max count acc ds rest :
  Forall (is_digit radix) ds -> stops radix rest -> (count + length ds <= max)%nat ->
  read_digits radix max count acc (ds ++ rest)
  = Some (digits_value radix acc ds, (count + length ds)%nat, rest).
Proof.
  intros Hd Hr. revert count acc. induction Hd as [|c ds [d Ec] Hd IH]; intros count acc Hm; simpl in *.
  - rewrite read_digits_stop by done. by rewrite Nat.add_0_r.
  - unfold digits_value. simpl. rewrite Ec. simpl.
    rewrite (proj2 (Nat.ltb_ge _ _)) by lia. rewrite IH by lia. do 2 f_equal. f_equal. lia.
Qed.

Lemma read_digits_inv radix max count acc s n k rest :
  read_digits radix max count acc s = Some (n, k, rest) ->
  exists ds, s = ds ++ rest /\ Forall (is_digit radix) ds /\ n = digits_value radix acc ds /\
    k = (count + length ds)%nat.
Proof.
  revert count acc. induction s as [|c s IH]; intros count acc; simpl.
  { intros [= <- <- <-]. exists []. split_and!; [done|constructor|done|simpl; lia]. }
  destruct (to_digit radix c) as [d|] eqn:Ec.
  - destruct (_ <? _)%nat; [done|]. intros (ds & -> & Hd & -> & ->)%IH.
    exists (c :: ds). split_and!; [done|constructor; [by exists d|done]| |simpl; lia].
    unfold digits_value. simpl. by rewrite Ec.
  - intros [= <- <- <-]. exists []. split_and!; [done|constructor|done|simpl; lia].
Qed.

Lemma digits_value_app radix acc a b :
  digits_value radix acc (a ++ b) = digits_value radix (digits_value radix acc a) b.
Proof. unfold digits_value. apply foldl_app. Qed.

(** What is printed: digits, at least one, with the right value; a leading zero only
    for zero. *)
Record printed (radix n : Z) (max : nat) (s : bytes) : Prop := {
  pr_digits : Forall (is_digit radix) s;
  pr_value : digits_value radix 0 s = n;
  pr_length : (0 < length s <= max)%nat;
  pr_zero : 0 < n -> starts_with_byte (fun c => bool_decide (c = "0"%char)) s = false;
  pr_single : n = 0 -> length s = 1%nat
}.

Lemma printed_digit radix n max :
  2 <= radix <= 16 -> 0 <= n < radix -> (0 < max)%nat -> printed radix n max [digit_char n].
Proof.
  intros Hr Hn Hm. assert (Ed : to_digit radix (digit_char n) = Some n) by (apply to_digit_char; lia).
  split.
  - repeat constructor. by exists n.
  - unfold digits_value. cbn [foldl]. rewrite Ed. simpl. lia.
  - simpl. lia.
  - intros Hp. simpl. apply bool_decide_eq_false_2. intros E. rewrite E in Ed.
    unfold to_digit in Ed. change (digit_value "0") with (Some 0) in Ed. cbv beta iota in Ed.
    destruct (0 <? radix); simplify_eq; lia.
  - done.
Qed.

Lemma fmt_radix_ok fuel radix n :
  2 <= radix <= 16 -> 0 <= n < radix ^ Z.of_nat (S fuel) ->
  printed radix n (S fuel) (fmt_radix (S fuel) radix n).
Proof.
  intros Hr. revert n. induction fuel as [|fuel IH]; intros n Hn.
  { simpl. destruct (n <? radix) eqn:E; [|apply Z.ltb_ge in E; lia].
    apply Z.ltb_lt in E. apply printed_digit; lia. }
  remember (S fuel) as k eqn:Ek. cbn [fmt_radix]. destruct (n <? radix) eqn:E.
  { apply Z.ltb_lt in E. apply printed_digit; lia. }
  apply Z.ltb_ge in E. rewrite Nat2Z.inj_succ, Z.pow_succ_r in Hn by lia.
  assert (Hq : 0 <= n / radix < radix ^ Z.of_nat k).
  { split; [apply Z.div_pos; lia|]. apply Z.div_lt_upper_bound; lia. }
  pose proof (IH _ Hq) as [Hd Hv Hl Hz _]. pose proof (Z.mod_pos_bound n radix ltac:(lia)) as Hm.
  assert (Ed : to_digit radix (digit_char (n mod radix)) = Some (n mod radix))
    by (apply to_digit_char; lia).
  split.
  - apply Forall_app. split; [done|]. repeat constructor. by exists (n mod radix).
  - rewrite digits_value_app, Hv. unfold digits_value. cbn [foldl]. rewrite Ed. simpl.
    pose proof (Z.div_mod n radix). lia.
  - rewrite length_app. simpl. lia.
  - intros _. destruct (fmt_radix k radix (n / radix)) as [|c s]; [simpl in Hl; lia|].
    apply Hz. apply Z.div_str_pos. lia.
  - lia.
Qed.

Lemma read_number_printed radix max allow bound n s rest :
  2 <= radix <= 16 -> printed radix n max s -> 0 <= n <= bound -> stops radix rest ->
  read_number radix max allow bound (s ++ rest) = Some (n, rest).
Proof.
  intros Hr [Hd Hv Hl Hz H1] Hn Hs. unfold read_number. rewrite read_digits_app by (done || lia).
  rewrite Hv. cbn -[Nat.eqb Nat.ltb]. rewrite (proj2 (Nat.eqb_neq _ _)) by lia.
  replace (negb allow && _ && _) with false; [by rewrite (proj2 (Z.leb_le _ _)) by lia|].
  symmetry. destruct allow; [done|]. destruct (decide (n = 0)) as [->|Hne].
  - rewrite H1 by done. by rewrite andb_false_r.
  - destruct s as [|c s]; [simpl in Hl; lia|]. simpl in *. by rewrite Hz by lia.
Qed.

(** ** Printed addresses are read back *)

Lemma fmt_u8_printed n : in_u8 n -> printed 10 n 3 (fmt_u8 n).
Proof. intros Hn. apply fmt_radix_ok; [lia|]. unfold in_u8, u8_max in Hn. simpl. lia. Qed.

Lemma fmt_u16_printed n : in_u16 n -> printed 10 n 5 (fmt_u16 n).
Proof. intros Hn. apply fmt_radix_ok; [lia|]. unfold in_u16, u16_max in Hn. simpl. lia. Qed.

Lemma fmt_hex16_printed n : in_u16 n -> printed 16 n 4 (fmt_hex16 n).
Proof. intros Hn. apply fmt_radix_ok; [lia|]. unfold in_u16, u16_max in Hn. simpl. lia. Qed.

Lemma read_octet_first n rest :
  in_u8 n -> stops 10 rest -> read_octet 0 (fmt_u8 n ++ rest) = Some (n, rest).
Proof.
  intros Hn Hs. apply read_number_printed; [lia|by apply fmt_u8_printed|exact Hn|done].
Qed.

Lemma read_octet_next i n rest :
  in_u8 n -> stops 10 rest -> read_octet (S i) ("."%char :: fmt_u8 n ++ rest) = Some (n, rest).
Proof. intros Hn Hs. by apply (read_octet_first n rest). Qed.

Lemma read_fmt_ipv4 a b c d rest :
  ip_typed (V4 a b c d) -> stops 10 rest ->
  read_ipv4_addr (fmt_ipv4 a b c d ++ rest) = Some ((a, b, c, d), rest).
Proof.
  intros (Ha & Hb & Hc & Hd) Hs. unfold read_ipv4_addr, fmt_ipv4. cbn [join].
  repeat (rewrite <-app_assoc; cbn [app]).
  rewrite read_octet_first by done. by rewrite !read_octet_next.
Qed.

Lemma parse_fmt_ipv4 a b c d :
  ip_typed (V4 a b c d) -> parse_ip (fmt_ipv4 a b c d) = Some (V4 a b c d).
Proof.
  intros Ht. unfold parse_ip, parse_with. rewrite <-(app_nil_r (fmt_ipv4 a b c d)).
  by rewrite read_fmt_ipv4.
Qed.

(** An IPv4 address has a dot. *)
Lemma read_ipv4_dot s x : read_ipv4_addr s = Some x -> "."%char ∈ s.
Proof.
  unfold read_ipv4_addr. destruct (read_octet 0 s) as [[a s1]|] eqn:E0; [|done].
  unfold read_octet at 1. simpl. destruct s1 as [|c s1]; [done|]. simpl.
  case_bool_decide as Ec; [|done]. intros _. subst c.
  unfold read_octet, read_number in E0. simpl in E0.
  destruct (read_digits 10 3 0 0 s) as [[[n k] r]|] eqn:Er; [|done].
  destruct (k =? 0)%nat; [done|]. destruct (_ && _); [done|].
  destruct (n <=? u8_max); [|done]. injection E0 as _ ->.
  apply read_digits_inv in Er as (ds & -> & _). set_solver.
Qed.

(** The groups after the first one, as they are printed. *)
Definition more_groups (g : list Z) : bytes := concat ((fun n => ":"%char :: fmt_hex16 n) <$> g).

Lemma fmt_subslice_cons n g : fmt_subslice (n :: g) = fmt_hex16 n ++ more_groups g.
Proof.
  unfold fmt_subslice, more_groups. revert n. induction g as [|m g IH]; intros n.
  - by rewrite app_nil_r.
  - specialize (IH m). csimpl in *. rewrite <-IH. done.
Qed.

Lemma more_groups_stops g rest : stops 16 rest -> stops 16 (more_groups g ++ rest).
Proof. by destruct g. Qed.

(** The reader stops: no further group begins here. *)
Definition groups_end (i : nat) (rest : bytes) : Prop :=
  read_separator ":"%char i (read_number 16 4 true u16_max) rest = None.

Lemma no_dot_no_ipv4 i s : ~ "."%char ∈ s -> read_separator ":"%char i read_ipv4_addr s = None.
Proof.
  intros Hn. destruct i as [|i]; simpl.
  - destruct (read_ipv4_addr s) eqn:E; [|done]. by apply read_ipv4_dot in E.
  - destruct s as [|c s]; [done|]. simpl. case_bool_decide; [|done].
    destruct (read_ipv4_addr s) eqn:E; [|done]. apply read_ipv4_dot in E. set_solver.
Qed.

Lemma read_groups_stop slots i rest :
  ~ "."%char ∈ rest -> slots = 0%nat \/ groups_end i rest -> read_groups slots i rest = ([], false, rest).
Proof.
  intros Hd [->|He]; [done|]. destruct slots as [|slots]; [done|]. simpl.
  rewrite no_dot_no_ipv4 by done. rewrite He. by destruct (0 <? slots)%nat.
Qed.

Lemma read_more_groups slots i g rest :
  Forall in_u16 g -> stops 16 rest -> ~ "."%char ∈ more_groups g ++ rest ->
  (length g = slots \/ (length g < slots)%nat /\ forall k, groups_end (S k) rest) ->
  read_groups slots (S i) (more_groups g ++ rest) = (g, false, rest).
Proof.
  intros Hg Hs. revert slots i. induction Hg as [|n g Hn Hg IH]; intros slots i Hd Hlen.
  { apply read_groups_stop; [done|]. simpl in Hlen. destruct Hlen as [?|[_ ?]]; eauto. }
  destruct slots as [|slots]; [simpl in Hlen; lia|]. cbn [read_groups].
  rewrite no_dot_no_ipv4 by done.
  change (more_groups (n :: g)) with (":"%char :: fmt_hex16 n ++ more_groups g) in *.
  cbn [app] in *. rewrite <-app_assoc in *. cbn [read_separator read_given_char].
  rewrite bool_decide_eq_true_2 by done.
  rewrite (read_number_printed 16 4 true u16_max n);
    [|lia|by apply fmt_hex16_printed|exact Hn|by apply more_groups_stops].
  rewrite IH; [by destruct (0 <? slots)%nat|set_solver|].
  simpl in Hlen. destruct Hlen as [?|[? ?]]; [left; lia|right; split; [lia|done]].
Qed.

Lemma read_subslice slots g rest :
  Forall in_u16 g -> stops 16 rest -> ~ "."%char ∈ fmt_subslice g ++ rest ->
  (length g = slots \/ (length g < slots)%nat /\ forall k, groups_end k rest) ->
  read_groups slots 0 (fmt_subslice g ++ rest) = (g, false, rest).
Proof.
  intros Hg Hs Hd Hlen. destruct Hg as [|n g Hn Hg].
  { apply read_groups_stop; [done|]. simpl in Hlen. destruct Hlen as [?|[_ ?]]; eauto. }
  destruct slots as [|slots]; [simpl in Hlen; lia|]. cbn [read_groups].
  rewrite no_dot_no_ipv4 by done. rewrite fmt_subslice_cons, <-app_assoc in *.
  cbn [read_separator]. rewrite (read_number_printed 16 4 true u16_max n);
    [|lia|by apply fmt_hex16_printed|exact Hn|by apply more_groups_stops].
  rewrite read_more_groups; [by destruct (0 <? slots)%nat|done|done|set_solver|].
  simpl in Hlen. destruct Hlen as [?|[? ?]]; [left; lia|right; split; [lia|done]].
Qed.

(** ** Zero compression *)

(** A run of zeros inside [p], and one at its end. *)
Definition span_in (p : list Z) (s : Span) : Prop :=
  exists l r, p = l ++ replicate (sp_len s) 0 ++ r /\ length l = sp_start s.
Definition span_at_end (p : list Z) (s : Span) : Prop :=
  sp_len s = 0%nat \/ exists l, p = l ++ replicate (sp_len s) 0 /\ length l = sp_start s.

Lemma span_in_app p q s : span_in p s -> span_in (p ++ q) s.
Proof. intros (l & r & -> & Hl). exists l, (r ++ q). by rewrite <-!app_assoc. Qed.

Lemma zero_span_ok p g longest current :
  span_in p longest -> span_at_end p current ->
  span_in (p ++ g) (zero_span (length p) g longest current).
Proof.
  revert p longest current. induction g as [|x g IH]; intros p longest current Hl Hc; simpl.
  { by rewrite app_nil_r. }
  rewrite cons_middle, app_assoc.
  replace (S (length p)) with (length (p ++ [x])) by (rewrite length_app; simpl; lia).
  destruct (x =? 0) eqn:Ex.
  - apply Z.eqb_eq in Ex as ->. set (c := mkSpan _ _).
    assert (He : exists l, p ++ [0] = l ++ replicate (sp_len c) 0 /\ length l = sp_start c).
    { unfold c. cbn [sp_len sp_start]. destruct Hc as [Hc|(l & Ep & El)].
      - rewrite Hc. exists p. split; [done|]. done.
      - destruct (sp_len current) as [|k]; [by exists p|]. exists l. split; [|done].
        rewrite Ep, <-app_assoc, <-replicate_S_end. done. }
    apply IH; [|by right]. destruct (_ <? _)%nat; [|by apply span_in_app].
    destruct He as (l & E & El). exists l, []. split; [by rewrite app_nil_r|done].
  - apply IH; [by apply span_in_app|by left].
Qed.

Lemma groups_end_colons i rest : groups_end i (":"%char :: ":"%char :: rest).
Proof. by destruct i. Qed.
Lemma groups_end_nil i : groups_end i [].
Proof. by destruct i. Qed.

(** The characters of printed groups. *)
Definition hex_or_colon (c : ascii) : Prop := is_digit 16 c \/ c = ":"%char.

Lemma fmt_subslice_chars g : Forall in_u16 g -> Forall hex_or_colon (fmt_subslice g).
Proof.
  assert (Hx : forall n, in_u16 n -> Forall hex_or_colon (fmt_hex16 n)).
  { intros n Hn%fmt_hex16_printed. eapply Forall_impl; [apply Hn|]. by left. }
  intros Hg. destruct Hg as [|n g Hn Hg]; [constructor|]. rewrite fmt_subslice_cons.
  apply Forall_app. split; [by apply Hx|]. induction Hg as [|m g Hm Hg IH]; [constructor|].
  unfold more_groups. csimpl. constructor; [by right|]. apply Forall_app. by split; [apply Hx|].
Qed.

Lemma chars_not_in c s : Forall hex_or_colon s -> to_digit 16 c = None -> c <> ":"%char -> ~ c ∈ s.
Proof.
  intros Hs Hd Hc Hin. rewrite Forall_forall in Hs.
  destruct (Hs c Hin) as [[d Ed]|Ed]; congruence.
Qed.

(** The span that is printed as [::]. *)
Lemma fmt_ipv6_split g :
  ip_typed (V6 g) -> to_ipv4_mapped g = None ->
  fmt_ipv6 g = fmt_subslice g \/
  exists l k r, g = l ++ replicate (S (S k)) 0 ++ r /\
    fmt_ipv6 g = fmt_subslice l ++ ":"%char :: ":"%char :: fmt_subslice r.
Proof.
  intros [Hlen Hg] Hm. unfold fmt_ipv6. rewrite Hm.
  assert (Hs : span_in g (zero_span 0 g (mkSpan 0 0) (mkSpan 0 0))).
  { apply (zero_span_ok [] g); [by exists [], []|by left]. }
  set (z := zero_span 0 g _ _) in *. destruct Hs as (l & r & Eg & El).
  destruct (1 <? sp_len z)%nat eqn:E; [right|by left]. apply Nat.ltb_lt in E.
  destruct (sp_len z) as [|[|k]] eqn:Ez; [lia|lia|].
  exists l, k, r. split; [done|]. rewrite Eg, <-El. f_equal.
  - by rewrite take_app_length.
  - rewrite app_assoc, drop_app_length'; [done|]. rewrite length_app, length_replicate. lia.
Qed.

Lemma read_fmt_ipv6 g :
  ip_typed (V6 g) -> to_ipv4_mapped g = None -> read_ipv6_addr (fmt_ipv6 g) = Some (g, []).
Proof.
  intros Ht Hm. pose proof Ht as [Hlen Hg]. unfold read_ipv6_addr.
  destruct (fmt_ipv6_split g Ht Hm) as [->|(l & k & r & Eg & ->)].
  - rewrite <-(app_nil_r (fmt_subslice g)). rewrite read_subslice; [|done|done| |by left].
    + by rewrite Hlen.
    + rewrite app_nil_r. apply chars_not_in; [by apply fmt_subslice_chars|done|done].
  - assert (Hl : Forall in_u16 l /\ Forall in_u16 r).
    { rewrite Eg, !Forall_app in Hg. tauto. }
    assert (Hk : (length l + S (S k) + length r = 8)%nat).
    { rewrite Eg, !length_app, length_replicate in Hlen. lia. }
    destruct Hl as [Hl Hr]. pose proof (fmt_subslice_chars _ Hl) as Cl.
    pose proof (fmt_subslice_chars _ Hr) as Cr.
    rewrite read_subslice; [|done|done| |right; split; [lia|intros; apply groups_end_colons]].
    2: { apply chars_not_in; [|done|done]. apply Forall_app. split; [done|].
         do 2 (constructor; [by right|]). done. }
    rewrite (proj2 (Nat.eqb_neq _ _)) by lia.
    assert (Hc : forall s, read_given_char ":" (":"%char :: s) = Some s) by done. rewrite !Hc.
    rewrite <-(app_nil_r (fmt_subslice r)), read_subslice;
      [|done|done| |right; split; [lia|intros; apply groups_end_nil]].
    + do 2 f_equal. rewrite Eg. do 3 f_equal. lia.
    + rewrite app_nil_r. by apply chars_not_in.
Qed.

(** ** What is read has the right type *)

Lemma to_digit_bounds radix c d : to_digit radix c = Some d -> 0 <= d < radix.
Proof.
  unfold to_digit, digit_value.
  repeat match goal with
  | |- context [if ?b then _ else _] => destruct b eqn:?; b2p
  end; intros [= <-]; lia.
Qed.

Lemma digits_value_nonneg radix acc s : 0 <= radix -> 0 <= acc -> 0 <= digits_value radix acc s.
Proof.
  intros Hr. revert acc. unfold digits_value. induction s as [|c s IH]; intros acc Ha; [done|].
  cbn [foldl]. apply IH. destruct (to_digit radix c) as [d|] eqn:E; simpl; [|nia].
  apply to_digit_bounds in E. nia.
Qed.

Lemma read_number_typed radix max allow bound s n rest :
  0 <= radix -> read_number radix max allow bound s = Some (n, rest) ->
  0 <= n <= bound /\ exists ds, s = ds ++ rest /\ Forall (is_digit radix) ds.
Proof.
  intros Hr. unfold read_number. destruct (read_digits _ _ _ _ _) as [[[m k] r]|] eqn:E; [|done].
  destruct (k =? 0)%nat; [done|]. destruct (_ && _); [done|].
  destruct (m <=? bound) eqn:Eb; [|done]. intros [= <- <-]. apply Z.leb_le in Eb.
  apply read_digits_inv in E as (ds & -> & Hd & -> & _).
  split; [|by exists ds]. split; [by apply digits_value_nonneg|done].
Qed.

(** ** What is read from a string *)

Definition digit_or_dot (c : ascii) : bool := is_ascii_digit c || bool_decide (c = "."%char).

Lemma is_digit_ascii c : is_digit 10 c -> is_ascii_digit c = true.
Proof.
  unfold is_digit, to_digit, digit_value, is_ascii_digit. intros [d Hd].
  destruct (_ && _) eqn:E; [done|]. exfalso.
  destruct ((97 <=? byte_val c) && (byte_val c <=? 102)) eqn:E2.
  { b2p. destruct (byte_val c - 87 <? 10) eqn:E3; [|done]. b2p. lia. }
  destruct ((65 <=? byte_val c) && (byte_val c <=? 70)) eqn:E4; [|done].
  b2p. destruct (byte_val c - 55 <? 10) eqn:E3; [|done]. b2p. lia.
Qed.

Lemma read_octet_inv i s n rest :
  read_octet i s = Some (n, rest) ->
  in_u8 n /\ exists ds, s = ds ++ rest /\ Forall (fun c => digit_or_dot c = true) ds.
Proof.
  assert (Hnum : forall s, read_number 10 3 false u8_max s = Some (n, rest) ->
    in_u8 n /\ exists ds, s = ds ++ rest /\ Forall (fun c => digit_or_dot c = true) ds).
  { intros s' (Hn & ds & -> & Hd)%read_number_typed; [|lia]. split; [done|]. exists ds. split; [done|].
    eapply Forall_impl; [exact Hd|]. intros c Hc. unfold digit_or_dot. by rewrite is_digit_ascii. }
  unfold read_octet. destruct i as [|i]; simpl; [apply Hnum|].
  destruct s as [|c s]; [done|]. simpl. case_bool_decide as Ec; [subst c|done].
  intros (Hn & ds & -> & Hd)%Hnum. split; [done|]. exists ("."%char :: ds). split; [done|].
  by constructor.
Qed.

Lemma read_ipv4_inv s a b c d rest :
  read_ipv4_addr s = Some ((a, b, c, d), rest) ->
  ip_typed (V4 a b c d) /\ exists ds, s = ds ++ rest /\ Forall (fun c => digit_or_dot c = true) ds.
Proof.
  unfold read_ipv4_addr.
  destruct (read_octet 0 s) as [[a' s1]|] eqn:E1; [|done].
  destruct (read_octet 1 s1) as [[b' s2]|] eqn:E2; [|done].
  destruct (read_octet 2 s2) as [[c' s3]|] eqn:E3; [|done].
  destruct (read_octet 3 s3) as [[d' s4]|] eqn:E4; [|done]. intros [= -> -> -> -> ->].
  apply read_octet_inv in E1 as (Ha & d1 & -> & H1), E2 as (Hb & d2 & -> & H2),
    E3 as (Hc & d3 & -> & H3), E4 as (Hd & d4 & -> & H4).
  split; [done|]. exists (d1 ++ d2 ++ d3 ++ d4). rewrite <-!app_assoc. split; [done|].
  by rewrite !Forall_app.
Qed.

Lemma read_separator_inv {A} sep i (inner : parser A) s x rest :
  read_separator sep i inner s = Some (x, rest) ->
  exists s', inner s' = Some (x, rest) /\ (s = s' /\ i = 0%nat \/ s = sep :: s' /\ (0 < i)%nat).
Proof.
  destruct i as [|i]; simpl; [intros E; exists s; eauto|].
  destruct s as [|c s]; [done|]. simpl. case_bool_decide as Ec; [subst c|done].
  intros E. exists s. split; [done|]. right. split; [done|lia].
Qed.

Lemma in_u16_pair a b : in_u8 a -> in_u8 b -> in_u16 (a * 256 + b).
Proof. unfold in_u8, in_u16, u8_max, u16_max. lia. Qed.

Lemma read_groups_inv slots i s gs v4 rest :
  read_groups slots i s = (gs, v4, rest) ->
  Forall in_u16 gs /\ (length gs <= slots)%nat /\ exists p, s = p ++ rest.
Proof.
  revert i s gs v4 rest. induction slots as [|slots IH]; intros i s gs v4 rest; simpl.
  { intros [= <- <- <-]. split_and!; [constructor|done|by exists []]. }
  destruct (if (0 <? slots)%nat then read_separator ":"%char i read_ipv4_addr s else None)
    as [[[[[a b] c] d] s1]|] eqn:E4.
  - intros [= <- <- <-]. destruct (0 <? slots)%nat eqn:E0; [|done]. apply Nat.ltb_lt in E0.
    apply read_separator_inv in E4 as (s' & E4 & Hs). apply read_ipv4_inv in E4 as (Ht & ds & -> & _).
    destruct Ht as (Ha & Hb & Hc & Hd). split_and!; [|simpl; lia|].
    + repeat constructor; by apply in_u16_pair.
    + destruct Hs as [[-> _]|[-> _]]; [by exists ds|by exists (":"%char :: ds)].
  - destruct (read_separator ":"%char i (read_number 16 4 true u16_max) s) as [[g s1]|] eqn:Eg.
    + destruct (read_groups slots (S i) s1) as [[gs' v4'] s2] eqn:Er.
      intros [= <- <- <-].
      apply IH in Er as (Hg & Hl & p & ->). apply read_separator_inv in Eg as (s' & Eg & Hs).
      apply read_number_typed in Eg as (Hn & ds & -> & _); [|lia].
      split_and!; [by constructor|simpl; lia|].
      destruct Hs as [[-> _]|[-> _]]; [exists (ds ++ p)|exists (":"%char :: ds ++ p)];
        simpl; by rewrite <-app_assoc.
    + intros [= <- <- <-]. split_and!; [constructor|simpl; lia|by exists []].
Qed.

(** Without a colon at most one group, or one embedded address, is read. *)
Lemma read_groups_no_colon slots i s :
  ~ ":"%char ∈ s -> (length (read_groups slots i s).1.1 <= 2)%nat /\
    ((0 < i)%nat -> (read_groups slots i s).1.1 = []).
Proof.
  revert i s. assert (Hsep : forall {A} i (inner : parser A) s, ~ ":"%char ∈ s -> (0 < i)%nat ->
    read_separator ":"%char i inner s = None).
  { intros A i inner s Hs Hi. destruct (read_separator _ i inner s) as [[x r]|] eqn:E; [|done].
    apply read_separator_inv in E as (s' & _ & [[_ ->]|[-> _]]); [lia|set_solver]. }
  assert (Hz : forall slots i s, ~ ":"%char ∈ s -> (0 < i)%nat -> (read_groups slots i s).1.1 = []).
  { intros [|n] i s Hs Hi; [done|]. simpl. rewrite !Hsep by done. by destruct (0 <? n)%nat. }
  intros i s Hs. split; [|intros Hi; by apply Hz]. destruct slots as [|slots]; [simpl; lia|]. simpl.
  destruct (if (0 <? slots)%nat then read_separator ":"%char i read_ipv4_addr s else None)
    as [[[[[a b] c] d] s1]|]; [simpl; lia|].
  destruct (read_separator ":"%char i (read_number 16 4 true u16_max) s) as [[g s1]|] eqn:Eg; [|simpl; lia].
  destruct (read_groups slots (S i) s1) as [[gs v4] s2] eqn:Er.
  assert (Es : (read_groups slots (S i) s1).1.1 = []).
  { apply Hz; [|lia]. apply read_separator_inv in Eg as (s' & Eg & Hs').
    apply read_number_typed in Eg as (_ & ds & -> & _); [|lia].
    destruct Hs' as [[-> _]|[-> _]]; set_solver. }
  rewrite Er in Es. simpl in Es. subst gs. simpl. lia.
Qed.

Lemma read_ipv6_inv s g rest :
  read_ipv6_addr s = Some (g, rest) -> ip_typed (V6 g) /\ ":"%char ∈ s.
Proof.
  unfold read_ipv6_addr. destruct (read_groups 8 0 s) as [[head v4] s1] eqn:E1.
  pose proof (read_groups_inv _ _ _ _ _ _ E1) as (Hh & Hl & p & Es).
  pose proof (read_groups_no_colon 8 0 s) as Hc. rewrite E1 in Hc. simpl in Hc.
  destruct (length head =? 8)%nat eqn:E8.
  - apply Nat.eqb_eq in E8. intros [= <- <-]. split; [done|]. apply dec_stable. intros Hn.
    destruct (Hc Hn) as [? _]. lia.
  - apply Nat.eqb_neq in E8. destruct v4; [done|].
    destruct s1 as [|c s1]; [done|]. simpl. case_bool_decide as Ec; [subst c|done].
    destruct s1 as [|c s1]; [done|]. simpl. case_bool_decide as Ec; [subst c|done].
    destruct (read_groups (8 - (length head + 1)) 0 s1) as [[tail v4'] s2] eqn:E2.
    apply read_groups_inv in E2 as (Ht & Htl & _). intros [= <- <-]. split; [|set_solver].
    split; [rewrite !length_app, length_replicate; lia|].
    rewrite !Forall_app. split_and!; try done. apply Forall_replicate. unfold in_u16, u16_max. lia.
Qed.

Lemma parse_ip_inv s ip :
  parse_ip s = Some ip ->
  ip_typed ip /\ match ip with
                 | V4 _ _ _ _ => Forall (fun c => digit_or_dot c = true) s
                 | V6 _ => ":"%char ∈ s
                 end.
Proof.
  unfold parse_ip, parse_with. destruct (read_ipv4_addr s) as [[[[[a b] c] d] r]|] eqn:E4.
  - destruct r; [|done]. intros [= <-]. apply read_ipv4_inv in E4 as (Ht & ds & -> & Hd).
    by rewrite app_nil_r.
  - destruct (read_ipv6_addr s) as [[g r]|] eqn:E6; [|done]. destruct r; [|done].
    intros [= <-]. by apply read_ipv6_inv in E6.
Qed.

(** ** Canonical addresses *)

Definition canonical (ip : IpAddr) : Prop :=
  match ip with V4 _ _ _ _ => True | V6 g => to_ipv4_mapped g = None end.

Lemma to_ipv4_mapped_typed g a b c d :
  ip_typed (V6 g) -> to_ipv4_mapped g = Some (a, b, c, d) -> ip_typed (V4 a b c d).
Proof.
  intros [_ Hg] Hm.
  assert (Hlast : exists ab cd, in_u16 ab /\ in_u16 cd /\
    a = ab / 256 /\ b = ab mod 256 /\ c = cd / 256 /\ d = cd mod 256).
  { destruct g as [|g0 [|g1 [|g2 [|g3 [|g4 [|g5 [|ab [|cd [|]]]]]]]]]; try (unfold to_ipv4_mapped in Hm; repeat case_match; discriminate).
    exists ab, cd. rewrite !Forall_cons in Hg. destruct_and!. split_and!; try done;
      unfold to_ipv4_mapped in Hm; repeat case_match; simplify_eq; done. }
  destruct Hlast as (ab & cd & Hab & Hcd & -> & -> & -> & ->).
  unfold ip_typed, in_u8, in_u16, u8_max, u16_max in *. 
  pose proof (Z.mod_pos_bound ab 256). pose proof (Z.mod_pos_bound cd 256).
  pose proof (Z.div_mod ab 256). pose proof (Z.div_mod cd 256). lia.
Qed.

Lemma to_canonical_ok ip : ip_typed ip -> ip_typed (to_canonical ip) /\ canonical (to_canonical ip).
Proof.
  destruct ip as [a b c d|g]; simpl; [done|]. intros Ht.
  destruct (to_ipv4_mapped g) as [[[[a b] c] d]|] eqn:E; [|done].
  split; [|done]. by apply (to_ipv4_mapped_typed g).
Qed.

Lemma to_canonical_id ip : canonical ip -> to_canonical ip = ip.
Proof. destruct ip as [|g]; simpl; [done|]. by intros ->. Qed.

(** The characters of a printed address. *)
Lemma fmt_ipv6_chars g :
  ip_typed (V6 g) -> to_ipv4_mapped g = None -> Forall hex_or_colon (fmt_ipv6 g).
Proof.
  intros Ht Hm. pose proof Ht as [_ Hg].
  destruct (fmt_ipv6_split g Ht Hm) as [->|(l & k & r & -> & ->)]; [by apply fmt_subslice_chars|].
  rewrite !Forall_app in Hg. destruct_and!. rewrite Forall_app, !Forall_cons.
  split_and!; try (by apply fmt_subslice_chars); by right.
Qed.

Lemma parse_fmt_ip ip : ip_typed ip -> canonical ip -> parse_ip (fmt_ip ip) = Some ip.
Proof.
  destruct ip as [a b c d|g]; simpl; intros Ht Hc; [by apply parse_fmt_ipv4|].
  unfold parse_ip, parse_with.
  assert (Hd : ~ "."%char ∈ fmt_ipv6 g) by (apply chars_not_in; [by apply fmt_ipv6_chars|done|done]).
  destruct (read_ipv4_addr (fmt_ipv6 g)) eqn:E; [by apply read_ipv4_dot in E|].
  by rewrite read_fmt_ipv6.
Qed.

Lemma parse_fmt_ipv6 g :
  ip_typed (V6 g) -> to_ipv4_mapped g = None -> parse_ipv6 (fmt_ipv6 g) = Some g.
Proof. intros Ht Hc. unfold parse_ipv6, parse_with. by rewrite read_fmt_ipv6. Qed.

Lemma fmt_subslice_length g :
  Forall in_u16 g -> (length (fmt_subslice g) <= 5 * length g)%nat.
Proof.
  assert (Hx : forall n, in_u16 n -> (length (fmt_hex16 n) <= 4)%nat).
  { intros n Hn%fmt_hex16_printed. apply Hn. }
  intros Hg. destruct Hg as [|n g Hn Hg]; [done|]. rewrite fmt_subslice_cons, length_app.
  specialize (Hx n Hn) as Hl. enough (length (more_groups g) <= 5 * length g)%nat by (simpl; lia).
  clear Hl. induction Hg as [|m g Hm Hg IH]; [done|]. unfold more_groups in *. csimpl.
  rewrite length_app. specialize (Hx m Hm). lia.
Qed.

Lemma fmt_ip_length ip : ip_typed ip -> canonical ip -> (length (fmt_ip ip) <= 42)%nat.
Proof.
  destruct ip as [a b c d|g]; simpl; intros Ht Hc.
  - destruct Ht as (Ha & Hb & Hcc & Hd). unfold fmt_ipv4. cbn [join].
    repeat (rewrite length_app; cbn [length]).
    pose proof (pr_length _ _ _ _ (fmt_u8_printed a Ha)). pose proof (pr_length _ _ _ _ (fmt_u8_printed b Hb)).
    pose proof (pr_length _ _ _ _ (fmt_u8_printed c Hcc)). pose proof (pr_length _ _ _ _ (fmt_u8_printed d Hd)).
    lia.
  - pose proof Ht as [Hlen Hg].
    destruct (fmt_ipv6_split g Ht Hc) as [->|(l & k & r & Eg & ->)].
    + pose proof (fmt_subslice_length g Hg). lia.
    + rewrite Eg, !Forall_app in Hg. destruct Hg as (Hl & _ & Hr).
      rewrite Eg, !length_app, length_replicate in Hlen. rewrite length_app. cbn [length].
      pose proof (fmt_subslice_length l Hl). pose proof (fmt_subslice_length r Hr). lia.
Qed.

Lemma parse_u16_fmt n : in_u16 n -> parse_u16 (fmt_u16 n) = Some n.
Proof.
  intros Hn. pose proof (fmt_u16_printed n Hn) as [Hd Hv Hl _ _]. unfold parse_u16.
  assert (Hf : forall acc, foldl (fun acc c => match acc, to_digit 10 c with
      | Some n, Some d => Some (n * 10 + d) | _, _ => None end) (Some acc) (fmt_u16 n)
    = Some (digits_value 10 acc (fmt_u16 n))).
  { clear -Hd. induction Hd as [|c s [d Ec] Hd IH]; intros acc; [done|].
    cbn [foldl]. rewrite Ec, IH. unfold digits_value. cbn [foldl]. by rewrite Ec. }
  destruct (fmt_u16 n) as [|c s] eqn:E; [simpl in Hl; lia|]. rewrite Hf, Hv.
  by rewrite (proj2 (Z.leb_le _ _)) by apply Hn.
Qed.

Lemma fmt_u16_digits n : in_u16 n -> forallb is_ascii_digit (fmt_u16 n) = true.
Proof.
  intros [Hd _ _ _ _]%fmt_u16_printed. apply forallb_forall. intros c Hc%list_elem_of_In.
  rewrite Forall_forall in Hd. by apply is_digit_ascii, Hd.
Qed.
