(* ===== verification/TcpTarget.v ===== *)
(** * TCP destinations

    Models [src/crates/rds-core/src/tcp_target.rs]: canonical host and port pairs, their
    construction, parser and printer. *)

From S2P Require Import Prelude Paths Net.

Record TcpTarget : Type := mkTarget { tt_host : bytes; tt_port : Z }.

Inductive TcpTargetError : Type :=
| BadPort | BadHostLength | NotUnicast | BadHostname | TooLong | Unterminated | NotIpv6
| NoPortAfterBracket | NoPort | Ipv6NeedsBrackets.

#[export] Instance TcpTarget_eq_dec : EqDecision TcpTarget.
Proof. solve_decision. Defined.
#[export] Instance TcpTargetError_eq_dec : EqDecision TcpTargetError.
Proof. solve_decision. Defined.

Definition is_dot (c : ascii) : bool := bool_decide (c = "."%char).

(** [str::strip_suffix], [str::trim_end_matches] and [str::ends_with] on dots. *)
Definition strip_dot (s : bytes) : bytes :=
  match rev s with c :: r => if is_dot c then rev r else s | [] => s end.
Fixpoint trim_start_dots (s : bytes) : bytes :=
  match s with c :: s' => if is_dot c then trim_start_dots s' else s | [] => [] end.
Definition trim_end_dots (s : bytes) : bytes := rev (trim_start_dots (rev s)).
Definition ends_with_two_dots (s : bytes) : bool :=
  match rev s with c :: d :: _ => is_dot c && is_dot d | _ => false end.

Definition hostname_byte (c : ascii) : bool :=
  is_ascii_alphanumeric c || is_dot c || bool_decide (c = "-"%char) || bool_decide (c = "_"%char).

(** The test of the hostname branch of [TcpTarget::new]. *)
Definition bad_hostname (host : bytes) : bool :=
  negb (forallb hostname_byte host)
  || forallb (fun c => is_ascii_digit c || is_dot c) host
  || existsb (fun label => bool_decide (label = []) || (63 <? zlen label))
       (split_on is_dot (trim_end_dots host))
  || ends_with_two_dots host.

Definition TcpTarget_new (host : bytes) (port : Z) : result TcpTarget TcpTargetError :=
  if port =? 0 then Err BadPort else
  let without_root_dot := strip_dot host in
  if bool_decide (without_root_dot = []) || (253 <? zlen without_root_dot)
  then Err BadHostLength else
  match parse_ip host with
  | Some ip =>
      let ip := to_canonical ip in
      if is_unspecified ip || is_multicast ip || is_broadcast ip then Err NotUnicast
      else Ok (mkTarget (fmt_ip ip) port)
  | None =>
      if bad_hostname host then Err BadHostname
      else Ok (mkTarget (ascii_lower <$> host) port)
  end.

(** [str::split_once] and [str::rsplit_once] at a byte. *)
Fixpoint split_once (c : ascii) (s : bytes) : option (bytes * bytes) :=
  match s with
  | [] => None
  | x :: s =>
      if bool_decide (x = c) then Some ([], s)
      else match split_once c s with Some (a, b) => Some (x :: a, b) | None => None end
  end.
Definition rsplit_once (c : ascii) (s : bytes) : option (bytes * bytes) :=
  match split_once c (rev s) with Some (b, a) => Some (rev a, rev b) | None => None end.

Definition strip_prefix (c : ascii) (s : bytes) : option bytes :=
  match s with x :: s => if bool_decide (x = c) then Some s else None | [] => None end.

(** The host and the text of the port. *)
Definition split_target (value : bytes) : result (bytes * bytes) TcpTargetError :=
  match strip_prefix "["%char value with
  | Some rest =>
      let? (host, tail) := ok_or (split_once "]"%char rest) Unterminated in
      match parse_ipv6 host with
      | None => Err NotIpv6
      | Some _ =>
          let? port := ok_or (strip_prefix ":"%char tail) NoPortAfterBracket in
          Ok (host, port)
      end
  | None =>
      let? (host, port) := ok_or (rsplit_once ":"%char value) NoPort in
      if contains_byte ":"%char host then Err Ipv6NeedsBrackets else Ok (host, port)
  end.

(** [TcpTarget::from_str]. *)
Definition TcpTarget_from_str (value : bytes) : result TcpTarget TcpTargetError :=
  if 261 <? zlen value then Err TooLong else
  let? (host, port) := split_target value in
  if bool_decide (port = []) || negb (forallb is_ascii_digit port) then Err BadPort else
  match parse_u16 port with
  | None => Err BadPort
  | Some port => TcpTarget_new host port
  end.

(** [Display]. *)
Definition TcpTarget_fmt (t : TcpTarget) : bytes :=
  if contains_byte ":"%char (tt_host t)
  then "["%char :: tt_host t ++ bs "]:" ++ fmt_u16 (tt_port t)
  else tt_host t ++ ":"%char :: fmt_u16 (tt_port t).

(** Inputs of the source's tests. *)
Lemma TcpTarget_examples :
  TcpTarget_from_str <$> [bs "LOCALHOST:0022"; bs "SSH.Example.:65535"; bs "[::ffff:127.0.0.1]:22";
    bs "[0:0:0:0:0:0:0:1]:22"; bs "a..b:1"; bs "1.2.3:22"; bs "host:0"; bs "::1:22"; bs "224.0.0.1:5"]
  = [Ok (mkTarget (bs "localhost") 22); Ok (mkTarget (bs "ssh.example.") 65535);
     Ok (mkTarget (bs "127.0.0.1") 22); Ok (mkTarget (bs "::1") 22); Err BadHostname;
     Err BadHostname; Err BadPort; Err Ipv6NeedsBrackets; Err NotUnicast].
Proof. vm_compute. reflexivity. Qed.

(** ** Lower-casing a host keeps its shape *)

Lemma lower_is_dot c : is_dot (ascii_lower c) = is_dot c.
Proof. by destruct c as [[] [] [] [] [] [] [] []]. Qed.
Lemma lower_digit_or_dot c : digit_or_dot (ascii_lower c) = digit_or_dot c.
Proof. by destruct c as [[] [] [] [] [] [] [] []]. Qed.
Lemma lower_hostname_byte c : hostname_byte (ascii_lower c) = hostname_byte c.
Proof. by destruct c as [[] [] [] [] [] [] [] []]. Qed.
Lemma ascii_lower_idemp c : ascii_lower (ascii_lower c) = ascii_lower c.
Proof. by destruct c as [[] [] [] [] [] [] [] []]. Qed.
Lemma hostname_byte_no_colon c : hostname_byte c = true -> c <> ":"%char.
Proof. intros Hc ->. done. Qed.

Lemma rev_fmap {A B} (f : A -> B) (l : list A) : rev (f <$> l) = f <$> rev l.
Proof. symmetry. apply map_rev. Qed.

Lemma strip_dot_lower (s : bytes) : strip_dot (ascii_lower <$> s) = ascii_lower <$> strip_dot s.
Proof.
  unfold strip_dot. rewrite rev_fmap. destruct (rev s) as [|c r]; csimpl; [done|].
  rewrite lower_is_dot. destruct (is_dot c); [|done]. apply rev_fmap.
Qed.

Lemma trim_start_lower (s : bytes) : trim_start_dots (ascii_lower <$> s) = ascii_lower <$> trim_start_dots s.
Proof.
  induction s as [|c s IH]; csimpl; [done|]. rewrite lower_is_dot. by destruct (is_dot c).
Qed.

Lemma split_on_fmap (p : ascii -> bool) (f : ascii -> ascii) (s : bytes) :
  (forall c, p (f c) = p c) -> split_on p (f <$> s) = (fun w : bytes => f <$> w) <$> split_on p s.
Proof.
  intros Hp. induction s as [|c s IH]; csimpl; [done|]. rewrite Hp. destruct (p c); csimpl; [by rewrite IH|].
  rewrite IH. by destruct (split_on p s).
Qed.

Lemma forallb_fmap {A B} (p : B -> bool) (q : A -> bool) (f : A -> B) (l : list A) :
  (forall c, p (f c) = q c) -> forallb p (f <$> l) = forallb q l.
Proof. intros Hp. induction l as [|c l IH]; csimpl; [done|]. by rewrite Hp, IH. Qed.

Lemma bad_hostname_lower (s : bytes) : bad_hostname (ascii_lower <$> s) = bad_hostname s.
Proof.
  unfold bad_hostname. rewrite !(forallb_fmap _ _ _ _ lower_hostname_byte).
  rewrite (forallb_fmap _ _ _ _ lower_digit_or_dot). unfold trim_end_dots, ends_with_two_dots.
  rewrite rev_fmap, trim_start_lower, rev_fmap, (split_on_fmap _ _ _ lower_is_dot).
  f_equal; [f_equal|].
  - induction (split_on is_dot _) as [|w ws IH]; csimpl; [done|]. rewrite IH. f_equal. f_equal.
    + by destruct w.
    + unfold zlen. by rewrite length_fmap.
  - destruct (rev s) as [|c [|d r]]; csimpl; [done|done|]. by rewrite !lower_is_dot.
Qed.

Lemma strip_dot_length s : (length (strip_dot s) <= length s)%nat.
Proof.
  unfold strip_dot. destruct (rev s) as [|c r] eqn:E; [done|]. destruct (is_dot c); [|done].
  apply (f_equal length) in E. rewrite length_rev in E. rewrite length_rev. simpl in E. lia.
Qed.

Lemma strip_dot_length_ge s : (length s <= S (length (strip_dot s)))%nat.
Proof.
  unfold strip_dot. destruct (rev s) as [|c r] eqn:E; [lia|]. destruct (is_dot c); [|lia].
  apply (f_equal length) in E. rewrite length_rev in E. rewrite length_rev. simpl in E. lia.
Qed.

Lemma strip_dot_nil s : strip_dot s = [] -> s = [] \/ s = bs ".".
Proof.
  unfold strip_dot. destruct (rev s) as [|c r] eqn:E.
  - intros ->. by left.
  - destruct (is_dot c) eqn:Ec; [|intros ->; by left]. apply bool_decide_eq_true in Ec as ->.
    intros Er. apply (f_equal (@rev ascii)) in E. rewrite rev_involutive in E. simpl in E.
    rewrite Er in E. by right.
Qed.

Lemma forallb_digit_or_dot s :
  forallb (fun c => is_ascii_digit c || is_dot c) s = true <->
  Forall (fun c => digit_or_dot c = true) s.
Proof. rewrite forallb_forall, Forall_forall. by setoid_rewrite list_elem_of_In. Qed.

(** ** What a target is *)

(** The two shapes of a target's host, neither of which the constructor changes. *)
Inductive canonical_host : bytes -> Prop :=
| host_ip ip :
    ip_typed ip -> canonical ip -> is_unspecified ip || is_multicast ip || is_broadcast ip = false ->
    canonical_host (fmt_ip ip)
| host_name (s : bytes) :
    bad_hostname s = false -> strip_dot s <> [] -> zlen (strip_dot s) <= 253 ->
    ascii_lower <$> s = s -> canonical_host s.

Lemma hostname_not_ip s : bad_hostname s = false -> parse_ip s = None.
Proof.
  unfold bad_hostname. intros E. destruct (parse_ip s) as [ip|] eqn:Ep; [|done]. exfalso.
  destruct (forallb hostname_byte s) eqn:E1; [|done].
  destruct (forallb (fun c => is_ascii_digit c || is_dot c) s) eqn:E2; [done|].
  apply parse_ip_inv in Ep as [_ Hs]. destruct ip.
  - apply forallb_digit_or_dot in Hs. congruence.
  - rewrite forallb_forall in E1. apply list_elem_of_In in Hs. specialize (E1 _ Hs).
    by apply hostname_byte_no_colon in E1.
Qed.

Lemma TcpTarget_new_host host port t :
  TcpTarget_new host port = Ok t -> canonical_host (tt_host t) /\ tt_port t = port /\ port <> 0.
Proof.
  unfold TcpTarget_new. destruct (port =? 0) eqn:E0; [done|]. apply Z.eqb_neq in E0.
  destruct (_ || _) eqn:E1; [done|]. apply orb_false_iff in E1 as [E1 E2].
  apply bool_decide_eq_false in E1. apply Z.ltb_ge in E2.
  destruct (parse_ip host) as [ip|] eqn:Ep.
  - apply parse_ip_inv in Ep as [Ht _]. apply to_canonical_ok in Ht as [Ht Hc].
    destruct (_ || _) eqn:E3; [done|]. intros [= <-]. simpl. split; [by constructor|done].
  - destruct (bad_hostname host) eqn:Eb; [done|]. intros [= <-]. simpl. split; [|done].
    apply host_name.
    + by rewrite bad_hostname_lower.
    + rewrite strip_dot_lower. by destruct (strip_dot host).
    + rewrite strip_dot_lower. unfold zlen in *. by rewrite length_fmap.
    + rewrite <-list_fmap_compose. apply list_fmap_ext. intros i c _. apply ascii_lower_idemp.
Qed.

Lemma TcpTarget_new_canonical host port :
  canonical_host host -> port <> 0 -> TcpTarget_new host port = Ok (mkTarget host port).
Proof.
  intros Hh Hp. unfold TcpTarget_new. rewrite (proj2 (Z.eqb_neq _ _)) by done.
  destruct Hh as [ip Ht Hc Hu|s Hb Hn Hl Hlow].
  - pose proof (parse_fmt_ip ip Ht Hc) as Ep.
    rewrite bool_decide_eq_false_2
      by (intros [E|E]%strip_dot_nil; rewrite E in Ep; vm_compute in Ep; discriminate).
    rewrite (proj2 (Z.ltb_ge _ _)); cycle 1.
    { pose proof (strip_dot_length (fmt_ip ip)). pose proof (fmt_ip_length ip Ht Hc). unfold zlen. lia. }
    simpl. rewrite Ep, to_canonical_id by done. by rewrite Hu.
  - rewrite bool_decide_eq_false_2, (proj2 (Z.ltb_ge _ _)) by done. simpl.
    by rewrite hostname_not_ip, Hb, Hlow.
Qed.

Lemma canonical_host_length host : canonical_host host -> zlen host <= 254.
Proof.
  intros [ip Ht Hc _|s _ _ Hl _]; unfold zlen in *.
  - pose proof (fmt_ip_length ip Ht Hc). lia.
  - pose proof (strip_dot_length_ge s). lia.
Qed.

(** ** Printing and parsing *)

Lemma split_once_app c a b : ~ c ∈ a -> split_once c (a ++ c :: b) = Some (a, b).
Proof.
  induction a as [|x a IH]; intros Hc; simpl.
  - by rewrite bool_decide_eq_true_2.
  - rewrite bool_decide_eq_false_2 by set_solver. rewrite IH by set_solver. done.
Qed.

Lemma rsplit_once_app c a b : ~ c ∈ b -> rsplit_once c (a ++ c :: b) = Some (a, b).
Proof.
  intros Hc. unfold rsplit_once. rewrite rev_app_distr. simpl. rewrite <-app_assoc. simpl.
  rewrite split_once_app
    by (intros K%list_elem_of_In; apply Hc, list_elem_of_In; by apply in_rev).
  by rewrite !rev_involutive.
Qed.

Lemma fmt_ipv4_no_colon a b c d : ip_typed (V4 a b c d) -> ~ ":"%char ∈ fmt_ipv4 a b c d.
Proof.
  intros Ht%parse_fmt_ipv4 Hin. apply parse_ip_inv in Ht as [_ Hd]. rewrite Forall_forall in Hd.
  by specialize (Hd _ Hin).
Qed.

(** A host with a colon is a printed IPv6 address. *)
Lemma canonical_host_colon host :
  canonical_host host -> ":"%char ∈ host ->
  exists g, host = fmt_ipv6 g /\ ip_typed (V6 g) /\ to_ipv4_mapped g = None.
Proof.
  intros [ip Ht Hc _|s Hb _ _ _] Hin.
  - destruct ip as [a b c d|g]; [by apply fmt_ipv4_no_colon in Ht|]. by exists g.
  - exfalso. unfold bad_hostname in Hb. destruct (forallb hostname_byte s) eqn:E; [|done].
    rewrite forallb_forall in E. apply list_elem_of_In in Hin. specialize (E _ Hin). done.
Qed.

Lemma fmt_u16_chars n c : in_u16 n -> c ∈ fmt_u16 n -> is_ascii_digit c = true.
Proof.
  intros Hn Hc. pose proof (fmt_u16_digits n Hn) as Hd. rewrite forallb_forall in Hd.
  by apply Hd, list_elem_of_In.
Qed.

Lemma split_target_fmt t :
  canonical_host (tt_host t) -> in_u16 (tt_port t) ->
  split_target (TcpTarget_fmt t) = Ok (tt_host t, fmt_u16 (tt_port t)).
Proof.
  intros Hh Hp. destruct t as [host port]. unfold TcpTarget_fmt, split_target, contains_byte. simpl in *.
  case_bool_decide as Hc.
  - destruct (canonical_host_colon host Hh Hc) as (g & -> & Ht & Hm). simpl.
    rewrite split_once_app by (apply chars_not_in; [by apply fmt_ipv6_chars|done|done]).
    simpl. by rewrite parse_fmt_ipv6.
  - destruct (strip_prefix "["%char (host ++ ":"%char :: fmt_u16 port)) as [r|] eqn:Es.
    { exfalso. assert (Hb : "["%char ∈ host).
      { destruct host as [|x host]; simpl in Es; [done|]. case_bool_decide; [subst x; left|done]. }
      destruct Hh as [ip Ht Hcc _|s Hb' _ _ _].
      - pose proof (parse_fmt_ip ip Ht Hcc) as Ep. apply parse_ip_inv in Ep as [_ Ep].
        destruct ip; [|done]. rewrite Forall_forall in Ep. by specialize (Ep _ Hb).
      - unfold bad_hostname in Hb'. destruct (forallb hostname_byte s) eqn:E; [|done].
        rewrite forallb_forall in E. apply list_elem_of_In in Hb. by specialize (E _ Hb). }
    rewrite rsplit_once_app by (intros K; by apply fmt_u16_chars in K).
    simpl. by rewrite bool_decide_eq_false_2.
Qed.

Lemma TcpTarget_fmt_length t :
  canonical_host (tt_host t) -> in_u16 (tt_port t) -> zlen (TcpTarget_fmt t) <= 261.
Proof.
  intros Hh Hp. pose proof (pr_length _ _ _ _ (fmt_u16_printed _ Hp)) as Hl.
  pose proof (canonical_host_length _ Hh) as Hz.
  unfold TcpTarget_fmt, contains_byte. case_bool_decide as Hc; unfold zlen in *.
  - destruct (canonical_host_colon _ Hh Hc) as (g & E & Ht & Hm). rewrite E in *.
    pose proof (fmt_ip_length (V6 g) Ht Hm) as Hg. simpl in Hg. simpl length.
    rewrite !length_app. simpl length. lia.
  - rewrite length_app. simpl length. lia.
Qed.

(** A TCP destination is in canonical form: printing it and parsing the text gives
    the same destination, and so does constructing it from its own host and port.
    Allowlists therefore compare destinations by their printed form. *)
Theorem TcpTarget_roundtrip host port t :
  0 <= port <= u16_max -> TcpTarget_new host port = Ok t ->
  TcpTarget_from_str (TcpTarget_fmt t) = Ok t /\ TcpTarget_new (tt_host t) (tt_port t) = Ok t.
Proof.
  intros Hport (Hh & Ep & Hp)%TcpTarget_new_host.
  assert (Hpt : in_u16 (tt_port t)) by (rewrite Ep; exact Hport).
  assert (En : TcpTarget_new (tt_host t) (tt_port t) = Ok t).
  { rewrite TcpTarget_new_canonical by (done || by rewrite Ep). by destruct t. }
  split; [|done]. unfold TcpTarget_from_str.
  rewrite (proj2 (Z.ltb_ge _ _)) by by apply TcpTarget_fmt_length.
  rewrite split_target_fmt by done. simpl.
  rewrite fmt_u16_digits, bool_decide_eq_false_2 by
    (done || (intros E; pose proof (pr_length _ _ _ _ (fmt_u16_printed _ Hpt)) as Hl;
              rewrite E in Hl; simpl in Hl; lia)).
  simpl. by rewrite parse_u16_fmt.
Qed.

Lemma TcpTarget_roundtrip_witness :
  TcpTarget_from_str (TcpTarget_fmt (mkTarget (bs "2001:db8::1") 22))
  = Ok (mkTarget (bs "2001:db8::1") 22).
Proof.
  assert (E : TcpTarget_new (bs "2001:DB8:0::1") 22 = Ok (mkTarget (bs "2001:db8::1") 22))
    by (vm_compute; reflexivity).
  assert (Hp : 0 <= 22 <= u16_max) by (unfold u16_max; lia).
  exact (proj1 (TcpTarget_roundtrip _ _ _ Hp E)).
Defined.
