(* ===== verification/Crypto.v ===== *)
(** * Interfaces of the external libraries

    The program calls [ed25519-dalek], [blake3] and [postcard]; none of them is part
    of the repository.  Each is a class of operations, an argument of every definition
    that uses it, with a second class for the documented laws a theorem may need.
    The toy instances at the end are concrete functions that satisfy the laws; they
    serve the witnesses only. *)

From S2P Require Import Prelude.

(** [ed25519_dalek]: [VerifyingKey::from_bytes], [VerifyingKey::verify_strict],
    [SigningKey::verifying_key] and [SigningKey::sign].  A signature is its bytes. *)
Class Ed25519 : Type := {
  vk_from_bytes : bytes -> result unit string;
  verify_strict : bytes -> bytes -> bytes -> bool;
  verifying_key : bytes -> bytes;
  ed_sign : bytes -> bytes -> bytes
}.

(** The public half of a signing key is a valid verifying key, a signature has 64
    bytes, and an honest signature verifies. *)
Class Ed25519Laws `{Ed25519} : Prop := {
  vk_of_signing : forall sk, vk_from_bytes (verifying_key sk) = Ok tt;
  ed_sign_length : forall sk m, length (ed_sign sk m) = 64%nat;
  ed_sign_verifies : forall sk m, verify_strict (verifying_key sk) m (ed_sign sk m) = true
}.

(** [blake3::hash]; feeding a [Hasher] piecewise hashes the concatenation. *)
Class Blake3 : Type := blake3_hash : bytes -> bytes.

(** [postcard]: the encoder and the decoder that returns the unused bytes.  Errors are
    their text. *)
Class Postcard (A : Type) : Type := {
  to_stdvec : A -> result bytes string;
  take_from_bytes : bytes -> result (A * bytes) string
}.

(** [postcard::from_bytes] drops the unused bytes. *)
Definition from_bytes {A} `{Postcard A} (b : bytes) : result A string :=
  match take_from_bytes b with Ok (a, _) => Ok a | Err e => Err e end.

(** What is encoded decodes to itself, whatever follows it. *)
Class PostcardLaws (A : Type) `{Postcard A} : Prop :=
  take_to_stdvec : forall a b rest,
    to_stdvec a = Ok b -> take_from_bytes (b ++ rest) = Ok (a, rest).

(** [postcard::experimental::serialized_size]. *)
Class PostcardSize (A : Type) : Type := serialized_size : A -> result Z string.

(** [serde_json]: [to_vec] and [from_slice], which refuses unused bytes. *)
Class SerdeJson (A : Type) : Type := {
  json_to_vec : A -> result bytes string;
  json_from_slice : bytes -> result A string
}.

Class SerdeJsonLaws (A : Type) `{SerdeJson A} : Prop :=
  json_roundtrip : forall a b, json_to_vec a = Ok b -> json_from_slice b = Ok a.

(** ** Toy instances for witnesses *)

Definition toy_signature (sk m : bytes) : bytes :=
  take 64 (sk ++ m ++ replicate 64 "0"%char).

Definition toy_ed25519 : Ed25519 := {|
  vk_from_bytes _ := Ok tt;
  verify_strict k m s := bool_decide (s = toy_signature k m);
  verifying_key sk := sk;
  ed_sign := toy_signature
|}.

Lemma toy_ed25519_laws : @Ed25519Laws toy_ed25519.
Proof.
  split; simpl; intros; try done.
  - unfold toy_signature. rewrite length_take, !length_app, length_replicate. lia.
  - by apply bool_decide_eq_true_2.
Qed.

Definition toy_blake3 : Blake3 := fun b => take 32 (b ++ replicate 32 "0"%char).

(** A codec that knows a finite list of values. *)
Fixpoint toy_encode {A} `{EqDecision A} (t : list (A * bytes)) (a : A) : result bytes string :=
  match t with
  | [] => Err "unknown value"%string
  | (x, b) :: t => if decide (x = a) then Ok b else toy_encode t a
  end.
Fixpoint toy_decode {A} (t : list (A * bytes)) (b : bytes) : result (A * bytes) string :=
  match t with
  | [] => Err "unknown bytes"%string
  | (x, c) :: t =>
      if decide (take (length c) b = c) then Ok (x, drop (length c) b) else toy_decode t b
  end.
Definition toy_postcard {A} `{EqDecision A} (t : list (A * bytes)) : Postcard A := {|
  to_stdvec := toy_encode t;
  take_from_bytes := toy_decode t
|}.

Lemma toy_postcard_laws {A} `{EqDecision A} (x : A) (c : bytes) :
  @PostcardLaws A (toy_postcard [(x, c)]).
Proof.
  intros a b rest. simpl. destruct (decide (x = a)) as [<-|]; [|done].
  intros [= ->]. by rewrite take_app_length, decide_True, drop_app_length.
Qed.

(** A JSON writer that emits one byte, for what is only measured. *)
Definition toy_json {A} (a : A) : SerdeJson A := {|
  json_to_vec _ := Ok (bs "j");
  json_from_slice _ := Ok a
|}.

(** A JSON codec that knows a finite list of values. *)
Fixpoint toy_lookup {A} (t : list (A * bytes)) (b : bytes) : result A string :=
  match t with
  | [] => Err "unknown bytes"%string
  | (x, c) :: t => if decide (c = b) then Ok x else toy_lookup t b
  end.
Definition toy_json_table {A} `{EqDecision A} (t : list (A * bytes)) : SerdeJson A := {|
  json_to_vec := toy_encode t;
  json_from_slice := toy_lookup t
|}.

Lemma toy_encode_elem {A} `{EqDecision A} t (a : A) b : toy_encode t a = Ok b -> b ∈ t.*2.
Proof.
  induction t as [|[x c] t IH]; csimpl; [done|]. destruct (decide (x = a)).
  - intros [= ->]. left.
  - intros K. right. by apply IH.
Qed.

Lemma toy_json_laws {A} `{EqDecision A} (t : list (A * bytes)) :
  NoDup t.*2 -> @SerdeJsonLaws A (toy_json_table t).
Proof.
  intros Hn a b. simpl. induction t as [|[x c] t IH]; csimpl in *; [done|].
  apply NoDup_cons in Hn as [Hc Hn]. destruct (decide (x = a)) as [->|].
  - intros [= ->]. by rewrite decide_True.
  - intros K. rewrite decide_False; [by apply IH|].
    intros ->. by apply Hc, (toy_encode_elem t a).
Qed.

(** A codec for a finite list of values whose codes have the same length. *)
Lemma toy_decode_elem {A} (t : list (A * bytes)) (a : A) b rest :
  Forall (fun x => length x.2 = length b) t -> NoDup t.*2 -> (a, b) ∈ t ->
  toy_decode t (b ++ rest) = Ok (a, rest).
Proof.
  induction t as [|[x c] t IH]; intros Hl Hn Hi; [by apply not_elem_of_nil in Hi|].
  apply Forall_cons in Hl as [Hc Hl]. csimpl in Hn. apply NoDup_cons in Hn as [Nc Hn]. simpl in *.
  rewrite Hc, take_app_length, drop_app_length. apply elem_of_cons in Hi as [[= -> ->]|Hi].
  - by rewrite decide_True.
  - rewrite decide_False; [by apply IH|]. intros ->. apply Nc, list_elem_of_fmap. by exists (a, c).
Qed.

Lemma toy_table_laws {A} `{EqDecision A} (t : list (A * bytes)) (n : nat) :
  Forall (fun x => length x.2 = n) t -> NoDup t.*2 -> @PostcardLaws A (toy_postcard t).
Proof.
  intros Hl Hn a b rest E. simpl in *.
  assert (Hi : (a, b) ∈ t).
  { clear -E. induction t as [|[x c] t IH]; [done|]. simpl in E. destruct (decide (x = a)) as [->|].
    - injection E as ->. left.
    - right. by apply IH. }
  apply toy_decode_elem; [|done|done].
  pose proof (proj1 (Forall_forall _ _) Hl _ Hi) as Lb. simpl in Lb. by rewrite Lb.
Qed.
