(* ===== verification/Grant.v ===== *)
(** * Capability grants

    Models [src/crates/rds-core/src/grant.rs]: the signed token by which an issuer lets a
    subject endpoint use services of one destination for a bounded time, its decoding
    and verification, the scope tests, and the renewal rule. *)

From S2P Require Import Prelude Paths Crypto.

(** ** Data *)

(** [ServiceKind] of [src/crates/rds-core/src/lib.rs]. *)
Inductive ServiceKind : Type :=
| KPing | KInfo | KTcp | KDesktop | KSync | KAudio
| KSyncRead | KSyncWrite | KDesktopView | KDesktopControl.

#[export] Instance ServiceKind_eq_dec : EqDecision ServiceKind.
Proof. solve_decision. Defined.

Definition SKEW_SECS : Z := 30.
Definition GRANT_VERSION : Z := 3.
Definition GRANT_VERSION_MIN : Z := 2.
Definition MAX_PAYLOAD_LEN : Z := 4096.
Definition DOMAIN_V2 : bytes := bs "rds/capability-grant/v2" ++ ["000"%char].
Definition DOMAIN_V3 : bytes := bs "rds/capability-grant/v3" ++ ["000"%char].
Definition ID_DOMAIN : bytes := bs "rds/grant-session/v2" ++ ["000"%char].
Definition MAX_SERVICES : Z := 32.
Definition MAX_TCP_PORTS : Z := 128.
Definition MAX_DISPLAYS : Z := 32.
Definition MAX_TENANT_LEN : Z := 64.
Definition MAX_SYNC_PATHS : Z := 64.
Definition MAX_SCOPE_PATH_LEN : Z := 512.

Abbreviation GrantId := bytes (only parsing).

Record Grant : Type := mkGrant { g_payload : bytes; g_signature : bytes }.

Record GrantConstraints : Type := mkConstraints {
  c_max_bps : option Z;
  c_tcp_ports : option (list Z);
  c_displays : option (list Z);
  c_sync_paths : option (list bytes)
}.

Record GrantPayload : Type := mkPayload {
  p_version : Z;
  p_revision : Z;
  p_issuer : bytes;
  p_subject : bytes;
  p_audience : bytes;
  p_nonce : bytes;
  p_services : list ServiceKind;
  p_not_before : Z;
  p_expires_at : Z;
  p_constraints : GrantConstraints;
  p_tenant : option bytes;
  p_policy_revision : option Z
}.

#[export] Instance GrantConstraints_eq_dec : EqDecision GrantConstraints.
Proof. solve_decision. Defined.
#[export] Instance GrantPayload_eq_dec : EqDecision GrantPayload.
Proof. solve_decision. Defined.

(** The frozen version-2 layout. *)
Record GrantConstraintsV2 : Type := mkConstraintsV2 {
  c2_max_bps : option Z;
  c2_tcp_ports : option (list Z);
  c2_displays : option (list Z)
}.
Record GrantPayloadV2 : Type := mkPayloadV2 {
  p2_version : Z;
  p2_revision : Z;
  p2_issuer : bytes;
  p2_subject : bytes;
  p2_audience : bytes;
  p2_nonce : bytes;
  p2_services : list ServiceKind;
  p2_not_before : Z;
  p2_expires_at : Z;
  p2_constraints : GrantConstraintsV2
}.

(** [From<GrantPayloadV2> for GrantPayload]. *)
Definition payload_of_v2 (old : GrantPayloadV2) : GrantPayload := {|
  p_version := p2_version old;
  p_revision := p2_revision old;
  p_issuer := p2_issuer old;
  p_subject := p2_subject old;
  p_audience := p2_audience old;
  p_nonce := p2_nonce old;
  p_services := p2_services old;
  p_not_before := p2_not_before old;
  p_expires_at := p2_expires_at old;
  p_constraints := {| c_max_bps := c2_max_bps (p2_constraints old);
                      c_tcp_ports := c2_tcp_ports (p2_constraints old);
                      c_displays := c2_displays (p2_constraints old);
                      c_sync_paths := None |};
  p_tenant := None;
  p_policy_revision := None
|}.

Record VerifiedGrant : Type := mkVerified { v_payload : GrantPayload; v_id : GrantId }.

#[export] Instance VerifiedGrant_eq_dec : EqDecision VerifiedGrant.
Proof. solve_decision. Defined.

Inductive GrantError : Type :=
| Malformed (message : string)
| UntrustedIssuer
| GBadSignature
| WrongSubject
| WrongAudience
| TenantMismatch
| PolicyRevisionStale
| GVersion
| InvalidInterval
| InvalidRevision
| InvalidRenewal
| NotYetValid
| GExpired
| TtlExceeded (ttl : Z)
| Oversized.

#[export] Instance GrantError_eq_dec : EqDecision GrantError.
Proof. solve_decision. Defined.

(** ** Scope tests of a verified grant *)

Definition permits (g : VerifiedGrant) (service : ServiceKind) : bool :=
  bool_decide (service ∈ p_services (v_payload g)).

Definition permits_sync_read (g : VerifiedGrant) : bool :=
  permits g KSync || permits g KSyncRead.

Definition permits_sync_write (g : VerifiedGrant) : bool :=
  permits g KSync || permits g KSyncWrite.

Definition permits_desktop_view (g : VerifiedGrant) : bool :=
  permits g KDesktop || permits g KDesktopView.

Definition permits_desktop_control (g : VerifiedGrant) : bool :=
  permits g KDesktop || (permits g KDesktopView && permits g KDesktopControl).

Definition permits_service (g : VerifiedGrant) (service : ServiceKind) : bool :=
  match service with
  | KSync => permits_sync_read g || permits_sync_write g
  | KDesktop => permits_desktop_view g
  | other => permits g other
  end.

Definition permits_port (g : VerifiedGrant) (port : Z) : bool :=
  match c_tcp_ports (p_constraints (v_payload g)) with
  | Some ports => bool_decide (port ∈ ports)
  | None => true
  end.

Definition permits_display (g : VerifiedGrant) (display : Z) : bool :=
  match c_displays (p_constraints (v_payload g)) with
  | Some displays => bool_decide (display ∈ displays)
  | None => true
  end.

Definition permits_sync_path (g : VerifiedGrant) (rel : bytes) : bool :=
  match c_sync_paths (p_constraints (v_payload g)) with
  | Some paths => existsb (fun scope => path_eqb rel scope || path_starts_with rel scope) paths
  | None => true
  end.

Definition live_at (g : VerifiedGrant) (now : Z) : bool :=
  (p_not_before (v_payload g) <=? sat_add64 now SKEW_SECS)
  && (now <? p_expires_at (v_payload g)).

(** [VerifiedGrant::permits_renewal]. *)
Definition permits_renewal (cur next : VerifiedGrant) : result bool GrantError :=
  if bool_decide (v_payload cur = v_payload next) then Ok false
  else if negb (bool_decide (v_id cur = v_id next))
       || negb (bool_decide (p_services (v_payload cur) = p_services (v_payload next)))
       || negb (bool_decide (p_constraints (v_payload cur) = p_constraints (v_payload next)))
       || negb (bool_decide (p_tenant (v_payload cur) = p_tenant (v_payload next)))
       || negb (bool_decide (p_policy_revision (v_payload cur)
                             = p_policy_revision (v_payload next)))
       || (p_revision (v_payload next) <=? p_revision (v_payload cur))
       || (p_not_before (v_payload next) <? p_not_before (v_payload cur))
       || (p_expires_at (v_payload next) <=? p_expires_at (v_payload cur))
  then Err InvalidRenewal
  else Ok true.

(** ** Decoding *)

(** The loop over the parts of a scope entry: the number of real components. *)
Definition scope_part (real_components : Z) (part : bytes) : result Z GrantError :=
  if bool_decide (part = []) || bool_decide (part = bs ".") then Ok real_components
  else if bool_decide (part = bs "..") then Err (Malformed "traversal in sync_paths entry")
  else Ok (real_components + 1).

(** [check_scope_path]. *)
Definition check_scope_path (path : bytes) : result unit GrantError :=
  if bool_decide (path = []) || (MAX_SCOPE_PATH_LEN <? zlen path)
  then Err (Malformed "bad sync_paths entry") else
  if contains_byte "000"%char path then Err (Malformed "sync_paths entry contains NUL") else
  if starts_with_byte is_sep path || bool_decide (path !! 1%nat = Some ":"%char)
  then Err (Malformed "absolute sync_paths entry") else
  let? real_components := try_fold scope_part 0 (split_on is_sep path) in
  if real_components =? 0 then Err (Malformed "empty sync_paths entry") else Ok tt.

(** [signature_message]. *)
Definition signature_message (version : Z) (payload : bytes) : bytes :=
  (if version =? GRANT_VERSION_MIN then DOMAIN_V2 else DOMAIN_V3) ++ payload.

(** The bounds and shape checks [Grant::decode] runs on a decoded payload. *)
Definition tenant_bad (t : bytes) : bool :=
  bool_decide (t = []) || existsb (fun b => (byte_val b <? 33) || (byte_val b =? 127)) t.

Definition payload_oversized (p : GrantPayload) : bool :=
  (MAX_SERVICES <? zlen (p_services p))
  || is_some_and (c_tcp_ports (p_constraints p)) (fun l => MAX_TCP_PORTS <? zlen l)
  || is_some_and (c_displays (p_constraints p)) (fun l => MAX_DISPLAYS <? zlen l)
  || is_some_and (c_sync_paths (p_constraints p)) (fun l => MAX_SYNC_PATHS <? zlen l)
  || is_some_and (p_tenant p) (fun t => MAX_TENANT_LEN <? zlen t).

Definition check_payload (p : GrantPayload) : result GrantPayload GrantError :=
  if p_revision p =? 0 then Err InvalidRevision else
  if p_expires_at p <=? p_not_before p then Err InvalidInterval else
  if payload_oversized p then Err Oversized else
  if is_some_and (p_tenant p) tenant_bad
  then Err (Malformed "tenant contains control or whitespace bytes") else
  let? _ := (match c_sync_paths (p_constraints p) with
             | Some paths => try_for_each check_scope_path paths
             | None => Ok tt
             end) in
  Ok p.

Section WithLibraries.
  Context `{Ed25519, Blake3, Postcard Z, Postcard GrantPayload, Postcard GrantPayloadV2}.

(** [GrantPayload::id]. *)
Definition payload_id (p : GrantPayload) : GrantId :=
  blake3_hash (ID_DOMAIN ++ p_issuer p ++ p_subject p ++ p_audience p ++ p_nonce p).

(** Decoding one layout; nothing may follow it. *)
Definition decode_exact {A} `{Postcard A} (b : bytes) : result A GrantError :=
  let? (a, trailing) := map_err Malformed (take_from_bytes b) in
  if bool_decide (trailing = []) then Ok a else Err (Malformed "trailing grant bytes").

(** [Grant::decode].  [postcard::take_from_bytes::<u16>] peeks the version. *)
Definition Grant_decode (g : Grant) : result GrantPayload GrantError :=
  if MAX_PAYLOAD_LEN <? zlen (g_payload g) then Err Oversized else
  let? (version, _) := map_err Malformed (take_from_bytes (A := Z) (g_payload g)) in
  let? payload :=
    (if version =? GRANT_VERSION_MIN
     then let? old := decode_exact (A := GrantPayloadV2) (g_payload g) in Ok (payload_of_v2 old)
     else if version =? GRANT_VERSION then decode_exact (A := GrantPayload) (g_payload g)
     else Err GVersion) in
  check_payload payload.

(** [Grant::id]. *)
Definition Grant_id (g : Grant) : result GrantId GrantError :=
  let? p := Grant_decode g in Ok (payload_id p).

(** [Grant::verify]; [max_ttl] is a [Duration]. *)
Definition Grant_verify (g : Grant) (issuers : gset bytes) (subject audience : bytes)
    (max_ttl : duration) (now : Z) : result VerifiedGrant GrantError :=
  let? payload := Grant_decode g in
  if negb (bool_decide (p_issuer payload ∈ issuers)) then Err UntrustedIssuer else
  let? _ := map_err Malformed (vk_from_bytes (p_issuer payload)) in
  if negb (bool_decide (length (g_signature g) = 64%nat))
  then Err (Malformed "signature is not 64 bytes") else
  if negb (verify_strict (p_issuer payload)
             (signature_message (p_version payload) (g_payload g)) (g_signature g))
  then Err GBadSignature else
  if negb (bool_decide (p_subject payload = subject)) then Err WrongSubject else
  if negb (bool_decide (p_audience payload = audience)) then Err WrongAudience else
  if sat_add64 now SKEW_SECS <? p_not_before payload then Err NotYetValid else
  if p_expires_at payload <=? now then Err GExpired else
  let ttl := sat_sub64 (p_expires_at payload) (p_not_before payload) in
  if as_secs max_ttl <? ttl then Err (TtlExceeded ttl) else
  Ok {| v_payload := payload; v_id := payload_id payload |}.

(** [Grant::issue_at]; [None] is the panic of [expect("grant payload encodes")]. *)
Definition Grant_issue_at (issuer : bytes) (p : GrantPayload) : option Grant :=
  match to_stdvec p with
  | Ok b => Some {| g_payload := b;
                    g_signature := ed_sign issuer (signature_message (p_version p) b) |}
  | Err _ => None
  end.

(** [Grant::issue] with the clock [now_unix()] as an argument. *)
Definition Grant_issue (issuer subject audience nonce : bytes) (services : list ServiceKind)
    (ttl : duration) (constraints : GrantConstraints) (now : Z) : option Grant :=
  Grant_issue_at issuer
    {| p_version := GRANT_VERSION; p_revision := 1; p_issuer := verifying_key issuer;
       p_subject := subject; p_audience := audience; p_nonce := nonce;
       p_services := services; p_not_before := now;
       p_expires_at := sat_add64 now (as_secs ttl); p_constraints := constraints;
       p_tenant := None; p_policy_revision := None |}.

End WithLibraries.

(** ** Decoding: what an accepted payload satisfies *)

Definition scope_entry_ok (path : bytes) : Prop := check_scope_path path = Ok tt.

Record payload_ok (p : GrantPayload) : Prop := {
  pk_revision : p_revision p <> 0;
  pk_interval : p_not_before p < p_expires_at p;
  pk_bounds : payload_oversized p = false;
  pk_tenant : is_some_and (p_tenant p) tenant_bad = false;
  pk_scopes : Forall scope_entry_ok (default [] (c_sync_paths (p_constraints p)))
}.

Lemma check_payload_ok p q : check_payload p = Ok q <-> q = p /\ payload_ok p.
Proof.
  unfold check_payload. split.
  - intros E. inv_res E. injection E as ->. b2p. split; [done|]. split; try done; try lia.
    destruct (c_sync_paths (p_constraints q)) as [paths|]; simpl; [|constructor].
    apply try_for_each_ok. by destruct a.
  - intros [-> [H1 H2 H3 H4 H5]].
    apply Z.eqb_neq in H1. apply Z.leb_gt in H2. rewrite H1, H2, H3, H4.
    destruct (c_sync_paths (p_constraints p)) as [paths|]; simpl in *; [|done].
    by rewrite (proj2 (try_for_each_ok check_scope_path paths) H5).
Qed.

Lemma scope_parts_ok n parts k :
  try_fold scope_part n parts = Ok k <->
  Forall (fun w => w <> bs "..") (filter kept_part parts) /\ k = n + zlen (filter kept_part parts).
Proof.
  revert n. induction parts as [|w parts IH]; intros n; simpl.
  - unfold zlen. simpl. rewrite Z.add_0_r. split; [intros [= <-]; by split|by intros [_ ->]].
  - unfold scope_part at 1. destruct (decide (kept_part w)) as [[K1 K2]|K].
    + rewrite filter_cons_True by by split.
      rewrite (bool_decide_eq_false_2 (w = [])), (bool_decide_eq_false_2 (w = bs ".")) by done.
      simpl. rewrite Forall_cons. destruct (bool_decide (w = bs "..")) eqn:E; b2p.
      * split; [done|]. intros [[Hx _] _]. congruence.
      * rewrite IH, zlen_cons. split; intros [Hx ->]; (split; [tauto|lia]).
    + rewrite filter_cons_False by done. destruct (_ || _) eqn:E; [by apply IH|].
      exfalso. b2p. apply K. by unfold kept_part.
Qed.

Lemma check_scope_path_ok s :
  check_scope_path s = Ok tt <->
  s <> [] /\ zlen s <= MAX_SCOPE_PATH_LEN /\ ~ ("000"%char ∈ s) /\
  starts_with_byte is_sep s = false /\ s !! 1%nat <> Some ":"%char /\
  Forall (fun w => w <> bs "..") (rel_comps s) /\ rel_comps s <> [].
Proof.
  unfold check_scope_path, contains_byte.
  destruct (bool_decide (s = []) || _) eqn:E1; b2p; [naive_solver lia|].
  destruct (bool_decide ("000"%char ∈ s)) eqn:E2; b2p; [naive_solver|].
  destruct (starts_with_byte is_sep s || _) eqn:E3; b2p; [naive_solver congruence|].
  destruct (try_fold scope_part 0 (split_on is_sep s)) as [k|e] eqn:E4.
  - apply scope_parts_ok in E4 as [Hs ->]. fold (rel_comps s) in *. rewrite Z.add_0_l.
    destruct (zlen (rel_comps s) =? 0) eqn:E5; b2p.
    + destruct (rel_comps s) as [|w ws]; [naive_solver|]. rewrite zlen_cons in E5.
      pose proof (zlen_nonneg ws). lia.
    + split; [intros _|done]. destruct E1, E3. repeat split; auto.
      intros Hx. by rewrite Hx in E5.
  - split; [done|]. intros (_ & _ & _ & _ & _ & Hs & _). exfalso.
    pose proof (proj2 (scope_parts_ok 0 (split_on is_sep s) _) (conj Hs eq_refl)). congruence.
Qed.

(** A scope entry of a grant obeys the rules of a transfer path except two: the
    grant does not refuse a leading [~] and does not refuse the journal directory.
    With those two added, it accepts exactly what [check_rel_path] accepts. *)
Theorem check_scope_path_vs_rel_path s p :
  check_rel_path s = Ok p <->
  check_scope_path s = Ok tt /\
  starts_with_byte (fun c => bool_decide (c = "~"%char)) s = false /\
  Forall (fun w => eq_ignore_ascii_case w STATE_DIR = false) (rel_comps s) /\
  p = join "/" (rel_comps s).
Proof.
  rewrite check_rel_path_ok, check_scope_path_ok.
  unfold looks_absolute, safe_part, MAX_REL_PATH, MAX_SCOPE_PATH_LEN.
  rewrite Forall_and.
  destruct (starts_with_byte is_sep s), (starts_with_byte (fun c => bool_decide (c = "~"%char)) s);
    naive_solver.
Qed.

(** ** Verification *)

Section Verification.
  Context `{Ed25519, Blake3, Postcard Z, Postcard GrantPayload, Postcard GrantPayloadV2}.

Lemma Grant_verify_ok g issuers subject audience max_ttl now v :
  Grant_verify g issuers subject audience max_ttl now = Ok v <->
  exists p, Grant_decode g = Ok p /\ p_issuer p ∈ issuers /\
    vk_from_bytes (p_issuer p) = Ok tt /\ length (g_signature g) = 64%nat /\
    verify_strict (p_issuer p) (signature_message (p_version p) (g_payload g))
      (g_signature g) = true /\
    p_subject p = subject /\ p_audience p = audience /\
    p_not_before p <= sat_add64 now SKEW_SECS /\ now < p_expires_at p /\
    sat_sub64 (p_expires_at p) (p_not_before p) <= as_secs max_ttl /\
    v = mkVerified p (payload_id p).
Proof.
  unfold Grant_verify. split.
  - intros E. destruct (Grant_decode g) as [p|] eqn:Ed; [|done]. exists p.
    inv_res E. destruct (vk_from_bytes (p_issuer p)) as [[]|]; [|done].
    b2p. injection E as <-. repeat split; try done.
  - intros (p & -> & K1 & K2 & K3 & K4 & K5 & K6 & K7 & K8 & K9 & ->).
    rewrite (bool_decide_eq_true_2 (p_issuer p ∈ issuers)) by done. simpl.
    rewrite K2. simpl. rewrite (bool_decide_eq_true_2 (_ = 64%nat)) by done. simpl.
    rewrite K4. simpl. rewrite !bool_decide_eq_true_2 by done. simpl.
    rewrite (proj2 (Z.ltb_ge _ _) K7), (proj2 (Z.leb_gt _ _) K8), (proj2 (Z.ltb_ge _ _) K9).
    done.
Qed.

Lemma Grant_decode_payload_ok g p : Grant_decode g = Ok p -> payload_ok p.
Proof.
  unfold Grant_decode. intros E. destruct (MAX_PAYLOAD_LEN <? _); [done|].
  destruct (map_err Malformed (take_from_bytes (g_payload g))) as [[version rest]|]; [|done].
  match type of E with (match ?m with _ => _ end) = _ => destruct m as [q|]; [|done] end.
  by apply check_payload_ok in E as [-> ?].
Qed.

(** The version a grant is accepted under is one of the two supported. *)
Lemma Grant_decode_size g p :
  Grant_decode g = Ok p -> zlen (g_payload g) <= MAX_PAYLOAD_LEN.
Proof.
  unfold Grant_decode. destruct (MAX_PAYLOAD_LEN <? _) eqn:E; [done|]. intros _. by b2p.
Qed.

(** Soundness of [Grant::verify].  Whatever is accepted was signed by a trusted issuer
    over the domain-separated payload bytes, names this peer and this device, carries
    the identifier of its payload and bounded collections, is live at [now], and is
    live at no moment outside [not_before - 30, not_before + max_ttl). *)
Theorem Grant_verify_sound g issuers subject audience max_ttl now v :
  Grant_verify g issuers subject audience max_ttl now = Ok v ->
  let p := v_payload v in
  p_issuer p ∈ issuers /\
  verify_strict (p_issuer p) (signature_message (p_version p) (g_payload g)) (g_signature g)
    = true /\
  p_subject p = subject /\ p_audience p = audience /\ v_id v = payload_id p /\
  payload_ok p /\ zlen (g_payload g) <= MAX_PAYLOAD_LEN /\
  live_at v now = true /\
  forall t, live_at v t = true ->
    p_not_before p - SKEW_SECS <= t < p_not_before p + as_secs max_ttl.
Proof.
  intros (p & Hd & Hi & _ & _ & Hs & Hsub & Haud & Hnb & Hex & Httl & ->)%Grant_verify_ok.
  simpl. pose proof (Grant_decode_payload_ok _ _ Hd). pose proof (Grant_decode_size _ _ Hd).
  split_and!; try done; unfold live_at; simpl.
  - b2p. lia.
  - intros t Ht. b2p. unfold sat_add64, sat_sub64 in *. lia.
Qed.

(** An honest grant verifies.  A payload within bounds, minted by [issue_at] with the
    key it names, is accepted for its subject at its audience by an agent that trusts
    the issuer, at every moment inside the validity window, if its lifetime is within
    the agent's maximum; the result is the payload itself. *)
Theorem Grant_issue_verifies `{!Ed25519Laws} issuer p g rest issuers max_ttl now :
  Grant_issue_at issuer p = Some g ->
  take_from_bytes (A := Z) (g_payload g) = Ok (p_version p, rest) ->
  take_from_bytes (A := GrantPayload) (g_payload g) = Ok (p, []) ->
  p_version p = GRANT_VERSION -> p_issuer p = verifying_key issuer ->
  payload_ok p -> zlen (g_payload g) <= MAX_PAYLOAD_LEN ->
  p_issuer p ∈ issuers ->
  p_not_before p <= sat_add64 now SKEW_SECS -> now < p_expires_at p ->
  p_expires_at p - p_not_before p <= as_secs max_ttl ->
  Grant_verify g issuers (p_subject p) (p_audience p) max_ttl now
    = Ok (mkVerified p (payload_id p)).
Proof.
  intros Hissue Hpeek Hdec Hv Hk Hok Hlen Hiss Hnb Hex Httl.
  unfold Grant_issue_at in Hissue. destruct (to_stdvec p) as [b|]; [|done].
  injection Hissue as <-. simpl in *.
  apply Grant_verify_ok. exists p. simpl. split_and!; try done.
  - unfold Grant_decode. simpl. rewrite (proj2 (Z.ltb_ge _ _) Hlen), Hpeek. simpl.
    rewrite Hv. simpl. unfold decode_exact. rewrite Hdec. simpl.
    by apply check_payload_ok.
  - rewrite Hk. apply vk_of_signing.
  - apply ed_sign_length.
  - rewrite Hk. apply ed_sign_verifies.
  - unfold sat_sub64. destruct Hok as [_ Hint _ _ _]. lia.
Qed.

End Verification.

(** ** Renewal *)

(** A step of an authorization's life: an exact retry or an extension. *)
Definition renews (cur next : VerifiedGrant) : Prop :=
  exists b, permits_renewal cur next = Ok b.

(** The part of a grant the scope tests read. *)
Definition same_scope (g h : VerifiedGrant) : Prop :=
  p_services (v_payload g) = p_services (v_payload h) /\
  p_constraints (v_payload g) = p_constraints (v_payload h) /\
  p_tenant (v_payload g) = p_tenant (v_payload h) /\
  p_policy_revision (v_payload g) = p_policy_revision (v_payload h).

#[export] Instance same_scope_equiv : Equivalence same_scope.
Proof. unfold same_scope. split; [intros g|intros g h|intros g h k]; naive_solver congruence. Qed.

#[export] Instance permits_proper : Proper (same_scope ==> eq ==> eq) permits.
Proof. intros g h (Hs & _) s _ <-. unfold permits. by rewrite Hs. Qed.
#[export] Instance permits_service_proper : Proper (same_scope ==> eq ==> eq) permits_service.
Proof.
  intros g h Hs s _ <-. unfold permits_service, permits_sync_read, permits_sync_write,
    permits_desktop_view. by destruct s; rewrite ?(permits_proper _ _ Hs _ _ eq_refl).
Qed.
#[export] Instance permits_control_proper : Proper (same_scope ==> eq) permits_desktop_control.
Proof.
  intros g h Hs. unfold permits_desktop_control.
  by rewrite !(permits_proper _ _ Hs _ _ eq_refl).
Qed.
#[export] Instance permits_port_proper : Proper (same_scope ==> eq ==> eq) permits_port.
Proof. intros g h (_ & Hc & _) s _ <-. unfold permits_port. by rewrite Hc. Qed.
#[export] Instance permits_display_proper : Proper (same_scope ==> eq ==> eq) permits_display.
Proof. intros g h (_ & Hc & _) s _ <-. unfold permits_display. by rewrite Hc. Qed.
#[export] Instance permits_sync_path_proper : Proper (same_scope ==> eq ==> eq) permits_sync_path.
Proof. intros g h (_ & Hc & _) s _ <-. unfold permits_sync_path. by rewrite Hc. Qed.

Lemma permits_renewal_ok cur next b :
  permits_renewal cur next = Ok b <->
  if b then v_payload cur <> v_payload next /\ v_id cur = v_id next /\ same_scope cur next /\
            p_revision (v_payload cur) < p_revision (v_payload next) /\
            p_not_before (v_payload cur) <= p_not_before (v_payload next) /\
            p_expires_at (v_payload cur) < p_expires_at (v_payload next)
  else v_payload cur = v_payload next.
Proof.
  unfold permits_renewal, same_scope.
  destruct (bool_decide (v_payload cur = v_payload next)) eqn:E1; b2p.
  - destruct b; naive_solver.
  - match goal with |- context [if ?t then _ else _] => destruct t eqn:E2 end; b2p.
    + destruct b; [|naive_solver]. split; [done|].
      intros (_ & ? & (? & ? & ? & ?) & ? & ? & ?). naive_solver lia.
    + destruct b; [|naive_solver]. destruct_and!. naive_solver lia.
Qed.

Section Renewal.
  Context `{Blake3}.

(** What [Grant::verify] returns: the identifier is the payload's. *)
Definition verified_wf (v : VerifiedGrant) : Prop := v_id v = payload_id (v_payload v).

Definition lease_step (g h : VerifiedGrant) : Prop := renews g h /\ verified_wf h.

Lemma lease_step_inv g h :
  verified_wf g -> lease_step g h ->
  v_id g = v_id h /\ same_scope g h /\
  p_revision (v_payload g) <= p_revision (v_payload h) /\
  p_not_before (v_payload g) <= p_not_before (v_payload h) /\
  p_expires_at (v_payload g) <= p_expires_at (v_payload h) /\
  (p_revision (v_payload g) = p_revision (v_payload h) -> g = h).
Proof.
  unfold verified_wf. intros Hg [[b Hr] Hh]. apply permits_renewal_ok in Hr. destruct b.
  - destruct Hr as (_ & Hid & Hs & Hrev & Hnb & Hex). split_and!; auto; lia.
  - assert (Hid : v_id g = v_id h) by (rewrite Hg, Hh; by f_equal).
    unfold same_scope. rewrite Hr. split_and!; auto; try done.
    intros _. destruct g, h; simpl in *; congruence.
Qed.

(** No chain of renewals changes what a session may do.  Along any sequence of accepted
    renewals the revocation identifier and every scope test keep their value, the
    revision, the start and the expiry never decrease, and an unchanged revision means
    the very same grant: a retry extends nothing. *)
Theorem renewal_chain_keeps_scope g h :
  verified_wf g -> rtc lease_step g h ->
  v_id g = v_id h /\
  (forall s, permits_service g s = permits_service h s) /\
  permits_desktop_control g = permits_desktop_control h /\
  (forall port, permits_port g port = permits_port h port) /\
  (forall d, permits_display g d = permits_display h d) /\
  (forall rel, permits_sync_path g rel = permits_sync_path h rel) /\
  p_revision (v_payload g) <= p_revision (v_payload h) /\
  p_not_before (v_payload g) <= p_not_before (v_payload h) /\
  p_expires_at (v_payload g) <= p_expires_at (v_payload h) /\
  (p_revision (v_payload g) = p_revision (v_payload h) -> g = h).
Proof.
  intros Hg Hr.
  assert (K : v_id g = v_id h /\ same_scope g h /\
    p_revision (v_payload g) <= p_revision (v_payload h) /\
    p_not_before (v_payload g) <= p_not_before (v_payload h) /\
    p_expires_at (v_payload g) <= p_expires_at (v_payload h) /\
    (p_revision (v_payload g) = p_revision (v_payload h) -> g = h)).
  { revert Hg. induction Hr as [g|g k h Hstep Hrest IH]; intros Hg.
    - split_and!; try done; lia.
    - destruct (lease_step_inv _ _ Hg Hstep) as (I1 & I2 & I3 & I4 & I5 & I6).
      destruct (IH (proj2 Hstep)) as (J1 & J2 & J3 & J4 & J5 & J6).
      split_and!; try lia; try congruence; [by transitivity k|].
      intros E. assert (g = k) as -> by (apply I6; lia). apply J6. lia. }
  destruct K as (K1 & K2 & K3 & K4 & K5 & K6).
  split_and!; try done; intros; by rewrite K2.
Qed.

End Renewal.

(** ** Scope of sync paths *)

Lemma path_components_rel raw rel :
  check_rel_path raw = Ok rel -> path_components rel = Normal <$> rel_comps raw.
Proof.
  intros (_ & _ & _ & _ & Hs & Hc & ->)%check_rel_path_ok.
  apply path_components_join; auto using rel_comps_plain, rel_comps_kept.
  eapply Forall_impl; [exact Hs|]. by intros ? [? _].
Qed.

Lemma fmap_prefix {A B} (f : A -> B) `{!Inj (=) (=) f} (k l : list A) :
  f <$> k `prefix_of` f <$> l <-> k `prefix_of` l.
Proof.
  split; [|intros [m ->]; exists (f <$> m); by rewrite fmap_app].
  revert l. induction k as [|x k IH]; intros [|y l]; csimpl; intros Hp.
  - apply prefix_nil.
  - apply prefix_nil.
  - by apply prefix_nil_not in Hp.
  - apply prefix_cons_inv_1 in Hp as Hx. apply prefix_cons_inv_2 in Hp.
    apply (inj f) in Hx as ->. by apply prefix_cons, IH.
Qed.

#[export] Instance Normal_inj : Inj (=) (=) Normal.
Proof. by intros ? ? [= ->]. Qed.

(** A path scope is a subtree of whole components.  For a transfer path that passed
    [check_rel_path] and scope entries in normal form, the path is permitted exactly
    when the component list of some entry is a prefix of the path's components, so
    [ab] is not inside the scope [a]. *)
Theorem permits_sync_path_subtree g raw rel paths :
  check_rel_path raw = Ok rel ->
  c_sync_paths (p_constraints (v_payload g)) = Some paths ->
  Forall (fun s => check_rel_path s = Ok s) paths ->
  permits_sync_path g rel = true <->
  exists s, s ∈ paths /\ rel_comps s `prefix_of` rel_comps raw.
Proof.
  intros Hrel Hp Hn. unfold permits_sync_path. rewrite Hp, existsb_exists.
  setoid_rewrite <-list_elem_of_In. rewrite Forall_forall in Hn.
  unfold path_eqb, path_starts_with. rewrite (path_components_rel _ _ Hrel).
  split; intros (s & Hs & Hx); exists s; (split; [done|]);
    rewrite (path_components_rel _ _ (Hn s Hs)) in *; b2p.
  - destruct Hx as [Hx|Hx]; [|by apply (fmap_prefix Normal)].
    apply (inj (fmap Normal)) in Hx as ->. done.
  - right. by apply (fmap_prefix Normal).
Qed.

(** The shape check of a scope entry does not require the normal form its
    documentation promises, and a non-normal entry grants nothing: an entry that starts
    with [./] is accepted by [check_scope_path] but matches no transfer path. *)
Theorem dotted_scope_grants_nothing g raw rel tails :
  check_rel_path raw = Ok rel ->
  c_sync_paths (p_constraints (v_payload g)) = Some (app (bs "./") <$> tails) ->
  permits_sync_path g rel = false /\ check_scope_path (bs "./docs") = Ok tt.
Proof.
  intros Hrel Hp. split; [|vm_compute; reflexivity].
  unfold permits_sync_path. rewrite Hp. apply not_true_iff_false. rewrite existsb_exists.
  intros (s & Hs%list_elem_of_In & Hx). apply list_elem_of_fmap in Hs as (t & -> & _).
  unfold path_eqb, path_starts_with in Hx. rewrite (path_components_rel _ _ Hrel) in Hx.
  assert (Hc : exists cs, path_components (bs "./" ++ t) = CurDir :: cs).
  { unfold path_components. simpl. by eexists. }
  destruct Hc as [cs Hc]. rewrite Hc in Hx. b2p. destruct Hx as [Hx|[k Hx]].
  - by destruct (rel_comps raw).
  - by destruct (rel_comps raw).
Qed.

(** ** Witnesses *)

Definition wit_key : bytes := replicate 32 "I"%char.
Definition wit_subject : bytes := replicate 32 "S"%char.
Definition wit_audience : bytes := replicate 32 "A"%char.
Definition wit_payload (revision expires : Z) : GrantPayload := {|
  p_version := 3; p_revision := revision; p_issuer := wit_key; p_subject := wit_subject;
  p_audience := wit_audience; p_nonce := replicate 16 "N"%char; p_services := [KSync];
  p_not_before := 1000; p_expires_at := expires;
  p_constraints := mkConstraints None None None (Some [bs "docs"]);
  p_tenant := None; p_policy_revision := None |}.
Definition wit_p1 : GrantPayload := wit_payload 1 1600.
Definition wit_p2 : GrantPayload := wit_payload 2 1900.
Definition wit_grant : Grant :=
  mkGrant (bs "3one") (toy_signature wit_key (signature_message 3 (bs "3one"))).

#[local] Instance wit_ed : Ed25519 := toy_ed25519.
#[local] Instance wit_hash : Blake3 := toy_blake3.
#[local] Instance wit_codec_z : Postcard Z := toy_postcard [(3, bs "3"); (2, bs "2")].
#[local] Instance wit_codec_v3 : Postcard GrantPayload :=
  toy_postcard [(wit_p1, bs "3one"); (wit_p2, bs "3two")].
#[local] Instance wit_codec_v2 : Postcard GrantPayloadV2 :=
  {| to_stdvec _ := Err "unused"%string; take_from_bytes _ := Err "unused"%string |}.

Definition wit_ttl : duration := from_secs 3600.
Definition wit_verified : VerifiedGrant := mkVerified wit_p1 (payload_id wit_p1).
Definition wit_verified2 : VerifiedGrant := mkVerified wit_p2 (payload_id wit_p2).

Lemma Grant_verify_sound_witness :
  Grant_verify wit_grant {[wit_key]} wit_subject wit_audience wit_ttl 1200 = Ok wit_verified /\
  live_at wit_verified 1200 = true.
Proof.
  assert (K : Grant_verify wit_grant {[wit_key]} wit_subject wit_audience wit_ttl 1200
    = Ok wit_verified) by (vm_compute; reflexivity).
  split; [exact K|].
  destruct (Grant_verify_sound wit_grant {[wit_key]} wit_subject wit_audience wit_ttl 1200
    wit_verified K) as (_ & _ & _ & _ & _ & _ & _ & L & _). exact L.
Defined.

Lemma wit_p1_ok : payload_ok wit_p1.
Proof.
  assert (K : check_payload wit_p1 = Ok wit_p1) by (vm_compute; reflexivity).
  exact (proj2 (proj1 (check_payload_ok _ _) K)).
Qed.

Lemma Grant_issue_verifies_witness :
  Grant_verify wit_grant {[wit_key]} wit_subject wit_audience wit_ttl 990 = Ok wit_verified.
Proof.
  pose proof (toy_ed25519_laws : @Ed25519Laws wit_ed) as L.
  apply (Grant_issue_verifies wit_key wit_p1 wit_grant (bs "one"));
    try (exact wit_p1_ok); vm_compute; (reflexivity || congruence).
Defined.

Lemma renewal_chain_witness :
  permits_renewal wit_verified wit_verified2 = Ok true /\
  permits_sync_path wit_verified (bs "docs/a") = permits_sync_path wit_verified2 (bs "docs/a").
Proof.
  assert (K : permits_renewal wit_verified wit_verified2 = Ok true) by (vm_compute; reflexivity).
  split; [exact K|].
  assert (W : verified_wf wit_verified) by reflexivity.
  assert (R : rtc lease_step wit_verified wit_verified2)
    by (apply rtc_once; split; [by exists true|reflexivity]).
  destruct (renewal_chain_keeps_scope wit_verified wit_verified2 W R)
    as (_ & _ & _ & _ & _ & P & _). exact (P (bs "docs/a")).
Defined.

Lemma permits_sync_path_subtree_witness :
  permits_sync_path wit_verified (bs "docs/a") = true /\
  exists s, s ∈ [bs "docs"] /\ rel_comps s `prefix_of` rel_comps (bs "./docs//a").
Proof.
  assert (K : permits_sync_path wit_verified (bs "docs/a") = true) by (vm_compute; reflexivity).
  split; [exact K|].
  apply (permits_sync_path_subtree wit_verified (bs "./docs//a") (bs "docs/a") [bs "docs"]);
    [vm_compute; reflexivity|reflexivity| |exact K].
  constructor; [vm_compute; reflexivity|constructor].
Defined.

Definition wit_dotted : VerifiedGrant :=
  mkVerified (mkPayload 3 1 wit_key wit_subject wit_audience [] [KSync] 1000 1600
    (mkConstraints None None None (Some [bs "./docs"])) None None) [].

Lemma dotted_scope_witness : permits_sync_path wit_dotted (bs "docs/a") = false.
Proof.
  apply (dotted_scope_grants_nothing wit_dotted (bs "docs/a") (bs "docs/a") [bs "docs"]);
    vm_compute; reflexivity.
Defined.
