(* ===== verification/Authority.v ===== *)
(** * Signed policy streams

    Models [src/crates/rds-discovery/src/authority.rs] (authorities, stamps, rotation),
    [revocations.rs] (signed revocation snapshots) and [registry.rs] (the signed name
    registry and its per-name proofs).  An Ed25519 verifying key is its 32 bytes; a
    signing key is an argument of the signature library's functions. *)

From S2P Require Import Prelude Discovery Crypto.

(** ** Authorities and stamps *)

Record Authority : Type := mkAuthority { au_key : EndpointKey; au_epoch : Z }.
Record SnapshotStamp : Type := mkStamp { sm_authority : Authority; sm_revision : Z }.

#[export] Instance Authority_eq_dec : EqDecision Authority.
Proof. solve_decision. Defined.
#[export] Instance SnapshotStamp_eq_dec : EqDecision SnapshotStamp.
Proof. solve_decision. Defined.

Definition Authority_new (key : EndpointKey) (epoch : Z) : result Authority DiscoveryError :=
  if epoch =? 0 then Err (invalid "authority epoch must be positive")
  else Ok (mkAuthority key epoch).

Definition SnapshotStamp_verify (s : SnapshotStamp) (key : EndpointKey)
    : result unit DiscoveryError :=
  if (sm_revision s =? 0) || (au_epoch (sm_authority s) =? 0)
  then Err (invalid "snapshot epoch and revision must be positive") else
  if negb (bool_decide (au_key (sm_authority s) = key)) then Err BadSignature else Ok tt.

Definition SnapshotStamp_new (key : EndpointKey) (epoch revision : Z)
    : result SnapshotStamp DiscoveryError :=
  let? authority := Authority_new key epoch in
  let stamp := mkStamp authority revision in
  let? _ := SnapshotStamp_verify stamp key in
  Ok stamp.

Definition SnapshotStamp_newer_than (s previous : SnapshotStamp) : result unit DiscoveryError :=
  if negb (bool_decide (sm_authority s = sm_authority previous))
     || (sm_revision s <=? sm_revision previous)
  then Err DStale else Ok tt.

Definition ROTATION_DOMAIN : bytes := bs "rds/authority-rotation/v1" ++ ["000"%char].
Definition MAX_ROTATION_TTL : Z := 3600.

Record SignedRotation : Type := mkRotation {
  sr_payload : bytes;
  sr_previous_signature : bytes;
  sr_next_signature : bytes
}.
Record RotationPayload : Type := mkRotationPayload {
  ro_previous : Authority;
  ro_next : Authority;
  ro_issued_at : Z;
  ro_expires_at : Z
}.

#[export] Instance SignedRotation_eq_dec : EqDecision SignedRotation.
Proof. solve_decision. Defined.
#[export] Instance RotationPayload_eq_dec : EqDecision RotationPayload.
Proof. solve_decision. Defined.

(** ** Revocation snapshots *)

Definition REVOCATIONS_DOMAIN : bytes := bs "rds/revocations/v1" ++ ["000"%char].
Definition MAX_REVOCATION_TTL_SECS : Z := 300.
Definition MAX_REVOKED_GRANTS : Z := 1024.
Definition REVOCATIONS_MAX_PAYLOAD : Z := 40 * 1024.

Record SignedRevocations : Type := mkSignedRevocations {
  rv_payload : bytes; rv_signature : bytes
}.
Record RevocationPayload : Type := mkRevocationPayload {
  rvp_stamp : SnapshotStamp;
  rvp_revoked : gset bytes;
  rvp_issued_at : Z;
  rvp_expires_at : Z
}.

#[export] Instance SignedRevocations_eq_dec : EqDecision SignedRevocations.
Proof. solve_decision. Defined.
#[export] Instance RevocationPayload_eq_dec : EqDecision RevocationPayload.
Proof. solve_decision. Defined.

(** ** The name registry *)

Definition NAME_DOMAIN : bytes := bs "rds/name-binding/v2" ++ ["000"%char].
Definition REGISTRY_DOMAIN : bytes := bs "rds/registry/v2" ++ ["000"%char].
Definition MAX_BINDING_BYTES : Z := 256.
Definition MAX_REGISTRY_NAMES : Z := 256.
Definition MAX_NAME_TTL_SECS : Z := 24 * 60 * 60.
(** [http::MAX_BODY]. *)
Definition MAX_BODY : Z := 256 * 1024.

Record SignedNameBinding : Type := mkSignedBinding { nb_payload : bytes; nb_signature : bytes }.
Record NameBindingPayload : Type := mkBinding {
  nbp_stamp : SnapshotStamp;
  nbp_registry_digest : bytes;
  nbp_version : Z;
  nbp_name : bytes;
  nbp_key : EndpointKey;
  nbp_issued_at : Z;
  nbp_expires_at : Z
}.
Record SignedRegistry : Type := mkSignedRegistry {
  rg_payload : bytes;
  rg_signature : bytes;
  rg_bindings : gmap bytes SignedNameBinding
}.
Record RegistryPayload : Type := mkRegistryPayload {
  rgp_stamp : SnapshotStamp;
  rgp_entries : gmap bytes EndpointKey;
  rgp_issued_at : Z;
  rgp_expires_at : Z
}.

#[export] Instance SignedNameBinding_eq_dec : EqDecision SignedNameBinding.
Proof. solve_decision. Defined.
#[export] Instance NameBindingPayload_eq_dec : EqDecision NameBindingPayload.
Proof. solve_decision. Defined.
#[export] Instance SignedRegistry_eq_dec : EqDecision SignedRegistry.
Proof. solve_decision. Defined.
#[export] Instance RegistryPayload_eq_dec : EqDecision RegistryPayload.
Proof. solve_decision. Defined.

Definition name_byte (b : ascii) : bool :=
  ((97 <=? byte_val b) && (byte_val b <=? 122)) || ((48 <=? byte_val b) && (byte_val b <=? 57))
  || bool_decide (b = "-"%char).

Definition valid_name (name : bytes) : bool :=
  negb (bool_decide (name = [])) && (zlen name <=? 63) && forallb name_byte name.

Definition check_lifetime (issued expires now : Z) : result unit DiscoveryError :=
  lifetime issued expires now MAX_NAME_TTL_SECS.

(** The map of results of [collect::<Result<BTreeMap<_, _>, _>>()] over a map. *)
Definition btree_try_map {A B E} (f : bytes -> A -> result B E) (m : gmap bytes A)
    : result (gmap bytes B) E :=
  let? l := try_map (fun kv => let? b := f kv.1 kv.2 in Ok (kv.1, b)) (btree_items m) in
  Ok (btree_collect l).

Section WithLibraries.
  Context `{Ed25519, Blake3, Postcard RotationPayload, Postcard RevocationPayload,
            Postcard NameBindingPayload, Postcard RegistryPayload, SerdeJson SignedRegistry}.

Definition Authority_verifying_key (a : Authority) : result EndpointKey DiscoveryError :=
  if au_epoch a =? 0 then Err (invalid "authority epoch must be positive") else
  let? _ := map_err invalid (vk_from_bytes (au_key a)) in Ok (au_key a).

(** [authority::sign] and [authority::verify]. *)
Definition domain_sign (domain payload key : bytes) : bytes := ed_sign key (domain ++ payload).

Definition domain_verify (domain payload signature key : bytes) (limit : Z)
    : result unit DiscoveryError :=
  if limit <? zlen payload then Err (invalid "signed payload exceeds limit") else
  if negb (bool_decide (length signature = 64%nat))
  then Err (invalid "signature is not 64 bytes") else
  if verify_strict key (domain ++ payload) signature then Ok tt else Err BadSignature.

(** [SignedRotation]. *)
Definition SignedRotation_verify_at (r : SignedRotation) (current : Authority) (now : Z)
    : result RotationPayload DiscoveryError :=
  let? key := Authority_verifying_key current in
  let? _ := domain_verify ROTATION_DOMAIN (sr_payload r) (sr_previous_signature r) key 1024 in
  let? payload := map_err invalid (from_bytes (A := RotationPayload) (sr_payload r)) in
  if negb (bool_decide (ro_previous payload = current))
     || negb (bool_decide (checked_add64 (au_epoch current) 1
                           = Some (au_epoch (ro_next payload))))
     || bool_decide (au_key (ro_next payload) = au_key current)
  then Err (invalid "invalid authority transition") else
  let? next_key := Authority_verifying_key (ro_next payload) in
  let? _ := domain_verify ROTATION_DOMAIN (sr_payload r) (sr_next_signature r) next_key 1024 in
  let? _ := lifetime (ro_issued_at payload) (ro_expires_at payload) now MAX_ROTATION_TTL in
  Ok payload.

Definition SignedRotation_verify_committed (r : SignedRotation) (current : Authority)
    : result RotationPayload DiscoveryError :=
  let? key := Authority_verifying_key current in
  let? _ := domain_verify ROTATION_DOMAIN (sr_payload r) (sr_previous_signature r) key 1024 in
  let? payload := map_err invalid (from_bytes (A := RotationPayload) (sr_payload r)) in
  SignedRotation_verify_at r current (ro_issued_at payload).

Definition SignedRotation_sign (payload : RotationPayload) (previous next : bytes)
    : result SignedRotation DiscoveryError :=
  let? b := map_err invalid (to_stdvec payload) in
  let signed := mkRotation b (domain_sign ROTATION_DOMAIN b previous)
                  (domain_sign ROTATION_DOMAIN b next) in
  let? _ := SignedRotation_verify_at signed (ro_previous payload) (ro_issued_at payload) in
  Ok signed.

(** [SignedRevocations]. *)
Definition SignedRevocations_sign (payload : RevocationPayload) (key : bytes)
    : result SignedRevocations DiscoveryError :=
  let? _ := SnapshotStamp_verify (rvp_stamp payload) (verifying_key key) in
  if MAX_REVOKED_GRANTS <? Z.of_nat (size (rvp_revoked payload))
  then Err (invalid "too many revoked grants") else
  let? b := map_err InvalidRecord (to_stdvec payload) in
  if REVOCATIONS_MAX_PAYLOAD <? zlen b then Err (invalid "revocations payload too large") else
  Ok (mkSignedRevocations b (domain_sign REVOCATIONS_DOMAIN b key)).

Definition SignedRevocations_publish (key : bytes) (epoch revision : Z) (revoked : gset bytes)
    (ttl : duration) (now : Z) : result SignedRevocations DiscoveryError :=
  let? stamp := SnapshotStamp_new (verifying_key key) epoch revision in
  let? expires_at := ok_or (checked_add64 now (as_secs ttl)) (invalid "TTL overflow") in
  let payload := mkRevocationPayload stamp revoked now expires_at in
  let? _ := lifetime now expires_at now MAX_REVOCATION_TTL_SECS in
  SignedRevocations_sign payload key.

Definition SignedRevocations_verify (s : SignedRevocations) (key : EndpointKey)
    : result RevocationPayload DiscoveryError :=
  let? _ := domain_verify REVOCATIONS_DOMAIN (rv_payload s) (rv_signature s) key
              REVOCATIONS_MAX_PAYLOAD in
  let? payload := map_err InvalidRecord (from_bytes (A := RevocationPayload) (rv_payload s)) in
  let? _ := SnapshotStamp_verify (rvp_stamp payload) key in
  if MAX_REVOKED_GRANTS <? Z.of_nat (size (rvp_revoked payload))
  then Err (invalid "too many revoked grants") else
  let? _ := lifetime (rvp_issued_at payload) (rvp_expires_at payload) (rvp_issued_at payload)
              MAX_REVOCATION_TTL_SECS in
  Ok payload.

Definition SignedRevocations_verify_at (s : SignedRevocations) (key : EndpointKey) (now : Z)
    : result RevocationPayload DiscoveryError :=
  let? payload := SignedRevocations_verify s key in
  let? _ := lifetime (rvp_issued_at payload) (rvp_expires_at payload) now
              MAX_REVOCATION_TTL_SECS in
  Ok payload.

Definition SignedRevocations_verify_fresh (s : SignedRevocations) (key : EndpointKey)
    (current : option RevocationPayload) (now : Z) : result RevocationPayload DiscoveryError :=
  let? payload := SignedRevocations_verify_at s key now in
  match current with
  | Some cur =>
      let? _ := SnapshotStamp_newer_than (rvp_stamp payload) (rvp_stamp cur) in Ok payload
  | None => Ok payload
  end.

(** [SignedNameBinding]. *)
Definition SignedNameBinding_sign (payload : NameBindingPayload) (key : bytes)
    : result SignedNameBinding DiscoveryError :=
  let? _ := SnapshotStamp_verify (nbp_stamp payload) (verifying_key key) in
  if negb (nbp_version payload =? 2) || negb (valid_name (nbp_name payload))
  then Err (invalid "invalid name binding version or name") else
  let? b := map_err invalid (to_stdvec payload) in
  if MAX_BINDING_BYTES <? zlen b then Err (invalid "name binding too large") else
  Ok (mkSignedBinding b (ed_sign key (NAME_DOMAIN ++ b))).

Definition SignedNameBinding_verify (s : SignedNameBinding) (key : EndpointKey) (name : bytes)
    (now : Z) : result NameBindingPayload DiscoveryError :=
  if negb (valid_name name) || (MAX_BINDING_BYTES <? zlen (nb_payload s))
  then Err (invalid "invalid name or binding size") else
  if negb (bool_decide (length (nb_signature s) = 64%nat))
  then Err (invalid "signature is not 64 bytes") else
  if negb (verify_strict key (NAME_DOMAIN ++ nb_payload s) (nb_signature s))
  then Err BadSignature else
  let? payload := map_err invalid (from_bytes (A := NameBindingPayload) (nb_payload s)) in
  let? _ := SnapshotStamp_verify (nbp_stamp payload) key in
  if negb (nbp_version payload =? 2) || negb (bool_decide (nbp_name payload = name))
  then Err (invalid "name binding mismatch") else
  let? _ := check_lifetime (nbp_issued_at payload) (nbp_expires_at payload) now in
  Ok payload.

Definition SignedNameBinding_verify_committed (s : SignedNameBinding) (key : EndpointKey)
    : result NameBindingPayload DiscoveryError :=
  let? _ := domain_verify NAME_DOMAIN (nb_payload s) (nb_signature s) key MAX_BINDING_BYTES in
  let? payload := map_err invalid (from_bytes (A := NameBindingPayload) (nb_payload s)) in
  SignedNameBinding_verify s key (nbp_name payload) (nbp_issued_at payload).

(** [SignedRegistry]. *)
Definition SignedRegistry_sign (payload : RegistryPayload) (key : bytes)
    : result SignedRegistry DiscoveryError :=
  let? _ := SnapshotStamp_verify (rgp_stamp payload) (verifying_key key) in
  if MAX_REGISTRY_NAMES <? Z.of_nat (size (rgp_entries payload))
  then Err (invalid "too many registry names") else
  let? b := map_err InvalidRecord (to_stdvec payload) in
  let registry_digest := blake3_hash b in
  let? bindings := btree_try_map (fun name endpoint =>
    SignedNameBinding_sign
      (mkBinding (rgp_stamp payload) registry_digest 2 name endpoint
         (rgp_issued_at payload) (rgp_expires_at payload)) key) (rgp_entries payload) in
  let signed := mkSignedRegistry b (domain_sign REGISTRY_DOMAIN b key) bindings in
  let? json := map_err invalid (json_to_vec signed) in
  if MAX_BODY <? zlen json then Err (invalid "registry exceeds wire body limit") else
  Ok signed.

Definition SignedRegistry_publish (key : bytes) (epoch revision : Z)
    (entries : gmap bytes EndpointKey) (ttl : duration) (now : Z)
    : result SignedRegistry DiscoveryError :=
  let? stamp := SnapshotStamp_new (verifying_key key) epoch revision in
  let? expires_at := ok_or (checked_add64 now (as_secs ttl)) (invalid "TTL overflow") in
  SignedRegistry_sign (mkRegistryPayload stamp entries now expires_at) key.

(** One round of the loop over the entries in [SignedRegistry::verify]. *)
Definition verify_entry (s : SignedRegistry) (key : EndpointKey) (payload : RegistryPayload)
    (entry : bytes * EndpointKey) : result unit DiscoveryError :=
  let? proof := ok_or (rg_bindings s !! entry.1) (invalid "missing name proof") in
  let? binding := SignedNameBinding_verify proof key entry.1 (rgp_issued_at payload) in
  if negb (bool_decide (nbp_key binding = entry.2))
     || negb (bool_decide (nbp_stamp binding = rgp_stamp payload))
     || negb (bool_decide (nbp_registry_digest binding = blake3_hash (rg_payload s)))
     || negb (nbp_issued_at binding =? rgp_issued_at payload)
     || negb (nbp_expires_at binding =? rgp_expires_at payload)
  then Err (invalid "registry and name proof disagree") else Ok tt.

Definition SignedRegistry_verify (s : SignedRegistry) (key : EndpointKey)
    : result RegistryPayload DiscoveryError :=
  if (MAX_BODY <? zlen (rg_payload s)) || (MAX_REGISTRY_NAMES <? Z.of_nat (size (rg_bindings s)))
  then Err (invalid "registry too large") else
  let? _ := domain_verify REGISTRY_DOMAIN (rg_payload s) (rg_signature s) key MAX_BODY in
  let? payload := map_err InvalidRecord (from_bytes (A := RegistryPayload) (rg_payload s)) in
  let? _ := SnapshotStamp_verify (rgp_stamp payload) key in
  let? _ := check_lifetime (rgp_issued_at payload) (rgp_expires_at payload)
              (rgp_issued_at payload) in
  if negb (bool_decide (size (rgp_entries payload) = size (rg_bindings s)))
  then Err (invalid "missing name proofs: re-sign registry") else
  let? _ := try_for_each (verify_entry s key payload) (btree_items (rgp_entries payload)) in
  Ok payload.

Definition SignedRegistry_verify_fresh (s : SignedRegistry) (key : EndpointKey)
    (current : option RegistryPayload) (now : Z) : result RegistryPayload DiscoveryError :=
  let? payload := SignedRegistry_verify s key in
  let? _ := check_lifetime (rgp_issued_at payload) (rgp_expires_at payload) now in
  match current with
  | Some cur =>
      let? _ := SnapshotStamp_newer_than (rgp_stamp payload) (rgp_stamp cur) in Ok payload
  | None => Ok payload
  end.

End WithLibraries.

(** ** What the checks accept *)

Lemma SnapshotStamp_verify_ok s key :
  SnapshotStamp_verify s key = Ok tt <->
  sm_revision s <> 0 /\ au_epoch (sm_authority s) <> 0 /\ au_key (sm_authority s) = key.
Proof.
  unfold SnapshotStamp_verify. destruct (_ || _) eqn:E; b2p; [naive_solver|].
  destruct (negb _) eqn:E2; b2p; naive_solver.
Qed.

Lemma newer_than_ok s p :
  SnapshotStamp_newer_than s p = Ok tt <->
  sm_authority s = sm_authority p /\ sm_revision p < sm_revision s.
Proof.
  unfold SnapshotStamp_newer_than. destruct (_ || _) eqn:E; b2p.
  - split; [done|]. intros [? ?]. destruct E; [done|lia].
  - tauto.
Qed.

Lemma SnapshotStamp_new_ok key epoch revision stamp :
  SnapshotStamp_new key epoch revision = Ok stamp ->
  stamp = mkStamp (mkAuthority key epoch) revision /\ SnapshotStamp_verify stamp key = Ok tt.
Proof.
  unfold SnapshotStamp_new, Authority_new. intros K. destruct (epoch =? 0); [done|].
  destruct (SnapshotStamp_verify _ key) as [[]|] eqn:E; [|done]. by injection K as <-.
Qed.

(** A validity interval accepted at some moment is accepted at its start. *)
Lemma lifetime_at_start issued expires now max_ttl :
  lifetime issued expires now max_ttl = Ok tt ->
  lifetime issued expires issued max_ttl = Ok tt.
Proof. rewrite !lifetime_ok. lia. Qed.

Section Authentication.
  Context `{Ed25519, Blake3, Postcard RotationPayload, Postcard RevocationPayload,
            Postcard NameBindingPayload, Postcard RegistryPayload, SerdeJson SignedRegistry}.

Lemma Authority_verifying_key_ok a k :
  Authority_verifying_key a = Ok k <->
  k = au_key a /\ au_epoch a <> 0 /\ vk_from_bytes (au_key a) = Ok tt.
Proof.
  unfold Authority_verifying_key. destruct (au_epoch a =? 0) eqn:E; b2p; [naive_solver|].
  destruct (vk_from_bytes (au_key a)) as [[]|]; naive_solver.
Qed.

Lemma domain_verify_ok domain payload sig key limit :
  domain_verify domain payload sig key limit = Ok tt <->
  zlen payload <= limit /\ length sig = 64%nat /\
  verify_strict key (domain ++ payload) sig = true.
Proof.
  unfold domain_verify. destruct (limit <? zlen payload) eqn:E; b2p; [naive_solver lia|].
  destruct (negb _) eqn:E2; b2p; [naive_solver|].
  destruct (verify_strict _ _ _); naive_solver.
Qed.

(** A rotation receipt is accepted only for one transition that both keys signed. *)
Record rotation_ok (r : SignedRotation) (current : Authority) (p : RotationPayload) : Prop := {
  rk_previous : ro_previous p = current;
  rk_epoch : au_epoch (ro_next p) = au_epoch current + 1;
  rk_key : au_key (ro_next p) <> au_key current;
  rk_bytes : from_bytes (sr_payload r) = Ok p;
  rk_current_key : Authority_verifying_key current = Ok (au_key current);
  rk_next_key : Authority_verifying_key (ro_next p) = Ok (au_key (ro_next p));
  rk_signed_previous : verify_strict (au_key current) (ROTATION_DOMAIN ++ sr_payload r)
    (sr_previous_signature r) = true;
  rk_signed_next : verify_strict (au_key (ro_next p)) (ROTATION_DOMAIN ++ sr_payload r)
    (sr_next_signature r) = true
}.

Lemma SignedRotation_verify_at_ok r current now p :
  SignedRotation_verify_at r current now = Ok p ->
  rotation_ok r current p /\
  lifetime (ro_issued_at p) (ro_expires_at p) now MAX_ROTATION_TTL = Ok tt.
Proof.
  unfold SignedRotation_verify_at. intros K.
  destruct (Authority_verifying_key current) as [k|] eqn:E1; [|done].
  destruct (domain_verify _ _ (sr_previous_signature r) _ _) as [[]|] eqn:E2; [|done].
  destruct (from_bytes (sr_payload r)) as [q|] eqn:E3; [|done]. simpl in K.
  destruct (_ || _) eqn:E4; [done|].
  destruct (Authority_verifying_key (ro_next q)) as [nk|] eqn:E5; [|done].
  destruct (domain_verify _ _ (sr_next_signature r) _ _) as [[]|] eqn:E6; [|done].
  destruct (lifetime _ _ _ _) as [[]|] eqn:E7; [|done]. injection K as <-. split; [|done].
  pose proof (proj1 (Authority_verifying_key_ok _ _) E1) as (-> & _ & _).
  pose proof (proj1 (Authority_verifying_key_ok _ _) E5) as (-> & _ & _).
  apply domain_verify_ok in E2 as (_ & _ & E2). apply domain_verify_ok in E6 as (_ & _ & E6).
  b2p. unfold checked_add64 in E4.
  destruct (au_epoch current + 1 <=? u64_max); split; naive_solver.
Qed.

Lemma verify_at_other_time r current now now' p :
  SignedRotation_verify_at r current now = Ok p ->
  lifetime (ro_issued_at p) (ro_expires_at p) now' MAX_ROTATION_TTL = Ok tt ->
  SignedRotation_verify_at r current now' = Ok p.
Proof.
  unfold SignedRotation_verify_at. intros K L.
  destruct (Authority_verifying_key current) as [k|]; [|done].
  destruct (domain_verify _ _ (sr_previous_signature r) _ _); [|done].
  destruct (from_bytes (sr_payload r)) as [q|]; [|done]. simpl in *.
  destruct (_ || _); [done|].
  destruct (Authority_verifying_key (ro_next q)) as [nk|]; [|done].
  destruct (domain_verify _ _ (sr_next_signature r) _ _); [|done].
  destruct (lifetime _ _ now _); [|done]. injection K as ->. by rewrite L.
Qed.

(** A receipt accepted in its delivery window is accepted again from protected state. *)
Lemma verify_at_committed r current now p :
  SignedRotation_verify_at r current now = Ok p ->
  SignedRotation_verify_committed r current = Ok p.
Proof.
  intros K. pose proof (SignedRotation_verify_at_ok _ _ _ _ K) as [[R1 R2 R3 R4 R5 R6 R7 R8] L].
  pose proof (verify_at_other_time _ _ _ _ _ K (lifetime_at_start _ _ _ _ L)) as K'.
  unfold SignedRotation_verify_committed. rewrite R5.
  unfold SignedRotation_verify_at in K. rewrite R5 in K.
  destruct (domain_verify _ _ (sr_previous_signature r) _ _); [|done].
  by rewrite R4.
Qed.

Lemma SignedRevocations_verify_ok s key p :
  SignedRevocations_verify s key = Ok p <->
  domain_verify REVOCATIONS_DOMAIN (rv_payload s) (rv_signature s) key REVOCATIONS_MAX_PAYLOAD
    = Ok tt /\
  from_bytes (rv_payload s) = Ok p /\ SnapshotStamp_verify (rvp_stamp p) key = Ok tt /\
  Z.of_nat (size (rvp_revoked p)) <= MAX_REVOKED_GRANTS /\
  lifetime (rvp_issued_at p) (rvp_expires_at p) (rvp_issued_at p) MAX_REVOCATION_TTL_SECS
    = Ok tt.
Proof.
  unfold SignedRevocations_verify.
  destruct (domain_verify _ _ _ _ _) as [[]|]; [|naive_solver].
  destruct (from_bytes (rv_payload s)) as [q|]; simpl; [|naive_solver].
  destruct (SnapshotStamp_verify (rvp_stamp q) key) as [[]|] eqn:E; [|naive_solver congruence].
  destruct (MAX_REVOKED_GRANTS <? _) eqn:E2; b2p; [naive_solver lia|].
  destruct (lifetime _ _ _ _) as [[]|] eqn:E3; naive_solver congruence.
Qed.

Lemma SignedNameBinding_verify_ok s key name now p :
  SignedNameBinding_verify s key name now = Ok p <->
  valid_name name = true /\ zlen (nb_payload s) <= MAX_BINDING_BYTES /\
  length (nb_signature s) = 64%nat /\
  verify_strict key (NAME_DOMAIN ++ nb_payload s) (nb_signature s) = true /\
  from_bytes (nb_payload s) = Ok p /\ SnapshotStamp_verify (nbp_stamp p) key = Ok tt /\
  nbp_version p = 2 /\ nbp_name p = name /\
  check_lifetime (nbp_issued_at p) (nbp_expires_at p) now = Ok tt.
Proof.
  unfold SignedNameBinding_verify.
  destruct (negb (valid_name name) || _) eqn:E1; b2p; [split; [done|]; intros (? & ? & _); destruct E1; [congruence|lia]|].
  destruct (negb (bool_decide (length _ = _))) eqn:E2; b2p; [naive_solver|].
  destruct (verify_strict _ _ _); simpl; [|naive_solver].
  destruct (from_bytes (nb_payload s)) as [q|]; simpl; [|naive_solver].
  destruct (SnapshotStamp_verify (nbp_stamp q) key) as [[]|] eqn:E3; [|naive_solver congruence].
  destruct (negb (nbp_version q =? 2) || _) eqn:E4; b2p; [naive_solver|].
  destruct (check_lifetime _ _ _) as [[]|] eqn:E5; naive_solver congruence.
Qed.

Lemma name_verify_other_time s key name now now' p :
  SignedNameBinding_verify s key name now = Ok p ->
  check_lifetime (nbp_issued_at p) (nbp_expires_at p) now' = Ok tt ->
  SignedNameBinding_verify s key name now' = Ok p.
Proof. rewrite !SignedNameBinding_verify_ok. tauto. Qed.

Lemma name_verify_committed s key name now p :
  SignedNameBinding_verify s key name now = Ok p ->
  SignedNameBinding_verify_committed s key = Ok p.
Proof.
  intros K. pose proof K as (K1 & K2 & K3 & K4 & K5 & K6 & K7 & K8 & K9)
    %SignedNameBinding_verify_ok.
  unfold SignedNameBinding_verify_committed.
  rewrite (proj2 (domain_verify_ok _ _ _ _ _)) by done. rewrite K5. simpl. rewrite K8.
  eapply name_verify_other_time; [done|]. by eapply lifetime_at_start.
Qed.

Lemma SignedRegistry_verify_ok s key p :
  SignedRegistry_verify s key = Ok p <->
  zlen (rg_payload s) <= MAX_BODY /\ Z.of_nat (size (rg_bindings s)) <= MAX_REGISTRY_NAMES /\
  domain_verify REGISTRY_DOMAIN (rg_payload s) (rg_signature s) key MAX_BODY = Ok tt /\
  from_bytes (rg_payload s) = Ok p /\ SnapshotStamp_verify (rgp_stamp p) key = Ok tt /\
  check_lifetime (rgp_issued_at p) (rgp_expires_at p) (rgp_issued_at p) = Ok tt /\
  size (rgp_entries p) = size (rg_bindings s) /\
  Forall (fun e => verify_entry s key p e = Ok tt) (btree_items (rgp_entries p)).
Proof.
  unfold SignedRegistry_verify. destruct (_ || _) eqn:E1; b2p.
  { split; [done|]. intros (? & ? & _). lia. }
  destruct (domain_verify _ _ _ _ _) as [[]|]; [|naive_solver].
  destruct (from_bytes (rg_payload s)) as [q|]; simpl; [|naive_solver].
  destruct (SnapshotStamp_verify (rgp_stamp q) key) as [[]|] eqn:E2; [|naive_solver congruence].
  destruct (check_lifetime _ _ _) as [[]|] eqn:E3; [|naive_solver congruence].
  destruct (negb _) eqn:E4; b2p; [naive_solver|].
  rewrite <-try_for_each_ok.
  destruct (try_for_each _ _) as [[]|] eqn:E5; split.
  - intros [= ->]. rewrite E5. tauto.
  - intros (_ & _ & _ & [= ->] & _). done.
  - done.
  - intros (_ & _ & _ & [= ->] & _ & _ & _ & K). congruence.
Qed.

Lemma verify_entry_ok s key p name endpoint :
  verify_entry s key p (name, endpoint) = Ok tt <->
  exists proof b, rg_bindings s !! name = Some proof /\
    SignedNameBinding_verify proof key name (rgp_issued_at p) = Ok b /\
    nbp_key b = endpoint /\ nbp_stamp b = rgp_stamp p /\
    nbp_registry_digest b = blake3_hash (rg_payload s) /\
    nbp_issued_at b = rgp_issued_at p /\ nbp_expires_at b = rgp_expires_at p.
Proof.
  unfold verify_entry. simpl. split.
  - destruct (rg_bindings s !! name) as [proof|]; [|done]. simpl.
    destruct (SignedNameBinding_verify _ _ _ _) as [b|] eqn:Eb; [|done].
    destruct (_ || _) eqn:E; [done|]. b2p. intros _. exists proof, b. tauto.
  - intros (proof & b & -> & Hb & K1 & K2 & K3 & K4 & K5). simpl. rewrite Hb.
    rewrite K4, K5, !bool_decide_eq_true_2 by done. by rewrite !Z.eqb_refl.
Qed.

(** A verified registry and its proofs say the same.  When [SignedRegistry::verify]
    accepts a snapshot, the names with a proof are exactly the registered names, and a
    name is registered for a key exactly when its own proof, taken alone, verifies and
    names that key, with the stamp and digest of this snapshot. *)
Theorem registry_proofs_exact s key p :
  SignedRegistry_verify s key = Ok p ->
  dom (rg_bindings s) = dom (rgp_entries p) /\
  forall name endpoint, rgp_entries p !! name = Some endpoint <->
    exists proof b, rg_bindings s !! name = Some proof /\
      SignedNameBinding_verify proof key name (rgp_issued_at p) = Ok b /\
      nbp_key b = endpoint /\ nbp_stamp b = rgp_stamp p /\
      nbp_registry_digest b = blake3_hash (rg_payload s) /\
      nbp_issued_at b = rgp_issued_at p /\ nbp_expires_at b = rgp_expires_at p.
Proof.
  intros (_ & _ & _ & _ & _ & _ & Hsize & Hall)%SignedRegistry_verify_ok.
  rewrite Forall_forall in Hall.
  assert (Hentry : forall name endpoint, rgp_entries p !! name = Some endpoint ->
    verify_entry s key p (name, endpoint) = Ok tt).
  { intros name endpoint Hl. by apply Hall, elem_of_btree_items. }
  assert (Hdom : dom (rg_bindings s) = dom (rgp_entries p)).
  { symmetry. apply set_subseteq_size_eq; [|rewrite !size_dom; lia].
    intros name [endpoint Hl]%elem_of_dom.
    apply Hentry, verify_entry_ok in Hl as (proof & _ & Hp & _). apply elem_of_dom. by eexists. }
  split; [done|]. intros name endpoint. split.
  - intros Hl. by apply verify_entry_ok, Hentry.
  - intros (proof & b & Hp & Hb & Hk & _).
    assert (Hin : name ∈ dom (rgp_entries p)) by (rewrite <-Hdom; apply elem_of_dom; by eexists).
    apply elem_of_dom in Hin as [e He].
    pose proof (proj1 (verify_entry_ok _ _ _ _ _) (Hentry _ _ He)) as (q & c & Hq & Hc & Hk' & _).
    rewrite He. f_equal. congruence.
Qed.

(** ** Round trips *)

Lemma domain_verify_sign `{!Ed25519Laws} domain payload key limit :
  zlen payload <= limit ->
  domain_verify domain payload (domain_sign domain payload key) (verifying_key key) limit
    = Ok tt.
Proof.
  intros Hl. apply domain_verify_ok. split_and!; [done|apply ed_sign_length|].
  apply ed_sign_verifies.
Qed.

Lemma from_to_stdvec {A} `{Postcard A, !PostcardLaws A} (a : A) b :
  to_stdvec a = Ok b -> from_bytes b = Ok a.
Proof.
  intros Hb. unfold from_bytes. apply (take_to_stdvec a b []) in Hb.
  rewrite app_nil_r in Hb. by rewrite Hb.
Qed.

Lemma btree_try_map_ok {A B E} (f : bytes -> A -> result B E) m m' :
  btree_try_map f m = Ok m' ->
  size m' = size m /\
  forall k, match m !! k with
            | Some a => exists b, f k a = Ok b /\ m' !! k = Some b
            | None => m' !! k = None
            end.
Proof.
  unfold btree_try_map. intros K.
  destruct (try_map _ _) as [l|] eqn:El; [|done]. injection K as <-.
  apply try_map_ok in El.
  assert (Hfst : l.*1 = (btree_items m).*1).
  { induction El as [|[k a] y items l Hy _ IH]; [done|]. csimpl in *. f_equal; [|done].
    simpl in Hy. destruct (f k a); [|done]. by injection Hy as <-. }
  assert (Hn : NoDup (reverse l).*1).
  { rewrite fmap_reverse, reverse_Permutation, Hfst. apply btree_items_nodup. }
  assert (Hlook : forall k b, btree_collect l !! k = Some b <-> (k, b) ∈ l).
  { intros k b. unfold btree_collect. rewrite <-elem_of_list_to_map by done.
    apply elem_of_reverse. }
  split.
  { rewrite <-(btree_items_length m). apply Forall2_length in El.
    unfold btree_collect. rewrite <-length_map_to_list, map_to_list_to_map by done.
    rewrite reverse_Permutation. by symmetry. }
  intros k. destruct (m !! k) as [a|] eqn:Hk.
  - apply elem_of_btree_items in Hk.
    apply list_elem_of_lookup_1 in Hk as [i Hi].
    destruct (Forall2_lookup_l _ _ _ _ _ El Hi) as ([k' b] & Hl & Hy). simpl in Hy.
    destruct (f k a) as [c|]; [|done]. injection Hy as <- <-. exists c. split; [done|].
    apply Hlook. by eapply list_elem_of_lookup_2.
  - apply eq_None_not_Some. intros [b Hb]. apply Hlook in Hb.
    assert (Hin : k ∈ l.*1) by (apply list_elem_of_fmap; by exists (k, b)).
    rewrite Hfst in Hin. apply list_elem_of_fmap in Hin as ([k' a] & -> & Ha).
    apply elem_of_btree_items in Ha. simpl in Hk. congruence.
Qed.

Lemma SignedNameBinding_sign_verifies `{!Ed25519Laws, !PostcardLaws NameBindingPayload} p key s :
  SignedNameBinding_sign p key = Ok s ->
  check_lifetime (nbp_issued_at p) (nbp_expires_at p) (nbp_issued_at p) = Ok tt ->
  SignedNameBinding_verify s (verifying_key key) (nbp_name p) (nbp_issued_at p) = Ok p.
Proof.
  unfold SignedNameBinding_sign. intros K L.
  destruct (SnapshotStamp_verify _ _) as [[]|] eqn:E1; [|done].
  destruct (_ || _) eqn:E2; [done|].
  destruct (to_stdvec p) as [b|] eqn:E3; simpl in K; [|done].
  destruct (MAX_BINDING_BYTES <? zlen b) eqn:E4; [done|]. injection K as <-. b2p.
  apply SignedNameBinding_verify_ok. simpl.
  split_and!; try tauto; [apply ed_sign_length|apply ed_sign_verifies|].
  by apply from_to_stdvec.
Qed.

(** Publish and verify agree.  A registry that [SignedRegistry::sign] produces, for
    entries valid at issuance, verifies under the issuer's key and gives back the
    signed payload; so does every single name proof in it. *)
Theorem registry_sign_verifies `{!Ed25519Laws, !PostcardLaws NameBindingPayload,
    !PostcardLaws RegistryPayload} p key s :
  SignedRegistry_sign p key = Ok s ->
  check_lifetime (rgp_issued_at p) (rgp_expires_at p) (rgp_issued_at p) = Ok tt ->
  zlen (rg_payload s) <= MAX_BODY ->
  SignedRegistry_verify s (verifying_key key) = Ok p /\
  forall name endpoint, rgp_entries p !! name = Some endpoint ->
    exists proof b, rg_bindings s !! name = Some proof /\
      SignedNameBinding_verify proof (verifying_key key) name (rgp_issued_at p) = Ok b /\
      nbp_key b = endpoint.
Proof.
  unfold SignedRegistry_sign. intros K L Hlen.
  destruct (SnapshotStamp_verify _ _) as [[]|] eqn:E1; [|done].
  destruct (MAX_REGISTRY_NAMES <? _) eqn:E2; [done|].
  destruct (to_stdvec p) as [b|] eqn:E3; simpl in K; [|done].
  destruct (btree_try_map _ _) as [bindings|] eqn:E4; [|done].
  destruct (json_to_vec _) as [json|]; simpl in K; [|done].
  destruct (MAX_BODY <? zlen json); [done|]. injection K as <-. simpl in *. b2p.
  apply btree_try_map_ok in E4 as [Esize Elook].
  assert (Hentry : forall name endpoint, rgp_entries p !! name = Some endpoint ->
    verify_entry (mkSignedRegistry b (domain_sign REGISTRY_DOMAIN b key) bindings)
      (verifying_key key) p (name, endpoint) = Ok tt).
  { intros name endpoint Hl. apply verify_entry_ok. simpl.
    specialize (Elook name). rewrite Hl in Elook. destruct Elook as (proof & Hs & Hb).
    apply SignedNameBinding_sign_verifies in Hs; [|done]. simpl in Hs.
    by eexists proof, _. }
  split.
  - apply SignedRegistry_verify_ok. simpl. split_and!; try done.
    + rewrite Esize. lia.
    + by apply domain_verify_sign.
    + by apply from_to_stdvec.
    + apply Forall_forall. intros [name endpoint] Hin%elem_of_btree_items. by apply Hentry.
  - intros name endpoint Hl. apply Hentry, verify_entry_ok in Hl as (proof & c & ? & ? & ? & _).
    simpl in *. by exists proof, c.
Qed.

(** A revocation snapshot that the estate signs verifies at every moment of its
    validity and gives back the revoked set, and at no other moment. *)
Theorem revocations_sign_verifies `{!Ed25519Laws, !PostcardLaws RevocationPayload} p key s now :
  SignedRevocations_sign p key = Ok s ->
  (SignedRevocations_verify_at s (verifying_key key) now = Ok p <->
   rvp_issued_at p <= now < rvp_expires_at p /\
   rvp_expires_at p - rvp_issued_at p <= MAX_REVOCATION_TTL_SECS).
Proof.
  unfold SignedRevocations_sign. intros K.
  destruct (SnapshotStamp_verify _ _) as [[]|] eqn:E1; [|done].
  destruct (MAX_REVOKED_GRANTS <? _) eqn:E2; [done|].
  destruct (to_stdvec p) as [b|] eqn:E3; simpl in K; [|done].
  destruct (REVOCATIONS_MAX_PAYLOAD <? zlen b) eqn:E4; [done|]. injection K as <-. b2p.
  unfold SignedRevocations_verify_at. split.
  - destruct (SignedRevocations_verify _ _) as [q|] eqn:Ev; [|done]. intros K.
    destruct (lifetime _ _ now _) as [[]|] eqn:El; [|done]. injection K as ->.
    by apply lifetime_ok in El.
  - intros Hl. assert (Ev : SignedRevocations_verify (mkSignedRevocations b
      (domain_sign REVOCATIONS_DOMAIN b key)) (verifying_key key) = Ok p).
    { apply SignedRevocations_verify_ok. simpl. split_and!; try done.
      - by apply domain_verify_sign.
      - by apply from_to_stdvec.
      - apply lifetime_ok. lia. }
    rewrite Ev. by rewrite (proj2 (lifetime_ok _ _ _ _) Hl).
Qed.

End Authentication.

(** ** Witnesses *)

Definition wa_key : bytes := replicate 32 "K"%char.
Definition wa_stamp : SnapshotStamp := mkStamp (mkAuthority wa_key 1) 7.
Definition wa_bytes : bytes := bs "registry-7".
Definition wa_registry : RegistryPayload :=
  mkRegistryPayload wa_stamp {[bs "host" := replicate 32 "H"%char]} 1000 2000.
Definition wa_binding : NameBindingPayload :=
  mkBinding wa_stamp (toy_blake3 wa_bytes) 2 (bs "host") (replicate 32 "H"%char) 1000 2000.
Definition wa_revocations : RevocationPayload :=
  mkRevocationPayload wa_stamp {[bs "g1"]} 1000 1200.

#[local] Instance wa_ed : Ed25519 := toy_ed25519.
#[local] Instance wa_hash : Blake3 := toy_blake3.
#[local] Instance wa_codec_binding : Postcard NameBindingPayload :=
  toy_postcard [(wa_binding, bs "binding-host")].
#[local] Instance wa_codec_registry : Postcard RegistryPayload :=
  toy_postcard [(wa_registry, wa_bytes)].
#[local] Instance wa_codec_revocations : Postcard RevocationPayload :=
  toy_postcard [(wa_revocations, bs "revoked-7")].
#[local] Instance wa_ed_laws : Ed25519Laws := toy_ed25519_laws.
#[local] Instance wa_binding_laws : PostcardLaws NameBindingPayload := toy_postcard_laws _ _.
#[local] Instance wa_registry_laws : PostcardLaws RegistryPayload := toy_postcard_laws _ _.
#[local] Instance wa_revocations_laws : PostcardLaws RevocationPayload := toy_postcard_laws _ _.

Definition wa_signed : SignedRegistry :=
  mkSignedRegistry wa_bytes (domain_sign REGISTRY_DOMAIN wa_bytes wa_key)
    {[bs "host" := mkSignedBinding (bs "binding-host")
                     (ed_sign wa_key (NAME_DOMAIN ++ bs "binding-host"))]}.
#[local] Instance wa_json : SerdeJson SignedRegistry := toy_json wa_signed.

Lemma registry_sign_verifies_witness :
  SignedRegistry_sign wa_registry wa_key = Ok wa_signed /\
  SignedRegistry_verify wa_signed wa_key = Ok wa_registry.
Proof.
  assert (K : SignedRegistry_sign wa_registry wa_key = Ok wa_signed)
    by (vm_compute; reflexivity).
  assert (L : check_lifetime 1000 2000 1000 = Ok tt) by (vm_compute; reflexivity).
  assert (M : zlen (rg_payload wa_signed) <= MAX_BODY) by (vm_compute; discriminate).
  split; [exact K|].
  exact (proj1 (registry_sign_verifies wa_registry wa_key wa_signed K L M)).
Defined.

Lemma registry_proofs_witness :
  SignedRegistry_verify wa_signed wa_key = Ok wa_registry /\
  dom (rg_bindings wa_signed) = dom (rgp_entries wa_registry).
Proof.
  assert (K : SignedRegistry_verify wa_signed wa_key = Ok wa_registry)
    by (vm_compute; reflexivity).
  split; [exact K|]. exact (proj1 (registry_proofs_exact wa_signed wa_key wa_registry K)).
Defined.

Definition wa_signed_revocations : SignedRevocations :=
  mkSignedRevocations (bs "revoked-7") (domain_sign REVOCATIONS_DOMAIN (bs "revoked-7") wa_key).

Lemma revocations_sign_witness :
  SignedRevocations_verify_at wa_signed_revocations wa_key 1199 = Ok wa_revocations.
Proof.
  assert (K : SignedRevocations_sign wa_revocations wa_key = Ok wa_signed_revocations)
    by (vm_compute; reflexivity).
  apply (revocations_sign_verifies wa_revocations wa_key wa_signed_revocations 1199 K).
  vm_compute. repeat split; congruence.
Defined.
