(* ===== verification/Policy.v ===== *)
(** * The durable policy store

    Models [src/crates/rds-discovery/src/policy.rs] with its [metrics.rs] summary: the
    state that survives a restart, the acceptance of rotations, revocation snapshots,
    registries and name proofs, and the commit that writes before it publishes.

    The file ([persist.rs], [AtomicFile]) is its contents; what each read or write of it
    returns is an argument of the operation.  A failed write may or may not have
    replaced the contents. *)

From S2P Require Import Prelude Discovery Clock Crypto Authority.

Definition MAX_ROTATIONS : Z := 16.
Definition MAX_NAMES : Z := 1024.

(** ** State *)

Record Names : Type := mkNames {
  nm_anchor : SignedNameBinding;
  nm_hashes : gmap bytes bytes
}.

Record PState : Type := mkPState {
  ps_format : Z;
  ps_bootstrap : Authority;
  ps_authority : Authority;
  ps_rotations : list SignedRotation;
  ps_wall_floor : Z;
  ps_registry : option SignedRegistry;
  ps_revocations : option SignedRevocations;
  ps_names : option Names;
  ps_registry_lease : option Lease;
  ps_revocations_lease : option Lease;
  ps_names_lease : option Lease
}.

Record Envelope : Type := mkEnvelope { en_state : PState; en_digest : bytes }.

#[export] Instance Names_eq_dec : EqDecision Names.
Proof. solve_decision. Defined.
#[export] Instance PState_eq_dec : EqDecision PState.
Proof. solve_decision. Defined.
#[export] Instance Envelope_eq_dec : EqDecision Envelope.
Proof. solve_decision. Defined.

(** The metadata published to the metrics after each commit. *)
Record Stream : Type := mkStream { sr_revision : Z; sr_entries : Z; sr_lease : Lease }.
Record Summary : Type := mkSummary {
  su_healthy : bool;
  su_durable : bool;
  su_epoch : Z;
  su_wall_floor : Z;
  su_registry : option Stream;
  su_revocations : option Stream;
  su_names : option Stream
}.

Definition Summary_empty (epoch : Z) (durable : bool) : Summary :=
  mkSummary true durable epoch 0 None None None.

Record PolicyStore : Type := mkStore {
  st_state : PState;
  st_disk : option (option bytes);
  st_failed : bool;
  st_observed : Summary
}.

(** What the disk answers to one commit. *)
Inductive DiskIo : Type :=
| IoDone
| IoReadFailed (e : DiscoveryError)
| IoWriteFailed (e : DiscoveryError) (replaced : bool).

Definition set_observed (s : PolicyStore) (o : Summary) : PolicyStore :=
  mkStore (st_state s) (st_disk s) (st_failed s) o.
Definition set_durable (o : Summary) (b : bool) : Summary :=
  mkSummary (su_healthy o) b (su_epoch o) (su_wall_floor o) (su_registry o)
    (su_revocations o) (su_names o).
Definition set_unhealthy (o : Summary) : Summary :=
  mkSummary false (su_durable o) (su_epoch o) (su_wall_floor o) (su_registry o)
    (su_revocations o) (su_names o).
Definition set_floor (o : Summary) (floor : Z) : Summary :=
  mkSummary (su_healthy o) (su_durable o) (su_epoch o) floor (su_registry o)
    (su_revocations o) (su_names o).

Definition State_empty (bootstrap : Authority) : PState :=
  mkPState 1 bootstrap bootstrap [] 0 None None None None None None.

Definition is_healthy (s : PolicyStore) : bool := negb (st_failed s).

Definition check_stamp (st : PState) (stamp : SnapshotStamp) : result unit DiscoveryError :=
  if negb (bool_decide (sm_authority stamp = ps_authority st)) then Err BadSignature else Ok tt.

Definition check_clock (s : PolicyStore) (now : Reading) : result unit DiscoveryError :=
  if st_failed s
  then Err (Store "policy commit outcome uncertain; reopen required") else
  if as_secs (rd_wall now) <? ps_wall_floor (st_state s)
  then Err (invalid "clock precedes committed policy time") else Ok tt.

(** [lease.is_some_and(|l| l.matches_interval(issued, expires))]. *)
Definition lease_matches (lease : option Lease) (issued expires : Z) : bool :=
  is_some_and lease (fun l => Lease_matches_interval l issued expires).

Section WithLibraries.
  Context `{Ed25519, Blake3, Postcard RotationPayload, Postcard RevocationPayload,
            Postcard NameBindingPayload, Postcard RegistryPayload, Postcard PState,
            SerdeJson Envelope}.

Definition policy_digest (st : PState) : result bytes DiscoveryError :=
  let? b := map_err invalid (to_stdvec st) in Ok (blake3_hash b).

Definition policy_encode (st : PState) : result bytes DiscoveryError :=
  let? d := policy_digest st in map_err invalid (json_to_vec (mkEnvelope st d)).

Definition PolicyStore_memory (bootstrap : Authority) : result PolicyStore DiscoveryError :=
  let? _ := Authority_verifying_key bootstrap in
  Ok (mkStore (State_empty bootstrap) None false (Summary_empty (au_epoch bootstrap) false)).

(** ** Validation of a stored state *)

Definition rotate_chain (bootstrap : Authority) (receipts : list SignedRotation)
    : result Authority DiscoveryError :=
  try_fold (fun authority receipt =>
    let? p := SignedRotation_verify_committed receipt authority in Ok (ro_next p))
    bootstrap receipts.

Definition validate_registry (st : PState) (key : EndpointKey)
    : result (option Stream) DiscoveryError :=
  match ps_registry st with
  | None => Ok None
  | Some snap =>
      let? p := SignedRegistry_verify snap key in
      let? _ := check_stamp st (rgp_stamp p) in
      if negb (lease_matches (ps_registry_lease st) (rgp_issued_at p) (rgp_expires_at p))
      then Err (invalid "registry lease metadata mismatch") else
      Ok (match ps_registry_lease st with
          | Some lease => Some (mkStream (sm_revision (rgp_stamp p))
                                  (Z.of_nat (size (rgp_entries p))) lease)
          | None => None end)
  end.

Definition validate_revocations (st : PState) (key : EndpointKey)
    : result (option Stream) DiscoveryError :=
  match ps_revocations st with
  | None => Ok None
  | Some snap =>
      let? p := SignedRevocations_verify snap key in
      let? _ := check_stamp st (rvp_stamp p) in
      if negb (lease_matches (ps_revocations_lease st) (rvp_issued_at p) (rvp_expires_at p))
      then Err (invalid "revocation lease metadata mismatch") else
      Ok (match ps_revocations_lease st with
          | Some lease => Some (mkStream (sm_revision (rvp_stamp p))
                                  (Z.of_nat (size (rvp_revoked p))) lease)
          | None => None end)
  end.

Definition validate_names (st : PState) (key : EndpointKey)
    : result (option Stream) DiscoveryError :=
  match ps_names st with
  | None => Ok None
  | Some names =>
      let? p := SignedNameBinding_verify_committed (nm_anchor names) key in
      let? _ := check_stamp st (nbp_stamp p) in
      if negb (lease_matches (ps_names_lease st) (nbp_issued_at p) (nbp_expires_at p))
      then Err (invalid "name lease metadata mismatch") else
      if (MAX_NAMES <? Z.of_nat (size (nm_hashes names)))
         || negb (forallb valid_name (btree_items (nm_hashes names)).*1)
         || negb (bool_decide (nm_hashes names !! nbp_name p
                               = Some (blake3_hash (nb_payload (nm_anchor names)))))
      then Err (invalid "invalid name freshness state") else
      Ok (match ps_names_lease st with
          | Some lease => Some (mkStream (sm_revision (nbp_stamp p))
                                  (Z.of_nat (size (nm_hashes names))) lease)
          | None => None end)
  end.

Definition validate (st : PState) (bootstrap : Authority) : result Summary DiscoveryError :=
  if negb (ps_format st =? 1) || negb (bool_decide (ps_bootstrap st = bootstrap))
     || (MAX_ROTATIONS <? zlen (ps_rotations st))
  then Err (invalid "policy state format or bootstrap authority mismatch") else
  let? authority := rotate_chain bootstrap (ps_rotations st) in
  if negb (bool_decide (ps_authority st = authority))
  then Err (invalid "policy authority lacks rotation continuity") else
  let? key := Authority_verifying_key authority in
  let? registry := validate_registry st key in
  let? revocations := validate_revocations st key in
  let? names := validate_names st key in
  Ok (mkSummary true true (au_epoch authority) (ps_wall_floor st) registry revocations names).

(** [open]: the arguments are what opening, reading, testing, writing and sealing the
    file return. *)
Definition PolicyStore_open (r_open : result unit DiscoveryError)
    (r_read : result (option bytes) DiscoveryError) (r_init : result bool DiscoveryError)
    (r_write r_seal : result unit DiscoveryError) (bootstrap : Authority) (now : Reading)
    : result PolicyStore DiscoveryError :=
  let? _ := r_open in
  let? store := PolicyStore_memory bootstrap in
  let? content := r_read in
  let? (store, written) :=
    (match content with
     | Some b =>
         let? envelope := map_err invalid (json_from_slice (A := Envelope) b) in
         let? d := policy_digest (en_state envelope) in
         if negb (bool_decide (d = en_digest envelope))
         then Err (invalid "policy state checksum mismatch") else
         let store := mkStore (en_state envelope) (st_disk store) (st_failed store)
                        (st_observed store) in
         let? summary := validate (st_state store) bootstrap in
         let store := set_observed store summary in
         let? _ := check_clock store now in
         Ok (store, b)
     | None =>
         let? initialized := r_init in
         if initialized : bool then Err (invalid "committed policy state is missing") else
         let? b := policy_encode (st_state store) in
         let? _ := r_write in
         Ok (store, b)
     end) in
  let? initialized := r_init in
  let? _ := (if initialized : bool then Ok tt else r_seal) in
  Ok (mkStore (st_state store) (Some (Some written)) (st_failed store)
        (set_durable (st_observed store) true)).

(** ** Commit *)

(** [commit]: on a disk error the store is marked failed and keeps its old state. *)
Definition PolicyStore_commit (s : PolicyStore) (next : PState) (update : Summary -> Summary) (io : DiskIo)
    : PolicyStore * result unit DiscoveryError :=
  let fail disk e :=
    (mkStore (st_state s) disk true (set_unhealthy (st_observed s)), Err e) in
  let publish disk :=
    (mkStore next disk (st_failed s)
       (update (set_floor (st_observed s) (ps_wall_floor next))), Ok tt) in
  match st_disk s with
  | None => publish None
  | Some content =>
      match io with
      | IoReadFailed e => fail (Some content) e
      | _ =>
          match content with
          | None => fail (Some content) (invalid "committed policy state disappeared")
          | Some _ =>
              match policy_encode next, io with
              | Err e, _ => fail (Some content) e
              | Ok b, IoWriteFailed e replaced =>
                  fail (Some (if replaced then Some b else content)) e
              | Ok b, _ => publish (Some (Some b))
              end
          end
      end
  end.

(** ** Operations: the new store and the result *)

Definition with_streams (o : Summary) (registry revocations names : option Stream) : Summary :=
  mkSummary (su_healthy o) (su_durable o) (su_epoch o) (su_wall_floor o) registry revocations
    names.

Definition apply_rotation (s : PolicyStore) (receipt : SignedRotation) (now : Reading)
    (io : DiskIo) : PolicyStore * result unit DiscoveryError :=
  let st := st_state s in
  match check_clock s now with
  | Err e => (s, Err e)
  | Ok _ =>
      if bool_decide (receipt ∈ ps_rotations st) then (s, Ok tt) else
      if MAX_ROTATIONS <=? zlen (ps_rotations st)
      then (s, Err (invalid "authority rotation chain full")) else
      match SignedRotation_verify_at receipt (ps_authority st) (as_secs (rd_wall now)) with
      | Err e => (s, Err e)
      | Ok transition =>
          let next := mkPState (ps_format st) (ps_bootstrap st) (ro_next transition)
            (ps_rotations st ++ [receipt]) (as_secs (rd_wall now)) None None None None None
            None in
          PolicyStore_commit s next (fun o =>
            mkSummary (su_healthy o) (su_durable o) (au_epoch (ro_next transition))
              (su_wall_floor o) None None None) io
      end
  end.

(** The tests of [accept_revocations_admitted] before it admits: [None] is an exact
    retry, [Some] the verified payload and its lease. *)
Definition revocations_decision (s : PolicyStore) (snap : SignedRevocations) (now : Reading)
    : result (option (RevocationPayload * Lease)) DiscoveryError :=
  let st := st_state s in
  let? _ := check_clock s now in
  let? key := Authority_verifying_key (ps_authority st) in
  let? payload := SignedRevocations_verify_at snap key (as_secs (rd_wall now)) in
  let? _ := check_stamp st (rvp_stamp payload) in
  let? retry :=
    (match ps_revocations st with
     | Some previous =>
         let? old := SignedRevocations_verify previous key in
         if bool_decide (rvp_stamp old = rvp_stamp payload)
            && bool_decide (rv_payload previous = rv_payload snap)
         then Ok true else
         let? _ := SnapshotStamp_newer_than (rvp_stamp payload) (rvp_stamp old) in Ok false
     | None => Ok false
     end) in
  if retry : bool then Ok None else
  let? lease := Lease_new (rvp_issued_at payload) (rvp_expires_at payload) now in
  Ok (Some (payload, lease)).

Definition accept_revocations_admitted (s : PolicyStore) (snap : SignedRevocations)
    (now : Reading) (admission : result unit DiscoveryError) (io : DiskIo)
    : PolicyStore * result bool DiscoveryError :=
  let st := st_state s in
  match revocations_decision s snap now with
  | Err e => (s, Err e)
  | Ok None => (s, Ok false)
  | Ok (Some (payload, lease)) =>
      match admission with
      | Err e => (s, Err e)
      | Ok _ =>
          let next := mkPState (ps_format st) (ps_bootstrap st) (ps_authority st)
            (ps_rotations st) (as_secs (rd_wall now)) (ps_registry st) (Some snap)
            (ps_names st) (ps_registry_lease st) (Some lease) (ps_names_lease st) in
          let (s', r) := PolicyStore_commit s next (fun o =>
            with_streams o (su_registry o)
              (Some (mkStream (sm_revision (rvp_stamp payload))
                       (Z.of_nat (size (rvp_revoked payload))) lease)) (su_names o)) io in
          (s', match r with Ok _ => Ok true | Err e => Err e end)
      end
  end.

Definition PolicyStore_revocations (s : PolicyStore) (now : Reading)
    : result (option (SignedRevocations * RevocationPayload * Lease)) DiscoveryError :=
  let? _ := check_clock s now in
  match ps_revocations (st_state s) with
  | None => Ok None
  | Some snap =>
      match ps_revocations_lease (st_state s) with
      | Some l =>
          if Lease_valid_at l now then
            let? key := Authority_verifying_key (ps_authority (st_state s)) in
            let? payload := SignedRevocations_verify snap key in
            Ok (Some (snap, payload, l))
          else Err DExpired
      | None => Err DExpired
      end
  end.

Definition registry_decision (s : PolicyStore) (snap : SignedRegistry) (now : Reading)
    : result (option (RegistryPayload * Lease)) DiscoveryError :=
  let st := st_state s in
  let? _ := check_clock s now in
  let? key := Authority_verifying_key (ps_authority st) in
  let? payload := SignedRegistry_verify snap key in
  let? _ := check_lifetime (rgp_issued_at payload) (rgp_expires_at payload)
              (as_secs (rd_wall now)) in
  let? _ := check_stamp st (rgp_stamp payload) in
  let? retry :=
    (match ps_registry st with
     | Some previous =>
         let? old := SignedRegistry_verify previous key in
         if bool_decide (rgp_stamp old = rgp_stamp payload)
            && bool_decide (rg_payload previous = rg_payload snap)
         then Ok true else
         let? _ := SnapshotStamp_newer_than (rgp_stamp payload) (rgp_stamp old) in Ok false
     | None => Ok false
     end) in
  if retry : bool then Ok None else
  let? lease := Lease_new (rgp_issued_at payload) (rgp_expires_at payload) now in
  Ok (Some (payload, lease)).

Definition accept_registry_admitted (s : PolicyStore) (snap : SignedRegistry)
    (now : Reading) (admission : result unit DiscoveryError) (io : DiskIo)
    : PolicyStore * result bool DiscoveryError :=
  let st := st_state s in
  match registry_decision s snap now with
  | Err e => (s, Err e)
  | Ok None => (s, Ok false)
  | Ok (Some (payload, lease)) =>
      match admission with
      | Err e => (s, Err e)
      | Ok _ =>
          let next := mkPState (ps_format st) (ps_bootstrap st) (ps_authority st)
            (ps_rotations st) (as_secs (rd_wall now)) (Some snap) (ps_revocations st)
            (ps_names st) (Some lease) (ps_revocations_lease st) (ps_names_lease st) in
          let (s', r) := PolicyStore_commit s next (fun o =>
            with_streams o
              (Some (mkStream (sm_revision (rgp_stamp payload))
                       (Z.of_nat (size (rgp_entries payload))) lease))
              (su_revocations o) (su_names o)) io in
          (s', match r with Ok _ => Ok true | Err e => Err e end)
      end
  end.

Definition bootstrap_registry (s : PolicyStore) (snap : SignedRegistry) (now : Reading)
    (io : DiskIo) : PolicyStore * result unit DiscoveryError :=
  let st := st_state s in
  let newer :=
    let? key := Authority_verifying_key (ps_authority st) in
    let? incoming := SignedRegistry_verify snap key in
    let? _ := check_stamp st (rgp_stamp incoming) in
    match ps_registry st with
    | Some previous =>
        let? stored := SignedRegistry_verify previous key in
        Ok (sm_revision (rgp_stamp incoming) <? sm_revision (rgp_stamp stored))
    | None => Ok false
    end in
  match newer with
  | Err e => (s, Err e)
  | Ok true => (s, Ok tt)
  | Ok false =>
      let (s', r) := accept_registry_admitted s snap now (Ok tt) io in
      (s', match r with Ok _ => Ok tt | Err e => Err e end)
  end.

Definition PolicyStore_name (s : PolicyStore) (name : bytes) (now : Reading)
    : result SignedNameBinding DiscoveryError :=
  let? _ := check_clock s now in
  let? snap := ok_or (ps_registry (st_state s)) NotFound in
  if negb (is_some_and (ps_registry_lease (st_state s)) (fun l => Lease_valid_at l now))
  then Err DExpired else ok_or (rg_bindings snap !! name) NotFound.

(** What [accept_name] decides: answer without a commit, or the new name state and
    lease to commit. *)
Definition name_decision (s : PolicyStore) (snap : SignedNameBinding) (name : bytes)
    (now : Reading)
    : result (NameBindingPayload * option (Names * option Lease)) DiscoveryError :=
  let st := st_state s in
  let? _ := check_clock s now in
  let? key := Authority_verifying_key (ps_authority st) in
  let? payload := SignedNameBinding_verify snap key name (as_secs (rd_wall now)) in
  let? _ := check_stamp st (nbp_stamp payload) in
  let hash := blake3_hash (nb_payload snap) in
  match ps_names st with
  | Some names =>
      let? old := SignedNameBinding_verify_committed (nm_anchor names) key in
      let insert hashes lease :=
        if MAX_NAMES <=? Z.of_nat (size hashes)
        then Err (invalid "name freshness cache full") else
        Ok (payload, Some (mkNames snap (<[name := hash]> hashes), lease)) in
      if negb (bool_decide (nbp_stamp old = nbp_stamp payload)) then
        let? _ := SnapshotStamp_newer_than (nbp_stamp payload) (nbp_stamp old) in
        let? lease := Lease_new (nbp_issued_at payload) (nbp_expires_at payload) now in
        insert ∅ (Some lease)
      else
        if negb (is_some_and (ps_names_lease st) (fun l => Lease_valid_at l now))
        then Err DExpired else
        if negb (bool_decide (nbp_registry_digest old = nbp_registry_digest payload))
           || negb (nbp_issued_at old =? nbp_issued_at payload)
           || negb (nbp_expires_at old =? nbp_expires_at payload)
        then Err DStale else
        match nm_hashes names !! name with
        | Some previous => if bool_decide (previous = hash) then Ok (payload, None) else Err DStale
        | None => insert (nm_hashes names) (ps_names_lease st)
        end
  | None =>
      let? lease := Lease_new (nbp_issued_at payload) (nbp_expires_at payload) now in
      Ok (payload, Some (mkNames snap {[name := hash]}, Some lease))
  end.

Definition accept_name (s : PolicyStore) (snap : SignedNameBinding) (name : bytes)
    (now : Reading) (io : DiskIo) : PolicyStore * result NameBindingPayload DiscoveryError :=
  let st := st_state s in
  match name_decision s snap name now with
  | Err e => (s, Err e)
  | Ok (payload, None) => (s, Ok payload)
  | Ok (payload, Some (names, lease)) =>
      let next := mkPState (ps_format st) (ps_bootstrap st) (ps_authority st)
        (ps_rotations st) (as_secs (rd_wall now)) (ps_registry st) (ps_revocations st)
        (Some names) (ps_registry_lease st) (ps_revocations_lease st) lease in
      let stream := match lease with
        | Some lease => Some (mkStream (sm_revision (nbp_stamp payload))
                                (Z.of_nat (size (nm_hashes names))) lease)
        | None => None end in
      let (s', r) := PolicyStore_commit s next (fun o =>
        with_streams o (su_registry o) (su_revocations o) stream) io in
      (s', match r with Ok _ => Ok payload | Err e => Err e end)
  end.

Definition check_name_lease (s : PolicyStore) (now : Reading) : result unit DiscoveryError :=
  let? _ := check_clock s now in
  if is_some_and (ps_names_lease (st_state s)) (fun l => Lease_valid_at l now)
  then Ok tt else Err DExpired.

(** ** Runs of a store *)

Inductive PolicyOp : Type :=
| OpRotation (receipt : SignedRotation) (now : Reading) (io : DiskIo)
| OpRevocations (snap : SignedRevocations) (now : Reading) (admission : result unit DiscoveryError)
    (io : DiskIo)
| OpRegistry (snap : SignedRegistry) (now : Reading) (admission : result unit DiscoveryError)
    (io : DiskIo)
| OpBootstrap (snap : SignedRegistry) (now : Reading) (io : DiskIo)
| OpName (snap : SignedNameBinding) (name : bytes) (now : Reading) (io : DiskIo).

Definition policy_op (s : PolicyStore) (op : PolicyOp) : PolicyStore :=
  match op with
  | OpRotation receipt now io => (apply_rotation s receipt now io).1
  | OpRevocations snap now admission io => (accept_revocations_admitted s snap now admission io).1
  | OpRegistry snap now admission io => (accept_registry_admitted s snap now admission io).1
  | OpBootstrap snap now io => (bootstrap_registry s snap now io).1
  | OpName snap name now io => (accept_name s snap name now io).1
  end.

End WithLibraries.

(** ** Every committed state validates *)

Lemma try_fold_app {A S E} (f : S -> A -> result S E) s l k :
  try_fold f s (l ++ k) =
  match try_fold f s l with Ok s' => try_fold f s' k | Err e => Err e end.
Proof. revert s. induction l as [|x l IH]; intros s; simpl; [done|]. by destruct (f s x). Qed.

Lemma check_stamp_ok st stamp :
  check_stamp st stamp = Ok tt <-> sm_authority stamp = ps_authority st.
Proof. unfold check_stamp. case_bool_decide; simpl; naive_solver. Qed.

Lemma check_clock_ok s now :
  check_clock s now = Ok tt <->
  st_failed s = false /\ ps_wall_floor (st_state s) <= as_secs (rd_wall now).
Proof.
  unfold check_clock. destruct (st_failed s); [naive_solver|].
  destruct (_ <? _) eqn:E; b2p; naive_solver lia.
Qed.

Section Validity.
  Context `{Ed25519, Blake3, Postcard RotationPayload, Postcard RevocationPayload,
            Postcard NameBindingPayload, Postcard RegistryPayload, Postcard PState,
            SerdeJson Envelope}.
  Context (boot : Authority).

Record valid (st : PState) (sum : Summary) : Prop := {
  va_format : ps_format st = 1;
  va_bootstrap : ps_bootstrap st = boot;
  va_rotations : zlen (ps_rotations st) <= MAX_ROTATIONS;
  va_chain : rotate_chain boot (ps_rotations st) = Ok (ps_authority st);
  va_key : Authority_verifying_key (ps_authority st) = Ok (au_key (ps_authority st));
  va_registry : validate_registry st (au_key (ps_authority st)) = Ok (su_registry sum);
  va_revocations : validate_revocations st (au_key (ps_authority st)) = Ok (su_revocations sum);
  va_names : validate_names st (au_key (ps_authority st)) = Ok (su_names sum);
  va_sum : sum = mkSummary true true (au_epoch (ps_authority st)) (ps_wall_floor st)
             (su_registry sum) (su_revocations sum) (su_names sum)
}.

Lemma validate_ok st sum : validate st boot = Ok sum <-> valid st sum.
Proof.
  unfold validate. split.
  - destruct (_ || _) eqn:E1; [done|].
    destruct (rotate_chain boot (ps_rotations st)) as [a|] eqn:E2; [|done].
    destruct (negb (bool_decide (ps_authority st = a))) eqn:E3; [done|].
    destruct (Authority_verifying_key a) as [key|] eqn:E4; [|done]. b2p. subst a.
    pose proof (proj1 (Authority_verifying_key_ok _ _) E4) as (-> & _ & _).
    destruct (validate_registry _ _) eqn:E5; [|done].
    destruct (validate_revocations _ _) eqn:E6; [|done].
    destruct (validate_names _ _) eqn:E7; [|done].
    intros [= <-]. destruct E1 as [[? ?] ?]. split; done.
  - intros [V1 V2 V3 V4 V5 V6 V7 V8 V9]. rewrite V4, V1, V2.
    rewrite (proj2 (Z.ltb_ge _ _) V3), bool_decide_eq_true_2 by done. simpl.
    rewrite bool_decide_eq_true_2 by done. simpl. by rewrite V5, V6, V7, V8, <-V9.
Qed.

(** What the bytes on disk decode to. *)
Definition on_disk (b : bytes) (st : PState) : Prop :=
  policy_encode st = Ok b /\ exists sum, valid st sum.

Record store_ok (s : PolicyStore) : Prop := {
  so_valid : exists sum, valid (st_state s) sum /\
    (st_failed s = false -> st_observed s = set_durable sum (is_some (st_disk s)));
  so_disk : forall content, st_disk s = Some content -> exists b st,
    content = Some b /\ on_disk b st /\ (st_failed s = false -> st = st_state s)
}.

Lemma store_ok_commit s next update io sum :
  store_ok s -> st_failed s = false -> valid next sum ->
  update (set_floor (st_observed s) (ps_wall_floor next))
    = set_durable sum (is_some (st_disk s)) ->
  store_ok (PolicyStore_commit s next update io).1.
Proof.
  intros [(sum0 & Hv & Ho) Hd] Hf Hn Hu. unfold PolicyStore_commit.
  destruct (st_disk s) as [content|] eqn:Ed; simpl.
  2:{ split; simpl; [|done]. exists sum. rewrite Hf. by split. }
  destruct (Hd content eq_refl) as (b & st & -> & Hb & Hst). specialize (Hst Hf) as ->.
  assert (Hfail : forall c, (c = b \/ policy_encode next = Ok c) ->
    store_ok (mkStore (st_state s) (Some (Some c)) true (set_unhealthy (st_observed s)))).
  { intros c Hc. split; simpl; [by exists sum0|]. intros ? [= <-].
    destruct Hc as [->|Hc]; [by exists b, (st_state s)|].
    exists c, next. split; [done|]. split; [|done]. split; [done|by eexists]. }
  destruct io as [|e|e replaced]; simpl.
  - destruct (policy_encode next) as [nb|e] eqn:En; [|apply Hfail; by left].
    split; simpl; [exists sum; by rewrite Hf|]. intros ? [= <-]. exists nb, next.
    split; [done|]. split; [split; [done|by eexists]|done].
  - apply Hfail. by left.
  - destruct (policy_encode next) as [nb|e'] eqn:En; [|apply Hfail; by left].
    destruct replaced; apply Hfail; auto.
Qed.

Lemma store_ok_observed s :
  store_ok s -> st_failed s = false ->
  exists sum, valid (st_state s) sum /\ st_observed s = set_durable sum (is_some (st_disk s)).
Proof. intros [(sum & Hv & Ho) _] Hf. exists sum. auto. Qed.

(** ** The operations preserve validity *)

Lemma store_ok_rotation s receipt now io :
  store_ok s -> store_ok (apply_rotation s receipt now io).1.
Proof.
  intros Hs. unfold apply_rotation.
  destruct (check_clock s now) as [[]|] eqn:Ec; [|done].
  apply check_clock_ok in Ec as [Hf _].
  case_bool_decide; [done|]. destruct (MAX_ROTATIONS <=? _) eqn:El; [done|].
  destruct (SignedRotation_verify_at _ _ _) as [p|] eqn:Ev; [|done].
  destruct (store_ok_observed _ Hs Hf) as (sum & [V1 V2 V3 V4 V5 V6 V7 V8 V9] & Ho).
  pose proof (SignedRotation_verify_at_ok _ _ _ _ Ev) as [R _].
  eapply (store_ok_commit _ _ _ _ (mkSummary true true (au_epoch (ro_next p))
    (as_secs (rd_wall now)) None None None)); try done.
  - split; simpl; try done.
    + rewrite zlen_app. unfold zlen at 2. simpl. b2p. lia.
    + unfold rotate_chain. rewrite try_fold_app. unfold rotate_chain in V4. rewrite V4. simpl.
      by rewrite (verify_at_committed _ _ _ _ Ev).
    + apply (rk_next_key _ _ _ R).
  - simpl. rewrite Ho, V9. by destruct (st_disk s).
Qed.

Lemma revocations_decision_ok s snap now p lease :
  revocations_decision s snap now = Ok (Some (p, lease)) ->
  check_clock s now = Ok tt /\
  Authority_verifying_key (ps_authority (st_state s)) = Ok (au_key (ps_authority (st_state s))) /\
  SignedRevocations_verify_at snap (au_key (ps_authority (st_state s))) (as_secs (rd_wall now))
    = Ok p /\
  check_stamp (st_state s) (rvp_stamp p) = Ok tt /\
  Lease_new (rvp_issued_at p) (rvp_expires_at p) now = Ok lease /\
  forall old q, ps_revocations (st_state s) = Some old ->
    SignedRevocations_verify old (au_key (ps_authority (st_state s))) = Ok q ->
    sm_revision (rvp_stamp q) < sm_revision (rvp_stamp p).
Proof.
  unfold revocations_decision. intros K.
  destruct (check_clock s now) as [[]|]; [|done].
  destruct (Authority_verifying_key _) as [key|] eqn:E1; [|done].
  pose proof (proj1 (Authority_verifying_key_ok _ _) E1) as (-> & _ & _).
  destruct (SignedRevocations_verify_at _ _ _) as [q|] eqn:E2; [|done].
  destruct (check_stamp _ _) as [[]|] eqn:E3; [|done].
  match type of K with (match ?m with _ => _ end) = _ => destruct m as [[|]|] eqn:E4 end; try done.
  destruct (Lease_new _ _ _) as [l|] eqn:E5; [|done]. injection K as -> ->.
  split_and!; try done. intros old q0 Ho Hq. rewrite Ho, Hq in E4.
  destruct (_ && _); [done|].
  destruct (SnapshotStamp_newer_than _ _) as [[]|] eqn:E6; [|done].
  by apply newer_than_ok in E6 as [_ ?].
Qed.

Lemma verify_at_verify snap key now p :
  SignedRevocations_verify_at snap key now = Ok p -> SignedRevocations_verify snap key = Ok p.
Proof.
  unfold SignedRevocations_verify_at. destruct (SignedRevocations_verify snap key); [|done].
  destruct (lifetime _ _ _ _); [|done]. done.
Qed.

Lemma store_ok_revocations s snap now admission io :
  store_ok s -> store_ok (accept_revocations_admitted s snap now admission io).1.
Proof.
  intros Hs. unfold accept_revocations_admitted.
  destruct (revocations_decision s snap now) as [[[p lease]|]|] eqn:Ed; [|done|done].
  destruct admission as [u|]; [|done].
  apply revocations_decision_ok in Ed as (Hc & _ & Hv & Hst & Hl & _).
  apply check_clock_ok in Hc as [Hf _]. apply verify_at_verify in Hv.
  destruct (store_ok_observed _ Hs Hf) as (sum & [V1 V2 V3 V4 V5 V6 V7 V8 V9] & Ho).
  match goal with |- store_ok (let (_, _) := ?c in _).1 =>
    assert (K : store_ok c.1); [|by destruct c] end.
  eapply (store_ok_commit _ _ _ _ (mkSummary true true (au_epoch (ps_authority (st_state s)))
    (as_secs (rd_wall now)) (su_registry sum) (Some (mkStream (sm_revision (rvp_stamp p))
       (Z.of_nat (size (rvp_revoked p))) lease)) (su_names sum))); try done.
  - split; simpl; try done. unfold validate_revocations. simpl. rewrite Hv.
    unfold check_stamp in *. simpl. rewrite Hst. simpl.
    by rewrite (Lease_new_matches _ _ _ _ Hl).
  - simpl. rewrite Ho, V9. by destruct (st_disk s).
Qed.

Lemma registry_decision_ok s snap now p lease :
  registry_decision s snap now = Ok (Some (p, lease)) ->
  check_clock s now = Ok tt /\
  SignedRegistry_verify snap (au_key (ps_authority (st_state s))) = Ok p /\
  check_stamp (st_state s) (rgp_stamp p) = Ok tt /\
  Lease_new (rgp_issued_at p) (rgp_expires_at p) now = Ok lease /\
  forall old q, ps_registry (st_state s) = Some old ->
    SignedRegistry_verify old (au_key (ps_authority (st_state s))) = Ok q ->
    sm_revision (rgp_stamp q) < sm_revision (rgp_stamp p).
Proof.
  unfold registry_decision. intros K.
  destruct (check_clock s now) as [[]|]; [|done].
  destruct (Authority_verifying_key _) as [key|] eqn:E1; [|done].
  pose proof (proj1 (Authority_verifying_key_ok _ _) E1) as (-> & _ & _).
  destruct (SignedRegistry_verify snap _) as [q|] eqn:E2; [|done].
  destruct (check_lifetime _ _ _); [|done].
  destruct (check_stamp _ _) as [[]|] eqn:E3; [|done].
  match type of K with (match ?m with _ => _ end) = _ => destruct m as [[|]|] eqn:E4 end; try done.
  destruct (Lease_new _ _ _) as [l|] eqn:E5; [|done]. injection K as -> ->.
  split_and!; try done. intros old q0 Ho Hq. rewrite Ho, Hq in E4.
  destruct (_ && _); [done|].
  destruct (SnapshotStamp_newer_than _ _) as [[]|] eqn:E6; [|done].
  by apply newer_than_ok in E6 as [_ ?].
Qed.

Lemma store_ok_registry s snap now admission io :
  store_ok s -> store_ok (accept_registry_admitted s snap now admission io).1.
Proof.
  intros Hs. unfold accept_registry_admitted.
  destruct (registry_decision s snap now) as [[[p lease]|]|] eqn:Ed; [|done|done].
  destruct admission as [u|]; [|done].
  apply registry_decision_ok in Ed as (Hc & Hv & Hst & Hl & _).
  apply check_clock_ok in Hc as [Hf _].
  destruct (store_ok_observed _ Hs Hf) as (sum & [V1 V2 V3 V4 V5 V6 V7 V8 V9] & Ho).
  match goal with |- store_ok (let (_, _) := ?c in _).1 =>
    assert (K : store_ok c.1); [|by destruct c] end.
  eapply (store_ok_commit _ _ _ _ (mkSummary true true (au_epoch (ps_authority (st_state s)))
    (as_secs (rd_wall now)) (Some (mkStream (sm_revision (rgp_stamp p))
       (Z.of_nat (size (rgp_entries p))) lease)) (su_revocations sum) (su_names sum))); try done.
  - split; simpl; try done. unfold validate_registry. simpl. rewrite Hv.
    unfold check_stamp in *. simpl. rewrite Hst. simpl.
    by rewrite (Lease_new_matches _ _ _ _ Hl).
  - simpl. rewrite Ho, V9. by destruct (st_disk s).
Qed.

Lemma bootstrap_registry_cases s snap now io :
  (bootstrap_registry s snap now io).1 = s \/
  (bootstrap_registry s snap now io).1 = (accept_registry_admitted s snap now (Ok tt) io).1.
Proof.
  unfold bootstrap_registry. match goal with |- context [match ?m with Ok _ => _ | Err _ => _ end] =>
    destruct m as [[|]|]; [by left| |by left] end.
  right. by destruct (accept_registry_admitted _ _ _ _ _).
Qed.

(** What [accept_name] commits: a first or newer revision starts a new name set with a
    new lease; the same revision extends the set and keeps the lease. *)
Lemma name_decision_ok s snap name now p names lease :
  name_decision s snap name now = Ok (p, Some (names, lease)) ->
  check_clock s now = Ok tt /\
  SignedNameBinding_verify snap (au_key (ps_authority (st_state s))) name
    (as_secs (rd_wall now)) = Ok p /\
  check_stamp (st_state s) (nbp_stamp p) = Ok tt /\
  exists hashes, names = mkNames snap (<[name := blake3_hash (nb_payload snap)]> hashes) /\
    Z.of_nat (size hashes) < MAX_NAMES /\
    ((hashes = ∅ /\
      (exists l, lease = Some l /\
         Lease_new (nbp_issued_at p) (nbp_expires_at p) now = Ok l) /\
      forall ns q, ps_names (st_state s) = Some ns ->
        SignedNameBinding_verify_committed (nm_anchor ns) (au_key (ps_authority (st_state s)))
          = Ok q -> sm_revision (nbp_stamp q) < sm_revision (nbp_stamp p)) \/
     (exists ns q, ps_names (st_state s) = Some ns /\ hashes = nm_hashes ns /\
        lease = ps_names_lease (st_state s) /\ hashes !! name = None /\
        SignedNameBinding_verify_committed (nm_anchor ns) (au_key (ps_authority (st_state s)))
          = Ok q /\ nbp_stamp q = nbp_stamp p /\
        nbp_registry_digest q = nbp_registry_digest p /\
        nbp_issued_at q = nbp_issued_at p /\ nbp_expires_at q = nbp_expires_at p)).
Proof.
  unfold name_decision. intros K.
  destruct (check_clock s now) as [[]|]; [|done].
  destruct (Authority_verifying_key _) as [key|] eqn:E1; [|done].
  pose proof (proj1 (Authority_verifying_key_ok _ _) E1) as (-> & _ & _).
  destruct (SignedNameBinding_verify snap _ _ _) as [p'|] eqn:E2; [|done].
  destruct (check_stamp _ _) as [[]|] eqn:E3; [|done].
  destruct (ps_names (st_state s)) as [ns|] eqn:En.
  - destruct (SignedNameBinding_verify_committed _ _) as [old|] eqn:Eo; [|done].
    destruct (negb (bool_decide (nbp_stamp old = nbp_stamp p'))) eqn:E4.
    + destruct (SnapshotStamp_newer_than _ _) as [[]|] eqn:E5; [|done].
      destruct (Lease_new _ _ _) as [l|] eqn:E6; [|done].
      destruct (MAX_NAMES <=? _) eqn:E7; [done|]. injection K as -> <- <-. b2p.
      split_and!; try done. exists ∅. split_and!; try done. left. split_and!; try done.
      * by exists l.
      * intros ns' q [= <-] Hq. apply newer_than_ok in E5 as [_ ?]. congruence.
    + destruct (negb (is_some_and (ps_names_lease (st_state s)) (fun l => Lease_valid_at l now)));
        [done|].
      destruct (_ || _ || _) eqn:E5; [done|].
      destruct (nm_hashes ns !! name) eqn:E6; [by revert K; destruct (bool_decide (_ = blake3_hash _))|].
      destruct (MAX_NAMES <=? _) eqn:E7; [done|]. injection K as -> <- <-. b2p.
      split_and!; try done. exists (nm_hashes ns). split_and!; try done. right.
      exists ns, old. destruct E5 as [[? ?] ?]. done.
  - destruct (Lease_new _ _ _) as [l|] eqn:E6; [|done]. injection K as -> <- <-.
    split_and!; try done. exists ∅. split_and!; try done.
    left. split_and!; try done. by exists l.
Qed.

Lemma validate_names_ok st key sm ns :
  validate_names st key = Ok sm -> ps_names st = Some ns ->
  exists p, SignedNameBinding_verify_committed (nm_anchor ns) key = Ok p /\
    lease_matches (ps_names_lease st) (nbp_issued_at p) (nbp_expires_at p) = true /\
    Forall (fun n => valid_name n = true) (btree_items (nm_hashes ns)).*1.
Proof.
  unfold validate_names. intros K En. rewrite En in K.
  destruct (SignedNameBinding_verify_committed _ _) as [p|]; [|done].
  destruct (check_stamp _ _); [|done].
  destruct (lease_matches _ _ _) eqn:El; [|done]. simpl in K.
  destruct (_ || _ || _) eqn:E; [done|]. b2p. exists p. split_and!; try done.
  destruct E as [[_ E] _]. apply Forall_forall. intros n Hn.
  apply (proj1 (forallb_forall _ _) E). by apply list_elem_of_In.
Qed.

Lemma store_ok_name s snap name now io :
  store_ok s -> store_ok (accept_name s snap name now io).1.
Proof.
  intros Hs. unfold accept_name.
  destruct (name_decision s snap name now) as [[p [[names lease]|]]|] eqn:Ed; [|done|done].
  apply name_decision_ok in Ed as (Hc & Hv & Hst & hashes & -> & Hsize & Hcase).
  apply check_clock_ok in Hc as [Hf _].
  destruct (store_ok_observed _ Hs Hf) as (sum & [V1 V2 V3 V4 V5 V6 V7 V8 V9] & Ho).
  assert (Hl : exists l, lease = Some l /\
    Lease_matches_interval l (nbp_issued_at p) (nbp_expires_at p) = true /\
    Forall (fun n => valid_name n = true) (btree_items hashes).*1).
  { destruct Hcase as [(-> & (l & -> & Hl) & _)|(ns & q & En & -> & -> & _ & Hq & _ & _ & Ei & Ee)].
    - exists l. split_and!; [done|by apply (Lease_new_matches _ _ now)|].
      by vm_compute.
    - destruct (validate_names_ok _ _ _ _ V8 En) as (q' & Hq' & Hm & Hall).
      rewrite Hq in Hq'. injection Hq' as <-. unfold lease_matches in Hm.
      destruct (ps_names_lease (st_state s)) as [l|]; [|done]. simpl in Hm.
      rewrite Ei, Ee in Hm. by exists l. }
  destruct Hl as (l & -> & Hm & Hall).
  pose proof Hv as (Hname & _ & _ & _ & _ & _ & _ & Hnm & _)%SignedNameBinding_verify_ok.
  match goal with |- store_ok (let (_, _) := ?c in _).1 =>
    assert (K : store_ok c.1); [|by destruct c] end.
  set (hs := <[name := blake3_hash (nb_payload snap)]> hashes).
  eapply (store_ok_commit _ _ _ _ (mkSummary true true (au_epoch (ps_authority (st_state s)))
    (as_secs (rd_wall now)) (su_registry sum) (su_revocations sum)
    (Some (mkStream (sm_revision (nbp_stamp p)) (Z.of_nat (size hs)) l)))); try done.
  - split; simpl; try done. unfold validate_names. simpl.
    rewrite (name_verify_committed _ _ _ _ _ Hv).
    unfold check_stamp in *. simpl. rewrite Hst. simpl. rewrite Hm. simpl.
    assert (Hle : Z.of_nat (size hs) <= MAX_NAMES).
    { unfold hs. rewrite map_size_insert. destruct (hashes !! name); simpl; lia. }
    rewrite (proj2 (Z.ltb_ge _ _) Hle). simpl.
    assert (Hnames : forallb valid_name (btree_items hs).*1 = true).
    { apply forallb_forall. intros n Hn%list_elem_of_In.
      apply list_elem_of_fmap in Hn as ([k v] & -> & Hkv). apply elem_of_btree_items in Hkv.
      unfold hs in Hkv. apply lookup_insert_Some in Hkv as [[<- _]|[_ Hkv]]; [done|].
      rewrite Forall_forall in Hall. apply Hall, list_elem_of_fmap. exists (k, v).
      split; [done|by apply elem_of_btree_items]. }
    rewrite Hnames, bool_decide_eq_true_2; [done|]. unfold hs. rewrite Hnm. by rewrite lookup_insert_eq.
  - simpl. rewrite Ho, V9. by destruct (st_disk s).
Qed.

Lemma store_ok_op s op : store_ok s -> store_ok (policy_op s op).
Proof.
  intros Hs. destruct op as [r now io|sn now ad io|sn now ad io|sn now io|sn n now io]; simpl.
  - by apply store_ok_rotation.
  - by apply store_ok_revocations.
  - by apply store_ok_registry.
  - destruct (bootstrap_registry_cases s sn now io) as [-> | ->]; [done|].
    by apply store_ok_registry.
  - by apply store_ok_name.
Qed.

(** ** Opening and reopening *)

Lemma memory_ok s : PolicyStore_memory boot = Ok s -> store_ok s.
Proof.
  unfold PolicyStore_memory. intros K.
  destruct (Authority_verifying_key boot) as [k|] eqn:E; [|done]. injection K as <-.
  pose proof (proj1 (Authority_verifying_key_ok _ _) E) as (-> & _ & _).
  split; [|done]. exists (Summary_empty (au_epoch boot) true). split; [|done]. by split.
Qed.

Lemma policy_decode `{!SerdeJsonLaws Envelope} st b :
  policy_encode st = Ok b ->
  exists d, policy_digest st = Ok d /\ json_from_slice b = Ok (mkEnvelope st d).
Proof.
  unfold policy_encode. intros Hb. destruct (policy_digest st) as [d|]; [|done].
  exists d. split; [done|]. destruct (json_to_vec _) as [b'|] eqn:Ej; [|done].
  injection Hb as <-. by apply json_roundtrip.
Qed.

Lemma open_ok r_open r_read r_init r_write r_seal now s :
  SerdeJsonLaws Envelope -> (forall b, r_read = Ok (Some b) -> exists st, on_disk b st) ->
  PolicyStore_open r_open r_read r_init r_write r_seal boot now = Ok s ->
  store_ok s.
Proof.
  intros Hjson Hread. unfold PolicyStore_open. intros K. destruct r_open; [|done].
  destruct (PolicyStore_memory boot) as [m|] eqn:Em; [|done].
  pose proof (memory_ok _ Em) as [(sum0 & Hv0 & Ho0) _].
  assert (Hm : st_failed m = false).
  { unfold PolicyStore_memory in Em. destruct (Authority_verifying_key boot); [|done].
    by injection Em as <-. }
  assert (Hmd : st_disk m = None).
  { unfold PolicyStore_memory in Em. destruct (Authority_verifying_key boot); [|done].
    by injection Em as <-. }
  destruct r_read as [[b|]|]; [| |done].
  - destruct (Hread b eq_refl) as (st & Hb & sum & Hv).
    destruct (policy_decode _ _ Hb) as (d & Hd & Hj). rewrite Hj in K. simpl in K. rewrite Hd in K.
    rewrite bool_decide_eq_true_2 in K by done. simpl in K.
    rewrite (proj2 (validate_ok _ _) Hv) in K.
    destruct (check_clock _ _); [|done]. destruct r_init as [[|]|]; simpl in K; try done.
    2: destruct r_seal; [|done].
    all: injection K as <-; split; simpl;
      [exists sum; by split|intros ? [= <-]; exists b, st; split_and!; try done; split; eauto].
  - destruct r_init as [[|]|]; try done.
    destruct (policy_encode (st_state m)) as [b|] eqn:Eb; [|done].
    destruct r_write; [|done]. destruct r_seal; [|done]. injection K as <-. split; simpl.
    + exists sum0. split; [done|]. intros _. by rewrite (Ho0 Hm).
    + intros ? [= <-]. exists b, (st_state m). split_and!; try done. split; eauto.
Qed.

(** The ways a process comes by its store: in memory, or from a file that holds nothing
    yet or what an earlier store committed. *)
Inductive opened (s : PolicyStore) : Prop :=
| opened_memory : PolicyStore_memory boot = Ok s -> opened s
| opened_file r_open r_read r_init r_write r_seal now :
    (forall b, r_read = Ok (Some b) -> exists st, on_disk b st) ->
    PolicyStore_open r_open r_read r_init r_write r_seal boot now = Ok s -> opened s.

Lemma run_ok s ops :
  SerdeJsonLaws Envelope -> opened s -> store_ok (foldl policy_op s ops).
Proof.
  intros Hjson Hs. assert (Hok : store_ok s).
  { destruct Hs as [Hm|? ? ? ? ? ? Hr Ho]; [by apply memory_ok|by eapply open_ok]. }
  clear Hs. revert s Hok. induction ops as [|op ops IH]; intros s Hok; [done|].
  by apply IH, store_ok_op.
Qed.

(** C15: A committed policy survives a restart.  After any operations on a store, with any
    disk failures, the file holds a state that [open] accepts at any time not before
    its wall-clock floor; if no commit failed it is exactly the store's state, and the
    reopened store publishes the same summary. *)
Theorem policy_reopens s ops content :
  SerdeJsonLaws Envelope -> opened s -> st_disk (foldl policy_op s ops) = Some content ->
  exists b st, content = Some b /\
    (st_failed (foldl policy_op s ops) = false -> st = st_state (foldl policy_op s ops)) /\
    forall now, ps_wall_floor st <= as_secs (rd_wall now) ->
      exists s', PolicyStore_open (Ok tt) (Ok content) (Ok true) (Ok tt) (Ok tt) boot now = Ok s' /\
        st_state s' = st /\ st_failed s' = false /\
        (st_failed (foldl policy_op s ops) = false ->
         st_observed s' = st_observed (foldl policy_op s ops)).
Proof.
  intros Hjson Hs Hd. pose proof (run_ok s ops Hjson Hs) as Hok.
  set (s1 := foldl policy_op s ops) in *.
  destruct (so_disk _ Hok _ Hd) as (b & st & -> & [Hb [sum Hv]] & Hst).
  exists b, st. split; [done|]. split; [done|]. intros now Hnow.
  destruct (policy_decode _ _ Hb) as (d & Hdig & Hj).
  assert (Hboot : exists k, Authority_verifying_key boot = Ok k).
  { destruct Hs as [Hm|? ? ? ? ? ? Hr Ho].
    - unfold PolicyStore_memory in Hm. destruct (Authority_verifying_key boot); [by eexists|done].
    - unfold PolicyStore_open, PolicyStore_memory in Ho. destruct r_open; [|done].
      destruct (Authority_verifying_key boot); [by eexists|done]. }
  destruct Hboot as [k Hk]. unfold PolicyStore_open, PolicyStore_memory. rewrite Hk, Hj. simpl.
  rewrite Hdig. rewrite bool_decide_eq_true_2 by done. simpl.
  rewrite (proj2 (validate_ok _ _) Hv). unfold check_clock. simpl.
  rewrite (proj2 (Z.ltb_ge _ _) Hnow). eexists. split; [done|]. split_and!; try done. simpl.
  intros Hf. specialize (Hst Hf). destruct (so_valid _ Hok) as (sum' & Hv' & Ho).
  rewrite (Ho Hf), Hd. simpl. f_equal. subst st.
  apply validate_ok in Hv, Hv'. congruence.
Qed.

(** ** No rollback *)

Record policy_le (a b : PState) : Prop := {
  le_floor : ps_wall_floor a <= ps_wall_floor b;
  le_rotations : ps_rotations a `prefix_of` ps_rotations b;
  le_epoch : au_epoch (ps_authority a) <= au_epoch (ps_authority b);
  le_epoch_lt : ps_authority a <> ps_authority b ->
    au_epoch (ps_authority a) < au_epoch (ps_authority b);
  le_revocations : ps_authority a = ps_authority b -> forall old q,
    ps_revocations a = Some old -> SignedRevocations_verify old (au_key (ps_authority a)) = Ok q ->
    exists new p, ps_revocations b = Some new /\
      SignedRevocations_verify new (au_key (ps_authority b)) = Ok p /\
      (new = old \/ sm_revision (rvp_stamp q) < sm_revision (rvp_stamp p));
  le_registry : ps_authority a = ps_authority b -> forall old q,
    ps_registry a = Some old -> SignedRegistry_verify old (au_key (ps_authority a)) = Ok q ->
    exists new p, ps_registry b = Some new /\
      SignedRegistry_verify new (au_key (ps_authority b)) = Ok p /\
      (new = old \/ sm_revision (rgp_stamp q) < sm_revision (rgp_stamp p))
}.

#[local] Instance policy_le_preorder : PreOrder policy_le.
Proof.
  split.
  - intros a. split; try done; intros _ old q Ho Hq; exists old, q; auto.
  - intros a b c [F1 R1 E1 L1 V1 G1] [F2 R2 E2 L2 V2 G2].
    assert (Hab : ps_authority a = ps_authority c -> ps_authority a = ps_authority b).
    { intros E. destruct (decide (ps_authority a = ps_authority b)) as [|N]; [done|].
      specialize (L1 N). rewrite E in L1. lia. }
    split; [lia|by etrans|lia| | |].
    + intros N. destruct (decide (ps_authority a = ps_authority b)) as [E|N1].
      * rewrite E in *. by apply L2.
      * specialize (L1 N1). lia.
    + intros E old q Ho Hq. destruct (V1 (Hab E) old q Ho Hq) as (n1 & p1 & Hn1 & Hp1 & C1).
      assert (E' : ps_authority b = ps_authority c) by (rewrite <-(Hab E); done).
      destruct (V2 E' n1 p1 Hn1 Hp1) as (n2 & p2 & Hn2 & Hp2 & C2).
      exists n2, p2. split_and!; [done|done|].
      destruct C1 as [->|C1], C2 as [->|C2]; auto.
      * right. rewrite <-(Hab E) in Hp1. congruence.
      * right. rewrite E' in Hp1. congruence.
      * right. lia.
    + intros E old q Ho Hq. destruct (G1 (Hab E) old q Ho Hq) as (n1 & p1 & Hn1 & Hp1 & C1).
      assert (E' : ps_authority b = ps_authority c) by (rewrite <-(Hab E); done).
      destruct (G2 E' n1 p1 Hn1 Hp1) as (n2 & p2 & Hn2 & Hp2 & C2).
      exists n2, p2. split_and!; [done|done|].
      destruct C1 as [->|C1], C2 as [->|C2]; auto.
      * right. rewrite <-(Hab E) in Hp1. congruence.
      * right. rewrite E' in Hp1. congruence.
      * right. lia.
Qed.

Lemma commit_state s next update io :
  st_state (PolicyStore_commit s next update io).1 = st_state s \/
  st_state (PolicyStore_commit s next update io).1 = next.
Proof.
  unfold PolicyStore_commit. destruct (st_disk s) as [[b|]|]; simpl; [| |by right].
  - destruct io; simpl; auto; destruct (policy_encode next); auto.
  - destruct io; by left.
Qed.

Lemma policy_le_commit s next update io :
  policy_le (st_state s) next ->
  policy_le (st_state s) (st_state (PolicyStore_commit s next update io).1).
Proof. intros Hle. by destruct (commit_state s next update io) as [-> | ->]. Qed.

Lemma let_fst {A B C} (c : A * B) (f : A -> B -> C) :
  (let (a, b) := c in (a, f a b)).1 = c.1.
Proof. by destruct c. Qed.

Lemma policy_le_op s op : policy_le (st_state s) (st_state (policy_op s op)).
Proof.
  assert (Hreg : forall sn now ad io, policy_le (st_state s)
    (st_state (accept_registry_admitted s sn now ad io).1)).
  { intros sn now ad io. unfold accept_registry_admitted.
    destruct (registry_decision s sn now) as [[[p lease]|]|] eqn:Ed; [|done|done].
    destruct ad as [u|]; [|done]. rewrite let_fst. apply policy_le_commit.
    apply registry_decision_ok in Ed as (Hc & Hv & Hst & _ & Hnew).
    apply check_clock_ok in Hc as [_ Hc]. split; simpl; try done.
    - intros _ old q Ho Hq. exists old, q. auto.
    - intros _ old q Ho Hq. exists sn, p. split_and!; [done|done|right; by eapply Hnew]. }
  destruct op as [r now io|sn now ad io|sn now ad io|sn now io|sn n now io]; simpl.
  - unfold apply_rotation. destruct (check_clock s now) as [[]|] eqn:Ec; [|done].
    apply check_clock_ok in Ec as [_ Hc]. case_bool_decide; [done|].
    destruct (MAX_ROTATIONS <=? _); [done|].
    destruct (SignedRotation_verify_at _ _ _) as [p|] eqn:Ev; [|done].
    apply SignedRotation_verify_at_ok in Ev as [R _]. apply policy_le_commit.
    pose proof (rk_epoch _ _ _ R). pose proof (rk_key _ _ _ R).
    split; simpl; try lia; [by eexists|intros E; exfalso; congruence..].
  - unfold accept_revocations_admitted.
    destruct (revocations_decision s sn now) as [[[p lease]|]|] eqn:Ed; [|done|done].
    destruct ad as [u|]; [|done]. rewrite let_fst. apply policy_le_commit.
    apply revocations_decision_ok in Ed as (Hc & _ & Hv & Hst & _ & Hnew).
    apply check_clock_ok in Hc as [_ Hc]. apply verify_at_verify in Hv. split; simpl; try done.
    + intros _ old q Ho Hq. exists sn, p. split_and!; [done|done|right; by eapply Hnew].
    + intros _ old q Ho Hq. exists old, q. auto.
  - apply Hreg.
  - destruct (bootstrap_registry_cases s sn now io) as [-> | ->]; [done|apply Hreg].
  - unfold accept_name.
    destruct (name_decision s sn n now) as [[p [[names lease]|]]|] eqn:Ed; [|done|done].
    rewrite let_fst. apply policy_le_commit. apply name_decision_ok in Ed as (Hc & _).
    apply check_clock_ok in Hc as [_ Hc]. split; simpl; try done;
      intros _ old q Ho Hq; exists old, q; auto.
Qed.

(** Policy never rolls back.  Whatever snapshots, registries, name proofs and rotation
    receipts a store is offered, in any order and with any failures, its wall-clock
    floor and its authority epoch never decrease, its rotation history only grows, the
    authority changes only to a higher epoch, and under one authority the stored
    revocations and registry stay or are replaced by a strictly higher revision. *)
Theorem policy_never_rolls_back s ops :
  let a := st_state s in let b := st_state (foldl policy_op s ops) in
  ps_wall_floor a <= ps_wall_floor b /\ ps_rotations a `prefix_of` ps_rotations b /\
  au_epoch (ps_authority a) <= au_epoch (ps_authority b) /\
  (ps_authority a <> ps_authority b -> au_epoch (ps_authority a) < au_epoch (ps_authority b)) /\
  (ps_authority a = ps_authority b -> forall old q,
     ps_revocations a = Some old ->
     SignedRevocations_verify old (au_key (ps_authority a)) = Ok q ->
     exists new p, ps_revocations b = Some new /\
       SignedRevocations_verify new (au_key (ps_authority b)) = Ok p /\
       (new = old \/ sm_revision (rvp_stamp q) < sm_revision (rvp_stamp p))) /\
  (ps_authority a = ps_authority b -> forall old q,
     ps_registry a = Some old -> SignedRegistry_verify old (au_key (ps_authority a)) = Ok q ->
     exists new p, ps_registry b = Some new /\
       SignedRegistry_verify new (au_key (ps_authority b)) = Ok p /\
       (new = old \/ sm_revision (rgp_stamp q) < sm_revision (rgp_stamp p))).
Proof.
  assert (K : policy_le (st_state s) (st_state (foldl policy_op s ops))).
  { revert s. induction ops as [|op ops IH]; intros s; [done|]. simpl.
    etrans; [apply policy_le_op|apply IH]. }
  destruct K. simpl. split_and!; done.
Qed.

(** ** What is served *)

Lemma commit_result s next update io :
  match PolicyStore_commit s next update io with
  | (s', Ok _) => st_state s' = next /\ st_failed s' = st_failed s
  | (s', Err _) => st_state s' = st_state s /\ st_failed s' = true
  end.
Proof.
  unfold PolicyStore_commit. destruct (st_disk s) as [[b|]|]; simpl; [| |done].
  - destruct io; simpl; try done; by destruct (policy_encode next).
  - by destruct io.
Qed.

Lemma revocations_decision_retry s snap now :
  revocations_decision s snap now = Ok None ->
  exists old, ps_revocations (st_state s) = Some old /\ rv_payload old = rv_payload snap.
Proof.
  unfold revocations_decision. intros K.
  destruct (check_clock s now); [|done]. destruct (Authority_verifying_key _); [|done].
  destruct (SignedRevocations_verify_at _ _ _); [|done]. destruct (check_stamp _ _); [|done].
  destruct (ps_revocations (st_state s)) as [old|]; [|by destruct (Lease_new _ _ _)].
  destruct (SignedRevocations_verify old _); [|done].
  destruct (_ && _) eqn:E.
  - b2p. exists old. naive_solver.
  - destruct (SnapshotStamp_newer_than _ _); [|done]. by destruct (Lease_new _ _ _).
Qed.

(** Accepting a revocation snapshot is all or nothing.  An accepted snapshot is served
    from then on with a lease that starts now; an exact retry changes nothing, so it
    cannot extend the lease; a refusal leaves the served state as it was, and after a
    disk error the store answers nothing until it is reopened. *)
Theorem accept_revocations_outcome s snap now admission io s' r :
  accept_revocations_admitted s snap now admission io = (s', r) ->
  match r with
  | Ok true => exists p l, PolicyStore_revocations s' now = Ok (Some (snap, p, l)) /\
      Lease_new (rvp_issued_at p) (rvp_expires_at p) now = Ok l
  | Ok false => s' = s /\ exists old, ps_revocations (st_state s) = Some old /\
      rv_payload old = rv_payload snap
  | Err _ => st_state s' = st_state s /\
      (s' = s \/ forall t, exists e, PolicyStore_revocations s' t = Err e)
  end.
Proof.
  unfold accept_revocations_admitted. intros K.
  destruct (revocations_decision s snap now) as [[[p lease]|]|] eqn:Ed.
  - destruct admission as [u|]; [|injection K as <- <-; auto].
    apply revocations_decision_ok in Ed as (Hc & Hkey & Hv & Hst & Hl & _).
    apply verify_at_verify in Hv.
    match type of K with (let (_, _) := PolicyStore_commit ?a ?n ?u ?i in _) = _ =>
      pose proof (commit_result a n u i) as Hr; destruct (PolicyStore_commit a n u i) as [s1 r1] end.
    injection K as <- <-. destruct r1 as [u1|e]; destruct Hr as [Hs Hf].
    + exists p, lease. split; [|done].
      apply check_clock_ok in Hc as [Hcf Hcl]. unfold PolicyStore_revocations, check_clock.
      rewrite Hf, Hcf, Hs. simpl. rewrite Z.ltb_irrefl.
      by rewrite (Lease_new_valid_at _ _ _ _ Hl), Hkey, Hv.
    + split; [done|]. right. intros t.
      unfold PolicyStore_revocations, check_clock. rewrite Hf. by eexists.
  - injection K as <- <-. split; [done|]. by eapply revocations_decision_retry.
  - injection K as <- <-. auto.
Qed.

(** Whatever revocations a store serves, after any history, were signed by the
    authority the rotation chain leads to, name that authority, carry at most the
    bounded number of grants, and are served only inside their signed interval, under
    a lease valid on both clocks and at no time before the committed floor. *)
Theorem served_revocations_sound s ops now snap p l :
  SerdeJsonLaws Envelope -> opened s ->
  PolicyStore_revocations (foldl policy_op s ops) now = Ok (Some (snap, p, l)) ->
  let st := st_state (foldl policy_op s ops) in
  rotate_chain boot (ps_rotations st) = Ok (ps_authority st) /\
  verify_strict (au_key (ps_authority st)) (REVOCATIONS_DOMAIN ++ rv_payload snap)
    (rv_signature snap) = true /\
  from_bytes (rv_payload snap) = Ok p /\ sm_authority (rvp_stamp p) = ps_authority st /\
  Z.of_nat (size (rvp_revoked p)) <= MAX_REVOKED_GRANTS /\
  ls_issued_at l = rvp_issued_at p /\ ls_expires_at l = rvp_expires_at p /\
  Lease_valid_at l now = true /\ ps_wall_floor st <= as_secs (rd_wall now) < rvp_expires_at p.
Proof.
  intros Hjson Ho K. pose proof (run_ok s ops Hjson Ho) as [(sum & V & _) _]. simpl.
  unfold PolicyStore_revocations in K.
  destruct (check_clock _ now) as [[]|] eqn:Ec; [|done]. apply check_clock_ok in Ec as [_ Ec].
  destruct (ps_revocations _) as [sn|] eqn:Es; [|done].
  destruct (ps_revocations_lease _) as [le|] eqn:El; [|done].
  destruct (Lease_valid_at le now) eqn:Ev; [|done].
  rewrite (va_key _ _ V) in K.
  destruct (SignedRevocations_verify sn _) as [q|] eqn:Eq; [|done]. injection K as -> -> ->.
  pose proof (va_revocations _ _ V) as W. unfold validate_revocations in W.
  rewrite Es, Eq in W. destruct (check_stamp _ _) as [[]|] eqn:Est; [|done].
  rewrite El in W. simpl in W. destruct (Lease_matches_interval l _ _) eqn:Em; [|done].
  apply SignedRevocations_verify_ok in Eq as (Q1 & Q2 & _ & Q4 & _).
  apply domain_verify_ok in Q1 as (_ & _ & Q1). apply check_stamp_ok in Est.
  unfold Lease_matches_interval in Em. b2p. destruct Em as [[[[M1 M2] _] _] _].
  pose proof Ev as (_ & _ & Hw & _)%Lease_valid_at_iff.
  rewrite <-M2, as_secs_lt. split_and!; try done; [apply (va_chain _ _ V)|lia].
Qed.

(** ** Names: no equivocation within a revision *)

(** The name was accepted with this stamp and hash, and that still binds: the current
    name set has it, or is of a later revision or epoch. *)
Definition name_recorded (st : PState) (name : bytes) (stamp : SnapshotStamp) (h : bytes) : Prop :=
  au_epoch (sm_authority stamp) < au_epoch (ps_authority st) \/
  ps_authority st = sm_authority stamp /\
  exists ns q, ps_names st = Some ns /\
    SignedNameBinding_verify_committed (nm_anchor ns) (au_key (ps_authority st)) = Ok q /\
    (nbp_stamp q = stamp /\ nm_hashes ns !! name = Some h \/
     sm_revision stamp < sm_revision (nbp_stamp q)).

Lemma name_recorded_commit s next update io name stamp h :
  name_recorded (st_state s) name stamp h -> name_recorded next name stamp h ->
  name_recorded (st_state (PolicyStore_commit s next update io).1) name stamp h.
Proof. intros. by destruct (commit_state s next update io) as [-> | ->]. Qed.

Lemma name_recorded_op s op name stamp h :
  name_recorded (st_state s) name stamp h -> name_recorded (st_state (policy_op s op)) name stamp h.
Proof.
  intros Hn.
  assert (Hreg : forall sn now ad io,
    name_recorded (st_state (accept_registry_admitted s sn now ad io).1) name stamp h).
  { intros sn now ad io. unfold accept_registry_admitted.
    destruct (registry_decision s sn now) as [[[p lease]|]|]; [|done|done].
    destruct ad as [u|]; [|done]. rewrite let_fst. by apply name_recorded_commit. }
  destruct op as [r now io|sn now ad io|sn now ad io|sn now io|sn n now io]; simpl.
  - unfold apply_rotation. destruct (check_clock s now) as [[]|]; [|done].
    case_bool_decide; [done|]. destruct (MAX_ROTATIONS <=? _); [done|].
    destruct (SignedRotation_verify_at _ _ _) as [p|] eqn:Ev; [|done].
    apply SignedRotation_verify_at_ok in Ev as [R _]. apply name_recorded_commit; [done|].
    left. simpl. rewrite (rk_epoch _ _ _ R).
    destruct Hn as [Hn|[Hn _]]; [lia|]. rewrite Hn. lia.
  - unfold accept_revocations_admitted.
    destruct (revocations_decision s sn now) as [[[p lease]|]|]; [|done|done].
    destruct ad as [u|]; [|done]. rewrite let_fst. by apply name_recorded_commit.
  - apply Hreg.
  - destruct (bootstrap_registry_cases s sn now io) as [-> | ->]; [done|apply Hreg].
  - unfold accept_name.
    destruct (name_decision s sn n now) as [[p [[names lease]|]]|] eqn:Ed; [|done|done].
    rewrite let_fst. apply name_recorded_commit; [done|].
    apply name_decision_ok in Ed as (_ & Hv & _ & hashes & -> & _ & Hcase).
    destruct Hn as [Hn|(Ha & ns & q & Ens & Hq & Hr)]; [by left|right]. simpl.
    split; [done|]. eexists _, p. split; [done|]. simpl.
    split; [by eapply name_verify_committed|].
    destruct Hcase as [(-> & _ & Hnew)|(ns' & q' & Ens' & -> & _ & Hnone & Hq' & Es & _)].
    + specialize (Hnew ns q Ens Hq). right. destruct Hr as [[<- _]|Hr]; lia.
    + assert (ns' = ns) as -> by congruence. assert (q' = q) as -> by congruence.
      rewrite <-Es. destruct Hr as [[-> Hh]|Hr]; [left|by right]. split; [done|].
      rewrite lookup_insert_ne; [done|congruence].
Qed.

Lemma name_recorded_run s ops name stamp h :
  name_recorded (st_state s) name stamp h ->
  name_recorded (st_state (foldl policy_op s ops)) name stamp h.
Proof.
  revert s. induction ops as [|op ops IH]; intros s Hn; [done|]. by apply IH, name_recorded_op.
Qed.

Lemma accept_name_current s snap name now io s' p :
  accept_name s snap name now io = (s', Ok p) ->
  ps_authority (st_state s') = sm_authority (nbp_stamp p) /\
  exists ns q, ps_names (st_state s') = Some ns /\
    SignedNameBinding_verify_committed (nm_anchor ns) (au_key (ps_authority (st_state s'))) = Ok q /\
    nbp_stamp q = nbp_stamp p /\ nm_hashes ns !! name = Some (blake3_hash (nb_payload snap)).
Proof.
  unfold accept_name. intros K.
  destruct (name_decision s snap name now) as [[p0 [[names lease]|]]|] eqn:Ed; [| |done].
  - match type of K with (let (_, _) := PolicyStore_commit ?a ?n ?u ?i in _) = _ =>
      pose proof (commit_result a n u i) as Hr; destruct (PolicyStore_commit a n u i) as [s1 [u1|]] end;
      [|done].
    injection K as -> ->. destruct Hr as [-> _].
    apply name_decision_ok in Ed as (_ & Hv & Hst & hashes & -> & _ & _).
    simpl. apply check_stamp_ok in Hst. split; [done|].
    eexists _, p. split; [done|]. simpl. split; [by eapply name_verify_committed|].
    split; [done|]. apply lookup_insert_eq.
  - injection K as <- <-. unfold name_decision in Ed.
    destruct (check_clock s now); [|done].
    destruct (Authority_verifying_key _) as [key|] eqn:E1; [|done].
    pose proof (proj1 (Authority_verifying_key_ok _ _) E1) as (-> & _ & _).
    destruct (SignedNameBinding_verify snap _ _ _) as [p'|] eqn:E2; [|done].
    destruct (check_stamp _ _) as [[]|] eqn:E3; [|done]. apply check_stamp_ok in E3.
    destruct (ps_names (st_state s)) as [ns|] eqn:En; [|by destruct (Lease_new _ _ _)].
    destruct (SignedNameBinding_verify_committed _ _) as [old|] eqn:Eo; [|done].
    destruct (bool_decide (nbp_stamp old = nbp_stamp p')) eqn:E4; simpl in Ed.
    + destruct (negb (is_some_and _ _)); [done|]. destruct (_ || _ || _); [done|].
      destruct (nm_hashes ns !! name) as [prev|] eqn:E6; [|by destruct (MAX_NAMES <=? _)].
      destruct (bool_decide (prev = _)) eqn:E7; [|done]. injection Ed as <-. b2p. subst prev.
      split; [done|]. exists ns, old. auto.
    + destruct (SnapshotStamp_newer_than _ _); [|done]. destruct (Lease_new _ _ _); [|done].
      by destruct (MAX_NAMES <=? _).
Qed.

(** No equivocation about a name.  If a store accepted a proof for a name, then after
    any further operations a second accepted proof for that name with the same stamp
    has the same digest: within one revision a name cannot be bound twice. *)
Theorem name_binding_unique s snap1 snap2 name now1 now2 io1 io2 ops s1 s2 p1 p2 :
  accept_name s snap1 name now1 io1 = (s1, Ok p1) ->
  accept_name (foldl policy_op s1 ops) snap2 name now2 io2 = (s2, Ok p2) ->
  nbp_stamp p2 = nbp_stamp p1 ->
  blake3_hash (nb_payload snap2) = blake3_hash (nb_payload snap1).
Proof.
  intros K1 K2 Es. apply accept_name_current in K1 as (A1 & n1 & q1 & N1 & Q1 & S1 & H1').
  assert (R : name_recorded (st_state s2) name (nbp_stamp p1) (blake3_hash (nb_payload snap1))).
  { replace s2 with (policy_op (foldl policy_op s1 ops) (OpName snap2 name now2 io2))
      by (simpl; by rewrite K2).
    apply name_recorded_op, name_recorded_run. right. split; [done|]. exists n1, q1. auto. }
  apply accept_name_current in K2 as (A2 & n2 & q2 & N2 & Q2 & S2 & H2').
  rewrite Es in A2, S2. destruct R as [R|(_ & ns & q & N & Q & C)]; [rewrite A2 in R; lia|].
  assert (ns = n2) as -> by congruence. assert (q = q2) as -> by congruence.
  destruct C as [[_ C]|C]; [congruence|]. rewrite S2 in C. lia.
Qed.

End Validity.

(** ** Witnesses *)

#[local] Existing Instance wa_ed.
#[local] Existing Instance wa_hash.
#[local] Existing Instance wa_codec_binding.
#[local] Existing Instance wa_codec_registry.
#[local] Existing Instance wa_codec_revocations.
#[local] Instance wp_codec_rotation : Postcard RotationPayload :=
  {| to_stdvec _ := Err "unused"%string; take_from_bytes _ := Err "unused"%string |}.
#[local] Instance wp_codec_state : Postcard PState :=
  {| to_stdvec _ := Ok (bs "state"); take_from_bytes _ := Err "unused"%string |}.

Definition wp_boot : Authority := mkAuthority wa_key 1.
Definition wp_now : Reading := mkReading boot3 1100000000000 10000000000.
Definition wp_lease : Lease :=
  mkLease boot3 1000 1200 1100000000000 10000000000 110000000000.
Definition wp_state0 : PState := State_empty wp_boot.
Definition wp_state1 : PState :=
  mkPState 1 wp_boot wp_boot [] 1100 None (Some wa_signed_revocations) None None
    (Some wp_lease) None.
Definition wp_digest : bytes := toy_blake3 (bs "state").
#[local] Instance wp_json : SerdeJson Envelope :=
  toy_json_table [(mkEnvelope wp_state0 wp_digest, bs "e0");
                  (mkEnvelope wp_state1 wp_digest, bs "e1")].

Lemma wp_json_laws : SerdeJsonLaws Envelope.
Proof. apply toy_json_laws. apply (bool_decide_eq_true_1 _). vm_compute. reflexivity. Qed.

Definition wp_store0 : PolicyStore :=
  mkStore wp_state0 (Some (Some (bs "e0"))) false (Summary_empty 1 true).
Definition wp_op : PolicyOp := OpRevocations wa_signed_revocations wp_now (Ok tt) IoDone.

Lemma wp_opened : opened wp_boot wp_store0.
Proof.
  apply (opened_file wp_boot wp_store0 (Ok tt) (Ok None) (Ok false) (Ok tt) (Ok tt) wp_now).
  - intros b K. discriminate K.
  - vm_compute. reflexivity.
Qed.

Lemma policy_reopens_witness :
  st_disk (foldl policy_op wp_store0 [wp_op]) = Some (Some (bs "e1")) /\
  exists b st, Some (bs "e1") = Some b /\ st = st_state (foldl policy_op wp_store0 [wp_op]).
Proof.
  assert (D : st_disk (foldl policy_op wp_store0 [wp_op]) = Some (Some (bs "e1")))
    by (vm_compute; reflexivity).
  assert (F : st_failed (foldl policy_op wp_store0 [wp_op]) = false)
    by (vm_compute; reflexivity).
  split; [exact D|].
  destruct (policy_reopens wp_boot wp_store0 [wp_op] (Some (bs "e1")) wp_json_laws wp_opened D)
    as (b & st & Hb & Hst & _).
  exists b, st. split; [exact Hb|exact (Hst F)].
Defined.

Definition wp_store1 : PolicyStore := policy_op wp_store0 wp_op.

Lemma accept_revocations_witness :
  exists p l, PolicyStore_revocations wp_store1 wp_now
    = Ok (Some (wa_signed_revocations, p, l)).
Proof.
  assert (K : accept_revocations_admitted wp_store0 wa_signed_revocations wp_now (Ok tt) IoDone
    = (wp_store1, Ok true)) by (vm_compute; reflexivity).
  destruct (accept_revocations_outcome _ _ _ _ _ _ _ K) as (p & l & E & _).
  exists p, l. exact E.
Defined.

Lemma served_revocations_witness :
  PolicyStore_revocations (foldl policy_op wp_store0 [wp_op]) wp_now
    = Ok (Some (wa_signed_revocations, wa_revocations, wp_lease)) /\
  sm_authority (rvp_stamp wa_revocations) = wp_boot.
Proof.
  assert (K : PolicyStore_revocations (foldl policy_op wp_store0 [wp_op]) wp_now
    = Ok (Some (wa_signed_revocations, wa_revocations, wp_lease))) by (vm_compute; reflexivity).
  split; [exact K|].
  destruct (served_revocations_sound wp_boot wp_store0 [wp_op] wp_now wa_signed_revocations
    wa_revocations wp_lease wp_json_laws wp_opened K) as (_ & _ & _ & A & _).
  rewrite A. vm_compute. reflexivity.
Defined.

Definition wp_memory : PolicyStore :=
  mkStore wp_state0 None false (Summary_empty 1 false).
Definition wp_proof : SignedNameBinding :=
  mkSignedBinding (bs "binding-host") (ed_sign wa_key (NAME_DOMAIN ++ bs "binding-host")).
Definition wp_named : PolicyStore := policy_op wp_memory (OpName wp_proof (bs "host") wp_now IoDone).

Lemma name_binding_witness :
  accept_name wp_memory wp_proof (bs "host") wp_now IoDone = (wp_named, Ok wa_binding) /\
  blake3_hash (nb_payload wp_proof) = blake3_hash (nb_payload wp_proof).
Proof.
  assert (K1 : accept_name wp_memory wp_proof (bs "host") wp_now IoDone
    = (wp_named, Ok wa_binding)) by (vm_compute; reflexivity).
  assert (K2 : accept_name (foldl policy_op wp_named []) wp_proof (bs "host") wp_now IoDone
    = (wp_named, Ok wa_binding)) by (vm_compute; reflexivity).
  split; [exact K1|].
  exact (name_binding_unique wp_memory wp_proof wp_proof (bs "host") wp_now wp_now IoDone IoDone
    [] wp_named wp_named wa_binding wa_binding K1 K2 eq_refl).
Defined.
