(* ===== verification/RecordWire.v ===== *)
(** * Endpoint records

    Models [src/crates/rds-discovery/src/record_wire.rs], the signed publications and
    deletions of an endpoint, and [relay_route.rs], the locator of an owned relay.
    Parsing URLs is the [url] crate's: a class gives the parts the code reads. *)

From S2P Require Import Prelude Discovery Clock Paths Net Crypto Authority.

Definition RECORD_VERSION : Z := 1.
Definition MAX_RECORD_TTL : Z := 3600.
Definition DELETE_TTL : Z := 300.
Definition MAX_RECORD_BYTES : Z := 8192.
Definition MAX_DIRECT_ADDRS : Z := 32.
Definition MAX_RELAY_URLS : Z := 8.
Definition MAX_RELAY_URL_BYTES : Z := 512.
Definition RECORD_DOMAIN : bytes := bs "rds/endpoint-record/v1" ++ ["000"%char].
Definition DELETE_DOMAIN : bytes := bs "rds/endpoint-delete/v1" ++ ["000"%char].

(** ** Data *)

Record SocketAddr : Type := mkSocketAddr { sa_ip : IpAddr; sa_port : Z }.

Record EndpointRecord : Type := mkEndpointRecord {
  er_key : EndpointKey;
  er_payload : bytes;
  er_signature : bytes
}.
(** [Payload]. *)
Record RecordPayload : Type := mkRecordPayload {
  pl_version : Z;
  pl_key : EndpointKey;
  pl_revision : Z;
  pl_addrs : list SocketAddr;
  pl_relay_urls : list bytes;
  pl_services : list Service;
  pl_issued_at : Z;
  pl_expires_at : Z
}.
Record DeleteRequest : Type := mkDeleteRequest {
  dr_key : EndpointKey;
  dr_payload : bytes;
  dr_signature : bytes
}.
Record DeletePayload : Type := mkDeletePayload {
  dp_version : Z;
  dp_key : EndpointKey;
  dp_revision : Z;
  dp_issued_at : Z;
  dp_expires_at : Z
}.

#[export] Instance SocketAddr_eq_dec : EqDecision SocketAddr.
Proof. solve_decision. Defined.
#[export] Instance EndpointRecord_eq_dec : EqDecision EndpointRecord.
Proof. solve_decision. Defined.
#[export] Instance RecordPayload_eq_dec : EqDecision RecordPayload.
Proof. solve_decision. Defined.
#[export] Instance DeleteRequest_eq_dec : EqDecision DeleteRequest.
Proof. solve_decision. Defined.
#[export] Instance DeletePayload_eq_dec : EqDecision DeletePayload.
Proof. solve_decision. Defined.

(** [url::Url]: the parts of a parsed URL that the code reads. *)
Inductive UrlHost : Type := HostIpv4 (ip : IpAddr) | HostIpv6 (ip : IpAddr) | HostDomain (name : bytes).
Record Url : Type := mkUrl {
  u_scheme : bytes;
  u_username : bytes;
  u_password : option bytes;
  u_host : option UrlHost;
  u_port : option Z;
  u_port_or_known_default : option Z;
  u_path : bytes;
  u_query : option bytes;
  u_fragment : option bytes
}.
Class UrlLibrary : Type := url_parse : bytes -> option Url.

(** ** Owned relay routes *)

Record OwnedRelayRoute : Type := mkRelayRoute { rr_key : EndpointKey; rr_addr : SocketAddr }.

Definition is_ascii_hexdigit (c : ascii) : bool := is_some (to_digit 16 c).

(** [u8::from_str_radix(pair, 16)] for each pair of digits. *)
Fixpoint hex_decode (s : bytes) : option bytes :=
  match s with
  | [] => Some []
  | [_] => None
  | a :: b :: s =>
      match to_digit 16 a, to_digit 16 b, hex_decode s with
      | Some x, Some y, Some rest => Some (ascii_of_N (Z.to_N (x * 16 + y)) :: rest)
      | _, _, _ => None
      end
  end.

Section WithLibraries.
Context `{Ed25519, UrlLibrary}.

(** [OwnedRelayRoute::from_str]. *)
Definition OwnedRelayRoute_from_str (raw : bytes) : result OwnedRelayRoute DiscoveryError :=
  if MAX_RELAY_URL_BYTES <? zlen raw then Err (invalid "owned relay locator exceeds limit") else
  let? url := ok_or (url_parse raw) (invalid "invalid owned relay locator") in
  if negb (bool_decide (u_scheme url = bs "rds-relay")) || is_some (u_password url)
     || negb (bool_decide (u_path url = []) || bool_decide (u_path url = bs "/"))
     || is_some (u_query url) || is_some (u_fragment url)
  then Err (invalid "invalid owned relay locator fields") else
  let identity := u_username url in
  if negb (zlen identity =? 64) || negb (forallb is_ascii_hexdigit identity)
  then Err (invalid "owned relay requires a 32-byte hex identity") else
  let? key := ok_or (hex_decode identity) (invalid "invalid owned relay identity") in
  let? _ := map_err (fun _ => invalid "invalid owned relay identity") (vk_from_bytes key) in
  let? host := ok_or (u_host url) (invalid "missing relay host") in
  let? ip := match host with
             | HostIpv4 ip | HostIpv6 ip => Ok ip
             | HostDomain name =>
                 ok_or (parse_ip name) (invalid "owned relay requires an IP literal")
             end in
  let? port := ok_or (u_port url) (invalid "missing owned relay port") in
  if (port =? 0) || is_unspecified ip || is_multicast ip
  then Err (invalid "invalid owned relay socket") else
  Ok (mkRelayRoute key (mkSocketAddr ip port)).

(** ** Validation *)

(** [for (i, x) in l.iter().enumerate()] with a check that sees [l[..i]]. *)
Fixpoint check_prefixes {A} (f : list A -> A -> result unit DiscoveryError) (seen l : list A)
    : result unit DiscoveryError :=
  match l with
  | [] => Ok tt
  | x :: l => let? _ := f seen x in check_prefixes f (seen ++ [x]) l
  end.

(** [metadata]. *)
Definition record_metadata (version revision issued expires ttl : Z) : result unit DiscoveryError :=
  if negb (version =? RECORD_VERSION) || (revision =? 0)
  then Err (invalid "unsupported record version or zero revision") else
  if (expires <=? issued) || (ttl <? expires - issued)
  then Err (invalid "invalid record validity interval") else Ok tt.

Definition check_addr (seen : list SocketAddr) (addr : SocketAddr) : result unit DiscoveryError :=
  if (sa_port addr =? 0) || is_unspecified (sa_ip addr) || is_multicast (sa_ip addr)
     || bool_decide (addr ∈ seen)
  then Err (invalid "invalid or repeated direct address") else Ok tt.

Definition check_relay_url (seen : list bytes) (raw : bytes) : result unit DiscoveryError :=
  if (MAX_RELAY_URL_BYTES <? zlen raw) || bool_decide (raw ∈ seen)
  then Err (invalid "oversized or repeated relay URL") else
  let? url := ok_or (url_parse raw) (invalid "invalid relay URL") in
  if bool_decide (u_scheme url = bs "rds-relay")
  then let? _ := OwnedRelayRoute_from_str raw in Ok tt else
  if negb (bool_decide (u_scheme url = bs "http") || bool_decide (u_scheme url = bs "https"))
     || negb (is_some (u_host url)) || negb (bool_decide (u_username url = []))
     || is_some (u_password url) || negb (bool_decide (u_path url = bs "/"))
     || is_some (u_query url) || is_some (u_fragment url)
     || bool_decide (u_port_or_known_default url = Some 0)
  then Err (invalid "relay must be an HTTP(S) origin without credentials") else Ok tt.

Definition check_service (seen : list Service) (service : Service) : result unit DiscoveryError :=
  if bool_decide (service ∈ seen) then Err (invalid "repeated service") else Ok tt.

(** [Payload::validate]. *)
Definition RecordPayload_validate (p : RecordPayload) : result unit DiscoveryError :=
  let? _ := record_metadata (pl_version p) (pl_revision p) (pl_issued_at p) (pl_expires_at p)
              MAX_RECORD_TTL in
  if (MAX_DIRECT_ADDRS <? zlen (pl_addrs p)) || (MAX_RELAY_URLS <? zlen (pl_relay_urls p))
     || (6 <? zlen (pl_services p))
  then Err (invalid "record collection exceeds limit") else
  let? _ := check_prefixes check_addr [] (pl_addrs p) in
  let? _ := check_prefixes check_relay_url [] (pl_relay_urls p) in
  check_prefixes check_service [] (pl_services p).

(** ** Signing and verifying *)

Context `{Postcard Z, Postcard RecordPayload, Postcard DeletePayload}.

(** [decode]. *)
Definition record_decode (A : Type) `{Postcard A} (b : bytes) : result A DiscoveryError :=
  let? (value, rest) := map_err invalid (take_from_bytes (A := A) b) in
  if negb (bool_decide (rest = [])) then Err (invalid "trailing signed record bytes") else Ok value.

Definition payload_version (b : bytes) : result Z DiscoveryError :=
  let? (version, _) := map_err invalid (take_from_bytes (A := Z) b) in Ok version.

Definition EndpointRecord_sign (payload : RecordPayload) (key : bytes)
    : result EndpointRecord DiscoveryError :=
  let? _ := RecordPayload_validate payload in
  if negb (bool_decide (pl_key payload = verifying_key key)) then Err BadSignature else
  let? b := map_err invalid (to_stdvec payload) in
  if MAX_RECORD_BYTES <? zlen b then Err (invalid "record exceeds wire limit") else
  Ok (mkEndpointRecord (pl_key payload) b (domain_sign RECORD_DOMAIN b key)).

(** [EndpointRecord::publish] at the second [now]. *)
Definition EndpointRecord_publish (key : bytes) (revision : Z) (addrs : list SocketAddr)
    (relay_urls : list bytes) (services : list Service) (ttl : duration) (now : Z)
    : result EndpointRecord DiscoveryError :=
  if negb (ttl mod nanos_per_sec =? 0)
  then Err (invalid "record TTL requires whole seconds") else
  let? expires_at := ok_or (checked_add64 now (as_secs ttl)) (invalid "TTL overflow") in
  EndpointRecord_sign (mkRecordPayload RECORD_VERSION (verifying_key key) revision addrs
    relay_urls services now expires_at) key.

(** [EndpointRecord::verify]. *)
Definition EndpointRecord_verify (r : EndpointRecord) : result RecordPayload DiscoveryError :=
  let? _ := map_err (fun _ => BadSignature) (vk_from_bytes (er_key r)) in
  let? _ := domain_verify RECORD_DOMAIN (er_payload r) (er_signature r) (er_key r)
              MAX_RECORD_BYTES in
  let? version := payload_version (er_payload r) in
  if negb (version =? RECORD_VERSION) then Err (invalid "unsupported record version") else
  let? payload := record_decode RecordPayload (er_payload r) in
  if negb (bool_decide (pl_key payload = er_key r)) then Err BadSignature else
  let? _ := RecordPayload_validate payload in
  Ok payload.

Definition EndpointRecord_verify_fresh_at (r : EndpointRecord) (now : Z)
    : result RecordPayload DiscoveryError :=
  let? payload := EndpointRecord_verify r in
  let? _ := lifetime (pl_issued_at payload) (pl_expires_at payload) now MAX_RECORD_TTL in
  Ok payload.

Definition DeleteRequest_sign (payload : DeletePayload) (key : bytes)
    : result DeleteRequest DiscoveryError :=
  let? _ := record_metadata (dp_version payload) (dp_revision payload) (dp_issued_at payload)
              (dp_expires_at payload) DELETE_TTL in
  if negb (bool_decide (dp_key payload = verifying_key key)) then Err BadSignature else
  let? b := map_err invalid (to_stdvec payload) in
  Ok (mkDeleteRequest (dp_key payload) b (domain_sign DELETE_DOMAIN b key)).

(** [DeleteRequest::new] at the second [now]. *)
Definition DeleteRequest_new (key : bytes) (revision now : Z)
    : result DeleteRequest DiscoveryError :=
  let? expires_at := ok_or (checked_add64 now DELETE_TTL) (invalid "TTL overflow") in
  DeleteRequest_sign (mkDeletePayload RECORD_VERSION (verifying_key key) revision now expires_at)
    key.

Definition DeleteRequest_verify (r : DeleteRequest) : result DeletePayload DiscoveryError :=
  let? _ := map_err (fun _ => BadSignature) (vk_from_bytes (dr_key r)) in
  let? _ := domain_verify DELETE_DOMAIN (dr_payload r) (dr_signature r) (dr_key r) 128 in
  let? version := payload_version (dr_payload r) in
  if negb (version =? RECORD_VERSION) then Err (invalid "unsupported record version") else
  let? payload := record_decode DeletePayload (dr_payload r) in
  if negb (bool_decide (dp_key payload = dr_key r)) then Err BadSignature else
  let? _ := record_metadata (dp_version payload) (dp_revision payload) (dp_issued_at payload)
              (dp_expires_at payload) DELETE_TTL in
  Ok payload.

Definition DeleteRequest_verify_fresh_at (r : DeleteRequest) (now : Z)
    : result DeletePayload DiscoveryError :=
  let? payload := DeleteRequest_verify r in
  let? _ := lifetime (dp_issued_at payload) (dp_expires_at payload) now DELETE_TTL in
  Ok payload.

End WithLibraries.

(** ** What the checks mean *)

Section Sound.
Context `{Ed25519, UrlLibrary, Postcard Z, Postcard RecordPayload, Postcard DeletePayload}.

Lemma record_metadata_ok version revision issued expires ttl :
  record_metadata version revision issued expires ttl = Ok tt <->
  version = RECORD_VERSION /\ revision <> 0 /\ 0 < expires - issued <= ttl.
Proof.
  unfold record_metadata. destruct (negb _ || _) eqn:E; b2p; [naive_solver|].
  destruct (_ || _) eqn:E2; b2p; naive_solver lia.
Qed.

(** A loop of checks that each refuse a repetition accepts distinct, good elements. *)
Lemma check_prefixes_ok {A} (f : list A -> A -> result unit DiscoveryError) (good : A -> Prop) seen l :
  (forall seen x, f seen x = Ok tt <-> good x /\ x ∉ seen) -> NoDup seen ->
  check_prefixes f seen l = Ok tt <-> Forall good l /\ NoDup (seen ++ l).
Proof.
  intros Hf. revert seen. induction l as [|x l IH]; intros seen Hs; simpl.
  - rewrite app_nil_r. naive_solver.
  - destruct (f seen x) as [[]|e] eqn:E.
    + apply Hf in E as [G N]. rewrite IH.
      * rewrite <-app_assoc, Forall_cons. naive_solver.
      * apply NoDup_app. split_and!; [done| |apply NoDup_singleton]. set_solver.
    + split; [done|]. intros [F D]. apply Forall_cons in F as [G _].
      assert (K : f seen x = Ok tt); [|congruence].
      apply Hf. split; [done|]. apply NoDup_app in D as (_ & D & _). intros I. apply (D x I). left.
Qed.

Definition addr_ok (a : SocketAddr) : Prop :=
  sa_port a <> 0 /\ is_unspecified (sa_ip a) = false /\ is_multicast (sa_ip a) = false.
Lemma check_addr_ok seen a : check_addr seen a = Ok tt <-> addr_ok a /\ a ∉ seen.
Proof.
  unfold check_addr, addr_ok. destruct (_ || _) eqn:E; b2p; intuition congruence.
Qed.

(** An HTTP(S) origin without credentials, or an owned relay. *)
Definition relay_url_ok (raw : bytes) : Prop :=
  zlen raw <= MAX_RELAY_URL_BYTES /\ check_relay_url [] raw = Ok tt.
Lemma check_relay_url_ok seen raw : check_relay_url seen raw = Ok tt <-> relay_url_ok raw /\ raw ∉ seen.
Proof.
  unfold relay_url_ok, check_relay_url.
  destruct (MAX_RELAY_URL_BYTES <? zlen raw) eqn:E; b2p; simpl; [naive_solver lia|].
  destruct (decide (raw ∈ seen)).
  - rewrite bool_decide_eq_true_2 by done. naive_solver.
  - rewrite bool_decide_eq_false_2 by done. naive_solver.
Qed.

Lemma check_service_ok seen s : check_service seen s = Ok tt <-> True /\ s ∉ seen.
Proof. unfold check_service. case_bool_decide; naive_solver. Qed.

(** A well-formed payload. *)
Record record_ok (p : RecordPayload) : Prop := {
  rk_version : pl_version p = RECORD_VERSION;
  rk_revision : pl_revision p <> 0;
  rk_interval : 0 < pl_expires_at p - pl_issued_at p <= MAX_RECORD_TTL;
  rk_bounds : zlen (pl_addrs p) <= MAX_DIRECT_ADDRS /\ zlen (pl_relay_urls p) <= MAX_RELAY_URLS
    /\ zlen (pl_services p) <= 6;
  rk_addrs : Forall addr_ok (pl_addrs p) /\ NoDup (pl_addrs p);
  rk_urls : Forall relay_url_ok (pl_relay_urls p) /\ NoDup (pl_relay_urls p);
  rk_services : NoDup (pl_services p)
}.

Lemma RecordPayload_validate_ok p : RecordPayload_validate p = Ok tt <-> record_ok p.
Proof.
  unfold RecordPayload_validate. destruct (record_metadata _ _ _ _ _) as [[]|] eqn:M.
  2:{ split; [done|]. intros [K1 K2 K3 _ _ _ _]. rewrite (proj2 (record_metadata_ok _ _ _ _ _)) in M; done. }
  apply record_metadata_ok in M as (M1 & M2 & M3).
  destruct (_ || _) eqn:B; b2p. { split; [done|]. intros [_ _ _ K _ _ _]. lia. }
  pose proof (check_prefixes_ok check_addr addr_ok [] (pl_addrs p) check_addr_ok NoDup_nil_2) as C1.
  pose proof (check_prefixes_ok check_relay_url relay_url_ok [] (pl_relay_urls p) check_relay_url_ok
    NoDup_nil_2) as C2.
  pose proof (check_prefixes_ok check_service (fun _ => True) [] (pl_services p) check_service_ok
    NoDup_nil_2) as C3. simpl in C1, C2, C3.
  destruct (check_prefixes check_addr _ _) as [[]|] eqn:E1.
  2:{ split; [done|]. intros [_ _ _ _ K _ _]. apply C1 in K. done. }
  destruct (check_prefixes check_relay_url _ _) as [[]|] eqn:E2.
  2:{ split; [done|]. intros [_ _ _ _ _ K _]. apply C2 in K. done. }
  rewrite C3. split.
  - intros [_ K]. split; try done; [lia|by apply C1|by apply C2].
  - intros [_ _ _ _ _ _ K]. split; [by apply Forall_true|done].
Qed.

Lemma payload_version_ok b v :
  payload_version b = Ok v <-> exists rest, take_from_bytes (A := Z) b = Ok (v, rest).
Proof. unfold payload_version. destruct (take_from_bytes b) as [[x r]|]; simpl; naive_solver. Qed.
Lemma record_decode_ok {A} `{Postcard A} b (a : A) :
  record_decode A b = Ok a <-> take_from_bytes b = Ok (a, []).
Proof.
  unfold record_decode. destruct (take_from_bytes b) as [[x r]|]; simpl; [|naive_solver].
  case_bool_decide; simpl; naive_solver.
Qed.

(** What a verified record proves: its key signed exactly these bytes. *)
Lemma EndpointRecord_verify_ok r p :
  EndpointRecord_verify r = Ok p <->
  vk_from_bytes (er_key r) = Ok tt /\ zlen (er_payload r) <= MAX_RECORD_BYTES
  /\ length (er_signature r) = 64%nat
  /\ verify_strict (er_key r) (RECORD_DOMAIN ++ er_payload r) (er_signature r) = true
  /\ (exists rest, take_from_bytes (A := Z) (er_payload r) = Ok (RECORD_VERSION, rest))
  /\ take_from_bytes (er_payload r) = Ok (p, []) /\ pl_key p = er_key r /\ record_ok p.
Proof.
  unfold EndpointRecord_verify. rewrite <-record_decode_ok, <-payload_version_ok.
  destruct (vk_from_bytes (er_key r)) as [[]|]; simpl; [|naive_solver].
  destruct (domain_verify _ _ _ _ _) as [[]|] eqn:D.
  2:{ split; [done|]. intros (_ & K1 & K2 & K3 & _). simpl in D.
      rewrite (proj2 (domain_verify_ok _ _ _ _ _)) in D; done. }
  apply domain_verify_ok in D.
  destruct (payload_version _) as [v|]; simpl; [|naive_solver].
  destruct (v =? RECORD_VERSION) eqn:V; b2p; simpl; [|naive_solver]. subst v.
  destruct (record_decode _ _) as [q|]; simpl; [|naive_solver].
  case_bool_decide; simpl; [|naive_solver].
  destruct (RecordPayload_validate q) as [[]|] eqn:E; simpl.
  - apply RecordPayload_validate_ok in E. naive_solver.
  - split; [done|]. intros (_ & _ & _ & _ & _ & [= ->] & _ & K%RecordPayload_validate_ok). congruence.
Qed.

Lemma DeleteRequest_verify_ok r p :
  DeleteRequest_verify r = Ok p <->
  vk_from_bytes (dr_key r) = Ok tt /\ zlen (dr_payload r) <= 128
  /\ length (dr_signature r) = 64%nat
  /\ verify_strict (dr_key r) (DELETE_DOMAIN ++ dr_payload r) (dr_signature r) = true
  /\ (exists rest, take_from_bytes (A := Z) (dr_payload r) = Ok (RECORD_VERSION, rest))
  /\ take_from_bytes (dr_payload r) = Ok (p, []) /\ dp_key p = dr_key r
  /\ dp_version p = RECORD_VERSION /\ dp_revision p <> 0
  /\ 0 < dp_expires_at p - dp_issued_at p <= DELETE_TTL.
Proof.
  unfold DeleteRequest_verify. rewrite <-record_decode_ok, <-payload_version_ok.
  destruct (vk_from_bytes (dr_key r)) as [[]|]; simpl; [|naive_solver].
  destruct (domain_verify _ _ _ _ _) as [[]|] eqn:D.
  2:{ split; [done|]. intros (_ & K1 & K2 & K3 & _). simpl in D.
      rewrite (proj2 (domain_verify_ok _ _ _ _ _)) in D; done. }
  apply domain_verify_ok in D.
  destruct (payload_version _) as [v|]; simpl; [|naive_solver].
  destruct (v =? RECORD_VERSION) eqn:V; b2p; simpl; [|naive_solver]. subst v.
  destruct (record_decode _ _) as [q|]; simpl; [|naive_solver].
  case_bool_decide; simpl; [|naive_solver].
  destruct (record_metadata _ _ _ _ _) as [[]|] eqn:E; simpl.
  - apply record_metadata_ok in E. naive_solver.
  - split; [done|]. intros (_ & _ & _ & _ & _ & [= ->] & _ & K).
    apply record_metadata_ok in K. congruence.
Qed.

(** ** An honest publication *)

(** The version is the first field of a payload, which the encoding keeps in front. *)
Class VersionFirst (A : Type) `{Postcard A} (version : A -> Z) : Prop :=
  version_first : forall a b, to_stdvec a = Ok b -> exists rest,
    take_from_bytes (A := Z) b = Ok (version a, rest).

Context `{!Ed25519Laws, !PostcardLaws RecordPayload, !VersionFirst RecordPayload pl_version}.
Context `{!PostcardLaws DeletePayload, !VersionFirst DeletePayload dp_version}.

Lemma EndpointRecord_sign_ok p key r :
  EndpointRecord_sign p key = Ok r -> EndpointRecord_verify r = Ok p /\ er_key r = verifying_key key.
Proof.
  unfold EndpointRecord_sign. destruct (RecordPayload_validate p) as [[]|] eqn:V; [|done]. simpl.
  case_bool_decide as K; [|done]. simpl. destruct (to_stdvec p) as [b|] eqn:B; [|done]. simpl.
  destruct (MAX_RECORD_BYTES <? zlen b) eqn:L; [done|]. intros [= <-]. b2p. simpl. split; [|done].
  apply EndpointRecord_verify_ok. simpl. rewrite K.
  pose proof (domain_verify_sign RECORD_DOMAIN b key MAX_RECORD_BYTES L) as D.
  apply domain_verify_ok in D as (_ & D1 & D2).
  assert (pl_version p = RECORD_VERSION) as Ev by (apply RecordPayload_validate_ok in V; apply V).
  split_and!; try done.
  - apply vk_of_signing.
  - rewrite <-Ev. by apply (version_first p).
  - rewrite <-(app_nil_r b). by apply (take_to_stdvec p).
  - by apply RecordPayload_validate_ok.
Qed.

Lemma DeleteRequest_sign_ok p key r :
  zlen (dr_payload r) <= 128 ->
  DeleteRequest_sign p key = Ok r -> DeleteRequest_verify r = Ok p /\ dr_key r = verifying_key key.
Proof.
  unfold DeleteRequest_sign. intros Hl. destruct (record_metadata _ _ _ _ _) as [[]|] eqn:V; [|done]. simpl.
  case_bool_decide as K; [|done]. simpl. destruct (to_stdvec p) as [b|] eqn:B; [|done].
  intros [= <-]. simpl in *. split; [|done]. apply DeleteRequest_verify_ok. simpl. rewrite K.
  pose proof (domain_verify_sign DELETE_DOMAIN b key 128 Hl) as D.
  apply domain_verify_ok in D as (_ & D1 & D2). apply record_metadata_ok in V as (V1 & V2 & V3 & V4).
  split_and!; try done.
  - apply vk_of_signing.
  - rewrite <-V1. by apply (version_first p).
  - rewrite <-(app_nil_r b). by apply (take_to_stdvec p).
Qed.

(** A record published at a second verifies as fresh at every second of its lifetime and
    at no other. *)
Theorem record_publish_verifies key revision addrs relay_urls services ttl now r t :
  EndpointRecord_publish key revision addrs relay_urls services ttl now = Ok r ->
  exists p, EndpointRecord_verify r = Ok p
    /\ p = mkRecordPayload RECORD_VERSION (verifying_key key) revision addrs relay_urls services
             now (now + as_secs ttl)
    /\ (EndpointRecord_verify_fresh_at r t = Ok p <-> now <= t < now + as_secs ttl).
Proof.
  unfold EndpointRecord_publish. destruct (negb _); [done|]. unfold checked_add64.
  destruct (_ <=? _); [|done]. simpl. intros S.
  destruct (EndpointRecord_sign_ok _ _ _ S) as [V _]. eexists. split_and!; [exact V|done|].
  pose proof V as (_ & _ & _ & _ & _ & _ & _ & K)%EndpointRecord_verify_ok.
  pose proof (rk_interval _ K) as Ki. simpl in Ki.
  unfold EndpointRecord_verify_fresh_at. rewrite V. simpl.
  pose proof (lifetime_ok now (now + as_secs ttl) t MAX_RECORD_TTL) as L.
  destruct (lifetime now (now + as_secs ttl) t MAX_RECORD_TTL) as [[]|]; simpl.
  - split; [|done]. intros _. by apply L.
  - split; [done|]. intros R. assert (@Err unit _ e = Ok tt) by (apply L; lia). done.
Qed.
End Sound.

(** ** Witness *)

Module RecordWitness.
Definition key : bytes := replicate 32 "k"%char.
Definition addr : SocketAddr := mkSocketAddr (V4 192 0 2 7) 4433.
Definition payload : RecordPayload :=
  mkRecordPayload RECORD_VERSION key 7 [addr] [] [] 100 160.
Definition wire : bytes := bs "3p".
#[local] Instance w_ed : Ed25519 := toy_ed25519.
#[local] Instance w_url : UrlLibrary := fun _ => None.
#[local] Instance w_z : Postcard Z := toy_postcard [(RECORD_VERSION, bs "3")].
#[local] Instance w_payload : Postcard RecordPayload := toy_postcard [(payload, wire)].
#[local] Instance w_delete : Postcard DeletePayload := toy_postcard [].
#[local] Instance w_ed_laws : Ed25519Laws := toy_ed25519_laws.
#[local] Instance w_payload_laws : PostcardLaws RecordPayload := toy_postcard_laws _ _.
#[local] Instance w_version : VersionFirst RecordPayload pl_version.
Proof.
  intros a b. simpl. destruct (decide (payload = a)) as [<-|]; [|done]. intros [= <-]. by eexists.
Qed.
Definition record : EndpointRecord :=
  mkEndpointRecord key wire (toy_signature key (RECORD_DOMAIN ++ wire)).

(** A record of one minute. *)
Lemma record_publish_verifies_witness :
  EndpointRecord_publish key 7 [addr] [] [] (from_secs 60) 100 = Ok record
  /\ exists p, EndpointRecord_verify record = Ok p
    /\ p = mkRecordPayload RECORD_VERSION (verifying_key key) 7 [addr] [] [] 100 (100 + as_secs (from_secs 60))
    /\ (EndpointRecord_verify_fresh_at record 130 = Ok p <-> 100 <= 130 < 100 + as_secs (from_secs 60)).
Proof.
  assert (E : EndpointRecord_publish key 7 [addr] [] [] (from_secs 60) 100 = Ok record)
    by (vm_compute; reflexivity).
  split; [exact E|]. exact (record_publish_verifies _ _ _ _ _ _ _ _ 130 E).
Defined.
End RecordWitness.
