(* ===== verification/Records.v ===== *)
(** * Record entries and the in-memory store

    Models [src/crates/rds-discovery/src/records/entry.rs], the decision a store takes
    on one access to an identity, and [records/memory.rs], the ephemeral store.  The
    admission callback of a store is a function on a state of its own. *)

From S2P Require Import Prelude Discovery Clock Crypto Authority RecordWire.

Definition MAX_CELL : Z := 256 * 1024.
Definition MAX_IDENTITIES : Z := 4096.
Definition GC_BATCH : nat := 64.

(** [records::error]. *)
Definition store_error (message : string) : DiscoveryError := Store message.

(** ** Entries *)

(** [Entry]. *)
Inductive RecordEntry : Type := RecRecord (r : EndpointRecord) | RecDeleted (d : DeleteRequest).

Inductive Stored : Type :=
| StActive (entry : RecordEntry) (lease : Lease)
| StRetired (revision : Z) (digest : bytes) (deleted : bool).

#[export] Instance RecordEntry_eq_dec : EqDecision RecordEntry.
Proof. solve_decision. Defined.
#[export] Instance Stored_eq_dec : EqDecision Stored.
Proof. solve_decision. Defined.

Definition stored_live (s : Stored) : bool :=
  match s with StActive (RecRecord _) _ => true | _ => false end.
Definition stored_accepted_wall (s : Stored) : duration :=
  match s with StActive _ lease => ls_accepted_wall lease | StRetired _ _ _ => 0 end.
(** [Stored::read]. *)
Definition stored_read (s : Stored) : result (option EndpointRecord) DiscoveryError :=
  match s with
  | StActive (RecRecord record) _ => Ok (Some record)
  | StRetired _ _ false => Err DExpired
  | _ => Err NotFound
  end.

(** [Decision]. *)
Record AccessDecision : Type := mkDecision {
  de_replacement : option Stored;
  de_result : result (option EndpointRecord) DiscoveryError
}.

(** [observe]: the wall clock of a store never runs back. *)
Definition observe (floor observed : duration) (now : Reading) : result duration DiscoveryError :=
  if (rd_wall now <? floor) || (rd_wall now <? observed)
  then Err (store_error "record store wall clock moved backwards")
  else Ok (rd_wall now).

Section WithLibraries.
Context `{Ed25519, UrlLibrary, Blake3, Postcard Z, Postcard RecordPayload, Postcard DeletePayload}.
Context `{Postcard RecordEntry}.

(** [Entry::details]: revision, issue and expiry. *)
Definition entry_details (e : RecordEntry) (key : EndpointKey) : result (Z * Z * Z) DiscoveryError :=
  let? d := match e with
            | RecRecord record =>
                let? p := EndpointRecord_verify record in
                Ok (pl_key p, (pl_revision p, pl_issued_at p, pl_expires_at p))
            | RecDeleted tomb =>
                let? p := DeleteRequest_verify tomb in
                Ok (dp_key p, (dp_revision p, dp_issued_at p, dp_expires_at p))
            end in
  if negb (bool_decide (d.1 = key)) then Err BadSignature else Ok d.2.

Definition entry_digest (e : RecordEntry) : result bytes DiscoveryError :=
  let? b := map_err store_error (to_stdvec e) in Ok (blake3_hash b).

(** [Stored::verify]. *)
Definition stored_verify (s : Stored) (key : EndpointKey) : result Z DiscoveryError :=
  match s with
  | StActive entry lease =>
      let? d := entry_details entry key in
      let '(revision, issued, expires) := d in
      if negb (Lease_matches_interval lease issued expires)
      then Err (store_error "stored record lease disagrees with signed interval")
      else Ok revision
  | StRetired revision _ _ =>
      let? _ := map_err (fun _ => BadSignature) (vk_from_bytes key) in
      if revision =? 0 then Err (store_error "retired record has no revision floor")
      else Ok revision
  end.

Definition stored_digest (s : Stored) : result bytes DiscoveryError :=
  match s with
  | StActive entry _ => entry_digest entry
  | StRetired _ digest _ => Ok digest
  end.

(** [Stored::retire]. *)
Definition stored_retire (s : Stored) (key : EndpointKey) (now : Reading)
    : result (option Stored) DiscoveryError :=
  match s with
  | StActive entry lease =>
      if Lease_valid_at lease now then Ok None else
      let? revision := stored_verify s key in
      let? digest := entry_digest entry in
      Ok (Some (StRetired revision digest (match entry with RecDeleted _ => true | _ => false end)))
  | StRetired _ _ _ => Ok None
  end.

(** [decide]. *)
Definition decide_access (old : option Stored) (incoming : option RecordEntry) (key : EndpointKey)
    (now : Reading) : result AccessDecision DiscoveryError :=
  let? retired := match old with
                  | Some old => stored_retire old key now
                  | None => Ok None
                  end in
  let current := match retired with Some r => Some r | None => old end in
  match incoming with
  | Some entry =>
      let? d := entry_details entry key in
      let '(revision, issued, expires) := d in
      match Lease_new issued expires now with
      | Err e => Ok (mkDecision retired (Err e))
      | Ok lease =>
          let? previous := match current with
                           | Some s => let? r := stored_verify s key in Ok (Some r)
                           | None => Ok None
                           end in
          if match previous with None => true | Some previous => previous <? revision end
          then Ok (mkDecision (Some (StActive entry lease)) (Ok None)) else
          let? same :=
            (if bool_decide (previous = Some revision) then
               let? digest := match current with
                              | Some s => let? d := stored_digest s in Ok (Some d)
                              | None => Ok None
                              end in
               let? mine := entry_digest entry in
               Ok (bool_decide (digest = Some mine))
             else Ok false) in
          let result :=
            if same then match current with
                         | Some (StRetired _ _ _) => Err DExpired
                         | _ => Ok None
                         end
            else Err DStale in
          Ok (mkDecision retired result)
      end
  | None =>
      Ok (mkDecision retired
            (match current with None => Err NotFound | Some s => stored_read s end))
  end.

(** ** The in-memory store *)

Record MemoryStore : Type := mkMemory {
  ms_entries : gmap bytes Stored;
  ms_observed_wall : duration;
  ms_live : Z;
  ms_cursor : option bytes;
  ms_capacity : Z
}.

Definition MemoryStore_default : MemoryStore := mkMemory ∅ 0 0 None MAX_IDENTITIES.
Definition MemoryStore_with_capacity (identities : Z) : result MemoryStore DiscoveryError :=
  if (identities =? 0) || (MAX_IDENTITIES <? identities)
  then Err (Configuration "record capacity must be 1..=4096 identities")
  else Ok (mkMemory ∅ 0 0 None identities).

Definition set_observed_wall (s : MemoryStore) (w : duration) : MemoryStore :=
  mkMemory (ms_entries s) w (ms_live s) (ms_cursor s) (ms_capacity s).
Definition live_count (s : option Stored) : Z :=
  if is_some_and s stored_live then 1 else 0.

(** [MemoryStore::access_admitted]; [now] is the reading, or the failure to take it. *)
Definition memory_access {L : Type} (s : MemoryStore) (key : EndpointKey)
    (entry : option RecordEntry) (now : result Reading DiscoveryError)
    (admission : bool -> L -> result unit DiscoveryError * L) (l : L)
    : MemoryStore * L * result (option EndpointRecord) DiscoveryError :=
  match now with
  | Err e => (s, l, Err e)
  | Ok now =>
  match observe 0 (ms_observed_wall s) now with
  | Err e => (s, l, Err e)
  | Ok wall =>
      let s := set_observed_wall s wall in
      let old := ms_entries s !! key in
      match decide_access old entry key now with
      | Err e => (s, l, Err e)
      | Ok decision =>
          match de_replacement decision with
          | None => (s, l, de_result decision)
          | Some replacement =>
              if negb (is_some old) && (ms_capacity s <=? Z.of_nat (size (ms_entries s)))
              then (s, l, Err (store_error "record identity capacity exceeded")) else
              let '(allowed, l) :=
                match replacement with
                | StActive _ _ => admission (is_some old) l
                | StRetired _ _ _ => (Ok tt, l)
                end in
              match allowed with
              | Err e => (s, l, Err e)
              | Ok _ =>
                  (mkMemory (<[key := replacement]> (ms_entries s)) (ms_observed_wall s)
                     (ms_live s - live_count old + live_count (Some replacement))
                     (ms_cursor s) (ms_capacity s), l, de_result decision)
              end
          end
      end
  end
  end.

(** The loop of [MemoryStore::collect_at] over the keys of one batch. *)
Fixpoint memory_retire (keys : list bytes) (now : Reading) (entries : gmap bytes Stored)
    (live retired : Z) : gmap bytes Stored * Z * result Z DiscoveryError :=
  match keys with
  | [] => (entries, live, Ok retired)
  | key :: keys =>
      match entries !! key with
      | None => memory_retire keys now entries live retired
      | Some old =>
          match stored_retire old key now with
          | Err e => (entries, live, Err e)
          | Ok None => memory_retire keys now entries live retired
          | Ok (Some floor) =>
              memory_retire keys now (<[key := floor]> entries)
                (live - live_count (Some old)) (retired + 1)
          end
      end
  end.

(** The keys after the cursor, in order, at most a batch. *)
Definition batch_keys {A} (entries : gmap bytes A) (cursor : option bytes) : list bytes :=
  take GC_BATCH (filter (fun k => is_none_or cursor (fun c => bool_decide (bytes_lt c k)) = true)
                   (btree_items entries).*1).

(** [MemoryStore::collect_at]. *)
Definition memory_collect (s : MemoryStore) (now : result Reading DiscoveryError)
    : MemoryStore * result Z DiscoveryError :=
  match now with
  | Err e => (s, Err e)
  | Ok now =>
  match observe 0 (ms_observed_wall s) now with
  | Err e => (s, Err e)
  | Ok wall =>
      let keys := batch_keys (ms_entries s) (ms_cursor s) in
      let cursor := if bool_decide (length keys = GC_BATCH) then last keys else None in
      let '(entries, live, r) := memory_retire keys now (ms_entries s) (ms_live s) 0 in
      (mkMemory entries wall live cursor (ms_capacity s), r)
  end
  end.

(** [RecordStore] for [MemoryStore]. *)
Definition memory_put {L} (s : MemoryStore) (record : EndpointRecord)
    (now : result Reading DiscoveryError) (admission : bool -> L -> result unit DiscoveryError * L)
    (l : L) : MemoryStore * L * result unit DiscoveryError :=
  match EndpointRecord_verify record with
  | Err e => (s, l, Err e)
  | Ok p =>
      let '(s, l, r) := memory_access s (pl_key p) (Some (RecRecord record)) now admission l in
      (s, l, match r with Ok _ => Ok tt | Err e => Err e end)
  end.
Definition memory_remove {L} (s : MemoryStore) (tomb : DeleteRequest)
    (now : result Reading DiscoveryError) (admission : bool -> L -> result unit DiscoveryError * L)
    (l : L) : MemoryStore * L * result unit DiscoveryError :=
  match DeleteRequest_verify tomb with
  | Err e => (s, l, Err e)
  | Ok p =>
      let '(s, l, r) := memory_access s (dp_key p) (Some (RecDeleted tomb)) now admission l in
      (s, l, match r with Ok _ => Ok tt | Err e => Err e end)
  end.
Definition memory_get (s : MemoryStore) (key : EndpointKey) (now : result Reading DiscoveryError)
    : MemoryStore * result EndpointRecord DiscoveryError :=
  let '(s, _, r) := memory_access s key None now (fun _ l => (Ok tt, l)) tt in
  (s, match r with
      | Ok (Some record) => Ok record
      | Ok None => Err NotFound
      | Err e => Err e
      end).
Definition memory_len (s : MemoryStore) : Z :=
  zlen (filter (fun e => stored_live e = true) (btree_items (ms_entries s)).*2).

End WithLibraries.

(** ** Bindings: what a store remembers of an identity *)

(** [postcard::to_stdvec] of a plain value does not fail. *)
Class PostcardTotal (A : Type) `{Postcard A} : Prop :=
  to_stdvec_total : forall a : A, exists b, to_stdvec a = Ok b.

Section Bindings.
Context `{HEd : Ed25519, HU : UrlLibrary, HB : Blake3, HZ : Postcard Z}.
Context `{HP : Postcard RecordPayload, HD : Postcard DeletePayload}.
Context `{HE : Postcard RecordEntry, HT : !PostcardTotal RecordEntry}.

(** The revision and the digest of the last operation on an identity. *)
Definition binds (key : EndpointKey) (s : Stored) (rev : Z) (dg : bytes) : Prop :=
  stored_verify s key = Ok rev /\ stored_digest s = Ok dg.
Definition stored_ok (key : EndpointKey) (s : Stored) : Prop := exists rev dg, binds key s rev dg.
Definition catalog_ok (c : gmap bytes Stored) : Prop := map_Forall stored_ok c.

(** A later binding: a higher revision, or the same operation. *)
Definition later (rev : Z) (dg : bytes) (rev' : Z) (dg' : bytes) : Prop :=
  rev < rev' \/ rev = rev' /\ dg = dg'.
Definition catalog_le (c c' : gmap bytes Stored) : Prop :=
  forall key s rev dg, c !! key = Some s -> binds key s rev dg ->
    exists s' rev' dg', c' !! key = Some s' /\ binds key s' rev' dg' /\ later rev dg rev' dg'.

#[export] Instance catalog_le_preorder : PreOrder catalog_le.
Proof.
  split.
  - intros c key s rev dg L B. exists s, rev, dg. unfold later. naive_solver.
  - intros c1 c2 c3 H1 H2 key s rev dg L B.
    destruct (H1 key s rev dg L B) as (s2 & r2 & d2 & L2 & B2 & O2).
    destruct (H2 key s2 r2 d2 L2 B2) as (s3 & r3 & d3 & L3 & B3 & O3).
    exists s3, r3, d3. split_and!; [done..|]. unfold later in *. naive_solver lia.
Qed.

Lemma entry_digest_total e : exists dg, entry_digest e = Ok dg.
Proof. unfold entry_digest. destruct (to_stdvec_total e) as [b ->]. simpl. eauto. Qed.

Lemma binds_fun key s r1 d1 r2 d2 : binds key s r1 d1 -> binds key s r2 d2 -> r1 = r2 /\ d1 = d2.
Proof. unfold binds. naive_solver congruence. Qed.

Lemma catalog_le_insert c key s rev dg :
  binds key s rev dg ->
  (forall o r d, c !! key = Some o -> binds key o r d -> later r d rev dg) ->
  catalog_le c (<[key := s]> c).
Proof.
  intros B Hl k o r d L Bo. destruct (decide (k = key)) as [->|Ne].
  - exists s, rev, dg. rewrite lookup_insert, decide_True by done. split_and!; [done..|by eapply Hl].
  - exists o, r, d. rewrite lookup_insert_ne by done. unfold later. naive_solver.
Qed.

(** Retiring keeps the binding and drops the signed content. *)
Lemma stored_retire_ok s key now t rev dg :
  stored_retire s key now = Ok (Some t) -> binds key s rev dg -> vk_from_bytes key = Ok tt -> rev <> 0 ->
  binds key t rev dg /\ stored_live t = false
  /\ exists e l, s = StActive e l /\ Lease_valid_at l now = false
       /\ t = StRetired rev dg (match e with RecDeleted _ => true | _ => false end).
Proof.
  intros R [V D] K Hr. destruct s as [e l|]; [|done]. unfold stored_retire in R.
  destruct (Lease_valid_at l now) eqn:E; [done|]. rewrite V in R. simpl in D. rewrite D in R.
  injection R as <-. split_and!.
  - split; [|done]. simpl. rewrite K. simpl. by destruct (Z.eqb_spec rev 0).
  - done.
  - by exists e, l.
Qed.

Lemma entry_details_ok e key rev i x :
  entry_details e key = Ok (rev, i, x) -> vk_from_bytes key = Ok tt /\ rev <> 0.
Proof.
  unfold entry_details. destruct e as [r|d].
  - destruct (EndpointRecord_verify r) as [p|] eqn:E; [|done]. simpl.
    apply EndpointRecord_verify_ok in E as (V & _ & _ & _ & _ & _ & K & Ok1).
    case_bool_decide as K2; [|done]. intros [= <- _ _]. subst key. rewrite K.
    split; [done|apply Ok1].
  - destruct (DeleteRequest_verify d) as [p|] eqn:E; [|done]. simpl.
    apply DeleteRequest_verify_ok in E as (V & _ & _ & _ & _ & _ & K & _ & Hr & _).
    case_bool_decide as K2; [|done]. intros [= <- _ _]. subst key. by rewrite K.
Qed.

Lemma stored_verify_key s key rev : stored_verify s key = Ok rev -> vk_from_bytes key = Ok tt /\ rev <> 0.
Proof.
  destruct s as [e l|r d b]; simpl.
  - destruct (entry_details e key) as [[[rv i] x]|] eqn:E; [|done]. simpl.
    destruct (negb _); [done|]. intros [= ->]. by eapply entry_details_ok.
  - destruct (vk_from_bytes key) as [[]|]; [|done]. simpl.
    destruct (Z.eqb_spec r 0); [done|]. by intros [= ->].
Qed.

(** What a decision does to the binding of an identity. *)
Record decided (old : option Stored) (incoming : option RecordEntry) (key : EndpointKey)
    (now : Reading) (d : AccessDecision) : Prop := {
  dc_replacement : forall s, de_replacement d = Some s ->
    stored_ok key s
    /\ (forall o r g r' g', old = Some o -> binds key o r g -> binds key s r' g' -> later r g r' g')
    /\ match s with
       | StActive e l => incoming = Some e /\ exists rev i x g, entry_details e key = Ok (rev, i, x)
           /\ Lease_new i x now = Ok l /\ entry_digest e = Ok g /\ binds key s rev g
           /\ forall o r g, old = Some o -> binds key o r g -> r < rev
       | StRetired _ _ _ => is_some old = true
       end;
  dc_read : forall r, de_result d = Ok (Some r) -> incoming = None /\ de_replacement d = None /\ exists l,
    old = Some (StActive (RecRecord r) l) /\ Lease_valid_at l now = true;
  dc_write : forall e o, incoming = Some e -> de_result d = Ok o -> exists rev i x g s,
    entry_details e key = Ok (rev, i, x) /\ entry_digest e = Ok g
    /\ (de_replacement d = Some s \/ de_replacement d = None /\ old = Some s) /\ binds key s rev g
}.

Lemma new_binds e key rev i x l now g :
  entry_details e key = Ok (rev, i, x) -> Lease_new i x now = Ok l -> entry_digest e = Ok g ->
  binds key (StActive e l) rev g.
Proof.
  intros E L G. split; [|done]. simpl. rewrite E. simpl. by rewrite (Lease_new_matches _ _ _ _ L).
Qed.

(** The state a decision starts from, after retiring what expired. *)
Definition settled (old retired : option Stored) : option Stored :=
  match retired with Some r => Some r | None => old end.

Lemma settled_ok old key now retired :
  (forall s, old = Some s -> stored_ok key s) ->
  match old with Some old => stored_retire old key now | None => Ok None end = Ok retired ->
  (forall t, retired = Some t -> exists rv dg b, t = StRetired rv dg b)
  /\ (forall s, settled old retired = Some s -> exists o r g, old = Some o /\ binds key o r g /\ binds key s r g)
  /\ (forall e l, settled old retired = Some (StActive e l) -> Lease_valid_at l now = true
        /\ retired = None /\ old = Some (StActive e l)).
Proof.
  intros Ho Er. destruct old as [o|]; [|by injection Er as <-].
  destruct (Ho o eq_refl) as (r & g & B). destruct (stored_verify_key _ _ _ (proj1 B)) as [Kv Kr].
  destruct retired as [t|].
  - destruct (stored_retire_ok _ _ _ _ _ _ Er B Kv Kr) as (Bt & Lt & e & l & Eo & Ev & ->).
    split_and!; [naive_solver|intros s [= <-]; eauto 7|by intros e' l' [=]].
  - split_and!; [done|intros s [= <-]; eauto 7|].
    intros e l [= ->]. simpl in Er. destruct (Lease_valid_at l now); [done|].
    destruct B as [Bv Bd]. simpl in Bv, Bd. rewrite Bv, Bd in Er. done.
Qed.

(** A decision that only retires, or does nothing. *)
Lemma decided_retired old incoming key now retired res :
  (forall s, old = Some s -> stored_ok key s) ->
  match old with Some old => stored_retire old key now | None => Ok None end = Ok retired ->
  (forall r, res = Ok (Some r) -> incoming = None /\ exists l, settled old retired = Some (StActive (RecRecord r) l)) ->
  (forall e o, incoming = Some e -> res = Ok o -> exists rev i x g s,
     entry_details e key = Ok (rev, i, x) /\ entry_digest e = Ok g
     /\ settled old retired = Some s /\ binds key s rev g) ->
  decided old incoming key now (mkDecision retired res).
Proof.
  intros Ho Er Hr Hw. destruct (settled_ok _ _ _ _ Ho Er) as (S1 & S2 & S3). split; simpl.
  - intros s ->. destruct (S2 s eq_refl) as (o & r & g & Eo & B & Bs).
    destruct (S1 s eq_refl) as (rv & dg & b & ->).
    split_and!; [by exists r, g| |by rewrite Eo].
    intros o' r1 g1 r2 g2 Eo' B1 B2. rewrite Eo in Eo'. injection Eo' as <-.
    destruct (binds_fun _ _ _ _ _ _ B B1) as [-> ->], (binds_fun _ _ _ _ _ _ Bs B2) as [-> ->]. by right.
  - intros r E. destruct (Hr r E) as (Ei & l & Es). destruct (S3 _ _ Es) as (V & Er' & Eo). eauto 6.
  - intros e o Ei E. destruct (Hw e o Ei E) as (rev & i & x & g & s & K1 & K2 & K3 & K4).
    exists rev, i, x, g, s. split_and!; try done. unfold settled in K3. destruct retired; naive_solver.
Qed.

Lemma decide_access_ok old incoming key now d :
  (forall s, old = Some s -> stored_ok key s) ->
  decide_access old incoming key now = Ok d -> decided old incoming key now d.
Proof.
  intros Ho H. unfold decide_access in H.
  destruct (match old with Some _ => _ | None => _ end) as [retired|] eqn:Er; [|done].
  cbv beta iota in H. fold (settled old retired) in H.
  destruct (settled_ok _ _ _ _ Ho Er) as (S1 & S2 & S3).
  destruct incoming as [e|].
  2:{ injection H as <-. apply decided_retired; [done|done| |done]. intros r E. split; [done|].
      destruct (settled old retired) as [[[r'|] l|? ? []]|]; try done. injection E as ->. by exists l. }
  destruct (entry_details e key) as [[[rev i] x]|] eqn:Ed; [|done]. cbv beta iota in H.
  destruct (Lease_new i x now) as [lease|er] eqn:El.
  2:{ injection H as <-. by apply decided_retired. }
  destruct (entry_digest_total e) as [g Eg].
  assert (Accept : (forall o r, old = Some o -> stored_verify o key = Ok r -> r < rev) ->
    decided old (Some e) key now (mkDecision (Some (StActive e lease)) (Ok None))).
  { intros Lt. pose proof (new_binds _ _ _ _ _ _ _ _ Ed El Eg) as B. split; simpl.
    - intros s [= <-]. split; [by exists rev, g|split].
      intros o r1 g1 r2 g2 Eo B1 B2. destruct (binds_fun _ _ _ _ _ _ B B2) as [-> ->].
      left. by apply (Lt o), B1.
      { split; [done|]. exists rev, i, x, g. split_and!; try done. intros o r1 g1 Eo B1. by apply (Lt o), B1. }
    - done.
    - intros e' o [= <-] _. exists rev, i, x, g, (StActive e lease). naive_solver. }
  destruct (settled old retired) as [s|] eqn:Es.
  2:{ injection H as <-. apply Accept. intros o r ->. unfold settled in Es. by destruct retired. }
  destruct (S2 s eq_refl) as (o & r & dg & Eo & B & [Bv Bd]). rewrite Bv in H. cbv beta iota in H.
  destruct (Z.ltb_spec r rev) as [Lt|Ge].
  { injection H as <-. apply Accept. intros o' r' Eo' V. rewrite Eo in Eo'. injection Eo' as <-.
    destruct B as [B _]. congruence. }
  rewrite Bd, Eg in H. cbv beta iota in H.
  destruct (decide (Some r = Some rev)) as [Eq|Ne].
  - rewrite bool_decide_eq_true_2 in H by done. cbv beta iota in H. injection Eq as ->.
    destruct (decide (Some dg = Some g)) as [Eq2|Ne2].
    + rewrite bool_decide_eq_true_2 in H by done. injection Eq2 as ->. injection H as <-.
      apply decided_retired; [done|done| |].
      * intros r' K. by destruct s.
      * intros e' o' [= <-] _. exists rev, i, x, g, s. by split_and!.
    + rewrite bool_decide_eq_false_2 in H by done. injection H as <-. by apply decided_retired.
  - rewrite bool_decide_eq_false_2 in H by done. injection H as <-. by apply decided_retired.
Qed.
End Bindings.

(** ** The contract of a record store *)

Section Contract.
Context `{HEd : Ed25519, HU : UrlLibrary, HB : Blake3, HZ : Postcard Z}.
Context `{HP : Postcard RecordPayload, HD : Postcard DeletePayload}.
Context `{HE : Postcard RecordEntry}.

(** What a store promises: a catalog of identities, and a clock that never runs back. *)
Record Catalog : Type := mkCatalog { ca_entries : gmap bytes Stored; ca_wall : duration }.

Definition catalog_access {L : Type} (capacity : Z) (c : Catalog) (key : EndpointKey)
    (entry : option RecordEntry) (now : Reading)
    (admission : bool -> L -> result unit DiscoveryError * L) (l : L)
    : Catalog * L * result (option EndpointRecord) DiscoveryError :=
  if rd_wall now <? ca_wall c
  then (c, l, Err (store_error "record store wall clock moved backwards")) else
  let old := ca_entries c !! key in
  let seen := mkCatalog (ca_entries c) (rd_wall now) in
  match decide_access old entry key now with
  | Err e => (seen, l, Err e)
  | Ok decision =>
      match de_replacement decision with
      | None => (seen, l, de_result decision)
      | Some s =>
          if negb (is_some old) && (capacity <=? Z.of_nat (size (ca_entries c)))
          then (seen, l, Err (store_error "record identity capacity exceeded")) else
          let '(allowed, l) := match s with
                               | StActive _ _ => admission (is_some old) l
                               | StRetired _ _ _ => (Ok tt, l)
                               end in
          match allowed with
          | Err e => (seen, l, Err e)
          | Ok _ => (mkCatalog (<[key := s]> (ca_entries c)) (rd_wall now), l, de_result decision)
          end
      end
  end.

Definition memory_catalog (s : MemoryStore) : Catalog :=
  mkCatalog (ms_entries s) (ms_observed_wall s).

(** The number of live records. *)
Definition catalog_live (c : gmap bytes Stored) : Z :=
  Z.of_nat (size (filter (fun kv => stored_live kv.2 = true) c)).

Record memory_ok (s : MemoryStore) : Prop := {
  mk_entries : catalog_ok (ms_entries s);
  mk_live : ms_live s = catalog_live (ms_entries s);
  mk_capacity : Z.of_nat (size (ms_entries s)) <= ms_capacity s;
  mk_wall : 0 <= ms_observed_wall s
}.

Lemma catalog_live_insert c key s :
  catalog_live (<[key := s]> c) = catalog_live c - live_count (c !! key) + live_count (Some s).
Proof.
  unfold catalog_live, live_count. simpl. rewrite map_filter_insert. simpl.
  set (P := fun kv : bytes * Stored => stored_live kv.2 = true).
  assert (F : forall v, c !! key = Some v ->
    filter P c !! key = if stored_live v then Some v else None).
  { intros v E. rewrite map_lookup_filter, E. simpl. unfold P. simpl.
    destruct (stored_live v) eqn:Ev; [by rewrite option_guard_True|by rewrite option_guard_False]. }
  assert (N : c !! key = None -> filter P c !! key = None).
  { intros E. by rewrite map_lookup_filter, E. }
  destruct (c !! key) as [v|] eqn:E; simpl.
  - specialize (F v eq_refl). destruct (stored_live s) eqn:Es.
    + rewrite decide_True by done. rewrite map_size_insert, F. destruct (stored_live v); simpl; lia.
    + rewrite decide_False by done. rewrite map_filter_delete, map_size_delete, F.
      destruct (stored_live v) eqn:Ev; simpl; [|lia].
      assert (size (filter P c) <> 0%nat); [|lia].
      apply (map_size_ne_0_lookup_2 _ key). by rewrite F.
  - specialize (N eq_refl). destruct (stored_live s) eqn:Es.
    + rewrite decide_True by done. rewrite map_size_insert, N. simpl. lia.
    + rewrite decide_False by done.
      rewrite map_filter_delete, map_size_delete, N. simpl. lia.
Qed.

Lemma catalog_live_pos c key s : c !! key = Some s -> live_count (Some s) <= catalog_live c.
Proof.
  intros E. unfold live_count, catalog_live. simpl. destruct (stored_live s) eqn:Es; [|lia].
  assert (size (filter (fun kv : bytes * Stored => stored_live kv.2 = true) c) <> 0%nat); [|lia].
  apply (map_size_ne_0_lookup_2 _ key). rewrite map_lookup_filter, E. simpl.
  by rewrite option_guard_True.
Qed.

(** The in-memory store implements the contract. *)
Lemma memory_access_refines {L} s key entry now adm (l : L) s' l' r :
  memory_ok s -> memory_access s key entry (Ok now) adm l = (s', l', r) ->
  catalog_access (ms_capacity s) (memory_catalog s) key entry now adm l = (memory_catalog s', l', r)
  /\ ms_capacity s' = ms_capacity s.
Proof.
  intros [_ _ _ Hw]. unfold memory_access, catalog_access, observe. simpl.
  replace (rd_wall now <? 0) with ((rd_wall now <? 0) && (rd_wall now <? ms_observed_wall s))
    by (destruct (Z.ltb_spec (rd_wall now) 0), (Z.ltb_spec (rd_wall now) (ms_observed_wall s)); simpl; lia || done).
  destruct (rd_wall now <? ms_observed_wall s) eqn:Ew; [|rewrite andb_false_r]; simpl.
  { rewrite orb_true_r. by intros [= <- <- <-]. }
  destruct (decide_access _ _ _ _) as [d|]; [|by intros [= <- <- <-]].
  destruct (de_replacement d) as [t|]; [|by intros [= <- <- <-]].
  destruct (_ && _); [by intros [= <- <- <-]|].
  destruct (match t with StActive _ _ => _ | StRetired _ _ _ => _ end) as [[[]|e] l1];
    by intros [= <- <- <-].
Qed.

Context `{HT : !PostcardTotal RecordEntry}.

(** What an access does, for every outcome of it. *)
Record accessed {L} (capacity : Z) (c : Catalog) (key : EndpointKey) (entry : option RecordEntry)
    (now : Reading) (l : L) (c' : Catalog) (l' : L)
    (r : result (option EndpointRecord) DiscoveryError) : Prop := {
  ad_ok : catalog_ok (ca_entries c');
  ad_le : catalog_le (ca_entries c) (ca_entries c');
  ad_size : Z.of_nat (size (ca_entries c)) <= capacity -> Z.of_nat (size (ca_entries c')) <= capacity;
  ad_wall : ca_wall c <= ca_wall c';
  ad_read : forall record, r = Ok (Some record) -> entry = None /\ exists p,
    EndpointRecord_verify record = Ok p /\ pl_key p = key
    /\ pl_issued_at p <= as_secs (rd_wall now) < pl_expires_at p
    /\ exists s g, ca_entries c' !! key = Some s /\ binds key s (pl_revision p) g
         /\ entry_digest (RecRecord record) = Ok g;
  ad_write : forall e o, entry = Some e -> r = Ok o -> exists rev i x g s,
    entry_details e key = Ok (rev, i, x) /\ entry_digest e = Ok g
    /\ ca_entries c' !! key = Some s /\ binds key s rev g;
  ad_admission : l' <> l -> exists e rev i x lease, entry = Some e /\ entry_details e key = Ok (rev, i, x)
    /\ Lease_new i x now = Ok lease
    /\ forall o rev' g, ca_entries c !! key = Some o -> binds key o rev' g -> rev' < rev
}.

Lemma active_record_ok record lease key rev g now :
  binds key (StActive (RecRecord record) lease) rev g -> Lease_valid_at lease now = true ->
  exists p, EndpointRecord_verify record = Ok p /\ pl_key p = key /\ pl_revision p = rev
    /\ pl_issued_at p <= as_secs (rd_wall now) < pl_expires_at p
    /\ entry_digest (RecRecord record) = Ok g.
Proof.
  intros [V G] Hv. simpl in V, G. unfold entry_details in V.
  destruct (EndpointRecord_verify record) as [p|]; [|done]. simpl in V.
  case_bool_decide as K; [|done]. simpl in V. destruct (Lease_matches_interval _ _ _) eqn:M; [|done].
  injection V as <-. exists p. split_and!; try done; unfold Lease_matches_interval in M;
    unfold Lease_valid_at in Hv; b2p; lia.
Qed.

Lemma catalog_access_ok {L} capacity c key entry now adm (l : L) c' l' r :
  catalog_ok (ca_entries c) -> catalog_access capacity c key entry now adm l = (c', l', r) ->
  accessed capacity c key entry now l c' l' r.
Proof.
  intros Hc. unfold catalog_access.
  destruct (Z.ltb_spec (rd_wall now) (ca_wall c)) as [|Hw].
  { intros [= <- <- <-]. by split. }
  assert (Fail : forall e, accessed capacity c key entry now l (mkCatalog (ca_entries c) (rd_wall now)) l (Err e)).
  { intros e. by split. }
  assert (Ho : forall s, ca_entries c !! key = Some s -> stored_ok key s) by (intros s; apply Hc).
  destruct (decide_access _ _ _ _) as [d|e] eqn:D; [|by intros [= <- <- <-]].
  apply decide_access_ok in D as [D1 D2 D3]; [|done].
  assert (Read : forall record, de_result d = Ok (Some record) -> entry = None /\ exists p,
    EndpointRecord_verify record = Ok p /\ pl_key p = key
    /\ pl_issued_at p <= as_secs (rd_wall now) < pl_expires_at p
    /\ exists s g, ca_entries c !! key = Some s /\ binds key s (pl_revision p) g
         /\ entry_digest (RecRecord record) = Ok g).
  { intros record E. destruct (D2 record E) as (Ei & _ & lease & Eo & V). split; [done|].
    destruct (Ho _ Eo) as (rev & g & B). destruct (active_record_ok _ _ _ _ _ _ B V)
      as (p & K1 & K2 & K3 & K4 & K5). exists p. subst rev. eauto 10. }
  destruct (de_replacement d) as [t|] eqn:Et.
  2:{ intros [= <- <- <-]. split; simpl; try done.
      intros e o Ee Er. destruct (D3 e o Ee Er) as (rev & i & x & g & s & K1 & K2 & [K3|[_ K3]] & K4); [done|].
      eauto 10. }
  destruct (D1 t eq_refl) as (T1 & T2 & T3).
  destruct (_ && _) eqn:Cap; [by intros [= <- <- <-]|].
  set (run := match t with StActive _ _ => adm (is_some (ca_entries c !! key)) l
              | StRetired _ _ _ => (Ok tt, l) end). destruct run as [allowed l1] eqn:Run.
  assert (Adm : l1 <> l -> exists e rev i x lease, entry = Some e /\ entry_details e key = Ok (rev, i, x)
    /\ Lease_new i x now = Ok lease
    /\ forall o rev' g, ca_entries c !! key = Some o -> binds key o rev' g -> rev' < rev).
  { unfold run in Run. destruct t as [e lease|]; [|by injection Run as <- <-].
    destruct T3 as (Ee & rev & i & x & g & K1 & K2 & K3 & K4 & K5). intros _. eauto 10. }
  destruct allowed as [[]|e].
  2:{ intros [= <- <- <-]. by split. }
  intros [= <- <- <-]. destruct T1 as (rev & g & B). split; simpl.
  - apply map_Forall_insert_2; [by exists rev, g|done].
  - eapply catalog_le_insert; [done|]. intros o r d' Eo Bo. by eapply T2.
  - intros Hs. rewrite map_size_insert. destruct (ca_entries c !! key) eqn:Eo; simpl; [done|].
    simpl in Cap. apply Z.leb_gt in Cap. lia.
  - done.
  - intros record E. destruct (D2 record E) as (_ & K & _). congruence.
  - intros e o Ee Er. destruct (D3 e o Ee Er) as (rev' & i & x & g' & s & K1 & K2 & K3 & K4).
    assert (s = t) as -> by (destruct K3 as [K3|[K3 _]]; congruence).
    exists rev', i, x, g', t. by rewrite lookup_insert, decide_True.
  - done.
Qed.

Lemma memory_access_live {L} s key entry now adm (l : L) s' l' r :
  memory_access s key entry now adm l = (s', l', r) ->
  ms_live s = catalog_live (ms_entries s) -> ms_live s' = catalog_live (ms_entries s').
Proof.
  unfold memory_access. destruct now as [now|e]; [|by intros [= <- <- <-]].
  destruct (observe _ _ _) as [wall|]; [|by intros [= <- <- <-]].
  destruct (decide_access _ _ _ _) as [d|]; [|by intros [= <- <- <-]].
  destruct (de_replacement d) as [t|]; [|by intros [= <- <- <-]].
  destruct (_ && _); [by intros [= <- <- <-]|].
  destruct (match t with StActive _ _ => _ | StRetired _ _ _ => _ end) as [[[]|e] l1];
    intros [= <- <- <-]; [|done].
  simpl. intros ->. by rewrite catalog_live_insert.
Qed.

Lemma memory_access_ok {L} s key entry now adm (l : L) s' l' r :
  memory_ok s -> memory_access s key entry now adm l = (s', l', r) ->
  memory_ok s' /\ catalog_le (ms_entries s) (ms_entries s').
Proof.
  intros K H. destruct now as [now|e]; [|by injection H as <- <- <-].
  pose proof (memory_access_live _ _ _ _ _ _ _ _ _ H (mk_live _ K)) as Hl.
  destruct (memory_access_refines _ _ _ _ _ _ _ _ _ K H) as [R Ec].
  destruct (catalog_access_ok _ (memory_catalog s) _ _ _ _ _ _ _ _ (mk_entries _ K) R) as [A1 A2 A3 A4 _ _ _].
  simpl in *. split; [|done]. split; try done; [rewrite Ec; by apply A3, K|].
  pose proof (mk_wall _ K). lia.
Qed.

(** One batch of collection keeps every binding. *)
Lemma memory_retire_ok keys now c live n c' live' r :
  catalog_ok c -> live = catalog_live c -> memory_retire keys now c live n = (c', live', r) ->
  catalog_ok c' /\ live' = catalog_live c' /\ size c' = size c /\ catalog_le c c'
  /\ forall k s, c' !! k = Some s -> c !! k = Some s \/ (k ∈ keys /\ stored_live s = false).
Proof.
  revert c live n. induction keys as [|key keys IH]; intros c live n Hc Hl H; simpl in H.
  { injection H as <- <- <-. naive_solver. }
  assert (Next : forall c1 live1 n1, catalog_ok c1 -> live1 = catalog_live c1 ->
    memory_retire keys now c1 live1 n1 = (c', live', r) -> size c1 = size c -> catalog_le c c1 ->
    (forall k s, c1 !! k = Some s -> c !! k = Some s \/ (k = key /\ stored_live s = false)) ->
    catalog_ok c' /\ live' = catalog_live c' /\ size c' = size c /\ catalog_le c c'
    /\ forall k s, c' !! k = Some s -> c !! k = Some s \/ (k ∈ key :: keys /\ stored_live s = false)).
  { intros c1 live1 n1 H1 H2 H3 H4 H5 H6. destruct (IH _ _ _ H1 H2 H3) as (K1 & K2 & K3 & K4 & K5).
    split_and!; [done|done|congruence|by etrans|]. intros k s Ks. apply K5 in Ks as [Ks|[Ki Ks]].
    - apply H6 in Ks as [Ks|[-> Ks]]; [by left|right; split; [left|done]].
    - right. split; [by right|done]. }
  destruct (c !! key) as [old|] eqn:Eo; [|by eapply Next; eauto].
  destruct (stored_retire old key now) as [[t|]|] eqn:Er.
  - destruct (Hc key old Eo) as (rev & g & B). destruct (stored_verify_key _ _ _ (proj1 B)) as [Kv Kr].
    destruct (stored_retire_ok _ _ _ _ _ _ Er B Kv Kr) as (Bt & Lt & e & l & -> & Ev & ->).
    eapply (Next _ _ _); [| |exact H| | |].
    + apply map_Forall_insert_2; [by exists rev, g|done].
    + rewrite catalog_live_insert, Eo, Hl. unfold live_count at 3. simpl. lia.
    + rewrite map_size_insert, Eo. done.
    + eapply catalog_le_insert; [done|]. intros o r0 g0 Eo' B0. rewrite Eo in Eo'. injection Eo' as <-.
      destruct (binds_fun _ _ _ _ _ _ B B0) as [-> ->]. by right.
    + intros k s Ks. destruct (decide (k = key)) as [->|Ne].
      * rewrite lookup_insert, decide_True in Ks by done. injection Ks as <-. by right.
      * rewrite lookup_insert_ne in Ks by done. by left.
  - by eapply Next; eauto.
  - injection H as <- <- <-. naive_solver.
Qed.

Lemma memory_collect_ok s now s' r :
  memory_ok s -> memory_collect s now = (s', r) ->
  memory_ok s' /\ catalog_le (ms_entries s) (ms_entries s').
Proof.
  intros [K1 K2 K3 K4] H. unfold memory_collect in H. destruct now as [now|e]; [|by injection H as <- <-].
  unfold observe in H. destruct (_ || _) eqn:Ew; [by injection H as <- <-|]. b2p.
  destruct (memory_retire _ _ _ _ _) as [[c live] r1] eqn:R. injection H as <- <-.
  destruct (memory_retire_ok _ _ _ _ _ _ _ _ K1 K2 R) as (A1 & A2 & A3 & A4 & _).
  split; [|done]. split; simpl; try done; [by rewrite A3|lia].
Qed.
End Contract.
