(* ===== verification/Codecs.v ===== *)
(** * Total codecs for witnesses

    A [postcard] codec and a [serde_json] codec for any countable type: the number of the
    value, bit by bit, closed by a point.  They are total and satisfy the laws of
    [Crypto], so a theorem whose hypotheses ask for an encoding of every value can be
    applied to a concrete run. *)

From S2P Require Import Prelude Crypto Records.

Fixpoint pos_bytes (p : positive) : bytes :=
  match p with
  | xH => ["."%char]
  | xO p => "0"%char :: pos_bytes p
  | xI p => "1"%char :: pos_bytes p
  end.
Fixpoint pos_parse (b : bytes) : option (positive * bytes) :=
  match b with
  | [] => None
  | c :: b =>
      if bool_decide (c = "."%char) then Some (1%positive, b) else
      match pos_parse b with
      | Some (p, rest) => Some (if bool_decide (c = "0"%char) then xO p else xI p, rest)
      | None => None
      end
  end.

Lemma pos_parse_bytes p rest : pos_parse (pos_bytes p ++ rest) = Some (p, rest).
Proof. induction p as [p IH|p IH|]; simpl; [by rewrite IH..|done]. Qed.

Definition countable_take {A} `{Countable A} (b : bytes) : result (A * bytes) string :=
  match pos_parse b with
  | Some (p, rest) => match decode p with Some a => Ok (a, rest) | None => Err "no such value"%string end
  | None => Err "end of input"%string
  end.
Definition countable_postcard {A} `{Countable A} : Postcard A := {|
  to_stdvec a := Ok (pos_bytes (encode a));
  take_from_bytes := countable_take
|}.
Definition countable_json {A} `{Countable A} : SerdeJson A := {|
  json_to_vec a := Ok (pos_bytes (encode a));
  json_from_slice b := match countable_take b with Ok (a, _) => Ok a | Err e => Err e end
|}.

Lemma countable_take_bytes {A} `{Countable A} (a : A) rest :
  countable_take (pos_bytes (encode a) ++ rest) = Ok (a, rest).
Proof. unfold countable_take. by rewrite pos_parse_bytes, decode_encode. Qed.

Lemma countable_postcard_laws {A} `{Countable A} : @PostcardLaws A countable_postcard.
Proof. intros a b rest [= <-]. apply countable_take_bytes. Qed.
Lemma countable_postcard_total {A} `{Countable A} : @PostcardTotal A countable_postcard.
Proof. intros a. by eexists. Qed.
Lemma countable_json_laws {A} `{Countable A} : @SerdeJsonLaws A countable_json.
Proof. intros a b [= <-]. simpl. rewrite <-(app_nil_r (pos_bytes _)). by rewrite countable_take_bytes. Qed.
