(* ===== verification/FileStore.v ===== *)
(** * The durable record store

    Models [src/crates/rds-discovery/src/records.rs]: a catalog in an embedded database
    ([redb], one transaction per commit) and an anchor file that remembers the metadata
    of the last commit, so that a database that was rolled back or replaced is refused.

    The database and the anchor file are their contents; what each of the calls returns
    is an argument of the operation.  A failed transaction or a failed write of the
    anchor may or may not have taken effect. *)

From S2P Require Import Prelude Discovery Clock Crypto Authority RecordWire Records Codecs.

(** ** State *)

Record Metadata : Type := mkMetadata {
  md_format : Z;
  md_database : bytes;
  md_generation : Z;
  md_live : Z;
  md_identities : Z;
  md_wall_floor : duration
}.
(** [Anchor]. *)
Record RecordAnchor : Type := mkAnchor { an_metadata : Metadata; an_digest : bytes }.

#[export] Instance Metadata_eq_dec : EqDecision Metadata.
Proof. solve_decision. Defined.
#[export] Instance RecordAnchor_eq_dec : EqDecision RecordAnchor.
Proof. solve_decision. Defined.

(** The database: its two tables, when they exist.  A missing or empty file is a database
    without tables. *)
Record RecordDb : Type := mkDb {
  db_meta : option (option bytes);
  db_records : option (gmap bytes bytes)
}.
(** The directory: the database, the anchor and the seal of an initialized store. *)
Record RecordDisk : Type := mkDisk {
  dk_db : RecordDb;
  dk_anchor : option bytes;
  dk_sealed : bool
}.

(** [Inner], with the disk it owns. *)
Record FileStore : Type := mkFileStore {
  fs_disk : RecordDisk;
  fs_metadata : Metadata;
  fs_failed : bool;
  fs_observed_wall : duration;
  fs_cursor : option bytes
}.

(** What the calls of [open_owned] return: which one fails, and with what effect. *)
Inductive OpenIo : Type :=
| OioDone
| OioFailed (e : DiscoveryError)
| OioInit (e : DiscoveryError) (applied : bool)
| OioAnchor (e : DiscoveryError) (replaced : bool)
| OioSeal (e : DiscoveryError) (sealed : bool).

#[export] Instance OpenIo_eq_dec : EqDecision OpenIo.
Proof. solve_decision. Defined.

(** What the calls of one access return. *)
Inductive AccessIo : Type :=
| AioDone
| AioRead (e : DiscoveryError)
| AioAnchorRead (e : DiscoveryError)
| AioTxn (e : DiscoveryError)
| AioCommit (e : DiscoveryError) (applied : bool)
| AioAnchorWrite (e : DiscoveryError) (replaced : bool).

(** The names [open_owned] accepts in its directory. *)
Definition known_name (migrating : bool) (name : bytes) : bool :=
  bool_decide (name ∈ [bs "."; bs ".."; bs "records.lock"; bs "records.anchor"; bs "records.redb"])
  || (bool_decide (bs ".policy-" `prefix_of` name) && bool_decide (bs ".tmp" `suffix_of` name))
  || (migrating && bool_decide (name = bs "migration.pending")).

Fixpoint check_namespace (migrating : bool) (index : Z) (names : list bytes)
    : result unit DiscoveryError :=
  match names with
  | [] => Ok tt
  | name :: names =>
      if 128 <? index then Err (store_error "record state directory requires maintenance") else
      if negb (known_name migrating name)
      then Err (store_error "legacy or unknown record files require explicit migration")
      else check_namespace migrating (index + 1) names
  end.

Definition with_db (d : RecordDisk) (db : RecordDb) : RecordDisk := mkDisk db (dk_anchor d) (dk_sealed d).
Definition with_anchor (d : RecordDisk) (b : bytes) : RecordDisk := mkDisk (dk_db d) (Some b) (dk_sealed d).
Definition with_seal (d : RecordDisk) : RecordDisk := mkDisk (dk_db d) (dk_anchor d) true.

Section WithLibraries.
Context `{HEd : Ed25519, HU : UrlLibrary, HB : Blake3, HZ : Postcard Z}.
Context `{HP : Postcard RecordPayload, HD : Postcard DeletePayload, HE : Postcard RecordEntry}.
Context `{HSt : Postcard Stored, HMd : Postcard Metadata, HAn : SerdeJson RecordAnchor}.

(** [exact] and [decode]. *)
Definition exact (A : Type) `{Postcard A} (b : bytes) : result A DiscoveryError :=
  let? (value, remaining) := map_err store_error (take_from_bytes (A := A) b) in
  if negb (bool_decide (remaining = [])) then Err (store_error "trailing stored record bytes")
  else Ok value.

Definition cell_decode (b : bytes) (key : EndpointKey) : result Stored DiscoveryError :=
  if MAX_CELL <? zlen b then Err (store_error "stored record exceeds limit") else
  let? entry := exact Stored b in
  let? _ := stored_verify entry key in
  Ok entry.

Definition encode_anchor (metadata : Metadata) : result bytes DiscoveryError :=
  let? b := map_err store_error (to_stdvec metadata) in
  map_err store_error (json_to_vec (mkAnchor metadata (blake3_hash b))).

Definition decode_anchor (b : bytes) : result Metadata DiscoveryError :=
  let? anchor := map_err store_error (json_from_slice (A := RecordAnchor) b) in
  let? mb := map_err store_error (to_stdvec (an_metadata anchor)) in
  if negb (bool_decide (blake3_hash mb = an_digest anchor))
  then Err (store_error "record commit anchor checksum mismatch")
  else Ok (an_metadata anchor).

(** ** Opening *)

(** The catalog check of [open_owned]: the identities and the live records. *)
Definition check_cell (floor : duration) (counts : Z * Z) (kv : bytes * bytes)
    : result (Z * Z) DiscoveryError :=
  let identities := counts.1 + 1 in
  if MAX_IDENTITIES <? identities then Err (store_error "record identity capacity exceeded") else
  if negb (bool_decide (length kv.1 = 32%nat))
  then Err (store_error "could not convert slice to array") else
  let? stored := cell_decode kv.2 kv.1 in
  if floor <? stored_accepted_wall stored
  then Err (store_error "record lease exceeds catalog clock floor") else
  Ok (identities, counts.2 + (if stored_live stored then 1 else 0)).

Definition check_catalog (metadata : Metadata) (records : gmap bytes bytes)
    : result unit DiscoveryError :=
  let? counts := try_fold (check_cell (md_wall_floor metadata)) (0, 0) (btree_items records) in
  if negb (counts.1 =? md_identities metadata) || negb (counts.2 =? md_live metadata)
  then Err (store_error "record metadata/catalog mismatch") else Ok tt.

(** The comparison of the metadata with the anchor. *)
Definition check_anchor (stored_anchor : option Metadata) (metadata : Metadata)
    : result unit DiscoveryError :=
  match stored_anchor with
  | Some previous =>
      if negb (md_format previous =? md_format metadata)
         || (md_wall_floor metadata <? md_wall_floor previous)
         || negb (bool_decide (md_database previous = md_database metadata))
         || (md_generation metadata <? md_generation previous)
         || (sat_add64 (md_generation previous) 1 <? md_generation metadata)
         || ((md_generation metadata =? md_generation previous)
             && negb (bool_decide (previous = metadata)))
      then Err (store_error "record database rolled back or disagrees with durable commit anchor")
      else Ok tt
  | None =>
      if negb (md_generation metadata =? 1) || negb (md_identities metadata =? 0)
      then Err (store_error "record database lacks its commit anchor") else Ok tt
  end.

(** The metadata [open_owned] finds, or writes into a new database with the identity
    [fresh] that it draws. *)
Definition open_metadata (d : RecordDisk) (stored_anchor : option Metadata) (fresh : bytes)
    (io : OpenIo) : RecordDisk * result Metadata DiscoveryError :=
  match db_meta (dk_db d) with
  | Some (Some v) => (d, exact Metadata v)
  | Some None => (d, Err (store_error "record metadata missing"))
  | None =>
      if is_some stored_anchor then (d, Err (store_error "table does not exist")) else
      if is_some (db_records (dk_db d))
      then (d, Err (store_error "record metadata absent from nonempty database")) else
      let metadata := mkMetadata 3 fresh 1 0 0 0 in
      match to_stdvec metadata with
      | Err e => (d, Err (store_error e))
      | Ok b =>
          let d' := with_db d (mkDb (Some (Some b)) (Some ∅)) in
          match io with
          | OioInit e applied => (if applied then d' else d, Err e)
          | _ => (d', Ok metadata)
          end
      end
  end.

(** The end of [open_owned]: a new store is sealed, and the store runs. *)
Definition open_seal (d : RecordDisk) (metadata : Metadata) (io : OpenIo)
    : RecordDisk * result FileStore DiscoveryError :=
  if dk_sealed d then (d, Ok (mkFileStore d metadata false 0 None)) else
  match io with
  | OioSeal e sealed => (if sealed then with_seal d else d, Err e)
  | _ => (with_seal d, Ok (mkFileStore (with_seal d) metadata false 0 None))
  end.

(** Before that the anchor catches up with the database. *)
Definition open_finish (d : RecordDisk) (stored_anchor : option Metadata) (metadata : Metadata)
    (io : OpenIo) : RecordDisk * result FileStore DiscoveryError :=
  if bool_decide (stored_anchor = Some metadata) then open_seal d metadata io else
  match encode_anchor metadata with
  | Err e => (d, Err e)
  | Ok b => match io with
            | OioAnchor e replaced => (if replaced then with_anchor d b else d, Err e)
            | _ => open_seal (with_anchor d b) metadata io
            end
  end.

(** The checks of [open_owned] between reading the metadata and running. *)
Definition check_opened (d : RecordDisk) (stored_anchor : option Metadata) (metadata : Metadata)
    : result unit DiscoveryError :=
  if negb (md_format metadata =? 3) || (md_generation metadata =? 0)
     || (MAX_IDENTITIES <? md_identities metadata)
  then Err (store_error "invalid record metadata") else
  let? _ := check_anchor stored_anchor metadata in
  match db_records (dk_db d) with
  | None => Err (store_error "table does not exist")
  | Some records => check_catalog metadata records
  end.

(** The start of [open_owned]: the directory and its anchor. *)
Definition open_anchor (migrating : bool) (names : list bytes) (d : RecordDisk) (io : OpenIo)
    : result (option Metadata) DiscoveryError :=
  let? _ := match io with OioFailed e => Err e | _ => Ok tt end in
  let? _ := check_namespace migrating 0 names in
  let? stored_anchor := match dk_anchor d with
                        | None => Ok None
                        | Some b => let? m := decode_anchor b in Ok (Some m)
                        end in
  if negb (is_some stored_anchor) && dk_sealed d
  then Err (store_error "record commit anchor missing") else Ok stored_anchor.

(** [FileStore::open_owned]. *)
Definition open_owned (migrating : bool) (names : list bytes) (fresh : bytes) (d : RecordDisk)
    (io : OpenIo) : RecordDisk * result FileStore DiscoveryError :=
  match open_anchor migrating names d io with
  | Err e => (d, Err e)
  | Ok stored_anchor =>
      let '(d, metadata) := open_metadata d stored_anchor fresh io in
      match metadata with
      | Err e => (d, Err e)
      | Ok metadata =>
          match check_opened d stored_anchor metadata with
          | Err e => (d, Err e)
          | Ok _ => open_finish d stored_anchor metadata io
          end
      end
  end.

(** ** Commits *)

Definition records_of (s : FileStore) : gmap bytes bytes := default ∅ (db_records (dk_db (fs_disk s))).

(** One change of a transaction. *)
Definition commit_change (st : Metadata * gmap bytes bytes) (change : bytes * Stored)
    : result (Metadata * gmap bytes bytes) DiscoveryError :=
  let '(next, table) := st in
  let '(key, replacement) := change in
  let? b := map_err store_error (to_stdvec replacement) in
  if MAX_CELL <? zlen b then Err (store_error "record exceeds storage limit") else
  let? old := match table !! key with
              | None => Ok None
              | Some v => let? s := cell_decode v key in Ok (Some s)
              end in
  let? identities :=
    (if is_some old then Ok (md_identities next) else
     match checked_add64 (md_identities next) 1 with
     | Some n => if n <=? MAX_IDENTITIES then Ok n
                 else Err (store_error "record identity capacity exceeded")
     | None => Err (store_error "record identity capacity exceeded")
     end) in
  let? live :=
    ok_or (match checked_sub64 (md_live next) (live_count old) with
           | Some n => checked_add64 n (live_count (Some replacement))
           | None => None
           end) (store_error "record count inconsistent") in
  Ok (mkMetadata (md_format next) (md_database next) (md_generation next) live identities
        (md_wall_floor next), <[key := b]> table).

(** The transaction of [Inner::commit], up to its [commit]: the next metadata and the disk
    it would leave. *)
Definition commit_prepare (s : FileStore) (changes : list (bytes * Stored)) (now : Reading)
    (io : AccessIo) : result (Metadata * RecordDisk) DiscoveryError :=
  let? _ := match io with AioAnchorRead e => Err e | _ => Ok tt end in
  let? anchored := ok_or (dk_anchor (fs_disk s)) (store_error "record commit anchor disappeared") in
  let? m := decode_anchor anchored in
  if negb (bool_decide (m = fs_metadata s))
  then Err (store_error "record commit anchor changed during service lifetime") else
  let? generation := ok_or (checked_add64 (md_generation m) 1)
                           (store_error "record commit generation exhausted") in
  let? _ := match io with AioTxn e => Err e | _ => Ok tt end in
  let? (next, table) := try_fold commit_change
    (mkMetadata (md_format m) (md_database m) generation (md_live m) (md_identities m)
       (Z.max (md_wall_floor m) (rd_wall now)), records_of s) changes in
  let? mb := map_err store_error (to_stdvec next) in
  Ok (next, with_db (fs_disk s) (mkDb (Some (Some mb)) (Some table))).

(** [Inner::commit]. *)
Definition file_commit (s : FileStore) (changes : list (bytes * Stored)) (now : Reading)
    (io : AccessIo) : FileStore * result unit DiscoveryError :=
  let fail d e : FileStore * result unit DiscoveryError :=
    (mkFileStore d (fs_metadata s) true (fs_observed_wall s) (fs_cursor s), Err e) in
  match commit_prepare s changes now io with
  | Err e => fail (fs_disk s) e
  | Ok (next, d') =>
      match io with
      | AioCommit e applied => fail (if applied then d' else fs_disk s) e
      | _ =>
          match encode_anchor next with
          | Err e => fail d' e
          | Ok b =>
              match io with
              | AioAnchorWrite e replaced => fail (if replaced then with_anchor d' b else d') e
              | _ => (mkFileStore (with_anchor d' b) next false (fs_observed_wall s) (fs_cursor s), Ok tt)
              end
          end
      end
  end.

(** ** Access *)

Definition set_file_failed (s : FileStore) (failed : bool) : FileStore :=
  mkFileStore (fs_disk s) (fs_metadata s) failed (fs_observed_wall s) (fs_cursor s).
Definition set_file_wall (s : FileStore) (w : duration) : FileStore :=
  mkFileStore (fs_disk s) (fs_metadata s) (fs_failed s) w (fs_cursor s).

(** [healthy], the reading and [observe], at the start of every access. *)
Definition file_observe (s : FileStore) (now : result Reading DiscoveryError)
    : result (FileStore * Reading) DiscoveryError :=
  if fs_failed s then Err (store_error "record commit outcome uncertain; reopen required") else
  let? now := now in
  let? wall := observe (md_wall_floor (fs_metadata s)) (fs_observed_wall s) now in
  Ok (set_file_wall s wall, now).

(** [FileStore::access_admitted]. *)
Definition file_access {L : Type} (s : FileStore) (key : EndpointKey)
    (entry : option RecordEntry) (now : result Reading DiscoveryError)
    (admission : bool -> L -> result unit DiscoveryError * L) (l : L) (io : AccessIo)
    : FileStore * L * result (option EndpointRecord) DiscoveryError :=
  match file_observe s now with
  | Err e => (s, l, Err e)
  | Ok (s, now) =>
      match (let? _ := match io with AioRead e => Err e | _ => Ok tt end in
             match records_of s !! key with
             | None => Ok None
             | Some v => let? old := cell_decode v key in Ok (Some old)
             end) with
      | Err e => (set_file_failed s true, l, Err e)
      | Ok old =>
          match decide_access old entry key now with
          | Err e => (s, l, Err e)
          | Ok decision =>
              match de_replacement decision with
              | None => (s, l, de_result decision)
              | Some replacement =>
                  if negb (is_some old) && (MAX_IDENTITIES <=? md_identities (fs_metadata s))
                  then (s, l, Err (store_error "record identity capacity exceeded")) else
                  let '(allowed, l) :=
                    match replacement with
                    | StActive _ _ => admission (is_some old) l
                    | StRetired _ _ _ => (Ok tt, l)
                    end in
                  match allowed with
                  | Err e => (s, l, Err e)
                  | Ok _ =>
                      let '(s, committed) := file_commit s [(key, replacement)] now io in
                      match committed with
                      | Err e => (s, l, Err e)
                      | Ok _ => (s, l, de_result decision)
                      end
                  end
              end
          end
      end
  end.

(** The scan of [collect_at] over one batch: what expired. *)
Fixpoint collect_scan (records : gmap bytes bytes) (now : Reading) (keys : list bytes)
    : result (list (bytes * Stored)) DiscoveryError :=
  match keys with
  | [] => Ok []
  | key :: keys =>
      if negb (bool_decide (length key = 32%nat))
      then Err (store_error "could not convert slice to array") else
      let? stored := cell_decode (default [] (records !! key)) key in
      let? retired := stored_retire stored key now in
      let? rest := collect_scan records now keys in
      Ok (match retired with Some t => (key, t) :: rest | None => rest end)
  end.

(** [FileStore::collect_at]. *)
Definition file_collect (s : FileStore) (now : result Reading DiscoveryError) (io : AccessIo)
    : FileStore * result Z DiscoveryError :=
  match file_observe s now with
  | Err e => (s, Err e)
  | Ok (s, now) =>
      let keys := batch_keys (records_of s) (fs_cursor s) in
      match (let? _ := match io with AioRead e => Err e | _ => Ok tt end in
             collect_scan (records_of s) now keys) with
      | Err e => (set_file_failed s true, Err e)
      | Ok changes =>
          let '(s, committed) :=
            if bool_decide (changes = []) then (s, Ok tt) else file_commit s changes now io in
          match committed with
          | Err e => (s, Err e)
          | Ok _ =>
              (mkFileStore (fs_disk s) (fs_metadata s) (fs_failed s) (fs_observed_wall s)
                 (if bool_decide (length keys = GC_BATCH) then last keys else None),
               Ok (zlen changes))
          end
      end
  end.

(** [RecordStore] for [FileStore]. *)
Definition file_put {L} (s : FileStore) (record : EndpointRecord) (now : result Reading DiscoveryError)
    (admission : bool -> L -> result unit DiscoveryError * L) (l : L) (io : AccessIo)
    : FileStore * L * result unit DiscoveryError :=
  match EndpointRecord_verify record with
  | Err e => (s, l, Err e)
  | Ok p =>
      let '(s, l, r) := file_access s (pl_key p) (Some (RecRecord record)) now admission l io in
      (s, l, match r with Ok _ => Ok tt | Err e => Err e end)
  end.
Definition file_remove {L} (s : FileStore) (tomb : DeleteRequest) (now : result Reading DiscoveryError)
    (admission : bool -> L -> result unit DiscoveryError * L) (l : L) (io : AccessIo)
    : FileStore * L * result unit DiscoveryError :=
  match DeleteRequest_verify tomb with
  | Err e => (s, l, Err e)
  | Ok p =>
      let '(s, l, r) := file_access s (dp_key p) (Some (RecDeleted tomb)) now admission l io in
      (s, l, match r with Ok _ => Ok tt | Err e => Err e end)
  end.
Definition file_get (s : FileStore) (key : EndpointKey) (now : result Reading DiscoveryError)
    (io : AccessIo) : FileStore * result EndpointRecord DiscoveryError :=
  let '(s, _, r) := file_access s key None now (fun _ l => (Ok tt, l)) tt io in
  (s, match r with
      | Ok (Some record) => Ok record
      | Ok None => Err NotFound
      | Err e => Err e
      end).
Definition file_len (s : FileStore) : Z := md_live (fs_metadata s).

End WithLibraries.

(** ** What a disk holds *)

Section Proofs.
Context `{HEd : Ed25519, HU : UrlLibrary, HB : Blake3, HZ : Postcard Z}.
Context `{HP : Postcard RecordPayload, HD : Postcard DeletePayload, HE : Postcard RecordEntry}.
Context `{HSt : Postcard Stored, HMd : Postcard Metadata, HAn : SerdeJson RecordAnchor}.
Context `{HT : !PostcardTotal RecordEntry, HSl : !PostcardLaws Stored, HMl : !PostcardLaws Metadata}.
Context `{HAl : !SerdeJsonLaws RecordAnchor}.

(** The catalog a table encodes. *)
Definition catalog_of (t : gmap bytes bytes) : gmap bytes Stored :=
  map_imap (fun k b => match cell_decode b k with Ok s => Some s | Err _ => None end) t.

Definition cell_ok (floor : duration) (k b : bytes) : Prop :=
  length k = 32%nat /\ exists s, cell_decode b k = Ok s /\ stored_accepted_wall s <= floor.

Record consistent (db : RecordDb) (md : Metadata) : Prop := {
  cs_meta : exists mb, db_meta db = Some (Some mb) /\ exact Metadata mb = Ok md;
  cs_records : exists t, db_records db = Some t /\ map_Forall (cell_ok (md_wall_floor md)) t
    /\ md_identities md = Z.of_nat (size t) /\ md_live md = catalog_live (catalog_of t);
  cs_format : md_format md = 3;
  cs_generation : 1 <= md_generation md <= u64_max;
  cs_identities : md_identities md <= MAX_IDENTITIES;
  cs_floor : 0 <= md_wall_floor md
}.

Definition anchored (d : RecordDisk) (md : Metadata) : Prop :=
  exists b, dk_anchor d = Some b /\ decode_anchor b = Ok md.

(** The anchor is at the database or one commit behind it. *)
Definition behind (a md : Metadata) : Prop :=
  a = md \/ md_format a = md_format md /\ md_database a = md_database md
            /\ md_generation md = md_generation a + 1 /\ md_wall_floor a <= md_wall_floor md.

Definition disk_catalog (d : RecordDisk) : gmap bytes Stored :=
  catalog_of (default ∅ (db_records (dk_db d))).

(** The disks an owner can leave behind, at whatever call it stops. *)
Inductive reopenable (d : RecordDisk) : Prop :=
| ro_blank : dk_db d = mkDb None None -> dk_anchor d = None -> dk_sealed d = false -> reopenable d
| ro_new md : consistent (dk_db d) md -> md_generation md = 1 -> md_identities md = 0 ->
    dk_anchor d = None -> dk_sealed d = false -> reopenable d
| ro_anchored a md : consistent (dk_db d) md -> anchored d a -> behind a md -> reopenable d.

(** The invariant of a running store; a failed one only owes a disk that reopens. *)
Record file_ok (s : FileStore) : Prop := {
  fk_disk : reopenable (fs_disk s);
  fk_healthy : fs_failed s = false ->
    consistent (dk_db (fs_disk s)) (fs_metadata s) /\ anchored (fs_disk s) (fs_metadata s)
}.

Lemma exact_ok {A} `{Postcard A} b (a : A) : exact A b = Ok a <-> take_from_bytes b = Ok (a, []).
Proof.
  unfold exact. destruct (take_from_bytes b) as [[x r]|]; simpl; [|naive_solver].
  case_bool_decide; simpl; naive_solver.
Qed.
Lemma exact_encoded {A} `{Postcard A, !PostcardLaws A} b (a : A) : to_stdvec a = Ok b -> exact A b = Ok a.
Proof. intros E. apply exact_ok. rewrite <-(app_nil_r b). by apply (take_to_stdvec a). Qed.

Lemma cell_decode_ok b k s : cell_decode b k = Ok s -> exists rev, stored_verify s k = Ok rev.
Proof.
  unfold cell_decode. destruct (_ <? _); [done|]. destruct (exact Stored b) as [t|]; [|done]. simpl.
  destruct (stored_verify t k) as [rev|] eqn:E; [|done]. intros [= <-]. by exists rev.
Qed.
Lemma cell_decode_encoded b k s rev :
  to_stdvec s = Ok b -> zlen b <= MAX_CELL -> stored_verify s k = Ok rev -> cell_decode b k = Ok s.
Proof.
  intros E L V. unfold cell_decode. rewrite (proj2 (Z.ltb_ge _ _)) by done.
  rewrite (exact_encoded b s E). simpl. by rewrite V.
Qed.

Lemma decode_encode_anchor md b : encode_anchor md = Ok b -> decode_anchor b = Ok md.
Proof.
  unfold encode_anchor, decode_anchor. destruct (to_stdvec md) as [mb|] eqn:E; [|done]. simpl.
  destruct (json_to_vec _) as [jb|] eqn:J; [|done]. intros [= <-].
  rewrite (json_roundtrip _ _ J). simpl. rewrite E. simpl. by rewrite bool_decide_eq_true_2.
Qed.

Lemma catalog_of_lookup t k :
  catalog_of t !! k = b ← t !! k; match cell_decode b k with Ok s => Some s | Err _ => None end.
Proof. apply map_lookup_imap. Qed.

Lemma catalog_of_insert t k b s :
  cell_decode b k = Ok s -> catalog_of (<[k := b]> t) = <[k := s]> (catalog_of t).
Proof. intros E. unfold catalog_of. erewrite map_imap_insert_Some; [done|]. by rewrite E. Qed.

Lemma catalog_of_size t floor : map_Forall (cell_ok floor) t -> size (catalog_of t) = size t.
Proof.
  intros F. rewrite <-!size_dom. f_equal. apply set_eq. intros k. rewrite !elem_of_dom, catalog_of_lookup.
  destruct (t !! k) as [b|] eqn:E; simpl; [|by split; intros [? ?]].
  destruct (F k b E) as (_ & s & -> & _). by split; intros _.
Qed.

Lemma catalog_of_ok t : catalog_ok (catalog_of t).
Proof.
  intros k s E. rewrite catalog_of_lookup in E. destruct (t !! k) as [b|]; [|done]. simpl in E.
  destruct (cell_decode b k) as [s'|] eqn:C; [|done]. injection E as <-.
  apply cell_decode_ok in C as [rev V].
  assert (exists g, stored_digest s' = Ok g) as [g G].
  { destruct s' as [e l|r g b']; simpl; [apply entry_digest_total|eauto]. }
  by exists rev, g.
Qed.

(** ** Opening *)

Lemma list_to_map_btree {V} (t : gmap bytes V) : list_to_map (btree_items t) = t.
Proof.
  apply map_eq. intros k. apply option_eq. intros v.
  rewrite <-elem_of_list_to_map by apply btree_items_nodup. apply elem_of_btree_items.
Qed.

(** The scan counts the identities and the live records of the catalog. *)
Lemma check_cells_ok floor l i n :
  NoDup l.*1 -> Forall (fun kv => cell_ok floor kv.1 kv.2) l -> 0 <= i -> i + zlen l <= MAX_IDENTITIES ->
  try_fold (check_cell floor) (i, n) l = Ok (i + zlen l, n + catalog_live (catalog_of (list_to_map l))).
Proof.
  revert i n. induction l as [|[k b] l IH]; intros i n Hn F Hi Hl; simpl.
  - unfold catalog_live, catalog_of. rewrite map_imap_empty, map_filter_empty, map_size_empty.
    unfold zlen. simpl. do 2 f_equal; lia.
  - csimpl in Hn. apply NoDup_cons in Hn as [Nk Hn]. apply Forall_cons in F as [(Lk & s & C & W) F].
    simpl in *. rewrite zlen_cons in Hl |- *. pose proof (zlen_nonneg l).
    unfold check_cell at 1. simpl. rewrite (proj2 (Z.ltb_ge _ _)) by lia.
    rewrite bool_decide_eq_true_2 by done. rewrite C. simpl. rewrite (proj2 (Z.ltb_ge _ _)) by done.
    rewrite IH by (done || lia). rewrite (catalog_of_insert _ _ _ _ C), catalog_live_insert.
    assert (N : catalog_of (list_to_map l) !! k = None).
    { rewrite catalog_of_lookup, (not_elem_of_list_to_map_1 _ _ Nk). done. }
    rewrite N. unfold live_count. simpl. do 2 f_equal; [lia|destruct (stored_live s); lia].
Qed.

Lemma consistent_catalog db md :
  consistent db md -> exists t, db_records db = Some t /\ check_catalog md t = Ok tt.
Proof.
  intros [_ (t & Et & F & Hi & Hl) _ _ Hm _]. exists t. split; [done|]. unfold check_catalog.
  pose proof (check_cells_ok (md_wall_floor md) (btree_items t) 0 0) as K.
  rewrite list_to_map_btree in K. unfold zlen in K. rewrite btree_items_length in K.
  rewrite K; [|apply btree_items_nodup| |lia|lia].
  - simpl. rewrite Hi, Hl, !Z.add_0_l, !Z.eqb_refl. done.
  - apply Forall_forall. intros [k b] E. by apply F, elem_of_btree_items.
Qed.

(** An anchor can be encoded: its fields are numbers and bytes. *)
Class AnchorTotal : Prop := encode_anchor_total : forall md mb,
  exact Metadata mb = Ok md -> exists b, encode_anchor md = Ok b.
Context `{HAt : !AnchorTotal}.

Lemma metadata_checks db md : consistent db md ->
  negb (md_format md =? 3) || (md_generation md =? 0) || (MAX_IDENTITIES <? md_identities md) = false.
Proof.
  intros [_ _ -> Hg Hi _]. rewrite Z.eqb_refl. simpl.
  rewrite (proj2 (Z.eqb_neq _ _)) by lia. by apply Z.ltb_ge.
Qed.

Lemma check_anchor_behind a md :
  behind a md -> md_generation md <= u64_max -> check_anchor (Some a) md = Ok tt.
Proof.
  intros B Hg. unfold check_anchor, sat_add64. destruct B as [->|(-> & -> & Eg & Hw)]; [|rewrite Eg in *].
  - rewrite Z.eqb_refl, Z.ltb_irrefl, !bool_decide_eq_true_2, Z.ltb_irrefl by done. simpl.
    rewrite (proj2 (Z.ltb_ge _ _)) by lia. by rewrite andb_false_r.
  - rewrite Z.eqb_refl, (proj2 (Z.ltb_ge _ _)), bool_decide_eq_true_2 by done. simpl.
    rewrite !(proj2 (Z.ltb_ge _ _)) by lia. simpl. by rewrite (proj2 (Z.eqb_neq _ _)) by lia.
Qed.

(** What opening leaves, whatever its calls return: the same catalog on a disk that
    reopens; and a healthy store when nothing fails. *)
Definition opens (d d' : RecordDisk) (r : result FileStore DiscoveryError) (io : OpenIo) : Prop :=
  reopenable d' /\ disk_catalog d' = disk_catalog d
  /\ (forall s, r = Ok s -> file_ok s /\ fs_failed s = false /\ fs_disk s = d')
  /\ (io = OioDone -> is_ok r = true).

Lemma open_seal_ok d0 d md io :
  dk_db d = dk_db d0 -> consistent (dk_db d) md -> anchored d md ->
  opens d0 (open_seal d md io).1 (open_seal d md io).2 io.
Proof.
  intros E C A.
  assert (K : forall d2, dk_db d2 = dk_db d -> dk_anchor d2 = dk_anchor d ->
    reopenable d2 /\ disk_catalog d2 = disk_catalog d0 /\ file_ok (mkFileStore d2 md false 0 None)).
  { intros d2 E2 A2. assert (C2 : consistent (dk_db d2) md) by (by rewrite E2).
    assert (A3 : anchored d2 md) by (unfold anchored; by rewrite A2).
    assert (R2 : reopenable d2) by (eapply (ro_anchored _ md md); [done..|by left]).
    split_and!; [done| |by split]. unfold disk_catalog. by rewrite E2, E. }
  destruct (K d eq_refl eq_refl) as (K1 & K2 & K3).
  destruct (K (with_seal d) eq_refl eq_refl) as (S1 & S2 & S3).
  assert (Good : forall d2, reopenable d2 -> disk_catalog d2 = disk_catalog d0 ->
    file_ok (mkFileStore d2 md false 0 None) -> opens d0 d2 (Ok (mkFileStore d2 md false 0 None)) io).
  { intros d2 H1 H2 H3. split_and!; [done|done| |done]. by intros s [= <-]. }
  assert (Bad : forall d2 e, reopenable d2 -> disk_catalog d2 = disk_catalog d0 -> io <> OioDone ->
    opens d0 d2 (Err e) io).
  { intros d2 e H1 H2 H3. by split_and!. }
  unfold open_seal. destruct (dk_sealed d); [by apply Good|].
  destruct io as [| | | |e []]; simpl; first [by apply Good|by apply Bad].
Qed.

Lemma open_finish_ok d sa md io :
  consistent (dk_db d) md ->
  match sa with
  | Some a => anchored d a /\ behind a md
  | None => md_generation md = 1 /\ md_identities md = 0 /\ dk_anchor d = None /\ dk_sealed d = false
  end ->
  opens d (open_finish d sa md io).1 (open_finish d sa md io).2 io.
Proof.
  intros C Sa. assert (R : reopenable d).
  { destruct sa as [a|]; [destruct Sa; by eapply ro_anchored|]. destruct Sa as (? & ? & ? & ?). by eapply ro_new. }
  unfold open_finish. case_bool_decide as Eq.
  { rewrite Eq in Sa. apply open_seal_ok; [done|done|apply Sa]. }
  destruct (cs_meta _ _ C) as (mb & _ & Emb).
  destruct (encode_anchor_total md mb Emb) as [b Eb]. rewrite Eb.
  assert (Ab : anchored (with_anchor d b) md) by (exists b; split; [done|by apply decode_encode_anchor]).
  assert (Rb : reopenable (with_anchor d b)) by (eapply (ro_anchored _ md md); [done..|by left]).
  destruct io as [| | |e replaced|]; try (by apply open_seal_ok). by destruct replaced.
Qed.

Lemma check_opened_ok d sa md :
  consistent (dk_db d) md ->
  match sa with
  | Some a => behind a md
  | None => md_generation md = 1 /\ md_identities md = 0
  end -> check_opened d sa md = Ok tt.
Proof.
  intros C Sa. unfold check_opened. rewrite (metadata_checks _ _ C).
  destruct (consistent_catalog _ _ C) as (t & -> & ->). destruct sa as [a|].
  - rewrite check_anchor_behind; [done|done|apply C].
  - unfold check_anchor. by destruct Sa as [-> ->].
Qed.

Lemma opens_base d0 d d' r io :
  disk_catalog d = disk_catalog d0 -> opens d d' r io -> opens d0 d' r io.
Proof. intros E (K1 & K2 & K3 & K4). split_and!; try done. by rewrite K2. Qed.

(** The metadata of a new database. *)
Lemma consistent_new fresh mb :
  to_stdvec (mkMetadata 3 fresh 1 0 0 0) = Ok mb ->
  consistent (mkDb (Some (Some mb)) (Some ∅)) (mkMetadata 3 fresh 1 0 0 0).
Proof.
  intros E. split; simpl; try done.
  - exists mb. split; [done|by apply exact_encoded].
  - exists ∅. split_and!; [done|by apply map_Forall_empty|done|].
    unfold catalog_live, catalog_of. by rewrite map_imap_empty, map_filter_empty, map_size_empty.
Qed.

Lemma open_anchor_ok migrating names d io sa :
  (forall a, sa = Some a -> anchored d a) -> (sa = None -> dk_anchor d = None /\ dk_sealed d = false) ->
  (io = OioDone -> check_namespace migrating 0 names = Ok tt) ->
  open_anchor migrating names d io = Ok sa
  \/ io <> OioDone /\ exists e, open_anchor migrating names d io = Err e.
Proof.
  intros Ha Hn Hc. unfold open_anchor.
  destruct io eqn:Eio; simpl; try (by right; eauto);
    (destruct (check_namespace migrating 0 names) as [[]|?] eqn:Ec;
     [|first [by specialize (Hc eq_refl)|by right; eauto]]); left; simpl;
    (destruct sa as [a|];
     [destruct (Ha a eq_refl) as (b & -> & ->)|destruct (Hn eq_refl) as [-> ->]]; done).
Qed.

(** From any disk an owner can leave, opening runs to a healthy store with the catalog of
    that disk when its calls succeed; when one fails the disk still reopens, with the
    same catalog. *)
Lemma open_owned_ok migrating names fresh d io :
  reopenable d -> (io = OioDone -> check_namespace migrating 0 names = Ok tt) ->
  (io = OioDone -> exists b, to_stdvec (mkMetadata 3 fresh 1 0 0 0) = Ok b) ->
  opens d (open_owned migrating names fresh d io).1 (open_owned migrating names fresh d io).2 io.
Proof.
  intros R Hn Hf. pose proof R as R0.
  assert (Fail : forall e, io <> OioDone -> opens d d (Err e) io) by (intros e Ne; by split_and!).
  (* a database with metadata *)
  assert (Run : forall sa md, consistent (dk_db d) md ->
    match sa with
    | Some a => anchored d a /\ behind a md
    | None => md_generation md = 1 /\ md_identities md = 0 /\ dk_anchor d = None /\ dk_sealed d = false
    end -> opens d (open_owned migrating names fresh d io).1 (open_owned migrating names fresh d io).2 io).
  { intros sa md C Sa. unfold open_owned.
    destruct (open_anchor_ok migrating names d io sa) as [->|[Ne [e ->]]]; [naive_solver..| |by apply Fail].
    unfold open_metadata. destruct (cs_meta _ _ C) as (mb & -> & ->).
    rewrite check_opened_ok; [by apply open_finish_ok|done|]. destruct sa; naive_solver. }
  destruct R as [Rd Ra Rs|md C Hg Hi Ra Rs|a md C A B].
  - unfold open_owned. destruct (open_anchor_ok migrating names d io None) as [->|[Ne [e ->]]];
      [done|done|done| |by apply Fail].
    unfold open_metadata. rewrite Rd. simpl.
    destruct (to_stdvec (mkMetadata 3 fresh 1 0 0 0)) as [mb|] eqn:Em.
    2:{ destruct (decide (io = OioDone)) as [->|Ne]; [|by apply Fail]. by destruct (Hf eq_refl). }
    set (d' := with_db d (mkDb (Some (Some mb)) (Some ∅))).
    pose proof (consistent_new fresh mb Em) as C.
    assert (E : disk_catalog d' = disk_catalog d) by (unfold disk_catalog; by rewrite Rd).
    assert (Go : opens d (open_finish d' None (mkMetadata 3 fresh 1 0 0 0) io).1
                   (open_finish d' None (mkMetadata 3 fresh 1 0 0 0) io).2 io).
    { apply (opens_base _ d'); [done|]. by apply open_finish_ok. }
    destruct io as [|e|e []|e r|e sl]; try (rewrite check_opened_ok by done; exact Go); [|by apply Fail].
    split_and!; try done. by eapply (ro_new _ (mkMetadata 3 fresh 1 0 0 0)).
  - by apply (Run None md).
  - by apply (Run (Some a) md).
Qed.

(** ** Commits *)

Record table_ok (md : Metadata) (t : gmap bytes bytes) : Prop := {
  tk_cells : map_Forall (cell_ok (md_wall_floor md)) t;
  tk_identities : md_identities md = Z.of_nat (size t);
  tk_live : md_live md = catalog_live (catalog_of t);
  tk_bound : md_identities md <= MAX_IDENTITIES
}.

(** The fields a change does not count. *)
Definition same_header (a b : Metadata) : Prop :=
  md_format a = md_format b /\ md_database a = md_database b /\ md_generation a = md_generation b
  /\ md_wall_floor a = md_wall_floor b.

Definition change_ok (floor : duration) (c : bytes * Stored) : Prop :=
  length c.1 = 32%nat /\ (exists rev, stored_verify c.2 c.1 = Ok rev) /\ stored_accepted_wall c.2 <= floor.

Definition apply_changes (c : gmap bytes Stored) (changes : list (bytes * Stored)) : gmap bytes Stored :=
  foldl (fun c kv => <[kv.1 := kv.2]> c) c changes.

Lemma commit_change_ok md t c md' t' :
  table_ok md t -> change_ok (md_wall_floor md) c -> commit_change (md, t) c = Ok (md', t') ->
  table_ok md' t' /\ same_header md' md /\ catalog_of t' = <[c.1 := c.2]> (catalog_of t).
Proof.
  destruct c as [k r]. intros [T1 T2 T3 T4] (Lk & [rev V] & W) H. simpl in *.
  destruct (to_stdvec r) as [b|] eqn:Eb; [|done]. simpl in H.
  destruct (MAX_CELL <? zlen b) eqn:Lb; [done|]. b2p.
  pose proof (cell_decode_encoded _ _ _ _ Eb Lb V) as Cb.
  set (old := match t !! k with None => Ok None | Some v => let? s := cell_decode v k in Ok (Some s) end) in H.
  assert (Old : old = Ok (catalog_of t !! k) /\ is_some (catalog_of t !! k) = is_some (t !! k)).
  { unfold old. rewrite catalog_of_lookup. destruct (t !! k) as [v|] eqn:Ev; [|done]. simpl.
    destruct (T1 k v Ev) as (_ & s & -> & _). done. }
  destruct Old as [-> Is]. cbv beta iota in H.
  destruct (if is_some (catalog_of t !! k) then _ else _) as [n|] eqn:En; [|done].
  destruct (ok_or _ _) as [live|] eqn:El; [|done]. injection H as <- <-.
  pose proof (catalog_of_insert t k b r Cb) as Ei.
  assert (Hn : n = Z.of_nat (size (<[k := b]> t)) /\ n <= MAX_IDENTITIES).
  { rewrite map_size_insert. rewrite Is in En. destruct (t !! k); simpl in *.
    - injection En as <-. by rewrite T2 in *.
    - unfold checked_add64 in En. destruct (_ <=? u64_max); [|done].
      destruct (Z.leb_spec (md_identities md + 1) MAX_IDENTITIES); [|done]. injection En as <-. lia. }
  assert (Hl : live = catalog_live (catalog_of (<[k := b]> t))).
  { rewrite Ei, catalog_live_insert, <-T3. unfold checked_sub64, checked_add64, ok_or in El.
    destruct (_ <=? md_live md); [|done]. destruct (_ <=? u64_max); [|done]. by injection El as <-. }
  split_and!; [|done|done]. destruct Hn as [Hn Hm]. split; simpl; try done.
  apply map_Forall_insert_2; [|done]. split; [done|]. by exists r.
Qed.

Lemma commit_changes_ok md t changes md' t' :
  table_ok md t -> Forall (change_ok (md_wall_floor md)) changes ->
  try_fold commit_change (md, t) changes = Ok (md', t') ->
  table_ok md' t' /\ same_header md' md /\ catalog_of t' = apply_changes (catalog_of t) changes.
Proof.
  revert md t. induction changes as [|c changes IH]; intros md t T F H; cbn [try_fold] in H.
  { injection H as <- <-. by split_and!. }
  apply Forall_cons in F as [Fc F].
  destruct (commit_change (md, t) c) as [[md1 t1]|] eqn:C; [|done].
  destruct (commit_change_ok _ _ _ _ _ T Fc C) as (T1 & (S1 & S2 & S3 & S4) & E1).
  destruct (IH md1 t1) as (T2 & (R1 & R2 & R3 & R4) & E2); [done|by rewrite S4|done|].
  split_and!; [done|split_and!; congruence|]. simpl. by rewrite <-E1.
Qed.

Lemma consistent_table db md t :
  consistent db md -> db_records db = Some t -> table_ok md t.
Proof. intros [_ (t' & E' & F & Hi & Hl) _ _ Hm _] E. rewrite E in E'. injection E' as <-. by split. Qed.

Lemma commit_prepare_ok s changes now io next d' :
  file_ok s -> fs_failed s = false -> 0 <= rd_wall now ->
  Forall (change_ok (Z.max (md_wall_floor (fs_metadata s)) (rd_wall now))) changes ->
  commit_prepare s changes now io = Ok (next, d') ->
  consistent (dk_db d') next /\ anchored d' (fs_metadata s) /\ behind (fs_metadata s) next
  /\ md_wall_floor next = Z.max (md_wall_floor (fs_metadata s)) (rd_wall now)
  /\ disk_catalog d' = apply_changes (disk_catalog (fs_disk s)) changes.
Proof.
  intros K Nf Hw Fc H. destruct (fk_healthy _ K Nf) as [C (ab & Ea & Da)].
  unfold commit_prepare in H. destruct (match io with AioAnchorRead _ => _ | _ => _ end); [|done].
  simpl in H. rewrite Ea in H. simpl in H. rewrite Da in H. cbv beta iota in H.
  rewrite bool_decide_eq_true_2 in H by done. cbn [negb] in H.
  set (m := fs_metadata s) in *. unfold checked_add64 in H.
  destruct (Z.leb_spec (md_generation m + 1) u64_max) as [Hg|]; [|done]. cbn [ok_or] in H.
  destruct (match io with AioTxn _ => _ | _ => _ end); [|done]. cbv beta iota in H.
  destruct (cs_records _ _ C) as (t & Et & _). unfold records_of in H. rewrite Et in H. cbn [default] in H.
  pose proof (consistent_table _ _ _ C Et) as [T1 T2 T3 T4].
  destruct (try_fold commit_change _ _) as [[nx tb]|] eqn:F; [|done]. cbv beta iota in H.
  apply commit_changes_ok in F as ([N1 N2 N3 N4] & (S1 & S2 & S3 & S4) & Ec); [|split; simpl; try done|done].
  2:{ eapply map_Forall_impl; [exact T1|]. intros k b (L & x & X1 & X2). split; [done|].
      exists x. split; [done|]. simpl. lia. }
  destruct (to_stdvec nx) as [mb|] eqn:Em; [|done]. injection H as <- <-. simpl in *.
  destruct C as [_ _ Cf Cg _ Cw].
  split_and!.
  - split; simpl; try done; [| |congruence|lia|lia].
    + exists mb. split; [done|by apply exact_encoded].
    + exists tb. by split_and!.
  - by exists ab.
  - right. split_and!; try done; lia.
  - done.
  - unfold disk_catalog. simpl. rewrite Ec. unfold disk_catalog. by rewrite Et.
Qed.

(** What a commit leaves: all of the changes, or nothing when it is refused; a commit
    that fails midway may have written them. *)
Definition committed (s : FileStore) (changes : list (bytes * Stored)) (now : Reading)
    (s' : FileStore) (r : result unit DiscoveryError) : Prop :=
  match r with
  | Ok _ => fs_failed s' = false
      /\ disk_catalog (fs_disk s') = apply_changes (disk_catalog (fs_disk s)) changes
      /\ md_wall_floor (fs_metadata s') = Z.max (md_wall_floor (fs_metadata s)) (rd_wall now)
  | Err _ => fs_failed s' = true
      /\ (disk_catalog (fs_disk s') = disk_catalog (fs_disk s)
          \/ disk_catalog (fs_disk s') = apply_changes (disk_catalog (fs_disk s)) changes)
  end.

Lemma file_commit_ok s changes now io s' r :
  file_ok s -> fs_failed s = false -> 0 <= rd_wall now ->
  Forall (change_ok (Z.max (md_wall_floor (fs_metadata s)) (rd_wall now))) changes ->
  file_commit s changes now io = (s', r) ->
  file_ok s' /\ fs_observed_wall s' = fs_observed_wall s /\ fs_cursor s' = fs_cursor s
  /\ committed s changes now s' r.
Proof.
  intros K Nf Hw Fc H.
  assert (Fail : forall d1 e, reopenable d1 -> (disk_catalog d1 = disk_catalog (fs_disk s)
      \/ disk_catalog d1 = apply_changes (disk_catalog (fs_disk s)) changes) ->
    (mkFileStore d1 (fs_metadata s) true (fs_observed_wall s) (fs_cursor s), Err e) = (s', r) ->
    file_ok s' /\ fs_observed_wall s' = fs_observed_wall s /\ fs_cursor s' = fs_cursor s
    /\ committed s changes now s' r).
  { intros d1 e R1 Hc [= <- <-]. by split_and!. }
  unfold file_commit in H. destruct (commit_prepare s changes now io) as [[next d']|e] eqn:P.
  2:{ eapply Fail; [|by left|exact H]. apply K. }
  destruct (commit_prepare_ok _ _ _ _ _ _ K Nf Hw Fc P) as (C & A & B & W & E).
  assert (R' : reopenable d') by (by eapply ro_anchored).
  assert (Rb : forall b, encode_anchor next = Ok b ->
    anchored (with_anchor d' b) next /\ reopenable (with_anchor d' b)).
  { intros b Eb. assert (A' : anchored (with_anchor d' b) next)
      by (exists b; split; [done|by apply decode_encode_anchor]).
    split; [done|]. eapply (ro_anchored _ next next); [done..|by left]. }
  destruct (encode_anchor next) as [b|e] eqn:Eb.
  - destruct (Rb b eq_refl) as [Ab Rb'].
    assert (Good : (mkFileStore (with_anchor d' b) next false (fs_observed_wall s) (fs_cursor s), Ok tt) = (s', r) ->
      file_ok s' /\ fs_observed_wall s' = fs_observed_wall s /\ fs_cursor s' = fs_cursor s
      /\ committed s changes now s' r).
    { intros [= <- <-]. split_and!; try done. }
    destruct io as [| | | |e applied|e replaced]; try (by apply Good).
    + eapply Fail; [| |exact H]; destruct applied; try done; [apply K|by right|by left].
    + eapply Fail; [| |exact H]; destruct replaced; try done; by right.
  - destruct io as [| | | |e' applied|e' replaced];
      try (eapply Fail; [exact R'|by right|exact H]).
    eapply Fail; [| |exact H]; destruct applied; try done; [apply K|by right|by left].
Qed.

(** ** Accesses *)

(** What the contract of a record store sees of a file store. *)
Definition file_catalog (s : FileStore) : Catalog :=
  mkCatalog (disk_catalog (fs_disk s)) (Z.max (md_wall_floor (fs_metadata s)) (fs_observed_wall s)).

Lemma Lease_new_wall i x now l : Lease_new i x now = Ok l -> ls_accepted_wall l = rd_wall now.
Proof. intros H. unfold Lease_new in H. inv_res H. by injection H as <-. Qed.

Lemma observe_max a b now :
  observe a b now = (if rd_wall now <? Z.max a b
                     then Err (store_error "record store wall clock moved backwards") else Ok (rd_wall now)).
Proof.
  unfold observe. destruct (Z.ltb_spec (rd_wall now) a), (Z.ltb_spec (rd_wall now) b),
    (Z.ltb_spec (rd_wall now) (Z.max a b)); simpl; (done || lia).
Qed.

Lemma replacement_ok old entry key now d t floor :
  (forall s, old = Some s -> stored_ok key s) -> decide_access old entry key now = Ok d ->
  de_replacement d = Some t -> length key = 32%nat -> 0 <= floor -> rd_wall now <= floor ->
  change_ok floor (key, t).
Proof.
  intros Ho D Et Lk F0 Fw. apply decide_access_ok in D as [D1 _ _]; [|done].
  destruct (D1 t Et) as ((rev & g & B & _) & _ & T). split_and!; simpl; [done|by exists rev|].
  destruct t as [e l|]; simpl; [|done]. destruct T as (_ & ? & ? & ? & ? & _ & El & _).
  by rewrite (Lease_new_wall _ _ _ _ El).
Qed.

(** How one access of the file store answers the contract: as the contract says, or with an
    error that closes the store and leaves the old catalog or the new one. *)
Definition answers {L} (c' : Catalog) (lc : L) (rc : result (option EndpointRecord) DiscoveryError)
    (s s' : FileStore) (l' : L) (r : result (option EndpointRecord) DiscoveryError) : Prop :=
  if fs_failed s' then is_ok r = false /\ (disk_catalog (fs_disk s') = disk_catalog (fs_disk s)
                                           \/ disk_catalog (fs_disk s') = ca_entries c')
  else file_catalog s' = c' /\ l' = lc /\ r = rc.

Lemma lookup_consistent s md key :
  consistent (dk_db (fs_disk s)) md ->
  match records_of s !! key with
  | None => Ok None
  | Some v => let? old := cell_decode v key in Ok (Some old)
  end = Ok (disk_catalog (fs_disk s) !! key).
Proof.
  intros [_ (t & Et & F & _) _ _ _ _]. unfold records_of, disk_catalog. rewrite Et. simpl.
  rewrite catalog_of_lookup. destruct (t !! key) as [v|] eqn:Ev; [|done]. simpl.
  by destruct (F key v Ev) as (_ & x & -> & _).
Qed.

Lemma size_consistent d md :
  consistent (dk_db d) md -> Z.of_nat (size (disk_catalog d)) = md_identities md.
Proof.
  intros [_ (t & Et & F & Hi & _) _ _ _ _]. unfold disk_catalog. rewrite Et. simpl.
  by rewrite (catalog_of_size _ _ F).
Qed.

Lemma file_access_refines {L} s key entry now adm (l : L) io s' l' r :
  file_ok s -> fs_failed s = false -> length key = 32%nat -> 0 <= rd_wall now ->
  file_access s key entry (Ok now) adm l io = (s', l', r) ->
  file_ok s' /\ answers (catalog_access MAX_IDENTITIES (file_catalog s) key entry now adm l).1.1
    (catalog_access MAX_IDENTITIES (file_catalog s) key entry now adm l).1.2
    (catalog_access MAX_IDENTITIES (file_catalog s) key entry now adm l).2 s s' l' r.
Proof.
  intros K Nf Lk Hw H. destruct (fk_healthy _ K Nf) as [C A]. unfold file_access, file_observe in H.
  rewrite Nf in H. cbv beta iota in H. rewrite observe_max in H. unfold catalog_access.
  cbn [file_catalog ca_wall ca_entries] in *. pose proof (cs_floor _ _ C) as F0.
  destruct (Z.ltb_spec (rd_wall now) (Z.max (md_wall_floor (fs_metadata s)) (fs_observed_wall s))) as [|Le].
  { injection H as <- <- <-. split; [done|]. unfold answers. by rewrite Nf. }
  cbv beta iota in H. set (s1 := set_file_wall s (rd_wall now)) in H.
  assert (K1 : file_ok s1) by (split; [apply K|done]).
  assert (Ec : file_catalog s1 = mkCatalog (disk_catalog (fs_disk s)) (rd_wall now))
    by (unfold file_catalog; simpl; f_equal; lia).
  assert (Keep : forall x : result (option EndpointRecord) DiscoveryError, (s1, l, x) = (s', l', r) ->
    file_ok s' /\ answers (mkCatalog (disk_catalog (fs_disk s)) (rd_wall now)) l x s s' l' r).
  { intros x [= <- <- <-]. split; [done|]. unfold answers. simpl. rewrite Nf. by rewrite Ec. }
  set (got := let? _ := match io with AioRead e => Err e | _ => Ok tt end in _) in H.
  destruct got as [old|e] eqn:G.
  2:{ injection H as <- <- <-. split; [by split; [apply K|]|]. split; [done|by left]. }
  unfold got in G. destruct (match io with AioRead _ => _ | _ => _ end); [|done]. cbv beta iota in G.
  rewrite (lookup_consistent s1 _ _ C) in G. injection G as <-. cbn [fs_disk s1 set_file_wall] in H.
  assert (Ho : forall x, disk_catalog (fs_disk s) !! key = Some x -> stored_ok key x)
    by (intros x; apply catalog_of_ok).
  set (old := disk_catalog (fs_disk s) !! key) in *.
  destruct (decide_access old entry key now) as [d|e] eqn:D; [|by apply Keep].
  destruct (de_replacement d) as [t|] eqn:Et; [|by apply Keep].
  rewrite (size_consistent _ _ C). cbn [s1 set_file_wall fs_metadata] in H.
  destruct (_ && _) eqn:Cap; [by apply Keep|].
  set (run := match t with StActive _ _ => adm (is_some old) l | StRetired _ _ _ => (Ok tt, l) end) in *.
  destruct run as [allowed l1]. cbv beta iota in H |- *. destruct allowed as [[]|e].
  2:{ injection H as <- <- <-. split; [done|]. unfold answers. simpl. rewrite Nf. by rewrite Ec. }
  destruct (file_commit s1 _ now io) as [s2 cm] eqn:Cm.
  destruct (file_commit_ok s1 _ _ _ _ _ K1 Nf Hw ltac:(apply Forall_singleton;
    eapply (replacement_ok old entry key now d t); (done || (simpl; lia))) Cm) as (K2 & W2 & _ & R2).
  destruct cm as [[]|e]; injection H as <- <- <-; (split; [done|]); unfold answers.
  - destruct R2 as (-> & Ed & Ew). split_and!; try done. unfold file_catalog. rewrite Ed, W2, Ew.
    simpl. f_equal. lia.
  - by destruct R2 as (-> & Ed).
Qed.

(** ** Collection *)

(** Every binding of [c] is still there. *)
Definition same_bindings (c c' : gmap bytes Stored) : Prop :=
  forall key s rev dg, c !! key = Some s -> binds key s rev dg ->
    exists s', c' !! key = Some s' /\ binds key s' rev dg.

Lemma same_bindings_le c c' : same_bindings c c' -> catalog_le c c'.
Proof.
  intros H key s rev dg L B. destruct (H key s rev dg L B) as (s' & L' & B').
  exists s', rev, dg. split_and!; [done..|by right].
Qed.

(** A change that retires what the catalog holds. *)
Definition retires (c : gmap bytes Stored) (now : Reading) (kt : bytes * Stored) : Prop :=
  exists o, c !! kt.1 = Some o /\ stored_retire o kt.1 now = Ok (Some kt.2).

Lemma retires_bindings c0 c now changes :
  catalog_ok c0 -> Forall (retires c0 now) changes -> same_bindings c0 c ->
  same_bindings c0 (apply_changes c changes).
Proof.
  intros Hc. revert c. induction changes as [|[k t] changes IH]; intros c F S; [done|].
  apply Forall_cons in F as [(o & Lo & R) F]. simpl. apply IH; [done|].
  intros key s rev dg Ls B. destruct (decide (key = k)) as [->|Ne].
  - simpl in Lo. rewrite Ls in Lo. injection Lo as <-.
    destruct (stored_verify_key _ _ _ (proj1 B)) as [Kv Kr].
    destruct (stored_retire_ok _ _ _ _ _ _ R B Kv Kr) as (Bt & _).
    exists t. by rewrite lookup_insert, decide_True.
  - rewrite lookup_insert_ne by done. by eapply S.
Qed.

Lemma collect_scan_ok t floor now keys changes :
  map_Forall (cell_ok floor) t -> Forall (fun k => is_Some (t !! k)) keys -> 0 <= floor ->
  collect_scan t now keys = Ok changes ->
  Forall (retires (catalog_of t) now) changes /\ Forall (change_ok floor) changes.
Proof.
  intros T. revert changes. induction keys as [|k keys IH]; intros changes F F0 H; cbn [collect_scan] in H.
  { injection H as <-. by split. }
  apply Forall_cons in F as [[b Eb] F]. destruct (T k b Eb) as (Lk & o & Cd & _).
  rewrite bool_decide_eq_true_2 in H by done. cbn [negb] in H. rewrite Eb in H. cbn [from_option id] in H.
  rewrite Cd in H. cbv beta iota in H. destruct (stored_retire o k now) as [ret|] eqn:R; [|done].
  cbv beta iota in H. destruct (collect_scan t now keys) as [rest|] eqn:Rs; [|done].
  destruct (IH rest F F0 eq_refl) as [I1 I2]. destruct ret as [x|]; injection H as <-; [|done].
  assert (Lo : catalog_of t !! k = Some o) by (rewrite catalog_of_lookup, Eb; simpl; by rewrite Cd).
  destruct (catalog_of_ok t k o Lo) as (rev & g & B).
  destruct (stored_verify_key _ _ _ (proj1 B)) as [Kv Kr].
  destruct (stored_retire_ok _ _ _ _ _ _ R B Kv Kr) as (Bt & _ & e & l & _ & _ & ->).
  split; constructor; try done; [by exists o|]. split_and!; [done|by exists rev; apply Bt|done].
Qed.

Lemma batch_keys_in {A} (t : gmap bytes A) cursor : Forall (fun k => is_Some (t !! k)) (batch_keys t cursor).
Proof.
  apply Forall_take, Forall_forall. intros k E. apply list_elem_of_filter in E as [_ E].
  apply list_elem_of_fmap in E as ([k' v] & -> & E). apply elem_of_btree_items in E. by exists v.
Qed.

Lemma file_collect_ok s now io s' r :
  file_ok s -> fs_failed s = false -> (forall n, now = Ok n -> 0 <= rd_wall n) ->
  file_collect s now io = (s', r) ->
  file_ok s' /\ same_bindings (disk_catalog (fs_disk s)) (disk_catalog (fs_disk s')).
Proof.
  intros K Nf Hw H. destruct (fk_healthy _ K Nf) as [C A]. pose proof (cs_floor _ _ C) as F0.
  assert (Refl : forall c, same_bindings c c) by (intros c k x; eauto).
  unfold file_collect, file_observe in H. rewrite Nf in H.
  destruct now as [now|e]; [|by injection H as <- <-]. cbv beta iota in H.
  destruct (observe _ _ _) as [w|]; [|by injection H as <- <-]. cbv beta iota in H.
  set (s1 := set_file_wall s w) in H. assert (K1 : file_ok s1) by (split; [apply K|done]).
  destruct (match io with AioRead _ => _ | _ => _ end).
  2:{ injection H as <- <-. split; [by split; [apply K|]|apply Refl]. }
  destruct (collect_scan _ _ _) as [changes|] eqn:Sc.
  2:{ injection H as <- <-. split; [by split; [apply K|]|apply Refl]. }
  destruct (cs_records _ _ C) as (t & Et & T & _). unfold records_of in Sc. simpl in Sc. rewrite Et in Sc.
  destruct (collect_scan_ok _ _ _ _ _ T (batch_keys_in t _) F0 Sc) as [R1 R2].
  assert (Ed : disk_catalog (fs_disk s) = catalog_of t) by (unfold disk_catalog; by rewrite Et).
  case_bool_decide as Hn.
  { injection H as <- <-. split; [by split; [apply K|]|apply Refl]. }
  destruct (file_commit s1 changes now io) as [s2 cm] eqn:Cm.
  destruct (file_commit_ok s1 _ _ _ _ _ K1 Nf (Hw now eq_refl) ltac:(eapply Forall_impl; [exact R2|];
    intros [k x] (X1 & X2 & X3); split_and!; [done..|simpl in *; lia]) Cm) as ([K2 K3] & _ & _ & M).
  assert (Sb : same_bindings (disk_catalog (fs_disk s)) (disk_catalog (fs_disk s2))).
  { pose proof (retires_bindings _ _ now changes (catalog_of_ok t) R1 (Refl _)) as Rb.
    destruct cm; [destruct M as (_ & M & _)|destruct M as (_ & [M|M])]; rewrite M; simpl; rewrite Ed; done. }
  destruct cm; injection H as <- <-; by split.
Qed.

(** ** Runs with failures *)

(** A store is closed, only its disk left, or open. *)
Inductive fstate : Type := Closed (d : RecordDisk) | Opened (s : FileStore).
Definition disk_of (st : fstate) : RecordDisk :=
  match st with Closed d => d | Opened s => fs_disk s end.

(** One step of a service and its owner: open the directory, serve an access or a round of
    collection, each with whatever outcome the disk has, or stop at any point. *)
Inductive fstep : fstate -> fstate -> Prop :=
| FsOpen migrating names fresh d io d' r :
    open_owned migrating names fresh d io = (d', r) ->
    fstep (Closed d) (match r with Ok s => Opened s | Err _ => Closed d' end)
| FsAccess {L} s key entry now adm (l : L) io s' l' r :
    length key = 32%nat -> (forall n, now = Ok n -> 0 <= rd_wall n) ->
    file_access s key entry now adm l io = (s', l', r) -> fstep (Opened s) (Opened s')
| FsCollect s now io s' r :
    (forall n, now = Ok n -> 0 <= rd_wall n) ->
    file_collect s now io = (s', r) -> fstep (Opened s) (Opened s')
| FsStop s : fstep (Opened s) (Closed (fs_disk s)).

Definition fstate_ok (st : fstate) : Prop :=
  match st with Closed d => reopenable d | Opened s => file_ok s end.
Lemma fstate_reopenable st : fstate_ok st -> reopenable (disk_of st).
Proof. destruct st; [done|]. intros K. apply K. Qed.

Lemma file_access_failed {L} s key entry now adm (l : L) io :
  fs_failed s = true ->
  file_access s key entry now adm l io
  = (s, l, Err (store_error "record commit outcome uncertain; reopen required")).
Proof. intros E. unfold file_access, file_observe. by rewrite E. Qed.

(** One access, whatever fails: the store stays well-formed, no binding is lost, and an
    answer is an answer of the contract. *)
Lemma file_access_step {L} s key entry now adm (l : L) io s' l' r :
  file_ok s -> length key = 32%nat -> (forall n, now = Ok n -> 0 <= rd_wall n) ->
  file_access s key entry now adm l io = (s', l', r) ->
  file_ok s' /\ catalog_le (disk_catalog (fs_disk s)) (disk_catalog (fs_disk s'))
  /\ forall o, r = Ok o -> exists n, now = Ok n
       /\ accessed MAX_IDENTITIES (file_catalog s) key entry n l (file_catalog s') l' r.
Proof.
  intros K Lk Hw H. destruct (fs_failed s) eqn:Nf.
  { rewrite file_access_failed in H by done. by injection H as <- <- <-. }
  destruct now as [now|e].
  2:{ unfold file_access, file_observe in H. rewrite Nf in H. by injection H as <- <- <-. }
  destruct (file_access_refines _ _ _ _ _ _ _ _ _ _ K Nf Lk (Hw _ eq_refl) H) as [K' R].
  destruct (catalog_access _ _ _ _ _ _ _) as [[c' lc] rc] eqn:Ca. simpl in R.
  pose proof (catalog_access_ok _ (file_catalog s) _ _ _ _ _ _ _ _ (catalog_of_ok _) Ca) as Ac.
  split; [done|]. unfold answers in R. destruct (fs_failed s') eqn:Nf'.
  - destruct R as [Re Rd]. split; [|by destruct r].
    destruct Rd as [->| ->]; [done|apply (ad_le _ _ _ _ _ _ _ _ _ Ac)].
  - destruct R as (<- & <- & <-). split; [apply (ad_le _ _ _ _ _ _ _ _ _ Ac)|].
    intros o Eo. by exists now.
Qed.

(** The callback runs only for a verified operation that is newer than what is bound. *)
Lemma file_access_admission {L} s key entry now adm (l : L) io s' l' r :
  file_ok s -> file_access s key entry now adm l io = (s', l', r) -> l' <> l ->
  exists e rev i x, entry = Some e /\ entry_details e key = Ok (rev, i, x)
    /\ forall o rev' g, disk_catalog (fs_disk s) !! key = Some o -> binds key o rev' g -> rev' < rev.
Proof.
  intros K H Ne. destruct (fs_failed s) eqn:Nf.
  { rewrite file_access_failed in H by done. by injection H as <- <- <-. }
  destruct (fk_healthy _ K Nf) as [C _]. unfold file_access, file_observe in H. rewrite Nf in H.
  destruct now as [now|e]; [|by injection H as <- <- <-]. cbv beta iota in H.
  destruct (observe _ _ _) as [w|]; [|by injection H as <- <- <-]. cbv beta iota in H.
  destruct (match io with AioRead _ => _ | _ => _ end); [|by injection H as <- <- <-].
  cbv beta iota in H. rewrite (lookup_consistent (set_file_wall s w) _ key C) in H. cbn [set_file_wall fs_disk] in H.
  destruct (decide_access _ entry key now) as [d|] eqn:D; [|by injection H as <- <- <-].
  destruct (de_replacement d) as [t|] eqn:Et; [|by injection H as <- <- <-].
  apply decide_access_ok in D as [D1 _ _]; [|intros x; apply catalog_of_ok].
  destruct (D1 t Et) as (_ & _ & T). destruct (_ && _); [by injection H as <- <- <-|].
  destruct t as [e lease|].
  - destruct T as (-> & rev & i & x & g & Ed & _ & _ & _ & Lt). eauto 10.
  - destruct (file_commit _ _ _ _) as [s2 [[]|]]; by injection H as <- <- <-.
Qed.

Context `{HMt : !PostcardTotal Metadata}.

Lemma open_step migrating names fresh d io d' r :
  reopenable d -> open_owned migrating names fresh d io = (d', r) ->
  reopenable d' /\ disk_catalog d' = disk_catalog d
  /\ (forall s, r = Ok s -> file_ok s /\ fs_failed s = false /\ fs_disk s = d')
  /\ (io = OioDone -> check_namespace migrating 0 names = Ok tt -> is_ok r = true).
Proof.
  intros R H. destruct (check_namespace migrating 0 names) as [[]|e] eqn:N.
  - destruct (open_owned_ok migrating names fresh d io R (fun _ => N) (fun _ => to_stdvec_total _))
      as (O1 & O2 & O3 & O4). rewrite H in *. split; [done|]. split; [done|]. split; [done|]. intros Hd _. by apply O4.
  - unfold open_owned in H. assert (exists e', open_anchor migrating names d io = Err e') as [e' E].
    { unfold open_anchor. rewrite N. destruct io; simpl; eauto. }
    rewrite E in H. by injection H as <- <-.
Qed.

Lemma fstep_ok st st' :
  fstate_ok st -> fstep st st' ->
  fstate_ok st' /\ catalog_le (disk_catalog (disk_of st)) (disk_catalog (disk_of st')).
Proof.
  intros K S. destruct S as [mg names fresh d io d' r E|L s key entry now adm l io s' l' r Lk Hw E
                            |s now io s' r Hw E|s]; simpl in *.
  - destruct (open_step _ _ _ _ _ _ _ K E) as (R & Ed & O & _). destruct r as [s|e]; simpl.
    + destruct (O s eq_refl) as (Ks & _ & Es). split; [done|]. by rewrite Es, Ed.
    + split; [done|]. by rewrite Ed.
  - destruct (file_access_step _ _ _ _ _ _ _ _ _ _ K Lk Hw E) as (K' & Le & _). done.
  - destruct (fs_failed s) eqn:Nf.
    { unfold file_collect, file_observe in E. rewrite Nf in E. by injection E as <- <-. }
    destruct (file_collect_ok _ _ _ _ _ K Nf Hw E) as [K' Sb]. split; [done|by apply same_bindings_le].
  - split; [apply K|done].
Qed.

Lemma fsteps_ok st st' :
  fstate_ok st -> rtc fstep st st' ->
  fstate_ok st' /\ catalog_le (disk_catalog (disk_of st)) (disk_catalog (disk_of st')).
Proof.
  intros K S. induction S as [st|st1 st2 st3 S _ IH]; [done|].
  destruct (fstep_ok _ _ K S) as [K2 L2]. destruct (IH K2) as [K3 L3]. split; [done|by etrans].
Qed.


(** C6: Once an operation on an identity is acknowledged, no read of that identity ever answers
    with an older one, whatever runs, fails or restarts in between: the record it returns
    verifies, is current, and is newer than the acknowledged operation or the same. *)
Theorem acknowledged_never_undone {L M} d s key e now adm (l : L) io s1 l1 o s2 now2 adm2 (l2 : M) io2
    s3 l3 record :
  reopenable d -> rtc fstep (Closed d) (Opened s) -> length key = 32%nat ->
  0 <= rd_wall now -> 0 <= rd_wall now2 ->
  file_access s key (Some e) (Ok now) adm l io = (s1, l1, Ok o) ->
  rtc fstep (Opened s1) (Opened s2) ->
  file_access s2 key None (Ok now2) adm2 l2 io2 = (s3, l3, Ok (Some record)) ->
  exists p rev i x g g', entry_details e key = Ok (rev, i, x) /\ entry_digest e = Ok g
    /\ EndpointRecord_verify record = Ok p /\ pl_key p = key
    /\ entry_digest (RecRecord record) = Ok g'
    /\ pl_issued_at p <= as_secs (rd_wall now2) < pl_expires_at p
    /\ later rev g (pl_revision p) g'.
Proof.
  intros R S Lk Hw Hw2 A1 S2 A2.
  assert (Hn : forall n, @Ok _ DiscoveryError now = Ok n -> 0 <= rd_wall n) by congruence.
  assert (Hn2 : forall n, @Ok _ DiscoveryError now2 = Ok n -> 0 <= rd_wall n) by congruence.
  destruct (fsteps_ok (Closed d) (Opened s) R S) as [K _].
  destruct (file_access_step _ _ _ _ _ _ _ _ _ _ K Lk Hn A1) as (K1 & _ & W).
  destruct (W o eq_refl) as (n1 & _ & [_ _ _ _ _ Wr _]).
  destruct (Wr e o eq_refl eq_refl) as (rev & i & x & g & st & D & G & Lst & B).
  destruct (fsteps_ok (Opened s1) (Opened s2) K1 S2) as [K2 Le].
  destruct (file_access_step _ _ _ _ _ _ _ _ _ _ K2 Lk Hn2 A2) as (_ & Le3 & W2).
  destruct (W2 _ eq_refl) as (n2 & [= <-] & [_ _ _ _ Rd _ _]).
  destruct (Rd record eq_refl) as (_ & p & V & Kp & Iv & st' & g' & L3 & B3 & G3).
  exists p, rev, i, x, g, g'. split_and!; try done; try lia.
  destruct (transitivity (R := catalog_le) Le Le3 key st rev g Lst B) as (st3 & rev3 & g3 & L3' & B3' & O).
  simpl in L3. rewrite L3 in L3'. injection L3' as <-.
  by destruct (binds_fun _ _ _ _ _ _ B3 B3') as [-> ->].
Qed.

(** ** The two stores answer alike *)

Lemma catalog_live_bounds c key :
  live_count (c !! key) <= catalog_live c <= Z.of_nat (size c).
Proof.
  split.
  - pose proof (catalog_live_insert c key (StRetired 0 [] false)) as E.
    unfold live_count at 2 in E. simpl in E. unfold catalog_live at 1 in E. lia.
  - unfold catalog_live. pose proof (map_size_filter (fun kv : bytes * Stored => stored_live kv.2 = true) c). lia.
Qed.

Lemma commit_change_progress md t k r b :
  table_ok md t -> to_stdvec r = Ok b -> zlen b <= MAX_CELL ->
  (t !! k = None -> md_identities md < MAX_IDENTITIES) ->
  is_ok (commit_change (md, t) (k, r)) = true.
Proof.
  intros [T1 T2 T3 T4] Eb Lb Cap. unfold commit_change. rewrite Eb. cbn [map_err].
  rewrite (proj2 (Z.ltb_ge _ _)) by done.
  pose proof (catalog_live_bounds (catalog_of t) k) as B. rewrite (catalog_of_size _ _ T1) in B.
  assert (Hm : MAX_IDENTITIES < u64_max) by done.
  rewrite catalog_of_lookup in B. destruct (t !! k) as [v|] eqn:Ev; simpl in B |- *.
  - destruct (T1 k v Ev) as (_ & s & Cd & _). rewrite Cd in B |- *. simpl in B |- *.
    unfold checked_sub64, checked_add64. rewrite (proj2 (Z.leb_le _ _)) by (rewrite T3; lia).
    rewrite (proj2 (Z.leb_le _ _)); [done|]. unfold live_count in *. destruct (is_some_and _ _); simpl;
      destruct (stored_live r); lia.
  - specialize (Cap eq_refl). unfold checked_sub64, checked_add64.
    rewrite (proj2 (Z.leb_le _ _)) by lia. rewrite (proj2 (Z.leb_le _ _)) by lia.
    simpl. rewrite (proj2 (Z.leb_le _ _)) by (unfold live_count in *; simpl in *; lia).
    rewrite (proj2 (Z.leb_le _ _)); [done|]. unfold live_count in *. simpl in *. destruct (stored_live r); lia.
Qed.

Lemma file_commit_progress s key r b now :
  file_ok s -> fs_failed s = false -> md_generation (fs_metadata s) < u64_max ->
  to_stdvec r = Ok b -> zlen b <= MAX_CELL ->
  (disk_catalog (fs_disk s) !! key = None -> md_identities (fs_metadata s) < MAX_IDENTITIES) ->
  is_ok (file_commit s [(key, r)] now AioDone).2 = true.
Proof.
  intros K Nf Hg Eb Lb Cap. destruct (fk_healthy _ K Nf) as [C (ab & Ea & Da)].
  unfold file_commit. assert (exists next d' mb, commit_prepare s [(key, r)] now AioDone = Ok (next, d')
    /\ exact Metadata mb = Ok next) as (next & d' & mb & -> & Ex).
  { unfold commit_prepare. rewrite Ea. cbn [ok_or]. rewrite Da. cbv beta iota.
    rewrite bool_decide_eq_true_2 by done. cbn [negb]. unfold checked_add64.
    rewrite (proj2 (Z.leb_le _ _)) by lia. cbn [ok_or]. cbn [try_fold].
    destruct (cs_records _ _ C) as (t & Et & T & Hi & Hl). unfold records_of. rewrite Et. cbn [from_option id].
    set (md := mkMetadata _ _ _ _ _ _).
    assert (is_ok (commit_change (md, t) (key, r)) = true) as P.
    { apply (commit_change_progress _ _ _ _ b); try done.
      - split; simpl; try done; [|apply C]. eapply map_Forall_impl; [exact T|].
        intros k v (L & x & X1 & X2). split; [done|]. exists x. split; [done|]. simpl. lia.
      - simpl. intros N. apply Cap. unfold disk_catalog. rewrite Et. simpl.
        by rewrite catalog_of_lookup, N. }
    destruct (commit_change (md, t) (key, r)) as [[nx tb]|]; [|done]. cbv beta iota.
    destruct (to_stdvec_total nx) as [mb Em]. rewrite Em. simpl.
    exists nx, (with_db (fs_disk s) (mkDb (Some (Some mb)) (Some tb))), mb.
    split; [done|by apply exact_encoded]. }
  by destruct (encode_anchor_total next mb Ex) as [x ->].
Qed.

(** The cell an access would write fits its limit. *)
Definition storable (s : FileStore) (key : EndpointKey) (entry : option RecordEntry) (now : Reading) : Prop :=
  forall d t, decide_access (disk_catalog (fs_disk s) !! key) entry key now = Ok d ->
    de_replacement d = Some t -> exists b, to_stdvec t = Ok b /\ zlen b <= MAX_CELL.

Lemma file_access_progress {L} s key entry now adm (l : L) :
  file_ok s -> fs_failed s = false -> length key = 32%nat -> 0 <= rd_wall now ->
  md_generation (fs_metadata s) < u64_max -> storable s key entry now ->
  fs_failed (file_access s key entry (Ok now) adm l AioDone).1.1 = false.
Proof.
  intros K Nf Lk Hw Hg St. destruct (fk_healthy _ K Nf) as [C A]. unfold file_access, file_observe.
  rewrite Nf. cbv beta iota. destruct (observe _ _ _) as [w|]; [|done]. cbv beta iota.
  set (s1 := set_file_wall s w). assert (K1 : file_ok s1) by (split; [apply K|done]).
  rewrite (lookup_consistent s1 _ key C). cbn [s1 set_file_wall fs_disk fs_metadata].
  destruct (decide_access _ entry key now) as [d|] eqn:D; [|done].
  destruct (de_replacement d) as [t|] eqn:Et; [|done]. destruct (St d t D Et) as (b & Eb & Lb).
  destruct (_ && _) eqn:Cap; [done|].
  destruct (match t with StActive _ _ => _ | StRetired _ _ _ => _ end) as [[[]|e] l1]; [|done].
  pose proof (file_commit_progress s1 key t b now K1 Nf Hg Eb Lb) as P.
  destruct (file_commit s1 [(key, t)] now AioDone) as [s2 cm] eqn:Cm. simpl in P.
  assert (Hc : Forall (change_ok (Z.max (md_wall_floor (fs_metadata s1)) (rd_wall now))) [(key, t)]).
  { apply Forall_singleton. eapply replacement_ok; [|exact D|done|done|lia|lia].
    intros x. apply catalog_of_ok. }
  destruct (file_commit_ok s1 _ _ _ _ _ K1 Nf Hw Hc Cm) as (_ & _ & _ & R).
  destruct cm; [apply R|]. exfalso. assert (false = true); [|done]. apply P.
  intros N. rewrite N in Cap. simpl in Cap. by apply Z.leb_gt.
Qed.

(** The durable store and the in-memory store implement one contract: from the same
    catalog an access changes both catalogs alike, gives the same answer and spends the
    same admission.  The durable store differs only when a call to the disk fails; then it
    answers with an error, stops serving and leaves the catalog before the access or the
    one after it. *)
Theorem record_stores_agree {L} m s key entry now adm (l : L) io m' lm rm s' lf rf :
  memory_ok m -> ms_capacity m = MAX_IDENTITIES -> file_ok s -> fs_failed s = false ->
  memory_catalog m = file_catalog s -> length key = 32%nat -> 0 <= rd_wall now ->
  memory_access m key entry (Ok now) adm l = (m', lm, rm) ->
  file_access s key entry (Ok now) adm l io = (s', lf, rf) ->
  memory_ok m' /\ file_ok s'
  /\ (if fs_failed s'
      then is_ok rf = false /\ (disk_catalog (fs_disk s') = ms_entries m
                                \/ disk_catalog (fs_disk s') = ms_entries m')
      else memory_catalog m' = file_catalog s' /\ lf = lm /\ rf = rm)
  /\ (io = AioDone -> md_generation (fs_metadata s) < u64_max -> storable s key entry now ->
      fs_failed s' = false).
Proof.
  intros Km Cm Kf Nf E Lk Hw Hm Hf.
  destruct (memory_access_refines _ _ _ _ _ _ _ _ _ Km Hm) as [Ra _]. rewrite Cm, E in Ra.
  destruct (file_access_refines _ _ _ _ _ _ _ _ _ _ Kf Nf Lk Hw Hf) as [Kf' Rf].
  destruct (memory_access_ok _ _ _ _ _ _ _ _ _ Km Hm) as [Km' _].
  rewrite Ra in Rf. unfold answers in Rf. simpl in Rf. injection E as Ee _.
  split; [done|]. split; [done|]. split.
  - destruct (fs_failed s'); [by rewrite Ee|naive_solver].
  - intros -> Hg St. pose proof (file_access_progress s key entry now adm l Kf Nf Lk Hw Hg St) as P.
    by rewrite Hf in P.
Qed.
End Proofs.

(** ** Witnesses *)

Module StoreWitness.
Definition Metadata_tuple (m : Metadata) :=
  (md_format m, md_database m, md_generation m, md_live m, md_identities m, md_wall_floor m).
#[local] Instance Metadata_countable : Countable Metadata.
Proof.
  apply (inj_countable' Metadata_tuple
    (fun '(f, d, g, l, i, w) => mkMetadata f d g l i w)). by intros [].
Defined.
#[local] Instance RecordAnchor_countable : Countable RecordAnchor.
Proof.
  apply (inj_countable' (fun a => (an_metadata a, an_digest a)) (fun '(m, d) => mkAnchor m d)).
  by intros [].
Defined.

Definition key : bytes := replicate 32 "k"%char.
Definition t0 : Reading := mkReading (bs "boot") (from_secs 100) (from_secs 10).
Definition t1 : Reading := mkReading (bs "boot") (from_secs 101) (from_secs 11).
Definition payload : RecordPayload := mkRecordPayload RECORD_VERSION key 7 [] [] [] 100 160.
Definition wire : bytes := bs "3p".
Definition record : EndpointRecord := mkEndpointRecord key wire (toy_signature key (RECORD_DOMAIN ++ wire)).
Definition lease : Lease :=
  match Lease_new 100 160 t0 with Ok l => l | Err _ => mkLease [] 0 0 0 0 0 end.
Definition cell : Stored := StActive (RecRecord record) lease.

#[local] Instance w_ed : Ed25519 := toy_ed25519.
#[local] Instance w_url : UrlLibrary := fun _ => None.
#[local] Instance w_blake : Blake3 := toy_blake3.
#[local] Instance w_z : Postcard Z := toy_postcard [(RECORD_VERSION, bs "3")].
#[local] Instance w_payload : Postcard RecordPayload := toy_postcard [(payload, wire)].
#[local] Instance w_delete : Postcard DeletePayload := toy_postcard [].
#[local] Instance w_entry : Postcard RecordEntry := {|
  to_stdvec e := Ok (match e with RecRecord r => er_payload r ++ er_signature r
                                | RecDeleted d => dr_payload d ++ dr_signature d end);
  take_from_bytes _ := Err "never read alone"%string
|}.
#[local] Instance w_stored : Postcard Stored := toy_postcard [(cell, bs "cell")].
#[local] Instance w_metadata : Postcard Metadata := countable_postcard.
#[local] Instance w_anchor : SerdeJson RecordAnchor := countable_json.
#[local] Instance w_entry_total : PostcardTotal RecordEntry.
Proof. intros e. by eexists. Qed.
#[local] Instance w_stored_laws : PostcardLaws Stored.
Proof. apply toy_postcard_laws. Qed.
#[local] Instance w_metadata_laws : PostcardLaws Metadata := countable_postcard_laws.
#[local] Instance w_metadata_total : PostcardTotal Metadata := countable_postcard_total.
#[local] Instance w_anchor_laws : SerdeJsonLaws RecordAnchor := countable_json_laws.
#[local] Instance w_anchor_total : AnchorTotal.
Proof. intros md mb _. by eexists. Qed.

Definition names : list bytes := [bs "records.lock"; bs "records.redb"].
Definition blank : RecordDisk := mkDisk (mkDb None None) None false.
Definition opened : RecordDisk * result FileStore DiscoveryError :=
  open_owned false names (bs "db") blank OioDone.
Definition store0 : FileStore :=
  match opened.2 with Ok s => s | Err _ => mkFileStore blank (mkMetadata 0 [] 0 0 0 0) true 0 None end.
Definition put : FileStore * unit * result (option EndpointRecord) DiscoveryError :=
  file_access store0 key (Some (RecRecord record)) (Ok t0) (fun _ l => (Ok tt, l)) tt AioDone.
Definition reopened : RecordDisk * result FileStore DiscoveryError :=
  open_owned false names (bs "xx") (fs_disk put.1.1) OioDone.
Definition store2 : FileStore := match reopened.2 with Ok s => s | Err _ => store0 end.
Definition read : FileStore * unit * result (option EndpointRecord) DiscoveryError :=
  file_access store2 key None (Ok t1) (fun _ l => (Ok tt, l)) tt AioDone.
Definition admits : bool -> unit -> result unit DiscoveryError * unit := fun _ l => (Ok tt, l).

Lemma blank_reopens : reopenable blank.
Proof. by apply ro_blank. Qed.
Lemma run_open : rtc fstep (Closed blank) (Opened store0).
Proof.
  apply rtc_once. assert (E : opened = (opened.1, Ok store0)) by (vm_compute; reflexivity).
  exact (FsOpen _ _ _ _ _ _ _ E).
Qed.
Lemma put_done : put = (put.1.1, tt, Ok None).
Proof. vm_compute. reflexivity. Qed.
Lemma wall_ok n : @Ok _ DiscoveryError t0 = Ok n -> 0 <= rd_wall n.
Proof. by intros [= <-]. Qed.
Lemma run_reopen : rtc fstep (Opened put.1.1) (Opened store2).
Proof.
  eapply rtc_l; [apply FsStop|]. apply rtc_once.
  assert (E : reopened = (reopened.1, Ok store2)) by (vm_compute; reflexivity).
  exact (FsOpen _ _ _ _ _ _ _ E).
Qed.
Lemma read_done : read = (read.1.1, tt, Ok (Some record)).
Proof. vm_compute. reflexivity. Qed.


(** A record put before a restart is the one read after it. *)
Lemma acknowledged_never_undone_witness :
  exists p rev i x g g', entry_details (RecRecord record) key = Ok (rev, i, x)
    /\ entry_digest (RecRecord record) = Ok g
    /\ EndpointRecord_verify record = Ok p /\ pl_key p = key
    /\ entry_digest (RecRecord record) = Ok g'
    /\ pl_issued_at p <= as_secs (rd_wall t1) < pl_expires_at p
    /\ later rev g (pl_revision p) g'.
Proof.
  apply (acknowledged_never_undone blank store0 key (RecRecord record) t0 admits tt AioDone put.1.1 tt None
           store2 t1 admits tt AioDone read.1.1 tt record blank_reopens run_open eq_refl);
    [done|done|exact put_done|exact run_reopen|exact read_done].
Defined.

Definition memory_answer : MemoryStore * unit * result (option EndpointRecord) DiscoveryError :=
  memory_access MemoryStore_default key (Some (RecRecord record)) (Ok t0) admits tt.

(** Both stores accept the record. *)
Lemma record_stores_agree_witness :
  memory_catalog memory_answer.1.1 = file_catalog put.1.1 /\ memory_answer.2 = put.2
  /\ memory_answer.2 = Ok None.
Proof.
  assert (Ok0 : file_ok store0).
  { pose proof (fsteps_ok (Closed blank) (Opened store0) blank_reopens run_open) as [K _]. exact K. }
  assert (Em : memory_answer = (memory_answer.1.1, tt, Ok None)) by (vm_compute; reflexivity).
  assert (Mk : memory_ok MemoryStore_default) by (by split).
  assert (Ec : memory_catalog MemoryStore_default = file_catalog store0) by (vm_compute; reflexivity).
  pose proof (record_stores_agree MemoryStore_default store0 key (Some (RecRecord record)) t0 admits tt
    AioDone memory_answer.1.1 tt (Ok None) put.1.1 tt (Ok None) Mk eq_refl Ok0 ltac:(vm_compute; reflexivity)
    Ec eq_refl ltac:(done) Em put_done) as (_ & _ & R & _).
  assert (Nf : fs_failed put.1.1 = false) by (vm_compute; reflexivity).
  rewrite Nf in R. split; [apply R|]. rewrite Em, put_done. by split.
Defined.
End StoreWitness.
