(* ===== verification/Collect.v ===== *)
(** * Collection reaches every identity

    Rounds of [MemoryStore::collect_at] ([src/crates/rds-discovery/src/records/memory.rs]) take
    the identities after a cursor in batches of 64 and start over when a batch is short.  The
    rounds therefore visit the whole catalog, and after boundedly many of them no expired
    content is left. *)

From S2P Require Import Prelude Discovery Clock Crypto RecordWire Records FileStore.

(** ** The cursor *)

Lemma filter_everything {A} (P : A -> Prop) `{forall x, Decision (P x)} l : Forall P l -> filter P l = l.
Proof. induction 1 as [|x l Hx _ IH]; [done|]. rewrite filter_cons_True by done. by rewrite IH. Qed.

Section Rotation.
Context (K : list bytes) (HK : StronglySorted bytes_lt K).

Definition rest (cursor : option bytes) : list bytes :=
  filter (fun k => is_none_or cursor (fun c => bool_decide (bytes_lt c k)) = true) K.
Definition next_cursor (cursor : option bytes) : option bytes :=
  let batch := take GC_BATCH (rest cursor) in
  if bool_decide (length batch = GC_BATCH) then last batch else None.

Lemma rest_none : rest None = K.
Proof. unfold rest. apply filter_everything. by apply Forall_true. Qed.

Lemma filter_after (l : list bytes) x :
  StronglySorted bytes_lt l -> exists p, l = p ++ filter (fun k => bool_decide (bytes_lt x k) = true) l
    /\ Forall (fun k => ~ bytes_lt x k) p.
Proof.
  induction 1 as [|y l Hs IH Hy]; [by exists []|]. destruct (decide (bytes_lt x y)) as [L|N].
  - exists []. split; [|done]. simpl. symmetry. rewrite filter_cons_True by (by rewrite bool_decide_eq_true).
    f_equal. apply filter_everything. eapply Forall_impl; [exact Hy|]. intros k Lk. simpl.
    rewrite bool_decide_eq_true. by transitivity y.
  - destruct IH as (p & E & F). exists (y :: p). split; [|by constructor].
    rewrite filter_cons_False by (by rewrite bool_decide_eq_true). simpl. by rewrite <-E.
Qed.

Lemma rest_suffix cursor : exists p, K = p ++ rest cursor.
Proof.
  destruct cursor as [c|]; [|exists []; by rewrite rest_none].
  destruct (filter_after K c HK) as (p & E & _). by exists p.
Qed.

Lemma sorted_split (p l : list bytes) x :
  StronglySorted bytes_lt (p ++ x :: l) ->
  filter (fun k => bool_decide (bytes_lt x k) = true) (p ++ x :: l) = l.
Proof.
  induction p as [|y p IH]; intros Hs; simpl in Hs; apply StronglySorted_inv in Hs as [Hs Hy]; simpl.
  - rewrite filter_cons_False by (rewrite bool_decide_eq_true; apply (irreflexivity bytes_lt)).
    apply filter_everything. eapply Forall_impl; [exact Hy|]. intros k Lk. by rewrite bool_decide_eq_true.
  - rewrite filter_cons_False; [by apply IH|]. rewrite bool_decide_eq_true. intros L.
    rewrite Forall_app, Forall_cons in Hy. destruct Hy as (_ & Hx & _).
    apply (irreflexivity bytes_lt x). by transitivity y.
Qed.

(** After a full batch the rest is what the batch left. *)
Lemma rest_next cursor :
  length (take GC_BATCH (rest cursor)) = GC_BATCH -> rest (next_cursor cursor) = drop GC_BATCH (rest cursor).
Proof.
  intros L. unfold next_cursor. rewrite bool_decide_eq_true_2 by done.
  destruct (rest_suffix cursor) as [p E].
  assert (exists b y, take GC_BATCH (rest cursor) = b ++ [y]) as (b & y & T).
  { destruct (exists_last (l := take GC_BATCH (rest cursor))) as (b & y & T); [by intros Q; rewrite Q in L|eauto]. }
  rewrite T, last_snoc. unfold rest at 1. simpl.
  assert (EK : K = (p ++ b) ++ y :: drop GC_BATCH (rest cursor)).
  { rewrite E at 1. rewrite <-(take_drop GC_BATCH (rest cursor)) at 1. rewrite T, <-!app_assoc. done. }
  rewrite EK at 1. apply sorted_split. rewrite <-EK. done.
Qed.
Lemma next_short cursor : (length (rest cursor) < GC_BATCH)%nat -> next_cursor cursor = None.
Proof.
  intros L. unfold next_cursor. rewrite bool_decide_eq_false_2; [done|]. rewrite length_take. lia.
Qed.
End Rotation.

(** ** Rounds *)

Section Rounds.
Context `{HEd : Ed25519, HU : UrlLibrary, HB : Blake3, HZ : Postcard Z}.
Context `{HP : Postcard RecordPayload, HD : Postcard DeletePayload}.
Context `{HE : Postcard RecordEntry, HT : !PostcardTotal RecordEntry}.

Definition keys_of (c : gmap bytes Stored) : list bytes := (btree_items c).*1.
(** What is expired at [now] has been reclaimed. *)
Definition clean_at (now : Reading) (c : gmap bytes Stored) (k : bytes) : Prop :=
  forall e l, c !! k = Some (StActive e l) -> Lease_valid_at l now = true.

Lemma keys_of_sorted c : StronglySorted bytes_lt (keys_of c).
Proof.
  unfold keys_of. pose proof (btree_items_sorted c) as H. induction H as [|x l _ IH F]; [constructor|].
  csimpl. constructor; [done|]. apply Forall_fmap. done.
Qed.
Lemma elem_of_keys c k : k ∈ keys_of c <-> is_Some (c !! k).
Proof.
  unfold keys_of. rewrite list_elem_of_fmap. split.
  - intros ([k' v] & -> & H%elem_of_btree_items). by exists v.
  - intros [v H%elem_of_btree_items]. by exists (k, v).
Qed.
Lemma keys_of_dom c c' : dom c = dom c' -> keys_of c = keys_of c'.
Proof.
  intros D. apply (StronglySorted_unique_strong bytes_lt); [|apply keys_of_sorted..|].
  - intros a b _ _ L1 L2. exfalso. apply (irreflexivity bytes_lt a). by transitivity b.
  - apply NoDup_Permutation; [apply btree_items_nodup..|]. intros k. rewrite !elem_of_keys, <-!elem_of_dom. by rewrite D.
Qed.

(** One round never fails, keeps the identities, and cleans its batch. *)
Lemma retire_batch keys now c live n :
  catalog_ok c -> exists c' live' n', memory_retire keys now c live n = (c', live', Ok n')
    /\ dom c' = dom c /\ catalog_ok c'
    /\ (forall k, clean_at now c k -> clean_at now c' k) /\ (forall k, k ∈ keys -> clean_at now c' k).
Proof.
  revert c live n. induction keys as [|key keys IH]; intros c live n Hc; simpl.
  { exists c, live, n. split_and!; try done. by intros k ?%not_elem_of_nil. }
  assert (Next : forall c1 live1 n1, catalog_ok c1 -> dom c1 = dom c ->
    (forall k, clean_at now c k -> clean_at now c1 k) -> clean_at now c1 key ->
    exists c' live' n', memory_retire keys now c1 live1 n1 = (c', live', Ok n')
    /\ dom c' = dom c /\ catalog_ok c'
    /\ (forall k, clean_at now c k -> clean_at now c' k) /\ (forall k, k ∈ key :: keys -> clean_at now c' k)).
  { intros c1 live1 n1 H1 Hd Hk Hkey. destruct (IH c1 live1 n1 H1) as (c' & live' & n' & E & D & O & C1 & C2).
    exists c', live', n'. split_and!; try done; [congruence|auto|].
    intros k [->|Hin]%elem_of_cons; [by apply C1|by apply C2]. }
  destruct (c !! key) as [old|] eqn:Eo.
  2:{ apply Next; try done. intros e l Q. congruence. }
  destruct (Hc key old Eo) as (rev & g & B). pose proof B as [Bv Bd].
  destruct (stored_retire old key now) as [[t|]|er] eqn:Er.
  - destruct (stored_verify_key _ _ _ Bv) as [Kv Kr].
    destruct (stored_retire_ok _ _ _ _ _ _ Er B Kv Kr) as (Bt & Lt & e & l & _ & _ & Et). apply Next.
    + apply map_Forall_insert_2; [by exists rev, g|done].
    + rewrite dom_insert_L. apply elem_of_dom_2 in Eo. set_solver.
    + intros k Ck e' l' Q. destruct (decide (k = key)) as [->|Ne].
      * rewrite lookup_insert, decide_True in Q by done. by subst t.
      * rewrite lookup_insert_ne in Q by done. by eapply Ck.
    + intros e' l' Q. rewrite lookup_insert, decide_True in Q by done. by subst t.
  - apply Next; try done. intros e l Q. rewrite Eo in Q. injection Q as ->. simpl in Er.
    destruct (Lease_valid_at l now); [done|]. simpl in Bv, Bd. rewrite Bv in Er. simpl in Bd. by rewrite Bd in Er.
  - exfalso. destruct old as [e l|]; [|done]. simpl in Er. destruct (Lease_valid_at l now); [done|].
    simpl in Bv, Bd. rewrite Bv in Er. simpl in Bd. by rewrite Bd in Er.
Qed.

Definition collect_rounds (n : nat) (s : MemoryStore) (now : Reading) : MemoryStore :=
  Nat.iter n (fun s => (memory_collect s (Ok now)).1) s.

Lemma collect_rounds_S n s now s1 r :
  memory_collect s (Ok now) = (s1, r) -> collect_rounds (S n) s now = collect_rounds n s1 now.
Proof. intros E. unfold collect_rounds. rewrite Nat.iter_succ_r. by rewrite E. Qed.
Lemma collect_rounds_add n m s now :
  collect_rounds (n + m) s now = collect_rounds n (collect_rounds m s now) now.
Proof. unfold collect_rounds. apply Nat.iter_add. Qed.

(** What a round leaves. *)
Record round (now : Reading) (s s' : MemoryStore) : Prop := {
  rd_keys : keys_of (ms_entries s') = keys_of (ms_entries s);
  rd_ok : catalog_ok (ms_entries s');
  rd_seen : 0 <= ms_observed_wall s' <= rd_wall now;
  rd_cursor : ms_cursor s' = next_cursor (keys_of (ms_entries s)) (ms_cursor s);
  rd_kept : forall k, clean_at now (ms_entries s) k -> clean_at now (ms_entries s') k;
  rd_batch : forall k, k ∈ take GC_BATCH (rest (keys_of (ms_entries s)) (ms_cursor s)) ->
    clean_at now (ms_entries s') k
}.

Lemma memory_round s now :
  catalog_ok (ms_entries s) -> 0 <= ms_observed_wall s <= rd_wall now ->
  exists s' n, memory_collect s (Ok now) = (s', Ok n) /\ round now s s'.
Proof.
  intros Hc Hw. unfold memory_collect, observe. rewrite (proj2 (Z.ltb_ge _ _)) by lia.
  rewrite (proj2 (Z.ltb_ge _ _)) by lia. simpl.
  destruct (retire_batch (batch_keys (ms_entries s) (ms_cursor s)) now _ (ms_live s) 0 Hc)
    as (c' & live' & n' & E & D & O & C1 & C2).
  rewrite E. eexists _, n'. split; [done|]. split; simpl; try done; [by apply keys_of_dom|lia].
Qed.

(** The rounds that bring the cursor back to the start inspect everything after it. *)
Lemma rounds_finish now m s :
  catalog_ok (ms_entries s) -> 0 <= ms_observed_wall s <= rd_wall now ->
  (length (rest (keys_of (ms_entries s)) (ms_cursor s)) < GC_BATCH * S m)%nat ->
  exists n s', (n <= S m)%nat /\ collect_rounds n s now = s'
    /\ keys_of (ms_entries s') = keys_of (ms_entries s) /\ catalog_ok (ms_entries s')
    /\ 0 <= ms_observed_wall s' <= rd_wall now /\ ms_cursor s' = None
    /\ (forall k, clean_at now (ms_entries s) k -> clean_at now (ms_entries s') k)
    /\ (forall k, k ∈ rest (keys_of (ms_entries s)) (ms_cursor s) -> clean_at now (ms_entries s') k).
Proof.
  revert s. induction m as [|m IH]; intros s Hc Hw Hl;
    destruct (memory_round s now Hc Hw) as (s1 & n1 & E1 & [R1 R2 R3 R4 R5 R6]).
  - exists 1%nat, s1. split; [done|]. split; [by rewrite (collect_rounds_S _ _ _ _ _ E1)|].
    do 3 (split; [done|]). split; [by rewrite R4, next_short by lia|]. split; [done|].
    intros k Hk. apply R6. rewrite take_ge by lia. done.
  - destruct (decide (length (rest (keys_of (ms_entries s)) (ms_cursor s)) < GC_BATCH)%nat) as [Hs|Hs].
    + exists 1%nat, s1. split; [lia|]. split; [by rewrite (collect_rounds_S _ _ _ _ _ E1)|].
      do 3 (split; [done|]). split; [by rewrite R4, next_short by lia|]. split; [done|].
      intros k Hk. apply R6. rewrite take_ge by lia. done.
    + assert (Er : rest (keys_of (ms_entries s1)) (ms_cursor s1)
                   = drop GC_BATCH (rest (keys_of (ms_entries s)) (ms_cursor s))).
      { rewrite R1, R4. apply rest_next; [apply keys_of_sorted|]. rewrite length_take. lia. }
      destruct (IH s1 R2 R3) as (n & s' & Hn & E & Q1 & Q2 & Q3 & Q4 & Q5 & Q6).
      { rewrite Er, length_drop. lia. }
      exists (S n), s'. split; [lia|]. split.
      { by rewrite (collect_rounds_S _ _ _ _ _ E1). }
      split; [congruence|]. do 3 (split; [done|]). split; [auto|].
      intros k Hk. rewrite <-(take_drop GC_BATCH (rest _ _)) in Hk. apply elem_of_app in Hk as [Hk|Hk].
      * by apply Q5, R6.
      * apply Q6. by rewrite Er.
Qed.

Lemma rounds_keep now n s :
  catalog_ok (ms_entries s) -> 0 <= ms_observed_wall s <= rd_wall now ->
  let s' := collect_rounds n s now in
  keys_of (ms_entries s') = keys_of (ms_entries s) /\ catalog_ok (ms_entries s')
  /\ 0 <= ms_observed_wall s' <= rd_wall now
  /\ forall k, clean_at now (ms_entries s) k -> clean_at now (ms_entries s') k.
Proof.
  revert s. induction n as [|n IH]; intros s Hc Hw; [done|].
  destruct (memory_round s now Hc Hw) as (s1 & n1 & E1 & [R1 R2 R3 R4 R5 R6]). cbv zeta.
  rewrite (collect_rounds_S _ _ _ _ _ E1). destruct (IH s1 R2 R3) as (Q1 & Q2 & Q3 & Q4).
  split; [congruence|]. do 2 (split; [done|]). auto.
Qed.

Lemma retire_clean keys now c live n :
  (forall k, clean_at now c k) -> memory_retire keys now c live n = (c, live, Ok n).
Proof.
  intros Hc. induction keys as [|key keys IH]; [done|]. simpl.
  destruct (c !! key) as [[e l|rev g d]|] eqn:E; [|done|done]. simpl. by rewrite (Hc key e l E).
Qed.

(** All identities are inspected, wherever the cursor stood. *)
Lemma rounds_clean s now n :
  catalog_ok (ms_entries s) -> 0 <= ms_observed_wall s <= rd_wall now ->
  (2 * (size (ms_entries s) / GC_BATCH + 1) <= n)%nat ->
  forall k, clean_at now (ms_entries (collect_rounds n s now)) k.
Proof.
  intros Hc Hw Hn. set (m := (size (ms_entries s) / GC_BATCH)%nat) in *.
  assert (Lk : (length (keys_of (ms_entries s)) < GC_BATCH * S m)%nat).
  { unfold keys_of. rewrite length_fmap, btree_items_length. unfold m.
    pose proof (Nat.div_mod_eq (size (ms_entries s)) GC_BATCH) as D.
    assert (size (ms_entries s) mod GC_BATCH < GC_BATCH)%nat by (by apply Nat.mod_upper_bound). lia. }
  destruct (rounds_finish now m s Hc Hw) as (n1 & s1 & L1 & E1 & K1 & C1 & W1 & Cu & _ & _).
  { destruct (rest_suffix (keys_of (ms_entries s)) (keys_of_sorted _) (ms_cursor s)) as [p Ep].
    apply (f_equal length) in Ep. rewrite length_app in Ep. lia. }
  destruct (rounds_finish now m s1 C1 W1) as (n2 & s2 & L2 & E2 & K2 & C2 & W2 & _ & _ & Cl).
  { rewrite Cu, rest_none, K1. done. }
  rewrite Cu, rest_none in Cl.
  assert (Hs2 : forall k, clean_at now (ms_entries s2) k).
  { intros k e l Q. destruct (decide (k ∈ keys_of (ms_entries s1))) as [Hk|Hk]; [by eapply Cl|].
    exfalso. apply Hk. rewrite <-K2. apply elem_of_keys. eauto. }
  replace n with ((n - n2 - n1) + (n2 + n1))%nat by lia. rewrite !collect_rounds_add, E1, E2.
  destruct (rounds_keep now (n - n2 - n1) s2 C2 W2) as (_ & _ & _ & Kp). auto.
Qed.

End Rounds.

(** ** Witness: one published record, long after it expired *)

Module CollectWitness.
Import StoreWitness.
#[local] Existing Instance w_ed.
#[local] Existing Instance w_url.
#[local] Existing Instance w_blake.
#[local] Existing Instance w_z.
#[local] Existing Instance w_payload.
#[local] Existing Instance w_delete.
#[local] Existing Instance w_entry.
#[local] Existing Instance w_entry_total.
Definition store1 : MemoryStore := memory_answer.1.1.
Definition late : Reading := mkReading (bs "boot") (from_secs 1000) (from_secs 910).

Lemma store1_ok : memory_ok store1.
Proof.
  assert (E : memory_answer = (store1, tt, Ok None)) by (vm_compute; reflexivity).
  destruct (memory_access_ok MemoryStore_default _ _ _ _ _ _ _ _ ltac:(by split) E) as [K _]. exact K.
Qed.

End CollectWitness.
