(* ===== verification/Publisher.v ===== *)
(** * The record publisher

    Models [src/crates/rds-discovery/src/publisher.rs]: the owner of an endpoint identity
    allocates revisions, commits each signed mutation to its state file before handing it
    out, and retries the committed bytes after a restart.

    The state file is its content and the seal of its directory; what the calls to it
    return is an argument, and a failed write may have replaced the content or not
    ([Persist.write_crash_safe]).  A reading of the wall clock is the argument [now]. *)

From S2P Require Import Prelude Discovery Clock Net Crypto Authority RecordWire Codecs.

Record RecordDraft : Type := mkDraft {
  rf_addrs : list SocketAddr;
  rf_relay_urls : list bytes;
  rf_services : list Service;
  rf_ttl : duration
}.
Inductive Mutation : Type := MuRecord (r : EndpointRecord) | MuDelete (d : DeleteRequest).
(** [State]. *)
Record PubState : Type := mkPub {
  pb_format : Z;
  pb_key : EndpointKey;
  pb_revision : Z;
  pb_wall_floor : Z;
  pb_pending : option Mutation
}.
(** [Envelope]. *)
Record PubEnvelope : Type := mkPubEnvelope { pe_state : PubState; pe_digest : bytes }.

#[export] Instance RecordDraft_eq_dec : EqDecision RecordDraft.
Proof. solve_decision. Defined.
#[export] Instance Mutation_eq_dec : EqDecision Mutation.
Proof. solve_decision. Defined.
#[export] Instance PubState_eq_dec : EqDecision PubState.
Proof. solve_decision. Defined.
#[export] Instance PubEnvelope_eq_dec : EqDecision PubEnvelope.
Proof. solve_decision. Defined.

(** The directory of a publisher. *)
Record PubDisk : Type := mkPubDisk { pd_file : option bytes; pd_sealed : bool }.
Definition set_file (b : bytes) (d : PubDisk) : PubDisk := mkPubDisk (Some b) (pd_sealed d).
Definition set_sealed (s : bool) (d : PubDisk) : PubDisk := mkPubDisk (pd_file d) (pd_sealed d || s).

Record RecordIssuer : Type := mkIssuer {
  ri_key : bytes;
  ri_state : PubState;
  ri_disk : option PubDisk;
  ri_failed : bool;
  ri_observed_wall : Z;
  ri_storage_full_attempt : option PubState
}.

(** What the calls of a commit or a recovery return. *)
Inductive PubIo : Type :=
| PubDone
| PubRead (e : DiscoveryError)
| PubWrite (e : DiscoveryError) (replaced : bool).
(** What the calls of [open] return: the ones before the first write, the write, the ones
    after it. *)
Inductive PubOpenIo : Type :=
| PoDone
| PoFailed (e : DiscoveryError)
| PoWrite (e : DiscoveryError) (replaced : bool)
| PoSeal (e : DiscoveryError) (sealed : bool).

Section WithLibraries.
Context `{Ed25519, UrlLibrary, Blake3, Postcard Z, Postcard RecordPayload, Postcard DeletePayload}.
Context `{Postcard PubState, SerdeJson PubEnvelope}.

(** [digest] and [encode]. *)
Definition pub_digest (s : PubState) : result bytes DiscoveryError :=
  let? b := map_err invalid (to_stdvec s) in Ok (blake3_hash b).
Definition pub_encode (s : PubState) : result bytes DiscoveryError :=
  let? d := pub_digest s in map_err invalid (json_to_vec (mkPubEnvelope s d)).

(** [RecordIssuer::memory]. *)
Definition RecordIssuer_memory (key : bytes) : RecordIssuer :=
  mkIssuer key (mkPub 1 (verifying_key key) 0 0 None) None false 0 None.

(** [validate]. *)
Definition pub_validate (i : RecordIssuer) : result unit DiscoveryError :=
  let s := ri_state i in
  if negb (pb_format s =? 1) || negb (bool_decide (pb_key s = verifying_key (ri_key i)))
  then Err (invalid "publisher format or identity mismatch") else
  let? expected :=
    match pb_pending s with
    | Some (MuRecord record) =>
        let? p := EndpointRecord_verify record in Ok (Some (pl_key p, pl_revision p, pl_issued_at p))
    | Some (MuDelete tomb) =>
        let? p := DeleteRequest_verify tomb in Ok (Some (dp_key p, dp_revision p, dp_issued_at p))
    | None => Ok None
    end in
  if match expected with
     | Some (key, revision, issued) =>
         negb (bool_decide (key = pb_key s)) || negb (revision =? pb_revision s)
         || negb (pb_wall_floor s =? issued)
     | None => negb (pb_revision s =? 0) || negb (pb_wall_floor s =? 0)
     end
  then Err (invalid "publisher revision history inconsistent") else Ok tt.

Definition set_pub_wall (i : RecordIssuer) (now : Z) : RecordIssuer :=
  mkIssuer (ri_key i) (ri_state i) (ri_disk i) (ri_failed i) now (ri_storage_full_attempt i).

(** [check_clock]: the issuer with the reading recorded. *)
Definition pub_check_clock (i : RecordIssuer) (now : Z) : result RecordIssuer DiscoveryError :=
  if ri_failed i then Err (Store "publisher commit uncertain; reopen required") else
  if (now <? pb_wall_floor (ri_state i)) || (now <? ri_observed_wall i)
  then Err (invalid "publisher wall clock moved backwards") else
  Ok (set_pub_wall i now).

(** The state a file holds, when its digest is right. *)
Definition pub_decode (b : bytes) : result PubState DiscoveryError :=
  let? envelope := map_err invalid (json_from_slice (A := PubEnvelope) b) in
  let? d := pub_digest (pe_state envelope) in
  if negb (bool_decide (d = pe_digest envelope))
  then Err (invalid "publisher state checksum mismatch") else Ok (pe_state envelope).

(** The first half of [open]: the state from the file, or a new file. *)
Definition pub_load (key : bytes) (d : PubDisk) (io : PubOpenIo)
    : PubDisk * result RecordIssuer DiscoveryError :=
  match pd_file d with
  | Some b =>
      (d, let? s := pub_decode b in
          let issuer := mkIssuer key s None false 0 None in
          let? _ := pub_validate issuer in Ok issuer)
  | None =>
      if pd_sealed d then (d, Err (invalid "initialized publisher state missing")) else
      let issuer := RecordIssuer_memory key in
      match pub_encode (ri_state issuer) with
      | Err e => (d, Err e)
      | Ok b =>
          match io with
          | PoWrite e replaced => (if replaced then set_file b d else d, Err e)
          | _ => (set_file b d, Ok issuer)
          end
      end
  end.

(** [RecordIssuer::open]. *)
Definition RecordIssuer_open (key : bytes) (now : Z) (d : PubDisk) (io : PubOpenIo)
    : PubDisk * result RecordIssuer DiscoveryError :=
  match io with
  | PoFailed e => (d, Err e)
  | _ =>
      let '(d, loaded) := pub_load key d io in
      match (let? issuer := loaded in pub_check_clock issuer now) with
      | Err e => (d, Err e)
      | Ok issuer =>
          match io with
          | PoSeal e sealed => (set_sealed sealed d, Err e)
          | _ =>
              let d := set_sealed true d in
              (d, Ok (mkIssuer (ri_key issuer) (ri_state issuer) (Some d) (ri_failed issuer)
                        (ri_observed_wall issuer) (ri_storage_full_attempt issuer)))
          end
      end
  end.

Definition next_revision (i : RecordIssuer) : result Z DiscoveryError :=
  ok_or (checked_add64 (pb_revision (ri_state i)) 1) (invalid "publisher revision exhausted").

Definition storage_unavailable (e : DiscoveryError) : bool :=
  match e with StorageUnavailable _ => true | _ => false end.

(** The check of [commit] that the file still holds the state. *)
Definition pub_unchanged (i : RecordIssuer) (b : bytes) : result unit DiscoveryError :=
  let? envelope := map_err invalid (json_from_slice (A := PubEnvelope) b) in
  let? d := pub_digest (pe_state envelope) in
  let? same := (if negb (bool_decide (d = pe_digest envelope)) then Ok false else
                let? mine := pub_digest (ri_state i) in
                Ok (bool_decide (pe_digest envelope = mine))) in
  if negb same then Err (invalid "publisher state changed during ownership") else Ok tt.

(** [commit]. *)
Definition pub_commit (i : RecordIssuer) (revision now : Z) (pending : Mutation) (io : PubIo)
    : RecordIssuer * result unit DiscoveryError :=
  let s := ri_state i in
  let next := mkPub (pb_format s) (pb_key s) revision now (Some pending) in
  match pub_encode next with
  | Err e => (i, Err e)
  | Ok b =>
      let fail disk attempt e :=
        (mkIssuer (ri_key i) s disk true (ri_observed_wall i) attempt, Err e) in
      let done disk :=
        (mkIssuer (ri_key i) next disk false (ri_observed_wall i) (ri_storage_full_attempt i), Ok tt) in
      match ri_disk i with
      | None => done None
      | Some d =>
          match (let? _ := match io with PubRead e => Err e | _ => Ok tt end in
                 let? stored := ok_or (pd_file d) (invalid "publisher state disappeared") in
                 pub_unchanged i stored) with
          | Err e => fail (Some d) (ri_storage_full_attempt i) e
          | Ok _ =>
              match io with
              | PubWrite e replaced =>
                  fail (Some (if replaced then set_file b d else d))
                    (if storage_unavailable e then Some next else ri_storage_full_attempt i) e
              | _ => done (Some (set_file b d))
              end
          end
      end
  end.

(** [recover_storage_full]. *)
Definition recover_storage_full (i : RecordIssuer) (now : Z) (io : PubIo)
    : RecordIssuer * result unit DiscoveryError :=
  match ri_storage_full_attempt i with
  | None => (i, Err (Store "publisher has no recoverable storage-full attempt"))
  | Some attempted =>
      if now <? ri_observed_wall i
      then (i, Err (invalid "publisher wall clock moved backwards")) else
      let i := set_pub_wall i now in
      match ri_disk i with
      | None => (i, Err (Store "volatile publisher has no durable recovery"))
      | Some d =>
          match (let? _ := match io with PubRead e => Err e | _ => Ok tt end in
                 let? b := ok_or (pd_file d) (invalid "publisher state disappeared") in
                 let? envelope := map_err invalid (json_from_slice (A := PubEnvelope) b) in
                 let? stored := pub_digest (pe_state envelope) in
                 let? related :=
                   (if negb (bool_decide (stored = pe_digest envelope)) then Ok false else
                    let? mine := pub_digest (ri_state i) in
                    if bool_decide (stored = mine) then Ok true else
                    let? theirs := pub_digest attempted in
                    Ok (bool_decide (stored = theirs))) in
                 if negb related || (now <? pb_wall_floor (pe_state envelope))
                 then Err (invalid "publisher recovery found unrelated or invalid history")
                 else Ok (b, pe_state envelope)) with
          | Err e => (i, Err e)
          | Ok (b, s) =>
              match io with
              | PubWrite e _ => (i, Err e)
              | _ => (mkIssuer (ri_key i) s (Some (set_file b d)) false now None, Ok tt)
              end
          end
      end
  end.

(** Whether a pending record still answers a draft. *)
Definition reusable (p : RecordPayload) (draft : RecordDraft) (now ttl : Z) : bool :=
  bool_decide (pl_addrs p = rf_addrs draft) && bool_decide (pl_relay_urls p = rf_relay_urls draft)
  && bool_decide (pl_services p = rf_services draft)
  && (pl_expires_at p - pl_issued_at p =? ttl)
  && (Z.max 0 (now - pl_issued_at p) <? Z.max (ttl / 3) 1).

Definition pending_record (i : RecordIssuer) (draft : RecordDraft) (now ttl : Z) (renew : bool)
    : result (option EndpointRecord) DiscoveryError :=
  match renew, pb_pending (ri_state i) with
  | false, Some (MuRecord record) =>
      let? p := EndpointRecord_verify record in
      Ok (if reusable p draft now ttl then Some record else None)
  | _, _ => Ok None
  end.

(** The next record, signed. *)
Definition sign_record (i : RecordIssuer) (draft : RecordDraft) (now ttl : Z)
    : result (Z * EndpointRecord) DiscoveryError :=
  let? revision := next_revision i in
  let? expires_at := ok_or (checked_add64 now ttl) (invalid "TTL overflow") in
  let? record := EndpointRecord_sign
    (mkRecordPayload RECORD_VERSION (pb_key (ri_state i)) revision (rf_addrs draft)
       (rf_relay_urls draft) (rf_services draft) now expires_at) (ri_key i) in
  Ok (revision, record).

(** [issue_record]; [record] and [renew_record] pass [renew]. *)
Definition issue_record (i : RecordIssuer) (draft : RecordDraft) (now : Z) (renew : bool) (io : PubIo)
    : RecordIssuer * result EndpointRecord DiscoveryError :=
  match pub_check_clock i now with
  | Err e => (i, Err e)
  | Ok i =>
      let ttl := as_secs (rf_ttl draft) in
      if (ttl =? 0) || (MAX_RECORD_TTL <? ttl) || negb (rf_ttl draft mod nanos_per_sec =? 0)
      then (i, Err (invalid "record TTL must be 1..=3600 whole seconds")) else
      match pending_record i draft now ttl renew with
      | Err e => (i, Err e)
      | Ok (Some record) => (i, Ok record)
      | Ok None =>
          match sign_record i draft now ttl with
          | Err e => (i, Err e)
          | Ok (revision, record) =>
              let '(i, committed) := pub_commit i revision now (MuRecord record) io in
              (i, let? _ := committed in Ok record)
          end
      end
  end.
Definition issuer_record (i : RecordIssuer) (draft : RecordDraft) (now : Z) (io : PubIo) :=
  issue_record i draft now false io.
Definition renew_record (i : RecordIssuer) (draft : RecordDraft) (now : Z) (io : PubIo) :=
  issue_record i draft now true io.

Definition pending_delete (i : RecordIssuer) (now : Z) : option DeleteRequest :=
  match pb_pending (ri_state i) with
  | Some (MuDelete tomb) => if is_ok (DeleteRequest_verify_fresh_at tomb now) then Some tomb else None
  | _ => None
  end.

(** The next deletion, signed. *)
Definition sign_delete (i : RecordIssuer) (now : Z) : result (Z * DeleteRequest) DiscoveryError :=
  let? revision := next_revision i in
  let? expires_at := ok_or (checked_add64 now DELETE_TTL) (invalid "TTL overflow") in
  let? tomb := DeleteRequest_sign
    (mkDeletePayload RECORD_VERSION (pb_key (ri_state i)) revision now expires_at) (ri_key i) in
  Ok (revision, tomb).

(** [delete]. *)
Definition issuer_delete (i : RecordIssuer) (now : Z) (io : PubIo)
    : RecordIssuer * result DeleteRequest DiscoveryError :=
  match pub_check_clock i now with
  | Err e => (i, Err e)
  | Ok i =>
      match pending_delete i now with
      | Some tomb => (i, Ok tomb)
      | None =>
          match sign_delete i now with
          | Err e => (i, Err e)
          | Ok (revision, tomb) =>
              let '(i, committed) := pub_commit i revision now (MuDelete tomb) io in
              (i, let? _ := committed in Ok tomb)
          end
      end
  end.
End WithLibraries.

(** ** What a publisher keeps *)

Section Proofs.
Context `{HEd : Ed25519, HU : UrlLibrary, HB : Blake3, HZ : Postcard Z}.
Context `{HP : Postcard RecordPayload, HD : Postcard DeletePayload}.
Context `{HS : Postcard PubState, HJ : SerdeJson PubEnvelope}.
Context `{HEl : !Ed25519Laws, HPl : !PostcardLaws RecordPayload, HPv : !VersionFirst RecordPayload pl_version}.
Context `{HDl : !PostcardLaws DeletePayload, HDv : !VersionFirst DeletePayload dp_version}.
Context `{HJl : !SerdeJsonLaws PubEnvelope}.

(** A deletion of machine integers fits the limit of its reader. *)
Hypothesis delete_fits : forall p b, to_stdvec p = Ok b ->
  0 <= dp_revision p <= u64_max -> 0 <= dp_issued_at p <= u64_max -> 0 <= dp_expires_at p <= u64_max ->
  zlen b <= 128.

Variable sk : bytes.

(** The identity, revision and issue of a mutation. *)
Definition mutation_info (m : Mutation) : result (EndpointKey * Z * Z) DiscoveryError :=
  match m with
  | MuRecord record => let? p := EndpointRecord_verify record in Ok (pl_key p, pl_revision p, pl_issued_at p)
  | MuDelete tomb => let? p := DeleteRequest_verify tomb in Ok (dp_key p, dp_revision p, dp_issued_at p)
  end.

Record pub_valid (s : PubState) : Prop := {
  pv_format : pb_format s = 1;
  pv_key : pb_key s = verifying_key sk;
  pv_pending : match pb_pending s with
               | Some m => mutation_info m = Ok (pb_key s, pb_revision s, pb_wall_floor s)
               | None => pb_revision s = 0 /\ pb_wall_floor s = 0
               end;
  pv_range : 0 <= pb_revision s <= u64_max
}.

Lemma pub_validate_ok s :
  pub_valid s -> pub_validate (mkIssuer sk s None false 0 None) = Ok tt.
Proof.
  intros [F K P _]. unfold pub_validate. simpl. rewrite F, Z.eqb_refl. rewrite bool_decide_eq_true_2 by done.
  simpl. destruct (pb_pending s) as [[r|t]|]; simpl in P.
  - destruct (EndpointRecord_verify r) as [p|]; [|done]. simpl in *. injection P as P1 P2 P3.
    rewrite bool_decide_eq_true_2 by done. by rewrite P2, P3, !Z.eqb_refl.
  - destruct (DeleteRequest_verify t) as [p|]; [|done]. simpl in *. injection P as P1 P2 P3.
    rewrite bool_decide_eq_true_2 by done. by rewrite P2, P3, !Z.eqb_refl.
  - destruct P as [-> ->]. done.
Qed.

Lemma pub_valid_new : pub_valid (mkPub 1 (verifying_key sk) 0 0 None).
Proof. by split. Qed.

Lemma pub_encode_decode s b : pub_encode s = Ok b ->
  exists d, pub_digest s = Ok d /\ json_from_slice b = Ok (mkPubEnvelope s d) /\ pub_decode b = Ok s.
Proof.
  unfold pub_encode. destruct (pub_digest s) as [d|] eqn:D; [|done]. simpl.
  destruct (json_to_vec _) as [jb|] eqn:J; [|done]. intros [= <-]. exists d.
  pose proof (json_roundtrip _ _ J) as R. split_and!; [done|done|]. unfold pub_decode. rewrite R. simpl.
  rewrite D. simpl. by rewrite bool_decide_eq_true_2.
Qed.

(** ** Histories *)

(** The state is past every mutation handed out, or holds it. *)
Definition handed_out (h : list Mutation) (s : PubState) : Prop :=
  Forall (fun m => exists rev at_, mutation_info m = Ok (verifying_key sk, rev, at_)
                    /\ (rev < pb_revision s \/ rev = pb_revision s /\ pb_pending s = Some m)) h.
(** A later mutation has a higher revision, or is the same one. *)
Definition ordered (h : list Mutation) : Prop :=
  forall i j m1 m2, (i < j)%nat -> h !! i = Some m1 -> h !! j = Some m2 -> m1 = m2 \/
    exists r1 t1 r2 t2, mutation_info m1 = Ok (verifying_key sk, r1, t1)
      /\ mutation_info m2 = Ok (verifying_key sk, r2, t2) /\ r1 < r2.

Lemma ordered_snoc h s m :
  ordered h -> handed_out h s -> pub_valid s -> pb_pending s = Some m ->
  ordered (h ++ [m]) /\ handed_out (h ++ [m]) s.
Proof.
  intros O Ha V P. destruct V as [_ Vk Vp _]. rewrite P, Vk in Vp. split.
  - intros i j m1 m2 Lt L1 L2. apply lookup_app_Some in L2 as [L2|[Ge L2]].
    + rewrite lookup_app_l in L1 by (apply lookup_lt_Some in L2; lia). by eapply O.
    + apply list_lookup_singleton_Some in L2 as [E <-].
      rewrite lookup_app_l in L1 by lia.
      apply (Forall_lookup_1 _ _ _ _ Ha) in L1 as (r1 & t1 & I1 & [C|[-> C]]).
      * right. eauto 10.
      * left. congruence.
  - apply Forall_app. split; [done|]. apply Forall_singleton. eauto 10.
Qed.

(** The state a commit moves to. *)
Record successor (s n : PubState) : Prop := {
  su_valid : pub_valid n;
  su_revision : pb_revision n = pb_revision s + 1
}.
Lemma handed_out_successor h s n : handed_out h s -> successor s n -> handed_out h n.
Proof.
  intros Ha S. eapply Forall_impl; [exact Ha|]. intros m (r & t & I & C).
  exists r, t. split; [done|]. left. rewrite (su_revision _ _ S). destruct C as [C|[-> _]]; lia.
Qed.

(** ** Files and issuers *)

Definition holds (d : PubDisk) (s : PubState) : Prop :=
  exists b, pd_file d = Some b /\ pub_encode s = Ok b.
Definition disk_ok (h : list Mutation) (d : PubDisk) : Prop :=
  (pd_file d = None /\ pd_sealed d = false /\ h = [])
  \/ exists s, pub_valid s /\ handed_out h s /\ holds d s.

(** A healthy issuer is at the state of its file; a failed one is there or one commit
    behind it. *)
Record issuer_ok (h : list Mutation) (i : RecordIssuer) : Prop := {
  ik_key : ri_key i = sk;
  ik_state : pub_valid (ri_state i);
  ik_handed : handed_out h (ri_state i);
  ik_disk : match ri_disk i with
            | None => ri_failed i = false /\ ri_storage_full_attempt i = None
            | Some d =>
                if ri_failed i
                then exists n, successor (ri_state i) n /\ (holds d (ri_state i) \/ holds d n)
                       /\ (ri_storage_full_attempt i = None \/ ri_storage_full_attempt i = Some n)
                else holds d (ri_state i) /\ ri_storage_full_attempt i = None
            end
}.

Lemma issuer_disk h i d : issuer_ok h i -> ri_disk i = Some d -> disk_ok h d.
Proof.
  intros [_ V Ha D] E. rewrite E in D. right. destruct (ri_failed i).
  - destruct D as (n & S & [Hd|Hd] & _); [by exists (ri_state i)|].
    exists n. split_and!; [apply S|by eapply handed_out_successor|done].
  - exists (ri_state i). by destruct D.
Qed.

Lemma issuer_wall h i now : issuer_ok h i -> issuer_ok h (set_pub_wall i now).
Proof. intros [K V Ha D]. by split. Qed.

Lemma pub_commit_ok h i revision now m io i' r :
  issuer_ok h i -> ri_failed i = false ->
  successor (ri_state i) (mkPub (pb_format (ri_state i)) (pb_key (ri_state i)) revision now (Some m)) ->
  pub_commit i revision now m io = (i', r) ->
  issuer_ok h i' /\ (r = Ok tt -> pb_pending (ri_state i') = Some m).
Proof.
  intros K Nf S H. pose proof K as [Kk V Ha D]. unfold pub_commit in H.
  set (next := mkPub _ _ _ _ _) in *. destruct (pub_encode next) as [b|e] eqn:En.
  2:{ by injection H as <- <-. }
  pose proof (handed_out_successor _ _ _ Ha S) as Hn. rewrite Nf in D.
  destruct (ri_disk i) as [d|] eqn:Ed.
  2:{ injection H as <- <-. split; [|done]. split; simpl; [done|apply S|done|]. by destruct D. }
  destruct D as [Hd At]. assert (Hw : holds (set_file b d) next) by (by exists b).
  destruct (let? _ := match io with PubRead _ => _ | _ => _ end in _) as [[]|e].
  2:{ injection H as <- <-. split; [|done]. split; simpl; try done. exists next.
      split_and!; [done|by left|by left]. }
  destruct io as [|e|e replaced]; injection H as <- <-; (split; [|done]); split; simpl; try done; [apply S|apply S|].
  exists next. split_and!; [done|destruct replaced; [by right|by left]|].
  rewrite At. destruct (storage_unavailable e); [by right|by left].
Qed.

Lemma recover_ok h i now io i' r :
  issuer_ok h i -> recover_storage_full i now io = (i', r) -> issuer_ok h i'.
Proof.
  intros K H. unfold recover_storage_full in H.
  destruct (ri_storage_full_attempt i) as [n|] eqn:At; [|by injection H as <- <-].
  destruct (now <? ri_observed_wall i); [by injection H as <- <-|].
  pose proof (issuer_wall h i now K) as K1. cbn [set_pub_wall ri_disk ri_state] in H.
  destruct (ri_disk i) as [d|] eqn:Ed; [|by injection H as <- <-].
  destruct K as [Kk V Ha D]. rewrite Ed, At in D.
  destruct (ri_failed i) eqn:Fl; [|by destruct D]. destruct D as (n' & S & Hd & [|[= ->]]); [done|].
  destruct (let? _ := match io with PubRead _ => _ | _ => _ end in _) as [[b s]|e] eqn:R.
  2:{ by injection H as <- <-. }
  assert (Hs : pub_valid s /\ handed_out h s /\ pub_encode s = Ok b).
  { destruct (match io with PubRead _ => _ | _ => _ end); [|done]. cbv beta iota in R.
    assert (Go : forall s0, pub_valid s0 -> handed_out h s0 -> holds d s0 ->
      pub_valid s /\ handed_out h s /\ pub_encode s = Ok b).
    { intros s0 V0 H0 (b0 & E0 & En0). rewrite E0 in R. cbn [ok_or] in R.
      destruct (pub_encode_decode _ _ En0) as (dg & D1 & D2 & _). rewrite D2 in R. simpl in R.
      rewrite D1 in R. cbv beta iota in R.
      destruct (if negb _ then Ok false else _) as [rel|]; [|done]. cbv beta iota in R.
      destruct (_ || _); [done|]. by injection R as <- <-. }
    destruct Hd as [Hd|Hd]; [by apply (Go (ri_state i))|].
    apply (Go n'); [apply S|by eapply handed_out_successor|done]. }
  destruct Hs as (Vs & Hh & En). destruct io; injection H as <- <-; try done; split; simpl; try done.
  split; [by exists b|done].
Qed.

Lemma pub_load_ok h d io d' r :
  disk_ok h d -> pub_load sk d io = (d', r) ->
  disk_ok h d' /\ forall i, r = Ok i -> exists s,
    i = mkIssuer sk s None false 0 None /\ pub_valid s /\ handed_out h s /\ holds d' s.
Proof.
  intros Dk H. unfold pub_load in H.
  destruct Dk as [(E1 & E2 & ->)|(s & V & Ha & (b & E1 & En))]; rewrite E1 in H.
  - rewrite E2 in H. set (new := mkPub 1 (verifying_key sk) 0 0 None) in *.
    assert (Dk0 : disk_ok [] d) by (by left). cbn [RecordIssuer_memory ri_state] in H. fold new in H.
    destruct (pub_encode new) as [b|] eqn:En; [|by injection H as <- <-].
    assert (Hn : pub_valid new /\ handed_out [] new /\ holds (set_file b d) new).
    { split_and!; [apply pub_valid_new|by constructor|by exists b]. }
    assert (Dk1 : disk_ok [] (set_file b d)) by (right; by exists new).
    destruct io as [| |e []|]; injection H as <- <-; split; try done; intros i [= <-]; by exists new.
  - injection H as <- <-. assert (Hd : holds d s) by (by exists b). split; [right; by exists s|].
    intros i. destruct (pub_encode_decode _ _ En) as (dg & _ & _ & ->).
    rewrite (pub_validate_ok s V). intros [= <-]. by exists s.
Qed.

(** Opening keeps what the directory remembers. *)
Lemma RecordIssuer_open_ok h d now io d' r :
  disk_ok h d -> RecordIssuer_open sk now d io = (d', r) ->
  disk_ok h d' /\ (forall i, r = Ok i -> issuer_ok h i /\ ri_failed i = false /\ ri_disk i = Some d').
Proof.
  intros Dk H. unfold RecordIssuer_open in H. destruct (pub_load sk d io) as [d1 ld] eqn:L.
  destruct (pub_load_ok _ _ _ _ _ Dk L) as [Dk1 Ld].
  assert (Failed : forall d2 e, disk_ok h d2 -> (d2, Err e) = (d', r) -> disk_ok h d' /\
    (forall i, r = Ok i -> issuer_ok h i /\ ri_failed i = false /\ ri_disk i = Some d'))
    by (by intros d2 e D2 [= <- <-]).
  destruct io as [|e|e replaced|e sealed]; [|by apply (Failed d e)|..];
    (destruct ld as [i0|e0]; [|by apply (Failed d1 e0)]);
    destruct (Ld i0 eq_refl) as (s & -> & V & Ha & Hd); cbv beta iota in H;
    (destruct (pub_check_clock _ now) as [i1|e1] eqn:Cc; [|by apply (Failed d1 e1)]).
  3:{ eapply Failed; [|exact H]. right. by exists s. }
  all: injection H as <- <-; unfold pub_check_clock in Cc; simpl in Cc; destruct (_ || _); try done;
    injection Cc as <-; (split; [right; by exists s|]); intros i [= <-]; by split_and!.
Qed.

(** A directory that was written opens with the state it holds. *)
Lemma open_held d s now :
  pub_valid s -> holds d s -> 0 <= now -> pb_wall_floor s <= now ->
  exists i, RecordIssuer_open sk now d PoDone = (set_sealed true d, Ok i)
    /\ ri_state i = s /\ ri_observed_wall i = now /\ ri_failed i = false
    /\ ri_disk i = Some (set_sealed true d) /\ ri_key i = sk /\ ri_storage_full_attempt i = None.
Proof.
  intros V (b & E & En) H0 Hw. unfold RecordIssuer_open, pub_load. rewrite E.
  destruct (pub_encode_decode _ _ En) as (dg & _ & _ & ->). cbv beta iota zeta.
  rewrite (pub_validate_ok s V). cbv beta iota zeta. unfold pub_check_clock. simpl.
  rewrite !(proj2 (Z.ltb_ge _ _)) by done. simpl. by eexists.
Qed.

(** ** Issuing *)

Lemma check_clock_inv i now i' :
  pub_check_clock i now = Ok i' ->
  i' = set_pub_wall i now /\ ri_failed i = false /\ pb_wall_floor (ri_state i) <= now.
Proof.
  unfold pub_check_clock. destruct (ri_failed i); [done|]. destruct (_ || _) eqn:E; [done|]. b2p.
  intros [= <-]. split_and!; (done || lia).
Qed.

Lemma next_revision_ok i rev :
  next_revision i = Ok rev -> rev = pb_revision (ri_state i) + 1 /\ rev <= u64_max.
Proof.
  unfold next_revision, checked_add64. destruct (Z.leb_spec (pb_revision (ri_state i) + 1) u64_max); [|done].
  by intros [= <-].
Qed.

Lemma sign_record_ok i draft now ttl rev record :
  pub_valid (ri_state i) -> sign_record i draft now ttl = Ok (rev, record) ->
  EndpointRecord_verify record
  = Ok (mkRecordPayload RECORD_VERSION (pb_key (ri_state i)) rev (rf_addrs draft)
          (rf_relay_urls draft) (rf_services draft) now (now + ttl))
  /\ successor (ri_state i)
       (mkPub (pb_format (ri_state i)) (pb_key (ri_state i)) rev now (Some (MuRecord record))).
Proof.
  intros [F K _ R] S. unfold sign_record in S. destruct (next_revision i) as [rv|] eqn:N; [|done].
  cbv beta iota in S. unfold checked_add64 in S. destruct (_ <=? u64_max); [|done]. cbn [ok_or] in S.
  destruct (EndpointRecord_sign _ _) as [rec|] eqn:Sg; [|done]. injection S as -> ->.
  apply next_revision_ok in N as [-> Hr]. destruct (EndpointRecord_sign_ok _ _ _ Sg) as [V _].
  split; [done|]. split; [|done]. split; simpl; try done; [|lia]. by rewrite V.
Qed.

Lemma sign_delete_ok i now rev tomb :
  pub_valid (ri_state i) -> 0 <= now -> sign_delete i now = Ok (rev, tomb) ->
  successor (ri_state i)
    (mkPub (pb_format (ri_state i)) (pb_key (ri_state i)) rev now (Some (MuDelete tomb))).
Proof.
  intros [F K _ R] H0 S. unfold sign_delete in S. destruct (next_revision i) as [rv|] eqn:N; [|done].
  cbv beta iota in S. unfold checked_add64 in S.
  destruct (Z.leb_spec (now + DELETE_TTL) u64_max) as [Hm|]; [|done]. cbn [ok_or] in S.
  destruct (DeleteRequest_sign _ _) as [t|] eqn:Sg; [|done]. injection S as -> ->.
  apply next_revision_ok in N as [-> Hr]. assert (Ht : 0 <= DELETE_TTL) by done.
  assert (Hl : zlen (dr_payload tomb) <= 128).
  { unfold DeleteRequest_sign in Sg. destruct (record_metadata _ _ _ _ _); [|done]. cbv beta iota in Sg.
    destruct (negb _); [done|]. destruct (to_stdvec _) as [b|] eqn:Eb; [|done]. injection Sg as <-.
    apply (delete_fits _ _ Eb); simpl; lia. }
  destruct (DeleteRequest_sign_ok _ _ _ Hl Sg) as [V _]. split; [|done]. split; simpl; try done; [|lia].
  by rewrite V.
Qed.

(** What one operation of an issuer comes to: the issuer stays well-formed, and what it
    hands out is what its state holds. *)
Definition issued (h : list Mutation) (i' : RecordIssuer) (out : option Mutation) : Prop :=
  issuer_ok h i' /\ forall m, out = Some m -> pb_pending (ri_state i') = Some m.

Lemma issue_record_step h i draft now renew io i' r :
  issuer_ok h i -> 0 <= now -> issue_record i draft now renew io = (i', r) ->
  issued h i' (match r with Ok record => Some (MuRecord record) | Err _ => None end).
Proof.
  intros K H0 H. unfold issue_record in H.
  assert (Keep : forall i1 e, issuer_ok h i1 -> (i1, Err e) = (i', r) ->
    issued h i' (match r with Ok record => Some (MuRecord record) | Err _ => None end))
    by (intros i1 e K1 [= <- <-]; by split).
  destruct (pub_check_clock i now) as [i1|e] eqn:Cc; [|by apply (Keep i e)].
  apply check_clock_inv in Cc as (-> & Nf & _). pose proof (issuer_wall h i now K) as K1.
  set (i1 := set_pub_wall i now) in *. destruct (_ || _); [by eapply Keep|].
  destruct (pending_record i1 draft now _ renew) as [[record|]|e] eqn:P; [| |by eapply Keep].
  { injection H as <- <-. split; [done|]. intros m [= <-]. unfold pending_record in P. destruct renew; [done|].
    destruct (pb_pending (ri_state i1)) as [[rec|]|]; try done.
    destruct (EndpointRecord_verify rec); [|done]. cbv beta iota in P.
    destruct (reusable _ _ _ _); [|done]. by injection P as ->. }
  destruct (sign_record i1 draft now _) as [[rev record]|e] eqn:S; [|by eapply Keep].
  destruct (sign_record_ok _ _ _ _ _ _ (ik_state _ _ K1) S) as [_ Su].
  destruct (pub_commit i1 rev now (MuRecord record) io) as [i2 c] eqn:C.
  destruct (pub_commit_ok h i1 rev now (MuRecord record) io i2 c K1 Nf Su C) as [K2 P2].
  injection H as <- <-. destruct c as [[]|e]; split; try done. intros m [= <-]. by apply P2.
Qed.

Lemma issuer_delete_step h i now io i' r :
  issuer_ok h i -> 0 <= now -> issuer_delete i now io = (i', r) ->
  issued h i' (match r with Ok tomb => Some (MuDelete tomb) | Err _ => None end).
Proof.
  intros K H0 H. unfold issuer_delete in H.
  assert (Keep : forall i1 e, issuer_ok h i1 -> (i1, Err e) = (i', r) ->
    issued h i' (match r with Ok tomb => Some (MuDelete tomb) | Err _ => None end))
    by (intros i1 e K1 [= <- <-]; by split).
  destruct (pub_check_clock i now) as [i1|e] eqn:Cc; [|by apply (Keep i e)].
  apply check_clock_inv in Cc as (-> & Nf & _). pose proof (issuer_wall h i now K) as K1.
  set (i1 := set_pub_wall i now) in *.
  destruct (pending_delete i1 now) as [tomb|] eqn:P.
  { injection H as <- <-. split; [done|]. intros m [= <-]. unfold pending_delete in P.
    destruct (pb_pending (ri_state i1)) as [[|t]|]; try done. destruct (is_ok _); [|done]. by injection P as ->. }
  destruct (sign_delete i1 now) as [[rev tomb]|e] eqn:S; [|by eapply Keep].
  pose proof (sign_delete_ok _ _ _ _ (ik_state _ _ K1) H0 S) as Su.
  destruct (pub_commit i1 rev now (MuDelete tomb) io) as [i2 c] eqn:C.
  destruct (pub_commit_ok h i1 rev now (MuDelete tomb) io i2 c K1 Nf Su C) as [K2 P2].
  injection H as <- <-. destruct c as [[]|e]; split; try done. intros m [= <-]. by apply P2.
Qed.

(** ** Runs *)

Inductive pub_run_state : Type := PClosed (d : PubDisk) | PRunning (i : RecordIssuer).

(** One step of the owner of an identity, with what it hands out for publication: open the
    directory, publish, renew, delete, recover from a full disk, each with whatever outcome
    its calls have, or stop. *)
Inductive pub_step : pub_run_state -> option Mutation -> pub_run_state -> Prop :=
| PsOpen d now io d' r :
    RecordIssuer_open sk now d io = (d', r) ->
    pub_step (PClosed d) None (match r with Ok i => PRunning i | Err _ => PClosed d' end)
| PsRecord i draft now renew io i' r :
    0 <= now -> issue_record i draft now renew io = (i', r) ->
    pub_step (PRunning i) (match r with Ok record => Some (MuRecord record) | Err _ => None end) (PRunning i')
| PsDelete i now io i' r :
    0 <= now -> issuer_delete i now io = (i', r) ->
    pub_step (PRunning i) (match r with Ok tomb => Some (MuDelete tomb) | Err _ => None end) (PRunning i')
| PsRecover i now io i' r :
    recover_storage_full i now io = (i', r) -> pub_step (PRunning i) None (PRunning i')
| PsStop i d : ri_disk i = Some d -> pub_step (PRunning i) None (PClosed d).

(** A run and everything it handed out, in order. *)
Inductive pub_run (st : pub_run_state) : list Mutation -> pub_run_state -> Prop :=
| pr_start : pub_run st [] st
| pr_step h st1 out st2 :
    pub_run st h st1 -> pub_step st1 out st2 -> pub_run st (h ++ option_list out) st2.

Definition run_ok (h : list Mutation) (st : pub_run_state) : Prop :=
  ordered h /\ match st with PClosed d => disk_ok h d | PRunning i => issuer_ok h i end.

Lemma issued_run_ok h i' out :
  ordered h -> issued h i' out -> run_ok (h ++ option_list out) (PRunning i').
Proof.
  intros O [K P]. destruct out as [m|]; simpl; [|rewrite app_nil_r; by split].
  destruct (ordered_snoc h (ri_state i') m O (ik_handed _ _ K) (ik_state _ _ K) (P m eq_refl)) as [O' H'].
  split; [done|]. destruct K as [K1 K2 _ K4]. by split.
Qed.

Lemma pub_run_ok st h st' : run_ok [] st -> pub_run st h st' -> run_ok h st'.
Proof.
  intros R0 R. induction R as [|h st1 out st2 R IH S]; [done|]. destruct IH as [O K].
  destruct S as [d now io d' r E|i draft now renew io i' r H0 E|i now io i' r H0 E|i now io i' r E|i d E];
    simpl in K.
  - destruct (RecordIssuer_open_ok _ _ _ _ _ _ K E) as [Dk I]. simpl. rewrite app_nil_r.
    destruct r as [i|e]; split; try done. by destruct (I i eq_refl).
  - eapply issued_run_ok; [done|]. by eapply issue_record_step.
  - eapply issued_run_ok; [done|]. by eapply issuer_delete_step.
  - simpl. rewrite app_nil_r. split; [done|]. by eapply recover_ok.
  - simpl. rewrite app_nil_r. split; [done|]. by eapply issuer_disk.
Qed.


(** The payload answers the draft. *)
Definition fits (p : RecordPayload) (draft : RecordDraft) : Prop :=
  pl_addrs p = rf_addrs draft /\ pl_relay_urls p = rf_relay_urls draft
  /\ pl_services p = rf_services draft /\ pl_expires_at p - pl_issued_at p = as_secs (rf_ttl draft).

Definition ttl_ok (draft : RecordDraft) : Prop :=
  1 <= as_secs (rf_ttl draft) <= MAX_RECORD_TTL /\ rf_ttl draft mod nanos_per_sec = 0.

Lemma pub_commit_healthy i rev now m io i' : pub_commit i rev now m io = (i', Ok tt) -> ri_failed i' = false.
Proof.
  unfold pub_commit. destruct (pub_encode _); [|done]. destruct (ri_disk i) as [d|]; [|by intros [= <-]].
  destruct (let? _ := match io with PubRead _ => _ | _ => _ end in _); [|done].
  by destruct io; intros [= <-].
Qed.

Lemma reusable_fits p draft now :
  reusable p draft now (as_secs (rf_ttl draft)) = true <->
  fits p draft /\ Z.max 0 (now - pl_issued_at p) < Z.max (as_secs (rf_ttl draft) / 3) 1.
Proof. unfold reusable, fits. rewrite !andb_true_iff, !bool_decide_eq_true, Z.eqb_eq, Z.ltb_lt. tauto. Qed.

Lemma issue_record_fits h i draft now renew io i' record :
  issuer_ok h i -> 0 <= as_secs (rf_ttl draft) -> issue_record i draft now renew io = (i', Ok record) ->
  ri_failed i' = false /\ ttl_ok draft
  /\ exists p, EndpointRecord_verify record = Ok p /\ fits p draft
       /\ pl_key p = verifying_key sk
       /\ (pl_issued_at p <= now -> now < pl_expires_at p)
       /\ (pb_pending (ri_state i) <> Some (MuRecord record) -> pl_issued_at p = now).
Proof.
  intros K H0 H. unfold issue_record in H.
  destruct (pub_check_clock i now) as [i1|e] eqn:Cc; [|done].
  apply check_clock_inv in Cc as (-> & Nf & Hf). pose proof (issuer_wall h i now K) as K1.
  set (i1 := set_pub_wall i now) in *. destruct (_ || _) eqn:Et; [done|]. b2p.
  assert (T : ttl_ok draft) by (destruct Et as [[? ?] ?]; split; [lia|done]).
  destruct (pending_record i1 draft now _ renew) as [[rec|]|e] eqn:P; [| |done].
  - injection H as <- <-. split_and!; [done|done|]. unfold pending_record in P. destruct renew; [done|].
    pose proof (pv_pending _ (ik_state _ _ K1)) as V. cbn [i1 set_pub_wall ri_state] in P, V.
    destruct (pb_pending (ri_state i)) as [[r|]|] eqn:Ep; try done. simpl in V.
    destruct (EndpointRecord_verify r) as [p|] eqn:Vp; [|done]. cbv beta iota in P, V.
    destruct (reusable _ _ _ _) eqn:Ru; [|done]. injection P as ->. apply reusable_fits in Ru as [F A].
    exists p. split_and!; try done.
    + injection V as V _ _. rewrite V. apply K.
    + intros Hi. destruct F as (_ & _ & _ & F). destruct T as [T _].
      assert (as_secs (rf_ttl draft) / 3 <= as_secs (rf_ttl draft)) by (apply Z.div_le_upper_bound; lia). lia.
  - destruct (sign_record i1 draft now _) as [[rev rec]|e] eqn:S; [|done].
    destruct (sign_record_ok _ _ _ _ _ _ (ik_state _ _ K1) S) as [V _].
    destruct (pub_commit i1 rev now (MuRecord rec) io) as [i2 [[]|e]] eqn:C; [|done].
    injection H as <- <-. split_and!; [by eapply pub_commit_healthy|done|]. eexists. split_and!; [exact V|..].
    + unfold fits. simpl. split_and!; try done. lia.
    + simpl. apply K.
    + simpl. lia.
    + done.
Qed.

(** A record handed out is answered again, byte for byte, after a restart: while a third of
    its lifetime has not passed, the reopened publisher returns it for the same draft
    without writing anything. *)
Theorem publisher_retries_exactly h i d draft now renew io i' record now2 now3 io2 :
  pub_run (PClosed (mkPubDisk None false)) h (PRunning i) ->
  0 <= as_secs (rf_ttl draft) -> 0 <= now ->
  issue_record i draft now renew io = (i', Ok record) -> ri_disk i' = Some d ->
  pb_wall_floor (ri_state i') <= now2 <= now3 -> 0 <= now2 ->
  now3 - pb_wall_floor (ri_state i') < Z.max (as_secs (rf_ttl draft) / 3) 1 ->
  exists i2, RecordIssuer_open sk now2 d PoDone = (set_sealed true d, Ok i2)
    /\ issuer_record i2 draft now3 io2 = (set_pub_wall i2 now3, Ok record).
Proof.
  intros R Ht H0 E Ed [Hw Hn] H2 Hr. apply pub_run_ok in R as [_ K].
  2:{ split; [by intros ? ? ? ? _ L|]. by left. }
  destruct (issue_record_step h _ _ _ _ _ _ _ K H0 E) as [K' P]. specialize (P _ eq_refl).
  destruct (issue_record_fits h _ _ _ _ _ _ _ K Ht E) as (Nf & [T1 T2] & p & V & F & _).
  destruct K' as [_ Vs _ D]. rewrite Ed, Nf in D. destruct D as [Hd _].
  destruct (open_held d _ now2 Vs Hd H2 Hw) as (i2 & Eo & Es & Eobs & Nf2 & _). exists i2. split; [done|].
  unfold issuer_record, issue_record, pub_check_clock. rewrite Nf2, Es, Eobs.
  rewrite !(proj2 (Z.ltb_ge _ _)) by lia. simpl.
  rewrite (proj2 (Z.eqb_neq _ _)) by lia. rewrite T2. simpl.
  unfold pending_record. simpl. rewrite Es, P. rewrite V. simpl.
  pose proof (pv_pending _ Vs) as Pv. rewrite P in Pv. simpl in Pv. rewrite V in Pv. injection Pv as _ _ Pw.
  rewrite (proj2 (reusable_fits p draft now3)); [done|]. split; [done|]. lia.
Qed.
End Proofs.

(** ** Witnesses *)

Module PublisherWitness.
Definition sk : bytes := replicate 32 "k"%char.
Definition draft : RecordDraft := mkDraft [] [] [SvcSync] (from_secs 60).
Definition payload1 : RecordPayload := mkRecordPayload RECORD_VERSION sk 1 [] [] [SvcSync] 100 160.
Definition payload2 : RecordPayload := mkRecordPayload RECORD_VERSION sk 2 [] [] [SvcSync] 130 190.
Definition signed (b : bytes) : EndpointRecord := mkEndpointRecord sk b (toy_signature sk (RECORD_DOMAIN ++ b)).
Definition state0 : PubState := mkPub 1 sk 0 0 None.
Definition state1 : PubState := mkPub 1 sk 1 100 (Some (MuRecord (signed (bs "3p")))).
Definition state2 : PubState := mkPub 1 sk 2 130 (Some (MuRecord (signed (bs "3q")))).

#[local] Instance w_ed : Ed25519 := toy_ed25519.
#[local] Instance w_url : UrlLibrary := fun _ => None.
#[local] Instance w_blake : Blake3 := toy_blake3.
#[local] Instance w_z : Postcard Z := toy_postcard [(RECORD_VERSION, bs "3")].
#[local] Instance w_payload : Postcard RecordPayload := toy_postcard [(payload1, bs "3p"); (payload2, bs "3q")].
#[local] Instance w_delete : Postcard DeletePayload := toy_postcard [].
#[local] Instance w_state : Postcard PubState := toy_postcard [(state0, bs "0"); (state1, bs "1"); (state2, bs "2")].
Definition env (s : PubState) (b : string) : PubEnvelope := mkPubEnvelope s (toy_blake3 (bs b)).
Definition table : list (PubEnvelope * bytes) :=
  [(env state0 "0", bs "e0"); (env state1 "1", bs "e1"); (env state2 "2", bs "e2")].
#[local] Instance w_json : SerdeJson PubEnvelope := toy_json_table table.
#[local] Instance w_ed_laws : Ed25519Laws := toy_ed25519_laws.
#[local] Instance w_payload_laws : PostcardLaws RecordPayload.
Proof. apply (toy_table_laws _ 2); [by repeat constructor|]. apply (bool_decide_unpack _). vm_compute. done. Qed.
#[local] Instance w_payload_version : VersionFirst RecordPayload pl_version.
Proof.
  intros a b. simpl. destruct (decide (payload1 = a)) as [<-|]; [intros [= <-]; by eexists|].
  destruct (decide (payload2 = a)) as [<-|]; [intros [= <-]; by eexists|done].
Qed.
#[local] Instance w_delete_laws : PostcardLaws DeletePayload.
Proof. by intros a b rest. Qed.
#[local] Instance w_delete_version : VersionFirst DeletePayload dp_version.
Proof. by intros a b. Qed.
#[local] Instance w_json_laws : SerdeJsonLaws PubEnvelope.
Proof. apply toy_json_laws. apply (bool_decide_unpack _). vm_compute. done. Qed.
Lemma w_fits : forall (p : DeletePayload) b, to_stdvec p = Ok b ->
  0 <= dp_revision p <= u64_max -> 0 <= dp_issued_at p <= u64_max -> 0 <= dp_expires_at p <= u64_max ->
  zlen b <= 128.
Proof. done. Qed.

Definition blank : PubDisk := mkPubDisk None false.
Definition opened : RecordIssuer :=
  mkIssuer sk state0 (Some (mkPubDisk (Some (bs "e0")) true)) false 90 None.
Definition issued1 : RecordIssuer :=
  mkIssuer sk state1 (Some (mkPubDisk (Some (bs "e1")) true)) false 100 None.
(** The commit of the second record fails, but replaced the file. *)
Definition full : DiscoveryError := StorageUnavailable "No space left on device".
Definition failed2 : RecordIssuer :=
  mkIssuer sk state1 (Some (mkPubDisk (Some (bs "e2")) true)) true 130 (Some state2).
Definition recovered2 : RecordIssuer :=
  mkIssuer sk state2 (Some (mkPubDisk (Some (bs "e2")) true)) false 131 None.

Lemma run1 : pub_run sk (PClosed blank) [MuRecord (signed (bs "3p"))] (PRunning issued1).
Proof.
  assert (E0 : RecordIssuer_open sk 90 blank PoDone = (mkPubDisk (Some (bs "e0")) true, Ok opened))
    by (vm_compute; reflexivity).
  assert (E1 : issue_record opened draft 100 false PubDone = (issued1, Ok (signed (bs "3p"))))
    by (vm_compute; reflexivity).
  change [MuRecord (signed (bs "3p"))] with (([] ++ option_list None) ++ option_list (Some (MuRecord (signed (bs "3p"))))).
  eapply pr_step; [eapply pr_step; [apply pr_start|exact (PsOpen _ _ _ _ _ _ E0)]|].
  exact (PsRecord _ _ _ 100 _ _ _ _ ltac:(done) E1).
Qed.


(** The first record, asked for again after a restart. *)
Lemma publisher_retries_exactly_witness :
  exists i2, RecordIssuer_open sk 105 (mkPubDisk (Some (bs "e1")) true) PoDone
             = (mkPubDisk (Some (bs "e1")) true, Ok i2)
    /\ issuer_record i2 draft 110 PubDone = (set_pub_wall i2 110, Ok (signed (bs "3p"))).
Proof.
  assert (E : issue_record issued1 draft 101 false PubDone = (set_pub_wall issued1 101, Ok (signed (bs "3p"))))
    by (vm_compute; reflexivity).
  apply (publisher_retries_exactly w_fits sk _ issued1 (mkPubDisk (Some (bs "e1")) true) draft 101 false PubDone
           (set_pub_wall issued1 101) (signed (bs "3p")) 105 110 PubDone run1);
    [by vm_compute|done|exact E|reflexivity|vm_compute; split; discriminate|done|by vm_compute].
Defined.
End PublisherWitness.
