(* ===== verification/Admission.v ===== *)
(** * Enrollment and mutation budgets

    Models [src/crates/rds-discovery/src/admission.rs]: the configured publishers and the
    limiter of a directory.  An [Instant] is a reading of the monotonic clock in
    nanoseconds, taken by the caller; the mutex makes each call one step. *)

From S2P Require Import Prelude Discovery Clock Crypto Authority RecordWire Records.

(** The mutation budgets of [Limits] in [service.rs]. *)
Record Limits : Type := mkLimits {
  li_put_min_interval : duration;
  li_put_per_minute : Z;
  li_admissions_per_minute : Z;
  li_writer_per_minute : Z;
  li_policy_per_minute : Z
}.
Definition Limits_default : Limits := mkLimits 0 600 600 120 60.

(** ** Enrollment *)

Record Enrollment : Type := mkEnrollment { en_keys : gset bytes; en_unrestricted : bool }.
Definition Enrollment_default : Enrollment := mkEnrollment ∅ false.

Section Enroll.
Context `{Ed25519}.
(** [VerifyingKey::is_weak]. *)
Context (is_weak : bytes -> bool).

(** One round of the loop of [Enrollment::new]. *)
Definition enroll_key (st : Z * gset bytes) (key : EndpointKey)
    : result (Z * gset bytes) DiscoveryError :=
  let '(index, keys) := st in
  if MAX_IDENTITIES <=? index then Err (Configuration "enrollment exceeds 4096 identities") else
  let? _ := map_err (fun _ => Configuration "invalid enrollment key") (vk_from_bytes key) in
  if is_weak key || bool_decide (key ∈ keys)
  then Err (Configuration "weak or duplicate enrollment key")
  else Ok (index + 1, {[key]} ∪ keys).
Definition Enrollment_new (keys : list EndpointKey) : result Enrollment DiscoveryError :=
  let? (_, enrolled) := try_fold enroll_key (0, ∅) keys in Ok (mkEnrollment enrolled false).
End Enroll.

Definition unrestricted_for_tests : Enrollment := mkEnrollment ∅ true.
Definition enrollment_allows (e : Enrollment) (key : EndpointKey) : bool :=
  en_unrestricted e || bool_decide (key ∈ en_keys e).

(** ** Windows *)

Definition Instant : Type := Z.
Definition saturating_duration_since (a b : Instant) : duration := Z.max 0 (a - b).

Definition WINDOW : duration := from_secs 60.
Record Window : Type := mkWindow { wn_start : Instant; wn_used : Z }.
Definition Window_new (now : Instant) : Window := mkWindow now 0.
(** [reset], with whether it did. *)
Definition window_reset (w : Window) (now : Instant) : Window * bool :=
  if WINDOW <=? saturating_duration_since now (wn_start w) then (Window_new now, true) else (w, false).
Definition window_take (w : Window) (now : Instant) (limit : Z) : Window * bool :=
  let w := (window_reset w now).1 in
  if limit <=? wn_used w then (w, false) else (mkWindow (wn_start w) (wn_used w + 1), true).

(** ** The limiter *)

Record Writer : Type := mkWriter {
  wr_window : Window;
  wr_reserved : bool;
  wr_last : option Instant
}.
(** [State]. *)
Record LimiterState : Type := mkLimiter {
  lm_writers : gmap bytes Writer;
  lm_admissions : Window;
  lm_burst : Window;
  lm_registry : Window;
  lm_revocations : Window
}.
Definition Limiter_default (now : Instant) : LimiterState :=
  mkLimiter ∅ (Window_new now) (Window_new now) (Window_new now) (Window_new now).

(** The writers after the sweep of a full table. *)
Definition swept (writers : gmap bytes Writer) (now : Instant) : gmap bytes Writer :=
  filter (fun kw => (saturating_duration_since now (wn_start (wr_window kw.2)) <? WINDOW) = true) writers.

(** The writer of a key, its window reset when it ran out. *)
Definition current_writer (writers : gmap bytes Writer) (key : EndpointKey) (now : Instant) : Writer :=
  let writer := default (mkWriter (Window_new now) false None) (writers !! key) in
  let '(window, was_reset) := window_reset (wr_window writer) now in
  mkWriter window (if was_reset then false else wr_reserved writer) (wr_last writer).

(** [Limiter::record_at]. *)
Definition record_at (st : LimiterState) (key : EndpointKey) (known : bool) (limits : Limits)
    (now : Instant) : LimiterState * result unit DiscoveryError :=
  let with_writers writers :=
    mkLimiter writers (lm_admissions st) (lm_burst st) (lm_registry st) (lm_revocations st) in
  let writers :=
    if negb (is_some (lm_writers st !! key)) && (MAX_IDENTITIES <=? Z.of_nat (size (lm_writers st)))
    then swept (lm_writers st) now else lm_writers st in
  if negb (is_some (writers !! key)) && (MAX_IDENTITIES <=? Z.of_nat (size writers))
  then (with_writers writers, Err RateLimited) else
  let writer := current_writer writers key now in
  let writers := <[key := writer]> writers in
  if is_some_and (wr_last writer)
       (fun last => saturating_duration_since now last <? li_put_min_interval limits)
     || (li_writer_per_minute limits <=? wn_used (wr_window writer))
  then (with_writers writers, Err RateLimited) else
  let reserved := known && negb (wr_reserved writer) in
  let '(admissions, burst, allowed) :=
    if reserved then (lm_admissions st, lm_burst st, true) else
    if known then
      let '(burst, allowed) := window_take (lm_burst st) now (li_put_per_minute limits) in
      (lm_admissions st, burst, allowed)
    else
      let '(admissions, allowed) := window_take (lm_admissions st) now (li_admissions_per_minute limits) in
      (admissions, lm_burst st, allowed) in
  let writers :=
    if allowed
    then <[key := mkWriter (mkWindow (wn_start (wr_window writer)) (wn_used (wr_window writer) + 1))
                    (wr_reserved writer || reserved) (Some now)]> writers
    else writers in
  (mkLimiter writers admissions burst (lm_registry st) (lm_revocations st),
   if allowed then Ok tt else Err RateLimited).

(** [Limiter::policy]. *)
Definition limiter_policy (st : LimiterState) (revocations : bool) (limits : Limits) (now : Instant)
    : LimiterState * result unit DiscoveryError :=
  let '(window, ok) :=
    window_take (if revocations then lm_revocations st else lm_registry st) now
      (li_policy_per_minute limits) in
  (mkLimiter (lm_writers st) (lm_admissions st) (lm_burst st)
     (if revocations then lm_registry st else window)
     (if revocations then window else lm_revocations st),
   if ok then Ok tt else Err RateLimited).

(** ** Windows bound a rate *)

(** The calls that take from a window, in order: when, and whether they were allowed. *)
Definition in_minute (t now : Instant) : bool := (t <=? now) && (now <? t + WINDOW).

(** A window at [now], when [count] calls were allowed in the minute from [t]. *)
Record rate_ok (limit t : Z) (w : Window) (now : Instant) (count : Z) : Prop := {
  ra_start : wn_start w <= now;
  ra_used : 0 <= wn_used w <= limit;
  ra_count : 0 <= count <= 2 * limit;
  ra_before : now < t -> count = 0;
  ra_inside : now < t + WINDOW -> if wn_start w <? t then count <= wn_used w else count <= limit + wn_used w
}.

Lemma rate_new limit t now : 0 <= limit -> rate_ok limit t (Window_new now) now 0.
Proof. intros H. split; simpl; try lia. intros _. destruct (now <? t); lia. Qed.

Lemma rate_later limit t w now now' count :
  rate_ok limit t w now count -> now <= now' -> (now' < t -> count = 0) ->
  rate_ok limit t w now' count.
Proof. intros [H1 H2 H3 H4 H5] Hn Hb. split; try done; [lia|]. intros Hi. apply H5. lia. Qed.

(** Two minutes of budget bound any minute: the window that was running at its start and
    one that began in it. *)
Lemma rate_reset limit t w now now' count :
  0 <= limit -> rate_ok limit t w now count -> now <= now' ->
  rate_ok limit t (window_reset w now').1 now' count.
Proof.
  intros Hl [H1 H2 H3 H4 H5] Hn. unfold window_reset.
  destruct (Z.leb_spec WINDOW (saturating_duration_since now' (wn_start w))) as [Hw|Hw]; simpl.
  - unfold saturating_duration_since in Hw. assert (0 < WINDOW) by done. split; simpl; try lia. intros Hi.
    destruct (Z.ltb_spec (wn_start w) t), (Z.ltb_spec now' t); lia.
  - split; try done; try lia. intros Hi. apply H5. lia.
Qed.
Lemma rate_use limit t w now count :
  rate_ok limit t w now count -> wn_used w < limit ->
  rate_ok limit t (mkWindow (wn_start w) (wn_used w + 1)) now (count + if in_minute t now then 1 else 0).
Proof.
  intros [R1 R2 R3 R4 R5] Lt. unfold in_minute.
  destruct (Z.leb_spec t now), (Z.ltb_spec now (t + WINDOW)); simpl; rewrite ?Z.add_0_r.
  2,3,4: split; simpl; try done; try lia; intros Hi; specialize (R5 Hi); destruct (wn_start w <? t); lia.
  specialize (R5 ltac:(done)). split; simpl; try lia; [destruct (wn_start w <? t); lia|].
  intros _. destruct (wn_start w <? t); lia.
Qed.
Lemma rate_take limit t w now now' count w' ok :
  0 <= limit -> rate_ok limit t w now count -> now <= now' -> window_take w now' limit = (w', ok) ->
  rate_ok limit t w' now' (count + if ok && in_minute t now' then 1 else 0).
Proof.
  intros Hl R Hn E. pose proof (rate_reset limit t w now now' count Hl R Hn) as Rr. unfold window_take in E.
  destruct (Z.leb_spec limit (wn_used (window_reset w now').1)); injection E as <- <-; simpl.
  - by rewrite Z.add_0_r.
  - by apply rate_use.
Qed.

(** ** One call *)

(** A call keeps the other writers, but for the ones whose minute is over. *)
Definition keeps_writer (now : Instant) (old new : option Writer) : Prop :=
  new = old \/ new = None /\ exists w, old = Some w /\ wn_start (wr_window w) + WINDOW <= now.

(** The state and the answer after a call, in terms of the writer of its key. *)
Inductive recorded (st : LimiterState) (key : EndpointKey) (known : bool) (limits : Limits) (now : Instant)
    (st' : LimiterState) : result unit DiscoveryError -> Prop :=
| rc_full :
    lm_writers st !! key = None -> lm_writers st' !! key = None ->
    MAX_IDENTITIES <= Z.of_nat (size (lm_writers st)) ->
    lm_admissions st' = lm_admissions st -> lm_burst st' = lm_burst st ->
    recorded st key known limits now st' (Err RateLimited)
| rc_refused w :
    w = current_writer (lm_writers st) key now -> lm_writers st' !! key = Some w ->
    is_some_and (wr_last w) (fun last => saturating_duration_since now last <? li_put_min_interval limits)
      || (li_writer_per_minute limits <=? wn_used (wr_window w)) = true ->
    lm_admissions st' = lm_admissions st -> lm_burst st' = lm_burst st ->
    recorded st key known limits now st' (Err RateLimited)
| rc_budget w :
    w = current_writer (lm_writers st) key now -> lm_writers st' !! key = Some w ->
    (known = true -> wr_reserved w = true) ->
    (lm_admissions st', false) = (if known then (lm_admissions st, false)
                                  else window_take (lm_admissions st) now (li_admissions_per_minute limits)) ->
    recorded st key known limits now st' (Err RateLimited)
| rc_allowed w :
    w = current_writer (lm_writers st) key now ->
    lm_writers st' !! key = Some (mkWriter (mkWindow (wn_start (wr_window w)) (wn_used (wr_window w) + 1))
                                    (wr_reserved w || known && negb (wr_reserved w)) (Some now)) ->
    wn_used (wr_window w) < li_writer_per_minute limits ->
    (lm_admissions st', true) = (if known then (lm_admissions st, true)
                                 else window_take (lm_admissions st) now (li_admissions_per_minute limits)) ->
    recorded st key known limits now st' (Ok tt).

Lemma swept_lookup ws now k :
  keeps_writer now (ws !! k) (swept ws now !! k).
Proof.
  unfold swept, keeps_writer. rewrite map_lookup_filter. destruct (ws !! k) as [w|]; simpl; [|by left].
  destruct (Z.ltb_spec (saturating_duration_since now (wn_start (wr_window w))) WINDOW) as [|Hw].
  - left. by rewrite option_guard_True.
  - right. rewrite option_guard_False by done. split; [done|]. exists w. split; [done|].
    unfold saturating_duration_since in Hw. assert (0 < WINDOW) by done. lia.
Qed.
Lemma current_swept ws key now : ws !! key = None -> current_writer (swept ws now) key now = current_writer ws key now.
Proof.
  intros E. unfold current_writer. destruct (swept_lookup ws now key) as [->|[-> (w & E' & _)]]; [done|congruence].
Qed.

Lemma record_at_ok st key known limits now st' r :
  record_at st key known limits now = (st', r) ->
  recorded st key known limits now st' r
  /\ (forall k, k <> key -> keeps_writer now (lm_writers st !! k) (lm_writers st' !! k)).
Proof.
  unfold record_at. set (full := negb (is_some (lm_writers st !! key)) && _).
  set (ws := if full then swept (lm_writers st) now else lm_writers st).
  assert (Hk : forall k, keeps_writer now (lm_writers st !! k) (ws !! k))
    by (intros k; unfold ws; destruct full; [apply swept_lookup|by left]).
  assert (Hc : current_writer ws key now = current_writer (lm_writers st) key now).
  { unfold ws. destruct full eqn:F; [|done]. apply current_swept. unfold full in F.
    destruct (lm_writers st !! key); [done|done]. }
  assert (Ho : forall w k, k <> key -> keeps_writer now (lm_writers st !! k) (<[key := w]> ws !! k))
    by (intros w k Ne; rewrite lookup_insert_ne; [apply Hk|done]).
  destruct (negb (is_some (ws !! key)) && (MAX_IDENTITIES <=? Z.of_nat (size ws))) eqn:F2.
  { intros [= <- <-]. split; [|intros k _; apply Hk].
    assert (full = true) as Ft.
    { unfold ws in F2. by destruct full eqn:Fl; [|unfold full in Fl; congruence]. }
    apply andb_true_iff in F2 as [F2 _]. unfold full in Ft. apply andb_true_iff in Ft as [Ft1 Ft2].
    apply rc_full; simpl; try done; [by destruct (lm_writers st !! key)|by destruct (ws !! key)|by apply Z.leb_le]. }
  rewrite Hc. set (w := current_writer (lm_writers st) key now).
  assert (Hi : forall w', <[key := w']> ws !! key = Some w') by (intros w'; by rewrite lookup_insert, decide_True).
  destruct (is_some_and _ _ || _) eqn:R.
  { intros [= <- <-]. split; [|apply Ho]. apply (rc_refused _ _ _ _ _ _ w); try done. apply Hi. }
  apply orb_false_iff in R as [_ R]. apply Z.leb_gt in R.
  destruct (known && negb (wr_reserved w)) eqn:Rs.
  { intros [= <- <-]. apply andb_true_iff in Rs as [-> Nr].
    split; [apply (rc_allowed _ _ _ _ _ _ w); simpl; try done|].
    - rewrite lookup_insert, decide_True by done. by rewrite Nr.
    - intros k Ne. simpl. rewrite lookup_insert_ne by done. by apply Ho. }
  assert (Hr : known = true -> wr_reserved w = true) by (intros ->; by destruct (wr_reserved w)).
  destruct (if known then _ else _) as [[ad bu] [|]] eqn:T; intros [= <- <-].
  - split; [apply (rc_allowed _ _ _ _ _ _ w); simpl; try done|].
    + rewrite lookup_insert, decide_True by done. by rewrite Rs.
    + destruct known; [by destruct (window_take (lm_burst st) _ _); injection T as <- _ _|].
      destruct (window_take (lm_admissions st) _ _). by injection T as -> _ ->.
    + intros k Ne. simpl. rewrite lookup_insert_ne by done. by apply Ho.
  - split; [apply (rc_budget _ _ _ _ _ _ w); simpl; try done; try apply Hi|apply Ho].
    destruct known; [by destruct (window_take (lm_burst st) _ _); injection T as <- _ _|].
    destruct (window_take (lm_admissions st) _ _). by injection T as -> _ ->.
Qed.

(** ** Runs *)

Record Call : Type := mkCall { cl_key : EndpointKey; cl_known : bool; cl_now : Instant }.

(** A sequence of calls, with the answer of each. *)
Fixpoint limiter_run (st : LimiterState) (limits : Limits) (calls : list Call)
    : LimiterState * list (Call * bool) :=
  match calls with
  | [] => (st, [])
  | c :: calls =>
      let '(st, r) := record_at st (cl_key c) (cl_known c) limits (cl_now c) in
      let '(st, rest) := limiter_run st limits calls in
      (st, (c, is_ok r) :: rest)
  end.

(** The clock does not run back. *)
Fixpoint in_order (now : Instant) (calls : list Call) : Prop :=
  match calls with
  | [] => True
  | c :: calls => now <= cl_now c /\ in_order (cl_now c) calls
  end.
Fixpoint last_time (now : Instant) (calls : list Call) : Instant :=
  match calls with [] => now | c :: calls => last_time (cl_now c) calls end.

(** The calls of a kind that were allowed in the minute from [t]. *)
Definition allowed_in (p : Call -> bool) (t : Instant) (answers : list (Call * bool)) : Z :=
  zlen (filter (fun ca => ca.2 && p ca.1 && in_minute t (cl_now ca.1) = true) answers).

Lemma allowed_in_cons p t ca l :
  allowed_in p t (ca :: l) = (if ca.2 && p ca.1 && in_minute t (cl_now ca.1) then 1 else 0) + allowed_in p t l.
Proof.
  unfold allowed_in. rewrite filter_cons. destruct (ca.2 && p ca.1 && in_minute t (cl_now ca.1)); simpl; [|lia].
  rewrite zlen_cons. lia.
Qed.

(** The window of a writer, or one that is over when the writer is not in the table. *)
Definition writer_rate (limit t : Z) (o : option Writer) (now : Instant) (count : Z) : Prop :=
  exists w, rate_ok limit t w now count
    /\ match o with Some wr => wr_window wr = w | None => wn_start w + WINDOW <= now end.

Lemma writer_rate_later limit t o o' now now' count :
  writer_rate limit t o now count -> now <= now' -> keeps_writer now' o o' -> (now' < t -> count = 0) ->
  writer_rate limit t o' now' count.
Proof.
  intros (w & R & M) Hn K Hb. exists w. split; [by eapply rate_later|].
  destruct K as [->|[-> (wr & -> & Hw)]]; [destruct o; [done|lia]|]. by subst w.
Qed.

(** Taking from the window of the current writer. *)
Lemma writer_rate_current limit t ws key now now' count :
  0 <= limit -> writer_rate limit t (ws !! key) now count -> now <= now' ->
  exists w, wr_window (current_writer ws key now') = w /\ rate_ok limit t w now' count
    /\ (wn_used w < limit -> rate_ok limit t (mkWindow (wn_start w) (wn_used w + 1)) now'
          (count + if in_minute t now' then 1 else 0)).
Proof.
  intros Hl (w & R & M) Hn. set (w1 := (window_reset w now').1).
  assert (Ew : wr_window (current_writer ws key now') = w1).
  { unfold current_writer, w1. destruct (ws !! key) as [wr|] eqn:E; simpl.
    - rewrite M. by destruct (window_reset w now').
    - unfold window_reset, saturating_duration_since. simpl. assert (0 < WINDOW) by done.
      rewrite (proj2 (Z.leb_gt _ _)) by lia. rewrite (proj2 (Z.leb_le _ _)) by lia. done. }
  exists w1. pose proof (rate_reset limit t w now now' count Hl R Hn) as R1. fold w1 in R1.
  split; [done|]. split; [done|]. by apply rate_use.
Qed.

(** The two budgets of a run: new identities, and one identity. *)
Definition newcomer (c : Call) : bool := negb (cl_known c).
Definition by_key (key : EndpointKey) (c : Call) : bool := bool_decide (cl_key c = key).

Lemma record_at_rates limits t key c st st' r now n m :
  0 <= li_admissions_per_minute limits -> 0 <= li_writer_per_minute limits -> now <= cl_now c ->
  rate_ok (li_admissions_per_minute limits) t (lm_admissions st) now n ->
  writer_rate (li_writer_per_minute limits) t (lm_writers st !! key) now m ->
  record_at st (cl_key c) (cl_known c) limits (cl_now c) = (st', r) ->
  rate_ok (li_admissions_per_minute limits) t (lm_admissions st') (cl_now c)
    (n + if is_ok r && newcomer c && in_minute t (cl_now c) then 1 else 0)
  /\ writer_rate (li_writer_per_minute limits) t (lm_writers st' !! key) (cl_now c)
    (m + if is_ok r && by_key key c && in_minute t (cl_now c) then 1 else 0).
Proof.
  intros La Lw Hn Ra Rw E. apply record_at_ok in E as [R Ho].
  assert (Zn : cl_now c < t -> n = 0) by (intros ?; apply (ra_before _ _ _ _ _ Ra); lia).
  assert (Zm : cl_now c < t -> m = 0) by (destruct Rw as (w & Rw & _); intros ?; apply (ra_before _ _ _ _ _ Rw); lia).
  split.
  - unfold newcomer. destruct R as [E1 E2 _ E3 E4|w Ew E1 _ E3 E4|w Ew E1 Er E3|w Ew E1 Eu E3]; simpl;
      rewrite ?Z.add_0_r; try (rewrite E3; by eapply rate_later).
    + destruct (cl_known c); [injection E3 as ->; by eapply rate_later|].
      pose proof (rate_take _ _ _ _ _ _ _ _ La Ra Hn (eq_sym E3)) as T. simpl in T. by rewrite Z.add_0_r in T.
    + destruct (cl_known c); simpl; [injection E3 as ->; rewrite Z.add_0_r; by eapply rate_later|].
      exact (rate_take _ _ _ _ _ _ _ _ La Ra Hn (eq_sym E3)).
  - unfold by_key. destruct (decide (cl_key c = key)) as [Ek|Ne].
    2:{ rewrite bool_decide_eq_false_2, andb_false_r by done. simpl. rewrite Z.add_0_r.
        eapply writer_rate_later; [exact Rw|done|apply Ho; done|done]. }
    rewrite bool_decide_eq_true_2, andb_true_r by done. rewrite Ek in R.
    destruct (writer_rate_current _ t (lm_writers st) key now (cl_now c) m Lw Rw Hn) as (w0 & Ew0 & R0 & Ru).
    destruct R as [E1 E2 _ E3 E4|w Ew E1 _ E3 E4|w Ew E1 Er E3|w Ew E1 Eu E3]; simpl; rewrite ?Z.add_0_r.
    + eapply writer_rate_later; [exact Rw|done|rewrite E1, E2; by left|done].
    + exists w0. rewrite E1, Ew. by split.
    + exists w0. rewrite E1, Ew. by split.
    + rewrite <-Ew in Ew0. exists (mkWindow (wn_start w0) (wn_used w0 + 1)). rewrite E1. simpl.
      rewrite Ew0 in *. split; [by apply Ru|done].
Qed.

Lemma limiter_run_rates limits t key calls st now n m :
  0 <= li_admissions_per_minute limits -> 0 <= li_writer_per_minute limits -> in_order now calls ->
  rate_ok (li_admissions_per_minute limits) t (lm_admissions st) now n ->
  writer_rate (li_writer_per_minute limits) t (lm_writers st !! key) now m ->
  n + allowed_in newcomer t (limiter_run st limits calls).2 <= 2 * li_admissions_per_minute limits
  /\ m + allowed_in (by_key key) t (limiter_run st limits calls).2 <= 2 * li_writer_per_minute limits.
Proof.
  intros La Lw. revert st now n m. induction calls as [|c calls IH]; intros st now n m O Ra Rw; simpl.
  { destruct Rw as (w & Rw & _). pose proof (ra_count _ _ _ _ _ Ra). pose proof (ra_count _ _ _ _ _ Rw).
    unfold allowed_in, zlen. simpl. lia. }
  destruct O as [Hn O]. destruct (record_at _ _ _ _ _) as [st1 r] eqn:E.
  destruct (record_at_rates limits t key c st st1 r now n m La Lw Hn Ra Rw E) as [Ra1 Rw1].
  destruct (IH st1 (cl_now c) _ _ O Ra1 Rw1) as [I1 I2].
  destruct (limiter_run st1 limits calls) as [st2 rest]. simpl in *. rewrite !allowed_in_cons. simpl. lia.
Qed.

(** In any minute a directory admits at most twice its budget of new identities and at most
    twice the budget of one identity, whatever is asked of it. *)
Theorem limiter_bounds limits start calls t key :
  0 <= li_admissions_per_minute limits -> 0 <= li_writer_per_minute limits -> in_order start calls ->
  let answers := (limiter_run (Limiter_default start) limits calls).2 in
  allowed_in newcomer t answers <= 2 * li_admissions_per_minute limits
  /\ allowed_in (by_key key) t answers <= 2 * li_writer_per_minute limits.
Proof.
  intros La Lw O answers.
  apply (limiter_run_rates limits t key calls (Limiter_default start) start 0 0 La Lw O).
  - by apply rate_new.
  - exists (mkWindow (start - WINDOW) 0). simpl. rewrite lookup_empty. split; [|lia].
    assert (0 < WINDOW) by done. split; simpl; try lia. intros _. destruct (_ <? t); lia.
Qed.

(** ** Renewals are not starved *)

(** A budget of a writer is spent only by an allowed call in its window. *)
Definition writer_fresh (w : Writer) : Prop := wn_used (wr_window w) = 0 /\ wr_reserved w = false.
Definition writer_ok (allowed : Instant -> Prop) (w : Writer) : Prop :=
  (writer_fresh w \/ exists t, wr_last w = Some t /\ wn_start (wr_window w) <= t)
  /\ forall t, wr_last w = Some t -> allowed t.
Definition table_ok (E : gset bytes) (allowed : bytes -> Instant -> Prop) (now : Instant)
    (ws : gmap bytes Writer) : Prop :=
  map_Forall (fun k w => k ∈ E /\ writer_ok (allowed k) w /\ wn_start (wr_window w) <= now) ws.

Lemma current_writer_ok allowed ws key now now' :
  (forall w, ws !! key = Some w -> writer_ok allowed w /\ wn_start (wr_window w) <= now) -> now <= now' ->
  writer_ok allowed (current_writer ws key now') /\ wn_start (wr_window (current_writer ws key now')) <= now'.
Proof.
  intros H Hn. unfold current_writer. destruct (ws !! key) as [w|]; simpl; unfold window_reset.
  - destruct (H w eq_refl) as [[Hf Hl] Hs]. destruct (_ <=? _); simpl.
    + split; [|lia]. split; [by left|done].
    + split; [by destruct w|lia].
  - destruct (_ <=? _); simpl; (split; [|lia]); split; try done; by left.
Qed.

Lemma writer_ok_impl (P Q : Instant -> Prop) w : (forall t, P t -> Q t) -> writer_ok P w -> writer_ok Q w.
Proof. intros I [H1 H2]. split; [done|]. intros t E. by apply I, H2. Qed.

Lemma record_at_table (E : gset bytes) allowed st key known limits now now' st' r :
  table_ok E allowed now (lm_writers st) -> key ∈ E -> now <= now' ->
  record_at st key known limits now' = (st', r) ->
  table_ok E (fun k t => allowed k t \/ (r = Ok tt /\ k = key /\ t = now')) now' (lm_writers st').
Proof.
  intros T Ek Hn H. apply record_at_ok in H as [R Ho]. intros k w Ew.
  destruct (decide (k = key)) as [->|Ne].
  2:{ destruct (Ho k Ne) as [K|[K _]]; [|congruence]. rewrite Ew in K. symmetry in K.
      destruct (T k w K) as (Hk & Hw & Hs). split_and!; [done| |lia].
      eapply writer_ok_impl; [|exact Hw]. by left. }
  split; [done|].
  destruct (current_writer_ok (allowed key) (lm_writers st) key now now') as [C Cs];
    [intros w' E'; by apply (T key w')|done|].
  destruct R as [E1 E2|w0 -> E1|w0 -> E1|w0 -> E1]; [congruence|..];
    rewrite Ew in E1; injection E1 as ->;
    try (split; [|done]; eapply writer_ok_impl; [|exact C]; by left).
  split; [|done]. split; simpl; [right; by exists now'|]. intros t [= <-]. by right.
Qed.

Lemma limiter_run_table (E : gset bytes) limits calls st now allowed st' answers :
  table_ok E allowed now (lm_writers st) -> Forall (fun c => cl_key c ∈ E) calls -> in_order now calls ->
  limiter_run st limits calls = (st', answers) ->
  table_ok E (fun k t => allowed k t \/ exists c, (c, true) ∈ answers /\ cl_key c = k /\ cl_now c = t)
    (last_time now calls) (lm_writers st').
Proof.
  revert st now allowed st' answers. induction calls as [|c calls IH]; intros st now allowed st' answers T F O H; simpl in H.
  { injection H as <- <-. eapply map_Forall_impl; [exact T|]. intros k w (H1 & H2 & H3). split_and!; try done.
    eapply writer_ok_impl; [|exact H2]. by left. }
  apply Forall_cons in F as [Fc F]. destruct O as [Hn O].
  destruct (record_at _ _ _ _ _) as [st1 r] eqn:E1. destruct (limiter_run st1 limits calls) as [st2 rest] eqn:E2.
  injection H as <- <-. pose proof (record_at_table E allowed _ _ _ _ _ _ _ _ T Fc Hn E1) as T1.
  pose proof (IH _ _ _ _ _ T1 F O E2) as T2. eapply map_Forall_impl; [exact T2|].
  intros k w (H1 & H2 & H3). split_and!; try done. eapply writer_ok_impl; [|exact H2].
  intros t [[Ha|(-> & -> & ->)]|(c' & Hc & Hk & Ht)]; [by left|right|right].
  - exists c. split_and!; try done. left.
  - exists c'. split_and!; try done. by right.
Qed.

(** A call for a known identity whose last allowed call is a minute old is allowed. *)
Lemma renewal_allowed (E : gset bytes) allowed st key limits now now' :
  table_ok E allowed now (lm_writers st) -> key ∈ E -> Z.of_nat (size E) <= MAX_IDENTITIES -> now <= now' ->
  (forall t, allowed key t -> t + WINDOW <= now') ->
  li_put_min_interval limits <= WINDOW -> 0 < li_writer_per_minute limits ->
  (record_at st key true limits now').2 = Ok tt.
Proof.
  intros T Ek Sz Hn Al Hi Hw. destruct (record_at st key true limits now') as [st' r] eqn:R.
  apply record_at_ok in R as [R _]. assert (0 < WINDOW) by done.
  destruct (current_writer_ok (allowed key) (lm_writers st) key now now') as [[Cf Cl] Cs];
    [intros w' E'; by apply (T key w')|done|].
  assert (Fr : writer_fresh (current_writer (lm_writers st) key now')).
  { destruct Cf as [Cf|(t & Et & Hs)]; [done|]. specialize (Al t (Cl t Et)).
    unfold current_writer in *. destruct (window_reset _ _) as [w b] eqn:Wr. simpl in *.
    unfold window_reset in Wr. destruct (Z.leb_spec WINDOW (saturating_duration_since now'
      (wn_start (wr_window (default (mkWriter (Window_new now') false None) (lm_writers st !! key))))));
      injection Wr as <- <-; [by split|]. unfold saturating_duration_since in *. lia. }
  destruct Fr as [F1 F2].
  destruct R as [E1 E2 Fl|w -> E1 Rf|w -> E1 Rv|w -> E1]; [| | |done].
  - exfalso. assert (Sub : dom (lm_writers st) ⊂ E).
    { split; [|intros Sb; by specialize (Sb key Ek); apply not_elem_of_dom in E1].
      intros k Hk. apply elem_of_dom in Hk as [w Ew]. by apply (T k w). }
    apply subset_size in Sub. rewrite size_dom in Sub. lia.
  - exfalso. rewrite F1 in Rf. apply orb_true_iff in Rf as [Rf|Rf]; [|apply Z.leb_le in Rf; lia].
    destruct (wr_last _) as [t|] eqn:Et; [|done]. simpl in Rf. specialize (Al t (Cl t eq_refl)).
    unfold saturating_duration_since in Rf. apply Z.ltb_lt in Rf. lia.
  - exfalso. rewrite F2 in Rv. by specialize (Rv eq_refl).
Qed.

(** An enrolled identity the directory knows can renew once a minute, whatever the other
    identities ask for: a call a minute after its last allowed one is allowed. *)
Theorem renewal_never_starved (E : gset bytes) limits start calls st answers key now :
  Z.of_nat (size E) <= MAX_IDENTITIES -> Forall (fun c => cl_key c ∈ E) calls -> in_order start calls ->
  limiter_run (Limiter_default start) limits calls = (st, answers) -> key ∈ E ->
  last_time start calls <= now ->
  (forall c, (c, true) ∈ answers -> cl_key c = key -> cl_now c + WINDOW <= now) ->
  li_put_min_interval limits <= WINDOW -> 0 < li_writer_per_minute limits ->
  (record_at st key true limits now).2 = Ok tt.
Proof.
  intros Sz F O R Ek Hn Al Hi Hw.
  pose proof (limiter_run_table E limits calls (Limiter_default start) start (fun _ _ => False) st answers
    ltac:(apply map_Forall_empty) F O R) as T.
  eapply renewal_allowed; [exact T|done..| |done|done].
  intros t [[]|(c & Hc & <- & <-)]. by apply Al.
Qed.

(** ** Enrollment *)

Lemma enroll_fold_ok `{Ed25519} is_weak keys st n E :
  try_fold (enroll_key is_weak) st keys = Ok (n, E) ->
  (st.1 = Z.of_nat (size st.2)) -> st.1 <= MAX_IDENTITIES ->
  n = Z.of_nat (size E) /\ n <= MAX_IDENTITIES /\ E = (list_to_set keys ∪ st.2)
  /\ (forall k, k ∈ keys -> (k ∉ st.2) /\ is_weak k = false /\ vk_from_bytes k = Ok tt) /\ NoDup keys.
Proof.
  revert st. induction keys as [|k keys IH]; intros [i S] H0 Hi Hm; cbn [try_fold] in H0.
  { injection H0 as <- <-. split_and!; try done; [simpl; by rewrite (left_id_L ∅ (∪))|by intros k ?%not_elem_of_nil|constructor]. }
  unfold enroll_key at 1 in H0. destruct (Z.leb_spec MAX_IDENTITIES i); [done|].
  destruct (vk_from_bytes k) as [[]|] eqn:V; [|done]. simpl in H0.
  destruct (is_weak k) eqn:W; [done|]. simpl in H0. case_bool_decide as D; [done|].
  apply IH in H0 as (I1 & I2 & I3 & I4 & I5).
  - simpl in I3, I4. split_and!; [done|done| | |].
    + rewrite I3. simpl. by rewrite (assoc_L (∪)), (comm_L (∪) (list_to_set keys)).
    + intros k' [->|K]%elem_of_cons; [done|]. destruct (I4 k' K) as [N R].
      apply not_elem_of_union in N as [_ N]. done.
    + constructor; [|done]. intros K. destruct (I4 k K) as [N _].
      apply not_elem_of_union in N as [N _]. by apply not_elem_of_singleton in N.
  - simpl in *. rewrite size_union, size_singleton; [lia|]. by apply disjoint_singleton_l.
  - simpl in *. lia.
Qed.

(** An enrollment holds exactly the configured keys, each once, none weak, and never more
    than the stores can hold; it is what the renewal guarantee asks for. *)
Theorem enrollment_exact `{Ed25519} is_weak keys e key :
  Enrollment_new is_weak keys = Ok e ->
  (enrollment_allows e key = true <-> key ∈ keys)
  /\ NoDup keys /\ Forall (fun k => is_weak k = false /\ vk_from_bytes k = Ok tt) keys
  /\ Z.of_nat (size (en_keys e)) <= MAX_IDENTITIES.
Proof.
  unfold Enrollment_new. destruct (try_fold _ _ _) as [[n E]|] eqn:F; [|done]. intros [= <-].
  apply enroll_fold_ok in F as (H1 & H2 & -> & H4 & H5); [|done|done].
  unfold enrollment_allows. simpl. rewrite bool_decide_eq_true. split_and!; [|done| |simpl in *; lia].
  { simpl. by rewrite (right_id_L ∅ (∪)), elem_of_list_to_set. }
  apply Forall_forall. intros k K. by apply H4.
Qed.

(** ** Witnesses *)

Module AdmissionWitness.
Definition key (c : ascii) : bytes := replicate 32 c.
Definition a : bytes := key "a".
Definition b : bytes := key "b".
(** No shared budget at all, and one mutation per identity. *)
Definition tight : Limits := mkLimits 0 0 1 1 60.
Definition calls : list Call :=
  [mkCall a true 0; mkCall a true 5; mkCall b false 6; mkCall b false 7].
Definition run : LimiterState * list (Call * bool) := limiter_run (Limiter_default 0) tight calls.

Lemma in_a : a ∈ ({[a; b]} : gset bytes).
Proof. by apply elem_of_union_l, elem_of_singleton. Qed.
Lemma in_b : b ∈ ({[a; b]} : gset bytes).
Proof. by apply elem_of_union_r, elem_of_singleton. Qed.

Lemma calls_enrolled : Forall (fun c => cl_key c ∈ ({[a; b]} : gset bytes)) calls.
Proof. repeat (apply Forall_cons; split; [exact in_a || exact in_b|]). apply Forall_nil_2. Qed.
Lemma enrolled_size : Z.of_nat (size ({[a; b]} : gset bytes)) <= MAX_IDENTITIES.
Proof. vm_compute. discriminate. Qed.
Lemma calls_ordered : in_order 0 calls.
Proof. vm_compute. intuition discriminate. Qed.
Lemma run_answers : run.2 = [(mkCall a true 0, true); (mkCall a true 5, false);
      (mkCall b false 6, true); (mkCall b false 7, false)].
Proof. vm_compute. reflexivity. Qed.
Lemma last_allowed c : (c, true) ∈ run.2 -> cl_key c = a -> cl_now c + WINDOW <= WINDOW.
Proof.
  rewrite run_answers, !elem_of_cons. intros [H|[H|[H|[H|H]]]] Hk; try discriminate H.
  - injection H as ->. vm_compute. discriminate.
  - injection H as ->. discriminate Hk.
  - by apply not_elem_of_nil in H.
Qed.

Lemma limiter_bounds_witness :
  run.2 = [(mkCall a true 0, true); (mkCall a true 5, false); (mkCall b false 6, true); (mkCall b false 7, false)]
  /\ allowed_in newcomer 0 run.2 <= 2 * li_admissions_per_minute tight
  /\ allowed_in (by_key a) 0 run.2 <= 2 * li_writer_per_minute tight.
Proof.
  split; [exact run_answers|]. exact (limiter_bounds tight 0 calls 0 a ltac:(done) ltac:(done) calls_ordered).
Defined.

Lemma renewal_never_starved_witness :
  (record_at run.1 a true tight WINDOW).2 = Ok tt.
Proof.
  exact (renewal_never_starved {[a; b]} tight 0 calls run.1 run.2 a WINDOW enrolled_size
    calls_enrolled calls_ordered (surjective_pairing _) in_a ltac:(vm_compute; discriminate) last_allowed
    ltac:(vm_compute; discriminate) ltac:(vm_compute; reflexivity)).
Defined.

Lemma enrollment_exact_witness :
  exists e, Enrollment_new (H := toy_ed25519) (fun _ => false) [a; b] = Ok e
    /\ (enrollment_allows e a = true <-> a ∈ [a; b]) /\ NoDup [a; b]
    /\ Z.of_nat (size (en_keys e)) <= MAX_IDENTITIES.
Proof.
  destruct (Enrollment_new (H := toy_ed25519) (fun _ => false) [a; b]) as [e|] eqn:E;
    [|vm_compute in E; discriminate E].
  destruct (enrollment_exact (fun _ => false) [a; b] e a E) as (H1 & H2 & _ & H4). exists e. by split_and!.
Defined.
End AdmissionWitness.
