(* ===== verification/Http.v ===== *)
(** * The HTTP profile of the directory

    Models [src/crates/rds-discovery/src/http.rs] and [http/headers.rs]: the reader and the
    writer of one request and one response.  A stream is the bytes it will deliver before
    it ends; a reader returns what it parsed and the bytes it did not consume. *)

From S2P Require Import Prelude Discovery Clock Paths Net TcpTarget Crypto Authority RecordWire.

Definition MAX_HEAD : Z := 8 * 1024.

Record Request : Type := mkRequest { rq_method : bytes; rq_path : bytes; rq_body : bytes }.
Record Response : Type := mkResponse { rs_status : Z; rs_body : bytes }.

#[export] Instance Request_eq_dec : EqDecision Request.
Proof. solve_decision. Defined.
#[export] Instance Response_eq_dec : EqDecision Response.
Proof. solve_decision. Defined.

(** [bad]. *)
Definition http_bad (msg : string) : DiscoveryError := InvalidRecord (String.append "http: " msg).

(** ** Strings of the standard library *)

Definition CR : ascii := "013"%char.
Definition LF : ascii := "010"%char.
Definition CRLF : bytes := [CR; LF].
Definition TAB : ascii := "009"%char.

Definition between (lo hi : Z) (c : ascii) : bool := (lo <=? byte_val c) && (byte_val c <=? hi).
Definition continuation : ascii -> bool := between 128 191.

(** [str::from_utf8]. *)
Fixpoint utf8_valid (b : bytes) : bool :=
  match b with
  | [] => true
  | c :: r1 =>
      if byte_val c <? 128 then utf8_valid r1 else
      match r1 with
      | [] => false
      | c1 :: r2 =>
          if between 194 223 c then continuation c1 && utf8_valid r2 else
          match r2 with
          | [] => false
          | c2 :: r3 =>
              if between 224 239 c then
                (if byte_val c =? 224 then between 160 191 c1
                 else if byte_val c =? 237 then between 128 159 c1 else continuation c1)
                && continuation c2 && utf8_valid r3 else
              match r3 with
              | [] => false
              | c3 :: r4 =>
                  between 240 244 c
                  && (if byte_val c =? 240 then between 144 191 c1
                      else if byte_val c =? 244 then between 128 143 c1 else continuation c1)
                  && continuation c2 && continuation c3 && utf8_valid r4
              end
          end
      end
  end.

(** [split(c)] and [split("\r\n")]. *)
Fixpoint split_char (c : ascii) (s : bytes) : list bytes :=
  match s with
  | [] => [[]]
  | x :: s =>
      if bool_decide (x = c) then [] :: split_char c s
      else match split_char c s with
           | [] => [[x]]
           | first :: rest => (x :: first) :: rest
           end
  end.
Fixpoint split_crlf (s : bytes) : list bytes :=
  match s with
  | [] => [[]]
  | x :: s' =>
      match s' with
      | y :: rest =>
          if bool_decide (x = CR /\ y = LF) then [] :: split_crlf rest
          else match split_crlf s' with
               | [] => [[x]]
               | first :: more => (x :: first) :: more
               end
      | [] => [[x]]
      end
  end.
(** [strip_suffix]. *)
Definition strip_suffix (suffix s : bytes) : option bytes :=
  if bool_decide (suffix `suffix_of` s) then Some (take (length s - length suffix) s) else None.
(** [trim_matches([' ', '\t'])]. *)
Definition blank (c : ascii) : bool := bool_decide (c = " "%char) || bool_decide (c = TAB).
Fixpoint trim_start (s : bytes) : bytes :=
  match s with
  | [] => []
  | c :: s' => if blank c then trim_start s' else s
  end.
Definition trim_blank (s : bytes) : bytes := reverse (trim_start (reverse (trim_start s))).
(** [usize::from_str] on decimal digits, and [Display]. *)
Definition decimal (s : bytes) : Z :=
  foldl (fun n c => n * 10 + default 0 (to_digit 10 c)) 0 s.
Definition parse_usize (s : bytes) : option Z :=
  if decimal s <=? u64_max then Some (decimal s) else None.
Definition fmt_usize (n : Z) : bytes := fmt_radix 20 10 n.
Definition is_ascii_graphic : ascii -> bool := between 33 126.

(** ** Headers *)

Definition token (s : bytes) : bool :=
  negb (bool_decide (s = []))
  && forallb (fun c => is_ascii_alphanumeric c || bool_decide (c ∈ bs "!#$%&'*+-.^_`|~")) s.
Definition field_value (s : bytes) : bool :=
  forallb (fun c => is_ascii_graphic c || bool_decide (c = " "%char) || bool_decide (c = TAB)) s.
Definition target (method path : bytes) : result unit DiscoveryError :=
  if (16 <? zlen method) || negb (token method) then Err (http_bad "bad method") else
  if negb (bool_decide (head path = Some "/"%char)) || (512 <? zlen path)
     || negb (forallb (fun c => is_ascii_graphic c && negb (bool_decide (c ∈ bs "?#\"))) path)
  then Err (http_bad "bad path") else Ok tt.
(** [headers::version]. *)
Definition http_version (s : bytes) : bool := bool_decide (s = bs "HTTP/1.0") || bool_decide (s = bs "HTTP/1.1").

Record Headers : Type := mkHeaders { hd_length : option Z; hd_host : bool }.

Section WithUrl.
Context `{UrlLibrary}.

(** [headers::authority]. *)
Definition host_authority (value : bytes) : result unit DiscoveryError :=
  if bool_decide (value = []) || (2048 <? zlen value) || bool_decide (last value = Some ":"%char)
     || negb (forallb (fun c => is_ascii_alphanumeric c || bool_decide (c ∈ bs ".-:[]")) value)
  then Err (http_bad "invalid host authority") else
  let? url := ok_or (url_parse (bs "http://" ++ value ++ bs "/")) (http_bad "invalid host authority") in
  if negb (is_some (u_host url)) || is_none_or (u_port_or_known_default url) (fun port => port =? 0)
  then Err (http_bad "invalid host authority") else Ok tt.

(** One round of the loop of [headers::parse]. *)
Definition parse_header (headers : Headers) (line : bytes) : result Headers DiscoveryError :=
  let? (name, value) := ok_or (split_once ":" line) (http_bad "bad header") in
  if negb (token name) || negb (field_value value) then Err (http_bad "bad header syntax") else
  let value := trim_blank value in
  if eq_ignore_ascii_case name (bs "content-length") then
    if is_some (hd_length headers) then Err (http_bad "duplicate content-length") else
    if bool_decide (value = []) || negb (forallb is_ascii_digit value)
    then Err (http_bad "bad content-length") else
    let? length := ok_or (parse_usize value) (http_bad "bad content-length") in
    if MAX_BODY <? length then Err (http_bad "body too large") else
    Ok (mkHeaders (Some length) (hd_host headers))
  else if eq_ignore_ascii_case name (bs "transfer-encoding") then
    Err (http_bad "transfer-encoding unsupported")
  else if eq_ignore_ascii_case name (bs "host") then
    if hd_host headers then Err (http_bad "duplicate host") else
    let? _ := host_authority value in
    Ok (mkHeaders (hd_length headers) true)
  else if eq_ignore_ascii_case name (bs "content-encoding") && negb (eq_ignore_ascii_case value (bs "identity")) then
    Err (http_bad "content-encoding unsupported")
  else if eq_ignore_ascii_case name (bs "expect") then Err (http_bad "expectation unsupported")
  else Ok headers.
(** [headers::parse]. *)
Definition parse_headers (lines : list bytes) : result Headers DiscoveryError :=
  try_fold parse_header (mkHeaders None false) lines.

(** ** Reading *)

(** [read_head]: the bytes up to the blank line, and the rest of the stream. *)
Fixpoint read_head (buf stream : bytes) : result (option bytes) DiscoveryError * bytes :=
  match stream with
  | [] => (if bool_decide (buf = []) then Ok None else Err (http_bad "head truncated"), [])
  | c :: stream =>
      let buf := buf ++ [c] in
      if MAX_HEAD <? zlen buf then (Err (http_bad "head too large"), stream) else
      if bool_decide (CRLF ++ CRLF `suffix_of` buf) then (Ok (Some buf), stream)
      else read_head buf stream
  end.

(** [read_exact] of a body. *)
Definition read_body (length : Z) (stream : bytes) : result bytes DiscoveryError * bytes :=
  if length <=? zlen stream then (Ok (take (Z.to_nat length) stream), drop (Z.to_nat length) stream)
  else (Err (http_bad "body truncated"), []).

(** The head of a request: method, path and the length of the body. *)
Definition request_head (head : bytes) : result (bytes * bytes * Z) DiscoveryError :=
  if negb (utf8_valid head) then Err (http_bad "head is not utf-8") else
  let? text := ok_or (strip_suffix (CRLF ++ CRLF) head) (http_bad "head truncated") in
  match split_crlf text with
  | [] => Err (http_bad "empty head")
  | line :: lines =>
      let? (method, parts) := match split_char " " line with
                              | m :: parts => Ok (m, parts) | [] => Err (http_bad "no method") end in
      let? (path, parts) := match parts with
                            | p :: parts => Ok (p, parts) | [] => Err (http_bad "no path") end in
      let? (version, parts) := match parts with
                               | v :: parts => Ok (v, parts) | [] => Err (http_bad "no version") end in
      if negb (bool_decide (parts = [])) || negb (http_version version)
      then Err (http_bad "malformed request line") else
      let? _ := target method path in
      let? headers := parse_headers lines in
      if bool_decide (version = bs "HTTP/1.1") && negb (hd_host headers)
      then Err (http_bad "missing host") else
      Ok (method, path, default 0 (hd_length headers))
  end.

(** [read_request]. *)
Definition read_request (stream : bytes) : result (option Request) DiscoveryError * bytes :=
  match read_head [] stream with
  | (Err e, stream) => (Err e, stream)
  | (Ok None, stream) => (Ok None, stream)
  | (Ok (Some head), stream) =>
      match request_head head with
      | Err e => (Err e, stream)
      | Ok (method, path, length) =>
          match read_body length stream with
          | (Err e, stream) => (Err e, stream)
          | (Ok body, stream) => (Ok (Some (mkRequest method path body)), stream)
          end
      end
  end.

(** [splitn(3, ' ')]. *)
Definition splitn3 (s : bytes) : list bytes :=
  match split_once " " s with
  | None => [s]
  | Some (a, s) => match split_once " " s with
                   | None => [a; s]
                   | Some (b, s) => [a; b; s]
                   end
  end.

(** The head of a response: the status and the length of the body. *)
Definition response_head (head : bytes) : result (Z * Z) DiscoveryError :=
  if negb (utf8_valid head) then Err (http_bad "head is not utf-8") else
  let? text := ok_or (strip_suffix (CRLF ++ CRLF) head) (http_bad "head truncated") in
  match split_crlf text with
  | [] => Err (http_bad "empty head")
  | line :: lines =>
      let parts := splitn3 line in
      if negb (is_some_and (parts !! 0%nat) http_version) then Err (http_bad "malformed status line") else
      let? code := ok_or (parts !! 1%nat) (http_bad "no status code") in
      if negb (zlen code =? 3) || negb (forallb is_ascii_digit code)
      then Err (http_bad "bad status code") else
      let status := decimal code in
      if (status <? 200) || (599 <? status) then Err (http_bad "unsupported status code") else
      let? reason := ok_or (parts !! 2%nat) (http_bad "missing status separator") in
      if negb (field_value reason) then Err (http_bad "bad reason phrase") else
      let? headers := parse_headers lines in
      let? length :=
        (if status =? 204
         then if is_some (hd_length headers) then Err (http_bad "content-length forbidden for 204") else Ok 0
         else if status =? 304 then Ok 0
         else ok_or (hd_length headers) (http_bad "response requires content-length")) in
      Ok (status, length)
  end.

(** [read_response]. *)
Definition read_response (stream : bytes) : result Response DiscoveryError * bytes :=
  match read_head [] stream with
  | (Err e, stream) => (Err e, stream)
  | (Ok None, stream) => (Err (http_bad "empty response"), stream)
  | (Ok (Some head), stream) =>
      match response_head head with
      | Err e => (Err e, stream)
      | Ok (status, length) =>
          match read_body length stream with
          | (Err e, stream) => (Err e, stream)
          | (Ok body, stream) => (Ok (mkResponse status body), stream)
          end
      end
  end.

(** ** Writing *)

(** [write_request_with_host]: the bytes sent. *)
Definition write_request_with_host (authority method path body : bytes) : result bytes DiscoveryError :=
  let? _ := host_authority authority in
  let? _ := target method path in
  if MAX_BODY <? zlen body then Err (http_bad "body too large") else
  let head := method ++ bs " " ++ path ++ bs " HTTP/1.1" ++ CRLF
    ++ bs "Host: " ++ authority ++ CRLF
    ++ bs "Content-Length: " ++ fmt_usize (zlen body) ++ CRLF
    ++ bs "Connection: close" ++ CRLF ++ CRLF in
  if MAX_HEAD <? zlen head then Err (http_bad "head too large") else Ok (head ++ body).
Definition write_request : bytes -> bytes -> bytes -> result bytes DiscoveryError :=
  write_request_with_host (bs "localhost").

Definition reason_phrase (status : Z) : bytes :=
  if status =? 200 then bs "OK" else if status =? 400 then bs "Bad Request" else
  if status =? 401 then bs "Unauthorized" else if status =? 403 then bs "Forbidden" else
  if status =? 404 then bs "Not Found" else if status =? 405 then bs "Method Not Allowed" else
  if status =? 409 then bs "Conflict" else if status =? 410 then bs "Gone" else
  if status =? 413 then bs "Payload Too Large" else if status =? 429 then bs "Too Many Requests" else
  if status =? 500 then bs "Internal Server Error" else bs "Status".

(** [write_response]: the bytes sent. *)
Definition write_response (resp : Response) : result bytes DiscoveryError :=
  let status := rs_status resp in
  let no_body := (status =? 204) || (status =? 304) in
  if (status <? 200) || (599 <? status) then Err (http_bad "unsupported status code") else
  if MAX_BODY <? zlen (rs_body resp) then Err (http_bad "body too large") else
  if no_body && negb (bool_decide (rs_body resp = [])) then Err (http_bad "body forbidden for status") else
  let first := bs "HTTP/1.1 " ++ fmt_usize status ++ bs " " ++ reason_phrase status ++ CRLF in
  let head :=
    if no_body then first ++ bs "Connection: close" ++ CRLF ++ CRLF
    else first ++ bs "Content-Length: " ++ fmt_usize (zlen (rs_body resp)) ++ CRLF
         ++ bs "Content-Type: application/json" ++ CRLF ++ bs "Connection: close" ++ CRLF ++ CRLF in
  if MAX_HEAD <? zlen head then Err (http_bad "head too large") else Ok (head ++ rs_body resp).

End WithUrl.

(** ** Characters *)

(** Visible ASCII, and visible ASCII or a space. *)
Abbreviation graphic s := (forallb is_ascii_graphic s = true).
Definition is_plain : ascii -> bool := between 32 126.
Abbreviation plain s := (forallb is_plain s = true).

Ltac each_char := intros [[] [] [] [] [] [] [] []]; vm_compute; try done; by intros.

Lemma token_char c :
  is_ascii_alphanumeric c || bool_decide (c ∈ bs "!#$%&'*+-.^_`|~") = true -> is_ascii_graphic c = true.
Proof. revert c. each_char. Qed.
Lemma host_char c :
  is_ascii_alphanumeric c || bool_decide (c ∈ bs ".-:[]") = true -> is_ascii_graphic c = true.
Proof. revert c. each_char. Qed.
Lemma digit_graphic c : is_ascii_digit c = true -> is_ascii_graphic c = true.
Proof. revert c. each_char. Qed.
Lemma graphic_plain c : is_ascii_graphic c = true -> is_plain c = true.
Proof. revert c. each_char. Qed.
Lemma graphic_space c : is_ascii_graphic c = true -> c <> " "%char.
Proof. revert c. each_char. Qed.
Lemma graphic_blank c : is_ascii_graphic c = true -> blank c = false.
Proof. revert c. each_char. Qed.
Lemma plain_cr c : is_plain c = true -> c <> CR.
Proof. revert c. each_char. Qed.
Lemma plain_lf c : is_plain c = true -> c <> LF.
Proof. revert c. each_char. Qed.
Lemma plain_field c :
  is_plain c = true -> is_ascii_graphic c || bool_decide (c = " "%char) || bool_decide (c = TAB) = true.
Proof. revert c. each_char. Qed.
Lemma plain_ascii c : is_plain c = true -> (byte_val c <? 128) = true.
Proof. revert c. each_char. Qed.

Lemma forallb_impl {A} (p q : A -> bool) l :
  (forall x, p x = true -> q x = true) -> forallb p l = true -> forallb q l = true.
Proof. intros H. rewrite !forallb_forall. auto. Qed.
Lemma forallb_not_in {A} (p : A -> bool) (x : A) l :
  (forall y, p y = true -> y <> x) -> forallb p l = true -> x ∉ l.
Proof. intros H. rewrite forallb_forall. intros F I. apply (H x); [|done]. by apply F, list_elem_of_In. Qed.

Lemma graphic_is_plain s : graphic s -> plain s.
Proof. apply forallb_impl, graphic_plain. Qed.
Lemma plain_no_cr s : plain s -> CR ∉ s.
Proof. apply forallb_not_in, plain_cr. Qed.
Lemma plain_no_lf s : plain s -> LF ∉ s.
Proof. apply forallb_not_in, plain_lf. Qed.
Lemma graphic_no_space s : graphic s -> " "%char ∉ s.
Proof. apply forallb_not_in, graphic_space. Qed.

Lemma utf8_ascii s r : forallb (fun c => byte_val c <? 128) s = true -> utf8_valid (s ++ r) = utf8_valid r.
Proof.
  induction s as [|c s IH]; [done|]. cbn [forallb app utf8_valid]. intros [Hc Hs]%andb_true_iff.
  by rewrite Hc, IH.
Qed.

(** ** Splitting what was joined *)

Lemma split_char_last c s : c ∉ s -> split_char c s = [s].
Proof.
  induction s as [|x s IH]; [done|]. intros [Ne Ns]%not_elem_of_cons. cbn [split_char].
  rewrite bool_decide_eq_false_2 by done. by rewrite IH.
Qed.
Lemma split_char_app c s r : c ∉ s -> split_char c (s ++ c :: r) = s :: split_char c r.
Proof.
  induction s as [|x s IH]; intros H; cbn [split_char app]; [by rewrite bool_decide_eq_true_2|].
  apply not_elem_of_cons in H as [Ne Ns]. rewrite bool_decide_eq_false_2 by done. by rewrite IH.
Qed.
Lemma split_crlf_last s : CR ∉ s -> split_crlf s = [s].
Proof.
  induction s as [|x s IH]; [done|]. intros [Ne Ns]%not_elem_of_cons. destruct s as [|y s]; [done|].
  cbn [split_crlf] in *. rewrite bool_decide_eq_false_2 by naive_solver. by rewrite IH.
Qed.
Lemma split_crlf_app s r : CR ∉ s -> split_crlf (s ++ CRLF ++ r) = s :: split_crlf r.
Proof.
  induction s as [|x s IH]; intros H.
  { cbn [app CRLF split_crlf]. by rewrite bool_decide_eq_true_2. }
  apply not_elem_of_cons in H as [Ne Ns]. specialize (IH Ns). cbn [app].
  destruct (s ++ CRLF ++ r) as [|y t] eqn:E; [by destruct s|].
  cbn [split_crlf] in *. rewrite bool_decide_eq_false_2 by naive_solver. by rewrite IH.
Qed.

(** The lines of a head, and the text between them. *)
Fixpoint head_of (lines : list bytes) : bytes :=
  match lines with [] => CRLF | l :: lines => l ++ CRLF ++ head_of lines end.
Fixpoint text_of (line : bytes) (lines : list bytes) : bytes :=
  match lines with [] => line | l :: lines => line ++ CRLF ++ text_of l lines end.

Lemma head_of_text line lines : head_of (line :: lines) = text_of line lines ++ CRLF ++ CRLF.
Proof.
  revert line. induction lines as [|l lines IH]; intros line; [done|].
  cbn [head_of text_of] in *. by rewrite IH, <-!app_assoc.
Qed.
Lemma split_text line lines :
  Forall (fun l => plain l) (line :: lines) -> split_crlf (text_of line lines) = line :: lines.
Proof.
  revert line. induction lines as [|l lines IH]; intros line [P F]%Forall_cons; cbn [text_of].
  - by apply split_crlf_last, plain_no_cr.
  - rewrite split_crlf_app by (by apply plain_no_cr). by rewrite IH.
Qed.
Lemma strip_suffix_app s x : strip_suffix x (s ++ x) = Some s.
Proof.
  unfold strip_suffix. rewrite bool_decide_eq_true_2 by (by exists s). f_equal.
  rewrite length_app. replace (length s + length x - length x)%nat with (length s) by lia.
  by rewrite take_app_length.
Qed.
Lemma utf8_head lines : Forall (fun l => plain l) lines -> utf8_valid (head_of lines) = true.
Proof.
  induction 1 as [|l lines P F IH]; [done|]. cbn [head_of].
  rewrite utf8_ascii by (eapply forallb_impl; [apply plain_ascii|done]). by rewrite utf8_ascii.
Qed.

(** ** Finding the head *)

Lemma end_of_head buf c : c <> LF -> ~ CRLF ++ CRLF `suffix_of` buf ++ [c].
Proof.
  intros Ne [k E]. apply (f_equal last) in E. rewrite last_snoc in E.
  change (k ++ CRLF ++ CRLF) with (k ++ [CR; LF; CR] ++ [LF]) in E. rewrite app_assoc, last_snoc in E. congruence.
Qed.
Lemma end_of_line buf x : x <> LF -> ~ CRLF ++ CRLF `suffix_of` buf ++ [x; CR; LF].
Proof.
  intros Ne [k E]. change [x; CR; LF] with ([x] ++ [CR; LF]) in E.
  change (k ++ CRLF ++ CRLF) with (k ++ [CR; LF] ++ [CR; LF]) in E. rewrite !app_assoc in E.
  apply app_inj_2 in E as [E _]; [|done]. apply (f_equal last) in E. rewrite last_snoc in E.
  change [CR; LF] with ([CR] ++ [LF]) in E. rewrite app_assoc, last_snoc in E. congruence.
Qed.

Lemma read_head_char buf c s :
  c <> LF -> zlen (buf ++ [c]) <= MAX_HEAD -> read_head buf (c :: s) = read_head (buf ++ [c]) s.
Proof.
  intros Ne L. cbn [read_head]. rewrite (proj2 (Z.ltb_ge _ _)) by done.
  by rewrite bool_decide_eq_false_2 by (by apply end_of_head).
Qed.
Lemma read_head_run buf l s :
  LF ∉ l -> zlen (buf ++ l) <= MAX_HEAD -> read_head buf (l ++ s) = read_head (buf ++ l) s.
Proof.
  revert buf. induction l as [|c l IH]; intros buf N L; [by rewrite app_nil_r|].
  apply not_elem_of_cons in N as [Nc N]. cbn [app].
  change (c :: l) with ([c] ++ l) in L. rewrite app_assoc in L.
  rewrite read_head_char; [|done|rewrite zlen_app in L; pose proof (zlen_nonneg l); lia].
  rewrite IH by done. by rewrite <-app_assoc.
Qed.

Lemma read_head_line buf l s :
  l <> [] -> LF ∉ l -> zlen (buf ++ l ++ CRLF) <= MAX_HEAD ->
  read_head buf (l ++ CRLF ++ s) = read_head (buf ++ l ++ CRLF) s.
Proof.
  intros Ne N L. rewrite !zlen_app in L. pose proof (zlen_nonneg CRLF).
  rewrite read_head_run by (try done; rewrite zlen_app; lia). cbn [CRLF app].
  rewrite read_head_char by (try done; rewrite !zlen_app; change (zlen CRLF) with 2 in L;
    change (zlen [CR]) with 1; lia).
  cbn [read_head]. rewrite (proj2 (Z.ltb_ge _ _)).
  2:{ rewrite !zlen_app. change (zlen CRLF) with 2 in L. change (zlen [CR]) with 1. change (zlen [LF]) with 1. lia. }
  destruct l as [|x l _] using rev_ind; [done|]. rewrite bool_decide_eq_false_2.
  - by rewrite <-!app_assoc.
  - rewrite <-!app_assoc. cbn [app]. rewrite (app_assoc buf l). apply end_of_line.
    intros ->. apply N, elem_of_app. right. left.
Qed.

Lemma read_head_lines buf lines rest :
  Forall (fun l => l <> [] /\ plain l) lines -> CRLF `suffix_of` buf ->
  zlen (buf ++ head_of lines) <= MAX_HEAD ->
  read_head buf (head_of lines ++ rest) = (Ok (Some (buf ++ head_of lines)), rest).
Proof.
  revert buf. induction lines as [|l lines IH]; intros buf F [k E] L; cbn [head_of] in *.
  - cbn [CRLF app]. rewrite zlen_app in L. change (zlen CRLF) with 2 in L.
    rewrite read_head_char by (try done; rewrite zlen_app; change (zlen [CR]) with 1; lia).
    cbn [read_head]. rewrite (proj2 (Z.ltb_ge _ _)).
    2:{ rewrite !zlen_app. change (zlen [CR]) with 1. change (zlen [LF]) with 1. lia. }
    rewrite bool_decide_eq_true_2; [by rewrite <-app_assoc|].
    exists k. rewrite E. by rewrite <-!app_assoc.
  - apply Forall_cons in F as [[Ne P] F]. rewrite <-!app_assoc.
    rewrite (app_assoc l), (app_assoc buf) in L.
    rewrite read_head_line; [|done|by apply plain_no_lf|].
    2:{ rewrite zlen_app in L. pose proof (zlen_nonneg (head_of lines)). lia. }
    rewrite IH; [by rewrite <-!app_assoc|done|by exists (buf ++ l); rewrite <-app_assoc|done].
Qed.

(** The reader finds the head of a message. *)
Lemma read_head_of line lines rest :
  Forall (fun l => l <> [] /\ plain l) (line :: lines) -> zlen (head_of (line :: lines)) <= MAX_HEAD ->
  read_head [] (head_of (line :: lines) ++ rest) = (Ok (Some (head_of (line :: lines))), rest).
Proof.
  intros [[Ne P] F]%Forall_cons L. cbn [head_of] in *. rewrite (app_assoc line) in L. rewrite <-!app_assoc.
  rewrite read_head_line; [|done|by apply plain_no_lf|].
  2:{ rewrite zlen_app in L. pose proof (zlen_nonneg (head_of lines)). cbn [app]. lia. }
  rewrite read_head_lines; [by rewrite <-!app_assoc|done|by exists line|done].
Qed.

(** ** Headers that were written *)

Lemma trim_start_graphic s : graphic s -> trim_start s = s.
Proof. destruct s as [|c s]; [done|]. cbn [forallb trim_start]. intros [H _]%andb_true_iff. by rewrite graphic_blank. Qed.
Lemma graphic_reverse s : graphic s -> graphic (reverse s).
Proof. rewrite !forallb_forall. intros H c I. apply H. apply list_elem_of_In in I. apply list_elem_of_In. by apply elem_of_reverse. Qed.
Lemma trim_written s : graphic s -> trim_blank (" "%char :: s) = s.
Proof.
  intros G. unfold trim_blank. cbn [trim_start]. change (blank " ") with true. cbv beta iota.
  rewrite (trim_start_graphic s) by done. rewrite trim_start_graphic by (by apply graphic_reverse).
  apply reverse_involutive.
Qed.
Lemma field_plain s : plain s -> field_value s = true.
Proof. apply forallb_impl, plain_field. Qed.

(** A header line that was written splits at its colon. *)
Lemma header_split name s : ":"%char ∉ name -> split_once ":" (name ++ bs ": " ++ s) = Some (name, " "%char :: s).
Proof. intros N. change (bs ": " ++ s) with (":"%char :: " "%char :: s). by rewrite split_once_app. Qed.

Lemma fmt_usize_ok n : 0 <= n <= u64_max -> printed 10 n 20 (fmt_usize n).
Proof.
  intros H. apply (fmt_radix_ok 19); [lia|]. assert (u64_max < 10 ^ Z.of_nat 20) by (vm_compute; done). lia.
Qed.
Lemma fmt_usize_digits n : 0 <= n <= u64_max -> forallb is_ascii_digit (fmt_usize n) = true.
Proof.
  intros [Hd _ _ _ _]%fmt_usize_ok. apply forallb_forall. intros c Hc%list_elem_of_In.
  rewrite Forall_forall in Hd. by apply is_digit_ascii, Hd.
Qed.
Lemma fmt_usize_graphic n : 0 <= n <= u64_max -> graphic (fmt_usize n).
Proof. intros H. eapply forallb_impl; [apply digit_graphic|by apply fmt_usize_digits]. Qed.
Lemma decimal_fmt n : 0 <= n <= u64_max -> decimal (fmt_usize n) = n.
Proof. intros H%fmt_usize_ok. apply (pr_value _ _ _ _ H). Qed.
Lemma fmt_usize_nonempty n : 0 <= n <= u64_max -> fmt_usize n <> [].
Proof. intros [_ _ Hl _ _]%fmt_usize_ok E. rewrite E in Hl. simpl in Hl. lia. Qed.

Lemma plain_app a b : plain (a ++ b) <-> plain a /\ plain b.
Proof. rewrite forallb_app, andb_true_iff. done. Qed.

Section Written.
Context `{HU : UrlLibrary}.

Lemma authority_graphic a : host_authority a = Ok tt -> graphic a /\ a <> [].
Proof.
  unfold host_authority. destruct (_ || _) eqn:E; [done|]. intros _.
  rewrite !orb_false_iff, negb_false_iff in E. destruct E as [[[E1 _] _] E2]. split.
  - eapply forallb_impl; [apply host_char|done].
  - by apply bool_decide_eq_false in E1.
Qed.

Lemma parse_host h a :
  host_authority a = Ok tt -> hd_host h = false ->
  parse_header h (bs "Host" ++ bs ": " ++ a) = Ok (mkHeaders (hd_length h) true).
Proof.
  intros A Hh. destruct (authority_graphic a A) as [G Ne]. unfold parse_header.
  rewrite header_split by (by apply (bool_decide_unpack _)). cbn [ok_or].
  change (token (bs "Host")) with true. rewrite field_plain by (cbn [forallb]; by apply graphic_is_plain).
  cbn [negb orb]. rewrite trim_written by done.
  change (eq_ignore_ascii_case (bs "Host") (bs "content-length")) with false.
  change (eq_ignore_ascii_case (bs "Host") (bs "transfer-encoding")) with false.
  change (eq_ignore_ascii_case (bs "Host") (bs "host")) with true. cbv beta iota zeta.
  by rewrite Hh, A.
Qed.

Lemma parse_length h n :
  0 <= n <= MAX_BODY -> hd_length h = None ->
  parse_header h (bs "Content-Length" ++ bs ": " ++ fmt_usize n) = Ok (mkHeaders (Some n) (hd_host h)).
Proof.
  intros Hn Hl. assert (Hu : 0 <= n <= u64_max) by (assert (MAX_BODY < u64_max) by done; lia).
  pose proof (fmt_usize_graphic n Hu) as G. unfold parse_header.
  rewrite header_split by (by apply (bool_decide_unpack _)). cbn [ok_or].
  change (token (bs "Content-Length")) with true.
  rewrite field_plain by (cbn [forallb]; by apply graphic_is_plain). cbn [negb orb]. rewrite trim_written by done.
  change (eq_ignore_ascii_case (bs "Content-Length") (bs "content-length")) with true. cbv beta iota zeta.
  rewrite Hl. cbn [is_some]. rewrite bool_decide_eq_false_2 by (by apply fmt_usize_nonempty).
  rewrite (fmt_usize_digits n Hu). cbn [negb orb]. unfold parse_usize. rewrite decimal_fmt by done.
  rewrite (proj2 (Z.leb_le _ _)) by lia. cbn [ok_or]. by rewrite (proj2 (Z.ltb_ge _ _)) by lia.
Qed.
Lemma parse_connection h : parse_header h (bs "Connection: close") = Ok h.
Proof. reflexivity. Qed.
Lemma parse_type h : parse_header h (bs "Content-Type: application/json") = Ok h.
Proof. reflexivity. Qed.

Lemma target_graphic m p : target m p = Ok tt -> (graphic m /\ m <> []) /\ graphic p.
Proof.
  unfold target. destruct ((16 <? zlen m) || negb (token m)) eqn:E1; [done|].
  destruct (_ || _ || negb (forallb _ p)) eqn:E2; [done|]. intros _.
  apply orb_false_iff in E1 as [_ E1]. apply orb_false_iff in E2 as [_ E2].
  apply negb_false_iff in E1, E2. unfold token in E1. apply andb_true_iff in E1 as [N T]. split_and!.
  - eapply forallb_impl; [apply token_char|done].
  - by apply negb_true_iff, bool_decide_eq_false in N.
  - eapply forallb_impl; [|exact E2]. intros c [H _]%andb_true_iff. done.
Qed.

Lemma read_body_app body rest : read_body (zlen body) (body ++ rest) = (Ok body, rest).
Proof.
  unfold read_body. rewrite zlen_app. pose proof (zlen_nonneg rest). rewrite (proj2 (Z.leb_le _ _)) by lia.
  unfold zlen. rewrite Nat2Z.id. by rewrite take_app_length, drop_app_length.
Qed.

(** A request that could be written is the request that is read, whatever follows it: no
    method, path, authority or body the writer accepts changes the meaning of the message. *)
Theorem request_roundtrip authority method path body wire rest :
  write_request_with_host authority method path body = Ok wire ->
  read_request (wire ++ rest) = (Ok (Some (mkRequest method path body)), rest).
Proof.
  unfold write_request_with_host. destruct (host_authority authority) as [[]|] eqn:A; [|done].
  destruct (target method path) as [[]|] eqn:T; [|done]. cbv beta iota.
  destruct (Z.ltb_spec MAX_BODY (zlen body)) as [|Lb]; [done|].
  destruct (target_graphic _ _ T) as [[Gm Nm] Gp]. destruct (authority_graphic _ A) as [Ga _].
  pose proof (zlen_nonneg body) as H0. assert (Hu : 0 <= zlen body <= u64_max) by (assert (MAX_BODY < u64_max) by done; lia).
  set (first := method ++ bs " " ++ path ++ bs " HTTP/1.1").
  set (lines := [bs "Host" ++ bs ": " ++ authority; bs "Content-Length" ++ bs ": " ++ fmt_usize (zlen body);
                 bs "Connection: close"]).
  set (head := method ++ _). assert (Eh : head = head_of (first :: lines)).
  { unfold head, first, lines. cbn [head_of]. rewrite <-!app_assoc. done. }
  destruct (Z.ltb_spec MAX_HEAD (zlen head)) as [|Lh]; [done|]. intros [= <-].
  assert (P : Forall (fun l => l <> [] /\ plain l) (first :: lines)).
  { pose proof (graphic_is_plain _ Gm). pose proof (graphic_is_plain _ Gp). pose proof (graphic_is_plain _ Ga).
    pose proof (graphic_is_plain _ (fmt_usize_graphic _ Hu)).
    repeat (apply Forall_cons; split); [..|by apply Forall_nil_2]; (split; [by destruct method|]).
    - unfold first. rewrite !plain_app. done.
    - rewrite !plain_app. done.
    - rewrite !plain_app. done.
    - done. }
  rewrite Eh in Lh |- *. unfold read_request. rewrite <-app_assoc, read_head_of by done.
  assert (R : request_head (head_of (first :: lines)) = Ok (method, path, zlen body)).
  { unfold request_head. assert (P' : Forall (fun l => plain l) (first :: lines))
      by (eapply Forall_impl; [exact P|]; naive_solver).
    rewrite utf8_head by done. cbn [negb]. rewrite head_of_text, strip_suffix_app. cbn [ok_or].
    rewrite split_text by done. unfold first.
    change (method ++ bs " " ++ path ++ bs " HTTP/1.1") with (method ++ " "%char :: path ++ " "%char :: bs "HTTP/1.1").
    rewrite split_char_app by (by apply graphic_no_space). rewrite split_char_app by (by apply graphic_no_space).
    change (split_char " " _) with [bs "HTTP/1.1"]. cbv beta iota. rewrite T.
    change (negb (bool_decide ([] = [])) || negb (http_version (bs "HTTP/1.1"))) with false. cbv beta iota.
    unfold parse_headers, lines. cbn [try_fold]. rewrite parse_host by done. cbn [hd_length hd_host].
    rewrite parse_length by (done || lia). by rewrite parse_connection. }
  rewrite R. by rewrite read_body_app.
Qed.

Lemma fmt_status n : 200 <= n <= 599 -> zlen (fmt_usize n) = 3.
Proof.
  intros H. unfold fmt_usize. cbn [fmt_radix]. rewrite (proj2 (Z.ltb_ge n 10)) by lia.
  assert (20 <= n / 10 <= 59) by (split; [apply Z.div_le_lower_bound|apply Z.lt_succ_r, Z.div_lt_upper_bound]; lia).
  rewrite (proj2 (Z.ltb_ge (n / 10) 10)) by lia.
  assert (2 <= n / 10 / 10 <= 5) by (split; [apply Z.div_le_lower_bound|apply Z.lt_succ_r, Z.div_lt_upper_bound]; lia).
  rewrite (proj2 (Z.ltb_lt (n / 10 / 10) 10)) by lia. done.
Qed.
Lemma reason_plain n : plain (reason_phrase n).
Proof. unfold reason_phrase. repeat (destruct (_ =? _); [done|]). done. Qed.

(** What the status line says. *)
Lemma status_line status lines length :
  200 <= status <= 599 -> Forall (fun l => plain l) lines ->
  (forall h, parse_headers lines = Ok h ->
     (if status =? 204 then if is_some (hd_length h) then Err (http_bad "content-length forbidden for 204") else Ok 0
      else if status =? 304 then Ok 0
      else ok_or (hd_length h) (http_bad "response requires content-length")) = Ok length) ->
  is_ok (parse_headers lines) = true ->
  let first := bs "HTTP/1.1 " ++ fmt_usize status ++ bs " " ++ reason_phrase status in
  plain first /\ response_head (head_of (first :: lines)) = Ok (status, length).
Proof.
  intros Hs P Hl Hk first. assert (Hu : 0 <= status <= u64_max) by (assert (599 < u64_max) by done; lia).
  pose proof (fmt_usize_graphic status Hu) as G.
  assert (Pf : plain first).
  { unfold first. rewrite !plain_app. pose proof (reason_plain status). by pose proof (graphic_is_plain _ G). }
  split; [done|]. unfold response_head. rewrite utf8_head by (by constructor). cbn [negb].
  rewrite head_of_text, strip_suffix_app. cbn [ok_or]. rewrite split_text by (by constructor).
  assert (Sp : splitn3 first = [bs "HTTP/1.1"; fmt_usize status; reason_phrase status]).
  { unfold splitn3. change first with (bs "HTTP/1.1" ++ " "%char :: fmt_usize status ++ " "%char :: reason_phrase status).
    rewrite split_once_app by (by apply (bool_decide_unpack _)).
    by rewrite split_once_app by (by apply graphic_no_space). }
  rewrite Sp. cbv zeta. change ([bs "HTTP/1.1"; fmt_usize status; reason_phrase status] !! 0%nat) with (Some (bs "HTTP/1.1")).
  change (is_some_and (Some (bs "HTTP/1.1")) http_version) with true. cbn [negb].
  change ([bs "HTTP/1.1"; fmt_usize status; reason_phrase status] !! 1%nat) with (Some (fmt_usize status)).
  change ([bs "HTTP/1.1"; fmt_usize status; reason_phrase status] !! 2%nat) with (Some (reason_phrase status)).
  cbn [ok_or]. rewrite fmt_status, fmt_usize_digits, decimal_fmt by done. cbn [Z.eqb negb orb].
  rewrite (proj2 (Z.ltb_ge _ _)) by lia. rewrite (proj2 (Z.ltb_ge _ _)) by lia. cbn [orb].
  rewrite (field_plain _ (reason_plain status)). cbn [negb].
  destruct (parse_headers lines) as [h|]; [|done]. cbv beta iota. by rewrite (Hl h eq_refl).
Qed.

(** A response that could be written is the response that is read. *)
Theorem response_roundtrip resp wire rest :
  write_response resp = Ok wire -> read_response (wire ++ rest) = (Ok resp, rest).
Proof.
  destruct resp as [status body]. unfold write_response. cbn [rs_status rs_body].
  destruct ((status <? 200) || (599 <? status)) eqn:Es; [done|]. apply orb_false_iff in Es as [E1 E2].
  apply Z.ltb_ge in E1, E2. destruct (Z.ltb_spec MAX_BODY (zlen body)) as [|Lb]; [done|].
  pose proof (zlen_nonneg body) as H0.
  assert (Hu : 0 <= zlen body <= u64_max) by (assert (MAX_BODY < u64_max) by done; lia).
  set (nb := (status =? 204) || (status =? 304)). destruct (nb && negb (bool_decide (body = []))) eqn:Nb; [done|].
  set (lines := if nb then [bs "Connection: close"]
    else [bs "Content-Length" ++ bs ": " ++ fmt_usize (zlen body); bs "Content-Type: application/json"; bs "Connection: close"]).
  set (first := bs "HTTP/1.1 " ++ fmt_usize status ++ bs " " ++ reason_phrase status).
  set (head := if nb then _ else _). assert (Eh : head = head_of (first :: lines)).
  { unfold head, first, lines. destruct nb; cbn [head_of]; rewrite <-!app_assoc; done. }
  destruct (Z.ltb_spec MAX_HEAD (zlen head)) as [|Lh]; [done|]. intros [= <-].
  assert (P : Forall (fun l => l <> [] /\ plain l) lines).
  { pose proof (graphic_is_plain _ (fmt_usize_graphic _ Hu)). unfold lines.
    destruct nb; repeat constructor; done. }
  assert (P' : Forall (fun l => plain l) lines) by (eapply Forall_impl; [exact P|]; naive_solver).
  assert (Ph : parse_headers lines = Ok (mkHeaders (if nb then None else Some (zlen body)) false)).
  { unfold parse_headers, lines. destruct nb; cbn [try_fold]; [by rewrite parse_connection|].
    rewrite parse_length by (done || lia). by rewrite parse_type, parse_connection. }
  destruct (status_line status lines (zlen body) ltac:(lia) P') as [Pf R].
  { intros h Eq. rewrite Ph in Eq. injection Eq as <-. unfold nb in *. cbn [hd_length].
    destruct (status =? 204); [|destruct (status =? 304)]; cbn [orb andb] in Nb |- *; try done;
      apply negb_false_iff, bool_decide_eq_true in Nb; by rewrite Nb. }
  { by rewrite Ph. }
  fold first in Pf, R. rewrite Eh in Lh |- *. unfold read_response.
  rewrite <-app_assoc, read_head_of by (done || (constructor; [split; [done|exact Pf]|done])).
  rewrite R. by rewrite read_body_app.
Qed.

(** ** What a reader consumes *)

Lemma read_head_consumes buf s r rest :
  zlen buf <= MAX_HEAD -> read_head buf s = (r, rest) ->
  exists used, s = used ++ rest /\ zlen used + zlen buf <= MAX_HEAD + 1.
Proof.
  revert buf. induction s as [|c s IH]; intros buf L H; cbn [read_head] in H.
  { injection H as <- <-. exists []. split; [done|]. unfold zlen at 1. simpl. lia. }
  assert (E1 : zlen (buf ++ [c]) = zlen buf + 1) by (by rewrite zlen_app).
  assert (One : exists used, c :: s = used ++ s /\ zlen used + zlen buf <= MAX_HEAD + 1)
    by (exists [c]; split; [done|]; change (zlen [c]) with 1; lia).
  destruct (Z.ltb_spec MAX_HEAD (zlen (buf ++ [c]))); [by injection H as <- <-|].
  case_bool_decide; [by injection H as <- <-|].
  destruct (IH (buf ++ [c]) ltac:(done) H) as (used & -> & U). exists (c :: used). split; [done|].
  rewrite zlen_cons. lia.
Qed.

Lemma decimal_nonneg s : 0 <= decimal s.
Proof. apply (digits_value_nonneg 10 0 s); lia. Qed.

Lemma parse_header_length h line h' :
  parse_header h line = Ok h' -> (forall m, hd_length h = Some m -> 0 <= m <= MAX_BODY) ->
  forall n, hd_length h' = Some n -> 0 <= n <= MAX_BODY.
Proof.
  intros H Hh n E. unfold parse_header in H. destruct (split_once _ _) as [[name value]|]; [|done]. cbn [ok_or] in H.
  destruct (negb _ || _); [done|]. destruct (eq_ignore_ascii_case name (bs "content-length")).
  - destruct (is_some (hd_length h)); [done|]. destruct (_ || _); [done|].
    destruct (parse_usize _) as [m|] eqn:P; [|done]. cbn [ok_or] in H.
    destruct (Z.ltb_spec MAX_BODY m); [done|]. injection H as <-. injection E as <-.
    unfold parse_usize in P. destruct (_ <=? _); [|done]. injection P as <-.
    split; [apply decimal_nonneg|done].
  - apply (Hh n). destruct (eq_ignore_ascii_case name (bs "transfer-encoding")); [done|].
    destruct (eq_ignore_ascii_case name (bs "host")).
    { destruct (hd_host h); [done|]. destruct (host_authority _); [|done]. by injection H as <-. }
    destruct (_ && _); [done|]. destruct (eq_ignore_ascii_case _ _); [done|]. by injection H as <-.
Qed.
Lemma parse_headers_length lines h n :
  parse_headers lines = Ok h -> hd_length h = Some n -> 0 <= n <= MAX_BODY.
Proof.
  unfold parse_headers. assert (G : forall h0, (forall m, hd_length h0 = Some m -> 0 <= m <= MAX_BODY) ->
    try_fold parse_header h0 lines = Ok h -> hd_length h = Some n -> 0 <= n <= MAX_BODY).
  { induction lines as [|l lines IH]; intros h0 H0 H E; cbn [try_fold] in H.
    - injection H as <-. by apply H0.
    - destruct (parse_header h0 l) as [h1|] eqn:E1; [|done].
      eapply (IH h1); [|done|done]. by eapply parse_header_length. }
  by apply G.
Qed.
Lemma request_head_ok head m p n :
  request_head head = Ok (m, p, n) -> 0 <= n <= MAX_BODY /\ target m p = Ok tt.
Proof.
  unfold request_head. destruct (negb _); [done|]. destruct (strip_suffix _ _) as [text|]; [|done]. cbn [ok_or].
  destruct (split_crlf text) as [|line lines]; [done|].
  destruct (split_char " " line) as [|m1 [|p1 [|v1 parts]]]; try done. cbv beta iota.
  destruct (_ || _); [done|]. destruct (target m1 p1) as [[]|] eqn:T; [|done]. cbv beta iota.
  destruct (parse_headers lines) as [h|] eqn:Ph; [|done]. cbv beta iota.
  destruct (_ && _); [done|]. intros [= <- <- <-]. split; [|done].
  destruct (hd_length h) as [k|] eqn:E; [by eapply parse_headers_length|]. done.
Qed.

(** One request costs the directory a bounded number of bytes, whatever the peer sends: the
    reader never takes more than a full head, one byte more, and a full body; and the body
    of an accepted request is within its limit. *)
Theorem request_bounded stream r rest :
  read_request stream = (r, rest) ->
  (exists used, stream = used ++ rest /\ zlen used <= MAX_HEAD + 1 + MAX_BODY)
  /\ forall q, r = Ok (Some q) -> zlen (rq_body q) <= MAX_BODY /\ target (rq_method q) (rq_path q) = Ok tt.
Proof.
  unfold read_request. destruct (read_head [] stream) as [o s1] eqn:H.
  destruct (read_head_consumes [] stream o s1 ltac:(done) H) as (u & -> & U). change (zlen []) with 0 in U.
  assert (U0 : exists used, u ++ s1 = used ++ s1 /\ zlen used <= MAX_HEAD + 1 + MAX_BODY)
    by (exists u; split; [done|]; assert (0 <= MAX_BODY) by done; lia).
  destruct o as [[head|]|e]; [|intros [= <- <-]; by split..].
  destruct (request_head head) as [[[m p] n]|e] eqn:R; [|intros [= <- <-]; by split].
  destruct (request_head_ok _ _ _ _ R) as [N T]. unfold read_body.
  destruct (Z.leb_spec n (zlen s1)) as [Le|Gt]; intros [= <- <-].
  - assert (E : zlen (take (Z.to_nat n) s1) = n) by (unfold zlen in *; rewrite length_take; lia).
    split; [|by intros q [= <-]; split; [simpl; lia|]].
    exists (u ++ take (Z.to_nat n) s1). rewrite <-app_assoc, take_drop. split; [done|]. rewrite zlen_app. lia.
  - split; [|done]. exists (u ++ s1). rewrite app_nil_r. split; [done|]. rewrite zlen_app. lia.
Qed.
End Written.

(** ** Witnesses *)

Module HttpWitness.
Definition url : Url :=
  mkUrl (bs "http") [] None (Some (HostDomain (bs "localhost"))) None (Some 80) (bs "/") None None.
#[local] Instance w_url : UrlLibrary := fun _ => Some url.

Lemma request_roundtrip_witness :
  exists wire, write_request (bs "PUT") (bs "/v1/records") (bs "{}") = Ok wire
    /\ read_request (wire ++ bs "next") = (Ok (Some (mkRequest (bs "PUT") (bs "/v1/records") (bs "{}"))), bs "next").
Proof.
  destruct (write_request (bs "PUT") (bs "/v1/records") (bs "{}")) as [wire|] eqn:E; [|vm_compute in E; discriminate E].
  exists wire. split; [reflexivity|]. exact (request_roundtrip (bs "localhost") _ _ _ _ (bs "next") E).
Defined.

Lemma response_roundtrip_witness :
  exists wire, write_response (mkResponse 409 (bs "{}")) = Ok wire
    /\ read_response (wire ++ []) = (Ok (mkResponse 409 (bs "{}")), []).
Proof.
  destruct (write_response (mkResponse 409 (bs "{}"))) as [wire|] eqn:E; [|vm_compute in E; discriminate E].
  exists wire. split; [reflexivity|]. exact (response_roundtrip _ _ [] E).
Defined.

Lemma request_bounded_witness :
  let stream := bs "GET /v1/health HTTP/1.0" ++ CRLF ++ CRLF ++ bs "next" in
  read_request stream = (Ok (Some (mkRequest (bs "GET") (bs "/v1/health") [])), bs "next")
  /\ exists used, stream = used ++ bs "next" /\ zlen used <= MAX_HEAD + 1 + MAX_BODY.
Proof.
  intros stream. assert (E : read_request stream = (Ok (Some (mkRequest (bs "GET") (bs "/v1/health") [])), bs "next"))
    by (vm_compute; reflexivity).
  split; [exact E|]. exact (proj1 (request_bounded _ _ _ E)).
Defined.
End HttpWitness.
