(* ===== verification/Service.v ===== *)
(** * The directory service

    Models [src/crates/rds-discovery/src/service.rs] from one connection to its answer: the
    request is read ([Http]), routed, checked against the enrollment ([Admission]), decided
    by the record store or the policy store ([Records], [FileStore], [Policy]) and answered.
    A record store is an interface with the laws the service relies on; the in-memory store
    and the durable store are its two instances.

    The readings of the clocks and the outcomes of the disk calls of one request are its
    environment.  The runner, its task groups and the TLS layer are not modelled; whether a
    worker took a job is an argument. *)

From S2P Require Import Prelude Discovery Clock Paths Net Crypto Authority Policy RecordWire Records.
From S2P Require Import FileStore Admission Http.

(** ** The record store interface *)

(** [RecordStore]: [E] is what a call takes from the outside, [L] the state of the admission
    callback. *)
Class RecordStore (S E L : Type) : Type := {
  put_admitted : S -> EndpointRecord -> E -> (bool -> L -> result unit DiscoveryError * L) -> L
    -> S * L * result unit DiscoveryError;
  remove_admitted : S -> DeleteRequest -> E -> (bool -> L -> result unit DiscoveryError * L) -> L
    -> S * L * result unit DiscoveryError;
  store_get : S -> EndpointKey -> E -> S * result EndpointRecord DiscoveryError;
  collect_expired : S -> E -> S * result Z DiscoveryError
}.

(** ** Counters, answers and state *)

Record Metrics : Type := mkMetrics {
  mt_puts_ok : Z; mt_puts_rejected : Z; mt_gets : Z; mt_deletes : Z; mt_name_lookups : Z;
  mt_registry_puts : Z; mt_revocations_puts : Z; mt_requests_bad : Z; mt_writes_rate_limited : Z;
  mt_gc_retired : Z; mt_gc_failures : Z; mt_connections_rejected : Z; mt_workers_rejected : Z;
  mt_task_panics : Z; mt_requests : Z
}.
Definition Metrics_default : Metrics := mkMetrics 0 0 0 0 0 0 0 0 0 0 0 0 0 0 0.

(** [fetch_add(n)] on one counter. *)
Inductive Counter : Type :=
| CPutsOk | CPutsRejected | CGets | CDeletes | CNameLookups | CRegistryPuts | CRevocationsPuts
| CRequestsBad | CWritesRateLimited | CGcRetired | CGcFailures | CConnectionsRejected | CWorkersRejected
| CTaskPanics | CRequests.
Definition fetch_add (c : Counter) (n : Z) (m : Metrics) : Metrics :=
  let up x := (x + n) mod 2 ^ 64 in
  let '(mkMetrics a b g d nl rp rv rb wr gr gf cr wk tp rq) := m in
  match c with
  | CPutsOk => mkMetrics (up a) b g d nl rp rv rb wr gr gf cr wk tp rq
  | CPutsRejected => mkMetrics a (up b) g d nl rp rv rb wr gr gf cr wk tp rq
  | CGets => mkMetrics a b (up g) d nl rp rv rb wr gr gf cr wk tp rq
  | CDeletes => mkMetrics a b g (up d) nl rp rv rb wr gr gf cr wk tp rq
  | CNameLookups => mkMetrics a b g d (up nl) rp rv rb wr gr gf cr wk tp rq
  | CRegistryPuts => mkMetrics a b g d nl (up rp) rv rb wr gr gf cr wk tp rq
  | CRevocationsPuts => mkMetrics a b g d nl rp (up rv) rb wr gr gf cr wk tp rq
  | CRequestsBad => mkMetrics a b g d nl rp rv (up rb) wr gr gf cr wk tp rq
  | CWritesRateLimited => mkMetrics a b g d nl rp rv rb (up wr) gr gf cr wk tp rq
  | CGcRetired => mkMetrics a b g d nl rp rv rb wr (up gr) gf cr wk tp rq
  | CGcFailures => mkMetrics a b g d nl rp rv rb wr gr (up gf) cr wk tp rq
  | CConnectionsRejected => mkMetrics a b g d nl rp rv rb wr gr gf (up cr) wk tp rq
  | CWorkersRejected => mkMetrics a b g d nl rp rv rb wr gr gf cr (up wk) tp rq
  | CTaskPanics => mkMetrics a b g d nl rp rv rb wr gr gf cr wk (up tp) rq
  | CRequests => mkMetrics a b g d nl rp rv rb wr gr gf cr wk tp (up rq)
  end.

(** What the handlers put in a body. *)
Inductive JsonValue : Type :=
| JError (e : DiscoveryError)
| JStored
| JChanged (changed : bool)
| JDeleted
| JHealth
| JRecord (r : EndpointRecord)
| JName (n : SignedNameBinding)
| JRevocations (r : SignedRevocations).
(** [serde_json::to_vec] of the values that are [json!] literals. *)
Class JsonBody : Type := json_body : JsonValue -> option bytes.
(** [data_encoding::BASE32_NOPAD]. *)
Class Base32 : Type := { base32_encode : bytes -> bytes; base32_decode : bytes -> option bytes }.

(** [State], without its task group. *)
Record DirState (S : Type) : Type := mkDir {
  ds_store : S;
  ds_policy : option PolicyStore;
  ds_limits : Limits;
  ds_limiter : LimiterState;
  ds_enrollment : Enrollment;
  ds_metrics : Metrics
}.
Arguments mkDir {S}.
Arguments ds_store {S}.
Arguments ds_policy {S}.
Arguments ds_limits {S}.
Arguments ds_limiter {S}.
Arguments ds_enrollment {S}.
Arguments ds_metrics {S}.

(** The environment of one request: that of its call to the store, the reading the policy
    store gets, the instant the limiter takes and the outcome of a policy commit. *)
Record ReqEnv (E : Type) : Type := mkReqEnv {
  re_store : E;
  re_now : result Reading DiscoveryError;
  re_instant : Instant;
  re_io : DiskIo
}.
Arguments mkReqEnv {E}.
Arguments re_store {E}.
Arguments re_now {E}.
Arguments re_instant {E}.
Arguments re_io {E}.

(** What became of the job of a request: a worker ran it, the group was full, or it was
    dropped before it ran. *)
Inductive Worker : Type := WorkerRan | WorkerFull | WorkerDropped.

(** What the callback of a write changes. *)
Definition Charged : Type := LimiterState * Metrics.

Definition status_for (e : DiscoveryError) : Z :=
  match e with
  | NotFound => 404
  | BadSignature => 401
  | DStale => 409
  | DExpired => 410
  | RateLimited => 429
  | NotEnrolled => 403
  | InvalidRecord _ => 400
  | _ => 500
  end.

Section Service.
Context `{Ed25519, UrlLibrary, Blake3, JsonBody, Base32}.
Context `{Postcard Z, Postcard RecordPayload, Postcard DeletePayload}.
Context `{Postcard RevocationPayload, Postcard RegistryPayload, Postcard NameBindingPayload}.
Context `{Postcard PState, SerdeJson Envelope}.
Context `{SerdeJson EndpointRecord, SerdeJson DeleteRequest, SerdeJson SignedRegistry}.
Context `{SerdeJson SignedRevocations, SerdeJson SignedNameBinding}.
Context {S E : Type} `{RecordStore S E Charged}.

Definition ok_json (r : result bytes string) : option bytes :=
  match r with Ok b => Some b | Err _ => None end.
Definition json_value (v : JsonValue) : option bytes :=
  match v with
  | JRecord r => ok_json (json_to_vec r)
  | JName n => ok_json (json_to_vec n)
  | JRevocations r => ok_json (json_to_vec r)
  | v => json_body v
  end.

(** [Response::json], [Response::text] and [Response::error]. *)
Definition response_json (status : Z) (v : JsonValue) : Response :=
  mkResponse status (default (bs "null") (json_value v)).
Definition response_text (status : Z) (body : bytes) : Response := mkResponse status body.
Definition response_error (status : Z) (e : DiscoveryError) : Response := response_json status (JError e).

(** [EndpointKey::from_str]; the argument is a segment of a path, which is ASCII. *)
Definition ascii_upper (c : ascii) : ascii :=
  if between 97 122 c then ascii_of_N (Z.to_N (byte_val c - 32)) else c.
Definition EndpointKey_from_str (s : bytes) : result EndpointKey DiscoveryError :=
  if zlen s =? 64 then ok_or (hex_decode s) (InvalidRecord "endpoint key is not hex") else
  let? b := ok_or (base32_decode (ascii_upper <$> s)) (InvalidRecord "endpoint key is not base32") in
  if zlen b =? 32 then Ok b else Err (InvalidRecord "endpoint key is not 32 bytes").

Definition count (c : Counter) (st : DirState S) : DirState S :=
  mkDir (ds_store st) (ds_policy st) (ds_limits st) (ds_limiter st) (ds_enrollment st)
    (fetch_add c 1 (ds_metrics st)).
Definition set_store (s : S) (l : Charged) (st : DirState S) : DirState S :=
  mkDir s (ds_policy st) (ds_limits st) l.1 (ds_enrollment st) l.2.
Definition set_policy (p : PolicyStore) (l : Charged) (st : DirState S) : DirState S :=
  mkDir (ds_store st) (Some p) (ds_limits st) l.1 (ds_enrollment st) l.2.
Definition charged (st : DirState S) : Charged := (ds_limiter st, ds_metrics st).

(** [charge] on the answer of the limiter. *)
Definition charge (r : LimiterState * result unit DiscoveryError) (m : Metrics)
    : result unit DiscoveryError * Charged :=
  (r.2, (r.1, if bool_decide (r.2 = Err RateLimited) then fetch_add CWritesRateLimited 1 m else m)).

(** The callback of a record write. *)
Definition record_admission (limits : Limits) (key : EndpointKey) (now : Instant) (known : bool) (l : Charged)
    : result unit DiscoveryError * Charged :=
  charge (record_at l.1 key known limits now) l.2.

Definition put_record (st : DirState S) (req : Request) (env : ReqEnv E) : DirState S * Response :=
  match json_from_slice (A := EndpointRecord) (rq_body req) with
  | Err e => (count CPutsRejected st, response_error 400 (InvalidRecord e))
  | Ok record =>
      if negb (enrollment_allows (ds_enrollment st) (er_key record))
      then (count CPutsRejected st, response_error 403 NotEnrolled) else
      let '(s, l, r) := put_admitted (ds_store st) record (re_store env)
        (record_admission (ds_limits st) (er_key record) (re_instant env)) (charged st) in
      let st := set_store s l st in
      match r with
      | Ok _ => (count CPutsOk st, response_json 200 JStored)
      | Err e => (count CPutsRejected st, response_error (status_for e) e)
      end
  end.

Definition get_record (st : DirState S) (key : bytes) (env : ReqEnv E) : DirState S * Response :=
  let st := count CGets st in
  match EndpointKey_from_str key with
  | Err e => (st, response_error 400 e)
  | Ok key =>
      if negb (enrollment_allows (ds_enrollment st) key) then (st, response_error 403 NotEnrolled) else
      let '(s, r) := store_get (ds_store st) key (re_store env) in
      let st := set_store s (charged st) st in
      match r with
      | Ok record => (st, response_json 200 (JRecord record))
      | Err e => (st, response_error (status_for e) e)
      end
  end.

Definition delete_record (st : DirState S) (key : bytes) (req : Request) (env : ReqEnv E)
    : DirState S * Response :=
  match EndpointKey_from_str key with
  | Err e => (st, response_error 400 e)
  | Ok key =>
      if negb (enrollment_allows (ds_enrollment st) key) then (st, response_error 403 NotEnrolled) else
      match json_from_slice (A := DeleteRequest) (rq_body req) with
      | Err e => (st, response_error 400 (InvalidRecord e))
      | Ok tomb =>
          if negb (bool_decide (dr_key tomb = key)) then (st, response_error 401 BadSignature) else
          let st := count CDeletes st in
          let '(s, l, r) := remove_admitted (ds_store st) tomb (re_store env)
            (record_admission (ds_limits st) key (re_instant env)) (charged st) in
          let st := set_store s l st in
          match r with
          | Ok _ => (st, response_json 200 JDeleted)
          | Err e => (st, response_error (status_for e) e)
          end
      end
  end.

Definition get_name (st : DirState S) (name : bytes) (env : ReqEnv E) : DirState S * Response :=
  let st := count CNameLookups st in
  if negb (valid_name name) then (st, response_error 400 (InvalidRecord "invalid device name")) else
  (st, match (let? policy := ok_or (ds_policy st) NotFound in
              let? now := re_now env in
              PolicyStore_name policy name now) with
       | Ok proof => response_json 200 (JName proof)
       | Err e => response_error (status_for e) e
       end).

(** What a policy write answers. *)
Definition policy_reply (st : DirState S) (c : Counter) (r : result bool DiscoveryError) : DirState S * Response :=
  match r with
  | Ok changed => (if changed : bool then count c st else st, response_json 200 (JChanged changed))
  | Err NotFound => (st, response_error 401 BadSignature)
  | Err e => (st, response_error (status_for e) e)
  end.

(** The callback of a policy write runs when the store decided to commit. *)
Definition policy_admission (st : DirState S) (commits revocations : bool) (now : Instant)
    : result unit DiscoveryError * Charged :=
  if commits then charge (limiter_policy (ds_limiter st) revocations (ds_limits st) now) (ds_metrics st)
  else (Ok tt, charged st).
Definition commits {A} (r : result (option A) DiscoveryError) : bool :=
  match r with Ok (Some _) => true | _ => false end.

Definition put_registry (st : DirState S) (req : Request) (env : ReqEnv E) : DirState S * Response :=
  match (let? policy := ok_or (ds_policy st) NotFound in
         let? snap := map_err InvalidRecord (json_from_slice (A := SignedRegistry) (rq_body req)) in
         let? now := re_now env in Ok (policy, snap, now)) with
  | Err e => policy_reply st CRegistryPuts (Err e)
  | Ok (policy, snap, now) =>
      let '(allowed, l) := policy_admission st (commits (registry_decision policy snap now)) false (re_instant env) in
      let '(policy, r) := accept_registry_admitted policy snap now allowed (re_io env) in
      policy_reply (set_policy policy l st) CRegistryPuts r
  end.

Definition get_revocations (st : DirState S) (env : ReqEnv E) : DirState S * Response :=
  (st, match (let? policy := ok_or (ds_policy st) NotFound in
              let? now := re_now env in
              PolicyStore_revocations policy now) with
       | Ok (Some (snap, _, _)) => response_json 200 (JRevocations snap)
       | Ok None => response_error 404 NotFound
       | Err e => response_error (status_for e) e
       end).

Definition put_revocations (st : DirState S) (req : Request) (env : ReqEnv E) : DirState S * Response :=
  match (let? policy := ok_or (ds_policy st) NotFound in
         let? snap := map_err InvalidRecord (json_from_slice (A := SignedRevocations) (rq_body req)) in
         let? now := re_now env in Ok (policy, snap, now)) with
  | Err e => policy_reply st CRevocationsPuts (Err e)
  | Ok (policy, snap, now) =>
      let '(allowed, l) := policy_admission st (commits (revocations_decision policy snap now)) true (re_instant env) in
      let '(policy, r) := accept_revocations_admitted policy snap now allowed (re_io env) in
      policy_reply (set_policy policy l st) CRevocationsPuts r
  end.

(** ** Routing *)

Inductive Route : Type :=
| RHead | RPutRecord | RGetRecord (key : bytes) | RDeleteRecord (key : bytes) | RGetName (name : bytes)
| RPutRegistry | RGetRevocations | RPutRevocations | RHealth | RUnknown.

Definition route_of (req : Request) : Route :=
  let segments := filter (fun s => negb (bool_decide (s = [])) = true) (split_char "/" (rq_path req)) in
  let method m := bool_decide (rq_method req = bs m) in
  if method "HEAD" then RHead else
  match segments with
  | [v; a] =>
      if negb (bool_decide (v = bs "v1")) then RUnknown else
      if method "PUT" && bool_decide (a = bs "records") then RPutRecord else
      if method "PUT" && bool_decide (a = bs "registry") then RPutRegistry else
      if method "GET" && bool_decide (a = bs "revocations") then RGetRevocations else
      if method "PUT" && bool_decide (a = bs "revocations") then RPutRevocations else
      if method "GET" && bool_decide (a = bs "health") then RHealth else RUnknown
  | [v; a; b] =>
      if negb (bool_decide (v = bs "v1")) then RUnknown else
      if method "GET" && bool_decide (a = bs "records") then RGetRecord b else
      if method "DELETE" && bool_decide (a = bs "records") then RDeleteRecord b else
      if method "GET" && bool_decide (a = bs "names") then RGetName b else RUnknown
  | _ => RUnknown
  end.

(** [route]. *)
Definition route (st : DirState S) (req : Request) (env : ReqEnv E) : DirState S * Response :=
  match route_of req with
  | RHead => (st, response_text 405 [])
  | RPutRecord => put_record st req env
  | RGetRecord key => get_record st key env
  | RDeleteRecord key => delete_record st key req env
  | RGetName name => get_name st name env
  | RPutRegistry => put_registry st req env
  | RGetRevocations => get_revocations st env
  | RPutRevocations => put_revocations st req env
  | RHealth => (st, response_json 200 JHealth)
  | RUnknown => (st, response_text 404 (bs "unknown route"))
  end.

(** [InvalidRecord(m) if m.contains("body too large")]: the reader has one such message. *)
Definition body_too_large (e : DiscoveryError) : bool := bool_decide (e = http_bad "body too large").

(** [serve_request]: the stream read, and what was written to it. *)
Definition serve_request (st : DirState S) (stream : bytes) (worker : Worker) (env : ReqEnv E)
    : DirState S * option bytes :=
  let send (st : DirState S) resp :=
    (st, match write_response resp with Ok wire => Some wire | Err _ => None end) in
  match (read_request stream).1 with
  | Ok None => (st, None)
  | Err e => send (count CRequestsBad st) (response_error (if body_too_large e then 413 else 400) e)
  | Ok (Some req) =>
      let st := count CRequests st in
      let '(st, resp) :=
        match worker with
        | WorkerRan => route st req env
        | WorkerDropped => (st, response_error 500 (Store "directory worker ended without a response"))
        | WorkerFull => (count CWorkersRejected st, response_error 429 RateLimited)
        end in
      send st (if bool_decide (rq_method req = bs "HEAD") then mkResponse (rs_status resp) [] else resp)
  end.

(** [TaskGroup::collect]: one round of expiry. *)
Definition maintain (st : DirState S) (env : ReqEnv E) : DirState S :=
  let '(s, r) := collect_expired (ds_store st) (re_store env) in
  let st := set_store s (charged st) st in
  mkDir (ds_store st) (ds_policy st) (ds_limits st) (ds_limiter st) (ds_enrollment st)
    (match r with
     | Ok n => fetch_add CGcRetired n (ds_metrics st)
     | Err _ => fetch_add CGcFailures 1 (ds_metrics st)
     end).
End Service.

(** ** What the service relies on *)

Section Laws.
Context `{HEd : Ed25519, HU : UrlLibrary, HB : Blake3, HZ : Postcard Z}.
Context `{HP : Postcard RecordPayload, HD : Postcard DeletePayload, HE : Postcard RecordEntry}.

(** What a write to a store did: nothing is forgotten, an accepted operation is bound, and
    the callback ran only for a verified operation newer than what was bound. *)
Record wrote {L : Type} (c c' : gmap bytes Stored) (l l' : L) (e : RecordEntry) (key : EndpointKey)
    (r : result unit DiscoveryError) : Prop := {
  wt_le : catalog_le c c';
  wt_bound : r = Ok tt -> exists rev i x g st, entry_details e key = Ok (rev, i, x) /\ entry_digest e = Ok g
    /\ c' !! key = Some st /\ binds key st rev g;
  wt_charged : l' <> l -> exists rev i x, entry_details e key = Ok (rev, i, x)
    /\ forall o rev' g, c !! key = Some o -> binds key o rev' g -> rev' < rev
}.
(** What a read found: a current record, the last operation bound. *)
Definition found (c : gmap bytes Stored) (key : EndpointKey) (now : Reading) (record : EndpointRecord) : Prop :=
  exists p, EndpointRecord_verify record = Ok p /\ pl_key p = key
    /\ pl_issued_at p <= as_secs (rd_wall now) < pl_expires_at p
    /\ exists st g, c !! key = Some st /\ binds key st (pl_revision p) g /\ entry_digest (RecRecord record) = Ok g.

Class RecordStoreLaws (S E L : Type) `{HR : RecordStore S E L} : Type := {
  store_ok : S -> Prop;
  store_catalog : S -> gmap bytes Stored;
  env_now : E -> result Reading DiscoveryError;
  law_put : forall s record env adm (l : L) s' l' r,
    store_ok s -> (forall n, env_now env = Ok n -> 0 <= rd_wall n) -> length (er_key record) = 32%nat ->
    put_admitted s record env adm l = (s', l', r) ->
    store_ok s' /\ wrote (store_catalog s) (store_catalog s') l l' (RecRecord record) (er_key record) r;
  law_remove : forall s tomb env adm (l : L) s' l' r,
    store_ok s -> (forall n, env_now env = Ok n -> 0 <= rd_wall n) -> length (dr_key tomb) = 32%nat ->
    remove_admitted s tomb env adm l = (s', l', r) ->
    store_ok s' /\ wrote (store_catalog s) (store_catalog s') l l' (RecDeleted tomb) (dr_key tomb) r;
  law_get : forall s key env s' r,
    store_ok s -> (forall n, env_now env = Ok n -> 0 <= rd_wall n) -> length key = 32%nat ->
    store_get s key env = (s', r) ->
    store_ok s' /\ catalog_le (store_catalog s) (store_catalog s')
    /\ forall record, r = Ok record -> exists now, env_now env = Ok now
         /\ found (store_catalog s') key now record;
  law_collect : forall s env s' r,
    store_ok s -> (forall n, env_now env = Ok n -> 0 <= rd_wall n) -> collect_expired s env = (s', r) ->
    store_ok s' /\ catalog_le (store_catalog s) (store_catalog s')
}.
End Laws.

(** ** The two stores *)

Section Instances.
Context `{HEd : Ed25519, HU : UrlLibrary, HB : Blake3, HZ : Postcard Z}.
Context `{HP : Postcard RecordPayload, HD : Postcard DeletePayload, HE : Postcard RecordEntry}.
Context `{HT : !PostcardTotal RecordEntry}.

Lemma details_record record p :
  EndpointRecord_verify record = Ok p ->
  pl_key p = er_key record
  /\ entry_details (RecRecord record) (pl_key p) = Ok (pl_revision p, pl_issued_at p, pl_expires_at p).
Proof.
  intros V. pose proof V as (_ & _ & _ & _ & _ & _ & K & _)%EndpointRecord_verify_ok. split; [done|].
  unfold entry_details. rewrite V. simpl. by rewrite bool_decide_eq_true_2.
Qed.
Lemma details_delete tomb p :
  DeleteRequest_verify tomb = Ok p ->
  dp_key p = dr_key tomb
  /\ entry_details (RecDeleted tomb) (dp_key p) = Ok (dp_revision p, dp_issued_at p, dp_expires_at p).
Proof.
  intros V. pose proof V as (_ & _ & _ & _ & _ & _ & K & _)%DeleteRequest_verify_ok. split; [done|].
  unfold entry_details. rewrite V. simpl. by rewrite bool_decide_eq_true_2.
Qed.

Lemma wrote_nothing {L : Type} c (l : L) e key err : wrote c c l l e key (Err err).
Proof. by split. Qed.

Definition done_of {A} (r : result A DiscoveryError) : result unit DiscoveryError :=
  match r with Ok _ => Ok tt | Err e => Err e end.

(** A write that answers as the contract does, and a read. *)
Lemma accessed_wrote {L : Type} cap c key e now (l : L) c' l' r :
  accessed cap c key (Some e) now l c' l' r ->
  wrote (ca_entries c) (ca_entries c') l l' e key (done_of r).
Proof.
  intros [_ Le _ _ _ W A]. split; [done| |].
  - intros Eq. destruct r as [o|]; [|done].
    destruct (W e o eq_refl eq_refl) as (rev & i & x & g & st & H). eauto 10.
  - intros Ne. destruct (A Ne) as (e' & rev & i & x & lease & [= <-] & Ed & _ & Lt). eauto 10.
Qed.
Lemma accessed_found {L : Type} cap c key now (l : L) c' l' record :
  accessed cap c key None now l c' l' (Ok (Some record)) -> found (ca_entries c') key now record.
Proof. intros [_ _ _ _ R _ _]. destruct (R record eq_refl) as (_ & p & H). by exists p. Qed.

Section Memory.
Context {L : Type}.
#[export] Instance memory_record_store : RecordStore MemoryStore (result Reading DiscoveryError) L := {|
  put_admitted s record now adm l := memory_put s record now adm l;
  remove_admitted s tomb now adm l := memory_remove s tomb now adm l;
  store_get s key now := memory_get s key now;
  collect_expired s now := memory_collect s now
|}.

Lemma memory_wrote s key e now adm (l : L) s' l' r :
  memory_ok s -> memory_access s key (Some e) now adm l = (s', l', r) ->
  memory_ok s' /\ wrote (ms_entries s) (ms_entries s') l l' e key (done_of r).
Proof.
  intros K H. destruct (memory_access_ok _ _ _ _ _ _ _ _ _ K H) as [K' _]. split; [done|].
  destruct now as [now|er]; [|injection H as <- <- <-; apply wrote_nothing].
  destruct (memory_access_refines _ _ _ _ _ _ _ _ _ K H) as [R _].
  exact (accessed_wrote _ _ _ _ _ _ _ _ _
    (catalog_access_ok _ (memory_catalog s) _ _ _ _ _ _ _ _ (mk_entries _ K) R)).
Qed.

#[export] Instance memory_record_store_laws : RecordStoreLaws MemoryStore (result Reading DiscoveryError) L.
Proof.
  refine {| store_ok := memory_ok; store_catalog := ms_entries;
            env_now := fun n : result Reading DiscoveryError => n |}; simpl.
  - intros s record env adm l s' l' r K _ _ H. unfold memory_put in H.
    destruct (EndpointRecord_verify record) as [p|er] eqn:V; [|by injection H as <- <- <-].
    destruct (details_record _ _ V) as [<- _]. destruct (memory_access _ _ _ _ _ _) as [[s1 l1] r1] eqn:M.
    injection H as <- <- <-. by eapply memory_wrote.
  - intros s tomb env adm l s' l' r K _ _ H. unfold memory_remove in H.
    destruct (DeleteRequest_verify tomb) as [p|er] eqn:V; [|by injection H as <- <- <-].
    destruct (details_delete _ _ V) as [<- _]. destruct (memory_access _ _ _ _ _ _) as [[s1 l1] r1] eqn:M.
    injection H as <- <- <-. by eapply memory_wrote.
  - intros s key env s' r K _ _ H. unfold memory_get in H.
    destruct (memory_access _ _ _ _ _ _) as [[s1 l1] r1] eqn:M. injection H as <- <-.
    destruct (memory_access_ok _ _ _ _ _ _ _ _ _ K M) as [K' Le]. split_and!; [done|done|].
    intros record E. destruct r1 as [[rec|]|]; try done. injection E as ->.
    destruct env as [now|]; [|done]. exists now. split; [done|].
    destruct (memory_access_refines _ _ _ _ _ _ _ _ _ K M) as [R _].
    exact (accessed_found _ _ _ _ _ _ _ _
      (catalog_access_ok _ (memory_catalog s) _ _ _ _ _ _ _ _ (mk_entries _ K) R)).
  - intros s env s' r K _ H. by eapply memory_collect_ok.
Defined.
End Memory.

Section File.
Context `{HSt : Postcard Stored, HMd : Postcard Metadata, HAn : SerdeJson RecordAnchor}.
Context `{HSl : !PostcardLaws Stored, HMl : !PostcardLaws Metadata, HAl : !SerdeJsonLaws RecordAnchor}.
Context `{HAt : !AnchorTotal, HMt : !PostcardTotal Metadata}.
Context {L : Type}.

(** The durable store takes a reading and the outcome of its transaction. *)
#[export] Instance file_record_store : RecordStore FileStore (result Reading DiscoveryError * AccessIo) L := {|
  put_admitted s record env adm l := file_put s record env.1 adm l env.2;
  remove_admitted s tomb env adm l := file_remove s tomb env.1 adm l env.2;
  store_get s key env := file_get s key env.1 env.2;
  collect_expired s env := file_collect s env.1 env.2
|}.

Lemma file_wrote s key e now adm (l : L) io s' l' r :
  file_ok s -> length key = 32%nat -> (forall n, now = Ok n -> 0 <= rd_wall n) ->
  file_access s key (Some e) now adm l io = (s', l', r) ->
  file_ok s' /\ wrote (disk_catalog (fs_disk s)) (disk_catalog (fs_disk s')) l l' e key (done_of r).
Proof.
  intros K Lk Hw H. destruct (file_access_step _ _ _ _ _ _ _ _ _ _ K Lk Hw H) as (K' & Le & A).
  split; [done|]. split; [done| |].
  - intros E. destruct r as [o|]; [|done]. destruct (A o eq_refl) as (n & _ & Ac).
    by apply (wt_bound _ _ _ _ _ _ _ (accessed_wrote _ _ _ _ _ _ _ _ _ Ac)).
  - intros Ne. destruct (file_access_admission _ _ _ _ _ _ _ _ _ _ K H Ne) as (e' & rev & i & x & [= <-] & Q).
    eauto.
Qed.

#[export] Instance file_record_store_laws :
  RecordStoreLaws FileStore (result Reading DiscoveryError * AccessIo) L.
Proof.
  refine {| store_ok := file_ok; store_catalog := fun s => disk_catalog (fs_disk s);
            env_now := fun env : result Reading DiscoveryError * AccessIo => env.1 |}; simpl.
  - intros s record env adm l s' l' r K Hw Lk H. unfold file_put in H.
    destruct (EndpointRecord_verify record) as [p|er] eqn:V; [|by injection H as <- <- <-].
    destruct (details_record _ _ V) as [Ek _]. rewrite <-Ek in Lk |- *.
    destruct (file_access _ _ _ _ _ _ _) as [[s1 l1] r1] eqn:M. injection H as <- <- <-. by eapply file_wrote.
  - intros s tomb env adm l s' l' r K Hw Lk H. unfold file_remove in H.
    destruct (DeleteRequest_verify tomb) as [p|er] eqn:V; [|by injection H as <- <- <-].
    destruct (details_delete _ _ V) as [Ek _]. rewrite <-Ek in Lk |- *.
    destruct (file_access _ _ _ _ _ _ _) as [[s1 l1] r1] eqn:M. injection H as <- <- <-. by eapply file_wrote.
  - intros s key env s' r K Hw Lk H. unfold file_get in H.
    destruct (file_access _ _ _ _ _ _ _) as [[s1 l1] r1] eqn:M. injection H as <- <-.
    destruct (file_access_step _ _ _ _ _ _ _ _ _ _ K Lk Hw M) as (K' & Le & A). split_and!; [done|done|].
    intros record E. destruct r1 as [[rec|]|]; try done. injection E as ->.
    destruct (A _ eq_refl) as (n & En & Ac). exists n. split; [done|]. exact (accessed_found _ _ _ _ _ _ _ _ Ac).
  - intros s env s' r K Hw H. destruct (fs_failed s) eqn:Nf.
    { unfold file_collect, file_observe in H. rewrite Nf in H. by injection H as <- <-. }
    destruct (file_collect_ok _ _ _ _ _ K Nf Hw H) as [K' Sb]. split; [done|by apply same_bindings_le].
Defined.
End File.
End Instances.

Lemma hex_decode_length s b : hex_decode s = Some b -> length s = (2 * length b)%nat.
Proof.
  revert b. induction s as [s IH] using (induction_ltof1 _ (@length ascii)). destruct s as [|x [|y s]]; intros b; simpl.
  - by intros [= <-].
  - done.
  - destruct (to_digit 16 x), (to_digit 16 y), (hex_decode s) as [r|] eqn:D; try done. intros [= <-].
    simpl. rewrite (IH s ltac:(unfold ltof; simpl; lia) r D). lia.
Qed.

(** ** What the service does *)

Section Served.
Context `{HEd : Ed25519, HU : UrlLibrary, HB : Blake3, HJ : JsonBody, HB32 : Base32}.
Context `{HZ : Postcard Z, HP : Postcard RecordPayload, HD : Postcard DeletePayload, HE : Postcard RecordEntry}.
Context `{HRp : Postcard RevocationPayload, HGp : Postcard RegistryPayload, HNp : Postcard NameBindingPayload}.
Context `{HPs : Postcard PState, HEn : SerdeJson Envelope}.
Context `{HJr : SerdeJson EndpointRecord, HJd : SerdeJson DeleteRequest, HJg : SerdeJson SignedRegistry}.
Context `{HJv : SerdeJson SignedRevocations, HJn : SerdeJson SignedNameBinding}.
Context {S E : Type} `{HR : RecordStore S E Charged} `{HL : !RecordStoreLaws S E Charged}.

(** The keys of decoded messages are arrays of 32 bytes. *)
Class JsonKeys : Prop := {
  jk_record : forall b r, json_from_slice (A := EndpointRecord) b = Ok r -> length (er_key r) = 32%nat;
  jk_delete : forall b d, json_from_slice (A := DeleteRequest) b = Ok d -> length (dr_key d) = 32%nat
}.
Context `{HK : !JsonKeys}.

(** One event of the runner: a connection, or a round of collection. *)
Inductive Event : Type :=
| EvServe (stream : bytes) (worker : Worker) (env : ReqEnv E)
| EvCollect (env : ReqEnv E).
Definition event_env (ev : Event) : ReqEnv E :=
  match ev with EvServe _ _ env | EvCollect env => env end.
Definition service_step (st : DirState S) (ev : Event) : DirState S :=
  match ev with
  | EvServe stream worker env => (serve_request st stream worker env).1
  | EvCollect env => maintain st env
  end.
Definition service_run (st : DirState S) (evs : list Event) : DirState S := fold_left service_step evs st.

Definition wall_known (env : ReqEnv E) : Prop :=
  forall n, env_now (re_store env) = Ok n -> 0 <= rd_wall n.
Definition dir_ok (st : DirState S) : Prop := store_ok (ds_store st).
Definition dir_catalog (st : DirState S) : gmap bytes Stored := store_catalog (ds_store st).

(** What no step undoes. *)
Record dir_le (st st' : DirState S) : Prop := {
  dl_ok : dir_ok st';
  dl_catalog : catalog_le (dir_catalog st) (dir_catalog st');
  dl_enrollment : ds_enrollment st' = ds_enrollment st;
  dl_limits : ds_limits st' = ds_limits st
}.

Lemma dir_le_store (st : DirState S) s l c :
  store_ok s -> catalog_le (dir_catalog st) (store_catalog s) -> dir_le st (count c (set_store s l st)).
Proof. by split. Qed.
Lemma dir_le_same (st st' : DirState S) :
  dir_ok st -> ds_store st' = ds_store st -> ds_enrollment st' = ds_enrollment st -> ds_limits st' = ds_limits st ->
  dir_le st st'.
Proof. intros K Es Ee El. split; unfold dir_ok, dir_catalog; rewrite ?Es; done. Qed.
Lemma dir_le_trans st1 st2 st3 : dir_le st1 st2 -> dir_le st2 st3 -> dir_le st1 st3.
Proof. intros [_ C1 E1 L1] [K C2 E2 L2]. split; [done| |congruence|congruence]. by etransitivity. Qed.

Lemma EndpointKey_length s key : EndpointKey_from_str s = Ok key -> length key = 32%nat.
Proof.
  unfold EndpointKey_from_str. destruct (Z.eqb_spec (zlen s) 64) as [Eq|_].
  - destruct (hex_decode s) as [b|] eqn:D; [|done]. intros [= <-]. apply hex_decode_length in D.
    unfold zlen in Eq. lia.
  - destruct (base32_decode _) as [b|]; [|done]. simpl. destruct (Z.eqb_spec (zlen b) 32) as [Eq|]; [|done].
    intros [= <-]. unfold zlen in Eq. lia.
Qed.

Lemma status_for_error e : 400 <= status_for e.
Proof. by destruct e. Qed.

(** A write: what the store was asked, and what became of it. *)
Lemma put_record_spec st req env st' resp :
  dir_ok st -> wall_known env -> put_record st req env = (st', resp) ->
  dir_le st st'
  /\ (rs_status resp = 200 -> exists record, json_from_slice (rq_body req) = Ok record
        /\ exists rev i x g c, entry_details (RecRecord record) (er_key record) = Ok (rev, i, x)
             /\ entry_digest (RecRecord record) = Ok g
             /\ dir_catalog st' !! er_key record = Some c /\ binds (er_key record) c rev g)
  /\ (ds_limiter st' <> ds_limiter st -> exists record rev i x, json_from_slice (rq_body req) = Ok record
        /\ enrollment_allows (ds_enrollment st) (er_key record) = true
        /\ entry_details (RecRecord record) (er_key record) = Ok (rev, i, x)
        /\ forall o rev' g, dir_catalog st !! er_key record = Some o -> binds (er_key record) o rev' g -> rev' < rev).
Proof.
  intros K Hw H. unfold put_record in H.
  destruct (json_from_slice (rq_body req)) as [record|e] eqn:J.
  2:{ injection H as <- <-. by split; [apply dir_le_same|]. }
  destruct (enrollment_allows _ _) eqn:A; simpl in H.
  2:{ injection H as <- <-. by split; [apply dir_le_same|]. }
  destruct (put_admitted _ _ _ _ _) as [[s l] r] eqn:P.
  destruct (law_put _ _ _ _ _ _ _ _ K Hw (jk_record _ _ J) P) as [K' [Wl Wb Wc]].
  assert (Ch : l.1 <> ds_limiter st -> l <> charged st) by (intros N ->; by apply N).
  destruct r as [[]|e]; injection H as <- <-; (split; [by apply dir_le_store|]); split.
  - intros _. exists record. split; [done|]. by apply Wb.
  - intros N. destruct (Wc (Ch N)) as (rev & i & x & D & Q). by exists record, rev, i, x.
  - simpl. intros Es. pose proof (status_for_error e). lia.
  - intros N. destruct (Wc (Ch N)) as (rev & i & x & D & Q). by exists record, rev, i, x.
Qed.

Lemma delete_record_spec st k req env st' resp :
  dir_ok st -> wall_known env -> delete_record st k req env = (st', resp) ->
  dir_le st st'
  /\ (rs_status resp = 200 -> exists tomb, EndpointKey_from_str k = Ok (dr_key tomb)
        /\ json_from_slice (rq_body req) = Ok tomb
        /\ exists rev i x g c, entry_details (RecDeleted tomb) (dr_key tomb) = Ok (rev, i, x)
             /\ entry_digest (RecDeleted tomb) = Ok g
             /\ dir_catalog st' !! dr_key tomb = Some c /\ binds (dr_key tomb) c rev g)
  /\ (ds_limiter st' <> ds_limiter st -> exists tomb rev i x, EndpointKey_from_str k = Ok (dr_key tomb)
        /\ json_from_slice (rq_body req) = Ok tomb
        /\ enrollment_allows (ds_enrollment st) (dr_key tomb) = true
        /\ entry_details (RecDeleted tomb) (dr_key tomb) = Ok (rev, i, x)
        /\ forall o rev' g, dir_catalog st !! dr_key tomb = Some o -> binds (dr_key tomb) o rev' g -> rev' < rev).
Proof.
  intros K Hw H. unfold delete_record in H.
  destruct (EndpointKey_from_str k) as [key|e] eqn:Ek.
  2:{ injection H as <- <-. split; [by apply dir_le_same|split; [|done]]. simpl. by intros. }
  destruct (enrollment_allows _ _) eqn:A; simpl in H.
  2:{ injection H as <- <-. by split; [apply dir_le_same|]. }
  destruct (json_from_slice (rq_body req)) as [tomb|e] eqn:J.
  2:{ injection H as <- <-. by split; [apply dir_le_same|]. }
  case_bool_decide as Q; simpl in H.
  2:{ injection H as <- <-. by split; [apply dir_le_same|]. }
  subst key. destruct (remove_admitted _ _ _ _ _) as [[s l] r] eqn:P.
  destruct (law_remove _ _ _ _ _ _ _ _ K Hw (jk_delete _ _ J) P) as [K' [Wl Wb Wc]].
  assert (Ch : l.1 <> ds_limiter st -> l <> charged (count CDeletes st)) by (intros N ->; by apply N).
  assert (Le : dir_le st (set_store s l (count CDeletes st))) by (by split).
  destruct r as [[]|e]; injection H as <- <-; (split; [done|]); split.
  - intros _. exists tomb. do 2 (split; [done|]). by apply Wb.
  - intros N. destruct (Wc (Ch N)) as (rev & i & x & D & R). by exists tomb, rev, i, x.
  - simpl. intros Es. pose proof (status_for_error e). lia.
  - intros N. destruct (Wc (Ch N)) as (rev & i & x & D & R). by exists tomb, rev, i, x.
Qed.

Lemma get_record_spec st k env st' resp :
  dir_ok st -> wall_known env -> get_record st k env = (st', resp) ->
  dir_le st st' /\ ds_limiter st' = ds_limiter st
  /\ (rs_status resp = 200 -> exists key now record, EndpointKey_from_str k = Ok key
        /\ resp = response_json 200 (JRecord record) /\ enrollment_allows (ds_enrollment st) key = true
        /\ env_now (re_store env) = Ok now /\ found (dir_catalog st') key now record).
Proof.
  intros K Hw H. unfold get_record in H.
  destruct (EndpointKey_from_str k) as [key|e] eqn:Ek.
  2:{ injection H as <- <-. split; [by apply dir_le_same|]. by split. }
  destruct (enrollment_allows _ _) eqn:A; simpl in H.
  2:{ injection H as <- <-. split; [by apply dir_le_same|]. by split. }
  destruct (store_get _ _ _) as [s r] eqn:P.
  destruct (law_get _ _ _ _ _ K Hw (EndpointKey_length _ _ Ek) P) as (K' & Le & F).
  destruct r as [record|e]; injection H as <- <-; (split; [by split|]); (split; [done|]).
  - intros _. destruct (F record eq_refl) as (now & En & Fd). by exists key, now, record.
  - simpl. intros Es. pose proof (status_for_error e). lia.
Qed.

Lemma policy_reply_store (st : DirState S) c r st' resp :
  policy_reply st c r = (st', resp) ->
  ds_store st' = ds_store st /\ ds_enrollment st' = ds_enrollment st /\ ds_limits st' = ds_limits st
  /\ ds_limiter st' = ds_limiter st.
Proof. destruct r as [[]|e]; [| |destruct e]; by intros [= <- <-]. Qed.

Lemma policy_admission_charges (st : DirState S) c rev now allowed l :
  policy_admission st c rev now = (allowed, l) -> l.1 <> ds_limiter st -> c = true.
Proof. destruct c; [done|]. unfold policy_admission. by intros [= <- <-]. Qed.

Lemma policy_inputs {A} `{SerdeJson A} (st : DirState S) body (env : ReqEnv E) policy (snap : A) now :
  (let? policy := ok_or (ds_policy st) NotFound in
   let? snap := map_err InvalidRecord (json_from_slice (A := A) body) in
   let? now := re_now env in Ok (policy, snap, now)) = Ok (policy, snap, now) ->
  ds_policy st = Some policy /\ json_from_slice body = Ok snap /\ re_now env = Ok now.
Proof.
  destruct (ds_policy st) as [p|]; [|done]. simpl. destruct (json_from_slice body) as [sn|]; [|done]. simpl.
  destruct (re_now env); [|done]. by intros [= <- <- <-].
Qed.

Lemma put_registry_spec st req (env : ReqEnv E) st' resp :
  dir_ok st -> put_registry st req env = (st', resp) ->
  dir_le st st'
  /\ (ds_limiter st' <> ds_limiter st -> exists policy snap now, ds_policy st = Some policy
        /\ json_from_slice (rq_body req) = Ok snap /\ re_now env = Ok now
        /\ commits (registry_decision policy snap now) = true).
Proof.
  intros K H. unfold put_registry in H. destruct (let? policy := _ in _) as [[[policy snap] now]|e] eqn:D.
  2:{ apply policy_reply_store in H as (Es & Ee & El & Em). split; [by apply dir_le_same|done]. }
  apply policy_inputs in D as (Dp & Ds & Dn). destruct (policy_admission _ _ _ _) as [allowed l] eqn:A.
  destruct (accept_registry_admitted _ _ _ _ _) as [policy' r].
  apply policy_reply_store in H as (Es & Ee & El & Em). split; [by apply dir_le_same|].
  rewrite Em. intros N. apply policy_admission_charges in A; [|done]. by exists policy, snap, now.
Qed.
Lemma put_revocations_spec st req (env : ReqEnv E) st' resp :
  dir_ok st -> put_revocations st req env = (st', resp) ->
  dir_le st st'
  /\ (ds_limiter st' <> ds_limiter st -> exists policy snap now, ds_policy st = Some policy
        /\ json_from_slice (rq_body req) = Ok snap /\ re_now env = Ok now
        /\ commits (revocations_decision policy snap now) = true).
Proof.
  intros K H. unfold put_revocations in H. destruct (let? policy := _ in _) as [[[policy snap] now]|e] eqn:D.
  2:{ apply policy_reply_store in H as (Es & Ee & El & Em). split; [by apply dir_le_same|done]. }
  apply policy_inputs in D as (Dp & Ds & Dn). destruct (policy_admission _ _ _ _) as [allowed l] eqn:A.
  destruct (accept_revocations_admitted _ _ _ _ _) as [policy' r].
  apply policy_reply_store in H as (Es & Ee & El & Em). split; [by apply dir_le_same|].
  rewrite Em. intros N. apply policy_admission_charges in A; [|done]. by exists policy, snap, now.
Qed.

(** The operation a request asks of the record store. *)
Inductive asks (req : Request) : EndpointKey -> RecordEntry -> Prop :=
| AsksPut record :
    route_of req = RPutRecord -> json_from_slice (rq_body req) = Ok record ->
    asks req (er_key record) (RecRecord record)
| AsksDelete k tomb :
    route_of req = RDeleteRecord k -> EndpointKey_from_str k = Ok (dr_key tomb) ->
    json_from_slice (rq_body req) = Ok tomb ->
    asks req (dr_key tomb) (RecDeleted tomb).

(** A change of the policy that the policy store decided to commit. *)
Definition policy_commits (st : DirState S) (req : Request) (env : ReqEnv E) : Prop :=
  exists policy now, ds_policy st = Some policy /\ re_now env = Ok now
  /\ ((route_of req = RPutRegistry /\ exists snap, json_from_slice (rq_body req) = Ok snap
         /\ commits (registry_decision policy snap now) = true)
      \/ (route_of req = RPutRevocations /\ exists snap, json_from_slice (rq_body req) = Ok snap
         /\ commits (revocations_decision policy snap now) = true)).

(** Every routed request. *)
Record routed (st : DirState S) (req : Request) (env : ReqEnv E) (st' : DirState S) (resp : Response) : Prop := {
  ro_le : dir_le st st';
  ro_write : rs_status resp = 200 -> (route_of req = RPutRecord \/ exists k, route_of req = RDeleteRecord k) ->
    exists key e rev i x g c, asks req key e /\ entry_details e key = Ok (rev, i, x) /\ entry_digest e = Ok g
      /\ dir_catalog st' !! key = Some c /\ binds key c rev g;
  ro_read : forall k, rs_status resp = 200 -> route_of req = RGetRecord k ->
    exists key now record, EndpointKey_from_str k = Ok key
      /\ resp = response_json 200 (JRecord record) /\ enrollment_allows (ds_enrollment st) key = true
      /\ env_now (re_store env) = Ok now /\ found (dir_catalog st') key now record;
  ro_charge : ds_limiter st' <> ds_limiter st -> policy_commits st req env
    \/ exists key e rev i x, asks req key e /\ enrollment_allows (ds_enrollment st) key = true
         /\ entry_details e key = Ok (rev, i, x)
         /\ forall o rev' g, dir_catalog st !! key = Some o -> binds key o rev' g -> rev' < rev
}.

Lemma route_ok st req env st' resp :
  dir_ok st -> wall_known env -> route st req env = (st', resp) -> routed st req env st' resp.
Proof.
  intros K Hw H. unfold route in H. destruct (route_of req) eqn:R.
  2:{ destruct (put_record_spec _ _ _ _ _ K Hw H) as (Le & W & C). split; [done| |congruence|].
      - intros S2 _. destruct (W S2) as (record & J & rev & i & x & g & c & Q).
        exists (er_key record), (RecRecord record), rev, i, x, g, c. split; [by apply AsksPut|done].
      - intros N. right. destruct (C N) as (record & rev & i & x & J & Q).
        exists (er_key record), (RecRecord record), rev, i, x. split; [by apply AsksPut|done]. }
  2:{ destruct (get_record_spec _ _ _ _ _ K Hw H) as (Le & El & G). split; [done| | |congruence].
      - intros _ [|[k ?]]; congruence.
      - intros k S2 Rk. rewrite R in Rk. injection Rk as <-. by apply G. }
  2:{ destruct (delete_record_spec _ _ _ _ _ _ K Hw H) as (Le & W & C). split; [done| |congruence|].
      - intros S2 _. destruct (W S2) as (tomb & Ek & J & rev & i & x & g & c & Q).
        exists (dr_key tomb), (RecDeleted tomb), rev, i, x, g, c. split; [by eapply AsksDelete|done].
      - intros N. right. destruct (C N) as (tomb & rev & i & x & Ek & J & Q).
        exists (dr_key tomb), (RecDeleted tomb), rev, i, x. split; [by eapply AsksDelete|done]. }
  3:{ destruct (put_registry_spec _ _ _ _ _ K H) as (Le & C). split; [done| |congruence|].
      - intros _ [|[k ?]]; congruence.
      - intros N. left. destruct (C N) as (policy & snap & now & P & J & En & Q).
        exists policy, now. do 2 (split; [done|]). left. split; [done|]. by exists snap. }
  4:{ destruct (put_revocations_spec _ _ _ _ _ K H) as (Le & C). split; [done| |congruence|].
      - intros _ [|[k ?]]; congruence.
      - intros N. left. destruct (C N) as (policy & snap & now & P & J & En & Q).
        exists policy, now. do 2 (split; [done|]). right. split; [done|]. by exists snap. }
  all: assert (dir_le st st' /\ ds_limiter st' = ds_limiter st) as [Le El];
    [|split; [done|intros _ [|[k ?]]; congruence|congruence|congruence]].
  2:{ unfold get_name in H. destruct (negb _); injection H as <- <-; by split; [apply dir_le_same|]. }
  all: injection H as <- <-; by split; [apply dir_le_same|].
Qed.

(** A connection changes the state as its request does, if a worker took it. *)
Lemma serve_request_cases st stream worker env st' out :
  serve_request st stream worker env = (st', out) ->
  ds_store st' = ds_store st /\ ds_enrollment st' = ds_enrollment st /\ ds_limits st' = ds_limits st
    /\ ds_limiter st' = ds_limiter st
  \/ exists req resp, (read_request stream).1 = Ok (Some req) /\ worker = WorkerRan
       /\ route (count CRequests st) req env = (st', resp).
Proof.
  intros H. unfold serve_request in H. destruct (read_request stream).1 as [[req|]|e] eqn:R.
  - destruct worker.
    + right. destruct (route _ _ _) as [st1 resp] eqn:Q. exists req, resp. by injection H as <- _.
    + left. by injection H as <- _.
    + left. by injection H as <- _.
  - left. by injection H as <- _.
  - left. by injection H as <- _.
Qed.

Lemma dir_le_count st c st' : dir_le (count c st) st' -> dir_le st st'.
Proof. intros [K C Ee El]. by split. Qed.

Lemma service_step_le st ev :
  dir_ok st -> wall_known (event_env ev) -> dir_le st (service_step st ev).
Proof.
  intros K Hw. destruct ev as [stream worker env|env]; simpl in *.
  - destruct (serve_request _ _ _ _) as [st' out] eqn:Q.
    destruct (serve_request_cases _ _ _ _ _ _ Q) as [(Es & Ee & El & _)|(req & resp & _ & _ & Ro)].
    { by apply dir_le_same. }
    exact (dir_le_count _ _ _ (ro_le _ _ _ _ _ (route_ok _ _ _ _ _ (K : dir_ok (count CRequests st)) Hw Ro))).
  - unfold maintain. destruct (collect_expired _ _) as [s r] eqn:C.
    destruct (law_collect _ _ _ _ K Hw C) as [K' Le]. by split.
Qed.

Lemma service_run_le st evs :
  dir_ok st -> Forall (fun ev => wall_known (event_env ev)) evs -> dir_le st (service_run st evs).
Proof.
  intros K F. unfold service_run. revert st K. induction F as [|ev evs Hw _ IH]; intros st K; simpl; [by apply dir_le_same|].
  pose proof (service_step_le _ _ K Hw) as Le. eapply dir_le_trans; [exact Le|]. apply IH, Le.
Qed.

(** No connection uses up the budget of a publisher, or that of the directory, unless it
    carries a signed operation on an enrolled identity that verifies and is newer than what
    the store knows of it, or a policy snapshot the policy store decided to commit: what
    an unauthenticated peer sends, and what is replayed, costs nothing. *)
Theorem charges_only_verified st stream worker env st' out :
  dir_ok st -> wall_known env -> serve_request st stream worker env = (st', out) ->
  ds_limiter st' <> ds_limiter st ->
  exists req, (read_request stream).1 = Ok (Some req) /\ worker = WorkerRan
  /\ (policy_commits st req env
      \/ exists key e rev i x, asks req key e /\ enrollment_allows (ds_enrollment st) key = true
           /\ entry_details e key = Ok (rev, i, x)
           /\ forall o rev' g, dir_catalog st !! key = Some o -> binds key o rev' g -> rev' < rev).
Proof.
  intros K Hw H N.
  destruct (serve_request_cases _ _ _ _ _ _ H) as [(_ & _ & _ & El)|(req & resp & Rd & W & Ro)]; [done|].
  exists req. do 2 (split; [done|]).
  exact (ro_charge _ _ _ _ _ (route_ok _ _ _ _ _ (K : dir_ok (count CRequests st)) Hw Ro) N).
Qed.
End Served.
