(* ===== verification/Lookup.v ===== *)
(** * The directory client

    Models [src/crates/rds-discovery/src/client.rs] and [tls.rs]: the endpoint of a directory,
    its trust roots, one exchange per request, and the operations of a client: publish,
    fetch, remove, resolve a name, and the policy calls.  An exchange is a function of the
    world it changes; with the service of [Service] as that function, the theorems here
    hold from a client that publishes to a client that fetches.

    The network and the clocks are arguments: what dialing, the handshake and the deadline
    gave, and the readings a lookup took. *)

From S2P Require Import Prelude Discovery Clock Paths Net Crypto Authority Policy RecordWire Records.
From S2P Require Import Codecs FileStore Admission Http Service.

(** ** Socket addresses *)

(** [SocketAddr] with the scope of an IPv6 address. *)
Record SockAddr : Type := mkSock { sk_ip : IpAddr; sk_scope : Z; sk_port : Z }.

Definition read_port (s : bytes) : option (Z * bytes) :=
  match read_given_char ":" s with
  | Some s => read_number 10 (length s) true u16_max s
  | None => None
  end.
Definition read_scope_id (s : bytes) : option (Z * bytes) :=
  match read_given_char "%" s with
  | Some s => read_number 10 (length s) true (2 ^ 32 - 1) s
  | None => None
  end.
Definition read_socket_addr_v4 (s : bytes) : option (SockAddr * bytes) :=
  match read_ipv4_addr s with None => None | Some ((a, b, c, d), s) =>
  match read_port s with None => None | Some (port, s) => Some (mkSock (V4 a b c d) 0 port, s)
  end end.
Definition read_socket_addr_v6 (s : bytes) : option (SockAddr * bytes) :=
  match read_given_char "[" s with None => None | Some s =>
  match read_ipv6_addr s with None => None | Some (g, s) =>
  let '(scope, s) := match read_scope_id s with Some (n, s) => (n, s) | None => (0, s) end in
  match read_given_char "]" s with None => None | Some s =>
  match read_port s with None => None | Some (port, s) => Some (mkSock (V6 g) scope port, s)
  end end end end.
(** [SocketAddr::from_str]. *)
Definition parse_socket_addr (s : bytes) : option SockAddr :=
  parse_with (fun s => match read_socket_addr_v4 s with
                       | Some r => Some r
                       | None => read_socket_addr_v6 s
                       end) s.
(** [Display] of [SocketAddr]. *)
Definition fmt_socket_addr (a : SockAddr) : bytes :=
  match sk_ip a with
  | V4 x y z w => fmt_ipv4 x y z w ++ bs ":" ++ fmt_u16 (sk_port a)
  | V6 g => bs "[" ++ fmt_ipv6 g
            ++ (if sk_scope a =? 0 then [] else bs "%" ++ fmt_usize (sk_scope a))
            ++ bs "]:" ++ fmt_u16 (sk_port a)
  end.

(** ** Trust *)

(** [rustls] and its certificate types. *)
Class Rustls : Type := {
  pem_certificates : bytes -> result (list bytes) string;
  pem_private_key : bytes -> result bytes string;
  root_add : bytes -> result unit string;
  protocol_versions : result unit string;
  single_cert : list bytes -> bytes -> result unit string;
  server_name : bytes -> result unit string
}.
Inductive Roots : Type := PublicRoots | PrivateRoots (certs : list bytes).
Record ClientConfig : Type := mkClientConfig { cc_roots : Roots; cc_alpn : list bytes }.
Record ServerConfig : Type := mkServerConfig { sc_chain : list bytes; sc_key : bytes; sc_alpn : list bytes }.

Inductive NameTrust : Type :=
| TrustMemory (store : PolicyStore)
| TrustPersistent (authority : Authority) (path : bytes) (rotations : list SignedRotation).

Record Client : Type := mkClient {
  cl_host : bytes;
  cl_port : Z;
  cl_authority : bytes;
  cl_tls : option ClientConfig;
  cl_timeout : Z;
  cl_name_trust : option NameTrust
}.

(** What a request meets on its way: dialing a literal address, or the lookup and the
    attempts in the order they ended; the socket option; the handshake; whether the deadline
    passed, before or after the request was sent. *)
Inductive Elapsed : Type := InTime | BeforeSend | AfterSend.
Record NetIo : Type := mkNetIo {
  ni_dial : result unit string;
  ni_lookup : result nat string;
  ni_attempts : list (result unit string);
  ni_nodelay : result unit string;
  ni_handshake : result unit string;
  ni_elapsed : Elapsed
}.
Definition net_fine : NetIo := mkNetIo (Ok tt) (Ok 1%nat) [Ok tt] (Ok tt) (Ok tt) InTime.

(** What one attempt to accept a name meets. *)
Record AcceptIo : Type := mkAcceptIo {
  ai_now : result Reading DiscoveryError;
  ai_after : result Reading DiscoveryError;
  ai_poisoned : bool;
  ai_open : result unit DiscoveryError;
  ai_read : result (option bytes) DiscoveryError;
  ai_init : result bool DiscoveryError;
  ai_write : result unit DiscoveryError;
  ai_seal : result unit DiscoveryError;
  ai_rotation : SignedRotation -> DiskIo;
  ai_io : DiskIo
}.

(** ** Characters *)

(** [str::chars] on the bytes of a string. *)
Fixpoint utf8_chars (b : bytes) : list Z :=
  match b with
  | [] => []
  | c :: r1 =>
      let v := byte_val c in
      let low x := byte_val x mod 64 in
      if v <? 128 then v :: utf8_chars r1 else
      match r1 with
      | [] => []
      | c1 :: r2 =>
          if v <? 224 then ((v mod 32) * 64 + low c1) :: utf8_chars r2 else
          match r2 with
          | [] => []
          | c2 :: r3 =>
              if v <? 240 then ((v mod 16) * 4096 + low c1 * 64 + low c2) :: utf8_chars r3 else
              match r3 with
              | [] => []
              | c3 :: r4 => ((v mod 8) * 262144 + low c1 * 4096 + low c2 * 64 + low c3) :: utf8_chars r4
              end
          end
      end
  end.
(** [char::is_whitespace] and [char::is_control]. *)
Definition is_whitespace (c : Z) : bool :=
  (9 <=? c) && (c <=? 13) || (c =? 32) || (c =? 133) || (c =? 160) || (c =? 5760)
  || (8192 <=? c) && (c <=? 8202) || (c =? 8232) || (c =? 8233) || (c =? 8239) || (c =? 8287) || (c =? 12288).
Definition is_control (c : Z) : bool := (0 <=? c) && (c <=? 31) || (127 <=? c) && (c <=? 159).

(** [split_once] on a string, and [find] of one of three bytes. *)
Fixpoint after_first (pat s : bytes) : option bytes :=
  if bool_decide (pat `prefix_of` s) then Some (drop (length pat) s)
  else match s with [] => None | _ :: s => after_first pat s end.
Fixpoint span_until (stop : ascii -> bool) (s : bytes) : bytes * bytes :=
  match s with
  | [] => ([], [])
  | c :: r => if stop c then ([], s) else let '(a, b) := span_until stop r in (c :: a, b)
  end.

Section Client.
Context `{HEd : Ed25519, HU : UrlLibrary, HB : Blake3, HB32 : Base32, HT : Rustls}.
Context `{HZ : Postcard Z, HP : Postcard RecordPayload, HD : Postcard DeletePayload}.
Context `{HRp : Postcard RevocationPayload, HGp : Postcard RegistryPayload, HNp : Postcard NameBindingPayload}.
Context `{HRt : Postcard RotationPayload, HPs : Postcard PState, HEn : SerdeJson Envelope}.
Context `{HJr : SerdeJson EndpointRecord, HJd : SerdeJson DeleteRequest, HJg : SerdeJson SignedRegistry}.
Context `{HJv : SerdeJson SignedRevocations, HJn : SerdeJson SignedNameBinding}.

(** ** [tls.rs] *)

Definition config_error (e : string) : DiscoveryError := Configuration (String.append "TLS: " e).

Definition certificates (pem : bytes) : result (list bytes) DiscoveryError :=
  if 1024 * 1024 <? zlen pem then Err (config_error "certificate bundle exceeds 1 MiB") else
  let? certs := map_err config_error (pem_certificates pem) in
  if bool_decide (certs = []) then Err (config_error "empty certificate bundle") else Ok certs.

Definition server_config_from_pem (chain key : bytes) : result ServerConfig DiscoveryError :=
  if 64 * 1024 <? zlen key then Err (config_error "private key exceeds 64 KiB") else
  let? _ := map_err config_error protocol_versions in
  let? certs := certificates chain in
  let? key := map_err config_error (pem_private_key key) in
  let? _ := map_err config_error (single_cert certs key) in
  Ok (mkServerConfig certs key [bs "http/1.1"]).

Definition client_config (ca : option bytes) : result ClientConfig DiscoveryError :=
  let? roots := match ca with
                | Some pem =>
                    let? certs := certificates pem in
                    let? _ := try_for_each (fun cert => map_err config_error (root_add cert)) certs in
                    Ok (PrivateRoots certs)
                | None => Ok PublicRoots
                end in
  let? _ := map_err config_error protocol_versions in
  Ok (mkClientConfig roots [bs "http/1.1"]).

(** ** The client of one directory *)

Definition Client_new (a : SockAddr) : Client :=
  mkClient (fmt_ip (sk_ip a)) (sk_port a) (fmt_socket_addr a) None (from_secs 3) None.

Definition invalid_endpoint : DiscoveryError :=
  Configuration "expected http(s)://host[:port] without credentials, path, query or fragment".

Definition Client_from_endpoint (endpoint : bytes) : result Client DiscoveryError :=
  match parse_socket_addr endpoint with
  | Some a => Ok (Client_new a)
  | None =>
      if (2048 <? zlen endpoint)
         || existsb (fun c => is_whitespace c || is_control c || (c =? 92)) (utf8_chars endpoint)
         || negb (bool_decide (bs "https://" `prefix_of` endpoint) || bool_decide (bs "http://" `prefix_of` endpoint))
      then Err invalid_endpoint else
      let? remainder := ok_or (after_first (bs "://") endpoint) invalid_endpoint in
      let '(authority, rest) := span_until (fun c => bool_decide (c ∈ bs "/?#")) remainder in
      if bool_decide (authority = []) || bool_decide ("@"%char ∈ authority)
         || negb (bool_decide (rest = []) || bool_decide (rest = bs "/"))
      then Err invalid_endpoint else
      let? url := ok_or (url_parse endpoint) invalid_endpoint in
      if negb (bool_decide (u_username url = [])) || is_some (u_password url)
         || negb (bool_decide (u_path url = bs "/")) || is_some (u_query url) || is_some (u_fragment url)
      then Err invalid_endpoint else
      let? uhost := ok_or (u_host url) invalid_endpoint in
      let host := match uhost with HostDomain name => name | HostIpv4 ip | HostIpv6 ip => fmt_ip ip end in
      let? port := ok_or (match u_port_or_known_default url with
                          | Some port => if port =? 0 then None else Some port
                          | None => None
                          end) invalid_endpoint in
      let authority := match uhost with
                       | HostIpv6 _ => bs "[" ++ host ++ bs "]:" ++ fmt_u16 port
                       | _ => host ++ bs ":" ++ fmt_u16 port
                       end in
      let? tls := if bool_decide (u_scheme url = bs "https") then
                    let? _ := map_err (fun _ => invalid_endpoint) (server_name host) in
                    let? config := client_config None in Ok (Some config)
                  else Ok None in
      Ok (mkClient host port authority tls (from_secs 3) None)
  end.

Definition with_ca_pem (cl : Client) (pem : bytes) : result Client DiscoveryError :=
  if negb (is_some (cl_tls cl)) then Err (Configuration "CA bundle requires HTTPS") else
  let? config := client_config (Some pem) in
  Ok (mkClient (cl_host cl) (cl_port cl) (cl_authority cl) (Some config) (cl_timeout cl) (cl_name_trust cl)).
Definition with_request_timeout (cl : Client) (timeout : Z) : Client :=
  mkClient (cl_host cl) (cl_port cl) (cl_authority cl) (cl_tls cl) timeout (cl_name_trust cl).
Definition set_name_trust (cl : Client) (trust : NameTrust) : Client :=
  mkClient (cl_host cl) (cl_port cl) (cl_authority cl) (cl_tls cl) (cl_timeout cl) (Some trust).

(** The two [expect]s are the error of this function. *)
Definition with_registry_key (cl : Client) (key : EndpointKey) : result Client DiscoveryError :=
  let? authority := Authority_new key 1 in
  let? store := PolicyStore_memory authority in
  Ok (set_name_trust cl (TrustMemory store)).
Definition with_registry_store (cl : Client) (authority : Authority) (path : bytes)
    (rotations : list SignedRotation) : result Client DiscoveryError :=
  let? _ := Authority_verifying_key authority in
  if 16 <? zlen rotations then Err (Configuration "too many rotation receipts") else
  Ok (set_name_trust cl (TrustPersistent authority path rotations)).

Definition client_addr (cl : Client) : option SockAddr :=
  (fun ip => mkSock ip 0 (cl_port cl)) <$> parse_ip (cl_host cl).

(** [attempts.join_next()] until one socket is connected. *)
Fixpoint first_connected (last : string) (attempts : list (result unit string)) : result unit DiscoveryError :=
  match attempts with
  | [] => Err (Unreachable last)
  | Ok _ :: _ => Ok tt
  | Err e :: attempts => first_connected e attempts
  end.
Definition connect (cl : Client) (io : NetIo) : result unit DiscoveryError :=
  match client_addr cl with
  | Some _ => map_err Unreachable (ni_dial io)
  | None =>
      let? addresses := map_err Unreachable (ni_lookup io) in
      first_connected "DNS returned no addresses" (take (Nat.min 16 addresses) (ni_attempts io))
  end.

(** The stream a request is written to. *)
Definition open_stream (cl : Client) (io : NetIo) : result unit DiscoveryError :=
  let? _ := connect cl io in
  let? _ := map_err Unreachable (ni_nodelay io) in
  match cl_tls cl with
  | Some _ =>
      let? _ := map_err Configuration (server_name (cl_host cl)) in
      map_err (fun e => Unreachable (String.append "TLS handshake: " e)) (ni_handshake io)
  | None => Ok tt
  end.

(** What the message of an answer with an error reads as: its [error] member, or its text. *)
Context (error_text : bytes -> string).

Definition expect (resp : Response) (ok : list Z) : result Response DiscoveryError :=
  if bool_decide (rs_status resp ∈ ok) then Ok resp else
  if rs_status resp =? 429 then Err RateLimited else Err (Http (rs_status resp) (error_text (rs_body resp))).

Section Requests.
Context {W : Type} (exchange : W -> bytes -> W * bytes).

Definition request (cl : Client) (method path body : bytes) (io : NetIo) (w : W)
    : W * result Response DiscoveryError :=
  let timed_out := Unreachable "request timed out" in
  match ni_elapsed io with
  | BeforeSend => (w, Err timed_out)
  | elapsed =>
      match (let? _ := open_stream cl io in
             write_request_with_host (cl_authority cl) method path body) with
      | Err e => (w, Err e)
      | Ok wire =>
          let '(w, answer) := exchange w wire in
          (w, match elapsed with AfterSend => Err timed_out | _ => (read_response answer).1 end)
      end
  end.

(** [Display] of an [EndpointKey]. *)
Definition fmt_key (key : EndpointKey) : bytes := ascii_lower <$> base32_encode key.

Definition publish (cl : Client) (record : EndpointRecord) (io : NetIo) (w : W) : W * result unit DiscoveryError :=
  match map_err InvalidRecord (json_to_vec record) with
  | Err e => (w, Err e)
  | Ok body =>
      let '(w, r) := request cl (bs "PUT") (bs "/v1/records") body io w in
      (w, let? resp := r in let? _ := expect resp [200] in Ok tt)
  end.

Definition fetch (cl : Client) (key : EndpointKey) (io : NetIo) (w : W) : W * result EndpointRecord DiscoveryError :=
  let '(w, r) := request cl (bs "GET") (bs "/v1/records/" ++ fmt_key key) [] io w in
  (w, let? resp := r in
      let? resp := expect resp [200] in
      map_err InvalidRecord (json_from_slice (rs_body resp))).

Definition remove (cl : Client) (tomb : DeleteRequest) (now : result Z DiscoveryError) (io : NetIo) (w : W)
    : W * result unit DiscoveryError :=
  match (let? now := now in
         let? payload := DeleteRequest_verify_fresh_at tomb now in
         let? body := map_err InvalidRecord (json_to_vec tomb) in Ok (dp_key payload, body)) with
  | Err e => (w, Err e)
  | Ok (key, body) =>
      let '(w, r) := request cl (bs "DELETE") (bs "/v1/records/" ++ fmt_key key) body io w in
      (w, let? resp := r in let? _ := expect resp [200] in Ok tt)
  end.

Definition update_registry (cl : Client) (snap : SignedRegistry) (io : NetIo) (w : W)
    : W * result unit DiscoveryError :=
  match map_err InvalidRecord (json_to_vec snap) with
  | Err e => (w, Err e)
  | Ok body =>
      let '(w, r) := request cl (bs "PUT") (bs "/v1/registry") body io w in
      (w, let? resp := r in let? _ := expect resp [200] in Ok tt)
  end.

Definition fetch_revocations (cl : Client) (io : NetIo) (w : W)
    : W * result (option SignedRevocations) DiscoveryError :=
  let '(w, r) := request cl (bs "GET") (bs "/v1/revocations") [] io w in
  (w, let? resp := r in
      if rs_status resp =? 404 then Ok None else
      let? resp := expect resp [200] in
      let? snap := map_err InvalidRecord (json_from_slice (rs_body resp)) in Ok (Some snap)).

Definition update_revocations (cl : Client) (snap : SignedRevocations) (io : NetIo) (w : W)
    : W * result unit DiscoveryError :=
  match map_err InvalidRecord (json_to_vec snap) with
  | Err e => (w, Err e)
  | Ok body =>
      let '(w, r) := request cl (bs "PUT") (bs "/v1/revocations") body io w in
      (w, let? resp := r in let? _ := expect resp [200] in Ok tt)
  end.

Definition health (cl : Client) (io : NetIo) (w : W) : W * result unit DiscoveryError :=
  let '(w, r) := request cl (bs "GET") (bs "/v1/health") [] io w in
  (w, let? resp := r in let? _ := expect resp [200] in Ok tt).

(** ** Names *)

Fixpoint apply_rotations (s : PolicyStore) (receipts : list SignedRotation) (now : Reading)
    (io : SignedRotation -> DiskIo) : PolicyStore * result unit DiscoveryError :=
  match receipts with
  | [] => (s, Ok tt)
  | receipt :: receipts =>
      match apply_rotation s receipt now (io receipt) with
      | (s, Ok _) => apply_rotations s receipts now io
      | (s, Err e) => (s, Err e)
      end
  end.

(** The end of [NameTrust::accept] on an open store. *)
Definition accept_binding (s : PolicyStore) (proof : SignedNameBinding) (name : bytes) (now : Reading)
    (io : AcceptIo) : PolicyStore * result EndpointKey DiscoveryError :=
  match accept_name s proof name now (ai_io io) with
  | (s, Err e) => (s, Err e)
  | (s, Ok binding) =>
      (s, let? after := ai_after io in let? _ := check_name_lease s after in Ok (nbp_key binding))
  end.

(** [NameTrust::accept]: the trust afterwards, and the durable store it left behind. *)
Definition trust_accept (trust : NameTrust) (proof : SignedNameBinding) (name : bytes) (io : AcceptIo)
    : NameTrust * option PolicyStore * result EndpointKey DiscoveryError :=
  match ai_now io with
  | Err e => (trust, None, Err e)
  | Ok now =>
      match trust with
      | TrustMemory s =>
          if ai_poisoned io then (trust, None, Err (Store "name state poisoned")) else
          let '(s, r) := accept_binding s proof name now io in (TrustMemory s, None, r)
      | TrustPersistent authority path rotations =>
          match PolicyStore_open (ai_open io) (ai_read io) (ai_init io) (ai_write io) (ai_seal io) authority now with
          | Err e => (trust, None, Err e)
          | Ok s =>
              match apply_rotations s rotations now (ai_rotation io) with
              | (s, Err e) => (trust, Some s, Err e)
              | (s, Ok _) => let '(s, r) := accept_binding s proof name now io in (trust, Some s, r)
              end
          end
      end
  end.

(** The loop of [resolve_name]: an attempt that finds the store busy is repeated, until the
    deadline ends the list of attempts. *)
Fixpoint accept_loop (trust : NameTrust) (proof : SignedNameBinding) (name : bytes) (ios : list AcceptIo)
    : NameTrust * result EndpointKey DiscoveryError :=
  match ios with
  | [] => (trust, Err (Unreachable "policy acceptance timed out"))
  | io :: ios =>
      match trust_accept trust proof name io with
      | (trust, _, Err Busy) => accept_loop trust proof name ios
      | (trust, _, r) => (trust, r)
      end
  end.

Definition resolve_name (cl : Client) (name : bytes) (io : NetIo) (ios : list AcceptIo) (w : W)
    : W * Client * result EndpointKey DiscoveryError :=
  if negb (valid_name name) then (w, cl, Err (InvalidRecord "invalid device name")) else
  match cl_name_trust cl with
  | None => (w, cl, Err (InvalidRecord "name resolution requires a trusted registry key"))
  | Some trust =>
      let '(w, r) := request cl (bs "GET") (bs "/v1/names/" ++ name) [] io w in
      match (let? resp := r in
             let? resp := expect resp [200] in
             map_err InvalidRecord (json_from_slice (rs_body resp))) with
      | Err e => (w, cl, Err e)
      | Ok answer =>
          let '(trust, r) := accept_loop trust answer name ios in
          (w, set_name_trust cl trust, r)
      end
  end.
End Requests.
End Client.

(** ** Client and directory together *)

(** [BASE32_NOPAD] is RFC 4648: five bits a character, upper case. *)
Definition base32_char (c : ascii) : bool := between 65 90 c || between 50 55 c.
Class Base32Laws `{Base32} : Prop := {
  base32_roundtrip : forall b, base32_decode (base32_encode b) = Some b;
  base32_alphabet : forall b, forallb base32_char (base32_encode b) = true;
  base32_length : forall b, length b = 32%nat -> length (base32_encode b) = 52%nat
}.
(** A record, a structure of byte arrays, always has a JSON text. *)
Class RecordJson `{SerdeJson EndpointRecord} : Prop :=
  record_json : forall r, length (er_key r) = 32%nat -> exists b, json_to_vec r = Ok b.

Lemma ascii_lower_upper c : base32_char c = true -> ascii_upper (ascii_lower c) = c.
Proof. destruct c as [[] [] [] [] [] [] [] []]; vm_compute; intros; done. Qed.
Lemma ascii_lower_slash c : base32_char c = true -> ascii_lower c <> "/"%char.
Proof. destruct c as [[] [] [] [] [] [] [] []]; vm_compute; intros; done. Qed.

Section Together.
Context `{HEd : Ed25519, HU : UrlLibrary, HB : Blake3, HJ : JsonBody, HB32 : Base32, HT : Rustls}.
Context `{HZ : Postcard Z, HP : Postcard RecordPayload, HD : Postcard DeletePayload, HE : Postcard RecordEntry}.
Context `{HRp : Postcard RevocationPayload, HGp : Postcard RegistryPayload, HNp : Postcard NameBindingPayload}.
Context `{HRt : Postcard RotationPayload, HPs : Postcard PState, HEn : SerdeJson Envelope}.
Context `{HJr : SerdeJson EndpointRecord, HJd : SerdeJson DeleteRequest, HJg : SerdeJson SignedRegistry}.
Context `{HJv : SerdeJson SignedRevocations, HJn : SerdeJson SignedNameBinding}.
Context {S E : Type} `{HR : RecordStore S E Charged}.
Context (error_text : bytes -> string).

(** The directory at the other end of a connection. *)
Definition directory (worker : Worker) (env : ReqEnv E) (st : DirState S) (wire : bytes) : DirState S * bytes :=
  let '(st, out) := serve_request st wire worker env in (st, default [] out).

(** What the service answers a request it read. *)
Definition answer (worker : Worker) (env : ReqEnv E) (st : DirState S) (req : Request) : DirState S * Response :=
  let '(st, resp) :=
    match worker with
    | WorkerRan => route (count CRequests st) req env
    | WorkerDropped => (count CRequests st, response_error 500 (Store "directory worker ended without a response"))
    | WorkerFull => (count CWorkersRejected (count CRequests st), response_error 429 RateLimited)
    end in
  (st, if bool_decide (rq_method req = bs "HEAD") then mkResponse (rs_status resp) [] else resp).

Lemma read_response_nil : (read_response []).1 = Err (http_bad "empty response").
Proof. done. Qed.

(** What the two ends exchange is the request and its answer. *)
Lemma directory_answers worker env st authority method path body wire :
  write_request_with_host authority method path body = Ok wire ->
  let '(st', resp) := answer worker env st (mkRequest method path body) in
  (directory worker env st wire).1 = st'
  /\ (read_response (directory worker env st wire).2).1
     = match write_response resp with Ok _ => Ok resp | Err _ => Err (http_bad "empty response") end.
Proof.
  intros Wr. pose proof (request_roundtrip _ _ _ _ _ [] Wr) as Rd. rewrite app_nil_r in Rd.
  unfold directory, serve_request, answer. rewrite Rd. cbn [fst rq_method].
  destruct (match worker with WorkerRan => _ | _ => _ end) as [st1 resp]. set (out := if bool_decide _ then _ else _).
  destruct (write_response out) as [wout|e] eqn:Wo; cbn [fst snd default]; (split; [done|]).
  - pose proof (response_roundtrip _ _ [] Wo) as Ro. rewrite app_nil_r in Ro. cbn [from_option id]. by rewrite Ro.
  - done.
Qed.

Lemma request_sent cl method path body io worker env st st' resp :
  request (directory worker env) cl method path body io st = (st', Ok resp) ->
  answer worker env st (mkRequest method path body) = (st', resp).
Proof.
  unfold request. intros H. destruct (ni_elapsed io) eqn:El; [|done|].
  all: destruct (open_stream cl io) as [[]|e]; [|done].
  all: destruct (write_request_with_host _ _ _ _) as [wire|e] eqn:Wr; [|done].
  all: pose proof (directory_answers worker env st _ _ _ _ _ Wr) as D;
    destruct (answer _ _ _ _) as [sta ra]; destruct (directory _ _ _ _) as [std out]; simpl in D;
    destruct D as [-> Dr].
  2:{ done. }
  injection H as <- Hr. rewrite Dr in Hr. by destruct (write_response ra); [injection Hr as <-|].
Qed.

(** A client that reaches the directory in time, with a request that can be written, reads
    exactly what the service answered that request; nothing is read when the answer cannot
    be written.  The state of the directory is that after the one request. *)
Theorem exchange_exact cl method path body io worker env st wire :
  open_stream cl io = Ok tt -> ni_elapsed io = InTime ->
  write_request_with_host (cl_authority cl) method path body = Ok wire ->
  request (directory worker env) cl method path body io st
  = let '(st', resp) := answer worker env st (mkRequest method path body) in
    (st', match write_response resp with Ok _ => Ok resp | Err _ => Err (http_bad "empty response") end).
Proof.
  intros Os El Wr. unfold request. rewrite El, Os, Wr.
  pose proof (directory_answers worker env st _ _ _ _ _ Wr) as D.
  destruct (answer _ _ _ _) as [sta ra]. destruct (directory _ _ _ _) as [std out]. simpl in D.
  destruct D as [-> Dr]. by rewrite Dr.
Qed.

(** ** Keys in paths *)

Context `{HBl : !Base32Laws}.
Lemma fmt_key_parse key : length key = 32%nat -> EndpointKey_from_str (fmt_key key) = Ok key.
Proof.
  intros L. unfold EndpointKey_from_str, fmt_key. unfold zlen. rewrite length_fmap, base32_length by done. simpl.
  assert (Up : ascii_upper <$> (ascii_lower <$> base32_encode key) = base32_encode key).
  { pose proof (base32_alphabet key) as F. revert F.
    induction (base32_encode key) as [|c l IH]; [done|]. cbn [forallb]. intros [Hc Hl]%andb_true_iff.
    rewrite !fmap_cons, (IH Hl). f_equal. by apply ascii_lower_upper. }
  rewrite Up, base32_roundtrip. simpl. by rewrite L.
Qed.
Lemma fmt_key_no_slash key : "/"%char ∉ fmt_key key.
Proof.
  unfold fmt_key. intros (c & Ec & Hc)%list_elem_of_fmap. pose proof (base32_alphabet key) as F.
  rewrite forallb_forall in F. apply (ascii_lower_slash c); [|done]. apply F. by apply list_elem_of_In.
Qed.
Lemma fmt_key_ne key : length key = 32%nat -> fmt_key key <> [].
Proof. intros L Q%(f_equal length). unfold fmt_key in Q. rewrite length_fmap, base32_length in Q; done. Qed.

Lemma record_path_segments key :
  length key = 32%nat ->
  filter (fun s => negb (bool_decide (s = [])) = true) (split_char "/" (bs "/v1/records/" ++ fmt_key key))
  = [bs "v1"; bs "records"; fmt_key key].
Proof.
  intros L. change (bs "/v1/records/" ++ fmt_key key)
    with ([] ++ "/"%char :: bs "v1" ++ "/"%char :: bs "records" ++ "/"%char :: fmt_key key).
  rewrite !split_char_app by (by apply (bool_decide_unpack _)).
  rewrite split_char_last by apply fmt_key_no_slash. cbn [filter list_filter].
  pose proof (fmt_key_ne key L) as N. rewrite decide_False by done. rewrite !decide_True; try done.
  by rewrite bool_decide_eq_false_2.
Qed.
Lemma route_get_record key body : length key = 32%nat ->
  route_of (mkRequest (bs "GET") (bs "/v1/records/" ++ fmt_key key) body) = RGetRecord (fmt_key key).
Proof. intros L. unfold route_of. cbn [rq_path rq_method]. by rewrite record_path_segments. Qed.
Lemma route_delete_record key body : length key = 32%nat ->
  route_of (mkRequest (bs "DELETE") (bs "/v1/records/" ++ fmt_key key) body) = RDeleteRecord (fmt_key key).
Proof. intros L. unfold route_of. cbn [rq_path rq_method]. by rewrite record_path_segments. Qed.

(** ** From one client to another *)

Context `{HL : !RecordStoreLaws S E Charged, HK : !JsonKeys}.
Context `{HRl : !SerdeJsonLaws EndpointRecord, HDl : !SerdeJsonLaws DeleteRequest, HRj : !RecordJson}.

(** A write that its client was told is done. *)
Inductive sends (st st' : DirState S) : EndpointKey -> RecordEntry -> Prop :=
| SendsPublish cl record io worker env :
    wall_known env -> publish error_text (directory worker env) cl record io st = (st', Ok tt) ->
    sends st st' (er_key record) (RecRecord record)
| SendsRemove cl tomb now io worker env :
    wall_known env -> remove error_text (directory worker env) cl tomb now io st = (st', Ok tt) ->
    sends st st' (dr_key tomb) (RecDeleted tomb).

Lemma expect_ok resp resp' : expect error_text resp [200] = Ok resp' -> resp' = resp /\ rs_status resp = 200.
Proof.
  unfold expect. case_bool_decide as Q; [|by destruct (_ =? _)]. intros [= <-]. split; [done|].
  by apply list_elem_of_singleton in Q.
Qed.

(** A request that got a 200 was routed. *)
Lemma answered_routed worker env st method path body st' resp :
  dir_ok st -> wall_known env -> bool_decide (method = bs "HEAD") = false ->
  answer worker env st (mkRequest method path body) = (st', resp) -> rs_status resp = 200 ->
  routed (count CRequests st) (mkRequest method path body) env st' resp.
Proof.
  intros K Hw Nh A Es. unfold answer in A. cbn [rq_method] in A. rewrite Nh in A. destruct worker.
  - apply route_ok; [done|done|]. destruct (route _ _ _). by injection A as <- <-.
  - by injection A as <- <-.
  - by injection A as <- <-.
Qed.

(** What a completed write left in the directory. *)
Lemma sends_binds st st' key e :
  dir_ok st -> sends st st' key e ->
  length key = 32%nat /\ dir_le st st'
  /\ exists rev i x g c, entry_details e key = Ok (rev, i, x) /\ entry_digest e = Ok g
       /\ dir_catalog st' !! key = Some c /\ binds key c rev g.
Proof.
  intros K [cl record io worker env Hw H|cl tomb now io worker env Hw H].
  - unfold publish in H. destruct (json_to_vec record) as [body|] eqn:J; [|done]. cbn [map_err] in H.
    destruct (request _ _ _ _ _ _ _) as [w r] eqn:Rq. injection H as -> Hr.
    destruct r as [resp|]; [|done]. destruct (expect _ resp _) as [resp'|] eqn:Ex; [|done].
    apply expect_ok in Ex as [-> Es]. apply request_sent in Rq.
    pose proof (answered_routed _ _ _ (bs "PUT") _ _ _ _ K Hw eq_refl Rq Es) as [Le W _ _].
    pose proof (json_roundtrip _ _ J) as Jr. split; [by eapply jk_record|]. split; [by eapply dir_le_count|].
    destruct (W Es (or_introl eq_refl)) as (key' & e' & rev & i & x & g & c & A & Q).
    destruct A as [rec' _ J'|k tomb Rk _ _]; [|done]. simpl in J'. assert (rec' = record) as -> by congruence.
    by exists rev, i, x, g, c.
  - unfold remove in H. destruct now as [now|]; [|done].
    destruct (DeleteRequest_verify_fresh_at tomb now) as [p|] eqn:V; [|done].
    destruct (json_to_vec tomb) as [body|] eqn:J; [|done]. cbn [map_err] in H.
    assert (Ek : dp_key p = dr_key tomb).
    { unfold DeleteRequest_verify_fresh_at in V. destruct (DeleteRequest_verify tomb) as [q|] eqn:Q; [|done].
      destruct (lifetime _ _ _ _); [|done]. injection V as <-. by apply details_delete in Q as [Q _]. }
    rewrite Ek in H. pose proof (json_roundtrip _ _ J) as Jr. pose proof (jk_delete _ _ Jr) as L.
    destruct (request _ _ _ _ _ _ _) as [w r] eqn:Rq. injection H as -> Hr.
    destruct r as [resp|]; [|done]. destruct (expect _ resp _) as [resp'|] eqn:Ex; [|done].
    apply expect_ok in Ex as [-> Es]. apply request_sent in Rq.
    pose proof (answered_routed _ _ _ (bs "DELETE") _ _ _ _ K Hw eq_refl Rq Es) as [Le W _ _].
    split; [done|]. split; [by eapply dir_le_count|].
    destruct (W Es (or_intror (ex_intro _ _ (route_delete_record _ body L)))) as (key' & e' & rev & i & x & g & c & A & Q).
    destruct A as [rec' Rk _|k tomb' Rk Kk J']; [by rewrite route_delete_record in Rk|].
    simpl in J'. assert (tomb' = tomb) as -> by congruence. by exists rev, i, x, g, c.
Qed.

Lemma fetch_found cl key io worker env st st' record :
  dir_ok st -> wall_known env -> length key = 32%nat ->
  fetch error_text (directory worker env) cl key io st = (st', Ok record) ->
  dir_le st st' /\ exists now, env_now (re_store env) = Ok now
    /\ enrollment_allows (ds_enrollment st) key = true /\ found (dir_catalog st') key now record.
Proof.
  intros K Hw L H. unfold fetch in H. destruct (request _ _ _ _ _ _ _) as [w r] eqn:Rq. injection H as -> Hr.
  destruct r as [resp|]; [|done]. destruct (expect _ resp _) as [resp'|] eqn:Ex; [|done].
  apply expect_ok in Ex as [-> Es]. apply request_sent in Rq.
  pose proof (answered_routed _ _ _ (bs "GET") _ _ _ _ K Hw eq_refl Rq Es) as [Le _ R _].
  split; [by eapply dir_le_count|].
  destruct (R _ Es (route_get_record key [] L)) as (key' & now & rec' & Kk & -> & En & Ew & F).
  rewrite fmt_key_parse in Kk by done. injection Kk as <-. exists now. do 2 (split; [done|]).
  pose proof F as (p & V & Kp & _). destruct (details_record _ _ V) as [Ke _].
  destruct (record_json rec' ltac:(by rewrite <-Ke, Kp)) as [b J]. cbn [response_json rs_body json_value ok_json] in Hr. rewrite J in Hr.
  cbn [ok_json from_option id] in Hr. rewrite (json_roundtrip _ _ J) in Hr. by injection Hr as <-.
Qed.

(** C5: What is published through one client and fetched through another.  Once a publication or
    a deletion succeeded for its client, a fetch of that identity, through any client and
    after anything else the directory served and collected, either fails or gives a record
    that verifies under the key, is current, belongs to an enrolled identity, and is newer
    than that operation or is that operation. *)
Theorem fetched_never_older st st1 key e evs cl io worker env st3 record :
  dir_ok st -> sends st st1 key e -> Forall (fun ev => wall_known (event_env ev)) evs -> wall_known env ->
  fetch error_text (directory worker env) cl key io (service_run st1 evs) = (st3, Ok record) ->
  exists now p rev i x g g', env_now (re_store env) = Ok now /\ entry_details e key = Ok (rev, i, x)
    /\ entry_digest e = Ok g /\ EndpointRecord_verify record = Ok p /\ pl_key p = key
    /\ pl_issued_at p <= as_secs (rd_wall now) < pl_expires_at p
    /\ enrollment_allows (ds_enrollment st) key = true
    /\ entry_digest (RecRecord record) = Ok g' /\ later rev g (pl_revision p) g'.
Proof.
  intros K Sd Fe Hw Ft. destruct (sends_binds _ _ _ _ K Sd) as (L & Le1 & rev & i & x & g & c & D & G & Lc & B).
  pose proof (service_run_le _ _ (dl_ok _ _ Le1) Fe) as Le2.
  destruct (fetch_found _ _ _ _ _ _ _ _ (dl_ok _ _ Le2) Hw L Ft) as (Le3 & now & En & Ew & p & V & Kp & T & cs & g' & Ls & Bs & Gs).
  pose proof (dir_le_trans _ _ _ Le2 Le3) as Le.
  destruct (dl_catalog _ _ Le key c rev g Lc B) as (c2 & r2 & g2 & L2 & B2 & Lt).
  assert (c2 = cs) as -> by congruence. destruct (binds_fun _ _ _ _ _ _ B2 Bs) as [-> ->].
  exists now, p, rev, i, x, g, g'. rewrite (dl_enrollment _ _ Le2), (dl_enrollment _ _ Le1) in Ew. do 8 (split; [done|]). done.
Qed.
End Together.

(** ** Names *)

Section Names.
Context `{HEd : Ed25519, HU : UrlLibrary, HB : Blake3, HT : Rustls}.
Context `{HRp : Postcard RevocationPayload, HGp : Postcard RegistryPayload, HNp : Postcard NameBindingPayload}.
Context `{HRt : Postcard RotationPayload, HPs : Postcard PState, HEn : SerdeJson Envelope}.
Context `{HJn : SerdeJson SignedNameBinding}.
Context (error_text : bytes -> string) (boot : Authority).

(** The authority of a state is reached from the configured one by signed rotations. *)
Definition chained (st : PState) : Prop := rotate_chain boot (ps_rotations st) = Ok (ps_authority st).
Definition rooted (trust : NameTrust) : Prop :=
  match trust with
  | TrustMemory s => chained (st_state s)
  | TrustPersistent authority _ _ => authority = boot
  end.

Lemma chained_commit s next update io :
  chained (st_state s) -> chained next -> chained (st_state (PolicyStore_commit s next update io).1).
Proof. intros. by destruct (commit_state s next update io) as [-> | ->]. Qed.

Lemma chained_rotation s receipt now io :
  chained (st_state s) -> chained (st_state (apply_rotation s receipt now io).1).
Proof.
  intros C. unfold apply_rotation. destruct (check_clock s now) as [[]|]; [|done].
  case_bool_decide; [done|]. destruct (MAX_ROTATIONS <=? _); [done|].
  destruct (SignedRotation_verify_at _ _ _) as [p|] eqn:Ev; [|done].
  apply chained_commit; [done|]. unfold chained, rotate_chain in *. simpl. rewrite try_fold_app, C. simpl.
  by rewrite (verify_at_committed _ _ _ _ Ev).
Qed.

Lemma chained_rotations receipts s now io s' r :
  chained (st_state s) -> apply_rotations s receipts now io = (s', r) -> chained (st_state s').
Proof.
  revert s. induction receipts as [|receipt receipts IH]; intros s C H; simpl in H; [by injection H as <- <-|].
  pose proof (chained_rotation s receipt now (io receipt) C) as C'.
  destruct (apply_rotation _ _ _ _) as [s1 [[]|e]]; [by apply (IH s1)|by injection H as <- <-].
Qed.

(** Whatever a file holds, a store that opens is rooted in the configured authority. *)
Lemma chained_open r_open r_read r_init r_write r_seal now s :
  PolicyStore_open r_open r_read r_init r_write r_seal boot now = Ok s -> chained (st_state s).
Proof.
  unfold PolicyStore_open. destruct r_open; [|done]. destruct (PolicyStore_memory boot) as [m|] eqn:Em; [|done].
  destruct r_read as [[b|]|]; [| |done].
  - destruct (json_from_slice b) as [env|]; [|done]. cbn [map_err]. destruct (policy_digest _); [|done].
    destruct (negb _); [done|]. destruct (validate _ boot) as [sum|] eqn:V; [|done].
    destruct (check_clock _ _); [|done]. apply validate_ok in V.
    destruct r_init as [[]|]; [| |done]; [|destruct r_seal; [|done]]; intros [= <-]; apply (va_chain _ _ _ V).
  - destruct r_init as [[]|]; [done| |done]. destruct (policy_encode _); [|done]. destruct r_write; [|done].
    destruct r_seal; [|done]. intros [= <-]. simpl. unfold PolicyStore_memory in Em.
    destruct (Authority_verifying_key boot); [|done]. by injection Em as <-.
Qed.

(** A name binding that an authority of the chain signed for this name. *)
Definition bound_by (proof : SignedNameBinding) (name : bytes) (now : Reading) (key : EndpointKey) : Prop :=
  exists receipts authority p, rotate_chain boot receipts = Ok authority
    /\ SignedNameBinding_verify proof (au_key authority) name (as_secs (rd_wall now)) = Ok p
    /\ sm_authority (nbp_stamp p) = authority /\ nbp_key p = key.

Lemma name_decision_verified s snap name now p next :
  name_decision s snap name now = Ok (p, next) ->
  SignedNameBinding_verify snap (au_key (ps_authority (st_state s))) name (as_secs (rd_wall now)) = Ok p
  /\ sm_authority (nbp_stamp p) = ps_authority (st_state s).
Proof.
  unfold name_decision. destruct (check_clock s now); [|done].
  destruct (Authority_verifying_key _) as [key|] eqn:Ek; [|done].
  pose proof (proj1 (Authority_verifying_key_ok _ _) Ek) as (-> & _ & _).
  destruct (SignedNameBinding_verify _ _ _ _) as [q|] eqn:V; [|done].
  destruct (check_stamp _ _) as [[]|] eqn:Cs; [|done]. apply check_stamp_ok in Cs. intros Hd.
  assert (q = p) as ->; [|done]. destruct (ps_names _) as [names|]; [|by inv_all; simplify_eq].
  destruct (SignedNameBinding_verify_committed _ _) as [old|]; [|done].
  by repeat (case_match; simplify_eq; try done).
Qed.

Lemma accept_binding_ok s proof name now io s' r :
  chained (st_state s) -> accept_binding s proof name now io = (s', r) ->
  chained (st_state s') /\ forall key, r = Ok key -> bound_by proof name now key
    /\ exists after, ai_after io = Ok after /\ check_name_lease s' after = Ok tt.
Proof.
  intros C H. unfold accept_binding, accept_name in H.
  destruct (name_decision s proof name now) as [[p next]|] eqn:D; [|by injection H as <- <-].
  pose proof (name_decision_verified _ _ _ _ _ _ D) as [V St].
  assert (Bd : bound_by proof name now (nbp_key p)).
  { by exists (ps_rotations (st_state s)), (ps_authority (st_state s)), p. }
  destruct next as [[names lease]|].
  - match type of H with context [PolicyStore_commit ?a ?n ?u ?i] =>
      pose proof (chained_commit a n u i C C) as C'; destruct (PolicyStore_commit a n u i) as [s1 [u1|]] end;
      injection H as <- <-; (split; [done|]); [|done].
    intros key E. destruct (ai_after io) as [after|]; [|done].
    destruct (check_name_lease s1 after) as [[]|] eqn:Cl; [|done]. injection E as <-. eauto.
  - injection H as <- <-. split; [done|]. intros key E. destruct (ai_after io) as [after|]; [|done].
    destruct (check_name_lease s after) as [[]|] eqn:Cl; [|done]. injection E as <-. eauto.
Qed.

Lemma trust_accept_ok trust proof name io trust' left r :
  rooted trust -> trust_accept trust proof name io = (trust', left, r) ->
  rooted trust' /\ forall key, r = Ok key -> exists now after s, ai_now io = Ok now
    /\ bound_by proof name now key /\ ai_after io = Ok after /\ check_name_lease s after = Ok tt.
Proof.
  intros C H. unfold trust_accept in H. destruct (ai_now io) as [now|]; [|by injection H as <- <- <-].
  destruct trust as [s|authority path rotations]; simpl in C.
  - destruct (ai_poisoned io); [by injection H as <- <- <-|].
    destruct (accept_binding _ _ _ _ _) as [s1 r1] eqn:A. injection H as <- <- <-.
    destruct (accept_binding_ok _ _ _ _ _ _ _ C A) as [C1 R]. split; [done|]. intros key E.
    destruct (R key E) as (Bd & after & Ea & L). by exists now, after, s1.
  - subst authority. destruct (PolicyStore_open _ _ _ _ _ _ _) as [s|] eqn:O; [|by injection H as <- <- <-].
    apply chained_open in O. destruct (apply_rotations _ _ _ _) as [s1 [[]|]] eqn:Ar; [|by injection H as <- <- <-].
    apply chained_rotations in Ar; [|done]. destruct (accept_binding _ _ _ _ _) as [s2 r1] eqn:A.
    injection H as <- <- <-. destruct (accept_binding_ok _ _ _ _ _ _ _ Ar A) as [C1 R]. split; [done|].
    intros key E. destruct (R key E) as (Bd & after & Ea & L). by exists now, after, s2.
Qed.

Lemma accept_loop_ok ios trust proof name trust' r :
  rooted trust -> accept_loop trust proof name ios = (trust', r) ->
  rooted trust' /\ forall key, r = Ok key -> exists io now after s, io ∈ ios /\ ai_now io = Ok now
    /\ bound_by proof name now key /\ ai_after io = Ok after /\ check_name_lease s after = Ok tt.
Proof.
  revert trust. induction ios as [|io ios IH]; intros trust C H; simpl in H; [by injection H as <- <-|].
  destruct (trust_accept _ _ _ _) as [[t1 left] r1] eqn:A. destruct (trust_accept_ok _ _ _ _ _ _ _ C A) as [C1 R].
  assert (H' : (trust', r) = (t1, r1) \/ accept_loop t1 proof name ios = (trust', r)).
  { destruct r1 as [|[]]; try (by left); by right. }
  destruct H' as [[= -> ->]|H'].
  - split; [done|]. intros key E. destruct (R key E) as (now & after & s & Q). exists io, now, after, s.
    split; [by left|done].
  - destruct (IH _ C1 H') as [C2 R2]. split; [done|]. intros key E.
    destruct (R2 key E) as (io' & now & after & s & Hi & Q). exists io', now, after, s. split; [by right|done].
Qed.

(** C39: A name resolves only to a key that the configured authority, or one that signed rotations
    lead to from it, bound to this very name, at a time the binding covers and with a lease
    that still holds when the answer is used.  The directory that answered is not trusted,
    whatever it sends and whatever the policy file holds, and the client stays rooted in the
    same authority. *)
Theorem resolved_name_chain {W} (exchange : W -> bytes -> W * bytes) cl name io ios w w' cl' key trust :
  cl_name_trust cl = Some trust -> rooted trust ->
  resolve_name error_text exchange cl name io ios w = (w', cl', Ok key) ->
  valid_name name = true /\ (exists trust', cl_name_trust cl' = Some trust' /\ rooted trust')
  /\ exists proof io' now after s, io' ∈ ios /\ ai_now io' = Ok now /\ bound_by proof name now key
       /\ ai_after io' = Ok after /\ check_name_lease s after = Ok tt.
Proof.
  intros Et C H. unfold resolve_name in H. destruct (valid_name name); [|done]. simpl in H. rewrite Et in H.
  destruct (request _ _ _ _ _ _ _) as [w1 r1]. destruct (let? resp := r1 in _) as [proof|]; [|done].
  destruct (accept_loop _ _ _ _) as [t1 r2] eqn:A. injection H as <- <- ->.
  destruct (accept_loop_ok _ _ _ _ _ _ C A) as [C1 R]. split; [done|]. split; [by exists t1|].
  destruct (R key eq_refl) as (io' & now & after & s & Q). by exists proof, io', now, after, s.
Qed.
End Names.

(** ** Witnesses *)

(** RFC 4648, bit by bit. *)
Module ToyBase32.
Definition letter (a b c d e : bool) : ascii :=
  let v := 16 * Z.b2z a + 8 * Z.b2z b + 4 * Z.b2z c + 2 * Z.b2z d + Z.b2z e in
  ascii_of_N (Z.to_N (if v <? 26 then 65 + v else 24 + v)).
Definition letter_bits (c : ascii) : list bool :=
  let v := if between 65 90 c then byte_val c - 65 else byte_val c - 24 in
  [Z.testbit v 4; Z.testbit v 3; Z.testbit v 2; Z.testbit v 1; Z.testbit v 0].
Definition byte_bits (c : ascii) : list bool :=
  let '(Ascii a b c d e f g h) := c in [a; b; c; d; e; f; g; h].
Fixpoint encode_bits (l : list bool) : bytes :=
  match l with
  | [] => []
  | [a] => [letter a false false false false]
  | [a; b] => [letter a b false false false]
  | [a; b; c] => [letter a b c false false]
  | [a; b; c; d] => [letter a b c d false]
  | a :: b :: c :: d :: e :: l => letter a b c d e :: encode_bits l
  end.
Fixpoint decode_bits (l : list bool) : bytes :=
  match l with
  | a :: b :: c :: d :: e :: f :: g :: h :: l => Ascii a b c d e f g h :: decode_bits l
  | _ => []
  end.
Definition base32 : Base32 := {|
  base32_encode b := encode_bits (b ≫= byte_bits);
  base32_decode s := Some (decode_bits (s ≫= letter_bits))
|}.

Lemma letter_bits_letter a b c d e : letter_bits (letter a b c d e) = [a; b; c; d; e].
Proof. destruct a, b, c, d, e; reflexivity. Qed.
Lemma letter_char a b c d e : base32_char (letter a b c d e) = true.
Proof. destruct a, b, c, d, e; reflexivity. Qed.

(** Induction five bits at a time. *)
Lemma five_ind (P : list bool -> Prop) :
  P [] -> (forall a, P [a]) -> (forall a b, P [a; b]) -> (forall a b c, P [a; b; c]) ->
  (forall a b c d, P [a; b; c; d]) -> (forall a b c d e l, P l -> P (a :: b :: c :: d :: e :: l)) ->
  forall l, P l.
Proof.
  intros P0 P1 P2 P3 P4 P5 l. induction l as [l IH] using (induction_ltof1 _ (@length bool)).
  destruct l as [|a [|b [|c [|d [|e l]]]]]; auto. apply P5, IH. unfold ltof. simpl. lia.
Qed.

Lemma encode_bits_back l : exists pad, (length pad < 5)%nat /\ encode_bits l ≫= letter_bits = l ++ pad.
Proof.
  induction l as [|a|a b|a b c|a b c d|a b c d e l [pad [Hp IH]]] using five_ind; cbn [encode_bits].
  1: exists []; split; [simpl; lia|done].
  1: exists [false; false; false; false].
  2: exists [false; false; false].
  3: exists [false; false].
  4: exists [false].
  1-4: split; [simpl; lia|]; by rewrite bind_cons, letter_bits_letter.
  exists pad. split; [done|]. rewrite bind_cons, letter_bits_letter, IH. done.
Qed.
Lemma decode_bits_back b pad : (length pad < 5)%nat -> decode_bits ((b ≫= byte_bits) ++ pad) = b.
Proof.
  intros Hp. induction b as [|[] b IH].
  - destruct pad as [|? [|? [|? [|? [|]]]]]; try done. simpl in Hp. lia.
  - rewrite bind_cons. cbn [byte_bits app decode_bits]. by rewrite IH.
Qed.
Lemma encode_bits_chars l : forallb base32_char (encode_bits l) = true.
Proof.
  induction l as [|a|a b|a b c|a b c d|a b c d e l IH] using five_ind; cbn [encode_bits forallb];
    rewrite ?letter_char; done.
Qed.
Lemma encode_bits_length n l : length l = (5 * n + 1)%nat -> length (encode_bits l) = S n.
Proof.
  revert l. induction n as [|n IH]; intros l Hl.
  - by destruct l as [|a [|]].
  - destruct l as [|a [|b [|c [|d [|e l]]]]]; simpl in Hl; try lia. cbn [encode_bits length]. rewrite IH; lia.
Qed.
Lemma byte_bits_length b : length (b ≫= byte_bits) = (8 * length b)%nat.
Proof. induction b as [|[] b IH]; [done|]. rewrite bind_cons, length_app, IH. simpl. lia. Qed.

Lemma base32_laws : @Base32Laws base32.
Proof.
  split; simpl.
  - intros b. f_equal. destruct (encode_bits_back (b ≫= byte_bits)) as (pad & Hp & ->). by apply decode_bits_back.
  - intros b. apply encode_bits_chars.
  - intros b L. apply (encode_bits_length 51). rewrite byte_bits_length, L. done.
Qed.
End ToyBase32.

(** A directory that holds one published record. *)
Module LookupWitness.
Import StoreWitness.
#[local] Existing Instance w_ed.
#[local] Existing Instance w_blake.
#[local] Existing Instance w_z.
#[local] Existing Instance w_payload.
#[local] Existing Instance w_delete.
#[local] Existing Instance w_entry.
#[local] Existing Instance w_entry_total.
#[local] Instance l_url : UrlLibrary := fun _ =>
  Some (mkUrl (bs "http") [] None (Some (HostIpv4 (V4 127 0 0 1))) None (Some 80) (bs "/") None None).
#[local] Instance l_rustls : Rustls :=
  {| pem_certificates _ := Err ""%string; pem_private_key _ := Err ""%string; root_add _ := Ok tt;
     protocol_versions := Ok tt; single_cert _ _ := Ok tt; server_name _ := Ok tt |}.
#[local] Instance l_base32 : Base32 := ToyBase32.base32.
#[local] Instance l_base32_laws : Base32Laws := ToyBase32.base32_laws.
#[local] Instance l_body : JsonBody := fun _ => Some (bs "{}").

#[local] Instance record_countable : Countable EndpointRecord.
Proof.
  apply (inj_countable' (fun r => (er_key r, er_payload r, er_signature r))
    (fun '(k, p, g) => mkEndpointRecord k p g)). by intros [].
Defined.
#[local] Instance tomb_countable : Countable DeleteRequest.
Proof.
  apply (inj_countable' (fun r => (dr_key r, dr_payload r, dr_signature r))
    (fun '(k, p, g) => mkDeleteRequest k p g)). by intros [].
Defined.

(** JSON for values whose key is an array of 32 bytes. *)
Definition keyed_json {A} `{Countable A} (key_of : A -> bytes) : SerdeJson A := {|
  json_to_vec a := if bool_decide (length (key_of a) = 32%nat) then Ok (pos_bytes (encode a)) else Err "key"%string;
  json_from_slice b :=
    match countable_take b with
    | Ok (a, _) => if bool_decide (length (key_of a) = 32%nat) then Ok a else Err "key"%string
    | Err e => Err e
    end
|}.
Lemma keyed_json_laws {A} `{Countable A} (key_of : A -> bytes) : @SerdeJsonLaws A (keyed_json key_of).
Proof.
  intros a b Q. simpl in *. case_bool_decide as L; [|done]. injection Q as <-.
  rewrite <-(app_nil_r (pos_bytes _)), countable_take_bytes. by rewrite bool_decide_eq_true_2.
Qed.
Lemma keyed_json_length {A} `{Countable A} (key_of : A -> bytes) b a :
  @json_from_slice A (keyed_json key_of) b = Ok a -> length (key_of a) = 32%nat.
Proof.
  simpl. destruct (countable_take b) as [[a' r]|]; [|done]. case_bool_decide as L; [|done]. by intros [= <-].
Qed.
#[local] Instance l_record_json : SerdeJson EndpointRecord := keyed_json er_key.
#[local] Instance l_tomb_json : SerdeJson DeleteRequest := keyed_json dr_key.
#[local] Instance l_record_laws : SerdeJsonLaws EndpointRecord := keyed_json_laws er_key.
#[local] Instance l_tomb_laws : SerdeJsonLaws DeleteRequest := keyed_json_laws dr_key.
#[local] Instance l_record_total : RecordJson.
Proof. intros r L. simpl. rewrite bool_decide_eq_true_2 by done. by eexists. Qed.
#[local] Instance l_keys : JsonKeys.
Proof. split; intros; by eapply keyed_json_length. Qed.

Definition no_postcard {A} : Postcard A := {| to_stdvec _ := Err "none"%string; take_from_bytes _ := Err "none"%string |}.
Definition no_json {A} : SerdeJson A := {| json_to_vec _ := Err "none"%string; json_from_slice _ := Err "none"%string |}.
#[local] Instance l_revocations : Postcard RevocationPayload := no_postcard.
#[local] Instance l_registry : Postcard RegistryPayload := no_postcard.
#[local] Instance l_binding : Postcard NameBindingPayload := no_postcard.
#[local] Instance l_rotation : Postcard RotationPayload := no_postcard.
#[local] Instance l_state : Postcard PState := no_postcard.
#[local] Instance l_envelope : SerdeJson Envelope := no_json.
#[local] Instance l_registry_json : SerdeJson SignedRegistry := no_json.
#[local] Instance l_revocations_json : SerdeJson SignedRevocations := no_json.
#[local] Instance l_names_json : SerdeJson SignedNameBinding := no_json.

Definition no_text (b : bytes) : string := ""%string.
Definition client : Client := Client_new (mkSock (V4 127 0 0 1) 0 80).
Definition env_at (t : Reading) : ReqEnv (result Reading DiscoveryError) := mkReqEnv (Ok t) (Ok t) 0 IoDone.
Definition dir0 : DirState MemoryStore :=
  mkDir MemoryStore_default None Limits_default (Limiter_default 0) (mkEnrollment {[ key ]} false) Metrics_default.
Definition published : DirState MemoryStore * result unit DiscoveryError :=
  publish no_text (directory WorkerRan (env_at t0)) client record net_fine dir0.
Definition collected : DirState MemoryStore := service_run published.1 [EvCollect (env_at t1)].
Definition fetched : DirState MemoryStore * result EndpointRecord DiscoveryError :=
  fetch no_text (directory WorkerRan (env_at t1)) client key net_fine collected.

Lemma dir0_ok : dir_ok dir0.
Proof. by split. Qed.
Lemma env_known t : 0 <= rd_wall t -> wall_known (env_at t).
Proof. by intros W n [= <-]. Qed.
Lemma published_done : publish no_text (directory WorkerRan (env_at t0)) client record net_fine dir0 = (published.1, Ok tt).
Proof. vm_compute. reflexivity. Qed.
Lemma fetched_done : fetch no_text (directory WorkerRan (env_at t1)) client key net_fine collected = (fetched.1, Ok record).
Proof. vm_compute. reflexivity. Qed.

(** A record published by one client is fetched by another after a collection. *)
Lemma fetched_never_older_witness :
  exists now p rev i x g g', re_store (env_at t1) = Ok now
    /\ entry_details (RecRecord record) key = Ok (rev, i, x)
    /\ entry_digest (RecRecord record) = Ok g /\ EndpointRecord_verify record = Ok p /\ pl_key p = key
    /\ pl_issued_at p <= as_secs (rd_wall now) < pl_expires_at p
    /\ enrollment_allows (ds_enrollment dir0) key = true
    /\ entry_digest (RecRecord record) = Ok g' /\ later rev g (pl_revision p) g'.
Proof.
  apply (fetched_never_older no_text dir0 published.1 key (RecRecord record) [EvCollect (env_at t1)] client
           net_fine WorkerRan (env_at t1) fetched.1 record dir0_ok).
  - exact (SendsPublish no_text dir0 published.1 client record net_fine WorkerRan (env_at t0)
             (env_known t0 ltac:(done)) published_done).
  - constructor; [exact (env_known t1 ltac:(done))|constructor].
  - exact (env_known t1 ltac:(done)).
  - exact fetched_done.
Defined.

Definition wire_of (r : result bytes DiscoveryError) : bytes := match r with Ok b => b | Err _ => [] end.
Definition put_body : bytes := match json_to_vec record with Ok b => b | Err _ => [] end.
Definition put_wire : bytes :=
  wire_of (write_request_with_host (cl_authority client) (bs "PUT") (bs "/v1/records") put_body).
Definition put_served : DirState MemoryStore * option bytes := serve_request dir0 put_wire WorkerRan (env_at t0).
Lemma put_wire_done :
  write_request_with_host (cl_authority client) (bs "PUT") (bs "/v1/records") put_body = Ok put_wire.
Proof. vm_compute. reflexivity. Qed.
Lemma put_charged : ds_limiter put_served.1 <> ds_limiter dir0.
Proof.
  intros Q. assert (N : bool_decide (lm_writers (ds_limiter put_served.1) = lm_writers (ds_limiter dir0)) = false)
    by (vm_compute; reflexivity).
  apply bool_decide_eq_false in N. apply N. by rewrite Q.
Qed.

(** The publication was charged to its publisher. *)
Lemma charges_only_verified_witness :
  exists req, (read_request put_wire).1 = Ok (Some req) /\ WorkerRan = WorkerRan
  /\ (policy_commits dir0 req (env_at t0)
      \/ exists key e rev i x, asks req key e /\ enrollment_allows (ds_enrollment dir0) key = true
           /\ entry_details e key = Ok (rev, i, x)
           /\ forall o rev' g, dir_catalog dir0 !! key = Some o -> binds key o rev' g -> rev' < rev).
Proof.
  exact (charges_only_verified dir0 put_wire WorkerRan (env_at t0) put_served.1 put_served.2 dir0_ok
    (env_known t0 ltac:(done)) (surjective_pairing _) put_charged).
Defined.

(** The client of that publication reads the answer of the service. *)
Lemma exchange_exact_witness :
  request (directory WorkerRan (env_at t0)) client (bs "PUT") (bs "/v1/records") put_body net_fine dir0
  = let '(st', resp) := answer WorkerRan (env_at t0) dir0 (mkRequest (bs "PUT") (bs "/v1/records") put_body) in
    (st', match write_response resp with Ok _ => Ok resp | Err _ => Err (http_bad "empty response") end).
Proof.
  exact (exchange_exact client (bs "PUT") (bs "/v1/records") put_body net_fine WorkerRan (env_at t0) dir0 put_wire
    eq_refl eq_refl put_wire_done).
Defined.
End LookupWitness.

(** A name resolved against the authority of [Policy]'s witnesses. *)
Module NameWitness.
#[local] Existing Instance wa_ed.
#[local] Existing Instance wa_hash.
#[local] Existing Instance wa_codec_binding.
#[local] Existing Instance wa_codec_registry.
#[local] Existing Instance wa_codec_revocations.
#[local] Existing Instance wp_codec_rotation.
#[local] Existing Instance wp_codec_state.
#[local] Existing Instance wp_json.
#[local] Existing Instance LookupWitness.l_url.
#[local] Existing Instance LookupWitness.l_rustls.
#[local] Instance n_json : SerdeJson SignedNameBinding := toy_json_table [(wp_proof, bs "{}")].

Definition client : Client := set_name_trust LookupWitness.client (TrustMemory wp_memory).
Definition answer_bytes (w : unit) (wire : bytes) : unit * bytes :=
  (w, LookupWitness.wire_of (write_response (mkResponse 200 (bs "{}")))).
Definition accept_io : AcceptIo :=
  mkAcceptIo (Ok wp_now) (Ok wp_now) false (Ok tt) (Ok None) (Ok false) (Ok tt) (Ok tt) (fun _ => IoDone) IoDone.
Definition resolved : unit * Client * result EndpointKey DiscoveryError :=
  resolve_name LookupWitness.no_text answer_bytes client (bs "host") net_fine [accept_io] tt.
Definition resolved_key : EndpointKey := match resolved.2 with Ok k => k | Err _ => [] end.
Lemma resolved_done :
  resolve_name LookupWitness.no_text answer_bytes client (bs "host") net_fine [accept_io] tt
  = (tt, resolved.1.2, Ok resolved_key).
Proof. vm_compute. reflexivity. Qed.

Lemma resolved_name_chain_witness :
  valid_name (bs "host") = true
  /\ (exists trust', cl_name_trust resolved.1.2 = Some trust' /\ rooted wp_boot trust')
  /\ exists proof io' now after s, io' ∈ [accept_io] /\ ai_now io' = Ok now
       /\ bound_by wp_boot proof (bs "host") now resolved_key
       /\ ai_after io' = Ok after /\ check_name_lease s after = Ok tt.
Proof.
  exact (resolved_name_chain LookupWitness.no_text wp_boot answer_bytes client (bs "host") net_fine [accept_io] tt
    tt resolved.1.2 resolved_key (TrustMemory wp_memory) eq_refl eq_refl resolved_done).
Defined.
End NameWitness.
