(* ===== verification/Directory.v ===== *)
(** * Directory snapshots

    Models [src/crates/rds-sync/src/directory.rs]: entries with their canonical paths,
    the canonical, hashed manifest of a directory tree, its verification, and the
    difference of two manifests with rename detection. *)

From S2P Require Import Prelude Slices Paths Crypto.

Definition MAX_DIRECTORY_ENTRIES : Z := 2 ^ 20.
Definition MAX_SYMLINK_TARGET_BYTES : Z := 4096.
Definition MAX_DIRECTORY_PATH_BYTES : Z := MAX_REL_PATH.
Definition MAX_DIRECTORY_DATA_BYTES : Z := 64 * 1024 * 1024.
Definition MAX_DIRECTORY_DEPTH : Z := 64.

(** ** Entries *)

Inductive EntryKind : Type := EkFile | EkDirectory | EkSymlink.

Record DirectoryEntry : Type := mkEntry {
  de_path : bytes;
  de_kind : EntryKind;
  de_size : Z;
  de_content : option bytes;
  de_symlink_target : option bytes
}.

(** Everything but the path. *)
Record EntryIdentity : Type := mkIdentity {
  ei_kind : EntryKind;
  ei_size : Z;
  ei_content : option bytes;
  ei_symlink_target : option bytes
}.

#[export] Instance EntryKind_eq_dec : EqDecision EntryKind.
Proof. solve_decision. Defined.
#[export] Instance DirectoryEntry_eq_dec : EqDecision DirectoryEntry.
Proof. solve_decision. Defined.
#[export] Instance EntryIdentity_eq_dec : EqDecision EntryIdentity.
Proof. solve_decision. Defined.

#[export] Instance EntryKind_countable : Countable EntryKind.
Proof.
  refine (inj_countable'
    (fun k => match k with EkFile => 0%nat | EkDirectory => 1%nat | EkSymlink => 2%nat end)
    (fun n => match n with O => EkFile | 1%nat => EkDirectory | _ => EkSymlink end) _).
  by intros [].
Defined.
#[export] Instance EntryIdentity_countable : Countable EntryIdentity.
Proof.
  refine (inj_countable'
    (fun i => (ei_kind i, ei_size i, ei_content i, ei_symlink_target i))
    (fun t => let '(k, s, c, l) := t in mkIdentity k s c l) _).
  by intros [].
Defined.

Definition entry_identity (e : DirectoryEntry) : EntryIdentity :=
  mkIdentity (de_kind e) (de_size e) (de_content e) (de_symlink_target e).

(** [DirectoryEntry::validate]. *)
Definition entry_validate (e : DirectoryEntry) : result unit SyncError :=
  if bool_decide (de_path e = []) || (MAX_DIRECTORY_PATH_BYTES <? zlen (de_path e))
  then Err (ManifestErr "directory entry path exceeds the configured limit") else
  let? normalized := check_rel_path (de_path e) in
  if negb (bool_decide (normalized = de_path e)) || contains_byte "\"%char (de_path e)
  then Err (ManifestErr "directory entry path is not canonical") else
  match de_kind e with
  | EkFile =>
      if is_none (de_content e) || is_some (de_symlink_target e)
      then Err (ManifestErr "file entry identity is incomplete") else Ok tt
  | EkDirectory =>
      if negb (de_size e =? 0) || is_some (de_content e) || is_some (de_symlink_target e)
      then Err (ManifestErr "directory entry carries file data") else Ok tt
  | EkSymlink =>
      if negb (de_size e =? 0) || is_some (de_content e)
         || is_none_or (de_symlink_target e)
              (fun target => bool_decide (target = []) || (MAX_SYMLINK_TARGET_BYTES <? zlen target))
      then Err (ManifestErr "symlink entry target is invalid") else Ok tt
  end.

(** Path and target bytes of an entry, as the budgets count them. *)
Definition entry_bytes (e : DirectoryEntry) : Z :=
  zlen (de_path e) + match de_symlink_target e with Some t => zlen t | None => 0 end.

(** [validate_entries]; [usize] sums saturate. *)
Definition validate_step (total : Z) (e : DirectoryEntry) : result Z SyncError :=
  let? _ := entry_validate e in
  let total := sat_add64 (sat_add64 total (zlen (de_path e)))
                 (match de_symlink_target e with Some t => zlen t | None => 0 end) in
  if MAX_DIRECTORY_DATA_BYTES <? total
  then Err (ManifestErr "directory metadata byte budget exceeded") else Ok total.

Definition validate_entries (entries : list DirectoryEntry) : result unit SyncError :=
  if MAX_DIRECTORY_ENTRIES <? zlen entries
  then Err (ManifestErr "directory manifest too large") else
  let? _ := try_fold validate_step 0 entries in Ok tt.

(** [path.rsplit_once('/')]: the part before the last separator. *)
Definition path_parent (path : bytes) : option bytes :=
  match rev (split_on is_slash path) with
  | _ :: ((_ :: _) as before) => Some (join "/" (rev before))
  | _ => None
  end.

Definition depth (path : bytes) : Z := zlen (split_on is_slash path).

(** [validate_hierarchy]. *)
Definition validate_parent (entries : list DirectoryEntry) (e : DirectoryEntry)
    : result unit SyncError :=
  let? _ :=
    (match path_parent (de_path e) with
     | Some parent =>
         match binary_search_by (fun c => bytes_compare (de_path c) parent) entries with
         | Err _ => Err (ManifestErr "directory entry parent is absent")
         | Ok index =>
             match entries !! index with
             | Some p => if bool_decide (de_kind p = EkDirectory) then Ok tt
                         else Err (ManifestErr "directory entry parent is not a directory")
             | None => Err (ManifestErr "directory entry parent is absent")
             end
         end
     | None => Ok tt
     end) in
  if MAX_DIRECTORY_DEPTH <? depth (de_path e)
  then Err (ManifestErr "directory nesting limit exceeded") else Ok tt.

Definition validate_hierarchy (entries : list DirectoryEntry) : result unit SyncError :=
  try_for_each (validate_parent entries) entries.

(** ** Manifests *)

Record DirectoryManifest : Type := mkManifest {
  dm_root : bytes;
  dm_entries : list DirectoryEntry
}.

#[export] Instance DirectoryManifest_eq_dec : EqDecision DirectoryManifest.
Proof. solve_decision. Defined.

Definition entry_le (a b : DirectoryEntry) : Prop := bytes_le (de_path a) (de_path b).
Definition entry_lt (a b : DirectoryEntry) : Prop := bytes_lt (de_path a) (de_path b).

#[export] Instance entry_le_dec : RelDecision entry_le.
Proof. intros a b. unfold entry_le. apply _. Defined.
#[export] Instance entry_lt_dec : RelDecision entry_lt.
Proof. intros a b. unfold entry_lt. apply _. Defined.
#[export] Instance entry_le_Total : Total entry_le.
Proof. intros a b. apply (total bytes_le). Qed.
#[export] Instance entry_le_trans : Transitive entry_le.
Proof. intros a b c. unfold entry_le. apply transitivity. Qed.
#[export] Instance entry_lt_trans : Transitive entry_lt.
Proof. intros a b c. unfold entry_lt. apply transitivity. Qed.

(** [u64::to_le_bytes]. *)
Fixpoint le_bytes (k : nat) (n : Z) : bytes :=
  match k with
  | O => []
  | S k => ascii_of_N (Z.to_N (n mod 256)) :: le_bytes k (n / 256)
  end.

(** A [BTreeMap<&str, &DirectoryEntry>] by path. *)
Definition entry_map (entries : list DirectoryEntry) : gmap bytes DirectoryEntry :=
  btree_collect ((fun e => (de_path e, e)) <$> entries).

(** [BTreeMap::values]. *)
Definition map_values (m : gmap bytes DirectoryEntry) : list DirectoryEntry :=
  (btree_items m).*2.

Section WithLibraries.
  Context `{Blake3, Postcard DirectoryEntry}.

Definition digest_entries (entries : list DirectoryEntry) : result bytes SyncError :=
  let? encoded := try_map (fun e =>
    match to_stdvec e with
    | Ok b => Ok (le_bytes 8 (zlen b) ++ b)
    | Err _ => Err (ManifestErr "directory entry cannot be encoded")
    end) entries in
  Ok (blake3_hash (concat encoded)).

(** [DirectoryManifest::from_entries]. *)
Definition from_entries (entries : list DirectoryEntry) : result DirectoryManifest SyncError :=
  if MAX_DIRECTORY_ENTRIES <? zlen entries
  then Err (ManifestErr "directory manifest too large") else
  let? _ := validate_entries entries in
  let entries := merge_sort entry_le entries in
  if any_adjacent (fun a b => bool_decide (de_path a = de_path b)) entries
  then Err (ManifestErr "directory manifest contains duplicate paths") else
  let? _ := validate_hierarchy entries in
  let? root := digest_entries entries in
  Ok (mkManifest root entries).

(** [DirectoryManifest::verify]. *)
Definition manifest_verify (m : DirectoryManifest) : result unit SyncError :=
  let? _ := validate_entries (dm_entries m) in
  if any_adjacent (fun a b => bool_decide (bytes_le (de_path b) (de_path a))) (dm_entries m)
  then Err (ManifestErr "directory manifest is not canonical") else
  let? digest := digest_entries (dm_entries m) in
  if negb (bool_decide (digest = dm_root m))
  then Err (ManifestErr "directory manifest is not canonical") else
  validate_hierarchy (dm_entries m).

End WithLibraries.

(** ** Differences *)

Record Rename : Type := mkRename { rn_from : DirectoryEntry; rn_to : DirectoryEntry }.

Record DirectoryDiff : Type := mkDiff {
  df_added : list DirectoryEntry;
  df_removed : list DirectoryEntry;
  df_modified : list DirectoryEntry;
  df_unchanged : list DirectoryEntry;
  df_renamed : list Rename
}.

(** The first loop of [rename_candidates]: the indices of removed files and links by
    identity, each list in increasing order. *)
Fixpoint index_removed (index : nat) (removed : list DirectoryEntry)
    (by_identity : gmap EntryIdentity (list nat)) : gmap EntryIdentity (list nat) :=
  match removed with
  | [] => by_identity
  | e :: removed =>
      index_removed (S index) removed
        (if bool_decide (de_kind e = EkDirectory) then by_identity
         else <[entry_identity e := default [] (by_identity !! entry_identity e) ++ [index]]>
                by_identity)
  end.

(** The second loop: every added entry takes the last unused index of its identity.
    [None] is the panic of an index out of range. *)
Fixpoint match_added (removed added : list DirectoryEntry)
    (by_identity : gmap EntryIdentity (list nat)) (used : gset nat) (renamed : list Rename)
    : option (gset nat * list Rename) :=
  match added with
  | [] => Some (used, renamed)
  | e :: added =>
      match by_identity !! entry_identity e with
      | None => match_added removed added by_identity used renamed
      | Some indices =>
          match last indices with
          | None => match_added removed added by_identity used renamed
          | Some index =>
              match removed !! index with
              | None => None
              | Some from =>
                  match_added removed added
                    (<[entry_identity e := take (length indices - 1) indices]> by_identity)
                    ({[index]} ∪ used) (renamed ++ [mkRename from e])
              end
          end
      end
  end.

Definition rename_le (a b : Rename) : Prop := bytes_le (de_path (rn_to a)) (de_path (rn_to b)).
#[export] Instance rename_le_dec : RelDecision rename_le.
Proof. intros a b. unfold rename_le. apply _. Defined.

(** [rename_candidates]: the remaining added and removed entries and the renames. *)
Definition rename_candidates (added removed : list DirectoryEntry)
    : option (list DirectoryEntry * list DirectoryEntry * list Rename) :=
  match match_added removed added (index_removed 0 removed ∅) ∅ [] with
  | None => None
  | Some (used, renamed) =>
      let renamed_paths := list_to_set (C := gset bytes) ((de_path ∘ rn_to) <$> renamed) in
      Some (filter (fun e => ~ (de_path e ∈ renamed_paths)) added,
            (filter (fun ie : nat * DirectoryEntry => ~ (ie.1 ∈ used))
               (imap pair removed)).*2,
            merge_sort rename_le renamed)
  end.

(** One round of the loop over the new side: where the entry goes. *)
Definition classify (left : gmap bytes DirectoryEntry) (e : DirectoryEntry) : option bool :=
  match left !! de_path e with
  | None => None
  | Some previous => Some (bool_decide (entry_identity previous = entry_identity e))
  end.

(** [DirectoryManifest::diff] of verified manifests; [Ok None] is a panic. *)
Definition diff_entries (left_entries right_entries : list DirectoryEntry)
    : option DirectoryDiff :=
  let left := entry_map left_entries in
  let right := entry_map right_entries in
  let rights := map_values right in
  let added := filter (fun e => classify left e = None) rights in
  let unchanged := filter (fun e => classify left e = Some true) rights in
  let modified := filter (fun e => classify left e = Some false) rights in
  let removed := filter (fun e => right !! de_path e = None) (map_values left) in
  match rename_candidates added removed with
  | Some (added, removed, renamed) => Some (mkDiff added removed modified unchanged renamed)
  | None => None
  end.

Definition manifest_diff `{Blake3, Postcard DirectoryEntry} (self other : DirectoryManifest)
    : result (option DirectoryDiff) SyncError :=
  let? _ := manifest_verify self in
  let? _ := manifest_verify other in
  Ok (diff_entries (dm_entries self) (dm_entries other)).

(** ** Canonical lists of entries *)

#[export] Instance entry_lt_antisym : AntiSymm (=) entry_lt.
Proof.
  intros a b Hab Hba. exfalso. apply (irreflexivity bytes_lt (de_path a)).
  by transitivity (de_path b).
Qed.

Definition entry_total (l : list DirectoryEntry) : Z := foldr (fun e n => entry_bytes e + n) 0 l.

Lemma entry_bytes_nonneg e : 0 <= entry_bytes e.
Proof.
  unfold entry_bytes. pose proof (zlen_nonneg (de_path e)).
  destruct (de_symlink_target e) as [t|]; [pose proof (zlen_nonneg t)|]; lia.
Qed.

Lemma entry_total_nonneg l : 0 <= entry_total l.
Proof. induction l as [|e l IH]; simpl; [lia|]. pose proof (entry_bytes_nonneg e). lia. Qed.

Lemma entry_total_perm l k : l ≡ₚ k -> entry_total l = entry_total k.
Proof. induction 1; simpl; lia. Qed.

Lemma validate_step_ok n e k :
  0 <= n -> validate_step n e = Ok k <->
  entry_validate e = Ok tt /\ n + entry_bytes e <= MAX_DIRECTORY_DATA_BYTES /\ k = n + entry_bytes e.
Proof.
  intros Hn. unfold validate_step. destruct (entry_validate e) as [[]|]; [|naive_solver].
  pose proof (entry_bytes_nonneg e) as Hb. unfold entry_bytes in *.
  pose proof (zlen_nonneg (de_path e)).
  set (t := match de_symlink_target e with Some t => zlen t | None => 0 end) in *.
  assert (0 <= t) by (unfold t; destruct (de_symlink_target e) as [x|]; [apply zlen_nonneg|lia]).
  unfold sat_add64, u64_max, MAX_DIRECTORY_DATA_BYTES. destruct (_ <? _) eqn:E; b2p.
  - split; [done|]. intros (_ & ? & _). lia.
  - split; [intros [= <-]|intros (_ & ? & ->); f_equal]; [split; [done|]|]; lia.
Qed.

Lemma validate_fold_ok n l k :
  0 <= n <= MAX_DIRECTORY_DATA_BYTES -> try_fold validate_step n l = Ok k <->
  Forall (fun e => entry_validate e = Ok tt) l /\
  n + entry_total l <= MAX_DIRECTORY_DATA_BYTES /\ k = n + entry_total l.
Proof.
  revert n. induction l as [|e l IH]; intros n Hn; simpl.
  - split; [intros [= ->]|intros (_ & _ & ->); f_equal; lia].
    split; [constructor|]. lia.
  - rewrite Forall_cons. pose proof (entry_total_nonneg l). pose proof (entry_bytes_nonneg e).
    destruct (validate_step n e) as [m|x] eqn:Es.
    + apply validate_step_ok in Es as (He & Hm & ->); [|lia]. rewrite IH by lia.
      split; intros K; destruct_and!; split_and!; try done; try lia; tauto.
    + split; [done|]. intros ([He Hl] & Hm & _).
      assert (K : validate_step n e = Ok (n + entry_bytes e))
        by (apply validate_step_ok; [lia|]; split_and!; [done|lia|done]). congruence.
Qed.

Lemma validate_entries_ok l :
  validate_entries l = Ok tt <->
  zlen l <= MAX_DIRECTORY_ENTRIES /\ Forall (fun e => entry_validate e = Ok tt) l /\
  entry_total l <= MAX_DIRECTORY_DATA_BYTES.
Proof.
  unfold validate_entries. destruct (_ <? _) eqn:E; b2p.
  { split; [done|]. intros (? & _). lia. }
  assert (Hz : 0 <= 0 <= MAX_DIRECTORY_DATA_BYTES) by (unfold MAX_DIRECTORY_DATA_BYTES; lia).
  destruct (try_fold validate_step 0 l) as [k|x] eqn:Ef.
  - apply validate_fold_ok in Ef as (? & ? & _); [|done]. split; [|done]. intros _. split_and!; done.
  - split; [done|]. intros (_ & Hl & Ht).
    assert (K : try_fold validate_step 0 l = Ok (0 + entry_total l))
      by (apply validate_fold_ok; [done|]; split_and!; done). congruence.
Qed.

Lemma sorted_no_duplicates l :
  StronglySorted entry_le l ->
  any_adjacent (fun a b => bool_decide (de_path a = de_path b)) l = false <->
  StronglySorted entry_lt l.
Proof.
  intros Hs. split.
  - induction Hs as [|a l Hs IH Hf]; intros Ha; [constructor|].
    destruct l as [|b l]; [repeat constructor|]. rewrite any_adjacent_cons in Ha. b2p.
    destruct Ha as [Hab Ha]. specialize (IH Ha). constructor; [done|].
    apply Forall_cons in Hf as [Hle _].
    assert (Hlt : entry_lt a b) by (apply bytes_le_lt_eq in Hle as [?|?]; done).
    apply StronglySorted_inv in IH as [_ IH]. constructor; [done|].
    eapply Forall_impl; [exact IH|]. intros c Hc. by transitivity b.
  - intros Hlt. eapply any_adjacent_sorted_2; [|exact Hlt].
    intros a b K. apply bool_decide_eq_false_2. intros E. unfold entry_lt in K.
    rewrite E in K. by apply (irreflexivity bytes_lt (de_path b)).
Qed.

Lemma verify_sorted l :
  any_adjacent (fun a b => bool_decide (bytes_le (de_path b) (de_path a))) l = false <->
  StronglySorted entry_lt l.
Proof.
  split.
  - apply any_adjacent_sorted; [apply _|]. intros a b K. b2p. by apply bytes_not_le.
  - apply any_adjacent_sorted_2. intros a b K. apply bool_decide_eq_false_2. by apply bytes_not_le.
Qed.

Lemma sorted_paths_nodup l : StronglySorted entry_lt l -> NoDup (de_path <$> l).
Proof.
  induction 1 as [|a l Hs IH Hf]; csimpl; [constructor|].
  constructor; [|done]. intros (b & Eb & Hb)%list_elem_of_fmap. rewrite Forall_forall in Hf.
  specialize (Hf _ Hb). unfold entry_lt in Hf. rewrite Eb in Hf.
  by apply (irreflexivity bytes_lt (de_path b)).
Qed.

Lemma nodup_no_adjacent l :
  NoDup (de_path <$> l) ->
  any_adjacent (fun a b => bool_decide (de_path a = de_path b)) l = false.
Proof.
  induction l as [|a l IH]; [done|]. destruct l as [|b l]; [done|].
  csimpl. intros [Ha Hn]%NoDup_cons. apply orb_false_iff. split; [|by apply IH].
  apply bool_decide_eq_false_2. intros E. apply Ha. rewrite E. left.
Qed.

(** Sorting a permutation of a strictly sorted list gives that list. *)
Lemma sort_to l k : StronglySorted entry_lt k -> l ≡ₚ k -> merge_sort entry_le l = k.
Proof.
  intros Hs Hp. apply (StronglySorted_unique entry_lt); [|done|by rewrite merge_sort_Permutation].
  apply sorted_no_duplicates; [apply StronglySorted_merge_sort; apply _|].
  apply nodup_no_adjacent. rewrite merge_sort_Permutation, Hp. by apply sorted_paths_nodup.
Qed.

Section Canonical.
  Context `{Blake3, Postcard DirectoryEntry}.

Lemma manifest_verify_ok m :
  manifest_verify m = Ok tt <->
  validate_entries (dm_entries m) = Ok tt /\ StronglySorted entry_lt (dm_entries m) /\
  digest_entries (dm_entries m) = Ok (dm_root m) /\ validate_hierarchy (dm_entries m) = Ok tt.
Proof.
  unfold manifest_verify. rewrite <-verify_sorted.
  destruct (validate_entries _) as [[]|]; [|naive_solver].
  destruct (any_adjacent _ _); [naive_solver|].
  destruct (digest_entries _) as [d|]; [|naive_solver].
  case_bool_decide as E; simpl; [subst d|]; naive_solver.
Qed.

Lemma from_entries_ok l m :
  from_entries l = Ok m <->
  dm_entries m ≡ₚ l /\ manifest_verify m = Ok tt.
Proof.
  rewrite manifest_verify_ok. unfold from_entries. split.
  - destruct (_ <? _); [done|]. destruct (validate_entries l) as [[]|] eqn:E1; [|done].
    destruct (any_adjacent _ _) eqn:E2; [done|].
    destruct (validate_hierarchy _) as [[]|] eqn:E3; [|done].
    destruct (digest_entries _) as [d|] eqn:E4; [|done]. intros [= <-]. simpl.
    pose proof (merge_sort_Permutation entry_le l) as Hp.
    split; [done|]. split_and!; try done.
    + apply validate_entries_ok in E1 as (K1 & K2 & K3). apply validate_entries_ok.
      rewrite (zlen_Permutation _ _ Hp), (entry_total_perm _ _ Hp), Hp. done.
    + apply sorted_no_duplicates; [apply StronglySorted_merge_sort; apply _|done].
  - intros (Hp & K1 & K2 & K3 & K4). rewrite (sort_to l _ K2) by by symmetry.
    apply validate_entries_ok in K1 as (L1 & L2 & L3).
    assert (K1 : validate_entries l = Ok tt).
    { apply validate_entries_ok.
      by rewrite <-(zlen_Permutation _ _ Hp), <-(entry_total_perm _ _ Hp), <-Hp. }
    rewrite (zlen_Permutation _ _ Hp) in L1. rewrite (proj2 (Z.ltb_ge _ _) L1), K1.
    rewrite nodup_no_adjacent by by apply sorted_paths_nodup. rewrite K4, K3. by destruct m.
Qed.

(** A directory manifest is a canonical form.  [from_entries] accepts a list of
    entries exactly when some verified manifest holds the same entries; the result is
    that manifest, so it does not depend on the order in which a scanner saw them. *)
Theorem from_entries_canonical l m :
  from_entries l = Ok m <->
  manifest_verify m = Ok tt /\ dm_entries m ≡ₚ l.
Proof. rewrite from_entries_ok. tauto. Qed.

End Canonical.

(** ** Hierarchy *)

Lemma validate_parent_ok l e :
  StronglySorted entry_lt l ->
  validate_parent l e = Ok tt <->
  (forall parent, path_parent (de_path e) = Some parent ->
     exists d, d ∈ l /\ de_path d = parent /\ de_kind d = EkDirectory) /\
  depth (de_path e) <= MAX_DIRECTORY_DEPTH.
Proof.
  intros Hs. unfold validate_parent.
  destruct (MAX_DIRECTORY_DEPTH <? depth (de_path e)) eqn:Ed; b2p.
  { split; [|lia]. destruct (path_parent _) as [parent|]; [|done].
    destruct (binary_search_by _ _) as [i|]; [|done]. destruct (l !! i); [|done].
    by case_bool_decide. }
  destruct (path_parent (de_path e)) as [parent|] eqn:Ep; [|naive_solver].
  destruct (binary_search_by _ l) as [i|] eqn:Eb.
  - pose proof (binary_search_ok _ _ _ Eb) as (d & Hd & Hc). rewrite Hd.
    apply bytes_compare_eq in Hc. case_bool_decide as Hk; split; try done.
    + intros _. split; [|lia]. intros ? [= <-]. exists d. split; [|done].
      by eapply list_elem_of_lookup_2.
    + intros [Hp _]. destruct (Hp _ eq_refl) as (d' & Hd' & Hpath & Hk').
      destruct (binary_search_key de_path l parent Hs d' Hd' Hpath) as (j & Hj & Hlj).
      congruence.
  - split; [done|]. intros [Hp _]. destruct (Hp _ eq_refl) as (d & Hd & Hpath & _).
    destruct (binary_search_key de_path l parent Hs d Hd Hpath) as (j & Hj & _). congruence.
Qed.

(** A manifest is a tree.  On entries in canonical order the hierarchy check, with its
    binary search, passes exactly when the parent of every entry is an entry of kind
    directory and no path is nested deeper than the limit. *)
Theorem validate_hierarchy_tree l :
  StronglySorted entry_lt l ->
  validate_hierarchy l = Ok tt <->
  forall e, e ∈ l ->
    (forall parent, path_parent (de_path e) = Some parent ->
       exists d, d ∈ l /\ de_path d = parent /\ de_kind d = EkDirectory) /\
    depth (de_path e) <= MAX_DIRECTORY_DEPTH.
Proof.
  intros Hs. unfold validate_hierarchy. rewrite try_for_each_ok, Forall_forall.
  by setoid_rewrite (validate_parent_ok l _ Hs).
Qed.

(** ** Maps of entries *)

Lemma entry_pairs_sorted l :
  StronglySorted entry_lt l -> StronglySorted key_lt ((fun e => (de_path e, e)) <$> l).
Proof.
  induction 1 as [|a l Hs IH Hf]; csimpl; constructor; [done|].
  by apply Forall_fmap.
Qed.

Lemma entry_map_values l : StronglySorted entry_lt l -> map_values (entry_map l) = l.
Proof.
  intros Hs. unfold map_values, entry_map. rewrite btree_items_collect by by apply entry_pairs_sorted.
  rewrite <-list_fmap_compose. apply list_fmap_id.
Qed.

Lemma entry_map_lookup l k e :
  StronglySorted entry_lt l -> entry_map l !! k = Some e <-> e ∈ l /\ de_path e = k.
Proof.
  intros Hs. rewrite <-elem_of_btree_items. unfold entry_map.
  rewrite btree_items_collect by by apply entry_pairs_sorted.
  rewrite list_elem_of_fmap. naive_solver.
Qed.

Lemma entry_map_None l k :
  StronglySorted entry_lt l -> entry_map l !! k = None <-> forall e, e ∈ l -> de_path e <> k.
Proof.
  intros Hs. rewrite eq_None_not_Some. split.
  - intros Hn e He Ek. apply Hn. exists e. by apply entry_map_lookup.
  - intros Hn [e He]. apply entry_map_lookup in He as [He Ek]; [|done]. by apply (Hn e).
Qed.

(** ** Renames *)

(** What the table of removed entries may hold. *)
Record table_ok (removed : list DirectoryEntry) (used : list nat)
    (table : gmap EntryIdentity (list nat)) : Prop := {
  tb_entry : forall i l n, table !! i = Some l -> n ∈ l ->
    ~ (n ∈ used) /\ exists e, removed !! n = Some e /\ entry_identity e = i /\
      de_kind e <> EkDirectory;
  tb_nodup : forall i l, table !! i = Some l -> NoDup l
}.

Lemma index_removed_ok prefix suffix table :
  table_ok (prefix ++ suffix) [] table ->
  (forall i l n, table !! i = Some l -> n ∈ l -> (n < length prefix)%nat) ->
  table_ok (prefix ++ suffix) [] (index_removed (length prefix) suffix table).
Proof.
  revert prefix table. induction suffix as [|e suffix IH]; intros prefix table Ht Hlt; simpl; [done|].
  replace (S (length prefix)) with (length (prefix ++ [e])) by (rewrite length_app; simpl; lia).
  replace (prefix ++ e :: suffix) with ((prefix ++ [e]) ++ suffix) in * by by rewrite <-app_assoc.
  case_bool_decide as Hk; apply IH.
  - done.
  - intros i l n Hi Hn. specialize (Hlt i l n Hi Hn). rewrite length_app. simpl. lia.
  - assert (Hold : forall n, n ∈ default [] (table !! entry_identity e) ->
      (n < length prefix)%nat).
    { intros n Hn. destruct (table !! entry_identity e) as [l|] eqn:El; simpl in Hn.
      - by eapply Hlt.
      - by apply not_elem_of_nil in Hn. }
    split.
    + intros i l n. rewrite lookup_insert_Some. intros [[<- <-]|[_ Hi]] Hn; [|by eapply tb_entry].
      apply elem_of_app in Hn as [Hn| ->%list_elem_of_singleton].
      * destruct (table !! entry_identity e) as [l|] eqn:El; [by eapply tb_entry|].
        by apply not_elem_of_nil in Hn.
      * split; [apply not_elem_of_nil|]. exists e. split; [|done].
        rewrite <-app_assoc. by apply list_lookup_middle.
    + intros i l. rewrite lookup_insert_Some. intros [[<- <-]|[_ Hi]]; [|by eapply tb_nodup].
      apply NoDup_app. split_and!; [|intros n Hn ->%list_elem_of_singleton; specialize (Hold _ Hn); lia
        |apply NoDup_singleton].
      destruct (table !! entry_identity e) eqn:El; [by eapply tb_nodup|constructor].
  - intros i l n. rewrite lookup_insert_Some, length_app. simpl.
    intros [[<- <-]|[_ Hi]] Hn; [|specialize (Hlt i l n Hi Hn); lia].
    apply elem_of_app in Hn as [Hn| ->%list_elem_of_singleton]; [|lia].
    destruct (table !! entry_identity e) as [l|] eqn:El; [|by apply not_elem_of_nil in Hn].
    specialize (Hlt _ _ _ El Hn). lia.
Qed.

Lemma take_last {A} (l : list A) x :
  last l = Some x -> l = take (length l - 1) l ++ [x].
Proof.
  intros Hl. apply last_Some in Hl as [k ->]. rewrite length_app. simpl.
  replace (length k + 1 - 1)%nat with (length k) by lia. by rewrite take_app_length.
Qed.

(** A rename pairs an entry that disappeared with one of the same identity. *)
Definition rename_ok (r : Rename) : Prop :=
  entry_identity (rn_from r) = entry_identity (rn_to r) /\ de_kind (rn_from r) <> EkDirectory.

Definition renames_from (removed : list DirectoryEntry) (n : nat) (r : Rename) : Prop :=
  removed !! n = Some (rn_from r).

Lemma table_ok_use removed used table i l n :
  table_ok removed used table -> table !! i = Some l -> last l = Some n ->
  table_ok removed (used ++ [n]) (<[i := take (length l - 1) l]> table).
Proof.
  intros Ht Hi Hl. pose proof (take_last _ _ Hl) as El.
  pose proof (tb_nodup _ _ _ Ht _ _ Hi) as Hnd. rewrite El in Hnd.
  apply NoDup_app in Hnd as (Hnd & Hx & _).
  assert (Hsub : forall m, m ∈ take (length l - 1) l -> m ∈ l).
  { intros m Hm. rewrite El. apply elem_of_app. by left. }
  assert (Hn : n ∈ l) by (rewrite El; apply elem_of_app; right; by left).
  destruct (tb_entry _ _ _ Ht _ _ _ Hi Hn) as (_ & en & Hen & Hid & _). split.
  - intros j k m. rewrite lookup_insert_Some. intros [[<- <-]|[Hne Hj]] Hm.
    + destruct (tb_entry _ _ _ Ht _ _ _ Hi (Hsub m Hm)) as (Hu & e & He).
      split; [|by exists e]. rewrite not_elem_of_app. split; [done|].
      intros ->%list_elem_of_singleton. by apply (Hx n Hm), list_elem_of_singleton.
    + destruct (tb_entry _ _ _ Ht _ _ _ Hj Hm) as (Hu & e & He & Hei & Hk).
      split; [|by exists e]. rewrite not_elem_of_app. split; [done|].
      intros ->%list_elem_of_singleton. congruence.
  - intros j k. rewrite lookup_insert_Some. intros [[<- <-]|[_ Hj]]; [done|by eapply tb_nodup].
Qed.

Lemma match_added_ok removed added table idxs renamed :
  table_ok removed idxs table -> NoDup idxs -> Forall2 (renames_from removed) idxs renamed ->
  Forall rename_ok renamed ->
  exists idxs' R,
    match_added removed added table (list_to_set idxs) renamed
      = Some (list_to_set idxs', renamed ++ R) /\
    NoDup idxs' /\ Forall2 (renames_from removed) idxs' (renamed ++ R) /\
    Forall rename_ok (renamed ++ R) /\ rn_to <$> R `sublist_of` added.
Proof.
  revert table idxs renamed.
  induction added as [|e added IH]; intros table idxs renamed Ht Hn Hf Hr; simpl.
  { exists idxs, []. rewrite app_nil_r. split_and!; done. }
  assert (Hskip : exists idxs' R,
    match_added removed added table (list_to_set idxs) renamed
      = Some (list_to_set idxs', renamed ++ R) /\
    NoDup idxs' /\ Forall2 (renames_from removed) idxs' (renamed ++ R) /\
    Forall rename_ok (renamed ++ R) /\ rn_to <$> R `sublist_of` e :: added).
  { destruct (IH table idxs renamed Ht Hn Hf Hr) as (idxs' & R & K1 & K2 & K3 & K4 & K5).
    exists idxs', R. split_and!; try done. by constructor. }
  destruct (table !! entry_identity e) as [indices|] eqn:Ei; [|done].
  destruct (last indices) as [index|] eqn:El; [|done].
  assert (Hin : index ∈ indices) by (apply last_Some_elem_of in El; done).
  destruct (tb_entry _ _ _ Ht _ _ _ Ei Hin) as (Hu & from & Hfrom & Hid & Hk). rewrite Hfrom.
  destruct (IH (<[entry_identity e := take (length indices - 1) indices]> table)
    (idxs ++ [index]) (renamed ++ [mkRename from e])) as (idxs' & R & K1 & K2 & K3 & K4 & K5).
  - by eapply table_ok_use.
  - apply NoDup_app. split_and!; [done|intros n K ->%list_elem_of_singleton; done
      |apply NoDup_singleton].
  - apply Forall2_app; [done|]. by repeat constructor.
  - apply Forall_app. split; [done|]. by repeat constructor.
  - exists idxs', (mkRename from e :: R). rewrite <-app_assoc in *. simpl in *.
    split_and!; try done; [|by constructor].
    rewrite <-K1. f_equal. rewrite list_to_set_app_L. simpl. set_solver.
Qed.

(** Filtering by the keys of a sublist picks that sublist. *)
Lemma filter_sublist_keys {A} (f : A -> bytes) (k l : list A) :
  k `sublist_of` l -> NoDup (f <$> l) -> filter (fun x => f x ∈ f <$> k) l = k.
Proof.
  induction 1 as [|x k l Hs IH|x k l Hs IH]; csimpl; intros Hn; [done| |].
  - apply NoDup_cons in Hn as [Hx Hn]. rewrite filter_cons_True by left. f_equal.
    etrans; [|by apply IH]. apply filter_ext_in. intros y Hy.
    rewrite elem_of_cons. split; [|by right]. intros [E|]; [|done].
    exfalso. apply Hx. rewrite <-E. by apply list_elem_of_fmap_2.
  - apply NoDup_cons in Hn as [Hx Hn]. rewrite filter_cons_False; [by apply IH|].
    intros Hk. apply Hx. revert Hk. rewrite !list_elem_of_fmap. intros (y & Ey & Hy).
    exists y. split; [done|]. by eapply elem_of_submseteq; [|apply sublist_submseteq].
Qed.

Lemma imap_pair_snd {A} (l : list A) : (imap pair l).*2 = l.
Proof.
  apply list_eq. intros i. rewrite list_lookup_fmap, list_lookup_imap. by destruct (l !! i).
Qed.

(** The entries at distinct known positions are what the position filter selects. *)
Lemma filter_positions (removed : list DirectoryEntry) idxs renamed :
  NoDup idxs -> Forall2 (renames_from removed) idxs renamed ->
  (filter (fun ie : nat * DirectoryEntry => ie.1 ∈ (list_to_set idxs : gset nat))
     (imap pair removed)).*2 ≡ₚ rn_from <$> renamed.
Proof.
  intros Hn Hf. pose proof (Forall2_length _ _ _ Hf) as Hlen.
  assert (Hz : (zip idxs (rn_from <$> renamed)).*2 = rn_from <$> renamed).
  { apply snd_zip. rewrite length_fmap. lia. }
  rewrite <-Hz. apply fmap_Permutation, NoDup_Permutation.
  - apply NoDup_filter, (NoDup_fmap_1 fst).
    assert (E : (imap pair removed).*1 = seq 0 (length removed)).
    { apply list_eq. intros i. rewrite list_lookup_fmap, list_lookup_imap.
      destruct (removed !! i) as [e|] eqn:Ei; simpl.
      - apply lookup_lt_Some in Ei. by rewrite lookup_seq_lt.
      - apply lookup_ge_None in Ei. by rewrite lookup_seq_ge. }
    rewrite E. apply NoDup_seq.
  - apply (NoDup_fmap_1 fst). rewrite fst_zip; [done|]. rewrite length_fmap. lia.
  - intros [n e]. rewrite list_elem_of_filter, elem_of_lookup_imap. simpl.
    rewrite elem_of_list_to_set. split.
    + intros [Hin (i & y & [= -> ->] & Hy)].
      apply list_elem_of_lookup_1 in Hin as [j Hj].
      destruct (Forall2_lookup_l _ _ _ _ _ Hf Hj) as (r & Hr & Er). unfold renames_from in Er.
      rewrite Hy in Er. injection Er as ->.
      apply (list_elem_of_lookup_2 _ j). apply lookup_zip_with_Some.
      exists i, (rn_from r). split_and!; [done|done|]. by rewrite list_lookup_fmap, Hr.
    + intros Hz'. apply list_elem_of_lookup_1 in Hz' as [j Hj].
      apply lookup_zip_with_Some in Hj as (n' & e' & [= -> ->] & Hi & He).
      rewrite list_lookup_fmap in He. destruct (renamed !! j) as [r|] eqn:Er; [|done].
      injection He as <-. split; [by eapply list_elem_of_lookup_2|].
      exists n', (rn_from r). split; [done|]. by apply (Forall2_lookup_lr _ _ _ _ _ _ Hf Hi Er).
Qed.

(** [rename_candidates] never panics; it splits both lists into what is left and the two
    sides of the renames. *)
Lemma rename_candidates_ok added removed :
  NoDup (de_path <$> added) ->
  exists added' removed' renamed,
    rename_candidates added removed = Some (added', removed', renamed) /\
    added ≡ₚ added' ++ (rn_to <$> renamed) /\ removed ≡ₚ removed' ++ (rn_from <$> renamed) /\
    Forall rename_ok renamed.
Proof.
  intros Hn. unfold rename_candidates.
  assert (Ht : table_ok removed [] (index_removed 0 removed ∅)).
  { apply (index_removed_ok [] removed); [split|]; by intros. }
  destruct (match_added_ok removed added _ [] [] Ht) as (idxs & R & K1 & K2 & K3 & K4 & K5);
    [constructor..|]. simpl in K3, K4.
  replace (match_added removed added (index_removed 0 removed ∅) ∅ [])
    with (Some (list_to_set idxs : gset nat, R)) by (symmetry; exact K1).
  eexists _, _, _. split; [done|]. rewrite merge_sort_Permutation. split_and!; [| |done].
  - rewrite <-(filter_app_complement (fun e => de_path e ∈ de_path <$> (rn_to <$> R)) added) at 1.
    rewrite (filter_sublist_keys de_path (rn_to <$> R) added K5 Hn). rewrite Permutation_app_comm.
    apply Permutation_app; [|done]. match goal with |- ?a ≡ₚ ?b => enough (a = b) as -> by done end.
    apply filter_ext_in.
    intros e _. by rewrite elem_of_list_to_set, list_fmap_compose.
  - rewrite <-(filter_positions removed idxs R K2 K3), <-fmap_app.
    rewrite Permutation_app_comm, filter_app_complement. by rewrite imap_pair_snd.
Qed.

(** ** The difference classifies *)

Lemma entry_eq_identity a b :
  de_path a = de_path b -> entry_identity a = entry_identity b -> a = b.
Proof. destruct a, b. simpl. intros -> [= -> -> -> ->]. done. Qed.

Record diff_ok (old new : list DirectoryEntry) (d : DirectoryDiff) : Prop := {
  dk_new : new ≡ₚ df_added d ++ (rn_to <$> df_renamed d) ++ df_modified d ++ df_unchanged d;
  dk_added : forall e, e ∈ df_added d ++ (rn_to <$> df_renamed d) <->
    e ∈ new /\ forall o, o ∈ old -> de_path o <> de_path e;
  dk_removed : forall e, e ∈ df_removed d ++ (rn_from <$> df_renamed d) <->
    e ∈ old /\ forall n, n ∈ new -> de_path n <> de_path e;
  dk_modified : forall e, e ∈ df_modified d <->
    e ∈ new /\ exists o, o ∈ old /\ de_path o = de_path e /\ o <> e;
  dk_unchanged : forall e, e ∈ df_unchanged d <-> e ∈ new /\ e ∈ old;
  dk_renamed : Forall rename_ok (df_renamed d)
}.

Lemma filter_NoDup_paths (P : DirectoryEntry -> Prop) `{!forall e, Decision (P e)} l :
  NoDup (de_path <$> l) -> NoDup (de_path <$> filter P l).
Proof.
  intros Hn. eapply sublist_NoDup; [exact Hn|]. apply fmap_sublist, sublist_filter.
Qed.

Lemma filter_partition3 {A} (f : A -> option bool) (l : list A) :
  l ≡ₚ filter (fun e => f e = None) l ++ filter (fun e => f e = Some false) l
       ++ filter (fun e => f e = Some true) l.
Proof.
  induction l as [|x l IH]; [done|]. rewrite !filter_cons.
  destruct (f x) as [[|]|]; repeat case_decide; try done; rewrite IH at 1.
  - by rewrite !Permutation_middle.
  - by rewrite Permutation_middle.
  - done.
Qed.

Lemma diff_entries_ok old new :
  StronglySorted entry_lt old -> StronglySorted entry_lt new ->
  exists d, diff_entries old new = Some d /\ diff_ok old new d.
Proof.
  intros Ho Hn. unfold diff_entries. rewrite !entry_map_values by done.
  set (added := filter (fun e => classify (entry_map old) e = None) new).
  set (removed := filter (fun e => entry_map new !! de_path e = None) old).
  destruct (rename_candidates_ok added removed) as (a & r & rn & -> & Ha & Hr & Hrn).
  { by apply filter_NoDup_paths, sorted_paths_nodup. }
  eexists. split; [done|].
  assert (Hcl : forall e, classify (entry_map old) e = None <->
    forall o, o ∈ old -> de_path o <> de_path e).
  { intros e. rewrite <-entry_map_None by done. unfold classify.
    by destruct (entry_map old !! de_path e). }
  assert (Hcs : forall e b, classify (entry_map old) e = Some b <->
    exists o, o ∈ old /\ de_path o = de_path e /\
      b = bool_decide (entry_identity o = entry_identity e)).
  { intros e b. unfold classify. destruct (entry_map old !! de_path e) as [o|] eqn:E.
    - apply entry_map_lookup in E as [E1 E2]; [|done]. split; [naive_solver|].
      intros (o' & Ho' & Ep & ->). assert (o' = o) as ->; [|done].
      assert (K : entry_map old !! de_path e = Some o') by by apply entry_map_lookup.
      assert (K' : entry_map old !! de_path e = Some o) by by apply entry_map_lookup.
      congruence.
    - split; [done|]. intros (o & Ho' & Ep & _). exfalso.
      by apply (proj1 (entry_map_None _ _ Ho) E o). }
  split; simpl.
  - rewrite (filter_partition3 (classify (entry_map old)) new) at 1. fold added.
    rewrite Ha. by rewrite <-!app_assoc.
  - intros e. rewrite <-Ha. unfold added. rewrite list_elem_of_filter, Hcl. tauto.
  - intros e. rewrite <-Hr. unfold removed. rewrite list_elem_of_filter, entry_map_None by done.
    tauto.
  - intros e. rewrite list_elem_of_filter, Hcs. split.
    + intros [(o & ? & Ep & Eb) ?]. split; [done|]. exists o. split_and!; [done|done|].
      intros ->. symmetry in Eb. by apply bool_decide_eq_false in Eb.
    + intros [? (o & ? & Ep & Hne)]. split; [|done]. exists o. split_and!; [done|done|].
      symmetry. apply bool_decide_eq_false_2. intros Ei. by apply Hne, entry_eq_identity.
  - intros e. rewrite list_elem_of_filter, Hcs. split.
    + intros [(o & ? & Ep & Eb) ?]. split; [done|]. symmetry in Eb.
      apply bool_decide_eq_true in Eb. by rewrite <-(entry_eq_identity o e).
    + intros [? ?]. split; [|done]. exists e. split_and!; [done|done|].
      symmetry. by apply bool_decide_eq_true_2.
  - done.
Qed.

(** The difference of two verified manifests never panics and loses nothing: every
    entry of the new one is exactly one of added, renamed to, modified or unchanged,
    each class means what its name says, the entries that disappeared are exactly the
    removed ones and the sources of renames, and a rename keeps the identity of a file
    or link. *)
Theorem manifest_diff_classifies `{Blake3, Postcard DirectoryEntry} old new r :
  manifest_diff old new = Ok r ->
  exists d, r = Some d /\ diff_ok (dm_entries old) (dm_entries new) d.
Proof.
  unfold manifest_diff. intros K.
  destruct (manifest_verify old) as [[]|] eqn:E1; [|done].
  destruct (manifest_verify new) as [[]|] eqn:E2; [|done]. injection K as <-.
  apply manifest_verify_ok in E1 as (_ & S1 & _), E2 as (_ & S2 & _).
  destruct (diff_entries_ok _ _ S1 S2) as (d & Hd & Hok). by exists d.
Qed.

(** ** Witnesses *)

Section Witnesses.
#[local] Instance wit_dir_blake3 : Blake3 := toy_blake3.
#[local] Instance wit_dir_postcard : Postcard DirectoryEntry := {|
    to_stdvec e := Ok (de_path e ++ default [] (de_content e));
    take_from_bytes _ := Err "unused"%string
  |}.

Definition wit_dir (path : bytes) : DirectoryEntry := mkEntry path EkDirectory 0 None None.
Definition wit_file (path content : bytes) : DirectoryEntry :=
  mkEntry path EkFile (zlen content) (Some content) None.

Definition wit_old_entries : list DirectoryEntry :=
  [wit_dir (bs "a"); wit_file (bs "a/x") (bs "1"); wit_file (bs "notes") (bs "2")].
Definition wit_new_entries : list DirectoryEntry :=
  [wit_dir (bs "b"); wit_file (bs "b/y") (bs "1"); wit_file (bs "notes") (bs "3")].

Definition wit_manifest (entries : list DirectoryEntry) : DirectoryManifest :=
  match from_entries entries with Ok m => m | Err _ => mkManifest [] [] end.

(** The renamed file is found although its directory was renamed too. *)
Lemma wit_diff :
  manifest_diff (wit_manifest wit_old_entries) (wit_manifest wit_new_entries) =
  Ok (Some (mkDiff [wit_dir (bs "b")] [wit_dir (bs "a")] [wit_file (bs "notes") (bs "3")] []
        [mkRename (wit_file (bs "a/x") (bs "1")) (wit_file (bs "b/y") (bs "1"))])).
Proof. vm_compute. reflexivity. Qed.

Lemma manifest_diff_witness :
  exists d, diff_ok (dm_entries (wit_manifest wit_old_entries))
                    (dm_entries (wit_manifest wit_new_entries)) d.
Proof.
  destruct (manifest_diff_classifies _ _ _ wit_diff) as (d & _ & Hd). exists d. exact Hd.
Defined.

Lemma wit_old_sorted : StronglySorted entry_lt wit_old_entries.
Proof. repeat constructor. Qed.

Lemma validate_hierarchy_witness :
  exists d, d ∈ wit_old_entries /\ de_path d = bs "a" /\ de_kind d = EkDirectory.
Proof.
  assert (He : wit_file (bs "a/x") (bs "1") ∈ wit_old_entries) by (right; left).
  assert (Hh : validate_hierarchy wit_old_entries = Ok tt) by (vm_compute; reflexivity).
  apply (proj1 (validate_hierarchy_tree wit_old_entries wit_old_sorted) Hh _ He).
  vm_compute. reflexivity.
Defined.

End Witnesses.
