(* ===== verification/Reconcile.v ===== *)
(** * Reconcile plans

    Models [src/crates/rds-sync/src/directory/reconcile.rs]: the deterministic one-way
    plan that makes a destination tree equal to a source tree, its verification, its
    projection on a destination without touching the file system, and conflict
    detection. *)

From S2P Require Import Prelude Slices Paths Crypto Directory.

(** ** Data *)

Abbreviation Revision := bytes (only parsing).

Inductive DeletePolicy : Type := DpKeep | DpDelete.

Record Tombstone : Type := mkTombstone {
  tm_path : bytes;
  tm_previous : DirectoryEntry;
  tm_source_revision : Revision
}.

Inductive ReconcileOperation : Type :=
| RPut (entry : DirectoryEntry)
| RReplace (before after : DirectoryEntry)
| RMove (from to : DirectoryEntry)
| RDelete (tombstone : Tombstone).

Record ReconcilePlan : Type := mkPlan {
  rp_source_revision : Revision;
  rp_expected_destination_revision : Revision;
  rp_delete_policy : DeletePolicy;
  rp_operations : list ReconcileOperation
}.

#[export] Instance DeletePolicy_eq_dec : EqDecision DeletePolicy.
Proof. solve_decision. Defined.
#[export] Instance Tombstone_eq_dec : EqDecision Tombstone.
Proof. solve_decision. Defined.
#[export] Instance ReconcileOperation_eq_dec : EqDecision ReconcileOperation.
Proof. solve_decision. Defined.
#[export] Instance ReconcilePlan_eq_dec : EqDecision ReconcilePlan.
Proof. solve_decision. Defined.

(** ** Operations *)

Definition op_path (op : ReconcileOperation) : bytes :=
  match op with
  | RPut entry => de_path entry
  | RReplace _ after => de_path after
  | RMove _ to => de_path to
  | RDelete tombstone => tm_path tombstone
  end.

(** [ReconcileOperation::validate]. *)
Definition op_validate (op : ReconcileOperation) : result unit SyncError :=
  match op with
  | RPut entry => entry_validate entry
  | RReplace before after =>
      let? _ := entry_validate before in
      let? _ := entry_validate after in
      if negb (bool_decide (de_path before = de_path after))
         || bool_decide (entry_identity before = entry_identity after)
      then Err (ManifestErr "invalid replacement precondition") else
      if bool_decide (de_kind before = EkDirectory) || bool_decide (de_kind after = EkDirectory)
      then Err (ManifestErr "directory type replacement requires subtree conflict resolution")
      else Ok tt
  | RMove from to =>
      let? _ := entry_validate from in
      let? _ := entry_validate to in
      if bool_decide (de_kind from = EkDirectory) || bool_decide (de_kind to = EkDirectory)
      then Err (ManifestErr "directory moves require an explicit subtree identity") else
      if bool_decide (de_path from = de_path to)
         || negb (bool_decide (entry_identity from = entry_identity to))
      then Err (ManifestErr "move operation changes entry identity") else Ok tt
  | RDelete tombstone =>
      let? _ := entry_validate (tm_previous tombstone) in
      if negb (bool_decide (de_path (tm_previous tombstone) = tm_path tombstone))
      then Err (ManifestErr "tombstone path does not match its previous entry") else Ok tt
  end.

(** [operation_sort_key] and the order it defines: rank, then deeper paths first, then
    the path. *)
Definition op_rank (op : ReconcileOperation) : Z :=
  match op with
  | RPut entry => if bool_decide (de_kind entry = EkDirectory) then 0 else 2
  | RMove _ _ => 1
  | RReplace _ _ => 3
  | RDelete tombstone =>
      if negb (bool_decide (de_kind (tm_previous tombstone) = EkDirectory)) then 4 else 5
  end.

Definition op_depth (op : ReconcileOperation) : Z :=
  if 4 <=? op_rank op then depth (op_path op) else 0.

Definition op_le (a b : ReconcileOperation) : Prop :=
  op_rank a < op_rank b \/
  op_rank a = op_rank b /\
  (op_depth b < op_depth a \/ op_depth a = op_depth b /\ bytes_le (op_path a) (op_path b)).

#[export] Instance op_le_dec : RelDecision op_le.
Proof. intros a b. unfold op_le. apply _. Defined.

(** The entries whose bytes the plan budget counts. *)
Definition op_entries (op : ReconcileOperation) : list DirectoryEntry :=
  match op with
  | RPut entry => [entry]
  | RReplace before after => [before; after]
  | RMove from to => [from; to]
  | RDelete tombstone => [tm_previous tombstone]
  end.

(** One round of the loop of [ReconcilePlan::verify]: the target paths seen, the move
    sources seen and the metadata bytes counted. *)
Record PlanScan : Type := mkScan {
  sc_paths : gset bytes;
  sc_move_sources : gset bytes;
  sc_data : Z
}.

Definition count_entry (total : Z) (e : DirectoryEntry) : result Z SyncError :=
  let total := sat_add64 (sat_add64 total (zlen (de_path e)))
                 (match de_symlink_target e with Some t => zlen t | None => 0 end) in
  if 2 * MAX_DIRECTORY_DATA_BYTES <? total
  then Err (ManifestErr "reconcile metadata budget exceeded") else Ok total.

Definition scan_op (plan : ReconcilePlan) (s : PlanScan) (op : ReconcileOperation)
    : result PlanScan SyncError :=
  let? _ := op_validate op in
  if bool_decide (op_path op ∈ sc_paths s)
  then Err (ManifestErr "reconcile plan contains duplicate target paths") else
  let? move_sources :=
    (match op with
     | RMove from _ =>
         if negb (bool_decide (rp_delete_policy plan = DpDelete))
            || bool_decide (de_path from ∈ sc_move_sources s)
         then Err (ManifestErr "invalid move policy or duplicate source")
         else Ok ({[de_path from]} ∪ sc_move_sources s)
     | RDelete tombstone =>
         if negb (bool_decide (rp_delete_policy plan = DpDelete))
            || negb (bool_decide (tm_source_revision tombstone = rp_source_revision plan))
         then Err (ManifestErr "invalid tombstone policy or revision")
         else Ok (sc_move_sources s)
     | _ => Ok (sc_move_sources s)
     end) in
  let? data := try_fold count_entry (sc_data s) (op_entries op) in
  Ok (mkScan ({[op_path op]} ∪ sc_paths s) move_sources data).

Definition plan_verify (plan : ReconcilePlan) : result unit SyncError :=
  if sat_mul64 MAX_DIRECTORY_ENTRIES 2 <? zlen (rp_operations plan)
  then Err (ManifestErr "reconcile plan is too large") else
  let? s := try_fold (scan_op plan) (mkScan ∅ ∅ 0) (rp_operations plan) in
  if negb (bool_decide (sc_paths s ## sc_move_sources s))
  then Err (ManifestErr "move source overlaps a plan target") else
  if any_adjacent (fun a b => negb (bool_decide (op_le a b))) (rp_operations plan)
  then Err (ManifestErr "reconcile plan is not in canonical operation order") else Ok tt.

(** ** Projection *)

Definition require_previous (entries : gmap bytes DirectoryEntry) (previous : DirectoryEntry)
    : result unit SyncError :=
  if negb (bool_decide (entries !! de_path previous = Some previous))
  then Err (ManifestErr "reconcile entry precondition does not match destination") else Ok tt.

Definition apply_op (entries : gmap bytes DirectoryEntry) (op : ReconcileOperation)
    : result (gmap bytes DirectoryEntry) SyncError :=
  match op with
  | RPut entry =>
      if is_some (entries !! de_path entry)
      then Err (ManifestErr "Put destination already exists")
      else Ok (<[de_path entry := entry]> entries)
  | RReplace before after =>
      let? _ := require_previous entries before in Ok (<[de_path after := after]> entries)
  | RMove from to =>
      let? _ := require_previous entries from in
      if is_some (entries !! de_path to)
      then Err (ManifestErr "Move destination already exists")
      else Ok (<[de_path to := to]> (delete (de_path from) entries))
  | RDelete tombstone =>
      let? _ := require_previous entries (tm_previous tombstone) in
      Ok (delete (tm_path tombstone) entries)
  end.

(** ** Conflicts *)

Record ConflictRecord : Type := mkConflict {
  cf_path : bytes;
  cf_base : option DirectoryEntry;
  cf_local : option DirectoryEntry;
  cf_remote : option DirectoryEntry
}.

Definition is_dir (m : gmap bytes DirectoryEntry) (path : bytes) : bool :=
  is_some_and (m !! path) (fun e => bool_decide (de_kind e = EkDirectory)).

(** The walk up from a changed path; a path has no more ancestors than bytes, so that
    many rounds of the loop reach the top. *)
Fixpoint ancestor_conflicts (fuel : nat) (base side other : gmap bytes DirectoryEntry)
    (ancestor : bytes) (acc : gset bytes) : gset bytes :=
  match fuel with
  | O => acc
  | S fuel =>
      match path_parent ancestor with
      | None => acc
      | Some parent =>
          ancestor_conflicts fuel base side other parent
            (if is_dir base parent && is_dir side parent && negb (is_dir other parent)
             then {[parent]} ∪ acc else acc)
      end
  end.

Definition path_conflicts (base local remote : gmap bytes DirectoryEntry) (acc : gset bytes)
    (path : bytes) : gset bytes :=
  let local_changed := negb (bool_decide (base !! path = local !! path)) in
  let remote_changed := negb (bool_decide (base !! path = remote !! path)) in
  let acc :=
    if local_changed && remote_changed && negb (bool_decide (local !! path = remote !! path))
    then {[path]} ∪ acc else acc in
  let acc := if local_changed
             then ancestor_conflicts (length path) base local remote path acc else acc in
  if remote_changed
  then ancestor_conflicts (length path) base remote local path acc else acc.

(** A [BTreeSet<&str>] in iteration order. *)
Definition set_items (s : gset bytes) : list bytes := merge_sort bytes_le (elements s).

Section WithLibraries.
  Context `{Blake3, Postcard DirectoryEntry, Postcard ReconcileOperation,
            Postcard (Revision * Revision * DeletePolicy * Z)}.

Definition Revision_from_manifest (m : DirectoryManifest) : result Revision SyncError :=
  let? _ := manifest_verify m in Ok (dm_root m).

(** The [Replace] of a modified entry, found in the destination by binary search. *)
Definition replace_op (destination : DirectoryManifest) (entry : DirectoryEntry)
    : result ReconcileOperation SyncError :=
  match binary_search_by (fun c => bytes_compare (de_path c) (de_path entry))
          (dm_entries destination) with
  | Err _ => Err (ManifestErr "modified destination entry disappeared")
  | Ok index =>
      match dm_entries destination !! index with
      | Some before => Ok (RReplace before entry)
      | None => Err (ManifestErr "modified destination entry disappeared")
      end
  end.

(** [ReconcilePlan::one_way]; [Ok None] would be the panic of [diff]. *)
Definition one_way (source destination : DirectoryManifest) (delete_policy : DeletePolicy)
    : result (option ReconcilePlan) SyncError :=
  let? source_revision := Revision_from_manifest source in
  let? expected := Revision_from_manifest destination in
  let? diff := manifest_diff destination source in
  match diff with
  | None => Ok None
  | Some diff =>
      let renames := (fun r => if bool_decide (delete_policy = DpKeep) then RPut (rn_to r)
                               else RMove (rn_from r) (rn_to r)) <$> df_renamed diff in
      let puts := RPut <$> df_added diff in
      let? replaces := try_map (replace_op destination) (df_modified diff) in
      let deletes :=
        if bool_decide (delete_policy = DpDelete)
        then (fun previous => RDelete (mkTombstone (de_path previous) previous source_revision))
               <$> df_removed diff
        else [] in
      let plan := mkPlan source_revision expected delete_policy
        (merge_sort op_le (renames ++ puts ++ replaces ++ deletes)) in
      let? _ := plan_verify plan in
      Ok (Some plan)
  end.

Definition plan_digest (plan : ReconcilePlan) : result bytes SyncError :=
  let? _ := plan_verify plan in
  let? header := map_err (fun _ => ManifestErr "reconcile plan cannot be encoded")
    (to_stdvec (rp_source_revision plan, rp_expected_destination_revision plan,
                rp_delete_policy plan, zlen (rp_operations plan))) in
  let? encoded := try_map (fun op =>
    match to_stdvec op with
    | Ok b => Ok (le_bytes 8 (zlen b) ++ b)
    | Err _ => Err (ManifestErr "reconcile operation cannot be encoded")
    end) (rp_operations plan) in
  Ok (blake3_hash (bs "rds-reconcile-plan-v1" ++ ["000"%char] ++ header ++ concat encoded)).

Definition project_destination (plan : ReconcilePlan) (current : DirectoryManifest)
    : result DirectoryManifest SyncError :=
  let? _ := plan_verify plan in
  let? revision := Revision_from_manifest current in
  if negb (bool_decide (revision = rp_expected_destination_revision plan))
  then Err (ManifestErr "destination changed after reconcile planning") else
  let? entries := try_fold apply_op (entry_map (dm_entries current)) (rp_operations plan) in
  from_entries (map_values entries).

Definition check_inputs (plan : ReconcilePlan) (source destination : DirectoryManifest)
    : result unit SyncError :=
  let? _ := plan_verify plan in
  let? expected := one_way source destination (rp_delete_policy plan) in
  if negb (bool_decide (expected = Some plan))
  then Err (ManifestErr "reconcile plan does not match its inputs") else
  let? _ := project_destination plan destination in
  Ok tt.

Definition conflicts (base local remote : DirectoryManifest)
    : result (list ConflictRecord) SyncError :=
  let? _ := manifest_verify base in
  let? _ := manifest_verify local in
  let? _ := manifest_verify remote in
  let b := entry_map (dm_entries base) in
  let l := entry_map (dm_entries local) in
  let r := entry_map (dm_entries remote) in
  let paths := dom b ∪ dom l ∪ dom r in
  let conflict_paths := foldl (path_conflicts b l r) ∅ (set_items paths) in
  Ok ((fun path => mkConflict path (b !! path) (l !! path) (r !! path))
        <$> set_items conflict_paths).

End WithLibraries.

(** ** What a verified plan satisfies *)

Definition move_source (op : ReconcileOperation) : option bytes :=
  match op with RMove from _ => Some (de_path from) | _ => None end.

(** Every path an operation reads or writes. *)
Definition op_keys (op : ReconcileOperation) : list bytes :=
  op_path op :: option_list (move_source op).

Definition ops_keys (ops : list ReconcileOperation) : list bytes := concat (op_keys <$> ops).

Lemma scan_op_ok plan s op s' :
  scan_op plan s op = Ok s' ->
  op_validate op = Ok tt /\ ~ (op_path op ∈ sc_paths s) /\
  sc_paths s' = {[op_path op]} ∪ sc_paths s /\
  sc_move_sources s' = list_to_set (option_list (move_source op)) ∪ sc_move_sources s /\
  Forall (fun k => ~ (k ∈ sc_move_sources s)) (option_list (move_source op)).
Proof.
  unfold scan_op. destruct (op_validate op) as [[]|]; [|done].
  case_bool_decide as Hp; [done|].
  destruct (try_fold count_entry (sc_data s) (op_entries op)) as [d|x];
    destruct op as [e|b a|f t|tomb]; simpl in *;
    repeat (case_bool_decide; simpl; try done);
    intros [= <-]; simpl; split_and!; try done; try set_solver; by repeat constructor.
Qed.

Lemma scan_fold_ok plan ops s s' :
  try_fold (scan_op plan) s ops = Ok s' ->
  Forall (fun op => op_validate op = Ok tt) ops /\
  NoDup (op_path <$> ops) /\ NoDup (omap move_source ops) /\
  (forall k, k ∈ op_path <$> ops -> ~ (k ∈ sc_paths s)) /\
  (forall k, k ∈ omap move_source ops -> ~ (k ∈ sc_move_sources s)) /\
  sc_paths s' = list_to_set (op_path <$> ops) ∪ sc_paths s /\
  sc_move_sources s' = list_to_set (omap move_source ops) ∪ sc_move_sources s.
Proof.
  revert s. induction ops as [|op ops IH]; intros s; csimpl.
  - intros [= ->]. split_and!; try constructor; set_solver.
  - destruct (scan_op plan s op) as [s1|] eqn:Es; [|done]. intros K.
    apply scan_op_ok in Es as (Hv & Hp & E1 & E2 & Hm).
    apply IH in K as (Hvs & Hn1 & Hn2 & Hd1 & Hd2 & F1 & F2). rewrite E1 in Hd1. rewrite E2 in Hd2.
    split_and!.
    + by constructor.
    + constructor; [|done]. intros Hi. apply (Hd1 _ Hi). set_solver.
    + destruct (move_source op) as [k|]; [|done]. constructor; [|done].
      intros Hi. apply (Hd2 _ Hi). set_solver.
    + intros k [->|Hk]%elem_of_cons; [done|]. specialize (Hd1 _ Hk). set_solver.
    + intros k. destruct (move_source op) as [k'|]; simpl in *.
      * apply Forall_cons in Hm as [Hm _].
        intros [->|Hk]%elem_of_cons; [done|]. specialize (Hd2 _ Hk). set_solver.
      * intros Hk. specialize (Hd2 _ Hk). set_solver.
    + rewrite F1, E1. set_solver.
    + rewrite F2, E2. destruct (move_source op); set_solver.
Qed.

Lemma elem_of_ops_keys k ops : k ∈ ops_keys ops <-> exists op, op ∈ ops /\ k ∈ op_keys op.
Proof.
  unfold ops_keys. induction ops as [|op ops IH]; [set_solver|].
  rewrite fmap_cons, concat_cons, elem_of_app, IH. set_solver.
Qed.

Lemma ops_keys_perm ops : ops_keys ops ≡ₚ (op_path <$> ops) ++ omap move_source ops.
Proof.
  induction ops as [|op ops IH]; [done|]. unfold ops_keys in *. csimpl. rewrite IH.
  destruct (move_source op) as [k|]; simpl; [|done]. by rewrite Permutation_middle.
Qed.

Lemma plan_verify_ok plan :
  plan_verify plan = Ok tt ->
  Forall (fun op => op_validate op = Ok tt) (rp_operations plan) /\
  NoDup (ops_keys (rp_operations plan)).
Proof.
  unfold plan_verify. destruct (_ <? _); [done|].
  destruct (try_fold _ _ _) as [s|] eqn:Es; [|done]. case_bool_decide as Hd; [|done].
  intros _. apply scan_fold_ok in Es as (Hv & Hn1 & Hn2 & _ & _ & E1 & E2).
  split; [done|]. rewrite ops_keys_perm. apply NoDup_app. split_and!; [done| |done].
  intros k Hk. rewrite E1, E2 in Hd. set_solver.
Qed.

(** ** The effect of a plan *)

(** What an operation needs to find and what it leaves at a path. *)
Definition op_pre (m : gmap bytes DirectoryEntry) (op : ReconcileOperation) : Prop :=
  match op with
  | RPut e => m !! de_path e = None
  | RReplace before _ => m !! de_path before = Some before
  | RMove from to => m !! de_path from = Some from /\ m !! de_path to = None
  | RDelete t => m !! de_path (tm_previous t) = Some (tm_previous t)
  end.

Definition op_writes (op : ReconcileOperation) (k : bytes) (v : option DirectoryEntry) : Prop :=
  match op with
  | RPut e => k = de_path e /\ v = Some e
  | RReplace _ after => k = de_path after /\ v = Some after
  | RMove from to => k = de_path to /\ v = Some to \/ k = de_path from /\ v = None
  | RDelete t => k = tm_path t /\ v = None
  end.

Lemma op_writes_keys op k v : op_writes op k v -> k ∈ op_keys op.
Proof. destruct op; simpl; set_solver. Qed.

Lemma op_key_written op k : k ∈ op_keys op -> exists v, op_writes op k v.
Proof. intros Hi. destruct op; unfold op_keys in Hi; simpl in *; set_solver. Qed.

Lemma op_validate_keys op :
  op_validate op = Ok tt ->
  match op with
  | RReplace b a => de_path b = de_path a
  | RDelete t => de_path (tm_previous t) = tm_path t
  | RMove f t => de_path f <> de_path t
  | RPut _ => True
  end.
Proof.
  destruct op as [e|b a|f t|tomb]; simpl; [done|..].
  - destruct (entry_validate b) as [[]|]; [|done]. destruct (entry_validate a) as [[]|]; [|done].
    by case_bool_decide.
  - destruct (entry_validate f) as [[]|]; [|done]. destruct (entry_validate t) as [[]|]; [|done].
    destruct (_ || _); [done|]. by case_bool_decide.
  - destruct (entry_validate _) as [[]|]; [|done]. by case_bool_decide.
Qed.

Lemma apply_op_ok m op :
  op_validate op = Ok tt -> op_pre m op ->
  exists m', apply_op m op = Ok m' /\ (forall k v, op_writes op k v -> m' !! k = v) /\
    (forall k, ~ (k ∈ op_keys op) -> m' !! k = m !! k).
Proof.
  intros Hv%op_validate_keys Hp. destruct op as [e|b a|f t|tomb]; simpl in *; unfold require_previous.
  - rewrite Hp. simpl. eexists. split; [done|]. split; intros k.
    + intros v [-> ->]. apply lookup_insert_eq.
    + intros Hk. apply lookup_insert_ne. set_solver.
  - rewrite bool_decide_eq_true_2 by done. simpl. eexists. split; [done|]. split; intros k.
    + intros v [-> ->]. apply lookup_insert_eq.
    + intros Hk. apply lookup_insert_ne. set_solver.
  - destruct Hp as [Hf Ht]. rewrite bool_decide_eq_true_2 by done. rewrite Ht. simpl.
    eexists. split; [done|]. split; intros k.
    + intros v [[-> ->]|[-> ->]]; [apply lookup_insert_eq|].
      rewrite lookup_insert_ne by done. apply lookup_delete_eq.
    + intros Hk. rewrite lookup_insert_ne, lookup_delete_ne by set_solver. done.
  - rewrite bool_decide_eq_true_2 by done. simpl. eexists. split; [done|]. split; intros k.
    + intros v [-> ->]. apply lookup_delete_eq.
    + intros Hk. apply lookup_delete_ne. set_solver.
Qed.

Lemma op_pre_ext m m' op :
  op_validate op = Ok tt -> (forall k, k ∈ op_keys op -> m' !! k = m !! k) ->
  op_pre m op -> op_pre m' op.
Proof.
  intros Hv%op_validate_keys He. destruct op as [e|b a|f t|tomb]; simpl in *.
  - by rewrite He by set_solver.
  - by rewrite He by (rewrite Hv; set_solver).
  - by rewrite !He by set_solver.
  - by rewrite He by (rewrite Hv; set_solver).
Qed.

(** Operations on distinct paths do not disturb one another: the result is what each
    one writes, and the old map everywhere else. *)
Lemma apply_ops_ok ops m :
  NoDup (ops_keys ops) -> Forall (fun op => op_validate op = Ok tt) ops ->
  Forall (op_pre m) ops ->
  exists m', try_fold apply_op m ops = Ok m' /\
    (forall op k v, op ∈ ops -> op_writes op k v -> m' !! k = v) /\
    (forall k, ~ (k ∈ ops_keys ops) -> m' !! k = m !! k).
Proof.
  revert m. induction ops as [|op ops IH]; intros m Hn Hv Hp; simpl.
  { exists m. split_and!; [done|set_solver|done]. }
  unfold ops_keys in Hn. rewrite fmap_cons, concat_cons in Hn.
  apply NoDup_app in Hn as (_ & Hd & Hn). apply Forall_cons in Hv as [Hv Hvs].
  apply Forall_cons in Hp as [Hp Hps].
  destruct (apply_op_ok m op Hv Hp) as (m1 & E1 & Hw & Hk). rewrite E1.
  destruct (IH m1 Hn Hvs) as (m' & E' & Hw' & Hk').
  { rewrite Forall_forall in *. intros op' Hop. apply (op_pre_ext m); [by apply Hvs| |by apply Hps].
    intros k Hk1. apply Hk. intros Hk2. apply (Hd _ Hk2). apply elem_of_ops_keys. by exists op'. }
  exists m'. split; [done|]. split.
  - intros op' k v [->|Hop]%elem_of_cons Hwr; [|by apply (Hw' op')].
    rewrite Hk'; [by apply Hw|]. apply Hd. by apply (op_writes_keys _ _ v).
  - intros k Hnk. unfold ops_keys in Hnk. rewrite fmap_cons, concat_cons in Hnk.
    rewrite Hk', Hk; [done|set_solver|set_solver].
Qed.

(** ** One-way plans *)

(** The operations a plan is made of, from the difference of the two trees. *)
Definition planned (source_revision : Revision) (old : list DirectoryEntry) (p : DeletePolicy)
    (d : DirectoryDiff) (op : ReconcileOperation) : Prop :=
  match op with
  | RPut e => e ∈ df_added d \/ p = DpKeep /\ e ∈ rn_to <$> df_renamed d
  | RReplace before after =>
      after ∈ df_modified d /\ before ∈ old /\ de_path before = de_path after
  | RMove from to => p = DpDelete /\ mkRename from to ∈ df_renamed d
  | RDelete t => p = DpDelete /\ exists e, e ∈ df_removed d /\
      t = mkTombstone (de_path e) e source_revision
  end.

(** The tree a plan aims at. *)
Definition mirrored (p : DeletePolicy) (src dst : gmap bytes DirectoryEntry)
    : gmap bytes DirectoryEntry :=
  match p with DpDelete => src | DpKeep => src ∪ dst end.

Section Mirror.
  Context (revision : Revision) (old new : list DirectoryEntry) (p : DeletePolicy).
  Context (d : DirectoryDiff) (ops : list ReconcileOperation).
  Context (Hold : StronglySorted entry_lt old) (Hnew : StronglySorted entry_lt new).
  Context (Hd : diff_ok old new d).
  Context (Hops : forall op, op ∈ ops <-> planned revision old p d op).

Lemma renamed_split f t :
  mkRename f t ∈ df_renamed d ->
  (f ∈ old /\ forall n, n ∈ new -> de_path n <> de_path f) /\
  (t ∈ new /\ forall o, o ∈ old -> de_path o <> de_path t).
Proof.
  intros Hr. split; [apply (dk_removed _ _ _ Hd)|apply (dk_added _ _ _ Hd)]; apply elem_of_app; right;
    apply list_elem_of_fmap; by exists (mkRename f t).
Qed.

Lemma planned_put e : RPut e ∈ ops -> e ∈ new /\ forall o, o ∈ old -> de_path o <> de_path e.
Proof.
  intros [He|[_ He]]%Hops; apply (dk_added _ _ _ Hd), elem_of_app; [by left|by right].
Qed.

Lemma planned_delete t :
  RDelete t ∈ ops -> p = DpDelete /\ tm_path t = de_path (tm_previous t) /\
  tm_previous t ∈ old /\ forall n, n ∈ new -> de_path n <> tm_path t.
Proof.
  intros (Hp & e & He & ->)%Hops. simpl. split; [done|]. split; [done|].
  apply (dk_removed _ _ _ Hd), elem_of_app. by left.
Qed.

Lemma planned_pre : Forall (op_pre (entry_map old)) ops.
Proof.
  apply Forall_forall. intros op Hop. destruct op as [e|b a|f t|tomb]; simpl.
  - apply planned_put in Hop as [_ Ho]. by apply entry_map_None.
  - apply Hops in Hop as (_ & Hb & _). by apply entry_map_lookup.
  - apply Hops in Hop as [_ Hr]. apply renamed_split in Hr as [[Hf _] [_ Ht]].
    split; [by apply entry_map_lookup|by apply entry_map_None].
  - apply planned_delete in Hop as (_ & _ & Ho & _). by apply entry_map_lookup.
Qed.

(** What an operation writes is what the aimed-at tree has. *)
Lemma planned_writes op k v :
  op ∈ ops -> op_writes op k v -> mirrored p (entry_map new) (entry_map old) !! k = v.
Proof.
  assert (Hin : forall e, e ∈ new ->
    mirrored p (entry_map new) (entry_map old) !! de_path e = Some e).
  { intros e He. assert (K : entry_map new !! de_path e = Some e) by by apply entry_map_lookup.
    destruct p; simpl; [|done]. by apply lookup_union_Some_l. }
  intros Hop. destruct op as [e|b a|f t|tomb]; simpl.
  - intros [-> ->]. apply Hin. by apply planned_put.
  - intros [-> ->]. apply Hin. apply Hops in Hop as (Ha & _). by apply (dk_modified _ _ _ Hd).
  - apply Hops in Hop as [Hp Hr]. apply renamed_split in Hr as [[_ Hf] [Ht _]].
    intros [[-> ->]|[-> ->]]; [by apply Hin|]. rewrite Hp. simpl. by apply entry_map_None.
  - intros [-> ->]. apply planned_delete in Hop as (Hp & _ & _ & Hn). rewrite Hp. simpl.
    by apply entry_map_None.
Qed.

Lemma sorted_unique l a b :
  StronglySorted entry_lt l -> a ∈ l -> b ∈ l -> de_path a = de_path b -> a = b.
Proof.
  intros Hl Ha Hb E.
  assert (K1 : entry_map l !! de_path b = Some a) by by apply entry_map_lookup.
  assert (K2 : entry_map l !! de_path b = Some b) by by apply entry_map_lookup.
  congruence.
Qed.

(** A path of the old tree that changes is a path some operation writes. *)
Lemma unwritten_same k :
  (forall op v, op ∈ ops -> ~ op_writes op k v) ->
  mirrored p (entry_map new) (entry_map old) !! k = entry_map old !! k.
Proof.
  intros Hno. assert (Hsrc : forall e, entry_map new !! k = Some e -> entry_map old !! k = Some e).
  { intros e [He <-]%entry_map_lookup; [|done].
    destruct (entry_map old !! de_path e) as [o|] eqn:Eo.
    - apply entry_map_lookup in Eo as [Ho Ep]; [|done]. f_equal. apply dec_stable. intros Hne.
      apply (Hno (RReplace o e) (Some e)); [|done]. apply Hops. split; [|done].
      apply (dk_modified _ _ _ Hd). split; [done|]. by exists o.
    - exfalso. pose proof (proj1 (entry_map_None _ _ Hold) Eo) as Hn.
      assert (Ha : e ∈ df_added d ++ (rn_to <$> df_renamed d)) by by apply (dk_added _ _ _ Hd).
      apply elem_of_app in Ha as [Ha|Ha].
      { apply (Hno (RPut e) (Some e)); [|done]. apply Hops. by left. }
      destruct p eqn:Ep.
      { apply (Hno (RPut e) (Some e)); [|done]. apply Hops. by right. }
      apply list_elem_of_fmap in Ha as ([f t] & -> & Hr).
      apply (Hno (RMove f t) (Some t)); [by apply Hops|]. by left. }
  destruct (entry_map new !! k) as [e|] eqn:Ee.
  { rewrite (Hsrc e) by done. destruct p; simpl; [|done]. by apply lookup_union_Some_l. }
  destruct p eqn:Ep; simpl; [by rewrite lookup_union_r|]. rewrite Ee. symmetry.
  apply eq_None_not_Some. intros [o [Ho <-]%entry_map_lookup]; [|done].
  pose proof (proj1 (entry_map_None _ _ Hnew) Ee) as Hn.
  assert (Hr : o ∈ df_removed d ++ (rn_from <$> df_renamed d)) by by apply (dk_removed _ _ _ Hd).
  apply elem_of_app in Hr as [Hr|([f t] & -> & Hr)%list_elem_of_fmap].
  - apply (Hno (RDelete (mkTombstone (de_path o) o revision)) None); [|done].
    apply Hops. split; [done|]. by exists o.
  - apply (Hno (RMove f t) None); [by apply Hops|]. by right.
Qed.

Lemma apply_planned :
  NoDup (ops_keys ops) -> Forall (fun op => op_validate op = Ok tt) ops ->
  try_fold apply_op (entry_map old) ops = Ok (mirrored p (entry_map new) (entry_map old)).
Proof.
  intros Hn Hv. destruct (apply_ops_ok ops (entry_map old) Hn Hv planned_pre) as (m' & E & Hw & Hk).
  rewrite E. f_equal. apply map_eq. intros k.
  destruct (decide (k ∈ ops_keys ops)) as [Hi|Hi].
  - apply elem_of_ops_keys in Hi as (op & Hop & Hi).
    destruct (op_key_written op k Hi) as [v Hwr].
    rewrite (Hw op k v Hop Hwr). symmetry. by apply (planned_writes op).
  - rewrite Hk by done. symmetry. apply unwritten_same. intros op v Hop Hwr. apply Hi.
    apply elem_of_ops_keys. exists op. split; [done|]. by apply (op_writes_keys _ _ v).
Qed.

End Mirror.

(** A map keyed by the paths of its entries. *)
Definition keyed (m : gmap bytes DirectoryEntry) : Prop :=
  forall k e, m !! k = Some e -> de_path e = k.

Lemma keyed_values m k e : keyed m -> e ∈ map_values m /\ de_path e = k <-> m !! k = Some e.
Proof.
  intros Hk. unfold map_values. rewrite list_elem_of_fmap. split.
  - intros [([k' e'] & -> & He) <-]. apply elem_of_btree_items in He. simpl in *.
    by rewrite (Hk k' e').
  - intros He. split; [|by apply Hk]. exists (k, e). split; [done|]. by apply elem_of_btree_items.
Qed.

Lemma entry_map_keyed l : StronglySorted entry_lt l -> keyed (entry_map l).
Proof. intros Hl k e He. by apply entry_map_lookup in He as [_ <-]. Qed.

Lemma mirrored_keyed p new old :
  StronglySorted entry_lt new -> StronglySorted entry_lt old ->
  keyed (mirrored p (entry_map new) (entry_map old)).
Proof.
  intros Hn%entry_map_keyed Ho%entry_map_keyed k e. destruct p; simpl; [|apply Hn].
  intros [He|[_ He]]%lookup_union_Some_raw; [by apply Hn|by apply Ho].
Qed.

Section OneWay.
  Context `{Blake3, Postcard DirectoryEntry}.

Lemma replace_op_ok m after op :
  StronglySorted entry_lt (dm_entries m) ->
  replace_op m after = Ok op ->
  exists before, op = RReplace before after /\ before ∈ dm_entries m /\
    de_path before = de_path after.
Proof.
  intros Hs. unfold replace_op. destruct (binary_search_by _ _) as [i|] eqn:Ei; [|done].
  apply binary_search_ok in Ei as (before & Eb & Ec). rewrite Eb. intros [= <-].
  apply bytes_compare_eq in Ec. exists before. split_and!; [done| |done].
  by apply list_elem_of_lookup_2 in Eb.
Qed.

(** A plan holds exactly the operations its difference calls for. *)
Lemma one_way_ok source destination p r :
  one_way source destination p = Ok r ->
  manifest_verify source = Ok tt /\ manifest_verify destination = Ok tt /\
  exists plan d, r = Some plan /\ plan_verify plan = Ok tt /\
    rp_source_revision plan = dm_root source /\
    rp_expected_destination_revision plan = dm_root destination /\
    rp_delete_policy plan = p /\
    diff_ok (dm_entries destination) (dm_entries source) d /\
    forall op, op ∈ rp_operations plan <->
      planned (dm_root source) (dm_entries destination) p d op.
Proof.
  unfold one_way, Revision_from_manifest, manifest_diff.
  destruct (manifest_verify source) as [[]|] eqn:Es; [|done].
  destruct (manifest_verify destination) as [[]|] eqn:Ed; [|done].
  pose proof (proj1 (manifest_verify_ok _) Es) as (_ & Hs & _).
  pose proof (proj1 (manifest_verify_ok _) Ed) as (_ & Hd & _).
  destruct (diff_entries_ok (dm_entries destination) (dm_entries source) Hd Hs) as (d & -> & Hdiff).
  destruct (try_map _ _) as [replaces|] eqn:Er; [|done].
  destruct (plan_verify _) as [[]|] eqn:Ev; [|done]. intros [= <-].
  split; [done|]. split; [done|]. eexists _, d. split_and!; try done. simpl. intros op.
  rewrite merge_sort_Permutation, !elem_of_app, !list_elem_of_fmap.
  apply try_map_ok in Er.
  assert (Hrep : op ∈ replaces <-> exists b a, op = RReplace b a /\ a ∈ df_modified d /\
    b ∈ dm_entries destination /\ de_path b = de_path a).
  { split.
    - intros Ho. destruct (proj1 (list_elem_of_lookup _ _) Ho) as [i Hi].
      destruct (Forall2_lookup_r _ _ _ _ _ Er Hi) as (a & Ha & Ea).
      apply replace_op_ok in Ea as (b & -> & ? & ?); [|done].
      exists b, a. split_and!; try done. by apply list_elem_of_lookup_2 in Ha.
    - intros (b & a & -> & Ha & Hb & Ep).
      destruct (proj1 (list_elem_of_lookup _ _) Ha) as [i Hi].
      destruct (Forall2_lookup_l _ _ _ _ _ Er Hi) as (op & Ho & Ea).
      apply replace_op_ok in Ea as (b' & -> & Hb' & Ep'); [|done].
      rewrite (sorted_unique (dm_entries destination) b b') by (congruence || done).
      by apply list_elem_of_lookup_2 in Ho. }
  rewrite Hrep. clear Er Hrep Ev. destruct p.
  - rewrite bool_decide_eq_true_2, bool_decide_eq_false_2 by done.
    destruct op; simpl; set_solver.
  - rewrite bool_decide_eq_false_2, bool_decide_eq_true_2 by done.
    destruct op; simpl; [set_solver|set_solver| |set_solver].
    split; [|intros [_ Hr]; left; by exists (mkRename from to)].
    intros [([] & [= -> ->] & Hr)|Hr]; [done|set_solver].
Qed.

Lemma one_way_projects source destination p r :
  one_way source destination p = Ok r ->
  exists plan, r = Some plan /\
    project_destination plan destination
    = from_entries (map_values (mirrored p (entry_map (dm_entries source))
                                  (entry_map (dm_entries destination)))).
Proof.
  intros (Hs & Hd & plan & d & -> & Hv & _ & Er & _ & Hdiff & Hops)%one_way_ok.
  exists plan. split; [done|]. unfold project_destination, Revision_from_manifest.
  rewrite Hv, Hd, Er, bool_decide_eq_true_2 by done. simpl.
  apply plan_verify_ok in Hv as [Hv Hn].
  apply manifest_verify_ok in Hs as (_ & Hs & _), Hd as (_ & Hd & _).
  by rewrite (apply_planned (dm_root source) _ (dm_entries source) p d).
Qed.

(** C14: A one-way plan under [Delete] turns the destination it was made for into an
    exact copy of the source: the manifest it projects is the source manifest itself,
    root digest included.  A plan made from two verified manifests is never a panic. *)
Theorem one_way_mirrors_source source destination r :
  one_way source destination DpDelete = Ok r ->
  exists plan, r = Some plan /\ project_destination plan destination = Ok source.
Proof.
  intros Hw. pose proof (one_way_ok _ _ _ _ Hw) as (Hs & _).
  destruct (one_way_projects _ _ _ _ Hw) as (plan & -> & E). exists plan. split; [done|].
  rewrite E. simpl. apply from_entries_ok. split; [|done].
  apply manifest_verify_ok in Hs as (_ & Hs & _). by rewrite entry_map_values.
Qed.

(** A one-way plan under [Keep] never loses anything of the destination: if its
    projection is a manifest at all, every path of the source has the source's entry
    there and every other path of the destination keeps its own; and the plan consists
    of creations and replacements only. *)
Theorem one_way_keep_preserves source destination r :
  one_way source destination DpKeep = Ok r ->
  exists plan, r = Some plan /\
    (forall op, op ∈ rp_operations plan ->
       (exists e, op = RPut e) \/ exists before after, op = RReplace before after) /\
    forall m, project_destination plan destination = Ok m ->
      forall path, entry_map (dm_entries m) !! path =
        match entry_map (dm_entries source) !! path with
        | Some e => Some e
        | None => entry_map (dm_entries destination) !! path
        end.
Proof.
  intros Hw. pose proof (one_way_ok _ _ _ _ Hw) as (Hs & Hd & plan & d & -> & _ & _ & _ & _ & _ & Hops).
  destruct (one_way_projects _ _ _ _ Hw) as (plan' & [= <-] & E).
  exists plan. split; [done|]. split.
  { intros op Hop%Hops. destruct op; simpl in Hop; [by left; eexists|by right; do 2 eexists|..];
      by destruct Hop. }
  intros m Hm path. rewrite E in Hm. apply from_entries_ok in Hm as [Hp Hm].
  apply manifest_verify_ok in Hm as (_ & Hm & _).
  assert (Em : entry_map (dm_entries m)
    = mirrored DpKeep (entry_map (dm_entries source)) (entry_map (dm_entries destination))).
  { apply map_eq. intros k. apply option_eq. intros e.
    rewrite entry_map_lookup, Hp by done. by apply keyed_values, mirrored_keyed;
      apply manifest_verify_ok. }
  rewrite Em. simpl. rewrite lookup_union. by destruct (entry_map (dm_entries source) !! path),
    (entry_map (dm_entries destination) !! path).
Qed.

End OneWay.

(** ** Every step of a plan leaves a tree *)

(** Every entry lies directly below the root or in a directory. *)
Definition tree_closed (m : gmap bytes DirectoryEntry) : Prop :=
  forall k e parent, m !! k = Some e -> path_parent k = Some parent ->
    exists d, m !! parent = Some d /\ de_kind d = EkDirectory.

#[export] Instance op_le_trans : Transitive op_le.
Proof.
  intros a b c [Hab|(Hab & [Hd|[Hd Hp]])] [Hbc|(Hbc & [Hd'|[Hd' Hp']])]; unfold op_le;
    try (left; lia); right; (split; [lia|]); try (left; lia).
  right. split; [lia|]. by transitivity (op_path b).
Qed.

Lemma plan_verify_sorted plan :
  plan_verify plan = Ok tt -> StronglySorted op_le (rp_operations plan).
Proof.
  unfold plan_verify. destruct (_ <? _); [done|]. destruct (try_fold _ _ _); [|done].
  destruct (negb _); [done|]. destruct (any_adjacent _ _) eqn:E; [done|]. intros _. revert E.
  apply any_adjacent_sorted; [apply _|]. intros x y K.
  apply negb_false_iff in K. by apply bool_decide_eq_true_1 in K.
Qed.

Lemma join_split s : join "/" (split_on is_slash s) = s.
Proof.
  induction s as [|c s IH]; [done|]. simpl. destruct (split_on_cons is_slash s) as (w & ws & E).
  rewrite E in *. destruct (is_slash c) eqn:Ec.
  - apply bool_decide_eq_true in Ec as ->. simpl in *. by rewrite IH.
  - destruct ws; simpl in *; by rewrite <-IH.
Qed.

Lemma bytes_lt_prefix a c b : bytes_lt a (a ++ c :: b).
Proof.
  unfold bytes_lt. induction a as [|x a IH]; simpl; [done|]. by rewrite N.compare_refl.
Qed.

Lemma path_parent_app k parent :
  path_parent k = Some parent ->
  (exists name, k = parent ++ "/"%char :: name) /\ depth k = depth parent + 1.
Proof.
  unfold path_parent, depth. pose proof (join_split k) as Hj. pose proof (split_on_forall is_slash k) as Hf.
  destruct (split_on_cons is_slash k) as (w0 & ws0 & E0).
  destruct (split_on is_slash k) as [|x ws _] using rev_ind; [done|]. clear E0.
  rewrite rev_app_distr. simpl. destruct (rev ws) as [|y r] eqn:Er; [done|].
  intros [= <-]. apply (f_equal (@rev _)) in Er. rewrite rev_involutive in Er. simpl in Er.
  rewrite <-Er. assert (Hne : ws <> []) by (rewrite Er; by destruct (rev r)).
  apply Forall_app in Hf as [Hf _]. rewrite split_join by done. split.
  - exists x. by rewrite <-Hj, join_snoc.
  - unfold zlen. rewrite length_app. simpl. lia.
Qed.

Lemma path_parent_spec k parent :
  path_parent k = Some parent -> bytes_lt parent k /\ depth k = depth parent + 1.
Proof.
  intros [[name ->] Hd]%path_parent_app. split; [apply bytes_lt_prefix|done].
Qed.

Lemma sorted_app_le {A} (R : A -> A -> Prop) l1 l2 a b :
  StronglySorted R (l1 ++ l2) -> a ∈ l1 -> b ∈ l2 -> R a b.
Proof.
  induction l1 as [|x l1 IH]; [set_solver|]. simpl. intros Hs Ha Hb.
  apply StronglySorted_inv in Hs as [Hs Hf].
  apply elem_of_cons in Ha as [->|Ha]; [|by apply IH].
  rewrite Forall_forall in Hf. apply Hf. set_solver.
Qed.

Section PrefixTree.
  Context (revision : Revision) (old new : list DirectoryEntry) (p : DeletePolicy).
  Context (d : DirectoryDiff) (l1 l2 : list ReconcileOperation).
  Context (Hold : StronglySorted entry_lt old) (Hnew : StronglySorted entry_lt new).
  Context (Told : validate_hierarchy old = Ok tt) (Tnew : validate_hierarchy new = Ok tt).
  Context (Hd : diff_ok old new d).
  Context (Hops : forall op, op ∈ l1 ++ l2 <-> planned revision old p d op).
  Context (Hkeys : NoDup (ops_keys (l1 ++ l2))).
  Context (Hvalid : Forall (fun op => op_validate op = Ok tt) (l1 ++ l2)).
  Context (Hsorted : StronglySorted op_le (l1 ++ l2)).

Lemma hierarchy_parent l e parent :
  StronglySorted entry_lt l -> validate_hierarchy l = Ok tt -> e ∈ l ->
  path_parent (de_path e) = Some parent ->
  exists d, d ∈ l /\ de_path d = parent /\ de_kind d = EkDirectory.
Proof.
  intros Hs Ht He Hp. unfold validate_hierarchy in Ht. apply try_for_each_ok in Ht.
  rewrite Forall_forall in Ht. by apply (validate_parent_ok l e Hs); [apply Ht|].
Qed.

Lemma op_valid op : op ∈ l1 ++ l2 -> op_validate op = Ok tt.
Proof. revert op. by apply Forall_forall. Qed.

Lemma planned_no_directory b a :
  RReplace b a ∈ l1 ++ l2 -> de_kind b <> EkDirectory /\ de_kind a <> EkDirectory.
Proof.
  intros Hv%op_valid. simpl in Hv. destruct (entry_validate b) as [[]|]; [|done].
  destruct (entry_validate a) as [[]|]; [|done]. destruct (_ || _); [done|].
  do 2 (case_bool_decide; [done|]). done.
Qed.

(** The paths a plan touches are not those of entries both trees share. *)
Lemma shared_untouched e : e ∈ old -> e ∈ new -> ~ (de_path e ∈ ops_keys (l1 ++ l2)).
Proof.
  intros Ho Hn (op & Hop & Hk)%elem_of_ops_keys. unfold op_keys in Hk.
  destruct op as [e'|b a|f t|tomb]; simpl in Hk.
  - apply (planned_put revision old new p d _ Hd Hops) in Hop as [_ K]. apply (K e); set_solver.
  - apply Hops in Hop as (Ha & _). apply (dk_modified _ _ _ Hd) in Ha as (Ha & o & Ho' & Ep & Hne).
    apply Hne. assert (a = e) as -> by (apply (sorted_unique new); [done..|set_solver]).
    by apply (sorted_unique old).
  - apply Hops in Hop as [_ Hr]. apply (renamed_split old new d Hd) in Hr as [[_ Hf] [_ Ht]].
    apply elem_of_cons in Hk as [Hk|Hk]; [by apply (Ht e)|].
    apply list_elem_of_singleton in Hk. by apply (Hf e).
  - apply (planned_delete revision old new p d _ Hd Hops) in Hop as (_ & _ & _ & K).
    apply (K e); set_solver.
Qed.

(** A directory only the new tree has is created before anything is put in it. *)
Lemma parent_before op e parent :
  op ∈ l1 -> op_path op = de_path e -> op_rank op <= 3 ->
  path_parent (de_path e) = Some (de_path parent) -> de_kind parent = EkDirectory ->
  RPut parent ∈ l1 ++ l2 -> RPut parent ∈ l1.
Proof.
  intros Hop Hpath Hrank Hp Hk [Hin|Hin]%elem_of_app; [done|exfalso].
  pose proof (sorted_app_le _ _ _ _ _ Hsorted Hop Hin) as Hle.
  apply path_parent_spec in Hp as [Hlt _].
  assert (op_rank (RPut parent) = 0) as R0 by (simpl; by rewrite bool_decide_eq_true_2).
  assert (0 <= op_rank op) as Rpos by (destruct op; simpl; try case_bool_decide; simpl; lia).
  assert (op_depth op = 0) as D0 by (unfold op_depth; destruct (4 <=? op_rank op) eqn:E; b2p; lia).
  assert (op_depth (RPut parent) = 0) as D1 by (unfold op_depth; rewrite R0; done).
  destruct Hle as [Hle|(_ & [Hle|[_ Hle]])]; [lia|lia|]. rewrite Hpath in Hle. simpl in Hle.
  by apply bytes_not_le in Hlt.
Qed.

Lemma written_parent (m : gmap bytes DirectoryEntry) op e parent :
  (forall op k v, op ∈ l1 -> op_writes op k v -> m !! k = v) ->
  (forall k, ~ (k ∈ ops_keys l1) -> m !! k = entry_map old !! k) ->
  op ∈ l1 -> op_writes op (de_path e) (Some e) -> path_parent (de_path e) = Some parent ->
  exists dir, m !! parent = Some dir /\ de_kind dir = EkDirectory.
Proof.
  intros Hw Hk Hop Hwr Hp. assert (Hall : op ∈ l1 ++ l2) by (apply elem_of_app; by left).
  assert (He : e ∈ new /\ op_path op = de_path e /\ op_rank op <= 3).
  { pose proof (planned_writes revision old new p d _ Hnew Hd Hops op _ _ Hall Hwr) as Hm.
    destruct op as [e'|b a|f t|tomb]; simpl in *.
    - destruct Hwr as [_ [= ->]]. split; [by apply (planned_put revision old new p d _ Hd Hops)|].
      split; [done|]. case_bool_decide; lia.
    - destruct Hwr as [_ [= ->]]. split; [|split; [done|lia]].
      apply Hops in Hall as (Ha & _). by apply (dk_modified _ _ _ Hd).
    - destruct Hwr as [[_ [= ->]]|[_ K]]; [|done]. split; [|split; [done|lia]].
      apply Hops in Hall as [_ Hr]. by apply (renamed_split old new d Hd) in Hr as [_ [? _]].
    - by destruct Hwr. }
  destruct He as (He & Hpath & Hrank).
  destruct (hierarchy_parent new e parent Hnew Tnew He Hp) as (dir & Hdn & <- & Hkind).
  exists dir. split; [|done].
  destruct (entry_map old !! de_path dir) as [o|] eqn:Eo.
  - pose proof (proj1 (entry_map_lookup _ _ _ Hold) Eo) as [Ho Ep].
    destruct (decide (o = dir)) as [->|Hne].
    + rewrite Hk; [done|]. intros Hin. apply (shared_untouched dir); [done|done|].
      unfold ops_keys in *. rewrite fmap_app, concat_app. apply elem_of_app. by left.
    + exfalso. destruct (planned_no_directory o dir) as [_ K]; [|done].
      apply Hops. split; [|done]. apply (dk_modified _ _ _ Hd). split; [done|]. by exists o.
  - apply (Hw (RPut dir)); [|done]. apply (parent_before op e); try done.
    pose proof (proj1 (entry_map_None _ _ Hold) Eo) as Hn.
    assert (Ha : dir ∈ df_added d ++ (rn_to <$> df_renamed d)) by by apply (dk_added _ _ _ Hd).
    apply Hops. apply elem_of_app in Ha as [Ha|Ha]; [by left|].
    apply list_elem_of_fmap in Ha as (r & -> & Hr). exfalso.
    pose proof (dk_renamed _ _ _ Hd) as Hrn. rewrite Forall_forall in Hrn.
    destruct (Hrn _ Hr) as [[= Ek _ _ _] Hnd]. congruence.
Qed.

(** What only the old tree has is deleted, or moved away first. *)
Lemma removed_operation e :
  e ∈ old -> (forall n, n ∈ new -> de_path n <> de_path e) -> p = DpDelete ->
  exists op, op ∈ l1 ++ l2 /\ de_path e ∈ op_keys op /\
    (op_rank op < 5 \/ op_rank op = 5 /\ op_path op = de_path e).
Proof.
  intros He Hn Hp.
  assert (Hr : e ∈ df_removed d ++ (rn_from <$> df_renamed d)) by by apply (dk_removed _ _ _ Hd).
  apply elem_of_app in Hr as [Hr|([f t] & -> & Hr)%list_elem_of_fmap].
  - exists (RDelete (mkTombstone (de_path e) e revision)). split_and!; [|set_solver|].
    { apply Hops. split; [done|]. by exists e. }
    simpl. case_bool_decide; simpl; [right|left; lia]. done.
  - exists (RMove f t). split; [by apply Hops|]. split; [unfold op_keys; simpl; set_solver|].
    left. simpl. lia.
Qed.

(** A directory of the old tree goes only after everything in it. *)
Lemma kept_parent (m : gmap bytes DirectoryEntry) e parent :
  (forall k, ~ (k ∈ ops_keys l1) -> m !! k = entry_map old !! k) ->
  e ∈ old -> ~ (de_path e ∈ ops_keys l1) -> path_parent (de_path e) = Some parent ->
  exists dir, m !! parent = Some dir /\ de_kind dir = EkDirectory.
Proof.
  intros Hk He Hne Hp.
  destruct (hierarchy_parent old e parent Hold Told He Hp) as (dir & Hdo & <- & Hkind).
  exists dir. split; [|done]. rewrite Hk; [by apply entry_map_lookup|].
  intros (op & Hop & Hin)%elem_of_ops_keys. unfold op_keys in Hin.
  assert (Hall : op ∈ l1 ++ l2) by (apply elem_of_app; by left).
  destruct op as [e'|b a|f t|tomb]; simpl in Hin.
  - apply (planned_put revision old new p d _ Hd Hops) in Hall as [_ K].
    apply (K dir); [done|set_solver].
  - destruct (planned_no_directory _ _ Hall) as [K _]. apply Hops in Hall as (_ & Hb & Ep).
    apply list_elem_of_singleton in Hin.
    apply K. rewrite (sorted_unique old b dir); [done..|congruence].
  - pose proof (op_valid _ Hall) as Hv. apply Hops in Hall as [_ Hr].
    pose proof (dk_renamed _ _ _ Hd) as Hrn. rewrite Forall_forall in Hrn.
    destruct (Hrn _ Hr) as [_ Hnd]. apply (renamed_split old new d Hd) in Hr as [[Hf _] [_ Ht]].
    simpl in Hnd. apply elem_of_cons in Hin as [Hin|Hin]; [by apply (Ht dir)|].
    apply list_elem_of_singleton in Hin. apply Hnd. by rewrite (sorted_unique old f dir).
  - apply (planned_delete revision old new p d _ Hd Hops) in Hall as (Hpd & Et & Ho & K).
    apply list_elem_of_singleton in Hin. assert (Edir : tm_path tomb = de_path dir) by done.
    assert (tm_previous tomb = dir) as Eprev by (apply (sorted_unique old); [done..|congruence]).
    assert (Hen : forall n, n ∈ new -> de_path n <> de_path e).
    { intros n Hn En. rewrite <-En in Hp.
      destruct (hierarchy_parent new n _ Hnew Tnew Hn Hp) as (dir' & Hdn & Epd & _).
      apply (K dir' Hdn). congruence. }
    destruct (removed_operation e He Hen Hpd) as (op & Hop' & Hkey & Hrank).
    apply elem_of_app in Hop' as [Hop'|Hop'].
    { apply Hne, elem_of_ops_keys. by exists op. }
    pose proof (sorted_app_le _ _ _ _ _ Hsorted Hop Hop') as Hle.
    apply path_parent_spec in Hp as [_ Hdep].
    assert (R5 : op_rank (RDelete tomb) = 5) by (simpl; by rewrite Eprev, Hkind).
    assert (D5 : op_depth (RDelete tomb) = depth (de_path dir))
      by (unfold op_depth; rewrite R5; simpl; by rewrite Edir).
    destruct Hrank as [Hrank|[Hrank Hpath]], Hle as [Hle|(Hr & Hle)]; try lia.
    assert (D5' : op_depth op = depth (de_path e))
      by (unfold op_depth; rewrite Hrank, Hpath; done).
    destruct Hle as [Hle|[Hle _]]; lia.
Qed.

End PrefixTree.

(** A plan can be carried out one operation at a time on a file system that needs
    parents before children: after any number of its operations every precondition has
    held and every remaining entry still lies in a directory.  Directories are created
    before what goes in them and removed only when empty. *)
Theorem one_way_steps_keep_tree `{Blake3, Postcard DirectoryEntry} source destination p plan l1 l2 :
  one_way source destination p = Ok (Some plan) -> rp_operations plan = l1 ++ l2 ->
  exists m, try_fold apply_op (entry_map (dm_entries destination)) l1 = Ok m /\ tree_closed m.
Proof.
  intros (Hs & Hd & plan' & d & [= <-] & Hv & _ & _ & _ & Hdiff & Hops)%one_way_ok El.
  pose proof (plan_verify_sorted _ Hv) as Hsorted. apply plan_verify_ok in Hv as [Hv Hn].
  rewrite El in *. apply manifest_verify_ok in Hs as (_ & Hs & _ & Ts), Hd as (_ & Hd & _ & Td).
  pose proof (planned_pre _ _ _ p d _ Hd Hdiff Hops) as Hpre.
  apply Forall_app in Hpre as [Hpre _]. pose proof Hv as Hv1. apply Forall_app in Hv1 as [Hv1 _].
  assert (Hn1 : NoDup (ops_keys l1)).
  { unfold ops_keys in *. rewrite fmap_app, concat_app in Hn. by apply NoDup_app in Hn as [? _]. }
  destruct (apply_ops_ok l1 _ Hn1 Hv1 Hpre) as (m & Em & Hw & Hk).
  exists m. split; [done|]. intros k e parent He Hp.
  destruct (decide (k ∈ ops_keys l1)) as [Hin|Hin].
  - pose proof Hin as (op & Hop & Hko)%elem_of_ops_keys.
    destruct (op_key_written op k Hko) as [v Hwr]. pose proof (Hw _ _ _ Hop Hwr) as Hv'.
    rewrite He in Hv'. subst v.
    assert (Ek : de_path e = k) by (destruct op; simpl in Hwr; naive_solver). subst k.
    eapply (written_parent (dm_root source) (dm_entries destination) (dm_entries source));
      eassumption.
  - rewrite (Hk _ Hin) in He. apply entry_map_lookup in He as [He <-]; [|done].
    eapply (kept_parent (dm_root source) (dm_entries destination) (dm_entries source));
      eassumption.
Qed.

(** ** Conflicts *)

(** [ancestor_of q k]: [k] is reached from [q] by going up at least once. *)
Definition ancestor_of : bytes -> bytes -> Prop := tc (fun q k => path_parent q = Some k).

(** A directory that [side] keeps and [other] does not. *)
Definition dropped_dir (base side other : gmap bytes DirectoryEntry) (k : bytes) : Prop :=
  is_dir base k = true /\ is_dir side k = true /\ is_dir other k = false.

Lemma ancestor_of_parent q k :
  ancestor_of q k <->
  exists parent, path_parent q = Some parent /\ (parent = k \/ ancestor_of parent k).
Proof.
  split.
  - intros Hk. inversion Hk; subst; [eauto|]. eexists. split; [done|].
    right. done.
  - intros (parent & Hp & [<-|Hk]); [by apply tc_once|]. by eapply tc_l.
Qed.

Lemma elem_of_ancestor_conflicts fuel base side other q acc k :
  (length q <= fuel)%nat ->
  k ∈ ancestor_conflicts fuel base side other q acc <->
  k ∈ acc \/ ancestor_of q k /\ dropped_dir base side other k.
Proof.
  revert q acc. induction fuel as [|fuel IH]; intros q acc Hf; simpl; rewrite ancestor_of_parent.
  - destruct q; simpl in Hf; [|lia]. split; [by left|]. by intros [?|((? & ? & _) & _)].
  - destruct (path_parent q) as [parent|] eqn:Ep.
    + pose proof Ep as [[name E] _]%path_parent_app.
      rewrite IH by (subst q; rewrite length_app in Hf; simpl in Hf; lia).
      unfold dropped_dir.
      destruct (is_dir base parent) eqn:E1, (is_dir side parent) eqn:E2,
        (is_dir other parent) eqn:E3; simpl; set_unfold; naive_solver congruence.
    + split; [by left|]. by intros [?|((? & ? & _) & _)].
Qed.

(** What makes a path a conflict. *)
Definition conflicting (base local remote : gmap bytes DirectoryEntry) (k : bytes) : Prop :=
  (base !! k <> local !! k /\ base !! k <> remote !! k /\ local !! k <> remote !! k) \/
  (exists q, ancestor_of q k /\ base !! q <> local !! q /\ dropped_dir base local remote k) \/
  (exists q, ancestor_of q k /\ base !! q <> remote !! q /\ dropped_dir base remote local k).

(** What one changed path adds to the conflicts. *)
Definition contributes (base local remote : gmap bytes DirectoryEntry) (q k : bytes) : Prop :=
  (k = q /\ base !! k <> local !! k /\ base !! k <> remote !! k /\ local !! k <> remote !! k) \/
  (ancestor_of q k /\ base !! q <> local !! q /\ dropped_dir base local remote k) \/
  (ancestor_of q k /\ base !! q <> remote !! q /\ dropped_dir base remote local k).

Lemma elem_of_path_conflicts base local remote acc q k :
  k ∈ path_conflicts base local remote acc q <-> k ∈ acc \/ contributes base local remote q k.
Proof.
  unfold path_conflicts, contributes.
  case_bool_decide as E1; case_bool_decide as E2; simpl.
  - naive_solver.
  - rewrite elem_of_ancestor_conflicts by done. naive_solver.
  - rewrite elem_of_ancestor_conflicts by done. naive_solver.
  - rewrite !elem_of_ancestor_conflicts by done.
    case_bool_decide as E3; simpl; [naive_solver|]. rewrite elem_of_union, elem_of_singleton.
    split; [intros [[[->|?]|?]|?]|intros [?|[(-> & _)|[?|?]]]]; tauto.
Qed.

Lemma elem_of_fold_conflicts base local remote acc qs k :
  k ∈ foldl (path_conflicts base local remote) acc qs <->
  k ∈ acc \/ exists q, q ∈ qs /\ contributes base local remote q k.
Proof.
  revert acc. induction qs as [|q qs IH]; intros acc; simpl; [set_solver|].
  rewrite IH, elem_of_path_conflicts. set_solver.
Qed.

Lemma elem_of_set_items s k : k ∈ set_items s <-> k ∈ s.
Proof. unfold set_items. by rewrite merge_sort_Permutation, elem_of_elements. Qed.

(** Conflict detection reports exactly the paths that changed differently on both
    sides and the directories one side still has, with changes below, that the other
    side no longer has; each once, in path order, with the entries of the three trees. *)
Theorem conflicts_exact `{Blake3, Postcard DirectoryEntry} base local remote records :
  conflicts base local remote = Ok records ->
  let b := entry_map (dm_entries base) in
  let l := entry_map (dm_entries local) in
  let r := entry_map (dm_entries remote) in
  exists paths,
    records = (fun k => mkConflict k (b !! k) (l !! k) (r !! k)) <$> paths /\
    NoDup paths /\ StronglySorted bytes_le paths /\
    forall k, k ∈ paths <-> conflicting b l r k.
Proof.
  intros Hc b l r. unfold conflicts in Hc. destruct (manifest_verify base) as [[]|]; [|done].
  destruct (manifest_verify local) as [[]|]; [|done].
  destruct (manifest_verify remote) as [[]|]; [|done]. injection Hc as <-.
  eexists. split; [done|]. split_and!.
  - unfold set_items. rewrite merge_sort_Permutation. apply NoDup_elements.
  - apply StronglySorted_merge_sort; apply _.
  - intros k. rewrite elem_of_set_items, elem_of_fold_conflicts. fold b l r.
    setoid_rewrite elem_of_set_items.
    assert (Hdom : forall q, b !! q <> l !! q \/ b !! q <> r !! q -> q ∈ dom b ∪ dom l ∪ dom r).
    { intros q Hq. rewrite !elem_of_union, !elem_of_dom.
      destruct (b !! q), (l !! q), (r !! q); eauto; naive_solver. }
    unfold contributes, conflicting. set_unfold. split.
    + naive_solver.
    + intros [(? & ? & ?)|[(q & ? & ? & ?)|(q & ? & ? & ?)]]; right; [exists k|exists q|exists q];
        (split; [apply Hdom; tauto|tauto]).
Qed.

(** ** Witnesses *)

Section Witnesses.
  #[local] Existing Instance wit_dir_blake3.
  #[local] Existing Instance wit_dir_postcard.

Definition wit_source : DirectoryManifest := wit_manifest wit_new_entries.
Definition wit_destination : DirectoryManifest := wit_manifest wit_old_entries.

Definition wit_plan (p : DeletePolicy) : ReconcilePlan :=
  match one_way wit_source wit_destination p with
  | Ok (Some plan) => plan
  | _ => mkPlan [] [] p []
  end.

Lemma wit_one_way p : one_way wit_source wit_destination p = Ok (Some (wit_plan p)).
Proof. destruct p; vm_compute; reflexivity. Qed.

(** The plan creates the new directory, moves the file, replaces the notes and removes
    the old directory, in that order. *)
Lemma wit_plan_operations :
  op_rank <$> rp_operations (wit_plan DpDelete) = [0; 1; 3; 5].
Proof. vm_compute. reflexivity. Qed.

Lemma one_way_mirrors_witness :
  exists plan, project_destination plan wit_destination = Ok wit_source.
Proof.
  destruct (one_way_mirrors_source _ _ _ (wit_one_way DpDelete)) as (plan & _ & E).
  exists plan. exact E.
Defined.

Definition wit_kept : DirectoryManifest :=
  match project_destination (wit_plan DpKeep) wit_destination with
  | Ok m => m
  | Err _ => mkManifest [] []
  end.

Lemma wit_keep_projects :
  project_destination (wit_plan DpKeep) wit_destination = Ok wit_kept.
Proof. vm_compute. reflexivity. Qed.

Lemma one_way_keep_witness :
  entry_map (dm_entries wit_kept) !! bs "a/x" = Some (wit_file (bs "a/x") (bs "1")).
Proof.
  destruct (one_way_keep_preserves _ _ _ (wit_one_way DpKeep)) as (plan & E & _ & Hk).
  apply Some_inj in E. rewrite <-E in Hk. rewrite (Hk _ wit_keep_projects). vm_compute. reflexivity.
Defined.

Lemma one_way_steps_witness :
  exists m, try_fold apply_op (entry_map (dm_entries wit_destination))
              (take 2 (rp_operations (wit_plan DpDelete))) = Ok m /\ tree_closed m.
Proof.
  apply (one_way_steps_keep_tree _ _ _ _ _ (drop 2 (rp_operations (wit_plan DpDelete)))
           (wit_one_way DpDelete)).
  by rewrite take_drop.
Defined.

(** The notes were changed on both sides. *)
Definition wit_remote : DirectoryManifest :=
  wit_manifest [wit_dir (bs "a"); wit_file (bs "a/x") (bs "1"); wit_file (bs "notes") (bs "4")].

Definition wit_conflicts : list ConflictRecord :=
  match conflicts wit_destination wit_source wit_remote with Ok r => r | Err _ => [] end.

Lemma wit_conflict_paths : cf_path <$> wit_conflicts = [bs "notes"].
Proof. vm_compute. reflexivity. Qed.

Lemma conflicts_exact_witness :
  exists paths, cf_path <$> wit_conflicts = paths /\ bs "notes" ∈ paths /\
    conflicting (entry_map (dm_entries wit_destination)) (entry_map (dm_entries wit_source))
      (entry_map (dm_entries wit_remote)) (bs "notes").
Proof.
  assert (E : conflicts wit_destination wit_source wit_remote = Ok wit_conflicts)
    by (vm_compute; reflexivity).
  destruct (conflicts_exact _ _ _ _ E) as (paths & Ep & _ & _ & Hk).
  assert (Hp : cf_path <$> wit_conflicts = paths).
  { rewrite Ep, <-list_fmap_compose. apply list_fmap_id. }
  assert (Hin : bs "notes" ∈ paths) by (rewrite <-Hp, wit_conflict_paths; left).
  exists paths. split; [exact Hp|]. split; [exact Hin|]. apply Hk, Hin.
Defined.

End Witnesses.
