(* ===== verification/Snapshot.v ===== *)
(** * Directory snapshots on the wire

    Models [src/crates/rds-sync/src/directory/wire.rs]: a manifest is announced by a
    header and sent as bounded parts; the receiver assembles the parts within the
    announced bounds and verifies the result. *)

From S2P Require Import Prelude Slices Paths Crypto Directory.

Definition DIRECTORY_SNAPSHOT_VERSION : Z := 1.
Definition MAX_DIRECTORY_PART_ENTRIES : Z := 32.
Definition MAX_DIRECTORY_PART_BYTES : Z := 48 * 1024.

Record DirectorySnapshotHeader : Type := mkSnapshotHeader {
  sh_version : Z;
  sh_root : bytes;
  sh_entry_count : Z;
  sh_metadata_bytes : Z
}.

Record DirectorySnapshotPart : Type := mkPart { pt_entries : list DirectoryEntry }.

Record DirectorySnapshotAssembler : Type := mkAssembler {
  as_header : DirectorySnapshotHeader;
  as_entries : list DirectoryEntry;
  as_metadata_bytes : Z
}.

Definition manifest_metadata_bytes (entries : list DirectoryEntry) : result Z SyncError :=
  try_fold validate_step 0 entries.

(** The loop of [validate_part]: valid entries with strictly increasing paths. *)
Fixpoint validate_order (prior : option DirectoryEntry) (entries : list DirectoryEntry)
    : result unit SyncError :=
  match entries with
  | [] => Ok tt
  | e :: entries =>
      let? _ := entry_validate e in
      if is_some_and prior (fun prior => bool_decide (bytes_le (de_path e) (de_path prior)))
      then Err (ManifestErr "directory snapshot paths are not strictly ordered")
      else validate_order (Some e) entries
  end.

(** [DirectorySnapshotAssembler::new]; a [u32] and a [u64] fit a 64-bit [usize]. *)
Definition Assembler_new (header : DirectorySnapshotHeader)
    : result DirectorySnapshotAssembler SyncError :=
  if negb (sh_version header =? DIRECTORY_SNAPSHOT_VERSION)
  then Err (ManifestErr "unsupported directory snapshot version") else
  if (MAX_DIRECTORY_ENTRIES <? sh_entry_count header)
     || (MAX_DIRECTORY_DATA_BYTES <? sh_metadata_bytes header)
  then Err (ManifestErr "directory snapshot header exceeds local bounds") else
  Ok (mkAssembler header [] 0).

Section WithLibraries.
  Context `{Blake3, Postcard DirectoryEntry, PostcardSize DirectoryEntry,
            PostcardSize DirectorySnapshotPart}.

(** [DirectorySnapshotHeader::from_manifest]. *)
Definition Header_from_manifest (m : DirectoryManifest)
    : result DirectorySnapshotHeader SyncError :=
  let? _ := manifest_verify m in
  let? metadata_bytes := manifest_metadata_bytes (dm_entries m) in
  if u32_max <? zlen (dm_entries m)
  then Err (ManifestErr "directory entry count exceeds wire bounds") else
  Ok (mkSnapshotHeader DIRECTORY_SNAPSHOT_VERSION (dm_root m) (zlen (dm_entries m))
        metadata_bytes).

(** [DirectorySnapshotPart::encoded_len]. *)
Definition encoded_len (part : DirectorySnapshotPart) : result Z SyncError :=
  map_err (fun _ => ManifestErr "directory snapshot part cannot be encoded")
    (serialized_size part).

Definition validate_part (part : DirectorySnapshotPart) (previous : option DirectoryEntry)
    : result unit SyncError :=
  if bool_decide (pt_entries part = []) || (MAX_DIRECTORY_PART_ENTRIES <? zlen (pt_entries part))
  then Err (ManifestErr "directory snapshot part entry count is outside bounds") else
  let? _ := validate_order previous (pt_entries part) in
  let? size := encoded_len part in
  if MAX_DIRECTORY_PART_BYTES <? size
  then Err (ManifestErr "directory snapshot part exceeds frame budget") else Ok tt.

(** [DirectorySnapshotPart::new]. *)
Definition Part_new (entries : list DirectoryEntry) : result DirectorySnapshotPart SyncError :=
  let part := mkPart entries in
  let? _ := validate_part part None in Ok part.

Definition push_part (a : DirectorySnapshotAssembler) (part : DirectorySnapshotPart)
    : result DirectorySnapshotAssembler SyncError :=
  let? _ := validate_part part (last (as_entries a)) in
  if sh_entry_count (as_header a) <? sat_add64 (zlen (as_entries a)) (zlen (pt_entries part))
  then Err (ManifestErr "directory snapshot has too many entries") else
  let? part_bytes := manifest_metadata_bytes (pt_entries part) in
  let metadata_bytes := sat_add64 (as_metadata_bytes a) part_bytes in
  if sh_metadata_bytes (as_header a) <? metadata_bytes
  then Err (ManifestErr "directory snapshot exceeds announced metadata bytes") else
  Ok (mkAssembler (as_header a) (as_entries a ++ pt_entries part) metadata_bytes).

(** [DirectorySnapshotAssembler::finish]. *)
Definition assembler_finish (a : DirectorySnapshotAssembler)
    : result DirectoryManifest SyncError :=
  if negb (zlen (as_entries a) =? sh_entry_count (as_header a))
     || negb (as_metadata_bytes a =? sh_metadata_bytes (as_header a))
  then Err (ManifestErr "directory snapshot is incomplete") else
  let m := mkManifest (sh_root (as_header a)) (as_entries a) in
  let? _ := manifest_verify m in Ok m.

(** The counting loop of [DirectorySnapshotParts::next]: how many more of at most [limit]
    entries fit, [bytes] being taken. *)
Fixpoint part_count (limit : nat) (bytes : Z) (remaining : list DirectoryEntry)
    : result nat SyncError :=
  match limit, remaining with
  | S limit, e :: remaining =>
      match serialized_size e with
      | Err _ => Err (ManifestErr "directory entry cannot be encoded")
      | Ok length =>
          if MAX_DIRECTORY_PART_BYTES <? sat_add64 bytes length then Ok O
          else let? count := part_count limit (bytes + length) remaining in Ok (S count)
      end
  | _, _ => Ok O
  end.

(** [DirectorySnapshotParts::next]: the item and the iterator that is left. *)
Definition parts_next (remaining : list DirectoryEntry)
    : option (result (list DirectoryEntry) SyncError) * list DirectoryEntry :=
  match remaining with
  | [] => (None, [])
  | _ =>
      match part_count (Z.to_nat MAX_DIRECTORY_PART_ENTRIES) 1 remaining with
      | Err e => (Some (Err e), [])
      | Ok O => (Some (Err (ManifestErr "directory entry exceeds part bounds")), [])
      | Ok count => (Some (Ok (take count remaining)), drop count remaining)
      end
  end.

(** [collect] into a [Result<Vec<_>, _>]; every part takes an entry, so one round per
    entry and one for the end suffice. *)
Fixpoint collect_parts (fuel : nat) (remaining : list DirectoryEntry)
    : option (result (list DirectorySnapshotPart) SyncError) :=
  match fuel with
  | O => None
  | S fuel =>
      match parts_next remaining with
      | (None, _) => Some (Ok [])
      | (Some (Err e), _) => Some (Err e)
      | (Some (Ok part), rest) =>
          match collect_parts fuel rest with
          | Some (Ok parts) => Some (Ok (mkPart part :: parts))
          | other => other
          end
      end
  end.

Definition snapshot_parts (m : DirectoryManifest)
    : option (result (list DirectorySnapshotPart) SyncError) :=
  match manifest_verify m with
  | Err e => Some (Err e)
  | Ok _ => collect_parts (S (length (dm_entries m))) (dm_entries m)
  end.

(** A receiver: the header, every part in turn, the end. *)
Definition receive (header : DirectorySnapshotHeader) (parts : list DirectorySnapshotPart)
    : result DirectoryManifest SyncError :=
  let? a := Assembler_new header in
  let? a := try_fold push_part a parts in
  assembler_finish a.

End WithLibraries.

(** What the postcard wire format says of the sizes: a varint of a [u64] or a length has
    at most ten bytes, of an enum index at most five, an [Option] is one byte and its
    value, a digest is its 32 bytes; a sequence of less than 128 elements is one byte and
    its elements. *)
Definition entry_typed (e : DirectoryEntry) : Prop :=
  forall c, de_content e = Some c -> length c = 32%nat.

Class SnapshotSizeLaws `{PostcardSize DirectoryEntry, PostcardSize DirectorySnapshotPart}
    : Prop := {
  entry_size : forall e, entry_typed e ->
    exists n, serialized_size e = Ok n /\ 0 <= n <= 69 + entry_bytes e;
  part_size : forall es ns, Forall2 (fun e n => serialized_size e = Ok n) es ns ->
    zlen es < 128 -> serialized_size (mkPart es) = Ok (1 + foldr Z.add 0 ns)
}.

(** ** Parts in order *)

Lemma sorted_cons_lt a l :
  StronglySorted entry_lt (a :: l) <-> StronglySorted entry_lt l /\ Forall (entry_lt a) l.
Proof. split; [apply StronglySorted_inv|intros [? ?]; by constructor]. Qed.

Lemma validate_order_ok prior es :
  validate_order prior es = Ok tt <->
  Forall (fun e => entry_validate e = Ok tt) es /\
  StronglySorted entry_lt (option_list prior ++ es).
Proof.
  revert prior. induction es as [|e es IH]; intros prior; simpl.
  - split; [intros _; split; [constructor|]|done]. destruct prior; repeat constructor.
  - rewrite Forall_cons. destruct (entry_validate e) as [[]|]; [|naive_solver].
    destruct prior as [q|]; simpl; [|rewrite IH; simpl; naive_solver].
    case_bool_decide as Hle; simpl.
    + split; [done|]. intros [_ Hs]. exfalso. rewrite sorted_cons_lt, Forall_cons in Hs.
      destruct Hs as (_ & Hlt & _). by apply bytes_not_le in Hlt.
    + apply bytes_not_le in Hle. rewrite IH. simpl. rewrite (sorted_cons_lt q), Forall_cons.
      split; [|naive_solver]. intros [Hv Hs]. split_and!; try done.
      apply sorted_cons_lt in Hs as [_ Hf]. eapply Forall_impl; [exact Hf|].
      intros x Hx. by transitivity e.
Qed.

Lemma sorted_glue pre es :
  StronglySorted entry_lt pre ->
  StronglySorted entry_lt (option_list (last pre) ++ es) <-> StronglySorted entry_lt (pre ++ es).
Proof.
  induction pre as [|a pre IH]; [done|]. intros [Hs Hf]%sorted_cons_lt.
  destruct pre as [|b pre]; [done|]. change (last (a :: b :: pre)) with (last (b :: pre)).
  rewrite (IH Hs). change ((a :: b :: pre) ++ es) with (a :: ((b :: pre) ++ es)).
  rewrite (sorted_cons_lt a), Forall_app. split; [|naive_solver].
  intros K. split; [done|]. split; [done|].
  apply Forall_cons in Hf as [Hab _]. simpl in K. apply sorted_cons_lt in K as [_ K].
  apply Forall_app in K as [_ K]. eapply Forall_impl; [exact K|]. intros x Hx. by transitivity b.
Qed.

Section Assemble.
  Context `{Blake3, Postcard DirectoryEntry, PostcardSize DirectoryEntry,
            PostcardSize DirectorySnapshotPart}.

(** What holds of an assembler at any time: it stays within the bounds the header
    announced, which are within the local ones. *)
Record assembler_ok (a : DirectorySnapshotAssembler) : Prop := {
  ak_sorted : StronglySorted entry_lt (as_entries a);
  ak_valid : Forall (fun e => entry_validate e = Ok tt) (as_entries a);
  ak_bytes : as_metadata_bytes a = entry_total (as_entries a);
  ak_count : zlen (as_entries a) <= sh_entry_count (as_header a) <= MAX_DIRECTORY_ENTRIES;
  ak_metadata :
    as_metadata_bytes a <= sh_metadata_bytes (as_header a) <= MAX_DIRECTORY_DATA_BYTES
}.

(** The header fields are unsigned. *)
Definition header_typed (h : DirectorySnapshotHeader) : Prop :=
  0 <= sh_entry_count h /\ 0 <= sh_metadata_bytes h.

Lemma Assembler_new_ok h a :
  header_typed h ->
  Assembler_new h = Ok a ->
  assembler_ok a /\ as_header a = h /\ as_entries a = [].
Proof.
  intros [Hc Hm]. unfold Assembler_new. destruct (negb _); [done|].
  destruct (_ || _) eqn:E; [done|]. apply orb_false_iff in E as [E1 E2].
  apply Z.ltb_ge in E1, E2. intros [= <-]. split; [|done].
  split; simpl; [constructor|constructor|done|unfold zlen; simpl; lia|lia].
Qed.

Lemma entry_total_app l k : entry_total (l ++ k) = entry_total l + entry_total k.
Proof. induction l as [|e l IH]; simpl; lia. Qed.

Lemma zero_in_budget : 0 <= 0 <= MAX_DIRECTORY_DATA_BYTES.
Proof. unfold MAX_DIRECTORY_DATA_BYTES. lia. Qed.

Lemma push_part_inv a part a' :
  assembler_ok a -> push_part a part = Ok a' ->
  assembler_ok a' /\ as_header a' = as_header a /\
  as_entries a' = as_entries a ++ pt_entries part.
Proof.
  intros Ha. unfold push_part, validate_part. destruct (_ || _); [done|].
  destruct (validate_order _ _) as [[]|] eqn:Eo; [|done].
  destruct (encoded_len part) as [size|]; [|done].
  destruct (MAX_DIRECTORY_PART_BYTES <? size); [done|].
  destruct (sh_entry_count (as_header a) <? _) eqn:E1; [done|].
  destruct (manifest_metadata_bytes _) as [n|] eqn:En; [|done].
  destruct (sh_metadata_bytes (as_header a) <? _) eqn:E2; [done|].
  intros [= <-]. apply Z.ltb_ge in E1, E2.
  apply validate_order_ok in Eo as [Hv Hs].
  apply (validate_fold_ok 0 _ _ zero_in_budget) in En as (_ & Hn & ->).
  apply (proj1 (sorted_glue _ _ (ak_sorted _ Ha))) in Hs.
  destruct Ha as [Has Hav Hab Hac Ham]. rewrite Hab in *.
  pose proof (entry_total_nonneg (as_entries a)). pose proof (entry_total_nonneg (pt_entries part)).
  unfold sat_add64, u64_max, MAX_DIRECTORY_ENTRIES, MAX_DIRECTORY_DATA_BYTES in *.
  split; [|done]. split; simpl.
  - done.
  - by apply Forall_app.
  - rewrite entry_total_app. lia.
  - rewrite zlen_app. unfold MAX_DIRECTORY_ENTRIES. lia.
  - unfold MAX_DIRECTORY_DATA_BYTES. lia.
Qed.

Lemma push_part_ok a es :
  assembler_ok a -> es <> [] -> zlen es <= MAX_DIRECTORY_PART_ENTRIES ->
  Forall (fun e => entry_validate e = Ok tt) es ->
  StronglySorted entry_lt (as_entries a ++ es) ->
  (exists n, serialized_size (mkPart es) = Ok n /\ n <= MAX_DIRECTORY_PART_BYTES) ->
  zlen (as_entries a ++ es) <= sh_entry_count (as_header a) ->
  entry_total (as_entries a ++ es) <= sh_metadata_bytes (as_header a) ->
  exists a', push_part a (mkPart es) = Ok a'.
Proof.
  intros [Has Hav Hab Hac Ham] Hne Hlen Hv Hs (n & En & Hn) Hc Hm.
  rewrite zlen_app in Hc. rewrite entry_total_app in Hm.
  pose proof (entry_total_nonneg (as_entries a)). pose proof (entry_total_nonneg es).
  unfold push_part, validate_part, encoded_len. simpl.
  rewrite bool_decide_eq_false_2 by done.
  rewrite (proj2 (Z.ltb_ge _ _) Hlen). simpl.
  rewrite (proj2 (validate_order_ok (last (as_entries a)) es)) by (split; [|apply sorted_glue]; done).
  rewrite En. simpl. rewrite (proj2 (Z.ltb_ge _ _) Hn).
  unfold sat_add64, u64_max, MAX_DIRECTORY_ENTRIES, MAX_DIRECTORY_DATA_BYTES in *.
  rewrite (proj2 (Z.ltb_ge (sh_entry_count (as_header a)) _)) by lia.
  unfold manifest_metadata_bytes.
  rewrite (proj2 (validate_fold_ok 0 es (0 + entry_total es) zero_in_budget))
    by (unfold MAX_DIRECTORY_DATA_BYTES; split_and!; [done|lia|done]).
  rewrite (proj2 (Z.ltb_ge (sh_metadata_bytes (as_header a)) _)) by lia. eauto.
Qed.

Lemma push_parts_inv parts a a' :
  assembler_ok a -> try_fold push_part a parts = Ok a' ->
  assembler_ok a' /\ as_header a' = as_header a /\
  as_entries a' = as_entries a ++ concat (pt_entries <$> parts).
Proof.
  revert a. induction parts as [|part parts IH]; intros a Ha; simpl.
  { intros [= <-]. by rewrite app_nil_r. }
  destruct (push_part a part) as [b|] eqn:Eb; [|done]. intros K.
  apply push_part_inv in Eb as (Hb & Eh & Ee); [|done].
  apply IH in K as (? & -> & ->); [|done]. split; [done|]. split; [done|].
  by rewrite Ee, <-app_assoc.
Qed.

(** Whatever parts a peer sends, an assembler never holds more entries or metadata
    than the header announced and than the local limits allow, and what it finishes with
    is a verified manifest with the announced root that holds the parts' entries in the
    order sent. *)
Theorem receive_sound header parts m :
  header_typed header ->
  receive header parts = Ok m ->
  manifest_verify m = Ok tt /\ dm_root m = sh_root header /\
  dm_entries m = concat (pt_entries <$> parts) /\
  zlen (dm_entries m) = sh_entry_count header /\
  entry_total (dm_entries m) = sh_metadata_bytes header /\
  forall k a, (let? a := Assembler_new header in try_fold push_part a (take k parts)) = Ok a ->
    assembler_ok a.
Proof.
  intros Ht. unfold receive. destruct (Assembler_new header) as [a0|] eqn:E0; [|done].
  apply Assembler_new_ok in E0 as (H0' & Eh & Ee); [|done].
  destruct (try_fold push_part a0 parts) as [a|] eqn:Ea; [|done].
  unfold assembler_finish. destruct (_ || _) eqn:Ec; [done|].
  apply orb_false_iff in Ec as [Ec Em]. apply negb_false_iff, Z.eqb_eq in Ec, Em.
  destruct (manifest_verify _) as [[]|] eqn:Ev; [|done]. intros [= <-]. simpl.
  apply push_parts_inv in Ea as (Ha & Eh' & Ee'); [|done]. rewrite Eh, Ee in *.
  rewrite Eh' in *. split_and!; try done; [by rewrite <-(ak_bytes _ Ha)|].
  intros k b Hb. by apply push_parts_inv in Hb as (? & _).
Qed.

End Assemble.

(** ** Sending *)

Lemma entry_validate_bytes e :
  entry_validate e = Ok tt -> entry_bytes e <= MAX_DIRECTORY_PATH_BYTES + MAX_SYMLINK_TARGET_BYTES.
Proof.
  unfold entry_validate, entry_bytes. destruct (_ || _) eqn:E1; [done|].
  apply orb_false_iff in E1 as [_ E1]. apply Z.ltb_ge in E1.
  destruct (check_rel_path _) as [q|]; [|done]. destruct (_ || _); [done|].
  unfold MAX_SYMLINK_TARGET_BYTES.
  destruct (de_kind e), (de_symlink_target e) as [t|]; simpl; try lia.
  - by destruct (is_none _).
  - by destruct (negb _), (is_some _).
  - destruct (negb _); [done|]. destruct (is_some _); [done|]. simpl.
    destruct (bool_decide _); [done|]. simpl. destruct (_ <? _) eqn:E2; [done|].
    apply Z.ltb_ge in E2. intros _. unfold MAX_SYMLINK_TARGET_BYTES in *. lia.
Qed.

Section Send.
  Context `{Blake3, Postcard DirectoryEntry, PostcardSize DirectoryEntry,
            PostcardSize DirectorySnapshotPart, !SnapshotSizeLaws}.

(** An entry that can be sent: it is encodable and leaves room in a part. *)
Definition sendable (e : DirectoryEntry) : Prop :=
  exists n, serialized_size e = Ok n /\ 0 <= n < MAX_DIRECTORY_PART_BYTES.

Lemma valid_sendable e : entry_typed e -> entry_validate e = Ok tt -> sendable e.
Proof.
  intros Ht Hv%entry_validate_bytes. destruct (entry_size e Ht) as (n & En & Hn).
  exists n. split; [done|].
  unfold MAX_DIRECTORY_PATH_BYTES, MAX_REL_PATH, MAX_SYMLINK_TARGET_BYTES,
    MAX_DIRECTORY_PART_BYTES in *. lia.
Qed.

Lemma part_count_ok limit bytes es :
  Forall sendable es -> 0 <= bytes <= MAX_DIRECTORY_PART_BYTES ->
  exists k ns, part_count limit bytes es = Ok k /\ (k <= limit)%nat /\ (k <= length es)%nat /\
    Forall2 (fun e n => serialized_size e = Ok n) (take k es) ns /\
    bytes + foldr Z.add 0 ns <= MAX_DIRECTORY_PART_BYTES /\
    (bytes <= 1 -> (0 < limit)%nat -> es <> [] -> (0 < k)%nat).
Proof.
  revert bytes es. induction limit as [|limit IH]; intros bytes es Hs Hb.
  { exists 0%nat, []. simpl. split_and!; try done; lia. }
  destruct es as [|e es]; simpl.
  { exists 0%nat, []. simpl. split_and!; try done; lia. }
  apply Forall_cons in Hs as [(n & En & Hn) Hs]. rewrite En.
  unfold sat_add64. destruct (_ <? _) eqn:Ef.
  { apply Z.ltb_lt in Ef. exists 0%nat, []. simpl.
    unfold u64_max, MAX_DIRECTORY_PART_BYTES in *. split_and!; try done; lia. }
  apply Z.ltb_ge in Ef.
  assert (Hfit : 0 <= bytes + n <= MAX_DIRECTORY_PART_BYTES)
    by (unfold u64_max, MAX_DIRECTORY_PART_BYTES in *; lia).
  destruct (IH (bytes + n) es Hs Hfit) as (k & ns & Ek & ? & ? & Hf & Hsum & _). rewrite Ek.
  exists (S k), (n :: ns). simpl. split_and!; try done; try lia. by constructor.
Qed.

(** What the receiver asks of a part by itself. *)
Definition part_fits (part : DirectorySnapshotPart) : Prop :=
  pt_entries part <> [] /\ zlen (pt_entries part) <= MAX_DIRECTORY_PART_ENTRIES /\
  exists n, serialized_size part = Ok n /\ n <= MAX_DIRECTORY_PART_BYTES.

Lemma parts_next_ok es :
  Forall sendable es -> es <> [] ->
  exists k, parts_next es = (Some (Ok (take k es)), drop k es) /\
    (0 < k <= length es)%nat /\ part_fits (mkPart (take k es)).
Proof.
  intros Hs Hne. unfold parts_next.
  destruct (part_count_ok (Z.to_nat MAX_DIRECTORY_PART_ENTRIES) 1 es Hs)
    as (k & ns & Ek & Hk & Hl & Hf & Hsum & Hpos); [unfold MAX_DIRECTORY_PART_BYTES; lia|].
  unfold MAX_DIRECTORY_PART_ENTRIES in *.
  assert (Hk0 : (0 < k)%nat) by (apply Hpos; [lia|lia|done]).
  exists k. rewrite Ek. destruct es as [|e es]; [done|]. destruct k as [|k]; [lia|].
  assert (Hz : zlen (take (S k) (e :: es)) = Z.of_nat (S k))
    by (unfold zlen; rewrite length_take; f_equal; lia).
  split; [done|]. split; [lia|]. split; [done|].
  split; [unfold pt_entries; rewrite Hz; unfold MAX_DIRECTORY_PART_ENTRIES; lia|].
  exists (1 + foldr Z.add 0 ns). split; [|done]. apply part_size; [done|]. rewrite Hz. lia.
Qed.

Lemma collect_parts_ok fuel es :
  Forall sendable es -> (length es < fuel)%nat ->
  exists parts, collect_parts fuel es = Some (Ok parts) /\ Forall part_fits parts /\
    concat (pt_entries <$> parts) = es.
Proof.
  revert es. induction fuel as [|fuel IH]; intros es Hs Hf; [lia|]. simpl.
  destruct (decide (es = [])) as [->|Hne].
  { exists []. split_and!; [done|constructor|done]. }
  destruct (parts_next_ok es Hs Hne) as (k & -> & Hk & Hfit).
  destruct (IH (drop k es)) as (parts & -> & Hfits & Ec).
  { by apply Forall_drop. }
  { rewrite length_drop. lia. }
  eexists. split; [done|]. split; [by constructor|]. csimpl. by rewrite Ec, take_drop.
Qed.

Lemma push_parts_ok parts a :
  assembler_ok a -> Forall part_fits parts ->
  let all := as_entries a ++ concat (pt_entries <$> parts) in
  Forall (fun e => entry_validate e = Ok tt) all -> StronglySorted entry_lt all ->
  zlen all <= sh_entry_count (as_header a) -> entry_total all <= sh_metadata_bytes (as_header a) ->
  exists a', try_fold push_part a parts = Ok a'.
Proof.
  revert a. induction parts as [|part parts IH]; intros a Ha Hf; csimpl; intros Hv Hs Hc Hm; [eauto|].
  apply Forall_cons in Hf as [(Hne & Hlen & Hsize) Hf].
  rewrite app_assoc in Hv, Hs, Hc, Hm. pose proof (proj1 (Forall_app _ _ _) Hv) as [Hv1 _].
  destruct part as [es]. simpl in *.
  destruct (push_part_ok a es) as [b Eb]; try done.
  - by apply Forall_app in Hv1 as [_ ?].
  - clear -Hs. induction (as_entries a ++ es) as [|x l IHl]; [constructor|].
    simpl in Hs. apply StronglySorted_inv in Hs as [Hs Hx]. constructor; [by apply IHl|].
    by apply Forall_app in Hx as [? _].
  - rewrite zlen_app in Hc. pose proof (zlen_nonneg (concat (pt_entries <$> parts))). lia.
  - rewrite entry_total_app in Hm.
    pose proof (entry_total_nonneg (concat (pt_entries <$> parts))). lia.
  - rewrite Eb. apply push_part_inv in Eb as (Hb & Eh & Ee); [|done]. simpl in Ee.
    apply IH; [done|done|..]; by rewrite ?Eh, Ee.
Qed.

(** Every verified manifest can be sent and received: its header and parts exist,
    every part is within the entry and byte bounds of a frame, and the receiver
    assembles them back into the same manifest. *)
Theorem snapshot_roundtrip m :
  manifest_verify m = Ok tt -> Forall entry_typed (dm_entries m) ->
  exists header parts, Header_from_manifest m = Ok header /\
    snapshot_parts m = Some (Ok parts) /\ Forall part_fits parts /\
    receive header parts = Ok m.
Proof.
  intros Hm Ht. pose proof (proj1 (manifest_verify_ok m) Hm) as (Hv & Hs & _).
  apply validate_entries_ok in Hv as (Hl & Hv & Htot).
  assert (Hsend : Forall sendable (dm_entries m)).
  { rewrite Forall_forall in *. intros e He. apply valid_sendable; auto. }
  destruct (collect_parts_ok (S (length (dm_entries m))) (dm_entries m) Hsend)
    as (parts & Ep & Hfit & Ec); [lia|].
  assert (Eb : manifest_metadata_bytes (dm_entries m) = Ok (0 + entry_total (dm_entries m))).
  { apply validate_fold_ok; [apply zero_in_budget|]. split_and!; [done|lia|done]. }
  eexists _, parts. unfold Header_from_manifest, snapshot_parts. rewrite Hm, Eb.
  rewrite (proj2 (Z.ltb_ge u32_max _)) by (unfold u32_max, MAX_DIRECTORY_ENTRIES in *; lia).
  split; [done|]. split; [done|]. split; [done|].
  pose proof (zlen_nonneg (dm_entries m)). pose proof (entry_total_nonneg (dm_entries m)).
  unfold receive. destruct (Assembler_new _) as [a|] eqn:Ea.
  2: { exfalso. revert Ea. unfold Assembler_new. simpl.
       by rewrite !(proj2 (Z.ltb_ge _ _)) by lia. }
  apply Assembler_new_ok in Ea as (Ha & Eh & Ee); [|split; simpl; lia].
  destruct (push_parts_ok parts a Ha Hfit) as [a' Ea'];
    rewrite ?Ee, ?Ec, ?Eh; simpl; try done; try lia.
  rewrite Ea'. apply push_parts_inv in Ea' as (Ha' & Eh' & Ee'); [|done].
  rewrite Ee, Ec in Ee'. simpl in Ee'. unfold assembler_finish.
  rewrite (ak_bytes _ Ha'), Ee', Eh', Eh. simpl. rewrite !Z.eqb_refl. simpl.
  destruct m as [root entries]. simpl in *. by rewrite Hm.
Qed.

End Send.

(** ** Witnesses *)

Section Witnesses.
  #[local] Existing Instance wit_dir_blake3.
  #[local] Existing Instance wit_dir_postcard.
#[local] Instance wit_entry_size : PostcardSize DirectoryEntry := fun e => Ok (entry_bytes e).
#[local] Instance wit_part_size : PostcardSize DirectorySnapshotPart :=
    fun part => Ok (1 + entry_total (pt_entries part)).

#[local] Instance wit_size_laws : SnapshotSizeLaws.
Proof.
  split.
  - intros e _. exists (entry_bytes e). pose proof (entry_bytes_nonneg e). split; [done|lia].
  - intros es ns Hf _. unfold serialized_size, wit_part_size. do 2 f_equal. simpl.
    induction Hf as [|e n es ns [= <-] Hf IH]; simpl; [done|lia].
Qed.

Definition wit_snapshot : DirectoryManifest :=
  wit_manifest [wit_dir (bs "a"); wit_file (bs "a/x") (replicate 32 "1"%char);
                wit_file (bs "notes") (replicate 32 "2"%char)].

Lemma wit_snapshot_verified : manifest_verify wit_snapshot = Ok tt.
Proof. vm_compute. reflexivity. Qed.

Lemma wit_snapshot_typed : Forall entry_typed (dm_entries wit_snapshot).
Proof.
  assert (E : forallb (fun e => match de_content e with
                                | Some c => Nat.eqb (length c) 32 | None => true end)
                (dm_entries wit_snapshot) = true) by (vm_compute; reflexivity).
  apply Forall_forall. intros e He c Hc.
  rewrite forallb_forall in E. specialize (E e (proj1 (list_elem_of_In _ _) He)).
  rewrite Hc in E. by apply Nat.eqb_eq.
Qed.

Lemma snapshot_roundtrip_witness :
  exists header parts, snapshot_parts wit_snapshot = Some (Ok parts) /\
    receive header parts = Ok wit_snapshot.
Proof.
  destruct (snapshot_roundtrip wit_snapshot wit_snapshot_verified wit_snapshot_typed)
    as (header & parts & _ & Ep & _ & Er).
  exists header, parts. split; [exact Ep|exact Er].
Defined.

Definition wit_header : DirectorySnapshotHeader :=
  mkSnapshotHeader 1 (dm_root wit_snapshot) 3 9.

Lemma receive_sound_witness :
  manifest_verify wit_snapshot = Ok tt /\ zlen (dm_entries wit_snapshot) = 3.
Proof.
  assert (E : receive wit_header [mkPart (dm_entries wit_snapshot)] = Ok wit_snapshot)
    by (vm_compute; reflexivity).
  assert (Ht : header_typed wit_header) by (split; simpl; lia).
  destruct (receive_sound _ _ _ Ht E) as (Hv & _ & _ & Hc & _). split; [exact Hv|exact Hc].
Defined.

End Witnesses.
