(* ===== verification/AgentRevocations.v ===== *)
(** * The agent's revocation policy

    Models [src/crates/rds-agent/src/revocations.rs] and the denylist operations of
    [AgentPolicy] in [src/crates/rds-agent/src/lib.rs]: one watched value holds the
    revoked identifiers, their freshness lease and the identity of the feed that owns
    them.  Feeds come and go; an obsolete feed must not touch the value of its
    successor. *)

From S2P Require Import Prelude Discovery Clock Grant.

(** ** State *)

(** [Arc<()>] is its identity: the feed system hands out a new number per allocation. *)
Abbreviation Owner := nat (only parsing).

Record RevocationPolicy : Type := mkRevocation {
  rp_ids : gset GrantId;
  rp_lease : option Lease;
  rp_revision : option (Z * Z);
  rp_local : bool;
  rp_owner : option Owner
}.

Definition RevocationPolicy_default : RevocationPolicy :=
  mkRevocation ∅ None None false None.

Definition rp_contains (p : RevocationPolicy) (id : GrantId) : bool :=
  bool_decide (id ∈ rp_ids p).

(** [fresh]; the argument is what [Reading::now] returns, [None] its error. *)
Definition rp_fresh (p : RevocationPolicy) (now : option Reading) : bool :=
  rp_local p
  || is_some_and now (fun now => is_some_and (rp_lease p) (fun l => Lease_valid_at l now)).

Definition b2u64 (b : bool) : Z := if b then 1 else 0.

(** [RevocationPolicy::metrics]; [None] is a panic of [remaining_at]. *)
Definition rp_metrics (p : RevocationPolicy) (now : option Reading) (grants_required : bool)
    : option (gmap string Z) :=
  let values : gmap string Z :=
    <["rds_agent_revocations_snapshot_present" := b2u64 (is_some (rp_revision p))]>
    (<["rds_agent_revocations_local" := b2u64 (rp_local p)]>
    (<["rds_agent_revoked_grants" := Z.of_nat (size (rp_ids p))]> ∅)) in
  let values := match rp_revision p with
    | Some (epoch, revision) =>
        <["rds_agent_revocations_revision" := revision]>
        (<["rds_agent_revocations_epoch" := epoch]> values)
    | None => values end in
  if grants_required then
    let values := <["rds_agent_revocations_clock_known" := b2u64 (is_some now)]> values in
    let values :=
      if rp_local p || is_none (rp_lease p) || is_some now
      then <["rds_agent_revocations_fresh" := b2u64 (rp_fresh p now)]> values
      else values in
    match now with
    | Some now =>
        if rp_local p then Some values else
        match rp_lease p with
        | None => Some (<["rds_agent_revocations_lease_remaining_seconds" := 0]> values)
        | Some l =>
            match Lease_remaining_at l now with
            | Some d => Some (<["rds_agent_revocations_lease_remaining_seconds"
                                := as_secs d]> values)
            | None => None
            end
        end
    | None => Some values
    end
  else Some values.

(** ** Operations on the watched value *)

Definition use_local_revocations (p : RevocationPolicy) : RevocationPolicy :=
  mkRevocation (rp_ids p) (rp_lease p) None true None.

Definition require_managed_revocations (p : RevocationPolicy) : RevocationPolicy :=
  mkRevocation (rp_ids p) None None false None.

Definition claim_feed (owner : Owner) (p : RevocationPolicy)
    : RevocationPolicy * result unit DiscoveryError :=
  match rp_owner p with
  | Some _ => (p, Err Busy)
  | None => (mkRevocation (rp_ids p) None None false (Some owner), Ok tt)
  end.

Definition update_feed (owner : Owner) (update : RevocationPolicy -> RevocationPolicy)
    (p : RevocationPolicy) : RevocationPolicy :=
  if is_some_and (rp_owner p) (fun current => bool_decide (current = owner))
  then update p else p.

Definition publish_revocations (owner : Owner) (ids : gset GrantId) (lease : Lease)
    (stamp : Z * Z) : RevocationPolicy -> RevocationPolicy :=
  update_feed owner (fun p =>
    mkRevocation ids (Some lease) (Some stamp) (rp_local p) (rp_owner p)).

(** The update of [watch_revocations] on a fatal error: the lease is dropped. *)
Definition invalidate_feed (owner : Owner) : RevocationPolicy -> RevocationPolicy :=
  update_feed owner (fun p =>
    mkRevocation (rp_ids p) None (rp_revision p) (rp_local p) (rp_owner p)).

(** [Drop for RevocationFeed]. *)
Definition drop_feed (owner : Owner) : RevocationPolicy -> RevocationPolicy :=
  update_feed owner (fun p => mkRevocation (rp_ids p) None None (rp_local p) None).

Definition revocations_permit (p : RevocationPolicy) (now : option Reading) (id : GrantId)
    : bool :=
  rp_fresh p now && negb (rp_contains p id).

(** [AgentPolicy::revoke] and [AgentPolicy::replace_denylist]. *)
Definition revoke (id : GrantId) (p : RevocationPolicy) : RevocationPolicy :=
  mkRevocation ({[id]} ∪ rp_ids p) (rp_lease p) (rp_revision p) (rp_local p) (rp_owner p).

Definition replace_denylist (ids : gset GrantId) (p : RevocationPolicy) : RevocationPolicy :=
  mkRevocation ids (rp_lease p) (rp_revision p) (rp_local p) (rp_owner p).

(** ** The feeds of one agent *)

(** Every call that changes the watched value, from any feed, alive or obsolete. *)
Inductive FeedEvent : Type :=
| EvLocal
| EvManaged
| EvClaim
| EvPublish (owner : Owner) (ids : gset GrantId) (lease : Lease) (stamp : Z * Z)
| EvInvalidate (owner : Owner)
| EvDrop (owner : Owner)
| EvRevoke (id : GrantId)
| EvReplace (ids : gset GrantId).

Record Feeds : Type := mkFeeds { fs_policy : RevocationPolicy; fs_next : Owner }.

Definition Feeds_initial : Feeds := mkFeeds RevocationPolicy_default 0%nat.

Definition feed_event (s : Feeds) (e : FeedEvent) : Feeds :=
  let p := fs_policy s in
  match e with
  | EvLocal => mkFeeds (use_local_revocations p) (fs_next s)
  | EvManaged => mkFeeds (require_managed_revocations p) (fs_next s)
  | EvClaim => mkFeeds (claim_feed (fs_next s) p).1 (S (fs_next s))
  | EvPublish o ids lease stamp => mkFeeds (publish_revocations o ids lease stamp p) (fs_next s)
  | EvInvalidate o => mkFeeds (invalidate_feed o p) (fs_next s)
  | EvDrop o => mkFeeds (drop_feed o p) (fs_next s)
  | EvRevoke id => mkFeeds (revoke id p) (fs_next s)
  | EvReplace ids => mkFeeds (replace_denylist ids p) (fs_next s)
  end.

Definition run_feeds (evs : list FeedEvent) : Feeds := foldl feed_event Feeds_initial evs.

(** ** Provenance of freshness *)

(** The events that leave the lease published by [o] in force. *)
Definition keeps_lease (o : Owner) (e : FeedEvent) : Prop :=
  match e with
  | EvLocal | EvManaged => False
  | EvPublish o' _ _ _ | EvInvalidate o' | EvDrop o' => o' <> o
  | EvClaim | EvRevoke _ | EvReplace _ => True
  end.

(** What the explicit denylist calls make of a set of revoked identifiers. *)
Definition denylist_event (ids : gset GrantId) (e : FeedEvent) : gset GrantId :=
  match e with
  | EvRevoke id => {[id]} ∪ ids
  | EvReplace ids' => ids'
  | _ => ids
  end.

Lemma run_feeds_snoc evs e : run_feeds (evs ++ [e]) = feed_event (run_feeds evs) e.
Proof. unfold run_feeds. by rewrite foldl_app. Qed.

Lemma update_feed_cases o f p :
  (rp_owner p = Some o /\ update_feed o f p = f p) \/
  (rp_owner p <> Some o /\ update_feed o f p = p).
Proof.
  unfold update_feed. destruct (rp_owner p) as [c|]; simpl; [|by right].
  case_bool_decide; [subst; by left|right; split; [congruence|done]].
Qed.

(** The publication a managed lease comes from. *)
Definition published_by (evs : list FeedEvent) (o : Owner) (lease : Lease) : Prop :=
  exists pre post ids stamp, evs = pre ++ EvPublish o ids lease stamp :: post /\
    rp_owner (fs_policy (run_feeds pre)) = Some o /\ Forall (keeps_lease o) post /\
    rp_ids (fs_policy (run_feeds evs)) = foldl denylist_event ids post.

Lemma published_by_snoc evs e o lease :
  published_by evs o lease -> keeps_lease o e ->
  rp_ids (fs_policy (run_feeds (evs ++ [e])))
    = denylist_event (rp_ids (fs_policy (run_feeds evs))) e ->
  published_by (evs ++ [e]) o lease.
Proof.
  intros (pre & post & ids & stamp & E & Ho & Hk & Hids) He Hd.
  exists pre, (post ++ [e]), ids, stamp. split; [by rewrite E, <-app_assoc|].
  split; [done|]. split; [apply Forall_app; split; [done|by constructor]|].
  by rewrite Hd, Hids, foldl_app.
Qed.

Lemma lease_provenance evs lease :
  rp_local (fs_policy (run_feeds evs)) = false ->
  rp_lease (fs_policy (run_feeds evs)) = Some lease ->
  exists o, rp_owner (fs_policy (run_feeds evs)) = Some o /\ published_by evs o lease.
Proof.
  induction evs as [|e evs IH] using rev_ind; [done|].
  rewrite run_feeds_snoc. intros Hl Hs.
  assert (Hkeep : forall o, published_by evs o lease -> keeps_lease o e ->
    rp_ids (fs_policy (feed_event (run_feeds evs) e))
      = denylist_event (rp_ids (fs_policy (run_feeds evs))) e ->
    published_by (evs ++ [e]) o lease).
  { intros o Hp Hk Hd. apply published_by_snoc; [done..|by rewrite run_feeds_snoc]. }
  destruct e as [| | |o ids l stamp|o|o|id|ids]; simpl in *; try done.
  - revert Hl Hs Hkeep. unfold claim_feed.
    destruct (rp_owner (fs_policy (run_feeds evs))) as [c|] eqn:Eo; simpl; [|done].
    intros Hl Hs Hkeep. destruct (IH Hl Hs) as (o & Ho & Hp).
    exists o. split; [congruence|by apply Hkeep].
  - unfold publish_revocations in *.
    destruct (update_feed_cases o (fun p => mkRevocation ids (Some l) (Some stamp) (rp_local p)
      (rp_owner p)) (fs_policy (run_feeds evs))) as [[Ho Eu]|[Ho Eu]];
      rewrite Eu in *; simpl in *.
    + injection Hs as ->. exists o. split; [done|].
      exists evs, [], ids, stamp. split_and!; try done.
      rewrite run_feeds_snoc. simpl. unfold publish_revocations. by rewrite Eu.
    + destruct (IH Hl Hs) as (c & Hc & Hp). exists c. split; [done|].
      apply Hkeep; [done| |done]. congruence.
  - unfold invalidate_feed in *. edestruct update_feed_cases as [[Ho Eu]|[Ho Eu]];
      rewrite Eu in *; simpl in *; [done|].
    destruct (IH Hl Hs) as (c & Hc & Hp). exists c. split; [done|].
    apply Hkeep; [done| |done]. congruence.
  - unfold drop_feed in *. edestruct update_feed_cases as [[Ho Eu]|[Ho Eu]];
      rewrite Eu in *; simpl in *; [done|].
    destruct (IH Hl Hs) as (c & Hc & Hp). exists c. split; [done|].
    apply Hkeep; [done| |done]. congruence.
  - destruct (IH Hl Hs) as (c & Hc & Hp). exists c. split; [done|]. by apply Hkeep.
  - destruct (IH Hl Hs) as (c & Hc & Hp). exists c. split; [done|]. by apply Hkeep.
Qed.

(** Fail-closed revocations.  After any interleaving of feeds starting, publishing,
    failing and being dropped, a grant is permitted only in explicit local mode or
    under a lease still valid now that the feed owning the policy published itself
    while it owned it; nothing since then withdrew that lease, and the identifier is
    not revoked by that publication and the denylist calls that followed. *)
Theorem permit_provenance evs now id :
  let p := fs_policy (run_feeds evs) in
  revocations_permit p now id = true ->
  rp_local p = true \/
  exists o lease pre post ids stamp t,
    now = Some t /\ Lease_valid_at lease t = true /\ rp_owner p = Some o /\
    evs = pre ++ EvPublish o ids lease stamp :: post /\
    rp_owner (fs_policy (run_feeds pre)) = Some o /\
    Forall (keeps_lease o) post /\ ~ (id ∈ foldl denylist_event ids post).
Proof.
  simpl. unfold revocations_permit, rp_fresh, rp_contains. intros Hp. b2p.
  destruct Hp as [Hf Hc].
  destruct (rp_local (fs_policy (run_feeds evs))) eqn:El; [by left|right].
  destruct Hf as [Hf|Hf]; [done|].
  destruct now as [t|]; [|done]. simpl in Hf.
  destruct (rp_lease (fs_policy (run_feeds evs))) as [lease|] eqn:Es; [|done]. simpl in Hf.
  destruct (lease_provenance evs lease El Es)
    as (o & Ho & pre & post & ids & stamp & E & Hpre & Hk & Hids).
  exists o, lease, pre, post, ids, stamp, t. rewrite <-Hids. split_and!; done.
Qed.

(** ** Obsolete feeds *)

Definition event_of (o : Owner) (e : FeedEvent) : Prop :=
  match e with
  | EvPublish o' _ _ _ | EvInvalidate o' | EvDrop o' => o' = o
  | _ => False
  end.

#[export] Instance event_of_dec o e : Decision (event_of o e).
Proof. destruct e; simpl; apply _. Defined.

(** A feed that was handed its identity and does not own the policy. *)
Definition obsolete (o : Owner) (s : Feeds) : Prop :=
  (o < fs_next s)%nat /\ rp_owner (fs_policy s) <> Some o.

Lemma update_feed_other o f p : rp_owner p <> Some o -> update_feed o f p = p.
Proof. destruct (update_feed_cases o f p) as [[? _]|[_ ->]]; done. Qed.

Lemma obsolete_event_of o s e : obsolete o s -> event_of o e -> feed_event s e = s.
Proof.
  intros [_ Ho] He. destruct s as [p n].
  destruct e; simpl in *; try done; subst; f_equal; by apply update_feed_other.
Qed.

Lemma obsolete_stays o s e : obsolete o s -> obsolete o (feed_event s e).
Proof.
  intros [Hn Ho]. destruct e as [| | |o' ? ? ?|o'|o'| |]; try by split.
  - split; simpl; [lia|]. unfold claim_feed.
    destruct (rp_owner (fs_policy s)) eqn:E; simpl; [congruence|].
    intros [= E']. lia.
  - split; [done|]. simpl. unfold publish_revocations.
    by edestruct update_feed_cases as [[? ->]|[? ->]].
  - split; [done|]. simpl. unfold invalidate_feed.
    by edestruct update_feed_cases as [[? ->]|[? ->]].
  - split; [done|]. simpl. unfold drop_feed.
    by edestruct update_feed_cases as [[? ->]|[? ->]].
Qed.

(** An obsolete feed cannot interfere.  Once a feed does not own the policy, a run in
    which it keeps publishing, failing or being dropped is equal, state by state at the
    end, to the run without any of its calls, so it can neither publish over its
    successor nor close the successor's admission. *)
Theorem obsolete_feed_noninterference o s evs :
  obsolete o s ->
  foldl feed_event s evs = foldl feed_event s (filter (fun e => ~ event_of o e) evs).
Proof.
  revert s. induction evs as [|e evs IH]; intros s Ho; [done|]. simpl.
  destruct (decide (event_of o e)) as [He|He].
  - rewrite filter_cons_False by tauto. rewrite (obsolete_event_of _ _ _ Ho He). by apply IH.
  - rewrite filter_cons_True by done. simpl. by apply IH, obsolete_stays.
Qed.

(** The exported revocation metrics never panic, and a reported freshness is the
    admission rule's own answer at the same reading. *)
Theorem rp_metrics_fresh p now required :
  exists m, rp_metrics p now required = Some m /\
    (forall v, m !! "rds_agent_revocations_fresh" = Some v ->
       required = true /\ v = b2u64 (rp_fresh p now)).
Proof.
  unfold rp_metrics. destruct required.
  - destruct now as [t|].
    + destruct (rp_local p) eqn:El; simpl.
      * eexists. split; [done|]. intros v. simplify_map_eq. by intros [= <-].
      * destruct (rp_lease p) as [l|] eqn:Es; simpl.
        -- destruct (Lease_valid_at l t) eqn:Ev.
           ++ rewrite (Lease_remaining_valid _ _ Ev). eexists. split; [done|].
              intros v. simplify_map_eq. by intros [= <-].
           ++ assert (Lease_remaining_at l t = Some 0) as ->
                by (unfold Lease_remaining_at; by rewrite Ev).
              eexists. split; [done|]. intros v. simplify_map_eq. by intros [= <-].
        -- eexists. split; [done|]. intros v. simplify_map_eq. by intros [= <-].
    + eexists. split; [done|]. intros v.
      destruct (rp_local p || is_none (rp_lease p) || is_some None), (rp_revision p) as [[? ?]|];
        simplify_map_eq; try done; by intros [= <-].
  - eexists. split; [done|]. intros v. destruct (rp_revision p) as [[? ?]|]; by simplify_map_eq.
Qed.

(** ** Witnesses *)

Definition wit_rp_run : list FeedEvent :=
  [EvClaim; EvPublish 0%nat {[bs "x"]} lease_start (1, 1); EvClaim; EvDrop 1%nat].

Lemma permit_provenance_witness :
  revocations_permit (fs_policy (run_feeds wit_rp_run)) (Some rd_start) (bs "y") = true /\
  rp_local (fs_policy (run_feeds wit_rp_run)) = false /\
  exists o : Owner, rp_owner (fs_policy (run_feeds wit_rp_run)) = Some o.
Proof.
  assert (K : revocations_permit (fs_policy (run_feeds wit_rp_run)) (Some rd_start) (bs "y")
    = true) by (vm_compute; reflexivity).
  assert (L : rp_local (fs_policy (run_feeds wit_rp_run)) = false) by (vm_compute; reflexivity).
  split; [exact K|]. split; [exact L|].
  destruct (permit_provenance wit_rp_run (Some rd_start) (bs "y") K)
    as [X|(o & _ & _ & _ & _ & _ & _ & _ & _ & Ho & _)].
  - rewrite L in X. discriminate.
  - exists o. exact Ho.
Defined.

Lemma obsolete_feed_witness :
  fs_policy (foldl feed_event (run_feeds [EvClaim; EvDrop 0%nat; EvClaim])
               [EvDrop 0%nat; EvPublish 0%nat ∅ lease_start (9, 9)])
  = fs_policy (run_feeds [EvClaim; EvDrop 0%nat; EvClaim]).
Proof.
  rewrite (obsolete_feed_noninterference 0%nat).
  - reflexivity.
  - split; vm_compute; [lia|discriminate].
Defined.
