(* ===== verification/Authz.v ===== *)
(** * Grant admission of a connection

    Models [src/crates/rds-agent/src/authz.rs]: the state machine of one connection's
    authorization ([ConnAuthz]), the replay guard shared by all connections
    ([GrantSlot] over [active_grants]), the [authorize] task with its rollback, the
    watchdog, and the system of any number of connections and tasks interleaved at the
    granularity of the mutexes. *)

From S2P Require Import Prelude Discovery Clock Paths Crypto Grant AgentRevocations.

(** ** State of one connection *)

Record ActiveGrant : Type := mkActive { ac_grant : VerifiedGrant; ac_validity : Lease }.

(** [gl_updates] is the value of the watch channel the watchdog reads, [gl_slot] the
    identifier reserved in the replay guard. *)
Record GrantLease : Type := mkGrantLease {
  gl_current : ActiveGrant;
  gl_updates : ActiveGrant;
  gl_slot : GrantId
}.

Inductive State : Type :=
| SOpen
| SPending
| SAuthorizing (lease : option GrantLease)
| SGranted (lease : GrantLease)
| SRenewing (lease : GrantLease)
| SClosed.

Inductive ScopeError : Type :=
| ScPending | ScAuthorizing | ScAuthorizationTimeout | ScClosed | ScExpired | ScRevoked
| ScPolicyStale.

Definition ScopeError_terminal (e : ScopeError) : bool :=
  match e with ScPending | ScAuthorizing => false | _ => true end.

(** [ActiveGrant::new]. *)
Definition ActiveGrant_new (g : VerifiedGrant) (now : Reading) : result ActiveGrant string :=
  if negb (live_at g (as_secs (rd_wall now))) then Err "grant expired"%string else
  match Lease_new (as_secs (rd_wall now)) (p_expires_at (v_payload g)) now with
  | Ok validity => Ok (mkActive g validity)
  | Err _ => Err "grant lease invalid"%string
  end.

Definition ActiveGrant_live_at (a : ActiveGrant) (now : Reading) : bool :=
  live_at (ac_grant a) (as_secs (rd_wall now)) && Lease_valid_at (ac_validity a) now.

(** [live]; the argument is what [Reading::now] returns. *)
Definition ActiveGrant_live (a : ActiveGrant) (now : option Reading) : bool :=
  is_some_and now (ActiveGrant_live_at a).

(** [ConnAuthz::new]: the initial state and the number of service slots. *)
Definition ConnAuthz_new (required : bool) (streams : Z) : State * Z :=
  (if required then SPending else SOpen,
   Z.max 0 (streams - (if required || (1 <? streams) then 1 else 0))).

(** The lease a state owns, and what dropping the state does to the replay guard. *)
Definition state_lease (s : State) : option GrantLease :=
  match s with
  | SAuthorizing l => l
  | SGranted l | SRenewing l => Some l
  | SOpen | SPending | SClosed => None
  end.

Definition drop_state (s : State) (active : gset GrantId) : gset GrantId :=
  match state_lease s with
  | Some l => active ∖ {[gl_slot l]}
  | None => active
  end.

(** ** Operations *)

Definition begin (s : State) : State * result unit string :=
  match s with
  | SPending => (SAuthorizing None, Ok tt)
  | SOpen => (s, Err "agent does not require grants"%string)
  | SAuthorizing _ | SGranted _ | SRenewing _ =>
      (s, Err "already authorizing or authorized"%string)
  | SClosed => (s, Err "connection closed"%string)
  end.

(** [GrantSlot::claim]. *)
Definition GrantSlot_claim (id : GrantId) (active : gset GrantId)
    : result (gset GrantId) string :=
  if bool_decide (id ∈ active) then Err "grant already in use"%string
  else Ok ({[id]} ∪ active).

(** [install]; [rp1] and [rp2] are the two reads of the denylist, [now1] is the reading
    of [fresh], [now2] the one the lease starts from.  If [ActiveGrant::new] fails the
    claimed slot is dropped again. *)
Definition install (audience : bytes) (closed : bool) (rp1 rp2 : RevocationPolicy)
    (now1 now2 : option Reading) (verified : VerifiedGrant) (s : State)
    (active : gset GrantId) : State * gset GrantId * result unit string :=
  match s with
  | SAuthorizing None =>
      if closed then (s, active, Err "authorization interrupted"%string) else
      if negb (rp_fresh rp1 now1)
      then (s, active, Err "revocation policy unavailable or stale"%string) else
      if rp_contains rp2 (v_id verified) then (s, active, Err "grant revoked"%string) else
      if negb (bool_decide (p_audience (v_payload verified) = audience))
      then (s, active, Err "grant destination mismatch"%string) else
      match now2 with
      | None => (s, active, Err "grant clock unavailable"%string)
      | Some now =>
          match GrantSlot_claim (v_id verified) active with
          | Err e => (s, active, Err e)
          | Ok active' =>
              match ActiveGrant_new verified now with
              | Err e => (s, active' ∖ {[v_id verified]}, Err e)
              | Ok current =>
                  (SAuthorizing (Some (mkGrantLease current current (v_id verified))),
                   active', Ok tt)
              end
          end
      end
  | _ => (s, active, Err "authorization interrupted"%string)
  end.

(** [commit]: on refusal the state is [Closed] and the lease is dropped. *)
Definition commit (closed : bool) (rp : RevocationPolicy) (now1 now2 : option Reading)
    (s : State) (active : gset GrantId) : State * gset GrantId * result unit string :=
  match s with
  | SAuthorizing (Some lease) =>
      if negb closed && ActiveGrant_live (gl_current lease) now1
         && revocations_permit rp now2 (v_id (ac_grant (gl_current lease)))
      then (SGranted lease, active, Ok tt)
      else (SClosed, drop_state s active, Err "authorization interrupted"%string)
  | _ => (SClosed, drop_state s active, Err "authorization interrupted"%string)
  end.

Definition begin_renewal (s : State) : State * result unit string :=
  match s with
  | SGranted lease => (SRenewing lease, Ok tt)
  | _ => (s, Err "renewal requires a granted idle authorization transaction"%string)
  end.

Definition prepare_renewal (s : State) (now : option Reading) (next : VerifiedGrant)
    : result ActiveGrant string :=
  match s with
  | SRenewing lease =>
      match now with
      | None => Err "grant clock unavailable"%string
      | Some now =>
          if negb (ActiveGrant_live_at (gl_current lease) now)
          then Err "previous grant expired"%string else
          match permits_renewal (ac_grant (gl_current lease)) next with
          | Err _ => Err "invalid grant renewal"%string
          | Ok advance =>
              if advance then ActiveGrant_new next now else Ok (gl_current lease)
          end
      end
  | _ => Err "renewal interrupted"%string
  end.

(** [commit_renewal]; [closed1] and [closed2] are the two tests of [conn.is_closed()]. *)
Definition commit_renewal (next : ActiveGrant) (closed1 closed2 : bool)
    (rp : RevocationPolicy) (now1 now2 now3 : option Reading) (s : State)
    (active : gset GrantId) : State * gset GrantId * result unit string :=
  match s with
  | SRenewing lease =>
      if negb closed1 && ActiveGrant_live (gl_current lease) now1
         && ActiveGrant_live next now2
         && revocations_permit rp now3 (v_id (ac_grant next))
      then if closed2
           then (SClosed, drop_state s active, Err "renewal interrupted"%string)
           else (SGranted (mkGrantLease next next (gl_slot lease)), active, Ok tt)
      else (SClosed, drop_state s active, Err "renewal interrupted"%string)
  | _ => (SClosed, drop_state s active, Err "renewal interrupted"%string)
  end.

(** [close] and the state change of [close_and_wait]. *)
Definition close (s : State) (active : gset GrantId) : State * gset GrantId :=
  (SClosed, drop_state s active).

(** [scope]; [now1] is the reading of [live], [now2] the one of [fresh]. *)
Definition scope (s : State) (rp : RevocationPolicy) (now1 now2 : option Reading)
    : result (option VerifiedGrant) ScopeError :=
  match s with
  | SOpen => Ok None
  | SPending => Err ScPending
  | SAuthorizing _ => Err ScAuthorizing
  | SClosed => Err ScClosed
  | SGranted lease | SRenewing lease =>
      if negb (ActiveGrant_live (gl_current lease) now1) then Err ScExpired else
      if negb (rp_fresh rp now2) then Err ScPolicyStale else
      if rp_contains rp (v_id (ac_grant (gl_current lease))) then Err ScRevoked
      else Ok (Some (ac_grant (gl_current lease)))
  end.

(** [service_scope]: the results [scope] gives at each wake-up before the deadline. *)
Fixpoint service_scope (observed : list (result (option VerifiedGrant) ScopeError))
    : result (option VerifiedGrant) ScopeError :=
  match observed with
  | [] => Err ScAuthorizationTimeout
  | Err ScAuthorizing :: later => service_scope later
  | r :: _ => r
  end.

(** [try_service_slot] and [try_sync_slot]: the new value and whether it was taken. *)
Definition try_service_slot (available : Z) : Z * bool :=
  if 0 <? available then (available - 1, true) else (available, false).
Definition try_sync_slot (sync_busy : bool) : bool * bool := (true, negb sync_busy).

(** One round of [watch_grant]: close with a code, or wait this long. *)
Definition watch_check (snapshot : RevocationPolicy) (active : ActiveGrant)
    (now1 now2 : option Reading) : option (Z + duration) :=
  if negb (rp_fresh snapshot now1) then Some (inl 4) else
  if rp_contains snapshot (v_id (ac_grant active)) then Some (inl 4) else
  match now2 with
  | None => Some (inl 3)
  | Some now =>
      if negb (ActiveGrant_live_at active now) then Some (inl 3) else
      match Lease_remaining_at (ac_validity active) now with
      | Some d => Some (inr (Z.min d (from_secs 1)))
      | None => None
      end
  end.

(** ** The [authorize] task and the system *)

(** The fields of [AgentPolicy] that [authorize] reads; the denylist and the replay
    guard, which change, are part of the system state. *)
Record AuthzPolicy : Type := mkAuthzPolicy {
  ap_issuers : gset bytes;
  ap_grant_max_ttl : duration;
  ap_tenant : option bytes;
  ap_min_policy_revision : option Z
}.

Definition grants_required (pol : AuthzPolicy) : bool :=
  negb (bool_decide (ap_issuers pol = ∅)).

(** The deployment binding: the two tests [authorize] runs on a verified grant. *)
Definition check_binding (pol : AuthzPolicy) (v : VerifiedGrant) : result unit GrantError :=
  if is_some_and (ap_tenant pol)
       (fun t => negb (bool_decide (p_tenant (v_payload v) = Some t)))
  then Err TenantMismatch else
  if is_some_and (ap_min_policy_revision pol)
       (fun floor => is_none_or (p_policy_revision (v_payload v)) (fun r => r <? floor))
  then Err PolicyRevisionStale else Ok tt.

(** Where an [authorize] call stands between the points at which it touches shared
    state: before [begin], with its [Admission] guard, waiting for the reply, after the
    commit, and returned. *)
Inductive PC : Type :=
| PStart (g : Grant)
| PBegun (g : Grant)
| PAck (next : option ActiveGrant)
| PCommitted
| PDone.

Record Task : Type := mkTask { tk_conn : nat; tk_renewal : bool; tk_pc : PC }.

Record Conn : Type := mkConn {
  cn_remote : bytes;
  cn_audience : bytes;
  cn_state : State;
  cn_closed : bool
}.

Record System : Type := mkSystem {
  sy_active : gset GrantId;
  sy_rp : RevocationPolicy;
  sy_conns : gmap nat Conn;
  sy_tasks : gmap nat Task
}.

Definition System_initial : System := mkSystem ∅ RevocationPolicy_default ∅ ∅.

(** What can happen next, with the readings of the clock and the results of I/O. *)
Inductive AuthzEvent : Type :=
| EvConnect (c : nat) (remote audience : bytes) (streams : Z)
| EvStream (t c : nat) (renewal : bool) (g : Grant)
| EvBegin (t : nat)
| EvAdmit (t : nat) (unix : Z) (mid : RevocationPolicy) (now1 now2 : option Reading)
| EvReply (t : nat) (delivered closed2 : bool) (now1 now2 now3 : option Reading)
| EvFinish (t : nat) (delivered : bool)
| EvAbort (t : nat)
| EvPeerClosed (c : nat)
| EvTeardown (c : nat)
| EvPolicy (rp : RevocationPolicy).

Definition set_pc (pc : PC) (tk : Task) : Task := mkTask (tk_conn tk) (tk_renewal tk) pc.
Definition set_state (st : State) (cn : Conn) : Conn :=
  mkConn (cn_remote cn) (cn_audience cn) st (cn_closed cn).

(** A connection's new state, the replay guard after it and the task's new position. *)
Definition put (sy : System) (c t : nat) (cn : Conn) (tk : Task) (st : State)
    (active : gset GrantId) (pc : PC) : System :=
  mkSystem active (sy_rp sy) (<[c := set_state st cn]> (sy_conns sy))
    (<[t := set_pc pc tk]> (sy_tasks sy)).

(** [Drop for Admission] on a task that did not commit, and [Drop for
    ConnectionLifetime]: close the authorization, then the connection. *)
Definition close_conn (sy : System) (c : nat) : System :=
  match sy_conns sy !! c with
  | Some cn =>
      let (st, active) := close (cn_state cn) (sy_active sy) in
      mkSystem active (sy_rp sy)
        (<[c := mkConn (cn_remote cn) (cn_audience cn) st true]> (sy_conns sy)) (sy_tasks sy)
  | None => sy
  end.

Definition finish_task (sy : System) (t : nat) (tk : Task) : System :=
  mkSystem (sy_active sy) (sy_rp sy) (sy_conns sy) (<[t := set_pc PDone tk]> (sy_tasks sy)).

Definition drop_admission (sy : System) (t : nat) (tk : Task) : System :=
  finish_task (close_conn sy (tk_conn tk)) t tk.

Section WithLibraries.
  Context `{Ed25519, Blake3, Postcard Z, Postcard GrantPayload, Postcard GrantPayloadV2}.
  Context (pol : AuthzPolicy).

(** [grant.verify] and the deployment binding, as [authorize] runs them. *)
Definition admit_grant (remote audience : bytes) (unix : Z) (g : Grant)
    : result VerifiedGrant GrantError :=
  let? v := Grant_verify g (ap_issuers pol) remote audience (ap_grant_max_ttl pol) unix in
  let? _ := check_binding pol v in
  Ok v.

(** From the [Admission] guard to the reply. *)
Definition task_admit (sy : System) (t : nat) (tk : Task) (cn : Conn) (g : Grant) (unix : Z)
    (mid : RevocationPolicy) (now1 now2 : option Reading) : System :=
  match admit_grant (cn_remote cn) (cn_audience cn) unix g with
  | Err _ => drop_admission sy t tk
  | Ok v =>
      if tk_renewal tk then
        match prepare_renewal (cn_state cn) now2 v with
        | Ok next => put sy (tk_conn tk) t cn tk (cn_state cn) (sy_active sy) (PAck (Some next))
        | Err _ => drop_admission sy t tk
        end
      else
        match install (cn_audience cn) (cn_closed cn) (sy_rp sy) mid now1 now2 v
                (cn_state cn) (sy_active sy) with
        | (st, active, Ok _) => put sy (tk_conn tk) t cn tk st active (PAck None)
        | (st, active, Err _) =>
            drop_admission (put sy (tk_conn tk) t cn tk st active PDone) t tk
        end
  end.

(** From the delivered reply to the commit. *)
Definition task_commit (sy : System) (t : nat) (tk : Task) (cn : Conn)
    (next : option ActiveGrant) (closed2 : bool) (now1 now2 now3 : option Reading) : System :=
  let '(st, active, r) :=
    match next with
    | Some next => commit_renewal next (cn_closed cn) closed2 (sy_rp sy) now1 now2 now3
                     (cn_state cn) (sy_active sy)
    | None => commit (cn_closed cn) (sy_rp sy) now1 now3 (cn_state cn) (sy_active sy)
    end in
  match r with
  | Ok _ => put sy (tk_conn tk) t cn tk st active PCommitted
  | Err _ => drop_admission (put sy (tk_conn tk) t cn tk st active PDone) t tk
  end.

Definition task_begin (sy : System) (t : nat) (tk : Task) (cn : Conn) (g : Grant) : System :=
  let (st, r) := (if tk_renewal tk then begin_renewal (cn_state cn) else begin (cn_state cn)) in
  match r with
  | Ok _ => put sy (tk_conn tk) t cn tk st (sy_active sy) (PBegun g)
  | Err _ => finish_task sy t tk
  end.

Definition handle (sy : System) (e : AuthzEvent) : System :=
  let on_task t k :=
    match sy_tasks sy !! t with
    | Some tk => match sy_conns sy !! tk_conn tk with
                 | Some cn => k tk cn
                 | None => sy
                 end
    | None => sy
    end in
  match e with
  | EvConnect c remote audience streams =>
      match sy_conns sy !! c with
      | Some _ => sy
      | None =>
          mkSystem (sy_active sy) (sy_rp sy)
            (<[c := mkConn remote audience
                      (ConnAuthz_new (grants_required pol) streams).1 false]> (sy_conns sy))
            (sy_tasks sy)
      end
  | EvStream t c renewal g =>
      match sy_tasks sy !! t with
      | Some _ => sy
      | None => mkSystem (sy_active sy) (sy_rp sy) (sy_conns sy)
                  (<[t := mkTask c renewal (PStart g)]> (sy_tasks sy))
      end
  | EvBegin t => on_task t (fun tk cn =>
      match tk_pc tk with PStart g => task_begin sy t tk cn g | _ => sy end)
  | EvAdmit t unix mid now1 now2 => on_task t (fun tk cn =>
      match tk_pc tk with
      | PBegun g => task_admit sy t tk cn g unix mid now1 now2 | _ => sy end)
  | EvReply t delivered closed2 now1 now2 now3 => on_task t (fun tk cn =>
      match tk_pc tk with
      | PAck next =>
          if delivered then task_commit sy t tk cn next closed2 now1 now2 now3
          else drop_admission sy t tk
      | _ => sy end)
  | EvFinish t delivered => on_task t (fun tk cn =>
      match tk_pc tk with
      | PCommitted => if delivered then finish_task sy t tk else drop_admission sy t tk
      | _ => sy end)
  | EvAbort t => on_task t (fun tk cn =>
      match tk_pc tk with
      | PStart _ => finish_task sy t tk
      | PBegun _ | PAck _ | PCommitted => drop_admission sy t tk
      | PDone => sy end)
  | EvPeerClosed c =>
      match sy_conns sy !! c with
      | Some cn => mkSystem (sy_active sy) (sy_rp sy)
          (<[c := mkConn (cn_remote cn) (cn_audience cn) (cn_state cn) true]> (sy_conns sy))
          (sy_tasks sy)
      | None => sy
      end
  | EvTeardown c => close_conn sy c
  | EvPolicy rp => mkSystem (sy_active sy) rp (sy_conns sy) (sy_tasks sy)
  end.

Inductive reachable : System -> Prop :=
| reach_initial : reachable System_initial
| reach_handle sy e : reachable sy -> reachable (handle sy e).

End WithLibraries.

(** ** The replay guard *)

Definition slot_of (s : State) : option GrantId := gl_slot <$> state_lease s.

Definition holds (conns : gmap nat Conn) (c : nat) (id : GrantId) : Prop :=
  exists cn, conns !! c = Some cn /\ slot_of (cn_state cn) = Some id.

(** The guard set is exactly the identifiers held, each by one connection. *)
Definition guard_ok (active : gset GrantId) (conns : gmap nat Conn) : Prop :=
  (forall id, id ∈ active <-> exists c, holds conns c id) /\
  (forall c1 c2 id, holds conns c1 id -> holds conns c2 id -> c1 = c2).

(** What a change of one connection's state must do to the guard. *)
Definition slot_change (st st' : State) (active active' : gset GrantId) : Prop :=
  (forall id, id ∈ active' <-> (id ∈ active /\ slot_of st <> Some id) \/ slot_of st' = Some id) /\
  (forall id, slot_of st' = Some id -> id ∈ active -> slot_of st = Some id).

Lemma holds_insert conns c cn c' id :
  holds (<[c := cn]> conns) c' id <->
  (c' = c /\ slot_of (cn_state cn) = Some id) \/ (c' <> c /\ holds conns c' id).
Proof.
  unfold holds. split.
  - intros (x & Hx & Hs). apply lookup_insert_Some in Hx as [[<- <-]|[Hn Hx]]; [by left|].
    right. split; [done|]. by exists x.
  - intros [[-> Hs]|[Hn (x & Hx & Hs)]].
    + exists cn. by rewrite lookup_insert_eq.
    + exists x. by rewrite lookup_insert_ne.
Qed.

Lemma guard_update active active' conns c cn cn' :
  guard_ok active conns -> conns !! c = Some cn ->
  slot_change (cn_state cn) (cn_state cn') active active' ->
  guard_ok active' (<[c := cn']> conns).
Proof.
  intros [Ha Hu] Hc [Hch Hnew].
  assert (Hself : forall id, holds conns c id <-> slot_of (cn_state cn) = Some id).
  { intros id. split; [intros (x & Hx & Hs); congruence|intros Hs; by exists cn]. }
  split.
  - intros id. rewrite Hch, Ha. split.
    + intros [[[c' Hh] Hn]|Hs].
      * exists c'. apply holds_insert. right. split; [|done]. intros ->. by apply Hself in Hh.
      * exists c. apply holds_insert. by left.
    + intros [c' Hh]. apply holds_insert in Hh as [[-> Hs]|[Hn Hh]]; [by right|].
      left. split; [by exists c'|]. intros Hs. apply Hself in Hs. by apply Hn, (Hu c' c id).
  - intros c1 c2 id K1 K2. apply holds_insert in K1 as [[-> S1]|[N1 K1]];
      apply holds_insert in K2 as [[-> S2]|[N2 K2]]; [done| | |by eapply Hu].
    + assert (slot_of (cn_state cn) = Some id) by (apply Hnew; [done|apply Ha; by exists c2]).
      symmetry. apply (Hu c2 c id); [done|by apply Hself].
    + assert (slot_of (cn_state cn) = Some id) by (apply Hnew; [done|apply Ha; by exists c1]).
      apply (Hu c1 c id); [done|by apply Hself].
Qed.

Lemma slot_change_same st st' active conns c cn :
  guard_ok active conns -> conns !! c = Some cn -> cn_state cn = st ->
  slot_of st' = slot_of st -> slot_change st st' active active.
Proof.
  intros [Ha _] Hc <- E. split; rewrite E; [|done].
  intros id. split.
  - intros Hi. destruct (decide (slot_of (cn_state cn) = Some id)); [by right|by left].
  - intros [[? _]|Hs]; [done|]. apply Ha. exists c. by exists cn.
Qed.

Lemma slot_change_drop st active : slot_change st SClosed active (drop_state st active).
Proof.
  unfold slot_change, drop_state, slot_of. split; [|done]. intros id. simpl.
  destruct (state_lease st) as [l|]; simpl; [|naive_solver].
  rewrite elem_of_difference, elem_of_singleton. naive_solver.
Qed.

Lemma slot_change_claim st st' id active :
  slot_of st = None -> slot_of st' = Some id -> ~ (id ∈ active) ->
  slot_change st st' active ({[id]} ∪ active).
Proof.
  intros E1 E2 Hn. unfold slot_change. rewrite E1, E2. split.
  - intros i. rewrite elem_of_union, elem_of_singleton. naive_solver.
  - intros i [= ->] Hi. done.
Qed.

(** ** The invariant of the system *)

Section Invariant.
  Context `{Ed25519, Blake3, Postcard Z, Postcard GrantPayload, Postcard GrantPayloadV2}.
  Context (pol : AuthzPolicy).

(** The grant passed [Grant::verify] and the deployment binding for this peer. *)
Definition admitted (cn : Conn) (v : VerifiedGrant) : Prop :=
  exists g unix, admit_grant pol (cn_remote cn) (cn_audience cn) unix g = Ok v.

Definition active_ok (cn : Conn) (id : GrantId) (a : ActiveGrant) : Prop :=
  v_id (ac_grant a) = id /\ admitted cn (ac_grant a) /\
  exists now, ActiveGrant_new (ac_grant a) now = Ok a.

Definition conn_ok (cn : Conn) : Prop :=
  (cn_state cn = SOpen -> grants_required pol = false) /\
  forall l, state_lease (cn_state cn) = Some l ->
    active_ok cn (gl_slot l) (gl_current l) /\ gl_updates l = gl_current l.

Definition inflight (tk : Task) : Prop :=
  match tk_pc tk with PBegun _ | PAck _ => True | _ => False end.

#[local] Instance inflight_dec tk : Decision (inflight tk).
Proof. unfold inflight. destruct (tk_pc tk); apply _. Defined.

(** A task between [begin] and its commit finds the state it left, or [Closed]. *)
Definition task_ok (tk : Task) (cn : Conn) : Prop :=
  cn_state cn = SClosed \/
  match tk_pc tk with
  | PBegun _ => if tk_renewal tk then exists l, cn_state cn = SRenewing l
                else cn_state cn = SAuthorizing None
  | PAck None => exists l, cn_state cn = SAuthorizing (Some l)
  | PAck (Some next) => exists l, cn_state cn = SRenewing l /\ active_ok cn (gl_slot l) next /\
      renews (ac_grant (gl_current l)) (ac_grant next)
  | _ => True
  end.

Record inv (sy : System) : Prop := {
  inv_guard : guard_ok (sy_active sy) (sy_conns sy);
  inv_conn : forall c cn, sy_conns sy !! c = Some cn -> conn_ok cn;
  inv_task : forall t tk cn, sy_tasks sy !! t = Some tk ->
    sy_conns sy !! tk_conn tk = Some cn -> task_ok tk cn;
  inv_excl : forall t1 t2 tk1 tk2,
    sy_tasks sy !! t1 = Some tk1 -> sy_tasks sy !! t2 = Some tk2 ->
    inflight tk1 -> inflight tk2 -> tk_conn tk1 = tk_conn tk2 -> t1 = t2;
  inv_placed : forall t tk, sy_tasks sy !! t = Some tk -> inflight tk ->
    is_Some (sy_conns sy !! tk_conn tk)
}.

Lemma admit_grant_ok remote audience unix g v :
  admit_grant pol remote audience unix g = Ok v <->
  Grant_verify g (ap_issuers pol) remote audience (ap_grant_max_ttl pol) unix = Ok v /\
  check_binding pol v = Ok tt.
Proof.
  unfold admit_grant. destruct (Grant_verify _ _ _ _ _ _) as [w|]; [|naive_solver].
  destruct (check_binding pol w) as [[]|] eqn:E; naive_solver congruence.
Qed.

Lemma ActiveGrant_new_grant g now a : ActiveGrant_new g now = Ok a -> ac_grant a = g.
Proof.
  unfold ActiveGrant_new. destruct (negb _); [done|].
  destruct (Lease_new _ _ _); [|done]. by intros [= <-].
Qed.

Lemma active_ok_new cn v now a :
  admitted cn v -> ActiveGrant_new v now = Ok a -> active_ok cn (v_id v) a.
Proof.
  intros Ha Hn. pose proof (ActiveGrant_new_grant _ _ _ Hn) as E.
  unfold active_ok. rewrite E. split_and!; eauto.
Qed.

Lemma install_spec cn closed rp1 rp2 now1 now2 v s active st' active' r :
  install (cn_audience cn) closed rp1 rp2 now1 now2 v s active = (st', active', r) ->
  match r with
  | Ok _ => s = SAuthorizing None /\ active' = {[v_id v]} ∪ active /\ ~ (v_id v ∈ active) /\
      exists now a, ActiveGrant_new v now = Ok a /\
        st' = SAuthorizing (Some (mkGrantLease a a (v_id v)))
  | Err _ => st' = s /\ active' = active
  end.
Proof.
  unfold install, GrantSlot_claim.
  destruct s as [| |[l|]|l|l|]; try by intros [= <- <- <-].
  destruct closed; [by intros [= <- <- <-]|].
  destruct (negb (rp_fresh rp1 now1)); [by intros [= <- <- <-]|].
  destruct (rp_contains rp2 (v_id v)); [by intros [= <- <- <-]|].
  destruct (negb (bool_decide (p_audience (v_payload v) = cn_audience cn)));
    [by intros [= <- <- <-]|].
  destruct now2 as [now|]; [|by intros [= <- <- <-]].
  case_bool_decide as Hin; [by intros [= <- <- <-]|].
  destruct (ActiveGrant_new v now) as [a|e] eqn:Ea; intros [= <- <- <-]; [by eauto 10|].
  split; [done|set_solver].
Qed.

Lemma commit_spec closed rp now1 now2 s active st' active' r :
  commit closed rp now1 now2 s active = (st', active', r) ->
  match r with
  | Ok _ => exists l, s = SAuthorizing (Some l) /\ st' = SGranted l /\ active' = active /\
      closed = false /\ ActiveGrant_live (gl_current l) now1 = true /\
      revocations_permit rp now2 (v_id (ac_grant (gl_current l))) = true
  | Err _ => st' = SClosed /\ active' = drop_state s active
  end.
Proof.
  unfold commit. destruct s as [| |[l|]|l|l|]; try by intros [= <- <- <-].
  destruct (_ && _) eqn:E; intros [= <- <- <-]; b2p; naive_solver.
Qed.

Lemma commit_renewal_spec next closed1 closed2 rp now1 now2 now3 s active st' active' r :
  commit_renewal next closed1 closed2 rp now1 now2 now3 s active = (st', active', r) ->
  match r with
  | Ok _ => exists l, s = SRenewing l /\ st' = SGranted (mkGrantLease next next (gl_slot l)) /\
      active' = active /\ ActiveGrant_live next now2 = true /\
      revocations_permit rp now3 (v_id (ac_grant next)) = true
  | Err _ => st' = SClosed /\ active' = drop_state s active
  end.
Proof.
  unfold commit_renewal. destruct s as [| |[l|]|l|l|]; try by intros [= <- <- <-].
  destruct (_ && _) eqn:E; [destruct closed2|]; intros [= <- <- <-]; b2p; naive_solver.
Qed.

Lemma prepare_renewal_spec cn s now v next l :
  prepare_renewal s now v = Ok next -> s = SRenewing l ->
  active_ok cn (gl_slot l) (gl_current l) -> admitted cn v ->
  active_ok cn (gl_slot l) next /\ renews (ac_grant (gl_current l)) (ac_grant next).
Proof.
  intros Hp -> Hc Ha. unfold prepare_renewal in Hp. destruct now as [now|]; [|done].
  destruct (negb _); [done|].
  destruct (permits_renewal (ac_grant (gl_current l)) v) as [[|]|] eqn:Er; [| |done].
  - split; [|exists true; by rewrite (ActiveGrant_new_grant _ _ _ Hp)].
    apply permits_renewal_ok in Er as (_ & Eid & _). destruct Hc as [<- _]. rewrite Eid.
    by eapply active_ok_new.
  - injection Hp as <-. split; [done|]. exists false. by apply permits_renewal_ok.
Qed.

(** The general step: one task moves one connection. *)
Lemma inv_put sy c t cn tk st active pc :
  inv sy -> sy_tasks sy !! t = Some tk -> tk_conn tk = c -> sy_conns sy !! c = Some cn ->
  slot_change (cn_state cn) st (sy_active sy) active ->
  conn_ok (set_state st cn) -> task_ok (set_pc pc tk) (set_state st cn) ->
  (forall t' tk', t' <> t -> sy_tasks sy !! t' = Some tk' -> tk_conn tk' = c -> inflight tk' ->
     False) ->
  inv (put sy c t cn tk st active pc).
Proof.
  intros [Ig Ic It Ie Ip] Ht Hc Hcn Hch Hok Htk Hothers. unfold put. split; simpl.
  - by eapply guard_update.
  - intros c' cn'. rewrite lookup_insert_Some. intros [[_ <-]|[_ Hl]]; [done|by eapply Ic].
  - intros t' tk' cn'. rewrite !lookup_insert_Some.
    intros [[<- <-]|[Nt Ht']] [[Ec <-]|[Nc Hl]].
    + done.
    + exfalso. simpl in Nc. congruence.
    + destruct tk' as [c' b p]; simpl in *. subst c'.
      destruct (decide (inflight (mkTask c b p))) as [Hin|Hin].
      * exfalso. by eapply (Hothers t').
      * right. simpl. by destruct p.
    + by eapply It.
  - intros t1 t2 tk1 tk2. rewrite !lookup_insert_Some.
    intros [[<- <-]|[N1 K1]] [[<- <-]|[N2 K2]] I1 I2 E; simpl in E; [done| | |by eapply Ie].
    + exfalso. eapply (Hothers t2 tk2); auto; congruence.
    + exfalso. eapply (Hothers t1 tk1); auto; congruence.
  - intros t' tk'. rewrite lookup_insert_Some. intros [[<- <-]|[Nt Ht']] Hin; simpl.
    + rewrite Hc, lookup_insert_eq. by eexists.
    + destruct (decide (tk_conn tk' = c)) as [->|Nc]; [rewrite lookup_insert_eq; by eexists|].
      rewrite lookup_insert_ne by congruence. by eapply Ip.
Qed.

Lemma inv_close_conn sy c : inv sy -> inv (close_conn sy c).
Proof.
  intros [Ig Ic It Ie Ip]. unfold close_conn.
  destruct (sy_conns sy !! c) as [cn|] eqn:Hcn; [|done]. simpl. split; simpl.
  - eapply guard_update; [done|done|]. simpl. apply slot_change_drop.
  - intros c' cn'. rewrite lookup_insert_Some. intros [[_ <-]|[_ Hl]]; [by split|by eapply Ic].
  - intros t tk cn' Ht. rewrite lookup_insert_Some. intros [[_ <-]|[_ Hl]]; [by left|by eapply It].
  - done.
  - intros t tk Ht Hin. destruct (decide (tk_conn tk = c)) as [->|Nc].
    + rewrite lookup_insert_eq. by eexists.
    + rewrite lookup_insert_ne by congruence. by eapply Ip.
Qed.

Lemma inv_finish_task sy t tk : inv sy -> inv (finish_task sy t tk).
Proof.
  intros [Ig Ic It Ie Ip]. split; simpl; [done|done| | |].
  - intros t' tk' cn. rewrite lookup_insert_Some. intros [[_ <-]|[_ Ht]]; [by right|by eapply It].
  - intros t1 t2 tk1 tk2. rewrite !lookup_insert_Some.
    intros [[_ <-]|[_ K1]] [[_ <-]|[_ K2]]; try done. by eapply Ie.
  - intros t' tk'. rewrite lookup_insert_Some. intros [[_ <-]|[_ Ht]]; [done|by eapply Ip].
Qed.

Lemma inv_drop_admission sy t tk : inv sy -> inv (drop_admission sy t tk).
Proof. intros. by apply inv_finish_task, inv_close_conn. Qed.

(** While a task is in flight no other task of its connection is. *)
Lemma inv_others sy t tk :
  inv sy -> sy_tasks sy !! t = Some tk -> inflight tk ->
  forall t' tk', t' <> t -> sy_tasks sy !! t' = Some tk' -> tk_conn tk' = tk_conn tk ->
  inflight tk' -> False.
Proof.
  intros Hi Ht Hin t' tk' Nt Ht' Ec Hin'. apply Nt. by eapply (inv_excl _ Hi).
Qed.

(** In an idle state no task of the connection is in flight. *)
Lemma inv_idle sy c cn t tk :
  inv sy -> sy_conns sy !! c = Some cn ->
  cn_state cn = SPending \/ (exists l, cn_state cn = SGranted l) ->
  sy_tasks sy !! t = Some tk -> tk_conn tk = c -> inflight tk -> False.
Proof.
  intros Hi Hc Hs Ht <- Hin. pose proof (inv_task _ Hi t tk cn Ht Hc) as K.
  unfold task_ok, inflight in *.
  destruct Hs as [Hs|[l Hs]]; rewrite Hs in K; destruct K as [K|K]; try done;
    destruct (tk_pc tk) as [g|g|[next|]| |]; try done; destruct (tk_renewal tk);
    (done || (destruct K as [? K]; done) || (destruct K as (? & K & _); done)).
Qed.

Lemma inv_task_begin sy t tk cn g :
  inv sy -> sy_tasks sy !! t = Some tk -> sy_conns sy !! tk_conn tk = Some cn ->
  inv (task_begin sy t tk cn g).
Proof.
  intros Hi Ht Hc. pose proof (inv_conn _ Hi _ _ Hc) as [Ho Hl].
  unfold task_begin. destruct (tk_renewal tk) eqn:Er.
  - unfold begin_renewal. destruct (cn_state cn) as [| |l|l|l|] eqn:Es; try by apply inv_finish_task.
    eapply inv_put; eauto.
    + rewrite Es. eapply slot_change_same; eauto using inv_guard.
    + by split.
    + right. simpl. rewrite Er. by eexists.
    + intros t' tk' _ Ht' Ec Hin. eapply (inv_idle sy _ cn t' tk'); eauto.
  - unfold begin. destruct (cn_state cn) as [| |l|l|l|] eqn:Es; try by apply inv_finish_task.
    eapply inv_put; eauto.
    + rewrite Es. eapply slot_change_same; eauto using inv_guard.
    + by split.
    + right. simpl. by rewrite Er.
    + intros t' tk' _ Ht' Ec Hin. eapply (inv_idle sy _ cn t' tk'); eauto.
Qed.

(** A failed operation that left the task's connection closed or untouched. *)
Lemma inv_fail sy t tk cn st active :
  inv sy -> sy_tasks sy !! t = Some tk -> sy_conns sy !! tk_conn tk = Some cn -> inflight tk ->
  (st = cn_state cn /\ active = sy_active sy) \/
  (st = SClosed /\ active = drop_state (cn_state cn) (sy_active sy)) ->
  inv (drop_admission (put sy (tk_conn tk) t cn tk st active PDone) t tk).
Proof.
  intros Hi Ht Hc Hin Hst. apply inv_drop_admission. eapply inv_put; eauto.
  - destruct Hst as [[-> ->]|[-> ->]]; [|apply slot_change_drop].
    eapply slot_change_same; eauto using inv_guard.
  - destruct Hst as [[-> _]|[-> _]]; [|by split]. destruct cn. by eapply (inv_conn _ Hi).
  - by right.
  - by eapply inv_others.
Qed.

Lemma inv_task_admit sy t tk cn g unix mid now1 now2 :
  inv sy -> sy_tasks sy !! t = Some tk -> sy_conns sy !! tk_conn tk = Some cn ->
  tk_pc tk = PBegun g -> inv (task_admit pol sy t tk cn g unix mid now1 now2).
Proof.
  intros Hi Ht Hc Hpc. assert (Hin : inflight tk) by (unfold inflight; by rewrite Hpc).
  unfold task_admit.
  destruct (admit_grant pol (cn_remote cn) (cn_audience cn) unix g) as [v|] eqn:Ev;
    [|by apply inv_drop_admission].
  assert (Ha : forall st, admitted (set_state st cn) v) by (intros st; by exists g, unix).
  pose proof (inv_task _ Hi _ _ _ Ht Hc) as Hok. pose proof (inv_conn _ Hi _ _ Hc) as [Ho Hl].
  destruct (tk_renewal tk) eqn:Er.
  - destruct (prepare_renewal (cn_state cn) now2 v) as [next|] eqn:Ep;
      [|by apply inv_drop_admission].
    destruct (cn_state cn) as [| |l|l|l|] eqn:Es; try done.
    eapply inv_put; eauto.
    + rewrite Es. eapply slot_change_same; eauto using inv_guard.
    + by split.
    + right. simpl. exists l. split; [done|].
      eapply prepare_renewal_spec; eauto. by apply Hl.
    + by eapply inv_others.
  - destruct (install _ _ _ _ _ _ _ _ _) as [[st active] r] eqn:Ei.
    pose proof (install_spec _ _ _ _ _ _ _ _ _ _ _ _ Ei) as Hs. destruct r as [u|e].
    + destruct Hs as (Es & -> & Hn & now & a & Hnew & ->). eapply inv_put; eauto.
      * by apply slot_change_claim; [rewrite Es| |].
      * split; [done|]. simpl. intros l [= <-]. simpl. split; [|done].
        by eapply active_ok_new.
      * right. simpl. by eexists.
      * by eapply inv_others.
    + destruct Hs as [-> ->]. eapply inv_fail; eauto.
Qed.

Lemma inv_task_commit sy t tk cn next closed2 now1 now2 now3 :
  inv sy -> sy_tasks sy !! t = Some tk -> sy_conns sy !! tk_conn tk = Some cn ->
  tk_pc tk = PAck next -> inv (task_commit sy t tk cn next closed2 now1 now2 now3).
Proof.
  intros Hi Ht Hc Hpc. assert (Hin : inflight tk) by (unfold inflight; by rewrite Hpc).
  pose proof (inv_task _ Hi _ _ _ Ht Hc) as Hok. pose proof (inv_conn _ Hi _ _ Hc) as [Ho Hl].
  assert (Hput : forall l st, cn_state cn = st -> state_lease st = Some l -> forall l',
    gl_slot l' = gl_slot l -> active_ok cn (gl_slot l') (gl_current l') ->
    gl_updates l' = gl_current l' ->
    inv (put sy (tk_conn tk) t cn tk (SGranted l') (sy_active sy) PCommitted)).
  { intros l st Es Hst l' Eslot Hact Hup. eapply inv_put; eauto.
    - eapply slot_change_same; eauto using inv_guard.
      rewrite Es. unfold slot_of. rewrite Hst. simpl. by rewrite Eslot.
    - split; [done|]. simpl. by intros ? [= <-].
    - by right.
    - by eapply inv_others. }
  unfold task_commit. destruct next as [next|].
  - destruct (commit_renewal _ _ _ _ _ _ _ _ _) as [[st active] r] eqn:Ei.
    pose proof (commit_renewal_spec _ _ _ _ _ _ _ _ _ _ _ _ Ei) as Hs. destruct r as [u|e].
    + destruct Hs as (l & Es & -> & -> & _). eapply Hput; eauto.
      unfold task_ok in Hok. rewrite Es, Hpc in Hok.
      destruct Hok as [?|(l0 & [= <-] & Hact & _)]; done.
    + destruct Hs as [-> ->]. eapply inv_fail; eauto.
  - destruct (commit _ _ _ _ _ _) as [[st active] r] eqn:Ei.
    pose proof (commit_spec _ _ _ _ _ _ _ _ _ Ei) as Hs. destruct r as [u|e].
    + destruct Hs as (l & Es & -> & -> & _). rewrite Es in Hl.
      destruct (Hl l eq_refl) as [Hact Hup]. eapply Hput; eauto.
    + destruct Hs as [-> ->]. eapply inv_fail; eauto.
Qed.

Lemma inv_initial : inv System_initial.
Proof.
  split; simpl; try done. split; [|intros c1 c2 id (cn & Hc & _); done].
  intros id. split; [set_solver|]. by intros (c & cn & Hc & _).
Qed.

Lemma inv_connect sy c cn :
  inv sy -> sy_conns sy !! c = None -> conn_ok cn -> slot_of (cn_state cn) = None ->
  inv (mkSystem (sy_active sy) (sy_rp sy) (<[c := cn]> (sy_conns sy)) (sy_tasks sy)).
Proof.
  intros [[Ga Gu] Ic It Ie Ip] Hn Hok Hs. split; simpl.
  - assert (K : forall c' id, holds (<[c := cn]> (sy_conns sy)) c' id <->
      holds (sy_conns sy) c' id).
    { intros c' id. rewrite holds_insert, Hs. split; [by intros [[_ ?]|[_ ?]]|].
      intros Hh. right. split; [|done]. intros ->. destruct Hh as (x & Hx & _). congruence. }
    split; [|intros c1 c2 id; rewrite !K; apply Gu].
    intros id. rewrite Ga. by setoid_rewrite K.
  - intros c' cn'. rewrite lookup_insert_Some. intros [[_ <-]|[_ Hl]]; [done|by eapply Ic].
  - intros t tk cn' Ht. rewrite lookup_insert_Some. intros [[Ec <-]|[_ Hl]]; [|by eapply It].
    destruct (decide (inflight tk)) as [Hin|Hin].
    + destruct (Ip _ _ Ht Hin) as [x Hx]. congruence.
    + right. unfold inflight in Hin. by destruct (tk_pc tk).
  - done.
  - intros t tk Ht Hin. destruct (Ip _ _ Ht Hin) as [x Hx].
    rewrite lookup_insert_ne by congruence. by eexists.
Qed.

Lemma inv_peer_closed sy c cn :
  inv sy -> sy_conns sy !! c = Some cn ->
  inv (mkSystem (sy_active sy) (sy_rp sy)
    (<[c := mkConn (cn_remote cn) (cn_audience cn) (cn_state cn) true]> (sy_conns sy))
    (sy_tasks sy)).
Proof.
  intros Hi Hc. split; simpl.
  - eapply guard_update; eauto using inv_guard.
    eapply slot_change_same; eauto using inv_guard.
  - intros c' cn'. rewrite lookup_insert_Some.
    intros [[_ <-]|[_ Hl]]; [exact (inv_conn _ Hi _ _ Hc)|by eapply (inv_conn _ Hi)].
  - intros t tk cn' Ht. rewrite lookup_insert_Some. intros [[Ec <-]|[_ Hl]].
    + subst c. exact (inv_task _ Hi _ _ _ Ht Hc).
    + by eapply (inv_task _ Hi).
  - by apply inv_excl.
  - intros t tk Ht Hin. apply lookup_insert_is_Some'. right. by eapply (inv_placed _ Hi).
Qed.

Lemma inv_handle sy e : inv sy -> inv (handle pol sy e).
Proof.
  intros Hi. destruct e as [c remote audience streams|t c renewal g|t|t unix mid now1 now2
    |t delivered closed2 now1 now2 now3|t delivered|t|c|c|rp]; simpl.
  - destruct (sy_conns sy !! c) eqn:Hc; [done|]. apply inv_connect; try done.
    + split; simpl; destruct (grants_required pol) eqn:Eg; try done.
    + simpl. by destruct (grants_required pol).
  - destruct (sy_tasks sy !! t) eqn:Ht; [done|]. destruct Hi as [Ig Ic It Ie Ip].
    split; simpl; [done|done| | |].
    + intros t' tk' cn. rewrite lookup_insert_Some.
      intros [[_ <-]|[_ Hl]]; [by right|by eapply It].
    + intros t1 t2 tk1 tk2. rewrite !lookup_insert_Some.
      intros [[_ <-]|[_ K1]] [[_ <-]|[_ K2]]; try done. by eapply Ie.
    + intros t' tk'. rewrite lookup_insert_Some. intros [[_ <-]|[_ Hl]]; [done|by eapply Ip].
  - destruct (sy_tasks sy !! t) as [tk|] eqn:Ht; [|done].
    destruct (sy_conns sy !! tk_conn tk) as [cn|] eqn:Hc; [|done].
    destruct (tk_pc tk); try done. by apply inv_task_begin.
  - destruct (sy_tasks sy !! t) as [tk|] eqn:Ht; [|done].
    destruct (sy_conns sy !! tk_conn tk) as [cn|] eqn:Hc; [|done].
    destruct (tk_pc tk) eqn:Hpc; try done. by apply inv_task_admit.
  - destruct (sy_tasks sy !! t) as [tk|] eqn:Ht; [|done].
    destruct (sy_conns sy !! tk_conn tk) as [cn|] eqn:Hc; [|done].
    destruct (tk_pc tk) eqn:Hpc; try done.
    destruct delivered; [by apply inv_task_commit|by apply inv_drop_admission].
  - destruct (sy_tasks sy !! t) as [tk|]; [|done]. destruct (sy_conns sy !! _); [|done].
    destruct (tk_pc tk); try done.
    destruct delivered; [by apply inv_finish_task|by apply inv_drop_admission].
  - destruct (sy_tasks sy !! t) as [tk|]; [|done]. destruct (sy_conns sy !! _); [|done].
    destruct (tk_pc tk); try done; ((by apply inv_finish_task) || by apply inv_drop_admission).
  - destruct (sy_conns sy !! c) as [cn|] eqn:Hc; [|done]. by apply inv_peer_closed.
  - by apply inv_close_conn.
  - by destruct Hi.
Qed.

Lemma reachable_inv sy : reachable pol sy -> inv sy.
Proof. induction 1; [apply inv_initial|by apply inv_handle]. Qed.

(** ** Properties of every reachable state *)

(** C11: The replay guard is exact.  In every interleaving of connections, authorizations,
    renewals, failures, cancellations and teardowns, the set of active grants is the
    set of identifiers held by some connection's lease: no reservation leaks, none is
    lost, and no grant authorizes two connections at once. *)
Theorem replay_guard_exact sy :
  reachable pol sy ->
  (forall id, id ∈ sy_active sy <-> exists c, holds (sy_conns sy) c id) /\
  (forall c1 c2 id, holds (sy_conns sy) c1 id -> holds (sy_conns sy) c2 id -> c1 = c2).
Proof. intros Hr. apply (inv_guard _ (reachable_inv _ Hr)). Qed.

(** What stands behind the scope a connection gives a service stream. *)
Definition scope_grounds (sy : System) (cn : Conn) (now1 now2 : option Reading)
    (r : option VerifiedGrant) : Prop :=
  match r with
  | None => ap_issuers pol = ∅
  | Some v => exists raw unix t l,
      Grant_verify raw (ap_issuers pol) (cn_remote cn) (cn_audience cn) (ap_grant_max_ttl pol)
        unix = Ok v /\ check_binding pol v = Ok tt /\
      now1 = Some t /\ live_at v (as_secs (rd_wall t)) = true /\
      state_lease (cn_state cn) = Some l /\ Lease_valid_at (ac_validity (gl_current l)) t = true /\
      revocations_permit (sy_rp sy) now2 (v_id v) = true /\ v_id v ∈ sy_active sy
  end.

Lemma scope_grounded sy c cn now1 now2 r :
  reachable pol sy -> sy_conns sy !! c = Some cn ->
  scope (cn_state cn) (sy_rp sy) now1 now2 = Ok r -> scope_grounds sy cn now1 now2 r.
Proof.
  intros Hr Hc Hs. unfold scope_grounds. apply reachable_inv in Hr.
  destruct (inv_conn _ Hr _ _ Hc) as [Ho Hl]. destruct (inv_guard _ Hr) as [Hg _].
  unfold scope in Hs. destruct (cn_state cn) as [| |x|l|l|] eqn:Es; try done.
  { injection Hs as <-. unfold grants_required in Ho. specialize (Ho eq_refl). by b2p. }
  all: destruct (ActiveGrant_live (gl_current l) now1) eqn:E1; [|done];
    destruct (rp_fresh (sy_rp sy) now2) eqn:E2; [|done];
    destruct (rp_contains _ _) eqn:E3; [done|]; injection Hs as <-;
    destruct (Hl l eq_refl) as [(Eid & (raw & unix & Ha) & _) _];
    apply admit_grant_ok in Ha as [Hv Hb];
    destruct now1 as [t|]; [|done]; unfold ActiveGrant_live, ActiveGrant_live_at in E1;
    simpl in E1; b2p; destruct E1 as [E1 E1'];
    exists raw, unix, t, l.
  all: split_and!; try done; [unfold revocations_permit; by rewrite E2, E3|].
  all: apply Hg; exists c, cn; split; [done|]; rewrite Es; simpl; by rewrite Eid.
Qed.

(** C12: Soundness of a connection's scope.  In every reachable state, a service stream is
    given a grant only if a trusted issuer signed it for this peer and this device and
    it meets the deployment binding, it is live and its lease valid at the reading, the
    revocation policy is fresh and does not name it, and its replay slot is held; a
    stream passes without a grant only if the agent requires none. *)
Theorem scope_sound sy c cn now1 now2 r :
  reachable pol sy -> sy_conns sy !! c = Some cn ->
  scope (cn_state cn) (sy_rp sy) now1 now2 = Ok r ->
  match r with
  | None => ap_issuers pol = ∅
  | Some v => exists raw unix t l,
      Grant_verify raw (ap_issuers pol) (cn_remote cn) (cn_audience cn) (ap_grant_max_ttl pol)
        unix = Ok v /\ check_binding pol v = Ok tt /\
      now1 = Some t /\ live_at v (as_secs (rd_wall t)) = true /\
      state_lease (cn_state cn) = Some l /\ Lease_valid_at (ac_validity (gl_current l)) t = true /\
      revocations_permit (sy_rp sy) now2 (v_id v) = true /\ v_id v ∈ sy_active sy
  end.
Proof. apply scope_grounded. Qed.

(** One transaction per connection.  Two authorization or renewal tasks of the same
    connection are never both between their start and their commit: a concurrent
    request is refused and cannot overwrite a live lease. *)
Theorem one_transaction_per_connection sy t1 t2 tk1 tk2 :
  reachable pol sy -> sy_tasks sy !! t1 = Some tk1 -> sy_tasks sy !! t2 = Some tk2 ->
  inflight tk1 -> inflight tk2 -> tk_conn tk1 = tk_conn tk2 -> t1 = t2.
Proof. intros Hr. apply reachable_inv in Hr. by apply inv_excl. Qed.

(** ** The life of one session *)

(** What any event may do to a connection: close it for good, or keep its lease with a
    grant reached by accepted renewals. *)
Definition session_step (cn cn' : Conn) : Prop :=
  cn_remote cn' = cn_remote cn /\ cn_audience cn' = cn_audience cn /\
  (cn_state cn' = SClosed \/
   cn_state cn <> SClosed /\
   forall l, state_lease (cn_state cn) = Some l ->
     exists l', state_lease (cn_state cn') = Some l' /\
       rtc lease_step (ac_grant (gl_current l)) (ac_grant (gl_current l'))).

#[local] Instance session_step_preorder : PreOrder session_step.
Proof.
  split.
  - intros cn. split_and!; [done|done|].
    destruct (cn_state cn) as [| |l|l|l|]; [right..|by left]; (split; [done|]);
      intros l0 Hl; exists l0; by split.
  - intros x y z (R1 & A1 & S1) (R2 & A2 & S2). split_and!; [congruence|congruence|].
    destruct S2 as [S2|[N2 S2]]; [by left|]. destruct S1 as [S1|[N1 S1]]; [done|].
    right. split; [done|]. intros l Hl. destruct (S1 l Hl) as (l1 & Hl1 & K1).
    destruct (S2 l1 Hl1) as (l2 & Hl2 & K2). exists l2. split; [done|by etrans].
Qed.

Lemma active_ok_wf cn id a : active_ok cn id a -> verified_wf (ac_grant a).
Proof.
  intros (_ & (g & unix & Ha) & _). apply admit_grant_ok in Ha as [Hv _].
  apply Grant_verify_ok in Hv as (p & _ & _ & _ & _ & _ & _ & _ & _ & _ & _ & ->). done.
Qed.

Lemma session_same_lease cn st :
  cn_state cn <> SClosed ->
  (forall l, state_lease (cn_state cn) = Some l -> state_lease st = Some l) ->
  session_step cn (set_state st cn).
Proof.
  intros Hn Hl. split_and!; [done|done|]. right. split; [done|].
  intros l Hs. exists l. split; [by apply Hl|done].
Qed.

Lemma session_closed cn st b :
  st = SClosed -> session_step cn (mkConn (cn_remote cn) (cn_audience cn) st b).
Proof. intros ->. split_and!; [done|done|by left]. Qed.

(** A change of one connection is what every other connection does not see. *)
Definition moves (sy sy' : System) : Prop :=
  forall c cn, sy_conns sy !! c = Some cn ->
    exists cn', sy_conns sy' !! c = Some cn' /\ session_step cn cn'.

#[local] Instance moves_preorder : PreOrder moves.
Proof.
  split.
  - intros sy c cn Hc. by exists cn.
  - intros x y z Hxy Hyz c cn Hc. destruct (Hxy c cn Hc) as (cn1 & Hc1 & K1).
    destruct (Hyz c cn1 Hc1) as (cn2 & Hc2 & K2). exists cn2. split; [done|by etrans].
Qed.

Lemma moves_put sy c t cn tk st active pc :
  sy_conns sy !! c = Some cn -> session_step cn (set_state st cn) ->
  moves sy (put sy c t cn tk st active pc).
Proof.
  intros Hc Hs c' cn' Hc'. simpl. destruct (decide (c = c')) as [<-|Hn].
  - rewrite lookup_insert_eq. exists (set_state st cn). split; [done|congruence].
  - rewrite lookup_insert_ne by done. by exists cn'.
Qed.

Lemma moves_close sy c : moves sy (close_conn sy c).
Proof.
  intros c' cn' Hc'. unfold close_conn. destruct (sy_conns sy !! c) as [cn|] eqn:Hc; [|by exists cn'].
  simpl. destruct (decide (c = c')) as [<-|Hn].
  - rewrite lookup_insert_eq. eexists. split; [done|].
    assert (cn' = cn) as -> by congruence. by apply session_closed.
  - rewrite lookup_insert_ne by done. by exists cn'.
Qed.

Lemma moves_conns sy sy' : sy_conns sy' = sy_conns sy -> moves sy sy'.
Proof. intros E c cn Hc. exists cn. by rewrite E. Qed.

Lemma moves_drop sy t tk : moves sy (drop_admission sy t tk).
Proof. apply moves_close. Qed.

Lemma moves_fail sy t tk cn st active :
  sy_conns sy !! tk_conn tk = Some cn -> st = cn_state cn \/ st = SClosed ->
  moves sy (drop_admission (put sy (tk_conn tk) t cn tk st active PDone) t tk).
Proof.
  intros Hc Hst. etrans; [|apply moves_drop]. apply moves_put; [done|].
  destruct Hst as [->| ->]; [by destruct cn|by apply session_closed].
Qed.

Lemma moves_begin sy t tk cn g :
  sy_conns sy !! tk_conn tk = Some cn -> moves sy (task_begin sy t tk cn g).
Proof.
  intros Hc. unfold task_begin, begin_renewal, begin.
  destruct (tk_renewal tk), (cn_state cn) as [| |l|l|l|] eqn:Es; try (by apply moves_conns);
    (apply moves_put; [done|]; apply session_same_lease; rewrite Es; [done|]); done.
Qed.

Lemma moves_admit sy t tk cn g unix mid now1 now2 :
  sy_conns sy !! tk_conn tk = Some cn ->
  moves sy (task_admit pol sy t tk cn g unix mid now1 now2).
Proof.
  intros Hc. unfold task_admit. destruct (admit_grant _ _ _ _ _) as [v|]; [|apply moves_drop].
  destruct (tk_renewal tk).
  - destruct (prepare_renewal _ _ _); [|apply moves_drop]. apply moves_put; [done|].
    by destruct cn.
  - destruct (install _ _ _ _ _ _ _ _ _) as [[st active] r] eqn:Ei.
    pose proof (install_spec _ _ _ _ _ _ _ _ _ _ _ _ Ei) as Hs. destruct r as [u|e].
    + destruct Hs as (Es & _ & _ & now & a & _ & ->). apply moves_put; [done|].
      by apply session_same_lease; rewrite Es.
    + destruct Hs as [-> _]. apply moves_fail; auto.
Qed.

Lemma moves_commit sy t tk cn next closed2 now1 now2 now3 :
  inv sy -> sy_tasks sy !! t = Some tk -> sy_conns sy !! tk_conn tk = Some cn ->
  tk_pc tk = PAck next -> moves sy (task_commit sy t tk cn next closed2 now1 now2 now3).
Proof.
  intros Hi Ht Hc Hpc. pose proof (inv_task _ Hi _ _ _ Ht Hc) as Hok.
  unfold task_commit. destruct next as [next|].
  - destruct (commit_renewal _ _ _ _ _ _ _ _ _) as [[st active] r] eqn:Ei.
    pose proof (commit_renewal_spec _ _ _ _ _ _ _ _ _ _ _ _ Ei) as Hs. destruct r as [u|e].
    + destruct Hs as (l & Es & -> & -> & _). apply moves_put; [done|].
      unfold task_ok in Hok. rewrite Es, Hpc in Hok.
      destruct Hok as [?|(l0 & [= <-] & Hact & Hren)]; [done|].
      split_and!; [done|done|]. right. rewrite Es. split; [done|]. intros l0 [= <-].
      eexists. split; [done|]. simpl. apply rtc_once. split; [done|].
      by eapply active_ok_wf.
    + destruct Hs as [-> ->]. apply moves_fail; auto.
  - destruct (commit _ _ _ _ _ _) as [[st active] r] eqn:Ei.
    pose proof (commit_spec _ _ _ _ _ _ _ _ _ Ei) as Hs. destruct r as [u|e].
    + destruct Hs as (l & Es & -> & -> & _). apply moves_put; [done|].
      by apply session_same_lease; rewrite Es.
    + destruct Hs as [-> ->]. apply moves_fail; auto.
Qed.

Lemma moves_handle sy e : inv sy -> moves sy (handle pol sy e).
Proof.
  intros Hi. destruct e as [c remote audience streams|t c renewal g|t|t unix mid now1 now2
    |t delivered closed2 now1 now2 now3|t delivered|t|c|c|rp]; simpl.
  - destruct (sy_conns sy !! c) eqn:Hc; [done|]. intros c' cn' Hc'. simpl. exists cn'.
    rewrite lookup_insert_ne by congruence. done.
  - by destruct (sy_tasks sy !! t); apply moves_conns.
  - destruct (sy_tasks sy !! t) as [tk|] eqn:Ht; [|done].
    destruct (sy_conns sy !! tk_conn tk) as [cn|] eqn:Hc; [|done].
    destruct (tk_pc tk); try done. by apply moves_begin.
  - destruct (sy_tasks sy !! t) as [tk|] eqn:Ht; [|done].
    destruct (sy_conns sy !! tk_conn tk) as [cn|] eqn:Hc; [|done].
    destruct (tk_pc tk) eqn:Hpc; try done. by apply moves_admit.
  - destruct (sy_tasks sy !! t) as [tk|] eqn:Ht; [|done].
    destruct (sy_conns sy !! tk_conn tk) as [cn|] eqn:Hc; [|done].
    destruct (tk_pc tk) eqn:Hpc; try done.
    destruct delivered; [by apply moves_commit|apply moves_drop].
  - destruct (sy_tasks sy !! t) as [tk|]; [|done]. destruct (sy_conns sy !! _); [|done].
    destruct (tk_pc tk); try done. destruct delivered; [by apply moves_conns|apply moves_drop].
  - destruct (sy_tasks sy !! t) as [tk|]; [|done]. destruct (sy_conns sy !! _); [|done].
    destruct (tk_pc tk); try done; first [by apply moves_conns|apply moves_drop].
  - destruct (sy_conns sy !! c) as [cn|] eqn:Hc; [|done]. intros c' cn' Hc'. simpl.
    destruct (decide (c = c')) as [<-|Hn].
    + rewrite lookup_insert_eq. eexists. split; [done|].
      assert (cn' = cn) as -> by congruence. exact (reflexivity cn : session_step cn cn).
    + rewrite lookup_insert_ne by done. by exists cn'.
  - apply moves_close.
  - by apply moves_conns.
Qed.

(** A session's scope is fixed when it is authorized.  From any reachable state, after
    any further events, a connection keeps its peer and device; either its
    authorization is closed, for good, or every lease it held it still holds, with a
    grant reached from the old one by accepted renewals only. *)
Theorem session_scope_fixed sy evs c cn :
  reachable pol sy -> sy_conns sy !! c = Some cn ->
  exists cn', sy_conns (foldl (handle pol) sy evs) !! c = Some cn' /\
    cn_remote cn' = cn_remote cn /\ cn_audience cn' = cn_audience cn /\
    (cn_state cn' = SClosed \/
     cn_state cn <> SClosed /\
     forall l, state_lease (cn_state cn) = Some l ->
       exists l', state_lease (cn_state cn') = Some l' /\
         rtc lease_step (ac_grant (gl_current l)) (ac_grant (gl_current l'))).
Proof.
  intros Hr. revert c cn. change (moves sy (foldl (handle pol) sy evs)).
  revert sy Hr. induction evs as [|e evs IH]; intros sy Hr; simpl; [done|].
  etrans; [by apply moves_handle, reachable_inv|]. apply IH. by constructor.
Qed.

(** ** Progress *)

#[local] Arguments install : simpl never.

(** An honest authorization completes.  On a pending, open connection, a grant that
    verifies and meets the binding, is not active elsewhere and is permitted by the
    revocation policy is committed by the four steps of [authorize]; the connection is
    then granted, holds the replay slot, and its scope is that grant. *)
Theorem authorize_completes sy t c cn g unix v a r1 r2 r3 :
  sy_tasks sy !! t = Some (mkTask c false (PStart g)) -> sy_conns sy !! c = Some cn ->
  cn_state cn = SPending -> cn_closed cn = false ->
  admit_grant pol (cn_remote cn) (cn_audience cn) unix g = Ok v -> ~ (v_id v ∈ sy_active sy) ->
  revocations_permit (sy_rp sy) (Some r1) (v_id v) = true ->
  revocations_permit (sy_rp sy) (Some r3) (v_id v) = true ->
  ActiveGrant_new v r2 = Ok a -> ActiveGrant_live_at a r3 = true ->
  let sy' := foldl (handle pol) sy
    [EvBegin t; EvAdmit t unix (sy_rp sy) (Some r1) (Some r2);
     EvReply t true false (Some r3) (Some r3) (Some r3); EvFinish t true] in
  sy_conns sy' !! c = Some (set_state (SGranted (mkGrantLease a a (v_id v))) cn) /\
  sy_tasks sy' !! t = Some (mkTask c false PDone) /\ v_id v ∈ sy_active sy' /\
  scope (SGranted (mkGrantLease a a (v_id v))) (sy_rp sy') (Some r3) (Some r3) = Ok (Some v).
Proof.
  intros Ht Hc Es Ecl Ha Hn Hp1 Hp3 Hnew Hlive. destruct cn as [remote aud st cl].
  simpl in Es, Ecl, Ha. subst st cl. pose proof (ActiveGrant_new_grant _ _ _ Hnew) as Eg.
  assert (Haud : p_audience (v_payload v) = aud).
  { apply admit_grant_ok in Ha as [Hv _].
    apply Grant_verify_ok in Hv as (p & _ & _ & _ & _ & _ & _ & ? & _ & _ & _ & ->). done. }
  assert (Hi : install aud false (sy_rp sy) (sy_rp sy) (Some r1) (Some r2) v
    (SAuthorizing None) (sy_active sy)
    = (SAuthorizing (Some (mkGrantLease a a (v_id v))), {[v_id v]} ∪ sy_active sy, Ok tt)).
  { unfold install, GrantSlot_claim. unfold revocations_permit in Hp1. b2p.
    destruct Hp1 as [-> ->]. rewrite bool_decide_eq_true_2 by done. simpl.
    rewrite bool_decide_eq_false_2 by done. by rewrite Hnew. }
  set (tk := mkTask c false (PStart g)). set (cn := mkConn remote aud SPending false).
  set (l := mkGrantLease a a (v_id v)).
  set (s1 := put sy c t cn tk (SAuthorizing None) (sy_active sy) (PBegun g)).
  set (s2 := put s1 c t (set_state (SAuthorizing None) cn) (set_pc (PBegun g) tk)
    (SAuthorizing (Some l)) ({[v_id v]} ∪ sy_active sy) (PAck None)).
  set (s3 := put s2 c t (set_state (SAuthorizing (Some l)) cn) (set_pc (PAck None) tk)
    (SGranted l) ({[v_id v]} ∪ sy_active sy) PCommitted).
  assert (E1 : handle pol sy (EvBegin t) = s1) by (simpl; rewrite Ht; simpl; by rewrite Hc).
  assert (E2 : handle pol s1 (EvAdmit t unix (sy_rp sy) (Some r1) (Some r2)) = s2).
  { simpl. rewrite lookup_insert_eq. simpl. rewrite lookup_insert_eq. simpl.
    unfold task_admit. simpl. by rewrite Ha, Hi. }
  assert (E3 : handle pol s2 (EvReply t true false (Some r3) (Some r3) (Some r3)) = s3).
  { simpl. rewrite lookup_insert_eq. simpl. rewrite lookup_insert_eq. simpl.
    unfold task_commit. simpl. by rewrite Hlive, Eg, Hp3. }
  assert (E4 : handle pol s3 (EvFinish t true) = finish_task s3 t (set_pc PCommitted tk)).
  { simpl. rewrite lookup_insert_eq. simpl. by rewrite lookup_insert_eq. }
  intros sy'. assert (sy' = finish_task s3 t (set_pc PCommitted tk)) as ->.
  { unfold sy'. cbn [foldl]. by rewrite E1, E2, E3, E4. }
  simpl. rewrite !lookup_insert_eq.
  split_and!; try done; [set_solver|].
  rewrite Hlive, Eg. unfold revocations_permit in Hp3. b2p. by destruct Hp3 as [-> ->].
Qed.

End Invariant.

(** ** The watchdog *)

(** One round of the watchdog never panics.  If it goes on waiting, the grant was
    permitted and live at its readings, and it wakes again within a second and no later
    than the end of the lease on either clock; otherwise it closes the connection, and
    one of those conditions failed. *)
Theorem watch_check_sound rp a now1 now2 :
  exists r, watch_check rp a now1 now2 = Some r /\
  match r with
  | inl _ => revocations_permit rp now1 (v_id (ac_grant a)) = false \/
             ActiveGrant_live a now2 = false
  | inr wait => revocations_permit rp now1 (v_id (ac_grant a)) = true /\
      exists t, now2 = Some t /\ ActiveGrant_live_at a t = true /\
        0 < wait <= from_secs 1 /\
        rd_wall t + wait <= from_secs (ls_expires_at (ac_validity a)) /\
        rd_continuous t + wait <= ls_deadline (ac_validity a)
  end.
Proof.
  unfold watch_check, revocations_permit, ActiveGrant_live.
  destruct (rp_fresh rp now1), (rp_contains rp (v_id (ac_grant a))), now2 as [t|]; simpl;
    try (destruct (ActiveGrant_live_at a t) eqn:El; simpl);
    try (eexists; split; [done|]; simpl; by auto).
  unfold ActiveGrant_live_at in El. b2p. destruct El as [El Ev].
  rewrite (Lease_remaining_valid _ _ Ev). eexists. split; [done|]. split; [done|].
  exists t. unfold ActiveGrant_live_at. rewrite El, Ev.
  apply Lease_valid_at_iff in Ev. split_and!; try done; unfold from_secs, nanos_per_sec in *; lia.
Qed.

(** ** Witnesses *)

#[local] Existing Instance wit_ed.
#[local] Existing Instance wit_hash.
#[local] Existing Instance wit_codec_z.
#[local] Existing Instance wit_codec_v3.
#[local] Existing Instance wit_codec_v2.

Lemma reachable_foldl `{Ed25519, Blake3, Postcard Z, Postcard GrantPayload,
    Postcard GrantPayloadV2} pol evs sy :
  reachable pol sy -> reachable pol (foldl (handle pol) sy evs).
Proof. revert sy. induction evs; intros sy Hr; [done|]. by apply IHevs, reach_handle. Qed.

Definition wit_pol : AuthzPolicy := mkAuthzPolicy {[wit_key]} wit_ttl None None.
Definition wit_local : RevocationPolicy := mkRevocation ∅ None None true None.
Definition wit_now : Reading := mkReading boot3 1200000000000 10000000000.
Definition wit_setup : list AuthzEvent :=
  [EvConnect 0 wit_subject wit_audience 4; EvConnect 1 wit_subject wit_audience 4;
   EvPolicy wit_local; EvStream 0 0 false wit_grant; EvStream 1 1 false wit_grant;
   EvStream 2 0 false wit_grant].
Definition wit_first : list AuthzEvent :=
  [EvBegin 0; EvAdmit 0 1200 wit_local (Some wit_now) (Some wit_now)].
Definition wit_grant_run : list AuthzEvent :=
  [EvReply 0 true false (Some wit_now) (Some wit_now) (Some wit_now); EvFinish 0 true].
Definition wit_replay : list AuthzEvent :=
  [EvBegin 1; EvAdmit 1 1200 wit_local (Some wit_now) (Some wit_now)].

Definition wit_sys0 : System := foldl (handle wit_pol) System_initial wit_setup.
Definition wit_sys1 : System := foldl (handle wit_pol) wit_sys0 wit_first.
Definition wit_sys2 : System := foldl (handle wit_pol) wit_sys1 wit_grant_run.
Definition wit_sys3 : System := foldl (handle wit_pol) wit_sys2 wit_replay.

Lemma wit_sys3_reachable : reachable wit_pol wit_sys3.
Proof. do 4 apply reachable_foldl. apply reach_initial. Qed.
Lemma wit_sys2_reachable : reachable wit_pol wit_sys2.
Proof. do 3 apply reachable_foldl. apply reach_initial. Qed.
Lemma wit_sys1_reachable : reachable wit_pol wit_sys1.
Proof. do 2 apply reachable_foldl. apply reach_initial. Qed.

(** After a replay attempt on a second connection the slot is still the first one's. *)
Lemma replay_guard_witness :
  v_id wit_verified ∈ sy_active wit_sys3 /\
  exists c, holds (sy_conns wit_sys3) c (v_id wit_verified).
Proof.
  assert (K : v_id wit_verified ∈ sy_active wit_sys3)
    by (apply (bool_decide_eq_true_1 _); vm_compute; reflexivity).
  split; [exact K|].
  exact (proj1 (proj1 (replay_guard_exact wit_pol wit_sys3 wit_sys3_reachable) _) K).
Defined.

Definition wit_conn2 : Conn :=
  default (mkConn [] [] SClosed true) (sy_conns wit_sys2 !! 0%nat).

Lemma scope_sound_witness :
  scope (cn_state wit_conn2) (sy_rp wit_sys2) (Some wit_now) (Some wit_now)
    = Ok (Some wit_verified) /\
  live_at wit_verified 1200 = true.
Proof.
  assert (K : scope (cn_state wit_conn2) (sy_rp wit_sys2) (Some wit_now) (Some wit_now)
    = Ok (Some wit_verified)) by (vm_compute; reflexivity).
  assert (C : sy_conns wit_sys2 !! 0%nat = Some wit_conn2) by (vm_compute; reflexivity).
  split; [exact K|].
  destruct (scope_sound wit_pol wit_sys2 0%nat wit_conn2 (Some wit_now) (Some wit_now)
    (Some wit_verified) wit_sys2_reachable C K) as (raw & unix & t & l & _ & _ & Et & L & _).
  injection Et as <-. exact L.
Defined.

Definition wit_task1 (t : nat) : Task :=
  default (mkTask 9 false PDone) (sy_tasks wit_sys1 !! t).

(** Task 2 asks for the connection task 0 is authorizing and is turned away. *)
Definition wit_sys1' : System := foldl (handle wit_pol) wit_sys1 [EvBegin 2].

Lemma one_transaction_witness :
  inflight (wit_task1 0) /\ tk_conn (wit_task1 0) = tk_conn (wit_task1 2) /\
  (forall tk, sy_tasks wit_sys1' !! 2%nat = Some tk -> tk_conn tk = 0%nat -> ~ inflight tk).
Proof.
  assert (R : reachable wit_pol wit_sys1') by (apply reachable_foldl, wit_sys1_reachable).
  assert (T : sy_tasks wit_sys1' !! 0%nat = Some (wit_task1 0)) by (vm_compute; reflexivity).
  assert (I : inflight (wit_task1 0)) by (vm_compute; exact Logic.I).
  split; [exact I|]. split; [vm_compute; reflexivity|]. intros tk T2 E I2.
  discriminate (one_transaction_per_connection wit_pol wit_sys1' 0%nat 2%nat _ tk
    R T T2 I I2 (eq_sym E)).
Defined.

Lemma session_scope_witness :
  exists cn', sy_conns (foldl (handle wit_pol) wit_sys2 wit_replay) !! 0%nat = Some cn' /\
    cn_remote cn' = cn_remote wit_conn2.
Proof.
  assert (C : sy_conns wit_sys2 !! 0%nat = Some wit_conn2) by (vm_compute; reflexivity).
  destruct (session_scope_fixed wit_pol wit_sys2 wit_replay 0%nat wit_conn2
    wit_sys2_reachable C) as (cn' & Hc & Hr & _).
  exists cn'. split; [exact Hc|exact Hr].
Defined.

Definition wit_active : ActiveGrant :=
  mkActive wit_verified
    (mkLease boot3 1200 1600 1200000000000 10000000000 410000000000).

Lemma authorize_completes_witness :
  sy_tasks (foldl (handle wit_pol) wit_sys0
    [EvBegin 0; EvAdmit 0 1200 (sy_rp wit_sys0) (Some wit_now) (Some wit_now);
     EvReply 0 true false (Some wit_now) (Some wit_now) (Some wit_now); EvFinish 0 true])
    !! 0%nat = Some (mkTask 0 false PDone).
Proof.
  assert (N : ~ (v_id wit_verified ∈ sy_active wit_sys0))
    by (apply (bool_decide_eq_false_1 _); vm_compute; reflexivity).
  apply (authorize_completes wit_pol wit_sys0 0%nat 0%nat
    (mkConn wit_subject wit_audience SPending false) wit_grant 1200 wit_verified wit_active
    wit_now wit_now wit_now); try exact N; vm_compute; reflexivity.
Defined.
