(* ===== verification/Agent.v ===== *)
(** * The agent

    Models [src/crates/rds-agent/src/lib.rs] (deployment policy, the decisions of
    [serve_connection] and [serve_stream]), [src/crates/rds-agent/src/limits.rs] and the
    access rule of [src/crates/rds-sync/src/engine.rs].  Awaiting, writing replies and
    the service bodies are I/O: a stream's handling is the decision it comes to, given
    what it observes. *)

From S2P Require Import Prelude Discovery Clock Paths Crypto Grant Net TcpTarget.
From S2P Require Import AgentRevocations Authz.

(** ** Deployment policy *)

#[export] Instance ServiceKind_countable : Countable ServiceKind.
Proof.
  refine (inj_countable'
    (fun k => match k with
              | KPing => 0 | KInfo => 1 | KTcp => 2 | KDesktop => 3 | KSync => 4 | KAudio => 5
              | KSyncRead => 6 | KSyncWrite => 7 | KDesktopView => 8 | KDesktopControl => 9
              end%nat)
    (fun n => match n with
              | 0 => KPing | 1 => KInfo | 2 => KTcp | 3 => KDesktop | 4 => KSync | 5 => KAudio
              | 6 => KSyncRead | 7 => KSyncWrite | 8 => KDesktopView | _ => KDesktopControl
              end%nat) _).
  by intros [].
Defined.

Record TimeoutPolicy : Type := mkTimeouts {
  to_handshake : duration;
  to_hello : duration;
  to_authz : duration;
  to_shutdown : duration
}.

Definition MAX_TIMEOUT : duration := from_secs 3600.
Definition TimeoutPolicy_default : TimeoutPolicy :=
  mkTimeouts (from_secs 15) (from_secs 15) (from_secs 15) (from_secs 5).

(** [AgentPolicy]; the denylist and the replay guard are part of the system state of
    [Authz]. *)
Record AgentPolicy : Type := mkAgentPolicy {
  ag_allow : gset EndpointKey;
  ag_tcp_targets : gset (bytes * Z);
  ag_allow_any_tcp : bool;
  ag_issuers : gset bytes;
  ag_grant_max_ttl : duration;
  ag_sync_dir : option bytes;
  ag_services : option (gset ServiceKind);
  ag_timeouts : TimeoutPolicy;
  ag_tenant : option bytes;
  ag_min_policy_revision : option Z
}.

(** What [authorize] reads of it. *)
Definition authz_policy (pol : AgentPolicy) : AuthzPolicy :=
  mkAuthzPolicy (ag_issuers pol) (ag_grant_max_ttl pol) (ag_tenant pol)
    (ag_min_policy_revision pol).

Definition ssh_only (ssh : bytes * Z) : AgentPolicy :=
  mkAgentPolicy ∅ {[ssh]} false ∅ (from_secs 300) None None TimeoutPolicy_default None None.

Definition permits_tcp_target (pol : AgentPolicy) (target : TcpTarget) : bool :=
  ag_allow_any_tcp pol
  || existsb (fun hp => match TcpTarget_new hp.1 hp.2 with
                        | Ok allowed => bool_decide (allowed = target)
                        | Err _ => false
                        end) (elements (ag_tcp_targets pol)).

Definition permits_tcp (pol : AgentPolicy) (host : bytes) (port : Z) : bool :=
  match TcpTarget_new host port with
  | Ok target => permits_tcp_target pol target
  | Err _ => false
  end.

Inductive PolicyError : Type :=
| PeDesktopFeature | PeSyncDir | PeAudio | PeServiceSet | PeTimeouts | PeTenant | PeBinding.

Definition timeout_bad (d : duration) : bool := (d =? 0) || (MAX_TIMEOUT <? d).

Section Features.
  (** [cfg!(feature = "desktop")]. *)
  Context (desktop_feature : bool).

Definition effective_services (pol : AgentPolicy) : gset ServiceKind :=
  {[KPing; KInfo]} ∪
  match ag_services pol with
  | Some explicit =>
      filter (fun k => k = KTcp \/ k = KSync \/ k = KDesktop /\ desktop_feature = true) explicit
  | None =>
      {[KTcp]} ∪ (if desktop_feature then {[KDesktop]} else ∅)
      ∪ (if is_some (ag_sync_dir pol) then {[KSync]} else ∅)
  end.

Definition service_enabled (pol : AgentPolicy) (kind : ServiceKind) : bool :=
  bool_decide (kind ∈ effective_services pol).

(** One round of the loop over the explicit services in [AgentPolicy::validate]. *)
Definition validate_service (pol : AgentPolicy) (kind : ServiceKind) : result unit PolicyError :=
  match kind with
  | KTcp => Ok tt
  | KDesktop => if desktop_feature then Ok tt else Err PeDesktopFeature
  | KSync => if is_some (ag_sync_dir pol) then Ok tt else Err PeSyncDir
  | KAudio => Err PeAudio
  | _ => Err PeServiceSet
  end.

(** The derived order of [ServiceKind], in which a [BTreeSet] iterates. *)
Definition kind_index (k : ServiceKind) : Z :=
  match k with
  | KPing => 0 | KInfo => 1 | KTcp => 2 | KDesktop => 3 | KSync => 4 | KAudio => 5
  | KSyncRead => 6 | KSyncWrite => 7 | KDesktopView => 8 | KDesktopControl => 9
  end.
Definition kind_le (a b : ServiceKind) : Prop := kind_index a <= kind_index b.
#[export] Instance kind_le_dec : RelDecision kind_le.
Proof. intros a b. unfold kind_le. apply _. Defined.

Definition AgentPolicy_validate (pol : AgentPolicy) : result unit PolicyError :=
  let? _ := (match ag_services pol with
             | Some set => try_for_each (validate_service pol) (merge_sort kind_le (elements set))
             | None => Ok tt
             end) in
  let t := ag_timeouts pol in
  if timeout_bad (to_handshake t) || timeout_bad (to_hello t) || timeout_bad (to_authz t)
     || timeout_bad (to_shutdown t)
  then Err PeTimeouts else
  if is_some_and (ag_tenant pol) (fun tenant =>
       bool_decide (tenant = []) || (MAX_TENANT_LEN <? zlen tenant)
       || existsb (fun b => (byte_val b <? 33) || (byte_val b =? 127)) tenant)
  then Err PeTenant else
  if bool_decide (ag_issuers pol = ∅)
     && (is_some (ag_tenant pol) || is_some (ag_min_policy_revision pol))
  then Err PeBinding else Ok tt.

End Features.

(** ** Greetings *)

Inductive Codec : Type := H264.

Record DesktopHello : Type := mkDesktopHello {
  dh_display : Z;
  dh_max_fps : Z;
  dh_codec : Codec;
  dh_input_acks : bool
}.

Inductive AudioCodec : Type := Opus.

Record AudioHello : Type := mkAudioHello {
  ah_codec : AudioCodec;
  ah_sample_rate : Z;
  ah_channels : Z
}.

Inductive StreamHello : Type :=
| HPing (nonce : Z)
| HInfo
| HTcpConnect (host : bytes) (port : Z)
| HDesktop (hello : DesktopHello)
| HSync
| HAudio (hello : AudioHello)
| HAuthz (g : Grant)
| HRenewAuthz (g : Grant)
| HSyncTransfer (id : bytes)
| HSyncTransferV2 (id : bytes)
| HDesktopV2 (session : bytes) (hello : DesktopHello)
| HDesktopV3 (session : bytes) (hello : DesktopHello) (output_height : Z)
| HDesktopV4 (session : bytes) (hello : DesktopHello) (output_height : Z)
| HDesktopV5 (session : bytes) (hello : DesktopHello) (output_height : Z)
    (payload_receipts clipboard : bool).

Definition service_kind (hello : StreamHello) : option ServiceKind :=
  match hello with
  | HPing _ => Some KPing
  | HInfo => Some KInfo
  | HTcpConnect _ _ => Some KTcp
  | HDesktop _ | HDesktopV2 _ _ | HDesktopV3 _ _ _ | HDesktopV4 _ _ _ | HDesktopV5 _ _ _ _ _ =>
      Some KDesktop
  | HSync | HSyncTransfer _ | HSyncTransferV2 _ => Some KSync
  | HAudio _ => Some KAudio
  | HAuthz _ | HRenewAuthz _ => None
  end.

(** The desktop greeting inside, whatever its version. *)
Definition desktop_hello (hello : StreamHello) : option DesktopHello :=
  match hello with
  | HDesktop h | HDesktopV2 _ h | HDesktopV3 _ h _ | HDesktopV4 _ h _ | HDesktopV5 _ h _ _ _ => Some h
  | _ => None
  end.

Definition hello_output_height (hello : StreamHello) : option Z :=
  match hello with
  | HDesktopV3 _ _ h | HDesktopV4 _ _ h | HDesktopV5 _ _ h _ _ => Some h
  | _ => None
  end.

Inductive ScopeRefusal : Type := OutsidePort | OutsideDisplay | NotAService | NotGranted.

Definition scope_check (g : VerifiedGrant) (hello : StreamHello) : result unit ScopeRefusal :=
  let? _ :=
    (match hello with
     | HTcpConnect _ port => if permits_port g port then Ok tt else Err OutsidePort
     | _ =>
         match desktop_hello hello with
         | Some h => if permits_display g (dh_display h) then Ok tt else Err OutsideDisplay
         | None => Ok tt
         end
     end) in
  match service_kind hello with
  | None => Err NotAService
  | Some kind => if permits_service g kind then Ok tt else Err NotGranted
  end.

(** ** Sync access *)

Record Access : Type := mkAccess {
  acc_read : bool;
  acc_write : bool;
  acc_paths : option (list bytes)
}.

Definition READ_WRITE : Access := mkAccess true true None.

Definition permits_path (access : Access) (rel : bytes) : bool :=
  match acc_paths access with
  | Some paths => existsb (fun scope => path_eqb rel scope || path_starts_with rel scope) paths
  | None => true
  end.

(** [collect::<PathBuf>()] of the parts of a scope entry that are kept. *)
Definition normalize_scope (scope : bytes) : bytes :=
  foldl path_push [] (filter kept_part (split_on is_sep scope)).

(** The access a sync stream is served with. *)
Definition sync_access (grant : option VerifiedGrant) : Access :=
  match grant with
  | None => READ_WRITE
  | Some g =>
      mkAccess (permits_sync_read g) (permits_sync_write g)
        (match c_sync_paths (p_constraints (v_payload g)) with
         | Some list => Some (normalize_scope <$> list)
         | None => None
         end)
  end.

(** ** One stream *)

(** What a stream observes: the scope at each wake-up, the free service slots, whether
    a sync session runs on the connection, and the displays the desktop backend
    reports (if it is compiled in and answers). *)
Record StreamEnv : Type := mkStreamEnv {
  se_scopes : list (result (option VerifiedGrant) ScopeError);
  se_slots : Z;
  se_sync_busy : bool;
  se_desktop_enabled : bool;
  se_displays : option (list Z)
}.

Inductive Refusal : Type :=
| RfHeight
| RfDisabled (kind : ServiceKind)
| RfScope (why : ScopeError)
| RfOutside (why : ScopeRefusal)
| RfTcpInvalid (e : TcpTargetError)
| RfTcpNotPermitted
| RfCapacity
| RfDisplayUnavailable
| RfDesktopProbe
| RfDesktopMissing
| RfSyncMissing
| RfSyncBusy
| RfAudio
| RfAuthzService.

Inductive Served : Type :=
| SvPing (nonce : Z)
| SvInfo (services : list ServiceKind)
| SvTcp (target : TcpTarget)
| SvDesktop (hello : DesktopHello) (bitrate_ceiling : option Z) (view_only : bool)
    (output_height : option Z) (payload_receipts reverse_clipboard : bool)
| SvSync (dir : bytes) (access : Access) (transfer : option (bytes * bool)).

Inductive StreamOutcome : Type :=
| SoRefused (why : Refusal)
| SoAuthorize (g : Grant) (renewal : bool)
| SoServed (service : Served).

Definition height_bad (hello : StreamHello) : bool :=
  is_some_and (hello_output_height hello) (fun h =>
    negb (h =? 0) && negb ((16 <=? h) && (h <=? 4320))).

(** The preflight of a TCP stream. *)
Definition tcp_refusal (pol : AgentPolicy) (hello : StreamHello) : option Refusal :=
  match hello with
  | HTcpConnect host port =>
      match TcpTarget_new host port with
      | Ok target => if permits_tcp_target pol target then None else Some RfTcpNotPermitted
      | Err e => Some (RfTcpInvalid e)
      end
  | _ => None
  end.

(** The services that take a slot of the service pool. *)
Definition takes_slot (hello : StreamHello) : bool :=
  match service_kind hello with
  | Some KTcp | Some KDesktop | Some KSync | Some KAudio => true
  | _ => false
  end.

Section Serve.
  Context (desktop_feature : bool) (pol : AgentPolicy).

(** The services [Info] announces. *)
Definition announced (env : StreamEnv) : list ServiceKind :=
  filter (fun k => k ∈ effective_services desktop_feature pol /\
                   (k <> KDesktop \/ se_desktop_enabled env = true))
    [KPing; KInfo; KTcp; KDesktop; KSync].

(** The service arms of [serve_stream], with the grant the stream was admitted by. *)
Definition serve_service (env : StreamEnv) (grant : option VerifiedGrant) (hello : StreamHello)
    : StreamOutcome :=
  match hello with
  | HPing nonce => SoServed (SvPing nonce)
  | HInfo => SoServed (SvInfo (announced env))
  | HTcpConnect host port =>
      match TcpTarget_new host port with
      | Err e => SoRefused (RfTcpInvalid e)
      | Ok target => if permits_tcp_target pol target then SoServed (SvTcp target)
                     else SoRefused RfTcpNotPermitted
      end
  | HSync | HSyncTransfer _ | HSyncTransferV2 _ =>
      match ag_sync_dir pol with
      | None => SoRefused RfSyncMissing
      | Some dir =>
          if (try_sync_slot (se_sync_busy env)).2
          then SoServed (SvSync dir (sync_access grant)
                 (match hello with
                  | HSyncTransfer id => Some (id, false)
                  | HSyncTransferV2 id => Some (id, true)
                  | _ => None
                  end))
          else SoRefused RfSyncBusy
      end
  | HAudio _ => SoRefused RfAudio
  | HAuthz _ | HRenewAuthz _ => SoRefused RfAuthzService
  | HDesktop h | HDesktopV2 _ h | HDesktopV3 _ h _ | HDesktopV4 _ h _ | HDesktopV5 _ h _ _ _ =>
      if se_desktop_enabled env then
        match se_displays env with
        | None => SoRefused RfDesktopProbe
        | Some displays =>
            if bool_decide (dh_display h ∈ displays)
            then SoServed (SvDesktop h (grant ≫= fun g => c_max_bps (p_constraints (v_payload g)))
                   (is_some_and grant (fun g => negb (permits_desktop_control g)))
                   (hello_output_height hello)
                   (match hello with
                    | HDesktopV4 _ _ _ => true | HDesktopV5 _ _ _ r _ => r | _ => false end)
                   (match hello with HDesktopV5 _ _ _ _ c => c | _ => false end))
            else SoRefused RfDisplayUnavailable
        end
      else SoRefused RfDesktopMissing
  end.

(** [serve_stream] past the authorization greetings: the deployment's services, the
    connection's scope, the grant's scope, the TCP preflight, the service pool. *)
Definition serve_gated (env : StreamEnv) (hello : StreamHello) : StreamOutcome :=
  if is_some_and (service_kind hello) (fun kind => negb (service_enabled desktop_feature pol kind))
  then SoRefused (RfDisabled (default KPing (service_kind hello))) else
  match service_scope (se_scopes env) with
  | Err why => SoRefused (RfScope why)
  | Ok grant =>
      match grant ≫= (fun g => match scope_check g hello with Err e => Some e | Ok _ => None end) with
      | Some why => SoRefused (RfOutside why)
      | None =>
          match tcp_refusal pol hello with
          | Some why => SoRefused why
          | None =>
              if takes_slot hello && negb (try_service_slot (se_slots env)).2
              then SoRefused RfCapacity
              else serve_service env grant hello
          end
      end
  end.

Definition serve_stream (env : StreamEnv) (hello : StreamHello) : StreamOutcome :=
  if height_bad hello then SoRefused RfHeight else
  match hello with
  | HAuthz g => SoAuthorize g false
  | HRenewAuthz g => SoAuthorize g true
  | _ => serve_gated env hello
  end.

(** The gate of [serve_connection]: the state a new connection starts with, or a close. *)
Definition admit_peer (peer : EndpointKey) (streams : Z) : option (State * Z) :=
  if bool_decide (peer ∈ ag_allow pol)
  then Some (ConnAuthz_new (grants_required (authz_policy pol)) streams)
  else None.

End Serve.

(** ** Process limits *)

Record AgentLimits : Type := mkLimits {
  al_connections : Z;
  al_streams : Z;
  al_max_fds : option Z;
  al_max_rss_bytes : option Z
}.

Definition AgentLimits_default : AgentLimits := mkLimits 32 64 None None.

Definition AgentLimits_new (connections streams : Z) : AgentLimits :=
  mkLimits connections streams None None.

Definition with_process_budget (l : AgentLimits) (max_fds max_rss_mb : option Z) : AgentLimits :=
  mkLimits (al_connections l) (al_streams l) max_fds
    ((fun mb => sat_mul64 mb (1024 * 1024)) <$> max_rss_mb).

(** The gate: its limits, and when it last sampled with which verdict. *)
Record ResourceGate : Type := mkGate {
  rg_max_fds : option Z;
  rg_max_rss_bytes : option Z;
  rg_cache : option Z * bool
}.

Definition SAMPLE_INTERVAL : duration := 200 * 1000 * 1000.

Definition ResourceGate_new (l : AgentLimits) : option ResourceGate :=
  if is_none (al_max_fds l) && is_none (al_max_rss_bytes l) then None
  else Some (mkGate (al_max_fds l) (al_max_rss_bytes l) (None, true)).

(** [ResourceGate::allows] at a monotonic instant [now], with what the kernel reports
    and the instant [later] at which the sample is stored. *)
Definition gate_allows (g : ResourceGate) (now later : Z) (fds rss : option Z)
    : ResourceGate * bool :=
  let '(at_, verdict) := rg_cache g in
  if is_some_and at_ (fun at_ => sat_sub64 now at_ <? SAMPLE_INTERVAL) then (g, verdict) else
  let over max seen := match max, seen with Some m, Some n => negb (n <? m) | _, _ => false end in
  let seen max value := match max, value with Some _, Some _ => true | _, _ => false end in
  let ok := negb (over (rg_max_fds g) fds) && negb (over (rg_max_rss_bytes g) rss) in
  let observed := seen (rg_max_fds g) fds || seen (rg_max_rss_bytes g) rss in
  let verdict := ok || negb observed in
  (mkGate (rg_max_fds g) (rg_max_rss_bytes g) (Some later, verdict), verdict).

(** ** Connection admission

    [Agent::serve] and the accept loop of [Agent::run]: the checks before a connection is
    served, with the free slots of the admission semaphore. *)
Inductive AdmissionError : Type :=
| AePolicy (e : PolicyError) | AeStreamBudget | AeResources | AeConnections.

Definition serve_admission (desktop_feature : bool) (pol : AgentPolicy) (limits : AgentLimits)
    (gate_open : bool) (available : Z) : Z * result unit AdmissionError :=
  match AgentPolicy_validate desktop_feature pol with
  | Err e => (available, Err (AePolicy e))
  | Ok _ =>
      if grants_required (authz_policy pol) && (al_streams limits <? 2)
      then (available, Err AeStreamBudget) else
      if negb gate_open then (available, Err AeResources) else
      if 0 <? available then (available - 1, Ok tt) else (available, Err AeConnections)
  end.

(** ** Sync access is exactly the signed scope *)

Lemma normalize_scope_join s :
  rel_comps s <> [] -> normalize_scope s = join "/" (rel_comps s).
Proof.
  intros _. unfold normalize_scope. change (filter kept_part (split_on is_sep s)) with (rel_comps s).
  assert (Hp : Forall plain_part (rel_comps s)) by apply rel_comps_plain.
  induction (rel_comps s) as [|w ws IH] using rev_ind; [done|].
  apply Forall_app in Hp as [Hp Hw]. rewrite foldl_app. simpl. rewrite IH by done.
  apply path_push_join; [done|]. by inversion Hw.
Qed.

Lemma scope_components s :
  check_scope_path s = Ok tt -> path_components (normalize_scope s) = Normal <$> rel_comps s.
Proof.
  intros (_ & _ & _ & _ & _ & Hd & Hne)%check_scope_path_ok. rewrite normalize_scope_join by done.
  apply path_components_join; auto using rel_comps_plain, rel_comps_kept.
Qed.

Lemma prefix_fmap_normal (a b : list bytes) :
  (Normal <$> a) `prefix_of` (Normal <$> b) <-> a `prefix_of` b.
Proof.
  split; [|by intros [k ->]; exists (Normal <$> k); rewrite fmap_app].
  revert b. induction a as [|x a IH]; intros b; [intros _; apply prefix_nil|].
  destruct b as [|y b]; csimpl; [by intros ?%prefix_nil_not|].
  intros H. pose proof (prefix_cons_inv_1 _ _ _ _ H) as [= ->].
  apply prefix_cons, IH. by apply prefix_cons_inv_2 in H.
Qed.

Lemma sync_access_scope g raw rel :
  payload_ok (v_payload g) -> check_rel_path raw = Ok rel ->
  permits_path (sync_access (Some g)) rel = true <->
  match c_sync_paths (p_constraints (v_payload g)) with
  | Some scopes => exists s, s ∈ scopes /\ rel_comps s `prefix_of` rel_comps raw
  | None => True
  end.
Proof.
  intros Hp Hrel. pose proof (pk_scopes _ Hp) as Hs. unfold permits_path, sync_access. simpl.
  destruct (c_sync_paths _) as [scopes|]; [|done]. simpl in Hs. rewrite Forall_forall in Hs.
  unfold path_eqb, path_starts_with. rewrite existsb_exists, (path_components_rel _ _ Hrel). split.
  - intros (x & Hx%list_elem_of_In & E). apply list_elem_of_fmap in Hx as (s & -> & Hin).
    exists s. split; [done|]. rewrite (scope_components s) in E by by apply Hs.
    apply orb_true_iff in E as [E|E]; apply bool_decide_eq_true in E.
    + apply (inj (fmap Normal)) in E. by rewrite E.
    + by apply prefix_fmap_normal.
  - intros (s & Hin & Hpre). exists (normalize_scope s). split.
    + apply list_elem_of_In, list_elem_of_fmap. by exists s.
    + rewrite (scope_components s) by by apply Hs. apply orb_true_iff. right.
      apply bool_decide_eq_true. by apply prefix_fmap_normal.
Qed.

(** The access a sync stream is served with is exactly the signed scope: a path a
    request may name is inside it if and only if the components of some scope entry,
    with [.] and empty parts dropped, are a prefix of the components of the path; a
    grant without a path list opens the whole root. *)
Theorem sync_access_exact g raw rel :
  payload_ok (v_payload g) -> check_rel_path raw = Ok rel ->
  permits_path (sync_access (Some g)) rel = true <->
  match c_sync_paths (p_constraints (v_payload g)) with
  | Some scopes => exists s, s ∈ scopes /\ rel_comps s `prefix_of` rel_comps raw
  | None => True
  end.
Proof. apply sync_access_scope. Qed.

(** ** What a served stream has passed *)

Section Gates.
  Context (desktop_feature : bool) (pol : AgentPolicy).

Record stream_gates (env : StreamEnv) (hello : StreamHello) (grant : option VerifiedGrant)
    (svc : Served) : Prop := {
  sg_scope : service_scope (se_scopes env) = Ok grant;
  sg_kind : exists k, service_kind hello = Some k /\
    k ∈ effective_services desktop_feature pol /\ k <> KAudio /\
    forall g, grant = Some g -> permits_service g k = true;
  sg_slot : takes_slot hello = true -> 0 < se_slots env;
  sg_service : match svc with
    | SvPing nonce => hello = HPing nonce
    | SvInfo services => hello = HInfo /\ services = announced desktop_feature pol env
    | SvTcp t => (exists host, hello = HTcpConnect host (tt_port t)) /\
        permits_tcp_target pol t = true /\
        forall g, grant = Some g -> permits_port g (tt_port t) = true
    | SvDesktop h bps view_only _ _ _ => desktop_hello hello = Some h /\
        forall g, grant = Some g -> permits_display g (dh_display h) = true /\
          view_only = negb (permits_desktop_control g) /\
          bps = c_max_bps (p_constraints (v_payload g))
    | SvSync dir access _ => ag_sync_dir pol = Some dir /\ access = sync_access grant /\
        se_sync_busy env = false
    end
}.

Lemma scope_check_ok g hello :
  scope_check g hello = Ok tt <->
  (exists k, service_kind hello = Some k /\ permits_service g k = true) /\
  (forall host port, hello = HTcpConnect host port -> permits_port g port = true) /\
  (forall h, desktop_hello hello = Some h -> permits_display g (dh_display h) = true).
Proof.
  unfold scope_check. destruct hello; simpl;
    repeat match goal with |- context [if ?b then _ else _] => destruct b eqn:? end;
    naive_solver congruence.
Qed.

Lemma serve_service_ok env grant hello svc k :
  service_kind hello = Some k -> k ∈ effective_services desktop_feature pol ->
  service_scope (se_scopes env) = Ok grant ->
  (forall g, grant = Some g -> scope_check g hello = Ok tt) ->
  (takes_slot hello = true -> 0 < se_slots env) ->
  serve_service desktop_feature pol env grant hello = SoServed svc ->
  stream_gates env hello grant svc.
Proof.
  intros Hk Hin Hsc Hg Hslot Hs.
  assert (Hgk : forall g, grant = Some g -> permits_service g k = true).
  { intros g ->. pose proof (proj1 (scope_check_ok g hello) (Hg g eq_refl)) as [(k' & Ek & Hp) _].
    congruence. }
  assert (Hpt : forall g host port, grant = Some g -> hello = HTcpConnect host port ->
    permits_port g port = true).
  { intros g host port E1 E2. by apply (proj1 (scope_check_ok g hello) (Hg g E1)) with host. }
  assert (Hdp : forall g h, grant = Some g -> desktop_hello hello = Some h ->
    permits_display g (dh_display h) = true).
  { intros g h E1 E2. by apply (proj1 (scope_check_ok g hello) (Hg g E1)). }
  assert (Ha : k <> KAudio) by (intros ->; by destruct hello).
  split; [done|by exists k|done|]. clear Hg Hgk Hslot Hk.
  destruct hello; simpl in Hs; simplify_eq; try done.
  all: repeat case_match; simplify_eq.
  all: try match goal with E : TcpTarget_new _ _ = Ok _ |- _ =>
    apply TcpTarget_new_host in E as (_ & <- & _) end.
  all: try (split_and!; [by eexists|done|intros g Eg; by eapply Hpt]).
  all: try (split; [done|intros g Eg; split_and!; [by eapply Hdp|by rewrite Eg|by rewrite Eg]]).
  all: split_and!; [done|done|by destruct (se_sync_busy env)].
Qed.

Lemma served_gates env hello svc :
  serve_stream desktop_feature pol env hello = SoServed svc ->
  exists grant, stream_gates env hello grant svc.
Proof.
  intros Hs. unfold serve_stream in Hs. destruct (height_bad hello); [done|].
  destruct (service_kind hello) as [k|] eqn:Ek; [|by destruct hello].
  assert (Hs' : serve_gated desktop_feature pol env hello = SoServed svc)
    by (destruct hello; (done || exact Hs)).
  clear Hs. unfold serve_gated in Hs'. rewrite Ek in Hs'. simpl in Hs'.
  destruct (service_enabled desktop_feature pol k) eqn:Ee; [|done]. simpl in Hs'.
  destruct (service_scope _) as [grant|] eqn:Es; [|done].
  destruct (grant ≫= _) eqn:Eg; [done|]. destruct (tcp_refusal pol hello); [done|].
  destruct (takes_slot hello && _) eqn:El; [done|]. exists grant.
  apply (serve_service_ok env grant hello svc k); try done.
  - unfold service_enabled in Ee. by apply bool_decide_eq_true in Ee.
  - intros g ->. simpl in Eg. by destruct (scope_check g hello) as [[]|].
  - intros Et. rewrite Et in El. unfold try_service_slot in El.
    destruct (0 <? se_slots env) eqn:E0; [by apply Z.ltb_lt|done].
Qed.

(** A stream is served only past every gate: its service is one the deployment
    offers, the connection's scope at that moment allowed it, the grant, where there is
    one, covers the service, the TCP port and the display, a TCP stream goes to an
    allowlisted canonical destination on the very port that was checked, sync and
    desktop run with exactly the rights of the grant, and a data service holds a slot. *)
Theorem serve_stream_gated env hello svc :
  serve_stream desktop_feature pol env hello = SoServed svc ->
  exists grant, stream_gates env hello grant svc.
Proof. apply served_gates. Qed.

(** ** Announced services work *)

Lemma validate_services_ok set :
  ag_services pol = Some set -> AgentPolicy_validate desktop_feature pol = Ok tt ->
  forall k, k ∈ set -> validate_service desktop_feature pol k = Ok tt.
Proof.
  intros Es Hv k Hk. unfold AgentPolicy_validate in Hv. rewrite Es in Hv.
  destruct (try_for_each _ _) as [[]|] eqn:Ef; [|done]. apply try_for_each_ok in Ef.
  rewrite Forall_forall in Ef. apply Ef. rewrite merge_sort_Permutation. by apply elem_of_elements.
Qed.

(** A validated policy offers sync only with a directory. *)
Lemma effective_sync :
  AgentPolicy_validate desktop_feature pol = Ok tt ->
  KSync ∈ effective_services desktop_feature pol -> exists dir, ag_sync_dir pol = Some dir.
Proof.
  intros Hv. unfold effective_services. rewrite elem_of_union. intros [Hk|Hk]; [set_solver|].
  destruct (ag_sync_dir pol) as [dir|] eqn:Ed; [by exists dir|]. exfalso.
  destruct (ag_services pol) as [set|] eqn:Es.
  - apply elem_of_filter in Hk as [_ Hk]. pose proof (validate_services_ok set Es Hv _ Hk) as K.
    simpl in K. by rewrite Ed in K.
  - simpl in Hk. destruct desktop_feature; set_solver.
Qed.

(** What a validated agent announces it serves: a greeting for an announced service
    that the connection's scope and the grant allow is served as soon as there is a
    free slot, no other sync session, and, for a desktop, the display exists. *)
Theorem announced_services_served env hello k grant :
  AgentPolicy_validate desktop_feature pol = Ok tt ->
  k ∈ announced desktop_feature pol env -> service_kind hello = Some k ->
  height_bad hello = false -> service_scope (se_scopes env) = Ok grant ->
  (forall g, grant = Some g -> scope_check g hello = Ok tt) ->
  tcp_refusal pol hello = None -> 0 < se_slots env -> se_sync_busy env = false ->
  (forall h, desktop_hello hello = Some h ->
     exists displays, se_displays env = Some displays /\ dh_display h ∈ displays) ->
  exists svc, serve_stream desktop_feature pol env hello = SoServed svc.
Proof.
  intros Hv Ha Hk Hh Hsc Hg Ht Hs Hb Hd. unfold announced in Ha. apply list_elem_of_filter in Ha as [[Hin Hde] Hl].
  assert (E : serve_gated desktop_feature pol env hello
              = serve_service desktop_feature pol env grant hello).
  { unfold serve_gated. rewrite Hk. simpl. unfold service_enabled.
    rewrite bool_decide_eq_true_2 by done. simpl. rewrite Hsc, Ht.
    replace (grant ≫= _) with (@None ScopeRefusal).
    2: { destruct grant as [g|]; [|done]. simpl. by rewrite Hg. }
    unfold try_service_slot. rewrite (proj2 (Z.ltb_lt _ _)) by done. by rewrite andb_false_r. }
  unfold serve_stream. rewrite Hh.
  assert (Hde' : k = KDesktop -> se_desktop_enabled env = true) by naive_solver.
  clear Hde Hg Hh. apply list_elem_of_In in Hl. simpl in Hl. revert E. unfold serve_service, tcp_refusal in *.
  destruct hello; simpl in Hk; simplify_eq; intros E; rewrite ?E; eauto.
  all: try (rewrite Hde' by done; destruct (Hd _ eq_refl) as (ds & -> & Hds);
            rewrite bool_decide_eq_true_2 by done; by eauto).
  all: try (destruct (effective_sync Hv Hin) as [dir ->]; unfold try_sync_slot; rewrite Hb; by eauto).
  - destruct (TcpTarget_new host port) as [t|]; [|done]. destruct (permits_tcp_target pol t); [eauto|done].
  - naive_solver.
Qed.

End Gates.

(** ** From the wire to the service *)

Section EndToEnd.
  Context `{Ed25519, Blake3, Postcard Z, Postcard GrantPayload, Postcard GrantPayloadV2}.
  Context (desktop_feature : bool) (pol : AgentPolicy).

(** A look at a connection: the system, the connection, the two clock readings. *)
Definition Look : Type := System * Conn * option Reading * option Reading.
Definition look_scope (x : Look) : result (option VerifiedGrant) ScopeError :=
  let '(sy, cn, now1, now2) := x in scope (cn_state cn) (sy_rp sy) now1 now2.

Lemma service_scope_elem scopes r : service_scope scopes = Ok r -> Ok r ∈ scopes.
Proof.
  induction scopes as [|x scopes IH]; [done|]. simpl. destruct x as [g|e].
  - intros [= ->]. left.
  - destruct e; try done. intros E. right. by apply IH.
Qed.

Lemma verified_payload_ok g issuers subject audience max_ttl now v :
  Grant_verify g issuers subject audience max_ttl now = Ok v -> payload_ok (v_payload v).
Proof.
  intros (p & Hd & E)%Grant_verify_ok. apply Grant_decode_payload_ok in Hd.
  replace (v_payload v) with p; [done|]. destruct_and!. by subst v.
Qed.


End EndToEnd.

(** ** Witnesses *)

Section Witnesses.
  #[local] Existing Instance wit_ed.
  #[local] Existing Instance wit_hash.
  #[local] Existing Instance wit_codec_z.
  #[local] Existing Instance wit_codec_v3.
  #[local] Existing Instance wit_codec_v2.

(** An agent in grant mode that offers sync, with the authorized connection of the
    authorization witnesses. *)
Definition wit_agent : AgentPolicy :=
  mkAgentPolicy {[wit_subject]} {[(bs "127.0.0.1", 22)]} false {[wit_key]} wit_ttl
    (Some (bs "/srv")) None TimeoutPolicy_default None None.

Definition wit_looks : list Look :=
  [(wit_sys1, default (mkConn [] [] SClosed true) (sy_conns wit_sys1 !! 0%nat),
    Some wit_now, Some wit_now);
   (wit_sys2, wit_conn2, Some wit_now, Some wit_now)].

Definition wit_env : StreamEnv := mkStreamEnv (look_scope <$> wit_looks) 3 false false None.

(** The stream looks while the authorization is in flight, then again. *)
Lemma wit_served :
  serve_stream false wit_agent wit_env HSync
  = SoServed (SvSync (bs "/srv") (mkAccess true true (Some [bs "docs"])) None).
Proof. vm_compute. reflexivity. Qed.

Lemma wit_looks_reachable :
  Forall (fun x : Look => reachable (authz_policy wit_agent) x.1.1.1 /\
            sy_conns x.1.1.1 !! 0%nat = Some x.1.1.2) wit_looks.
Proof.
  apply Forall_cons. split; [split; [apply wit_sys1_reachable|vm_compute; reflexivity]|].
  apply Forall_cons. split; [split; [apply wit_sys2_reachable|vm_compute; reflexivity]|].
  constructor.
Qed.


Lemma serve_stream_gated_witness :
  exists grant, stream_gates false wit_agent wit_env HSync grant
    (SvSync (bs "/srv") (mkAccess true true (Some [bs "docs"])) None).
Proof. exact (serve_stream_gated false wit_agent wit_env HSync _ wit_served). Defined.

Lemma sync_access_exact_witness :
  exists s, s ∈ [bs "docs"] /\ rel_comps s `prefix_of` rel_comps (bs "./docs//a").
Proof.
  assert (Hr : check_rel_path (bs "./docs//a") = Ok (bs "docs/a")) by (vm_compute; reflexivity).
  assert (Hp : permits_path (sync_access (Some wit_verified)) (bs "docs/a") = true)
    by (vm_compute; reflexivity).
  exact (proj1 (sync_access_exact wit_verified _ _ wit_p1_ok Hr) Hp).
Defined.

Lemma announced_services_witness :
  exists svc, serve_stream false wit_agent wit_env HSync = SoServed svc.
Proof.
  assert (Hv : AgentPolicy_validate false wit_agent = Ok tt) by (vm_compute; reflexivity).
  assert (Ha : KSync ∈ announced false wit_agent wit_env)
    by (apply (bool_decide_eq_true_1 _); vm_compute; reflexivity).
  assert (Hs : service_scope (se_scopes wit_env) = Ok (Some wit_verified)) by (vm_compute; reflexivity).
  assert (Hg : forall g, Some wit_verified = Some g -> scope_check g HSync = Ok tt)
    by (intros g Eg; apply Some_inj in Eg; rewrite <-Eg; vm_compute; reflexivity).
  destruct (announced_services_served false wit_agent wit_env HSync KSync _ Hv Ha eq_refl eq_refl
    Hs Hg eq_refl ltac:(vm_compute; reflexivity) eq_refl ltac:(intros h Eh; discriminate Eh))
    as [svc Es].
  exists svc. exact Es.
Defined.

End Witnesses.
