(* ===== verification/Frames.v ===== *)
(** * Length-prefixed frames

    Models [src/crates/rds-net/src/wire.rs]: a message is its postcard encoding behind
    a big-endian 32-bit length, bounded on both sides.  A stream is the bytes that can
    still be read from it; reading past them is the error of a closed, reset or
    stalled stream. *)

From S2P Require Import Prelude Crypto.

(** [rds_core::MAX_MESSAGE_LEN]. *)
Definition MAX_MESSAGE_LEN : Z := 64 * 1024.

(** [u32::to_be_bytes] and [u32::from_be_bytes]. *)
Definition byte_of (n : Z) : ascii := ascii_of_N (Z.to_N (n mod 256)).
Definition to_be_bytes (n : Z) : bytes :=
  [byte_of (n / 2 ^ 24); byte_of (n / 2 ^ 16); byte_of (n / 2 ^ 8); byte_of n].
Definition from_be_bytes (b : bytes) : Z := foldl (fun n c => n * 256 + byte_val c) 0 b.

(** [AsyncReadExt::read_exact]: the bytes and the rest of the stream. *)
Definition read_exact (n : nat) (s : bytes) : result (bytes * bytes) string :=
  if (length s <? n)%nat then Err "unexpected end of stream"%string
  else Ok (take n s, drop n s).

Section Code.
Context {M : Type} `{HP : Postcard M}.

(** [write_frame]: the bytes it writes; nothing is written when it refuses. *)
Definition write_frame (msg : M) : result bytes string :=
  let? body := to_stdvec msg in
  if u32_max <? zlen body then Err "frame too large"%string else
  if MAX_MESSAGE_LEN <? zlen body then Err "frame exceeds MAX_MESSAGE_LEN"%string else
  Ok (to_be_bytes (zlen body) ++ body).

(** [read_frame]. *)
Definition read_frame (s : bytes) : result (M * bytes) string :=
  let? (len_buf, s) := read_exact 4 s in
  let len := from_be_bytes len_buf in
  if MAX_MESSAGE_LEN <? len then Err "frame exceeds MAX_MESSAGE_LEN"%string else
  let? (body, s) := read_exact (Z.to_nat len) s in
  let? (message, remaining) := take_from_bytes body in
  if negb (bool_decide (remaining = [])) then Err "trailing frame payload"%string
  else Ok (message, s).

End Code.

(** ** Lengths *)

Lemma byte_of_val n : byte_val (byte_of n) = n mod 256.
Proof.
  unfold byte_val, byte_of. pose proof (Z.mod_pos_bound n 256 eq_refl).
  rewrite N_ascii_embedding by lia. lia.
Qed.

Lemma be_bytes_roundtrip n : in_u32 n -> from_be_bytes (to_be_bytes n) = n.
Proof.
  intros H. unfold from_be_bytes, to_be_bytes. cbn [foldl].
  rewrite !byte_of_val. unfold in_u32, u32_max in H.
  assert (E1 : n / 2 ^ 24 = (n / 2 ^ 16) / 256) by (rewrite Z.div_div; done).
  assert (E2 : n / 2 ^ 16 = (n / 2 ^ 8) / 256) by (rewrite Z.div_div; done).
  assert (E3 : n / 2 ^ 8 = n / 256) by done.
  assert (0 <= n / 2 ^ 24 < 256) by (split; [apply Z.div_pos|apply Z.div_lt_upper_bound]; lia).
  rewrite (Z.mod_small (n / 2 ^ 24)) by done.
  pose proof (Z.div_mod (n / 2 ^ 16) 256 ltac:(done)).
  pose proof (Z.div_mod (n / 2 ^ 8) 256 ltac:(done)).
  pose proof (Z.div_mod n 256 ltac:(done)). lia.
Qed.

Lemma read_exact_app a s : read_exact (length a) (a ++ s) = Ok (a, s).
Proof.
  unfold read_exact. rewrite length_app, (proj2 (Nat.ltb_ge _ _)) by lia.
  by rewrite take_app_length, drop_app_length.
Qed.

Lemma read_exact_ok n s a rest :
  read_exact n s = Ok (a, rest) -> s = a ++ rest /\ length a = n.
Proof.
  unfold read_exact. destruct (Nat.ltb_spec (length s) n); [done|]. intros [= <- <-].
  by rewrite take_drop, length_take_le.
Qed.

Section Roundtrip.
Context {M : Type} `{HP : Postcard M, HL : !PostcardLaws M}.

(** What is framed is read back, and the stream is left where the frame ends. *)
Lemma frame_roundtrip msg b s : write_frame msg = Ok b -> read_frame (b ++ s) = Ok (msg, s).
Proof.
  unfold write_frame, read_frame. destruct (to_stdvec msg) as [body|] eqn:E; [|done].
  destruct (u32_max <? zlen body) eqn:E1; [done|].
  destruct (MAX_MESSAGE_LEN <? zlen body) eqn:E2; [done|]. intros <-%Ok_inj.
  rewrite <-app_assoc, (read_exact_app (to_be_bytes (zlen body))).
  rewrite be_bytes_roundtrip by (b2p; unfold in_u32, zlen in *; lia).
  rewrite E2. replace (Z.to_nat (zlen body)) with (length body) by (unfold zlen; lia).
  rewrite read_exact_app. pose proof (take_to_stdvec msg body [] E) as K.
  rewrite app_nil_r in K. by rewrite K, bool_decide_eq_true_2.
Qed.

(** Reading a frame consumes at least its length prefix. *)
Lemma read_frame_shorter s (msg : M) rest :
  read_frame s = Ok (msg, rest) -> (length rest + 4 <= length s)%nat.
Proof.
  unfold read_frame. intros H. destruct (read_exact 4 s) as [[l s1]|] eqn:E1; [|done].
  apply read_exact_ok in E1 as [-> L1]. destruct (MAX_MESSAGE_LEN <? _); [done|].
  destruct (read_exact _ s1) as [[b s2]|] eqn:E2; [|done].
  apply read_exact_ok in E2 as [-> _]. destruct (take_from_bytes b) as [[m r]|]; [|done].
  destruct (negb _); [done|]. injection H as _ <-. rewrite !length_app. lia.
Qed.

(** A frame that is written fits the bound of every reader. *)
Lemma write_frame_bounded msg b :
  write_frame msg = Ok b -> 4 <= zlen b <= 4 + MAX_MESSAGE_LEN.
Proof.
  unfold write_frame. intros H. inv_res H. apply Ok_inj in H as <-. b2p.
  rewrite zlen_app. change (zlen (to_be_bytes _)) with 4. pose proof (zlen_nonneg a). lia.
Qed.

End Roundtrip.
