(* ===== verification/SyncProto.v ===== *)
(** * File manifests and the sync wire protocol

    Models the content model of [src/crates/rds-sync/src/lib.rs] (chunks, manifests,
    the in-memory and the streaming builder), the protocol of
    [src/crates/rds-sync/src/proto.rs] (limits, messages, manifest validation, the
    [Need] bitmap) and the wire profiles of [src/crates/rds-sync/src/engine.rs]
    ([Wire], [to_session], [session_open], [session_accept]). *)

From S2P Require Import Prelude Paths Crypto.

(** ** Constants *)

Definition MIN_CHUNK : Z := 16 * 1024.
Definition AVG_CHUNK : Z := 64 * 1024.
Definition MAX_CHUNK : Z := 256 * 1024.
Definition FETCH_STREAMS : Z := 4.
Definition MAX_CHUNKS : Z := 2 ^ 18.
Definition MANIFEST_BATCH : Z := 512.
Definition CHUNKSET_BATCH : Z := 4096.
Definition SESSION_VERSION : Z := 2.

(** ** Chunks and manifests *)

Record Chunk : Type := mkChunk { ck_hash : bytes; ck_offset : Z; ck_len : Z }.
Record Manifest : Type := mkFileManifest {
  mf_size : Z;
  mf_root : bytes;
  mf_chunks : list Chunk
}.

#[export] Instance Chunk_eq_dec : EqDecision Chunk.
Proof. solve_decision. Defined.
#[export] Instance Manifest_eq_dec : EqDecision Manifest.
Proof. solve_decision. Defined.

(** [fastcdc::v2020::FastCDC]: the cut points of a slice, as (offset, length), for
    the given minimal, average and maximal sizes. *)
Class FastCDC : Type := fastcdc_cuts : bytes -> Z -> Z -> Z -> list (Z * Z).

(** [&data[offset..offset + length]]. *)
Definition slice (data : bytes) (offset len : Z) : bytes :=
  take (Z.to_nat len) (drop (Z.to_nat offset) data).

(** [manifest_with] and [manifest_of]. *)
Definition manifest_with `{Blake3, FastCDC} (data : bytes) (min avg max : Z) : Manifest :=
  mkFileManifest (zlen data) (blake3_hash data)
    ((fun c : Z * Z => mkChunk (blake3_hash (slice data c.1 c.2)) c.1 c.2)
       <$> fastcdc_cuts data min avg max).
Definition manifest_of `{Blake3, FastCDC} (data : bytes) : Manifest :=
  manifest_with data MIN_CHUNK AVG_CHUNK MAX_CHUNK.

(** What [StreamCDC] yields: the bytes of a chunk with the offset and the length it
    reports, or the error of the reader. *)
Record ChunkData : Type := mkChunkData { cd_data : bytes; cd_offset : Z; cd_length : Z }.

Inductive IoError : Type :=
| Interrupted | NotFound | AlreadyExists | WouldBlock | PermissionDenied
| OtherIo (message : string).

#[export] Instance IoError_eq_dec : EqDecision IoError.
Proof. solve_decision. Defined.

(** The loop of [manifest_reader_cancellable_with] over the chunks that [StreamCDC]
    yields; [stop] holds what the cancellation check answers before each of them.
    The hasher [root] is the bytes it has been fed.  The addition to [size] is
    unchecked and stays in range by the bound on the number of chunks. *)
Fixpoint manifest_loop `{Blake3} (stream : list (result ChunkData IoError))
    (stop : nat -> bool) (root : bytes) (size : Z) (chunks : list Chunk)
    : result Manifest IoError :=
  match stream with
  | [] => Ok (mkFileManifest size (blake3_hash root) chunks)
  | c :: stream =>
      if stop O then Err Interrupted else
      let? c := c in
      let chunks :=
        chunks ++ [mkChunk (blake3_hash (cd_data c)) (cd_offset c) (cd_length c)] in
      if MAX_CHUNKS <? zlen chunks then Err (OtherIo "file exceeds chunks") else
      manifest_loop stream (fun i => stop (S i)) (root ++ cd_data c)
        (size + zlen (cd_data c)) chunks
  end.

Definition manifest_reader_cancellable_with `{Blake3}
    (stream : list (result ChunkData IoError)) (stop : nat -> bool)
    : result Manifest IoError :=
  manifest_loop stream stop [] 0 [].

(** [missing_chunks]. *)
Definition missing_chunks (have want : Manifest) : list Chunk :=
  filter (fun c => ck_hash c ∉ (list_to_set (ck_hash <$> mf_chunks have) : gset bytes))
    (mf_chunks want).

(** ** Session limits *)

Record SessionLimits : Type := mkLimits {
  sl_max_chunk : Z;
  sl_max_chunks : Z;
  sl_fetch_streams : Z
}.

Definition LOCAL : SessionLimits := mkLimits MAX_CHUNK MAX_CHUNKS FETCH_STREAMS.

(** [SessionLimits::negotiate]. *)
Definition negotiate (self peer : SessionLimits) : result SessionLimits SyncError :=
  if (sl_max_chunk peer =? 0) || (sl_max_chunks peer =? 0) || (sl_fetch_streams peer =? 0)
     || (sl_max_chunk self =? 0) || (sl_max_chunks self =? 0)
     || (sl_fetch_streams self =? 0)
  then Err (ManifestErr "peer declared unusable sync session limits") else
  Ok (mkLimits
    (Z.min (Z.min (sl_max_chunk self) (sl_max_chunk peer)) MAX_CHUNK)
    (Z.min (Z.min (sl_max_chunks self) (sl_max_chunks peer)) MAX_CHUNKS)
    (Z.min (Z.min (sl_fetch_streams self) (sl_fetch_streams peer)) FETCH_STREAMS)).

(** ** Messages *)

Inductive SessionMsg : Type :=
| SeHello (version : Z) (limits : SessionLimits)
| SeHelloAck (version : Z) (limits : SessionLimits)
| SeOffer (rel_path : bytes) (size : Z) (root : bytes) (chunk_count : Z)
| SeRequest (rel_path : bytes)
| SeRefuse (reason : bytes)
| SeCancel (reason : bytes)
| SeManifestPart (chunks : list Chunk)
| SeNeed (bits : list Z)
| SeDone (root : bytes)
| SeChunkSet (indices : list Z)
| SeChunkHdr (index : Z) (hash : bytes) (len : Z)
| SeSetDone.

Inductive SyncMsg : Type :=
| Offer (rel_path : bytes) (size : Z) (root : bytes) (chunk_count : Z)
| Request (rel_path : bytes)
| Refuse (reason : bytes)
| ManifestPart (chunks : list Chunk)
| Need (bits : list Z)
| ChunkSet (indices : list Z)
| ChunkHdr (index : Z) (hash : bytes) (len : Z)
| SetDone
| Done (root : bytes)
| Cancel (reason : bytes)
| Session (transfer_id : bytes) (msg : SessionMsg).

#[export] Instance SessionLimits_eq_dec : EqDecision SessionLimits.
Proof. solve_decision. Defined.
#[export] Instance SessionMsg_eq_dec : EqDecision SessionMsg.
Proof. solve_decision. Defined.
#[export] Instance SyncMsg_eq_dec : EqDecision SyncMsg.
Proof. solve_decision. Defined.

(** ** Manifest validation *)

(** One round of the loop of [check_manifest]. *)
Definition check_chunk (covered : Z) (c : Chunk) : result Z SyncError :=
  if (ck_len c =? 0) || (MAX_CHUNK <? ck_len c) then Err (ManifestErr "bad chunk len") else
  if negb (ck_offset c =? covered)
  then Err (ManifestErr "chunks not contiguous at offset") else
  ok_or (checked_add64 covered (ck_len c)) (ManifestErr "size overflow").

(** [proto::check_manifest]. *)
Definition check_manifest (m : Manifest) : result unit SyncError :=
  if MAX_CHUNKS <? zlen (mf_chunks m) then Err (ManifestErr "manifest too large") else
  let? covered := try_fold check_chunk 0 (mf_chunks m) in
  if negb (covered =? mf_size m) then Err (ManifestErr "chunks cover bytes, manifest size")
  else Ok tt.

(** ** The [Need] bitmap *)

(** [usize::div_ceil(64)]. *)
Definition words (total : Z) : Z := (total + 63) / 64.

(** [bits[i as usize / 64] |= 1 << (i % 64)]. *)
Definition set_bit (bits : list Z) (i : Z) : list Z :=
  alter (fun w => Z.lor w (Z.shiftl 1 (i mod 64))) (Z.to_nat (i / 64)) bits.

(** [0..total as u32]. *)
Definition index_range (total : Z) : list Z := seqZ 0 (total mod 2 ^ 32).

(** [proto::need_bits]. *)
Definition need_bits (total : Z) (have : gset Z) : list Z :=
  foldl (fun bits i => if bool_decide (i ∈ have) then bits else set_bit bits i)
    (replicate (Z.to_nat (words total)) 0) (index_range total).

(** [bits.get(i as usize / 64).is_some_and(|w| w & (1 << (i % 64)) != 0)]. *)
Definition bit_is_set (bits : list Z) (i : Z) : bool :=
  is_some_and (bits !! Z.to_nat (i / 64))
    (fun w => negb (Z.land w (Z.shiftl 1 (i mod 64)) =? 0)).

(** [proto::bits_to_indices]. *)
Definition bits_to_indices (bits : list Z) (total : Z) : result (list Z) SyncError :=
  if (MAX_CHUNKS <? total) || negb (zlen bits =? words total)
     || (negb (total mod 64 =? 0)
         && is_some_and (last bits) (fun word => negb (Z.shiftr word (total mod 64) =? 0)))
  then Err (ManifestErr "invalid Need bitmap bounds or padding") else
  Ok (filter (fun i => bit_is_set bits i = true) (index_range total)).

(** ** Wire profiles *)

Record Wire : Type := mkWire { wr_transfer_id : option bytes; wr_limits : SessionLimits }.

Definition V1 : Wire := mkWire None LOCAL.
Definition v2 (transfer_id : bytes) (limits : SessionLimits) : Wire :=
  mkWire (Some transfer_id) limits.
Definition is_v2 (w : Wire) : bool := is_some (wr_transfer_id w).

(** [to_session]. *)
Definition to_session (msg : SyncMsg) : option SessionMsg :=
  match msg with
  | Offer p s r c => Some (SeOffer p s r c)
  | Request p => Some (SeRequest p)
  | Refuse r => Some (SeRefuse r)
  | Cancel r => Some (SeCancel r)
  | ManifestPart cs => Some (SeManifestPart cs)
  | Need bits => Some (SeNeed bits)
  | Done r => Some (SeDone r)
  | ChunkSet ixs => Some (SeChunkSet ixs)
  | ChunkHdr i h l => Some (SeChunkHdr i h l)
  | SetDone => Some SeSetDone
  | Session _ _ => None
  end.

(** [Wire::send]: the frame it writes. *)
Definition wire_frame (w : Wire) (msg : SyncMsg) : SyncMsg :=
  match wr_transfer_id w with
  | Some transfer_id =>
      Session transfer_id
        (default (SeRefuse (bs "internal protocol error")) (to_session msg))
  | None =>
      match msg with
      | Cancel reason => Refuse (bs "transfer aborted: " ++ reason)
      | Session _ _ => Refuse (bs "internal protocol error")
      | msg => msg
      end
  end.

(** [Wire::decode]. *)
Definition wire_decode (w : Wire) (msg : SyncMsg) : result SyncMsg string :=
  match wr_transfer_id w with
  | None => Ok msg
  | Some transfer_id =>
      match msg with
      | Session got msg =>
          if bool_decide (got = transfer_id) then
            match msg with
            | SeHello _ _ | SeHelloAck _ _ => Err "session greeting repeated mid-transfer"%string
            | SeOffer p s r c => Ok (Offer p s r c)
            | SeRequest p => Ok (Request p)
            | SeRefuse r => Ok (Refuse r)
            | SeCancel r => Ok (Cancel r)
            | SeManifestPart cs => Ok (ManifestPart cs)
            | SeNeed bits => Ok (Need bits)
            | SeDone r => Ok (Done r)
            | SeChunkSet ixs => Ok (ChunkSet ixs)
            | SeChunkHdr i h l => Ok (ChunkHdr i h l)
            | SeSetDone => Ok SetDone
            end
          else Err "sync frame belongs to a different transfer"%string
      | _ => Err "sync session expected an envelope-bound frame"%string
      end
  end.

(** [session_open]: the greeting it writes, and what it makes of the answer. *)
Definition session_hello (transfer_id : bytes) : SyncMsg :=
  Session transfer_id (SeHello SESSION_VERSION LOCAL).
Definition session_open (transfer_id : bytes) (answer : SyncMsg)
    : result SessionLimits string :=
  match answer with
  | Session got (SeHelloAck version limits) =>
      if bool_decide (got = transfer_id) && (version =? SESSION_VERSION)
      then map_err (fun _ => "unusable limits"%string) (negotiate LOCAL limits)
      else if bool_decide (got = transfer_id)
      then Err "peer sync session version unsupported"%string
      else Err "sync session transfer ID mismatch"%string
  | Session _ (SeRefuse reason) => Err "sync session refused"%string
  | _ => Err "expected sync session HelloAck"%string
  end.

(** [session_accept]: the result and the frame written back, if any.  The writes
    succeed; a failed write ends the session with its error. *)
Definition session_accept (transfer_id : bytes) (greeting : SyncMsg)
    : result SessionLimits string * option SyncMsg :=
  match greeting with
  | Session got (SeHello version limits) =>
      if bool_decide (got = transfer_id) then
        if negb (version =? SESSION_VERSION) then
          (Err "peer sync session version unsupported"%string,
           Some (Session transfer_id (SeRefuse (bs "peer sync session version unsupported"))))
        else
          (map_err (fun _ => "unusable limits"%string) (negotiate LOCAL limits),
           Some (Session transfer_id (SeHelloAck SESSION_VERSION LOCAL)))
      else (Err "sync session transfer ID mismatch"%string, None)
  | Session _ _ => (Err "sync session transfer ID mismatch"%string, None)
  | _ => (Err "expected sync session Hello"%string, None)
  end.

(** ** Manifests cover their file *)

(** The chunks start at [off], follow each other without a gap and are bounded. *)
Fixpoint contiguous (off : Z) (cs : list Chunk) : Prop :=
  match cs with
  | [] => True
  | c :: cs => ck_offset c = off /\ 0 < ck_len c <= MAX_CHUNK
               /\ contiguous (off + ck_len c) cs
  end.

Definition chunks_len (cs : list Chunk) : Z := foldr (fun c n => ck_len c + n) 0 cs.

(** What the type [u32] says of a chunk length. *)
Definition chunk_typed (c : Chunk) : Prop := in_u32 (ck_len c).

Lemma chunks_len_app cs ds : chunks_len (cs ++ ds) = chunks_len cs + chunks_len ds.
Proof. induction cs; simpl; lia. Qed.

Lemma contiguous_app off cs ds :
  contiguous off (cs ++ ds) <-> contiguous off cs /\ contiguous (off + chunks_len cs) ds.
Proof.
  revert off. induction cs as [|c cs IH]; intros off; simpl.
  - rewrite Z.add_0_r. naive_solver.
  - rewrite IH, Z.add_assoc. naive_solver.
Qed.

Lemma contiguous_len off cs :
  contiguous off cs -> 0 <= chunks_len cs <= MAX_CHUNK * zlen cs.
Proof.
  revert off. induction cs as [|c cs IH]; intros off; simpl; [done|].
  intros (_ & Hc & K). apply IH in K. rewrite zlen_cons. unfold MAX_CHUNK in *. lia.
Qed.

Lemma contiguous_typed off cs : contiguous off cs -> Forall chunk_typed cs.
Proof.
  revert off. induction cs as [|c cs IH]; intros off; simpl; [done|].
  intros (_ & Hc & K). constructor; [|by eapply IH].
  unfold chunk_typed, in_u32, u32_max, MAX_CHUNK in *. lia.
Qed.

Lemma check_chunks_ok off cs covered :
  Forall chunk_typed cs ->
  off + MAX_CHUNK * zlen cs <= u64_max ->
  try_fold check_chunk off cs = Ok covered
  <-> contiguous off cs /\ covered = off + chunks_len cs.
Proof.
  intros Ht. revert off. induction Ht as [|c cs Hc Ht IH]; intros off Hb; simpl.
  { rewrite Z.add_0_r. naive_solver. }
  rewrite zlen_cons in Hb. pose proof (zlen_nonneg cs).
  assert (0 < MAX_CHUNK) by done.
  unfold check_chunk. destruct ((ck_len c =? 0) || _) eqn:E1; b2p.
  { unfold chunk_typed, in_u32 in Hc. split; [done|]. lia. }
  unfold chunk_typed, in_u32 in Hc.
  destruct (negb (ck_offset c =? off)) eqn:E2; b2p; [split; [done|lia]|].
  unfold checked_add64. rewrite (proj2 (Z.leb_le _ _)) by nia. simpl.
  rewrite IH by nia. split; intros K; split_and!; try lia; try tauto.
Qed.

Lemma check_chunks_no_overflow off cs :
  Forall chunk_typed cs ->
  off + MAX_CHUNK * zlen cs <= u64_max ->
  try_fold check_chunk off cs <> Err (ManifestErr "size overflow").
Proof.
  intros Ht. revert off. induction Ht as [|c cs Hc Ht IH]; intros off Hb; simpl; [done|].
  rewrite zlen_cons in Hb. pose proof (zlen_nonneg cs).
  unfold chunk_typed, in_u32 in Hc. assert (0 < MAX_CHUNK) by done.
  unfold check_chunk. destruct ((ck_len c =? 0) || _) eqn:E1; b2p; [done|].
  destruct (negb _); [done|]. unfold checked_add64.
  rewrite (proj2 (Z.leb_le _ _)) by nia. simpl. apply IH. nia.
Qed.

Lemma chunk_bound_fits (cs : list Chunk) :
  zlen cs <= MAX_CHUNKS -> 0 + MAX_CHUNK * zlen cs <= u64_max.
Proof.
  pose proof (zlen_nonneg cs). unfold MAX_CHUNKS, MAX_CHUNK, u64_max. lia.
Qed.

Lemma check_manifest_ok m :
  Forall chunk_typed (mf_chunks m) ->
  check_manifest m = Ok tt <->
  zlen (mf_chunks m) <= MAX_CHUNKS /\ contiguous 0 (mf_chunks m)
  /\ mf_size m = chunks_len (mf_chunks m).
Proof.
  intros Ht. unfold check_manifest. destruct (MAX_CHUNKS <? _) eqn:E; b2p.
  { split; [done|lia]. }
  pose proof (chunk_bound_fits _ E) as Hb.
  pose proof (fun k => check_chunks_ok 0 (mf_chunks m) k Ht Hb) as K.
  destruct (try_fold check_chunk 0 (mf_chunks m)) as [k|e] eqn:F.
  - destruct (proj1 (K k) eq_refl) as [Hc ->].
    destruct (negb _) eqn:G; b2p; split; try done; intros; split_and?; try done; lia.
  - split; [done|]. intros (_ & Hc & _). by pose proof (proj2 (K _) (conj Hc eq_refl)).
Qed.

(** A manifest passes [check_manifest] exactly when it is bounded and its chunks are
    contiguous, bounded and cover the size; the branch for an overflow of the covered
    size is never taken. *)
Theorem check_manifest_exact m :
  Forall chunk_typed (mf_chunks m) ->
  (check_manifest m = Ok tt <->
     zlen (mf_chunks m) <= MAX_CHUNKS /\ contiguous 0 (mf_chunks m)
     /\ mf_size m = chunks_len (mf_chunks m))
  /\ check_manifest m <> Err (ManifestErr "size overflow").
Proof.
  intros Ht. split; [by apply check_manifest_ok|]. unfold check_manifest.
  destruct (MAX_CHUNKS <? _) eqn:E; b2p; [done|].
  pose proof (check_chunks_no_overflow 0 _ Ht (chunk_bound_fits _ E)).
  destruct (try_fold _ _ _); [by destruct (negb _)|congruence].
Qed.

(** ** Building manifests *)

(** The cut points of [FastCDC]: contiguous, non-empty, at most the maximal size, and
    covering the data. *)
Fixpoint cuts_cover (off : Z) (max : Z) (cuts : list (Z * Z)) (stop : Z) : Prop :=
  match cuts with
  | [] => off = stop
  | (o, l) :: cuts => o = off /\ 0 < l <= max /\ cuts_cover (off + l) max cuts stop
  end.
Class FastCDCLaws `{FastCDC} : Prop :=
  fastcdc_covers : forall data min avg max, 0 < max ->
    cuts_cover 0 max (fastcdc_cuts data min avg max) (zlen data).

(** [StreamCDC] over a reader of [data] that does not fail: the same cut points, with
    their bytes. *)
Definition stream_of `{FastCDC} (data : bytes) (min avg max : Z)
    : list (result ChunkData IoError) :=
  (fun c : Z * Z => Ok (mkChunkData (slice data c.1 c.2) c.1 c.2))
    <$> fastcdc_cuts data min avg max.

Section Build.
Context `{HB : Blake3}.

Definition chunk_of (data : bytes) (c : Z * Z) : Chunk :=
  mkChunk (blake3_hash (slice data c.1 c.2)) c.1 c.2.

Lemma cuts_cover_le off max cuts stop : cuts_cover off max cuts stop -> off <= stop.
Proof.
  revert off. induction cuts as [|[o l] cuts IH]; intros off; simpl; [lia|].
  intros (_ & Hl & K). apply IH in K. lia.
Qed.

Lemma cuts_contiguous data off cuts stop :
  cuts_cover off MAX_CHUNK cuts stop ->
  contiguous off (chunk_of data <$> cuts) /\ chunks_len (chunk_of data <$> cuts) = stop - off.
Proof.
  revert off. induction cuts as [|[o l] cuts IH]; intros off; csimpl.
  - intros ->. split; [done|lia].
  - intros (-> & Hl & K). apply IH in K as [K1 K2]. split_and!; try done; simpl; lia.
Qed.

Lemma slice_length data o l :
  0 <= o -> 0 <= l -> o + l <= zlen data -> zlen (slice data o l) = l.
Proof.
  intros Ho Hl H. unfold zlen, slice in *. rewrite length_take, length_drop. lia.
Qed.

Lemma take_slice data o l :
  0 <= o -> 0 <= l ->
  take (Z.to_nat o) data ++ slice data o l = take (Z.to_nat (o + l)) data.
Proof.
  intros Ho Hl. unfold slice. rewrite Z2Nat.inj_add by done.
  by rewrite take_take_drop.
Qed.

(** The streaming loop, from the state it has after the chunks before [off]. *)
Lemma manifest_loop_cuts data cuts off max cs :
  0 <= off -> cuts_cover off max cuts (zlen data) ->
  zlen cs + zlen cuts <= MAX_CHUNKS ->
  manifest_loop ((fun c : Z * Z => Ok (mkChunkData (slice data c.1 c.2) c.1 c.2)) <$> cuts)
    (fun _ => false) (take (Z.to_nat off) data) off cs
  = Ok (mkFileManifest (zlen data) (blake3_hash data) (cs ++ (chunk_of data <$> cuts))).
Proof.
  revert off cs. induction cuts as [|[o l] cuts IH]; intros off cs Ho; simpl.
  - intros -> _. rewrite app_nil_r. unfold zlen. by rewrite Nat2Z.id, firstn_all.
  - intros (-> & Hl & K) Hn. pose proof (cuts_cover_le _ _ _ _ K).
    rewrite zlen_cons in Hn. pose proof (zlen_nonneg cuts).
    rewrite (proj2 (Z.ltb_ge _ _)) by (rewrite zlen_app, zlen_cons; unfold zlen in *; simpl; lia).
    rewrite take_slice, slice_length by lia.
    rewrite (IH (off + l)); [|lia|done|rewrite zlen_app, zlen_cons; unfold zlen in *; simpl; lia].
    by rewrite <-app_assoc.
Qed.

(** A scan that is not cancelled does not depend on the cancellation checks. *)
Lemma manifest_loop_stops stream stops root off cs m :
  manifest_loop stream stops root off cs = Ok m ->
  manifest_loop stream (fun _ => false) root off cs = Ok m.
Proof.
  revert stops root off cs. induction stream as [|[c|e] stream IH]; intros stops root off cs; simpl;
    [done| |]; destruct (stops 0%nat); try done.
  destruct (_ <? _); [done|]. apply IH.
Qed.

Lemma manifest_reader_slice `{FastCDC, !FastCDCLaws} data stops m :
  zlen (fastcdc_cuts data MIN_CHUNK AVG_CHUNK MAX_CHUNK) <= MAX_CHUNKS ->
  manifest_reader_cancellable_with (stream_of data MIN_CHUNK AVG_CHUNK MAX_CHUNK) stops = Ok m ->
  m = manifest_of data.
Proof.
  intros Hn K%manifest_loop_stops.
  pose proof (fastcdc_covers data MIN_CHUNK AVG_CHUNK MAX_CHUNK eq_refl) as Hc.
  assert (K' : manifest_reader_cancellable_with (stream_of data MIN_CHUNK AVG_CHUNK MAX_CHUNK)
    (fun _ => false) = Ok (manifest_of data)) by (apply (manifest_loop_cuts data _ 0 MAX_CHUNK []); done).
  unfold manifest_reader_cancellable_with in K'. congruence.
Qed.

(** Streaming a file gives the manifest of its bytes, which every peer accepts. *)
Theorem streaming_matches_slice `{FastCDC, !FastCDCLaws} data :
  zlen (fastcdc_cuts data MIN_CHUNK AVG_CHUNK MAX_CHUNK) <= MAX_CHUNKS ->
  manifest_reader_cancellable_with (stream_of data MIN_CHUNK AVG_CHUNK MAX_CHUNK)
    (fun _ => false) = Ok (manifest_of data)
  /\ check_manifest (manifest_of data) = Ok tt.
Proof.
  intros Hn. pose proof (fastcdc_covers data MIN_CHUNK AVG_CHUNK MAX_CHUNK eq_refl) as Hc.
  split.
  - apply (manifest_loop_cuts data _ 0 MAX_CHUNK []); done.
  - destruct (cuts_contiguous data _ _ _ Hc) as [K1 K2].
    apply check_manifest_ok; [by eapply contiguous_typed|]. simpl.
    split_and!; [by unfold zlen in *; rewrite length_fmap|done|]. unfold chunk_of in K2. lia.
Qed.

End Build.

(** ** The [Need] bitmap is exact *)

Definition is_word (w : Z) : Prop := 0 <= w < 2 ^ 64.

Lemma land_bit w k : 0 <= k -> negb (Z.land w (Z.shiftl 1 k) =? 0) = Z.testbit w k.
Proof.
  intros Hk. rewrite Z.shiftl_1_l. destruct (Z.testbit w k) eqn:E.
  - apply negb_true_iff, Z.eqb_neq. intros K.
    assert (F : Z.testbit (Z.land w (2 ^ k)) k = true)
      by (rewrite Z.land_spec, E, Z.pow2_bits_true by done; done).
    rewrite K, Z.bits_0 in F. done.
  - apply negb_false_iff, Z.eqb_eq, Z.bits_inj'. intros n Hn.
    rewrite Z.land_spec, Z.bits_0, Z.pow2_bits_eqb by done.
    destruct (Z.eqb_spec k n) as [->|]; [by rewrite E|by rewrite andb_false_r].
Qed.

Lemma bit_is_set_testbit bits j w :
  0 <= j -> bits !! Z.to_nat (j / 64) = Some w -> bit_is_set bits j = Z.testbit w (j mod 64).
Proof.
  intros Hj E. unfold bit_is_set. rewrite E. simpl. apply land_bit.
  by apply Z.mod_pos_bound.
Qed.

Lemma set_bit_length bits i : length (set_bit bits i) = length bits.
Proof. apply length_alter. Qed.

Lemma word_lor w k : 0 <= k < 64 -> is_word w -> is_word (Z.lor w (Z.shiftl 1 k)).
Proof.
  intros Hk [H1 H2]. rewrite Z.shiftl_1_l.
  assert (0 < 2 ^ k) by (apply Z.pow_pos_nonneg; lia).
  split; [apply Z.lor_nonneg; lia|].
  destruct (decide (w = 0)) as [->|]; [apply Z.pow_lt_mono_r; lia|].
  apply Z.log2_lt_pow2; [|rewrite Z.log2_lor by lia].
  - assert (Z.lor w (2 ^ k) <> 0) by (intros K; apply Z.lor_eq_0_iff in K; lia).
    pose proof (proj2 (Z.lor_nonneg w (2 ^ k)) ltac:(lia)). lia.
  - rewrite Z.log2_pow2 by lia. apply Z.max_lub_lt; [|lia]. apply Z.log2_lt_pow2; lia.
Qed.

Lemma set_bit_words bits i : 0 <= i -> Forall is_word bits -> Forall is_word (set_bit bits i).
Proof.
  intros Hi H. apply Forall_alter; [done|]. intros w _ Hw.
  apply word_lor; [by apply Z.mod_pos_bound|done].
Qed.

Lemma set_bit_spec bits i j :
  0 <= i -> 0 <= j -> i / 64 < zlen bits ->
  bit_is_set (set_bit bits i) j = bit_is_set bits j || (j =? i).
Proof.
  intros Hi Hj Hl. unfold set_bit.
  assert (0 <= i / 64) by (by apply Z.div_pos).
  assert (0 <= j / 64) by (by apply Z.div_pos).
  pose proof (Z.mod_pos_bound i 64 eq_refl). pose proof (Z.mod_pos_bound j 64 eq_refl).
  pose proof (Z.div_mod i 64 ltac:(done)). pose proof (Z.div_mod j 64 ltac:(done)).
  destruct (decide (j / 64 = i / 64)) as [E|N].
  - destruct (lookup_lt_is_Some_2 bits (Z.to_nat (i / 64))) as [w Ew]; [unfold zlen in Hl; lia|].
    rewrite (bit_is_set_testbit bits j w) by (rewrite ?E; done).
    rewrite (bit_is_set_testbit _ j (Z.lor w (Z.shiftl 1 (i mod 64)))); [|done|].
    2:{ by rewrite E, list_lookup_alter_eq, Ew. }
    rewrite Z.lor_spec, Z.shiftl_1_l, Z.pow2_bits_eqb by lia. f_equal.
    destruct (Z.eqb_spec (i mod 64) (j mod 64)), (Z.eqb_spec j i); try done; lia.
  - unfold bit_is_set. rewrite list_lookup_alter_ne by lia.
    rewrite (proj2 (Z.eqb_neq j i)) by (intros ->; lia). by rewrite orb_false_r.
Qed.

Definition need_step (have : gset Z) (bits : list Z) (i : Z) : list Z :=
  if bool_decide (i ∈ have) then bits else set_bit bits i.

Lemma need_fold_spec (have : gset Z) ixs bits :
  Forall (fun i => 0 <= i /\ i / 64 < zlen bits) ixs -> Forall is_word bits ->
  let out := foldl (need_step have) bits ixs in
  length out = length bits /\ Forall is_word out
  /\ forall j, 0 <= j ->
       bit_is_set out j = bit_is_set bits j || bool_decide (j ∈ ixs /\ j ∉ have).
Proof.
  revert bits. induction ixs as [|i ixs IH]; intros bits Hi Hw; cbn zeta; cbn [foldl].
  { split_and!; try done. intros j _. rewrite bool_decide_eq_false_2, orb_false_r; [done|].
    intros [K%not_elem_of_nil _]. done. }
  apply Forall_cons in Hi as [[Hi1 Hi2] Hi]. destruct (decide (i ∈ have)) as [E|E].
  - replace (need_step have bits i) with bits
      by (unfold need_step; by rewrite bool_decide_eq_true_2).
    destruct (IH bits Hi Hw) as (L & W & B). split_and!; try done.
    intros j Hj. rewrite (B j Hj). f_equal. apply bool_decide_ext. set_solver.
  - replace (need_step have bits i) with (set_bit bits i)
      by (unfold need_step; by rewrite bool_decide_eq_false_2).
    destruct (IH (set_bit bits i)) as (L & W & B).
    + unfold zlen in *. by rewrite set_bit_length.
    + by apply set_bit_words.
    + rewrite set_bit_length in L. split_and!; try done.
      intros j Hj. rewrite (B j Hj), set_bit_spec, <-orb_assoc by done. f_equal.
      destruct (Z.eqb_spec j i) as [->|]; simpl.
      * rewrite bool_decide_eq_true_2; [done|]. set_solver.
      * apply bool_decide_ext. set_solver.
Qed.

Lemma words_spec total : 0 <= total -> 0 <= words total /\ 64 * words total - 63 <= total + 0 <= 64 * words total.
Proof.
  intros H. unfold words. pose proof (Z.div_mod (total + 63) 64 ltac:(done)).
  pose proof (Z.mod_pos_bound (total + 63) 64 eq_refl).
  assert (0 <= (total + 63) / 64) by (apply Z.div_pos; lia). lia.
Qed.

Lemma replicate_bits n j : bit_is_set (replicate n 0) j = false.
Proof.
  unfold bit_is_set. destruct (replicate n 0 !! _) as [w|] eqn:E; [|done].
  by apply lookup_replicate in E as [-> _].
Qed.

Lemma index_range_spec total i :
  0 <= total <= MAX_CHUNKS -> i ∈ index_range total <-> 0 <= i < total.
Proof.
  intros H. unfold index_range. rewrite elem_of_seqZ, Z.mod_small; [lia|].
  unfold MAX_CHUNKS in H. lia.
Qed.

Lemma need_bits_spec total (have : gset Z) :
  0 <= total <= MAX_CHUNKS ->
  zlen (need_bits total have) = words total /\ Forall is_word (need_bits total have)
  /\ forall j, 0 <= j ->
       bit_is_set (need_bits total have) j = bool_decide (0 <= j < total /\ j ∉ have).
Proof.
  intros Ht. pose proof (words_spec total ltac:(lia)).
  set (z := replicate (Z.to_nat (words total)) 0).
  assert (zlen z = words total) by (unfold z, zlen; rewrite length_replicate; lia).
  destruct (need_fold_spec have (index_range total) z) as (L & W & B).
  - apply Forall_forall. intros i Hi%index_range_spec; [|done]. split; [lia|].
    apply Z.div_lt_upper_bound; lia.
  - apply Forall_replicate. by unfold is_word.
  - change (foldl (need_step have) z (index_range total)) with (need_bits total have) in *.
    split_and!; [unfold zlen in *; lia|done|]. intros j Hj. rewrite (B j Hj).
    unfold z. rewrite replicate_bits. simpl. apply bool_decide_ext.
    by rewrite index_range_spec.
Qed.

(** Two bitmaps of the same number of words with the same bits are equal. *)
Lemma bitmap_ext a b :
  length a = length b -> Forall is_word a -> Forall is_word b ->
  (forall j, 0 <= j < 64 * zlen a -> bit_is_set a j = bit_is_set b j) -> a = b.
Proof.
  intros L Wa Wb H. apply list_eq_same_length with (length a); [done|done|].
  intros i x y Hi Ex Ey. apply Z.bits_inj'. intros n Hn.
  pose proof (Forall_lookup_1 _ _ _ _ Wa Ex) as [X1 X2].
  pose proof (Forall_lookup_1 _ _ _ _ Wb Ey) as [Y1 Y2].
  destruct (decide (n < 64)) as [K|K].
  - assert (D : (64 * Z.of_nat i + n) / 64 = Z.of_nat i) by (rewrite Z.mul_comm, Z.div_add_l, Z.div_small; lia).
    assert (M : (64 * Z.of_nat i + n) mod 64 = n)
      by (rewrite Z.mul_comm, Z.add_comm, Z.mod_add, Z.mod_small; lia).
    specialize (H (64 * Z.of_nat i + n) ltac:(unfold zlen; lia)).
    rewrite (bit_is_set_testbit a _ x), (bit_is_set_testbit b _ y), M in H;
      rewrite ?D, ?Nat2Z.id; try done; lia.
  - rewrite !Z.bits_above_log2; try lia.
    + destruct (decide (y = 0)) as [->|]; [change (Z.log2 0) with 0; lia|].
      apply Z.lt_le_trans with 64; [apply Z.log2_lt_pow2|]; lia.
    + destruct (decide (x = 0)) as [->|]; [change (Z.log2 0) with 0; lia|].
      apply Z.lt_le_trans with 64; [apply Z.log2_lt_pow2|]; lia.
Qed.

(** What [bits_to_indices] accepts: the right number of words and no padding bit. *)
Lemma bits_padding bits total j w :
  0 <= total -> zlen bits = words total -> Forall is_word bits ->
  negb (total mod 64 =? 0)
    && is_some_and (last bits) (fun word => negb (Z.shiftr word (total mod 64) =? 0)) = false ->
  total <= j < 64 * zlen bits -> bits !! Z.to_nat (j / 64) = Some w ->
  Z.testbit w (j mod 64) = false.
Proof.
  intros Ht Hl Hw Hp Hj Ew. pose proof (words_spec total Ht).
  pose proof (Z.div_mod total 64 ltac:(done)). pose proof (Z.mod_pos_bound total 64 eq_refl).
  pose proof (Z.div_mod j 64 ltac:(done)). pose proof (Z.mod_pos_bound j 64 eq_refl).
  assert (J : j / 64 = words total - 1) by lia.
  assert (T : total / 64 = words total - 1) by lia.
  assert (M : total mod 64 <> 0) by lia.
  assert (Last : last bits = Some w).
  { rewrite last_lookup. replace (pred (length bits)) with (Z.to_nat (j / 64)); [done|].
    unfold zlen in Hl. lia. }
  rewrite Last in Hp. simpl in Hp. rewrite (proj2 (Z.eqb_neq _ _) M) in Hp. simpl in Hp. b2p.
  replace (j mod 64) with (j mod 64 - total mod 64 + total mod 64) by lia.
  by rewrite <-Z.shiftr_spec, Hp, Z.bits_0 by lia.
Qed.

Lemma need_bits_padding total have :
  0 <= total <= MAX_CHUNKS ->
  negb (total mod 64 =? 0)
    && is_some_and (last (need_bits total have))
         (fun word => negb (Z.shiftr word (total mod 64) =? 0)) = false.
Proof.
  intros Ht. destruct (need_bits_spec total have Ht) as (L & W & B).
  pose proof (words_spec total ltac:(lia)).
  destruct (last (need_bits total have)) as [w|] eqn:E; [|by rewrite andb_false_r].
  rewrite last_lookup in E. simpl. destruct (Z.eqb_spec (total mod 64) 0) as [|M]; [done|]. simpl.
  apply negb_false_iff, Z.eqb_eq, Z.bits_inj'. intros n Hn. rewrite Z.bits_0.
  pose proof (Z.mod_pos_bound total 64 eq_refl). pose proof (Z.div_mod total 64 ltac:(done)).
  rewrite Z.shiftr_spec by done.
  pose proof (Forall_lookup_1 _ _ _ _ W E) as [W1 W2].
  destruct (decide (n + total mod 64 < 64)) as [K|K].
  - pose (j := 64 * (words total - 1) + (n + total mod 64)).
    assert (D : j / 64 = words total - 1).
    { unfold j. rewrite Z.mul_comm, Z.div_add_l, Z.div_small; lia. }
    assert (M' : j mod 64 = n + total mod 64).
    { unfold j. rewrite Z.mul_comm, Z.add_comm, Z.mod_add, Z.mod_small; lia. }
    pose proof (B j ltac:(lia)) as Bj. rewrite bool_decide_eq_false_2 in Bj by lia.
    rewrite (bit_is_set_testbit _ _ w), M' in Bj; [done|lia|].
    rewrite D. replace (Z.to_nat (words total - 1)) with (pred (length (need_bits total have)));
      [done|]. unfold zlen in L. lia.
  - apply Z.bits_above_log2; [done|]. destruct (decide (w = 0)) as [->|].
    + change (Z.log2 0) with 0. lia.
    + apply Z.lt_le_trans with 64; [apply Z.log2_lt_pow2|]; lia.
Qed.

Lemma bits_to_indices_need total have :
  0 <= total <= MAX_CHUNKS ->
  bits_to_indices (need_bits total have) total
  = Ok (filter (fun i => i ∉ have) (index_range total)).
Proof.
  intros Ht. destruct (need_bits_spec total have Ht) as (L & W & B).
  unfold bits_to_indices. rewrite need_bits_padding, L, Z.eqb_refl by done.
  rewrite (proj2 (Z.ltb_ge _ _)) by lia. simpl. f_equal. apply filter_ext_in.
  intros i Hi%index_range_spec; [|done]. rewrite B by lia. b2p. naive_solver.
Qed.

(** C40: The [Need] bitmap is an exact code of the missing indices: the holder decodes a
    bitmap of 64-bit words to a list exactly when it is the bitmap some receiver
    builds for those missing indices, so no two bitmaps ask for the same chunks. *)
Theorem need_bitmap_exact bits total ixs :
  0 <= total -> Forall is_word bits ->
  bits_to_indices bits total = Ok ixs <->
  total <= MAX_CHUNKS
  /\ exists have : gset Z, bits = need_bits total have
       /\ ixs = filter (fun i => i ∉ have) (index_range total).
Proof.
  intros Ht Hw. split.
  - intros K. pose proof K as K'. unfold bits_to_indices in K. inv_res K. injection K as <-.
    apply orb_false_iff in E as [E Hp]. apply orb_false_iff in E as [Hm Hl]. b2p_in Hm. b2p_in Hl.
    split; [done|].
    pose (have := list_to_set (filter (fun i => bit_is_set bits i = false) (index_range total)) : gset Z).
    exists have. destruct (need_bits_spec total have ltac:(lia)) as (L & W & B).
    assert (E : bits = need_bits total have).
    { apply bitmap_ext; [unfold zlen in *; lia|done|done|]. intros j Hj.
      destruct (lookup_lt_is_Some_2 bits (Z.to_nat (j / 64))) as [w Ew].
      { assert (j / 64 < zlen bits) by (apply Z.div_lt_upper_bound; lia).
        pose proof (Z.div_pos j 64). unfold zlen in *. lia. }
      rewrite B by lia. destruct (decide (j < total)) as [Lt|Ge].
      - destruct (bit_is_set bits j) eqn:Ej; symmetry.
        + apply bool_decide_eq_true_2. split; [lia|]. unfold have.
          rewrite elem_of_list_to_set, list_elem_of_filter. rewrite Ej. naive_solver.
        + apply bool_decide_eq_false_2. intros [_ F]. apply F. unfold have.
          rewrite elem_of_list_to_set, list_elem_of_filter. split; [done|].
          apply index_range_spec; lia.
      - rewrite bool_decide_eq_false_2 by lia.
        rewrite (bit_is_set_testbit _ _ w) by (done || lia).
        eapply (bits_padding bits total); try done; lia. }
    split; [done|]. rewrite E in K' at 1. rewrite bits_to_indices_need in K' by lia. congruence.
  - intros (Hm & have & -> & ->). apply bits_to_indices_need. lia.
Qed.

(** ** Sessions *)

Definition is_session (msg : SyncMsg) : bool :=
  match msg with Session _ _ => true | _ => false end.

(** A version-2 endpoint accepts exactly the frames its own profile writes for a
    message: nothing of another transfer, of version 1, or a repeated greeting. *)
Theorem wire_v2_exact tid limits frame msg :
  wire_decode (v2 tid limits) frame = Ok msg <->
  frame = wire_frame (v2 tid limits) msg /\ is_session msg = false.
Proof.
  unfold wire_decode, wire_frame. cbn [v2 wr_transfer_id]. split.
  - intros H. destruct frame; try discriminate H.
    destruct (bool_decide _) eqn:E; [|discriminate H]. b2p. subst.
    by destruct msg0; inversion H.
  - intros [-> Hs]. destruct msg; try discriminate Hs; cbn [to_session default from_option id];
      by rewrite bool_decide_eq_true_2.
Qed.

Definition limits_usable (l : SessionLimits) : Prop :=
  0 < sl_max_chunk l /\ 0 < sl_max_chunks l /\ 0 < sl_fetch_streams l.
Definition limits_within (l k : SessionLimits) : Prop :=
  sl_max_chunk l <= sl_max_chunk k /\ sl_max_chunks l <= sl_max_chunks k
  /\ sl_fetch_streams l <= sl_fetch_streams k.
(** What the unsigned types say. *)
Definition limits_typed (l : SessionLimits) : Prop :=
  0 <= sl_max_chunk l /\ 0 <= sl_max_chunks l /\ 0 <= sl_fetch_streams l.

Lemma negotiate_ok self peer l :
  limits_typed self -> limits_typed peer ->
  negotiate self peer = Ok l ->
  limits_usable l /\ limits_within l self /\ limits_within l peer /\ limits_within l LOCAL.
Proof.
  unfold negotiate, limits_typed, limits_usable, limits_within, LOCAL.
  intros Hs Hp H. inv_res H. injection H as <-. b2p. simpl.
  assert (0 < MAX_CHUNK) by done. assert (0 < MAX_CHUNKS) by done.
  assert (0 < FETCH_STREAMS) by done. lia.
Qed.

Lemma negotiate_usable self peer :
  limits_typed self -> limits_typed peer ->
  is_ok (negotiate self peer) = true <-> limits_usable self /\ limits_usable peer.
Proof.
  unfold negotiate, limits_typed, limits_usable. intros Hs Hp.
  destruct (_ || _) eqn:E; b2p; simpl; split; try done; lia.
Qed.

Lemma negotiate_sym self peer : negotiate self peer = negotiate peer self.
Proof.
  unfold negotiate.
  destruct (sl_max_chunk peer =? 0), (sl_max_chunks peer =? 0), (sl_fetch_streams peer =? 0),
    (sl_max_chunk self =? 0), (sl_max_chunks self =? 0), (sl_fetch_streams self =? 0);
    try done.
  simpl. by rewrite (Z.min_comm (sl_max_chunk self)), (Z.min_comm (sl_max_chunks self)),
    (Z.min_comm (sl_fetch_streams self)).
Qed.

Definition answer_typed (answer : SyncMsg) : Prop :=
  match answer with Session _ (SeHelloAck _ l) => limits_typed l | _ => True end.

(** Whatever a peer answers, a session opens only for this transfer and version and
    runs within the local bounds and the ones the peer declared; the two ends of one
    greeting run at the same limits. *)
Theorem session_limits_agree id answer l :
  answer_typed answer ->
  session_open id answer = Ok l ->
  (exists limits, answer = Session id (SeHelloAck SESSION_VERSION limits)
     /\ limits_usable l /\ limits_within l limits /\ limits_within l LOCAL
     /\ negotiate limits LOCAL = Ok l)
  /\ (forall l' answer', session_accept id (session_hello id) = (Ok l', Some answer') ->
        answer = answer' -> l' = l).
Proof.
  intros Ht H. unfold session_open in H.
  destruct answer; try discriminate H. destruct msg; try discriminate H.
  destruct (bool_decide _ && _) eqn:E; [|by destruct (bool_decide _)]. b2p.
  destruct E as [-> ->]. destruct (negotiate LOCAL limits) as [k|] eqn:N; [|done].
  injection H as <-. split.
  - exists limits. destruct (negotiate_ok LOCAL limits k) as (A & B & C & D);
      [done|done|done|]. by rewrite negotiate_sym.
  - intros l' a' K Ea. unfold session_accept, session_hello in K.
    rewrite bool_decide_eq_true_2, Z.eqb_refl in K by done. simpl in K.
    injection K as <- <-. injection Ea as ->. vm_compute in N |- *. congruence.
Qed.

(** ** Witnesses *)

(** A chunker that cuts after every byte. *)
#[local] Instance toy_cdc : FastCDC := fun data _ _ _ => (fun i => (i, 1)) <$> seqZ 0 (zlen data).

#[local] Instance toy_cdc_laws : FastCDCLaws.
Proof.
  intros data min avg max Hm. unfold fastcdc_cuts, toy_cdc. change (zlen data) with (0 + zlen data) at 2.
  unfold zlen. generalize 0 as off. induction data as [|x data IH]; intros off.
  - simpl. lia.
  - rewrite seqZ_cons by (simpl; lia). rewrite fmap_cons. split_and!; [done|lia|lia|].
    replace (off + Z.of_nat (length (x :: data))) with (Z.succ off + Z.of_nat (length data))
      by (simpl; lia).
    replace (Z.pred (Z.of_nat (length (x :: data)))) with (Z.of_nat (length data)) by (simpl; lia).
    apply IH.
Qed.

#[local] Existing Instance toy_blake3.

Lemma streaming_matches_slice_witness :
  manifest_reader_cancellable_with (stream_of (bs "hello") MIN_CHUNK AVG_CHUNK MAX_CHUNK)
    (fun _ => false) = Ok (manifest_of (bs "hello"))
  /\ zlen (mf_chunks (manifest_of (bs "hello"))) = 5.
Proof.
  assert (Hn : zlen (fastcdc_cuts (bs "hello") MIN_CHUNK AVG_CHUNK MAX_CHUNK) <= MAX_CHUNKS)
    by (vm_compute; congruence).
  split; [apply (streaming_matches_slice (bs "hello") Hn)|vm_compute; reflexivity].
Defined.

Lemma check_manifest_witness :
  contiguous 0 (mf_chunks (manifest_of (bs "hello"))).
Proof.
  assert (Ht : Forall chunk_typed (mf_chunks (manifest_of (bs "hello"))))
    by (repeat constructor; vm_compute; congruence).
  assert (K : check_manifest (manifest_of (bs "hello")) = Ok tt) by (vm_compute; reflexivity).
  apply (proj1 (check_manifest_exact _ Ht)) in K. apply K.
Defined.

(** Three chunks, the middle one present; a bit past the end is refused. *)
Lemma need_bitmap_witness :
  (exists have : gset Z, [5] = need_bits 3 have) /\ bits_to_indices [13] 3 <> Ok [0; 2].
Proof.
  assert (Ht : 0 <= 3) by lia.
  assert (Hw : Forall is_word [5]) by (repeat constructor; vm_compute; congruence).
  assert (K : bits_to_indices [5] 3 = Ok [0; 2]) by (vm_compute; reflexivity).
  destruct (proj1 (need_bitmap_exact _ _ _ Ht Hw) K) as (_ & have & E & _).
  split; [by exists have|by vm_compute].
Defined.

(** A peer with smaller bounds. *)
Lemma session_limits_witness :
  let l := mkLimits 65536 100 2 in
  limits_within l LOCAL /\ negotiate l LOCAL = Ok l.
Proof.
  intros l.
  assert (Ht : answer_typed (Session (bs "t") (SeHelloAck SESSION_VERSION l)))
    by (vm_compute; repeat split; congruence).
  assert (K : session_open (bs "t") (Session (bs "t") (SeHelloAck SESSION_VERSION l)) = Ok l)
    by (vm_compute; reflexivity).
  destruct (session_limits_agree _ _ _ Ht K) as [(limits & E & _ & _ & W & N) _].
  injection E as <-. by split.
Defined.
