(* ===== verification/Confined.v ===== *)
(** * Confined file system access

    Models [src/crates/rds-sync/src/confined.rs]: operations on held directories, one
    path component at a time, without following links; private state files are
    replaced through an exclusively created staging file and a rename.

    The operating system is an interface: the class [Posix] has the calls the code
    makes through [rustix] and [std::fs], each of which may fail, on an abstract
    world, and [PosixLaws] states what their documentation says of the entries of
    directories.  A directory handle is the inode it was opened on.  An in-memory
    instance at the end shows that the laws can hold. *)

From S2P Require Import Prelude Paths Crypto SyncProto.

(** ** The calls *)

Inductive Entry : Type :=
| EFile (content : bytes) (links : Z)
| EDir (ino : Z)
| EOther.

Class Posix : Type := {
  world : Type;
  (** the entry of a name in a directory, without following a link *)
  look : world -> Z -> bytes -> option Entry;
  (** [openat] with [DIRECTORY | NOFOLLOW] *)
  sys_opendir : Z -> bytes -> world -> result Z IoError * world;
  (** [openat] with [RDONLY | NOFOLLOW | NONBLOCK]: a handle on what the entry is *)
  sys_open : Z -> bytes -> world -> result Entry IoError * world;
  (** [mkdirat], [openat] with [CREATE | EXCL] *)
  sys_mkdir : Z -> bytes -> world -> result unit IoError * world;
  sys_create : Z -> bytes -> world -> result unit IoError * world;
  (** [write_all] on the file created at that name *)
  sys_write : Z -> bytes -> bytes -> world -> result unit IoError * world;
  (** [renameat] and [unlinkat] *)
  sys_rename : Z -> bytes -> Z -> bytes -> world -> result unit IoError * world;
  sys_unlink : Z -> bytes -> bool -> world -> result unit IoError * world;
  (** the names that reading a directory yields, without [.] and [..] *)
  sys_readdir : Z -> world -> result (list bytes) IoError * world;
  (** [openat] with [RDWR | CREATE | NOFOLLOW | NONBLOCK] and [flock] *)
  sys_open_create : Z -> bytes -> world -> result Entry IoError * world;
  sys_try_lock : Z -> bytes -> world -> result unit IoError * world;
  (** [fstat], [read] on an open handle, [fsync], [fchmod]: no entry changes *)
  sys_fstat : world -> result unit IoError * world;
  sys_read : world -> result unit IoError * world;
  sys_fsync : world -> result unit IoError * world;
  sys_fchmod : world -> result unit IoError * world
}.

Section Laws.
Context `{Posix}.

Definition same_entries (w w' : world) : Prop := forall d n, look w' d n = look w d n.
Definition entry_set (w w' : world) (d : Z) (n : bytes) (e : option Entry) : Prop :=
  look w' d n = e
  /\ forall d' n', (d', n') <> (d, n) -> look w' d' n' = look w d' n'.

Class PosixLaws : Prop := {
  opendir_law : forall d n w r w', sys_opendir d n w = (r, w') ->
    same_entries w w' /\ match r with
      | Ok i => look w d n = Some (EDir i)
      | Err e => e = NotFound -> look w d n = None end;
  open_law : forall d n w r w', sys_open d n w = (r, w') ->
    same_entries w w' /\ match r with
      | Ok h => look w d n = Some h
      | Err e => e = NotFound -> look w d n = None end;
  mkdir_law : forall d n w r w', sys_mkdir d n w = (r, w') ->
    match r with
    | Ok _ => look w d n = None /\ exists i, (forall m, look w i m = None) /\ d <> i
              /\ (forall b m, look w b m <> Some (EDir i))
              /\ entry_set w w' d n (Some (EDir i))
    | Err _ => same_entries w w' end;
  create_law : forall d n w r w', sys_create d n w = (r, w') ->
    match r with
    | Ok _ => look w d n = None /\ entry_set w w' d n (Some (EFile [] 1))
    | Err _ => same_entries w w' end;
  write_law : forall d n data w r w', sys_write d n data w = (r, w') ->
    (forall b m, (b, m) <> (d, n) -> look w' b m = look w b m)
    /\ forall c, look w d n = Some (EFile c 1) ->
         match r with
         | Ok _ => look w' d n = Some (EFile (c ++ data) 1)
         | Err _ => exists k, look w' d n = Some (EFile (c ++ take k data) 1) end;
  rename_law : forall d n d' n' w r w', sys_rename d n d' n' w = (r, w') ->
    match r with
    | Ok _ => exists e, look w d n = Some e /\ look w' d' n' = Some e
              /\ ((d, n) <> (d', n') -> look w' d n = None)
              /\ forall b m, (b, m) <> (d, n) -> (b, m) <> (d', n') -> look w' b m = look w b m
    | Err _ => same_entries w w' end;
  unlink_law : forall d n dir w r w', sys_unlink d n dir w = (r, w') ->
    match r with
    | Ok _ => entry_set w w' d n None
    | Err e => same_entries w w' /\ (e = NotFound -> look w d n = None) end;
  readdir_law : forall d w r w', sys_readdir d w = (r, w') ->
    same_entries w w' /\ match r with
      | Ok names => forall n, n ∈ names <-> is_Some (look w d n)
      | Err _ => True end;
  open_create_law : forall d n w r w', sys_open_create d n w = (r, w') ->
    match r with
    | Ok h => look w' d n = Some h
              /\ (same_entries w w' \/ (look w d n = None /\ entry_set w w' d n (Some (EFile [] 1))))
    | Err _ => same_entries w w' end;
  try_lock_law : forall d n w r w', sys_try_lock d n w = (r, w') -> same_entries w w';
  fstat_law : forall w r w', sys_fstat w = (r, w') -> same_entries w w' /\ r <> Err NotFound;
  read_law : forall w r w', sys_read w = (r, w') -> same_entries w w' /\ r <> Err NotFound;
  fsync_law : forall w r w', sys_fsync w = (r, w') -> same_entries w w';
  fchmod_law : forall w r w', sys_fchmod w = (r, w') -> same_entries w w'
}.

End Laws.

(** ** The code *)

(** A computation on the world that may fail with an error of [E];
    [let! x := m in k] is [let x = m?; k]. *)
Definition ioe `{Posix} (E A : Type) : Type := world -> result A E * world.
Abbreviation io := (ioe IoError).
Definition io_ret `{Posix} {E A} (a : A) : ioe E A := fun w => (Ok a, w).
Definition io_err `{Posix} {E A} (e : E) : ioe E A := fun w => (Err e, w).
Definition io_bind `{Posix} {E A B} (m : ioe E A) (k : A -> ioe E B) : ioe E B :=
  fun w => let '(r, w) := m w in
    match r with Ok a => k a w | Err e => (Err e, w) end.
Notation "'let!' x ':=' e 'in' k" := (io_bind e (fun x => k))
  (at level 10, x pattern, e at level 200, k at level 200) : rust_scope.
(** [match m { Ok(a) => k(Ok(a)), Err(e) => k(Err(e)) }]. *)
Definition io_match `{Posix} {E F A B} (m : ioe E A) (k : result A E -> ioe F B) : ioe F B :=
  fun w => let '(r, w) := m w in k r w.

(** [PENDING]. *)
Definition PENDING : bytes := bs "pending".

(** [component]: the name is one normal component. *)
Definition component `{Posix} (name : bytes) : io unit :=
  if bool_decide (path_components name = [Normal name]) then io_ret tt
  else io_err (OtherIo "invalid filesystem component").

Section Code.
Context `{HP : Posix}.

(** [Directory::sync] and [Directory::make_private]. *)
Definition dir_sync : io unit := sys_fsync.
Definition make_private : io unit := let! _ := sys_fchmod in dir_sync.

(** [Directory::child]. *)
Definition child (d : Z) (name : bytes) (create : bool) : io Z :=
  let! _ := component name in
  let! _ :=
    (if create then
       io_match (sys_mkdir d name) (fun r =>
         match r with
         | Ok _ => dir_sync
         | Err AlreadyExists => io_ret tt
         | Err e => io_err e
         end)
     else io_ret tt) in
  sys_opendir d name.

(** [Directory::same_inode]: two [fstat] calls. *)
Definition same_inode (a b : Z) : io bool :=
  let! _ := sys_fstat in let! _ := sys_fstat in io_ret (a =? b).

(** The check inside the loop of [Directory::parent]: the directory just opened is
    not the private state directory under another spelling. *)
Definition refuse_private (d next : Z) : io unit :=
  io_match (child d STATE_DIR false) (fun r =>
    match r with
    | Ok state =>
        let! same := same_inode next state in
        if same then io_err PermissionDenied else io_ret tt
    | Err NotFound => io_ret tt
    | Err e => io_err e
    end).

(** The loop of [Directory::parent] over the components. *)
Fixpoint parent_loop (d : Z) (parts : list Component) (create : bool) : io (Z * bytes) :=
  match parts with
  | [] => io_err (OtherIo "empty sync path")
  | Normal name :: [] => io_ret (d, name)
  | Normal name :: rest =>
      let! next := child d name create in
      let! _ := refuse_private d next in
      parent_loop next rest create
  | _ => io_err (OtherIo "sync path must be relative and normalized")
  end.

(** [Directory::parent]. *)
Definition parent (d : Z) (rel : bytes) (create : bool) : io (Z * bytes) :=
  parent_loop d (path_components rel) create.

(** [regular] and [single_link]. *)
Definition regular (h : Entry) : io unit :=
  let! _ := sys_fstat in
  match h with
  | EFile _ _ => io_ret tt
  | _ => io_err (OtherIo "sync requires a regular file")
  end.
Definition single_link (h : Entry) : io unit :=
  let! _ := sys_fstat in
  match h with
  | EFile _ 1 => io_ret tt
  | _ => io_err (OtherIo "sync state must have one link")
  end.

(** [Directory::read_file] and [Directory::read_path]. *)
Definition read_file (d : Z) (name : bytes) : io Entry :=
  let! _ := component name in
  let! h := sys_open d name in
  let! _ := regular h in
  io_ret h.
Definition read_path (d : Z) (rel : bytes) : io Entry :=
  let! p := parent d rel false in read_file p.1 p.2.

(** [Directory::read_state]: at most [limit + 1] bytes. *)
Definition read_state (d : Z) (name : bytes) (limit : Z) : io bytes :=
  let! h := read_file d name in
  let! _ := single_link h in
  let! _ := sys_read in
  io_ret (match h with EFile c _ => take (Z.to_nat (limit + 1)) c | _ => [] end).

(** [Directory::lock]: the lock is the exclusive [flock] on the state file; holding it
    is a value in the code and is released when that is dropped. *)
Definition lock (d : Z) (name : bytes) : io unit :=
  let! _ := component name in
  let! h := sys_open_create d name in
  let! _ := regular h in
  let! _ := single_link h in
  sys_try_lock d name.

(** [Directory::unlink]. *)
Definition unlink (d : Z) (name : bytes) (directory : bool) : io unit :=
  let! _ := component name in sys_unlink d name directory.

(** [Directory::discard_owned]. *)
Definition discard_owned (d : Z) (name : bytes) : io unit :=
  io_match (read_file d name) (fun r =>
    match r with
    | Ok h =>
        let! _ := single_link h in
        let! _ := unlink d name false in
        dir_sync
    | Err NotFound => io_ret tt
    | Err e => io_err e
    end).

(** [Drop for StagedFile] of a file that was not installed; its errors are ignored. *)
Definition drop_stage (d : Z) (name : bytes) : io unit :=
  io_match (unlink d name false) (fun _ => io_match dir_sync (fun _ => io_ret tt)).

(** [Directory::stage_named]. *)
Definition stage_named (d : Z) (name : bytes) : io unit :=
  let! _ := component name in sys_create d name.

(** [StagedFile::install_in] of the file staged as [stage] in [d]; the stage is
    dropped on the errors before the rename. *)
Definition install_in (d : Z) (stage : bytes) (destination : Z) (name : bytes) : io unit :=
  io_match
    (let! _ := component name in
     let! _ := sys_fsync in
     sys_rename d stage destination name) (fun r =>
    match r with
    | Err e => let! _ := drop_stage d stage in io_err e
    | Ok _ =>
        let! _ := dir_sync in
        let! same := same_inode d destination in
        if same then io_ret tt else dir_sync
    end).

(** A body that writes to a staged file, which is dropped when it fails. *)
Definition with_stage {A} (d : Z) (stage : bytes) (body : io A) : io A :=
  io_match body (fun r =>
    match r with
    | Ok a => io_ret a
    | Err e => let! _ := drop_stage d stage in io_err e
    end).

(** [Directory::write_state]. *)
Definition write_state (d : Z) (name data : bytes) : io unit :=
  let! _ := discard_owned d PENDING in
  let! _ := stage_named d PENDING in
  let! _ := with_stage d PENDING (sys_write d PENDING data) in
  install_in d PENDING d name.

(** [Directory::visit_children]: the names one by one; an error of the callback ends
    the enumeration. *)
Fixpoint visit_names (visit : bytes -> io unit) (names : list bytes) : io unit :=
  match names with
  | [] => io_ret tt
  | n :: names => let! _ := visit n in visit_names visit names
  end.
Definition visit_children (d : Z) (visit : bytes -> io unit) : io unit :=
  let! names := sys_readdir d in visit_names visit names.

End Code.

(** ** Reasoning about computations *)

Section Reasoning.
Context `{HP : Posix, HL : !PosixLaws}.

Lemma io_bind_inv {E A B} (m : ioe E A) (k : A -> ioe E B) w r w' :
  io_bind m k w = (r, w') ->
  (exists a w1, m w = (Ok a, w1) /\ k a w1 = (r, w'))
  \/ (exists e, m w = (Err e, w') /\ r = Err e).
Proof.
  unfold io_bind. destruct (m w) as [[a|e] w1]; intros K; [left; eauto|right].
  injection K as <- <-. eauto.
Qed.

Lemma io_match_inv {E F A B} (m : ioe E A) (k : result A E -> ioe F B) w r w' :
  io_match m k w = (r, w') -> exists r1 w1, m w = (r1, w1) /\ k r1 w1 = (r, w').
Proof. unfold io_match. destruct (m w) as [r1 w1]. eauto. Qed.

(** The computation changes at most the entries in [S]. *)
Definition touches {E A} (S : Z -> bytes -> Prop) (m : ioe E A) : Prop :=
  forall w r w', m w = (r, w') -> forall d n, ~ S d n -> look w' d n = look w d n.

Definition nothing : Z -> bytes -> Prop := fun _ _ => False.
Definition only (d : Z) (n : bytes) : Z -> bytes -> Prop := fun b m => b = d /\ m = n.
Definition either (S T : Z -> bytes -> Prop) : Z -> bytes -> Prop := fun b m => S b m \/ T b m.

Lemma only_self d n : only d n d n.
Proof. done. Qed.
Lemma either_l (S T : Z -> bytes -> Prop) d n : S d n -> either S T d n.
Proof. by left. Qed.
Lemma either_r (S T : Z -> bytes -> Prop) d n : T d n -> either S T d n.
Proof. by right. Qed.

Lemma touches_ret {E A} S (a : A) : touches S (io_ret (E := E) a).
Proof. by intros w r w' [= <- <-]. Qed.
Lemma touches_err {E A} S (e : E) : touches S (io_err (A := A) e).
Proof. by intros w r w' [= <- <-]. Qed.
Lemma touches_bind {E A B} S (m : ioe E A) (k : A -> ioe E B) :
  touches S m -> (forall a, touches S (k a)) -> touches S (io_bind m k).
Proof.
  intros Hm Hk w r w' [(a & w1 & E1 & K)|(e & E1 & ->)]%io_bind_inv d n Hn.
  - by rewrite (Hk a _ _ _ K), (Hm _ _ _ E1).
  - by rewrite (Hm _ _ _ E1).
Qed.
Lemma touches_match {E F A B} S (m : ioe E A) (k : result A E -> ioe F B) :
  touches S m -> (forall a, touches S (k a)) -> touches S (io_match m k).
Proof.
  intros Hm Hk w r w' (r1 & w1 & E1 & K)%io_match_inv d n Hn.
  by rewrite (Hk r1 _ _ _ K), (Hm _ _ _ E1).
Qed.
Lemma touches_weaken {E A} (S T : Z -> bytes -> Prop) (m : ioe E A) :
  (forall d n, S d n -> T d n) -> touches S m -> touches T m.
Proof. intros Hs Hm w r w' E1 d n Hn. apply (Hm _ _ _ E1). auto. Qed.

Lemma touches_fsync S : touches S sys_fsync.
Proof. intros w r w' E d n _. by apply (fsync_law _ _ _ E). Qed.
Lemma touches_fstat S : touches S sys_fstat.
Proof. intros w r w' E d n _. by apply (fstat_law _ _ _ E). Qed.
Lemma touches_read S : touches S sys_read.
Proof. intros w r w' E d n _. by apply (read_law _ _ _ E). Qed.
Lemma touches_fchmod S : touches S sys_fchmod.
Proof. intros w r w' E d n _. by apply (fchmod_law _ _ _ E). Qed.
Lemma touches_open S b m : touches S (sys_open b m).
Proof. intros w r w' E d n _. by apply (open_law _ _ _ _ _ E). Qed.
Lemma touches_opendir S b m : touches S (sys_opendir b m).
Proof. intros w r w' E d n _. by apply (opendir_law _ _ _ _ _ E). Qed.
Lemma touches_readdir S b : touches S (sys_readdir b).
Proof. intros w r w' E d n _. by apply (readdir_law _ _ _ _ E). Qed.
Lemma touches_try_lock S b m : touches S (sys_try_lock b m).
Proof. intros w r w' E d n _. by apply (try_lock_law _ _ _ _ _ E). Qed.
Lemma touches_open_create (S : Z -> bytes -> Prop) b m : S b m -> touches S (sys_open_create b m).
Proof.
  intros Hs w r w' E d n Hn. pose proof (open_create_law _ _ _ _ _ E) as K.
  destruct r; [|by apply K]. destruct K as [_ [K|[_ K]]]; [by apply K|].
  apply K. intros [= -> ->]. done.
Qed.
Lemma touches_unlink (S : Z -> bytes -> Prop) b m dir : S b m -> touches S (sys_unlink b m dir).
Proof.
  intros Hs w r w' E d n Hn. pose proof (unlink_law _ _ _ _ _ _ E) as K.
  destruct r; [|by apply K]. apply K. intros [= -> ->]. done.
Qed.
Lemma touches_create (S : Z -> bytes -> Prop) b m : S b m -> touches S (sys_create b m).
Proof.
  intros Hs w r w' E d n Hn. pose proof (create_law _ _ _ _ _ E) as K.
  destruct r; [|by apply K]. destruct K as [_ K]. apply K. intros [= -> ->]. done.
Qed.
Lemma touches_mkdir (S : Z -> bytes -> Prop) b m : S b m -> touches S (sys_mkdir b m).
Proof.
  intros Hs w r w' E d n Hn. pose proof (mkdir_law _ _ _ _ _ E) as K.
  destruct r; [|by apply K]. destruct K as (_ & i & _ & _ & _ & K). apply K. intros [= -> ->]. done.
Qed.
Lemma touches_rename (S : Z -> bytes -> Prop) b m b' m' :
  S b m -> S b' m' -> touches S (sys_rename b m b' m').
Proof.
  intros Hs Hs' w r w' E d n Hn. pose proof (rename_law _ _ _ _ _ _ _ E) as K.
  destruct r; [|by apply K]. destruct K as (e & _ & _ & _ & K).
  apply K; intros [= -> ->]; done.
Qed.
Lemma touches_write (S : Z -> bytes -> Prop) b m data : S b m -> touches S (sys_write b m data).
Proof.
  intros Hs w r w' E d n Hn. apply (write_law _ _ _ _ _ _ E). intros [= -> ->]. done.
Qed.

End Reasoning.

Create HintDb touches.
#[export] Hint Resolve only_self either_l either_r touches_ret touches_err touches_fsync touches_fstat touches_read
  touches_fchmod touches_open touches_opendir touches_readdir touches_try_lock touches_open_create touches_unlink touches_create
  touches_mkdir touches_rename touches_write : touches.

(** Decides what a computation changes, call by call. *)
Ltac touches :=
  repeat first
    [ progress cbv beta
    | solve [auto with touches]
    | apply touches_bind; [|intros ?]
    | apply touches_match; [|first [intros [?|[]] | intros [?|?] | intros ?]]
    | match goal with |- touches _ (match ?x with _ => _ end) => destruct x end
    | match goal with |- touches _ (if ?b then _ else _) => destruct b end ].

(** ** What the operations change *)

Section Frames.
Context `{HP : Posix, HL : !PosixLaws}.

Lemma touches_component S n : touches S (component n).
Proof. unfold component. touches. Qed.
Hint Resolve touches_component : touches.

Lemma touches_child S d n : touches S (child d n false).
Proof. unfold child. touches. Qed.
Hint Resolve touches_child : touches.
Lemma touches_child_create (S : Z -> bytes -> Prop) d n : S d n -> touches S (child d n true).
Proof. intros Hs. unfold child, dir_sync. touches. Qed.
Lemma touches_same_inode S a b : touches S (same_inode a b).
Proof. unfold same_inode. touches. Qed.
Hint Resolve touches_same_inode : touches.
Lemma touches_read_file S d n : touches S (read_file d n).
Proof. unfold read_file, regular. touches. Qed.
Hint Resolve touches_read_file : touches.
Lemma touches_read_state S d n l : touches S (read_state d n l).
Proof. unfold read_state, single_link. touches. Qed.
Lemma touches_lock (S : Z -> bytes -> Prop) d n : S d n -> touches S (lock d n).
Proof. intros Hs. unfold lock, regular, single_link. touches. Qed.
Lemma touches_make_private S : touches S make_private.
Proof. unfold make_private, dir_sync. touches. Qed.
Lemma touches_dir_unlink (S : Z -> bytes -> Prop) d n b : S d n -> touches S (unlink d n b).
Proof. intros Hs. unfold unlink. touches. Qed.
Hint Resolve touches_dir_unlink : touches.
Lemma touches_dir_sync S : touches S dir_sync.
Proof. unfold dir_sync. touches. Qed.
Hint Resolve touches_dir_sync : touches.
Lemma touches_discard (S : Z -> bytes -> Prop) d n : S d n -> touches S (discard_owned d n).
Proof. intros Hs. unfold discard_owned, single_link. touches. Qed.
Lemma touches_drop_stage (S : Z -> bytes -> Prop) d n : S d n -> touches S (drop_stage d n).
Proof. intros Hs. unfold drop_stage. touches. Qed.
Hint Resolve touches_drop_stage touches_discard : touches.
Lemma touches_stage_named (S : Z -> bytes -> Prop) d n : S d n -> touches S (stage_named d n).
Proof. intros Hs. unfold stage_named. touches. Qed.
Hint Resolve touches_stage_named : touches.
Lemma touches_install (S : Z -> bytes -> Prop) d st d' n :
  S d st -> S d' n -> touches S (install_in d st d' n).
Proof. intros Hs Hs'. unfold install_in. touches. Qed.
Hint Resolve touches_install : touches.
Lemma touches_write_state (S : Z -> bytes -> Prop) d n data :
  S d PENDING -> S d n -> touches S (write_state d n data).
Proof. intros Hp Hn. unfold write_state, stage_named, with_stage. touches. Qed.
Lemma touches_refuse_private S d n : touches S (refuse_private d n).
Proof. unfold refuse_private. touches. Qed.
Hint Resolve touches_refuse_private : touches.
Lemma touches_parent_loop S d parts : touches S (parent_loop d parts false).
Proof.
  revert d. induction parts as [|[] parts IH]; intros d; simpl; touches.
Qed.

End Frames.

#[export] Hint Resolve touches_component touches_child touches_child_create touches_same_inode
  touches_read_file touches_read_state touches_dir_unlink touches_dir_sync touches_discard
  touches_drop_stage touches_stage_named touches_install touches_write_state touches_refuse_private
  touches_parent_loop touches_lock touches_make_private : touches.

(** ** What the operations do *)

(** Opens [H : m w = (r, w')] into the calls that were made. *)
Ltac io_inv H :=
  let K := fresh "K" in
  lazymatch type of H with
  | io_bind _ _ _ = (_, _) =>
      apply io_bind_inv in H as [(? & ? & K & H)|(? & K & ?)]; [io_inv K; io_inv H|io_inv K]
  | io_match _ _ _ = (_, _) =>
      apply io_match_inv in H as (? & ? & K & H); io_inv K; io_inv H
  | io_ret _ _ = (_, _) => unfold io_ret in H; injection H as ? ?; try subst
  | io_err _ _ = (_, _) => unfold io_err in H; try discriminate H; injection H as ? ?; try subst
  | (match ?x with _ => _ end) _ = (_, _) =>
      let E := fresh "E" in destruct x eqn:E; io_inv H
  | _ => idtac
  end.

Section Specs.
Context `{HP : Posix, HL : !PosixLaws}.

Lemma component_ok n w u w' :
  component n w = (Ok u, w') -> path_components n = [Normal n] /\ w' = w.
Proof. unfold component. intros H. io_inv H. by b2p. Qed.

Lemma look_frame {E A} (m : ioe E A) w r w' d n :
  m w = (r, w') -> touches nothing m -> look w' d n = look w d n.
Proof. intros E1 T. apply (T _ _ _ E1). by intros []. Qed.

(** Replaces the calls that were made by what their laws say. *)
Ltac io_laws :=
  repeat match goal with
  | K : component _ _ = (Ok _, _) |- _ => apply component_ok in K as [? ->]
  | K : sys_open _ _ _ = (Ok _, _) |- _ => apply open_law in K as [? K]
  | K : sys_opendir _ _ _ = (Ok _, _) |- _ => apply opendir_law in K as [? K]
  | K : sys_fstat _ = _ |- _ => apply fstat_law in K as [K ?]
  | K : sys_fsync _ = _ |- _ => apply fsync_law in K
  | K : sys_read _ = _ |- _ => apply read_law in K as [K ?]
  | K : sys_rename _ _ _ _ _ = _ |- _ => apply rename_law in K
  | K : sys_unlink _ _ _ _ = _ |- _ => apply unlink_law in K
  | K : sys_create _ _ _ = _ |- _ => apply create_law in K
  | K : sys_mkdir _ _ _ = _ |- _ => apply mkdir_law in K
  | K : sys_write _ _ _ _ = _ |- _ => apply write_law in K
  end.

Lemma child_ok d n w i w' :
  child d n false w = (Ok i, w') ->
  look w d n = Some (EDir i) /\ path_components n = [Normal n].
Proof. unfold child. intros H. io_inv H; try done. by io_laws. Qed.

Lemma read_file_ok d n w h w' :
  read_file d n w = (Ok h, w') ->
  exists c l, h = EFile c l /\ look w d n = Some (EFile c l).
Proof. unfold read_file, regular. intros H. io_inv H; try done; subst. io_laws. eauto. Qed.

Lemma read_state_ok d n l w data w' :
  read_state d n l w = (Ok data, w') ->
  exists c, look w d n = Some (EFile c 1) /\ data = take (Z.to_nat (l + 1)) c.
Proof.
  unfold read_state, single_link. intros H. io_inv H; try done; subst;
    match goal with K : read_file _ _ _ = _ |- _ => apply read_file_ok in K as (c & k & ? & L) end;
    simplify_eq; eauto.
Qed.

(** A rename installs the staged entry or changes nothing at the destination. *)
Lemma read_state_not_found d n l w w' :
  read_state d n l w = (Err NotFound, w') -> look w d n = None.
Proof.
  unfold read_state, read_file, regular, single_link. intros H.
  io_inv H; simplify_eq; io_laws; try done.
  - apply open_law in K1 as [_ K1]. by apply K1.
  - match goal with C : component _ _ = _ |- _ => unfold component in C; by destruct (bool_decide _) end.
Qed.

Lemma install_in_spec d st d' n w r w' :
  (d, st) <> (d', n) -> install_in d st d' n w = (r, w') ->
  (look w d st <> None /\ look w' d' n = look w d st)
  \/ (look w' d' n = look w d' n /\ exists e, r = Err e).
Proof.
  intros Hne. unfold install_in. intros H.
  apply io_match_inv in H as (r1 & w1 & K & H). destruct r1 as [[]|e].
  - left. io_inv K; try done. io_laws.
    match goal with R : exists e, _ |- _ => destruct R as (e & R1 & R2 & _) end.
    match goal with F : same_entries w _ |- _ => rewrite F in R1 end.
    assert (F : look w' d' n = look w1 d' n).
    { eapply (look_frame _ _ _ _ _ _ H). touches. }
    rewrite F, R1. naive_solver.
  - right. assert (F1 : look w1 d' n = look w d' n).
    { apply io_bind_inv in K as [(u & w0 & C & K)|(e' & C & [= <-])].
      2:{ apply (look_frame _ _ _ _ _ _ C). touches. }
      apply component_ok in C as [_ ->].
      apply io_bind_inv in K as [(u' & w0 & C & K)|(e' & C & [= <-])]; io_laws; [|by rewrite C].
      by rewrite K, C. }
    rewrite <-F1. apply io_bind_inv in H as [(u & w2 & D & H)|(e' & D & ->)]; [io_inv H|];
      (split; [|eauto]);
      eapply (touches_drop_stage (only d st) d st); try done; intros [-> ->]; by apply Hne.
Qed.

(** A private file holds its old content or, when the call may have succeeded, the new
    one; never a part of it. *)
Lemma write_state_spec d n data w r w' :
  n <> PENDING -> write_state d n data w = (r, w') ->
  look w' d n = Some (EFile data 1) \/ (look w' d n = look w d n /\ exists e, r = Err e).
Proof.
  intros Hn. unfold write_state. intros H.
  assert (Hne : (d, PENDING) <> (d, n)) by congruence.
  apply io_bind_inv in H as [(u1 & w1 & K1 & H)|(e & K & ->)].
  2:{ right. split; [|eauto]. eapply (touches_discard (only d PENDING)); try done. by intros [_ ->]. }
  assert (F1 : look w1 d n = look w d n).
  { eapply (touches_discard (only d PENDING)); try done. by intros [_ ->]. }
  apply io_bind_inv in H as [(u2 & w2 & K2 & H)|(e & K & ->)].
  2:{ right. split; [|eauto]. rewrite <-F1.
      assert (T : touches (only d PENDING) (stage_named d PENDING)) by (unfold stage_named; touches).
      eapply T; [done|]. by intros [_ ->]. }
  unfold stage_named in K2. io_inv K2; [|done]. io_laws.
  destruct K2 as [_ [C2 F2]]. specialize (F2 d n ltac:(congruence)).
  assert (T : forall w r w', with_stage d PENDING (sys_write d PENDING data) w = (r, w') ->
                look w' d n = look w d n).
  { intros v s v' E. assert (T : touches (only d PENDING)
      (with_stage d PENDING (sys_write d PENDING data))) by (unfold with_stage; touches).
    eapply T; [done|]. by intros [_ ->]. }
  apply io_bind_inv in H as [(u3 & w3 & K3 & H)|(e & K3 & ->)].
  2:{ right. split; [|eauto]. rewrite (T _ _ _ K3). congruence. }
  apply install_in_spec in H as [[Hs H]|[H He]]; [| |done].
  - left. rewrite H. unfold with_stage in K3.
    apply io_match_inv in K3 as (r3 & w4 & K3 & K). destruct r3 as [[]|e].
    + io_inv K. by apply write_law in K3 as [_ K3]; apply K3 in C2.
    + io_inv K; done.
  - right. split; [|done]. rewrite H, (T _ _ _ K3). congruence.
Qed.

(** ** Walking below a root *)

(** Directories only appear: what was there stays, and what is new is a directory
    that nothing named before. *)
Definition grows (w w' : world) : Prop :=
  forall d n, look w' d n = look w d n
    \/ (look w d n = None
        /\ exists i, look w' d n = Some (EDir i) /\ forall b m, look w b m <> Some (EDir i)).

Lemma grows_same w w' : same_entries w w' -> grows w w'.
Proof. intros F d n. by left. Qed.

Lemma grows_look w w' d n e : grows w w' -> look w d n = Some e -> look w' d n = Some e.
Proof. intros G E. destruct (G d n) as [->|[K _]]; [done|congruence]. Qed.

Lemma grows_trans w1 w2 w3 : grows w1 w2 -> grows w2 w3 -> grows w1 w3.
Proof.
  intros G1 G2 d n. destruct (G2 d n) as [E|(N & i & E & F)].
  - rewrite E. apply G1.
  - right. destruct (G1 d n) as [E1|(N1 & j & E1 & _)]; [|congruence].
    split; [congruence|]. exists i. split; [done|]. intros b m K.
    by apply (F b m), (grows_look w1).
Qed.

(** [pre] leads from [d] to [p] through directories, none of which is the private
    state directory of its parent. *)
Fixpoint walks (w : world) (d : Z) (pre : list bytes) (p : Z) : Prop :=
  match pre with
  | [] => d = p
  | n :: pre => exists i, look w d n = Some (EDir i) /\ look w d STATE_DIR <> Some (EDir i)
                          /\ walks w i pre p
  end.

Lemma walks_grows w w' d pre p : grows w w' -> walks w d pre p -> walks w' d pre p.
Proof.
  intros G. revert d. induction pre as [|n pre IH]; intros d; simpl; [done|].
  intros (i & E & N & K). exists i. split_and!; [by eapply grows_look| |by apply IH].
  intros F. destruct (G d STATE_DIR) as [F'|(_ & j & F' & U)]; [congruence|].
  rewrite F' in F. injection F as ->. by apply (U d n).
Qed.

Lemma touches_same {E A} (m : ioe E A) w r w' :
  touches nothing m -> m w = (r, w') -> same_entries w w'.
Proof. intros T E1 d n. by eapply look_frame. Qed.

Lemma mkdir_grows d n w r w' : sys_mkdir d n w = (r, w') -> grows w w'.
Proof.
  intros K%mkdir_law. destruct r as [u|e]; [|by apply grows_same].
  destruct K as (N & i & _ & _ & U & E & F). intros b m.
  destruct (decide ((b, m) = (d, n))) as [[= -> ->]|Ne].
  - right. split; [done|]. by exists i.
  - left. by apply F.
Qed.

Lemma child_grows d n create w r w' : child d n create w = (r, w') -> grows w w'.
Proof.
  destruct create.
  2:{ intros E. eapply grows_same, touches_same; [|done]. touches. }
  unfold child. intros H. apply io_bind_inv in H as [(u & w1 & K & H)|(e & K & ->)].
  2:{ eapply grows_same, touches_same; [|done]. touches. }
  apply component_ok in K as [_ ->].
  apply io_bind_inv in H as [(u' & w2 & K & H)|(e & K & ->)].
  - apply io_match_inv in K as (r1 & w3 & M & K). apply mkdir_grows in M.
    apply (grows_trans _ w3); [done|]. apply (grows_trans _ w2); apply grows_same.
    + eapply touches_same; [|done]. destruct r1 as [|[]]; touches.
    + by apply opendir_law in H as [H _].
  - apply io_match_inv in K as (r1 & w3 & M & K). apply mkdir_grows in M.
    apply (grows_trans _ w3); [done|]. apply grows_same.
    eapply touches_same; [|done]. destruct r1 as [|[]]; touches.
Qed.

Lemma child_opened d n create w i w' :
  child d n create w = (Ok i, w') -> look w' d n = Some (EDir i).
Proof.
  unfold child. intros H. apply io_bind_inv in H as [(u & w1 & K & H)|(e & K & [=])].
  apply io_bind_inv in H as [(u' & w2 & K' & H)|(e & K' & [=])].
  apply opendir_law in H as [F H]. by rewrite F.
Qed.

Lemma child_not_found d n w w' :
  child d n false w = (Err NotFound, w') -> look w d n = None.
Proof.
  unfold child. intros H. apply io_bind_inv in H as [(u & w1 & K & H)|(e & K & [= <-])].
  - apply component_ok in K as [_ ->].
    apply io_bind_inv in H as [(u' & w2 & K' & H)|(e & K' & [= <-])]; [|by io_inv K'].
    io_inv K'. apply opendir_law in H as [_ H]. by apply H.
  - unfold component in K. by io_inv K.
Qed.

Lemma refuse_private_ok d next w u w' :
  refuse_private d next w = (Ok u, w') -> look w d STATE_DIR <> Some (EDir next).
Proof.
  unfold refuse_private. intros H. apply io_match_inv in H as (r1 & w1 & K & H).
  destruct r1 as [state|e].
  - apply child_ok in K as [E _]. unfold same_inode in H. io_inv H; try done.
    rewrite E. intros [= ->]. simplify_eq; b2p; done.
  - destruct e; io_inv H; try done. by apply child_not_found in K as ->.
Qed.

Lemma parent_loop_walks d parts create w p name w' :
  parent_loop d parts create w = (Ok (p, name), w') ->
  grows w w' /\ exists pre, parts = Normal <$> (pre ++ [name]) /\ walks w' d pre p.
Proof.
  revert d w. induction parts as [|part parts IH]; intros d w; [done|].
  destruct part; try done. destruct parts as [|q parts].
  { intros [= -> -> ->]. split; [by apply grows_same|]. by exists []. }
  intros H. change (io_bind (child d name0 create) (fun next =>
    io_bind (refuse_private d next) (fun _ => parent_loop next (q :: parts) create)) w
    = (Ok (p, name), w')) in H.
  apply io_bind_inv in H as [(i & w1 & K1 & H)|(e & _ & [=])].
  apply io_bind_inv in H as [(u & w2 & K2 & H)|(e & _ & [=])].
  assert (F : same_entries w1 w2) by (eapply touches_same; [|done]; touches).
  apply IH in H as (G & pre & -> & W). split.
  { apply (grows_trans _ w1); [by eapply child_grows|].
    apply (grows_trans _ w2); [by apply grows_same|done]. }
  exists (name0 :: pre). split; [done|]. exists i.
  assert (G1 : grows w1 w') by (apply (grows_trans _ w2); [by apply grows_same|done]).
  assert (W1 : walks w1 d [name0] i).
  { exists i. split_and!; [by eapply child_opened|by eapply refuse_private_ok|done]. }
  apply (walks_grows w1 w') in W1 as (? & E & N & ->); [|done]. done.
Qed.

(** C20: Whatever calls fail, the parent of a relative path is reached from the root only
    through held directories along the components of the path, none of them the
    private state directory under any spelling, and no entry that existed changes. *)
Theorem parent_confined root rel create w p name w' :
  parent root rel create w = (Ok (p, name), w') ->
  grows w w'
  /\ exists pre, path_components rel = Normal <$> (pre ++ [name]) /\ walks w' root pre p.
Proof. apply parent_loop_walks. Qed.

End Specs.

(** ** An in-memory world

    Entries by directory and name, and the failures of the coming calls: each call
    takes the next one; [None], or none left, lets it go through. *)

Record MemFs : Type := mkMem { mem : gmap (Z * bytes) Entry; faults : list (option IoError) }.

Definition mem_call {A} (body : gmap (Z * bytes) Entry -> result A IoError * gmap (Z * bytes) Entry)
    (w : MemFs) : result A IoError * MemFs :=
  match faults w with
  | Some e :: fs => (Err (if decide (e = NotFound) then OtherIo "i/o error" else e), mkMem (mem w) fs)
  | fs => let '(r, m) := body (mem w) in (r, mkMem m (tail fs))
  end.

Definition mem_inos (m : gmap (Z * bytes) Entry) : gset Z :=
  list_to_set ((fun x : (Z * bytes) * Entry => x.1.1) <$> map_to_list m)
  ∪ list_to_set (omap (fun x : (Z * bytes) * Entry =>
      match x.2 with EDir i => Some i | _ => None end) (map_to_list m)).

Definition mem_posix : Posix := {|
  world := MemFs;
  look w d n := mem w !! (d, n);
  sys_opendir d n := mem_call (fun m =>
    match m !! (d, n) with
    | Some (EDir i) => (Ok i, m)
    | Some _ => (Err (OtherIo "not a directory"), m)
    | None => (Err NotFound, m)
    end);
  sys_open d n := mem_call (fun m =>
    match m !! (d, n) with Some e => (Ok e, m) | None => (Err NotFound, m) end);
  sys_mkdir d n := mem_call (fun m =>
    match m !! (d, n) with
    | Some _ => (Err AlreadyExists, m)
    | None => (Ok tt, <[(d, n) := EDir (fresh ({[d]} ∪ mem_inos m))]> m)
    end);
  sys_create d n := mem_call (fun m =>
    match m !! (d, n) with
    | Some _ => (Err AlreadyExists, m)
    | None => (Ok tt, <[(d, n) := EFile [] 1]> m)
    end);
  sys_write d n data := mem_call (fun m =>
    match m !! (d, n) with
    | Some (EFile c l) => (Ok tt, <[(d, n) := EFile (c ++ data) l]> m)
    | _ => (Err (OtherIo "bad descriptor"), m)
    end);
  sys_rename d n d' n' := mem_call (fun m =>
    match m !! (d, n) with
    | Some e => (Ok tt, <[(d', n') := e]> (delete (d, n) m))
    | None => (Err NotFound, m)
    end);
  sys_unlink d n dir := mem_call (fun m =>
    match m !! (d, n) with
    | Some _ => (Ok tt, delete (d, n) m)
    | None => (Err NotFound, m)
    end);
  sys_readdir d := mem_call (fun m =>
    (Ok (omap (fun x : (Z * bytes) * Entry =>
      if x.1.1 =? d then Some x.1.2 else None) (map_to_list m)), m));
  sys_open_create d n := mem_call (fun m =>
    match m !! (d, n) with
    | Some e => (Ok e, m)
    | None => (Ok (EFile [] 1), <[(d, n) := EFile [] 1]> m)
    end);
  sys_try_lock d n := mem_call (fun m => (Ok tt, m));
  sys_fstat := mem_call (fun m => (Ok tt, m));
  sys_read := mem_call (fun m => (Ok tt, m));
  sys_fsync := mem_call (fun m => (Ok tt, m));
  sys_fchmod := mem_call (fun m => (Ok tt, m))
|}.

Lemma mem_inos_key m (d : Z) (n : bytes) e : m !! (d, n) = Some e -> d ∈ mem_inos m.
Proof.
  intros K%elem_of_map_to_list. apply elem_of_union_l, elem_of_list_to_set, list_elem_of_fmap.
  by exists ((d, n), e).
Qed.
Lemma mem_inos_dir m (d : Z) (n : bytes) i : m !! (d, n) = Some (EDir i) -> i ∈ mem_inos m.
Proof.
  intros K%elem_of_map_to_list. apply elem_of_union_r, elem_of_list_to_set, list_elem_of_omap.
  by exists ((d, n), EDir i).
Qed.

Lemma mem_call_inv {A} body w (r : result A IoError) w' :
  mem_call body w = (r, w') ->
  (exists e, r = Err e /\ e <> NotFound /\ mem w' = mem w) \/ body (mem w) = (r, mem w').
Proof.
  unfold mem_call. destruct (faults w) as [|[e|] fs].
  - destruct (body (mem w)) as [r1 m]. intros [= <- <-]. by right.
  - intros [= <- <-]. left. eexists. split; [done|]. split; [|done]. by destruct (decide _).
  - destruct (body (mem w)) as [r1 m]. intros [= <- <-]. by right.
Qed.

Lemma mem_posix_laws : @PosixLaws mem_posix.
Proof.
  split; unfold same_entries, entry_set; simpl.
  all: intros; match goal with K : mem_call _ _ = _ |- _ =>
    apply mem_call_inv in K as [(e & -> & Hn & E)|K] end; try (rewrite E); try done.
  all: try (split; [by intros; rewrite E|]; done).
  all: try (intros; congruence).
  all: try (inversion K; subst; congruence).
  all: try rename H into K.
  all: try (split; [done|congruence]).
  all: try (inversion K; subst; split; congruence).
  - destruct (mem w !! (d, n)) as [[]|] eqn:E; inversion K; subst; split; congruence.
  - destruct (mem w !! (d, n)) as [|] eqn:E; inversion K; subst; split; congruence.
  - destruct (mem w !! (d, n)) as [|] eqn:E; inversion K; [congruence|].
    split; [done|]. set (i := fresh _) in *.
    assert (F : i ∉ {[d]} ∪ mem_inos (mem w)) by apply is_fresh.
    exists i. apply not_elem_of_union in F as [F1 F2]. split_and!.
    + intros m. destruct (mem w !! (i, m)) eqn:G; [|done]. by apply mem_inos_key in G.
    + set_solver.
    + intros b m G. by apply mem_inos_dir in G.
    + by rewrite lookup_insert_eq.
    + intros d' n' Ne. by rewrite lookup_insert_ne.
  - destruct (mem w !! (d, n)) as [|] eqn:E; inversion K; [congruence|].
    split; [done|]. split; [by rewrite lookup_insert_eq|].
    intros d' n' Ne. by rewrite lookup_insert_ne.
  - split; [done|]. intros c Hc. exists 0%nat. by rewrite app_nil_r.
  - destruct (mem w !! (d, n)) as [[c l| |]|] eqn:E; inversion K; try done.
    all: try (split; [congruence|]; naive_solver).
    split; [intros; by rewrite lookup_insert_ne|]. intros c' [= -> ->]. by rewrite lookup_insert_eq.
  - destruct (mem w !! (d, n)) as [e|] eqn:E; inversion K; [|congruence].
    exists e. split_and!; [done|by rewrite lookup_insert_eq| |].
    + intros Ne. by rewrite lookup_insert_ne, lookup_delete_eq.
    + intros b m N1 N2. by rewrite lookup_insert_ne, lookup_delete_ne.
  - destruct (mem w !! (d, n)) as [e|] eqn:E; inversion K; [|split; congruence].
    split; [by rewrite lookup_delete_eq|]. intros. by rewrite lookup_delete_ne.
  - inversion K; subst. split; [congruence|]. intros n.
    rewrite list_elem_of_omap. split.
    + intros ([[b m] e] & In & Hb). simpl in Hb. destruct (Z.eqb_spec b d) as [->|]; [|done].
      injection Hb as ->. apply elem_of_map_to_list in In. eauto.
    + intros [e He]. exists ((d, n), e). split; [by apply elem_of_map_to_list|].
      simpl. by rewrite Z.eqb_refl.
  - destruct (mem w !! (d, n)) as [e|] eqn:E; inversion K; subst.
    + split; [congruence|]. left. congruence.
    + split; [by rewrite lookup_insert_eq|]. right. split; [done|].
      split; [by rewrite lookup_insert_eq|]. intros. by rewrite lookup_insert_ne.
Qed.

Lemma parent_confined_witness :
  let r := @parent mem_posix 1 (bs "a/b") true (mkMem ∅ []) in
  exists p, fst r = Ok (p, bs "b") /\ @grows mem_posix (mkMem ∅ []) (snd r)
    /\ exists pre, path_components (bs "a/b") = Normal <$> (pre ++ [bs "b"])
         /\ @walks mem_posix (snd r) 1 pre p.
Proof.
  intros r. assert (E : exists p, fst r = Ok (p, bs "b")) by (eexists; vm_compute; reflexivity).
  destruct E as [p E]. exists p. split; [done|].
  apply (@parent_confined mem_posix mem_posix_laws 1 (bs "a/b") true (mkMem ∅ []) p (bs "b") (snd r)).
  rewrite <-E. apply surjective_pairing.
Defined.
