(* ===== verification/Journal.v ===== *)
(** * The receive journal

    Models [src/crates/rds-sync/src/journal.rs]: the resumable state of one receive
    below the private directory of a sync root.  Chunks are stored as verified parts
    named by their hash, and the file is assembled from the parts and renamed over its
    destination.  All disk access goes through the confined operations; every call
    may fail.

    [stop] is the cancellation check: a read of a flag, asked again at every barrier.
    The chunks that [StreamCDC] cuts from an opened file are an argument. *)

From S2P Require Import Prelude Paths Net Crypto SyncProto Confined.

(** [blake3::Hash::to_hex]. *)
Definition hex (b : bytes) : bytes :=
  concat ((fun c => [digit_char (byte_val c / 16); digit_char (byte_val c mod 16)]) <$> b).

Definition ASSEMBLY : bytes := bs "assembly".
Definition MAX_COLLECTION_ENTRIES : Z := 4096.
Definition META_LIMIT : Z := 8 * 1024.

Record Meta : Type := mkMeta { me_rel_path : bytes; me_size : Z; me_root : bytes }.

#[export] Instance Meta_eq_dec : EqDecision Meta.
Proof. solve_decision. Defined.

Record Journal : Type := mkJournal {
  j_state : Z;
  j_id : bytes;
  j_dir : Z;
  j_parts : Z;
  j_dest_parent : Z;
  j_dest_state : Z;
  j_dest_name : bytes;
  j_dest_path : bytes;
  j_manifest : Manifest;
  j_have : gset Z;
  j_fetched : Z
}.

(** The conversion of [io::Error] by [?]. *)
Definition io_text (e : IoError) : string :=
  match e with
  | Interrupted => "interrupted"
  | NotFound => "not found"
  | AlreadyExists => "already exists"
  | WouldBlock => "would block"
  | PermissionDenied => "permission denied"
  | OtherIo m => m
  end.

(** [(0..chunks.len() as u32)]: a manifest that passed [check_manifest] fits. *)
Definition chunk_at (m : Manifest) (i : Z) : option Chunk :=
  if 0 <=? i then mf_chunks m !! Z.to_nat i else None.

Section Code.
Context `{HP : Posix, HB : Blake3, HM : Postcard Meta}.
Variable stop : world -> bool * world.

Definition lift {A} (m : io A) : ioe SyncError A :=
  fun w => let '(r, w) := m w in (map_err (fun e => Io (io_text e)) r, w).
Definition ask {E} : ioe E bool := fun w => let '(b, w) := stop w in (Ok b, w).

(** [check_stop]. *)
Definition check_stop : io unit :=
  let! b := ask in if b then io_err Interrupted else io_ret tt.

(** [remove_if_present]. *)
Definition remove_if_present (d : Z) (name : bytes) (directory : bool) : io unit :=
  io_match (unlink d name directory) (fun r =>
    match r with
    | Err NotFound => io_ret tt
    | Ok u => io_ret u
    | Err e => io_err e
    end).

(** ** Names *)

Definition is_hexdigit (c : ascii) : bool := is_some (to_digit 16 c).
Definition is_content_id (name : bytes) : bool := (zlen name =? 64) && forallb is_hexdigit name.

Definition scoped_id (rel root : bytes) : bytes :=
  bs "v2-" ++ hex root ++ bs "-" ++ hex (blake3_hash rel).

(** [str::split_once('-')]. *)
Fixpoint split_once_dash (s : bytes) : option (bytes * bytes) :=
  match s with
  | [] => None
  | c :: s =>
      if bool_decide (c = "-"%char) then Some ([], s) else
      match split_once_dash s with Some (a, b) => Some (c :: a, b) | None => None end
  end.
(** [str::strip_prefix]. *)
Definition strip_prefix (p s : bytes) : option bytes :=
  if bool_decide (take (length p) s = p) then Some (drop (length p) s) else None.

Definition is_journal_id (name : bytes) : bool :=
  is_content_id name
  || is_some_and (rest ← strip_prefix (bs "v2-") name; split_once_dash rest)
       (fun p : bytes * bytes => is_content_id p.1 && is_content_id p.2).

(** ** Metadata *)

(** [decode_meta]: the trailer is the hash of the body. *)
Definition decode_meta (body : bytes) : option Meta :=
  if zlen body <? 32 then None else
  let data := take (length body - 32) body in
  let trailer := drop (length body - 32) body in
  if negb (bool_decide (blake3_hash data = trailer)) then None else
  match from_bytes data with Ok m => Some m | Err _ => None end.

Definition read_meta (d : Z) : io (option Meta) :=
  io_match (read_state d (bs "meta") META_LIMIT) (fun r =>
    match r with
    | Ok body => io_ret (decode_meta body)
    | Err NotFound => io_ret None
    | Err e => io_err e
    end).

Definition write_meta (d : Z) (meta : Meta) : ioe SyncError unit :=
  match to_stdvec meta with
  | Err e => io_err (ManifestErr "meta encode")
  | Ok body => lift (write_state d (bs "meta") (body ++ blake3_hash body))
  end.

(** [select_journal]. *)
Definition select_journal (state : Z) (rel : bytes) (manifest : Manifest)
    : io (bytes * option Z) :=
  let name := scoped_id rel (mf_root manifest) in
  io_match (child state name false) (fun r =>
    match r with
    | Ok dir => io_ret (name, Some dir)
    | Err NotFound =>
        let legacy := hex (mf_root manifest) in
        io_match (child state legacy false) (fun r =>
          match r with
          | Ok dir =>
              io_match (read_meta dir) (fun r =>
                match r with
                | Ok (Some meta) =>
                    if bool_decide (me_rel_path meta = rel)
                       && bool_decide (me_root meta = mf_root manifest)
                       && (me_size meta =? mf_size manifest)
                    then io_ret (legacy, Some dir) else io_ret (name, None)
                | _ => io_ret (name, None)
                end)
          | Err _ => io_ret (name, None)
          end)
    | Err e => io_err e
    end).

(** ** Collecting superseded journals

    The budget of the enumeration is threaded through, also past an error. *)

Definition bio (A : Type) : Type := Z -> world -> (result A IoError * Z) * world.
Definition blift {A} (m : io A) : bio A := fun b w => let '(r, w) := m w in ((r, b), w).
Definition bbind {A B} (m : bio A) (k : A -> bio B) : bio B := fun b w =>
  let '((r, b), w) := m b w in
  match r with Ok a => k a b w | Err e => ((Err e, b), w) end.

(** [CollectionBudget::visit]. *)
Definition budget_visit : bio unit := fun b w =>
  let '(r, w) := check_stop w in
  match r with
  | Err e => ((Err e, b), w)
  | Ok _ => if b =? 0 then ((Err WouldBlock, b), w) else ((Ok tt, b - 1), w)
  end.

Fixpoint bvisit (visit : bytes -> bio unit) (names : list bytes) : bio unit :=
  match names with
  | [] => blift (io_ret tt)
  | n :: names => bbind (visit n) (fun _ => bvisit visit names)
  end.
Definition bvisit_children (d : Z) (visit : bytes -> bio unit) : bio unit :=
  bbind (blift (sys_readdir d)) (bvisit visit).

(** The callback over the parts in [collect_journal]; a name that is not UTF-8 is not
    a content id. *)
Definition collect_part (parts : Z) (part : bytes) : bio unit :=
  bbind budget_visit (fun _ =>
    if is_content_id part || bool_decide (part = PENDING)
    then blift (discard_owned parts part) else blift (io_ret tt)).

(** [collect_journal]. *)
Definition collect_journal (entry state : Z) (name : bytes) : bio unit :=
  bbind (blift check_stop) (fun _ =>
  bbind (fun b w =>
    let '(r, w) := child entry (bs "parts") false w in
    match r with
    | Err _ => ((Ok tt, b), w)
    | Ok parts =>
        bbind (bvisit_children parts (collect_part parts)) (fun _ =>
        blift (let! _ := check_stop in
               let! _ := dir_sync in
               remove_if_present entry (bs "parts") true)) b w
    end) (fun _ =>
  blift (let! _ := check_stop in
         let! _ := discard_owned entry PENDING in
         let! _ := discard_owned entry (bs "meta") in
         let! _ := dir_sync in
         let! _ := remove_if_present state name true in
         dir_sync))).

(** The journal a name of [collect_superseded] denotes, when it is superseded. *)
Definition superseded_entry (state : Z) (rel own current_root name : bytes) : io (option Z) :=
  if bool_decide (name = own) || negb (is_journal_id name) then io_ret None else
  io_match (child state name false) (fun r =>
    match r with
    | Err _ => io_ret None
    | Ok entry =>
        io_match (read_meta entry) (fun r =>
          match r with
          | Ok (Some meta) =>
              if bool_decide (me_rel_path meta = rel)
                 && negb (bool_decide (me_root meta = current_root))
                 && (bool_decide (hex (me_root meta) = name)
                     || bool_decide (scoped_id rel (me_root meta) = name))
              then io_ret (Some entry) else io_ret None
          | _ => io_ret None
          end)
    end).

(** The callback of [collect_superseded]. *)
Definition collect_name (state : Z) (rel own current_root name : bytes) : bio unit :=
  bbind budget_visit (fun _ =>
  bbind (blift (superseded_entry state rel own current_root name)) (fun s =>
    match s with
    | None => blift (io_ret tt)
    | Some entry => fun b w =>
        let '((r, b), w) := collect_journal entry state name b w in
        match r with
        | Ok _ => ((Ok tt, b), w)
        | Err e =>
            if bool_decide (e = Interrupted) || (bool_decide (e = WouldBlock) && (b =? 0))
            then ((Err e, b), w) else ((Ok tt, b), w)
        end
    end)).

(** [collect_superseded]. *)
Definition collect_superseded (state : Z) (rel own current_root : bytes) : io unit := fun w =>
  let '((r, b), w) :=
    bvisit_children state (collect_name state rel own current_root) MAX_COLLECTION_ENTRIES w in
  match r with
  | Err Interrupted => (Err Interrupted, w)
  | _ => (Ok tt, w)
  end.

(** ** The journal *)

(** [Journal::need]. *)
Definition need (j : Journal) : list Z :=
  filter (fun i => i ∉ j_have j) (index_range (zlen (mf_chunks (j_manifest j)))).

(** [Journal::complete] and [Journal::total]. *)
Definition complete (j : Journal) : bool :=
  bool_decide (size (j_have j) = length (mf_chunks (j_manifest j))).
Definition total (j : Journal) : Z := zlen (mf_chunks (j_manifest j)).

Definition with_have (j : Journal) (have : gset Z) (fetched : Z) : Journal :=
  mkJournal (j_state j) (j_id j) (j_dir j) (j_parts j) (j_dest_parent j) (j_dest_state j)
    (j_dest_name j) (j_dest_path j) (j_manifest j) have fetched.

(** [data.len() == c.len as usize && blake3::hash(&data) == c.hash]. *)
Definition verifies (c : Chunk) (data : bytes) : bool :=
  (zlen data =? ck_len c) && bool_decide (blake3_hash data = ck_hash c).

(** The loop of [Journal::rescan], which starts from an empty set. *)
Fixpoint rescan_loop (parts : Z) (cs : list Chunk) (i : Z) (have : gset Z)
    : ioe SyncError (gset Z) :=
  match cs with
  | [] => io_ret have
  | c :: cs =>
      let! _ := lift check_stop in
      io_match (read_state parts (hex (ck_hash c)) (ck_len c)) (fun r =>
        match r with
        | Ok data =>
            if verifies c data then rescan_loop parts cs (i + 1) ({[i]} ∪ have) else
            let! _ := lift (unlink parts (hex (ck_hash c)) false) in
            rescan_loop parts cs (i + 1) have
        | Err NotFound => rescan_loop parts cs (i + 1) have
        | Err e => io_err (Io (io_text e))
        end)
  end.
Definition rescan (j : Journal) : ioe SyncError Journal :=
  let! have := rescan_loop (j_parts j) (mf_chunks (j_manifest j)) 0 ∅ in
  io_ret (with_have j have (j_fetched j)).

(** The first loop of [Journal::seed_from_destination]: the missing indices by hash
    and length. *)
Fixpoint wanted_loop (cs : list Chunk) (i : Z) (have : gset Z)
    (wanted : gmap (bytes * Z) (list Z)) : ioe SyncError (gmap (bytes * Z) (list Z)) :=
  match cs with
  | [] => io_ret wanted
  | c :: cs =>
      let! _ := lift check_stop in
      wanted_loop cs (i + 1) have
        (if bool_decide (i ∈ have) then wanted
         else <[(ck_hash c, ck_len c) := default [] (wanted !! (ck_hash c, ck_len c)) ++ [i]]> wanted)
  end.

(** The second loop, over the chunks of the old destination. *)
Fixpoint seed_loop (parts : Z) (stream : list (result ChunkData IoError))
    (wanted : gmap (bytes * Z) (list Z)) (have : gset Z) : ioe SyncError (gset Z) :=
  match stream with
  | [] => io_ret have
  | chunk :: stream =>
      let! _ := lift check_stop in
      match chunk with
      | Err e => io_err (Io (io_text e))
      | Ok chunk =>
          let hash := blake3_hash (cd_data chunk) in
          match wanted !! (hash, cd_length chunk) with
          | None => seed_loop parts stream wanted have
          | Some indices =>
              let wanted := delete (hash, cd_length chunk) wanted in
              let! _ := lift (write_state parts (hex hash) (cd_data chunk)) in
              let have := list_to_set indices ∪ have in
              if bool_decide (wanted = ∅) then io_ret have
              else seed_loop parts stream wanted have
          end
      end
  end.

(** [Journal::seed_from_destination]; [stream] is what [StreamCDC] cuts from the old
    file. *)
Definition seed_from_destination (j : Journal) (stream : list (result ChunkData IoError))
    : ioe SyncError Journal :=
  let! wanted := wanted_loop (mf_chunks (j_manifest j)) 0 (j_have j) ∅ in
  if bool_decide (wanted = ∅) then io_ret j else
  let! have := seed_loop (j_parts j) stream wanted (j_have j) in
  io_ret (with_have j have (j_fetched j)).

(** [Journal::store]; an error leaves the journal as it was. *)
Definition store (j : Journal) (index : Z) (data : bytes) : ioe SyncError (bool * Journal) :=
  match chunk_at (j_manifest j) index with
  | None => io_err (ManifestErr "chunk index out of range")
  | Some c =>
      if negb (verifies c data) then io_err (ManifestErr "chunk failed BLAKE3 verification") else
      if bool_decide (index ∈ j_have j) then io_ret (false, j) else
      let! _ := lift (write_state (j_parts j) (hex (ck_hash c)) data) in
      io_ret (true, with_have j ({[index]} ∪ j_have j) (j_fetched j + 1))
  end.

(** The loop of [Journal::assemble_cancellable]; [root] is what the hasher was fed. *)
Fixpoint assemble_loop (j : Journal) (cs : list Chunk) (root : bytes) : ioe SyncError bytes :=
  match cs with
  | [] => io_ret root
  | c :: cs =>
      let! stopped := ask in
      if stopped : bool then io_err (ManifestErr "assembly canceled") else
      let! data := lift (read_state (j_parts j) (hex (ck_hash c)) (ck_len c)) in
      if negb (verifies c data) then io_err (ManifestErr "part changed before assembly") else
      let! _ := lift (sys_write (j_dest_state j) ASSEMBLY data) in
      assemble_loop j cs (root ++ data)
  end.

(** [Journal::cleanup]. *)
Definition cleanup (j : Journal) : io unit :=
  let! _ := visit_names (fun n => remove_if_present (j_parts j) n false)
              ((fun c => hex (ck_hash c)) <$> mf_chunks (j_manifest j)) in
  let! _ := dir_sync in
  let! _ := remove_if_present (j_dir j) (bs "meta") false in
  let! _ := remove_if_present (j_dir j) (bs "parts") true in
  let! _ := dir_sync in
  let! _ := remove_if_present (j_state j) (j_id j) true in
  dir_sync.

(** Writing the staged file: everything between [stage_named] and [install_in], after
    which a failure drops the stage. *)
Definition assemble_body (j : Journal) : ioe SyncError unit :=
  let! root := assemble_loop j (mf_chunks (j_manifest j)) [] in
  if negb (bool_decide (blake3_hash root = mf_root (j_manifest j)))
  then io_err (ManifestErr "assembled file failed root hash") else
  let! stopped := ask in
  if stopped : bool then io_err (ManifestErr "assembly canceled") else io_ret tt.

(** [Journal::assemble_cancellable]. *)
Definition assemble_cancellable (j : Journal) : ioe SyncError bytes :=
  if negb (complete j) then io_err (ManifestErr "assemble before complete") else
  let! stopped := ask in
  if stopped : bool then io_err (ManifestErr "assembly canceled") else
  let! _ := lift (stage_named (j_dest_state j) ASSEMBLY) in
  let! _ := io_match (assemble_body j) (fun r =>
    match r with
    | Ok _ => io_ret tt
    | Err e => io_match (drop_stage (j_dest_state j) ASSEMBLY) (fun _ => io_err e)
    end) in
  let! _ := lift (install_in (j_dest_state j) ASSEMBLY (j_dest_parent j) (j_dest_name j)) in
  io_match (cleanup j) (fun _ => io_ret (j_dest_path j)).

(** [Journal::open_cancellable]; [open_root] opens the configured root directory and
    [cdc] cuts an opened file. *)
Definition open_cancellable (open_root : io Z) (cdc : bytes -> list (result ChunkData IoError))
    (dest_dir rel_path : bytes) (manifest : Manifest) : ioe SyncError Journal :=
  let! _ := lift check_stop in
  match check_manifest manifest with
  | Err e => io_err e
  | Ok _ =>
  match check_rel_path rel_path with
  | Err e => io_err e
  | Ok rel =>
  let! _ := lift check_stop in
  let! root := lift open_root in
  let! state := lift (child root STATE_DIR true) in
  let! _ := lift make_private in
  let! _ := lift (lock state (bs "receive.lock")) in
  let! dest := lift (parent root rel true) in
  let! dest_state := lift (child dest.1 STATE_DIR true) in
  let! _ := lift make_private in
  let! same := lift (same_inode state dest_state) in
  let! _ := (if same then io_ret tt else lift (lock dest_state (bs "receive.lock"))) in
  let! _ := lift check_stop in
  let! _ := lift (discard_owned dest_state ASSEMBLY) in
  let! selected := lift (select_journal state rel manifest) in
  let! _ := lift (collect_superseded state rel selected.1 (mf_root manifest)) in
  let! _ := lift check_stop in
  let! existing := io_match (read_file dest.1 dest.2) (fun r =>
    match r with
    | Ok h => io_ret (Some h)
    | Err NotFound => io_ret None
    | Err e => io_err (Io (io_text e))
    end) in
  let! dir := match selected.2 with
              | Some dir => io_ret dir
              | None => lift (child state selected.1 true)
              end in
  let! parts := lift (child dir (bs "parts") true) in
  let! _ := lift (discard_owned parts PENDING) in
  let! _ := write_meta dir (mkMeta rel (mf_size manifest) (mf_root manifest)) in
  let! j := rescan (mkJournal state selected.1 dir parts dest.1 dest_state dest.2
                      (path_push dest_dir rel) manifest ∅ 0) in
  let! j := match existing with
            | Some (EFile c _) => seed_from_destination j (cdc c)
            | _ => io_ret j
            end in
  let! _ := lift check_stop in
  io_ret j
  end end.

End Code.

(** ** Names of parts *)

Lemma digit_char_inj a b :
  0 <= a < 16 -> 0 <= b < 16 -> digit_char a = digit_char b -> a = b.
Proof.
  intros Ha Hb E.
  assert (F : forallb (fun x => forallb (fun y =>
    negb (bool_decide (digit_char x = digit_char y)) || (x =? y)) (seqZ 0 16)) (seqZ 0 16) = true)
    by (vm_compute; reflexivity).
  rewrite forallb_forall in F. specialize (F a). rewrite <-list_elem_of_In, elem_of_seqZ in F.
  specialize (F ltac:(lia)). rewrite forallb_forall in F. specialize (F b).
  rewrite <-list_elem_of_In, elem_of_seqZ in F. specialize (F ltac:(lia)).
  rewrite bool_decide_eq_true_2 in F by done. by apply Z.eqb_eq in F.
Qed.

Lemma byte_val_bound c : 0 <= byte_val c < 256.
Proof. unfold byte_val. pose proof (N_ascii_bounded c). lia. Qed.
Lemma byte_val_inj a b : byte_val a = byte_val b -> a = b.
Proof. unfold byte_val. intros E. apply N_of_ascii_inj. lia. Qed.

Lemma hex_cons c b :
  hex (c :: b) = digit_char (byte_val c / 16) :: digit_char (byte_val c mod 16) :: hex b.
Proof. done. Qed.

Lemma hex_inj a b : hex a = hex b -> a = b.
Proof.
  revert b. induction a as [|x a IH]; intros [|y b]; rewrite ?hex_cons; try done.
  intros [= E1 E2 E3]. f_equal; [|by apply IH].
  pose proof (byte_val_bound x). pose proof (byte_val_bound y).
  apply digit_char_inj in E1; [|split; [by apply Z.div_pos; lia|apply Z.div_lt_upper_bound; lia]..].
  apply digit_char_inj in E2; [|by apply Z.mod_pos_bound..].
  apply byte_val_inj. rewrite (Z.div_mod (byte_val x) 16), (Z.div_mod (byte_val y) 16) by done.
  congruence.
Qed.

Lemma hex_length b : length (hex b) = (2 * length b)%nat.
Proof. induction b as [|c b IH]; [done|]. rewrite hex_cons. simpl. lia. Qed.

(** A part is never named like the staging file. *)
Lemma hex_not_pending b : hex b <> PENDING.
Proof. intros E. apply (f_equal length) in E. rewrite hex_length in E. simpl in E. lia. Qed.

(** ** What the operations change *)

Section Proofs.
Context `{HP : Posix, HL : !PosixLaws, HB : Blake3, HM : Postcard Meta}.
Variable stop : world -> bool * world.
Hypothesis stop_law : forall w b w', stop w = (b, w') -> same_entries w w'.

Lemma touches_lift {A} S (m : io A) : touches S m -> touches S (lift m).
Proof.
  intros T w r w'. unfold lift. destruct (m w) as [r1 w1] eqn:E. intros [= <- <-].
  by apply (T _ _ _ E).
Qed.
Lemma touches_ask {E} S : touches S (ask stop (E := E)).
Proof.
  intros w r w'. unfold ask. destruct (stop w) as [b w1] eqn:Es. intros [= <- <-] d n _.
  by apply (stop_law _ _ _ Es).
Qed.
Hint Resolve touches_lift touches_ask : touches.
Lemma touches_check_stop S : touches S (check_stop stop).
Proof. unfold check_stop. touches. Qed.
Hint Resolve touches_check_stop : touches.
Lemma touches_remove (S : Z -> bytes -> Prop) d n b : S d n -> touches S (remove_if_present d n b).
Proof. intros Hs. unfold remove_if_present. touches. Qed.
Hint Resolve touches_remove : touches.

Lemma touches_visit_names S visit names :
  Forall (fun n => touches S (visit n)) names -> touches S (visit_names visit names).
Proof. induction 1; simpl; touches. Qed.

(** The entries that belong to a journal: its parts and their staging file, the names
    of its directory, and its name in the state directory. *)
Definition own_entries (j : Journal) (d : Z) (n : bytes) : Prop :=
  (d = j_parts j /\ (n = PENDING \/ exists b, n = hex b))
  \/ (d = j_dir j /\ (n = bs "meta" \/ n = bs "parts"))
  \/ (d = j_state j /\ n = j_id j).

Lemma own_part j b : own_entries j (j_parts j) (hex b).
Proof. left. eauto. Qed.
Lemma own_pending j : own_entries j (j_parts j) PENDING.
Proof. left. eauto. Qed.
Lemma own_meta j : own_entries j (j_dir j) (bs "meta").
Proof. right. left. auto. Qed.
Lemma own_parts j : own_entries j (j_dir j) (bs "parts").
Proof. right. left. auto. Qed.
Lemma own_name j : own_entries j (j_state j) (j_id j).
Proof. right. right. auto. Qed.
Hint Resolve own_part own_pending own_meta own_parts own_name : touches.

Lemma touches_cleanup j : touches (own_entries j) (cleanup j).
Proof.
  unfold cleanup. touches. apply touches_visit_names, Forall_fmap, Forall_true.
  intros c. simpl. auto with touches.
Qed.

Lemma touches_store j i data : touches (own_entries j) (store j i data).
Proof. unfold store. touches. Qed.

(** ** Assembly *)

(** The content of an assembled file: verified chunks in order, with the root hash. *)
Definition chunks_content (cs : list Chunk) (content : bytes) : Prop :=
  exists datas, content = concat datas /\ Forall2 (fun c d => verifies c d = true) cs datas.
Definition file_content (m : Manifest) (content : bytes) : Prop :=
  chunks_content (mf_chunks m) content /\ blake3_hash content = mf_root m.

Lemma chunks_content_nil : chunks_content [] [].
Proof. by exists []. Qed.
Lemma chunks_content_cons c cs d content :
  verifies c d = true -> chunks_content cs content -> chunks_content (c :: cs) (d ++ content).
Proof. intros Hv (ds & -> & F). exists (d :: ds). split; [done|]. by constructor. Qed.

Lemma chunks_content_len cs content :
  chunks_content cs content -> zlen content = chunks_len cs.
Proof.
  intros (ds & -> & F). induction F as [|c d cs ds Hv F IH]; simpl; [done|].
  unfold verifies in Hv. b2p. rewrite zlen_app, IH. lia.
Qed.

Lemma lift_inv {A} (m : io A) w r w' :
  lift m w = (r, w') -> exists r0, m w = (r0, w') /\ r = map_err (fun e => Io (io_text e)) r0.
Proof. unfold lift. destruct (m w) as [r0 w0]. intros [= <- <-]. eauto. Qed.

Lemma lift_ok {A} (m : io A) w a w' : lift m w = (Ok a, w') -> m w = (Ok a, w').
Proof. intros (r0 & E & K)%lift_inv. by destruct r0; simplify_eq/=. Qed.

Lemma assemble_loop_ok j cs root w out w' :
  (forall b, (j_parts j, hex b) <> (j_dest_state j, ASSEMBLY)) ->
  look w (j_dest_state j) ASSEMBLY = Some (EFile root 1) ->
  assemble_loop stop j cs root w = (Ok out, w') ->
  look w' (j_dest_state j) ASSEMBLY = Some (EFile out 1)
  /\ exists content, out = root ++ content /\ chunks_content cs content.
Proof.
  intros Hne. revert root w. induction cs as [|c cs IH]; intros root w L H; simpl in H.
  { injection H as <- <-. split; [done|]. exists []. rewrite app_nil_r.
    split; [done|apply chunks_content_nil]. }
  apply io_bind_inv in H as [(b & w1 & K1 & H)|(e & _ & [=])]. destruct b; [by io_inv H|].
  apply io_bind_inv in H as [(d & w2 & K2 & H)|(e & _ & [=])].
  destruct (verifies c d) eqn:V; [|by io_inv H]. simpl in H.
  apply io_bind_inv in H as [(u & w3 & K3 & H)|(e & _ & [=])].
  assert (L2 : look w2 (j_dest_state j) ASSEMBLY = Some (EFile root 1)).
  { rewrite (look_frame _ _ _ _ _ _ K2), (look_frame _ _ _ _ _ _ K1); [done|touches..]. }
  apply lift_ok, write_law in K3 as [_ K3]. specialize (K3 _ L2). simpl in K3.
  apply IH in H as (L' & content & -> & C); [|done]. split; [by rewrite <-app_assoc in *|].
  exists (d ++ content). rewrite <-app_assoc. split; [done|]. by apply chunks_content_cons.
Qed.

(** The destination is in none of the directories the journal works in. *)
Definition dest_apart (j : Journal) : Prop :=
  ~ own_entries j (j_dest_parent j) (j_dest_name j)
  /\ (j_dest_parent j, j_dest_name j) <> (j_dest_state j, ASSEMBLY)
  /\ forall b, (j_parts j, hex b) <> (j_dest_state j, ASSEMBLY).

Lemma touches_assemble_loop j cs root :
  touches (only (j_dest_state j) ASSEMBLY) (assemble_loop stop j cs root).
Proof. revert root. induction cs as [|c cs IH]; intros root; simpl; touches. Qed.
Hint Resolve touches_assemble_loop : touches.
Lemma touches_assemble_body j : touches (only (j_dest_state j) ASSEMBLY) (assemble_body stop j).
Proof. unfold assemble_body. touches. Qed.

Lemma assemble_body_ok j w u w' :
  (forall b, (j_parts j, hex b) <> (j_dest_state j, ASSEMBLY)) ->
  look w (j_dest_state j) ASSEMBLY = Some (EFile [] 1) ->
  assemble_body stop j w = (Ok u, w') ->
  exists content, look w' (j_dest_state j) ASSEMBLY = Some (EFile content 1)
    /\ file_content (j_manifest j) content.
Proof.
  intros Hne L H. unfold assemble_body in H.
  apply io_bind_inv in H as [(out & w1 & K1 & H)|(e & _ & [=])].
  destruct (negb _) eqn:R; [by io_inv H|]. b2p.
  apply io_bind_inv in H as [(b & w2 & K2 & H)|(e & _ & [=])]. destruct b; io_inv H.
  apply assemble_loop_ok in K1 as (L1 & content & -> & C); [|done..].
  exists content. split; [|done]. by rewrite (look_frame _ _ _ _ _ _ K2) by touches.
Qed.

Lemma assemble_stage_fails j w e w' d n :
  (d, n) <> (j_dest_state j, ASSEMBLY) ->
  io_match (assemble_body stop j) (fun r =>
    match r with
    | Ok _ => io_ret tt
    | Err e => io_match (drop_stage (j_dest_state j) ASSEMBLY) (fun _ => io_err (A := unit) e)
    end) w = (e, w') -> look w' d n = look w d n.
Proof.
  intros Hne H.
  assert (T : touches (only (j_dest_state j) ASSEMBLY) (io_match (assemble_body stop j) (fun r =>
    match r with
    | Ok _ => io_ret tt
    | Err e => io_match (drop_stage (j_dest_state j) ASSEMBLY) (fun _ => io_err (A := unit) e)
    end))).
  { apply touches_match; [apply touches_assemble_body|intros [|]; touches]. }
  eapply T; [done|]. intros [-> ->]. by apply Hne.
Qed.

Lemma assemble_install j content w r w' :
  dest_apart j -> look w (j_dest_state j) ASSEMBLY = Some (EFile content 1) ->
  (let! _ := lift (install_in (j_dest_state j) ASSEMBLY (j_dest_parent j) (j_dest_name j)) in
   io_match (cleanup j) (fun _ => io_ret (j_dest_path j))) w = (r, w') ->
  look w' (j_dest_parent j) (j_dest_name j) = Some (EFile content 1)
  \/ (look w' (j_dest_parent j) (j_dest_name j) = look w (j_dest_parent j) (j_dest_name j)
      /\ is_ok r = false).
Proof.
  intros (Own & Hs & _) L H.
  apply io_bind_inv in H as [(u & w1 & K & H)|(e & K & ->)]; apply lift_inv in K as (r0 & K & E);
    apply install_in_spec in K as [[_ K]|[K [e' ->]]]; try (intros Eq; apply Hs; congruence);
    simplify_eq/=; try by rewrite K, L; left.
  - left. apply io_match_inv in H as (r1 & w2 & C & H). io_inv H.
    rewrite (touches_cleanup j _ _ _ C) by done. by rewrite K, L.
  - by right.
Qed.

(** C19: Whatever calls fail and whenever the transfer is cancelled, assembly leaves the
    destination either as it was or as a complete file whose chunks and root hash
    verify, and reports success only for the latter. *)
Theorem assemble_atomic j w r w' :
  dest_apart j ->
  assemble_cancellable stop j w = (r, w') ->
  let dest w := look w (j_dest_parent j) (j_dest_name j) in
  (exists content, dest w' = Some (EFile content 1)
     /\ file_content (j_manifest j) content
     /\ zlen content = chunks_len (mf_chunks (j_manifest j)))
  \/ (dest w' = dest w /\ is_ok r = false).
Proof.
  intros (Own & Hs & Hp) H. cbn zeta. unfold assemble_cancellable in H.
  destruct (complete j) eqn:Cm; simpl in H; [|by io_inv H; right].
  apply io_bind_inv in H as [(b & w1 & K1 & H)|(e & K1 & ->)].
  2:{ right. by rewrite (look_frame _ _ _ _ _ _ K1) by touches. }
  assert (F1 : same_entries w w1) by (eapply touches_same; [|done]; touches).
  destruct b; [io_inv H; right; by rewrite F1|].
  apply io_bind_inv in H as [(u & w2 & K2 & H)|(e & K2 & ->)].
  2:{ right. split; [|done]. rewrite <-F1.
      eapply (touches_lift (only (j_dest_state j) ASSEMBLY)); [|done|]; [touches|]. intros [E1 E2]. apply Hs. by rewrite E1, E2. }
  apply lift_ok in K2. unfold stage_named in K2. io_inv K2; [|done].
  apply create_law in K2 as [_ [C2 F2]]. specialize (F2 _ _ Hs).
  apply component_ok in K as [_ ->].
  apply io_bind_inv in H as [(u' & w3 & K3 & H)|(e & K3 & ->)].
  2:{ right. split; [|done]. rewrite <-F1, <-F2. by eapply assemble_stage_fails. }
  pose proof (assemble_stage_fails _ _ _ _ _ _ Hs K3) as F3.
  apply io_match_inv in K3 as (r3 & w4 & B & K3). destruct r3 as [[]|e].
  2:{ apply io_match_inv in K3 as (? & ? & _ & K3). by io_inv K3. }
  io_inv K3. destruct (assemble_body_ok _ _ _ _ Hp C2 B) as (content & L3 & Fc).
  assert (Hl : zlen content = chunks_len (mf_chunks (j_manifest j))) by (apply chunks_content_len, Fc).
  destruct (assemble_install j content w3 r w') as [D|[D Hr]]; [done..| |].
  - left. by exists content.
  - right. split; [|done]. congruence.
Qed.

(** ** Verified parts *)

(** Equal hashes mean equal lengths: what holds of the chunks of a file unless two of
    them collide. *)
Definition uniform (m : Manifest) : Prop :=
  forall c c', c ∈ mf_chunks m -> c' ∈ mf_chunks m -> ck_hash c = ck_hash c' -> ck_len c = ck_len c'.

Definition part_ok (w : world) (parts : Z) (c : Chunk) : Prop :=
  exists data, look w parts (hex (ck_hash c)) = Some (EFile data 1) /\ verifies c data = true.
Definition has_part (w : world) (m : Manifest) (parts : Z) (i : Z) : Prop :=
  exists c, chunk_at m i = Some c /\ part_ok w parts c.

(** Every index a journal claims to have is backed by a verified part. *)
Definition have_ok (w : world) (j : Journal) : Prop :=
  forall i, i ∈ j_have j -> has_part w (j_manifest j) (j_parts j) i.

Lemma chunk_at_elem m i c : chunk_at m i = Some c -> c ∈ mf_chunks m.
Proof. unfold chunk_at. destruct (0 <=? i); [|done]. apply list_elem_of_lookup_2. Qed.
Lemma chunk_at_range m i c : chunk_at m i = Some c -> 0 <= i < zlen (mf_chunks m).
Proof.
  unfold chunk_at, zlen. destruct (Z.leb_spec 0 i); [|done]. intros K%lookup_lt_Some. lia.
Qed.
Lemma chunk_at_some m i : 0 <= i < zlen (mf_chunks m) -> exists c, chunk_at m i = Some c.
Proof.
  unfold chunk_at, zlen. intros K. rewrite (proj2 (Z.leb_le _ _)) by lia.
  apply lookup_lt_is_Some. lia.
Qed.

Lemma verifies_uniform m c c' data :
  uniform m -> c ∈ mf_chunks m -> c' ∈ mf_chunks m -> ck_hash c = ck_hash c' ->
  verifies c data = true -> verifies c' data = true.
Proof. intros U H1 H2 E. unfold verifies. by rewrite (U c c'), E. Qed.

(** Storing verified bytes for one chunk keeps the parts of all. *)
Lemma part_write m parts c c' data w r w' :
  uniform m -> c ∈ mf_chunks m -> c' ∈ mf_chunks m -> verifies c data = true ->
  write_state parts (hex (ck_hash c)) data w = (r, w') ->
  part_ok w parts c' -> part_ok w' parts c'.
Proof.
  intros U Hc Hc' V K (d & L & V').
  destruct (decide (ck_hash c = ck_hash c')) as [E|N].
  - apply write_state_spec in K as [K|[K _]]; [| |apply hex_not_pending].
    + exists data. rewrite <-E. split; [done|]. by eapply (verifies_uniform m c).
    + exists d. rewrite <-E, K, E. done.
  - exists d. split; [|done]. rewrite <-L.
    eapply (touches_write_state
      (either (only parts PENDING) (only parts (hex (ck_hash c))))); [by left|by right|done|].
    intros [[_ E]|[_ E]]; [by apply (hex_not_pending (ck_hash c'))|].
    by apply hex_inj in E.
Qed.

Lemma part_written parts c data w w' u :
  verifies c data = true ->
  write_state parts (hex (ck_hash c)) data w = (Ok u, w') -> part_ok w' parts c.
Proof.
  intros V K. apply write_state_spec in K as [K|[_ [e [=]]]]; [|apply hex_not_pending].
  by exists data.
Qed.

(** A part that is read and verified is the stored file. *)
Lemma read_part parts c w data w' :
  0 <= ck_len c ->
  read_state parts (hex (ck_hash c)) (ck_len c) w = (Ok data, w') ->
  verifies c data = true <-> part_ok w parts c.
Proof.
  intros Hl (d & L & ->)%read_state_ok. split.
  - intros V. exists d. split; [done|]. unfold verifies in *. b2p. destruct V as [V1 V2].
    assert (T : take (Z.to_nat (ck_len c + 1)) d = d).
    { apply take_ge. unfold zlen in V1. rewrite length_take in V1. lia. }
    by rewrite T in *.
  - intros (d' & L' & V). rewrite L in L'. injection L' as <-.
    rewrite take_ge; [done|]. unfold verifies, zlen in V. b2p. lia.
Qed.

Lemma part_ok_frame w w' parts c : same_entries w w' -> part_ok w parts c <-> part_ok w' parts c.
Proof. intros F. unfold part_ok. by rewrite (F parts (hex (ck_hash c))). Qed.

(** [store] counts a chunk only once its verified bytes are on disk, and keeps what
    was counted, also when it fails. *)
Lemma store_keeps j i data w r w' :
  uniform (j_manifest j) -> have_ok w j -> store j i data w = (r, w') ->
  have_ok w' j
  /\ forall b j', r = Ok (b, j') ->
       have_ok w' j' /\ j_have j' = {[i]} ∪ j_have j /\ j_manifest j' = j_manifest j
       /\ j_fetched j' = (if b then j_fetched j + 1 else j_fetched j)
       /\ j' = with_have j (j_have j') (j_fetched j').
Proof.
  intros U Ho H. unfold store in H.
  destruct (chunk_at (j_manifest j) i) as [c|] eqn:C; [|by io_inv H].
  destruct (verifies c data) eqn:V; [|by io_inv H]. simpl in H.
  destruct (bool_decide (i ∈ j_have j)) eqn:I; b2p.
  { io_inv H. split; [done|]. intros b j' [= <- <-]. split_and!; try done; try (by destruct j); set_solver. }
  apply io_bind_inv in H as [(u & w1 & K & H)|(e & K & ->)].
  - apply lift_ok in K. io_inv H.
    assert (Ho' : have_ok w' j).
    { intros k Hk. destruct (Ho k Hk) as (c' & C' & P). exists c'. split; [done|].
      by apply (part_write (j_manifest j) _ c _ data w _ w' U (chunk_at_elem _ _ _ C)
        (chunk_at_elem _ _ _ C') V K). }
    split; [done|]. intros b j' [= <- <-]. split_and!; try done.
    intros k [->%elem_of_singleton|Hk]%elem_of_union; [|by apply Ho'].
    exists c. split; [done|]. by eapply part_written.
  - apply lift_inv in K as (r0 & K & _). split; [|done].
    intros k Hk. destruct (Ho k Hk) as (c' & C' & P). exists c'. split; [done|].
    by apply (part_write (j_manifest j) _ c _ data w _ w' U (chunk_at_elem _ _ _ C)
        (chunk_at_elem _ _ _ C') V K).
Qed.

(** ** Resuming *)

Lemma unlink_outcome d n b w r w' :
  unlink d n b w = (r, w') -> look w' d n = None \/ look w' d n = look w d n.
Proof.
  unfold unlink. intros H. apply io_bind_inv in H as [(u & w1 & K & H)|(e & K & ->)].
  - apply component_ok in K as [_ ->]. apply unlink_law in H.
    destruct r; [left; apply H|right; apply H].
  - right. apply (look_frame _ _ _ _ _ _ K). touches.
Qed.

Definition same_parts (m : Manifest) (parts : Z) (w w' : world) : Prop :=
  forall c, c ∈ mf_chunks m -> part_ok w' parts c <-> part_ok w parts c.

Lemma same_parts_trans m parts w1 w2 w3 :
  same_parts m parts w1 w2 -> same_parts m parts w2 w3 -> same_parts m parts w1 w3.
Proof. intros H1 H2 c Hc. etrans; [by apply H2|by apply H1]. Qed.
Lemma same_parts_frame m parts w w' : same_entries w w' -> same_parts m parts w w'.
Proof. intros F c _. symmetry. by apply part_ok_frame. Qed.

(** Dropping a part that does not verify loses no verified part. *)
Lemma unlink_bad_part m parts c w r w' :
  uniform m -> c ∈ mf_chunks m -> ~ part_ok w parts c ->
  unlink parts (hex (ck_hash c)) false w = (r, w') -> same_parts m parts w w'.
Proof.
  intros U Hc Np K c' Hc'. destruct (decide (ck_hash c = ck_hash c')) as [E|N].
  - assert (X : forall v, part_ok v parts c' -> part_ok v parts c).
    { intros v (d & L & V). exists d. rewrite E. split; [done|].
      by apply (verifies_uniform m c' c). }
    split; [|intros P; by apply X in P].
    intros (d & L & V). destruct (unlink_outcome _ _ _ _ _ _ K) as [F|F]; rewrite E in F.
    + congruence.
    + exists d. by rewrite <-F.
  - assert (F : look w' parts (hex (ck_hash c')) = look w parts (hex (ck_hash c'))).
    { eapply (touches_dir_unlink (only parts (hex (ck_hash c)))); [done|done|].
      intros [_ E]. by apply hex_inj in E. }
    unfold part_ok. by rewrite F.
Qed.

Lemma has_part_same m parts w w' i :
  same_parts m parts w w' -> has_part w' m parts i <-> has_part w m parts i.
Proof.
  intros S. unfold has_part. split; intros (c & C & P); exists c; (split; [done|]);
    by apply (S c (chunk_at_elem _ _ _ C)).
Qed.

(** The set of the indices below [i] that have a part. *)
Definition found (w : world) (m : Manifest) (parts i : Z) (have : gset Z) : Prop :=
  forall k, k ∈ have <-> k < i /\ has_part w m parts k.

Lemma found_same w w' m parts i have :
  same_parts m parts w w' -> found w m parts i have -> found w' m parts i have.
Proof. intros S F k. rewrite (F k). by rewrite (has_part_same m parts w w'). Qed.
Lemma found_step w m parts i have c :
  chunk_at m i = Some c -> part_ok w parts c -> found w m parts i have ->
  found w m parts (i + 1) ({[i]} ∪ have).
Proof.
  intros C P F k. rewrite elem_of_union, elem_of_singleton, (F k). split.
  - intros [->|[H1 H2]]; split; try lia; [by exists c|done].
  - intros [H1 H2]. destruct (decide (k = i)); [by left|]. right. split; [lia|done].
Qed.
Lemma found_skip w m parts i have c :
  chunk_at m i = Some c -> ~ part_ok w parts c -> found w m parts i have ->
  found w m parts (i + 1) have.
Proof.
  intros C P F k. rewrite (F k). split; intros [H1 H2]; (split; [|done]); [lia|].
  destruct (decide (k = i)) as [->|]; [|lia]. destruct H2 as (c' & C' & P'). congruence.
Qed.

Lemma chunk_at_split m i c cs :
  0 <= i -> mf_chunks m = take (Z.to_nat i) (mf_chunks m) ++ c :: cs ->
  chunk_at m i = Some c
  /\ mf_chunks m = take (Z.to_nat (i + 1)) (mf_chunks m) ++ cs.
Proof.
  intros Hi Hs. assert (L : length (take (Z.to_nat i) (mf_chunks m)) = Z.to_nat i).
  { apply (f_equal length) in Hs. rewrite length_app, length_take in Hs. simpl in Hs.
    rewrite length_take. lia. }
  assert (K : mf_chunks m !! Z.to_nat i = Some c).
  { rewrite Hs, lookup_app_r; rewrite L; [|done]. by rewrite Nat.sub_diag. }
  split.
  - unfold chunk_at. by rewrite (proj2 (Z.leb_le _ _)).
  - replace (Z.to_nat (i + 1)) with (S (Z.to_nat i)) by lia.
    rewrite (take_S_r _ _ c) by done. rewrite <-app_assoc. exact Hs.
Qed.

Lemma rescan_loop_exact m parts cs i have w have' w' :
  uniform m -> Forall (fun c => 0 <= ck_len c) (mf_chunks m) ->
  0 <= i -> mf_chunks m = take (Z.to_nat i) (mf_chunks m) ++ cs ->
  found w m parts i have ->
  rescan_loop stop parts cs i have w = (Ok have', w') ->
  same_parts m parts w w' /\ found w m parts (zlen (mf_chunks m)) have'.
Proof.
  intros U Hl. revert i have w. induction cs as [|c cs IH]; intros i have w Hi Hs Hh H; simpl in H.
  { io_inv H. split; [by apply same_parts_frame|].
    assert (Z.of_nat (length (mf_chunks m)) <= i).
    { rewrite app_nil_r in Hs. apply (f_equal length) in Hs. rewrite length_take in Hs. lia. }
    intros k. rewrite (Hh k). split; intros [H1 H2]; (split; [|done]).
    - destruct H2 as (c & C & _). by apply chunk_at_range in C as [_ C].
    - unfold zlen in H1. lia. }
  destruct (chunk_at_split _ _ _ _ Hi Hs) as [C Hs'].
  pose proof (chunk_at_elem _ _ _ C) as In.
  pose proof (proj1 (Forall_forall _ _) Hl c In) as Lc.
  apply io_bind_inv in H as [(u & w1 & K1 & H)|(e & _ & [=])].
  apply io_match_inv in H as (r2 & w2 & K2 & H).
  assert (S : same_parts m parts w w1 /\ same_parts m parts w1 w2).
  { split; apply same_parts_frame; eapply touches_same; try done; touches. }
  destruct S as [S1 S2]. pose proof (same_parts_trans _ _ _ _ _ S1 S2) as S.
  assert (Next : forall have2 w3, same_parts m parts w w3 -> found w3 m parts (i + 1) have2 ->
    rescan_loop stop parts cs (i + 1) have2 w3 = (Ok have', w') ->
    same_parts m parts w w' /\ found w m parts (zlen (mf_chunks m)) have').
  { intros have2 w3 S3 F3 H3. apply IH in H3 as [S' F']; [|lia|done|done].
    split; [by eapply same_parts_trans|]. intros k. rewrite (F' k). by rewrite (has_part_same m parts w w3). }
  destruct r2 as [data|e].
  - pose proof (read_part _ _ _ _ _ Lc K2) as R. rewrite <-(S1 c In) in R || rewrite (S1 c In) in R.
    destruct (verifies c data) eqn:V.
    + apply (Next _ _ S) in H; [done|]. apply (found_step _ _ _ _ _ c); [done|by apply S, R|].
      by apply (found_same w).
    + assert (Np : ~ part_ok w2 parts c) by (intros P; apply S, R in P; done).
      apply io_bind_inv in H as [(u' & w3 & K3 & H)|(e & _ & [=])]. apply lift_ok in K3.
      pose proof (unlink_bad_part _ _ _ _ _ _ U In Np K3) as S3.
      apply (Next _ w3) in H; [done|by eapply same_parts_trans|].
      apply (found_skip _ _ _ _ _ c); [done|by intros P%(S3 c In)|].
      apply (found_same w2); [done|]. by apply (found_same w).
  - assert (Np : e = NotFound -> ~ part_ok w2 parts c).
    { intros ->. apply read_state_not_found in K2. intros (d & L & _)%(S2 c In). congruence. }
    destruct e; try by io_inv H. apply (Next _ _ S) in H; [done|].
    apply (found_skip _ _ _ _ _ c); [done|by apply Np|]. by apply (found_same w).
Qed.

(** What [Forall typed] says of the lengths; every checked manifest satisfies it. *)
Definition lens_typed (m : Manifest) : Prop := Forall (fun c => 0 <= ck_len c) (mf_chunks m).

Lemma rescan_found j w j' w' :
  uniform (j_manifest j) -> lens_typed (j_manifest j) ->
  rescan stop j w = (Ok j', w') ->
  same_parts (j_manifest j) (j_parts j) w w'
  /\ j' = with_have j (j_have j') (j_fetched j)
  /\ forall i, i ∈ j_have j' <-> has_part w (j_manifest j) (j_parts j) i.
Proof.
  intros U Hl H. unfold rescan in H.
  apply io_bind_inv in H as [(have & w1 & K & H)|(e & _ & [=])]. io_inv H.
  apply (rescan_loop_exact (j_manifest j)) in K as [S F]; try done.
  - split_and!; try done. intros i. simpl. rewrite (F i). split; [tauto|]. intros P.
    split; [|done]. destruct P as (c & C & _). by apply chunk_at_range in C as [_ C].
  - intros k. split; [set_solver|]. intros [H1 (c & C & _)]. apply chunk_at_range in C. lia.
Qed.

Definition backed (w : world) (m : Manifest) (parts : Z) (have : gset Z) : Prop :=
  forall i, i ∈ have -> has_part w m parts i.
Definition wanted_ok (m : Manifest) (wanted : gmap (bytes * Z) (list Z)) : Prop :=
  forall h l ixs, wanted !! (h, l) = Some ixs ->
    ixs <> []
    /\ forall i, i ∈ ixs -> exists c, chunk_at m i = Some c /\ ck_hash c = h /\ ck_len c = l.

Lemma wanted_loop_ok m cs i have wanted w wanted' w' :
  0 <= i -> mf_chunks m = take (Z.to_nat i) (mf_chunks m) ++ cs -> wanted_ok m wanted ->
  wanted_loop stop cs i have wanted w = (Ok wanted', w') ->
  same_entries w w' /\ wanted_ok m wanted'.
Proof.
  revert i wanted w. induction cs as [|c cs IH]; intros i wanted w Hi Hs Hw H; simpl in H.
  { io_inv H. done. }
  destruct (chunk_at_split _ _ _ _ Hi Hs) as [C Hs'].
  apply io_bind_inv in H as [(u & w1 & K & H)|(e & _ & [=])].
  apply IH in H as [F W]; [|lia|done|].
  - split; [|done]. assert (F1 : same_entries w w1) by (eapply touches_same; [|done]; touches).
    intros d n. by rewrite F, F1.
  - case_bool_decide; [done|]. intros h l ixs E.
    apply lookup_insert_Some in E as [[Ek <-]|[_ E]]; [|by eapply Hw].
    injection Ek as <- <-. split; [by destruct (default _ _)|]. intros k.
    rewrite elem_of_app, list_elem_of_singleton. intros [Hk| ->]; [|eauto].
    destruct (wanted !! _) as [old|] eqn:E; [by eapply Hw|]. by apply not_elem_of_nil in Hk.
Qed.

Lemma seed_loop_ok m parts stream wanted have w have' w' :
  uniform m -> (forall c, Ok c ∈ stream -> cd_length c = zlen (cd_data c)) ->
  wanted_ok m wanted -> backed w m parts have ->
  seed_loop stop parts stream wanted have w = (Ok have', w') ->
  backed w' m parts have' /\ have ⊆ have'.
Proof.
  intros U. revert wanted have w. induction stream as [|x stream IH];
    intros wanted have w Hd Hw Hb H; simpl in H; [by io_inv H|].
  apply io_bind_inv in H as [(u & w1 & K & H)|(e & _ & [=])].
  assert (F1 : same_entries w w1) by (eapply touches_same; [|done]; touches).
  assert (Hb1 : backed w1 m parts have).
  { intros i Hi. rewrite (has_part_same m parts w w1); [by apply Hb|by apply same_parts_frame]. }
  destruct x as [d|e]; [|by io_inv H].
  destruct (wanted !! _) as [ixs|] eqn:E; [|eapply IH; eauto; set_solver].
  apply io_bind_inv in H as [(u' & w2 & K2 & H)|(e & _ & [=])]. apply lift_ok in K2.
  destruct (Hw _ _ _ E) as [Hne Hix].
  assert (V : forall i, i ∈ ixs -> exists c, chunk_at m i = Some c
              /\ verifies c (cd_data d) = true /\ ck_hash c = blake3_hash (cd_data d)).
  { intros i Hi. destruct (Hix i Hi) as (c & C & Eh & El). exists c. split_and!; [done| |done].
    unfold verifies. rewrite Eh, El, (Hd d) by (by left).
    rewrite Z.eqb_refl. by rewrite bool_decide_eq_true_2. }
  assert (Hb2 : backed w2 m parts (list_to_set ixs ∪ have)).
  { destruct ixs as [|i0 ixs]; [done|]. destruct (V i0) as (c0 & C0 & V0 & E0); [by left|].
    rewrite <-E0 in K2. intros i [Hi%elem_of_list_to_set|Hi]%elem_of_union.
    - destruct (V i Hi) as (c & C & Vc & Ec). exists c. split; [done|].
      rewrite E0, <-Ec in K2. by eapply part_written.
    - destruct (Hb1 i Hi) as (c & C & P). exists c. split; [done|].
      by apply (part_write m _ c0 _ _ _ _ _ U (chunk_at_elem _ _ _ C0) (chunk_at_elem _ _ _ C) V0 K2). }
  case_bool_decide.
  - io_inv H. split; [done|set_solver].
  - apply IH in H as [H1 H2]; [split; [done|set_solver]|set_solver| |done].
    intros h l ks Ek. apply lookup_delete_Some in Ek as [_ Ek]. by eapply Hw.
Qed.

Lemma seed_ok j stream w j' w' :
  uniform (j_manifest j) -> (forall c, Ok c ∈ stream -> cd_length c = zlen (cd_data c)) ->
  have_ok w j -> seed_from_destination stop j stream w = (Ok j', w') ->
  have_ok w' j' /\ j_have j ⊆ j_have j' /\ j' = with_have j (j_have j') (j_fetched j).
Proof.
  intros U Hd Ho H. unfold seed_from_destination in H.
  apply io_bind_inv in H as [(wanted & w1 & K & H)|(e & _ & [=])].
  apply (wanted_loop_ok (j_manifest j)) in K as [F W]; [|done|done|done].
  assert (Ho1 : have_ok w1 j).
  { intros i Hi. rewrite (has_part_same _ _ w w1); [by apply Ho|by apply same_parts_frame]. }
  case_bool_decide; [io_inv H; by destruct j'|].
  apply io_bind_inv in H as [(have & w2 & K2 & H)|(e & _ & [=])]. io_inv H.
  apply (seed_loop_ok (j_manifest j)) in K2 as [B S]; try done.
Qed.

(** Passes one successful step of [H]. *)
Ltac io_ok H K :=
  let a := fresh "a" in let v := fresh "v" in
  apply io_bind_inv in H as [(a & v & K & H)|(? & _ & [=])].

Lemma open_inv open_root cdc dest_dir rel_path m w j w' :
  open_cancellable stop open_root cdc dest_dir rel_path m w = (Ok j, w') ->
  check_manifest m = Ok tt
  /\ exists rel root w1 w2 j0 j1 w3 w4 w5,
       check_rel_path rel_path = Ok rel
       /\ parent root rel true w1 = (Ok (j_dest_parent j0, j_dest_name j0), w2)
       /\ j_manifest j0 = m /\ j_fetched j0 = 0 /\ rescan stop j0 w3 = (Ok j1, w4)
       /\ same_entries w5 w'
       /\ ((j1 = j /\ w5 = w4)
           \/ exists c, seed_from_destination stop j1 (cdc c) w4 = (Ok j, w5)).
Proof.
  intros H. unfold open_cancellable in H. io_ok H K0.
  destruct (check_manifest m) as [[]|] eqn:Cm; [|by io_inv H]. split; [done|].
  destruct (check_rel_path rel_path) as [rel|] eqn:Cr; [|by io_inv H].
  io_ok H K1. io_ok H K2. io_ok H K3. io_ok H K4. io_ok H K5. io_ok H K6. io_ok H K7.
  io_ok H K8. io_ok H K9. io_ok H K10. io_ok H K11. io_ok H K12. io_ok H K13. io_ok H K14.
  io_ok H K15. io_ok H K16. io_ok H K17. io_ok H K18. io_ok H K19. io_ok H K20.
  io_ok H K21. io_ok H K22. io_ok H K23. io_inv H.
  match type of K6 with lift (parent ?r _ _) ?v0 = (Ok ?a, ?v1) =>
    destruct a as [dp dn]; exists rel, r, v0, v1 end.
  match type of K21 with rescan _ ?j0 ?v0 = (Ok ?j1, ?v1) => exists j0, j1, v0, v1 end.
  match type of K23 with _ ?v0 = _ => exists v0 end.
  split_and!; try done; [by apply lift_ok in K6|eapply touches_same; [|done]; touches|].
  destruct a15 as [[]|]; [right; eauto|left; by io_inv K22..].
Qed.

Lemma open_claims open_root cdc dest_dir rel_path m w j w' :
  uniform m -> lens_typed m ->
  (forall c d, Ok d ∈ cdc c -> cd_length d = zlen (cd_data d)) ->
  open_cancellable stop open_root cdc dest_dir rel_path m w = (Ok j, w') ->
  have_ok w' j /\ j_manifest j = m /\ j_fetched j = 0 /\ check_manifest m = Ok tt
  /\ (exists rel root pre w2, check_rel_path rel_path = Ok rel
        /\ path_components rel = Normal <$> (pre ++ [j_dest_name j])
        /\ walks w2 root pre (j_dest_parent j))
  /\ (exists w3, forall i, has_part w3 m (j_parts j) i -> i ∈ j_have j).
Proof.
  intros U Hl Hd (Cm & rel & root & w1 & w2 & j0 & j1 & w3 & w4 & w5 & Cr & P & <- & F0 & R
    & F & S)%open_inv.
  destruct (rescan_found _ _ _ _ U Hl R) as (Sp & E1 & Hh).
  assert (O1 : have_ok w4 j1).
  { intros i Hi. apply Hh in Hi. rewrite E1. by rewrite (has_part_same _ _ w3 w4). }
  assert (J : j = with_have j0 (j_have j) 0 /\ j_have j1 ⊆ j_have j /\ have_ok w5 j).
  { destruct S as [[-> ->]|(c & S)]; [rewrite <-F0; done|].
    apply seed_ok in S as (O & Sub & E); [|by rewrite E1|by apply Hd|done].
    split_and!; try done. rewrite E, E1. simpl. by rewrite F0. }
  destruct J as (E & Sub & O). split_and!.
  - intros i Hi. destruct (O i Hi) as (c & C & Pt). exists c. split; [done|].
    by apply (part_ok_frame w5).
  - by rewrite E.
  - by rewrite E.
  - done.
  - apply parent_loop_walks in P as (_ & pre & E2 & W). exists rel, root, pre, w2.
    rewrite E. done.
  - exists w3. intros i Hi. rewrite E in Hi. by apply Sub, Hh.
Qed.

End Proofs.

(** ** A concrete journal *)

#[local] Existing Instance mem_posix.
#[local] Existing Instance mem_posix_laws.
#[local] Existing Instance toy_blake3.
Definition wit_open_manifest : Manifest :=
  mkFileManifest 3 (@blake3_hash toy_blake3 (bs "abc"))
    [mkChunk (@blake3_hash toy_blake3 (bs "abc")) 0 3].
#[local] Instance wit_meta_codec : Postcard Meta :=
  toy_postcard [(mkMeta (bs "d/f") 3 (mf_root wit_open_manifest), bs "meta")].
Definition wit_never (w : MemFs) : bool * MemFs := (false, w).
Definition wit_cdc (c : bytes) : list (result ChunkData IoError) := [Ok (mkChunkData c 0 (zlen c))].

Lemma wit_never_law : forall (w : MemFs) b w', wit_never w = (b, w') -> same_entries w w'.
Proof. by intros w b w' [= <- <-]. Qed.

(** The destination already has the content, which is reused. *)
Definition wit_open_world : MemFs :=
  mkMem (<[(1, bs "d") := EDir 7]> (<[(7, bs "f") := EFile (bs "abc") 1]> ∅)) [].


Definition wit_closed_journal : Journal :=
  mkJournal 2 (bs "id") 4 3 1 2 (bs "f") (bs "root/f") wit_open_manifest ∅ 0.

Lemma assemble_atomic_witness :
  match assemble_cancellable wit_never wit_closed_journal wit_open_world with
  | (r, w) => is_ok r = false /\ look w 1 (bs "f") = look wit_open_world 1 (bs "f")
  end.
Proof.
  assert (H : is_ok (fst (assemble_cancellable wit_never wit_closed_journal wit_open_world)) = false)
    by (vm_compute; reflexivity).
  assert (H2 : snd (assemble_cancellable wit_never wit_closed_journal wit_open_world) = wit_open_world)
    by (vm_compute; reflexivity).
  destruct (assemble_cancellable _ _ _) as [r w] eqn:K. split; [done|].
  destruct (assemble_atomic (HP := mem_posix) wit_never wit_never_law
    wit_closed_journal wit_open_world r w) as [(c & E & F & _)|[E _]]; [|exact K| |exact E].
  - split_and!; [|by intros [=]|by intros b [=]]. intros [[E _]|[[E _]|[E _]]]; by vm_compute in E.
  - cbn [snd] in H2. by rewrite H2.
Defined.
