(* ===== verification/Transfer.v ===== *)
(** * File transfers

    Models the data phases of [src/crates/rds-sync/src/engine.rs]: a holder announces
    the manifest of a file and sends the chunks the receiver asks for on several
    streams; the receiver collects the streams, stores the verified chunks in its
    journal and assembles the file.  A chunk stream is its bytes.  The control frames
    are the messages that [ControlFrames::next] yields, in order.

    The worker that stores chunks runs beside the collection; on the success path all
    queued chunks are stored before the journal is used, and when the collection fails
    it has stored some prefix of them, whose length is an argument. *)

From S2P Require Import Prelude Paths Crypto Frames SyncProto Confined Journal.

Section Code.
Context `{HP : Posix, HB : Blake3, HM : Postcard Meta, HS : Postcard SyncMsg}.
Variable stop : world -> bool * world.

(** [Wire::send] and [Wire::recv] on a stream. *)
Definition wire_send (wire : Wire) (msg : SyncMsg) : result bytes string :=
  write_frame (wire_frame wire msg).
Definition wire_recv (wire : Wire) (s : bytes) : result (SyncMsg * bytes) string :=
  let? (msg, s) := read_frame s in
  let? msg := wire_decode wire msg in
  Ok (msg, s).

(** ** The manifest on the control stream *)

(** [<[T]>::chunks]. *)
Fixpoint chunks_fuel {A} (fuel n : nat) (l : list A) : list (list A) :=
  match fuel, l with
  | S fuel, _ :: _ => take n l :: chunks_fuel fuel n (drop n l)
  | _, _ => []
  end.
Definition chunks_of {A} (n : Z) (l : list A) : list (list A) :=
  chunks_fuel (length l) (Z.to_nat n) l.

(** [send_manifest]: the messages it sends; the count is a [u32]. *)
Definition send_manifest (rel : bytes) (m : Manifest) : list SyncMsg :=
  Offer rel (mf_size m) (mf_root m) (zlen (mf_chunks m) mod 2 ^ 32)
  :: (ManifestPart <$> chunks_of MANIFEST_BATCH (mf_chunks m)).

(** The loop of [read_manifest] over the control frames. *)
Fixpoint manifest_parts (chunk_count : Z) (chunks : list Chunk) (frames : list SyncMsg)
    : result (list Chunk * list SyncMsg) string :=
  if chunk_count <=? zlen chunks then Ok (chunks, frames) else
  match frames with
  | [] => Err "sync control stream closed"%string
  | ManifestPart part :: frames =>
      if bool_decide (part = []) || (MANIFEST_BATCH <? zlen part)
         || (chunk_count - zlen chunks <? zlen part)
      then Err "invalid ManifestPart batch length"%string
      else manifest_parts chunk_count (chunks ++ part) frames
  | Refuse reason :: _ => Err "refused"%string
  | Cancel reason :: _ => Err "sender canceled mid-manifest"%string
  | _ :: _ => Err "expected ManifestPart"%string
  end.

(** [read_manifest]. *)
Definition read_manifest (wire : Wire) (size : Z) (root : bytes) (chunk_count : Z)
    (frames : list SyncMsg) : result (Manifest * list SyncMsg) string :=
  if MAX_CHUNKS <? chunk_count then Err "manifest too large"%string else
  if is_v2 wire && (sl_max_chunks (wr_limits wire) <? chunk_count)
  then Err "manifest exceeds negotiated chunk bound"%string else
  let? (chunks, frames) := manifest_parts chunk_count [] frames in
  if negb (zlen chunks =? chunk_count) then Err "manifest overrun"%string else
  let m := mkFileManifest size root chunks in
  let? _ := map_err (fun _ => "manifest malformed"%string) (check_manifest m) in
  if is_v2 wire && existsb (fun c => sl_max_chunk (wr_limits wire) <? ck_len c) (mf_chunks m)
  then Err "manifest chunk exceeds negotiated bound"%string else
  Ok (m, frames).

(** ** Sending chunks *)

(** [indices.iter().skip(k).step_by(width)]: every [width]-th element after [wait]. *)
Fixpoint step_by (width wait : nat) (l : list Z) : list Z :=
  match l with
  | [] => []
  | x :: l => match wait with
              | O => x :: step_by width (pred width) l
              | S wait => step_by width wait l
              end
  end.

(** The chunk at [index], sent as a header and its bytes; [file] is the content of the
    pinned source.  Indexing the manifest out of range would panic. *)
Definition push_chunk (wire : Wire) (m : Manifest) (file : bytes) (index : Z)
    : result bytes string :=
  let? c := ok_or (chunk_at m index) "index out of bounds"%string in
  if zlen file <? ck_offset c + ck_len c then Err "failed to fill whole buffer"%string else
  let? hdr := wire_send wire (ChunkHdr index (ck_hash c) (ck_len c)) in
  Ok (hdr ++ slice file (ck_offset c) (ck_len c)).

(** One batch: the [ChunkSet] frame, then its chunks. *)
Definition push_batch (wire : Wire) (m : Manifest) (file : bytes) (batch : list Z)
    : result bytes string :=
  let? set := wire_send wire (ChunkSet batch) in
  let? body := try_map (push_chunk wire m file) batch in
  Ok (set ++ concat body).

(** The task of [push_chunks] for one stream, after the tag that routes it. *)
Definition push_stream (wire : Wire) (m : Manifest) (file : bytes) (mine : list Z)
    : result bytes string :=
  let? body := try_map (push_batch wire m file) (chunks_of CHUNKSET_BATCH mine) in
  let? fin := wire_send wire SetDone in
  Ok (concat body ++ fin).

(** [push_chunks]: the streams it opens; a share without indices opens none. *)
Definition push_chunks (wire : Wire) (m : Manifest) (file : bytes) (indices : list Z)
    : result (list bytes) string :=
  let width := Z.to_nat (sl_fetch_streams (wr_limits wire)) in
  try_map (push_stream wire m file)
    (filter (fun mine => mine <> []) ((fun k => step_by width k indices) <$> seq 0 width)).

(** The watcher of [push_chunks]: what the control stream brings while the chunk tasks
    still run, when anything does ([took]); an early [Done] is handed on. *)
Definition push_watch (took : bool) (frames : list SyncMsg)
    : result (option bytes * list SyncMsg) string :=
  if took then
    match frames with
    | Done root :: frames => Ok (Some root, frames)
    | _ => Err "receiver aborted chunk push"%string
    end
  else Ok (None, frames).

(** [recv_done]. *)
Definition recv_done (early : option bytes) (frames : list SyncMsg) (expected : bytes)
    : result unit string :=
  let? msg := match early with
              | Some root => Ok (Done root)
              | None => ok_or (head frames) "sync control stream closed"%string
              end in
  match msg with
  | Done root =>
      if bool_decide (root = expected) then Ok tt
      else Err "receiver acknowledged a different manifest root"%string
  | Refuse _ => Err "receiver refused"%string
  | Cancel _ => Err "receiver canceled transfer"%string
  | _ => Err "expected Done"%string
  end.

(** ** Collecting chunks *)

(** The indices still expected, the chunks queued for the journal, their bytes. *)
Record Collect : Type := mkCollect {
  co_requested : gset Z;
  co_jobs : list (Z * bytes);
  co_bytes : Z
}.

(** The loop over the indices of one [ChunkSet]: the rest of the stream. *)
Fixpoint collect_set (wire : Wire) (m : Manifest) (indices : list Z) (s : bytes) (st : Collect)
    : result bytes string * Collect :=
  match indices with
  | [] => (Ok s, st)
  | index :: indices =>
      if negb (bool_decide (index ∈ co_requested st))
      then (Err "duplicate or unrequested chunk"%string, st) else
      let st := mkCollect (co_requested st ∖ {[index]}) (co_jobs st) (co_bytes st) in
      match wire_recv wire s with
      | Err e => (Err e, st)
      | Ok (ChunkHdr i hash len, s) =>
          if negb (i =? index) then (Err "chunk stream out of order"%string, st) else
          if negb (is_some_and (chunk_at m i)
                     (fun c => (ck_len c =? len) && bool_decide (ck_hash c = hash)))
          then (Err "chunk header disagrees with manifest"%string, st) else
          match read_exact (Z.to_nat len) s with
          | Err e => (Err "chunk body read"%string, st)
          | Ok (buf, s) =>
              collect_set wire m indices s
                (mkCollect (co_requested st) (co_jobs st ++ [(i, buf)]) (co_bytes st + len))
          end
      | Ok _ => (Err "expected ChunkHdr"%string, st)
      end
  end.

(** The loop over one stream; every round reads a frame, so the fuel of the caller is
    never used up. *)
Fixpoint collect_stream (fuel : nat) (wire : Wire) (m : Manifest) (s : bytes)
    (stream_chunks : Z) (st : Collect) : result unit string * Collect :=
  match fuel with
  | O => (Err "out of fuel"%string, st)
  | S fuel =>
      match wire_recv wire s with
      | Err e => (Err e, st)
      | Ok (ChunkSet indices, s) =>
          if bool_decide (indices = []) || (CHUNKSET_BATCH <? zlen indices)
          then (Err "invalid ChunkSet batch length"%string, st) else
          match collect_set wire m indices s st with
          | (Err e, st) => (Err e, st)
          | (Ok s, st) =>
              collect_stream fuel wire m s (stream_chunks + zlen indices) st
          end
      | Ok (SetDone, s) =>
          if 0 <? stream_chunks then (Ok tt, st) else (Err "empty chunk stream"%string, st)
      | Ok _ => (Err "unexpected chunk-stream message"%string, st)
      end
  end.

(** The outer loop of [collecting], over the streams in the order they arrive. *)
Fixpoint collect_streams (wire : Wire) (m : Manifest) (streams : list bytes) (count : Z)
    (st : Collect) : result unit string * Collect :=
  if bool_decide (co_requested st = ∅) then (Ok tt, st) else
  if sl_fetch_streams (wr_limits wire) <? count + 1
  then (Err "too many chunk streams"%string, st) else
  match streams with
  | [] => (Err "chunk streams ended before transfer completed"%string, st)
  | s :: streams =>
      match collect_stream (S (length s)) wire m s 0 st with
      | (Err e, st) => (Err e, st)
      | (Ok _, st) => collect_streams wire m streams (count + 1) st
      end
  end.

(** ** Receiving *)

Record Stats : Type := mkStats { st_fetched : Z; st_total : Z; st_bytes : Z }.

(** The worker of [JournalSink::start]: stores the queued chunks in order and ends at
    the first error. *)
Fixpoint store_jobs (j : Journal) (jobs : list (Z * bytes)) : ioe SyncError Journal :=
  match jobs with
  | [] => io_ret j
  | (i, data) :: jobs => let! r := store j i data in store_jobs r.2 jobs
  end.

Definition text_err {A} (message : string) (m : ioe SyncError A) : ioe string A :=
  fun w => let '(r, w) := m w in (map_err (fun _ => message) r, w).

(** [receive_chunks]: [handled] queued chunks were stored when a collection failed. *)
Definition receive_chunks (wire : Wire) (m : Manifest) (streams : list bytes) (handled : nat)
    (j : Journal) : ioe string (bytes * Stats) :=
  let '(r, st) :=
    collect_streams wire m streams 0 (mkCollect (list_to_set (need j)) [] 0) in
  match r with
  | Err e => io_match (store_jobs j (take handled (co_jobs st))) (fun _ => io_err e)
  | Ok _ =>
      let! j := text_err "chunk store failed" (store_jobs j (co_jobs st)) in
      if negb (complete j)
      then io_err "chunk writer did not verify every requested index"%string else
      let! dest := text_err "assemble" (assemble_cancellable stop j) in
      io_ret (dest, mkStats (j_fetched j) (total j) (co_bytes st))
  end.

End Code.

(** ** Any sender *)

Section Sound.
Context `{HP : Posix, HL : !PosixLaws, HB : Blake3, HM : Postcard Meta, HS : Postcard SyncMsg}.
Variable stop : world -> bool * world.
Hypothesis stop_law : forall w b w', stop w = (b, w') -> same_entries w w'.

(** What was queued so far out of the requested indices [R]. *)
Record collected (m : Manifest) (R : gset Z) (st : Collect) : Prop := {
  col_nodup : NoDup (co_jobs st).*1;
  col_split : forall i, i ∈ R <-> i ∈ (co_jobs st).*1 \/ i ∈ co_requested st;
  col_apart : forall i, i ∈ (co_jobs st).*1 -> i ∉ co_requested st;
  col_sized : Forall (fun x => exists c, chunk_at m x.1 = Some c /\ zlen x.2 = ck_len c) (co_jobs st);
  col_bytes : co_bytes st = foldr (fun x n => zlen x.2 + n) 0 (co_jobs st)
}.

Lemma jobs_bytes_snoc (jobs : list (Z * bytes)) (i : Z) (b : bytes) :
  foldr (fun x n => zlen x.2 + n) 0 (jobs ++ [(i, b)])
  = foldr (fun x n => zlen x.2 + n) 0 jobs + zlen b.
Proof. induction jobs as [|x jobs IH]; simpl; lia. Qed.

Lemma collected_put m R st i c buf :
  collected m R st -> i ∈ co_requested st -> chunk_at m i = Some c -> zlen buf = ck_len c ->
  collected m R (mkCollect (co_requested st ∖ {[i]}) (co_jobs st ++ [(i, buf)])
                   (co_bytes st + ck_len c)).
Proof.
  intros [Hn Hs Ha Hz Hb] Hi C L. split; simpl.
  - rewrite fmap_app. apply NoDup_app. split_and!; [done| |apply NoDup_singleton].
    intros k Hk Ek%list_elem_of_singleton. simpl in Ek. subst. by apply (Ha i).
  - intros k. rewrite fmap_app, elem_of_app, (Hs k). simpl. rewrite list_elem_of_singleton.
    destruct (decide (k = i)); set_solver.
  - intros k. rewrite fmap_app, elem_of_app. simpl. rewrite list_elem_of_singleton.
    intros [Hk| ->]; [|set_solver]. apply Ha in Hk. set_solver.
  - apply Forall_app. split; [done|]. apply Forall_singleton. by exists c.
  - rewrite jobs_bytes_snoc. lia.
Qed.

Lemma collect_set_collected wire m R ixs s st s' st' :
  collected m R st -> collect_set wire m ixs s st = (Ok s', st') ->
  lens_typed m -> collected m R st'.
Proof.
  intros Hc H Hl. revert s st Hc H. induction ixs as [|i ixs IH]; intros s st Hc H; simpl in H.
  { by injection H as _ <-. }
  destruct (bool_decide (i ∈ co_requested st)) eqn:Ei; [|done]. b2p. simpl in H.
  destruct (wire_recv wire s) as [[msg s1]|e]; [|done]. destruct msg; try done.
  destruct (negb (index =? i)) eqn:Ex; [done|]. b2p. subst.
  destruct (chunk_at m i) as [c|] eqn:C; [|done]. simpl in H.
  destruct (negb _) eqn:Eh in H; [done|]. b2p. destruct Eh as [<- Eh].
  destruct (read_exact _ s1) as [[buf s2]|] eqn:R1; [|done].
  apply read_exact_ok in R1 as [_ L]. simpl in H. eapply IH; [|exact H].
  apply (collected_put m R st i c buf); try done.
  pose proof (proj1 (Forall_forall _ _) Hl c (chunk_at_elem _ _ _ C)). unfold zlen. simpl in *. lia.
Qed.

Lemma collect_stream_collected fuel wire m R s n st st' :
  collected m R st -> lens_typed m -> collect_stream fuel wire m s n st = (Ok tt, st') ->
  collected m R st'.
Proof.
  intros Hc Hl. revert s n st Hc. induction fuel as [|fuel IH]; intros s n st Hc H; simpl in H; [done|].
  destruct (wire_recv wire s) as [[msg s1]|e]; [|done]. destruct msg; try done.
  - destruct (_ || _); [done|]. destruct (collect_set wire m indices s1 st) as [[s2|e] st2] eqn:E; [|done].
    eapply IH; [|exact H]. by eapply collect_set_collected.
  - destruct (0 <? n); [|done]. by injection H as <-.
Qed.

Lemma collect_streams_collected wire m R streams n st st' :
  collected m R st -> lens_typed m -> collect_streams wire m streams n st = (Ok tt, st') ->
  collected m R st' /\ co_requested st' = ∅.
Proof.
  intros Hc Hl. revert n st Hc. induction streams as [|s streams IH]; intros n st Hc H;
    cbn [collect_streams] in H; case_bool_decide; try (by injection H as <-).
  - by destruct (_ <? _).
  - destruct (_ <? _); [done|].
    destruct (collect_stream _ wire m s 0 st) as [[[]|e] st2] eqn:E; [|done].
    eapply IH; [|exact H]. by eapply collect_stream_collected.
Qed.

Lemma store_same j i data w b j' w' :
  store j i data w = (Ok (b, j'), w') -> exists h f, j' = with_have j h f.
Proof.
  unfold store. intros H. destruct (chunk_at _ _); [|by io_inv H].
  destruct (negb _); [by io_inv H|]. case_bool_decide.
  - io_inv H. exists (j_have j'), (j_fetched j'). by destruct j'.
  - io_inv H; try done. eauto.
Qed.

Lemma store_jobs_frame j jobs w r w' d n :
  store_jobs j jobs w = (r, w') -> ~ own_entries j d n -> look w' d n = look w d n.
Proof.
  revert j w. induction jobs as [|[i data] jobs IH]; intros j w H Hn; simpl in H; [by io_inv H|].
  apply io_bind_inv in H as [([b j1] & w1 & K & H)|(e & K & ->)];
    pose proof (touches_store j i data _ _ _ K d n Hn) as F.
  - rewrite <-F. apply store_same in K as (h & f & ->). by apply (IH _ _ H).
  - done.
Qed.

Lemma store_jobs_keeps j jobs w r w' :
  uniform (j_manifest j) -> have_ok w j -> store_jobs j jobs w = (r, w') ->
  have_ok w' j
  /\ forall j', r = Ok j' ->
       have_ok w' j' /\ j' = with_have j (j_have j') (j_fetched j')
       /\ j_have j' = list_to_set jobs.*1 ∪ j_have j.
Proof.
  intros U. revert j w U. induction jobs as [|[i data] jobs IH]; intros j w U Ho H; simpl in H.
  { io_inv H. split; [done|]. intros j' [= <-]. split_and!; [done|by destruct j|set_solver]. }
  apply io_bind_inv in H as [([b j1] & w1 & K & H)|(e & K & ->)].
  - destruct (store_keeps stop stop_law _ _ _ _ _ _ U Ho K) as [Ho1 S].
    destruct (S b j1 eq_refl) as (Ho2 & Eh & Em & Ef & Ew). simpl in H.
    apply IH in H as [Ho3 S3]; [|by rewrite Em|done]. split.
    + intros k Hk. rewrite Ew in Ho3. apply (Ho3 k). simpl. rewrite Eh. set_solver.
    + intros j' ->. destruct (S3 j' eq_refl) as (O & E & Eh'). split_and!; [done| |].
      * rewrite E, Ew. done.
      * rewrite Eh', Eh. csimpl. set_solver.
  - destruct (store_keeps stop stop_law _ _ _ _ _ _ U Ho K) as [Ho1 _]. done.
Qed.

Lemma store_jobs_have j jobs w r w' :
  uniform (j_manifest j) -> have_ok w j -> store_jobs j jobs w = (r, w') -> have_ok w' j.
Proof. intros U Ho H. by apply store_jobs_keeps in H as [K _]. Qed.

(** Each queued chunk that was missing is counted once. *)
Lemma store_jobs_fetched j jobs w j' w' :
  NoDup jobs.*1 -> (forall i, i ∈ jobs.*1 -> i ∉ j_have j) ->
  store_jobs j jobs w = (Ok j', w') -> j_fetched j' = j_fetched j + zlen jobs.
Proof.
  revert j w. induction jobs as [|[i data] jobs IH]; intros j w Hn Hd H; simpl in H.
  { io_inv H. unfold zlen. simpl. lia. }
  apply io_bind_inv in H as [([b j1] & w1 & K & H)|(e & _ & [=])].
  csimpl in *. apply NoDup_cons in Hn as [Hi Hn].
  unfold store in K. destruct (chunk_at _ _); [|by io_inv K].
  destruct (negb _); [by io_inv K|]. rewrite bool_decide_eq_false_2 in K by (apply Hd; by left).
  apply io_bind_inv in K as [(u & w2 & _ & K)|(e & _ & [=])]. io_inv K.
  simpl in H. apply IH in H; [|done|].
  - rewrite H, zlen_cons. simpl. lia.
  - intros k Hk. simpl. rewrite not_elem_of_union, not_elem_of_singleton.
    split; [by intros ->|]. apply Hd. by right.
Qed.

(** A failed assembly touches nothing but the staging file and the destination. *)
Lemma assemble_err_frame j w e w' d n :
  (d, n) <> (j_dest_state j, ASSEMBLY) -> (d, n) <> (j_dest_parent j, j_dest_name j) ->
  assemble_cancellable stop j w = (Err e, w') -> look w' d n = look w d n.
Proof.
  intros N1 N2 H. unfold assemble_cancellable in H.
  destruct (negb _); [by io_inv H|].
  apply io_bind_inv in H as [(b & w1 & K1 & H)|(e' & K1 & [= <-])].
  2:{ apply (look_frame _ _ _ _ _ _ K1). by apply touches_ask. }
  assert (F1 : look w1 d n = look w d n).
  { apply (look_frame _ _ _ _ _ _ K1). by apply touches_ask. }
  rewrite <-F1. destruct b; [by io_inv H|].
  assert (S : forall r w2, lift (stage_named (j_dest_state j) ASSEMBLY) w1 = (r, w2) ->
                look w2 d n = look w1 d n).
  { intros r w2 K. eapply (touches_lift (only (j_dest_state j) ASSEMBLY)); [|done|]; [touches|].
    intros [-> ->]. by apply N1. }
  apply io_bind_inv in H as [(u & w2 & K2 & H)|(e' & K2 & [= <-])]; [|by eapply S].
  rewrite <-(S _ _ K2).
  apply io_bind_inv in H as [(u' & w3 & K3 & H)|(e' & K3 & [= <-])].
  2:{ by eapply assemble_stage_fails. }
  rewrite <-(assemble_stage_fails stop stop_law _ _ _ _ _ _ N1 K3).
  apply io_bind_inv in H as [(u'' & w4 & _ & H)|(e' & K4 & [= <-])].
  - apply io_match_inv in H as (? & ? & _ & H). by io_inv H.
  - eapply (touches_lift (either (only (j_dest_state j) ASSEMBLY)
      (only (j_dest_parent j) (j_dest_name j)))); [|done|]; [touches|].
    intros [[-> ->]|[-> ->]]; [by apply N1|by apply N2].
Qed.

Lemma assemble_path j w path w' :
  assemble_cancellable stop j w = (Ok path, w') -> path = j_dest_path j.
Proof.
  unfold assemble_cancellable. intros H. destruct (negb _); [by io_inv H|].
  apply io_bind_inv in H as [(b & w1 & _ & H)|(e & _ & [=])]. destruct b; [by io_inv H|].
  apply io_bind_inv in H as [(u & w2 & _ & H)|(e & _ & [=])].
  apply io_bind_inv in H as [(u' & w3 & _ & H)|(e & _ & [=])].
  apply io_bind_inv in H as [(v' & w4 & _ & H)|(e & _ & [=])].
  apply io_match_inv in H as (? & ? & _ & H). by io_inv H.
Qed.

(** The bytes of the chunks at these indices. *)
Definition len_at (m : Manifest) (i : Z) : Z :=
  match chunk_at m i with Some c => ck_len c | None => 0 end.
Definition sum_len (m : Manifest) (ixs : list Z) : Z := foldr (fun i n => len_at m i + n) 0 ixs.

Lemma sum_len_perm m a b : a ≡ₚ b -> sum_len m a = sum_len m b.
Proof. induction 1; simpl in *; lia. Qed.

Lemma need_elem j i :
  zlen (mf_chunks (j_manifest j)) <= MAX_CHUNKS ->
  i ∈ need j <-> 0 <= i < zlen (mf_chunks (j_manifest j)) /\ i ∉ j_have j.
Proof.
  intros Hm. unfold need. rewrite list_elem_of_filter, index_range_spec; [tauto|].
  pose proof (zlen_nonneg (mf_chunks (j_manifest j))). lia.
Qed.

Lemma need_nodup j : NoDup (need j).
Proof. apply NoDup_filter, NoDup_seqZ. Qed.

Lemma collected_start m (R : list Z) : collected m (list_to_set R) (mkCollect (list_to_set R) [] 0).
Proof.
  split; simpl; try done; [constructor|set_solver|intros i K; by apply not_elem_of_nil in K].
Qed.

Lemma collected_done m R st :
  collected m (list_to_set R) st -> NoDup R -> co_requested st = ∅ ->
  (co_jobs st).*1 ≡ₚ R /\ co_bytes st = sum_len m R /\ zlen (co_jobs st) = zlen R.
Proof.
  intros [Hn Hs Ha Hz Hb] Nr E.
  assert (P : (co_jobs st).*1 ≡ₚ R).
  { apply NoDup_Permutation; [done|done|]. intros i. specialize (Hs i).
    rewrite E, elem_of_list_to_set in Hs. set_solver. }
  split_and!; [done| |].
  - rewrite <-(sum_len_perm m _ _ P), Hb. clear -Hz. induction Hz as [|x l (c & C & L) Hz IH]; [done|].
    csimpl. unfold len_at. rewrite C. lia.
  - rewrite <-(zlen_Permutation _ _ P). unfold zlen. by rewrite length_fmap.
Qed.

Lemma text_err_ok {A} t (m : ioe SyncError A) w a w' : text_err t m w = (Ok a, w') -> m w = (Ok a, w').
Proof. unfold text_err. destruct (m w) as [[|] ?]; intros [= <- <-]; done. Qed.
Lemma text_err_err {A} t (m : ioe SyncError A) w e w' :
  text_err t m w = (Err e, w') -> exists e', m w = (Err e', w').
Proof. unfold text_err. destruct (m w) as [[|] ?]; intros [= <- <-]; eauto. Qed.

Definition dest_of (j : Journal) (w : world) : option Entry :=
  look w (j_dest_parent j) (j_dest_name j).
Definition dest_verified (j : Journal) (w : world) : Prop :=
  exists content, dest_of j w = Some (EFile content 1)
    /\ file_content (j_manifest j) content
    /\ zlen content = chunks_len (mf_chunks (j_manifest j)).

Lemma receive_chunks_outcome wire streams handled j w r w' :
  let m := j_manifest j in
  uniform m -> lens_typed m -> zlen (mf_chunks m) <= MAX_CHUNKS -> dest_apart j -> have_ok w j ->
  receive_chunks stop wire m streams handled j w = (r, w') ->
  match r with
  | Ok (path, stats) =>
      dest_verified j w' /\ path = j_dest_path j
      /\ stats = mkStats (j_fetched j + zlen (need j)) (zlen (mf_chunks m)) (sum_len m (need j))
  | Err _ => have_ok w' j /\ (dest_of j w' = dest_of j w \/ dest_verified j w')
  end.
Proof.
  intros m U Hl Hm Ap Ho H. unfold receive_chunks in H.
  assert (Fr : forall jobs w r w', store_jobs j jobs w = (r, w') -> dest_of j w' = dest_of j w).
  { intros jobs v s v' K. eapply store_jobs_frame; [done|]. apply Ap. }
  destruct (collect_streams wire m streams 0 _) as [[[]|e] st] eqn:C.
  2:{ apply io_match_inv in H as (r1 & w1 & K & H). io_inv H.
      split; [by eapply store_jobs_have|left; by eapply Fr]. }
  apply collect_streams_collected with (R := list_to_set (need j)) in C as [Col E];
    [|apply collected_start|done].
  destruct (collected_done m _ _ Col (need_nodup j) E) as (P & Eb & El).
  apply io_bind_inv in H as [(j1 & w1 & K & H)|(e & K & ->)].
  2:{ apply text_err_err in K as [e' K]. split; [by eapply store_jobs_have|left; by eapply Fr]. }
  apply text_err_ok in K. pose proof (Fr _ _ _ _ K) as F1.
  assert (Fresh : forall i, i ∈ (co_jobs st).*1 -> i ∉ j_have j).
  { intros i Hi. rewrite P in Hi. by apply need_elem in Hi as [_ Hi]. }
  pose proof (store_jobs_fetched _ _ _ _ _ (col_nodup _ _ _ Col) Fresh K) as Ef.
  apply (store_jobs_keeps j) in K as [Ho1 S]; [|done..].
  destruct (S j1 eq_refl) as (Ho2 & E1 & Eh).
  destruct (complete j1); simpl in H; [|io_inv H; split; [done|left; done]].
  assert (Ap1 : dest_apart j1) by (rewrite E1; exact Ap).
  assert (Dv : forall v, dest_verified j1 v -> dest_verified j v) by (intros v; by rewrite E1).
  apply io_bind_inv in H as [(path & w2 & K & H)|(e & K & ->)].
  - io_inv H. apply text_err_ok in K. pose proof (assemble_path _ _ _ _ K) as Ep.
    apply (assemble_atomic stop stop_law) in K as [D|[_ D]]; [|done|done].
    split_and!; [by apply Dv|by rewrite Ep, E1|].
    rewrite Ef, El, Eb, E1. done.
  - apply text_err_err in K as [e' K]. split.
    + intros i Hi. destruct (Ho1 i Hi) as (c & Hc & data & L & V). exists c. split; [done|].
      exists data. split; [|done]. rewrite <-L. eapply assemble_err_frame; [| |exact K].
      * rewrite E1. apply Ap.
      * rewrite E1. intros [= Ea Eb']. apply (proj1 Ap). rewrite <-Ea, <-Eb'. apply own_part.
    + apply (assemble_atomic stop stop_law) in K as [D|[D _]]; [right; by apply Dv| |done].
      left. rewrite <-F1. rewrite E1 in D. exact D.
Qed.

(** C3: Whatever a sender puts on the chunk streams, whatever disk calls fail and whenever
    the transfer is cancelled: success means that the destination is a complete file
    whose chunks and root hash are those of the manifest, with exact statistics; a
    failure loses no verified chunk, and leaves the destination as it was unless the
    new file is already complete. *)
Theorem transfer_integrity wire streams handled j w r w' :
  let m := j_manifest j in
  uniform m -> lens_typed m -> zlen (mf_chunks m) <= MAX_CHUNKS -> dest_apart j -> have_ok w j ->
  receive_chunks stop wire m streams handled j w = (r, w') ->
  match r with
  | Ok (path, stats) =>
      dest_verified j w' /\ path = j_dest_path j
      /\ stats = mkStats (j_fetched j + zlen (need j)) (zlen (mf_chunks m)) (sum_len m (need j))
  | Err _ => have_ok w' j /\ (dest_of j w' = dest_of j w \/ dest_verified j w')
  end.
Proof. apply receive_chunks_outcome. Qed.
End Sound.
