(* ===== verification/Reliable.v ===== *)
(** * Disks that do not fail

    The liveness side of the disk interface: on worlds where every call goes through
    when its preconditions hold, the confined operations and the journal succeed.
    The in-memory world without pending failures is an instance. *)

From S2P Require Import Prelude Paths Net Crypto SyncProto Confined Journal.

(** [good] worlds: calls whose documented preconditions hold succeed, and keep the
    world good. *)
Class PosixReliable `{Posix} (good : world -> Prop) : Prop := {
  live_open : forall d n w h, good w -> look w d n = Some h ->
    exists w', sys_open d n w = (Ok h, w') /\ good w';
  live_open_none : forall d n w, good w -> look w d n = None ->
    exists w', sys_open d n w = (Err NotFound, w') /\ good w';
  live_create : forall d n w, good w -> look w d n = None ->
    exists w', sys_create d n w = (Ok tt, w') /\ good w';
  live_write : forall d n data w c, good w -> look w d n = Some (EFile c 1) ->
    exists w', sys_write d n data w = (Ok tt, w') /\ good w';
  live_rename : forall d n d' n' w c, good w -> look w d n = Some (EFile c 1) ->
    (look w d' n' = None \/ exists c' l, look w d' n' = Some (EFile c' l)) ->
    exists w', sys_rename d n d' n' w = (Ok tt, w') /\ good w';
  live_unlink : forall d n w c l, good w -> look w d n = Some (EFile c l) ->
    exists w', sys_unlink d n false w = (Ok tt, w') /\ good w';
  live_any_unlink : forall d n b w, good w -> good (sys_unlink d n b w).2;
  live_fstat : forall w, good w -> exists w', sys_fstat w = (Ok tt, w') /\ good w';
  live_read : forall w, good w -> exists w', sys_read w = (Ok tt, w') /\ good w';
  live_fsync : forall w, good w -> exists w', sys_fsync w = (Ok tt, w') /\ good w'
}.

Section Live.
Context `{HP : Posix, HL : !PosixLaws} (good : world -> Prop) `{HR : !PosixReliable good}.

(** [m] succeeds with [a] on [w] and leaves a good world. *)
Definition runs {E A} (m : ioe E A) (w : world) (a : A) (w' : world) : Prop :=
  m w = (Ok a, w') /\ good w'.

Lemma runs_bind {E A B} (m : ioe E A) (k : A -> ioe E B) w a w1 b w2 :
  runs m w a w1 -> runs (k a) w1 b w2 -> runs (io_bind m k) w b w2.
Proof. intros [E1 _] [E2 G]. split; [|done]. unfold io_bind. by rewrite E1. Qed.

Lemma runs_ret {E A} (a : A) w : good w -> runs (io_ret (E := E) a) w a w.
Proof. by split. Qed.

Lemma component_runs n w : path_components n = [Normal n] -> good w -> runs (component n) w tt w.
Proof. intros C G. unfold component. rewrite bool_decide_eq_true_2 by done. by apply runs_ret. Qed.

Lemma fsync_runs w : good w -> exists w', runs sys_fsync w tt w' /\ same_entries w w'.
Proof.
  intros G. destruct (live_fsync w G) as (w' & E & G'). exists w'. split; [done|].
  by apply fsync_law in E.
Qed.
Lemma fstat_runs w : good w -> exists w', runs sys_fstat w tt w' /\ same_entries w w'.
Proof.
  intros G. destruct (live_fstat w G) as (w' & E & G'). exists w'. split; [done|].
  by apply fstat_law in E as [E _].
Qed.

Lemma same_entries_trans w1 w2 w3 : same_entries w1 w2 -> same_entries w2 w3 -> same_entries w1 w3.
Proof. intros F1 F2 d n. by rewrite F2, F1. Qed.

Lemma read_file_runs d n w c l :
  path_components n = [Normal n] -> good w -> look w d n = Some (EFile c l) ->
  exists w', runs (read_file d n) w (EFile c l) w' /\ same_entries w w'.
Proof.
  intros C G L. destruct (live_open d n w _ G L) as (w1 & E1 & G1).
  pose proof (open_law _ _ _ _ _ E1) as [F1 _].
  destruct (fstat_runs w1 G1) as (w2 & R2 & F2). pose proof (proj2 R2) as G2. exists w2. split.
  - eapply runs_bind; [by apply component_runs|]. eapply runs_bind; [by split|].
    eapply runs_bind; [eapply runs_bind; [done|by apply runs_ret]|]. by apply runs_ret.
  - by eapply same_entries_trans.
Qed.

Lemma read_file_none d n w :
  path_components n = [Normal n] -> good w -> look w d n = None ->
  exists w', read_file d n w = (Err NotFound, w') /\ good w' /\ same_entries w w'.
Proof.
  intros C G L. destruct (live_open_none d n w G L) as (w1 & E1 & G1).
  pose proof (open_law _ _ _ _ _ E1) as [F1 _]. exists w1. split_and!; try done.
  unfold read_file, io_bind. unfold component. rewrite bool_decide_eq_true_2 by done.
  unfold io_ret. by rewrite E1.
Qed.

Lemma single_link_runs c w :
  good w -> exists w', runs (single_link (EFile c 1)) w tt w' /\ same_entries w w'.
Proof.
  intros G. destruct (fstat_runs w G) as (w1 & R1 & F1). exists w1. split; [|done].
  eapply runs_bind; [done|]. apply runs_ret, R1.
Qed.

Lemma read_state_runs d n l w c :
  path_components n = [Normal n] -> good w -> look w d n = Some (EFile c 1) ->
  exists w', runs (read_state d n l) w (take (Z.to_nat (l + 1)) c) w' /\ same_entries w w'.
Proof.
  intros C G L. destruct (read_file_runs d n w c 1 C G L) as (w1 & R1 & F1).
  destruct (single_link_runs c w1 (proj2 R1)) as (w2 & R2 & F2).
  destruct (live_read w2 (proj2 R2)) as (w3 & E3 & G3). exists w3. split.
  - eapply runs_bind; [done|]. eapply runs_bind; [done|]. eapply runs_bind; [by split|].
    by apply runs_ret.
  - apply read_law in E3 as [F3 _]. eapply same_entries_trans; [done|]. by eapply same_entries_trans.
Qed.

(** A reserved name is free, or a private file that is discarded first. *)
Definition discardable (w : world) (d : Z) (n : bytes) : Prop :=
  look w d n = None \/ exists c, look w d n = Some (EFile c 1).

Lemma discard_runs d n w :
  path_components n = [Normal n] -> good w -> discardable w d n ->
  exists w', runs (discard_owned d n) w tt w' /\ look w' d n = None
    /\ forall b m, (b, m) <> (d, n) -> look w' b m = look w b m.
Proof.
  intros C G [L|[c L]].
  - destruct (read_file_none d n w C G L) as (w1 & E1 & G1 & F1). exists w1.
    split; [|by rewrite F1]. split; [|done]. unfold discard_owned, io_match. by rewrite E1.
  - destruct (read_file_runs d n w c 1 C G L) as (w1 & R1 & F1).
    destruct (single_link_runs c w1 (proj2 R1)) as (w2 & R2 & F2).
    assert (L2 : look w2 d n = Some (EFile c 1)) by (by rewrite F2, F1).
    destruct (live_unlink d n w2 c 1 (proj2 R2) L2) as (w3 & E3 & G3).
    pose proof (unlink_law _ _ _ _ _ _ E3) as [N3 F3].
    destruct (fsync_runs w3 G3) as (w4 & R4 & F4). exists w4. split_and!.
    + unfold discard_owned. split; [|apply R4]. unfold io_match. rewrite (proj1 R1).
      assert (R : runs (let! _ := single_link (EFile c 1) in
        let! _ := unlink d n false in dir_sync) w1 tt w4).
      { eapply runs_bind; [done|]. eapply runs_bind; [|done].
        eapply runs_bind; [by apply component_runs; [|apply R2]|]. by split. }
      apply R.
    + by rewrite F4.
    + intros b m Ne. by rewrite F4, F3, F2, F1.
Qed.

Definition replaceable (w : world) (d : Z) (n : bytes) : Prop :=
  look w d n = None \/ exists c l, look w d n = Some (EFile c l).

Lemma install_runs d st d' n w c :
  path_components n = [Normal n] -> good w -> (d, st) <> (d', n) ->
  look w d st = Some (EFile c 1) -> replaceable w d' n ->
  exists w', runs (install_in d st d' n) w tt w'
    /\ look w' d' n = Some (EFile c 1) /\ look w' d st = None
    /\ forall b m, (b, m) <> (d, st) -> (b, m) <> (d', n) -> look w' b m = look w b m.
Proof.
  intros C G Ne L Rp. destruct (fsync_runs w G) as (w1 & R1 & F1).
  assert (L1 : look w1 d st = Some (EFile c 1)) by (by rewrite F1).
  assert (Rp1 : replaceable w1 d' n) by (unfold replaceable; by rewrite F1).
  destruct (live_rename d st d' n w1 c (proj2 R1) L1 Rp1) as (w2 & E2 & G2).
  pose proof (rename_law _ _ _ _ _ _ _ E2) as (e & Le & Ld & Ls & Fo).
  rewrite L1 in Le. injection Le as <-.
  destruct (fsync_runs w2 G2) as (w3 & R3 & F3).
  destruct (fstat_runs w3 (proj2 R3)) as (w4 & R4 & F4).
  destruct (fstat_runs w4 (proj2 R4)) as (w5 & R5 & F5).
  assert (T : exists w6, runs (if d =? d' then io_ret tt else dir_sync) w5 tt w6 /\ same_entries w5 w6).
  { destruct (d =? d'); [exists w5; split; [apply runs_ret, R5|done]|apply fsync_runs, R5]. }
  destruct T as (w6 & R6 & F6). exists w6.
  assert (F : same_entries w2 w6).
  { repeat (eapply same_entries_trans; [eassumption|]). done. }
  split_and!; [|by rewrite F|by rewrite F, Ls|].
  - split; [|apply R6]. unfold install_in, io_match.
    assert (R : runs (let! _ := component n in let! _ := sys_fsync in sys_rename d st d' n) w tt w2).
    { eapply runs_bind; [by apply component_runs|]. eapply runs_bind; [done|]. by split. }
    rewrite (proj1 R).
    assert (R' : runs (let! _ := dir_sync in let! same := same_inode d d' in
      if same then io_ret tt else dir_sync) w2 tt w6).
    { eapply runs_bind; [done|]. eapply runs_bind; [|exact R6].
      eapply runs_bind; [done|]. eapply runs_bind; [done|]. apply runs_ret, R5. }
    apply R'.
  - intros b m N1 N2. by rewrite F, Fo, F1.
Qed.

Lemma write_state_runs d n data w :
  path_components n = [Normal n] -> n <> PENDING -> good w ->
  discardable w d PENDING -> replaceable w d n ->
  exists w', runs (write_state d n data) w tt w'
    /\ look w' d n = Some (EFile data 1) /\ look w' d PENDING = None
    /\ forall b m, (b, m) <> (d, PENDING) -> (b, m) <> (d, n) -> look w' b m = look w b m.
Proof.
  intros C Np G Dp Rp. assert (Ne : (d, PENDING) <> (d, n)) by congruence.
  destruct (discard_runs d PENDING w eq_refl G Dp) as (w1 & R1 & L1 & F1).
  destruct (live_create d PENDING w1 (proj2 R1) L1) as (w2 & E2 & G2).
  pose proof (create_law _ _ _ _ _ E2) as [_ [L2 F2]].
  destruct (live_write d PENDING data w2 [] G2 L2) as (w3 & E3 & G3).
  pose proof (write_law _ _ _ _ _ _ E3) as [F3 L3]. specialize (L3 [] L2). simpl in L3.
  assert (Rp3 : replaceable w3 d n).
  { unfold replaceable in *. by rewrite F3, F2, F1 by congruence. }
  destruct (install_runs d PENDING d n w3 data C G3 Ne L3 Rp3) as (w4 & R4 & L4 & N4 & F4).
  exists w4. split_and!; try done.
  - eapply runs_bind; [done|]. eapply runs_bind; [by eapply runs_bind; [apply component_runs, R1|]; split|].
    eapply runs_bind; [|done]. split; [|done]. unfold with_stage, io_match. by rewrite E3.
  - intros b m N1 N2. rewrite F4, F3, F2, F1 by done. done.
Qed.
End Live.

(** ** Names that are components *)

Lemma digit_char_plain d : 0 <= d < 16 -> is_slash (digit_char d) = false /\ digit_char d <> "."%char.
Proof.
  intros H.
  assert (F : forallb (fun x => negb (is_slash (digit_char x))
    && negb (bool_decide (digit_char x = "."%char))) (seqZ 0 16) = true) by (vm_compute; reflexivity).
  rewrite forallb_forall in F. specialize (F d). rewrite <-list_elem_of_In, elem_of_seqZ in F.
  specialize (F ltac:(lia)). apply andb_true_iff in F as [F1 F2].
  apply negb_true_iff in F1, F2. by apply bool_decide_eq_false in F2.
Qed.

Lemma hex_component b : b <> [] -> path_components (hex b) = [Normal (hex b)].
Proof.
  intros Hb. assert (S : Forall (fun c => is_slash c = false) (hex b)
                         /\ Forall (fun c => c <> "."%char) (hex b)).
  { clear Hb. induction b as [|c b [IH1 IH2]]; [done|]. rewrite hex_cons.
    pose proof (byte_val_bound c).
    assert (0 <= byte_val c / 16 < 16)
      by (split; [apply Z.div_pos|apply Z.div_lt_upper_bound]; lia).
    pose proof (Z.mod_pos_bound (byte_val c) 16 eq_refl).
    destruct (digit_char_plain (byte_val c / 16)), (digit_char_plain (byte_val c mod 16)); try done.
    split; repeat constructor; done. }
  destruct S as [S1 S2]. destruct b as [|c b]; [done|]. rewrite hex_cons in *.
  change [Normal (digit_char (byte_val c / 16) :: digit_char (byte_val c mod 16) :: hex b)]
    with (Normal <$> [digit_char (byte_val c / 16) :: digit_char (byte_val c mod 16) :: hex b]).
  apply Forall_cons in S2 as [S2 _].
  apply (path_components_join [_]); [done|..]; apply Forall_singleton; [done| |];
    (try split); try done; intros K; by injection K as K _.
Qed.

(** [blake3] digests have 32 bytes. *)
Class Blake3Length `{Blake3} : Prop := blake3_length : forall b, length (blake3_hash b) = 32%nat.

Lemma toy_blake3_length : @Blake3Length toy_blake3.
Proof. intros b. unfold blake3_hash, toy_blake3. rewrite length_take, length_app, length_replicate. lia. Qed.

(** ** Journals of a file *)

Section Ready.
Context `{HP : Posix, HL : !PosixLaws, HB : Blake3} (good : world -> Prop) `{HR : !PosixReliable good}.
Variable data : bytes.

Definition chunk_bytes (c : Chunk) : bytes := slice data (ck_offset c) (ck_len c).

(** The manifest describes [data]: contiguous chunks with the hashes of their bytes,
    and chunks with the same hash are the same bytes. *)
Record describes (m : Manifest) : Prop := {
  ds_contiguous : contiguous 0 (mf_chunks m);
  ds_size : chunks_len (mf_chunks m) = zlen data;
  ds_hash : Forall (fun c => ck_hash c = blake3_hash (chunk_bytes c)) (mf_chunks m);
  ds_root : mf_root m = blake3_hash data;
  ds_count : zlen (mf_chunks m) <= MAX_CHUNKS;
  ds_names : Forall (fun c => ck_hash c <> []) (mf_chunks m);
  ds_distinct : forall c c', c ∈ mf_chunks m -> c' ∈ mf_chunks m ->
    ck_hash c = ck_hash c' -> chunk_bytes c = chunk_bytes c'
}.

(** A journal for that manifest whose parts are the bytes of the file and whose
    directories are ready for the next steps. *)
Record ready (w : world) (j : Journal) : Prop := {
  rd_good : good w;
  rd_describes : describes (j_manifest j);
  rd_apart : dest_apart j;
  rd_parts : forall i, i ∈ j_have j -> exists c, chunk_at (j_manifest j) i = Some c
    /\ look w (j_parts j) (hex (ck_hash c)) = Some (EFile (chunk_bytes c) 1);
  rd_pending : discardable w (j_parts j) PENDING;
  rd_names : forall c, c ∈ mf_chunks (j_manifest j) -> replaceable w (j_parts j) (hex (ck_hash c));
  rd_stage : look w (j_dest_state j) ASSEMBLY = None;
  rd_dest : replaceable w (j_dest_parent j) (j_dest_name j);
  rd_dest_name : path_components (j_dest_name j) = [Normal (j_dest_name j)]
}.

Lemma contiguous_bounds off cs c :
  contiguous off cs -> 0 <= off -> c ∈ cs ->
  0 <= ck_offset c /\ 0 < ck_len c /\ ck_offset c + ck_len c <= off + chunks_len cs.
Proof.
  revert off. induction cs as [|d cs IH]; intros off Hc Ho Hi; [by apply not_elem_of_nil in Hi|].
  destruct Hc as (E & L & Hc). simpl. pose proof (contiguous_len _ _ Hc).
  apply elem_of_cons in Hi as [->|Hi]; [lia|].
  destruct (IH _ Hc ltac:(lia) Hi) as (H1 & H2 & H3). lia.
Qed.

Lemma describes_verifies m c :
  describes m -> c ∈ mf_chunks m -> verifies c (chunk_bytes c) = true.
Proof.
  intros D Hc. destruct (contiguous_bounds _ _ _ (ds_contiguous _ D) ltac:(done) Hc) as (B1 & B2 & B3).
  rewrite (ds_size _ D) in B3. unfold verifies, chunk_bytes.
  rewrite slice_length, Z.eqb_refl by lia. simpl. apply bool_decide_eq_true_2. symmetry.
  apply (proj1 (Forall_forall _ _) (ds_hash _ D) c Hc).
Qed.

Lemma store_runs w j i c :
  ready w j -> chunk_at (j_manifest j) i = Some c -> i ∉ j_have j ->
  exists w', runs good (store j i (chunk_bytes c)) w
               (true, with_have j ({[i]} ∪ j_have j) (j_fetched j + 1)) w'
    /\ ready w' (with_have j ({[i]} ∪ j_have j) (j_fetched j + 1)).
Proof.
  intros R C Hi. pose proof (chunk_at_elem _ _ _ C) as Hc.
  pose proof (describes_verifies _ _ (rd_describes _ _ R) Hc) as V.
  assert (Hn : path_components (hex (ck_hash c)) = [Normal (hex (ck_hash c))]).
  { apply hex_component. apply (proj1 (Forall_forall _ _) (ds_names _ (rd_describes _ _ R)) c Hc). }
  destruct (write_state_runs good (j_parts j) (hex (ck_hash c)) (chunk_bytes c) w Hn
    (hex_not_pending _) (rd_good _ _ R) (rd_pending _ _ R) (rd_names _ _ R c Hc))
    as (w' & Rw & L & N & F).
  exists w'. split.
  { unfold store, runs. rewrite C, V. cbn [negb]. rewrite bool_decide_eq_false_2 by done.
    unfold io_bind, lift. rewrite (proj1 Rw). split; [done|apply Rw]. }
  destruct R as [Rg Rd Ra Rp Rpe Rn Rs Rde Rdn].
  assert (Fp : forall c', c' ∈ mf_chunks (j_manifest j) ->
    look w' (j_parts j) (hex (ck_hash c')) = Some (EFile (chunk_bytes c') 1) \/
    look w' (j_parts j) (hex (ck_hash c')) = look w (j_parts j) (hex (ck_hash c'))).
  { intros c' Hc'. destruct (decide (ck_hash c' = ck_hash c)) as [E|E]; [left|right].
    - by rewrite E, (ds_distinct _ Rd c' c).
    - apply F; intros [= K]; [by apply hex_not_pending in K|by apply hex_inj in K]. }
  split; simpl; try done.
  - apply Rw.
  - intros k [->%elem_of_singleton|Hk]%elem_of_union; [by exists c|].
    destruct (Rp k Hk) as (c' & C' & L'). exists c'. split; [done|].
    destruct (Fp c' (chunk_at_elem _ _ _ C')) as [E|E]; [done|by rewrite E].
  - by left.
  - intros c' Hc'. unfold replaceable. destruct (Fp c' Hc') as [->| ->]; [eauto|by apply Rn].
  - rewrite F; [done|by intros [=]|]. intros [= K1 K2]. by apply (proj2 (proj2 Ra) (ck_hash c)); rewrite K1, K2.
  - unfold replaceable. rewrite F; [done| |]; intros [= K1 K2]; apply (proj1 Ra); rewrite K1, K2;
      [apply own_pending|apply own_part].
Qed.

(** ** Assembling *)

Variable stop : world -> bool * world.
Hypothesis stop_law : forall w b w', stop w = (b, w') -> same_entries w w'.
(** The transfer is not cancelled. *)
Hypothesis stop_quiet : forall w, good w -> exists w', stop w = (false, w') /\ good w'.

Lemma ask_runs {E} w : good w -> exists w', runs good (ask stop (E := E)) w false w' /\ same_entries w w'.
Proof.
  intros G. destruct (stop_quiet w G) as (w' & E1 & G'). exists w'. split; [|by apply stop_law in E1].
  split; [|done]. unfold ask. by rewrite E1.
Qed.

Lemma lift_runs {A} (m : io A) w a w' : runs good m w a w' -> runs good (lift m) w a w'.
Proof. intros [E G]. split; [|done]. unfold lift. by rewrite E. Qed.

Lemma assemble_loop_runs j cs off w :
  dest_apart j -> describes (j_manifest j) -> (forall c, c ∈ cs -> c ∈ mf_chunks (j_manifest j)) ->
  0 <= off -> contiguous off cs -> good w ->
  look w (j_dest_state j) ASSEMBLY = Some (EFile (take (Z.to_nat off) data) 1) ->
  (forall c, c ∈ cs -> look w (j_parts j) (hex (ck_hash c)) = Some (EFile (chunk_bytes c) 1)) ->
  let out := take (Z.to_nat (off + chunks_len cs)) data in
  exists w', runs good (assemble_loop stop j cs (take (Z.to_nat off) data)) w out w'
    /\ look w' (j_dest_state j) ASSEMBLY = Some (EFile out 1)
    /\ forall b m, (b, m) <> (j_dest_state j, ASSEMBLY) -> look w' b m = look w b m.
Proof.
  intros Ap D. revert off w. induction cs as [|c cs IH]; intros off w Sub Ho Hc G L P; cbn zeta.
  { exists w. simpl. rewrite Z.add_0_r. split_and!; [by apply runs_ret|done|done]. }
  destruct Hc as (E & Hl & Hc). assert (Hi : c ∈ mf_chunks (j_manifest j)) by (apply Sub; by left).
  destruct (ask_runs (E := SyncError) w G) as (w1 & R1 & F1).
  assert (L1 : look w1 (j_parts j) (hex (ck_hash c)) = Some (EFile (chunk_bytes c) 1)).
  { rewrite F1. apply P. by left. }
  destruct (read_state_runs good (j_parts j) (hex (ck_hash c)) (ck_len c) w1 (chunk_bytes c)) as (w2 & R2 & F2);
    [apply hex_component, (proj1 (Forall_forall _ _) (ds_names _ D) c Hi)|apply R1|done|].
  pose proof (describes_verifies _ _ D Hi) as V.
  assert (Et : take (Z.to_nat (ck_len c + 1)) (chunk_bytes c) = chunk_bytes c).
  { apply take_ge. unfold verifies, zlen in V. apply andb_true_iff in V as [V%Z.eqb_eq _]. lia. }
  rewrite Et in R2.
  assert (L2 : look w2 (j_dest_state j) ASSEMBLY = Some (EFile (take (Z.to_nat off) data) 1)).
  { by rewrite F2, F1. }
  destruct (live_write (good := good) _ _ (chunk_bytes c) _ _ (proj2 R2) L2) as (w3 & E3 & G3).
  pose proof (write_law _ _ _ _ _ _ E3) as [F3 L3]. specialize (L3 _ L2). simpl in L3.
  unfold chunk_bytes in L3 at 1. rewrite E, take_slice in L3 by lia.
  destruct (IH (off + ck_len c) w3) as (w4 & R4 & L4 & F4); try done; [|lia| |].
  - intros d Hd. apply Sub. by right.
  - intros d Hd. rewrite F3; [rewrite F2, F1; apply P; by right|].
    intros K. by apply (proj2 (proj2 Ap) (ck_hash d)).
  - exists w4. simpl. rewrite Z.add_assoc. split_and!; [|done|].
    + eapply runs_bind; [done|]. eapply runs_bind; [by apply lift_runs|]. rewrite V. cbn [negb].
      eapply runs_bind; [apply lift_runs; by split|]. unfold chunk_bytes. by rewrite E, take_slice by lia.
    + intros b m N. by rewrite F4, F3, F2, F1.
Qed.

Lemma chunk_at_all m c : c ∈ mf_chunks m -> exists i, 0 <= i < zlen (mf_chunks m) /\ chunk_at m i = Some c.
Proof.
  intros [k Hk]%list_elem_of_lookup. exists (Z.of_nat k). unfold chunk_at, zlen.
  rewrite (proj2 (Z.leb_le _ _)), Nat2Z.id by lia. apply lookup_lt_Some in Hk as Hl. split; [lia|done].
Qed.

(** A ready journal with every chunk is assembled to the file. *)
Lemma assemble_runs w j :
  ready w j -> complete j = true ->
  (forall i, 0 <= i < zlen (mf_chunks (j_manifest j)) -> i ∈ j_have j) ->
  exists w', assemble_cancellable stop j w = (Ok (j_dest_path j), w')
    /\ look w' (j_dest_parent j) (j_dest_name j) = Some (EFile data 1).
Proof.
  intros R Hc All. pose proof (rd_describes _ _ R) as D. pose proof (rd_apart _ _ R) as Ap.
  destruct (ask_runs (E := SyncError) w (rd_good _ _ R)) as (w1 & R1 & F1).
  assert (N1 : look w1 (j_dest_state j) ASSEMBLY = None) by (rewrite F1; apply (rd_stage _ _ R)).
  destruct (live_create (good := good) _ _ _ (proj2 R1) N1) as (w2 & E2 & G2).
  pose proof (create_law _ _ _ _ _ E2) as [_ [L2 F2]].
  destruct (assemble_loop_runs j (mf_chunks (j_manifest j)) 0 w2) as (w3 & R3 & L3 & F3);
    try done; [by apply D| |].
  { intros c Hi. destruct (chunk_at_all _ _ Hi) as (i & Hr & C).
    destruct (rd_parts _ _ R i (All i Hr)) as (c' & C' & L'). rewrite C in C'. injection C' as <-.
    rewrite F2, F1; [done|]. intros K. by apply (proj2 (proj2 Ap) (ck_hash c)). }
  rewrite (ds_size _ D) in R3, L3.
  replace (take (Z.to_nat (0 + zlen data)) data) with data in R3, L3
    by (symmetry; apply take_ge; unfold zlen; lia).
  destruct (ask_runs (E := SyncError) w3 (proj2 R3)) as (w4 & R4 & F4).
  assert (Rp : replaceable w4 (j_dest_parent j) (j_dest_name j)).
  { unfold replaceable. rewrite F4, F3, F2, F1; [apply (rd_dest _ _ R)|apply Ap..]. }
  destruct (install_runs good (j_dest_state j) ASSEMBLY (j_dest_parent j) (j_dest_name j) w4 data)
    as (w5 & R5 & L5 & _); [apply (rd_dest_name _ _ R)|apply R4| |by rewrite F4|done|].
  { intros K. symmetry in K. by apply (proj1 (proj2 Ap)). }
  destruct (cleanup j w5) as [rc w6] eqn:Ec. exists w6. split.
  - unfold assemble_cancellable. rewrite Hc. cbn [negb].
    assert (B : runs good (assemble_body stop j) w2 tt w4).
    { eapply runs_bind; [exact R3|]. rewrite bool_decide_eq_true_2 by (symmetry; apply D).
      cbn [negb]. eapply runs_bind; [done|]. apply runs_ret, R4. }
    unfold io_bind at 1. rewrite (proj1 R1). unfold io_bind at 1, lift at 1, stage_named.
    rewrite (proj1 (runs_bind good _ _ _ _ _ _ _ (component_runs good ASSEMBLY w1 eq_refl (proj2 R1))
      (conj E2 G2))).
    cbn [map_err]. unfold io_bind at 1, io_match at 1. rewrite (proj1 B). unfold io_ret at 1.
    unfold io_bind at 1, lift at 1. rewrite (proj1 R5). cbn [map_err].
    unfold io_match. by rewrite Ec.
  - rewrite (touches_cleanup j _ _ _ Ec); [done|apply Ap].
Qed.
End Ready.

(** ** The in-memory world without failures *)

Definition mem_good (w : MemFs) : Prop := Forall (fun f => f = None) (faults w).

Lemma mem_call_good {A} body (w : MemFs) :
  mem_good w ->
  exists w', mem_call (A := A) body w = ((body (mem w)).1, w') /\ mem w' = (body (mem w)).2
             /\ mem_good w'.
Proof.
  unfold mem_good, mem_call. intros H. destruct (faults w) as [|f fs].
  - destruct (body (mem w)) as [r m]. eexists. split; [done|]. by split.
  - apply Forall_cons in H as [-> H]. destruct (body (mem w)) as [r m]. eexists. split; [done|]. by split.
Qed.

Lemma mem_reliable : @PosixReliable mem_posix mem_good.
Proof.
  split; simpl; intros;
    match goal with G : mem_good _ |- context [mem_call ?b ?w] =>
      destruct (mem_call_good b w G) as (w' & E & M & G') end.
  all: try (exists w'; split; [|done]; rewrite E; simpl; by simplify_option_eq).
  by rewrite E.
Qed.
