(* ===== verification/Complete.v ===== *)
(** * Honest transfers complete

    Composes the two halves of [src/crates/rds-sync/src/engine.rs]: the streams that
    [push_chunks] writes, arriving in any order, are collected by [receive_chunks] and
    assembled to the file of the holder, from any resumable state of the journal. *)

From S2P Require Import Prelude Paths Crypto Frames SyncProto Confined Journal Transfer Reliable.

(** ** Batches and shares *)

Lemma chunks_fuel_concat {A} n fuel (l : list A) :
  (0 < n)%nat -> (length l <= fuel)%nat -> concat (chunks_fuel fuel n l) = l.
Proof.
  intros Hn. revert l. induction fuel as [|fuel IH]; intros l Hl; destruct l as [|x l]; try done.
  { simpl in Hl. lia. }
  cbn [chunks_fuel concat]. rewrite IH; [by rewrite take_drop|].
  rewrite length_drop. simpl in *. lia.
Qed.

Lemma chunks_of_concat {A} n (l : list A) : 0 < n -> concat (chunks_of n l) = l.
Proof. intros Hn. apply chunks_fuel_concat; lia. Qed.

Lemma chunks_fuel_bounds {A} n fuel (l : list A) :
  (0 < n)%nat -> Forall (fun b => b <> [] /\ (length b <= n)%nat) (chunks_fuel fuel n l).
Proof.
  intros Hn. revert l. induction fuel as [|fuel IH]; intros [|x l]; simpl; try done.
  constructor; [|done]. rewrite length_take. split; [by destruct n; [lia|]|lia].
Qed.

Lemma chunks_of_bounds {A} n (l : list A) :
  0 < n -> Forall (fun b => b <> [] /\ zlen b <= n) (chunks_of n l).
Proof.
  intros Hn. eapply Forall_impl; [apply chunks_fuel_bounds; lia|].
  intros b [H1 H2]. split; [done|]. unfold zlen. lia.
Qed.

(** The shares of the streams are a partition of the indices. *)
Lemma step_by_partition width l :
  (0 < width)%nat -> concat ((fun k => step_by width k l) <$> seq 0 width) ≡ₚ l.
Proof.
  intros Hw. destruct width as [|width]; [lia|]. clear Hw.
  induction l as [|x l IH].
  { clear. induction (seq 0 (S width)) as [|k ks IH]; simpl; done. }
  change (seq 0 (S width)) with (0%nat :: seq 1 width) at 1. rewrite fmap_cons.
  assert (E : (fun k => step_by (S width) k (x :: l)) <$> seq 1 width
              = (fun k => step_by (S width) k l) <$> seq 0 width).
  { rewrite <-fmap_S_seq, <-list_fmap_compose. done. }
  rewrite E. change (x :: (step_by (S width) width l
    ++ concat ((fun k => step_by (S width) k l) <$> seq 0 width)) ≡ₚ x :: l).
  apply Permutation_cons; [done|]. etrans; [|exact IH].
  rewrite seq_S, fmap_app, concat_app. simpl. rewrite app_nil_r. apply Permutation_app_comm.
Qed.

Lemma concat_filter_nonempty {A} (ls : list (list A)) :
  concat (filter (fun l => l <> []) ls) = concat ls.
Proof.
  induction ls as [|l ls IH]; [done|]. rewrite filter_cons.
  destruct (decide (l <> [])) as [H|H]; simpl; [by rewrite IH|].
  destruct l; [done|]. by destruct H.
Qed.

Section Honest.
Context `{HP : Posix, HL : !PosixLaws, HB : Blake3, HM : Postcard Meta,
  HS : Postcard SyncMsg, HSL : !PostcardLaws SyncMsg}.
Context (good : world -> Prop) `{HR : !PosixReliable good}.
Variables (data : bytes) (m : Manifest) (wire : Wire).
Hypothesis data_of : describes data m.

(** The bytes of the chunk at an index. *)
Definition bytes_at (i : Z) : bytes :=
  match chunk_at m i with Some c => chunk_bytes data c | None => [] end.

Lemma wire_send_recv msg b s :
  is_session msg = false -> (forall r, msg <> Cancel r) ->
  wire_send wire msg = Ok b -> wire_recv wire (b ++ s) = Ok (msg, s).
Proof.
  intros Hs Hc K. unfold wire_send in K. unfold wire_recv.
  rewrite (frame_roundtrip _ _ _ K).
  destruct wire as [[tid|] limits]; unfold wire_frame, wire_decode; simpl.
  - destruct msg; try done; simpl; by rewrite bool_decide_eq_true_2.
  - destruct msg; try done. by destruct (Hc reason).
Qed.

Lemma push_chunk_recv i b s :
  push_chunk wire m data i = Ok b ->
  exists c, chunk_at m i = Some c
    /\ wire_recv wire (b ++ s) = Ok (ChunkHdr i (ck_hash c) (ck_len c), bytes_at i ++ s)
    /\ zlen (bytes_at i) = ck_len c.
Proof.
  unfold push_chunk. destruct (chunk_at m i) as [c|] eqn:C; [|done]. cbn [ok_or].
  destruct (zlen data <? ck_offset c + ck_len c) eqn:E; [done|]. apply Z.ltb_ge in E.
  destruct (wire_send wire _) as [hdr|] eqn:K; [|done]. intros <-%Ok_inj.
  exists c. split; [done|]. unfold bytes_at. rewrite C. unfold chunk_bytes. split.
  - rewrite <-app_assoc. by apply wire_send_recv.
  - destruct (contiguous_bounds _ _ _ (ds_contiguous _ _ data_of) ltac:(done)
      (chunk_at_elem _ _ _ C)) as (B1 & B2 & _). apply slice_length; lia.
Qed.

Definition job (i : Z) : Z * bytes := (i, bytes_at i).
Definition after (st : Collect) (ixs : list Z) : Collect :=
  mkCollect (co_requested st ∖ list_to_set ixs) (co_jobs st ++ (job <$> ixs))
    (co_bytes st + sum_len m ixs).

Lemma after_app st a b : after (after st a) b = after st (a ++ b).
Proof.
  unfold after. simpl. f_equal; [set_solver| |].
  - by rewrite fmap_app, app_assoc.
  - unfold sum_len. rewrite foldr_app. clear. induction a; simpl; lia.
Qed.

Lemma collect_set_honest ixs bodies s st :
  try_map (push_chunk wire m data) ixs = Ok bodies ->
  NoDup ixs -> (forall i, i ∈ ixs -> i ∈ co_requested st) ->
  collect_set wire m ixs (concat bodies ++ s) st = (Ok s, after st ixs).
Proof.
  intros H%try_map_ok. revert st. induction H as [|i b ixs bodies Hb H IH]; intros st Hn Hr.
  { simpl. f_equal. destruct st. unfold after. simpl. f_equal; [set_solver|by rewrite app_nil_r|lia]. }
  apply NoDup_cons in Hn as [Hi Hn]. simpl.
  rewrite bool_decide_eq_true_2 by (apply Hr; by left). cbn [negb].
  destruct (push_chunk_recv i b (concat bodies ++ s) Hb) as (c & C & R & L).
  rewrite <-app_assoc, R, Z.eqb_refl. cbn [negb]. rewrite C. cbn [is_some_and].
  rewrite Z.eqb_refl, bool_decide_eq_true_2 by done. cbn [andb negb].
  replace (Z.to_nat (ck_len c)) with (length (bytes_at i)) by (unfold zlen in L; lia).
  rewrite read_exact_app. simpl. rewrite IH; [|done|].
  - f_equal. change (i :: ixs) with ([i] ++ ixs). rewrite <-after_app. f_equal.
    unfold after. simpl. f_equal; [set_solver|]. unfold len_at. rewrite C. lia.
  - intros k Hk. simpl. apply elem_of_difference. split; [apply Hr; by right|].
    rewrite elem_of_singleton. by intros ->.
Qed.

Lemma after_nil st : after st [] = st.
Proof. destruct st. unfold after. simpl. f_equal; [set_solver|by rewrite app_nil_r|lia]. Qed.

Lemma collect_batches_honest batches bodies fin fuel n st :
  Forall2 (fun b body => push_batch wire m data b = Ok body) batches bodies ->
  wire_send wire SetDone = Ok fin ->
  Forall (fun b => b <> [] /\ zlen b <= CHUNKSET_BATCH) batches ->
  NoDup (concat batches) -> (forall i, i ∈ concat batches -> i ∈ co_requested st) ->
  (length batches < fuel)%nat -> 0 <= n -> (batches <> [] \/ 0 < n) ->
  collect_stream fuel wire m (concat bodies ++ fin) n st = (Ok tt, after st (concat batches)).
Proof.
  intros H Hf. revert fuel n st. induction H as [|b body batches bodies Hb H IH];
    intros fuel n st Hz Hn Hr Hfuel Hn0 Hne; (destruct fuel as [|fuel]; [simpl in Hfuel; lia|]).
  { destruct Hne as [|Hne]; [done|]. simpl. rewrite after_nil.
    rewrite <-(app_nil_r fin), (wire_send_recv SetDone fin []) by done.
    by rewrite (proj2 (Z.ltb_lt _ _)). }
  apply Forall_cons in Hz as [[Hb1 Hb2] Hz]. simpl in Hn, Hr. apply NoDup_app in Hn as (Nb & Nd & Nr).
  unfold push_batch in Hb. destruct (wire_send wire (ChunkSet b)) as [set|] eqn:Es; [|done].
  destruct (try_map _ b) as [bs'|] eqn:Eb; [|done]. apply Ok_inj in Hb as <-.
  cbn [collect_stream concat]. rewrite <-!app_assoc, (wire_send_recv (ChunkSet b) set) by done.
  rewrite bool_decide_eq_false_2, (proj2 (Z.ltb_ge _ _)) by done. cbn [orb].
  rewrite (collect_set_honest b bs' _ st Eb Nb) by (intros i Hi; apply Hr, elem_of_app; by left).
  rewrite IH; [by rewrite after_app|done|done| |simpl in Hfuel; lia| |].
  - intros i Hi. simpl. apply elem_of_difference. split; [apply Hr, elem_of_app; by right|].
    rewrite elem_of_list_to_set. intros Hi'. by apply (Nd i).
  - pose proof (zlen_nonneg b). lia.
  - right. destruct b; [done|]. rewrite zlen_cons. pose proof (zlen_nonneg b). lia.
Qed.

Lemma push_batch_length b body : push_batch wire m data b = Ok body -> (1 <= length body)%nat.
Proof.
  unfold push_batch. destruct (wire_send wire (ChunkSet b)) as [set|] eqn:E; [|done].
  destruct (try_map _ b) as [bs'|]; [|done]. intros <-%Ok_inj. rewrite length_app.
  apply write_frame_bounded in E. unfold zlen in E. lia.
Qed.

Lemma collect_stream_honest mine s st :
  push_stream wire m data mine = Ok s -> mine <> [] -> NoDup mine ->
  (forall i, i ∈ mine -> i ∈ co_requested st) ->
  collect_stream (S (length s)) wire m s 0 st = (Ok tt, after st mine).
Proof.
  intros H Hne Hn Hr. unfold push_stream in H.
  destruct (try_map _ (chunks_of CHUNKSET_BATCH mine)) as [bodies|] eqn:E; [|done].
  destruct (wire_send wire SetDone) as [fin|] eqn:Ef; [|done]. apply Ok_inj in H as <-.
  apply try_map_ok in E. pose proof (chunks_of_concat CHUNKSET_BATCH mine eq_refl) as Ec.
  assert (L : (length (chunks_of CHUNKSET_BATCH mine) <= length (concat bodies))%nat).
  { clear -E. induction E as [|b body bs' bodies Hb E IH]; [done|]. simpl.
    rewrite length_app. apply push_batch_length in Hb. lia. }
  rewrite (collect_batches_honest (chunks_of CHUNKSET_BATCH mine)); rewrite ?Ec; try done.
  - by apply chunks_of_bounds.
  - rewrite length_app. lia.
  - left. intros K. by rewrite K in Ec.
Qed.

(** The streams of distinct shares, in the order [shares] they arrive. *)
Lemma collect_streams_honest shares streams n st :
  Forall2 (fun mine s => push_stream wire m data mine = Ok s) shares streams ->
  Forall (fun mine => mine <> []) shares -> NoDup (concat shares) ->
  (forall i, i ∈ co_requested st <-> i ∈ concat shares) ->
  n + zlen shares <= sl_fetch_streams (wr_limits wire) ->
  collect_streams wire m streams n st = (Ok tt, after st (concat shares)).
Proof.
  intros H. revert n st. induction H as [|mine s shares streams Hs H IH]; intros n st Hne Hn Hr Hw.
  { cbn [collect_streams]. rewrite after_nil. rewrite bool_decide_eq_true_2; [done|].
    apply leibniz_equiv. intros i. rewrite Hr. simpl. set_solver. }
  apply Forall_cons in Hne as [Hm Hne]. cbn [concat] in Hn, Hr. apply NoDup_app in Hn as (Nm & Nd & Nr).
  cbn [collect_streams]. rewrite bool_decide_eq_false_2.
  2:{ intros K. destruct mine as [|i mine]; [done|].
      assert (i ∈ co_requested st) by (apply Hr; by left). set_solver. }
  rewrite zlen_cons in Hw. pose proof (zlen_nonneg shares).
  rewrite (proj2 (Z.ltb_ge _ _)) by lia.
  rewrite (collect_stream_honest mine s st Hs Hm Nm)
    by (intros i Hi; apply Hr, elem_of_app; by left).
  rewrite (IH (n + 1)); [by rewrite after_app|done|done| |lia].
  intros i. simpl. rewrite elem_of_difference, elem_of_list_to_set, Hr, elem_of_app.
  split; [naive_solver|]. intros Hi. split; [by right|]. intros Hi'. by apply (Nd i).
Qed.

Lemma Forall2_arrive {A B} (P : A -> B -> Prop) l k k' :
  Forall2 P l k -> k ≡ₚ k' -> exists l', l ≡ₚ l' /\ Forall2 P l' k'.
Proof.
  intros H Hk. revert l H. induction Hk as [|y k k' Hk IH|y y' k|k1 k2 k3 H1 IH1 H2 IH2]; intros l H.
  - exists l. done.
  - inversion H as [|x ? l0 ? Px Hl]; subst. destruct (IH l0 Hl) as (l' & E & F).
    exists (x :: l'). split; [by constructor|by constructor].
  - inversion H as [|x ? l0 ? Px Hl]; subst. inversion Hl as [|x' ? l1 ? Px' Hl1]; subst.
    exists (x' :: x :: l1). split; [constructor|by repeat constructor].
  - destruct (IH1 l H) as (l' & E & F). destruct (IH2 l' F) as (l'' & E' & F').
    exists l''. split; [by etrans|done].
Qed.

Lemma concat_perm {A} (l k : list (list A)) : l ≡ₚ k -> concat l ≡ₚ concat k.
Proof. induction 1; simpl; [done|by f_equiv|rewrite !app_assoc; f_equiv; apply Permutation_app_comm|by etrans]. Qed.

Lemma store_jobs_runs ixs w j :
  j_manifest j = m -> ready good data w j -> NoDup ixs ->
  (forall i, i ∈ ixs -> 0 <= i < zlen (mf_chunks m) /\ i ∉ j_have j) ->
  exists w', store_jobs j (job <$> ixs) w
             = (Ok (with_have j (list_to_set ixs ∪ j_have j) (j_fetched j + zlen ixs)), w')
    /\ ready good data w' (with_have j (list_to_set ixs ∪ j_have j) (j_fetched j + zlen ixs)).
Proof.
  revert w j. induction ixs as [|i ixs IH]; intros w j Em R Hn Hi.
  { exists w. csimpl. rewrite Z.add_0_r, union_empty_l_L. by destruct j. }
  apply NoDup_cons in Hn as [Ni Hn]. destruct (Hi i) as [Hr Hh]; [by left|].
  rewrite <-Em in Hr. destruct (chunk_at_some _ _ Hr) as (c & C).
  destruct (store_runs good data w j i c R C Hh) as (w1 & R1 & R1').
  set (j1 := with_have j ({[i]} ∪ j_have j) (j_fetched j + 1)) in *.
  destruct (IH w1 j1) as (w2 & E2 & R2); [done|done|done| |].
  { intros k Hk. destruct (Hi k) as [H1 H2]; [by right|]. split; [done|]. simpl.
    rewrite not_elem_of_union, not_elem_of_singleton. split; [by intros ->|done]. }
  assert (Ej : with_have j1 (list_to_set ixs ∪ j_have j1) (j_fetched j1 + zlen ixs)
             = with_have j (list_to_set (i :: ixs) ∪ j_have j) (j_fetched j + zlen (i :: ixs))).
  { unfold with_have. simpl. rewrite zlen_cons. f_equal; [set_solver|lia]. }
  rewrite Ej in E2, R2. exists w2. split; [|done].
  assert (Eb : job i = (i, chunk_bytes data c)) by (unfold job, bytes_at; by rewrite <-Em, C).
  rewrite fmap_cons, Eb. cbn [store_jobs]. unfold io_bind. rewrite (proj1 R1). exact E2.
Qed.

Lemma bitmap_need j :
  j_manifest j = m ->
  bits_to_indices (need_bits (total j) (j_have j)) (zlen (mf_chunks m)) = Ok (need j).
Proof.
  intros Em. unfold total, need. rewrite Em. apply bits_to_indices_need.
  pose proof (zlen_nonneg (mf_chunks m)). pose proof (ds_count _ _ data_of). lia.
Qed.

Lemma complete_all j have f :
  j_manifest j = m ->
  (forall i, i ∈ have <-> 0 <= i < zlen (mf_chunks m)) -> complete (with_have j have f) = true.
Proof.
  intros Em H. unfold complete. simpl. apply bool_decide_eq_true_2. rewrite Em.
  assert (E : have = list_to_set (seqZ 0 (zlen (mf_chunks m)))).
  { apply leibniz_equiv. intros i. rewrite elem_of_list_to_set, elem_of_seqZ, H. lia. }
  rewrite E, size_list_to_set by apply NoDup_seqZ. rewrite length_seqZ. unfold zlen. lia.
Qed.

Variable stop : world -> bool * world.
Hypothesis stop_law : forall w b w', stop w = (b, w') -> same_entries w w'.
Hypothesis stop_quiet : forall w, good w -> exists w', stop w = (false, w') /\ good w'.

(** The bitmap reaches the holder, whose streams are collected in any order. *)
Lemma collect_honest streams arrived j :
  j_manifest j = m -> 0 < sl_fetch_streams (wr_limits wire) ->
  push_chunks wire m data (need j) = Ok streams -> arrived ≡ₚ streams ->
  exists ixs, ixs ≡ₚ need j
    /\ collect_streams wire m arrived 0 (mkCollect (list_to_set (need j)) [] 0)
       = (Ok tt, after (mkCollect (list_to_set (need j)) [] 0) ixs).
Proof.
  intros Em Hw Hp Ha. unfold push_chunks in Hp. set (width := Z.to_nat _) in Hp.
  apply try_map_ok in Hp.
  destruct (Forall2_arrive _ _ _ arrived Hp) as (shares & Es & Hs); [by symmetry|].
  assert (Pc : concat shares ≡ₚ need j).
  { etrans; [symmetry; by apply concat_perm|]. rewrite concat_filter_nonempty.
    apply step_by_partition. lia. }
  exists (concat shares). split; [done|]. apply collect_streams_honest; [done| | | |].
  - rewrite <-Es. apply Forall_forall. by intros l [? _]%list_elem_of_filter.
  - rewrite Pc. apply need_nodup.
  - intros i. simpl. by rewrite elem_of_list_to_set, Pc.
  - rewrite <-(zlen_Permutation _ _ Es).
    pose proof (length_filter (fun l => l <> []) ((fun k => step_by width k (need j)) <$> seq 0 width)) as L.
    rewrite length_fmap, length_seq in L. unfold zlen. lia.
Qed.

(** C7: A holder of [data] and a receiver with a journal in any resumable state complete
    the transfer: the receiver's bitmap is decoded to the missing chunks, the streams
    the holder writes for them may arrive in any order, and the destination becomes
    exactly the file, at the cost of exactly the missing chunks. *)
Theorem transfer_completes handled indices streams arrived w j :
  j_manifest j = m -> ready good data w j -> 0 < sl_fetch_streams (wr_limits wire) ->
  bits_to_indices (need_bits (total j) (j_have j)) (zlen (mf_chunks m)) = Ok indices ->
  push_chunks wire m data indices = Ok streams -> arrived ≡ₚ streams ->
  exists w', receive_chunks stop wire m arrived handled j w
    = (Ok (j_dest_path j,
           mkStats (j_fetched j + zlen (need j)) (zlen (mf_chunks m)) (sum_len m (need j))), w')
    /\ dest_of j w' = Some (EFile data 1).
Proof.
  intros Em R Hw Hb Hp Ha. rewrite (bitmap_need j Em) in Hb. apply Ok_inj in Hb as <-.
  assert (Hm : zlen (mf_chunks (j_manifest j)) <= MAX_CHUNKS) by (rewrite Em; apply data_of).
  destruct (collect_honest streams arrived j Em Hw Hp Ha) as (ixs & Pc & Hc).
  destruct (store_jobs_runs ixs w j Em R) as (w1 & E1 & R1).
  { rewrite Pc. apply need_nodup. }
  { intros i Hi. rewrite Pc in Hi. apply need_elem in Hi as [H1 H2]; [|done]. by rewrite <-Em. }
  set (j1 := with_have j (list_to_set ixs ∪ j_have j) (j_fetched j + zlen ixs)) in *.
  assert (All : forall i, i ∈ j_have j1 <-> 0 <= i < zlen (mf_chunks m)).
  { intros i. simpl. rewrite elem_of_union, elem_of_list_to_set, Pc, need_elem, <-Em by done. split.
    - intros [[? _]|Hi]; [done|]. destruct (rd_parts _ _ _ _ R i Hi) as (c & C & _).
      by apply chunk_at_range in C.
    - intros Hi. destruct (decide (i ∈ j_have j)); auto. }
  assert (Cp : complete j1 = true) by (by apply (complete_all j)).
  destruct (assemble_runs good data stop stop_law stop_quiet w1 j1 R1 Cp) as (w2 & E2 & L2).
  { intros i. simpl. rewrite Em. apply All. }
  exists w2. split; [|done]. unfold receive_chunks. rewrite Hc. simpl.
  unfold io_bind at 1, text_err at 1. rewrite E1. simpl map_err. cbv iota. rewrite Cp. cbn [negb].
  unfold io_bind at 1, text_err at 1. rewrite E2. unfold io_ret, total. simpl. rewrite Em.
  by rewrite (sum_len_perm m _ _ Pc), (zlen_Permutation _ _ Pc).
Qed.
End Honest.

(** ** A concrete transfer *)

Definition wit_content : bytes := bs "hello".
Definition wit_chunk (o l : Z) : Chunk :=
  mkChunk (@blake3_hash toy_blake3 (slice wit_content o l)) o l.
Definition wit_file_manifest : Manifest :=
  mkFileManifest 5 (@blake3_hash toy_blake3 wit_content) [wit_chunk 0 3; wit_chunk 3 2].
(** The first chunk is already stored; the destination has an older file. *)
Definition wit_journal : Journal :=
  mkJournal 2 (bs "id") 4 3 1 2 (bs "f") (bs "root/f") wit_file_manifest {[0]} 0.
Definition wit_world : MemFs :=
  mkMem (<[(3, hex (ck_hash (wit_chunk 0 3))) := EFile (bs "hel") 1]>
         (<[(1, bs "f") := EFile (bs "old") 1]> ∅)) [].
Definition wit_messages : list (SyncMsg * bytes) :=
  [(ChunkSet [1], bs "s"); (ChunkHdr 1 (ck_hash (wit_chunk 3 2)) 2, bs "h"); (SetDone, bs "d")].
Definition wit_stop (w : MemFs) : bool * MemFs := (false, w).

Lemma wit_describes : @describes toy_blake3 wit_content wit_file_manifest.
Proof.
  split; try (vm_compute; repeat split; congruence).
  - repeat constructor.
  - repeat constructor; done.
  - intros c c' Hc Hc' E.
    repeat (apply elem_of_cons in Hc as [->|Hc] || apply elem_of_cons in Hc' as [->|Hc']);
      try (by apply not_elem_of_nil in Hc); try (by apply not_elem_of_nil in Hc');
      try done; by vm_compute in E.
Qed.

Lemma wit_apart : dest_apart wit_journal.
Proof.
  split_and!; [|by intros [=]|by intros b [=]]. intros [[K _]|[[K _]|[K _]]]; by vm_compute in K.
Qed.

#[local] Existing Instance mem_posix.
#[local] Existing Instance mem_posix_laws.
#[local] Existing Instance mem_reliable.
#[local] Existing Instance toy_blake3.
#[local] Instance wit_codec : Postcard SyncMsg := toy_postcard wit_messages.
#[local] Instance wit_codec_laws : PostcardLaws SyncMsg.
Proof. apply (toy_table_laws _ 1); [repeat constructor|]. by apply (bool_decide_unpack _). Qed.

Lemma wit_ready : ready mem_good wit_content wit_world wit_journal.
Proof.
  split.
  - by apply Forall_nil_2.
  - apply wit_describes.
  - apply wit_apart.
  - intros i Hi. assert (i = 0) as -> by (change (i ∈ ({[0]} : gset Z)) in Hi; set_solver).
    eexists. split; [reflexivity|]. by vm_compute.
  - by left.
  - intros c Hc. unfold replaceable. apply elem_of_cons in Hc as [->|Hc].
    + right. exists (bs "hel"), 1. by vm_compute.
    + apply list_elem_of_singleton in Hc as ->. left. by vm_compute.
  - by vm_compute.
  - right. by exists (bs "old"), 1.
  - by vm_compute.
Qed.

Lemma transfer_completes_witness :
  exists w', receive_chunks wit_stop V1 wit_file_manifest
      (match push_chunks V1 wit_file_manifest wit_content [1] with Ok s => s | Err _ => [] end)
      0 wit_journal wit_world
    = (Ok (bs "root/f", mkStats 1 2 2), w')
    /\ dest_of wit_journal w' = Some (EFile wit_content 1).
Proof.
  refine (transfer_completes mem_good wit_content wit_file_manifest V1 wit_describes wit_stop
    _ _ 0 [1] _ _ wit_world wit_journal eq_refl wit_ready _ _ _ _).
  - by intros w b w' [= <- <-].
  - intros w G. by exists w.
  - done.
  - by vm_compute.
  - by vm_compute.
  - done.
Defined.

Lemma wit_uniform : uniform wit_file_manifest.
Proof.
  intros c c' Hc Hc' E.
  repeat (apply elem_of_cons in Hc as [->|Hc] || apply elem_of_cons in Hc' as [->|Hc']);
    try (by apply not_elem_of_nil in Hc); try (by apply not_elem_of_nil in Hc');
    try done; by vm_compute in E.
Qed.

Lemma wit_have_ok : have_ok wit_world wit_journal.
Proof.
  intros i Hi. destruct (rd_parts _ _ _ _ wit_ready i Hi) as (c & C & L). exists c. split; [done|].
  exists (chunk_bytes wit_content c). split; [done|].
  apply (describes_verifies _ _ _ wit_describes), (chunk_at_elem _ _ _ C).
Qed.

Definition wit_streams : list bytes :=
  match push_chunks V1 wit_file_manifest wit_content [1] with Ok s => s | Err _ => [] end.

(** An honest stream, and a stream with the wrong bytes. *)
Lemma transfer_integrity_witness :
  let ok := receive_chunks wit_stop V1 wit_file_manifest wit_streams 0 wit_journal wit_world in
  let bad := receive_chunks wit_stop V1 wit_file_manifest [bs "noise"] 0 wit_journal wit_world in
  dest_verified wit_journal (snd ok)
  /\ have_ok (snd bad) wit_journal
  /\ (dest_of wit_journal (snd bad) = dest_of wit_journal wit_world
      \/ dest_verified wit_journal (snd bad)).
Proof.
  intros ok bad.
  assert (Hl : lens_typed wit_file_manifest) by (repeat constructor; done).
  assert (Hs : forall (w : MemFs) b w', wit_stop w = (b, w') -> same_entries w w').
  { by intros w b w' [= <- <-]. }
  assert (Hm : zlen (mf_chunks wit_file_manifest) <= MAX_CHUNKS) by done.
  pose proof (transfer_integrity wit_stop Hs V1 wit_streams 0 wit_journal wit_world (fst ok) (snd ok)
    wit_uniform Hl Hm wit_apart wit_have_ok (surjective_pairing ok)) as K.
  pose proof (transfer_integrity wit_stop Hs V1 [bs "noise"] 0 wit_journal wit_world (fst bad) (snd bad)
    wit_uniform Hl Hm wit_apart wit_have_ok (surjective_pairing bad)) as K'.
  assert (E : fst ok = Ok (bs "root/f", mkStats 1 2 2)) by (vm_compute; reflexivity).
  assert (E' : is_ok (fst bad) = false) by (vm_compute; reflexivity).
  rewrite E in K. split; [apply K|]. by destruct (fst bad) as [[]|].
Defined.
