(* ===== verification/Session.v ===== *)
(** * Serving a sync session

    Models the control side of [src/crates/rds-sync/src/engine.rs]: the reader that
    owns the control stream and its bounded queue ([ControlFrames]), the receive phase
    ([receive]) and the agent's handler of one session ([serve_inner]) with the access
    the agent derives from a grant. *)

From S2P Require Import Prelude Paths Crypto Grant Agent Frames SyncProto Confined Journal Transfer Complete.

(** ** The control reader *)

(** Why the reader stopped. *)
Inductive Cause : Type :=
| PeerCanceled (reason : bytes)
| PeerRefused (reason : bytes)
| PeerFlooded
| PeerUndecodable
| StreamEnded.

#[export] Instance Cause_eq_dec : EqDecision Cause.
Proof. solve_decision. Defined.

(** The raw frames that are still to arrive, the queue between the reader and the
    phases, the stop flag, the first recorded cause, and whether the reader runs. *)
Record ControlFrames : Type := mkControl {
  cf_input : list SyncMsg;
  cf_queue : list SyncMsg;
  cf_stop : bool;
  cf_cause : option Cause;
  cf_reading : bool
}.

(** [mpsc::channel(8)]. *)
Definition QUEUE_DEPTH : Z := 8.

(** [ControlFrames::open]. *)
Definition control_open (input : list SyncMsg) : ControlFrames :=
  mkControl input [] false None true.

(** [tx.try_send]; the receiving half lives as long as the session. *)
Definition try_send (queue : list SyncMsg) (msg : SyncMsg) : option (list SyncMsg) :=
  if zlen queue <? QUEUE_DEPTH then Some (queue ++ [msg]) else None.

(** The closure [record] and the end of the reader. *)
Definition reader_ends (c : ControlFrames) (input queue : list SyncMsg) (why : Cause)
    : ControlFrames :=
  mkControl input queue true (match cf_cause c with Some w => Some w | None => Some why end) false.

(** One round of the reader task. *)
Definition reader_step (wire : Wire) (c : ControlFrames) : ControlFrames :=
  if negb (cf_reading c) then c else
  match cf_input c with
  | [] => reader_ends c [] (cf_queue c) StreamEnded
  | raw :: input =>
      match wire_decode wire raw with
      | Err _ => reader_ends c input (cf_queue c) PeerUndecodable
      | Ok (Cancel reason) =>
          reader_ends c input
            (default (cf_queue c) (try_send (cf_queue c) (Cancel reason))) (PeerCanceled reason)
      | Ok (Refuse reason) =>
          reader_ends c input
            (default (cf_queue c) (try_send (cf_queue c) (Refuse reason))) (PeerRefused reason)
      | Ok msg =>
          match try_send (cf_queue c) msg with
          | Some queue => mkControl input queue (cf_stop c) (cf_cause c) true
          | None => reader_ends c input (cf_queue c) PeerFlooded
          end
      end
  end.

(** [ControlFrames::next]: the next queued frame, the closed queue, or nothing yet. *)
Inductive Next : Type := NextFrame (msg : SyncMsg) | NextClosed | NextWaits.
Definition control_next (c : ControlFrames) : Next * ControlFrames :=
  match cf_queue c with
  | msg :: queue =>
      (NextFrame msg, mkControl (cf_input c) queue (cf_stop c) (cf_cause c) (cf_reading c))
  | [] => (if cf_reading c then NextWaits else NextClosed, c)
  end.

(** An interleaving of the reader with the phases that take frames: the frames taken
    and the state reached. *)
Inductive Turn : Type := TRead | TTake.
Fixpoint control_run (wire : Wire) (turns : list Turn) (taken : list SyncMsg) (c : ControlFrames)
    : list SyncMsg * ControlFrames :=
  match turns with
  | [] => (taken, c)
  | TRead :: turns => control_run wire turns taken (reader_step wire c)
  | TTake :: turns =>
      let '(n, c) := control_next c in
      control_run wire turns (match n with NextFrame m => taken ++ [m] | _ => taken end) c
  end.

(** ** Receiving, as a phase of the session *)

(** How a peer or a lost control stream ends the data phase: while chunks are collected,
    after [handled] of the queued ones were stored, or later. *)
Inductive Abort : Type := AbortCollect (handled : nat) | AbortLater.

Section Serve.
Context `{HP : Posix, HB : Blake3, HM : Postcard Meta, HS : Postcard SyncMsg}.
Variable stop : world -> bool * world.

(** What is written: control messages, and whole chunk streams. *)
Record Sent : Type := mkSent { se_control : list SyncMsg; se_streams : list bytes }.
Definition say (ms : list SyncMsg) : Sent := mkSent ms [].

Definition serving (A : Type) : Type := world -> result A string * Sent * world.

(** [receive]: journal, the claim of the route of the chunk streams, [Need], chunks,
    [Done]. *)
Definition receive (open_root : io Z) (cdc : bytes -> list (result ChunkData IoError))
    (dir rel : bytes) (m : Manifest) (wire : Wire) (claimed : bool) (streams : list bytes)
    (handled : nat) (abort : option Abort) : serving (bytes * Stats) := fun w =>
  let '(j, w) := open_cancellable stop open_root cdc dir rel m w in
  match j with
  | Err e => (Err "cannot open transfer journal"%string, say [Refuse (bs "cannot open transfer journal")], w)
  | Ok j =>
      if negb claimed then (Err "claim sync uni streams"%string, say [], w) else
      let asked := Need (need_bits (total j) (j_have j)) in
      match abort with
      | Some (AbortCollect n) =>
          let '(_, st) :=
            collect_streams wire m streams 0 (mkCollect (list_to_set (need j)) [] 0) in
          let '(_, w) := store_jobs j (take n (co_jobs st)) w in
          (Err "peer canceled transfer"%string, say [asked], w)
      | Some AbortLater =>
          let '(_, w) := receive_chunks stop wire m streams handled j w in
          (Err "peer canceled transfer"%string, say [asked], w)
      | None =>
          let '(r, w) := receive_chunks stop wire m streams handled j w in
          match r with
          | Err e => (Err e, say [asked], w)
          | Ok out => (Ok out, say [asked; Done (mf_root m)], w)
          end
      end
  end.

(** What the session meets: how the root is opened (and created when the flag says so)
    and files are chunked; for a push, whether
    its route is free, its chunk streams with the progress and the abort of their
    reception; for a pull, the cancellation checks of the scan and whether a
    control frame comes while chunks are still written. *)
Record ServeEnv : Type := mkServeEnv {
  sv_open_root : bool -> io Z;
  sv_cdc : bytes -> list (result ChunkData IoError);
  sv_claimed : bool;
  sv_streams : list bytes;
  sv_handled : nat;
  sv_abort : option Abort;
  sv_stops : nat -> bool;
  sv_took : bool
}.

(** The file of a checked path below the root: the preflight of a push, the source of a
    pull. *)
Definition open_below (env : ServeEnv) (rel : bytes) : io Entry :=
  let! r := sv_open_root env false in read_path r rel.

(** The [Offer] arm of [serve_inner]. The text of an error is its prefix: the paths and
    numbers the code formats into it are left out. *)
Definition serve_offer (env : ServeEnv) (dir : bytes) (access : Access) (wire : Wire)
    (rel_path : bytes) (size : Z) (root : bytes) (chunk_count : Z) (frames : list SyncMsg)
    : serving unit := fun w =>
  let refuse reason w : result unit string * Sent * world :=
    (Err reason, say [Refuse (bs reason)], w) in
  if negb (acc_write access) then refuse "sync write not granted"%string w else
  match check_rel_path rel_path with
  | Err e => refuse "manifest malformed"%string w
  | Ok rel =>
      if negb (permits_path access rel) then refuse "sync path outside granted scope"%string w else
      let '(preflight, w) := open_below env rel w in
      if match preflight with Ok _ | Err NotFound => false | Err _ => true end
      then refuse "sync destination not writable"%string w else
      match read_manifest wire size root chunk_count frames with
      | Err e => refuse "invalid sync manifest"%string w
      | Ok (m, _) =>
          let '((r, sent), w) :=
            receive (sv_open_root env true) (sv_cdc env) dir rel m wire (sv_claimed env)
              (sv_streams env) (sv_handled env) (sv_abort env) w in
          (match r with Ok _ => Ok tt | Err e => Err e end, sent, w)
      end
  end.

(** The [Request] arm of [serve_inner]. *)
Definition serve_request (env : ServeEnv) (access : Access) (wire : Wire) (rel_path : bytes)
    (frames : list SyncMsg) : serving unit := fun w =>
  let refuse reason w : result unit string * Sent * world :=
    (Err reason, say [Refuse (bs reason)], w) in
  if negb (acc_read access) then refuse "sync read not granted"%string w else
  match check_rel_path rel_path with
  | Err e => refuse "manifest malformed"%string w
  | Ok rel =>
      if negb (permits_path access rel) then refuse "sync path outside granted scope"%string w else
      let '(source, w) := open_below env rel w in
      match source with
      | Ok (EFile content _) =>
          match manifest_reader_cancellable_with (sv_cdc env content) (sv_stops env) with
          | Err e => (Err "build manifest"%string, say [], w)
          | Ok m =>
              let offer := send_manifest rel m in
              match head frames with
              | Some (Need bits) =>
                  match bits_to_indices bits (zlen (mf_chunks m)) with
                  | Err e => (Err "manifest malformed"%string, say offer, w)
                  | Ok indices =>
                      match push_chunks wire m content indices with
                      | Err e => (Err e, say offer, w)
                      | Ok streams =>
                          (let? (early, frames) := push_watch (sv_took env) (tail frames) in
                           recv_done early frames (mf_root m), mkSent offer streams, w)
                      end
                  end
              | Some (Refuse _) => (Err "pull refused"%string, say offer, w)
              | Some (Cancel _) => (Err "receiver canceled before chunks"%string, say offer, w)
              | _ => (Err "expected Need"%string, say offer, w)
              end
          end
      | _ => refuse "no such file"%string w
      end
  end.

(** [serve_inner]. *)
Definition serve_inner (env : ServeEnv) (dir : bytes) (access : Access) (wire : Wire)
    (frames : list SyncMsg) : serving unit := fun w =>
  match frames with
  | [] => (Err "sync control stream closed"%string, say [], w)
  | Offer rel_path size root chunk_count :: frames =>
      serve_offer env dir access wire rel_path size root chunk_count frames w
  | Request rel_path :: frames => serve_request env access wire rel_path frames w
  | Cancel reason :: _ => (Err "caller canceled before transfer started"%string, say [], w)
  | _ :: _ => (Err "unexpected first sync message"%string, say [], w)
  end.

End Serve.

(** ** The queue of the reader *)

(** The messages a stream decodes to, up to the first frame that does not. *)
Fixpoint decoded (wire : Wire) (input : list SyncMsg) : list SyncMsg :=
  match input with
  | [] => []
  | raw :: input =>
      match wire_decode wire raw with Ok m => m :: decoded wire input | Err _ => [] end
  end.

Record control_ok (wire : Wire) (all taken : list SyncMsg) (c : ControlFrames) : Prop := {
  ck_reading : cf_reading c = true -> taken ++ cf_queue c ++ decoded wire (cf_input c) = all;
  ck_prefix : taken ++ cf_queue c `prefix_of` all;
  ck_bound : zlen (cf_queue c) <= QUEUE_DEPTH;
  ck_stop : cf_stop c = negb (cf_reading c);
  ck_cause : is_some (cf_cause c) = negb (cf_reading c)
}.

Lemma try_send_some queue msg q :
  try_send queue msg = Some q -> q = queue ++ [msg] /\ zlen q <= QUEUE_DEPTH.
Proof.
  unfold try_send. destruct (Z.ltb_spec (zlen queue) QUEUE_DEPTH); [|done]. intros [= <-].
  rewrite zlen_app. unfold zlen at 2. simpl. split; [done|lia].
Qed.

Lemma reader_ends_ok wire all taken c input queue why :
  cf_cause c = None -> taken ++ queue `prefix_of` all -> zlen queue <= QUEUE_DEPTH ->
  control_ok wire all taken (reader_ends c input queue why).
Proof. intros E P B. split; simpl; try done. by rewrite E. Qed.

Lemma reader_step_ok wire all taken c :
  control_ok wire all taken c -> control_ok wire all taken (reader_step wire c).
Proof.
  intros K. unfold reader_step. destruct (cf_reading c) eqn:Er; [|done]. cbn [negb].
  destruct K as [K1 K2 K3 K4 K5]. specialize (K1 Er). rewrite Er in K4, K5.
  assert (Ec : cf_cause c = None) by (by destruct (cf_cause c)).
  destruct (cf_input c) as [|raw input] eqn:Ei; [by apply reader_ends_ok|]. simpl in K1.
  destruct (wire_decode wire raw) as [msg|e] eqn:Ed; [|by apply reader_ends_ok].
  assert (Put : forall q, try_send (cf_queue c) msg = Some q ->
    taken ++ q `prefix_of` all /\ zlen q <= QUEUE_DEPTH /\ taken ++ q ++ decoded wire input = all).
  { intros q [-> B]%try_send_some. split_and!; [|done|by rewrite <-app_assoc].
    exists (decoded wire input). rewrite <-K1. by rewrite <-!app_assoc. }
  assert (End : forall why, control_ok wire all taken
    (reader_ends c input (default (cf_queue c) (try_send (cf_queue c) msg)) why)).
  { intros why. destruct (try_send (cf_queue c) msg) as [q|]; simpl; [|by apply reader_ends_ok].
    destruct (Put q eq_refl) as (P1 & P2 & _). by apply reader_ends_ok. }
  assert (Go : control_ok wire all taken
    match try_send (cf_queue c) msg with
    | Some queue => mkControl input queue (cf_stop c) (cf_cause c) true
    | None => reader_ends c input (cf_queue c) PeerFlooded
    end).
  { destruct (try_send (cf_queue c) msg) as [q|]; [|by apply reader_ends_ok].
    destruct (Put q eq_refl) as (P1 & P2 & P3). by split. }
  destruct msg; first [exact Go|apply End].
Qed.

Lemma control_next_ok wire all taken c :
  control_ok wire all taken c ->
  control_ok wire all (match (control_next c).1 with NextFrame m => taken ++ [m] | _ => taken end)
    (control_next c).2.
Proof.
  intros K. unfold control_next. destruct (cf_queue c) as [|msg q] eqn:E; simpl.
  - by destruct (cf_reading c).
  - destruct K as [K1 K2 K3 K4 K5]. rewrite E in *. split; simpl; try done.
    + intros R. rewrite <-(K1 R). by rewrite <-!app_assoc.
    + by rewrite <-app_assoc.
    + rewrite zlen_cons in K3. lia.
Qed.

Lemma control_run_ok wire all turns taken c taken' c' :
  control_ok wire all taken c -> control_run wire turns taken c = (taken', c') ->
  control_ok wire all taken' c'.
Proof.
  revert taken c. induction turns as [|[] turns IH]; intros taken c K H; simpl in H.
  - by injection H as <- <-.
  - eapply IH; [|exact H]. by apply reader_step_ok.
  - apply control_next_ok in K. destruct (control_next c) as [n c1]. by eapply IH.
Qed.

(** Under every interleaving of the reader with the phases, the phases get the decoded
    frames in order without a gap, the queue stays bounded, and the stop flag is up
    exactly when the reader has ended and recorded a cause. *)
Theorem control_frames_in_order wire input turns taken c :
  control_run wire turns [] (control_open input) = (taken, c) ->
  taken ++ cf_queue c `prefix_of` decoded wire input
  /\ zlen (cf_queue c) <= QUEUE_DEPTH
  /\ cf_stop c = negb (cf_reading c) /\ is_some (cf_cause c) = cf_stop c.
Proof.
  intros H. apply (control_run_ok wire (decoded wire input)) in H as [K1 K2 K3 K4 K5].
  - split_and!; try done. congruence.
  - split; simpl; try done. apply prefix_nil.
Qed.

(** ** An honest sender can overrun the queue *)

Lemma wire_frame_decode wire msg :
  is_session msg = false -> (forall r, msg <> Cancel r) ->
  wire_decode wire (wire_frame wire msg) = Ok msg.
Proof.
  intros Hs Hc. destruct wire as [[tid|] limits]; unfold wire_frame, wire_decode; simpl.
  - destruct msg; try done; simpl; by rewrite bool_decide_eq_true_2.
  - destruct msg; try done. by destruct (Hc reason).
Qed.

(** The reader alone moves frames that fit from the stream to the queue. *)
Lemma read_parts wire parts input queue :
  zlen queue + zlen parts <= QUEUE_DEPTH ->
  control_run wire (replicate (length parts) TRead) []
    (mkControl ((wire_frame wire <$> (ManifestPart <$> parts)) ++ input) queue false None true)
  = ([], mkControl input (queue ++ (ManifestPart <$> parts)) false None true).
Proof.
  revert queue. induction parts as [|p parts IH]; intros queue H; csimpl.
  { by rewrite app_nil_r. }
  rewrite zlen_cons in H. pose proof (zlen_nonneg parts).
  unfold reader_step. cbn [cf_reading negb cf_input cf_queue cf_stop cf_cause].
  rewrite wire_frame_decode by done. unfold try_send.
  rewrite (proj2 (Z.ltb_lt _ _)) by lia.
  rewrite IH by (rewrite zlen_app; unfold zlen at 2; simpl; lia). by rewrite <-app_assoc.
Qed.

Lemma control_run_app wire a b taken c :
  control_run wire (a ++ b) taken c
  = control_run wire b (control_run wire a taken c).1 (control_run wire a taken c).2.
Proof.
  revert taken c. induction a as [|[] a IH]; intros taken c; simpl; [done|by apply IH|].
  destruct (control_next c). apply IH.
Qed.

Lemma control_run_taken wire turns taken c :
  (control_run wire turns taken c).1 = taken ++ (control_run wire turns [] c).1
  /\ (control_run wire turns taken c).2 = (control_run wire turns [] c).2.
Proof.
  revert taken c. induction turns as [|[] turns IH]; intros taken c; simpl.
  - by rewrite app_nil_r.
  - apply IH.
  - destruct (control_next c) as [n c1]. destruct n as [msg| |]; [|apply IH..].
    destruct (IH (taken ++ [msg]) c1) as [-> ->], (IH [msg] c1) as [-> ->].
    by rewrite <-app_assoc.
Qed.

Lemma manifest_parts_len count acc ps cs rest :
  manifest_parts count acc (ManifestPart <$> ps) = Ok (cs, rest) ->
  count <= zlen acc + zlen (concat ps).
Proof.
  revert acc. induction ps as [|p ps IH]; intros acc; csimpl.
  - destruct (Z.leb_spec count (zlen acc)); [|done]. unfold zlen at 2. simpl. lia.
  - destruct (Z.leb_spec count (zlen acc)) as [Hl|_].
    { intros _. pose proof (zlen_nonneg (p ++ concat ps)). lia. }
    destruct (_ || _); [done|]. intros K%IH. rewrite zlen_app in *. lia.
Qed.

Lemma chunks_of_count {A} n (l : list A) :
  0 < n -> zlen l <= n * zlen (chunks_of n l).
Proof.
  intros Hn. rewrite <-(chunks_of_concat n l Hn) at 1.
  induction (chunks_of_bounds n l Hn) as [|b bs' [_ Hb] _ IH]; simpl; [unfold zlen; simpl; lia|].
  rewrite zlen_app, zlen_cons. lia.
Qed.

(** The reader of a receiver that is still checking the destination reads ahead. *)
Definition read_ahead : list Turn := TRead :: TTake :: replicate 9 TRead.

Lemma flood_run wire rel size root count ps p rest :
  length ps = 8%nat ->
  control_run wire read_ahead []
    (control_open (wire_frame wire (Offer rel size root count)
       :: (wire_frame wire <$> (ManifestPart <$> ps)) ++ wire_frame wire (ManifestPart p) :: rest))
  = ([Offer rel size root count],
     mkControl rest (ManifestPart <$> ps) true (Some PeerFlooded) false).
Proof.
  intros L. change read_ahead with ([TRead; TTake] ++ replicate 8 TRead ++ [TRead]).
  rewrite control_run_app.
  assert (E1 : control_run wire [TRead; TTake] []
    (control_open (wire_frame wire (Offer rel size root count)
       :: (wire_frame wire <$> (ManifestPart <$> ps)) ++ wire_frame wire (ManifestPart p) :: rest))
    = ([Offer rel size root count],
       mkControl ((wire_frame wire <$> (ManifestPart <$> ps)) ++ wire_frame wire (ManifestPart p) :: rest)
         [] false None true)).
  { unfold control_open. cbn [control_run]. unfold reader_step. cbn [cf_reading negb cf_input].
    by rewrite wire_frame_decode. }
  rewrite E1. cbn [fst snd]. rewrite control_run_app.
  destruct (control_run_taken wire (replicate 8 TRead) [Offer rel size root count]
    (mkControl ((wire_frame wire <$> (ManifestPart <$> ps)) ++ wire_frame wire (ManifestPart p) :: rest)
       [] false None true)) as [-> ->].
  rewrite <-L, read_parts by (unfold zlen; rewrite L; done). cbn [fst snd app control_run].
  unfold reader_step. cbn [cf_reading negb cf_input cf_queue].
  rewrite wire_frame_decode by done. unfold try_send.
  rewrite (proj2 (Z.ltb_ge _ _)); [done|]. unfold zlen. by rewrite length_fmap, L.
Qed.

(** C38: An honest sender writes its manifest without waiting, so the reader of the receiver
    may find more parts than its queue holds: for every file of more than 4096 chunks
    there is an interleaving in which the receiver records that the peer flooded the
    control queue, drops a part of the manifest and refuses the transfer. *)
Theorem honest_offer_can_flood wire rel m :
  QUEUE_DEPTH * MANIFEST_BATCH < zlen (mf_chunks m) <= MAX_CHUNKS ->
  let '(taken, c) :=
    control_run wire read_ahead [] (control_open (wire_frame wire <$> send_manifest rel m)) in
  taken = [Offer rel (mf_size m) (mf_root m) (zlen (mf_chunks m))]
  /\ cf_cause c = Some PeerFlooded
  /\ is_ok (read_manifest wire (mf_size m) (mf_root m) (zlen (mf_chunks m)) (cf_queue c)) = false.
Proof.
  intros [Hlo Hhi]. set (parts := chunks_of MANIFEST_BATCH (mf_chunks m)).
  pose proof (chunks_of_count MANIFEST_BATCH (mf_chunks m) eq_refl) as Hp. fold parts in Hp.
  assert (Hn : (8 < length parts)%nat).
  { change QUEUE_DEPTH with 8 in Hlo. change MANIFEST_BATCH with 512 in Hlo, Hp.
    unfold zlen in *. lia. }
  assert (E : parts = take 8 parts ++ drop 8 parts) by (by rewrite take_drop).
  assert (L8 : length (take 8 parts) = 8%nat) by (rewrite length_take; lia).
  destruct (drop 8 parts) as [|p9 rest] eqn:Ed.
  { apply (f_equal length) in Ed. rewrite length_drop in Ed. simpl in Ed. lia. }
  unfold send_manifest. fold parts. rewrite Z.mod_small
    by (pose proof (zlen_nonneg (mf_chunks m)); unfold MAX_CHUNKS in Hhi; lia).
  assert (Ep : ManifestPart <$> parts
               = (ManifestPart <$> take 8 parts) ++ ManifestPart p9 :: (ManifestPart <$> rest)).
  { rewrite <-fmap_cons, <-fmap_app. by f_equal. }
  rewrite fmap_cons, Ep, fmap_app, fmap_cons, flood_run by done.
  split_and!; [done|done|]. cbn [cf_queue]. unfold read_manifest.
  rewrite (proj2 (Z.ltb_ge _ _)) by done. destruct (_ && _); [done|].
  destruct (manifest_parts _ _ _) as [[cs fr]|] eqn:Em; [|done].
  apply manifest_parts_len in Em.
  assert (zlen (concat (take 8 parts)) <= QUEUE_DEPTH * MANIFEST_BATCH).
  { assert (F : Forall (fun b => zlen b <= MANIFEST_BATCH) (take 8 parts)).
    { apply Forall_take. eapply Forall_impl; [by apply chunks_of_bounds|]. by intros b [_ ?]. }
    clear -F L8. revert F L8. generalize (take 8 parts). intros l F L.
    assert (G : zlen (concat l) <= MANIFEST_BATCH * zlen l).
    { clear L. induction F as [|b l Hb F IH]; simpl; [done|]. rewrite zlen_app, zlen_cons. lia. }
    unfold zlen in G at 2. rewrite L in G. done. }
  unfold zlen at 2 in Em. simpl in Em. lia.
Qed.

(** ** The manifest on the wire *)

Lemma manifest_parts_read ps acc rest :
  Forall (fun p => p <> [] /\ zlen p <= MANIFEST_BATCH) ps ->
  manifest_parts (zlen acc + zlen (concat ps)) acc ((ManifestPart <$> ps) ++ rest)
  = Ok (acc ++ concat ps, rest).
Proof.
  intros F. revert acc. induction F as [|p ps [Hne Hp] F IH]; intros acc.
  - simpl. unfold zlen at 2. simpl. rewrite Z.add_0_r, app_nil_r.
    destruct rest; simpl; by rewrite Z.leb_refl.
  - rewrite fmap_cons. simpl. rewrite zlen_app. pose proof (zlen_nonneg (concat ps)).
    assert (0 < zlen p) by (destruct p; [done|]; rewrite zlen_cons; pose proof (zlen_nonneg p); lia).
    rewrite (proj2 (Z.leb_gt _ _)) by lia.
    rewrite bool_decide_eq_false_2, !(proj2 (Z.ltb_ge _ _)) by (done || lia). cbn [orb].
    rewrite Z.add_assoc, <-zlen_app, IH. by rewrite <-app_assoc.
Qed.

(** What a session may carry: the negotiated bounds of version 2. *)
Definition within_limits (wire : Wire) (m : Manifest) : Prop :=
  is_v2 wire = true ->
  zlen (mf_chunks m) <= sl_max_chunks (wr_limits wire)
  /\ Forall (fun c => ck_len c <= sl_max_chunk (wr_limits wire)) (mf_chunks m).

Lemma existsb_above limit (cs : list Chunk) :
  existsb (fun c => limit <? ck_len c) cs = false <-> Forall (fun c => ck_len c <= limit) cs.
Proof.
  induction cs as [|c cs IH]; simpl; [done|]. rewrite orb_false_iff, IH, Z.ltb_ge, Forall_cons. done.
Qed.

(** A manifest reaches the receiver as it was sent, and a receiver accepts only
    contiguous, bounded manifests of the announced size, root and number of chunks. *)
Theorem manifest_exchange wire rel m rest :
  check_manifest m = Ok tt -> within_limits wire m ->
  (exists parts, send_manifest rel m
     = Offer rel (mf_size m) (mf_root m) (zlen (mf_chunks m)) :: parts
     /\ read_manifest wire (mf_size m) (mf_root m) (zlen (mf_chunks m)) (parts ++ rest) = Ok (m, rest))
  /\ forall size root count frames m' rest',
       read_manifest wire size root count frames = Ok (m', rest') ->
       check_manifest m' = Ok tt /\ within_limits wire m'
       /\ mf_size m' = size /\ mf_root m' = root /\ zlen (mf_chunks m') = count.
Proof.
  intros Hc Hw. assert (Hm : zlen (mf_chunks m) <= MAX_CHUNKS).
  { unfold check_manifest in Hc. destruct (Z.ltb_spec MAX_CHUNKS (zlen (mf_chunks m))); [done|lia]. }
  pose proof (zlen_nonneg (mf_chunks m)). split.
  - exists (ManifestPart <$> chunks_of MANIFEST_BATCH (mf_chunks m)). split.
    { unfold send_manifest. rewrite Z.mod_small; [done|]. unfold MAX_CHUNKS in Hm. lia. }
    unfold read_manifest. rewrite (proj2 (Z.ltb_ge _ _)) by done.
    pose proof (manifest_parts_read (chunks_of MANIFEST_BATCH (mf_chunks m)) [] rest
      (chunks_of_bounds MANIFEST_BATCH _ eq_refl)) as R.
    rewrite (chunks_of_concat MANIFEST_BATCH) in R by done. change (zlen (@nil Chunk)) with 0 in R.
    rewrite Z.add_0_l in R. cbn [app] in R. rewrite R, Z.eqb_refl. cbn [negb].
    destruct m as [size root cs]. simpl in *. rewrite Hc. simpl.
    destruct (is_v2 wire) eqn:V; [|done]. destruct (Hw V) as [W1 W2]. simpl in W1, W2.
    rewrite (proj2 (Z.ltb_ge _ _)) by done. simpl. by rewrite (proj2 (existsb_above _ _)).
  - intros size root count frames m' rest' R. unfold read_manifest in R.
    destruct (MAX_CHUNKS <? count); [done|]. destruct (is_v2 wire && _) eqn:V1; [done|].
    destruct (manifest_parts count [] frames) as [[cs fr]|]; [|done].
    destruct (negb (zlen cs =? count)) eqn:Ec; [done|]. apply negb_false_iff, Z.eqb_eq in Ec.
    destruct (check_manifest _) as [[]|] eqn:Ck in R; [|done]. simpl in R.
    destruct (is_v2 wire && existsb _ _) eqn:V2; [done|]. injection R as <- <-.
    split_and!; try done. intros V. rewrite V in V1, V2. simpl in V1, V2.
    apply Z.ltb_ge in V1. apply existsb_above in V2. simpl. split; [lia|done].
Qed.

(** ** A session stays within its grant *)

Section Authorized.
Context `{HP : Posix, HL : !PosixLaws, HB : Blake3, HM : Postcard Meta, HS : Postcard SyncMsg}.
Variable stop : world -> bool * world.

(** The path a peer names is inside the signed scope. *)
Definition path_in_grant (g : VerifiedGrant) (p : bytes) : Prop :=
  match c_sync_paths (p_constraints (v_payload g)) with
  | Some scopes => exists s, s ∈ scopes /\ rel_comps s `prefix_of` rel_comps p
  | None => True
  end.

Definition is_offer (msg : SyncMsg) : bool := match msg with Offer _ _ _ _ => true | _ => false end.
(** The content of a file leaves with its manifest or its chunks. *)
Definition discloses (sent : Sent) : bool :=
  existsb is_offer (se_control sent) || negb (bool_decide (se_streams sent = [])).

Lemma receive_discloses_nothing open_root cdc dir rel m wire claimed streams handled abort w r sent w' :
  receive stop open_root cdc dir rel m wire claimed streams handled abort w = (r, sent, w') ->
  discloses sent = false.
Proof.
  unfold receive. intros H. destruct (open_cancellable _ _ _ _ _ _ _) as [[j|e] w1];
    [|by injection H as _ <- _].
  destruct (negb claimed); [by injection H as _ <- _|]. destruct abort as [[n|]|].
  - destruct (collect_streams _ _ _ _ _) as [r2 st]. destruct (store_jobs _ _ _) as [r3 w3].
    by injection H as _ <- _.
  - destruct (receive_chunks _ _ _ _ _ _ _) as [r2 w2]. by injection H as _ <- _.
  - destruct (receive_chunks _ _ _ _ _ _ _) as [[out|e] w2]; by injection H as _ <- _.
Qed.

Lemma offer_gated env dir access wire p size root count frames w r sent w' :
  touches nothing (sv_open_root env false) ->
  serve_offer stop env dir access wire p size root count frames w = (r, sent, w') ->
  discloses sent = false
  /\ (same_entries w w'
      \/ acc_write access = true /\ exists rel, check_rel_path p = Ok rel /\ permits_path access rel = true).
Proof.
  intros T H. unfold serve_offer in H.
  destruct (acc_write access) eqn:Ew; cbn [negb] in H; [|injection H as _ <- <-; split; [done|by left]].
  destruct (check_rel_path p) as [rel|] eqn:Er; [|injection H as _ <- <-; split; [done|by left]].
  destruct (permits_path access rel) eqn:Ep; cbn [negb] in H;
    [|injection H as _ <- <-; split; [done|by left]].
  split; [|right; eauto].
  destruct (open_below _ _ w) as [pre w1]. set (bad := match pre with Ok _ | Err NotFound => false | Err _ => true end) in H.
  destruct bad; [by injection H as _ <- _|].
  destruct (read_manifest _ _ _ _ _) as [[m fr]|]; [|by injection H as _ <- _].
  destruct (receive _ _ _ _ _ _ _ _ _ _ _ w1) as [[r2 sent2] w2] eqn:R.
  injection H as _ <- _. by eapply receive_discloses_nothing.
Qed.

Lemma request_gated env access wire p frames w r sent w' :
  touches nothing (sv_open_root env false) ->
  serve_request env access wire p frames w = (r, sent, w') ->
  same_entries w w'
  /\ (discloses sent = false
      \/ acc_read access = true /\ exists rel, check_rel_path p = Ok rel /\ permits_path access rel = true).
Proof.
  intros T H. unfold serve_request in H.
  destruct (acc_read access) eqn:Ew; cbn [negb] in H; [|injection H as _ <- <-; split; [done|by left]].
  destruct (check_rel_path p) as [rel|] eqn:Er; [|injection H as _ <- <-; split; [done|by left]].
  destruct (permits_path access rel) eqn:Ep; cbn [negb] in H;
    [|injection H as _ <- <-; split; [done|by left]].
  split; [|right; eauto].
  destruct (open_below _ _ w) as [source w1] eqn:E.
  assert (F : same_entries w w1).
  { eapply touches_same; [|exact E]. unfold open_below. apply touches_bind; [done|]. intros d.
    unfold read_path, parent. touches. }
  assert (w' = w1) as ->; [|done].
  destruct source as [[content l|i|]|e]; try by injection H as _ _ <-.
  destruct (manifest_reader_cancellable_with _ _) as [m|]; [|by injection H as _ _ <-].
  destruct (head frames) as [[]|]; try by injection H as _ _ <-.
  destruct (bits_to_indices _ _); [|by injection H as _ _ <-].
  destruct (push_chunks _ _ _ _); by injection H as _ _ <-.
Qed.

(** C8: Whatever frames and streams a peer sends under a grant, and whatever calls fail: the
    disk changes only for a push the grant allows into its scope, and file content
    leaves only for a pull the grant allows from its scope. *)
Theorem serve_within_grant env dir g wire frames w r sent w' :
  payload_ok (v_payload g) -> touches nothing (sv_open_root env false) ->
  serve_inner stop env dir (sync_access (Some g)) wire frames w = (r, sent, w') ->
  (same_entries w w' \/ exists p size root count rest, frames = Offer p size root count :: rest
     /\ permits_sync_write g = true /\ path_in_grant g p)
  /\ (discloses sent = false \/ exists p rest, frames = Request p :: rest
     /\ permits_sync_read g = true /\ path_in_grant g p).
Proof.
  intros Hg T H. unfold serve_inner in H.
  assert (Scope : forall p rel, check_rel_path p = Ok rel ->
    permits_path (sync_access (Some g)) rel = true -> path_in_grant g p).
  { intros p rel Hr Hp. by apply (sync_access_scope g p rel). }
  destruct frames as [|[] frames]; try (injection H as _ <- <-; split; by left).
  - apply offer_gated in H as [D [F|(W & rel & Hr & Hp)]]; [split; by left| |done].
    split; [right|by left]. by eexists _, _, _, _, _; split_and!; [..|eapply Scope].
  - apply request_gated in H as [F [D|(W & rel & Hr & Hp)]]; [split; by left| |done].
    split; [by left|right]. by eexists _, _; split_and!; [..|eapply Scope].
Qed.
End Authorized.

(** ** Witnesses *)

(** The frames of an offer read while the phases take one. *)
Lemma control_frames_witness :
  let input := [Offer (bs "f") 5 (bs "r") 2; ManifestPart []; SetDone] in
  [Offer (bs "f") 5 (bs "r") 2; ManifestPart []] `prefix_of` decoded V1 input.
Proof.
  intros input.
  assert (K : control_run V1 [TRead; TRead; TTake] [] (control_open input)
    = ([Offer (bs "f") 5 (bs "r") 2], mkControl [SetDone] [ManifestPart []] false None true))
    by (vm_compute; reflexivity).
  apply (control_frames_in_order _ _ _ _ _ K).
Defined.

(** A file of 4097 chunks. *)
Definition wit_large : Manifest :=
  mkFileManifest 0 [] (replicate 4097 (mkChunk [] 0 1)).

Lemma honest_offer_witness :
  cf_cause (control_run V1 read_ahead []
    (control_open (wire_frame V1 <$> send_manifest (bs "f") wit_large))).2 = Some PeerFlooded.
Proof.
  assert (H : QUEUE_DEPTH * MANIFEST_BATCH < zlen (mf_chunks wit_large) <= MAX_CHUNKS)
    by (vm_compute; split; congruence).
  pose proof (honest_offer_can_flood V1 (bs "f") wit_large H) as K.
  destruct (control_run V1 read_ahead [] _) as [taken c]. apply K.
Defined.

Lemma manifest_exchange_witness :
  exists parts, send_manifest (bs "f") wit_file_manifest
    = Offer (bs "f") 5 (mf_root wit_file_manifest) 2 :: parts
    /\ read_manifest V1 5 (mf_root wit_file_manifest) 2 (parts ++ []) = Ok (wit_file_manifest, []).
Proof.
  assert (Hc : check_manifest wit_file_manifest = Ok tt) by (vm_compute; reflexivity).
  apply (manifest_exchange V1 (bs "f") wit_file_manifest [] Hc). by intros [=].
Defined.

(** A pull of a file in the scope of the grant, on a disk that holds it. *)
Definition wit_root : MemFs :=
  mkMem (<[(1, bs "docs") := EDir 2]> (<[(2, bs "a") := EFile wit_content 1]> ∅)) [].
Definition wit_serve_env : ServeEnv (HP := mem_posix) :=
  mkServeEnv (HP := mem_posix) (fun _ => io_ret 1)
    (fun data => [Ok (mkChunkData data 0 (zlen data))]) true [] 0 None (fun _ => false) false.
#[local] Instance wit_meta : Postcard Meta := toy_postcard [].
#[local] Instance wit_sync : Postcard SyncMsg := toy_postcard wit_messages.

Lemma serve_within_grant_witness :
  permits_sync_read wit_verified = true /\ path_in_grant wit_verified (bs "docs/a").
Proof.
  set (s := serve_inner (HP := mem_posix) (HB := toy_blake3) wit_stop wit_serve_env (bs "/srv")
    (sync_access (Some wit_verified)) V1 [Request (bs "docs/a")] wit_root).
  assert (D : discloses s.1.2 = true) by (vm_compute; reflexivity).
  assert (T : touches (HP := mem_posix) nothing (sv_open_root wit_serve_env false)).
  { by intros w r w' [= <- <-]. }
  destruct (serve_within_grant (HP := mem_posix) (HL := mem_posix_laws) (HB := toy_blake3)
    wit_stop wit_serve_env (bs "/srv") wit_verified V1 [Request (bs "docs/a")] wit_root
    s.1.1 s.1.2 s.2 wit_p1_ok T) as [_ [K|(p & rest & E & K)]].
  - unfold s. by destruct (serve_inner _ _ _ _ _ _ _) as [[]].
  - congruence.
  - injection E as <- <-. exact K.
Defined.
