(* ===== verification/Client.v ===== *)
(** * Both ends of a transfer

    Models the caller's side of [src/crates/rds-sync/src/engine.rs]: a push
    ([send_file_inner]) and a pull ([recv_file_inner]), and composes a push with the
    agent that serves it. *)

From S2P Require Import Prelude Paths Crypto Grant Agent Frames SyncProto Confined Journal Transfer Complete Session.

(** ** The code *)

Section Code.
Context `{HP : Posix, HB : Blake3, HM : Postcard Meta, HS : Postcard SyncMsg}.
Variable stop : world -> bool * world.

(** What a push meets: the file name of the source when it is UTF-8, the content it
    opens (when it is a regular file), how it is chunked, the cancellation checks of the
    scan, and whether a control frame comes while chunks are still written. *)
Record SendEnv : Type := mkSendEnv {
  sn_name : option bytes;
  sn_source : option bytes;
  sn_cdc : bytes -> list (result ChunkData IoError);
  sn_stops : nat -> bool;
  sn_took : bool
}.

(** [send_file_inner]. *)
Definition send_file_inner (env : SendEnv) (wire : Wire) (frames : list SyncMsg)
    : result Stats string * Sent :=
  match sn_name env with
  | None => (Err "source requires a UTF-8 file name"%string, say [])
  | Some rel =>
  match check_rel_path rel with
  | Err e => (Err "manifest malformed"%string, say [])
  | Ok checked =>
      if negb (bool_decide (path_components checked = path_components rel))
      then (Err "source file name has an ambiguous sync spelling"%string, say []) else
      match sn_source env with
      | None => (Err "open source"%string, say [])
      | Some file =>
      match manifest_reader_cancellable_with (sn_cdc env file) (sn_stops env) with
      | Err e => (Err "build manifest"%string, say [])
      | Ok m =>
          if is_v2 wire && existsb (fun c => sl_max_chunk (wr_limits wire) <? ck_len c) (mf_chunks m)
          then (Err "peer chunk bound below manifest chunk size"%string,
                say [Refuse (bs "peer chunk bound below manifest chunk size")]) else
          let offer := send_manifest rel m in
          match head frames with
          | Some (Need bits) =>
              match bits_to_indices bits (zlen (mf_chunks m)) with
              | Err e => (Err "manifest malformed"%string, say offer)
              | Ok indices =>
                  match push_chunks wire m file indices with
                  | Err e => (Err e, say offer)
                  | Ok streams =>
                      (let? (early, frames) := push_watch (sn_took env) (tail frames) in
                       let? _ := recv_done early frames (mf_root m) in
                       Ok (mkStats (zlen indices) (zlen (mf_chunks m)) (sum_len m indices)),
                       mkSent offer streams)
                  end
              end
          | Some (Refuse _) => (Err "offer refused"%string, say offer)
          | Some (Cancel _) => (Err "receiver canceled before chunks"%string, say offer)
          | _ => (Err "expected Need"%string, say offer)
          end
      end
      end
  end
  end.

(** [recv_file_inner]; the chunk streams, their progress and an abort are those of
    [receive]. *)
Definition recv_file_inner (open_root : io Z) (cdc : bytes -> list (result ChunkData IoError))
    (rel_path dest_dir : bytes) (wire : Wire) (frames : list SyncMsg) (claimed : bool)
    (streams : list bytes) (handled : nat) (abort : option Abort) : serving (bytes * Stats) :=
  fun w =>
  match check_rel_path rel_path with
  | Err e => (Err "manifest malformed"%string, say [], w)
  | Ok requested =>
      let asked := [Request rel_path] in
      match head frames with
      | Some (Offer offered size root chunk_count) =>
          match check_rel_path offered with
          | Err e => (Err "manifest malformed"%string, say asked, w)
          | Ok rel =>
              if negb (bool_decide (path_components rel = path_components requested))
              then (Err "offered path differs from requested path"%string, say asked, w) else
              match read_manifest wire size root chunk_count (tail frames) with
              | Err e => (Err e, say asked, w)
              | Ok (m, _) =>
                  let '((r, sent), w) :=
                    receive stop open_root cdc dest_dir rel m wire claimed streams handled abort w in
                  (r, mkSent (asked ++ se_control sent) (se_streams sent), w)
              end
          end
      | Some (Refuse _) => (Err "request refused"%string, say asked, w)
      | Some (Cancel _) => (Err "sender canceled before offer"%string, say asked, w)
      | _ => (Err "expected Offer"%string, say asked, w)
      end
  end.

End Code.

(** ** A push and its receiver *)

Section Push.
Context `{HP : Posix, HL : !PosixLaws, HB : Blake3, HM : Postcard Meta, HS : Postcard SyncMsg}.
Context `{HF : FastCDC, HFL : !FastCDCLaws}.
Variable stop : world -> bool * world.
Hypothesis stop_law : forall w b w', stop w = (b, w') -> same_entries w w'.

(** The manifest a receiver reads from the frames of [send_manifest]. *)
Lemma read_manifest_sent wire m rel rest m' rest' :
  zlen (mf_chunks m) <= MAX_CHUNKS ->
  read_manifest wire (mf_size m) (mf_root m) (zlen (mf_chunks m))
    (tail (send_manifest rel m) ++ rest) = Ok (m', rest') -> m' = m.
Proof.
  intros Hm R. unfold read_manifest in R. destruct (MAX_CHUNKS <? _); [done|].
  destruct (is_v2 wire && _); [done|]. cbn [send_manifest tail] in R.
  pose proof (manifest_parts_read (chunks_of MANIFEST_BATCH (mf_chunks m)) [] rest
    (chunks_of_bounds MANIFEST_BATCH _ eq_refl)) as P.
  rewrite (chunks_of_concat MANIFEST_BATCH) in P by done. change (zlen (@nil Chunk)) with 0 in P.
  rewrite Z.add_0_l in P. cbn [app] in P. rewrite P in R. rewrite Z.eqb_refl in R.
  cbn [negb] in R. destruct (check_manifest _); [|done]. simpl in R.
  destruct (is_v2 wire && _); [done|]. injection R as <- _. by destruct m.
Qed.

(** A [Done] of the receive phase comes after the file was assembled. *)
Lemma receive_done open_root cdc dir rel m wire claimed streams handled abort w r sent w' root :
  receive stop open_root cdc dir rel m wire claimed streams handled abort w = (r, sent, w') ->
  Done root ∈ se_control sent ->
  mf_root m = root
  /\ exists j w1 out, open_cancellable stop open_root cdc dir rel m w = (Ok j, w1)
       /\ receive_chunks stop wire m streams handled j w1 = (Ok out, w') /\ r = Ok out.
Proof.
  unfold receive. intros H D. destruct (open_cancellable _ _ _ _ _ _ _) as [[j|e] w1];
    [|injection H as _ <- _; set_solver].
  destruct (negb claimed); [injection H as _ <- _; set_solver|]. destruct abort as [[n|]|].
  - destruct (collect_streams _ _ _ _ _) as [r2 st]. destruct (store_jobs _ _ _) as [r3 w3].
    injection H as _ <- _. set_solver.
  - destruct (receive_chunks _ _ _ _ _ _ _) as [r2 w2]. injection H as _ <- _. set_solver.
  - destruct (receive_chunks _ _ _ _ _ _ _) as [[out|e] w2] eqn:R; injection H as <- <- <-;
      [|set_solver].
    assert (root = mf_root m) as -> by set_solver. split; [done|]. by exists j, w1, out.
Qed.

(** The journal a served push opens, after the preflight. *)
Definition serve_opens (env : ServeEnv) (dir rel : bytes) (m : Manifest) (w : world)
    : result Journal SyncError * world :=
  open_cancellable stop (sv_open_root env true) (sv_cdc env) dir rel m (open_below env rel w).2.

Lemma serve_offer_done env dir access wire p size root count frames w r sent w' done :
  serve_offer stop env dir access wire p size root count frames w = (r, sent, w') ->
  Done done ∈ se_control sent ->
  exists rel m rest j w2 out, check_rel_path p = Ok rel
    /\ read_manifest wire size root count frames = Ok (m, rest) /\ mf_root m = done
    /\ serve_opens env dir rel m w = (Ok j, w2)
    /\ receive_chunks stop wire m (sv_streams env) (sv_handled env) j w2 = (Ok out, w')
    /\ r = Ok tt.
Proof.
  intros H D. unfold serve_offer in H.
  destruct (negb (acc_write access)); [injection H as _ <- _; set_solver|].
  destruct (check_rel_path p) as [rel|] eqn:Er; [|injection H as _ <- _; set_solver].
  destruct (negb (permits_path access rel)); [injection H as _ <- _; set_solver|].
  destruct (open_below _ _ w) as [pre w1] eqn:Ew.
  set (bad := match pre with Ok _ | Err NotFound => false | Err _ => true end) in H.
  destruct bad; [injection H as _ <- _; set_solver|].
  destruct (read_manifest _ _ _ _ _) as [[m rest]|] eqn:Em; [|injection H as _ <- _; set_solver].
  destruct (receive _ _ _ _ _ _ _ _ _ _ _ w1) as [[r2 sent2] w2] eqn:R.
  injection H as <- <- <-. destruct (receive_done _ _ _ _ _ _ _ _ _ _ _ _ _ _ _ R D)
    as (Hr & j & w3 & out & O & C & ->).
  exists rel, m, rest, j, w3, out. split_and!; try done. unfold serve_opens. by rewrite Ew.
Qed.

(** What a successful push has seen: the answers of the receiver. *)
Lemma send_file_done env wire frames stats sent :
  send_file_inner env wire frames = (Ok stats, sent) ->
  exists rel checked file m, sn_name env = Some rel /\ check_rel_path rel = Ok checked
    /\ sn_source env = Some file
    /\ manifest_reader_cancellable_with (sn_cdc env file) (sn_stops env) = Ok m
    /\ se_control sent = send_manifest rel m /\ Done (mf_root m) ∈ frames
    /\ st_total stats = zlen (mf_chunks m).
Proof.
  unfold send_file_inner. intros H. destruct (sn_name env) as [rel|]; [|done].
  destruct (check_rel_path rel) as [checked|] eqn:Er; [|done].
  destruct (negb _); [done|]. destruct (sn_source env) as [file|]; [|done].
  destruct (manifest_reader_cancellable_with _ _) as [m|] eqn:Em; [|done].
  destruct (is_v2 wire && _); [done|].
  destruct frames as [|[] frames]; try done. cbn [head tail] in H.
  destruct (bits_to_indices _ _) as [ixs|]; [|done]. destruct (push_chunks _ _ _ _); [|done].
  injection H as H <-. exists rel, checked, file, m. split_and!; try done.
  - unfold push_watch, recv_done in H. destruct (sn_took env).
    + destruct frames as [|[] frames]; try done. simpl in H.
      case_bool_decide; [|done]. subst. set_solver.
    + destruct frames as [|[] frames]; try done. simpl in H.
      case_bool_decide; [|done]. subst. set_solver.
  - destruct (push_watch _ _) as [[early fr]|]; [|done]. simpl in H.
    destruct (recv_done _ _ _); [|done]. by injection H as <-.
Qed.

Lemma manifest_of_len content : chunks_len (mf_chunks (manifest_of content)) = zlen content.
Proof.
  destruct (cuts_contiguous content _ _ _ (fastcdc_covers content MIN_CHUNK AVG_CHUNK MAX_CHUNK eq_refl))
    as [_ K]. simpl. unfold chunk_of in K. lia.
Qed.

End Push.

(** ** A concrete push *)

#[local] Existing Instance mem_posix.
#[local] Existing Instance mem_posix_laws.
#[local] Existing Instance toy_blake3.
#[local] Existing Instance toy_cdc.
#[local] Existing Instance toy_cdc_laws.

Definition wit_push_content : bytes := bs "hi".
Definition wit_push_manifest : Manifest := manifest_of wit_push_content.
Definition wit_push_messages : list (SyncMsg * bytes) :=
  [(ChunkSet [0], bs "a"); (ChunkHdr 0 (@blake3_hash toy_blake3 (bs "h")) 1, bs "b");
   (ChunkSet [1], bs "c"); (ChunkHdr 1 (@blake3_hash toy_blake3 (bs "i")) 1, bs "d");
   (SetDone, bs "e")].
#[local] Instance wit_push_codec : Postcard SyncMsg := toy_postcard wit_push_messages.
#[local] Instance wit_push_meta : Postcard Meta :=
  toy_postcard [(mkMeta (bs "f") 2 (mf_root wit_push_manifest), bs "meta")].

Definition wit_cdc (c : bytes) : list (result ChunkData IoError) :=
  stream_of c MIN_CHUNK AVG_CHUNK MAX_CHUNK.
Definition wit_send_env : SendEnv :=
  mkSendEnv (Some (bs "f")) (Some wit_push_content) wit_cdc (fun _ => false) false.
(** The client's streams reach a receiver whose disk is empty. *)
Definition wit_push_streams : list bytes :=
  match push_chunks V1 wit_push_manifest wit_push_content [0; 1] with Ok s => s | Err _ => [] end.
Definition wit_receiver : ServeEnv :=
  mkServeEnv (fun _ => io_ret 1) wit_cdc true wit_push_streams 2 None (fun _ => false) false.

Definition wit_client := send_file_inner wit_send_env V1 [Need [3]; Done (mf_root wit_push_manifest)].
Definition wit_server :=
  serve_inner wit_stop wit_receiver (bs "/srv") READ_WRITE V1 (se_control wit_client.2) (mkMem ∅ []).

Lemma wit_push_uniform : uniform wit_push_manifest.
Proof.
  intros c c' Hc Hc' _.
  assert (F : Forall (fun c => ck_len c = 1) (mf_chunks wit_push_manifest)) by (repeat constructor).
  rewrite Forall_forall in F. by rewrite (F _ Hc), (F _ Hc').
Qed.

Lemma wit_push_apart j w2 :
  serve_opens wit_stop wit_receiver (bs "/srv") (bs "f") wit_push_manifest (mkMem ∅ []) = (Ok j, w2) ->
  dest_apart j.
Proof.
  intros K.
  assert (E : match (serve_opens wit_stop wit_receiver (bs "/srv") (bs "f") wit_push_manifest
      (mkMem ∅ [])).1 with
    | Ok j => (j_state j, j_dir j, j_parts j, j_dest_parent j, j_dest_state j, j_dest_name j)
              = (2, 3, 4, 1, 2, bs "f")
    | Err _ => False
    end) by (vm_compute; reflexivity).
  rewrite K in E. injection E as E1 E2 E3 E4 E5 E6. unfold dest_apart, own_entries.
  rewrite E1, E2, E3, E4, E5, E6.
  split_and!; [|by intros [=]|by intros b [=]]. intros [[K' _]|[[K' _]|[K' _]]]; by vm_compute in K'.
Qed.

