(* ===== verification/Mailbox.v ===== *)
(** * The newest-wins queue between desktop tasks

    Models [src/crates/rds-desktop/src/mailbox.rs]: a bounded queue that drops its oldest
    item when it is full, a count of the live sender halves, and the wake of a receiver
    that waits.

    Both ends run on threads of their own, so an operation is the sequence of its accesses
    to the shared state, each of them one [Action]; a run is any interleaving.  A sender is
    between its access and its call of [notify_one] while it counts in [mb_sending] or
    [mb_dropping].  [tokio::sync::Notify] keeps at most one permit: [notify_one] leaves it,
    a receiver in [notified().await] goes on by taking it, and a receiver whose future is
    dropped leaves it behind. *)

From S2P Require Import Prelude.

Section Mailbox.
Context {T : Type}.

(** Where the receiver half is inside [recv]. *)
Inductive RecvPc : Type := RIdle | RPop | RCheck | RDrain | RWait.

(** [State], with the progress of the operations under way. *)
Record MailState : Type := mkMail {
  mb_queue : list T;
  mb_permit : bool;
  mb_capacity : nat;
  mb_senders : nat;
  mb_sending : nat;
  mb_dropping : nat;
  mb_recv : RecvPc
}.

Definition channel (capacity : nat) : MailState :=
  mkMail [] false (Nat.max capacity 1) 1 0 0 RIdle.

Definition set_recv (pc : RecvPc) (s : MailState) : MailState :=
  mkMail (mb_queue s) (mb_permit s) (mb_capacity s) (mb_senders s) (mb_sending s)
    (mb_dropping s) pc.
Definition set_queue (q : list T) (s : MailState) : MailState :=
  mkMail q (mb_permit s) (mb_capacity s) (mb_senders s) (mb_sending s) (mb_dropping s)
    (mb_recv s).
Definition set_permit (b : bool) (s : MailState) : MailState :=
  mkMail (mb_queue s) b (mb_capacity s) (mb_senders s) (mb_sending s) (mb_dropping s)
    (mb_recv s).
Definition set_senders (n sending dropping : nat) (s : MailState) : MailState :=
  mkMail (mb_queue s) (mb_permit s) (mb_capacity s) n sending dropping (mb_recv s).

(** What an access makes visible to its caller. *)
Inductive Seen : Type :=
| Quiet
| Pushed (item : T) (evicted : option T)
| Returned (item : option T).

(** [Sender::send] under the lock: the oldest item makes room for the new one. *)
Definition send_locked (item : T) (s : MailState) : MailState * Seen :=
  let '(evicted, q) :=
    if (mb_capacity s <=? length (mb_queue s))%nat
    then (head (mb_queue s), tail (mb_queue s))
    else (None, mb_queue s) in
  (set_senders (mb_senders s) (S (mb_sending s)) (mb_dropping s)
     (set_queue (q ++ [item]) s),
   Pushed item evicted).

(** [pop_front]. *)
Definition pop_front (s : MailState) : option T * MailState :=
  (head (mb_queue s), set_queue (tail (mb_queue s)) s).

(** One access of [Receiver::recv], from the place [mb_recv]; [None] while it waits. *)
Definition recv_access (s : MailState) : option (MailState * Seen) :=
  match mb_recv s with
  | RIdle => None
  | RPop =>
      match pop_front s with
      | (Some item, s) => Some (set_recv RIdle s, Returned (Some item))
      | (None, s) => Some (set_recv RCheck s, Quiet)
      end
  | RCheck => Some (set_recv (if (mb_senders s =? 0)%nat then RDrain else RWait) s, Quiet)
  | RDrain => let '(item, s) := pop_front s in Some (set_recv RIdle s, Returned item)
  | RWait => if mb_permit s then Some (set_recv RPop (set_permit false s), Quiet) else None
  end.

Inductive Action : Type :=
| ASend (item : T)   (* a sender takes the lock *)
| ANotify            (* and then calls notify_one *)
| AClone
| ADrop              (* the count falls *)
| ADropNotify        (* before the wake *)
| ARecv              (* the receiver calls recv *)
| ACancel            (* its future is dropped where it waits *)
| ATryRecv
| AStep.             (* the receiver goes on inside recv *)

(** One access; [None] where it cannot happen. *)
Definition mail_step (a : Action) (s : MailState) : option (MailState * Seen) :=
  match a with
  | ASend item => if (mb_senders s =? 0)%nat then None else Some (send_locked item s)
  | ANotify =>
      match mb_sending s with
      | O => None
      | S n => Some (set_permit true (set_senders (mb_senders s) n (mb_dropping s) s), Quiet)
      end
  | AClone =>
      if (mb_senders s =? 0)%nat then None
      else Some (set_senders (S (mb_senders s)) (mb_sending s) (mb_dropping s) s, Quiet)
  | ADrop =>
      match mb_senders s with
      | O => None
      | S n => Some (set_senders n (mb_sending s) (S (mb_dropping s)) s, Quiet)
      end
  | ADropNotify =>
      match mb_dropping s with
      | O => None
      | S n => Some (set_permit true (set_senders (mb_senders s) (mb_sending s) n s), Quiet)
      end
  | ARecv => match mb_recv s with RIdle => Some (set_recv RPop s, Quiet) | _ => None end
  | ACancel => match mb_recv s with RWait => Some (set_recv RIdle s, Quiet) | _ => None end
  | ATryRecv =>
      match mb_recv s with
      | RIdle => let '(item, s) := pop_front s in
                 Some (s, match item with Some i => Returned (Some i) | None => Quiet end)
      | _ => None
      end
  | AStep => recv_access s
  end.

Fixpoint mail_run (l : list Action) (s : MailState) : option (MailState * list Seen) :=
  match l with
  | [] => Some (s, [])
  | a :: l =>
      match mail_step a s with
      | None => None
      | Some (s, o) =>
          match mail_run l s with None => None | Some (s, os) => Some (s, o :: os) end
      end
  end.

(** The items put in, and those taken from the front, in order. *)
Definition pushed (os : list Seen) : list T :=
  omap (fun o => match o with Pushed i _ => Some i | _ => None end) os.
Definition taken (os : list Seen) : list T :=
  omap (fun o => match o with
                 | Pushed _ e => e | Returned i => i | Quiet => None end) os.
Definition received (os : list Seen) : list T :=
  omap (fun o => match o with Returned i => i | _ => None end) os.

(** ** Invariant

    A receiver that found the queue empty and is about to wait, or waits, has a wake
    coming for anything that changed since. *)

Definition mail_ok (s : MailState) : Prop :=
  (0 < mb_capacity s)%nat /\ (length (mb_queue s) <= mb_capacity s)%nat /\
  match mb_recv s with
  | RCheck => mb_permit s = true \/ mb_sending s <> 0%nat \/ mb_queue s = []
  | RDrain => mb_senders s = 0%nat
  | RWait =>
      mb_permit s = true \/ mb_sending s <> 0%nat \/ mb_dropping s <> 0%nat \/
      (mb_queue s = [] /\ mb_senders s <> 0%nat)
  | _ => True
  end.

Lemma channel_ok capacity : mail_ok (channel capacity).
Proof. unfold mail_ok, channel. simpl. lia. Qed.

Lemma send_locked_ok item s : mail_ok s -> mail_ok (send_locked item s).1.
Proof.
  intros (Hc & Hl & Hr). unfold send_locked.
  destruct (mb_capacity s <=? length (mb_queue s))%nat eqn:Eq; b2p; unfold mail_ok; simpl;
    rewrite length_app; simpl.
  - assert (length (tail (mb_queue s)) < mb_capacity s)%nat
      by (destruct (mb_queue s); simpl in *; lia).
    split; [done|split; [lia|]]. destruct (mb_recv s); auto.
  - split; [done|split; [lia|]]. destruct (mb_recv s); auto.
Qed.

Lemma pop_front_ok s : mail_ok s -> (length (tail (mb_queue s)) <= mb_capacity s)%nat.
Proof. intros (_ & H & _). destruct (mb_queue s); simpl in *; lia. Qed.

Lemma recv_access_ok s s' o : mail_ok s -> recv_access s = Some (s', o) -> mail_ok s'.
Proof.
  intros Hok. pose proof (pop_front_ok s Hok). destruct Hok as (Hc & Hl & Hr).
  unfold recv_access, pop_front. destruct (mb_recv s) eqn:Er; try done.
  - destruct (mb_queue s) eqn:Eq; simpl; intros [= <- <-]; unfold mail_ok; simpl in *;
      repeat split; auto; lia.
  - destruct (mb_senders s =? 0)%nat eqn:Es; b2p; intros [= <- <-]; unfold mail_ok; simpl;
      repeat split; auto. naive_solver.
  - intros [= <- <-]. unfold mail_ok; simpl. repeat split; auto.
  - destruct (mb_permit s); [|done]. intros [= <- <-]. unfold mail_ok; simpl. auto.
Qed.

Lemma mail_step_ok a s s' o : mail_ok s -> mail_step a s = Some (s', o) -> mail_ok s'.
Proof.
  intros Hok. pose proof (pop_front_ok s Hok). destruct a; simpl.
  - destruct (mb_senders s =? 0)%nat; [done|]. intros [= Heq].
    pose proof (send_locked_ok item s Hok) as H'. by rewrite Heq in H'.
  - destruct (mb_sending s); [done|]. intros [= <- <-].
    destruct Hok as (? & ? & Hr). unfold mail_ok; simpl. destruct (mb_recv s); auto.
  - destruct (mb_senders s =? 0)%nat eqn:E; [done|]. b2p. intros [= <- <-].
    destruct Hok as (? & ? & Hr). unfold mail_ok; simpl. destruct (mb_recv s); intuition lia.
  - destruct (mb_senders s) eqn:E; [done|]. intros [= <- <-].
    destruct Hok as (? & ? & Hr). unfold mail_ok; simpl. destruct (mb_recv s); intuition lia.
  - destruct (mb_dropping s); [done|]. intros [= <- <-].
    destruct Hok as (? & ? & Hr). unfold mail_ok; simpl. destruct (mb_recv s); auto.
  - destruct (mb_recv s) eqn:E; try done. intros [= <- <-]. destruct Hok as (? & ? & _). done.
  - destruct (mb_recv s) eqn:E; try done. intros [= <- <-]. destruct Hok as (? & ? & _). done.
  - destruct (mb_recv s) eqn:E; try done. unfold pop_front. intros [= <- <-].
    destruct Hok as (? & ? & _). unfold mail_ok; simpl. by rewrite E.
  - by apply recv_access_ok.
Qed.

Lemma mail_run_ok l s s' os : mail_ok s -> mail_run l s = Some (s', os) -> mail_ok s'.
Proof.
  revert s os. induction l as [|a l IH]; simpl; intros s os Hok H.
  - by injection H as <- <-.
  - inv_res H. injection H as -> <-. eapply IH; [|done]. by eapply mail_step_ok.
Qed.

Lemma mail_step_capacity a s s' o :
  mail_step a s = Some (s', o) -> mb_capacity s' = mb_capacity s.
Proof.
  destruct a; unfold mail_step, recv_access, send_locked, pop_front; intros H;
    repeat case_match; simplify_eq/=; done.
Qed.
Lemma mail_run_capacity l s s' os :
  mail_run l s = Some (s', os) -> mb_capacity s' = mb_capacity s.
Proof.
  revert s os. induction l as [|a l IH]; simpl; intros s os H.
  - by injection H as <- <-.
  - inv_res H. injection H as -> <-. transitivity (mb_capacity m); [by eapply IH|].
    by eapply mail_step_capacity.
Qed.

(** What one access puts in and takes. *)
Lemma pop_front_taken s : option_list (head (mb_queue s)) ++ tail (mb_queue s) = mb_queue s.
Proof. by destruct (mb_queue s). Qed.

Lemma taken_cons o os : taken (o :: os) = taken [o] ++ taken os.
Proof. unfold taken. destruct o as [|i [e|]|[i|]]; done. Qed.
Lemma pushed_cons o os : pushed (o :: os) = pushed [o] ++ pushed os.
Proof. unfold pushed. by destruct o. Qed.
Lemma taken_returned i : taken [Returned i] = option_list i.
Proof. by destruct i. Qed.

Lemma recv_access_exact s s' o :
  recv_access s = Some (s', o) -> taken [o] ++ mb_queue s' = mb_queue s ++ pushed [o].
Proof.
  pose proof (pop_front_taken s) as Hp. unfold recv_access, pop_front.
  destruct (mb_recv s); try done.
  - destruct (mb_queue s) as [|i q] eqn:Eq; simpl; intros [= <- <-]; simpl; by rewrite ?app_nil_r.
  - intros [= <- <-]. simpl. by rewrite app_nil_r.
  - intros [= <- <-]. simpl mb_queue. rewrite taken_returned, Hp. by rewrite app_nil_r.
  - destruct (mb_permit s); [|done]. intros [= <- <-]. simpl. by rewrite app_nil_r.
Qed.

Lemma mail_step_exact a s s' o :
  (0 < mb_capacity s)%nat -> mail_step a s = Some (s', o) ->
  taken [o] ++ mb_queue s' = mb_queue s ++ pushed [o].
Proof.
  intros Hc. pose proof (pop_front_taken s) as Hp. destruct a; simpl.
  1: { destruct (mb_senders s =? 0)%nat; [done|]. unfold send_locked.
       destruct (mb_capacity s <=? length (mb_queue s))%nat eqn:El; b2p.
       - intros [= <- <-]. cbn [mb_queue set_queue set_senders].
         destruct (mb_queue s); simpl in *; [lia|done].
       - by intros [= <- <-]. }
  7: { destruct (mb_recv s); try done. unfold pop_front. intros [= <- <-].
       destruct (mb_queue s) as [|i q]; simpl; by rewrite ?app_nil_r. }
  7: apply recv_access_exact.
  all: intros H; inv_res H; injection H as <- <-; simpl; by rewrite app_nil_r.
Qed.

Lemma mail_run_exact l s s' os :
  mail_ok s -> mail_run l s = Some (s', os) ->
  taken os ++ mb_queue s' = mb_queue s ++ pushed os.
Proof.
  revert s os. induction l as [|a l IH]; simpl; intros s os Hok H.
  - injection H as <- <-. simpl. by rewrite app_nil_r.
  - destruct (mail_step a s) as [[s1 o]|] eqn:Ea; [|done].
    destruct (mail_run l s1) as [[s2 os2]|] eqn:El; [|done]. injection H as <- <-.
    rewrite taken_cons, pushed_cons, <-app_assoc, (IH s1 os2); [|by eapply mail_step_ok|done].
    rewrite !app_assoc. f_equal. eapply mail_step_exact; [|done]. apply Hok.
Qed.

Lemma received_sublist os : received os `sublist_of` taken os.
Proof.
  induction os as [|o os IH]; [done|].
  destruct o as [|i [e|]|[i|]]; unfold received, taken in *; simpl;
    first [done | by constructor].
Qed.

Lemma mail_step_closed a s s' :
  mail_ok s -> mail_step a s = Some (s', Returned None) ->
  mb_queue s = [] /\ mb_senders s = 0%nat.
Proof.
  intros (_ & _ & Hr). destruct a; simpl; intros H; try (inv_res H; discriminate H).
  - unfold send_locked in H. repeat case_match; discriminate H.
  - destruct (mb_recv s); try done. unfold pop_front in H.
    by destruct (mb_queue s); injection H.
  - unfold recv_access, pop_front in H. destruct (mb_recv s); try (inv_res H; discriminate H).
    destruct (mb_queue s) eqn:E; injection H; [done|discriminate].
Qed.

(** The mailbox is a queue that forgets only from its old end: whatever interleaving of
    senders and receiver ran, the items taken from it so far, evicted or received, followed
    by those it holds are the items sent, in the order of the locks; so what the receiver
    got is in order and without repetition.  It never holds more than its capacity, and a
    [recv] that reports the end does so when no sender is left and nothing is queued. *)
Theorem mailbox_exact capacity l s os :
  mail_run l (channel capacity) = Some (s, os) ->
  taken os ++ mb_queue s = pushed os /\
  received os `sublist_of` pushed os /\
  (length (mb_queue s) <= Nat.max capacity 1)%nat /\
  (forall a s', mail_step a s = Some (s', Returned None) ->
     mb_senders s = 0%nat /\ taken os = pushed os).
Proof.
  intros H. pose proof (mail_run_exact _ _ _ _ (channel_ok capacity) H) as Hx. simpl in Hx.
  pose proof (mail_run_ok _ _ _ _ (channel_ok capacity) H) as Hok.
  split; [done|split; [|split]].
  - rewrite <-Hx. transitivity (taken os); [apply received_sublist|].
    by apply sublist_inserts_r.
  - destruct Hok as (_ & Hl & _). by rewrite (mail_run_capacity _ _ _ _ H) in Hl.
  - intros a s' Ha. destruct (mail_step_closed _ _ _ Hok Ha) as [Hq Hs].
    by rewrite Hq, app_nil_r in Hx.
Qed.

(** No wake is lost: in any state an interleaving reaches, once the senders that changed
    the queue or their count have also called [notify_one], a receiver inside [recv] that
    has an item to take or the end to report returns it within four accesses of its own,
    without help from anyone.  It never waits beside a full queue or a closed one. *)
Theorem mailbox_wakes capacity l s os :
  mail_run l (channel capacity) = Some (s, os) ->
  mb_recv s <> RIdle -> mb_sending s = 0%nat -> mb_dropping s = 0%nat ->
  mb_queue s <> [] \/ mb_senders s = 0%nat ->
  exists n s' before, (n < 4)%nat /\
    mail_run (repeat AStep (S n)) s = Some (s', before ++ [Returned (head (mb_queue s))]) /\
    Forall (eq Quiet) before.
Proof.
  intros H Hr Hs Hd Hw. destruct (mail_run_ok _ _ _ _ (channel_ok capacity) H) as (_ & _ & Hi).
  clear H. destruct s as [q p c n i d r]; simpl in *. subst i d.
  destruct r; [done| | | |].
  - destruct q as [|x q].
    + destruct Hw as [?| ->]; [done|]. exists 2%nat. do 2 eexists. split; [lia|].
      split; [by instantiate (1 := [Quiet; Quiet])|by repeat constructor].
    + exists 0%nat. do 2 eexists. split; [lia|]. split; [by instantiate (1 := [])|done].
  - destruct n as [|n].
    + exists 1%nat. do 2 eexists. split; [lia|].
      split; [by instantiate (1 := [Quiet])|by repeat constructor].
    + destruct Hw as [Hq|?]; [|done]. destruct Hi as [ -> |[?|?]]; [|done..].
      destruct q as [|x q]; [done|]. exists 2%nat. do 2 eexists. split; [lia|].
      split; [by instantiate (1 := [Quiet; Quiet])|by repeat constructor].
  - exists 0%nat. do 2 eexists. split; [lia|]. split; [by instantiate (1 := [])|done].
  - assert (p = true) as -> by (destruct Hi as [?|[?|[?|[-> ?]]]]; try done; by destruct Hw).
    destruct q as [|x q].
    + destruct Hw as [?| ->]; [done|]. exists 3%nat. do 2 eexists. split; [lia|].
      split; [by instantiate (1 := [Quiet; Quiet; Quiet])|by repeat constructor].
    + exists 1%nat. do 2 eexists. split; [lia|].
      split; [by instantiate (1 := [Quiet])|by repeat constructor].
Qed.
End Mailbox.

Module MailboxWitness.
(** A full queue of one: the second send evicts the first item, the receiver parked before
    them is woken and takes the second. *)
Definition acts : list (Action (T := Z)) :=
  [ARecv; AStep; AStep; ASend 1; ANotify; ASend 2; ANotify].
Definition parked : MailState (T := Z) := mkMail [2] true 1 1 0 0 RWait.

Lemma mailbox_exact_witness :
  taken [Quiet; Quiet; Quiet; Pushed 1 None; Quiet; Pushed 2 (Some 1); Quiet] ++ [2] = [1; 2].
Proof. apply (mailbox_exact 1 acts parked). reflexivity. Defined.

Lemma mailbox_wakes_witness :
  exists n s' before, (n < 4)%nat /\
    mail_run (repeat AStep (S n)) parked = Some (s', before ++ [Returned (Some 2)]) /\
    Forall (eq Quiet) before.
Proof.
  eapply (mailbox_wakes 1 acts parked); [reflexivity|done|reflexivity|reflexivity|by left].
Defined.
End MailboxWitness.
