(* ===== verification/Clipboard.v ===== *)
(** * Clipboard text between a viewer and a desktop

    Models [src/crates/rds-desktop/src/clipboard.rs] (the bounded reassembly of a transfer and
    the serving side of a reverse transfer) and the chunks a viewer's paste is cut into
    ([App::paste_text] in [render/viewer.rs]).

    A call reads the monotonic clock once, as the argument [now]; the random number of an
    offer is an argument too. *)

From S2P Require Import Prelude Http.

Definition MAX_TEXT_BYTES : Z := 1024 * 1024.
Definition CHUNK_BYTES : Z := 32 * 1024.
Definition SEND_CHUNK_BYTES : Z := 16 * 1024.
Definition IDLE_TIMEOUT : duration := from_secs 5.
Definition TRANSFER_TIMEOUT : duration := from_secs 30.
#[global] Arguments SEND_CHUNK_BYTES : simpl never.
#[global] Arguments MAX_TEXT_BYTES : simpl never.

(** [DesktopError::Input] with its reason. *)
Definition refused (reason : string) : string := ("clipboard transfer refused: " ++ reason)%string.

(** ** Reassembly *)

Record Partial : Type := mkPartial {
  pt_id : Z; pt_total : Z; pt_bytes : bytes; pt_started : Z; pt_progressed : Z
}.
(** [Assembly]. *)
Abbreviation Assembly := (option Partial) (only parsing).

(** The checks of a chunk against the transfer it continues. *)
Definition chunk_refused (p : Partial) (id offset total : Z) (data : bytes) (now : Z) : option string :=
  if negb (pt_id p =? id) || negb (pt_total p =? total) then Some "identity or length changed"%string
  else if negb (zlen (pt_bytes p) =? offset) || (total <? zlen (pt_bytes p) + zlen data)
       then Some "invalid chunk offset"%string
  else if TRANSFER_TIMEOUT <? since (pt_started p) now then Some "total deadline exceeded"%string
  else if IDLE_TIMEOUT <? since (pt_progressed p) now then Some "idle deadline exceeded"%string
  else if bool_decide (data = []) && negb (total =? 0) then Some "empty progress chunk"%string
  else None.

(** [Assembly::push]. *)
Definition assembly_push (id offset total : Z) (data : bytes) (now : Z) (a : Assembly)
  : Assembly * result (option bytes) string :=
  if (MAX_TEXT_BYTES <? total) || (CHUNK_BYTES <? zlen data)
  then (None, Err (refused "size bound exceeded")) else
  if (offset =? 0) && is_some a then (None, Err (refused "overlapping transfer")) else
  let a := if offset =? 0 then Some (mkPartial id total [] now now) else a in
  match a with
  | None => (None, Err (refused "missing initial chunk"))
  | Some p =>
      match chunk_refused p id offset total data now with
      | Some reason => (None, Err (refused reason))
      | None =>
          let p := mkPartial (pt_id p) (pt_total p) (pt_bytes p ++ data) (pt_started p) now in
          if negb (zlen (pt_bytes p) =? total) then (Some p, Ok None)
          else (None, if utf8_valid (pt_bytes p) then Ok (Some (pt_bytes p))
                      else Err (refused "invalid UTF-8"))
      end
  end.

(** ** The serving side of a reverse transfer *)

Inductive ClipboardErrorCode : Type :=
| Unavailable | UnsupportedFormat | TooLarge | Expired | InvalidRequest.

Record ReverseSender : Type := mkReverse {
  rv_offer : option (Z * bytes * Z);
  rv_outgoing : option (Z * bytes * Z)
}.
Definition reverse_default : ReverseSender := mkReverse None None.

Record ClipChunk : Type := mkChunk { ck_id : Z; ck_offset : Z; ck_total : Z; ck_data : bytes }.

(** [ReverseSender::offer]: the announced number and size. *)
Definition reverse_offer (id : Z) (text : bytes) (now : Z) (r : ReverseSender)
  : ReverseSender * option (Z * Z) :=
  if MAX_TEXT_BYTES <? zlen text then (r, None)
  else (mkReverse (Some (id, text, now)) (rv_outgoing r), Some (id, zlen text)).

(** [ReverseSender::request]. *)
Definition reverse_request (id : Z) (now : Z) (r : ReverseSender)
  : ReverseSender * result unit ClipboardErrorCode :=
  match rv_offer r with
  | None => (r, Err Expired)
  | Some (offered, text, at_) =>
      if negb (offered =? id) then (r, Err InvalidRequest) else
      if TRANSFER_TIMEOUT <=? since at_ now then (mkReverse None (rv_outgoing r), Err Expired) else
      if is_some (rv_outgoing r) then (r, Err Unavailable)
      else (mkReverse None (Some (offered, text, 0)), Ok tt)
  end.

(** [bytes[from..to]]. *)
Definition byte_range (from to_ : Z) (b : bytes) : bytes :=
  take (Z.to_nat (to_ - from)) (drop (Z.to_nat from) b).

(** [ReverseSender::next_chunk]. *)
Definition next_chunk (r : ReverseSender) : ReverseSender * option ClipChunk :=
  match rv_outgoing r with
  | None => (r, None)
  | Some (id, text, offset) =>
      let end_ := Z.min (offset + SEND_CHUNK_BYTES) (zlen text) in
      (mkReverse (rv_offer r) (if end_ =? zlen text then None else Some (id, text, end_)),
       Some (mkChunk id offset (zlen text) (byte_range offset end_ text)))
  end.

(** ** A paste *)

(** [slice::chunks]: pieces of [n] bytes, the last one shorter; one round per byte is more
    than there are pieces. *)
Fixpoint chunks_of (fuel : nat) (n : nat) (b : bytes) : list bytes :=
  match fuel, b with
  | O, _ | _, [] => []
  | S fuel, _ => take n b :: chunks_of fuel n (drop n b)
  end.
Definition chunks (n : nat) (b : bytes) : list bytes := chunks_of (length b) n b.

(** [App::paste_text]: the messages queued for one text. *)
Definition paste_messages (id : Z) (text : bytes) : list ClipChunk :=
  imap (fun i data => mkChunk id (Z.of_nat i * SEND_CHUNK_BYTES) (zlen text) data)
       (chunks (Z.to_nat SEND_CHUNK_BYTES) text)
  ++ (if zlen text =? 0 then [mkChunk id 0 (zlen text) []] else []).

(** ** A transfer arrives whole *)

Lemma send_chunk_bounds : 0 < SEND_CHUNK_BYTES <= CHUNK_BYTES.
Proof. unfold SEND_CHUNK_BYTES, CHUNK_BYTES. lia. Qed.
#[local] Opaque SEND_CHUNK_BYTES CHUNK_BYTES MAX_TEXT_BYTES.

(** Chunks pushed one after the other, each with the clock at its arrival. *)
Fixpoint push_all (l : list (ClipChunk * Z)) (a : Assembly)
  : Assembly * list (result (option bytes) string) :=
  match l with
  | [] => (a, [])
  | (c, now) :: l =>
      let '(a, r) := assembly_push (ck_id c) (ck_offset c) (ck_total c) (ck_data c) now a in
      let '(a, rs) := push_all l a in (a, r :: rs)
  end.

(** The session loop's [while reverse.sending()]: the chunks of the outgoing transfer. *)
Fixpoint send_all (fuel : nat) (r : ReverseSender) : ReverseSender * list ClipChunk :=
  match fuel with
  | O => (r, [])
  | S fuel =>
      match next_chunk r with
      | (r, None) => (r, [])
      | (r, Some c) => let '(r, cs) := send_all fuel r in (r, c :: cs)
      end
  end.

(** Pieces at consecutive multiples of the chunk size. *)
Fixpoint pieces_at (id total offset : Z) (ps : list bytes) : list ClipChunk :=
  match ps with
  | [] => []
  | p :: ps => mkChunk id offset total p :: pieces_at id total (offset + SEND_CHUNK_BYTES) ps
  end.

Lemma pieces_at_imap id total ps k :
  imap (fun i data => mkChunk id (Z.of_nat (k + i) * SEND_CHUNK_BYTES) total data) ps
  = pieces_at id total (Z.of_nat k * SEND_CHUNK_BYTES) ps.
Proof.
  revert k. induction ps as [|p ps IH]; intros k; [done|]. simpl. rewrite Nat.add_0_r. f_equal.
  replace (Z.of_nat k * SEND_CHUNK_BYTES + SEND_CHUNK_BYTES)
    with (Z.of_nat (S k) * SEND_CHUNK_BYTES) by lia.
  rewrite <-IH. apply imap_ext. intros i x _. cbn. by rewrite Nat.add_succ_r.
Qed.

Lemma chunks_of_enough f g n b :
  (0 < n)%nat -> (length b <= f)%nat -> (length b <= g)%nat -> chunks_of f n b = chunks_of g n b.
Proof.
  intros Hn. revert g b. induction f as [|f IH]; intros [|g] [|c b] Hf Hg; simpl in *; try done; try lia.
  f_equal. apply IH; rewrite length_drop; simpl; lia.
Qed.
Lemma chunks_cons n b :
  (0 < n)%nat -> b <> [] -> chunks n b = take n b :: chunks n (drop n b).
Proof.
  intros Hn Hb. unfold chunks. destruct b as [|c b]; [done|]. cbn [length chunks_of]. f_equal.
  apply chunks_of_enough; [done| |]; rewrite length_drop; simpl; lia.
Qed.
Lemma chunks_spec n b :
  (0 < n)%nat ->
  concat (chunks n b) = b /\ Forall (fun p => p <> [] /\ (length p <= n)%nat) (chunks n b).
Proof.
  intros Hn. induction b as [b IH] using (induction_ltof1 _ (@length ascii)). unfold ltof in IH.
  destruct b as [|c b]; [by split; [|constructor]|].
  rewrite chunks_cons by done.
  destruct (IH (drop n (c :: b))) as [Hc Hf]; [rewrite length_drop; simpl; lia|].
  split; [simpl; by rewrite Hc, take_drop|]. constructor; [|done].
  split; [destruct n; [lia|done]|]. rewrite length_take. lia.
Qed.

Lemma paste_messages_pieces id text :
  text <> [] -> paste_messages id text =
    pieces_at id (zlen text) 0 (chunks (Z.to_nat SEND_CHUNK_BYTES) text).
Proof.
  intros Ht. unfold paste_messages. replace (zlen text =? 0) with false
    by (symmetry; apply Z.eqb_neq; destruct text; [done|rewrite zlen_cons; pose proof (zlen_nonneg text); lia]).
  rewrite app_nil_r. exact (pieces_at_imap id (zlen text) _ 0).
Qed.

(** The serving side sends what a paste of the same text would send. *)
Lemma send_all_pieces id text o offset fuel :
  0 <= offset < zlen text -> (length text - Z.to_nat offset < fuel)%nat ->
  send_all fuel (mkReverse o (Some (id, text, offset)))
  = (mkReverse o None,
     pieces_at id (zlen text) offset
       (chunks (Z.to_nat SEND_CHUNK_BYTES) (drop (Z.to_nat offset) text))).
Proof.
  revert offset. induction fuel as [|fuel IH]; intros offset Ho Hf; [lia|].
  pose proof send_chunk_bounds as Hb. unfold zlen in Ho. rewrite chunks_cons; [|lia|].
  2: { intros H%(f_equal length). rewrite length_drop in H. simpl in H. lia. }
  cbn [send_all next_chunk rv_outgoing rv_offer pieces_at]. unfold byte_range.
  destruct (Z.min (offset + SEND_CHUNK_BYTES) (zlen text) =? zlen text) eqn:E; b2p.
  - unfold zlen in *. rewrite (drop_ge (drop _ _)) by (rewrite length_drop; lia).
    replace (take _ (drop _ _)) with (drop (Z.to_nat offset) text)
      by (rewrite take_ge; [done|rewrite length_drop; lia]).
    rewrite (take_ge (drop _ _)) by (rewrite length_drop; lia).
    by destruct fuel.
  - unfold zlen in *. rewrite Z.min_l by lia. rewrite IH by (unfold zlen; lia).
    rewrite drop_drop. rewrite Z2Nat.inj_add by lia.
    by replace (offset + SEND_CHUNK_BYTES - offset) with SEND_CHUNK_BYTES by lia.
Qed.

Lemma send_all_paste id text o :
  send_all (S (length text)) (mkReverse o (Some (id, text, 0)))
  = (mkReverse o None, paste_messages id text).
Proof.
  destruct (decide (text = [])) as [->|Ht]; [done|].
  rewrite (send_all_pieces id text o 0), paste_messages_pieces; [done|done| |simpl; lia].
  destruct text; [done|]. rewrite zlen_cons. pose proof (zlen_nonneg text). lia.
Qed.

(** The chunks arrive at most five seconds apart, within thirty of the first. *)
Fixpoint timely (started last : Z) (ts : list Z) : Prop :=
  match ts with
  | [] => True
  | t :: ts => since started t <= TRANSFER_TIMEOUT /\ since last t <= IDLE_TIMEOUT /\ timely started t ts
  end.

(** One chunk that continues a transfer. *)
Lemma push_continues id total data now p :
  pt_id p = id -> pt_total p = total -> data <> [] -> total <= MAX_TEXT_BYTES ->
  zlen data <= CHUNK_BYTES -> 0 < zlen (pt_bytes p) -> zlen (pt_bytes p) + zlen data <= total ->
  since (pt_started p) now <= TRANSFER_TIMEOUT -> since (pt_progressed p) now <= IDLE_TIMEOUT ->
  assembly_push id (zlen (pt_bytes p)) total data now (Some p)
  = if zlen (pt_bytes p) + zlen data =? total
    then (None, if utf8_valid (pt_bytes p ++ data) then Ok (Some (pt_bytes p ++ data))
                else Err (refused "invalid UTF-8"))
    else (Some (mkPartial id total (pt_bytes p ++ data) (pt_started p) now), Ok None).
Proof.
  intros Hid Htot Hd Hmax Hc Hp Hfit Ht Hi. unfold assembly_push.
  rewrite (proj2 (Z.ltb_ge _ _) Hmax), (proj2 (Z.ltb_ge _ _) Hc).
  rewrite (proj2 (Z.eqb_neq _ 0)) by lia. cbn [orb andb].
  unfold chunk_refused. rewrite Hid, Htot, !Z.eqb_refl. cbn [negb orb].
  rewrite (proj2 (Z.ltb_ge _ _) Hfit), (proj2 (Z.ltb_ge _ _) Ht), (proj2 (Z.ltb_ge _ _) Hi).
  rewrite bool_decide_eq_false_2 by done. cbn [andb pt_bytes pt_id pt_total pt_started].
  rewrite zlen_app. by destruct (_ =? total).
Qed.

(** The chunk that opens one is the same after an empty transfer began. *)
Lemma push_opens id total data now :
  data <> [] -> total <= MAX_TEXT_BYTES -> zlen data <= CHUNK_BYTES -> zlen data <= total ->
  assembly_push id 0 total data now None
  = if zlen data =? total
    then (None, if utf8_valid data then Ok (Some data) else Err (refused "invalid UTF-8"))
    else (Some (mkPartial id total data now now), Ok None).
Proof.
  intros Hd Hmax Hc Hfit. unfold assembly_push.
  rewrite (proj2 (Z.ltb_ge _ _) Hmax), (proj2 (Z.ltb_ge _ _) Hc). cbn [orb andb is_some Z.eqb].
  unfold chunk_refused. cbn [pt_id pt_total pt_bytes pt_started pt_progressed].
  rewrite !Z.eqb_refl. cbn [negb orb]. change (zlen []) with 0.
  rewrite Z.add_0_l, (proj2 (Z.ltb_ge _ _) Hfit). unfold since. rewrite Z.sub_diag. cbn [Z.eqb negb orb].
  rewrite bool_decide_eq_false_2 by done. cbn [andb app]. by destruct (zlen data =? total).
Qed.

Definition delivered (n : nat) (text : bytes) : list (result (option bytes) string) :=
  repeat (Ok None) (pred n) ++ [Ok (Some text)].
Lemma delivered_S n text : (0 < n)%nat -> Ok None :: delivered n text = delivered (S n) text.
Proof. destruct n; [lia|]. done. Qed.

Lemma push_all_pieces id text offset started last ts :
  utf8_valid text = true -> zlen text <= MAX_TEXT_BYTES -> 0 < offset < zlen text ->
  let cs := pieces_at id (zlen text) offset
              (chunks (Z.to_nat SEND_CHUNK_BYTES) (drop (Z.to_nat offset) text)) in
  length ts = length cs -> timely started last ts ->
  push_all (zip cs ts)
    (Some (mkPartial id (zlen text) (take (Z.to_nat offset) text) started last))
  = (None, delivered (length cs) text).
Proof.
  intros Hu Hmax. pose proof send_chunk_bounds as Hb.
  remember (length text - Z.to_nat offset)%nat as m eqn:Em. revert offset last ts Em.
  induction m as [m IH] using lt_wf_ind. intros offset last ts -> Ho. unfold zlen in Ho.
  rewrite chunks_cons; [|lia|].
  2: { intros H%(f_equal length). rewrite length_drop in H. simpl in H. lia. }
  cbn [pieces_at length]. destruct ts as [|t ts]; [done|]. intros [= Hts] (Ht & Hi & Hr).
  cbn [zip zip_with push_all ck_id ck_offset ck_total ck_data].
  set (data := take (Z.to_nat SEND_CHUNK_BYTES) (drop (Z.to_nat offset) text)).
  assert (Hd : length data = Nat.min (Z.to_nat SEND_CHUNK_BYTES) (length text - Z.to_nat offset))
    by (unfold data; by rewrite length_take, length_drop).
  set (p := mkPartial id (zlen text) (take (Z.to_nat offset) text) started last).
  assert (Hp : zlen (pt_bytes p) = offset) by (unfold p, zlen; cbn; rewrite length_take; lia).
  rewrite <-Hp at 1. rewrite (push_continues id (zlen text) data t p); try done.
  2: { intros H%(f_equal length). simpl in H. lia. }
  2,3,4: rewrite ?Hp; unfold zlen in *; lia.
  assert (Hcat : pt_bytes p ++ data = take (Z.to_nat (offset + SEND_CHUNK_BYTES)) text).
  { unfold p, data. cbn. rewrite Z2Nat.inj_add by lia. apply take_take_drop. }
  rewrite Hcat, Hp. destruct (offset + zlen data =? zlen text) eqn:E; b2p; unfold zlen in E.
  - rewrite (take_ge text) by lia. rewrite Hu.
    rewrite (drop_ge (drop _ _)) by (rewrite length_drop; lia). done.
  - rewrite drop_drop, <-Z2Nat.inj_add by lia.
    rewrite (drop_drop text), <-Z2Nat.inj_add in Hts by lia.
    rewrite (IH (length text - Z.to_nat (offset + SEND_CHUNK_BYTES))%nat); [|lia|done|unfold zlen; lia|done|done].
    f_equal. apply delivered_S.
    rewrite chunks_cons; [simpl; lia|lia|].
    intros H%(f_equal length). rewrite length_drop in H. simpl in H. lia.
Qed.

Lemma push_all_paste id text t ts :
  utf8_valid text = true -> zlen text <= MAX_TEXT_BYTES ->
  length (t :: ts) = length (paste_messages id text) -> timely t t ts ->
  push_all (zip (paste_messages id text) (t :: ts)) None
  = (None, delivered (length (paste_messages id text)) text).
Proof.
  intros Hu Hmax. pose proof send_chunk_bounds as Hb.
  destruct (decide (text = [])) as [->|Hne].
  { intros [= Hts] _. destruct ts; [|done]. change (zlen []) with 0 in Hmax.
    unfold paste_messages. change (zlen []) with 0. rewrite Z.eqb_refl.
    cbn [chunks length chunks_of imap app zip zip_with push_all ck_id ck_offset ck_total ck_data].
    unfold assembly_push. change (zlen []) with 0.
    rewrite (proj2 (Z.ltb_ge MAX_TEXT_BYTES 0)), (proj2 (Z.ltb_ge CHUNK_BYTES 0)) by lia.
    cbn [orb andb is_some Z.eqb]. unfold chunk_refused, since.
    cbn [pt_id pt_total pt_started pt_progressed]. by rewrite Z.eqb_refl, Z.sub_diag. }
  rewrite paste_messages_pieces by done. rewrite chunks_cons; [|lia|done].
  cbn [pieces_at length zip zip_with push_all ck_id ck_offset ck_total ck_data]. intros [= Hts] Ht.
  set (data := take (Z.to_nat SEND_CHUNK_BYTES) text).
  assert (Hd : length data = Nat.min (Z.to_nat SEND_CHUNK_BYTES) (length text))
    by (unfold data; by rewrite length_take).
  assert (0 < length text)%nat by (destruct text; [done|simpl; lia]).
  rewrite push_opens; [|intros H'%(f_equal length); simpl in H'; lia|done|unfold zlen; lia|unfold zlen; lia].
  destruct (zlen data =? zlen text) eqn:E; b2p; unfold zlen in E.
  - unfold data. rewrite (take_ge text), Hu, (drop_ge text) by lia. done.
  - assert (Hn : chunks (Z.to_nat SEND_CHUNK_BYTES) (drop (Z.to_nat SEND_CHUNK_BYTES) text) <> []).
    { rewrite chunks_cons; [done|lia|].
      intros H'%(f_equal length). rewrite length_drop in H'. simpl in H'. lia. }
    rewrite Z.add_0_l in *. subst data.
    rewrite (push_all_pieces id text SEND_CHUNK_BYTES t t ts); [|done|done|unfold zlen; lia|done|done].
    f_equal. apply delivered_S. destruct (chunks _ _) as [|? ?]; [done|simpl; lia].
Qed.

(** A clipboard transfer arrives whole, in either direction: after the desktop offered a
    text of at most 1 MiB and the viewer asked for it in time, the desktop sends the very
    chunks a viewer sends for a paste of that text, comes to an end, and whoever receives
    them, none more than five seconds after the one before and all within thirty, gets
    nothing until the last one and then exactly the text, ready for the next transfer. *)
Theorem clipboard_arrives (id : Z) (text : bytes) (offered asked t : Z) (ts : list Z) (r : ReverseSender) :
  utf8_valid text = true -> zlen text <= MAX_TEXT_BYTES -> rv_outgoing r = None ->
  since offered asked < TRANSFER_TIMEOUT ->
  length (t :: ts) = length (paste_messages id text) -> timely t t ts ->
  exists r1 r2, reverse_offer id text offered r = (r1, Some (id, zlen text)) /\
    reverse_request id asked r1 = (r2, Ok tt) /\
    send_all (S (length text)) r2 = (reverse_default, paste_messages id text) /\
    push_all (zip (paste_messages id text) (t :: ts)) None
    = (None, delivered (length (paste_messages id text)) text).
Proof.
  intros Hu Hmax Hr Hask Hl Ht. do 2 eexists. split.
  { unfold reverse_offer. by rewrite (proj2 (Z.ltb_ge _ _) Hmax). }
  split.
  { unfold reverse_request. cbn [rv_offer rv_outgoing]. rewrite Z.eqb_refl. cbn [negb].
    by rewrite (proj2 (Z.leb_gt _ _) Hask), Hr. }
  split; [apply send_all_paste|by apply push_all_paste].
Qed.

(** A request that names another offer, or comes too late, gets an error and never the
    text, and only a request that is granted uses the offer up. *)
Lemma reverse_request_refused id now r r' e :
  reverse_request id now r = (r', Err e) ->
  rv_outgoing r' = rv_outgoing r /\ (rv_offer r' = rv_offer r \/ e = Expired).
Proof.
  unfold reverse_request. intros H. repeat case_match; simplify_eq/=; auto.
Qed.

Module ClipboardWitness.
(** Two bytes of UTF-8 for one character, offered at 0 s, asked for at 3 s. *)
Definition text : bytes := [ascii_of_N 195; ascii_of_N 169].
Lemma clipboard_arrives_witness :
  utf8_valid text = true /\
  exists r1 r2, reverse_offer 7 text 0 reverse_default = (r1, Some (7, zlen text)) /\
    reverse_request 7 (from_secs 3) r1 = (r2, Ok tt) /\
    send_all (S (length text)) r2 = (reverse_default, paste_messages 7 text) /\
    push_all (zip (paste_messages 7 text) [from_secs 4]) None
    = (None, delivered (length (paste_messages 7 text)) text).
Proof.
  split; [reflexivity|].
  apply (clipboard_arrives 7 text 0 (from_secs 3) (from_secs 4) [] reverse_default);
    [reflexivity|by vm_compute|reflexivity|by vm_compute|by vm_compute|exact I].
Defined.
End ClipboardWitness.
