(* ===== verification/MediaGate.v ===== *)
(** * Gates on the frames of a desktop session

    The small state machines a serving session guards its media with, from
    [src/crates/rds-desktop/src]: repair epochs and the key-picture gate ([media_repair.rs]),
    proofs of receipt ([receipts.rs]), the reference chain of the writer ([FrameChain] in
    [session.rs]) and the delivery counters ([session.rs]).  [Serving] puts them together;
    [Viewing] is the other end. *)

From S2P Require Import Prelude Crypto Agent.

(** [FrameHeader] of [rds-core/src/lib.rs]. *)
Record FrameHeader : Type := mkHeader {
  fh_seq : Z;
  fh_capture_ts_ms : Z;
  fh_encode_done_ts_ms : Z;
  fh_send_ts_ms : Z;
  fh_keyframe : bool;
  fh_codec : Codec;
  fh_width : Z;
  fh_height : Z
}.
(** [Produced]. *)
Record Produced : Type := mkProduced { pr_header : FrameHeader; pr_payload : bytes }.
Definition pr_seq (p : Produced) : Z := fh_seq (pr_header p).
Definition pr_key (p : Produced) : bool := fh_keyframe (pr_header p).
Definition pr_empty (p : Produced) : bool := bool_decide (pr_payload p = []).

#[export] Instance Codec_eq_dec : EqDecision Codec.
Proof. solve_decision. Defined.
#[export] Instance FrameHeader_eq_dec : EqDecision FrameHeader.
Proof. solve_decision. Defined.
#[export] Instance Produced_eq_dec : EqDecision Produced.
Proof. solve_decision. Defined.

Definition MAX_PENDING_FRAME_ACKS : Z := 3.
Definition DESKTOP_FRAME_OBSOLETE : Z := 0x52445301.

(** ** Repair epochs and the key-picture gate

    One word holds the epoch, above two flags. *)

Definition ACTIVE : Z := 1.
Definition KEY_PENDING : Z := 2.
Definition FLAGS : Z := Z.lor ACTIVE KEY_PENDING.
Definition NEXT_EPOCH : Z := FLAGS + 1.

Record MediaRepair : Type := mkRepair { mr_state : Z; mr_requests : Z; mr_coalesced : Z }.
Definition repair_new : MediaRepair := mkRepair 0 0 0.

Inductive RepairRequest : Type := Accepted | Coalesced | Exhausted.

Definition epoch_of (state : Z) : Z := Z.land state (Z.lnot FLAGS).
Definition generation (r : MediaRepair) : Z := epoch_of (mr_state r).
Definition key_pending (r : MediaRepair) : bool := negb (Z.land (mr_state r) KEY_PENDING =? 0).
Definition active (r : MediaRepair) : bool := negb (Z.land (mr_state r) ACTIVE =? 0).

(** [MediaRepair::request]. *)
Definition repair_request (r : MediaRepair) : MediaRepair * RepairRequest :=
  if active r then (mkRepair (mr_state r) (mr_requests r) (mr_coalesced r + 1), Coalesced) else
  match checked_add64 (epoch_of (mr_state r)) NEXT_EPOCH with
  | Some epoch => (mkRepair (Z.lor epoch ACTIVE) (mr_requests r + 1) (mr_coalesced r), Accepted)
  | None => (r, Exhausted)
  end.

(** [MediaRepair::key]: the gate closes behind a picture of the current epoch. *)
Definition repair_key (g : Z) (r : MediaRepair) : option MediaRepair :=
  if (epoch_of (mr_state r) =? g) && (Z.land (mr_state r) KEY_PENDING =? 0)
  then Some (mkRepair (Z.lor (mr_state r) KEY_PENDING) (mr_requests r) (mr_coalesced r))
  else None.

(** [MediaRepair::release_key]. *)
Definition release_key (g : Z) (confirmed : bool) (r : MediaRepair) : MediaRepair :=
  if negb (epoch_of (mr_state r) =? g) then r else
  mkRepair (Z.land (mr_state r) (Z.lnot (Z.lor KEY_PENDING (if confirmed then ACTIVE else 0))))
    (mr_requests r) (mr_coalesced r).

(** [KeyPermit]; the handles it shares are those of its session. *)
Record KeyPermit : Type := mkKey { kp_generation : Z; kp_confirmed : bool }.

(** The word, taken apart. *)
Definition word (epoch : Z) (key act : bool) : Z :=
  4 * epoch + (if key then 2 else 0) + (if act then 1 else 0).

(** The two low bits and the rest do not meet. *)
Lemma high_bits e i : 0 <= i < 2 -> Z.testbit (4 * e) i = false.
Proof. intros Hi. change 4 with (2 ^ 2). rewrite Z.mul_comm. apply Z.mul_pow2_bits_low. lia. Qed.
Lemma low_bits m i : 0 <= m < 4 -> 2 <= i -> Z.testbit m i = false.
Proof.
  intros Hm Hi. assert (m = 0 \/ m = 1 \/ m = 2 \/ m = 3) as [->|[->|[->| ->]]] by lia;
    [apply Z.testbit_0_l|apply Z.bits_above_log2; [done|by apply Z.lt_le_trans with 2]..].
Qed.
Lemma high_low_disjoint e m : 0 <= m < 4 -> Z.land (4 * e) m = 0.
Proof.
  intros Hm. apply Z.bits_inj'. intros i Hi. rewrite Z.land_spec, Z.testbit_0_l.
  destruct (Z.lt_ge_cases i 2); [by rewrite high_bits by lia|by rewrite (low_bits m), andb_false_r].
Qed.
Lemma high_lor e m : 0 <= m < 4 -> 4 * e + m = Z.lor (4 * e) m.
Proof.
  intros Hm. rewrite Z.add_nocarry_lxor by (by apply high_low_disjoint).
  by rewrite Z.lxor_lor by (by apply high_low_disjoint).
Qed.
Lemma high_land_not e m : 0 <= m < 4 -> Z.land (4 * e) (Z.lnot m) = 4 * e.
Proof.
  intros Hm. apply Z.bits_inj'. intros i Hi. rewrite Z.land_spec, Z.lnot_spec by done.
  destruct (Z.lt_ge_cases i 2); [by rewrite high_bits by lia|].
  by rewrite (low_bits m), andb_true_r.
Qed.

Definition low (key act : bool) : Z := (if key then 2 else 0) + (if act then 1 else 0).
Lemma low_range k a : 0 <= low k a < 4.
Proof. destruct k, a; unfold low; lia. Qed.
Lemma gate_word_lor e k a : word e k a = Z.lor (4 * e) (low k a).
Proof. rewrite <-high_lor by apply low_range. unfold word, low. destruct k, a; lia. Qed.
#[local] Hint Resolve low_range : core.

Lemma word_epoch e k a : epoch_of (word e k a) = 4 * e.
Proof.
  unfold epoch_of. rewrite gate_word_lor, Z.land_lor_distr_l, high_land_not by done.
  replace (Z.land (low k a) (Z.lnot FLAGS)) with 0 by (by destruct k, a). apply Z.lor_0_r.
Qed.
Lemma word_land e k a m : 0 <= m < 4 -> Z.land (word e k a) m = Z.land (low k a) m.
Proof. intros Hm. by rewrite gate_word_lor, Z.land_lor_distr_l, high_low_disjoint. Qed.
Lemma word_key e k a : (Z.land (word e k a) KEY_PENDING =? 0) = negb k.
Proof. rewrite word_land by done. by destruct k, a. Qed.
Lemma word_active e k a : (Z.land (word e k a) ACTIVE =? 0) = negb a.
Proof. rewrite word_land by done. by destruct k, a. Qed.
Lemma word_set_key e k a : Z.lor (word e k a) KEY_PENDING = word e true a.
Proof.
  rewrite !gate_word_lor, <-Z.lor_assoc. f_equal. by destruct k, a.
Qed.
Lemma word_clear e k a (c : bool) :
  Z.land (word e k a) (Z.lnot (Z.lor KEY_PENDING (if c then ACTIVE else 0)))
  = word e false (a && negb c).
Proof.
  rewrite !gate_word_lor, Z.land_lor_distr_l, high_land_not by (by destruct c).
  f_equal. by destruct k, a, c.
Qed.
Lemma word_activate e : Z.lor (4 * e) ACTIVE = word e false true.
Proof. by rewrite gate_word_lor. Qed.

Lemma word_div s : 0 <= s -> exists e k a, s = word e k a /\ 0 <= e.
Proof.
  intros Hs. pose proof (Z.div_mod s 4). pose proof (Z.mod_pos_bound s 4).
  assert (0 <= s / 4) by (apply Z.div_pos; lia). exists (s / 4). unfold word.
  assert (s mod 4 = 0 \/ s mod 4 = 1 \/ s mod 4 = 2 \/ s mod 4 = 3) as [E|[E|[E|E]]] by lia;
    [exists false, false|exists false, true|exists true, false|exists true, true]; lia.
Qed.

(** The state machine on the parts of the word. *)
Record Gate : Type := mkGate { gt_epoch : Z; gt_key : bool; gt_active : bool }.
Definition gate_of (r : MediaRepair) (g : Gate) : Prop :=
  mr_state r = word (gt_epoch g) (gt_key g) (gt_active g) /\ 0 <= gt_epoch g.

Lemma gate_exists r : 0 <= mr_state r -> exists g, gate_of r g.
Proof. intros (e & k & a & H & He)%word_div. by exists (mkGate e k a). Qed.

Section GateOf.
Context (r : MediaRepair) (g : Gate) (Hg : gate_of r g).

Lemma gate_generation : generation r = 4 * gt_epoch g.
Proof. unfold generation. rewrite (proj1 Hg). apply word_epoch. Qed.
Lemma gate_key_pending : key_pending r = gt_key g.
Proof. unfold key_pending. rewrite (proj1 Hg), word_key. apply negb_involutive. Qed.
Lemma gate_active : active r = gt_active g.
Proof. unfold active. rewrite (proj1 Hg), word_active. apply negb_involutive. Qed.

Lemma gate_request :
  match repair_request r with
  | (r', Accepted) => gt_active g = false /\ gate_of r' (mkGate (gt_epoch g + 1) false true)
  | (r', Coalesced) => gt_active g = true /\ gate_of r' g
  | (r', Exhausted) => gt_active g = false /\ r' = r /\ u64_max < 4 * gt_epoch g + 4
  end.
Proof.
  unfold repair_request. rewrite gate_active. destruct (gt_active g) eqn:Ea.
  { by rewrite <-Ea; destruct Hg. }
  change (epoch_of (mr_state r)) with (generation r). rewrite gate_generation.
  unfold checked_add64. change NEXT_EPOCH with 4.
  destruct (4 * gt_epoch g + 4 <=? u64_max) eqn:E; b2p; [|done]. split; [done|]. split; cbn [gt_epoch gt_key gt_active mr_state].
  - replace (4 * gt_epoch g + 4) with (4 * (gt_epoch g + 1)) by lia. apply word_activate.
  - destruct Hg. lia.
Qed.

Lemma gate_take n :
  match repair_key n r with
  | Some r' => n = 4 * gt_epoch g /\ gt_key g = false /\
               gate_of r' (mkGate (gt_epoch g) true (gt_active g))
  | None => n <> 4 * gt_epoch g \/ gt_key g = true
  end.
Proof.
  unfold repair_key. change (epoch_of (mr_state r)) with (generation r). rewrite gate_generation.
  rewrite (proj1 Hg), word_key. destruct (_ =? n) eqn:E; b2p; cbn [andb]; [|by left].
  destruct (gt_key g) eqn:Ek; cbn [negb]; [by right|]. split; [done|]. split; [done|].
  split; [|apply Hg]. cbn [mr_state gt_epoch gt_key gt_active]. apply word_set_key.
Qed.

Lemma gate_release n c :
  if n =? 4 * gt_epoch g
  then gate_of (release_key n c r) (mkGate (gt_epoch g) false (gt_active g && negb c))
  else release_key n c r = r.
Proof.
  unfold release_key. change (epoch_of (mr_state r)) with (generation r). rewrite gate_generation.
  rewrite (Z.eqb_sym n). destruct (_ =? n) eqn:E; cbn [negb]; [|done].
  split; [|apply Hg]. cbn [mr_state gt_epoch gt_key gt_active]. rewrite (proj1 Hg). apply word_clear.
Qed.
End GateOf.

(** ** Proofs of receipt *)

Inductive Evidence : Type := EvTransport | EvPayload | EvObsolete.

(** An entry of [Pending]: the digest once it is known, whether its [oneshot::Sender] is
    still there, and what was sent through it. *)
Record PendingReceipt : Type := mkPending {
  pd_expected : option bytes;
  pd_sender : bool;
  pd_channel : option Evidence
}.
Abbreviation Receipts := (gmap Z PendingReceipt) (only parsing).

(** [Receipts::register]. *)
Definition register (seq : Z) (rs : Receipts) : option Receipts :=
  if (MAX_PENDING_FRAME_ACKS <=? Z.of_nat (size rs)) || is_some (rs !! seq) then None
  else Some (<[seq := mkPending None true None]> rs).

(** [Receipts::set_digest]. *)
Definition set_digest (seq : Z) (digest : bytes) (rs : Receipts) : Receipts * bool :=
  match rs !! seq with
  | None => (rs, false)
  | Some e =>
      if is_some (pd_expected e) then (rs, false)
      else (<[seq := mkPending (Some digest) (pd_sender e) (pd_channel e)]> rs, true)
  end.

(** [Receipts::confirm]; the receiving end lives as long as the entry. *)
Definition confirm (seq : Z) (digest : bytes) (obsolete : bool) (rs : Receipts) : Receipts * bool :=
  match rs !! seq with
  | None => (rs, false)
  | Some e =>
      if negb (bool_decide (pd_expected e = Some digest)) then (rs, false) else
      if pd_sender e
      then (<[seq := mkPending (pd_expected e) false
                       (Some (if obsolete then EvObsolete else EvPayload))]> rs, true)
      else (rs, false)
  end.

(** [Ticket::drop]. *)
Definition ticket_drop (seq : Z) (rs : Receipts) : Receipts := delete seq rs.

(** [receipts::wait] at one moment: [None] while it goes on waiting.  [ticket] is what the
    ticket's channel holds, where there is a ticket; [transport] is the outcome of the
    stream, once it is known. *)
Definition receipts_wait (ticket : option (option Evidence)) (transport : option (result Evidence string))
  : option (result Evidence string) :=
  match ticket with
  | None => transport
  | Some (Some proof) => Some (Ok proof)
  | Some None => match transport with Some (Ok EvTransport) => None | other => other end
  end.

(** ** The reference chain of the writer *)

Record FrameChain : Type := mkChain { fc_next : option Z; fc_last_key_seq : option Z }.
Definition chain_default : FrameChain := mkChain None None.

(** [FrameChain::failed_receipt]. *)
Definition failed_receipt (seq : Z) (c : FrameChain) : FrameChain :=
  if is_none_or (fc_last_key_seq c) (fun key => key <=? seq)
  then mkChain None (fc_last_key_seq c) else c.

(** [FrameChain::admit]. *)
Definition chain_admit (p : Produced) (c : FrameChain) : FrameChain * bool :=
  if pr_empty p || (pr_seq p =? u64_max)
     || (negb (pr_key p) && negb (bool_decide (fc_next c = Some (pr_seq p))))
  then (mkChain None (fc_last_key_seq c), false)
  else (mkChain (checked_add64 (pr_seq p) 1)
          (if pr_key p then Some (pr_seq p) else fc_last_key_seq c), true).

(** [request_frame_repair]: whether a picture is asked for. *)
Definition request_frame_repair (latest_key_seq failed_seq : Z) (idr : bool) : bool :=
  idr || (latest_key_seq =? u64_max) || (latest_key_seq <=? failed_seq).

(** ** Delivery counters *)

Record DeliveryFeedback : Type := mkFeedback {
  fb_delayed : Z;
  fb_delayed_bytes : Z;
  fb_late_pending : Z;
  fb_failed : Z;
  fb_acknowledged : Z;
  fb_timely_bytes : Z;
  fb_timely_receipts : Z;
  fb_obsolete : Z
}.
Definition feedback_default : DeliveryFeedback := mkFeedback 0 0 0 0 0 0 0 0.

Definition mark_delayed (n : Z) (f : DeliveryFeedback) : DeliveryFeedback :=
  mkFeedback (fb_delayed f + 1) (fb_delayed_bytes f + n) (fb_late_pending f) (fb_failed f)
    (fb_acknowledged f) (fb_timely_bytes f) (fb_timely_receipts f) (fb_obsolete f).
Definition fb_acknowledge (n : Z) (elapsed budget : duration) (f : DeliveryFeedback) : DeliveryFeedback :=
  let timely := elapsed <=? budget in
  mkFeedback (fb_delayed f) (fb_delayed_bytes f) (fb_late_pending f) (fb_failed f)
    (fb_acknowledged f + 1) (fb_timely_bytes f + (if timely then n else 0))
    (fb_timely_receipts f + (if timely then 1 else 0)) (fb_obsolete f).
Definition fb_late (d : Z) (f : DeliveryFeedback) : DeliveryFeedback :=
  mkFeedback (fb_delayed f) (fb_delayed_bytes f) (fb_late_pending f + d) (fb_failed f)
    (fb_acknowledged f) (fb_timely_bytes f) (fb_timely_receipts f) (fb_obsolete f).
Definition fb_count_failed (f : DeliveryFeedback) : DeliveryFeedback :=
  mkFeedback (fb_delayed f) (fb_delayed_bytes f) (fb_late_pending f) (fb_failed f + 1)
    (fb_acknowledged f) (fb_timely_bytes f) (fb_timely_receipts f) (fb_obsolete f).
Definition fb_count_obsolete (f : DeliveryFeedback) : DeliveryFeedback :=
  mkFeedback (fb_delayed f) (fb_delayed_bytes f) (fb_late_pending f) (fb_failed f)
    (fb_acknowledged f) (fb_timely_bytes f) (fb_timely_receipts f) (fb_obsolete f + 1).

(** [delivery_delay_budget]: three round trips, between a quarter second and one. *)
Definition delivery_delay_budget (rtt : option duration) : duration :=
  match rtt with
  | None => 250 * 1000000
  | Some rtt => Z.min (Z.max (Z.min (3 * rtt) duration_max) (250 * 1000000)) (from_secs 1)
  end.
