(* ===== verification/Serving.v ===== *)
(** * The media pipeline of a serving desktop session

    Models the three parties of [serve_desktop_with] in
    [src/crates/rds-desktop/src/session.rs] that handle frames, with the gates of [MediaGate]
    between them: the capture thread, the writer task with [send_frame], and one task per sent
    frame that waits for its receipt.  They run concurrently, so each of them is cut at its
    accesses to what they share, and a run of the session is any interleaving of these steps,
    together with the repair requests and receipts the control loop passes on.

    What the outside decides is in the step: what a producer gives back, how a stream call
    ends, when a timer fires.  A producer keeps to its contract of labelling a frame with the
    number it was asked for.  No task panics.

    Every frame holds resources that its owner gives back one after the other when it lets
    go of it: the mark of a late receipt, the receipt ticket, the key permit, which takes
    three accesses, and last the capture permit ([Hold], [hold_step]). *)

From S2P Require Import Prelude Crypto Agent MediaGate.

(** [AdmittedFrame]; it always owns a capture permit. *)
Record Frame : Type := mkFrame {
  fr_produced : Produced; fr_generation : Z; fr_key : option KeyPermit
}.
Definition fr_seq (f : Frame) : Z := pr_seq (fr_produced f).

Inductive FrameReceipt : Type := Delivered | Obsolete | Failed.

(** Where [KeyPermit::drop] is. *)
Inductive KeyStage : Type := KCheck | KIdr | KRelease.
(** What an owner still has to give back. *)
Record Hold : Type := mkHold {
  h_frame : option Frame;            (* the frame it belongs to, once queued *)
  h_late : bool;
  h_ticket : bool;
  h_key : option (KeyPermit * KeyStage);
  h_permit : bool
}.
Definition h_seq (h : Hold) : option Z := fr_seq <$> h_frame h.
Definition frame_hold (ticket : bool) (f : Frame) : Hold :=
  mkHold (Some f) false ticket ((fun k => (k, KCheck)) <$> fr_key f) true.
(** A capture permit, with the key permit of a frame that was never queued. *)
Definition loose_hold (key : option KeyPermit) : Hold :=
  mkHold None false false ((fun k => (k, KCheck)) <$> key) true.

(** A task of [acknowledgements]; once it has a result it gives back what it holds. *)
Record Task : Type := mkTask { tk_frame : Frame; tk_hold : Hold; tk_result : option FrameReceipt }.

(** What the parties share. *)
Record Shared : Type := mkShared {
  sh_repair : MediaRepair;
  sh_idr : bool;
  sh_latest_key_seq : Z;
  sh_admission : Z;
  sh_queue : list Frame;
  sh_closed : bool;
  sh_receipts : option (gmap Z PendingReceipt);
  sh_feedback : DeliveryFeedback;
  sh_retiring : list Hold
}.

(** The capture thread, at the accesses of its loop. *)
Inductive ProducerPc : Type :=
| PWait                              (* for room in the queue and an open gate *)
| PTry                               (* for a capture permit *)
| PHold                              (* with the permit, until the cadence allows *)
| PEncode (g : Z)                    (* inside [produce] *)
| PMade (g : Z) (p : Produced)
| PKey (g : Z) (p : Produced)        (* about to take the gate *)
| PKeyed (f : Frame)
| PSend (f : Frame)
| PDone.

(** What the payload write found in the queue. *)
Inductive Held : Type := HeldNone | HeldNewer (f : Frame) | HeldEnded.

(** The writer, at the places where it touches what is shared or waits. *)
Inductive WriterPc : Type :=
| WTop
| WDrain
| WJoin                              (* three receipts outstanding *)
| WRecv
| WGot (f : Frame)
| WPace (f : Frame)
| WAdmit (f : Frame)
| WRegister (f : Frame)
| WHead (f : Frame) (ticket : bool)
| WBody (f : Frame) (ticket : bool) (h : Held)
| WDigest (f : Frame) (ticket : bool) (h : Held)
| WFinish (f : Frame) (ticket : bool) (h : Held)
| WEnding                            (* joins what is outstanding *)
| WEnd
| WOver.

Record Media : Type := mkMedia {
  md_shared : Shared;
  md_ppc : ProducerPc;
  md_seq : Z;
  md_pgen : Z;
  md_wpc : WriterPc;
  md_wgen : Z;
  md_pending : option Frame;
  md_chain : FrameChain;
  md_acks : list Task;
  md_counts : Z * Z * Z                (* acknowledged, obsolete, failed_delivery *)
}.

Definition set_shared (s : Shared) (m : Media) : Media :=
  mkMedia s (md_ppc m) (md_seq m) (md_pgen m) (md_wpc m) (md_wgen m) (md_pending m) (md_chain m)
    (md_acks m) (md_counts m).
Definition set_producer (pc : ProducerPc) (seq g : Z) (m : Media) : Media :=
  mkMedia (md_shared m) pc seq g (md_wpc m) (md_wgen m) (md_pending m) (md_chain m)
    (md_acks m) (md_counts m).
Definition set_ppc (pc : ProducerPc) (m : Media) : Media := set_producer pc (md_seq m) (md_pgen m) m.
Definition set_wpc (pc : WriterPc) (m : Media) : Media :=
  mkMedia (md_shared m) (md_ppc m) (md_seq m) (md_pgen m) pc (md_wgen m) (md_pending m) (md_chain m)
    (md_acks m) (md_counts m).
Definition set_pending (f : option Frame) (m : Media) : Media :=
  mkMedia (md_shared m) (md_ppc m) (md_seq m) (md_pgen m) (md_wpc m) (md_wgen m) f (md_chain m)
    (md_acks m) (md_counts m).
Definition set_chain (c : FrameChain) (m : Media) : Media :=
  mkMedia (md_shared m) (md_ppc m) (md_seq m) (md_pgen m) (md_wpc m) (md_wgen m) (md_pending m) c
    (md_acks m) (md_counts m).
Definition set_acks (l : list Task) (m : Media) : Media :=
  mkMedia (md_shared m) (md_ppc m) (md_seq m) (md_pgen m) (md_wpc m) (md_wgen m) (md_pending m)
    (md_chain m) l (md_counts m).

Definition set_repair (r : MediaRepair) (s : Shared) : Shared :=
  mkShared r (sh_idr s) (sh_latest_key_seq s) (sh_admission s) (sh_queue s) (sh_closed s)
    (sh_receipts s) (sh_feedback s) (sh_retiring s).
Definition set_idr (b : bool) (s : Shared) : Shared :=
  mkShared (sh_repair s) b (sh_latest_key_seq s) (sh_admission s) (sh_queue s) (sh_closed s)
    (sh_receipts s) (sh_feedback s) (sh_retiring s).
Definition set_latest_key (seq : Z) (s : Shared) : Shared :=
  mkShared (sh_repair s) (sh_idr s) seq (sh_admission s) (sh_queue s) (sh_closed s)
    (sh_receipts s) (sh_feedback s) (sh_retiring s).
Definition set_admission (n : Z) (s : Shared) : Shared :=
  mkShared (sh_repair s) (sh_idr s) (sh_latest_key_seq s) n (sh_queue s) (sh_closed s)
    (sh_receipts s) (sh_feedback s) (sh_retiring s).
Definition set_queue (q : list Frame) (s : Shared) : Shared :=
  mkShared (sh_repair s) (sh_idr s) (sh_latest_key_seq s) (sh_admission s) q (sh_closed s)
    (sh_receipts s) (sh_feedback s) (sh_retiring s).
Definition set_closed (s : Shared) : Shared :=
  mkShared (sh_repair s) (sh_idr s) (sh_latest_key_seq s) (sh_admission s) (sh_queue s) true
    (sh_receipts s) (sh_feedback s) (sh_retiring s).
Definition set_receipts (r : gmap Z PendingReceipt) (s : Shared) : Shared :=
  mkShared (sh_repair s) (sh_idr s) (sh_latest_key_seq s) (sh_admission s) (sh_queue s) (sh_closed s)
    ((fun _ => r) <$> sh_receipts s) (sh_feedback s) (sh_retiring s).
Definition set_feedback (f : DeliveryFeedback) (s : Shared) : Shared :=
  mkShared (sh_repair s) (sh_idr s) (sh_latest_key_seq s) (sh_admission s) (sh_queue s) (sh_closed s)
    (sh_receipts s) f (sh_retiring s).
Definition set_retiring (l : list Hold) (s : Shared) : Shared :=
  mkShared (sh_repair s) (sh_idr s) (sh_latest_key_seq s) (sh_admission s) (sh_queue s) (sh_closed s)
    (sh_receipts s) (sh_feedback s) l.
Definition retire (l : list Hold) (s : Shared) : Shared := set_retiring (sh_retiring s ++ l) s.

(** ** Giving back *)

(** The next access of an owner that lets go: [LateReceipt::drop], [Ticket::drop],
    [KeyPermit::drop] in its three accesses, [CapturePermit::drop]. *)
Definition hold_step (h : Hold) (s : Shared) : Hold * Shared :=
  if h_late h then
    (mkHold (h_frame h) false (h_ticket h) (h_key h) (h_permit h),
     set_feedback (fb_late (-1) (sh_feedback s)) s)
  else if h_ticket h then
    (mkHold (h_frame h) false false (h_key h) (h_permit h),
     match h_seq h, sh_receipts s with
     | Some seq, Some rs => set_receipts (ticket_drop seq rs) s
     | _, _ => s
     end)
  else match h_key h with
  | Some (k, KCheck) =>
      (mkHold (h_frame h) false false
         (if generation (sh_repair s) =? kp_generation k
          then Some (k, if kp_confirmed k then KRelease else KIdr) else None) (h_permit h), s)
  | Some (k, KIdr) => (mkHold (h_frame h) false false (Some (k, KRelease)) (h_permit h), set_idr true s)
  | Some (k, KRelease) =>
      (mkHold (h_frame h) false false None (h_permit h),
       set_repair (release_key (kp_generation k) (kp_confirmed k) (sh_repair s)) s)
  | None =>
      if h_permit h
      then (mkHold (h_frame h) false false None false, set_admission (sh_admission s - 1) s)
      else (h, s)
  end.

(** What a step shows. *)
Inductive Out : Type :=
| OOpened (g : Z) (p : Produced)                 (* a frame passes the chain and gets a stream *)
| ORefused (seq : Z)                             (* no receipt slot for it *)
| OFull (seq : Z)                                (* it found the queue full *)
| OReceipt (f : Frame) (proof : bool) (r : FrameReceipt)
| OConfirm (seq : Z) (digest : bytes) (obsolete accepted : bool)
| ORepair (r : RepairRequest).

(** ** The capture thread *)

Inductive ProducerEvent : Type :=
| PeGo
| PeProduce (p : option Produced) (takes_idr : bool)
| PeChecked (preserves_reference : bool)
| PeQuit.                            (* sees the channel closed *)

(** After a frame: the next number, or the end of the numbers. *)
Definition next_number (seq : Z) : ProducerPc * Z :=
  match checked_add64 seq 1 with None => (PDone, seq) | Some n => (PWait, n) end.

Definition producer_step (e : ProducerEvent) (m : Media) : option (Media * list Out) :=
  let s := md_shared m in
  let quiet m := Some (m, []) in
  let give_back key pc m := set_shared (retire [loose_hold key] (md_shared m)) (set_ppc pc m) in
  match e, md_ppc m with
  | PeGo, PWait =>
      if sh_closed s || (2 <=? zlen (sh_queue s)) || key_pending (sh_repair s) then None
      else quiet (set_ppc PTry m)
  | PeGo, PTry =>
      if sh_admission s <? MAX_PENDING_FRAME_ACKS
      then quiet (set_shared (set_admission (sh_admission s + 1) s) (set_ppc PHold m))
      else quiet (set_ppc PWait m)
  | PeGo, PHold =>
      let g := generation (sh_repair s) in
      quiet (set_shared (set_idr (sh_idr s || negb (md_pgen m =? g)) s)
               (set_producer (PEncode g) (md_seq m) g m))
  | PeProduce None _, PEncode _ => quiet (give_back None PDone m)
  | PeProduce (Some p) takes_idr, PEncode g =>
      if negb (pr_seq p =? md_seq m) then None
      else quiet (set_shared (set_idr (sh_idr s && negb takes_idr) s) (set_ppc (PMade g p) m))
  | PeChecked preserves, PMade g p =>
      if negb (generation (sh_repair s) =? g) then quiet (give_back None PWait m) else
      if pr_empty p && preserves then quiet (give_back None PWait m) else
      if pr_key p && negb (pr_empty p) then quiet (set_ppc (PKey g p) m)
      else quiet (set_ppc (PSend (mkFrame p g None)) m)
  | PeGo, PKey g p =>
      match repair_key g (sh_repair s) with
      | None => quiet (give_back None PWait m)
      | Some r => quiet (set_shared (set_repair r s)
                           (set_ppc (PKeyed (mkFrame p g (Some (mkKey g false)))) m))
      end
  | PeGo, PKeyed f => quiet (set_shared (set_latest_key (fr_seq f) s) (set_ppc (PSend f) m))
  | PeGo, PSend f =>
      let next := next_number (md_seq m) in
      if sh_closed s || (2 <=? zlen (sh_queue s))
      then Some (set_shared (set_idr true (retire [loose_hold (fr_key f)] s))
                   (set_producer next.1 next.2 (md_pgen m) m),
                 if sh_closed s then [] else [OFull (fr_seq f)])
      else quiet (set_shared (set_queue (sh_queue s ++ [f]) s)
                    (set_producer next.1 next.2 (md_pgen m) m))
  | PeQuit, (PWait | PTry) => if sh_closed s then quiet (set_ppc PDone m) else None
  | PeQuit, PHold => if sh_closed s then quiet (give_back None PDone m) else None
  | _, _ => None
  end.

(** ** The writer *)

(** A finished task is joined when it has given everything back. *)
Definition joinable (t : Task) : bool := is_some (tk_result t) && negb (h_permit (tk_hold t)).

Definition join_receipt (t : Task) (c : FrameChain) (n : Z * Z * Z) : FrameChain * (Z * Z * Z) :=
  let '(acknowledged, obsolete, failed) := n in
  match tk_result t with
  | Some Delivered => (c, (acknowledged + 1, obsolete, failed))
  | Some Obsolete => (c, (acknowledged, obsolete + 1, failed))
  | _ => (failed_receipt (fr_seq (tk_frame t)) c, (acknowledged, obsolete, failed + 1))
  end.

(** [drain_frame_receipts]. *)
Fixpoint drain_frame_receipts (l : list Task) (c : FrameChain) (n : Z * Z * Z)
  : list Task * FrameChain * (Z * Z * Z) :=
  match l with
  | [] => ([], c, n)
  | t :: l =>
      if joinable t
      then let '(c, n) := join_receipt t c n in drain_frame_receipts l c n
      else let '(l, c, n) := drain_frame_receipts l c n in (t :: l, c, n)
  end.

Definition drained (m : Media) : Media :=
  let '(l, c, n) := drain_frame_receipts (md_acks m) (md_chain m) (md_counts m) in
  mkMedia (md_shared m) (md_ppc m) (md_seq m) (md_pgen m) (md_wpc m) (md_wgen m) (md_pending m) c l n.

(** How a call on the stream ends: done, stopped by the peer as obsolete, or an error. *)
Inductive IoEnd : Type := IoOk | IoObsolete | IoFail.

Inductive WriterEvent : Type :=
| WeGo
| WeChanged                          (* the repair epoch moved on *)
| WeJoin (i : nat)
| WeClosed                           (* the capture thread is gone *)
| WePacing (wait : bool)
| WeIo (o : IoEnd)
| WeNewer                            (* a frame arrives during the payload *)
| WeTimeout.

Definition held_frames (h : Held) : list Frame :=
  match h with HeldNewer f => [f] | _ => [] end.
(** The frames the writer has in its hands; the first of them may hold a ticket. *)
Definition writer_holds (pc : WriterPc) : list Hold :=
  match pc with
  | WGot f | WPace f | WAdmit f | WRegister f => [frame_hold false f]
  | WHead f t => [frame_hold t f]
  | WBody f t h | WDigest f t h | WFinish f t h =>
      frame_hold t f :: (frame_hold false <$> held_frames h)
  | _ => []
  end.
(** The writer lets go of them. *)
Definition writer_drop (pc : WriterPc) (m : Media) : Media :=
  set_wpc pc (set_shared (retire (writer_holds (md_wpc m)) (md_shared m)) m).

Definition ask_repair (seq : Z) (m : Media) : Media :=
  set_shared (set_idr (request_frame_repair (sh_latest_key_seq (md_shared m)) seq (sh_idr (md_shared m)))
                (md_shared m)) m.

(** The loop of the writer up to the admission of a frame. *)
Definition writer_step (e : WriterEvent) (m : Media) : option (Media * list Out) :=
  let s := md_shared m in
  let changed := negb (generation (sh_repair s) =? md_wgen m) in
  let quiet m := Some (m, []) in
  match e, md_wpc m with
  | WeGo, WTop =>
      if negb changed then quiet (set_wpc WDrain m) else
      let g := generation (sh_repair s) in
      let stale := match md_pending m with
                   | Some f => if fr_generation f =? g then [] else [frame_hold false f]
                   | None => []
                   end in
      quiet (mkMedia (retire (stale ++ (tk_hold <$> md_acks m)) s)
               (md_ppc m) (md_seq m) (md_pgen m) WDrain g
               (match stale with [] => md_pending m | _ => None end) chain_default [] (md_counts m))
  | WeGo, WDrain =>
      let m := drained m in
      if MAX_PENDING_FRAME_ACKS <=? zlen (md_acks m) then quiet (set_wpc WJoin m) else
      match md_pending m with
      | Some f => quiet (set_wpc (WGot f) (set_pending None m))
      | None => quiet (set_wpc WRecv m)
      end
  | WeJoin i, WJoin =>
      match md_acks m !! i with
      | Some t =>
          if negb (joinable t) then None else
          let '(c, n) := join_receipt t (md_chain m) (md_counts m) in
          quiet (mkMedia s (md_ppc m) (md_seq m) (md_pgen m) WTop (md_wgen m) (md_pending m) c
                   (delete i (md_acks m)) n)
      | None => None
      end
  | WeChanged, (WJoin | WRecv | WPace _ | WHead _ _ | WBody _ _ _ | WFinish _ _ _) =>
      if changed then quiet (writer_drop WTop m) else None
  | WeGo, WRecv =>
      match sh_queue s with
      | f :: q => quiet (set_shared (set_queue q s) (set_wpc (WGot f) m))
      | [] => None
      end
  | WeClosed, WRecv =>
      match sh_queue s, md_ppc m with [], PDone => quiet (set_wpc WEnd m) | _, _ => None end
  | WePacing wait, WGot f =>
      if negb (fr_generation f =? md_wgen m) then quiet (writer_drop WTop m) else
      if pr_empty (fr_produced f)
      then quiet (ask_repair (fr_seq f)
                    (writer_drop WTop (set_chain (mkChain None (fc_last_key_seq (md_chain m))) m)))
      else quiet (set_wpc (if wait then WPace f else WAdmit f) (drained m))
  | WeGo, WPace f => quiet (set_wpc (WAdmit f) m)
  | WeGo, WAdmit f =>
      let '(c, admitted) := chain_admit (fr_produced f) (md_chain m) in
      if admitted
      then Some (set_wpc (WRegister f) (set_chain c m), [OOpened (md_wgen m) (fr_produced f)])
      else quiet (ask_repair (fr_seq f) (writer_drop WTop (set_chain c m)))
  | WeGo, WEnding =>
      if forallb joinable (md_acks m) then quiet (set_wpc WEnd (set_acks [] m)) else None
  | WeGo, WEnd =>
      quiet (mkMedia
               (set_closed (set_queue []
                  (retire ((frame_hold false <$> (sh_queue s ++ option_list (md_pending m)))
                           ++ (tk_hold <$> md_acks m)) s)))
               (md_ppc m) (md_seq m) (md_pgen m) WOver (md_wgen m) None (md_chain m) [] (md_counts m))
  | _, _ => None
  end.

Section Serving.
Context `{HB : Blake3}.

(** The peer stopped the stream because it recovered past this frame ([obsolete_send]). *)
Definition obsolete_send (m : Media) : Media :=
  let m := writer_drop WTop m in
  set_shared (set_feedback (fb_count_obsolete (sh_feedback (md_shared m))) (md_shared m)) m.

(** [send_frame_inner] and [send_payload]. *)
Definition send_step (e : WriterEvent) (m : Media) : option (Media * list Out) :=
  let s := md_shared m in
  let quiet m := Some (m, []) in
  match e, md_wpc m with
  | WeGo, WRegister f =>
      match sh_receipts s with
      | None => quiet (set_wpc (WHead f false) m)
      | Some rs =>
          match register (fr_seq f) rs with
          | None => Some (writer_drop WEnd m, [ORefused (fr_seq f)])
          | Some rs => quiet (set_shared (set_receipts rs s) (set_wpc (WHead f true) m))
          end
      end
  | WeIo o, WHead f t =>
      match o with
      | IoOk => quiet (set_wpc (WBody f t HeldNone) m)
      | IoObsolete => quiet (obsolete_send m)
      | IoFail => quiet (writer_drop WEnd m)
      end
  | WeNewer, WBody f t HeldNone =>
      match sh_queue s with
      | [] => None
      | n :: q =>
          let m := set_shared (set_queue q s) m in
          if pr_key (fr_produced f) || negb (pr_key (fr_produced n))
          then quiet (set_wpc (WBody f t (HeldNewer n)) m)
          else quiet (set_pending (Some n) (writer_drop WTop m))
      end
  | WeClosed, WBody f t HeldNone =>
      match sh_queue s, md_ppc m with
      | [], PDone => quiet (set_wpc (WBody f t HeldEnded) m) | _, _ => None end
  | WeIo o, WBody f t h =>
      match o with
      | IoOk => quiet (set_wpc (WDigest f t h) m)
      | IoObsolete => quiet (obsolete_send m)
      | IoFail => quiet (writer_drop WEnd m)
      end
  | WeGo, WDigest f t h =>
      quiet (set_wpc (WFinish f t h)
               (match sh_receipts s with
                | Some rs => set_shared (set_receipts
                    (set_digest (fr_seq f) (blake3_hash (pr_payload (fr_produced f))) rs).1 s) m
                | None => m
                end))
  | WeIo IoOk, WFinish f t h =>
      let m := set_acks (md_acks m ++ [mkTask f (frame_hold t f) None]) m in
      match h with
      | HeldNone => quiet (set_wpc WTop m)
      | HeldNewer n => quiet (set_wpc WTop (set_pending (Some n) m))
      | HeldEnded => quiet (set_wpc WEnding m)
      end
  | WeIo IoObsolete, WFinish _ _ _ => quiet (obsolete_send m)
  | WeIo IoFail, WFinish _ _ _ | WeTimeout, (WHead _ _ | WBody _ _ _) => quiet (writer_drop WEnd m)
  | _, _ => None
  end.

(** ** Receipt tasks *)

(** [SendStream::stopped]: everything acknowledged, stopped with a code, or lost. *)
Inductive Stopped : Type := StAcked | StCode (code : Z) | StLost (e : string).
Definition transport_outcome (o : Stopped) : result Evidence string :=
  match o with
  | StAcked => Ok EvTransport
  | StCode code => if code =? DESKTOP_FRAME_OBSOLETE then Ok EvObsolete
                   else Err "peer stopped frame"%string
  | StLost e => Err e
  end.

Inductive TaskEvent : Type :=
| TeLate                             (* the soft delay passes *)
| TeDone (stopped : option Stopped) (timed_out : bool) (elapsed budget : duration)
| TeDrop.

Definition confirm_key (h : Hold) : Hold :=
  mkHold (h_frame h) (h_late h) (h_ticket h)
    ((fun ks => (mkKey (kp_generation ks.1) true, ks.2)) <$> h_key h) (h_permit h).

(** What the ticket's channel holds. *)
Definition ticket_channel (t : Task) (s : Shared) : option (option Evidence) :=
  if h_ticket (tk_hold t)
  then Some (match sh_receipts s with
             | Some rs => match rs !! fr_seq (tk_frame t) with
                          | Some e => pd_channel e | None => None end
             | None => None
             end)
  else None.

(** The end of a receipt task. *)
Definition task_outcome (t : Task) (r : result Evidence string) (elapsed budget : duration) (s : Shared)
  : Hold * FrameReceipt * Shared :=
  let fb := sh_feedback s in
  if negb (generation (sh_repair s) =? fr_generation (tk_frame t))
  then (tk_hold t, Obsolete, set_feedback (fb_count_obsolete fb) s) else
  match r with
  | Ok (EvTransport | EvPayload) =>
      (confirm_key (tk_hold t), Delivered,
       set_feedback (fb_acknowledge (zlen (pr_payload (fr_produced (tk_frame t)))) elapsed budget fb) s)
  | Ok EvObsolete => (tk_hold t, Obsolete, set_feedback (fb_count_obsolete fb) s)
  | Err _ =>
      (tk_hold t, Failed,
       set_idr (request_frame_repair (sh_latest_key_seq s) (fr_seq (tk_frame t)) (sh_idr s))
         (set_feedback (fb_count_failed fb) s))
  end.

Definition task_step (e : TaskEvent) (t : Task) (s : Shared) : option (Task * Shared * list Out) :=
  match e, tk_result t with
  | TeLate, None =>
      if h_late (tk_hold t) then None else
      let h := tk_hold t in
      Some (mkTask (tk_frame t) (mkHold (h_frame h) true (h_ticket h) (h_key h) (h_permit h)) None,
            set_feedback (fb_late 1 (mark_delayed (zlen (pr_payload (fr_produced (tk_frame t))))
                                       (sh_feedback s))) s, [])
  | TeDone stopped timed_out elapsed budget, None =>
      match receipts_wait (ticket_channel t s) (transport_outcome <$> stopped) with
      | None => if timed_out
                then let '(h, r, s) := task_outcome t (Err "deadline"%string) elapsed budget s in
                     Some (mkTask (tk_frame t) h (Some r), s, [OReceipt (tk_frame t) false r])
                else None
      | Some res =>
          let '(h, r, s) := task_outcome t res elapsed budget s in
          Some (mkTask (tk_frame t) h (Some r), s,
                [OReceipt (tk_frame t) (h_ticket (tk_hold t)) r])
      end
  | TeDrop, Some _ =>
      if h_permit (tk_hold t)
      then let '(h, s) := hold_step (tk_hold t) s in Some (mkTask (tk_frame t) h (tk_result t), s, [])
      else None
  | _, _ => None
  end.

(** ** The session *)

Inductive MediaEvent : Type :=
| MProducer (e : ProducerEvent)
| MWriter (e : WriterEvent)
| MTask (i : nat) (e : TaskEvent)
| MRetire (i : nat)
| MRequest                                        (* [RequestIdr] *)
| MReceipt (seq : Z) (digest : bytes) (obsolete : bool).  (* [FrameReceived] *)

Definition media_step (e : MediaEvent) (m : Media) : option (Media * list Out) :=
  let s := md_shared m in
  match e with
  | MProducer e => producer_step e m
  | MWriter e =>
      match writer_step e m with Some r => Some r | None => send_step e m end
  | MTask i e =>
      match md_acks m !! i with
      | None => None
      | Some t =>
          match task_step e t s with
          | None => None
          | Some (t, s, o) => Some (set_shared s (set_acks (<[i := t]> (md_acks m)) m), o)
          end
      end
  | MRetire i =>
      match sh_retiring s !! i with
      | None => None
      | Some h =>
          let '(h, s) := hold_step h s in
          Some (set_shared (set_retiring (if h_permit h then <[i := h]> (sh_retiring s)
                                          else delete i (sh_retiring s)) s) m, [])
      end
  | MRequest =>
      let '(r, answer) := repair_request (sh_repair s) in
      Some (set_shared (set_repair r s) m, [ORepair answer])
  | MReceipt seq digest obsolete =>
      match sh_receipts s with
      | None => None
      | Some rs =>
          let '(rs, accepted) := confirm seq digest obsolete rs in
          Some (set_shared (set_receipts rs s) m, [OConfirm seq digest obsolete accepted])
      end
  end.

Fixpoint media_run (l : list MediaEvent) (m : Media) : option (Media * list Out) :=
  match l with
  | [] => Some (m, [])
  | e :: l =>
      match media_step e m with
      | None => None
      | Some (m, o) =>
          match media_run l m with None => None | Some (m, os) => Some (m, o ++ os) end
      end
  end.

(** The session after [serve_desktop_with] spawned its tasks. *)
Definition media_new (payload_receipts : bool) : Media :=
  mkMedia (mkShared repair_new true u64_max 0 [] false (if payload_receipts then Some ∅ else None)
             feedback_default [])
    PWait 0 0 WTop 0 None chain_default [] (0, 0, 0).

End Serving.

(** ** What is held

    Every permit, ticket and mark in the session, wherever the frame they belong to is. *)

Definition producer_holds (pc : ProducerPc) : list Hold :=
  match pc with
  | PHold | PEncode _ | PMade _ _ | PKey _ _ => [loose_hold None]
  | PKeyed f | PSend f => [loose_hold (fr_key f)]
  | _ => []
  end.
Definition holds (m : Media) : list Hold :=
  producer_holds (md_ppc m)
  ++ (frame_hold false <$> (sh_queue (md_shared m) ++ option_list (md_pending m)))
  ++ writer_holds (md_wpc m) ++ (tk_hold <$> md_acks m) ++ sh_retiring (md_shared m).

Definition cnt (p : Hold -> bool) (l : list Hold) : Z := zlen (filter (fun h => p h = true) l).
(** Still holds the gate of epoch [g]. *)
Definition key_live (g : Z) (h : Hold) : bool :=
  match h_key h with Some (k, _) => kp_generation k =? g | None => false end.
Definition key_gen_le (g : Z) (h : Hold) : Prop :=
  match h_key h with Some (k, _) => kp_generation k <= g | None => True end.
(** The capture permit goes last. *)
Definition hold_ok (h : Hold) : Prop :=
  (h_permit h = false -> h_late h = false /\ h_ticket h = false /\ h_key h = None) /\
  (h_ticket h = true -> is_Some (h_seq h)).
Definition has_ticket (seq : Z) (h : Hold) : Prop := h_ticket h = true /\ h_seq h = Some seq.

(** The gate is closed exactly while one live key permit of the current epoch exists. *)
Definition gate_ok (r : MediaRepair) (hs : list Hold) : Prop :=
  exists g, gate_of r g /\ cnt (key_live (4 * gt_epoch g)) hs = Z.b2z (gt_key g) /\
    Forall (key_gen_le (4 * gt_epoch g)) hs.
(** The open receipts are those of the tickets. *)
Definition tickets_ok (rs : option (gmap Z PendingReceipt)) (hs : list Hold) : Prop :=
  match rs with
  | None => cnt h_ticket hs = 0
  | Some rs => Z.of_nat (size rs) = cnt h_ticket hs /\
               (forall seq, is_Some (rs !! seq) <-> exists h, h ∈ hs /\ has_ticket seq h)
  end.

Definition Core (s : Shared) (hs : list Hold) : Prop :=
  (sh_admission s = cnt h_permit hs /\ sh_admission s <= MAX_PENDING_FRAME_ACKS) /\
  fb_late_pending (sh_feedback s) = cnt h_late hs /\
  Forall hold_ok hs /\ NoDup (omap h_seq hs) /\
  gate_ok (sh_repair s) hs /\ tickets_ok (sh_receipts s) hs.

Lemma cnt_cons p h l : cnt p (h :: l) = Z.b2z (p h) + cnt p l.
Proof.
  unfold cnt. rewrite filter_cons. destruct (p h) eqn:E; case_decide; try done.
  - rewrite zlen_cons. cbn. lia.
Qed.
Lemma cnt_nonneg p l : 0 <= cnt p l.
Proof. apply zlen_nonneg. Qed.
#[local] Instance cnt_proper p : Proper (Permutation ==> eq) (cnt p).
Proof. intros l k H. unfold cnt. apply zlen_Permutation. by rewrite H. Qed.

#[local] Instance tickets_ok_proper rs : Proper (Permutation ==> iff) (tickets_ok rs).
Proof.
  intros l k H. unfold tickets_ok. destruct rs; rewrite H; [|done]. split; intros [? Hs]; (split; [done|]);
    intros seq; rewrite Hs; split; intros (h & Hh & ?); exists h; (split; [|done]); [by rewrite <-H|by rewrite H|by rewrite H|by rewrite <-H].
Qed.
#[local] Instance gate_ok_proper r : Proper (Permutation ==> iff) (gate_ok r).
Proof.
  intros l k H. unfold gate_ok. split; intros (g & ? & ? & ?); exists g; [rewrite <-H|rewrite H]; done.
Qed.
Lemma Core_perm s l k : l ≡ₚ k -> Core s l -> Core s k.
Proof.
  intros H ([Ha Hm] & Hl & Hf & Hn & Hg & Ht).
  split; [by rewrite <-(cnt_proper h_permit _ _ H)|].
  split; [by rewrite <-(cnt_proper h_late _ _ H)|].
  split; [by rewrite <-H|]. split; [by rewrite <-(omap_Permutation h_seq _ _ H)|].
  split; [by apply (gate_ok_proper _ _ _ H)|by apply (tickets_ok_proper _ _ _ H)].
Qed.

(** *** One hold at a time *)

Lemma Core_admission s h l :
  Core s (h :: l) -> h_permit h = true -> 1 <= sh_admission s.
Proof.
  intros ([-> _] & _) Hp. rewrite cnt_cons, Hp. cbn. pose proof (cnt_nonneg h_permit l). lia.
Qed.

(** A hold that gave everything back is gone. *)
Lemma Core_gone s h l : Core s (h :: l) -> h_permit h = false -> Core s l.
Proof.
  intros ([Ha Hm] & Hl & Hf & Hn & Hg & Ht) Hp. apply Forall_cons in Hf as [Hh Hf].
  destruct (proj1 Hh Hp) as (Hlate & Hti & Hk). rewrite !cnt_cons in *.
  rewrite Hp in Ha. rewrite Hlate in Hl. cbn in Ha, Hl.
  split; [done|]. split; [done|]. split; [done|].
  split. { simpl in Hn. destruct (h_seq h); [by apply NoDup_cons in Hn as [_ ?]|done]. }
  split.
  { destruct Hg as (g & ? & Hc & Hle). exists g. rewrite cnt_cons in Hc. unfold key_live at 1 in Hc.
    rewrite Hk in Hc. apply Forall_cons in Hle as [_ ?]. done. }
  destruct (sh_receipts s) as [rs|]; cbn in *; rewrite cnt_cons, Hti in Ht; cbn in Ht; [|done].
  destruct Ht as [Hs Hd]. split; [done|]. intros seq. rewrite Hd. setoid_rewrite elem_of_cons.
  split; [|naive_solver]. intros (h' & [->|?] & Ht'); [|by eauto]. destruct Ht'. congruence.
Qed.

Definition key_gen (h : Hold) : option Z := (fun ks => kp_generation ks.1) <$> h_key h.
Lemma key_live_gen g h : key_live g h = is_some_and (key_gen h) (fun n => n =? g).
Proof. unfold key_live, key_gen. by destruct (h_key h) as [[]|]. Qed.
Lemma key_gen_le_gen g h : key_gen_le g h <-> forall n, key_gen h = Some n -> n <= g.
Proof. unfold key_gen_le, key_gen. destruct (h_key h) as [[k st]|]; cbn; naive_solver. Qed.

Lemma gate_same r h h' l :
  key_gen h' = key_gen h -> gate_ok r (h :: l) -> gate_ok r (h' :: l).
Proof.
  intros Hk (g & Hg & Hc & Hle). exists g. rewrite cnt_cons, key_live_gen, Hk, <-key_live_gen, <-cnt_cons.
  split; [done|]. split; [done|]. apply Forall_cons in Hle as [Hh Hl].
  constructor; [|done]. apply key_gen_le_gen. rewrite Hk. by apply key_gen_le_gen.
Qed.
Lemma tickets_same rs h h' l :
  h_ticket h' = h_ticket h -> h_seq h' = h_seq h -> tickets_ok rs (h :: l) -> tickets_ok rs (h' :: l).
Proof.
  intros Ht Hs. destruct rs as [rs|]; cbn; rewrite !cnt_cons, Ht; [|done].
  intros [? Hd]. split; [done|]. intros seq. rewrite Hd. setoid_rewrite elem_of_cons.
  split; intros (x & [->|Hx] & Hx').
  - exists h'. split; [by left|]. destruct Hx'. split; congruence.
  - exists x. by split; [right|].
  - exists h. split; [by left|]. destruct Hx'. split; congruence.
  - exists x. by split; [right|].
Qed.

Lemma Core_replace s s' h h' l :
  Core s (h :: l) ->
  sh_admission s' = sh_admission s + Z.b2z (h_permit h') - Z.b2z (h_permit h) ->
  sh_admission s' <= MAX_PENDING_FRAME_ACKS ->
  fb_late_pending (sh_feedback s')
  = fb_late_pending (sh_feedback s) + Z.b2z (h_late h') - Z.b2z (h_late h) ->
  hold_ok h' -> h_seq h' = h_seq h ->
  (gate_ok (sh_repair s) (h :: l) -> gate_ok (sh_repair s') (h' :: l)) ->
  (tickets_ok (sh_receipts s) (h :: l) -> tickets_ok (sh_receipts s') (h' :: l)) ->
  Core s' (h' :: l).
Proof.
  intros ([Ha Hm] & Hl & Hf & Hn & Hg & Ht) Ha' Hm' Hl' Hok Hs Hgate Htick.
  rewrite cnt_cons in Ha, Hl. split; [rewrite cnt_cons; lia|]. split; [rewrite cnt_cons; lia|].
  split; [apply Forall_cons in Hf as [_ ?]; by constructor|].
  split; [simpl in *; by rewrite Hs|]. auto.
Qed.

(** Giving up the gate of an epoch that is over changes nothing, giving up the current one
    opens it. *)
Lemma gate_drop_stale r h h' l :
  key_gen h <> Some (generation r) -> key_gen h' = None ->
  gate_ok r (h :: l) -> gate_ok r (h' :: l).
Proof.
  intros Hk Hk' (g & Hg & Hc & Hle). rewrite (gate_generation _ _ Hg) in Hk. exists g.
  rewrite cnt_cons, key_live_gen in *. rewrite Hk'. cbn [is_some_and Z.b2z].
  split; [done|]. split.
  - destruct (key_gen h) as [n|]; cbn in Hc; [|done].
    destruct (n =? 4 * gt_epoch g) eqn:E; b2p; [by subst|done].
  - apply Forall_cons in Hle as [_ Hl]. constructor; [|done]. apply key_gen_le_gen. by rewrite Hk'.
Qed.
Lemma gate_drop_live r h h' l n c :
  key_gen h = Some n -> key_gen h' = None ->
  gate_ok r (h :: l) -> gate_ok (release_key n c r) (h' :: l).
Proof.
  intros Hk Hk' Hok. pose proof Hok as (g & Hg & Hc & Hle). pose proof (gate_release r g Hg n c) as Hr.
  destruct (n =? 4 * gt_epoch g) eqn:E; b2p.
  - subst n. exists (mkGate (gt_epoch g) false (gt_active g && negb c)). split; [done|]. cbn [gt_epoch gt_key Z.b2z].
    rewrite cnt_cons, key_live_gen, Hk' in *. rewrite Hk in Hc. cbn in Hc. rewrite Z.eqb_refl in Hc. cbn in Hc.
    pose proof (cnt_nonneg (key_live (4 * gt_epoch g)) l). split; [destruct (gt_key g); cbn in *; lia|].
    apply Forall_cons in Hle as [_ Hl]. constructor; [|done]. apply key_gen_le_gen. by rewrite Hk'.
  - rewrite Hr. eapply gate_drop_stale; [|done|done]. rewrite Hk, (gate_generation _ _ Hg). congruence.
Qed.
Lemma gate_take_key r r' h h' l n :
  repair_key n r = Some r' -> key_gen h = None -> key_gen h' = Some n ->
  gate_ok r (h :: l) -> gate_ok r' (h' :: l).
Proof.
  intros Hr Hk Hk' (g & Hg & Hc & Hle). pose proof (gate_take r g Hg n) as Ht. rewrite Hr in Ht.
  destruct Ht as (-> & Hkey & Hg'). exists (mkGate (gt_epoch g) true (gt_active g)). split; [done|].
  cbn [gt_epoch gt_key Z.b2z]. rewrite cnt_cons, key_live_gen in *. rewrite Hk' in *. rewrite Hk, Hkey in Hc. cbn in Hc |- *.
  rewrite Z.eqb_refl. cbn. split; [lia|]. apply Forall_cons in Hle as [_ Hl].
  constructor; [|done]. apply key_gen_le_gen. rewrite Hk'. intros ? [= <-]. done.
Qed.
Lemma gate_request_ok r l : gate_ok r l -> gate_ok (repair_request r).1 l.
Proof.
  intros (g & Hg & Hc & Hle). pose proof (gate_request r g Hg) as Hr.
  destruct (repair_request r) as [r' []]; cbn [fst].
  - destruct Hr as [_ Hr]. eexists. split; [exact Hr|]. cbn [gt_epoch gt_key Z.b2z]. split.
    + clear Hc. induction Hle as [|h l Hh _ IH]; [done|]. rewrite cnt_cons, IH. unfold key_live, key_gen_le in *.
      destruct (h_key h) as [[k st]|]; [|done]. rewrite (proj2 (Z.eqb_neq _ _)) by lia. done.
    + eapply Forall_impl; [exact Hle|]. intros h. unfold key_gen_le. destruct (h_key h) as [[]|]; [lia|done].
  - destruct Hr as [_ Hr]. by exists g.
  - destruct Hr as (_ & -> & _). by exists g.
Qed.

Lemma seq_once h l seq :
  NoDup (omap h_seq (h :: l)) -> h_seq h = Some seq -> forall x, x ∈ l -> h_seq x <> Some seq.
Proof.
  intros Hn Hs x Hx E. simpl in Hn. rewrite Hs in Hn. apply NoDup_cons in Hn as [Hn _].
  apply Hn, list_elem_of_omap. by exists x.
Qed.

Lemma tickets_drop rs h h' l seq :
  NoDup (omap h_seq (h :: l)) -> h_ticket h = true -> h_seq h = Some seq -> h_ticket h' = false ->
  tickets_ok (Some rs) (h :: l) -> tickets_ok (Some (ticket_drop seq rs)) (h' :: l).
Proof.
  intros Hn Ht Hs Ht' [Hsz Hd]. unfold ticket_drop. cbn. rewrite cnt_cons, Ht' in *. rewrite Ht in Hsz. cbn in *.
  assert (Hin : is_Some (rs !! seq)) by (apply Hd; exists h; split; [by left|done]).
  split. { rewrite map_size_delete_Some by done. pose proof (cnt_nonneg h_ticket l). lia. }
  intros n. split.
  - intros Hx. apply lookup_delete_is_Some in Hx as [Hne Hx]. apply Hd in Hx as (x & Hx & Hxt).
    exists x. split; [|done]. apply elem_of_cons in Hx as [->|Hx]; [|by right].
    destruct Hxt. congruence.
  - intros (x & Hx & Hxt). apply elem_of_cons in Hx as [->|Hx]; [destruct Hxt; congruence|].
    apply lookup_delete_is_Some. split.
    + intros <-. destruct Hxt. by eapply (seq_once h l).
    + apply Hd. exists x. by split; [right|].
Qed.

Lemma tickets_register rs rs' h h' l seq :
  register seq rs = Some rs' -> h_ticket h = false -> h_ticket h' = true -> h_seq h' = Some seq ->
  tickets_ok (Some rs) (h :: l) -> tickets_ok (Some rs') (h' :: l).
Proof.
  unfold register. intros Hr Ht Ht' Hs [Hsz Hd]. rewrite cnt_cons, Ht in Hsz. cbn in Hsz.
  destruct (_ || _) eqn:E; [done|]. injection Hr as <-. b2p. destruct E as [_ E].
  destruct (rs !! seq) as [e|] eqn:El; [done|]. cbn. rewrite cnt_cons, Ht', map_size_insert_None by done. cbn.
  split; [lia|]. intros n. rewrite lookup_insert_is_Some', Hd. setoid_rewrite elem_of_cons. split.
  - intros [<-|(x & [->|Hx] & Hxt)]; [by exists h'; split; [left|]|destruct Hxt; congruence|].
    exists x. by split; [right|].
  - intros (x & [->|Hx] & Hxt); [left; destruct Hxt; congruence|]. right. exists x. by split; [right|].
Qed.

Lemma tickets_update rs rs' l :
  dom rs' = dom rs -> tickets_ok (Some rs) l -> tickets_ok (Some rs') l.
Proof.
  intros Hdom [Hsz Hd]. cbn. rewrite <-(size_dom rs'), Hdom, size_dom. split; [done|].
  intros seq. by rewrite <-Hd, <-!elem_of_dom, Hdom.
Qed.
Lemma set_digest_dom seq d rs : dom (set_digest seq d rs).1 = dom rs.
Proof.
  unfold set_digest. destruct (rs !! seq) eqn:E; [|done]. destruct (is_some _); [done|]. cbn.
  apply dom_insert_lookup_L. by eexists.
Qed.
Lemma confirm_dom seq d o rs : dom (confirm seq d o rs).1 = dom rs.
Proof.
  unfold confirm. destruct (rs !! seq) eqn:E; [|done]. destruct (negb _); [done|]. destruct (pd_sender _); [|done].
  cbn. apply dom_insert_lookup_L. by eexists.
Qed.

(** Letting go, one access further. *)
Lemma hold_step_core h l s h' s' :
  hold_step h s = (h', s') -> Core s (h :: l) -> Core s' (h' :: l).
Proof.
  intros Hh Hc. pose proof Hc as ([Ha Hm] & _ & Hf & Hn & _ & _).
  apply Forall_cons in Hf as [[Hok Hseq] _]. unfold hold_step in Hh.
  destruct (h_late h) eqn:El.
  { injection Hh as <- <-. eapply Core_replace; [exact Hc|cbn; lia|done|cbn; rewrite El; cbn; lia| |done| |].
    - split; [intros Hp; destruct (Hok Hp); congruence|done].
    - by apply gate_same.
    - by apply tickets_same. }
  destruct (h_ticket h) eqn:Et.
  { destruct (Hseq eq_refl) as [seq Es]. rewrite Es in Hh. injection Hh as <- <-.
    assert (Hp : h_permit h = true) by (destruct (h_permit h); [done|destruct (Hok eq_refl) as (_ & ? & _); congruence]).
    eapply Core_replace; [exact Hc|destruct (sh_receipts s); cbn; lia|by destruct (sh_receipts s)|
      destruct (sh_receipts s); cbn; rewrite El; cbn; lia| |done| |].
    - split; cbn; congruence.
    - destruct (sh_receipts s); by apply gate_same.
    - destruct (sh_receipts s) as [rs|] eqn:Er; cbn; rewrite ?Er; cbn.
      + by apply tickets_drop.
      + rewrite !cnt_cons, Et. cbn. pose proof (cnt_nonneg h_ticket l). lia. }
  destruct (h_key h) as [[k st]|] eqn:Ek.
  { assert (Hp : h_permit h = true) by (destruct (h_permit h); [done|destruct (Hok eq_refl) as (_ & _ & ?); congruence]).
    assert (Hkg : key_gen h = Some (kp_generation k)) by (unfold key_gen; by rewrite Ek).
    destruct st; injection Hh as <- <-;
      (eapply Core_replace; [exact Hc|cbn; lia|done|cbn; rewrite El; cbn; lia|split; cbn; congruence|done| |
         by apply tickets_same]).
    - destruct (generation (sh_repair s) =? kp_generation k) eqn:Eg; b2p.
      + apply gate_same. by rewrite Hkg.
      + apply gate_drop_stale; [rewrite Hkg; congruence|done].
    - apply gate_same. by rewrite Hkg.
    - by apply gate_drop_live. }
  destruct (h_permit h) eqn:Ep; [|by injection Hh as <- <-]. injection Hh as <- <-.
  eapply Core_replace; [exact Hc|cbn; rewrite Ep; cbn; lia|cbn; lia|cbn; rewrite El; cbn; lia|by split|done| |
    by apply tickets_same].
  apply gate_same. unfold key_gen. by rewrite Ek.
Qed.

Lemma Core_permit s l :
  Core s l -> sh_admission s < MAX_PENDING_FRAME_ACKS ->
  Core (set_admission (sh_admission s + 1) s) (loose_hold None :: l).
Proof.
  intros ([Ha Hm] & Hl & Hf & Hn & Hg & Ht) Hlt.
  split; [rewrite cnt_cons; cbn; lia|]. split; [by rewrite cnt_cons|].
  split; [by constructor|]. split; [done|]. split.
  - destruct Hg as (g & Hg & Hc & Hle). exists g. rewrite cnt_cons. split; [done|]. split; [done|].
    by constructor.
  - destruct s as [? ? ? ? ? ? [rs|] ? ?]; cbn in *; rewrite cnt_cons; [|done]. destruct Ht as [Hs Hd].
    split; [done|]. intros seq. rewrite Hd. setoid_rewrite elem_of_cons. split; [naive_solver|].
    intros (h & [->|Hh] & Hx); [by destruct Hx|by exists h].
Qed.

Lemma Core_key s l g r :
  repair_key g (sh_repair s) = Some r -> Core s (loose_hold None :: l) ->
  Core (set_repair r s) (loose_hold (Some (mkKey g false)) :: l).
Proof.
  intros Hr Hc. eapply Core_replace; [exact Hc|cbn; lia| |cbn; lia|by split|done| |by apply tickets_same].
  - apply Hc.
  - by eapply gate_take_key.
Qed.

Lemma Core_queued s f l :
  Core s (loose_hold (fr_key f) :: l) -> fr_seq f ∉ omap h_seq l -> Core s (frame_hold false f :: l).
Proof.
  intros ([Ha Hm] & Hl & Hf & Hn & Hg & Ht) Hs. split; [done|]. split; [done|].
  split; [apply Forall_cons in Hf as [[? _] ?]; by constructor|].
  split; [simpl in *; by apply NoDup_cons|]. split; [eapply gate_same; [|exact Hg]; done|].
  destruct (sh_receipts s) as [rs|]; cbn in *; [|done]. destruct Ht as [? Hd]. split; [done|].
  intros n. rewrite Hd. setoid_rewrite elem_of_cons.
  split; intros (h & [->|Hh] & Hx); try (by destruct Hx); exists h; by split; [right|].
Qed.

Lemma Core_register s f rs rs' l :
  sh_receipts s = Some rs -> register (fr_seq f) rs = Some rs' ->
  Core s (frame_hold false f :: l) -> Core (set_receipts rs' s) (frame_hold true f :: l).
Proof.
  intros Hs Hr Hc. eapply Core_replace; [exact Hc|cbn; lia| |cbn; lia| |done|by apply gate_same|].
  - apply Hc.
  - split; [done|]. by eexists.
  - cbn. rewrite Hs. cbn. by eapply tickets_register.
Qed.

(** An owner of a ticket owns a capture permit. *)
Lemma cnt_ticket_permit l : Forall hold_ok l -> cnt h_ticket l <= cnt h_permit l.
Proof.
  induction 1 as [|h l Hh _ IH]; [done|]. rewrite !cnt_cons.
  destruct (h_ticket h) eqn:Et, (h_permit h) eqn:Ep; cbn; try lia.
  destruct Hh as [Hh _]. destruct (Hh Ep) as (_ & ? & _). congruence.
Qed.
(** No frame is refused a receipt slot. *)
Lemma register_admits s f rs l :
  Core s (frame_hold false f :: l) -> sh_receipts s = Some rs -> is_Some (register (fr_seq f) rs).
Proof.
  intros ([Ha Hm] & _ & Hf & Hn & _ & Ht) Hs. rewrite Hs in Ht. destruct Ht as [Hsz Hd].
  rewrite cnt_cons in *. cbn in Ha, Hsz. unfold register.
  apply Forall_cons in Hf as [_ Hf]. pose proof (cnt_ticket_permit _ Hf) as Hle.
  rewrite (proj2 (Z.leb_gt _ _)) by lia. cbn [orb].
  destruct (rs !! fr_seq f) eqn:El; [|by eexists]. exfalso.
  assert (Hin : is_Some (rs !! fr_seq f)) by (by eexists). apply Hd in Hin as (x & Hx & Hxt & Hxs).
  apply elem_of_cons in Hx as [->|Hx]; [done|]. by eapply (seq_once (frame_hold false f) l).
Qed.

Lemma Core_receipts s rs rs' l :
  sh_receipts s = Some rs -> dom rs' = dom rs -> Core s l -> Core (set_receipts rs' s) l.
Proof.
  intros Hs Hd (? & ? & ? & ? & ? & Ht). do 5 (split; [done|]). cbn. rewrite Hs in *. cbn.
  by eapply tickets_update.
Qed.

Lemma Core_request s l : Core s l -> Core (set_repair (repair_request (sh_repair s)).1 s) l.
Proof. intros (? & ? & ? & ? & Hg & ?). do 4 (split; [done|]). split; [by apply gate_request_ok|done]. Qed.

Lemma task_outcome_core t r elapsed budget s h res s' l :
  task_outcome t r elapsed budget s = (h, res, s') -> Core s (tk_hold t :: l) -> Core s' (h :: l).
Proof.
  intros Ho Hc. unfold task_outcome in Ho. destruct (negb _); [by injection Ho as <- <- <-|].
  assert (Hk : forall s', s' = set_feedback (sh_feedback s') s ->
            fb_late_pending (sh_feedback s') = fb_late_pending (sh_feedback s) ->
            Core s' (confirm_key (tk_hold t) :: l)).
  { intros s2 E Hl. rewrite E. pose proof Hc as ([_ Hm] & _ & Hf & _). apply Forall_cons in Hf as [[Ho1 Ho2] _].
    eapply Core_replace; [exact Hc|cbn; lia|exact Hm|cbn; lia| |done| |by apply tickets_same].
    - split; [|done]. intros Hp. destruct (Ho1 Hp) as (? & ? & Hn). cbn. by rewrite Hn.
    - apply gate_same. unfold key_gen. cbn. by destruct (h_key _) as [[]|]. }
  destruct r as [[]|]; injection Ho as <- <- <-; try done; by apply Hk.
Qed.

(** A task keeps its capture permit until it has a result. *)
Definition task_ok (t : Task) : Prop :=
  h_frame (tk_hold t) = Some (tk_frame t) /\
  (tk_result t = None -> h_permit (tk_hold t) = true).

Lemma hold_step_frame h s : h_frame (hold_step h s).1 = h_frame h.
Proof.
  unfold hold_step. destruct (h_late h); [done|]. destruct (h_ticket h); [done|].
  destruct (h_key h) as [[k []]|]; [done..|]. by destruct (h_permit h).
Qed.
Lemma task_outcome_frame t r elapsed budget s :
  h_frame (task_outcome t r elapsed budget s).1.1 = h_frame (tk_hold t).
Proof. unfold task_outcome. destruct (negb _); [done|]. by destruct r as [[]|]. Qed.

Lemma task_step_core e t s t' s' o l :
  task_step e t s = Some (t', s', o) -> task_ok t -> Core s (tk_hold t :: l) ->
  task_ok t' /\ Core s' (tk_hold t' :: l).
Proof.
  intros Hs [Hseq Hok] Hc. unfold task_step in Hs. destruct e, (tk_result t) eqn:Er; try done.
  - destruct (h_late (tk_hold t)) eqn:El; [done|]. injection Hs as <- <- <-.
    split; [by split; [|intros _; apply Hok]|].
    pose proof Hc as ([_ Hm] & _ & Hf & _). apply Forall_cons in Hf as [[Ho1 Ho2] _].
    eapply Core_replace; [exact Hc|cbn; lia|exact Hm|cbn; rewrite El; cbn; lia| |done|by apply gate_same|
      by apply tickets_same].
    split; [|done]. cbn. by rewrite (Hok eq_refl).
  - destruct (receipts_wait _ _) as [res|]; [|destruct timed_out; [|done]];
      pose proof (task_outcome_frame t) as Hts;
      destruct (task_outcome _ _ _ _ _) as [[h r] s2] eqn:Eo; injection Hs as <- <- <-;
      (split; [|by eapply task_outcome_core]); (split; [|done]); cbn;
      rewrite <-Hseq; erewrite <-Hts; by rewrite Eo.
  - destruct (h_permit (tk_hold t)); [|done].
    destruct (hold_step (tk_hold t) s) as [h s2] eqn:Eh. injection Hs as <- <- <-.
    split; [|by eapply hold_step_core]. split; [|done]. cbn.
    rewrite <-Hseq, <-(hold_step_frame (tk_hold t) s). by rewrite Eh.
Qed.

Lemma hold_step_same h s :
  sh_queue (hold_step h s).2 = sh_queue s /\ sh_retiring (hold_step h s).2 = sh_retiring s.
Proof.
  unfold hold_step. destruct (h_late h); [done|]. destruct (h_ticket h).
  { cbn. destruct (h_seq h), (sh_receipts s); done. }
  destruct (h_key h) as [[k []]|]; [done..|]. by destruct (h_permit h).
Qed.
Lemma task_step_same e t s t' s' o :
  task_step e t s = Some (t', s', o) -> sh_queue s' = sh_queue s /\ sh_retiring s' = sh_retiring s.
Proof.
  unfold task_step, task_outcome. intros H. destruct e, (tk_result t); try done.
  - destruct (h_late _); [done|]. by injection H as <- <- <-.
  - repeat case_match; simplify_eq/=; done.
  - destruct (h_permit _); [|done]. pose proof (hold_step_same (tk_hold t) s).
    destruct (hold_step _ s). by injection H as <- <- <-.
Qed.
Lemma task_step_frame e t s t' s' o : task_step e t s = Some (t', s', o) -> tk_frame t' = tk_frame t.
Proof.
  unfold task_step. intros H. destruct e, (tk_result t); try done; repeat case_match; by simplify_eq/=.
Qed.

(** *** Moving frames around *)

Lemma perm_pull_app {A} (b k a k' : list A) : k ≡ₚ a ++ k' -> b ++ k ≡ₚ a ++ (b ++ k').
Proof. intros ->. apply Permutation_app_swap_app. Qed.
Lemma perm_pull_last {A} (a : list A) : a ≡ₚ a ++ [].
Proof. by rewrite app_nil_r. Qed.

Ltac perm_pull a :=
  lazymatch goal with
  | |- a ++ _ ≡ₚ _ => reflexivity
  | |- a ≡ₚ _ => apply perm_pull_last
  | _ => apply perm_pull_app; perm_pull a
  end.
Ltac perm_norm :=
  rewrite ?fmap_app, ?fmap_cons, ?fmap_nil; cbn [app tk_hold];
  repeat match goal with
  | |- context [?x :: ?l] => lazymatch l with [] => fail | _ => change (x :: l) with ([x] ++ l) end
  end;
  rewrite <-?app_assoc, ?app_nil_r, ?app_nil_l.
(** Two lists made of the same pieces. *)
Ltac perm :=
  perm_norm;
  repeat lazymatch goal with
  | |- ?a ++ _ ≡ₚ _ =>
      etransitivity; [|symmetry; perm_pull a]; apply Permutation_app_head; rewrite ?app_nil_r
  end;
  try reflexivity.

Definition producer_busy (pc : ProducerPc) : bool :=
  match pc with PWait | PDone => false | _ => true end.
Definition writer_open (pc : WriterPc) : bool :=
  match pc with
  | WRecv | WGot _ | WPace _ | WAdmit _ | WRegister _ | WHead _ _ | WBody _ _ _ | WDigest _ _ _
  | WFinish _ _ _ => true
  | _ => false
  end.
Definition made (pc : ProducerPc) : option Produced :=
  match pc with
  | PMade _ p | PKey _ p => Some p
  | PKeyed f | PSend f => Some (fr_produced f)
  | _ => None
  end.
(** Frame numbers handed out so far are below this one. *)
Definition seq_bound (m : Media) : Z :=
  match md_ppc m with PDone => md_seq m + 1 | _ => md_seq m end.
Definition seq_below (b : Z) (h : Hold) : Prop :=
  match h_seq h with Some n => n < b | None => True end.

(** A picture of epoch [g] arrived. *)
Definition delivered_key (os : list Out) (g : Z) : Prop :=
  exists f proof, OReceipt f proof Delivered ∈ os /\ fr_generation f = g /\ pr_key (fr_produced f) = true.
(** A key permit belongs to the epoch of its frame, and is confirmed when that arrived. *)
Definition hold_good (os : list Out) (b : Z) (h : Hold) : Prop :=
  seq_below b h /\
  match h_key h with
  | None => True
  | Some (k, _) =>
      (kp_confirmed k = true -> delivered_key os (kp_generation k)) /\
      (forall f, h_frame h = Some f -> kp_generation k = fr_generation f /\ pr_key (fr_produced f) = true)
  end.
Definition producer_ok (pc : ProducerPc) : Prop :=
  match pc with
  | PKey _ p => pr_key p = true
  | PKeyed f | PSend f =>
      forall k, fr_key f = Some k ->
        kp_generation k = fr_generation f /\ pr_key (fr_produced f) = true /\ kp_confirmed k = false
  | _ => True
  end.

Definition receipt_of (rs : option (gmap Z PendingReceipt)) (seq : Z) : option PendingReceipt :=
  match rs with Some rs => rs !! seq | None => None end.

Section ServingInv.
Context `{HB : Blake3}.

(** The digest expected for a ticket is that of its frame. *)
Definition hold_digest (rs : option (gmap Z PendingReceipt)) (h : Hold) : Prop :=
  forall f e d, h_ticket h = true -> h_frame h = Some f -> receipt_of rs (fr_seq f) = Some e ->
    pd_expected e = Some d -> d = blake3_hash (pr_payload (fr_produced f)).

Record Inv (os : list Out) (m : Media) : Prop := mkInv {
  inv_core : Core (md_shared m) (holds m);
  inv_below : Forall (hold_good os (seq_bound m)) (holds m);
  inv_seq : 0 <= md_seq m <= u64_max;
  inv_queue : zlen (sh_queue (md_shared m)) <= (if producer_busy (md_ppc m) then 1 else 2);
  inv_acks : zlen (md_acks m) <= (if writer_open (md_wpc m) then 2 else 3);
  inv_tasks : Forall task_ok (md_acks m);
  inv_made : forall p, made (md_ppc m) = Some p -> pr_seq p = md_seq m;
  inv_pend : writer_open (md_wpc m) = true -> md_pending m = None;
  inv_key : producer_ok (md_ppc m);
  inv_repair : generation (sh_repair (md_shared m)) <> 0 -> active (sh_repair (md_shared m)) = false ->
    delivered_key os (generation (sh_repair (md_shared m)));
  inv_digest : Forall (hold_digest (sh_receipts (md_shared m))) (holds m)
}.
#[global] Arguments inv_digest {os m} _.
#[global] Arguments inv_core {os m} _.
#[global] Arguments inv_below {os m} _.
#[global] Arguments inv_seq {os m} _.
#[global] Arguments inv_queue {os m} _.
#[global] Arguments inv_acks {os m} _.
#[global] Arguments inv_tasks {os m} _.
#[global] Arguments inv_made {os m} _.
#[global] Arguments inv_pend {os m} _.
#[global] Arguments inv_key {os m} _.
#[global] Arguments inv_repair {os m} _.

Lemma media_new_inv b : Inv [] (media_new b).
Proof.
  split; cbn; try done; try lia.
  - split; [done|]. split; [done|]. split; [done|]. split; [constructor|]. split.
    + exists (mkGate 0 false false). done.
    + destruct b; cbn; [|done]. split; [done|]. intros seq. rewrite lookup_empty. split; [by intros []|].
      by intros (h & Hh%elem_of_nil & _).
Qed.

#[local] Arguments frame_hold : simpl never.
#[local] Arguments loose_hold : simpl never.
#[local] Arguments writer_holds : simpl never.
#[local] Arguments MAX_PENDING_FRAME_ACKS : simpl never.
#[local] Arguments u64_max : simpl never.

Lemma delivered_key_mono os os' g : os ⊆ os' -> delivered_key os g -> delivered_key os' g.
Proof. intros Hs (f & proof & Hf & ?). exists f, proof. split; [by apply Hs|done]. Qed.
Lemma hold_good_mono os os' b b' h : b <= b' -> os ⊆ os' -> hold_good os b h -> hold_good os' b' h.
Proof.
  intros Hb Hs [H1 H2]. split; [unfold seq_below in *; destruct (h_seq h); [lia|done]|].
  destruct (h_key h) as [[k st]|]; [|done]. destruct H2 as [H2 H3]. split; [|done].
  intros Hk. eapply delivered_key_mono; [done|by apply H2].
Qed.
Lemma Inv_mono os os' m : os ⊆ os' -> Inv os m -> Inv os' m.
Proof.
  intros Hs Hi. split; try apply Hi.
  - eapply Forall_impl; [apply (inv_below Hi)|]. intros h. by apply hold_good_mono.
  - intros. eapply delivered_key_mono; [done|by apply (inv_repair Hi)].
Qed.
Lemma repair_key_keeps g r r' :
  0 <= mr_state r -> repair_key g r = Some r' -> generation r' = generation r /\ active r' = active r.
Proof.
  intros H0 Hr. destruct (gate_exists r H0) as [gt Hg]. pose proof (gate_take r gt Hg g) as Ht. rewrite Hr in Ht.
  destruct Ht as (_ & _ & Hg'). rewrite (gate_generation _ _ Hg), (gate_generation _ _ Hg').
  by rewrite (gate_active _ _ Hg), (gate_active _ _ Hg').
Qed.
Lemma gate_ok_state r hs : gate_ok r hs -> 0 <= mr_state r.
Proof. intros (g & [-> Hg] & _). unfold word. destruct (gt_key g), (gt_active g); lia. Qed.

(** A step that only moves what is held keeps the invariant of the holds. *)
Lemma Inv_moved os m m' :
  Inv os m -> holds m' ≡ₚ holds m -> Core (md_shared m') (holds m) -> seq_bound m <= seq_bound m' ->
  sh_receipts (md_shared m') = sh_receipts (md_shared m) ->
  Core (md_shared m') (holds m') /\ Forall (hold_good os (seq_bound m')) (holds m') /\
  Forall (hold_digest (sh_receipts (md_shared m'))) (holds m').
Proof.
  intros Hi Hp Hc Hb Hr. split; [by eapply Core_perm; [symmetry|]|]. rewrite Hp, Hr. split; [|apply Hi].
  eapply Forall_impl; [apply (inv_below Hi)|]. intros h. by apply hold_good_mono.
Qed.


Ltac inv_finish :=
  cbn in *; repeat match goal with H : context [if ?b then _ else _] |- _ => progress cbn in H end;
  first [done | lia | by eauto | intros; congruence].
Ltac inv_moved_by Hi Hcore t :=
  lazymatch goal with |- Inv ?os ?m' =>
    let H := fresh in
    assert (H : Core (md_shared m') (holds m') /\ Forall (hold_good os (seq_bound m')) (holds m') /\
                Forall (hold_digest (sh_receipts (md_shared m'))) (holds m'));
    [ eapply (Inv_moved _ _ m' Hi);
      [unfold holds, writer_drop; cbn; t; perm|exact Hcore|unfold seq_bound; cbn; t; lia|reflexivity]
    | destruct H as (? & ? & ?); split; [done|done|try apply (inv_seq Hi)|..] ]
  end.
Ltac inv_moved Hi Hcore := inv_moved_by Hi Hcore idtac.

Lemma seq_below_notin os b l : Forall (hold_good os b) l -> b ∉ omap h_seq l.
Proof.
  intros Hf (h & Hh & E)%list_elem_of_omap. rewrite Forall_forall in Hf. destruct (Hf _ Hh) as [Hf' _]. clear Hf. rename Hf' into Hf.
  unfold seq_below in Hf. rewrite E in Hf. lia.
Qed.

Lemma next_number_spec seq :
  0 <= seq <= u64_max -> exists pc n, next_number seq = (pc, n) /\ producer_holds pc = [] /\
    0 <= n <= u64_max /\ producer_busy pc = false /\ made pc = None /\
    match pc with PDone => n + 1 | _ => n end = seq + 1 /\ producer_ok pc.
Proof.
  intros Hs. unfold next_number, checked_add64.
  destruct (seq + 1 <=? u64_max) eqn:E; b2p; do 2 eexists; (split; [reflexivity|]); cbn; repeat split; lia.
Qed.

Lemma Permutation_middle_frames f q k r :
  frame_hold false f :: (frame_hold false <$> q ++ k) ++ r ≡ₚ (frame_hold false <$> (q ++ [f]) ++ k) ++ r.
Proof. perm. Qed.

Lemma loose_digest rs key : hold_digest rs (loose_hold key).
Proof. done. Qed.

Lemma producer_step_inv os e m m' o : Inv os m -> producer_step e m = Some (m', o) -> Inv os m'.
Proof.
  intros Hi H. pose proof (inv_core Hi) as Hcore. pose proof (inv_below Hi) as Hbelow.
  pose proof (inv_queue Hi) as Hq. pose proof (inv_made Hi) as Hmade.
  pose proof (inv_acks Hi) as Hacks. pose proof (inv_tasks Hi) as Htasks. pose proof (inv_pend Hi) as Hpend.
  pose proof (inv_key Hi) as Hkey. pose proof (inv_repair Hi) as Hrep. pose proof (inv_digest Hi) as Hdig.
  destruct m as [s ppc seq pgen wpc wgen pend ch acks cs]. unfold producer_step in H.
  cbn [md_shared md_ppc md_seq md_pgen md_wpc md_acks md_pending] in *.
  destruct e as [|[p|] takes|preserves|], ppc; try done.
  - destruct (_ || _) eqn:E; [done|]. injection H as <- <-. b2p. inv_moved Hi Hcore; inv_finish.
  - destruct (_ <? _) eqn:E; injection H as <- <-; b2p; [|inv_moved Hi Hcore; inv_finish].
    split; cbn; try done.
    + by apply (Core_permit s).
    + by constructor.
    + apply (inv_seq Hi).
    + by constructor.
  - injection H as <- <-. inv_moved Hi Hcore; inv_finish.
  - destruct (repair_key g _) as [r|] eqn:Er; injection H as <- <-; [|inv_moved Hi Hcore; inv_finish].
    split; cbn; try done.
    + by apply (Core_key s).
    + apply Forall_cons in Hbelow as [_ ?]. by constructor.
    + apply (inv_seq Hi).
    + intros k [= <-]. done.
    + destruct Hcore as (_ & _ & _ & _ & Hg & _). apply gate_ok_state in Hg.
      by destruct (repair_key_keeps _ _ _ Hg Er) as [-> ->].
    + apply Forall_cons in Hdig as [_ ?]. by constructor.
  - injection H as <- <-. inv_moved Hi Hcore; inv_finish.
  - pose proof (Hmade _ eq_refl) as Hs. pose proof (inv_seq Hi) as Hbound. cbn in Hs, Hbound.
    destruct (next_number_spec seq Hbound) as (pc & n & Hn & Hp & Hr & Hbusy & Hno & Hb & Hpok). rewrite Hn in H.
    destruct (_ || _) eqn:E; injection H as <- <-.
    + inv_moved_by Hi Hcore ltac:(rewrite ?Hp, ?Hb); cbn; rewrite ?Hbusy, ?Hno; inv_finish.
    + b2p. split; cbn; rewrite ?Hbusy, ?Hno; try done.
      * unfold holds. cbn. rewrite Hp. eapply Core_perm; [|apply (Core_queued s f); [exact Hcore|]].
        { perm. }
        apply Forall_cons in Hbelow as [_ Hbelow]. unfold fr_seq. rewrite Hs. by eapply seq_below_notin.
      * unfold holds, seq_bound in *. cbn in *. rewrite Hp, Hb. apply Forall_cons in Hbelow as [_ Hbelow].
        rewrite <-(Permutation_middle_frames f (sh_queue s) (option_list pend)).
        constructor; [|eapply Forall_impl; [exact Hbelow|]; intros h; apply hold_good_mono; [lia|done]].
        split; [change (fr_seq f < seq + 1); unfold fr_seq; lia|].
        unfold frame_hold. cbn [h_key h_frame]. destruct (fr_key f) as [k|] eqn:Ek; cbn; [|done]. destruct (Hkey k eq_refl) as (? & ? & ?).
        split; [congruence|]. by intros ? [= <-].
      * rewrite zlen_app. change (zlen [f]) with 1. cbn in Hq. lia.
      * unfold holds in *. cbn in *. rewrite Hp. apply Forall_cons in Hdig as [_ Hdig].
        rewrite <-(Permutation_middle_frames f (sh_queue s) (option_list pend)). by constructor.
  - destruct (negb _) eqn:E; [done|]. injection H as <- <-. b2p. inv_moved Hi Hcore; inv_finish.
  - injection H as <- <-. inv_moved Hi Hcore; inv_finish.
  - inv_res H; injection H as <- <-; inv_moved Hi Hcore; try inv_finish; b2p; tauto.
  - destruct (sh_closed s); [|done]. injection H as <- <-. inv_moved Hi Hcore; inv_finish.
  - destruct (sh_closed s); [|done]. injection H as <- <-. inv_moved Hi Hcore; inv_finish.
  - destruct (sh_closed s); [|done]. injection H as <- <-. inv_moved Hi Hcore; inv_finish.
Qed.

(** *** The writer *)

Lemma drain_tasks l c n :
  (drain_frame_receipts l c n).1.1 = filter (fun t => joinable t = false) l.
Proof.
  revert c n. induction l as [|t l IH]; intros c n; [done|]. cbn [drain_frame_receipts]. rewrite filter_cons.
  destruct (joinable t) eqn:E; case_decide; try done.
  - destruct (join_receipt t c n) as [c' n']. apply IH.
  - specialize (IH c n). destruct (drain_frame_receipts l c n) as [[l' c'] n']. cbn in *. by rewrite IH.
Qed.

Lemma joinable_gone t : joinable t = true -> h_permit (tk_hold t) = false.
Proof. unfold joinable. by intros [_ ?%negb_true_iff]%andb_true_iff. Qed.

Lemma Core_joined s r l :
  Core s (r ++ (tk_hold <$> l)) -> Core s (r ++ (tk_hold <$> filter (fun t => joinable t = false) l)).
Proof.
  revert r. induction l as [|t l IH]; intros r Hc; [done|]. rewrite filter_cons. cbn in Hc.
  assert (Hp : r ++ tk_hold t :: (tk_hold <$> l) ≡ₚ tk_hold t :: (r ++ (tk_hold <$> l))) by perm.
  case_decide as E.
  - cbn. eapply Core_perm; [|apply (IH (tk_hold t :: r))]; [perm|]. by eapply Core_perm; [exact Hp|].
  - apply IH. apply (Core_perm _ _ _ Hp) in Hc. eapply Core_gone; [exact Hc|].
    apply joinable_gone. by destruct (joinable t).
Qed.

(** Everything that is held outside the receipt tasks. *)
Definition other_holds (m : Media) : list Hold :=
  producer_holds (md_ppc m)
  ++ (frame_hold false <$> (sh_queue (md_shared m) ++ option_list (md_pending m)))
  ++ writer_holds (md_wpc m) ++ sh_retiring (md_shared m).
Lemma holds_tasks m : holds m ≡ₚ other_holds m ++ (tk_hold <$> md_acks m).
Proof. unfold holds, other_holds. perm. Qed.

Lemma filter_zlen {A} (P : A -> Prop) `{forall x, Decision (P x)} (l : list A) :
  zlen (filter P l) <= zlen l.
Proof. unfold zlen. pose proof (length_filter P l). lia. Qed.

Lemma Forall_submseteq {A} (P : A -> Prop) l k : l ⊆+ k -> Forall P k -> Forall P l.
Proof.
  intros Hs Hk. apply Forall_forall. intros x Hx. rewrite Forall_forall in Hk.
  apply Hk. by eapply elem_of_submseteq.
Qed.

(** Tasks that gave everything back may leave. *)
Lemma Inv_leave os m m' :
  Inv os m -> md_shared m' = md_shared m -> md_ppc m' = md_ppc m -> md_seq m' = md_seq m ->
  md_wpc m' = md_wpc m -> md_pending m' = md_pending m ->
  Core (md_shared m) (other_holds m ++ (tk_hold <$> md_acks m')) ->
  (md_acks m') ⊆+ (md_acks m) -> Inv os m'.
Proof.
  intros Hi Hs Hp Hq Hw Hd Hc Hsub.
  assert (Ho : other_holds m' = other_holds m) by (unfold other_holds; by rewrite Hs, Hp, Hw, Hd).
  assert (Hl : zlen (md_acks m') <= zlen (md_acks m))
    by (apply submseteq_length in Hsub; unfold zlen; lia).
  split; rewrite ?Hs, ?Hp, ?Hq, ?Hw, ?Hd; try apply Hi.
  - eapply Core_perm; [symmetry; apply holds_tasks|]. by rewrite Ho.
  - pose proof (inv_below Hi) as Hb. rewrite holds_tasks in *. rewrite Ho.
    replace (seq_bound m') with (seq_bound m) by (unfold seq_bound; by rewrite Hp, Hq).
    apply Forall_app in Hb as [Hb1 Hb2]. apply Forall_app. split; [done|].
    eapply Forall_submseteq; [|exact Hb2]. by apply fmap_submseteq.
  - pose proof (inv_acks Hi). lia.
  - eapply Forall_submseteq; [exact Hsub|]. apply (inv_tasks Hi).
  - pose proof (inv_digest Hi) as Hb. rewrite holds_tasks in *. rewrite Ho.
    apply Forall_app in Hb as [Hb1 Hb2]. apply Forall_app. split; [done|].
    eapply Forall_submseteq; [|exact Hb2]. by apply fmap_submseteq.
Qed.

Lemma Inv_drained os m : Inv os m -> Inv os (drained m).
Proof.
  intros Hi. unfold drained. pose proof (drain_tasks (md_acks m) (md_chain m) (md_counts m)) as Hd.
  destruct (drain_frame_receipts _ _ _) as [[l c] n]. cbn in Hd. subst l.
  eapply (Inv_leave os m); cbn; try done.
  - apply Core_joined. eapply Core_perm; [apply holds_tasks|]. apply (inv_core Hi).
  - apply sublist_submseteq, sublist_filter.
Qed.

(** The writer lets go of what it has in hand and goes on. *)
Lemma Inv_writer_drop os m pc ch pend :
  Inv os m -> writer_holds pc = [] -> writer_open pc = false -> option_list pend = option_list (md_pending m) ->
  Inv os (writer_drop pc (set_pending pend (set_chain ch m))).
Proof.
  intros Hi Hpc Ho Hp. pose proof (inv_core Hi) as Hcore.
  pose proof (inv_acks Hi) as Hacks. pose proof (inv_tasks Hi). pose proof (inv_queue Hi).
  pose proof (inv_made Hi). pose proof (inv_key Hi). pose proof (inv_repair Hi). destruct m as [s ppc seq pgen wpc wgen pd c acks cs].
  inv_moved_by Hi Hcore ltac:(cbn in Hp; rewrite ?Hpc, ?Hp); cbn; rewrite ?Ho; cbn in *; try done.
  destruct (writer_open wpc); lia.
Qed.
Lemma Inv_writer_drop' os m pc :
  Inv os m -> writer_holds pc = [] -> writer_open pc = false -> Inv os (writer_drop pc m).
Proof.
  intros Hi Hp Ho. pose proof (Inv_writer_drop os m pc (md_chain m) (md_pending m) Hi Hp Ho eq_refl) as H.
  by destruct m.
Qed.
(** What does not touch the holds. *)
Lemma Inv_ask_repair os seq m : Inv os m -> Inv os (ask_repair seq m).
Proof.
  intros Hi. split; try apply Hi.
Qed.
Lemma Inv_feedback os fb m :
  Inv os m -> fb_late_pending fb = fb_late_pending (sh_feedback (md_shared m)) ->
  Inv os (set_shared (set_feedback fb (md_shared m)) m).
Proof.
  intros Hi Hl. split; try apply Hi. destruct (inv_core Hi) as (? & ? & ?).
  split; [done|]. split; [|done]. cbn. by rewrite Hl.
Qed.

Lemma drained_wpc m : md_wpc (drained m) = md_wpc m.
Proof. unfold drained. by destruct (drain_frame_receipts _ _ _) as [[l c] n]. Qed.
Lemma Inv_advance os m pc :
  Inv os m -> writer_holds pc = writer_holds (md_wpc m) ->
  implb (writer_open pc) (writer_open (md_wpc m)) = true -> Inv os (set_wpc pc m).
Proof.
  intros Hi Hh Ho. pose proof (inv_acks Hi).
  split; cbn; try apply Hi; unfold holds; cbn; rewrite ?Hh; try apply Hi.
  - destruct (writer_open pc), (writer_open (md_wpc m)); cbn in *; done || lia.
  - intros E. apply Hi. rewrite E in Ho. by destruct (writer_open (md_wpc m)).
Qed.

Lemma writer_step_inv os e m m' o : Inv os m -> writer_step e m = Some (m', o) -> Inv os m'.
Proof.
  intros Hi H. pose proof (inv_core Hi) as Hcore. pose proof (inv_queue Hi) as Hq.
  pose proof (inv_made Hi) as Hmade. pose proof (inv_acks Hi) as Hacks. pose proof (inv_tasks Hi) as Htasks.
  pose proof (inv_pend Hi) as Hpend. pose proof (inv_key Hi) as Hkey. pose proof (inv_repair Hi) as Hrep.
  unfold writer_step in H. destruct e, (md_wpc m) eqn:Ew; try done.
  - (* the loop head *)
    destruct (negb (negb _)) eqn:E; injection H as <- <-.
    { destruct m; cbn in *; subst. inv_moved Hi Hcore; inv_finish. }
    destruct m as [s ppc seq pgen wpc wgen pend ch acks cs]; cbn in *; subst wpc.
    assert (Hst : forall stale pend', (frame_hold false <$> option_list pend') ++ stale
              ≡ₚ (frame_hold false <$> option_list pend) ->
              Inv os (mkMedia (retire (stale ++ (tk_hold <$> acks)) s) ppc seq pgen WDrain
                     (generation (sh_repair s)) pend' chain_default [] cs)).
    { intros stale pend' Hp. inv_moved_by Hi Hcore ltac:(rewrite ?fmap_app, <-?Hp); inv_finish. }
    destruct pend as [f|]; [|by apply Hst]. destruct (fr_generation f =? _); by apply Hst.
  - (* receipts, then the next frame *)
    apply Inv_drained in Hi. destruct (drained m) as [s ppc seq pgen wpc wgen pend ch acks cs] eqn:Ed.
    assert (Hw : wpc = WDrain).
    { unfold drained in Ed. destruct (drain_frame_receipts _ _ _) as [[l c] n]. injection Ed. intros; by subst. }
    clear Hcore Hq Hmade Hacks Htasks Hpend Hkey Hrep Ed. pose proof (inv_core Hi) as Hcore. pose proof (inv_queue Hi) as Hq.
    pose proof (inv_made Hi) as Hmade. pose proof (inv_acks Hi) as Hacks. pose proof (inv_tasks Hi) as Htasks.
    pose proof (inv_pend Hi) as Hpend. pose proof (inv_key Hi) as Hkey. pose proof (inv_repair Hi) as Hrep.
    cbn in *. subst wpc. destruct (MAX_PENDING_FRAME_ACKS <=? zlen acks) eqn:E; b2p; unfold MAX_PENDING_FRAME_ACKS in E;
      [injection H as <- <-; inv_moved Hi Hcore; inv_finish|].
    destruct pend as [f|]; injection H as <- <-; inv_moved Hi Hcore; inv_finish.
  - (* a frame *)
    destruct m as [s ppc seq pgen wpc wgen pend ch acks cs]; cbn in *; subst wpc.
    destruct (sh_queue s) as [|f q] eqn:Eq; [done|]. injection H as <- <-.
    assert (zlen q <= zlen (f :: q)) by (rewrite zlen_cons; lia).
    inv_moved_by Hi Hcore ltac:(rewrite ?Eq); inv_finish.
  - destruct m as [s ppc seq pgen wpc wgen pend ch acks cs]; cbn in *; subst wpc.
    injection H as <- <-. inv_moved Hi Hcore; inv_finish.
  - (* admission *)
    destruct (chain_admit _ _) as [c []]; injection H as <- <-.
    + destruct m as [s ppc seq pgen wpc wgen pend ch acks cs]; cbn in *; subst wpc.
      inv_moved Hi Hcore; inv_finish.
    + apply Inv_ask_repair. pose proof (Inv_writer_drop os m WTop c (md_pending m) Hi eq_refl eq_refl eq_refl) as H.
      by destruct m.
  - (* the last receipts *)
    destruct (forallb joinable (md_acks m)) eqn:E; [|done]. injection H as <- <-.
    assert (Hnil : filter (fun t => joinable t = false) (md_acks m) = []).
    { clear -E. induction (md_acks m) as [|t l IH]; [done|]. cbn in E. apply andb_true_iff in E as [E1 E2].
      rewrite filter_cons. case_decide; [congruence|by apply IH]. }
    assert (Hi' : Inv os (set_acks [] m)).
    { eapply (Inv_leave os m); cbn; try done; [|apply submseteq_nil_l].
      pose proof (Core_joined (md_shared m) (other_holds m) (md_acks m)) as Hj. rewrite Hnil in Hj.
      apply Hj. eapply Core_perm; [apply holds_tasks|exact Hcore]. }
    pose proof (Inv_writer_drop' os _ WEnd Hi' eq_refl eq_refl) as H. unfold writer_drop in H. cbn in H.
    rewrite Ew in H. unfold retire in H. cbn in H. rewrite app_nil_r in H. by destruct m as [[]].
  - (* the end *)
    destruct m as [s ppc seq pgen wpc wgen pend ch acks cs]; cbn in *; subst wpc.
    injection H as <- <-. inv_moved Hi Hcore; try inv_finish. cbn. destruct (producer_busy ppc); done.
  - destruct (negb _); [|done]. injection H as <- <-. by apply Inv_writer_drop'.
  - destruct (negb _); [|done]. injection H as <- <-. by apply Inv_writer_drop'.
  - destruct (negb _); [|done]. injection H as <- <-. by apply Inv_writer_drop'.
  - destruct (negb _); [|done]. injection H as <- <-. by apply Inv_writer_drop'.
  - destruct (negb _); [|done]. injection H as <- <-. by apply Inv_writer_drop'.
  - destruct (negb _); [|done]. injection H as <- <-. by apply Inv_writer_drop'.
  - (* one receipt *)
    destruct (md_acks m !! i) as [t|] eqn:Et; [|done]. destruct (negb (joinable t)) eqn:Ej; [done|]. b2p.
    destruct (join_receipt t _ _) as [c n]. injection H as <- <-.
    assert (Hi' : Inv os (set_acks (delete i (md_acks m)) m)).
    { eapply (Inv_leave os m); cbn; try done; [|apply sublist_submseteq, sublist_delete].
      eapply (Core_gone _ (tk_hold t)); [|by apply joinable_gone].
      eapply Core_perm; [|exact Hcore]. rewrite holds_tasks, (delete_Permutation _ _ _ Et) at 1. perm. }
    pose proof (Inv_writer_drop os _ WTop c (md_pending m) Hi' eq_refl eq_refl eq_refl) as H. unfold writer_drop in H.
    cbn in H. rewrite Ew in H. unfold retire in H. cbn in H. rewrite app_nil_r in H.
    split; apply H.
  - destruct (sh_queue _); [|done]. destruct (md_ppc m); try done. injection H as <- <-.
    apply Inv_advance; rewrite ?Ew; done.
  - destruct (negb _); [injection H as <- <-; by apply Inv_writer_drop'|].
    destruct (pr_empty _); injection H as <- <-.
    + apply Inv_ask_repair.
      pose proof (Inv_writer_drop os m WTop (mkChain None (fc_last_key_seq (md_chain m))) (md_pending m) Hi eq_refl eq_refl eq_refl) as H.
      by destruct m.
    + apply Inv_drained in Hi. rewrite <-drained_wpc in Ew.
      apply Inv_advance; [done|by rewrite Ew; destruct wait|by rewrite Ew; destruct wait].
Qed.

Lemma Inv_obsolete_send os m : Inv os m -> Inv os (obsolete_send m).
Proof.
  intros Hi. apply (Inv_writer_drop' os m WTop) in Hi; [|done..].
  unfold obsolete_send. by apply Inv_feedback.
Qed.

(** The receipt slot of the frame in hand. *)
Lemma Inv_registered os m f rs rs' :
  Inv os m -> md_wpc m = WRegister f -> sh_receipts (md_shared m) = Some rs ->
  register (fr_seq f) rs = Some rs' ->
  Inv os (set_shared (set_receipts rs' (md_shared m)) (set_wpc (WHead f true) m)).
Proof.
  intros Hi Hw Hs Hr. pose proof (inv_core Hi) as Hc. pose proof (inv_below Hi) as Hb.
  pose proof (inv_acks Hi) as Ha. rewrite Hw in Ha.
  set (rest := producer_holds (md_ppc m)
     ++ (frame_hold false <$> (sh_queue (md_shared m) ++ option_list (md_pending m)))
     ++ (tk_hold <$> md_acks m) ++ sh_retiring (md_shared m)).
  assert (Hp : holds m ≡ₚ frame_hold false f :: rest).
  { unfold holds, rest. rewrite Hw. cbn. perm. }
  assert (Hp' : forall s, holds (set_shared (set_receipts s (md_shared m)) (set_wpc (WHead f true) m))
                ≡ₚ frame_hold true f :: rest).
  { intros s. unfold holds, rest. cbn. perm. }
  split; cbn; try apply Hi.
  - eapply Core_perm; [symmetry; apply Hp'|]. eapply Core_register; [exact Hs|exact Hr|].
    by eapply Core_perm; [exact Hp|].
  - rewrite Hp'. rewrite Hp in Hb. apply Forall_cons in Hb as [? ?]. by constructor.
  - exact Ha.
  - intros _. apply (inv_pend Hi). by rewrite Hw.
  - rewrite Hp'. pose proof (inv_digest Hi) as Hg. rewrite Hs in *. cbn. rewrite Hp in Hg.
    apply Forall_cons in Hg as [_ Hg]. unfold register in Hr. destruct (_ || _); [done|]. injection Hr as <-.
    assert (Hfresh : forall h, hold_digest (Some rs) h \/ h_frame h = Some f ->
              hold_digest (Some (<[fr_seq f := mkPending None true None]> rs)) h).
    { intros h Hh f2 e d Ht Hf. cbn. destruct (decide (fr_seq f2 = fr_seq f)) as [E|E].
      - rewrite E, lookup_insert, decide_True by done. by intros [= <-].
      - rewrite lookup_insert_ne by done. destruct Hh as [Hh|Hh]; [by apply Hh|congruence]. }
    constructor; [apply Hfresh; by right|]. eapply Forall_impl; [exact Hg|]. intros h ?. apply Hfresh. by left.
Qed.
Lemma Inv_receipts os m rs rs' :
  Inv os m -> sh_receipts (md_shared m) = Some rs -> dom rs' = dom rs ->
  Forall (hold_digest (Some rs')) (holds m) ->
  Inv os (set_shared (set_receipts rs' (md_shared m)) m).
Proof.
  intros Hi Hs Hd Hg. split; cbn; try apply Hi.
  - eapply Core_receipts; [exact Hs|done|]. apply (inv_core Hi).
  - by rewrite Hs.
Qed.

Lemma confirm_expected seq digest obsolete rs n e :
  (confirm seq digest obsolete rs).1 !! n = Some e ->
  exists e0, rs !! n = Some e0 /\ pd_expected e0 = pd_expected e.
Proof.
  unfold confirm. destruct (rs !! seq) as [e1|] eqn:E1; [|by eauto].
  destruct (negb _); [by eauto|]. destruct (pd_sender e1); [|by eauto]. cbn.
  destruct (decide (n = seq)) as [->|Hn].
  - rewrite lookup_insert, decide_True by done. intros [= <-]. by exists e1.
  - rewrite lookup_insert_ne by done. by eauto.
Qed.
Lemma Inv_confirm os m rs seq digest obsolete :
  Inv os m -> sh_receipts (md_shared m) = Some rs ->
  Inv os (set_shared (set_receipts (confirm seq digest obsolete rs).1 (md_shared m)) m).
Proof.
  intros Hi Hs. eapply Inv_receipts; [done|exact Hs|apply confirm_dom|].
  pose proof (inv_digest Hi) as Hg. rewrite Hs in Hg. eapply Forall_impl; [exact Hg|].
  intros h Hh f e d Ht Hf He Hd. cbn in He. apply confirm_expected in He as (e0 & He0 & Hx).
  eapply Hh; [done|done|exact He0|congruence].
Qed.

(** The digest goes into the entry of the frame itself. *)
Lemma Inv_set_digest os m f t h rs :
  Inv os m -> md_wpc m = WDigest f t h -> sh_receipts (md_shared m) = Some rs ->
  Inv os (set_shared (set_receipts
    (set_digest (fr_seq f) (blake3_hash (pr_payload (fr_produced f))) rs).1 (md_shared m)) m).
Proof.
  intros Hi Hw Hs. eapply Inv_receipts; [done|exact Hs|apply set_digest_dom|].
  pose proof (inv_digest Hi) as Hg. rewrite Hs in Hg. destruct (inv_core Hi) as (_ & _ & _ & Hn & _).
  assert (exists rest, holds m ≡ₚ frame_hold t f :: rest) as [rest Hp].
  { exists (producer_holds (md_ppc m)
      ++ (frame_hold false <$> (sh_queue (md_shared m) ++ option_list (md_pending m)))
      ++ (frame_hold false <$> held_frames h) ++ (tk_hold <$> md_acks m) ++ sh_retiring (md_shared m)).
    unfold holds. rewrite Hw. unfold writer_holds. perm. }
  rewrite Hp in Hn, Hg |- *. apply Forall_cons in Hg as [Hf Hg].
  assert (Hother : forall n e, n <> fr_seq f ->
            (set_digest (fr_seq f) (blake3_hash (pr_payload (fr_produced f))) rs).1 !! n = Some e -> rs !! n = Some e).
  { intros n e Hne. unfold set_digest. destruct (rs !! fr_seq f); [|done]. destruct (is_some _); [done|]. cbn.
    by rewrite lookup_insert_ne. }
  constructor.
  - intros f2 e d Ht [= <-]. cbn. unfold set_digest. destruct (rs !! fr_seq f) as [e0|] eqn:E0; cbn; [|congruence].
    destruct (is_some (pd_expected e0)) eqn:Ex; cbn.
    + intros He Hd. by eapply Hf.
    + rewrite lookup_insert, decide_True by done. intros [= <-]. cbn. congruence.
  - apply Forall_forall. intros x Hx f2 e d Ht Hf2 He Hd. rewrite Forall_forall in Hg.
    eapply Hg; [exact Hx|done|done| |exact Hd]. apply Hother; [|done]. intros E.
    eapply (seq_once _ _ (fr_seq f)); [exact Hn|done|exact Hx|]. unfold h_seq. rewrite Hf2. cbn. by f_equal.
Qed.

Lemma send_step_inv os e m m' o : Inv os m -> send_step e m = Some (m', o) -> Inv os m'.
Proof.
  intros Hi H. pose proof (inv_core Hi) as Hcore. pose proof (inv_queue Hi) as Hq.
  pose proof (inv_made Hi) as Hmade. pose proof (inv_acks Hi) as Hacks. pose proof (inv_tasks Hi) as Htasks.
  pose proof (inv_pend Hi) as Hpend. pose proof (inv_key Hi) as Hkey. pose proof (inv_repair Hi) as Hrep.
  unfold send_step in H. destruct e as [| |i| |w|[]| |], (md_wpc m) eqn:Ew; try done.
  - destruct (sh_receipts _) as [rs|] eqn:Es.
    2: { injection H as <- <-. apply Inv_advance; rewrite ?Ew; done. }
    destruct (register _ rs) as [rs'|] eqn:Er; injection H as <- <-.
    + by eapply Inv_registered.
    + by apply Inv_writer_drop'.
  - injection H as <- <-. destruct (sh_receipts _) as [rs|] eqn:Es.
    + apply (Inv_advance os (set_shared _ m)); cbn; rewrite ?Ew; try done.
      by eapply Inv_set_digest.
    + apply Inv_advance; rewrite ?Ew; done.
  - destruct h; try done. destruct (sh_queue _); [|done]. destruct (md_ppc m); try done. injection H as <- <-.
    apply Inv_advance; rewrite ?Ew; done.
  - injection H as <- <-. apply Inv_advance; rewrite ?Ew; done.
  - injection H as <- <-. apply Inv_advance; rewrite ?Ew; done.
  - destruct m as [s ppc seq pgen wpc wgen pend ch acks cs]; cbn in *; subst wpc.
    assert (pend = None) as -> by (by apply Hpend). cbn in Hacks.
    assert (Hlen : zlen (acks ++ [mkTask f (frame_hold ticket f) None]) <= 3) by (unfold zlen in *; rewrite length_app; simpl; lia).
    assert (Forall task_ok (acks ++ [mkTask f (frame_hold ticket f) None])) by (apply Forall_app; split; [done|by constructor]).
    destruct h as [|n|]; injection H as <- <-;
      (inv_moved_by Hi Hcore ltac:(unfold writer_holds; cbn [held_frames]); inv_finish).
  - injection H as <- <-. by apply Inv_obsolete_send.
  - injection H as <- <-. by apply Inv_obsolete_send.
  - injection H as <- <-. by apply Inv_obsolete_send.
  - injection H as <- <-. by apply Inv_writer_drop'.
  - injection H as <- <-. by apply Inv_writer_drop'.
  - injection H as <- <-. by apply Inv_writer_drop'.
  - destruct h; try done. destruct m as [s ppc seq pgen wpc wgen pend ch acks cs]; cbn in *; subst wpc.
    destruct (sh_queue s) as [|n q] eqn:Eq; [done|]. 
    assert (zlen q <= zlen (n :: q)) by (rewrite zlen_cons; lia).
    destruct (_ || _); injection H as <- <-.
    + inv_moved_by Hi Hcore ltac:(rewrite ?Eq; unfold writer_holds; cbn [held_frames]); inv_finish.
    + assert (pend = None) as -> by (by apply Hpend).
      inv_moved_by Hi Hcore ltac:(rewrite ?Eq; unfold writer_holds; cbn [held_frames]); inv_finish.
  - injection H as <- <-. by apply Inv_writer_drop'.
  - injection H as <- <-. by apply Inv_writer_drop'.
Qed.

Lemma hold_step_good os b h s : hold_good os b h -> hold_good os b (hold_step h s).1.
Proof.
  intros [H1 H2]. unfold hold_step, hold_good, seq_below, h_seq in *.
  destruct (h_late h); [done|]. destruct (h_ticket h); [done|].
  destruct (h_key h) as [[k []]|] eqn:Ek; cbn; [|done|done|].
  - by destruct (_ =? _).
  - destruct (h_permit h); cbn; [done|]. by rewrite Ek.
Qed.

Definition repaired (os : list Out) (r : MediaRepair) : Prop :=
  generation r <> 0 -> active r = false -> delivered_key os (generation r).
Lemma hold_step_repaired os b h s :
  0 <= mr_state (sh_repair s) -> hold_good os b h -> repaired os (sh_repair s) ->
  repaired os (sh_repair (hold_step h s).2).
Proof.
  intros H0 [_ Hk] Hr. unfold hold_step. destruct (h_late h); [done|].
  destruct (h_ticket h); [by destruct (h_seq h), (sh_receipts s)|].
  destruct (h_key h) as [[k []]|]; [done|done| |by destruct (h_permit h)]. cbn. destruct Hk as [Hk _].
  destruct (gate_exists _ H0) as [g Hg]. unfold repaired in *.
  pose proof (gate_release _ g Hg (kp_generation k) (kp_confirmed k)) as Hrel.
  destruct (_ =? _) eqn:E; b2p; [|by rewrite Hrel].
  rewrite (gate_generation _ _ Hrel), (gate_active _ _ Hrel), (gate_generation _ _ Hg), (gate_active _ _ Hg) in *.
  cbn in *. intros Hn Ha. apply andb_false_iff in Ha as [Ha|Ha]; [by apply Hr|].
  apply negb_false_iff in Ha. rewrite <-E. by apply Hk.
Qed.

Lemma task_step_good os b e t s t' s' o :
  task_step e t s = Some (t', s', o) -> task_ok t -> 0 <= mr_state (sh_repair s) ->
  hold_good os b (tk_hold t) -> repaired os (sh_repair s) ->
  hold_good (os ++ o) b (tk_hold t') /\ repaired (os ++ o) (sh_repair s').
Proof.
  intros Hs [Hf _] H0 Hg Hr.
  assert (Hmono : forall o, repaired (os ++ o) (sh_repair s)).
  { intros o1 Hn Ha. eapply delivered_key_mono; [|by apply Hr]. set_solver. }
  assert (Hgood : forall o, hold_good (os ++ o) b (tk_hold t)).
  { intros o1. eapply hold_good_mono; [done| |exact Hg]. set_solver. }
  unfold task_step in Hs. destruct e, (tk_result t); try done.
  - destruct (h_late _); [done|]. injection Hs as <- <- <-. split; [apply Hgood|apply Hmono].
  - assert (Ho : forall r h res s2 proof, task_outcome t r elapsed budget s = (h, res, s2) ->
              hold_good (os ++ [OReceipt (tk_frame t) proof res]) b h /\
              repaired (os ++ [OReceipt (tk_frame t) proof res]) (sh_repair s2)).
    { intros r h res s2 proof E. unfold task_outcome in E.
      destruct (negb _); [injection E as <- <- <-; split; [apply Hgood|apply Hmono]|].
      destruct r as [[]|]; injection E as <- <- <-; (split; [|apply Hmono]); try apply Hgood;
        destruct (Hgood [OReceipt (tk_frame t) proof Delivered]) as [H1 H2]; (split; [done|]); cbn;
        destruct (h_key (tk_hold t)) as [[k st]|]; cbn; try done; (split; [|apply H2]); intros _;
        destruct H2 as [_ H2]; destruct (H2 _ Hf) as [Hk Hp]; exists (tk_frame t), proof; (split; [set_solver|done]). }
    destruct (receipts_wait _ _) as [res|]; [|destruct timed_out; [|done]];
      destruct (task_outcome _ _ _ _ _) as [[h r] s2] eqn:Eo; injection Hs as <- <- <-; by eapply Ho.
  - destruct (h_permit _); [|done]. pose proof (hold_step_good (os ++ []) b _ s (Hgood [])) as H1.
    pose proof (hold_step_repaired (os ++ []) b _ s H0 (Hgood []) (Hmono [])) as H2.
    destruct (hold_step (tk_hold t) s) as [h s2]. injection Hs as <- <- <-. done.
Qed.

(** Tickets only go, and with them their entries. *)
Definition shrinks (rs rs' : option (gmap Z PendingReceipt)) : Prop :=
  forall n e, receipt_of rs' n = Some e -> receipt_of rs n = Some e.
Lemma hold_digest_shrinks rs rs' h h' :
  shrinks rs rs' -> (h_ticket h' = true -> h_ticket h = true) -> h_frame h' = h_frame h ->
  hold_digest rs h -> hold_digest rs' h'.
Proof. intros Hs Ht Hf Hh f e d Ht' Hf' He. rewrite Hf in Hf'. eapply Hh; auto. Qed.
Lemma hold_step_shrinks h s :
  shrinks (sh_receipts s) (sh_receipts (hold_step h s).2) /\
  (h_ticket (hold_step h s).1 = true -> h_ticket h = true).
Proof.
  assert (Hrefl : forall rs, shrinks rs rs) by (by intros rs n e).
  unfold hold_step. destruct (h_late h); [by split|]. destruct (h_ticket h) eqn:Et.
  { split; [|done]. destruct (h_seq h), (sh_receipts s) as [rs|] eqn:Es; cbn; rewrite ?Es; try apply Hrefl.
    intros n e. cbn. unfold ticket_drop. intros [_ ?]%lookup_delete_Some. done. }
  destruct (h_key h) as [[k []]|]; [by split..|]. destruct (h_permit h); cbn; [by split|]. by rewrite Et; split.
Qed.
Lemma task_step_shrinks e t s t' s' o :
  task_step e t s = Some (t', s', o) ->
  shrinks (sh_receipts s) (sh_receipts s') /\
  (h_ticket (tk_hold t') = true -> h_ticket (tk_hold t) = true).
Proof.
  unfold task_step. intros H. destruct e, (tk_result t); try done.
  - destruct (h_late _); [done|]. injection H as <- <- <-. split; [by intros n x|done].
  - assert (Ho : forall r h res s2, task_outcome t r elapsed budget s = (h, res, s2) ->
              sh_receipts s2 = sh_receipts s /\ h_ticket h = h_ticket (tk_hold t)).
    { intros r h res s2 E. unfold task_outcome in E. destruct (negb _); [by injection E as <- <- <-|].
      destruct r as [[]|]; by injection E as <- <- <-. }
    destruct (receipts_wait _ _) as [res|]; [|destruct timed_out; [|done]];
      destruct (task_outcome _ _ _ _ _) as [[h r] s2] eqn:Eo; injection H as <- <- <-;
      destruct (Ho _ _ _ _ Eo) as [-> Hh]; cbn; rewrite Hh; (split; [by intros n x|done]).
  - destruct (h_permit _); [|done]. pose proof (hold_step_shrinks (tk_hold t) s).
    destruct (hold_step _ s). by injection H as <- <- <-.
Qed.

Lemma insert_perm {A} (l : list A) i x y : l !! i = Some x -> <[i := y]> l ≡ₚ y :: delete i l.
Proof.
  revert i. induction l as [|a l IH]; intros [|i]; cbn; try done. intros H. rewrite (IH i H). constructor.
Qed.

Lemma media_step_inv os e m m' o : Inv os m -> media_step e m = Some (m', o) -> Inv (os ++ o) m'.
Proof.
  intros Hi H.
  assert (H0 : 0 <= mr_state (sh_repair (md_shared m)))
    by (destruct (inv_core Hi) as (_ & _ & _ & _ & Hg & _); by eapply gate_ok_state).
  assert (Hmono : forall m1 o1, Inv os m1 -> Inv (os ++ o1) m1) by (intros; eapply Inv_mono; [|done]; set_solver).
  destruct e; cbn in H.
  - apply Hmono. by eapply producer_step_inv.
  - apply Hmono.
    destruct (writer_step e m) as [[m1 o1]|] eqn:E; [injection H as <- <-; by eapply writer_step_inv|].
    by eapply send_step_inv.
  - destruct (md_acks m !! i) as [t|] eqn:Et; [|done].
    destruct (task_step e t (md_shared m)) as [[[t' s'] o']|] eqn:Es; [|done]. injection H as <- <-.
    assert (Hok : task_ok t) by (pose proof (inv_tasks Hi) as Ht; by eapply Forall_lookup_1 in Ht).
    assert (Hp : holds m ≡ₚ tk_hold t :: (other_holds m ++ (tk_hold <$> delete i (md_acks m)))).
    { rewrite holds_tasks, (delete_Permutation _ _ _ Et) at 1. perm. }
    set (m' := set_shared s' (set_acks (<[i:=t']> (md_acks m)) m)).
    destruct (task_step_core _ _ _ _ _ _ (other_holds m ++ (tk_hold <$> delete i (md_acks m))) Es Hok) as [Hok' Hc'].
    { eapply Core_perm; [exact Hp|]. apply (inv_core Hi). }
    assert (Hsame : sh_queue s' = sh_queue (md_shared m) /\ sh_retiring s' = sh_retiring (md_shared m))
      by (by eapply task_step_same).
    destruct Hsame as [Hsq Hsr].
    assert (Hp' : holds m' ≡ₚ tk_hold t' :: (other_holds m ++ (tk_hold <$> delete i (md_acks m)))).
    { rewrite holds_tasks. assert (other_holds m' = other_holds m) as ->
        by (unfold other_holds, m'; cbn; by rewrite Hsq, Hsr).
      transitivity (other_holds m ++ (tk_hold <$> t' :: delete i (md_acks m))); [|perm].
      by apply Permutation_app_head, fmap_Permutation, (insert_perm _ _ t). }
    pose proof (inv_below Hi) as Hb. rewrite Hp in Hb. apply Forall_cons in Hb as [Hb1 Hb2].
    destruct (task_step_good os _ _ _ _ _ _ _ Es Hok H0 Hb1 (inv_repair Hi)) as [Hgood Hrep].
    split; try apply Hi.
    + by eapply Core_perm; [symmetry; exact Hp'|].
    + rewrite Hp'. constructor; [exact Hgood|]. eapply Forall_impl; [exact Hb2|]. intros h.
      apply hold_good_mono; [done|set_solver].
    + unfold m'. cbn. rewrite Hsq. apply Hi.
    + unfold m'. cbn. unfold zlen. rewrite length_insert. apply Hi.
    + unfold m'. cbn. apply Forall_insert; [apply Hi|done].
    + exact Hrep.
    + destruct (task_step_shrinks _ _ _ _ _ _ Es) as [Hsh Htk]. pose proof (inv_digest Hi) as Hd.
      rewrite Hp'. rewrite Hp in Hd. apply Forall_cons in Hd as [Hd1 Hd2]. constructor.
      * eapply hold_digest_shrinks; [exact Hsh|exact Htk| |exact Hd1].
        destruct Hok as [-> _], Hok' as [-> _]. f_equal. by eapply task_step_frame.
      * eapply Forall_impl; [exact Hd2|]. intros x. by apply hold_digest_shrinks.
  - destruct (sh_retiring (md_shared m) !! i) as [h|] eqn:Eh; [|done].
    pose proof (hold_step_same h (md_shared m)) as [Hsq Hsr]. pose proof (hold_step_good os (seq_bound m) h (md_shared m)) as Hgood.
    pose proof (hold_step_repaired os (seq_bound m) h (md_shared m) H0) as Hrep.
    destruct (hold_step h (md_shared m)) as [h' s'] eqn:Es. injection H as <- <-. cbn in Hsq, Hsr, Hgood, Hrep.
    rewrite app_nil_r.
    set (rest := producer_holds (md_ppc m)
      ++ (frame_hold false <$> (sh_queue (md_shared m) ++ option_list (md_pending m)))
      ++ writer_holds (md_wpc m) ++ (tk_hold <$> md_acks m) ++ delete i (sh_retiring (md_shared m))).
    assert (Hp : holds m ≡ₚ h :: rest).
    { unfold holds, rest. rewrite (delete_Permutation _ _ _ Eh) at 1. perm. }
    pose proof (inv_core Hi) as Hc. apply (Core_perm _ _ _ Hp) in Hc.
    apply (hold_step_core _ _ _ _ _ Es) in Hc. pose proof (inv_below Hi) as Hb. rewrite Hp in Hb.
    apply Forall_cons in Hb as [Hb1 Hb2]. specialize (Hgood Hb1). specialize (Hrep Hb1 (inv_repair Hi)).
    set (m' := set_shared _ m).
    assert (Hcase : (h_permit h' = true /\ holds m' ≡ₚ h' :: rest) \/ (h_permit h' = false /\ holds m' = rest)).
    { unfold m', holds, rest. cbn. rewrite Hsq, Hsr. destruct (h_permit h'); [left|by right]. split; [done|].
      rewrite (insert_perm _ _ _ h' Eh). perm. }
    split; try apply Hi.
    + destruct Hcase as [[_ Hp']|[Hn ->]]; [by eapply Core_perm; [symmetry; exact Hp'|]|by eapply Core_gone].
    + destruct Hcase as [[_ Hp']|[Hn ->]]; [rewrite Hp'; by constructor|done].
    + unfold m'. cbn. rewrite Hsq. apply Hi.
    + exact Hrep.
    + pose proof (hold_step_shrinks h (md_shared m)) as [Hsh Htk]. pose proof (inv_digest Hi) as Hd.
      pose proof (hold_step_frame h (md_shared m)) as Hfr.
      rewrite Es in Hsh, Htk, Hfr. rewrite Hp in Hd. apply Forall_cons in Hd as [Hd1 Hd2].
      assert (Hrest : Forall (hold_digest (sh_receipts s')) rest).
      { eapply Forall_impl; [exact Hd2|]. intros x. by apply hold_digest_shrinks. }
      change (sh_receipts (md_shared m')) with (sh_receipts s').
      destruct Hcase as [[_ ->]|[_ ->]]; [|done]. constructor; [|done]. by eapply hold_digest_shrinks.
  - destruct (repair_request _) as [r a] eqn:Er. injection H as <- <-. apply Hmono. split; try apply Hi; cbn.
    + replace r with (repair_request (sh_repair (md_shared m))).1 by (by rewrite Er).
      apply Core_request. apply (inv_core Hi).
    + destruct (gate_exists _ H0) as [g Hg]. pose proof (gate_request _ g Hg) as Hr. rewrite Er in Hr.
      pose proof (inv_repair Hi) as Hrep. rewrite (gate_generation _ _ Hg), (gate_active _ _ Hg) in Hrep. destruct a.
      * destruct Hr as [_ Hr]. by rewrite (gate_active _ _ Hr).
      * destruct Hr as [_ Hr]. by rewrite (gate_generation _ _ Hr), (gate_active _ _ Hr).
      * destruct Hr as (_ & -> & _). apply Hi.
  - destruct (sh_receipts _) as [rs|] eqn:Es; [|done].
    pose proof (Inv_confirm os m rs seq digest obsolete Hi Es) as Hc.
    destruct (confirm seq digest obsolete rs) as [rs' ok]. injection H as <- <-. by apply Hmono.
Qed.
End ServingInv.
