(* ===== verification/Delivery.v ===== *)
(** * What a serving desktop session guarantees

    The theorems about every interleaving of the media pipeline of [Serving]: how much it
    holds, when its capture gate is closed, in what order frames reach the wire and what it
    takes for one to count as delivered. *)

From S2P Require Import Prelude Crypto Agent MediaGate Serving.

Section Delivery.
Context `{HB : Blake3}.

Lemma media_run_inv os l m m' os' :
  Inv os m -> media_run l m = Some (m', os') -> Inv (os ++ os') m'.
Proof.
  revert os m os'. induction l as [|e l IH]; intros os m os' Hi H; cbn in H.
  - injection H as <- <-. by rewrite app_nil_r.
  - destruct (media_step e m) as [[m1 o]|] eqn:E; [|done].
    destruct (media_run l m1) as [[m2 os2]|] eqn:El; [|done]. injection H as <- <-.
    rewrite app_assoc. eapply IH; [|exact El]. by eapply media_step_inv.
Qed.
Lemma media_new_run b l m os : media_run l (media_new b) = Some (m, os) -> Inv os m.
Proof. intros H. by apply (media_run_inv [] l (media_new b)); [apply media_new_inv|]. Qed.

(** A fact about single steps of sound states, for whole runs. *)
Lemma media_run_ind (P : list Out -> Media -> Prop) b l m os :
  P [] (media_new b) ->
  (forall os e m m' o, Inv os m -> P os m -> media_step e m = Some (m', o) -> P (os ++ o) m') ->
  media_run l (media_new b) = Some (m, os) -> P os m.
Proof.
  intros H0 Hs Hr. rewrite <- (app_nil_l os). revert Hr H0. generalize (media_new_inv b).
  generalize (@nil Out), (media_new b). intros os0 m0 Hi H HP. revert os0 m0 os Hi H HP.
  induction l as [|e l IH]; intros os0 m0 os Hi H HP; cbn in H.
  - injection H as <- <-. by rewrite app_nil_r.
  - destruct (media_step e m0) as [[m1 o]|] eqn:E; [|done].
    destruct (media_run l m1) as [[m2 os2]|] eqn:El; [|done]. injection H as <- <-.
    rewrite app_assoc. eapply IH; [by eapply media_step_inv|exact El|by eapply Hs].
Qed.

(** ** Nothing overruns *)

Definition overrun (o : Out) : Prop :=
  match o with ORefused _ | OFull _ => True | _ => False end.

Lemma producer_step_fits os e m m' o x :
  Inv os m -> producer_step e m = Some (m', o) -> x ∈ o -> ~ overrun x.
Proof.
  intros Hi H Hx. pose proof (inv_queue Hi) as Hq. unfold producer_step in H.
  destruct e as [|[p|] takes|preserves|], (md_ppc m); try done; try (inv_res H; injection H as <- <-; set_solver).
  destruct (sh_closed _) eqn:Ec; cbn in H; [injection H as <- <-; set_solver|].
  cbn in Hq. rewrite (proj2 (Z.leb_gt _ _)) in H by lia. injection H as <- <-. set_solver.
Qed.
Lemma writer_step_fits e m m' o x : writer_step e m = Some (m', o) -> x ∈ o -> ~ overrun x.
Proof.
  unfold writer_step. intros H Hx.
  destruct e, (md_wpc m); try done; repeat case_match; simplify_eq/=; set_solver.
Qed.
Lemma send_step_fits os e m m' o x :
  Inv os m -> send_step e m = Some (m', o) -> x ∈ o -> ~ overrun x.
Proof.
  intros Hi H Hx. unfold send_step in H.
  destruct e as [| |i| |w|[]| |], (md_wpc m) eqn:Ew; try done; try (repeat case_match; simplify_eq/=; set_solver).
  destruct (sh_receipts _) as [rs|] eqn:Es; [|injection H as <- <-; set_solver].
  destruct (register (fr_seq f) rs) eqn:Er; [injection H as <- <-; set_solver|]. exfalso.
  destruct (register_admits (md_shared m) f rs
     (producer_holds (md_ppc m) ++ (frame_hold false <$> (sh_queue (md_shared m) ++ option_list (md_pending m)))
      ++ (tk_hold <$> md_acks m) ++ sh_retiring (md_shared m))) as [rs' Hr]; [|done|by rewrite Er in Hr].
  eapply Core_perm; [|apply (inv_core Hi)]. unfold holds. rewrite Ew. unfold writer_holds. perm.
Qed.
Lemma media_step_fits os e m m' o x :
  Inv os m -> media_step e m = Some (m', o) -> x ∈ o -> ~ overrun x.
Proof.
  intros Hi H Hx. destruct e; cbn in H.
  - by eapply producer_step_fits.
  - destruct (writer_step e m) as [[m1 o1]|] eqn:E; [injection H as <- <-; by eapply writer_step_fits|].
    by eapply send_step_fits.
  - destruct (md_acks m !! i); [|done]. unfold task_step in H. repeat case_match; simplify_eq/=; set_solver.
  - repeat case_match; simplify_eq/=; set_solver.
  - repeat case_match; simplify_eq/=; set_solver.
  - repeat case_match; simplify_eq/=; set_solver.
Qed.

(** ** What reaches the wire decodes *)

Definition opened (os : list Out) : list (Z * Produced) :=
  omap (fun o => match o with OOpened g p => Some (g, p) | _ => None end) os.
(** A decoder of what was sent: a picture always decodes, a difference only as the next frame
    of the picture chain it is in.  [ref] is that chain's epoch and next number; the result is
    [None] when a frame does not decode. *)
Fixpoint decode (ref : option (Z * Z)) (l : list (Z * Produced)) : option (option (Z * Z)) :=
  match l with
  | [] => Some ref
  | (g, p) :: l =>
      if pr_key p || bool_decide (ref = Some (g, pr_seq p))
      then decode (Some (g, pr_seq p + 1)) l else None
  end.
Lemma decode_app ref l1 l2 :
  decode ref (l1 ++ l2) = match decode ref l1 with Some ref => decode ref l2 | None => None end.
Proof. revert ref. induction l1 as [|[g p] l1 IH]; intros ref; cbn; [done|]. by case_match. Qed.

(** What a step may do to the reference chain: nothing, break it, or extend it. *)
Definition chain_kept (m m' : Media) : Prop :=
  fc_next (md_chain m') = None \/
  fc_next (md_chain m') = fc_next (md_chain m) /\ md_wgen m' = md_wgen m.
Definition chain_grown (m m' : Media) (o : list Out) : Prop :=
  exists p, o = [OOpened (md_wgen m) p] /\ md_wgen m' = md_wgen m /\
    chain_admit p (md_chain m) = (md_chain m', true).

Lemma failed_receipt_next seq c :
  fc_next (failed_receipt seq c) = None \/ fc_next (failed_receipt seq c) = fc_next c.
Proof. unfold failed_receipt. case_match; auto. Qed.
Lemma join_receipt_next t c n :
  fc_next (join_receipt t c n).1 = None \/ fc_next (join_receipt t c n).1 = fc_next c.
Proof.
  unfold join_receipt. destruct n as [[? ?] ?].
  destruct (tk_result t) as [[]|]; cbn; [by right|by right|apply failed_receipt_next..].
Qed.
Lemma drain_next l c n :
  let c' := (drain_frame_receipts l c n).1.2 in fc_next c' = None \/ fc_next c' = fc_next c.
Proof.
  revert c n. induction l as [|t l IH]; intros c n; cbn; [by right|].
  destruct (joinable t).
  - pose proof (join_receipt_next t c n) as Hj. destruct (join_receipt t c n) as [c1 n1]. cbn in Hj.
    destruct (IH c1 n1) as [->| ->]; auto.
  - pose proof (IH c n) as Hd. by destruct (drain_frame_receipts l c n) as [[? ?] ?].
Qed.
Lemma drained_chain m : chain_kept m (drained m).
Proof.
  unfold drained, chain_kept. pose proof (drain_next (md_acks m) (md_chain m) (md_counts m)) as Hd.
  destruct (drain_frame_receipts _ _ _) as [[? ?] ?]. cbn in *. destruct Hd; auto.
Qed.

Lemma producer_step_chain e m m' o :
  producer_step e m = Some (m', o) -> opened o = [] /\ md_chain m' = md_chain m /\ md_wgen m' = md_wgen m.
Proof. unfold producer_step. intros H. repeat case_match; simplify_eq/=; done. Qed.
Lemma send_step_chain e m m' o :
  send_step e m = Some (m', o) -> opened o = [] /\ md_chain m' = md_chain m /\ md_wgen m' = md_wgen m.
Proof. unfold send_step. intros H. repeat case_match; simplify_eq/=; done. Qed.
Lemma writer_step_chain e m m' o :
  writer_step e m = Some (m', o) -> chain_grown m m' o \/ opened o = [] /\ chain_kept m m'.
Proof.
  unfold writer_step. intros H. pose proof (drained_chain m) as Hd. destruct e, (md_wpc m) eqn:Ew; try done.
  all: try (right; repeat case_match; simplify_eq/=; (split; [done|]); unfold chain_kept in *; cbn; auto; fail).
  - destruct (chain_admit _ _) as [c []] eqn:Ec; simplify_eq/=; [left; eexists; by rewrite Ec|].
    right. split; [done|]. unfold chain_admit in Ec. case_match; simplify_eq/=. by left.
  - right. destruct (md_acks m !! i) as [t|]; [|done]. destruct (joinable t); [cbn in H|done].
    pose proof (join_receipt_next t (md_chain m) (md_counts m)) as Hj.
    destruct (join_receipt _ _ _). simplify_eq/=. split; [done|]. unfold chain_kept. cbn in *. naive_solver.
Qed.
Lemma media_step_chain e m m' o :
  media_step e m = Some (m', o) -> chain_grown m m' o \/ opened o = [] /\ chain_kept m m'.
Proof.
  intros H. destruct e; cbn in H.
  - right. apply producer_step_chain in H as (? & Hc & ?). unfold chain_kept. rewrite Hc. auto.
  - destruct (writer_step e m) as [[m1 o1]|] eqn:E; [injection H as <- <-; by eapply writer_step_chain|].
    right. apply send_step_chain in H as (? & Hc & ?). unfold chain_kept. rewrite Hc. auto.
  - right. destruct (md_acks m !! i); [|done]. unfold task_step in H.
    repeat case_match; simplify_eq/=; (split; [done|]); by right.
  - right. repeat case_match; simplify_eq/=; (split; [done|]); by right.
  - right. repeat case_match; simplify_eq/=; (split; [done|]); by right.
  - right. repeat case_match; simplify_eq/=; (split; [done|]); by right.
Qed.

Definition chain_ok (os : list Out) (m : Media) : Prop :=
  exists ref, decode None (opened os) = Some ref /\
    forall n, fc_next (md_chain m) = Some n -> ref = Some (md_wgen m, n).
Lemma chain_ok_step os e m m' o :
  chain_ok os m -> media_step e m = Some (m', o) -> chain_ok (os ++ o) m'.
Proof.
  intros (ref & Hd & Hr) H. unfold chain_ok, opened. rewrite omap_app. fold (opened os) (opened o).
  destruct (media_step_chain _ _ _ _ H) as [(p & -> & Hg & Hc)|[-> Hk]].
  - unfold chain_admit in Hc. inv_res Hc. injection Hc as Hc. b2p.
    exists (Some (md_wgen m, pr_seq p + 1)). rewrite decode_app, Hd. cbn. split.
    + destruct (pr_key p); [done|]. cbn. rewrite bool_decide_eq_true_2; [done|]. apply Hr. naive_solver.
    + rewrite <-Hc, Hg. cbn. unfold checked_add64. intros n Hn. inv_res Hn. naive_solver.
  - exists ref. rewrite app_nil_r. split; [done|]. intros n Hn. destruct Hk as [?|[He ->]]; [congruence|].
    apply Hr. congruence.
Qed.

(** ** What it takes to count as delivered *)

Definition evidence_ok (os : list Out) (seq : Z) (e : PendingReceipt) : Prop :=
  match pd_channel e with
  | Some EvTransport => False
  | Some EvPayload => exists d, pd_expected e = Some d /\ OConfirm seq d false true ∈ os
  | _ => True
  end.
Definition entries_ok (os : list Out) (rs : gmap Z PendingReceipt) : Prop :=
  map_Forall (evidence_ok os) rs.
Lemma evidence_ok_more os o seq e : evidence_ok os seq e -> evidence_ok (os ++ o) seq e.
Proof. unfold evidence_ok. destruct (pd_channel e) as [[]|]; set_solver. Qed.
Lemma entries_ok_more os o rs : entries_ok os rs -> entries_ok (os ++ o) rs.
Proof. intros H seq e He. by apply evidence_ok_more, H. Qed.

Lemma register_entries os seq rs rs' : register seq rs = Some rs' -> entries_ok os rs -> entries_ok os rs'.
Proof. unfold register. intros H He. inv_res H. injection H as <-. by apply map_Forall_insert_2. Qed.
Lemma set_digest_entries os seq d rs : entries_ok os rs -> entries_ok os (set_digest seq d rs).1.
Proof.
  intros H. unfold set_digest. destruct (rs !! seq) as [e|] eqn:E; [|done].
  destruct (pd_expected e) eqn:Ex; [done|]. apply map_Forall_insert_2; [|done]. apply H in E.
  unfold evidence_ok in *. cbn. destruct (pd_channel e) as [[]|]; try done.
  destruct E as (? & Hx & _). congruence.
Qed.
Lemma confirm_entries os seq d b rs :
  entries_ok os rs -> entries_ok (os ++ [OConfirm seq d b (confirm seq d b rs).2]) (confirm seq d b rs).1.
Proof.
  intros H. unfold confirm. destruct (rs !! seq) as [e|] eqn:E; [|by apply entries_ok_more].
  case_bool_decide as Hx; cbn; [|by apply entries_ok_more].
  destruct (pd_sender e); cbn; [|by apply entries_ok_more].
  apply map_Forall_insert_2; [|by apply entries_ok_more]. unfold evidence_ok. cbn. destruct b; [done|].
  exists d. set_solver.
Qed.
Lemma ticket_drop_entries os seq rs : entries_ok os rs -> entries_ok os (ticket_drop seq rs).
Proof. apply map_Forall_delete. Qed.

(** The writer's ticket for the frame in its hands, once it has asked for one. *)
Definition writer_ticket (pc : WriterPc) : bool :=
  match pc with WHead _ t | WBody _ t _ | WDigest _ t _ | WFinish _ t _ => t | _ => true end.
Definition task_ticket (t : Task) : Prop := tk_result t = None -> h_ticket (tk_hold t) = true.
(** With payload receipts every frame on the wire has a ticket. *)
Definition receipts_ok (os : list Out) (m : Media) : Prop :=
  (exists rs, sh_receipts (md_shared m) = Some rs /\ entries_ok os rs) /\
  writer_ticket (md_wpc m) = true /\ Forall task_ticket (md_acks m).

Lemma hold_step_receipts os h s rs :
  sh_receipts s = Some rs -> entries_ok os rs ->
  exists rs', sh_receipts (hold_step h s).2 = Some rs' /\ entries_ok os rs'.
Proof.
  intros H He. unfold hold_step. destruct (h_late h); [by exists rs|]. destruct (h_ticket h).
  - destruct (h_seq h); cbn; rewrite H; cbn; rewrite ?H; [|by exists rs].
    eexists. split; [done|]. by apply ticket_drop_entries.
  - destruct (h_key h) as [[k []]|]; [by exists rs..|]. destruct (h_permit h); by exists rs.
Qed.
Lemma drain_forall (P : Task -> Prop) l c n :
  Forall P l -> Forall P (drain_frame_receipts l c n).1.1.
Proof.
  intros H. revert c n. induction H as [|t l Ht _ IH]; intros c n; cbn; [done|]. destruct (joinable t).
  - destruct (join_receipt t c n). apply IH.
  - specialize (IH c n). destruct (drain_frame_receipts l c n) as [[? ?] ?]. by constructor.
Qed.
Lemma drained_forall (P : Task -> Prop) m : Forall P (md_acks m) -> Forall P (md_acks (drained m)).
Proof.
  intros H. unfold drained. pose proof (drain_forall P _ (md_chain m) (md_counts m) H) as Hd.
  by destruct (drain_frame_receipts _ _ _) as [[? ?] ?].
Qed.
Lemma drained_shared m : md_shared (drained m) = md_shared m.
Proof. unfold drained. by destruct (drain_frame_receipts _ _ _) as [[? ?] ?]. Qed.

Lemma producer_step_receipts os e m m' o :
  producer_step e m = Some (m', o) -> receipts_ok os m -> receipts_ok (os ++ o) m'.
Proof.
  intros H ((rs & Hs & He) & Hw & Ht).
  assert (sh_receipts (md_shared m') = sh_receipts (md_shared m) /\ md_wpc m' = md_wpc m /\
          md_acks m' = md_acks m) as (E1 & E2 & E3)
    by (unfold producer_step in H; repeat case_match; simplify_eq/=; done).
  unfold receipts_ok. rewrite E1, E2, E3. split; [|done]. exists rs. by split; [|apply entries_ok_more].
Qed.
Lemma writer_step_receipts os e m m' o :
  writer_step e m = Some (m', o) -> receipts_ok os m -> receipts_ok (os ++ o) m'.
Proof.
  intros H ((rs & Hs & He) & Hw & Ht). apply (entries_ok_more os o) in He.
  pose proof (drained_forall task_ticket m Ht) as Hd. pose proof (drained_shared m) as Hds.
  assert (sh_receipts (md_shared m') = sh_receipts (md_shared m) /\ writer_ticket (md_wpc m') = true /\
          Forall task_ticket (md_acks m')) as (E1 & E2 & E3).
  { unfold writer_step in H. repeat case_match; simplify_eq/=; rewrite ?Hds;
      (split; [done|]); (split; [done|]); try done; by apply Forall_delete. }
  split; [|done]. exists rs. by rewrite E1.
Qed.
Lemma send_step_receipts os e m m' o :
  send_step e m = Some (m', o) -> receipts_ok os m -> receipts_ok (os ++ o) m'.
Proof.
  intros H ((rs & Hs & He) & Hw & Ht). apply (entries_ok_more os o) in He. unfold send_step in H.
  rewrite Hs in H.
  destruct e as [| |i| |w|[]| |], (md_wpc m) as [| | | | | | |f|f t|f t h|f t h|f t h| | |]; try done.
  all: try (repeat case_match; simplify_eq/=; (split; [by exists rs|]); (split; [done|]); try done;
            apply Forall_app; (split; [done|]); by constructor).
  - destruct (register _ _) as [rs'|] eqn:Er; injection H as <- <-.
    + split; [|done]. cbn. rewrite Hs. exists rs'. split; [done|]. by eapply register_entries.
    + split; [by exists rs|done].
  - injection H as <- <-. split; [|done]. cbn. rewrite Hs. eexists. split; [done|]. by apply set_digest_entries.
Qed.

Lemma task_outcome_receipts t r elapsed budget s :
  sh_receipts (task_outcome t r elapsed budget s).2 = sh_receipts s.
Proof. unfold task_outcome. repeat case_match; done. Qed.
Lemma task_step_receipts os e t s t' s' o rs :
  task_step e t s = Some (t', s', o) -> sh_receipts s = Some rs -> entries_ok os rs -> task_ticket t ->
  task_ticket t' /\ exists rs', sh_receipts s' = Some rs' /\ entries_ok (os ++ o) rs'.
Proof.
  intros H Hs He Ht. apply (entries_ok_more os o) in He. unfold task_step in H.
  destruct e as [|stopped timed_out elapsed budget|], (tk_result t) eqn:Er; try done.
  - destruct (h_late _); [done|]. injection H as <- <- <-. split; [|by exists rs]. intros _. by apply Ht.
  - destruct (receipts_wait _ _) as [res|].
    2: destruct timed_out; [|done].
    all: destruct (task_outcome t _ elapsed budget s) as [[h r] s1] eqn:Eo; injection H as <- <- <-;
      (split; [done|]); exists rs; split; [|done];
      rewrite <-Hs; change s1 with (h, r, s1).2; rewrite <-Eo; apply task_outcome_receipts.
  - destruct (h_permit _); [|done]. destruct (hold_step _ _) as [h1 s1] eqn:Eh. injection H as <- <- <-.
    split; [done|]. change s1 with (h1, s1).2. rewrite <-Eh. by apply (hold_step_receipts _ _ _ rs).
Qed.
Lemma media_step_receipts os e m m' o :
  media_step e m = Some (m', o) -> receipts_ok os m -> receipts_ok (os ++ o) m'.
Proof.
  intros H Hr. destruct e; cbn in H.
  - by eapply producer_step_receipts.
  - destruct (writer_step e m) as [[m1 o1]|] eqn:E; [injection H as <- <-; by eapply writer_step_receipts|].
    by eapply send_step_receipts.
  - destruct Hr as ((rs & Hs & He) & Hw & Ht). destruct (md_acks m !! i) as [t|] eqn:Et; [|done].
    destruct (task_step e t (md_shared m)) as [[[t1 s1] o1]|] eqn:E; [|done]. injection H as <- <-.
    destruct (task_step_receipts os _ _ _ _ _ _ rs E Hs He) as [Ht1 Hs1];
      [by eapply Forall_lookup_1 in Ht|]. split; [done|]. split; [done|]. by apply Forall_insert.
  - destruct Hr as ((rs & Hs & He) & Hw & Ht). destruct (sh_retiring _ !! i) as [h|] eqn:Et; [|done].
    destruct (hold_step h (md_shared m)) as [h1 s1] eqn:Eh. injection H as <- <-. rewrite app_nil_r.
    split; [|done]. cbn. change s1 with (h1, s1).2. rewrite <-Eh. by apply (hold_step_receipts _ _ _ rs).
  - destruct Hr as ((rs & Hs & He) & Hw & Ht). destruct (repair_request _). injection H as <- <-.
    split; [|done]. exists rs. by split; [|apply entries_ok_more].
  - destruct Hr as ((rs & Hs & He) & Hw & Ht). rewrite Hs in H.
    destruct (confirm seq digest obsolete rs) as [rs1 a] eqn:Ec. injection H as <- <-.
    split; [|done]. cbn. rewrite Hs. exists rs1. split; [done|].
    pose proof (confirm_entries os seq digest obsolete rs He) as Hc. by rewrite Ec in Hc.
Qed.

Definition confirmed (f : Frame) : Out :=
  OConfirm (fr_seq f) (blake3_hash (pr_payload (fr_produced f))) false true.
Lemma delivered_evidence t res elapsed budget s h s' :
  task_outcome t res elapsed budget s = (h, Delivered, s') -> res = Ok EvTransport \/ res = Ok EvPayload.
Proof. unfold task_outcome. intros H. repeat case_match; simplify_eq; auto. Qed.
(** A ticket is the only way to [Delivered] when there is one. *)
Lemma ticket_evidence ch stopped res :
  receipts_wait (Some ch) (transport_outcome <$> stopped) = Some res ->
  res = Ok EvTransport \/ res = Ok EvPayload -> exists p, ch = Some p /\ res = Ok p.
Proof.
  destruct ch as [p|]; cbn; [intros [= <-]; by exists p|].
  destruct stopped as [[|code|]|]; cbn; try done; [|naive_solver].
  destruct (code =? _); naive_solver.
Qed.
Lemma delivered_step os e m m' o f proof :
  Inv os m -> receipts_ok os m -> media_step e m = Some (m', o) -> OReceipt f proof Delivered ∈ o ->
  confirmed f ∈ os.
Proof.
  intros Hi ((rs & Hs & He) & _ & Ht) H Ho. destruct e; cbn in H.
  - unfold producer_step in H. repeat case_match; simplify_eq/=; set_solver.
  - destruct (writer_step e m) as [[m1 o1]|] eqn:E;
      [injection H as <- <-; unfold writer_step in E; repeat case_match; simplify_eq/=; set_solver|].
    unfold send_step in H. repeat case_match; simplify_eq/=; set_solver.
  - destruct (md_acks m !! i) as [t|] eqn:Et; [|done].
    assert (Hd : hold_digest (sh_receipts (md_shared m)) (tk_hold t)).
    { pose proof (inv_digest Hi) as Hd. rewrite Forall_forall in Hd. apply Hd. unfold holds.
      apply list_elem_of_lookup_2 in Et. set_solver. }
    eapply Forall_lookup_1 in Ht; [|exact Et].
    assert (Hk : task_ok t) by (pose proof (inv_tasks Hi) as Hk; by eapply Forall_lookup_1 in Hk).
    unfold task_step in H. destruct e as [|stopped timed_out elapsed budget|], (tk_result t) eqn:Er; try done.
    1,3: repeat case_match; simplify_eq/=; set_solver.
    unfold ticket_channel in H. rewrite (Ht Er), Hs in H.
    destruct (receipts_wait _ _) as [res|] eqn:Ew.
    + destruct (task_outcome t _ elapsed budget _) as [[h r] s1] eqn:Eo. injection H as <- <-.
      apply list_elem_of_singleton in Ho as [= -> -> <-]. pose proof (delivered_evidence _ _ _ _ _ _ _ Eo) as Hv.
      apply ticket_evidence in Ew as (p & Ec & ->); [|done].
      destruct (rs !! fr_seq (tk_frame t)) as [e|] eqn:Ee; [|done].
      pose proof (He _ _ Ee) as Hok. unfold evidence_ok in Hok. rewrite Ec in Hok.
      destruct Hv as [[= ->]|[= ->]]; [done|]. destruct Hok as (d & Hx & Hin).
      unfold confirmed. rewrite <-(Hd (tk_frame t) e d); [done|by apply Ht|apply Hk| |done]. by rewrite Hs.
    + destruct timed_out; [|done]. destruct (task_outcome t _ elapsed budget _) as [[h r] s1] eqn:Eo.
      injection H as <- <-. apply list_elem_of_singleton in Ho as [= -> -> <-].
      by destruct (delivered_evidence _ _ _ _ _ _ _ Eo).
  - repeat case_match; simplify_eq/=; set_solver.
  - repeat case_match; simplify_eq/=; set_solver.
  - repeat case_match; simplify_eq/=; set_solver.
Qed.
Lemma media_step_one e m m' o : media_step e m = Some (m', o) -> o = [] \/ exists x, o = [x].
Proof.
  intros H. destruct e; cbn in H.
  - unfold producer_step in H. repeat case_match; simplify_eq/=; eauto.
  - destruct (writer_step e m) as [[m1 o1]|] eqn:E;
      [injection H as <- <-; unfold writer_step in E; repeat case_match; simplify_eq/=; eauto|].
    unfold send_step in H. repeat case_match; simplify_eq/=; eauto.
  - unfold task_step in H. repeat case_match; simplify_eq/=; eauto.
  - repeat case_match; simplify_eq/=; eauto.
  - repeat case_match; simplify_eq/=; eauto.
  - repeat case_match; simplify_eq/=; eauto.
Qed.

Definition confirmed_before (os : list Out) : Prop :=
  forall a f proof c, os = a ++ OReceipt f proof Delivered :: c -> confirmed f ∈ a.
Lemma confirmed_before_step os e m m' o :
  Inv os m -> receipts_ok os m -> confirmed_before os -> media_step e m = Some (m', o) ->
  confirmed_before (os ++ o).
Proof.
  intros Hi Hr Hc H a f proof c E. destruct (media_step_one _ _ _ _ H) as [-> |[x ->]].
  - rewrite app_nil_r in E. by eapply Hc.
  - destruct c as [|y c _] using rev_ind.
    + apply app_inj_tail in E as [-> ->]. eapply delivered_step; [done..|]. by apply list_elem_of_singleton.
    + rewrite app_comm_cons, app_assoc in E. apply app_inj_tail in E as [-> _]. by eapply Hc.
Qed.

Lemma run_decodes b l m os :
  media_run l (media_new b) = Some (m, os) -> is_Some (decode None (opened os)).
Proof.
  intros H. destruct (media_run_ind chain_ok b l m os) as (ref & -> & _); [by exists None| |done|done].
  intros os0 e m0 m1 o _ HP Hs. by eapply chain_ok_step.
Qed.
Lemma run_confirmed l m os : media_run l (media_new true) = Some (m, os) -> confirmed_before os.
Proof.
  intros H. apply (media_run_ind (fun os m => receipts_ok os m /\ confirmed_before os) true l m os); [| |done].
  - split; [|by intros [] ? ? ? ?]. split; [by exists ∅|done].
  - intros os0 e m0 m1 o Hi [Hr Hc] Hs. split; [by eapply media_step_receipts|by eapply confirmed_before_step].
Qed.

(** ** Theorems *)

(** C26: Whatever the order in which the capture thread, the writer and the receipt tasks run,
    whatever the peer and the network do, a serving session stays within its limits: the
    count of capture permits is the number of owners that hold one and at most three, at most
    two frames are queued, three streams await their receipt and three receipts are open.
    A frame that reaches the queue finds room there and one that reaches the wire finds a
    receipt slot, so the paths that would break the reference chain or end the session are
    never taken. *)
Theorem media_never_overruns b l m os :
  media_run l (media_new b) = Some (m, os) ->
  (forall x, x ∈ os -> ~ overrun x) /\
  sh_admission (md_shared m) = cnt h_permit (holds m) /\
  sh_admission (md_shared m) <= MAX_PENDING_FRAME_ACKS /\
  zlen (sh_queue (md_shared m)) <= 2 /\ zlen (md_acks m) <= MAX_PENDING_FRAME_ACKS /\
  match sh_receipts (md_shared m) with
  | Some rs => Z.of_nat (size rs) <= MAX_PENDING_FRAME_ACKS | None => True
  end.
Proof.
  intros H. pose proof (media_new_run _ _ _ _ H) as Hi. split.
  { revert H. apply (media_run_ind (fun os _ => forall x, x ∈ os -> ~ overrun x)); [by intros x Hx%elem_of_nil|].
    intros os0 e m0 m1 o Hi0 HP Hs x [?|?]%elem_of_app; [by apply HP|]. by eapply media_step_fits. }
  pose proof (inv_queue Hi) as Hq. pose proof (inv_acks Hi) as Ha. destruct (inv_core Hi) as ((Hp & Hm) & _ & Hk & _ & _ & Ht).
  unfold MAX_PENDING_FRAME_ACKS in *. repeat split; try done.
  - destruct (producer_busy _); lia.
  - destruct (writer_open _); lia.
  - destruct (sh_receipts _) as [rs|]; [|done]. destruct Ht as [Hz _]. pose proof (cnt_ticket_permit _ Hk). lia.
Qed.

(** The keyframe gate neither leaks nor opens early: it is closed exactly while one owner
    somewhere in the session still holds the key permit of the current repair epoch, never
    two, and no permit is of a later epoch.  A repair that was asked for is over only when a
    keyframe of its own epoch was reported as delivered. *)
Theorem key_gate_exact b l m os :
  media_run l (media_new b) = Some (m, os) ->
  let r := sh_repair (md_shared m) in
  cnt (key_live (generation r)) (holds m) = Z.b2z (key_pending r) /\
  Forall (key_gen_le (generation r)) (holds m) /\
  (generation r <> 0 -> active r = false -> delivered_key os (generation r)).
Proof.
  intros H r. pose proof (media_new_run _ _ _ _ H) as Hi.
  destruct (inv_core Hi) as (_ & _ & _ & _ & (g & Hg & Hc & Hf) & _).
  pose proof (inv_repair Hi) as Hr. fold r in Hg, Hr.
  rewrite (gate_generation _ _ Hg) in *. rewrite (gate_key_pending _ _ Hg). done.
Qed.

(** Everything that is put on a stream decodes, in every interleaving: a difference is sent
    only as the direct successor, in the same repair epoch, of the frame sent before it, back
    to a keyframe.  A frame that was skipped, refused or overtaken before it got a stream is
    never built upon. *)
Theorem opened_decodable b l m os :
  media_run l (media_new b) = Some (m, os) -> is_Some (decode None (opened os)).
Proof. apply run_decodes. Qed.

(** C25: With payload receipts, a frame counts as delivered only after the peer confirmed it with
    the hash of exactly this frame's payload.  That the transport has everything acknowledged
    is not enough, and neither is a receipt for another frame or for one that was dropped. *)
Theorem delivered_only_confirmed l m os :
  media_run l (media_new true) = Some (m, os) -> confirmed_before os.
Proof. apply run_confirmed. Qed.
End Delivery.

Module DeliveryWitness.
#[local] Instance toy_hash : Blake3 := toy_blake3.
Definition picture : Produced :=
  mkProduced (mkHeader 0 0 0 0 true H264 2 2) (bs "picture").
(** One keyframe from capture to its receipt. *)
Definition one_frame : list MediaEvent :=
  [MProducer PeGo; MProducer PeGo; MProducer PeGo; MProducer (PeProduce (Some picture) true);
   MProducer (PeChecked false); MProducer PeGo; MProducer PeGo; MProducer PeGo;
   MWriter WeGo; MWriter WeGo; MWriter WeGo; MWriter (WePacing false); MWriter WeGo; MWriter WeGo;
   MWriter (WeIo IoOk); MWriter (WeIo IoOk); MWriter WeGo; MWriter (WeIo IoOk);
   MReceipt 0 (blake3_hash (bs "picture")) false; MTask 0 (TeDone None false 0 0);
   MTask 0 TeDrop; MTask 0 TeDrop; MTask 0 TeDrop].
Definition end_of (l : list MediaEvent) : Media * list Out :=
  default (media_new true, []) (media_run l (media_new true)).
Definition repaired_frame : list MediaEvent := MRequest :: one_frame.
Lemma one_frame_runs :
  media_run one_frame (media_new true) = Some ((end_of one_frame).1, (end_of one_frame).2).
Proof. by vm_compute. Qed.
Lemma repaired_frame_runs :
  media_run repaired_frame (media_new true) = Some ((end_of repaired_frame).1, (end_of repaired_frame).2).
Proof. by vm_compute. Qed.

Lemma media_never_overruns_witness :
  zlen (end_of one_frame).2 = 3 /\ sh_admission (md_shared (end_of one_frame).1) = cnt h_permit (holds (end_of one_frame).1).
Proof.
  split; [by vm_compute|].
  apply (media_never_overruns true one_frame _ (end_of one_frame).2). apply one_frame_runs.
Defined.
Lemma key_gate_exact_witness :
  active (sh_repair (md_shared (end_of repaired_frame).1)) = false /\
  delivered_key (end_of repaired_frame).2 4.
Proof.
  split; [by vm_compute|].
  change 4 with (generation (sh_repair (md_shared (end_of repaired_frame).1))).
  apply (key_gate_exact true repaired_frame); [apply repaired_frame_runs|by vm_compute|by vm_compute].
Defined.
Lemma opened_decodable_witness :
  opened (end_of one_frame).2 = [(0, picture)] /\ is_Some (decode None (opened (end_of one_frame).2)).
Proof.
  split; [by vm_compute|].
  apply (opened_decodable true one_frame (end_of one_frame).1). apply one_frame_runs.
Defined.
Lemma delivered_only_confirmed_witness :
  OReceipt (mkFrame picture 0 (Some (mkKey 0 false))) true Delivered ∈ (end_of one_frame).2 /\
  confirmed_before (end_of one_frame).2.
Proof.
  split; [vm_compute; by repeat constructor|].
  apply (delivered_only_confirmed one_frame (end_of one_frame).1). apply one_frame_runs.
Defined.
End DeliveryWitness.
