(* ===== verification/Viewing.v ===== *)
(** * The viewer of a desktop session

    Models the receiving half of a session, [receive_frames] with its readers in
    [src/crates/rds-desktop/src/client.rs], the reordering of [order.rs], the decode chain
    ([Delivery]), the pacing of repair requests ([GapRepair]) and the decoder of a relayed
    session ([RelayDecoder]).

    The loop and its readers run concurrently and share the next expected number and the
    count of receive budgets; a run is any interleaving of their accesses.  Which bytes a
    stream yields, when a timer fires, whether a queue has room and what the native decoder
    makes of its input is in the step.  The native decoder itself is known by the frames it
    was fed since it was opened ([dv_decoder]).  The model is the build with a decoder. *)

From S2P Require Import Prelude Crypto Agent MediaGate.

Definition MAX_FRAME_BYTES : Z := 32 * 1024 * 1024.
Definition MAX_FRAME_READERS : Z := 4.
Definition IDR_MIN_INTERVAL_MS : Z := 500.
Definition KEYFRAME_READ_TIMEOUT : duration := from_secs 8.

(** [reorder_wait]. *)
Definition reorder_wait (rtt_ms : Z) : duration :=
  from_millis (if rtt_ms =? u64_max then 250 else Z.min (Z.max (sat_mul64 rtt_ms 2) 100) 1000).

(** [frame_bytes]; sizes are far below the width of [usize]. *)
Definition frame_bytes (width height : Z) : option Z :=
  if (width =? 0) || (height =? 0) || (8192 <? width) || (8192 <? height) then None
  else if width * height <=? 7680 * 4320 then Some (width * height * 4) else None.

(** ** Reordering *)

Record Ordered : Type := mkOrdered {
  or_next : option Z; or_frames : gmap Z Produced; or_blocked : option Z
}.
Definition ordered_default : Ordered := mkOrdered None ∅ None.

(** [BTreeMap::pop_last]. *)
Definition last_key (m : gmap Z Produced) : option Z :=
  map_fold (fun k _ acc => Some (match acc with Some a => Z.max k a | None => k end)) None m.
Definition pop_last (m : gmap Z Produced) : gmap Z Produced :=
  match last_key m with Some k => delete k m | None => m end.
(** The loop of [push] that drops the farthest frames. *)
Fixpoint evict (fuel : nat) (limit : Z) (m : gmap Z Produced) : gmap Z Produced :=
  match fuel with
  | O => m
  | S fuel => if limit <? Z.of_nat (size m) then evict fuel limit (pop_last m) else m
  end.

Definition holds_next (next : option Z) (m : gmap Z Produced) : bool :=
  is_some_and next (fun n => is_some (m !! n)).
(** [Ordered::push]. *)
Definition ordered_push (now : Z) (p : Produced) (o : Ordered) : Ordered :=
  if (pr_seq p =? u64_max) || is_some_and (or_next o) (fun next => pr_seq p <? next) then o else
  let o := if pr_key p && is_none_or (or_next o) (fun next => next <? pr_seq p)
           then mkOrdered (Some (pr_seq p)) (filter (fun kv => pr_seq p <= kv.1) (or_frames o)) None
           else o in
  let frames := <[pr_seq p := p]> (or_frames o) in
  let limit := 3 + Z.b2z (holds_next (or_next o) frames) in
  mkOrdered (or_next o) (evict (size frames) limit frames)
    (Some (match or_blocked o with Some at_ => at_ | None => now end)).

(** [Ordered::pop]. *)
Definition ordered_pop (now : Z) (o : Ordered) : option (Produced * Ordered) :=
  match or_next o with
  | None => None
  | Some next =>
      match or_frames o !! next with
      | None => None
      | Some p =>
          let frames := delete next (or_frames o) in
          Some (p, mkOrdered (checked_add64 next 1) frames
                     (if bool_decide (frames = ∅) then None else Some now))
      end
  end.

(** [Ordered::expire]. *)
Definition ordered_expire (now : Z) (timeout : duration) (o : Ordered) : option Ordered :=
  if is_some_and (or_blocked o) (fun at_ => timeout <=? since at_ now) then Some ordered_default else None.

(** ** The decode chain *)

Record Delivery : Type := mkDelivery {
  dv_decoder : option (list Produced);
  dv_last_idr_req_ms : option Z;
  dv_waiting_keyframe : bool
}.
Definition delivery_new : Delivery := mkDelivery None None true.
Definition invalidate (d : Delivery) : Delivery := mkDelivery (dv_decoder d) (dv_last_idr_req_ms d) true.

(** [Delivery::request_idr]; [room] says whether the control queue takes the request. *)
Definition request_idr (room : bool) (now_ms : Z) (d : Delivery) : Delivery * bool :=
  if is_none_or (dv_last_idr_req_ms d) (fun last => IDR_MIN_INTERVAL_MS <=? sat_sub64 now_ms last) && room
  then (mkDelivery (dv_decoder d) (Some now_ms) (dv_waiting_keyframe d), true) else (d, false).

Inductive DecodeOutcome : Type := Decoded | Buffered | DecodeFailed.
(** What the native decoder does: it can fail to open; it gives an image, nothing yet or an error. *)
Inductive Native : Type := NImage (width height : Z) | NNothing | NError.

(** [Delivery::decode]. *)
Definition delivery_decode (p : Produced) (opens : bool) (native : Native) (d : Delivery)
  : Delivery * DecodeOutcome :=
  if dv_waiting_keyframe d && negb (pr_key p) then (d, DecodeFailed) else
  let decoder := if dv_waiting_keyframe d then None else dv_decoder d in
  let d decoder := mkDelivery decoder (dv_last_idr_req_ms d) false in
  if pr_empty p then (d decoder, DecodeFailed) else
  match (match decoder with Some fed => Some fed | None => if opens then Some [] else None end) with
  | None => (d None, DecodeFailed)
  | Some fed =>
      (d (Some (fed ++ [p])),
       match native with
       | NImage w h => if (w =? fh_width (pr_header p)) && (h =? fh_height (pr_header p))
                       then Decoded else DecodeFailed
       | NNothing => Buffered
       | NError => DecodeFailed
       end)
  end.

(** [GapRepair]: when the last request for a missing reference was made. *)
Definition gap_request (room : bool) (now_ms : Z) (gap : option Z) (d : Delivery)
  : option Z * Delivery * bool :=
  if is_some_and gap (fun at_ => sat_sub64 now_ms at_ <? KEYFRAME_READ_TIMEOUT / 1000000) then (gap, d, false) else
  let '(d, sent) := request_idr room now_ms d in
  (if sent then Some now_ms else gap, d, sent).

(** [RelayDecoder]. *)
Record RelayDecoder : Type := mkRelayDecoder {
  rd_delivery : Delivery; rd_last_idr_report : option Z; rd_next_seq : option Z
}.
Definition relay_new : RelayDecoder := mkRelayDecoder delivery_new None None.
Inductive RelayOutcome : Type := RelayFrame | RelayPending | NeedIdr.
(** [RelayDecoder::push] at [now]. *)
Definition relay_push (p : Produced) (opens : bool) (native : Native) (now : Z) (r : RelayDecoder)
  : RelayDecoder * RelayOutcome :=
  if (pr_seq p =? u64_max) || is_some_and (rd_next_seq r) (fun next => pr_seq p <? next)
  then (r, RelayPending) else
  let d := if is_some_and (rd_next_seq r) (fun next => negb (pr_seq p =? next))
           then invalidate (rd_delivery r) else rd_delivery r in
  let next := checked_add64 (pr_seq p) 1 in
  match delivery_decode p opens native d with
  | (d, Decoded) => (mkRelayDecoder d (rd_last_idr_report r) next, RelayFrame)
  | (d, Buffered) => (mkRelayDecoder d (rd_last_idr_report r) next, RelayPending)
  | (d, DecodeFailed) =>
      if is_none_or (rd_last_idr_report r)
           (fun last => IDR_MIN_INTERVAL_MS <=? since last now / 1000000)
      then (mkRelayDecoder (invalidate d) (Some now) next, NeedIdr)
      else (mkRelayDecoder (invalidate d) (rd_last_idr_report r) next, RelayPending)
  end.

(** ** The receive loop *)

Inductive FrameRead : Type := Complete (p : Produced) | Stale | Rejected | TimedOut.
(** A reader ([read_one_with_receipt]), at its accesses and waits. *)
Inductive Reader : Type :=
| RHead
| RBody (h : FrameHeader) (body : bytes)
| RSend (h : FrameHeader) (body : bytes) (obsolete : bool)    (* queues the receipt *)
| RDone (r : FrameRead).

Inductive LoopPc : Type :=
| VTop
| VDecode (p : Produced)             (* waits for the native decoder *)
| VRelay (p : Produced)              (* waits for room in the relay queue *)
| VSelect
| VOver.

Record Viewer : Type := mkViewer {
  vw_relay : bool;
  vw_receipts : bool;
  vw_next_seq : Z;
  vw_receiving : Z;
  vw_ordered : Ordered;
  vw_delivery : Delivery;
  vw_gap : option Z;
  vw_readers : list Reader;
  vw_abandoned : Z;                  (* budgets of decodes given up on, still running *)
  vw_pc : LoopPc
}.
Definition viewer_new (relay receipts : bool) : Viewer :=
  mkViewer relay receipts 0 0 ordered_default delivery_new None [] 0 VTop.

Definition set_pc (pc : LoopPc) (v : Viewer) : Viewer :=
  mkViewer (vw_relay v) (vw_receipts v) (vw_next_seq v) (vw_receiving v) (vw_ordered v) (vw_delivery v)
    (vw_gap v) (vw_readers v) (vw_abandoned v) pc.
Definition set_ordered (o : Ordered) (v : Viewer) : Viewer :=
  mkViewer (vw_relay v) (vw_receipts v) (vw_next_seq v) (vw_receiving v) o (vw_delivery v)
    (vw_gap v) (vw_readers v) (vw_abandoned v) (vw_pc v).
Definition set_delivery (d : Delivery) (v : Viewer) : Viewer :=
  mkViewer (vw_relay v) (vw_receipts v) (vw_next_seq v) (vw_receiving v) (vw_ordered v) d
    (vw_gap v) (vw_readers v) (vw_abandoned v) (vw_pc v).
Definition set_gap (gap : option Z) (v : Viewer) : Viewer :=
  mkViewer (vw_relay v) (vw_receipts v) (vw_next_seq v) (vw_receiving v) (vw_ordered v) (vw_delivery v)
    gap (vw_readers v) (vw_abandoned v) (vw_pc v).
Definition set_next_seq (n : Z) (v : Viewer) : Viewer :=
  mkViewer (vw_relay v) (vw_receipts v) n (vw_receiving v) (vw_ordered v) (vw_delivery v)
    (vw_gap v) (vw_readers v) (vw_abandoned v) (vw_pc v).
Definition set_readers (l : list Reader) (v : Viewer) : Viewer :=
  mkViewer (vw_relay v) (vw_receipts v) (vw_next_seq v) (vw_receiving v) (vw_ordered v) (vw_delivery v)
    (vw_gap v) l (vw_abandoned v) (vw_pc v).
Definition set_budgets (receiving abandoned : Z) (v : Viewer) : Viewer :=
  mkViewer (vw_relay v) (vw_receipts v) (vw_next_seq v) receiving (vw_ordered v) (vw_delivery v)
    (vw_gap v) (vw_readers v) abandoned (vw_pc v).
(** [FrameBudget::drop]. *)
Definition release (n : Z) (v : Viewer) : Viewer :=
  set_budgets (vw_receiving v - n) (vw_abandoned v) v.

(** What a step shows. *)
Inductive Seen : Type :=
| SHeader (h : FrameHeader)                        (* to [frame_headers] *)
| SFrame (p : Produced)                            (* an image of it to [frames] *)
| SRelayed (p : Produced)                          (* to [encoded] *)
| SIdr (now_ms : Z)                                (* [RequestIdr] queued *)
| SReceipt (seq : Z) (digest : bytes) (obsolete : bool)
| SComplete (p : Produced)                         (* a stream was read to its end *)
| SRefused.                                        (* a stream found no budget *)

Definition idr_seen (now_ms : Z) (sent : bool) : list Seen := if sent then [SIdr now_ms] else [].
Definition loop_request (room : bool) (now_ms : Z) (v : Viewer) : Viewer * list Seen :=
  let '(d, sent) := request_idr room now_ms (vw_delivery v) in (set_delivery d v, idr_seen now_ms sent).

(** The loop's decision on the frame that is next in order. *)
Definition take_frame (p : Produced) (v : Viewer) : Viewer * list Seen :=
  if pr_seq p <? vw_next_seq v then (release 1 (set_pc VTop v), []) else
  let v := if vw_next_seq v <? pr_seq p then set_delivery (invalidate (vw_delivery v)) v else v in
  let v := set_next_seq (pr_seq p + 1) v in
  let v := if pr_key p then set_gap None v else v in
  (set_pc (if vw_relay v then VRelay p else VDecode p) v, [SHeader (pr_header p)]).

Inductive LoopEvent : Type :=
| LPop (now : Z)
| LDecoded (opens : bool) (native : Native) (room : bool) (now_ms : Z)
| LDecodeTimeout (room : bool) (now_ms : Z)
| LSent                                            (* the relay queue took the frame *)
| LTick (now rtt_ms : Z) (room : bool) (now_ms : Z)
| LJoin (i : nat) (now : Z) (room : bool) (now_ms : Z)
| LStream (slot : bool)                            (* [slot]: a global budget is free *)
| LStop.                                           (* a channel or a worker is gone *)

(** [receive_frames]. *)
Definition loop_step (e : LoopEvent) (v : Viewer) : option (Viewer * list Seen) :=
  match e, vw_pc v with
  | LPop now, VTop =>
      match ordered_pop now (vw_ordered v) with
      | None => Some (set_pc VSelect v, [])
      | Some (p, o) => Some (take_frame p (set_ordered o v))
      end
  | LDecoded opens native room now_ms, VDecode p =>
      let '(d, out) := delivery_decode p opens native (vw_delivery v) in
      let v := set_pc VTop (release 1 (set_delivery d v)) in
      match out with
      | Decoded => Some (v, [SFrame p])
      | Buffered => Some (v, [])
      | DecodeFailed => Some (loop_request room now_ms (set_delivery (invalidate d) v))
      end
  | LDecodeTimeout room now_ms, VDecode p =>
      Some (loop_request room now_ms
              (set_pc VTop (set_delivery delivery_new
                 (set_budgets (vw_receiving v) (vw_abandoned v + 1) v))))
  | LSent, VRelay p => Some (set_pc VTop (release 1 v), [SRelayed p])
  | LTick now rtt_ms room now_ms, VSelect =>
      let v := set_pc VTop v in
      match vw_readers v, ordered_expire now (reorder_wait rtt_ms) (vw_ordered v) with
      | [], Some o =>
          let v := set_ordered o (release (Z.of_nat (size (or_frames (vw_ordered v)))) v) in
          let '(gap, d, sent) := gap_request room now_ms (vw_gap v) (invalidate (vw_delivery v)) in
          Some (set_gap gap (set_delivery d v), idr_seen now_ms sent)
      | _, _ => Some (v, [])
      end
  | LJoin i now room now_ms, VSelect =>
      match vw_readers v !! i with
      | Some (RDone r) =>
          let v := set_pc VTop (set_readers (delete i (vw_readers v)) v) in
          match r with
          | Complete p =>
              let o := ordered_push now p (vw_ordered v) in
              Some (set_ordered o (release (1 + Z.of_nat (size (or_frames (vw_ordered v)))
                                              - Z.of_nat (size (or_frames o))) v), [])
          | Stale => Some (v, [])
          | TimedOut | Rejected => Some (loop_request room now_ms (set_gap None v))
          end
      | _ => None
      end
  | LStream slot, VSelect =>
      let v := set_pc VTop v in
      if vw_relay v && (MAX_FRAME_READERS <=? vw_receiving v) then None else
      if (MAX_FRAME_READERS <=? vw_receiving v) || negb slot then Some (v, [SRefused])
      else Some (set_readers (vw_readers v ++ [RHead])
                   (set_budgets (vw_receiving v + 1) (vw_abandoned v) v), [])
  | LStop, (VSelect | VDecode _ | VRelay _) => Some (set_pc VOver v, [])
  | _, _ => None
  end.

Inductive ReaderEvent : Type :=
| ReHeader (h : FrameHeader) | ReChunk (c : bytes) | ReEnd | ReQueued | ReFail | ReTimeout.

Section Viewing.
Context `{HB : Blake3}.

(** [read_one_with_receipt]; [next_seq] is the number it loads. *)
Definition read_one (e : ReaderEvent) (receipts : bool) (next_seq : Z) (r : Reader)
  : option (Reader * list Seen) :=
  match e, r with
  | ReHeader h, RHead =>
      if (fh_seq h =? u64_max) || negb (is_some (frame_bytes (fh_width h) (fh_height h)))
      then Some (RDone Rejected, []) else
      if fh_seq h <? next_seq then Some (RDone Stale, []) else Some (RBody h [], [])
  | ReChunk c, RBody h body =>
      if sat_sub64 MAX_FRAME_BYTES (zlen body) <? zlen c then Some (RDone Rejected, [])
      else Some (RBody h (body ++ c), [])
  | ReEnd, RBody h body =>
      let done := SComplete (mkProduced h body) in
      if negb receipts then Some (RDone (Complete (mkProduced h body)), [done]) else
      if bool_decide (body = []) then Some (RDone Rejected, [done]) else
      Some (RSend h body (fh_seq h <? next_seq), [done])
  | ReQueued, RSend h body obsolete =>
      Some (RDone (Complete (mkProduced h body)), [SReceipt (fh_seq h) (blake3_hash body) obsolete])
  | ReFail, (RHead | RBody _ _ | RSend _ _ _) => Some (RDone Rejected, [])
  | ReTimeout, (RHead | RBody _ _ | RSend _ _ _) => Some (RDone TimedOut, [])
  | _, _ => None
  end.
(** Whether a reader still owns its budget. *)
Definition has_budget (r : Reader) : bool :=
  match r with RDone (Stale | Rejected | TimedOut) => false | _ => true end.

Inductive ViewEvent : Type :=
| VLoop (e : LoopEvent)
| VReader (i : nat) (e : ReaderEvent)
| VReleased.                                       (* a given-up decode ends *)

Definition view_step (e : ViewEvent) (v : Viewer) : option (Viewer * list Seen) :=
  match e with
  | VLoop e => loop_step e v
  | VReader i e =>
      match vw_pc v, vw_readers v !! i with
      | VOver, _ | _, None => None
      | _, Some r =>
          match read_one e (vw_receipts v) (vw_next_seq v) r with
          | None => None
          | Some (r, o) =>
              Some (release (if has_budget r then 0 else 1)
                      (set_readers (<[i := r]> (vw_readers v)) v), o)
          end
      end
  | VReleased =>
      if vw_abandoned v =? 0 then None
      else Some (set_budgets (vw_receiving v - 1) (vw_abandoned v - 1) v, [])
  end.
Fixpoint view_run (l : list ViewEvent) (v : Viewer) : option (Viewer * list Seen) :=
  match l with
  | [] => Some (v, [])
  | e :: l =>
      match view_step e v with
      | None => None
      | Some (v, o) =>
          match view_run l v with None => None | Some (v, os) => Some (v, o ++ os) end
      end
  end.
End Viewing.

(** ** The decoder's input *)

(** Starts at a keyframe and skips nothing. *)
Definition fed_in_order (fed : list Produced) : Prop :=
  (forall p, head fed = Some p -> pr_key p = true) /\
  (forall i p q, fed !! i = Some p -> fed !! S i = Some q -> pr_seq q = pr_seq p + 1).
(** ... and the next frame of it is number [n]. *)
Definition next_is (n : Z) (fed : list Produced) : Prop :=
  exists p, last fed = Some p /\ pr_seq p + 1 = n.

Lemma fed_in_order_nil : fed_in_order [].
Proof. by split. Qed.
Lemma fed_in_order_one p : pr_key p = true -> fed_in_order [p].
Proof. intros Hp. split; [by intros ? [= <-]|]. by intros [] ? ?. Qed.
Lemma fed_in_order_snoc fed p :
  fed_in_order fed -> next_is (pr_seq p) fed -> fed_in_order (fed ++ [p]).
Proof.
  intros [Hh Hc] (q & Hl & Hq). split.
  - destruct fed; [done|]. exact Hh.
  - intros i x y Hx Hy. rewrite last_lookup in Hl.
    destruct (decide (S i < length fed)%nat) as [Hi|Hi].
    + rewrite lookup_app_l in Hx, Hy by lia. by eapply Hc.
    + assert (length fed <> 0)%nat by (by destruct fed). pose proof (lookup_lt_Some _ _ _ Hy) as Hy2.
      rewrite length_app in Hy2. cbn in Hy2. assert (S i = length fed) as E by lia.
      rewrite lookup_app_l in Hx by lia. rewrite E, list_lookup_middle in Hy by done. injection Hy as <-.
      rewrite <-E in Hl. cbn in Hl. congruence.
Qed.
Lemma next_is_snoc fed p : next_is (pr_seq p + 1) (fed ++ [p]).
Proof. exists p. by rewrite last_snoc. Qed.

(** The chain of a decoder that takes number [n] next unless it waits for a keyframe. *)
Definition delivery_ok (n : Z) (d : Delivery) : Prop :=
  from_option fed_in_order True (dv_decoder d) /\
  (dv_waiting_keyframe d = false -> exists fed, dv_decoder d = Some fed /\ next_is n fed).
Lemma delivery_new_ok n : delivery_ok n delivery_new.
Proof. by split. Qed.
Lemma invalidate_ok n m d : delivery_ok n d -> delivery_ok m (invalidate d).
Proof. intros [Hc _]. by split. Qed.
Lemma waiting_ok n m d : delivery_ok n d -> dv_waiting_keyframe d = true -> delivery_ok m d.
Proof. intros [Hc _] Hw. split; [done|]. by rewrite Hw. Qed.
Lemma request_idr_ok n room now d : delivery_ok n d -> delivery_ok n (request_idr room now d).1.
Proof. unfold request_idr. intros H. by case_match. Qed.
Lemma request_idr_waiting room now d :
  dv_waiting_keyframe (request_idr room now d).1 = dv_waiting_keyframe d.
Proof. unfold request_idr. by case_match. Qed.
Lemma gap_request_ok n room now gap d : delivery_ok n d -> delivery_ok n (gap_request room now gap d).1.2.
Proof.
  intros H. unfold gap_request. case_match; [done|]. pose proof (request_idr_ok n room now d H).
  by destruct (request_idr room now d).
Qed.
Lemma gap_request_waiting room now gap d :
  dv_waiting_keyframe (gap_request room now gap d).1.2 = dv_waiting_keyframe d.
Proof.
  unfold gap_request. case_match; [done|]. pose proof (request_idr_waiting room now d).
  by destruct (request_idr room now d).
Qed.

(** [decode] keeps the chain; after a failure its callers invalidate it. *)
Lemma delivery_decode_ok p opens native d :
  delivery_ok (pr_seq p) d ->
  match delivery_decode p opens native d with
  | (d', DecodeFailed) => delivery_ok (pr_seq p + 1) (invalidate d')
  | (d', _) => delivery_ok (pr_seq p + 1) d'
  end.
Proof.
  intros [Hc Hn]. unfold delivery_decode. destruct (dv_waiting_keyframe d) eqn:Ew.
  - destruct (pr_key p) eqn:Ek; cbn; [|by split]. destruct (pr_empty p); [by split|].
    destruct opens; [|by split].
    assert (delivery_ok (pr_seq p + 1) (mkDelivery (Some [p]) (dv_last_idr_req_ms d) false)).
    { split; [by apply fed_in_order_one|]. intros _. exists [p]. split; [done|]. apply (next_is_snoc []). }
    destruct native as [w h| |]; [destruct (_ && _)|..]; try done; by eapply invalidate_ok.
  - cbn. destruct (Hn eq_refl) as (fed & Hd & Hf). rewrite Hd in *. cbn in Hc.
    destruct (pr_empty p); [by split|].
    assert (delivery_ok (pr_seq p + 1) (mkDelivery (Some (fed ++ [p])) (dv_last_idr_req_ms d) false)).
    { split; [by apply fed_in_order_snoc|]. intros _. exists (fed ++ [p]). split; [done|]. apply next_is_snoc. }
    destruct native as [w h| |]; [destruct (_ && _)|..]; try done; by eapply invalidate_ok.
Qed.

(** ** Reordering holds few frames and invents none *)

Lemma last_key_in m k : last_key m = Some k -> is_Some (m !! k).
Proof.
  unfold last_key. revert k. refine (map_fold_weak_ind (fun acc m => forall k, acc = Some k -> is_Some (m !! k)) _ _ _ _ m).
  - done.
  - intros i p m0 acc Hi IH k [= <-]. destruct acc as [a|].
    + destruct (Z.max_spec i a) as [[_ ->]|[_ ->]]; [|rewrite lookup_insert, decide_True; eauto].
      destruct (IH a eq_refl). rewrite lookup_insert. case_decide; eauto.
    + rewrite lookup_insert, decide_True; eauto.
Qed.
Lemma last_key_some m : m <> ∅ -> is_Some (last_key m).
Proof.
  unfold last_key. refine (map_fold_weak_ind (fun acc m => m <> ∅ -> is_Some acc) _ _ _ _ m); [done|].
  intros. by eexists.
Qed.
Lemma pop_last_sub m : pop_last m ⊆ m.
Proof. unfold pop_last. destruct (last_key m); [apply delete_subseteq|done]. Qed.
Lemma pop_last_size m : m <> ∅ -> Z.of_nat (size (pop_last m)) = Z.of_nat (size m) - 1.
Proof.
  intros Hm. unfold pop_last. destruct (last_key_some m Hm) as [k Hk]. rewrite Hk.
  apply last_key_in in Hk. rewrite map_size_delete_Some by done. destruct Hk as [p Hp].
  assert (size m <> 0)%nat by (intros ?%map_size_empty_inv; subst; by rewrite lookup_empty in Hp). lia.
Qed.
Lemma evict_sub fuel limit m : evict fuel limit m ⊆ m.
Proof.
  revert m. induction fuel as [|fuel IH]; intros m; cbn; [done|]. case_match; [|done].
  by etrans; [apply IH|apply pop_last_sub].
Qed.
Lemma evict_size fuel limit m :
  0 <= limit -> (size m <= fuel)%nat -> Z.of_nat (size (evict fuel limit m)) <= limit.
Proof.
  intros Hl. revert m. induction fuel as [|fuel IH]; intros m Hs; cbn; [lia|].
  destruct (_ <? _) eqn:E; b2p; [|lia]. apply IH.
  assert (m <> ∅) as Hm by (intros ->; rewrite map_size_empty in E; lia). pose proof (pop_last_size m Hm). lia.
Qed.
Lemma evict_id fuel limit m : Z.of_nat (size m) <= limit -> evict fuel limit m = m.
Proof. intros H. destruct fuel; cbn; [done|]. by rewrite (proj2 (Z.ltb_ge _ _)). Qed.

Lemma ordered_push_lookup now p o k q :
  or_frames (ordered_push now p o) !! k = Some q -> q = p \/ or_frames o !! k = Some q.
Proof.
  unfold ordered_push. case_match; [by right|]. cbn. intros Hq.
  eapply lookup_weaken in Hq; [|apply evict_sub]. rewrite lookup_insert in Hq.
  case_decide; [left; congruence|]. right. case_match; [|done]. cbn in Hq. by apply map_lookup_filter_Some in Hq as [? _].
Qed.
Lemma ordered_pop_lookup now o p o' :
  ordered_pop now o = Some (p, o') ->
  exists n, or_next o = Some n /\ or_frames o !! n = Some p /\ or_frames o' = delete n (or_frames o) /\
    or_next o' = checked_add64 n 1.
Proof.
  unfold ordered_pop. destruct (or_next o) as [n|]; [|done]. destruct (or_frames o !! n) eqn:E; [|done].
  intros [= <- <-]. by exists n.
Qed.
Lemma last_key_max m j : is_Some (m !! j) -> exists a, last_key m = Some a /\ j <= a.
Proof.
  unfold last_key. refine (map_fold_weak_ind
    (fun acc m => is_Some (m !! j) -> exists a, acc = Some a /\ j <= a) _ _ _ _ m).
  - rewrite lookup_empty. by intros [].
  - intros i p m0 acc Hi IH Hj. eexists. split; [done|]. rewrite lookup_insert in Hj.
    case_decide as E; [subst; destruct acc; lia|]. destruct (IH Hj) as (a & -> & ?). lia.
Qed.
Lemma evict_keeps fuel limit m n :
  1 <= limit -> is_Some (m !! n) -> (forall k p, m !! k = Some p -> n <= k) ->
  evict fuel limit m !! n = m !! n.
Proof.
  intros Hl. revert m. induction fuel as [|fuel IH]; intros m Hn Hm; cbn; [done|].
  destruct (_ <? _) eqn:E; b2p; [|done].
  assert (pop_last m !! n = m !! n) as Hp.
  { unfold pop_last. destruct (last_key m) as [k|] eqn:Ek; [|done]. rewrite lookup_delete.
    case_decide as Ekn; [|done]. subst k. exfalso.
    assert (size m <= 1)%nat; [|lia]. transitivity (size ({[n]} : gset Z)); [|by rewrite size_singleton].
    rewrite <-size_dom. apply subseteq_size. intros j [q Hj]%elem_of_dom. apply elem_of_singleton.
    destruct (last_key_max m j) as (a & Ha & ?); [by eexists|]. apply Hm in Hj. rewrite Ek in Ha. injection Ha as <-. lia. }
  rewrite IH; [done|by rewrite Hp|]. intros k p Hk. eapply Hm, lookup_weaken; [exact Hk|apply pop_last_sub].
Qed.

(** The order of the frames: numbered by their key, none before the next one. *)
Definition ordered_inv (o : Ordered) : Prop :=
  (forall k p, or_frames o !! k = Some p ->
     pr_seq p = k /\ k <> u64_max /\ forall n, or_next o = Some n -> n <= k) /\
  Z.of_nat (size (or_frames o)) <= 3 + Z.b2z (holds_next (or_next o) (or_frames o)).
Lemma ordered_default_inv : ordered_inv ordered_default.
Proof. split; [|done]. intros k p. cbn. by rewrite lookup_empty. Qed.
Lemma ordered_push_inv now p o : ordered_inv o -> ordered_inv (ordered_push now p o).
Proof.
  intros [Hk Hs]. unfold ordered_push. destruct (_ || _) eqn:Eg; [done|]. b2p. destruct Eg as [Hmax Hlow].
  set (o1 := if _ && _ then _ else o).
  assert (H1 : forall k q, <[pr_seq p := p]> (or_frames o1) !! k = Some q ->
     pr_seq q = k /\ k <> u64_max /\ forall n, or_next o1 = Some n -> n <= k).
  { intros k q. rewrite lookup_insert. case_decide as E.
    - intros [= <-]. subst k. split; [done|]. split; [done|]. intros n. subst o1. case_match; cbn; [naive_solver lia|].
      intros Hn. rewrite Hn in Hlow. cbn in Hlow. by apply Z.ltb_ge in Hlow.
    - subst o1. case_match; cbn; [|by apply Hk]. intros [Hq ?]%map_lookup_filter_Some.
      destruct (Hk _ _ Hq) as (? & ? & _). split; [done|]. split; [done|]. naive_solver. }
  split; cbn.
  - intros k q Hq. eapply H1, lookup_weaken; [exact Hq|apply evict_sub].
  - set (m := <[pr_seq p := p]> (or_frames o1)) in *.
    assert (holds_next (or_next o1) (evict (size m) (3 + Z.b2z (holds_next (or_next o1) m)) m) = holds_next (or_next o1) m) as ->.
    { destruct (or_next o1) as [n|] eqn:En; [|done]. cbn. destruct (m !! n) eqn:E.
      - rewrite evict_keeps, E; [done|cbn;lia|by rewrite E|]. intros k q Hq. by apply (H1 _ _ Hq).
      - destruct (evict _ _ m !! n) eqn:E2; [|done]. eapply lookup_weaken in E2; [|apply evict_sub]. congruence. }
    apply evict_size; [|lia]. unfold Z.b2z; case_match; lia.
Qed.
Lemma ordered_pop_inv now o p o' : ordered_inv o -> ordered_pop now o = Some (p, o') -> ordered_inv o'.
Proof.
  intros [Hk Hs] (n & Hn & Hp & Hf & Hx)%ordered_pop_lookup. unfold ordered_inv. rewrite Hf, Hx. split.
  - intros k q [Hne Hq]%lookup_delete_Some. destruct (Hk _ _ Hq) as (? & ? & Hle). split; [done|]. split; [done|].
    intros m. unfold checked_add64. case_match; [|done]. intros [= <-]. specialize (Hle _ Hn). lia.
  - rewrite map_size_delete_Some by eauto. rewrite Hn in Hs. cbn in Hs. rewrite Hp in Hs. cbn in Hs.
    assert (size (or_frames o) <> 0)%nat by (intros E%map_size_empty_inv; rewrite E in Hp; by rewrite lookup_empty in Hp).
    destruct (holds_next _ _); cbn; lia.
Qed.

(** ** Where frames come from *)

Definition reader_frame (r : Reader) : option Produced :=
  match r with
  | RSend h body _ => Some (mkProduced h body) | RDone (Complete p) => Some p | _ => None
  end.
Definition pc_frame (pc : LoopPc) : option Produced :=
  match pc with VDecode p | VRelay p => Some p | _ => None end.
(** Every complete frame the viewer holds satisfies [P]. *)
Record frames_all (P : Produced -> Prop) (v : Viewer) : Prop := mkFramesAll {
  fa_ordered : forall k p, or_frames (vw_ordered v) !! k = Some p -> P p;
  fa_pc : forall p, pc_frame (vw_pc v) = Some p -> P p;
  fa_readers : forall r p, r ∈ vw_readers v -> reader_frame r = Some p -> P p;
  fa_decoder : forall fed p, dv_decoder (vw_delivery v) = Some fed -> p ∈ fed -> P p
}.
Lemma delivery_decode_fed p opens native d fed q :
  dv_decoder (delivery_decode p opens native d).1 = Some fed -> q ∈ fed ->
  q = p \/ exists fed', dv_decoder d = Some fed' /\ q ∈ fed'.
Proof.
  unfold delivery_decode. intros H Hq. repeat case_match; simplify_eq/=; eauto.
  all: first [apply list_elem_of_singleton in Hq; by left|apply elem_of_app in Hq as [Hq|Hq%list_elem_of_singleton]; eauto].
Qed.
Lemma request_idr_decoder room now d : dv_decoder (request_idr room now d).1 = dv_decoder d.
Proof. unfold request_idr. by case_match. Qed.
Lemma gap_request_decoder room now gap d : dv_decoder (gap_request room now gap d).1.2 = dv_decoder d.
Proof.
  unfold gap_request. case_match; [done|]. pose proof (request_idr_decoder room now d).
  by destruct (request_idr room now d).
Qed.
Lemma loop_request_frames P room now v : frames_all P v -> frames_all P (loop_request room now v).1.
Proof.
  intros [? ? ? Hd]. unfold loop_request. pose proof (request_idr_decoder room now (vw_delivery v)) as E.
  destruct (request_idr _ _ _) as [d s]. split; try done. cbn in *. by rewrite E.
Qed.
Lemma take_frame_frames P p v :
  frames_all P v -> P p -> frames_all P (take_frame p v).1.
Proof.
  intros [Ho Hp Hr Hd] HP. unfold take_frame.
  destruct (pr_seq p <? vw_next_seq v); [by split|].
  destruct (vw_next_seq v <? pr_seq p), (pr_key p); split; cbn; try done; case_match; naive_solver.
Qed.
Lemma loop_step_frames P e v v' o :
  frames_all P v -> loop_step e v = Some (v', o) -> frames_all P v'.
Proof.
  intros Hf H. destruct (Hf) as [Ho Hp Hr Hd].
  assert (Hdel : forall i r p, r ∈ delete i (vw_readers v) -> reader_frame r = Some p -> P p)
    by (intros i r p ?%list_elem_of_delete_inv; by apply Hr).
  unfold loop_step in H. destruct e, (vw_pc v) eqn:Epc; try done.
  all: try (injection H as <- <-; by split).
  - destruct (ordered_pop now (vw_ordered v)) as [[p o']|] eqn:E; simplify_eq; [|by split].
    apply ordered_pop_lookup in E as (n & _ & Hn & Hf' & _). change v' with (v', o).1. rewrite <-H.
    apply take_frame_frames; [|by eapply Ho]. split; cbn; try done; [|by rewrite Epc].
    rewrite Hf'. intros k q [? ?]%lookup_delete_Some. by eapply Ho.
  - pose proof (delivery_decode_fed p opens native (vw_delivery v)) as Hfed.
    destruct (delivery_decode _ _ _ _) as [d out]. cbn in Hfed.
    assert (forall fed q, dv_decoder d = Some fed -> q ∈ fed -> P q) by (intros; edestruct Hfed; naive_solver).
    destruct out; simplify_eq; [by split..|]. change v' with (v', o).1. rewrite <-H.
    apply loop_request_frames. by split.
  - simplify_eq. change v' with (v', o).1. rewrite <-H. apply loop_request_frames. by split.
  - cbn in H. destruct (vw_readers v) eqn:Er; [|simplify_eq; split; [done|done|apply Hf|done]].
    destruct (ordered_expire _ _ _) as [o'|] eqn:Ee; [|simplify_eq; split; [done|done|apply Hf|done]].
    unfold ordered_expire in Ee. inv_res Ee. injection Ee as <-.
    pose proof (gap_request_decoder room now_ms (vw_gap v) (invalidate (vw_delivery v))) as Eg.
    destruct (gap_request _ _ _ _) as [[gap d] sent]. simplify_eq. cbn in Eg.
    split; cbn; rewrite ?Eg; [done|done|apply Hf|done].
  - destruct (vw_readers v !! i) as [[| | |r]|] eqn:Er; try done. apply list_elem_of_lookup_2 in Er.
    destruct r as [p| | |]; cbn in H; simplify_eq; [|split; cbn; [eauto|done|eauto..]|..].
    1: { split; cbn; [|done|eauto..]. intros k q [->|Hq]%ordered_push_lookup; eauto. }
    all: change v' with (v', o).1; rewrite <-H; apply loop_request_frames; split; cbn; [eauto|done|eauto..].
  - cbn in H. destruct (_ && _); [done|]. destruct (_ || _); simplify_eq; [by split|].
    split; cbn; try done. intros r p [?| ->%list_elem_of_singleton]%elem_of_app; [by apply Hr|done].
Qed.
Lemma view_step_frames `{HB : Blake3} (P : Produced -> Prop) e v v' o :
  frames_all P v -> (forall p, SComplete p ∈ o -> P p) -> view_step e v = Some (v', o) -> frames_all P v'.
Proof.
  intros Hf Hc H. destruct e as [e|i e|]; cbn in H; [by eapply loop_step_frames| |inv_res H; simplify_eq; by destruct Hf].
  destruct (vw_readers v !! i) as [r|] eqn:Er; [|by destruct (vw_pc v)].
  destruct (read_one _ _ _ r) as [[r' o']|] eqn:Es; [|by destruct (vw_pc v)].
  assert (v' = release (if has_budget r' then 0 else 1) (set_readers (<[i:=r']> (vw_readers v)) v) /\ o' = o)
    as [-> ->] by (destruct (vw_pc v); simplify_eq; done).
  destruct (Hf) as [Ho Hp Hr Hd]. split; try done. intros x p Hx Hxp. cbn in Hx.
  apply list_elem_of_lookup in Hx as [j Hj]. rewrite list_lookup_insert_Some in Hj.
  destruct Hj as [(-> & <- & _)|[_ Hj%list_elem_of_lookup_2]]; [|by eapply Hr].
  apply list_elem_of_lookup_2 in Er. unfold read_one in Es. 
  destruct e, r; try done; repeat case_match; injection Es as <- <-; try done; injection Hxp as <-;
    first [by apply Hc, list_elem_of_singleton|by eapply Hr].
Qed.

(** ** The decoder is fed in order *)

Definition headers (os : list Seen) : list Z :=
  omap (fun o => match o with SHeader h => Some (fh_seq h) | _ => None end) os.
Definition expects (v : Viewer) : Z :=
  match vw_pc v with VDecode p => pr_seq p | _ => vw_next_seq v end.
Definition chained (v : Viewer) : Prop :=
  match vw_pc v with
  | VOver => exists n, delivery_ok n (vw_delivery v) | _ => delivery_ok (expects v) (vw_delivery v)
  end.
Record view_chain (os : list Seen) (v : Viewer) : Prop := mkViewChain {
  vc_delivery : chained v;
  vc_relay : vw_relay v = true -> dv_waiting_keyframe (vw_delivery v) = true;
  vc_pc : match vw_pc v with
          | VDecode p => vw_relay v = false /\ vw_next_seq v = pr_seq p + 1 | _ => True end;
  vc_headers : StronglySorted Z.lt (headers os);
  vc_below : Forall (fun n => n < vw_next_seq v) (headers os)
}.
Lemma headers_app os o : headers (os ++ o) = headers os ++ headers o.
Proof. apply omap_app. Qed.
Lemma headers_snoc os h n :
  StronglySorted Z.lt (headers os) -> Forall (fun n => n < fh_seq h) (headers os) -> fh_seq h < n ->
  StronglySorted Z.lt (headers (os ++ [SHeader h])) /\ Forall (fun m => m < n) (headers (os ++ [SHeader h])).
Proof.
  intros Hs Hb Hn. rewrite headers_app. cbn. split.
  - induction Hs as [|x l Hs IH Hx]; cbn; [repeat constructor|]. apply Forall_cons in Hb as [? Hb]. constructor; [by apply IH|].
    apply Forall_app. split; [done|by constructor].
  - apply Forall_app. split; [|by constructor]. eapply Forall_impl; [exact Hb|]. cbn. lia.
Qed.

Lemma view_chain_quiet os o v v' :
  view_chain os v -> headers o = [] -> vw_relay v' = vw_relay v -> vw_next_seq v' = vw_next_seq v ->
  (vw_relay v = true -> dv_waiting_keyframe (vw_delivery v') = true) ->
  (forall p, vw_pc v' = VDecode p -> vw_pc v = VDecode p) ->
  chained v' -> view_chain (os ++ o) v'.
Proof.
  intros [? ? Hpc ? ?] Ho Hr Hn Hw Hp Hd. split; rewrite ?headers_app, ?Ho, ?app_nil_r, ?Hr, ?Hn; try done.
  destruct (vw_pc v') as [|p| | |] eqn:E; try done. by rewrite (Hp p eq_refl) in Hpc.
Qed.
Lemma loop_request_fields room now v :
  let v' := (loop_request room now v).1 in
  vw_relay v' = vw_relay v /\ vw_next_seq v' = vw_next_seq v /\ vw_pc v' = vw_pc v /\
  dv_waiting_keyframe (vw_delivery v') = dv_waiting_keyframe (vw_delivery v) /\
  headers (loop_request room now v).2 = [] /\
  (forall n, delivery_ok n (vw_delivery v) -> delivery_ok n (vw_delivery v')).
Proof.
  unfold loop_request. pose proof (request_idr_ok) as Hk. pose proof (request_idr_waiting room now (vw_delivery v)) as Hw.
  specialize (fun n => Hk n room now (vw_delivery v)). destruct (request_idr _ _ _) as [d s]. by destruct s.
Qed.
(** A step that ends in a repair request. *)
Lemma view_chain_request os room now v v1 :
  view_chain os v -> vw_relay v1 = vw_relay v -> vw_next_seq v1 = vw_next_seq v ->
  (vw_relay v = true -> dv_waiting_keyframe (vw_delivery v1) = true) -> vw_pc v1 = VTop ->
  delivery_ok (vw_next_seq v) (vw_delivery v1) ->
  view_chain (os ++ (loop_request room now v1).2) (loop_request room now v1).1.
Proof.
  intros Hv Hr Hn Hw Hp Hd. destruct (loop_request_fields room now v1) as (Er & En & Ep & Ew & Eh & Ed).
  apply (view_chain_quiet os _ v); rewrite ?Er, ?En, ?Ew, ?Ep, ?Hp; try done.
  unfold chained, expects. rewrite Ep, Hp, En, Hn. by apply Ed.
Qed.
Lemma take_frame_chain os p v :
  view_chain os v -> vw_pc v = VTop ->
  view_chain (os ++ (take_frame p v).2) (take_frame p v).1.
Proof.
  intros Hv Hp. destruct (Hv) as [Hd Hr Hpc Hs Hb]. unfold chained, expects in Hd. rewrite Hp in Hd.
  unfold take_frame. destruct (pr_seq p <? vw_next_seq v) eqn:El; b2p.
  { cbn [fst snd]. by apply (view_chain_quiet os [] v). }
  destruct (headers_snoc os (pr_header p) (pr_seq p + 1)) as [Hs' Hb']; [done| |unfold pr_seq; lia|].
  { eapply Forall_impl; [exact Hb|]. unfold pr_seq in El. cbn. lia. }
  set (d := if vw_next_seq v <? pr_seq p then invalidate (vw_delivery v) else vw_delivery v).
  assert (Hd' : delivery_ok (pr_seq p) d).
  { unfold d. destruct (_ <? _) eqn:E; b2p; [by eapply invalidate_ok|]. by replace (pr_seq p) with (vw_next_seq v) by lia. }
  assert (Hw : vw_relay v = true -> dv_waiting_keyframe d = true) by (unfold d; destruct (_ <? _); [done|apply Hr]).
  assert (Hl : vw_relay v = true -> delivery_ok (pr_seq p + 1) d) by (intros; eapply waiting_ok; eauto).
  destruct (vw_next_seq v <? pr_seq p), (pr_key p), (vw_relay v) eqn:Erl; cbn -[headers]; rewrite Erl;
    split; unfold chained, expects; cbn -[headers]; rewrite ?Erl; eauto.
Qed.
Lemma loop_step_chain os e v v' o :
  view_chain os v -> loop_step e v = Some (v', o) -> view_chain (os ++ o) v'.
Proof.
  intros Hv H. destruct (Hv) as [Hd Hr Hpc _ _]. unfold chained, expects in Hd.
  unfold loop_step in H. destruct e, (vw_pc v) eqn:Epc; try done.
  - destruct (ordered_pop now (vw_ordered v)) as [[p o']|]; simplify_eq; [|by apply (view_chain_quiet os [] v)].
    change v' with (v', o).1. change o with (v', o).2 at 1. rewrite <-H. apply take_frame_chain; [|done].
    rewrite <-(app_nil_r os). apply (view_chain_quiet os [] v); try done. unfold chained, expects. cbn. by rewrite Epc.
  - destruct Hpc as [Hrl Hn]. pose proof (delivery_decode_ok p opens native (vw_delivery v) Hd) as Hok.
    destruct (delivery_decode _ _ _ _) as [d out]. rewrite <-Hn in Hok.
    destruct out; simplify_eq; [apply (view_chain_quiet os _ v); try done; congruence..|].
    change v' with (v', o).1. change o with (v', o).2 at 1. rewrite <-H. by apply (view_chain_request os _ _ v).
  - simplify_eq. change v' with (v', o).1. change o with (v', o).2 at 1. rewrite <-H.
    by apply (view_chain_request os _ _ v).
  - simplify_eq. by apply (view_chain_quiet os _ v).
  - cbn in H. destruct (vw_readers v); [|simplify_eq; by apply (view_chain_quiet os [] v)].
    destruct (ordered_expire _ _ _) as [o'|]; [|simplify_eq; by apply (view_chain_quiet os [] v)].
    pose proof (gap_request_ok (vw_next_seq v) room now_ms (vw_gap v) (invalidate (vw_delivery v))) as Hg.
    pose proof (gap_request_waiting room now_ms (vw_gap v) (invalidate (vw_delivery v))) as Hw.
    destruct (gap_request _ _ _ _) as [[gap d] sent]. simplify_eq.
    apply (view_chain_quiet os _ v); try done; [by destruct sent|]. apply Hg. by eapply invalidate_ok.
  - destruct (vw_readers v !! i) as [[| | |r]|]; try done.
    destruct r as [p| | |]; cbn in H; simplify_eq; [by apply (view_chain_quiet os [] v)..| |].
    all: change v' with (v', o).1; change o with (v', o).2 at 1; rewrite <-H; by apply (view_chain_request os _ _ v).
  - cbn in H. destruct (_ && _); [done|]. destruct (_ || _); simplify_eq; by apply (view_chain_quiet os _ v).
  - simplify_eq. apply (view_chain_quiet os _ v); try done. by eexists.
  - simplify_eq. apply (view_chain_quiet os _ v); try done. by eexists.
  - simplify_eq. apply (view_chain_quiet os _ v); try done. by eexists.
Qed.

Section ViewInv.
Context `{HB : Blake3}.

(** A reader's step changes its entry and gives back its budget, nothing else. *)
Lemma view_read_one i e v v' o :
  view_step (VReader i e) v = Some (v', o) ->
  exists r r', vw_pc v <> VOver /\ vw_readers v !! i = Some r /\
    read_one e (vw_receipts v) (vw_next_seq v) r = Some (r', o) /\
    v' = release (if has_budget r' then 0 else 1) (set_readers (<[i := r']> (vw_readers v)) v).
Proof.
  cbn. intros H. destruct (vw_readers v !! i) as [r|]; [|by destruct (vw_pc v)].
  destruct (read_one _ _ _ r) as [[r' o']|] eqn:E; [|by destruct (vw_pc v)].
  exists r, r'. destruct (vw_pc v); simplify_eq; by rewrite E.
Qed.
Lemma read_one_headers e b n r r' o : read_one e b n r = Some (r', o) -> headers o = [].
Proof. unfold read_one. intros H. destruct e, r; try done; repeat case_match; injection H as <- <-; done. Qed.
Lemma view_step_chain os e v v' o :
  view_chain os v -> view_step e v = Some (v', o) -> view_chain (os ++ o) v'.
Proof.
  intros Hv H. destruct e as [e|i e|]; [by eapply loop_step_chain| |].
  - apply view_read_one in H as (r & r' & _ & _ & Hs & ->). destruct (Hv) as [Hd Hr _ _ _].
    apply (view_chain_quiet os _ v); try done. by eapply read_one_headers.
  - cbn in H. inv_res H. injection H as <- <-. destruct (Hv) as [Hd Hr _ _ _]. by apply (view_chain_quiet os _ v).
Qed.

Lemma view_run_ind (P : list Seen -> Viewer -> Prop) b c l v os :
  P [] (viewer_new b c) ->
  (forall os e v v' o, P os v -> view_step e v = Some (v', o) -> P (os ++ o) v') ->
  view_run l (viewer_new b c) = Some (v, os) -> P os v.
Proof.
  intros H0 Hs H. rewrite <-(app_nil_l os). revert H H0. generalize (@nil Seen), (viewer_new b c).
  intros os0 v0. revert os0 v0 os. induction l as [|e l IH]; intros os0 v0 os H HP; cbn in H.
  - injection H as <- <-. by rewrite app_nil_r.
  - destruct (view_step e v0) as [[v1 o]|] eqn:E; [|done].
    destruct (view_run l v1) as [[v2 os2]|] eqn:El; [|done]. injection H as <- <-.
    rewrite app_assoc. eapply IH; [exact El|]. by eapply Hs.
Qed.
Lemma viewer_new_chain b c : view_chain [] (viewer_new b c).
Proof. split; cbn; try done. constructor. Qed.
Definition complete_in (os : list Seen) (p : Produced) : Prop := SComplete p ∈ os.
Lemma view_run_frames b c l v os :
  view_run l (viewer_new b c) = Some (v, os) -> frames_all (complete_in os) v.
Proof.
  apply (view_run_ind (fun os v => frames_all (complete_in os) v)).
  - split; cbn; try done. intros r p Hr. by apply elem_of_nil in Hr.
  - intros os0 e v0 v1 o Hf H. eapply view_step_frames; [|intros p Hp; by apply elem_of_app; right|exact H].
    destruct Hf as [Ho Hp Hr Hd]. unfold complete_in in *. split; intros; apply elem_of_app; left; eauto.
Qed.

(** ** What a viewer holds *)

Definition live_readers (l : list Reader) : Z := zlen (filter (fun r => has_budget r = true) l).
(** The owners of a receive budget. *)
Definition live (v : Viewer) : Z :=
  live_readers (vw_readers v) + Z.of_nat (size (or_frames (vw_ordered v))) + Z.b2z (is_some (pc_frame (vw_pc v)))
  + vw_abandoned v.
Definition reader_small (r : Reader) : Prop :=
  match r with RBody _ body | RSend _ body _ => zlen body <= MAX_FRAME_BYTES | _ => True end.
Definition frame_small (p : Produced) : Prop := zlen (pr_payload p) <= MAX_FRAME_BYTES.
Record view_budget (v : Viewer) : Prop := mkViewBudget {
  vb_live : vw_pc v <> VOver -> vw_receiving v = live v;
  vb_most : vw_receiving v <= MAX_FRAME_READERS;
  vb_abandoned : 0 <= vw_abandoned v;
  vb_ordered : ordered_inv (vw_ordered v);
  vb_small : Forall reader_small (vw_readers v);
  vb_frames : frames_all frame_small v
}.

Lemma live_readers_app l k : live_readers (l ++ k) = live_readers l + live_readers k.
Proof. unfold live_readers. by rewrite filter_app, zlen_app. Qed.
Lemma live_readers_one r : live_readers [r] = Z.b2z (has_budget r).
Proof. unfold live_readers. rewrite filter_cons, filter_nil. destruct (has_budget r); by case_decide. Qed.
Lemma live_readers_insert l i r r' :
  l !! i = Some r ->
  live_readers (<[i := r']> l) = live_readers l - Z.b2z (has_budget r) + Z.b2z (has_budget r').
Proof.
  intros H. rewrite insert_take_drop by (by eapply lookup_lt_Some). 
  rewrite <-(take_drop_middle l i r H) at 3. change (r' :: ?k) with ([r'] ++ k). change (r :: ?k) with ([r] ++ k).
  rewrite !live_readers_app, !live_readers_one. lia.
Qed.
Lemma live_readers_delete l i r :
  l !! i = Some r -> live_readers (delete i l) = live_readers l - Z.b2z (has_budget r).
Proof.
  intros H. rewrite delete_take_drop. rewrite <-(take_drop_middle l i r H) at 3. change (r :: ?k) with ([r] ++ k).
  rewrite !live_readers_app, live_readers_one. lia.
Qed.
Lemma read_one_small e b n r r' o :
  read_one e b n r = Some (r', o) -> reader_small r ->
  has_budget r = true /\ reader_small r' /\ forall p, SComplete p ∈ o -> frame_small p.
Proof.
  unfold read_one. intros H Hr.
  destruct e, r; try done; repeat case_match; injection H as <- <-; cbn in *; (split; [done|]);
    (split; [|intros p Hp; rewrite ?list_elem_of_singleton, ?elem_of_nil in Hp; simplify_eq; done]); try done.
  all: b2p; rewrite ?zlen_app; unfold sat_sub64 in *; try lia.
Qed.

(** The part of [view_budget] that steps of the loop keep, for the fields they change. *)
Definition budget_at (pc : LoopPc) (receiving abandoned : Z) (o : Ordered) (l : list Reader) : Prop :=
  (pc <> VOver -> receiving = live_readers l + Z.of_nat (size (or_frames o))
                              + Z.b2z (is_some (pc_frame pc)) + abandoned) /\
  receiving <= MAX_FRAME_READERS /\ 0 <= abandoned /\ ordered_inv o /\ Forall reader_small l.
Definition budget_of (v : Viewer) : Prop :=
  budget_at (vw_pc v) (vw_receiving v) (vw_abandoned v) (vw_ordered v) (vw_readers v).
Lemma budget_of_iff v : view_budget v <-> budget_of v /\ frames_all frame_small v.
Proof. split; [by intros [? ? ? ? ? ?]|intros [(? & ? & ? & ? & ?) ?]; by split]. Qed.
Lemma loop_request_budget room now v : budget_of v -> budget_of (loop_request room now v).1.
Proof. intros H. unfold loop_request. by destruct (request_idr _ _ _). Qed.
Lemma take_frame_budget p v :
  vw_pc v = VTop -> budget_at (VDecode p) (vw_receiving v) (vw_abandoned v) (vw_ordered v) (vw_readers v) ->
  budget_of (take_frame p v).1.
Proof.
  intros Hp (Hl & Hm & Ha & Ho & Hr). specialize (Hl ltac:(done)). cbn in Hl. unfold take_frame.
  destruct (pr_seq p <? vw_next_seq v).
  - split; cbn; [lia|]. split; [lia|done].
  - destruct (vw_next_seq v <? pr_seq p), (pr_key p), (vw_relay v) eqn:E; unfold budget_of; cbn; rewrite E; by split.
Qed.
Lemma ordered_push_size now p o :
  Z.of_nat (size (or_frames (ordered_push now p o))) <= Z.of_nat (size (or_frames o)) + 1.
Proof.
  unfold ordered_push. case_match; [lia|]. cbn [or_frames]. set (o1 := if _ && _ then _ else o).
  assert (size (or_frames o1) <= size (or_frames o))%nat as Ho1.
  { unfold o1. case_match; [|done]. cbn. apply map_subseteq_size, map_filter_subseteq. }
  set (m := <[pr_seq p := p]> (or_frames o1)).
  assert (size m <= S (size (or_frames o1)))%nat by (unfold m; rewrite map_size_insert; case_match; cbn; lia).
  pose proof (map_subseteq_size _ _ (evict_sub (size m) (3 + Z.b2z (holds_next (or_next o1) m)) m)). lia.
Qed.
Lemma loop_step_budget e v v' o : budget_of v -> loop_step e v = Some (v', o) -> budget_of v'.
Proof.
  intros (Hl & Hm & Ha & Ho & Hr) H. unfold loop_step in H.
  destruct e, (vw_pc v) eqn:Epc; try done; specialize (Hl ltac:(done)); cbn in Hl.
  - destruct (ordered_pop now (vw_ordered v)) as [[p o']|] eqn:E; [|by simplify_eq; split].
    pose proof (ordered_pop_inv _ _ _ _ Ho E) as Ho'. apply ordered_pop_lookup in E as (n & _ & Hn & Hf & _).
    injection H as H. change v' with (v', o).1. rewrite <-H. apply take_frame_budget; [done|]. cbn.
    assert (size (or_frames (vw_ordered v)) <> 0)%nat by (intros E%map_size_empty_inv; rewrite E in Hn; by rewrite lookup_empty in Hn).
    split; [|done]. intros _. rewrite Hf, map_size_delete_Some by eauto. cbn. lia.
  - destruct (delivery_decode _ _ _ _) as [d out].
    assert (budget_of (set_pc VTop (release 1 (set_delivery d v)))) by (split; [cbn; lia|]; split; [cbn; lia|done]).
    destruct out; simplify_eq; [done..|]. change v' with (v', o).1. rewrite <-H. by apply loop_request_budget.
  - injection H as H. change v' with (v', o).1. rewrite <-H. apply loop_request_budget.
    split; cbn; [lia|]. split; [done|]. split; [lia|done].
  - simplify_eq. split; cbn; [lia|]. split; [lia|done].
  - cbn in H. destruct (vw_readers v) eqn:Er; [|simplify_eq; unfold budget_of; cbn; rewrite Er; split; cbn; [lia|done]].
    destruct (ordered_expire _ _ _) as [o'|] eqn:Ee; [|simplify_eq; unfold budget_of; cbn; rewrite Er; split; cbn; [lia|done]].
    unfold ordered_expire in Ee. inv_res Ee. injection Ee as <-.
    destruct (gap_request _ _ _ _) as [[gap d] sent]. simplify_eq. unfold budget_of. cbn. rewrite Er.
    split; cbn; [rewrite map_size_empty; lia|]. split; [lia|]. split; [done|]. split; [apply ordered_default_inv|done].
  - destruct (vw_readers v !! i) as [[| | |r]|] eqn:Er; try done.
    pose proof (live_readers_delete _ _ _ Er) as Hdel. apply (Forall_delete _ _ i) in Hr.
    destruct r as [p| | |]; cbn in H, Hdel; [| |injection H as H; change v' with (v', o).1; rewrite <-H; apply loop_request_budget..];
      simplify_eq; (split; [cbn|]; try lia); try done.
    pose proof (ordered_push_size now p (vw_ordered v)). split; [cbn; lia|]. split; [done|]. split; [|done].
    by apply ordered_push_inv.
  - cbn in H. destruct (_ && _); [done|]. destruct (_ || _) eqn:E; simplify_eq; [split; cbn; [lia|done]|]. b2p.
    split; cbn; [rewrite live_readers_app, live_readers_one; cbn; lia|]. split; [lia|]. split; [done|]. split; [done|].
    apply Forall_app. split; [done|by constructor].
  - simplify_eq. by split.
  - simplify_eq. by split.
  - simplify_eq. by split.
Qed.
Lemma loop_step_complete e v v' o p : loop_step e v = Some (v', o) -> SComplete p ∉ o.
Proof.
  intros H Hp. unfold loop_step, loop_request, take_frame, idr_seen in H.
  repeat case_match; simplify_eq/=; set_solver.
Qed.
Lemma view_step_budget e v v' o : view_budget v -> view_step e v = Some (v', o) -> view_budget v'.
Proof.
  intros Hv H. apply budget_of_iff in Hv as [Hb Hf]. apply budget_of_iff. destruct e as [e|i e|].
  - split; [by eapply loop_step_budget|]. eapply view_step_frames; [exact Hf| |exact H].
    intros p Hp. by eapply loop_step_complete in Hp.
  - pose proof (view_step_frames frame_small (VReader i e) v v' o Hf) as Hf'.
    pose proof H as (r & r' & Hpc & Hr & Hs & ->)%view_read_one.
    destruct Hb as (Hl & Hm & Ha & Ho & Hsm). pose proof (Forall_lookup_1 _ _ _ _ Hsm Hr) as Hri.
    destruct (read_one_small _ _ _ _ _ _ Hs Hri) as (Hbud & Hsm' & Hc).
    pose proof (live_readers_insert _ _ _ r' Hr) as Hi. rewrite Hbud in Hi. cbn in Hi.
    split; [|by apply Hf']. unfold budget_of, budget_at. cbn.
    split; [intros Hne; rewrite Hl by done; destruct (has_budget r'); cbn in *; lia|].
    split; [destruct (has_budget r'); lia|]. split; [done|]. split; [done|]. by apply Forall_insert.
  - cbn in H. inv_res H. simplify_eq. b2p. destruct Hb as (Hl & Hm & Ha & Ho & Hsm). split; [|by destruct Hf].
    unfold budget_of, budget_at. cbn. split; [intros Hne; rewrite Hl by done; lia|].
    split; [lia|]. split; [lia|done].
Qed.
Lemma viewer_new_budget b c : view_budget (viewer_new b c).
Proof.
  apply budget_of_iff. split.
  - split; [cbn; by rewrite map_size_empty|]. split; [done|]. split; [done|]. split; [apply ordered_default_inv|done].
  - split; cbn; try done. intros r p Hr. by apply elem_of_nil in Hr.
Qed.
(** The loop waits only when the next frame is missing. *)
Definition waits_ok (v : Viewer) : Prop :=
  vw_pc v = VSelect -> holds_next (or_next (vw_ordered v)) (or_frames (vw_ordered v)) = false.
Lemma view_step_waits e v v' o : waits_ok v -> view_step e v = Some (v', o) -> waits_ok v'.
Proof.
  intros Hw H. destruct e as [e|i e|].
  - cbn in H. unfold loop_step, loop_request, take_frame in H. intros Hp.
    destruct e, (vw_pc v) eqn:Epc; try done; repeat case_match; simplify_eq/=; try done.
    all: repeat case_match; try done.
    unfold ordered_pop in *. destruct (or_next (vw_ordered v)); [|done]. cbn. by destruct (_ !! _).
  - apply view_read_one in H as (r & r' & _ & _ & _ & ->). exact Hw.
  - cbn in H. inv_res H. simplify_eq. exact Hw.
Qed.

Lemma view_run_chain b c l v os : view_run l (viewer_new b c) = Some (v, os) -> view_chain os v.
Proof. apply view_run_ind; [apply viewer_new_chain|apply view_step_chain]. Qed.
Lemma view_fed_in_order b c l v os fed :
  view_run l (viewer_new b c) = Some (v, os) -> dv_decoder (vw_delivery v) = Some fed ->
  fed_in_order fed /\ forall p, p ∈ fed -> SComplete p ∈ os.
Proof.
  intros H Hfed. destruct (view_run_chain _ _ _ _ _ H) as [Hd _ _ _ _].
  split; [|intros p; by apply (fa_decoder _ _ (view_run_frames _ _ _ _ _ H))].
  unfold chained in Hd. assert (exists n, delivery_ok n (vw_delivery v)) as (n & Hc & _)
    by (destruct (vw_pc v); eauto). by rewrite Hfed in Hc.
Qed.

(** ** Theorems *)

(** C24: Whatever arrives in whatever order, and however streams, timers and the native decoder
    behave, every native decoder of a session is fed a keyframe first and then frame after
    frame without a gap, and nothing that did not arrive complete; the frames announced to
    the application have strictly increasing numbers. *)
Theorem decoder_fed_in_order relay receipts l v os :
  view_run l (viewer_new relay receipts) = Some (v, os) ->
  (forall fed, dv_decoder (vw_delivery v) = Some fed ->
     fed_in_order fed /\ forall p, p ∈ fed -> SComplete p ∈ os) /\
  StronglySorted Z.lt (headers os).
Proof.
  intros H. split; [intros fed; by apply (view_fed_in_order _ _ _ _ _ _ H)|].
  by destruct (view_run_chain _ _ _ _ _ H).
Qed.

End ViewInv.

(** ** A relayed session *)

Fixpoint relay_all (l : list (Produced * bool * Native * Z)) (r : RelayDecoder) : RelayDecoder :=
  match l with
  | [] => r
  | (p, opens, native, now) :: l => relay_all l (relay_push p opens native now r).1
  end.
Definition relay_ok (r : RelayDecoder) : Prop :=
  match rd_next_seq r with
  | Some n => delivery_ok n (rd_delivery r)
  | None => exists n, delivery_ok n (invalidate (rd_delivery r)) /\ dv_waiting_keyframe (rd_delivery r) = true
  end.
Lemma relay_push_ok p opens native now r :
  pr_seq p <= u64_max -> relay_ok r -> relay_ok (relay_push p opens native now r).1.
Proof.
  intros Hmax H. unfold relay_push. destruct (_ || _) eqn:Eg; [done|]. b2p.
  set (d := if is_some_and _ _ then _ else _).
  assert (Hd : delivery_ok (pr_seq p) d).
  { unfold d, relay_ok in *. destruct (rd_next_seq r) as [n|]; cbn in *.
    - destruct (pr_seq p =? n) eqn:E; b2p; cbn; [by rewrite E|by eapply invalidate_ok].
    - destruct H as (n & [Hc _] & Hw). split; [done|]. by rewrite Hw. }
  pose proof (delivery_decode_ok p opens native d Hd) as Hk.
  assert (checked_add64 (pr_seq p) 1 = Some (pr_seq p + 1)) as ->
    by (unfold checked_add64; by rewrite (proj2 (Z.leb_le _ _)) by lia).
  destruct (delivery_decode p opens native d) as [d' []]; [done..|]. by case_match.
Qed.
Lemma relay_all_ok l r :
  Forall (fun x => pr_seq x.1.1.1 <= u64_max) l -> relay_ok r -> relay_ok (relay_all l r).
Proof.
  intros Hl. revert r. induction Hl as [|[[[p opens] native] now] l Hp _ IH]; intros r Hr; cbn; [done|].
  by apply IH, relay_push_ok.
Qed.

(** The decoder behind a relay keeps the same discipline, whatever frames the relay passes on
    and whatever it leaves out: its native decoder is fed a keyframe and then frame after
    frame without a gap. *)
Theorem relay_decoder_in_order l fed :
  Forall (fun x => pr_seq x.1.1.1 <= u64_max) l ->
  dv_decoder (rd_delivery (relay_all l relay_new)) = Some fed -> fed_in_order fed.
Proof.
  intros Hl Hd. assert (relay_ok (relay_all l relay_new)) as H by (apply relay_all_ok; [done|by exists 0]).
  unfold relay_ok in H. destruct (rd_next_seq _); [destruct H as [H _]|destruct H as (? & [H _] & _)]; cbn in H; by rewrite Hd in H.
Qed.

Module ViewingWitness.
#[local] Instance toy_hash : Blake3 := toy_blake3.
Definition frame (seq : Z) (key : bool) : Produced :=
  mkProduced (mkHeader seq 0 0 0 key H264 2 2) (bs "data").
(** One stream read, ordered and decoded. *)
Definition one_stream (p : Produced) : list ViewEvent :=
  [VLoop (LPop 0); VLoop (LStream true); VReader 0 (ReHeader (pr_header p)); VReader 0 (ReChunk (pr_payload p));
   VReader 0 ReEnd; VReader 0 ReQueued; VLoop (LPop 0); VLoop (LJoin 0 0 true 0); VLoop (LPop 0);
   VLoop (LDecoded true (NImage 2 2) true 0)].
Definition two_streams : list ViewEvent := one_stream (frame 0 true) ++ one_stream (frame 1 false).
Definition watched (l : list ViewEvent) : Viewer * list Seen :=
  default (viewer_new false true, []) (view_run l (viewer_new false true)).
Lemma two_streams_run :
  view_run two_streams (viewer_new false true) = Some ((watched two_streams).1, (watched two_streams).2).
Proof. by vm_compute. Qed.
Lemma idle_run :
  view_run [VLoop (LPop 0)] (viewer_new false true)
  = Some ((watched [VLoop (LPop 0)]).1, (watched [VLoop (LPop 0)]).2).
Proof. by vm_compute. Qed.

Lemma decoder_fed_in_order_witness :
  dv_decoder (vw_delivery (watched two_streams).1) = Some [frame 0 true; frame 1 false] /\
  StronglySorted Z.lt (headers (watched two_streams).2).
Proof.
  split; [by vm_compute|]. apply (decoder_fed_in_order false true two_streams (watched two_streams).1).
  apply two_streams_run.
Defined.
Lemma relay_decoder_in_order_witness : fed_in_order [frame 0 true; frame 1 false].
Proof.
  apply (relay_decoder_in_order [(frame 0 true, true, NImage 2 2, 0); (frame 1 false, true, NNothing, 0)]).
  - repeat constructor; by vm_compute.
  - by vm_compute.
Defined.
End ViewingWitness.
