(* ===== verification/Playback.v ===== *)
(** * Frames end to end

    What [Serving] and [Viewing] do together: frames that arrive out of order are played in
    order, the decoder of a viewer, direct or relayed, sees an uninterrupted stretch of what
    the serving side put on the wire, and the receipts a viewer returns are those the serving
    side waits for. *)

From S2P Require Import Prelude Crypto Agent MediaGate Serving Delivery Viewing.

(** ** Reordering loses nothing within its window *)

(** The loop of [receive_frames] empties the order before it waits. *)
Fixpoint play (fuel : nat) (now : Z) (o : Ordered) : list Produced * Ordered :=
  match fuel with
  | O => ([], o)
  | S fuel =>
      match ordered_pop now o with
      | None => ([], o)
      | Some (p, o) => let '(l, o) := play fuel now o in (p :: l, o)
      end
  end.
Definition play_all (now : Z) (o : Ordered) : list Produced * Ordered :=
  play (S (size (or_frames o))) now o.
Fixpoint arrive (now : Z) (l : list Produced) (o : Ordered) : list Produced * Ordered :=
  match l with
  | [] => ([], o)
  | p :: l =>
      let '(out1, o) := play_all now (ordered_push now p o) in
      let '(out2, o) := arrive now l o in (out1 ++ out2, o)
  end.

Lemma size_list_to_set_le (l : list Z) : (size (list_to_set l : gset Z) <= length l)%nat.
Proof.
  induction l as [|x l IH]; cbn; [by rewrite size_empty|]. rewrite size_union_alt, size_singleton.
  assert (size ((list_to_set l : gset Z) ∖ {[x]}) <= size (list_to_set l : gset Z))%nat
    by (apply subseteq_size; set_solver). lia.
Qed.

Section Window.
Variables (k : Z) (frames : list Produced).
(** Differences numbered from [k] on. *)
Hypothesis numbered : forall i p, frames !! i = Some p -> pr_seq p = k + Z.of_nat i.
Hypothesis deltas : forall p, p ∈ frames -> pr_key p = false.
Hypothesis in_range : k + zlen frames <= u64_max.

(** After the frames of [a] arrived: [m] is the first missing one and what came after it waits. *)
Definition window (a : list Produced) (m : Z) (o : Ordered) : Prop :=
  or_next o = Some m /\
  (forall j q, or_frames o !! j = Some q <-> q ∈ a /\ pr_seq q = j /\ m <= j).

Lemma frame_unique p q : p ∈ frames -> q ∈ frames -> pr_seq p = pr_seq q -> p = q.
Proof.
  intros [i Hi]%list_elem_of_lookup [j Hj]%list_elem_of_lookup E.
  rewrite (numbered _ _ Hi), (numbered _ _ Hj) in E. assert (i = j) as -> by lia. congruence.
Qed.
Lemma frame_range p : p ∈ frames -> k <= pr_seq p < u64_max.
Proof.
  intros [i Hi]%list_elem_of_lookup. rewrite (numbered _ _ Hi). apply lookup_lt_Some in Hi. unfold zlen in *. lia.
Qed.
Lemma frame_at m : k <= m < k + zlen frames -> exists p, p ∈ frames /\ pr_seq p = m.
Proof.
  intros Hm. unfold zlen in Hm. destruct (lookup_lt_is_Some_2 frames (Z.to_nat (m - k))) as [p Hp]; [lia|].
  exists p. split; [by eapply list_elem_of_lookup_2|]. rewrite (numbered _ _ Hp). lia.
Qed.

Lemma window_size a m o :
  window a m o -> or_frames o !! m = None ->
  Z.of_nat (size (or_frames o)) <= zlen (filter (fun q => m < pr_seq q) a).
Proof.
  intros [_ Hw] Hm. rewrite <-size_dom. unfold zlen. apply inj_le. rewrite <-(length_fmap pr_seq).
  etrans; [|apply size_list_to_set_le].
  apply subseteq_size. intros j [q Hq]%elem_of_dom.
  apply elem_of_list_to_set, list_elem_of_fmap. exists q. pose proof Hq as (Ha & Hs & Hle)%Hw. split; [done|].
  apply list_elem_of_filter. split; [|done]. destruct (decide (j = m)); [congruence|lia].
Qed.

(** The next frame in order is played as long as it is there. *)
Lemma play_window fuel now a m o :
  window a m o -> (forall p, p ∈ a -> p ∈ frames) -> (size (or_frames o) < fuel)%nat -> k <= m ->
  exists m', m <= m' /\ window a m' (play fuel now o).2 /\ or_frames (play fuel now o).2 !! m' = None /\
    (play fuel now o).1 = take (Z.to_nat (m' - m)) (drop (Z.to_nat (m - k)) frames) /\
    (forall q, q ∈ frames -> m <= pr_seq q < m' -> q ∈ a).
Proof.
  revert m o. induction fuel as [|fuel IH]; intros m o Hw Ha Hf Hk; [lia|]. cbn. destruct (Hw) as [Hn Hw'].
  unfold ordered_pop. rewrite Hn. destruct (or_frames o !! m) as [p|] eqn:Ep.
  2: { exists m. rewrite Z.sub_diag. cbn. split; [done|]. split; [done|]. split; [done|]. split; [done|lia]. }
  pose proof Ep as (Hpa & Hpm & _)%Hw'. pose proof (Ha _ Hpa) as Hpf. pose proof (frame_range _ Hpf).
  set (o1 := mkOrdered _ _ _).
  destruct (IH (m + 1) o1) as (m' & Hm' & Hw1 & Hno & Hout & Hin); [|done| |lia|].
  - split; [cbn; unfold checked_add64; by rewrite (proj2 (Z.leb_le _ _)) by lia|]. intros j q. cbn.
    rewrite lookup_delete_Some, Hw'. split; [intros (? & ? & ? & ?)|intros (? & ? & ?)]; repeat split; try done; lia.
  - cbn. rewrite map_size_delete_Some by (by rewrite Ep).
    assert (size (or_frames o) <> 0)%nat by (intros E%map_size_empty_inv; rewrite E in Ep; by rewrite lookup_empty in Ep). lia.
  - exists m'. destruct (play fuel now o1) as [l o2]. cbn in *. split; [lia|]. split; [done|]. split; [done|]. split.
    2: { intros q Hq Hs. destruct (decide (pr_seq q = m)); [|apply Hin; [done|lia]].
         by rewrite (frame_unique q p) by (done || congruence). }
    replace (Z.to_nat (m' - m)) with (S (Z.to_nat (m' - (m + 1)))) by lia.
    apply list_elem_of_lookup in Hpf as [i Hi]. pose proof (numbered _ _ Hi) as Hs.
    replace (Z.to_nat (m - k)) with i by lia. rewrite (drop_S frames p i Hi). cbn. f_equal.
    rewrite Hout. by replace (Z.to_nat (m + 1 - k)) with (S i) by lia.
Qed.

(** No frame is overtaken by more than three later ones. *)
Definition overtaken_by_three (l : list Produced) : Prop :=
  forall a p c, l = a ++ p :: c -> zlen (filter (fun q => pr_seq p < pr_seq q) a) <= 3.

Lemma frames_nodup : NoDup frames.
Proof.
  apply NoDup_alt. intros i j p Hi Hj. pose proof (numbered _ _ Hi). pose proof (numbered _ _ Hj). lia.
Qed.
Lemma push_window now a m o p c :
  window a m o -> or_frames o !! m = None -> k <= m ->
  (forall q, q ∈ frames -> pr_seq q < m -> q ∈ a) ->
  a ++ p :: c ≡ₚ frames -> overtaken_by_three (a ++ p :: c) ->
  window (a ++ [p]) m (ordered_push now p o).
Proof.
  intros Hw Hno Hk Hbelow Hperm Hover. destruct (Hw) as [Hn Hw'].
  assert (Hpf : p ∈ frames) by (rewrite <-Hperm; set_solver). pose proof (frame_range _ Hpf) as Hr.
  pose proof frames_nodup as Hnd. rewrite <-Hperm in Hnd. apply NoDup_app in Hnd as (_ & Hdis & _).
  assert (Hpa : p ∉ a) by (intros Hp; apply (Hdis p Hp); set_solver).
  assert (Hge : m <= pr_seq p) by (destruct (decide (pr_seq p < m)); [by destruct Hpa; apply Hbelow|lia]).
  assert (Hsz : Z.of_nat (size (<[pr_seq p:=p]> (or_frames o))) <=
                3 + Z.b2z (holds_next (Some m) (<[pr_seq p:=p]> (or_frames o)))).
  { pose proof (window_size a m o Hw Hno) as Hs. cbn. rewrite lookup_insert.
    rewrite map_size_insert_None.
    2: { destruct (or_frames o !! pr_seq p) as [q|] eqn:E; [|done]. apply Hw' in E as (Hq & Hqs & _).
         destruct Hpa. rewrite <-(frame_unique q p); [done| |done|done]. rewrite <-Hperm. set_solver. }
    case_decide as E; cbn.
    - specialize (Hover a p c eq_refl). rewrite E in Hover. lia.
    - rewrite Hno. cbn. destruct (frame_at m) as (q & Hq & Hqm).
      { apply list_elem_of_lookup in Hpf as [i Hi]. pose proof (numbered _ _ Hi). apply lookup_lt_Some in Hi.
        unfold zlen. lia. }
      assert (Hqc : q ∈ a ++ p :: c) by (by rewrite Hperm). apply elem_of_app in Hqc as [Hqa|Hqc].
      { exfalso. assert (or_frames o !! m = Some q) by (apply Hw'; repeat split; [done..|lia]). congruence. }
      apply elem_of_cons in Hqc as [->|Hqc]; [done|]. apply list_elem_of_split in Hqc as (c1 & c2 & ->).
      specialize (Hover (a ++ p :: c1) q c2). rewrite filter_app, filter_cons_True, zlen_app, zlen_cons in Hover by lia.
      rewrite Hqm in Hover. pose proof (zlen_nonneg (filter (fun x => m < pr_seq x) c1)).
      rewrite <-app_assoc in Hover. specialize (Hover eq_refl). lia. }
  unfold ordered_push. rewrite Hn. rewrite (proj2 (Z.eqb_neq _ _)) by lia. cbn [is_some_and orb].
  rewrite (proj2 (Z.ltb_ge _ _)) by lia. rewrite (deltas p Hpf). cbn [andb]. rewrite Hn. split; [done|]. cbn [or_frames].
  rewrite evict_id by done. intros j q. rewrite lookup_insert. case_decide as E.
  - split; [intros [= <-]; set_solver|]. intros (Hq & Hqs & _). f_equal.
    apply elem_of_app in Hq as [Hq|Hq%list_elem_of_singleton]; [|done]. symmetry. apply frame_unique; [|done|congruence].
    rewrite <-Hperm. set_solver.
  - rewrite Hw'. set_solver.
Qed.
Lemma arrive_window now a c m o :
  window a m o -> or_frames o !! m = None -> k <= m -> (forall q, q ∈ frames -> pr_seq q < m -> q ∈ a) ->
  a ++ c ≡ₚ frames -> overtaken_by_three (a ++ c) ->
  (arrive now c o).1 = drop (Z.to_nat (m - k)) frames.
Proof.
  revert a m o. induction c as [|p c IH]; intros a m o Hw Hno Hk Hbelow Hperm Hover; cbn [arrive].
  - rewrite app_nil_r in Hperm. rewrite drop_ge; [done|].
    destruct (decide (m < k + zlen frames)); [|unfold zlen in *; lia].
    destruct (frame_at m) as (q & Hq & Hqm); [lia|]. exfalso.
    assert (or_frames o !! m = Some q); [|congruence]. apply Hw. rewrite Hperm. repeat split; [done..|lia].
  - pose proof (push_window now a m o p c Hw Hno Hk Hbelow Hperm Hover) as Hp.
    destruct (play_window (S (size (or_frames (ordered_push now p o)))) now (a ++ [p]) m _ Hp)
      as (m' & Hm & Hw' & Hno' & Hout & Hin); [|lia|done|].
    { intros q Hq. rewrite <-Hperm. set_solver. }
    unfold play_all. destruct (play _ now (ordered_push now p o)) as [out1 o1]. cbn in Hw', Hno', Hout.
    specialize (IH (a ++ [p]) m' o1 Hw' Hno'). rewrite <-app_assoc in IH. cbn in IH.
    destruct (arrive now c o1) as [out2 o2]. cbn in *. rewrite IH, Hout; [|lia| |done|done].
    + replace (Z.to_nat (m' - k)) with (Z.to_nat (m - k) + Z.to_nat (m' - m))%nat by lia.
      by rewrite <-drop_drop, take_drop.
    + intros q Hq Hs. destruct (decide (pr_seq q < m)); [apply elem_of_app; left; by apply Hbelow|].
      apply Hin; [done|lia].
Qed.
End Window.

(** Reordering within the window is invisible: when the differences after a keyframe arrive
    in any order in which none is overtaken by more than three later ones, the viewer plays
    all of them, once, in the order of their numbers; nothing is lost or evicted. *)
Theorem reordering_complete now key frames l :
  pr_key key = true -> (forall p, p ∈ frames -> pr_key p = false) ->
  (forall i p, frames !! i = Some p -> pr_seq p = pr_seq key + 1 + Z.of_nat i) ->
  0 <= pr_seq key -> pr_seq key + 1 + zlen frames <= u64_max ->
  l ≡ₚ frames -> overtaken_by_three l ->
  (arrive now (key :: l) ordered_default).1 = key :: frames.
Proof.
  intros Hk Hd Hn H0 Hr Hl Ho. pose proof (zlen_nonneg frames) as Hz.
  set (o := mkOrdered (Some (pr_seq key + 1)) ∅ None).
  assert (play_all now (ordered_push now key ordered_default) = ([key], o)) as E.
  { unfold ordered_push. cbn [or_next ordered_default is_some_and is_none_or]. rewrite Hk.
    rewrite (proj2 (Z.eqb_neq _ _)) by lia. cbn -[evict u64_max]. rewrite map_filter_empty, insert_empty.
    rewrite evict_id by (rewrite map_size_singleton, lookup_singleton_eq; cbn; lia).
    unfold play_all. cbn [or_frames]. rewrite map_size_singleton. cbn -[u64_max]. unfold ordered_pop at 1. cbn -[u64_max].
    rewrite lookup_singleton_eq, delete_singleton_eq. unfold checked_add64.
    rewrite (proj2 (Z.leb_le _ _)) by lia. rewrite bool_decide_eq_true_2 by done. cbn. by rewrite lookup_empty. }
  cbn [arrive]. rewrite E.
  pose proof (arrive_window (pr_seq key + 1) frames Hn Hd Hr now [] l (pr_seq key + 1) o) as Ha.
  destruct (arrive now l o) as [out o']. cbn. f_equal. rewrite Z.sub_diag in Ha. apply Ha; try done.
  - split; [done|]. intros j q. cbn. rewrite lookup_empty. split; [done|]. by intros [?%elem_of_nil _].
  - intros q [i Hi]%list_elem_of_lookup Hs. pose proof (Hn _ _ Hi). lia.
Qed.

(** ** Frame numbers on the wire *)

(** The frames on their way to the wire, in order. *)
Definition flow (m : Media) : list Frame :=
  (match md_wpc m with
   | WGot f | WPace f | WAdmit f => [f]
   | WBody _ _ h | WDigest _ _ h | WFinish _ _ h => held_frames h
   | _ => []
   end) ++ option_list (md_pending m) ++ sh_queue (md_shared m).
Definition numbers (os : list Out) (m : Media) : list Z :=
  ((fun gp => pr_seq gp.2) <$> opened os) ++ (fr_seq <$> flow m).

Lemma StronglySorted_snoc l n :
  StronglySorted Z.lt l -> Forall (fun x => x < n) l -> StronglySorted Z.lt (l ++ [n]).
Proof.
  induction 1 as [|x l Hs IH Hx]; intros Hb; cbn; [repeat constructor|]. apply Forall_cons in Hb as [? Hb].
  constructor; [by apply IH|]. apply Forall_app. split; [done|by constructor].
Qed.

Section Numbers.
Context `{HB : Blake3}.

Lemma numbers_flow os o m m' :
  opened o = [] -> flow m' `sublist_of` flow m -> numbers (os ++ o) m' `sublist_of` numbers os m.
Proof.
  intros Ho Hf. unfold numbers, opened. rewrite omap_app. fold (opened os) (opened o). rewrite Ho, app_nil_r.
  apply sublist_app; [done|]. by apply sublist_map.
Qed.
Lemma drained_flow m pc :
  md_shared (drained m) = md_shared m /\ md_pending (drained m) = md_pending m /\ md_wpc (set_wpc pc (drained m)) = pc.
Proof. unfold drained. by destruct (drain_frame_receipts _ _ _) as [[? ?] ?]. Qed.
Ltac shorter :=
  unfold flow; cbn;
  repeat match goal with H : _ = _ |- _ => progress rewrite ?H end;
  cbn; repeat first [reflexivity|apply sublist_nil_l|apply sublist_cons|apply sublist_inserts_l].
Ltac leaves := simplify_eq; split; [done|]; shorter.
Ltac leave_early := destruct (negb _); simplify_eq; apply numbers_flow; [done|]; shorter.
Lemma writer_step_numbers os e m m' o :
  Inv os m -> writer_step e m = Some (m', o) -> numbers (os ++ o) m' `sublist_of` numbers os m.
Proof.
  intros Hi H. pose proof (inv_pend Hi) as Hp. unfold writer_step in H.
  destruct (drained_flow m WTop) as (Es & Ep & _).
  destruct e, (md_wpc m) eqn:Ew; try done; cbn in Hp; try specialize (Hp eq_refl).
  - destruct (negb _); simplify_eq; apply numbers_flow; try done; destruct (md_pending m) eqn:E; try case_match; shorter.
  - destruct (_ <=? _); simplify_eq; [apply numbers_flow; [done|]; shorter|].
    rewrite Ep in H. destruct (md_pending m) eqn:E; simplify_eq; (apply numbers_flow; [done|]); shorter.
  - destruct (sh_queue (md_shared m)) eqn:E; simplify_eq. apply numbers_flow; [done|]. shorter.
  - simplify_eq. apply numbers_flow; [done|]. shorter.
  - destruct (chain_admit _ _) as [c []]; simplify_eq; [|apply numbers_flow; [done|]; shorter].
    unfold numbers, opened. rewrite omap_app, fmap_app, <-app_assoc. unfold flow. cbn. by rewrite Ew.
  - destruct (forallb _ _); simplify_eq. apply numbers_flow; [done|]. shorter.
  - simplify_eq. apply numbers_flow; [done|]. shorter.
  - leave_early.
  - leave_early.
  - leave_early.
  - leave_early.
  - leave_early.
  - leave_early.
  - destruct (md_acks m !! i) as [t|]; [|done]. destruct (negb _); [done|].
    destruct (join_receipt _ _ _). simplify_eq. apply numbers_flow; [done|]. shorter.
  - destruct (sh_queue _) eqn:E; [|done]. destruct (md_ppc m); simplify_eq. apply numbers_flow; [done|]. shorter.
  - destruct (negb _); simplify_eq; [apply numbers_flow; [done|]; shorter|].
    destruct (pr_empty _); simplify_eq; (apply numbers_flow; [done|]); [shorter|]. destruct wait; shorter.
Qed.
Lemma send_step_numbers os e m m' o :
  Inv os m -> send_step e m = Some (m', o) -> numbers (os ++ o) m' `sublist_of` numbers os m.
Proof.
  intros Hi H. pose proof (inv_pend Hi) as Hp. unfold send_step in H.
  assert (opened o = [] /\ flow m' `sublist_of` flow m) as [? ?]; [|by apply numbers_flow].
  destruct e as [| |i| |w|[]| |], (md_wpc m) as [| | | | | | |f|f t|f t h|f t h|f t h| | |] eqn:Ew; try done;
    cbn in Hp; specialize (Hp eq_refl).
  - destruct (sh_receipts _) as [rs|]; [destruct (register _ _) as [rs'|]|]; simplify_eq; (split; [done|]); shorter.
  - destruct (sh_receipts _) as [rs|]; simplify_eq; (split; [done|]); shorter.
  - destruct h; try done. destruct (sh_queue _) eqn:E, (md_ppc m); simplify_eq. split; [done|]. shorter.
  - leaves.
  - leaves.
  - destruct h; simplify_eq; (split; [done|]); shorter.
  - leaves.
  - leaves.
  - leaves.
  - leaves.
  - leaves.
  - leaves.
  - destruct h; try done. destruct (sh_queue _) eqn:E; [done|].
    destruct (_ || _); simplify_eq; (split; [done|]); shorter.
  - leaves.
  - leaves.
Qed.

Definition numbered_ok (os : list Out) (m : Media) : Prop :=
  StronglySorted Z.lt (numbers os m) /\ Forall (fun n => n < seq_bound m) (numbers os m).
Lemma numbered_shorter os os' m m' :
  numbered_ok os m -> numbers os' m' `sublist_of` numbers os m -> seq_bound m <= seq_bound m' ->
  numbered_ok os' m'.
Proof.
  intros [Hs Hb] Hsub Hle. split; [by eapply StronglySorted_sublist|]. eapply Forall_sublist; [exact Hsub|].
  eapply Forall_impl; [exact Hb|]. cbn. lia.
Qed.
Lemma producer_step_numbers os e m m' o :
  Inv os m -> numbered_ok os m -> producer_step e m = Some (m', o) -> numbered_ok (os ++ o) m'.
Proof.
  intros Hi Hn H. pose proof (inv_made Hi) as Hm. unfold producer_step in H.
  destruct (e, md_ppc m) as [[|p t|b|] pc] eqn:Ee; injection Ee as -> Epc; rewrite Epc in *.
  all: assert (Hsame : forall m1 o1, opened o1 = [] -> flow m1 = flow m -> seq_bound m <= seq_bound m1 ->
         numbered_ok (os ++ o1) m1)
    by (intros m1 o1 Ho Hf Hb; eapply numbered_shorter; [done| |done]; apply numbers_flow; [done|by rewrite Hf]).
  all: unfold seq_bound in Hsame at 1; rewrite Epc in Hsame.
  all: destruct pc; try done.
  all: try (repeat case_match; simplify_eq; (apply Hsame; [done|done|unfold seq_bound; cbn; lia])).
  specialize (Hm _ eq_refl). change (fr_seq f = md_seq m) in Hm.
  assert (seq_bound (set_producer (next_number (md_seq m)).1 (next_number (md_seq m)).2 (md_pgen m) m) = md_seq m + 1) as Hb.
  { unfold next_number, seq_bound, checked_add64. cbn -[u64_max]; destruct (md_seq m + 1 <=? u64_max); reflexivity. }
  destruct (_ || _); simplify_eq.
  - apply Hsame; [by case_match|done|]. unfold seq_bound in *. cbn in *. lia.
  - destruct Hn as [Hs Hb']. unfold numbered_ok. unfold seq_bound in Hb' at 1. rewrite Epc in Hb'. rewrite app_nil_r.
    unfold numbers, flow in *. cbn in *. rewrite !app_assoc, fmap_app. rewrite !app_assoc in *. cbn. rewrite Hm. split.
    + by apply StronglySorted_snoc.
    + apply Forall_app. unfold seq_bound in *. cbn in *. rewrite Hb. split; [|constructor; [lia|done]].
      eapply Forall_impl; [exact Hb'|]. cbn. lia.
Qed.
Lemma hold_step_queue h s h' s' : hold_step h s = (h', s') -> sh_queue s' = sh_queue s.
Proof. unfold hold_step. intros H. repeat case_match; simplify_eq/=; done. Qed.
Lemma media_step_numbers os e m m' o :
  Inv os m -> numbered_ok os m -> media_step e m = Some (m', o) -> numbered_ok (os ++ o) m'.
Proof.
  intros Hi Hn H. assert (Hsame : forall m1 o1, opened o1 = [] -> flow m1 = flow m ->
     seq_bound m1 = seq_bound m -> numbered_ok (os ++ o1) m1)
    by (intros m1 o1 Ho Hf Hb; eapply numbered_shorter; [done| |lia]; apply numbers_flow; [done|by rewrite Hf]).
  destruct e; cbn in H.
  - by eapply producer_step_numbers.
  - destruct (writer_step e m) as [[m1 o1]|] eqn:E.
    + injection H as <- <-. eapply numbered_shorter; [done|by eapply writer_step_numbers|].
      unfold seq_bound.
      assert (md_ppc m1 = md_ppc m /\ md_seq m1 = md_seq m) as [-> ->]; [|done].
      unfold writer_step, drained in E. repeat case_match; simplify_eq/=; done.
    + eapply numbered_shorter; [done|by eapply send_step_numbers|]. unfold seq_bound.
      assert (md_ppc m' = md_ppc m /\ md_seq m' = md_seq m) as [-> ->]; [|done].
      unfold send_step in H. repeat case_match; simplify_eq/=; done.
  - destruct (md_acks m !! i); [|done]. unfold task_step, task_outcome in H.
    apply Hsame; repeat case_match; simplify_eq/=; try done; unfold flow; cbn; f_equal;
      match goal with E : hold_step _ _ = _ |- _ => by apply hold_step_queue in E as -> end.
  - destruct (sh_retiring _ !! i) as [h|]; [|done]. destruct (hold_step _ _) as [h1 s1] eqn:Eh. simplify_eq.
    apply Hsame; [done| |done]. unfold flow. cbn. by rewrite (hold_step_queue _ _ _ _ Eh).
  - destruct (repair_request _). simplify_eq. by apply Hsame.
  - destruct (sh_receipts _) as [rs|]; [|done]. destruct (confirm _ _ _ _). simplify_eq. by apply Hsame.
Qed.
Lemma opened_increasing b l m os :
  media_run l (media_new b) = Some (m, os) -> StronglySorted Z.lt ((fun gp => pr_seq gp.2) <$> opened os).
Proof.
  intros H. assert (numbered_ok os m) as [Hs _].
  { revert H. apply (media_run_ind numbered_ok); [by repeat constructor|]. intros. by eapply media_step_numbers. }
  eapply StronglySorted_sublist; [|exact Hs]. apply sublist_inserts_r. reflexivity.
Qed.
End Numbers.

(** ** From the wire to the decoder *)

Section EndToEnd.
Context `{HB : Blake3}.

(** Numbers that rise strictly identify a frame and its place. *)
Lemma rising_unique {A} (f : A -> Z) l x y :
  StronglySorted Z.lt (f <$> l) -> x ∈ l -> y ∈ l -> f x = f y -> x = y.
Proof.
  induction l as [|z l IH]; cbn; intros Hs Hx Hy E; [by apply elem_of_nil in Hx|].
  apply StronglySorted_inv in Hs as [Hs Hz]. rewrite Forall_fmap, Forall_forall in Hz. cbn in Hz.
  apply elem_of_cons in Hx as [->|Hx]; apply elem_of_cons in Hy as [->|Hy]; [done| | |by apply IH].
  - specialize (Hz _ Hy). cbn in Hz. lia.
  - specialize (Hz _ Hx). cbn in Hz. lia.
Qed.
Lemma rising_next {A} (f : A -> Z) a p b q :
  StronglySorted Z.lt (f <$> (a ++ p :: b)) -> q ∈ a ++ p :: b -> f q = f p + 1 ->
  exists b', b = q :: b'.
Proof.
  induction a as [|z a IH]; cbn; intros Hs Hq E; apply StronglySorted_inv in Hs as [Hs Hz];
    rewrite Forall_fmap, Forall_forall in Hz; cbn in Hz.
  - apply elem_of_cons in Hq as [->|Hq]; [lia|]. destruct b as [|x b]; [by apply elem_of_nil in Hq|]. exists b. f_equal.
    apply elem_of_cons in Hq as [->|Hq]; [done|]. exfalso. cbn in Hs. apply StronglySorted_inv in Hs as [_ Hx].
    rewrite Forall_fmap, Forall_forall in Hx. specialize (Hx _ Hq). specialize (Hz x). cbn in *. set_solver by lia.
  - apply elem_of_cons in Hq as [->|Hq]; [|by apply IH]. exfalso. specialize (Hz p). cbn in Hz.
    rewrite E in Hz. assert (f p + 1 < f p); [apply Hz; set_solver|lia].
Qed.
(** A gapless selection from such a list is a stretch of it. *)
Lemma gapless_infix (L fed : list Produced) :
  StronglySorted Z.lt (pr_seq <$> L) -> (forall p, p ∈ fed -> p ∈ L) ->
  (forall i p q, fed !! i = Some p -> fed !! S i = Some q -> pr_seq q = pr_seq p + 1) ->
  exists a c, L = a ++ fed ++ c.
Proof.
  intros Hs. induction fed as [|q fed IH] using rev_ind; intros Hin Hc; [by exists [], L|].
  destruct IH as (a & c & ->); [set_solver| |].
  { intros i p r Hp Hr. apply (Hc i); rewrite lookup_app_l; try done; by eapply lookup_lt_Some. }
  destruct fed as [|p fed _] using rev_ind.
  - destruct (list_elem_of_split (a ++ [] ++ c) q) as (a' & c' & ->); [apply Hin; set_solver|]. by exists a', c'.
  - rewrite <-!app_assoc in *. cbn in *. rewrite (app_assoc a) in Hs.
    destruct (rising_next pr_seq (a ++ fed) p c q) as (c' & ->); [done| | |].
    + rewrite <-app_assoc. apply Hin. set_solver.
    + apply (Hc (length fed)); [by rewrite list_lookup_middle|].
      rewrite lookup_app_r by lia. by replace (S (length fed) - length fed)%nat with 1%nat by lia.
    + exists a, c'. by rewrite <-app_assoc.
Qed.

Lemma decode_infix a fed c :
  is_Some (decode None (a ++ fed ++ c)) -> (forall g p, head fed = Some (g, p) -> pr_key p = true) ->
  is_Some (decode None fed).
Proof.
  rewrite !decode_app. destruct (decode None a) as [ref|]; [|by intros []]. rewrite decode_app.
  intros Hd Hk. destruct fed as [|[g p] fed]; [done|]. cbn in *. rewrite (Hk g p eq_refl) in *. cbn in *.
  by destruct (decode (Some (g, pr_seq p + 1)) fed); [|destruct Hd].
Qed.

(** What a viewer reads to the end of a stream is a frame the serving side opened it for. *)
Definition streams_faithful (os : list Out) (seen : list Seen) : Prop :=
  forall p, SComplete p ∈ seen -> exists g, (g, p) ∈ opened os.

(** The frames that got a stream. *)
Definition sent (os : list Out) (f : Frame) : Prop := exists g, (g, fr_produced f) ∈ opened os.
Definition writer_sent (pc : WriterPc) : option Frame :=
  match pc with WRegister f | WHead f _ | WBody f _ _ | WDigest f _ _ | WFinish f _ _ => Some f | _ => None end.
Definition all_sent (os : list Out) (m : Media) : Prop :=
  (forall f, writer_sent (md_wpc m) = Some f -> sent os f) /\ Forall (fun t => sent os (tk_frame t)) (md_acks m) /\
  (forall f b r, OReceipt f b r ∈ os -> sent os f).
Lemma sent_more os o f : sent os f -> sent (os ++ o) f.
Proof. intros [g Hg]. exists g. unfold opened. rewrite omap_app. set_solver. Qed.
(** A step that reports no receipt and only lets go of frames. *)
Lemma all_sent_quiet os o m m' :
  all_sent os m -> (forall f b r, OReceipt f b r ∉ o) ->
  (forall f, writer_sent (md_wpc m') = Some f -> sent (os ++ o) f) ->
  Forall (fun t => sent (os ++ o) (tk_frame t)) (md_acks m') -> all_sent (os ++ o) m'.
Proof.
  intros (_ & _ & Hr) Ho Hw Ht. split; [done|]. split; [done|].
  intros f b r [Hf|Hf]%elem_of_app; [by apply sent_more, (Hr _ b r)|by apply Ho in Hf].
Qed.
Lemma all_sent_more os o m :
  all_sent os m -> (forall f, writer_sent (md_wpc m) = Some f -> sent (os ++ o) f) /\
                  Forall (fun t => sent (os ++ o) (tk_frame t)) (md_acks m).
Proof.
  intros (Hw & Ht & _). split; [intros f Hf; by apply sent_more, Hw|].
  eapply Forall_impl; [exact Ht|]. intros t. apply sent_more.
Qed.
Lemma producer_step_sent os e m m' o :
  all_sent os m -> producer_step e m = Some (m', o) -> all_sent (os ++ o) m'.
Proof.
  intros Ha H. destruct (all_sent_more os o m Ha) as [Hw Ht].
  assert (md_wpc m' = md_wpc m /\ md_acks m' = md_acks m /\ forall f b r, OReceipt f b r ∉ o) as (E1 & E2 & E3).
  { unfold producer_step in H. repeat case_match; simplify_eq/=; (split; [done|]); (split; [done|]); set_solver. }
  apply (all_sent_quiet os o m); rewrite ?E1, ?E2; done.
Qed.
Lemma writer_step_sent os e m m' o :
  all_sent os m -> writer_step e m = Some (m', o) -> all_sent (os ++ o) m'.
Proof.
  intros Ha H. destruct (all_sent_more os o m Ha) as [Hw Ht].
  pose proof (drained_forall (fun t => sent (os ++ o) (tk_frame t)) m Ht) as Hd.
  unfold writer_step in H. apply (all_sent_quiet os o m); [done|..].
  - repeat case_match; simplify_eq/=; set_solver.
  - intros f Hf. destruct e, (md_wpc m) eqn:Ew; try done; repeat case_match; simplify_eq/=; try done.
    exists (md_wgen m). unfold opened. rewrite omap_app. set_solver.
  - repeat case_match; simplify_eq/=; try done; by apply Forall_delete.
Qed.
Lemma send_step_sent os e m m' o :
  all_sent os m -> send_step e m = Some (m', o) -> all_sent (os ++ o) m'.
Proof.
  intros Ha H. destruct (all_sent_more os o m Ha) as [Hw Ht]. unfold send_step in H.
  apply (all_sent_quiet os o m); [done|..].
  - repeat case_match; simplify_eq/=; set_solver.
  - intros x Hx. destruct e as [| |i| |w|[]| |], (md_wpc m) eqn:Ew; try done;
      repeat case_match; simplify_eq/=; try done; by apply Hw.
  - destruct e as [| |i| |w|[]| |], (md_wpc m) eqn:Ew; try done; repeat case_match; simplify_eq/=; try done.
    all: apply Forall_app; (split; [done|]); apply Forall_singleton; by apply Hw.
Qed.
Lemma task_step_sent e t s t' s' o :
  task_step e t s = Some (t', s', o) ->
  tk_frame t' = tk_frame t /\ forall f b r, OReceipt f b r ∈ o -> f = tk_frame t.
Proof.
  unfold task_step. intros H. repeat case_match; simplify_eq/=; (split; [done|]); set_solver.
Qed.
Lemma media_step_sent os e m m' o :
  all_sent os m -> media_step e m = Some (m', o) -> all_sent (os ++ o) m'.
Proof.
  intros Ha H. destruct (all_sent_more os o m Ha) as [Hw Ht]. destruct e; cbn in H.
  - by eapply producer_step_sent.
  - destruct (writer_step e m) as [[m1 o1]|] eqn:E; [injection H as <- <-; by eapply writer_step_sent|].
    by eapply send_step_sent.
  - destruct (md_acks m !! i) as [t|] eqn:Et; [|done].
    destruct (task_step e t (md_shared m)) as [[[t1 s1] o1]|] eqn:E; [|done]. injection H as <- <-.
    apply task_step_sent in E as [Ef Ho]. pose proof (Forall_lookup_1 _ _ _ _ Ht Et) as Hs. split; [done|]. split.
    + apply Forall_insert; [done|]. by rewrite Ef.
    + intros f b r [Hf|Hf]%elem_of_app; [by apply sent_more, (proj2 (proj2 Ha) _ b r)|]. by rewrite (Ho _ _ _ Hf).
  - repeat case_match; simplify_eq/=; apply (all_sent_quiet os [] m); try done; set_solver.
  - repeat case_match; simplify_eq/=; apply (all_sent_quiet os _ m); try done; set_solver.
  - repeat case_match; simplify_eq/=; apply (all_sent_quiet os _ m); try done; set_solver.
Qed.
(** A receipt the viewer queues is for a frame it read to the end. *)
Definition receipts_read (seen : list Seen) (v : Viewer) : Prop :=
  (forall h body b, RSend h body b ∈ vw_readers v -> SComplete (mkProduced h body) ∈ seen) /\
  (forall seq d b, SReceipt seq d b ∈ seen ->
     exists p, SComplete p ∈ seen /\ pr_seq p = seq /\ d = blake3_hash (pr_payload p)).
Lemma view_step_receipts seen e v v' o :
  receipts_read seen v -> view_step e v = Some (v', o) -> receipts_read (seen ++ o) v'.
Proof.
  intros [Hr Hs] H. destruct e as [e|i e|].
  - assert (Hloop : (forall r, r ∈ vw_readers v' -> r ∈ vw_readers v \/ r = RHead) /\
                    forall seq d b, SReceipt seq d b ∉ o).
    { cbn in H. unfold loop_step, loop_request, take_frame, idr_seen in H.
      repeat case_match; simplify_eq/=; (split; [|set_solver]); intros rd Hin; auto.
      all: try (left; by eapply list_elem_of_delete_inv). set_solver. }
    destruct Hloop as [Hl Ho]. split.
    + intros h body b [Hin|Hin]%Hl; [|done]. apply elem_of_app. left. by eapply Hr.
    + intros seq d b [Hin|Hin]%elem_of_app; [|by apply Ho in Hin]. destruct (Hs _ _ _ Hin) as (p & ? & ?). exists p. set_solver.
  - apply view_read_one in H as (r & r' & _ & Hi & Hst & ->). split.
    + intros h body b Hin. cbn in Hin. apply list_elem_of_lookup in Hin as [j Hj]. rewrite list_lookup_insert_Some in Hj.
      destruct Hj as [(-> & -> & _)|[_ Hj%list_elem_of_lookup_2]]; [|apply elem_of_app; left; by eapply Hr].
      unfold read_one in Hst. destruct e, r; try done; repeat case_match; simplify_eq/=; set_solver.
    + intros seq d b [Hin|Hin]%elem_of_app.
      { destruct (Hs _ _ _ Hin) as (p & ? & ?). exists p. set_solver. }
      apply list_elem_of_lookup_2 in Hi. unfold read_one in Hst.
      destruct e, r; try done; repeat case_match; simplify_eq/=;
        rewrite ?list_elem_of_singleton, ?elem_of_nil in Hin; simplify_eq; try done.
      match goal with E : RSend ?h ?b _ ∈ _ |- _ => exists (mkProduced h b) end. split; [|done]. apply elem_of_app. left. by eapply Hr.
  - cbn in H. inv_res H. simplify_eq. rewrite app_nil_r. by split.
Qed.

(** ** Theorems *)

(** C2: From the serving side's encoder output to the viewer's decoder: however the network
    reorders, delays and loses streams, and in every interleaving on both sides, what a
    viewer's decoder has been fed is an uninterrupted stretch of the frames the serving side
    put on the wire, it starts with a keyframe and it decodes: no difference is applied to
    another picture than the one it was sent after, in the same repair epoch. *)
Theorem viewer_decodes_sent payload_receipts l m os relay receipts lv v seen fed :
  media_run l (media_new payload_receipts) = Some (m, os) ->
  view_run lv (viewer_new relay receipts) = Some (v, seen) ->
  streams_faithful os seen -> dv_decoder (vw_delivery v) = Some fed ->
  exists a part c, opened os = a ++ part ++ c /\ part.*2 = fed /\ is_Some (decode None part).
Proof.
  intros Hm Hv Hf Hd. pose proof (opened_increasing _ _ _ _ Hm) as Hs.
  destruct (view_fed_in_order _ _ _ _ _ _ Hv Hd) as [[Hk Hc] Hin].
  destruct (gapless_infix (opened os).*2 fed) as (a & c & E); [|by intros p (g & ?)%Hin%Hf; apply list_elem_of_fmap; exists (g, p)|done|].
  { by rewrite <-list_fmap_compose. }
  apply fmap_app_inv in E as (a' & r & Ea & Er & Eo). symmetry in Er. apply fmap_app_inv in Er as (part & c' & Ep & Ec & ->).
  exists a', part, c'. split; [done|]. split; [done|]. apply (decode_infix a' part c').
  - rewrite <-Eo. by eapply run_decodes.
  - intros g p Hh. apply Hk. subst fed. by destruct part; simplify_eq/=.
Qed.

(** C13: A frame that the serving side counts as delivered was read to its end by the viewer: with
    payload receipts on, if the confirmations the server accepts are those the viewer sent,
    then for every frame reported delivered the viewer completed exactly this frame. *)
Theorem delivered_was_received l m os relay lv v seen :
  media_run l (media_new true) = Some (m, os) ->
  view_run lv (viewer_new relay true) = Some (v, seen) ->
  streams_faithful os seen ->
  (forall seq d, OConfirm seq d false true ∈ os -> SReceipt seq d false ∈ seen) ->
  forall f proof, OReceipt f proof Delivered ∈ os -> SComplete (fr_produced f) ∈ seen.
Proof.
  intros Hm Hv Hf Hc f proof Hr. pose proof (opened_increasing _ _ _ _ Hm) as Hs.
  assert (all_sent os m) as (_ & _ & Hsent).
  { revert Hm. apply (media_run_ind all_sent); [split; [done|]; split; [done|]; intros ? ? ? ?%elem_of_nil; done|].
    intros. by eapply media_step_sent. }
  assert (receipts_read seen v) as [_ Hread].
  { revert Hv. apply (view_run_ind receipts_read); [|intros; by eapply view_step_receipts].
    split; [intros ? ? ? ?%elem_of_nil; done|intros ? ? ? ?%elem_of_nil; done]. }
  destruct (Hsent _ _ _ Hr) as [g Hg]. pose proof (run_confirmed _ _ _ Hm) as Hb.
  apply list_elem_of_split in Hr as (o1 & o2 & E). specialize (Hb _ _ _ _ E).
  destruct (Hread (fr_seq f) _ false (Hc _ _ ltac:(rewrite E; apply elem_of_app; left; exact Hb))) as (p & Hp & Hps & _).
  destruct (Hf _ Hp) as [g' Hg'].
  pose proof (rising_unique (fun gp => pr_seq gp.2) (opened os) (g', p) (g, fr_produced f) Hs Hg' Hg Hps). by simplify_eq.
Qed.
End EndToEnd.

Module PlaybackWitness.
#[local] Instance toy_hash : Blake3 := toy_blake3.
Import DeliveryWitness ViewingWitness.

(** The third difference arrives first. *)
Lemma reordering_complete_witness :
  (arrive 0 [frame 0 true; frame 3 false; frame 1 false; frame 2 false] ordered_default).1 =
  [frame 0 true; frame 1 false; frame 2 false; frame 3 false].
Proof.
  apply (reordering_complete 0 (frame 0 true)); try done.
  - intros p Hp. repeat (apply elem_of_cons in Hp as [->|Hp]; [done|]). by apply elem_of_nil in Hp.
  - intros [|[|[|i]]] p; cbn; intros [= <-]; done.
  - etrans; [apply perm_swap|]. constructor. apply perm_swap.
  - intros a p c E. destruct a as [|? [|? [|? a]]]; simplify_eq/=; try done. by destruct a.
Defined.

Definition picture_stream : list ViewEvent := one_stream picture.
Lemma picture_stream_run :
  view_run picture_stream (viewer_new false true)
  = Some ((watched picture_stream).1, (watched picture_stream).2).
Proof. by vm_compute. Qed.
Lemma picture_faithful : streams_faithful (end_of one_frame).2 (watched picture_stream).2.
Proof.
  intros p Hp. exists 0. assert (p = picture) as ->; [|vm_compute; by repeat constructor].
  vm_compute in Hp. repeat (apply elem_of_cons in Hp as [Hp|Hp]; [by simplify_eq|]). by apply elem_of_nil in Hp.
Qed.
Lemma picture_confirmed seq d :
  OConfirm seq d false true ∈ (end_of one_frame).2 -> SReceipt seq d false ∈ (watched picture_stream).2.
Proof.
  intros H. assert (E : OConfirm seq d false true = OConfirm 0 (blake3_hash (bs "picture")) false true).
  { vm_compute in H. repeat (apply elem_of_cons in H as [H|H]; [by simplify_eq|]). by apply elem_of_nil in H. }
  injection E as -> ->. vm_compute. by repeat constructor.
Qed.
Lemma viewer_decodes_sent_witness :
  exists a part c, opened (end_of one_frame).2 = a ++ part ++ c /\ part.*2 = [picture] /\ is_Some (decode None part).
Proof.
  apply (viewer_decodes_sent true one_frame (end_of one_frame).1 (end_of one_frame).2 false true
           picture_stream (watched picture_stream).1 (watched picture_stream).2 [picture]).
  - apply one_frame_runs.
  - apply picture_stream_run.
  - apply picture_faithful.
  - by vm_compute.
Defined.
Lemma delivered_was_received_witness : SComplete picture ∈ (watched picture_stream).2.
Proof.
  apply (delivered_was_received one_frame (end_of one_frame).1 (end_of one_frame).2 false
           picture_stream (watched picture_stream).1 (watched picture_stream).2
           one_frame_runs picture_stream_run picture_faithful picture_confirmed
           (mkFrame picture 0 (Some (mkKey 0 false))) true).
  vm_compute. by repeat constructor.
Defined.
End PlaybackWitness.
