(* ===== verification/RelayPeers.v ===== *)
(** * Relayed peers

    Models the owned relay protocol's datagrams ([src/crates/rds-core/src/relay.rs]), the
    synthetic addresses under which an endpoint's socket mux sees relayed peers
    ([rds-net/src/backends/noq/relay.rs]) and the bounded table that says which identity such
    an address stands for ([relay/peers.rs]).

    The table is behind one mutex, so a run of it is a sequence of calls ([TableOp]); a
    [PeerLease] is a value its owner drops at any time.  An address hash that meets another
    identity's address, a full table and an overflowing count are all possible.  A [HashMap]
    is iterated in an order it does not promise: the order is an argument. *)

From S2P Require Import Prelude Net Crypto.

(** ** Socket addresses *)

Record Addr : Type := mkAddr { ad_ip : IpAddr; ad_port : Z; ad_flowinfo : Z; ad_scope : Z }.
#[export] Instance Addr_eq_dec : EqDecision Addr.
Proof. solve_decision. Defined.
#[export] Instance IpAddr_countable : Countable IpAddr.
Proof.
  refine (inj_countable'
    (fun ip => match ip with V4 a b c d => inl (a, b, c, d) | V6 g => inr g end)
    (fun x => match x with inl (a, b, c, d) => V4 a b c d | inr g => V6 g end) _).
  by intros [].
Defined.
#[export] Instance Addr_countable : Countable Addr.
Proof.
  refine (inj_countable' (fun a => (ad_ip a, ad_port a, ad_flowinfo a, ad_scope a))
    (fun '(ip, port, flow, scope) => mkAddr ip port flow scope) _).
  by intros [].
Defined.
(** [SocketAddr::new]. *)
Definition addr_new (ip : IpAddr) (port : Z) : Addr := mkAddr ip port 0 0.

(** [candidates::canonical]: an IPv4 address mapped into IPv6 is the IPv4 address. *)
Definition canonical_addr (a : Addr) : Addr :=
  match ad_ip a with
  | V6 g => if is_some (to_ipv4_mapped g) then addr_new (to_canonical (ad_ip a)) (ad_port a) else a
  | V4 _ _ _ _ => a
  end.

Lemma canonical_idem a : canonical_addr (canonical_addr a) = canonical_addr a.
Proof.
  unfold canonical_addr at 2 3. destruct (ad_ip a) as [|g] eqn:E; [unfold canonical_addr; by rewrite E|].
  destruct (to_ipv4_mapped g) as [[[[x y] z] w]|] eqn:Em; cbn [is_some].
  - unfold to_canonical. rewrite Em. done.
  - unfold canonical_addr. rewrite E, Em. done.
Qed.

(** ** Synthetic addresses *)

Definition MAX_RELAY_SLOTS : Z := 8.
Definition DRAIN_SHIFT : Z := MAX_RELAY_SLOTS.
(** [is_synthetic_ip], [is_synthetic]. *)
Definition is_synthetic_ip (ip : IpAddr) : bool :=
  match to_canonical ip with V4 a b _ _ => (a =? 198) && (b =? 19) | V6 _ => false end.
Definition is_synthetic (a : Addr) : bool := is_synthetic_ip (ad_ip a).
(** [synthetic_slot]. *)
Definition synthetic_slot (a : Addr) : option Z :=
  match to_canonical (ad_ip a) with
  | V4 a b c _ => if (a =? 198) && (b =? 19) then Some c else None
  | V6 _ => None
  end.
Definition synthetic_local (slot : Z) : Addr := addr_new (V4 198 19 slot 0) 1.

Section Synthetic.
Context `{HB : Blake3}.
(** The byte of a hash at an index. *)
Definition hash_byte (h : bytes) (i : nat) : Z := default 0 (byte_val <$> h !! i).
Definition synthetic_for (slot : Z) (id : bytes) : Addr :=
  let h := blake3_hash (bs "rds-relay-slot" ++ [ascii_of_N (Z.to_N slot)] ++ id) in
  addr_new (V4 198 19 slot (1 + hash_byte h 0 mod 254))
    (Z.max (hash_byte h 1 * 256 + hash_byte h 2) 1).
End Synthetic.

(** ** Datagrams *)

Definition KEY_HEADER_LEN : Z := 32.
Definition MAX_PAYLOAD : Z := 64 * 1024.
Definition encode_forward (key payload : bytes) : bytes := key ++ payload.
Definition decode_frame (frame : bytes) : option (bytes * bytes) :=
  if (zlen frame <? KEY_HEADER_LEN) || (KEY_HEADER_LEN + MAX_PAYLOAD <? zlen frame) then None
  else Some (take 32 frame, drop 32 frame).

(** ** The peer table *)

Inductive PeerRegistrationError : Type := Capacity | Collision | ReferenceLimit.
Record PeerEntry : Type := mkPeerEntry { en_peer : bytes; en_pins : Z; en_expires : Z }.
(** [State] with the grace and the slot of its [PeerRegistry]. *)
Record Peers : Type := mkPeers {
  pr_entries : gmap Addr PeerEntry; pr_capacity : Z; pr_grace : duration; pr_slot : Z
}.
Definition peers_new (capacity : Z) (grace : duration) (slot : Z) : Peers := mkPeers ∅ capacity grace slot.
Definition set_entries (m : gmap Addr PeerEntry) (t : Peers) : Peers :=
  mkPeers m (pr_capacity t) (pr_grace t) (pr_slot t).
Record PeerLease : Type := mkLease { pe_address : Addr; pe_peer : bytes }.
#[export] Instance PeerLease_eq_dec : EqDecision PeerLease.
Proof. solve_decision. Defined.

Definition entry_stale (now : Z) (e : PeerEntry) : bool := (en_pins e =? 0) && (en_expires e <=? now).
(** [Iterator::min_by_key] over the unpinned entries, in iteration order. *)
Definition oldest_unpinned (order : list Addr) (m : gmap Addr PeerEntry) : option Addr :=
  fst <$> foldl (fun best a =>
    match m !! a with
    | Some e =>
        if negb (en_pins e =? 0) then best else
        match best with
        | Some (_, x) => if en_expires e <? x then Some (a, en_expires e) else best
        | None => Some (a, en_expires e)
        end
    | None => best
    end) None order.

Section Table.
Context `{HB : Blake3}.

(** The steps of [State::admit]: an outdated entry at the address goes; a full table drops
    what is outdated, then the oldest entry nobody holds. *)
Definition without_stale (now : Z) (a : Addr) (m : gmap Addr PeerEntry) : gmap Addr PeerEntry :=
  match m !! a with Some e => if entry_stale now e then delete a m else m | None => m end.
Definition make_room (order : list Addr) (now capacity : Z) (m : gmap Addr PeerEntry)
  : gmap Addr PeerEntry * bool :=
  if negb (Z.of_nat (size m) =? capacity) then (m, true) else
  let m := filter (fun kv => 0 < en_pins kv.2 \/ now < en_expires kv.2) m in
  if negb (Z.of_nat (size m) =? capacity) then (m, true) else
  match oldest_unpinned order m with
  | None => (m, false)
  | Some a => (delete a m, true)
  end.
(** [State::admit]. *)
Definition table_admit (order : list Addr) (peer : bytes) (pin : bool) (now : Z) (t : Peers)
  : Peers * result Addr PeerRegistrationError :=
  let address := synthetic_for (pr_slot t) peer in
  let expires := now + pr_grace t in
  let m := without_stale now address (pr_entries t) in
  match m !! address with
  | Some e =>
      if negb (bool_decide (en_peer e = peer)) then (set_entries m t, Err Collision) else
      match (if pin then checked_add64 (en_pins e) 1 else Some (en_pins e)) with
      | None => (set_entries m t, Err ReferenceLimit)
      | Some pins => (set_entries (<[address := mkPeerEntry peer pins expires]> m) t, Ok address)
      end
  | None =>
      match make_room order now (pr_capacity t) m with
      | (m, false) => (set_entries m t, Err Capacity)
      | (m, true) =>
          (set_entries (<[address := mkPeerEntry peer (Z.b2z pin) expires]> m) t, Ok address)
      end
  end.
(** [PeerRegistry::acquire] and [observe]. *)
Definition table_acquire (order : list Addr) (peer : bytes) (now : Z) (t : Peers)
  : Peers * result PeerLease PeerRegistrationError :=
  let '(t, r) := table_admit order peer true now t in
  (t, match r with Ok a => Ok (mkLease a peer) | Err e => Err e end).
Definition table_observe (order : list Addr) (peer : bytes) (now : Z) (t : Peers)
  : Peers * result unit PeerRegistrationError :=
  let '(t, r) := table_admit order peer false now t in
  (t, match r with Ok _ => Ok tt | Err e => Err e end).

(** [PeerRegistry::get]. *)
Definition table_get (address : Addr) (now : Z) (t : Peers) : Peers * option bytes :=
  let address := canonical_addr address in
  match pr_entries t !! address with
  | None => (t, None)
  | Some e =>
      if entry_stale now e then (set_entries (delete address (pr_entries t)) t, None)
      else (set_entries (<[address := mkPeerEntry (en_peer e) (en_pins e) (now + pr_grace t)]> (pr_entries t)) t,
            Some (en_peer e))
  end.
(** [PeerRegistry::peer_gone]. *)
Definition peer_gone (peer : bytes) (t : Peers) : Peers :=
  set_entries (filter (fun kv => en_peer kv.2 <> peer) (pr_entries t)) t.
(** [PeerLease::drop]. *)
Definition lease_drop (l : PeerLease) (now : Z) (t : Peers) : Peers :=
  match pr_entries t !! pe_address l with
  | Some e =>
      if bool_decide (en_peer e = pe_peer l) && (0 <? en_pins e)
      then set_entries (<[pe_address l :=
             mkPeerEntry (en_peer e) (en_pins e - 1)
               (if en_pins e - 1 =? 0 then now + pr_grace t else en_expires e)]> (pr_entries t)) t
      else t
  | None => t
  end.

(** ** Runs *)

Inductive TableOp : Type :=
| TAcquire (order : list Addr) (peer : bytes) (now : Z)
| TObserve (order : list Addr) (peer : bytes) (now : Z)
| TGet (address : Addr) (now : Z)
| TGone (peer : bytes)
| TDrop (i : nat) (now : Z).
Inductive TableOut : Type :=
| TLease (r : result PeerLease PeerRegistrationError)
| TSeen (r : result unit PeerRegistrationError)
| TPeer (address : Addr) (r : option bytes)
| TQuiet.

(** A table with the leases that are alive. *)
Definition table_step (op : TableOp) (s : Peers * list PeerLease) : option (Peers * list PeerLease * TableOut) :=
  let '(t, ls) := s in
  match op with
  | TAcquire order peer now =>
      let '(t, r) := table_acquire order peer now t in
      Some (t, match r with Ok l => ls ++ [l] | Err _ => ls end, TLease r)
  | TObserve order peer now => let '(t, r) := table_observe order peer now t in Some (t, ls, TSeen r)
  | TGet a now => let '(t, r) := table_get a now t in Some (t, ls, TPeer a r)
  | TGone peer => Some (peer_gone peer t, ls, TQuiet)
  | TDrop i now => match ls !! i with
                   | Some l => Some (lease_drop l now t, delete i ls, TQuiet)
                   | None => None
                   end
  end.
Fixpoint table_run (ops : list TableOp) (s : Peers * list PeerLease) : option (Peers * list PeerLease * list TableOut) :=
  match ops with
  | [] => Some (s.1, s.2, [])
  | op :: ops =>
      match table_step op s with
      | None => None
      | Some (t, ls, o) =>
          match table_run ops (t, ls) with None => None | Some (t, ls, os) => Some (t, ls, o :: os) end
      end
  end.

(** ** What admission does to the table *)

(** The table after admitting [peer], from the entry that was at its address. *)
Record admitted (peer : bytes) (pin : bool) (now : Z) (t t' : Peers)
    (r : result Addr PeerRegistrationError) : Prop := mkAdmitted {
  am_fixed : pr_capacity t' = pr_capacity t /\ pr_grace t' = pr_grace t /\ pr_slot t' = pr_slot t;
  am_other : forall a e, pr_entries t' !! a = Some e ->
    a <> synthetic_for (pr_slot t) peer \/ is_ok r = false -> pr_entries t !! a = Some e;
  am_pinned : forall a e, pr_entries t !! a = Some e -> 0 < en_pins e ->
    a <> synthetic_for (pr_slot t) peer \/ is_ok r = false -> pr_entries t' !! a = Some e;
  am_new : forall a, r = Ok a -> a = synthetic_for (pr_slot t) peer /\
    exists pins, pr_entries t' !! a = Some (mkPeerEntry peer (pins + Z.b2z pin) (now + pr_grace t)) /\
      (pins = 0 /\ (forall e, pr_entries t !! a = Some e -> en_pins e = 0) \/
       exists e, pr_entries t !! a = Some e /\ en_peer e = peer /\ pins = en_pins e)
}.
Definition typed (t : Peers) : Prop :=
  Z.of_nat (size (pr_entries t)) <= pr_capacity t /\ forall a e, pr_entries t !! a = Some e -> 0 <= en_pins e.

Lemma oldest_unpinned_sound order m a :
  oldest_unpinned order m = Some a -> exists e, m !! a = Some e /\ en_pins e = 0.
Proof.
  unfold oldest_unpinned. set (f := fun best a => _).
  assert (forall best, (forall x, best = Some x -> exists e, m !! x.1 = Some e /\ en_pins e = 0) ->
     forall x, foldl f best order = Some x -> exists e, m !! x.1 = Some e /\ en_pins e = 0) as H.
  { induction order as [|b order IH]; intros best Hb x Hx; cbn in Hx; [by apply Hb|]. revert Hx. apply IH.
    unfold f. intros y Hy. destruct (m !! b) as [e|] eqn:E; [|by apply Hb].
    destruct (en_pins e =? 0) eqn:Ep; cbn in Hy; [|by apply Hb]. b2p.
    destruct best as [[c z]|]; [destruct (_ <? _)|]; injection Hy as <-; [by exists e|by apply Hb|by exists e]. }
  intros (x & Hx & ->)%fmap_Some_1. eapply H, Hx. done.
Qed.
(** A table that lost only entries nobody holds. *)
Definition trimmed (m' m : gmap Addr PeerEntry) : Prop :=
  m' ⊆ m /\ forall a e, m !! a = Some e -> 0 < en_pins e -> m' !! a = Some e.
#[local] Instance trimmed_preorder : PreOrder trimmed.
Proof.
  split; [by intros m|]. intros m1 m2 m3 [Hs1 Hp1] [Hs2 Hp2]. split; [by etrans|].
  intros a e Ha Hpin. by apply Hp1, Hpin; apply Hp2.
Qed.
Lemma trimmed_delete a e m : m !! a = Some e -> en_pins e = 0 -> trimmed (delete a m) m.
Proof.
  intros Ha H0. split; [apply delete_subseteq|]. intros b x Hb Hpin. apply lookup_delete_Some. split; [|done].
  intros <-. simplify_eq. lia.
Qed.
Lemma without_stale_trimmed now a m : trimmed (without_stale now a m) m.
Proof.
  unfold without_stale. destruct (m !! a) as [e|] eqn:E; [|done].
  destruct (entry_stale now e) eqn:Es; [|done]. eapply trimmed_delete; [exact E|]. unfold entry_stale in Es. b2p. by destruct Es.
Qed.
Lemma make_room_trimmed order now capacity m : trimmed (make_room order now capacity m).1 m.
Proof.
  unfold make_room. case_match; [done|]. set (m1 := filter _ m).
  assert (trimmed m1 m).
  { split; [apply map_filter_subseteq|]. intros a e Ha Hp. apply map_lookup_filter_Some. split; [done|by left]. }
  case_match; [done|]. destruct (oldest_unpinned order m1) as [a|] eqn:Eo; [|done].
  apply oldest_unpinned_sound in Eo as (e & He & Hz). etrans; [by eapply trimmed_delete|done].
Qed.
Lemma make_room_size order now capacity m m' b :
  make_room order now capacity m = (m', b) -> Z.of_nat (size m) <= capacity ->
  Z.of_nat (size m') + Z.b2z b <= capacity.
Proof.
  unfold make_room. intros H Hsz. destruct (Z.of_nat (size m) =? capacity) eqn:E; b2p; cbn in H.
  2: { injection H as <- <-. cbn. lia. }
  set (m1 := filter _ m) in H.
  assert (Z.of_nat (size m1) <= Z.of_nat (size m)) by (apply inj_le, map_subseteq_size, map_filter_subseteq).
  destruct (Z.of_nat (size m1) =? capacity) eqn:E1; b2p; cbn in H; [|injection H as <- <-; cbn; lia].
  destruct (oldest_unpinned order m1) as [a|] eqn:Eo; injection H as <- <-; cbn; [|lia].
  apply oldest_unpinned_sound in Eo as (e & He & _). rewrite map_size_delete_Some by eauto.
  assert (size m1 <> 0)%nat by (intros Em%map_size_empty_inv; rewrite Em in He; by rewrite lookup_empty in He). lia.
Qed.
Lemma typed_trimmed t m : typed t -> trimmed m (pr_entries t) -> typed (set_entries m t).
Proof.
  intros [Hz Hp] [Hs _]. split; cbn; [etrans; [apply inj_le, map_subseteq_size, Hs|done]|].
  intros a e Ha. by eapply Hp, lookup_weaken.
Qed.
Lemma refused_admitted peer pin now t m err :
  typed t -> trimmed m (pr_entries t) ->
  admitted peer pin now t (set_entries m t) (Err err) /\ typed (set_entries m t).
Proof.
  intros Ht Hm. split; [|by apply typed_trimmed]. destruct Hm as [Hs Hp].
  split; [done|intros; by eapply lookup_weaken|intros; by apply Hp|done].
Qed.
(** An insertion at the peer's address into a trimmed table. *)
Lemma inserted_admitted peer pin now t m pins :
  typed t -> trimmed m (pr_entries t) -> let a := synthetic_for (pr_slot t) peer in
  0 <= pins -> Z.of_nat (size (<[a := mkPeerEntry peer (pins + Z.b2z pin) (now + pr_grace t)]> m)) <= pr_capacity t ->
  (pins = 0 /\ (forall e, pr_entries t !! a = Some e -> en_pins e = 0) \/
   exists e, pr_entries t !! a = Some e /\ en_peer e = peer /\ pins = en_pins e) ->
  let t' := set_entries (<[a := mkPeerEntry peer (pins + Z.b2z pin) (now + pr_grace t)]> m) t in
  admitted peer pin now t t' (Ok a) /\ typed t'.
Proof.
  intros [_ Hty] [Hs Hp] a Hge Hz Hold t'. split; [split; cbn|split; cbn]; try done.
  - intros b e Hb [Hne|[=]]. rewrite lookup_insert_ne in Hb by done. by eapply lookup_weaken.
  - intros b e Hb Hpin [Hne|[=]]. rewrite lookup_insert_ne by done. by apply Hp.
  - intros b [= <-]. split; [done|]. exists pins. by rewrite lookup_insert_eq.
  - intros b e. rewrite lookup_insert. case_decide; [intros [= <-]; cbn; destruct pin; cbn; lia|].
    intros Hb. by eapply Hty, lookup_weaken.
Qed.
Lemma table_admit_spec order peer pin now t t' r :
  typed t -> table_admit order peer pin now t = (t', r) -> admitted peer pin now t t' r /\ typed t'.
Proof.
  intros Ht H. unfold table_admit in H. set (a := synthetic_for (pr_slot t) peer) in *.
  pose proof (without_stale_trimmed now a (pr_entries t)) as Hm. set (m := without_stale _ _ _) in *.
  pose proof (typed_trimmed t m Ht Hm) as [Hmz Hmp]. cbn in Hmz, Hmp.
  destruct (m !! a) as [e|] eqn:Ea.
  - case_bool_decide as Ep; cbn in H; [|injection H as <- <-; by apply refused_admitted].
    destruct (if pin then _ else _) as [pins|] eqn:Epin; injection H as <- <-; [|by apply refused_admitted].
    assert (pins = en_pins e + Z.b2z pin) as ->.
    { destruct pin; cbn; [|simplify_eq; lia]. unfold checked_add64 in Epin. by inv_res Epin; simplify_eq. }
    apply inserted_admitted; try done; [by eapply Hmp|by rewrite map_size_insert_Some by eauto|].
    right. exists e. split; [|done]. eapply lookup_weaken; [exact Ea|apply Hm].
  - destruct (make_room _ _ _ m) as [m1 b] eqn:Er. pose proof (make_room_size _ _ _ _ _ _ Er Hmz) as Hz.
    assert (trimmed m1 m) as Hm1 by (change m1 with (m1, b).1; rewrite <-Er; apply make_room_trimmed).
    assert (trimmed m1 (pr_entries t)) by (by etrans).
    destruct b; injection H as <- <-; [|by apply refused_admitted].
    apply (inserted_admitted peer pin now t m1 0); try done.
    + assert (m1 !! a = None) by (destruct (m1 !! a) eqn:E; [|done]; eapply lookup_weaken in E; [|apply Hm1]; congruence).
      rewrite map_size_insert_None by done. cbn in Hz. lia.
    + left. split; [done|]. intros x Hx. fold a in Hx. destruct Ht as [_ Hty]. pose proof (Hty _ _ Hx).
      destruct (decide (0 < en_pins x)) as [Hlt|]; [|lia]. pose proof (proj2 Hm _ _ Hx Hlt) as E. by rewrite Ea in E.
Qed.

(** ** Leases and pins *)

(** The live leases of [p] at [a]. *)
Definition held (ls : list PeerLease) (a : Addr) (p : bytes) : Z :=
  zlen (filter (fun l => l = mkLease a p) ls).
Lemma held_nonneg ls a p : 0 <= held ls a p.
Proof. apply zlen_nonneg. Qed.
Lemma held_one l a p : held [l] a p = Z.b2z (bool_decide (l = mkLease a p)).
Proof. unfold held. rewrite filter_cons, filter_nil. case_bool_decide; case_decide; done. Qed.
Lemma held_app ls ks a p : held (ls ++ ks) a p = held ls a p + held ks a p.
Proof. unfold held. by rewrite filter_app, zlen_app. Qed.
Lemma held_delete ls i l a p :
  ls !! i = Some l -> held (delete i ls) a p = held ls a p - Z.b2z (bool_decide (l = mkLease a p)).
Proof.
  intros H. rewrite delete_take_drop. rewrite <-(take_drop_middle ls i l H) at 3.
  change (l :: ?k) with ([l] ++ k). rewrite !held_app, held_one. lia.
Qed.
Lemma held_pos ls l : l ∈ ls -> 0 < held ls (pe_address l) (pe_peer l).
Proof.
  intros [i Hi]%list_elem_of_lookup. pose proof (held_delete ls i l (pe_address l) (pe_peer l) Hi) as H.
  rewrite bool_decide_eq_true_2 in H by (by destruct l).
  pose proof (held_nonneg (delete i ls) (pe_address l) (pe_peer l)). cbn in H. lia.
Qed.

(** [exact]: no peer was reported gone, so that every lease still holds its entry. *)
Record table_inv (exact : bool) (t : Peers) (ls : list PeerLease) : Prop := mkTableInv {
  ti_typed : typed t;
  ti_address : forall a e, pr_entries t !! a = Some e -> a = synthetic_for (pr_slot t) (en_peer e);
  ti_lease : forall l, l ∈ ls -> pe_address l = synthetic_for (pr_slot t) (pe_peer l);
  ti_pins : forall a e, pr_entries t !! a = Some e -> en_pins e <= held ls a (en_peer e);
  ti_exact : exact = true -> forall a p, 0 < held ls a p ->
    exists e, pr_entries t !! a = Some e /\ en_peer e = p /\ en_pins e = held ls a p
}.
Lemma peers_new_inv exact capacity grace slot : 0 <= capacity -> table_inv exact (peers_new capacity grace slot) [].
Proof.
  intros H. split.
  - split; cbn; [by rewrite map_size_empty|]. intros a e. by rewrite lookup_empty.
  - intros a e. cbn. by rewrite lookup_empty.
  - intros l Hl. by apply elem_of_nil in Hl.
  - intros a e. cbn. by rewrite lookup_empty.
  - done.
Qed.
Lemma admitted_inv exact peer pin now t t' r ls :
  table_inv exact t ls -> admitted peer pin now t t' r -> typed t' ->
  table_inv exact t' (match r with Ok a => if pin then ls ++ [mkLease a peer] else ls | Err _ => ls end).
Proof.
  intros [Hty Hadr Hls Hpin Hex] [(Hc & Hg & Hs) Hoth Hkeep Hnew] Ht'.
  destruct r as [a|err].
  2: { split; [done|rewrite Hs; intros a e He; by apply Hadr, Hoth, or_intror|by rewrite Hs|intros a e He; by apply Hpin, Hoth, or_intror|].
       intros E b p Hb. destruct (Hex E b p Hb) as (e & He & <- & Hp). exists e. split; [|done].
       apply Hkeep; [done|lia|by right]. }
  destruct (Hnew a eq_refl) as (Ea & pins & Ha & Hold). rewrite <-Ea in Hoth, Hkeep. clear Hnew.
  set (ls' := if pin then ls ++ [mkLease a peer] else ls).
  assert (Hheld : forall b p, held ls' b p = held ls b p + Z.b2z (pin && bool_decide (b = a /\ p = peer))).
  { intros b p. unfold ls'. destruct pin; cbn; [|lia]. rewrite held_app, held_one. f_equal. f_equal.
    apply bool_decide_ext. split; [by intros [= -> ->]|by intros [-> ->]]. }
  assert (Hb2z : Z.b2z (pin && bool_decide (a = a /\ peer = peer)) = Z.b2z pin)
    by (rewrite bool_decide_eq_true_2 by done; by rewrite andb_true_r).
  pose proof (held_nonneg ls a peer). destruct Hty as [_ Hty].
  split; [done| | | |].
  - rewrite Hs. intros b e He. destruct (decide (b = a)) as [->|]; [rewrite Ha in He; by injection He as <-|]. by apply Hadr, Hoth, or_introl.
  - rewrite Hs. unfold ls'. destruct pin; [|done]. intros l [Hl|Hl%list_elem_of_singleton]%elem_of_app; [by apply Hls|by rewrite Hl].
  - intros b e He. rewrite Hheld. destruct (decide (b = a)) as [->|Hne].
    + rewrite Ha in He. injection He as <-. cbn. rewrite Hb2z.
      destruct Hold as [[-> _]|(e & He & <- & ->)]; [lia|]. specialize (Hpin _ _ He). lia.
    + rewrite bool_decide_eq_false_2 by (by intros [? ?]). rewrite andb_false_r, Z.add_0_r. by apply Hpin, Hoth, or_introl.
  - intros E b p Hb. rewrite Hheld in *. destruct (decide (b = a)) as [->|Hne].
    + destruct (decide (p = peer)) as [->|Hp].
      * eexists. split; [exact Ha|]. split; [done|]. cbn. rewrite Hb2z. f_equal.
        destruct Hold as [[-> H0]|(e & He & Hpe & ->)].
        -- destruct (decide (0 < held ls a peer)) as [Hlt|]; [|lia]. destruct (Hex E a peer Hlt) as (e & He & _ & Hpe).
           specialize (H0 _ He). lia.
        -- destruct (decide (0 < held ls a peer)) as [Hlt|]; [destruct (Hex E a peer Hlt) as (e' & He' & _ & Hpe'); congruence|].
           specialize (Hpin _ _ He). specialize (Hty _ _ He). rewrite Hpe in Hpin. lia.
      * exfalso. rewrite bool_decide_eq_false_2 in Hb by (by intros [? ?]). rewrite andb_false_r, Z.add_0_r in Hb.
        destruct (Hex E a p Hb) as (e & He & <- & Hpe). destruct Hold as [[_ H0]|(e' & He' & <- & _)]; [|congruence].
        specialize (H0 _ He). lia.
    + rewrite bool_decide_eq_false_2 in * by (by intros [? ?]). rewrite andb_false_r, Z.add_0_r in *.
      destruct (Hex E b p Hb) as (e & He & <- & Hpe). exists e. split; [|done]. apply Hkeep; [done|lia|by left].
Qed.

Lemma synthetic_canonical slot peer : canonical_addr (synthetic_for slot peer) = synthetic_for slot peer.
Proof. done. Qed.
Lemma table_get_inv exact a now t t' r ls :
  table_inv exact t ls -> table_get a now t = (t', r) ->
  table_inv exact t' ls /\
  (forall p, r = Some p -> synthetic_for (pr_slot t) p = canonical_addr a) /\
  (exact = true -> forall p, 0 < held ls (canonical_addr a) p -> r = Some p).
Proof.
  intros Hi H. pose proof Hi as [[Hz Hty] Hadr Hls Hpin Hex]. unfold table_get in H. set (c := canonical_addr a) in *.
  destruct (pr_entries t !! c) as [e|] eqn:Ec.
  2: { injection H as <- <-. split; [done|]. split; [done|]. intros E p Hp. destruct (Hex E c p Hp) as (e & He & _). congruence. }
  assert (Hlive : exact = true -> forall p, 0 < held ls c p -> entry_stale now e = false /\ en_peer e = p).
  { intros E p Hp. destruct (Hex E c p Hp) as (x & Hx & <- & Hpx). rewrite Ec in Hx. injection Hx as <-. split; [|done].
    unfold entry_stale. destruct (en_pins e =? 0) eqn:E0; [b2p; lia|done]. }
  destruct (entry_stale now e) eqn:Es; injection H as <- <-.
  - pose proof Es as Es'. unfold entry_stale in Es'. b2p. destruct Es' as [H0 _].
    split; [split|split; [done|intros E p Hp; by destruct (Hlive E p Hp)]];
      [|cbn; intros b x [_ Hx]%lookup_delete_Some; auto|done|cbn; intros b x [_ Hx]%lookup_delete_Some; auto|].
    + apply (typed_trimmed t); [done|]. by eapply trimmed_delete.
    + cbn. intros E b p Hp. destruct (Hex E b p Hp) as (x & Hx & <- & Hpx). exists x. split; [|done].
      apply lookup_delete_Some. split; [|done]. intros <-. rewrite Ec in Hx. injection Hx as <-. lia.
  - assert (He : forall b x, <[c := mkPeerEntry (en_peer e) (en_pins e) (now + pr_grace t)]> (pr_entries t) !! b = Some x ->
      exists y, pr_entries t !! b = Some y /\ en_peer y = en_peer x /\ en_pins y = en_pins x).
    { intros b x. rewrite lookup_insert. case_decide as Hb; [intros [= <-]; subst b; by exists e|]. intros Hx. by exists x. }
    split; [split|split; [intros p [= <-]; symmetry; by apply Hadr|intros E p Hp; by destruct (Hlive E p Hp) as [_ ->]]]; [split| | | |]; cbn; try done.
    + by rewrite map_size_insert_Some by eauto.
    + intros b x (y & Hy & _ & <-)%He. by eapply Hty.
    + intros b x (y & Hy & <- & _)%He. by apply Hadr.
    + intros b x (y & Hy & <- & <-)%He. by apply Hpin.
    + intros E b p Hp. destruct (Hex E b p Hp) as (x & Hx & <- & Hpx). rewrite lookup_insert.
      case_decide as Hb; [subst b|by exists x]. rewrite Ec in Hx. injection Hx as <-. by eexists.
Qed.
Lemma peer_gone_inv exact p t ls : table_inv exact t ls -> table_inv false (peer_gone p t) ls.
Proof.
  intros [Hty Hadr Hls Hpin _]. destruct Hty as [Hz Hty]. split; cbn; try done.
  - split; cbn; [etrans; [apply inj_le, map_subseteq_size, map_filter_subseteq|done]|].
    intros a e [Ha _]%map_lookup_filter_Some. by eapply Hty.
  - intros a e [Ha _]%map_lookup_filter_Some. by apply Hadr.
  - intros a e [Ha _]%map_lookup_filter_Some. by apply Hpin.
Qed.
(** A table in which the lease's own entry, if it is still there, gave up one pin. *)
Lemma released_inv exact i l t ls m :
  table_inv exact t ls -> ls !! i = Some l ->
  (forall b x, m !! b = Some x -> exists y, pr_entries t !! b = Some y /\ en_peer y = en_peer x /\
     en_pins x = en_pins y - Z.b2z (bool_decide (l = mkLease b (en_peer y)) && (0 <? en_pins y))) ->
  (forall b y, pr_entries t !! b = Some y -> is_Some (m !! b)) -> size m = size (pr_entries t) ->
  table_inv exact (set_entries m t) (delete i ls).
Proof.
  intros [[Hz Hty] Hadr Hls Hpin Hex] Hi Hm Hdom Hsz.
  assert (Hheld : forall a p, held (delete i ls) a p = held ls a p - Z.b2z (bool_decide (l = mkLease a p)))
    by (intros; by apply held_delete).
  split; [split| | | |]; cbn.
  - by rewrite Hsz.
  - intros b x (y & Hy & _ & ->)%Hm. specialize (Hty _ _ Hy). destruct (0 <? en_pins y) eqn:E; [|rewrite andb_false_r; cbn; lia].
    b2p. destruct (bool_decide _); cbn; lia.
  - intros b x (y & Hy & <- & _)%Hm. by apply Hadr.
  - intros k [j Hj]%list_elem_of_lookup. apply Hls. rewrite list_lookup_delete in Hj. case_decide; by eapply list_elem_of_lookup_2.
  - intros b x (y & Hy & <- & ->)%Hm. rewrite Hheld. specialize (Hpin _ _ Hy). specialize (Hty _ _ Hy).
    case_bool_decide as El; cbn; [|lia]. pose proof (held_pos ls l (list_elem_of_lookup_2 _ _ _ Hi)) as Hp. rewrite El in Hp. cbn in Hp.
    destruct (0 <? en_pins y) eqn:E; b2p; cbn; lia.
  - intros E b p Hp. rewrite Hheld in *. assert (0 < held ls b p) as Hp' by (destruct (bool_decide _) in Hp; cbn in Hp; lia).
    destruct (Hex E b p Hp') as (y & Hy & <- & Hpy). destruct (Hdom b y Hy) as [x Hx]. exists x. split; [done|].
    destruct (Hm b x Hx) as (y' & Hy' & Hpe & ->). rewrite Hy in Hy'. injection Hy' as <-. split; [done|].
    rewrite Hpy. assert ((0 <? held ls b (en_peer y)) = true) as -> by (b2p; lia). by rewrite andb_true_r.
Qed.
Lemma lease_drop_inv exact i l now t ls :
  table_inv exact t ls -> ls !! i = Some l -> table_inv exact (lease_drop l now t) (delete i ls).
Proof.
  intros Ht Hi.
  assert (Hsame : (forall y, pr_entries t !! pe_address l = Some y -> en_peer y = pe_peer l -> en_pins y <= 0) ->
     table_inv exact t (delete i ls)).
  { intros Hn. replace t with (set_entries (pr_entries t) t) by (by destruct t). eapply released_inv; [done|done| |by eauto|done].
    intros b x Hx. exists x. split; [done|]. split; [done|]. case_bool_decide as El; cbn; [|lia]. subst l. cbn in *.
    specialize (Hn _ Hx eq_refl). destruct (0 <? en_pins x) eqn:E; b2p; cbn; lia. }
  unfold lease_drop. destruct (pr_entries t !! pe_address l) as [e|] eqn:Ee; [|by apply Hsame].
  case_bool_decide as Ep; cbn; [|apply Hsame; intros y [= <-]; done].
  destruct (0 <? en_pins e) eqn:E0; b2p; [|apply Hsame; intros y [= <-] _; lia].
  eapply released_inv; [done|done| | |by rewrite map_size_insert_Some by eauto].
  - intros b x. rewrite lookup_insert. case_decide as Hb; [intros [= <-]; subst b|intros Hx].
    + exists e. split; [done|]. split; [done|]. cbn. rewrite bool_decide_eq_true_2 by (rewrite Ep; by destruct l).
      assert ((0 <? en_pins e) = true) as -> by (b2p; lia). done.
    + exists x. split; [done|]. split; [done|]. rewrite bool_decide_eq_false_2; [cbn; lia|]. by intros ->.
  - intros b y Hy. rewrite lookup_insert. case_decide; by eauto.
Qed.

(** ** Runs of the table *)

Definition is_gone (op : TableOp) : bool := match op with TGone _ => true | _ => false end.
Lemma table_step_inv exact op t ls t' ls' o :
  table_inv exact t ls -> table_step op (t, ls) = Some (t', ls', o) ->
  table_inv (exact && negb (is_gone op)) t' ls' /\ pr_slot t' = pr_slot t /\ pr_capacity t' = pr_capacity t /\
  (forall a p, o = TPeer a (Some p) -> synthetic_for (pr_slot t) p = canonical_addr a).
Proof.
  intros Hi H. destruct op as [order peer now|order peer now|a now|peer|i now]; cbn in H |- *; rewrite ?andb_true_r, ?andb_false_r.
  - unfold table_acquire in H. destruct (table_admit order peer true now t) as [t1 r] eqn:E.
    apply table_admit_spec in E as [Ha Hty]; [|apply Hi]. injection H as <- <- <-.
    split; [|split; [apply Ha|split; [apply Ha|done]]]. pose proof (admitted_inv _ _ _ _ _ _ _ _ Hi Ha Hty). by destruct r.
  - unfold table_observe in H. destruct (table_admit order peer false now t) as [t1 r] eqn:E.
    apply table_admit_spec in E as [Ha Hty]; [|apply Hi]. injection H as <- <- <-.
    split; [|split; [apply Ha|split; [apply Ha|done]]]. pose proof (admitted_inv _ _ _ _ _ _ _ _ Hi Ha Hty). by destruct r.
  - destruct (table_get a now t) as [t1 r] eqn:E. injection H as <- <- <-.
    destruct (table_get_inv _ _ _ _ _ _ _ Hi E) as (Hi' & Hr & _). split; [done|].
    split; [|split; [|by intros ? ? [= -> ->]; apply Hr]]; unfold table_get in E; repeat case_match; by simplify_eq.
  - injection H as <- <- <-. split; [by eapply peer_gone_inv|by repeat split].
  - destruct (ls !! i) as [l|] eqn:El; [|done]. injection H as <- <- <-. split; [by apply lease_drop_inv|].
    unfold lease_drop. by repeat case_match; repeat split.
Qed.
Lemma table_run_inv ops exact t ls t' ls' os :
  table_inv exact t ls -> table_run ops (t, ls) = Some (t', ls', os) ->
  table_inv (exact && forallb (fun op => negb (is_gone op)) ops) t' ls' /\ pr_slot t' = pr_slot t /\
  pr_capacity t' = pr_capacity t /\
  (forall a p, TPeer a (Some p) ∈ os -> synthetic_for (pr_slot t) p = canonical_addr a).
Proof.
  revert exact t ls os. induction ops as [|op ops IH]; intros exact t ls os Hi H; cbn [table_run] in H.
  { injection H as <- <- <-. cbn. rewrite andb_true_r. split; [done|]. split; [done|]. split; [done|]. intros a p Hp. by apply elem_of_nil in Hp. }
  destruct (table_step op (t, ls)) as [[[t1 ls1] o]|] eqn:E; [|done].
  destruct (table_run ops (t1, ls1)) as [[[t2 ls2] os2]|] eqn:Er; [|done]. injection H as <- <- <-.
  destruct (table_step_inv _ _ _ _ _ _ _ Hi E) as (Hi1 & Hs & Hc & Ho). destruct (IH _ _ _ _ Hi1 Er) as (Hi2 & Hs2 & Hc2 & Ho2).
  cbn. rewrite andb_assoc. split; [done|]. split; [congruence|]. split; [congruence|].
  intros a p [Hp|Hp]%elem_of_cons; [by apply Ho|rewrite <-Hs; by apply Ho2].
Qed.

(** C28: An endpoint's relay peer table, under any sequence of registrations, observed packets,
    lookups, departures and dropped leases, never holds more peers than its capacity; a
    synthetic address it resolves is the address of the identity it resolves to in this
    attachment's slot, although two identities may hash to the same address; and as long as
    the relay reported no peer gone, a live lease's address resolves to the lease's peer at
    any time: no observation, registration or expiry replaces or evicts it. *)
Theorem pinned_peer_resolves (ops : list TableOp) (capacity grace slot : Z) (t : Peers) ls os :
  0 <= capacity -> table_run ops (peers_new capacity grace slot, []) = Some (t, ls, os) ->
  Z.of_nat (size (pr_entries t)) <= capacity /\
  (forall a p, TPeer a (Some p) ∈ os -> synthetic_for slot p = canonical_addr a) /\
  (forallb (fun op => negb (is_gone op)) ops = true ->
   forall l now, l ∈ ls -> (table_get (pe_address l) now t).2 = Some (pe_peer l)).
Proof.
  intros Hc Hr. destruct (table_run_inv _ true _ _ _ _ _ (peers_new_inv true capacity grace slot Hc) Hr) as (Hi & Hs & Hcap & Ho).
  cbn in *. split; [rewrite <-Hcap; apply Hi|]. split; [done|]. intros Hg l now Hl. rewrite Hg in Hi.
  destruct (table_get (pe_address l) now t) as [t2 r] eqn:E. destruct (table_get_inv _ _ _ _ _ _ _ Hi E) as (_ & _ & Hx).
  cbn. apply Hx; [done|]. rewrite (ti_lease _ _ _ Hi l Hl), synthetic_canonical, <-(ti_lease _ _ _ Hi l Hl). by apply held_pos.
Qed.
End Table.

(** The packets an endpoint sends and reads back through its relay. *)
Lemma relay_frame_roundtrip (key payload : bytes) :
  zlen key = KEY_HEADER_LEN -> zlen payload <= MAX_PAYLOAD ->
  decode_frame (encode_forward key payload) = Some (key, payload).
Proof.
  intros Hk Hp. unfold decode_frame, encode_forward, KEY_HEADER_LEN, MAX_PAYLOAD in *. pose proof (zlen_nonneg payload). rewrite zlen_app.
  replace ((zlen key + zlen payload <? 32) || (32 + 64 * 1024 <? zlen key + zlen payload)) with false
    by (symmetry; apply orb_false_iff; split; b2p; lia).
  assert (length key = 32%nat) as Hl by (unfold zlen in Hk; lia).
  rewrite take_app_le, firstn_all2, drop_app_ge, Hl, Nat.sub_diag, drop_0 by lia. done.
Qed.
Lemma decode_frame_exact (frame key payload : bytes) :
  decode_frame frame = Some (key, payload) ->
  frame = encode_forward key payload /\ zlen key = KEY_HEADER_LEN /\ zlen payload <= MAX_PAYLOAD.
Proof.
  unfold decode_frame, encode_forward. destruct (_ || _) eqn:E; [done|]. intros [= <- <-]. apply orb_false_iff in E as [E1 E2].
  unfold KEY_HEADER_LEN, MAX_PAYLOAD in *. b2p. rewrite take_drop. split; [done|]. unfold zlen in *. rewrite length_take, length_drop. lia.
Qed.

Module RelayPeersWitness.
(** A hash of the last bytes of its input. *)
Definition tail_blake3 : Blake3 := fun b => take 32 (rev b ++ replicate 32 "0"%char).
#[local] Existing Instance tail_blake3.
Definition alice : bytes := repeat (ascii_of_nat 65) 32.
Definition bob : bytes := repeat (ascii_of_nat 66) 32.
Definition order : list Addr := [synthetic_for 0 alice; synthetic_for 0 bob].
Definition busy : list TableOp :=
  [TAcquire order alice 0; TObserve order bob 1; TGet (synthetic_for 0 alice) 2; TAcquire order alice 90; TDrop 0 91;
   TObserve order bob 200].
Definition after (ops : list TableOp) : Peers * list PeerLease * list TableOut :=
  default (peers_new 0 0 0, [], []) (table_run ops (peers_new 1 30 0, [])).

Lemma pinned_peer_resolves_witness :
  Z.of_nat (size (pr_entries (after busy).1.1)) <= 1 /\
  (table_get (synthetic_for 0 alice) 1000 (after busy).1.1).2 = Some alice.
Proof.
  destruct (pinned_peer_resolves busy 1 30 0 (after busy).1.1 (after busy).1.2 (after busy).2) as (Hz & _ & Hl);
    [lia|vm_compute; reflexivity|].
  split; [exact Hz|]. apply (Hl eq_refl (mkLease (synthetic_for 0 alice) alice) 1000).
  vm_compute. constructor.
Defined.

(** The second lease is alive when the first, whose entry the relay's notice had removed, is
    dropped: the drop takes the pin of the entry the second lease made, and the next
    packet from another peer evicts it. *)
Definition reattached : list TableOp :=
  [TAcquire order alice 0; TGone alice; TAcquire order alice 10; TDrop 0 20; TObserve order bob 21].
(** A lease outlives the entry it pinned when the relay reports the peer gone.  When the peer
    comes back and is registered again, dropping the old lease takes away the new lease's
    pin: with room for one peer, a packet from another peer then evicts the address of a
    peer whose lease is still held, and packets to it no longer resolve. *)
Theorem stale_lease_unpins :
  let '(t, ls, _) := after reattached in
  ls = [mkLease (synthetic_for 0 alice) alice] /\ (table_get (synthetic_for 0 alice) 22 t).2 = None.
Proof. vm_compute. done. Qed.
End RelayPeersWitness.
