(* ===== verification/RelayServer.v ===== *)
(** * The owned relay server

    Models [src/crates/rds-relay/src/server.rs]: the accept loop and its admission permits,
    one connection task from its handshake to its cleanup ([serve_conn], [forward_loop],
    [detach] and the drop of [Registration]), [stop] and the two halves of [drain].

    A step is what one task does while it holds [conns], or between two of its awaits; a run
    interleaves the tasks' steps in any order.  A connection is a number given at its
    admission; it is also the identity of its [ConnSlot] ([Arc::ptr_eq]).  What the client,
    the network or a clock decides is part of the event: the handshake's verified identity,
    the datagrams, whether a source's bucket had tokens left, whether a write succeeded and
    when a task is aborted.  A task can be aborted only where it awaits.  The bucket is a
    float and its refill is not modelled.  A [HashSet] has no order: notices to several
    connections are listed in some order. *)

From S2P Require Import Prelude RelayPeers.

Definition MAX_RECENT_PEERS : Z := 64.
Inductive RelayControl : Type :=
| Register
| Registered
| PeerGone (peer : bytes)
| RPing (seq : Z)
| RPong (seq : Z)
| Drain
| Health (endpoints : Z) (draining : bool).

(** Where a connection's task is; [Served] tasks have a verified identity. *)
Inductive Phase : Type :=
| Registering
| Acked
| Attached
| Routing (dst payload : bytes)
| Sending (dst : bytes) (slot : nat) (payload : bytes)
| Ending
| Notifying.
Inductive Task : Type :=
| Handshaking
| Served (id : bytes) (phase : Phase).

Record Relay : Type := mkRelay {
  rl_conns : gmap bytes nat;
  rl_recent : gmap bytes (gset bytes);
  rl_allow : option (gset bytes);
  rl_draining : bool;
  rl_available : Z;
  rl_rejected : Z; rl_forwarded : Z; rl_dropped : Z; rl_bytes : Z;
  rl_tasks : gmap nat Task;
  rl_next : nat
}.
(** [serve_inner]: an empty allowlist is an open relay. *)
Definition server_new (allow : list bytes) (max_connections : Z) : Relay :=
  mkRelay ∅ ∅ (match allow with [] => None | _ => Some (list_to_set allow) end) false max_connections
    0 0 0 0 ∅ 0.

Definition set_conns m s := mkRelay m (rl_recent s) (rl_allow s) (rl_draining s) (rl_available s)
  (rl_rejected s) (rl_forwarded s) (rl_dropped s) (rl_bytes s) (rl_tasks s) (rl_next s).
Definition set_recent m s := mkRelay (rl_conns s) m (rl_allow s) (rl_draining s) (rl_available s)
  (rl_rejected s) (rl_forwarded s) (rl_dropped s) (rl_bytes s) (rl_tasks s) (rl_next s).
Definition set_draining s := mkRelay (rl_conns s) (rl_recent s) (rl_allow s) true (rl_available s)
  (rl_rejected s) (rl_forwarded s) (rl_dropped s) (rl_bytes s) (rl_tasks s) (rl_next s).
Definition count_rejected s := mkRelay (rl_conns s) (rl_recent s) (rl_allow s) (rl_draining s) (rl_available s)
  ((rl_rejected s + 1) mod 2 ^ 64) (rl_forwarded s) (rl_dropped s) (rl_bytes s) (rl_tasks s) (rl_next s).
Definition count_dropped s := mkRelay (rl_conns s) (rl_recent s) (rl_allow s) (rl_draining s) (rl_available s)
  (rl_rejected s) (rl_forwarded s) ((rl_dropped s + 1) mod 2 ^ 64) (rl_bytes s) (rl_tasks s) (rl_next s).
Definition count_forwarded (n : Z) s := mkRelay (rl_conns s) (rl_recent s) (rl_allow s) (rl_draining s) (rl_available s)
  (rl_rejected s) ((rl_forwarded s + 1) mod 2 ^ 64) (rl_dropped s) ((rl_bytes s + n) mod 2 ^ 64) (rl_tasks s) (rl_next s).
Definition set_task k t s := mkRelay (rl_conns s) (rl_recent s) (rl_allow s) (rl_draining s) (rl_available s)
  (rl_rejected s) (rl_forwarded s) (rl_dropped s) (rl_bytes s) (<[k := t]> (rl_tasks s)) (rl_next s).
(** A task that starts takes a permit, one that ends gives it back. *)
Definition spawn s := mkRelay (rl_conns s) (rl_recent s) (rl_allow s) (rl_draining s) (rl_available s - 1)
  (rl_rejected s) (rl_forwarded s) (rl_dropped s) (rl_bytes s) (<[rl_next s := Handshaking]> (rl_tasks s)) (S (rl_next s)).
Definition end_task k s := mkRelay (rl_conns s) (rl_recent s) (rl_allow s) (rl_draining s) (rl_available s + 1)
  (rl_rejected s) (rl_forwarded s) (rl_dropped s) (rl_bytes s) (delete k (rl_tasks s)) (rl_next s).

Inductive RelayOut : Type :=
| OClosed (k : nat) (reason : bytes)
| OSent (k : nat) (dst : bytes) (slot : nat) (frame : bytes)
| ONotice (slot : nat) (message : RelayControl).

(** ** Registration *)

(** [remove_registration]: only the owner of the stored slot removes it; the peers that sent
    to it recently are told. *)
Definition remove_registration (id : bytes) (k : nat) (s : Relay) : Relay * list nat :=
  if negb (bool_decide (rl_conns s !! id = Some k)) then (s, []) else
  let conns := delete id (rl_conns s) in
  let peers := default ∅ (rl_recent s !! id) in
  let recent := filter (fun kv => kv.2 <> ∅) ((fun sources => sources ∖ {[id]}) <$> delete id (rl_recent s)) in
  (set_recent recent (set_conns conns s), omap (fun peer => conns !! peer) (elements peers)).
(** [notify_all]. *)
Definition notify_all (slots : list nat) (message : RelayControl) : list RelayOut :=
  map (fun c => ONotice c message) slots.
(** The part of [serve_conn] that attaches the slot, under the lock of [conns]. *)
Definition attach (id : bytes) (k : nat) (s : Relay) : Relay * list RelayOut :=
  if rl_draining s then (end_task k s, [OClosed k (bs "relay control ended")]) else
  (set_task k (Served id Attached) (set_conns (<[id := k]> (rl_conns s)) s),
   match rl_conns s !! id with Some old => [OClosed old (bs "replaced")] | None => [] end).
(** The start of [serve_conn]. *)
Definition is_allowed (s : Relay) (id : bytes) : bool :=
  match rl_allow s with Some allow => bool_decide (id ∈ allow) | None => true end.
Definition serve_conn (id : bytes) (k : nat) (s : Relay) : Relay * list RelayOut :=
  if rl_draining s then (end_task k s, [OClosed k (bs "draining")])
  else if negb (is_allowed s id) then (end_task k s, [OClosed k (bs "not allowed")])
  else (set_task k (Served id Registering) s, []).

(** ** Forwarding *)

(** [forward_loop]: a datagram was read; its source's bucket had room or not. *)
Definition take_datagram (id : bytes) (k : nat) (frame : bytes) (paid : bool) (s : Relay) : Relay :=
  if negb paid then count_dropped s else
  match decode_frame frame with
  | None => count_dropped s
  | Some (dst, payload) => set_task k (Served id (Routing dst payload)) s
  end.
(** Its lookup under the locks. *)
Definition remember (dst src : bytes) (recent : gmap bytes (gset bytes)) : gmap bytes (gset bytes) :=
  let peers := default ∅ (recent !! dst) in
  <[dst := if Z.of_nat (size peers) <? MAX_RECENT_PEERS then {[src]} ∪ peers else peers]> recent.
Definition route_frame (src : bytes) (k : nat) (dst payload : bytes) (s : Relay) : Relay :=
  if negb (bool_decide (rl_conns s !! src = Some k)) then count_dropped (set_task k (Served src Attached) s) else
  match rl_conns s !! dst with
  | None => count_dropped (set_task k (Served src Attached) s)
  | Some c => set_task k (Served src (Sending dst c payload)) (set_recent (remember dst src (rl_recent s)) s)
  end.
(** Its send. *)
Definition send_frame (src : bytes) (k : nat) (dst : bytes) (c : nat) (payload : bytes) (ok : bool) (s : Relay)
  : Relay * list RelayOut :=
  let s := set_task k (Served src Attached) s in
  if ok then (count_forwarded (zlen payload) s, [OSent k dst c (encode_forward src payload)])
  else (count_dropped s, []).

(** ** The relay *)

Inductive RelayEvent : Type :=
| EAccept
| EHandshake (k : nat) (id : option bytes)
| ERegister (k : nat) (ok : bool)
| EAttach (k : nat)
| EDatagram (k : nat) (frame : bytes) (paid : bool)
| ERoute (k : nat)
| ESend (k : nat) (ok : bool)
| EControl (k : nat) (message : RelayControl) (ok : bool)
| ELost (k : nat)
| EDetach (k : nat)
| EDone (k : nat)
| EAbort (k : nat)
| EDrain
| EDrainNotices
| EStop.

(** The select ended: the connection is closed before it is detached. *)
Definition leave (id : bytes) (k : nat) (s : Relay) : Relay * list RelayOut :=
  (set_task k (Served id Ending) s, [OClosed k (bs "relay session ended")]).
(** The control half of a session. *)
Definition on_control (id : bytes) (k : nat) (message : RelayControl) (ok : bool) (s : Relay)
  : Relay * list RelayOut :=
  match message with
  | RPing seq =>
      if ok then (s, [ONotice k (RPong seq)])
      else let '(s, o) := leave id k s in (s, OClosed k (bs "relay control ended") :: o)
  | RPong _ => (s, [])
  | _ => leave id k s
  end.
(** A task is dropped at an await: its guards unlink and close what it owns. *)
Definition abort (k : nat) (t : Task) (s : Relay) : option (Relay * list RelayOut) :=
  let close := [OClosed k (bs "relay control ended")] in
  match t with
  | Handshaking => Some (end_task k s, [])
  | Served id Registering => Some (end_task k s, close)
  | Served id (Attached | Notifying) => Some (end_task k (remove_registration id k s).1, close)
  | Served _ _ => None
  end.
Definition relay_step (e : RelayEvent) (s : Relay) : option (Relay * list RelayOut) :=
  match e with
  | EAccept =>
      if rl_draining s || (rl_available s <=? 0) then Some (count_rejected s, []) else Some (spawn s, [])
  | EHandshake k r =>
      match rl_tasks s !! k with
      | Some Handshaking => Some (match r with Some id => serve_conn id k s | None => (end_task k s, []) end)
      | _ => None
      end
  | ERegister k ok =>
      match rl_tasks s !! k with
      | Some (Served id Registering) =>
          Some (if ok then (set_task k (Served id Acked) s, [ONotice k Registered])
                else (end_task k s, [OClosed k (bs "relay control ended")]))
      | _ => None
      end
  | EAttach k => match rl_tasks s !! k with Some (Served id Acked) => Some (attach id k s) | _ => None end
  | EDatagram k frame paid =>
      match rl_tasks s !! k with Some (Served id Attached) => Some (take_datagram id k frame paid s, []) | _ => None end
  | ERoute k =>
      match rl_tasks s !! k with Some (Served id (Routing dst payload)) => Some (route_frame id k dst payload s, []) | _ => None end
  | ESend k ok =>
      match rl_tasks s !! k with Some (Served id (Sending dst c payload)) => Some (send_frame id k dst c payload ok s) | _ => None end
  | EControl k message ok =>
      match rl_tasks s !! k with Some (Served id Attached) => Some (on_control id k message ok s) | _ => None end
  | ELost k => match rl_tasks s !! k with Some (Served id Attached) => Some (leave id k s) | _ => None end
  | EDetach k =>
      match rl_tasks s !! k with
      | Some (Served id Ending) =>
          let r := remove_registration id k s in
          Some (set_task k (Served id Notifying) r.1, notify_all r.2 (PeerGone id))
      | _ => None
      end
  | EDone k =>
      match rl_tasks s !! k with
      | Some (Served id Notifying) =>
          Some (end_task k (remove_registration id k s).1, [OClosed k (bs "relay control ended")])
      | _ => None
      end
  | EAbort k => match rl_tasks s !! k with Some t => abort k t s | None => None end
  | EDrain => Some (set_draining s, [])
  | EDrainNotices =>
      if rl_draining s then Some (s, notify_all (map_to_list (rl_conns s)).*2 Drain) else None
  | EStop =>
      if rl_draining s
      then Some (set_recent ∅ (set_conns ∅ s), map (fun kv => OClosed kv.2 (bs "relay closed")) (map_to_list (rl_conns s)))
      else None
  end.
Fixpoint relay_run (es : list RelayEvent) (s : Relay) : option (Relay * list RelayOut) :=
  match es with
  | [] => Some (s, [])
  | e :: es =>
      match relay_step e s with
      | None => None
      | Some (s, o) => match relay_run es s with None => None | Some (s, os) => Some (s, o ++ os) end
      end
  end.

(** ** The invariant *)

(** The phases in which a task's slot may be in the table. *)
Definition owns (p : Phase) : bool :=
  match p with Attached | Routing _ _ | Sending _ _ _ | Ending => true | _ => false end.
(** Who sent to whom: both ends are attached and each destination remembers 1 to 64 sources. *)
Definition recent_ok (conns : gmap bytes nat) (recent : gmap bytes (gset bytes)) : Prop :=
  forall dst sources, recent !! dst = Some sources ->
    is_Some (conns !! dst) /\ (forall src, src ∈ sources -> is_Some (conns !! src)) /\
    sources <> ∅ /\ Z.of_nat (size sources) <= MAX_RECENT_PEERS.
Record relay_inv (max_connections : Z) (s : Relay) : Prop := mkRelayInv {
  ri_permits : Z.of_nat (size (rl_tasks s)) + rl_available s = max_connections /\ 0 <= rl_available s;
  ri_fresh : forall k t, rl_tasks s !! k = Some t -> (k < rl_next s)%nat;
  ri_conns : forall id k, rl_conns s !! id = Some k -> exists p, rl_tasks s !! k = Some (Served id p) /\ owns p = true;
  ri_allow : forall k id p, rl_tasks s !! k = Some (Served id p) -> is_allowed s id = true;
  ri_recent : recent_ok (rl_conns s) (rl_recent s)
}.
#[local] Hint Resolve ri_permits ri_fresh ri_conns ri_allow ri_recent : core.

Section Invariant.
Context (n : Z).
Lemma server_new_inv allow : 0 <= n -> relay_inv n (server_new allow n).
Proof. intros Hn. split; cbn; [by rewrite map_size_empty| | | |unfold recent_ok]; intros *; by rewrite lookup_empty. Qed.
Lemma set_task_inv k id p0 p s :
  relay_inv n s -> rl_tasks s !! k = Some (Served id p0) ->
  (owns p0 = true -> owns p = true \/ rl_conns s !! id <> Some k) -> relay_inv n (set_task k (Served id p) s).
Proof.
  intros [Hp Hf Hc Ha Hr] Hk Ho. split; cbn; [by rewrite map_size_insert_Some by eauto| | | |done].
  - intros j t. rewrite lookup_insert. case_decide; [intros _; subst; by eauto|by eauto].
  - intros i j Hj. destruct (Hc i j Hj) as (q & Hq & Hoq). rewrite lookup_insert. case_decide as E; [|by eauto].
    subst j. rewrite Hk in Hq. injection Hq as <- <-. exists p. split; [done|]. destruct (Ho Hoq); done.
  - intros j i q. rewrite lookup_insert. case_decide; [intros [= <- <-]; eapply (Ha k), Hk|apply Ha].
Qed.
Lemma end_task_inv k t s :
  relay_inv n s -> rl_tasks s !! k = Some t -> (forall id, rl_conns s !! id <> Some k) -> relay_inv n (end_task k s).
Proof.
  intros [Hp Hf Hc Ha Hr] Hk Hn. split; cbn; [| | | |done].
  - rewrite map_size_delete_Some by eauto. assert (size (rl_tasks s) <> 0)%nat; [|lia].
    intros E%map_size_empty_inv. rewrite E in Hk. by rewrite lookup_empty in Hk.
  - intros j u [_ Hu]%lookup_delete_Some. by eauto.
  - intros i j Hj. destruct (Hc i j Hj) as (q & Hq & Hoq). exists q. split; [|done]. apply lookup_delete_Some. split; [|done].
    intros ->. by eapply Hn.
  - intros j i q [_ Hq]%lookup_delete_Some. by eapply Ha.
Qed.
Lemma spawn_inv s : relay_inv n s -> 0 < rl_available s -> relay_inv n (spawn s).
Proof.
  intros [Hp Hf Hc Ha Hr] H0. assert (rl_tasks s !! rl_next s = None) as Hn
    by (destruct (rl_tasks s !! rl_next s) eqn:E; [|done]; apply Hf in E; lia).
  split; cbn; [rewrite map_size_insert_None by done; lia| | | |done].
  - intros k t. rewrite lookup_insert. case_decide; [subst; lia|]. intros Hk%Hf. lia.
  - intros i j Hj. destruct (Hc i j Hj) as (q & Hq & Hoq). exists q. split; [|done]. rewrite lookup_insert_ne; [done|congruence].
  - intros k id p. rewrite lookup_insert. case_decide; [done|]. apply Ha.
Qed.
Lemma unlinked k id p s :
  relay_inv n s -> rl_tasks s !! k = Some (Served id p) -> owns p = false \/ rl_conns s !! id <> Some k ->
  forall i, rl_conns s !! i <> Some k.
Proof.
  intros Hi Hk Ho i Hc. destruct (ri_conns _ _ Hi _ _ Hc) as (q & Hq & Hoq). rewrite Hk in Hq. injection Hq as <- <-.
  destruct Ho; congruence.
Qed.
Lemma remove_inv id k s :
  relay_inv n s -> relay_inv n (remove_registration id k s).1 /\ rl_conns (remove_registration id k s).1 !! id <> Some k.
Proof.
  intros Hi. pose proof Hi as [Hp Hf Hc Ha Hr]. unfold remove_registration. case_bool_decide as E; cbn; [|done].
  split; [|by rewrite lookup_delete_eq]. split; cbn; [done|done| |done|].
  - intros i j [_ Hj]%lookup_delete_Some. by apply Hc.
  - intros d x [Hx Hne]%map_lookup_filter_Some. cbn in Hne. rewrite lookup_fmap in Hx.
    apply fmap_Some_1 in Hx as (y & Hy & ->). apply lookup_delete_Some in Hy as [Hd Hy].
    destruct (Hr d y Hy) as (Hcd & Hs & _ & Hz). split; [by rewrite lookup_delete_ne|]. split; [|split; [done|]].
    + intros src [Hsrc Hn]%elem_of_difference. rewrite lookup_delete_ne by (intros <-; apply Hn; by apply elem_of_singleton). by apply Hs.
    + assert (size (y ∖ {[id]}) <= size y)%nat by (apply subseteq_size; set_solver). lia.
Qed.
Lemma attach_inv id k s : relay_inv n s -> rl_tasks s !! k = Some (Served id Acked) -> relay_inv n (attach id k s).1.
Proof.
  intros Hi Hk. unfold attach. destruct (rl_draining s); cbn.
  { eapply end_task_inv; [done|done|]. eapply unlinked; [done|done|by left]. }
  destruct Hi as [Hp Hf Hc Ha Hr]. split; cbn; [by rewrite map_size_insert_Some by eauto| | | |].
  - intros j t. rewrite lookup_insert. case_decide; [intros _; subst; by eauto|by eauto].
  - intros i j. rewrite lookup_insert. case_decide as E; [intros [= <-]; subst; exists Attached; by rewrite lookup_insert_eq|].
    intros Hj. destruct (Hc i j Hj) as (q & Hq & Hoq). exists q. split; [|done]. rewrite lookup_insert_ne; [done|].
    intros <-. rewrite Hk in Hq. by injection Hq as <- <-.
  - intros j i q. rewrite lookup_insert. case_decide; [intros [= <- <-]; eapply (Ha k), Hk|apply Ha].
  - intros d x Hx. destruct (Hr d x Hx) as (Hd & Hs & Hrest). split; [|split; [|done]].
    + rewrite lookup_insert. case_decide; by eauto.
    + intros src Hsrc. rewrite lookup_insert. case_decide; [by eauto|by apply Hs].
Qed.
Lemma remember_ok conns dst src recent :
  recent_ok conns recent -> is_Some (conns !! dst) -> is_Some (conns !! src) -> recent_ok conns (remember dst src recent).
Proof.
  intros Hr Hd Hs d x. unfold remember. rewrite lookup_insert. case_decide as E; [subst d|apply Hr]. intros [= <-].
  split; [done|]. destruct (recent !! dst) as [y|] eqn:Ey; cbn.
  2: { rewrite size_empty. change (Z.of_nat 0 <? MAX_RECENT_PEERS) with true. cbn. split; [intros p Hp; assert (p = src) as -> by set_solver; done|]. split; [set_solver|].
       rewrite (right_id_L ∅ (∪)), size_singleton. done. }
  destruct (Hr dst y Ey) as (_ & Hy & Hne & Hz). destruct (_ <? _) eqn:El; [|done]. b2p.
  split; [intros p [->%elem_of_singleton|Hp]%elem_of_union; auto|]. split; [set_solver|].
  assert (size ({[src]} ∪ y) <= 1 + size y)%nat by (rewrite size_union_alt, size_singleton; apply Nat.add_le_mono_l, subseteq_size; set_solver).
  unfold MAX_RECENT_PEERS in *. lia.
Qed.
Lemma route_frame_inv src k dst payload s :
  relay_inv n s -> rl_tasks s !! k = Some (Served src (Routing dst payload)) -> relay_inv n (route_frame src k dst payload s).
Proof.
  intros Hi Hk. unfold route_frame. assert (relay_inv n (count_dropped (set_task k (Served src Attached) s))).
  { destruct (set_task_inv k src _ Attached s Hi Hk (fun _ => or_introl eq_refl)). by split. }
  case_bool_decide as E; cbn; [|done]. destruct (rl_conns s !! dst) as [c|] eqn:Ed; [|done].
  eapply set_task_inv; [|done|by left]. pose proof Hi as []. split; try done. cbn. by apply remember_ok.
Qed.
Lemma phase_inv k id p0 p s :
  relay_inv n s -> rl_tasks s !! k = Some (Served id p0) -> owns p0 = false \/ owns p = true ->
  relay_inv n (set_task k (Served id p) s).
Proof. intros Hi Hk Ho. eapply set_task_inv; [done|done|]. destruct Ho; [congruence|by left]. Qed.
Lemma finish_inv k id p s :
  relay_inv n s -> rl_tasks s !! k = Some (Served id p) -> owns p = false -> relay_inv n (end_task k s).
Proof. intros Hi Hk Ho. eapply end_task_inv; [done|done|]. eapply unlinked; [done|done|by left]. Qed.
Lemma remove_tasks id k s : rl_tasks (remove_registration id k s).1 = rl_tasks s.
Proof. unfold remove_registration. by case_bool_decide. Qed.
Lemma unregister_inv k id p s :
  relay_inv n s -> rl_tasks s !! k = Some (Served id p) -> relay_inv n (end_task k (remove_registration id k s).1).
Proof.
  intros Hi Hk. destruct (remove_inv id k s Hi) as [Hi' Hn]. rewrite <-(remove_tasks id k) in Hk.
  eapply end_task_inv; [done|done|]. eapply unlinked; [done|done|by right].
Qed.
Lemma incoming_inv k s : relay_inv n s -> rl_tasks s !! k = Some Handshaking -> relay_inv n (end_task k s).
Proof.
  intros Hi Hk. eapply end_task_inv; [done|done|]. intros i Hc. destruct (ri_conns _ _ Hi _ _ Hc) as (q & Hq & _). congruence.
Qed.
Lemma serve_conn_inv id k s : relay_inv n s -> rl_tasks s !! k = Some Handshaking -> relay_inv n (serve_conn id k s).1.
Proof.
  intros Hi Hk. unfold serve_conn. destruct (rl_draining s); [by apply incoming_inv|].
  destruct (is_allowed s id) eqn:El; [|by apply incoming_inv]. cbn.
  destruct Hi as [Hp Hf Hc Ha Hr]. split; cbn; [by rewrite map_size_insert_Some by eauto| | | |done].
  - intros j t. rewrite lookup_insert. case_decide; [intros _; subst; by eauto|by eauto].
  - intros i j Hj. destruct (Hc i j Hj) as (q & Hq & Hoq). exists q. split; [|done]. rewrite lookup_insert_ne; [done|congruence].
  - intros j i q. rewrite lookup_insert. case_decide; [by intros [= <- <-]|apply Ha].
Qed.
Lemma on_control_inv id k m ok s :
  relay_inv n s -> rl_tasks s !! k = Some (Served id Attached) -> relay_inv n (on_control id k m ok s).1.
Proof. intros Hi Hk. destruct m; cbn; try done; try (eapply phase_inv; [done|done|by right]). destruct ok; [done|]. cbn. by eapply phase_inv; [done|done|right]. Qed.
Lemma relay_step_inv e s s' o : relay_inv n s -> relay_step e s = Some (s', o) -> relay_inv n s'.
Proof.
  intros Hi H. destruct e as [|k r|k ok|k|k frame paid|k|k ok|k m ok|k|k|k|k| | |]; cbn in H;
    try (destruct (rl_tasks s !! k) as [[|id p]|] eqn:Hk; [|destruct p|]); try discriminate H;
    apply (f_equal (fmap fst)) in H; cbn in H; try (injection H as H).
  - destruct (rl_draining s || (rl_available s <=? 0)) eqn:Eo; injection H as <-; [by destruct Hi|].
    apply orb_false_iff in Eo as [_ Ea]. b2p. by apply spawn_inv.
  - destruct r; subst s'; [by apply serve_conn_inv|by apply incoming_inv].
  - destruct ok; subst s'; [by eapply phase_inv; [|done|left]|by eapply finish_inv].
  - subst s'. by apply attach_inv.
  - subst s'. unfold take_datagram. destruct paid; cbn; [|by destruct Hi]. destruct (decode_frame frame) as [[dst payload]|]; [|by destruct Hi].
    eapply phase_inv; [done|done|by right].
  - subst s'. by apply route_frame_inv.
  - assert (relay_inv n (set_task k (Served id Attached) s)) as [] by (eapply phase_inv; [done|done|by right]).
    unfold send_frame in H. destruct ok; subst s'; by split.
  - subst s'. by apply on_control_inv.
  - subst s'. eapply phase_inv; [done|done|by right].
  - subst s'. destruct (remove_inv id k s Hi) as [Hi' Hn]. eapply set_task_inv; [done|by rewrite remove_tasks|by right].
  - subst s'. by eapply unregister_inv.
  - subst s'. by apply incoming_inv.
  - subst s'. by eapply finish_inv.
  - subst s'. by eapply unregister_inv.
  - subst s'. by eapply unregister_inv.
  - subst s'. by destruct Hi.
  - destruct (rl_draining s); [|done]. by injection H as <-.
  - destruct (rl_draining s); [|done]. injection H as <-. destruct Hi as [Hp Hf Hc Ha Hr]. split; cbn; try done.
Qed.
End Invariant.

(** A fact about the events so far, the state and the outputs so far, for whole runs. *)
Lemma relay_run_ind (P : list RelayEvent -> Relay -> list RelayOut -> Prop) allow n es s os :
  0 <= n -> P [] (server_new allow n) [] ->
  (forall es e s s' os o, relay_inv n s -> P es s os -> relay_step e s = Some (s', o) -> P (es ++ [e]) s' (os ++ o)) ->
  relay_run es (server_new allow n) = Some (s, os) -> P es s os /\ relay_inv n s.
Proof.
  intros Hn H0 Hs Hr. rewrite <- (app_nil_l es), <- (app_nil_l os). revert Hr H0. generalize (server_new_inv n allow Hn).
  generalize (@nil RelayOut), (@nil RelayEvent), (server_new allow n). intros os0 es0 s0 Hi H HP. revert os0 es0 s0 os Hi H HP.
  induction es as [|e es IH]; intros os0 es0 s0 os Hi H HP; cbn [relay_run] in H.
  - injection H as <- <-. by rewrite !app_nil_r.
  - destruct (relay_step e s0) as [[s1 o]|] eqn:E; [|done].
    destruct (relay_run es s1) as [[s2 os2]|] eqn:El; [|done]. injection H as <- <-.
    rewrite app_assoc. replace (es0 ++ e :: es) with ((es0 ++ [e]) ++ es) by (by rewrite <-app_assoc).
    eapply IH; [by eapply relay_step_inv|exact El|by eapply Hs].
Qed.

(** ** What is forwarded *)

(** The datagrams connection [k] sent that its bucket let through, as destination and
    payload, and what was sent on behalf of [k], as destination and bytes. *)
Definition read_by (k : nat) (es : list RelayEvent) : list (bytes * bytes) :=
  omap (fun e => match e with EDatagram j frame true => if decide (j = k) then decode_frame frame else None | _ => None end) es.
Definition sent_by (k : nat) (os : list RelayOut) : list (bytes * bytes) :=
  omap (fun o => match o with OSent j dst _ frame => if decide (j = k) then Some (dst, frame) else None | _ => None end) os.
Definition from (src : bytes) (m : bytes * bytes) : bytes * bytes := (m.1, encode_forward src m.2).
(** What a task has read and not yet sent. *)
Definition pending (t : option Task) : list (bytes * bytes) :=
  match t with
  | Some (Served id (Routing dst payload)) | Some (Served id (Sending dst _ payload)) => [from id (dst, payload)]
  | _ => []
  end.
Lemma sent_by_app k os os' : sent_by k (os ++ os') = sent_by k os ++ sent_by k os'.
Proof. apply omap_app. Qed.
Lemma sent_by_closed {A} k (f : A -> nat) (g : A -> bytes) l : sent_by k (map (fun x => OClosed (f x) (g x)) l) = [].
Proof. by induction l. Qed.
Lemma sent_by_notices k l m : sent_by k (notify_all l m) = [].
Proof. by induction l. Qed.
Lemma remove_recipients_tasks id k s j : rl_tasks (remove_registration id k s).1 !! j = rl_tasks s !! j.
Proof. by rewrite remove_tasks. Qed.
Lemma step_effect e s s' o k src :
  relay_step e s = Some (s', o) -> (forall id p, rl_tasks s !! k = Some (Served id p) -> id = src) ->
  sent_by k o ++ pending (rl_tasks s' !! k) `sublist_of` pending (rl_tasks s !! k) ++ (from src <$> read_by k [e]).
Proof.
  intros H Hk. destruct e as [|j r|j ok|j|j frame paid|j|j ok|j m ok|j|j|j|j| | |]; cbn in H;
    try (destruct (rl_tasks s !! j) as [[|id p]|] eqn:Hj; [|destruct p|]); try discriminate H;
    try (destruct (decide (j = k)) as [->|Hne]).
  all: unfold serve_conn, attach, take_datagram, route_frame, send_frame, on_control, leave, abort in H.
  all: repeat case_match; simplify_eq/=.
  all: rewrite ?lookup_insert, ?lookup_delete, ?remove_recipients_tasks, ?sent_by_closed, ?sent_by_notices; cbn.
  all: repeat case_decide; subst; try done; rewrite ?Hj, ?app_nil_r; cbn; try apply sublist_nil_l; try reflexivity.
  all: try by apply sublist_inserts_r.
  destruct paid; [|done]. by rewrite H1, (Hk _ _ Hj).
Qed.

Record history (es : list RelayEvent) (s : Relay) (os : list RelayOut) : Prop := mkHistory {
  hi_auth : forall k id p, rl_tasks s !! k = Some (Served id p) -> EHandshake k (Some id) ∈ es;
  hi_none : forall k r, rl_tasks s !! k = Some Handshaking \/ (rl_next s <= k)%nat -> EHandshake k r ∉ es;
  hi_once : forall k id id', EHandshake k (Some id) ∈ es -> EHandshake k (Some id') ∈ es -> id = id';
  hi_order : forall k src, EHandshake k (Some src) ∈ es ->
    sent_by k os ++ pending (rl_tasks s !! k) `sublist_of` (from src <$> read_by k es);
  hi_dest : forall k id dst c payload, rl_tasks s !! k = Some (Served id (Sending dst c payload)) ->
    EHandshake c (Some dst) ∈ es /\ is_allowed s dst = true;
  hi_sent : forall k dst c frame, OSent k dst c frame ∈ os ->
    EHandshake c (Some dst) ∈ es /\ is_allowed s dst = true /\
    exists src, EHandshake k (Some src) ∈ es /\ is_allowed s src = true
}.
(** What a step does to one task, and to what was decided when the relay started. *)
Lemma step_task e s s' o k id p :
  relay_step e s = Some (s', o) -> rl_tasks s' !! k = Some (Served id p) ->
  e = EHandshake k (Some id) /\ p = Registering /\ rl_tasks s !! k = Some Handshaking \/
  exists q, rl_tasks s !! k = Some (Served id q) /\ (p = q \/ forall dst c payload, p = Sending dst c payload -> rl_conns s !! dst = Some c).
Proof.
  intros H Hk. destruct e as [|j r|j ok|j|j frame paid|j|j ok|j m ok|j|j|j|j| | |]; cbn in H;
    try (destruct (rl_tasks s !! j) as [[|id' p']|] eqn:Hj; [|destruct p'|]); try discriminate H.
  all: unfold serve_conn, attach, take_datagram, route_frame, send_frame, on_control, leave, abort in H.
  all: repeat case_match; simplify_eq/=.
  all: rewrite ?lookup_insert, ?lookup_delete, ?remove_recipients_tasks in Hk; repeat case_decide; simplify_eq/=; eauto 10.
  all: right; eexists; split; [done|]; right; intros ? ? ? [=]; by subst.
Qed.
Lemma step_frame e s s' o :
  relay_step e s = Some (s', o) -> rl_allow s' = rl_allow s /\ (rl_next s <= rl_next s')%nat /\
  (forall k, rl_tasks s' !! k = Some Handshaking -> rl_tasks s !! k = Some Handshaking \/ (rl_next s <= k)%nat) /\
  (forall k r, e = EHandshake k r -> rl_tasks s !! k = Some Handshaking /\ rl_tasks s' !! k <> Some Handshaking).
Proof.
  intros H. destruct e as [|j r|j ok|j|j frame paid|j|j ok|j m ok|j|j|j|j| | |]; cbn in H;
    try (destruct (rl_tasks s !! j) as [[|id' p']|] eqn:Hj; [|destruct p'|]); try discriminate H.
  all: unfold serve_conn, attach, take_datagram, route_frame, send_frame, on_control, leave, abort, remove_registration in H.
  all: repeat case_match; simplify_eq/=; split_and!; try done; try lia.
  all: intros k; rewrite ?lookup_insert, ?lookup_delete; repeat case_decide; intros; simplify_eq/=; eauto.
Qed.
Lemma step_sent e s s' o k dst c frame :
  relay_step e s = Some (s', o) -> OSent k dst c frame ∈ o ->
  exists src payload, rl_tasks s !! k = Some (Served src (Sending dst c payload)) /\ frame = encode_forward src payload.
Proof.
  intros H Ho. destruct e as [|j r|j ok|j|j fr paid|j|j ok|j m ok|j|j|j|j| | |]; cbn in H;
    try (destruct (rl_tasks s !! j) as [[|id' p']|] eqn:Hj; [|destruct p'|]); try discriminate H.
  all: unfold serve_conn, attach, send_frame, on_control, leave, abort, notify_all in H.
  all: repeat case_match; simplify_eq/=; try (apply elem_of_nil in Ho; done).
  all: try (apply list_elem_of_fmap in Ho as (? & [=] & _)).
  all: repeat (apply elem_of_cons in Ho as [Ho|Ho]; [try discriminate Ho|]); try (apply elem_of_nil in Ho; done).
  simplify_eq. by eauto.
Qed.
Lemma history_new allow n : history [] (server_new allow n) [].
Proof. split; cbn; intros *; rewrite ?lookup_empty; try done; try (intros H; by apply elem_of_nil in H). by intros _ []%elem_of_nil. Qed.
Lemma history_step n es e s s' os o :
  relay_inv n s -> history es s os -> relay_step e s = Some (s', o) -> history (es ++ [e]) s' (os ++ o).
Proof.
  intros Hi [Hau Hno Hon Hor Hde Hse] H. pose proof (step_frame _ _ _ _ H) as (Hal & Hnx & Hhs & Hev).
  assert (Hin : forall x, x ∈ es -> x ∈ es ++ [e]) by (intros; apply elem_of_app; by left).
  assert (Hallow : forall id, is_allowed s' id = is_allowed s id) by (intros; unfold is_allowed; by rewrite Hal).
  assert (Hau' : forall k id p, rl_tasks s' !! k = Some (Served id p) -> EHandshake k (Some id) ∈ es ++ [e]).
  { intros k id p Hk. destruct (step_task _ _ _ _ _ _ _ H Hk) as [(-> & _ & _)|(q & Hq & _)]; [|by eapply Hin, Hau].
    apply elem_of_app. right. by apply list_elem_of_singleton. }
  assert (Hon' : forall k id id', EHandshake k (Some id) ∈ es ++ [e] -> EHandshake k (Some id') ∈ es ++ [e] -> id = id').
  { intros k id id' [H1|H1%list_elem_of_singleton]%elem_of_app [H2|H2%list_elem_of_singleton]%elem_of_app; [by eapply Hon| | |congruence].
    - destruct (Hev k (Some id') (eq_sym H2)) as [Hk _]. by destruct (Hno k (Some id) (or_introl Hk)).
    - destruct (Hev k (Some id) (eq_sym H1)) as [Hk _]. by destruct (Hno k (Some id') (or_introl Hk)). }
  split; [done| |done| | |].
  - intros k r Hk [Hr|Hr%list_elem_of_singleton]%elem_of_app.
    + eapply Hno; [|exact Hr]. destruct Hk as [Hk|Hk]; [by apply Hhs|right; lia].
    + symmetry in Hr. destruct (Hev k r Hr) as [Hk1 Hk2]. destruct Hk as [Hk|Hk]; [done|]. apply (ri_fresh _ _ Hi) in Hk1. lia.
  - intros k src Hk. rewrite sent_by_app, <-app_assoc. unfold read_by. rewrite omap_app, fmap_app.
    etrans; [apply sublist_app; [reflexivity|]|].
    { apply (step_effect _ _ _ _ _ src H). intros id p Hp. eapply Hon'; [by eapply Hin, Hau|done]. }
    rewrite app_assoc. apply sublist_app; [|done]. apply elem_of_app in Hk as [Hk|Hk%list_elem_of_singleton]; [by apply Hor|].
    destruct (Hev k _ (eq_sym Hk)) as [Hh _]. rewrite Hh. cbn. rewrite app_nil_r.
    destruct (sent_by k os) as [|x l] eqn:El; [apply sublist_nil_l|]. assert (x ∈ sent_by k os) as Hx by (rewrite El; constructor).
    apply list_elem_of_omap in Hx as (y & Hy & Ey). destruct y as [|j d c f|]; try done. case_decide; [subst j|done].
    destruct (Hse _ _ _ _ Hy) as (_ & _ & src' & Hs & _). by destruct (Hno k (Some src') (or_introl Hh)).
  - intros k id dst c payload Hk. rewrite Hallow. destruct (step_task _ _ _ _ _ _ _ H Hk) as [(_ & [=] & _)|(q & Hq & Hp)].
    destruct Hp as [<-|Hp]; [destruct (Hde _ _ _ _ _ Hq); auto|]. specialize (Hp _ _ _ eq_refl).
    destruct (ri_conns _ _ Hi _ _ Hp) as (p & Hc & _). split; [by eapply Hin, Hau|by eapply ri_allow].
  - intros k dst c frame [Ho|Ho]%elem_of_app; rewrite Hallow.
    + destruct (Hse _ _ _ _ Ho) as (H1 & H2 & src & H3 & H4). split; [auto|]. split; [done|]. exists src. rewrite Hallow. auto.
    + destruct (step_sent _ _ _ _ _ _ _ _ H Ho) as (src & payload & Hk & _). destruct (Hde _ _ _ _ _ Hk).
      split; [auto|]. split; [done|]. exists src. rewrite Hallow. split; [by eapply Hin, Hau|by eapply ri_allow].
Qed.

Lemma relay_history allow n es s os :
  0 <= n -> relay_run es (server_new allow n) = Some (s, os) -> history es s os /\ rl_allow s = rl_allow (server_new allow n).
Proof.
  intros Hn H. apply (relay_run_ind (fun es s os => history es s os /\ rl_allow s = rl_allow (server_new allow n))) in H as [Hh _];
    [done|done|by split; [apply history_new|]|].
  intros es0 e s0 s1 os0 o Hi [Hh Ha] Hs. split; [by eapply history_step|]. rewrite <-Ha. by eapply step_frame.
Qed.
(** What was sent on behalf of a connection is what it read, under its own name. *)
Lemma sent_was_read es s os k src dst c frame :
  history es s os -> EHandshake k (Some src) ∈ es -> OSent k dst c frame ∈ os ->
  exists payload, (dst, payload) ∈ read_by k es /\ frame = encode_forward src payload.
Proof.
  intros Hh Hk Ho. assert ((dst, frame) ∈ sent_by k os) as Hs.
  { apply list_elem_of_omap. eexists. split; [exact Ho|]. cbn. by rewrite decide_True. }
  assert ((dst, frame) ∈ (from src <$> read_by k es)) as Hr.
  { eapply elem_of_submseteq; [exact Hs|]. apply sublist_submseteq. etrans; [|by apply Hh]. by apply sublist_inserts_r. }
  apply list_elem_of_fmap in Hr as ([d p] & [= -> ->] & Hin). by exists p.
Qed.
(** ** Theorems *)

(** C22: Whatever the clients send and however their tasks interleave, the relay forwards only
    what it was given: the datagrams it sends on behalf of a connection are, in order and at
    most once each, datagrams this connection sent, with the destination key replaced by the
    identity verified in the connection's handshake; each goes to a connection whose verified
    identity is the destination, and both ends are on the allowlist when there is one. *)
Theorem relay_never_spoofs allow (n : Z) es s os :
  0 <= n -> relay_run es (server_new allow n) = Some (s, os) ->
  (forall k src, EHandshake k (Some src) ∈ es -> sent_by k os `sublist_of` (from src <$> read_by k es)) /\
  (forall k dst c frame, OSent k dst c frame ∈ os ->
    EHandshake c (Some dst) ∈ es /\ (allow = [] \/ dst ∈ allow) /\
    exists src, EHandshake k (Some src) ∈ es /\ (allow = [] \/ src ∈ allow)) /\
  (forall k id id', EHandshake k (Some id) ∈ es -> EHandshake k (Some id') ∈ es -> id = id').
Proof.
  intros Hn H. apply relay_history in H as [Hh Ha]; [|done].
  assert (Hal : forall id, is_allowed s id = true -> allow = [] \/ id ∈ allow).
  { intros id. unfold is_allowed. rewrite Ha. destruct allow; [by left|]. intros Hid%bool_decide_eq_true. right. by apply elem_of_list_to_set in Hid. }
  split; [|split; [|apply Hh]].
  - intros k src Hk. etrans; [|by apply Hh]. apply sublist_inserts_r. reflexivity.
  - intros k dst c frame Ho. destruct (hi_sent _ _ _ Hh _ _ _ _ Ho) as (H1 & H2 & src & H3 & H4). eauto 10.
Qed.

Lemma list_set_size (l : list bytes) : (size (list_to_set l : gset bytes) <= length l)%nat.
Proof.
  induction l as [|x l IH]; [done|]. cbn [list_to_set length]. rewrite size_union_alt, size_singleton.
  pose proof (subseteq_size ((list_to_set l : gset bytes) ∖ {[x]}) (list_to_set l)) as H. specialize (H ltac:(set_solver)). lia.
Qed.
Lemma conns_size n s : relay_inv n s -> Z.of_nat (size (rl_conns s)) <= n - rl_available s.
Proof.
  intros [[Hp _] _ Hc _ _]. set (ids := omap (fun kt => match kt.2 with Served id _ => Some id | Handshaking => None end) (map_to_list (rl_tasks s))).
  assert (dom (rl_conns s) ⊆ list_to_set ids) as Hd.
  { intros id [k Hk]%elem_of_dom. destruct (Hc _ _ Hk) as (p & Ht & _). apply elem_of_list_to_set, list_elem_of_omap.
    exists (k, Served id p). split; [by apply elem_of_map_to_list|done]. }
  apply subseteq_size in Hd. rewrite size_dom in Hd.
  pose proof (list_set_size ids).
  assert (length ids <= length (map_to_list (rl_tasks s)))%nat by (unfold ids; generalize (map_to_list (rl_tasks s)); intros l; induction l as [|x l IH]; cbn; [done|]; destruct x.2; cbn; lia).
  rewrite length_map_to_list in *. lia.
Qed.
(** C23: At every moment the relay holds at most [max_connections] connection tasks, each with one
    admission permit, and no more attached endpoints than tasks; every attached endpoint is a
    live task with that verified identity, and the memory of who sent to whom names attached
    endpoints only, at most 64 for each of them: nothing is left of a connection that ended. *)
Theorem relay_state_bounded allow (n : Z) es s os :
  0 <= n -> relay_run es (server_new allow n) = Some (s, os) ->
  Z.of_nat (size (rl_tasks s)) + rl_available s = n /\ 0 <= rl_available s /\
  Z.of_nat (size (rl_conns s)) <= Z.of_nat (size (rl_tasks s)) /\
  (forall id k, rl_conns s !! id = Some k -> exists p, rl_tasks s !! k = Some (Served id p) /\ owns p = true) /\
  recent_ok (rl_conns s) (rl_recent s).
Proof.
  intros Hn H. apply (relay_run_ind (fun _ _ _ => True)) in H as [_ Hi]; try done. pose proof (conns_size _ _ Hi).
  destruct Hi as [[Hp H0] _ Hc _ Hr]. split; [done|]. split; [done|]. split; [lia|done].
Qed.

(** Once the relay drains, it attaches nobody: the table only loses entries. *)
Lemma draining_step e s s' o :
  relay_step e s = Some (s', o) -> rl_draining s = true -> rl_draining s' = true /\ rl_conns s' ⊆ rl_conns s.
Proof.
  intros H Hd. destruct e as [|j r|j ok|j|j frame paid|j|j ok|j m ok|j|j|j|j| | |]; cbn in H;
    try (destruct (rl_tasks s !! j) as [[|id' p']|] eqn:Hj; [|destruct p'|]); try discriminate H.
  all: unfold serve_conn, attach, take_datagram, route_frame, send_frame, on_control, leave, abort, remove_registration in H.
  all: rewrite ?Hd in H; repeat case_match; simplify_eq/=; split; try done; try apply delete_subseteq; try apply map_empty_subseteq.
Qed.
Lemma draining_run es s s' os :
  relay_run es s = Some (s', os) -> rl_draining s = true -> rl_conns s' ⊆ rl_conns s.
Proof.
  revert s os. induction es as [|e es IH]; intros s os H Hd; cbn [relay_run] in H; [by injection H as <- <-|].
  destruct (relay_step e s) as [[s1 o]|] eqn:E; [|done]. destruct (relay_run es s1) as [[s2 os2]|] eqn:El; [|done]. injection H as <- <-.
  destruct (draining_step _ _ _ _ E Hd). etrans; [by eapply IH|done].
Qed.
Lemma relay_run_app es1 es2 s s' os :
  relay_run (es1 ++ es2) s = Some (s', os) ->
  exists s1 os1 os2, relay_run es1 s = Some (s1, os1) /\ relay_run es2 s1 = Some (s', os2) /\ os = os1 ++ os2.
Proof.
  revert s os. induction es1 as [|e es1 IH]; intros s os H; cbn [relay_run app] in *; [by exists s, [], os|].
  destruct (relay_step e s) as [[s1 o]|]; [|done]. destruct (relay_run (es1 ++ es2) s1) as [[s2 os2]|] eqn:El; [|done]. injection H as <- <-.
  destruct (IH _ _ El) as (s3 & os3 & os4 & H3 & H4 & ->). exists s3, (o ++ os3), os4. by rewrite H3, app_assoc.
Qed.
(** When the relay drains, every endpoint that is still attached at any later moment was sent
    the drain notice: a registration that was in flight when the notices were collected
    either made it into the table before, or is refused. *)
Theorem drain_reaches_all es1 es2 (s0 s : Relay) os id c :
  relay_run (es1 ++ EDrainNotices :: es2) s0 = Some (s, os) -> rl_conns s !! id = Some c -> ONotice c Drain ∈ os.
Proof.
  intros (s1 & os1 & os2 & _ & H2 & ->)%relay_run_app Hc. cbn [relay_run relay_step] in H2. destruct (rl_draining s1) eqn:Ed; [|done].
  destruct (relay_run es2 s1) as [[s2 os3]|] eqn:El; [|done]. injection H2 as <- <-.
  apply elem_of_app. right. apply elem_of_app. left. apply list_elem_of_fmap. exists c. split; [done|].
  apply list_elem_of_fmap. exists (id, c). split; [done|]. apply elem_of_map_to_list. eapply lookup_weaken; [exact Hc|]. by eapply draining_run.
Qed.
(** An endpoint stays attached until its own session ends, it attaches again or the relay
    stops: no other connection's cleanup, not even that of an older session of the same
    endpoint, removes it. *)
Theorem registration_stays e (s s' : Relay) o id k :
  relay_step e s = Some (s', o) -> rl_conns s !! id = Some k -> rl_conns s' !! id <> Some k ->
  e = EDetach k \/ e = EDone k \/ e = EAbort k \/ e = EStop \/
  exists j, e = EAttach j /\ rl_tasks s !! j = Some (Served id Acked) /\ rl_conns s' !! id = Some j /\ OClosed k (bs "replaced") ∈ o.
Proof.
  assert (Hrm : forall i j, rl_conns s !! id = Some k -> rl_conns (remove_registration i j s).1 !! id <> Some k -> j = k).
  { intros i j Hc. unfold remove_registration. case_bool_decide as E; cbn; [|done]. rewrite lookup_delete.
    case_decide; [subst; congruence|done]. }
  intros H Hc Hn. destruct e as [|j r|j ok|j|j frame paid|j|j ok|j m ok|j|j|j|j| | |]; cbn in H;
    try (destruct (rl_tasks s !! j) as [[|id' p']|] eqn:Hj; [|destruct p'|]); try discriminate H.
  all: unfold serve_conn, attach, take_datagram, route_frame, send_frame, on_control, leave, abort in H.
  all: repeat case_match; simplify_eq/=; try done.
  all: try (apply Hrm in Hn; [|done]; subst; by auto).
  3: by auto.
  all: rewrite lookup_insert in Hn |- *; case_decide; simplify_eq/=; try done.
  do 4 right. exists j. split; [done|]. split; [done|]. split; [done|]. by apply list_elem_of_singleton.
Qed.
(** A datagram an attached endpoint sends to another attached endpoint is forwarded to the
    connection the destination holds at that moment, with the sender's verified identity in
    front, and the destination's departure is announced to its recent senders: when its
    session ends while it is the current one, exactly the attached endpoints the relay
    remembers as senders are told. *)
Theorem relay_forwards (s : Relay) k c src dst payload :
  rl_tasks s !! k = Some (Served src Attached) -> rl_conns s !! src = Some k -> rl_conns s !! dst = Some c ->
  zlen dst = KEY_HEADER_LEN -> zlen payload <= MAX_PAYLOAD ->
  (exists s', relay_run [EDatagram k (encode_forward dst payload) true; ERoute k; ESend k true] s =
     Some (s', [OSent k dst c (encode_forward src payload)]) /\
   rl_tasks s' !! k = Some (Served src Attached) /\ rl_conns s' = rl_conns s /\ rl_dropped s' = rl_dropped s /\
   rl_recent s' = remember dst src (rl_recent s)) /\
  (forall s1 o j p, rl_tasks s !! c = Some (Served dst Ending) -> relay_step (EDetach c) s = Some (s1, o) ->
     (ONotice j (PeerGone p) ∈ o <-> p = dst /\ exists peer, peer <> dst /\ rl_conns s !! peer = Some j /\
        peer ∈ default ∅ (rl_recent s !! dst))).
Proof.
  intros Hk Hs Hd Hl Hp. split.
  - cbn [relay_run relay_step]. rewrite Hk. unfold take_datagram. rewrite (relay_frame_roundtrip dst payload Hl Hp). cbn [negb].
    cbn [rl_tasks set_task]. rewrite lookup_insert_eq. unfold route_frame. cbn [rl_conns set_task].
    rewrite bool_decide_eq_true_2 by done. rewrite Hd. cbn. rewrite lookup_insert_eq. cbn. eexists. split; [done|].
    cbn. by rewrite lookup_insert_eq.
  - intros s1 o j p Hc H. cbn in H. rewrite Hc in H. injection H as <- <-. unfold remove_registration. rewrite bool_decide_eq_true_2 by done. cbn.
    unfold notify_all. rewrite list_elem_of_fmap. setoid_rewrite list_elem_of_omap. setoid_rewrite elem_of_elements. split.
    + intros (x & [= <- <-] & peer & Hin & Hx). split; [done|]. exists peer. apply lookup_delete_Some in Hx as [Hne Hx]. split; [congruence|done].
    + intros (-> & peer & Hne & Hx & Hin). exists j. split; [done|]. exists peer. split; [done|]. by rewrite lookup_delete_ne.
Qed.

Module RelayServerWitness.
Definition alice : bytes := repeat (ascii_of_nat 65) 32.
Definition bob : bytes := repeat (ascii_of_nat 66) 32.
Definition join (k : nat) (id : bytes) : list RelayEvent := [EAccept; EHandshake k (Some id); ERegister k true; EAttach k].
(** Two endpoints talk; one attaches again and its first connection is cleaned up late. *)
Definition talk : list RelayEvent :=
  join 0 alice ++ join 1 bob ++ [EDatagram 0 (bob ++ bs "hello") true; ERoute 0; ESend 0 true] ++
  join 2 bob ++ [EDatagram 1 (alice ++ bs "late") true; ERoute 1; ELost 1; EDetach 1; EDone 1;
  EDatagram 0 (bob ++ bs "again") true; ERoute 0; ESend 0 true; EDrain].
Definition after (es : list RelayEvent) : Relay * list RelayOut :=
  default (server_new [] 0, []) (relay_run es (server_new [alice; bob] 3)).
Lemma talk_runs : relay_run talk (server_new [alice; bob] 3) = Some (after talk).
Proof.
  assert (is_some (relay_run talk (server_new [alice; bob] 3)) = true) as H by (vm_compute; reflexivity).
  unfold after. by destruct (relay_run _ _).
Qed.
Lemma talk_facts :
  length (sent_by 0 (after talk).2) = 2%nat /\ sent_by 1 (after talk).2 = [] /\
  rl_conns (after talk).1 !! bob = Some 2%nat /\ rl_draining (after talk).1 = true.
Proof. vm_compute. done. Qed.
Lemma relay_never_spoofs_witness :
  sent_by 0 (after talk).2 `sublist_of` (from alice <$> read_by 0 talk) /\
  length (sent_by 0 (after talk).2) = 2%nat /\ sent_by 1 (after talk).2 = [].
Proof.
  split; [|split; apply talk_facts].
  destruct (relay_never_spoofs [alice; bob] 3 talk (after talk).1 (after talk).2) as (H & _);
    [lia|rewrite <-surjective_pairing; exact talk_runs|].
  apply (H 0%nat alice). do 1 right. left.
Defined.
Lemma relay_state_bounded_witness :
  Z.of_nat (size (rl_conns (after talk).1)) <= 3 /\ rl_conns (after talk).1 !! bob = Some 2%nat.
Proof.
  destruct (relay_state_bounded [alice; bob] 3 talk (after talk).1 (after talk).2) as (H1 & H2 & H3 & _);
    [lia|rewrite <-surjective_pairing; exact talk_runs|].
  split; [lia|apply talk_facts].
Defined.
Definition notices : list RelayOut := notify_all (map_to_list (rl_conns (after talk).1)).*2 Drain.
Lemma drained : relay_run ([] ++ EDrainNotices :: []) (after talk).1 = Some ((after talk).1, notices ++ []).
Proof. cbn [relay_run app]. unfold relay_step. by rewrite (proj2 (proj2 (proj2 talk_facts))). Qed.
Lemma drain_reaches_all_witness : ONotice 2 Drain ∈ notices ++ [].
Proof. apply (drain_reaches_all [] [] (after talk).1 (after talk).1 _ bob); [exact drained|apply talk_facts]. Defined.
(** Bob is attached and about to attach again. *)
Definition joined : Relay :=
  mkRelay {[alice := 0%nat; bob := 1%nat]} ∅ None false 0 0 0 0 0
    {[0%nat := Served alice Attached; 1%nat := Served bob Attached; 2%nat := Served bob Acked]} 3.
Lemma joined_alice : rl_conns joined !! alice = Some 0%nat.
Proof. vm_compute. reflexivity. Qed.
Lemma joined_bob : rl_conns joined !! bob = Some 1%nat.
Proof. vm_compute. reflexivity. Qed.
Definition rejoined : Relay * list RelayOut := attach bob 2 joined.
Lemma rejoins : relay_step (EAttach 2) joined = Some (rejoined.1, rejoined.2).
Proof. rewrite <-surjective_pairing. reflexivity. Qed.
Lemma rejoined_bob : rl_conns rejoined.1 !! bob <> Some 1%nat.
Proof. unfold rejoined, attach. cbn [rl_draining joined fst rl_conns set_task set_conns]. rewrite lookup_insert_eq. discriminate. Qed.
Lemma registration_stays_witness : exists j, EAttach 2 = EAttach j /\ OClosed 1 (bs "replaced") ∈ rejoined.2.
Proof.
  destruct (registration_stays (EAttach 2) joined rejoined.1 rejoined.2 bob 1 rejoins joined_bob rejoined_bob)
    as [?|[?|[?|[?|(j & E & _ & _ & Ho)]]]]; [discriminate|discriminate|discriminate|discriminate|].
  exact (ex_intro _ j (conj E Ho)).
Defined.
Lemma relay_forwards_witness : exists s',
  relay_run [EDatagram 0 (encode_forward bob (bs "hi")) true; ERoute 0; ESend 0 true] joined =
  Some (s', [OSent 0 bob 1 (encode_forward alice (bs "hi"))]).
Proof.
  destruct (relay_forwards joined 0 1 alice bob (bs "hi")) as [(s' & H & _) _];
    [reflexivity|exact joined_alice|exact joined_bob|reflexivity|by vm_compute|].
  by exists s'.
Defined.
End RelayServerWitness.
