(* ===== verification/RelayTunnel.v ===== *)
(** * The relay tunnel of an endpoint

    Models [RelaySocket] of [src/crates/rds-net/src/backends/noq/relay.rs]: the datagram pump
    that turns the relay's frames into packets from synthetic addresses, the bounded receive
    queue, [poll_recv], [poll_send], the control reader and the leases of [register_peer];
    and composes two tunnels with the relay between them.

    The pump, the control reader and the socket's owner run concurrently; each of their steps
    takes the table's lock at most once, so a run is a sequence of steps ([TunnelOp]).  Which
    bytes are a valid Ed25519 public key ([EndpointId::from_bytes]) is a parameter. *)

From S2P Require Import Prelude Net Crypto RelayPeers RelayServer.

Section Tunnel.
Context `{HB : Blake3} (valid_key : bytes -> bool).

Record Tunnel : Type := mkTunnel {
  tn_peers : Peers; tn_leases : list PeerLease;
  tn_queue : list (bytes * Addr); tn_limit : Z;
  tn_queue_full : Z; tn_peer_rejected : Z; tn_oversized : Z;
  tn_drained : bool; tn_open : bool
}.
(** [connect_with_limits], after the relay answered [Registered]. *)
Definition tunnel_new (slot max_peers grace_secs datagram_queue : Z) : Tunnel :=
  mkTunnel (peers_new max_peers (from_secs grace_secs) slot) [] [] datagram_queue 0 0 0 false true.
Definition with_peers p ls (t : Tunnel) := mkTunnel p ls (tn_queue t) (tn_limit t) (tn_queue_full t)
  (tn_peer_rejected t) (tn_oversized t) (tn_drained t) (tn_open t).
Definition with_queue q (t : Tunnel) := mkTunnel (tn_peers t) (tn_leases t) q (tn_limit t) (tn_queue_full t)
  (tn_peer_rejected t) (tn_oversized t) (tn_drained t) (tn_open t).
Definition count_full (t : Tunnel) := mkTunnel (tn_peers t) (tn_leases t) (tn_queue t) (tn_limit t)
  ((tn_queue_full t + 1) mod 2 ^ 64) (tn_peer_rejected t) (tn_oversized t) (tn_drained t) (tn_open t).
Definition count_rejected_peer (t : Tunnel) := mkTunnel (tn_peers t) (tn_leases t) (tn_queue t) (tn_limit t)
  (tn_queue_full t) ((tn_peer_rejected t + 1) mod 2 ^ 64) (tn_oversized t) (tn_drained t) (tn_open t).
Definition count_oversized (t : Tunnel) := mkTunnel (tn_peers t) (tn_leases t) (tn_queue t) (tn_limit t)
  (tn_queue_full t) (tn_peer_rejected t) ((tn_oversized t + 1) mod 2 ^ 64) (tn_drained t) (tn_open t).
Definition with_flags d o (t : Tunnel) := mkTunnel (tn_peers t) (tn_leases t) (tn_queue t) (tn_limit t)
  (tn_queue_full t) (tn_peer_rejected t) (tn_oversized t) d o.

(** The datagram pump, for one frame. *)
Definition dgram_pump (order : list Addr) (frame : bytes) (now : Z) (t : Tunnel) : Tunnel :=
  match decode_frame frame with
  | None => t
  | Some (src, payload) =>
      if negb (valid_key src) then t else
      let syn := synthetic_for (pr_slot (tn_peers t)) src in
      let '(p, r) := table_observe order src now (tn_peers t) in
      let t := with_peers p (tn_leases t) t in
      match r with
      | Err _ => count_rejected_peer t
      | Ok _ => if zlen (tn_queue t) <? tn_limit t then with_queue (tn_queue t ++ [(payload, syn)]) t else count_full t
      end
  end.
(** [poll_recv] into a buffer of [room] bytes: at most eight queued packets are looked at. *)
Fixpoint recv_loop (fuel : nat) (room : Z) (t : Tunnel) : Tunnel * option (bytes * Addr) :=
  match fuel with
  | O => (t, None)
  | S fuel =>
      match tn_queue t with
      | [] => (t, None)
      | (data, src) :: queue =>
          let t := with_queue queue t in
          if room <? zlen data then recv_loop fuel room (count_oversized t) else (t, Some (data, src))
      end
  end.
Definition poll_recv (room : Z) (t : Tunnel) : Tunnel * option (bytes * Addr) := recv_loop 8 room t.
(** [poll_send]: an unknown peer and a link that cannot take the frame are loss, not errors.
    What is given to the relay connection is the third component. *)
Definition poll_send (dst : Addr) (contents : bytes) (now : Z) (t : Tunnel) : Tunnel * result unit string * option bytes :=
  if negb (is_synthetic dst) then (t, Err "relay socket got non-relay transmit"%string, None) else
  match table_get dst now (tn_peers t) with
  | (p, None) => (with_peers p (tn_leases t) t, Ok tt, None)
  | (p, Some id) => (with_peers p (tn_leases t) t, Ok tt, Some (encode_forward id contents))
  end.
(** The control reader, for one message; [ok] says whether a reply could be written. *)
Definition ctrl_pump (m : RelayControl) (ok : bool) (t : Tunnel) : Tunnel :=
  match m with
  | Drain => with_flags true (tn_open t) t
  | PeerGone peer => if valid_key peer then with_peers (peer_gone peer (tn_peers t)) (tn_leases t) t else t
  | RPing _ => if ok then t else with_flags (tn_drained t) false t
  | RPong _ | Health _ _ => t
  | Register | Registered => with_flags (tn_drained t) false t
  end.

Inductive TunnelOp : Type :=
| UFrame (order : list Addr) (frame : bytes) (now : Z)
| URecv (room : Z)
| USend (dst : Addr) (contents : bytes) (now : Z)
| UControl (m : RelayControl) (ok : bool)
| URegister (order : list Addr) (peer : bytes) (now : Z)
| URelease (i : nat) (now : Z).
Inductive TunnelOut : Type :=
| UReceived (payload : bytes) (from : Addr)
| UForward (dst : Addr) (contents frame : bytes)
| URefused
| ULease (r : result PeerLease PeerRegistrationError).
Definition tunnel_step (op : TunnelOp) (t : Tunnel) : option (Tunnel * list TunnelOut) :=
  match op with
  | UFrame order frame now => if tn_open t then Some (dgram_pump order frame now t, []) else None
  | URecv room => let '(t, r) := poll_recv room t in
      Some (t, match r with Some (data, src) => [UReceived data src] | None => [] end)
  | USend dst contents now => let '(t, r, f) := poll_send dst contents now t in
      Some (t, match r, f with Err _, _ => [URefused] | Ok _, Some f => [UForward dst contents f] | Ok _, None => [] end)
  | UControl m ok => if tn_open t then Some (ctrl_pump m ok t, []) else None
  | URegister order peer now =>
      let '(p, r) := table_acquire order peer now (tn_peers t) in
      Some (with_peers p (match r with Ok l => tn_leases t ++ [l] | Err _ => tn_leases t end) t, [ULease r])
  | URelease i now =>
      match tn_leases t !! i with
      | Some l => Some (with_peers (lease_drop l now (tn_peers t)) (delete i (tn_leases t)) t, [])
      | None => None
      end
  end.
Fixpoint tunnel_run (ops : list TunnelOp) (t : Tunnel) : option (Tunnel * list TunnelOut) :=
  match ops with
  | [] => Some (t, [])
  | op :: ops =>
      match tunnel_step op t with
      | None => None
      | Some (t, o) => match tunnel_run ops t with None => None | Some (t, os) => Some (t, o ++ os) end
      end
  end.

(** ** What a tunnel receives and sends *)

(** The packets in the frames the relay sent, with the address each is received from. *)
Definition packet (slot : Z) (op : TunnelOp) : option (bytes * Addr) :=
  match op with
  | UFrame _ frame _ =>
      match decode_frame frame with
      | Some (src, payload) => if valid_key src then Some (payload, synthetic_for slot src) else None
      | None => None
      end
  | _ => None
  end.
Definition received (os : list TunnelOut) : list (bytes * Addr) :=
  omap (fun o => match o with UReceived payload a => Some (payload, a) | _ => None end) os.
(** Whoever is in the table was registered or observed. *)
Definition admits (P : bytes -> Prop) (op : TableOp) : Prop :=
  match op with TAcquire _ peer _ | TObserve _ peer _ => P peer | _ => True end.
Definition peers_are (P : bytes -> Prop) (t : Peers) : Prop := forall a e, pr_entries t !! a = Some e -> P (en_peer e).
Lemma admitted_peers (P : bytes -> Prop) peer pin now t t' r :
  admitted peer pin now t t' r -> P peer -> peers_are P t -> peers_are P t'.
Proof.
  intros [_ Hoth _ Hnew] Hp Hi a e He. destruct (decide (a = synthetic_for (pr_slot t) peer /\ is_ok r = true)) as [[-> Hr]|Hne].
  - destruct r as [b|]; [|done]. destruct (Hnew b eq_refl) as (-> & pins & Hb & _). rewrite He in Hb. by injection Hb as ->.
  - eapply Hi, Hoth; [exact He|]. destruct (is_ok r); [left|by right]. intros ->. by apply Hne.
Qed.
Lemma table_step_peers P op t ls t' ls' o :
  typed t -> admits P op -> peers_are P t -> table_step op (t, ls) = Some (t', ls', o) ->
  peers_are P t' /\ (forall a i, o = TPeer a (Some i) -> P i).
Proof.
  intros Ht Hp Hi H. destruct op as [order peer now|order peer now|a now|peer|i now]; cbn in H, Hp.
  - unfold table_acquire in H. destruct (table_admit order peer true now t) as [t1 r] eqn:E. injection H as <- <- <-.
    apply table_admit_spec in E as [Ha _]; [|done]. split; [by eapply admitted_peers|done].
  - unfold table_observe in H. destruct (table_admit order peer false now t) as [t1 r] eqn:E. injection H as <- <- <-.
    apply table_admit_spec in E as [Ha _]; [|done]. split; [by eapply admitted_peers|done].
  - unfold table_get in H. destruct (pr_entries t !! canonical_addr a) as [e|] eqn:Ee; [destruct (entry_stale now e)|]; injection H as <- <- <-; cbn.
    + split; [|done]. intros b x. cbn. intros [_ Hx]%lookup_delete_Some. by eapply Hi.
    + split; [|intros b j [= <- <-]; by eapply Hi]. intros b x. cbn. rewrite lookup_insert. case_decide; [intros [= <-]; exact (Hi _ _ Ee)|apply Hi].
    + done.
  - injection H as <- <- <-. split; [|done]. intros b x. cbn. intros [Hx _]%map_lookup_filter_Some. by eapply Hi.
  - destruct (ls !! i) as [l|]; [|done]. injection H as <- <- <-. split; [|done]. unfold lease_drop.
    destruct (pr_entries t !! pe_address l) as [e|] eqn:Ee; [|done]. destruct (_ && _); [|done]. intros b x. cbn. rewrite lookup_insert.
    case_decide; [intros [= <-]; exact (Hi _ _ Ee)|apply Hi].
Qed.
(** An [EndpointId] is 32 bytes. *)
Definition is_key (b : bytes) : Prop := zlen b = KEY_HEADER_LEN.
Definition op_typed (op : TunnelOp) : Prop := match op with URegister _ peer _ => is_key peer | _ => True end.
Record tunnel_inv (slot limit : Z) (t : Tunnel) : Prop := mkTunnelInv {
  tv_table : table_inv false (tn_peers t) (tn_leases t);
  tv_keys : peers_are is_key (tn_peers t);
  tv_slot : pr_slot (tn_peers t) = slot;
  tv_limit : tn_limit t = limit;
  tv_queue : zlen (tn_queue t) <= limit
}.
(** A tunnel's steps are steps of its peer table. *)
Lemma with_peers_inv slot limit t op p ls o :
  tunnel_inv slot limit t -> admits is_key op -> table_step op (tn_peers t, tn_leases t) = Some (p, ls, o) ->
  tunnel_inv slot limit (with_peers p ls t) /\
  (forall a i, o = TPeer a (Some i) -> synthetic_for slot i = canonical_addr a /\ is_key i).
Proof.
  intros [Ht Hk Hs Hl Hq] Hop H. destruct (table_step_inv _ _ _ _ _ _ _ Ht H) as (Hi & Hs' & _ & Ho). rewrite Hs in *.
  destruct (table_step_peers is_key _ _ _ _ _ _ (ti_typed _ _ _ Ht) Hop Hk H) as [Hk' Hok].
  split; [by split|]. intros a i E. split; [by apply Ho|by eapply Hok].
Qed.
Lemma dgram_pump_spec slot limit order frame now t :
  tunnel_inv slot limit t ->
  tunnel_inv slot limit (dgram_pump order frame now t) /\
  exists q, tn_queue (dgram_pump order frame now t) = tn_queue t ++ q /\
    q `sublist_of` option_list (packet slot (UFrame order frame now)).
Proof.
  intros Hi. assert (Hq : tunnel_inv slot limit t /\ exists q, tn_queue t = tn_queue t ++ q /\
    q `sublist_of` option_list (packet slot (UFrame order frame now))).
  { split; [done|]. exists []. rewrite app_nil_r. split; [done|apply sublist_nil_l]. }
  unfold dgram_pump. cbn [packet] in *. destruct (decode_frame frame) as [[src payload]|] eqn:Ed; [|done].
  destruct (valid_key src); [|done]. cbn [negb]. destruct (table_observe order src now (tn_peers t)) as [p r] eqn:E.
  destruct (with_peers_inv slot limit t (TObserve order src now) p (tn_leases t) (TSeen r) Hi) as [Hi' _];
    [by apply decode_frame_exact in Ed as (_ & Hk & _)|cbn; by rewrite E|].
  rewrite (tv_slot _ _ _ Hi). set (t1 := with_peers p (tn_leases t) t) in *.
  assert (Hq' : forall t2, tunnel_inv slot limit t2 -> tn_queue t2 = tn_queue t1 -> tunnel_inv slot limit t2 /\
    exists q, tn_queue t2 = tn_queue t ++ q /\ q `sublist_of` option_list (Some (payload, synthetic_for slot src))).
  { intros t2 H2 ->. split; [done|]. exists []. rewrite app_nil_r. split; [done|apply sublist_nil_l]. }
  destruct r; [|apply Hq'; [by destruct Hi'|done]]. destruct (zlen (tn_queue t1) <? tn_limit t1) eqn:El; [|apply Hq'; [by destruct Hi'|done]].
  b2p. rewrite (tv_limit _ _ _ Hi') in El. destruct Hi'. split; [split; cbn; try done|by eexists].
  rewrite zlen_app. unfold zlen at 2. cbn in El |- *. lia.
Qed.
Lemma recv_loop_spec slot limit fuel room t t' r :
  tunnel_inv slot limit t -> recv_loop fuel room t = (t', r) ->
  tunnel_inv slot limit t' /\ option_list r ++ tn_queue t' `sublist_of` tn_queue t.
Proof.
  revert t. induction fuel as [|fuel IH]; intros t Hi H; cbn in H; [by injection H as <- <-|].
  destruct (tn_queue t) as [|[data src] queue] eqn:Eq; [injection H as <- <-; split; [done|by rewrite Eq]|].
  assert (Hi' : tunnel_inv slot limit (with_queue queue t)).
  { destruct Hi as [? ? ? ? Hz]. split; cbn; try done. rewrite Eq, zlen_cons in Hz. lia. }
  destruct (room <? zlen data) eqn:Er; [|injection H as <- <-; by split].
  destruct (IH (count_oversized (with_queue queue t))) as [Hi2 Hs]; [by destruct Hi'|done|]. split; [done|]. by apply sublist_cons.
Qed.
Lemma tunnel_step_spec slot limit op t t' o :
  tunnel_inv slot limit t -> op_typed op -> tunnel_step op t = Some (t', o) ->
  tunnel_inv slot limit t' /\
  received o ++ tn_queue t' `sublist_of` tn_queue t ++ option_list (packet slot op) /\
  (forall dst contents frame, UForward dst contents frame ∈ o ->
     exists id now, op = USend dst contents now /\ frame = encode_forward id contents /\
       synthetic_for slot id = canonical_addr dst /\ is_key id).
Proof.
  assert (Hnone : forall dst contents frame (P : Prop), UForward dst contents frame ∈ [] -> P)
    by (intros * H; by apply elem_of_nil in H).
  intros Hi Hty H. destruct op as [order frame now|room|dst contents now|m ok|order peer now|i now]; cbn [tunnel_step] in H.
  - destruct (tn_open t); [|done]. injection H as <- <-. destruct (dgram_pump_spec slot limit order frame now t Hi) as [Hi' (q & -> & Hq)].
    split; [done|]. split; [cbn [received omap list_omap app]; by apply sublist_app|intros *; apply Hnone].
  - destruct (poll_recv room t) as [t1 r] eqn:E. injection H as <- <-. apply (recv_loop_spec slot limit) in E as [Hi' Hs]; [|done].
    split; [done|]. cbn [packet option_list]. rewrite app_nil_r. destruct r as [[data src]|]; (split; [exact Hs|]).
    + intros dst contents frame Ho. apply list_elem_of_singleton in Ho. done.
    + intros *; apply Hnone.
  - destruct (poll_send dst contents now t) as [[t1 r] f] eqn:E. injection H as <- <-. unfold poll_send in E.
    destruct (is_synthetic dst); cbn [negb] in E.
    2: { injection E as <- <- <-. split; [done|]. split; [by rewrite app_nil_r|]. intros d c fr Ho. apply list_elem_of_singleton in Ho. done. }
    destruct (table_get dst now (tn_peers t)) as [p [id|]] eqn:Eg; injection E as <- <- <-;
      (destruct (with_peers_inv slot limit t (TGet dst now) p (tn_leases t) _ Hi I ltac:(cbn; rewrite Eg; reflexivity)) as [Hi' Ho]);
      (split; [done|]); (split; [cbn; by rewrite app_nil_r|]); [|intros *; apply Hnone].
    intros d c fr Hf%list_elem_of_singleton. injection Hf as -> -> ->. exists id, now. split; [done|]. split; [done|]. by apply Ho.
  - destruct (tn_open t); [|done]. injection H as <- <-. split; [|split; [|intros *; apply Hnone]].
    + destruct m; cbn; try (by destruct Hi); [|destruct ok; by destruct Hi].
      destruct (valid_key peer); [|done]. by eapply (with_peers_inv slot limit t (TGone peer)).
    + cbn. rewrite app_nil_r. destruct m; try done; cbn; [by destruct (valid_key peer)|by destruct ok].
  - destruct (table_acquire order peer now (tn_peers t)) as [p r] eqn:E. injection H as <- <-.
    split; [eapply (with_peers_inv slot limit t (TAcquire order peer now)); [done|done|cbn; by rewrite E]|].
    split; [cbn; by rewrite app_nil_r|]. intros d c fr Ho%list_elem_of_singleton. done.
  - destruct (tn_leases t !! i) as [l|] eqn:E; [|done]. injection H as <- <-.
    split; [eapply (with_peers_inv slot limit t (TDrop i now)); [done|done|cbn; by rewrite E]|].
    split; [cbn; by rewrite app_nil_r|intros *; apply Hnone].
Qed.
Lemma tunnel_run_spec slot limit ops t t' os :
  tunnel_inv slot limit t -> Forall op_typed ops -> tunnel_run ops t = Some (t', os) ->
  tunnel_inv slot limit t' /\
  received os ++ tn_queue t' `sublist_of` tn_queue t ++ omap (packet slot) ops /\
  (forall dst contents frame, UForward dst contents frame ∈ os ->
     exists id now, USend dst contents now ∈ ops /\ frame = encode_forward id contents /\
       synthetic_for slot id = canonical_addr dst /\ is_key id).
Proof.
  revert t os. induction ops as [|op ops IH]; intros t os Hi Hty H; cbn [tunnel_run] in H.
  { injection H as <- <-. split; [done|]. split; [cbn; by rewrite app_nil_r|]. intros * H. by apply elem_of_nil in H. }
  destruct (tunnel_step op t) as [[t1 o]|] eqn:E; [|done]. destruct (tunnel_run ops t1) as [[t2 os2]|] eqn:Er; [|done]. injection H as <- <-.
  apply Forall_cons in Hty as [Hop Hops].
  destruct (tunnel_step_spec _ _ _ _ _ _ Hi Hop E) as (Hi1 & Hs1 & Hf1). destruct (IH _ _ Hi1 Hops Er) as (Hi2 & Hs2 & Hf2).
  split; [done|]. split.
  - unfold received. rewrite omap_app, <-app_assoc. etrans; [apply sublist_app; [reflexivity|exact Hs2]|].
    rewrite app_assoc. etrans; [apply sublist_app; [exact Hs1|reflexivity]|]. rewrite <-app_assoc. apply sublist_app; [done|].
    cbn. by destruct (packet slot op).
  - intros d c f [Hf|Hf]%elem_of_app.
    + destruct (Hf1 _ _ _ Hf) as (id & now & -> & Hrest). exists id, now. split; [constructor|done].
    + destruct (Hf2 _ _ _ Hf) as (id & now & Hin & Hrest). exists id, now. split; [by constructor|done].
Qed.
End Tunnel.

(** ** Two tunnels and the relay between them *)

Lemma encode_forward_inj k k' p p' : is_key k -> is_key k' -> encode_forward k p = encode_forward k' p' -> k = k' /\ p = p'.
Proof. unfold is_key, KEY_HEADER_LEN, zlen, encode_forward. intros H H' E. apply app_inj_1 in E; [done|lia]. Qed.
Lemma read_by_spec k es m : m ∈ read_by k es -> exists frame, EDatagram k frame true ∈ es /\ decode_frame frame = Some m.
Proof.
  intros (e & He & Hm)%list_elem_of_omap. destruct e as [| | | |j frame [] | | | | | | | | | | ]; try done. case_decide; [subst|done]. by eauto.
Qed.
Section EndToEnd.
Context `{HB : Blake3} (valid_key : bytes -> bool).
Lemma tunnel_new_inv slot max_peers grace limit :
  0 <= max_peers -> 0 <= limit -> tunnel_inv slot limit (tunnel_new slot max_peers grace limit).
Proof.
  intros Hp Hl. split; cbn; [by apply peers_new_inv| |done|done|done]. intros a e He. cbn in He. by rewrite lookup_empty in He.
Qed.
(** C4: A packet an endpoint receives from a synthetic address was sent to it by the identity this
    address stands for.  Its own relay connection gives the tunnel only frames the relay sent
    on it; then the packet is one that a connection with a verified identity [src] gave the
    relay for this endpoint, and it arrives from the address of [src].  If moreover the
    connections verified as [peer] belong to [peer]'s tunnel, a packet from [peer]'s address
    is one [peer]'s transport sent to the address that stands for this endpoint there. *)
Theorem relayed_end_to_end allow n es s os (me peer : bytes) c
    slotA peersA graceA queueA opsA ta osA slotB peersB graceB queueB opsB tb osB payload a :
  0 <= n -> 0 <= peersA -> 0 <= queueA -> 0 <= peersB -> 0 <= queueB ->
  relay_run es (server_new allow n) = Some (s, os) ->
  (forall k id, EHandshake k (Some id) ∈ es -> is_key id) -> Forall op_typed opsA -> Forall op_typed opsB ->
  tunnel_run valid_key opsA (tunnel_new slotA peersA graceA queueA) = Some (ta, osA) ->
  tunnel_run valid_key opsB (tunnel_new slotB peersB graceB queueB) = Some (tb, osB) ->
  EHandshake c (Some me) ∈ es ->
  (forall order frame now, UFrame order frame now ∈ opsB -> exists k dst, OSent k dst c frame ∈ os) ->
  (forall k frame paid, EHandshake k (Some peer) ∈ es -> EDatagram k frame paid ∈ es ->
     exists dst contents, UForward dst contents frame ∈ osA) ->
  (payload, a) ∈ received osB ->
  exists k src, EHandshake k (Some src) ∈ es /\ (me, payload) ∈ read_by k es /\ a = synthetic_for slotB src /\
    (src = peer -> exists dst now, USend dst payload now ∈ opsA /\ canonical_addr dst = synthetic_for slotA me).
Proof.
  intros Hn HpA HqA HpB HqB Hr Hid HtA HtB HA HB' Hc Hlink Hown Hin. apply relay_history in Hr as [Hh _]; [|done].
  destruct (tunnel_run_spec valid_key slotB queueB _ _ _ _ (tunnel_new_inv slotB peersB graceB queueB HpB HqB) HtB HB') as (_ & Hs & _).
  destruct (tunnel_run_spec valid_key slotA queueA _ _ _ _ (tunnel_new_inv slotA peersA graceA queueA HpA HqA) HtA HA) as (_ & _ & Hf).
  assert ((payload, a) ∈ omap (packet valid_key slotB) opsB) as Hpk.
  { eapply elem_of_submseteq, sublist_submseteq; [|exact Hs]. apply elem_of_app. by left. }
  apply list_elem_of_omap in Hpk as (op & Hop & Hpk). destruct op as [order frame now| | | | |]; try done. cbn in Hpk.
  destruct (decode_frame frame) as [[src p]|] eqn:Ed; [|done]. destruct (valid_key src); [|done]. injection Hpk as -> <-.
  destruct (Hlink _ _ _ Hop) as (k & dst & Ho). destruct (hi_sent _ _ _ Hh _ _ _ _ Ho) as (Hdst & _ & src' & Hk & _).
  assert (dst = me) as -> by (by eapply Hh).
  destruct (sent_was_read _ _ _ _ _ _ _ _ Hh Hk Ho) as (p & Hp & ->). apply decode_frame_exact in Ed as (Ee & Hsrc & _).
  apply encode_forward_inj in Ee as [<- <-]; [|by eapply Hid|done]. exists k, src'. split; [done|]. split; [done|]. split; [done|].
  intros ->. destruct (read_by_spec _ _ _ Hp) as (f & Hdg & Ef). destruct (Hown _ _ _ Hk Hdg) as (dst & contents & Hfw).
  destruct (Hf _ _ _ Hfw) as (id & now' & Hsend & -> & Hsyn & Hkey). apply decode_frame_exact in Ef as (Ef & Hme & _).
  apply encode_forward_inj in Ef as [-> ->]; [|done|done]. by exists dst, now'.
Qed.
(** A tunnel hands out, in the order of their arrival and at most once each, the packets of the
    frames the relay sent it, each from the address of its sender; it never queues more than
    its limit or knows more peers than its capacity; and what it gives the relay is addressed
    to the identity the destination address stands for in its slot. *)
Theorem tunnel_in_order slot max_peers grace limit ops t os :
  0 <= max_peers -> 0 <= limit -> Forall op_typed ops ->
  tunnel_run valid_key ops (tunnel_new slot max_peers grace limit) = Some (t, os) ->
  received os ++ tn_queue t `sublist_of` omap (packet valid_key slot) ops /\
  zlen (tn_queue t) <= limit /\ Z.of_nat (size (pr_entries (tn_peers t))) <= pr_capacity (tn_peers t) /\
  (forall dst contents frame, UForward dst contents frame ∈ os ->
     exists id now, USend dst contents now ∈ ops /\ frame = encode_forward id contents /\
       synthetic_for slot id = canonical_addr dst /\ is_key id).
Proof.
  intros Hp Hl Hty H.
  destruct (tunnel_run_spec valid_key slot limit _ _ _ _ (tunnel_new_inv slot max_peers grace limit Hp Hl) Hty H) as (Hi & Hs & Hf).
  destruct Hi as [Ht _ _ _ Hq]. split; [done|]. split; [done|]. split; [apply Ht|done].
Qed.
End EndToEnd.

Module RelayTunnelWitness.
Import RelayPeersWitness.
#[local] Existing Instance tail_blake3.
Definition any_key (_ : bytes) : bool := true.
Definition hi : bytes := bs "hi".
(** Alice sends to the address that stands for Bob, and Bob reads what the relay sent. *)
Definition opsA : list TunnelOp := [URegister [] bob 0; USend (synthetic_for 0 bob) hi 1].
Definition opsB : list TunnelOp := [UFrame [] (encode_forward alice hi) 5; URecv 100].
Definition es : list RelayEvent :=
  [EAccept; EHandshake 0 (Some alice); ERegister 0 true; EAttach 0; EAccept; EHandshake 1 (Some bob); ERegister 1 true;
   EAttach 1; EDatagram 0 (encode_forward bob hi) true; ERoute 0; ESend 0 true].
Definition new : Tunnel := tunnel_new 0 4 30 8.
Definition end_of (ops : list TunnelOp) : Tunnel * list TunnelOut := default (new, []) (tunnel_run any_key ops new).
Definition end_of_relay : Relay * list RelayOut := default (server_new [] 2, []) (relay_run es (server_new [] 2)).
Lemma relay_ran : relay_run es (server_new [] 2) = Some (end_of_relay.1, end_of_relay.2).
Proof.
  assert (is_some (relay_run es (server_new [] 2)) = true) as H by (vm_compute; reflexivity).
  unfold end_of_relay. by destruct (relay_run _ _) as [[]|].
Qed.
Lemma tunnel_ran ops : is_some (tunnel_run any_key ops new) = true -> tunnel_run any_key ops new = Some ((end_of ops).1, (end_of ops).2).
Proof. unfold end_of. by destruct (tunnel_run _ _ _) as [[]|]. Qed.
Lemma relay_sent : end_of_relay.2 = [ONotice 0 Registered; ONotice 1 Registered; OSent 0 bob 1 (encode_forward alice hi)].
Proof. vm_compute. reflexivity. Qed.
Lemma bob_received : received (end_of opsB).2 = [(hi, synthetic_for 0 alice)].
Proof. vm_compute. reflexivity. Qed.
Lemma alice_forwarded : exists l, (end_of opsA).2 = [ULease l; UForward (synthetic_for 0 bob) hi (encode_forward bob hi)].
Proof. eexists. vm_compute. reflexivity. Qed.
#[local] Ltac each H tac :=
  repeat (apply elem_of_cons in H as [H|H]; [first [discriminate H|injection H; intros; subst; tac]|]); by apply elem_of_nil in H.
Lemma keys_verified k id : EHandshake k (Some id) ∈ es -> is_key id.
Proof. intros H. unfold es in H. each H ltac:(reflexivity). Qed.
Lemma alice_owns k frame paid : EHandshake k (Some alice) ∈ es -> EDatagram k frame paid ∈ es ->
  exists dst contents, UForward dst contents frame ∈ (end_of opsA).2.
Proof.
  intros _ H. destruct alice_forwarded as [l ->]. exists (synthetic_for 0 bob), hi. unfold es in H.
  each H ltac:(do 1 right; left).
Qed.
Lemma bob_linked order frame now : UFrame order frame now ∈ opsB -> exists k dst, OSent k dst 1 frame ∈ end_of_relay.2.
Proof.
  intros H. rewrite relay_sent. exists 0%nat, bob. unfold opsB in H.
  each H ltac:(do 2 right; left).
Qed.
Lemma relayed_end_to_end_witness : exists k src,
  EHandshake k (Some src) ∈ es /\ (bob, hi) ∈ read_by k es /\ synthetic_for 0 alice = synthetic_for 0 src.
Proof.
  destruct (relayed_end_to_end any_key [] 2 es end_of_relay.1 end_of_relay.2 bob alice 1
    0 4 30 8 opsA (end_of opsA).1 (end_of opsA).2 0 4 30 8 opsB (end_of opsB).1 (end_of opsB).2 hi (synthetic_for 0 alice))
    as (k & src & H1 & H2 & H3 & _); [lia|lia|lia|lia|lia|exact relay_ran|exact keys_verified| | | | | |exact bob_linked|exact alice_owns| |].
  - repeat constructor.
  - repeat constructor.
  - apply tunnel_ran. vm_compute. reflexivity.
  - apply tunnel_ran. vm_compute. reflexivity.
  - do 5 right. left.
  - rewrite bob_received. left.
  - exact (ex_intro _ k (ex_intro _ src (conj H1 (conj H2 H3)))).
Defined.
Lemma tunnel_in_order_witness :
  received (end_of opsB).2 ++ tn_queue (end_of opsB).1 `sublist_of` omap (packet any_key 0) opsB /\ length (received (end_of opsB).2) = 1%nat.
Proof.
  split; [|by rewrite bob_received].
  destruct (tunnel_in_order any_key 0 4 30 8 opsB (end_of opsB).1 (end_of opsB).2) as (H & _); [lia|lia|repeat constructor| |exact H].
  apply tunnel_ran. vm_compute. reflexivity.
Defined.
End RelayTunnelWitness.
