(* ===== verification/Candidates.v ===== *)
(** * Path candidates

    Models how an endpoint chooses the addresses it dials and keeps the paths it still has to
    open: [matching_candidates] and [supports_candidate] of
    [src/crates/rds-net/src/backends/noq/policy.rs] and [Pending] of [candidates.rs].

    A [BTreeSet] and a [BTreeMap] are lists sorted by [SocketAddr]'s order.  What the QUIC
    engine answers to an attempt to open a path is a parameter of [poll_due]. *)

From S2P Require Import Prelude Net RelayPeers.

(** ** The order of socket addresses *)

(** [SocketAddr]'s [Ord]: IPv4 first, then address, port, flow and scope. *)
Definition addr_key (a : Addr) : list Z :=
  match ad_ip a with
  | V4 x y z w => [0; x; y; z; w; ad_port a; ad_flowinfo a; ad_scope a]
  | V6 g => 1 :: g ++ [ad_port a; ad_flowinfo a; ad_scope a]
  end.
Fixpoint lex_ltb (l k : list Z) : bool :=
  match l, k with
  | [], [] => false
  | [], _ :: _ => true
  | _ :: _, [] => false
  | x :: l, y :: k => (x <? y) || (x =? y) && lex_ltb l k
  end.
Definition addr_lt (a b : Addr) : Prop := lex_ltb (addr_key a) (addr_key b) = true.
Definition is_ipv6 (a : Addr) : bool := match ad_ip a with V6 _ => true | V4 _ _ _ _ => false end.

(** [BTreeSet::insert]. *)
Fixpoint bset_insert (a : Addr) (l : list Addr) : list Addr :=
  match l with
  | [] => [a]
  | b :: l' =>
      if decide (a = b) then l
      else if lex_ltb (addr_key a) (addr_key b) then a :: l else b :: bset_insert a l'
  end.

(** ** Candidates *)

Definition MAX_CANDIDATES : nat := 8.
(** [TransportAddr]: direct addresses, and relay and custom addresses, which are skipped. *)
Inductive TransportAddr : Type :=
| TAIp (a : Addr)
| TAOther.
(** [supports_candidate]. *)
Definition supports_candidate (local_addrs : list Addr) (remote : Addr) : bool :=
  if is_synthetic remote then existsb is_synthetic local_addrs else
  existsb (fun a => negb (is_synthetic a) &&
    Bool.eqb (is_ipv6 (mkAddr (to_canonical (ad_ip a)) 0 0 0)) (is_ipv6 (mkAddr (to_canonical (ad_ip remote)) 0 0 0)))
    local_addrs.
(** One address of the loop of [matching_candidates]. *)
Definition family_insert (a : Addr) (family : list Addr) : list Addr :=
  let family := bset_insert a family in
  if (MAX_CANDIDATES <? length family)%nat then take (length family - 1) family else family.
Definition collect_candidate (supported : Addr -> bool) (families : list Addr * list Addr) (t : TransportAddr)
  : list Addr * list Addr :=
  match t with
  | TAOther => families
  | TAIp sock =>
      let remote := canonical_addr sock in
      if is_synthetic remote || negb (supported remote) then families
      else if is_ipv6 remote then (families.1, family_insert remote families.2)
      else (family_insert remote families.1, families.2)
  end.
(** The families alternate; one that is empty leaves its turn to the other. *)
Fixpoint alternate (n : nat) (v6_turn : bool) (v4 v6 : list Addr) : list Addr :=
  match n with
  | O => []
  | S n =>
      match (if v6_turn then v6 else v4), (if v6_turn then v4 else v6) with
      | a :: rest, other => a :: (if v6_turn then alternate n false other rest else alternate n true rest other)
      | [], b :: rest => b :: (if v6_turn then alternate n false rest [] else alternate n true [] rest)
      | [], [] => []
      end
  end.
Definition matching_candidates (addrs : list TransportAddr) (supported : Addr -> bool) : list Addr :=
  let families := foldl (collect_candidate supported) ([], []) addrs in
  alternate MAX_CANDIDATES false families.1 families.2.
(** [ip_candidates], [dial_candidates]. *)
Definition ip_candidates (addrs : list TransportAddr) : list Addr := matching_candidates addrs (fun _ => true).
Definition dial_candidates (addrs : list TransportAddr) (local_addrs : list Addr) : list Addr :=
  matching_candidates addrs (supports_candidate local_addrs).

(** ** Pending paths *)

Definition MAX_QNT_ADDRESSES : nat := 32.
Definition MAX_PENDING : nat := MAX_CANDIDATES + 1 + MAX_QNT_ADDRESSES.
Definition WORK_BATCH : nat := 8.
Definition WAIT_LIMIT : Z := from_secs 15.
Definition FIRST_RETRY : Z := from_millis 25.
Definition MAX_RETRY : Z := from_millis 400.
Record PathEntry : Type := mkPathEntry { pn_ticket : bool; pn_deadline : Z; pn_next : Z; pn_backoff : Z }.
Inductive Attempt : Type := Opened (id : Z) | Retry | Rejected.

Fixpoint bmap_insert (a : Addr) (e : PathEntry) (m : list (Addr * PathEntry)) : list (Addr * PathEntry) :=
  match m with
  | [] => [(a, e)]
  | (b, x) :: m' =>
      if decide (a = b) then (a, e) :: m'
      else if lex_ltb (addr_key a) (addr_key b) then (a, e) :: m else (b, x) :: bmap_insert a e m'
  end.
Definition bmap_find (a : Addr) (m : list (Addr * PathEntry)) : option PathEntry := snd <$> find (fun x => bool_decide (x.1 = a)) m.
(** [Pending::retain], [offer], [withdraw], [reconcile], [next_wake]. *)
Definition pending_retain (keep : Addr -> bool) (m : list (Addr * PathEntry)) : list (Addr * PathEntry) := filter (fun x => keep x.1 = true) m.
Definition pending_offer (address : Addr) (ticket : bool) (now : Z) (m : list (Addr * PathEntry)) : list (Addr * PathEntry) :=
  let address := canonical_addr address in
  match bmap_find address m with
  | Some e => bmap_insert address (mkPathEntry (pn_ticket e || ticket) (pn_deadline e) (pn_next e) (pn_backoff e)) m
  | None =>
      if (length m =? MAX_PENDING)%nat then m
      else bmap_insert address (mkPathEntry ticket (now + WAIT_LIMIT) now FIRST_RETRY) m
  end.
Definition pending_withdraw (address : Addr) (m : list (Addr * PathEntry)) : list (Addr * PathEntry) :=
  let address := canonical_addr address in
  match bmap_find address m with
  | Some e => if negb (pn_ticket e) then filter (fun x => x.1 <> address) m else m
  | None => m
  end.
Definition pending_reconcile (addresses : list Addr) (now : Z) (m : list (Addr * PathEntry)) : list (Addr * PathEntry) :=
  let current := foldl (fun s a => bset_insert (canonical_addr a) s) [] (take MAX_QNT_ADDRESSES addresses) in
  foldl (fun m a => pending_offer a false now m) (filter (fun x => pn_ticket x.2 = true \/ x.1 ∈ current) m) current.
Definition next_wake (m : list (Addr * PathEntry)) : option Z :=
  foldr (fun x w => let t := Z.min (pn_next x.2) (pn_deadline x.2) in
    Some (match w with Some w => Z.min t w | None => t end)) None m.
(** [poll_due]: at most [WORK_BATCH] due entries are tried, in address order. *)
Definition retried (now : Z) (e : PathEntry) : PathEntry :=
  mkPathEntry (pn_ticket e) (pn_deadline e) (now + pn_backoff e) (Z.min (pn_backoff e * 2) MAX_RETRY).
Fixpoint poll_entries (budget : nat) (now : Z) (attempt : Addr -> Attempt) (m : list (Addr * PathEntry))
  : list (Addr * PathEntry) * list (Z * bool) * list Addr :=
  match m with
  | [] => ([], [], [])
  | (a, e) :: m =>
      match budget with
      | O => ((a, e) :: m, [], [])
      | S budget' =>
          if negb (pn_next e <=? now) then
            let '(m, opened, tried) := poll_entries budget now attempt m in ((a, e) :: m, opened, tried)
          else
            let '(m, opened, tried) := poll_entries budget' now attempt m in
            match attempt a with
            | Opened id => (m, (id, negb (pn_ticket e)) :: opened, a :: tried)
            | Rejected => (m, opened, a :: tried)
            | Retry => ((a, retried now e) :: m, opened, a :: tried)
            end
      end
  end.
Definition poll_due (now : Z) (attempt : Addr -> Attempt) (m : list (Addr * PathEntry)) : list (Addr * PathEntry) * list (Z * bool) * list Addr :=
  poll_entries WORK_BATCH now attempt (filter (fun x => now < pn_deadline x.2) m).

(** ** Sorted sets *)

Lemma lex_irrefl l : lex_ltb l l = false.
Proof. induction l as [|x l IH]; [done|]. cbn. by rewrite Z.ltb_irrefl, Z.eqb_refl, IH. Qed.
Lemma lex_cons x l y k : lex_ltb (x :: l) (y :: k) = true <-> x < y \/ x = y /\ lex_ltb l k = true.
Proof. cbn. by rewrite orb_true_iff, andb_true_iff, Z.ltb_lt, Z.eqb_eq. Qed.
Lemma lex_trans l k m : lex_ltb l k = true -> lex_ltb k m = true -> lex_ltb l m = true.
Proof.
  revert k m. induction l as [|x l IH]; intros [|y k] [|z m]; try done. rewrite !lex_cons.
  intros [H1|[-> H1]] [H2|[-> H2]]; [left; lia|left; lia|left; lia|]. right. split; [done|]. by eapply IH.
Qed.
Lemma lex_total l k : lex_ltb l k = false -> l <> k -> lex_ltb k l = true.
Proof.
  revert k. induction l as [|x l IH]; intros [|y k]; try done. intros H Hne. apply not_true_iff_false in H. rewrite lex_cons in *.
  destruct (decide (x = y)) as [->|]; [|left; lia]. right. split; [done|]. apply IH; [|congruence].
  apply not_true_iff_false. intros E. apply H. by right.
Qed.
Lemma addr_key_inj a b : addr_key a = addr_key b -> a = b.
Proof.
  destruct a as [[x y z w|g] p f s], b as [[x' y' z' w'|g'] p' f' s']; unfold addr_key; cbn; try congruence.
  intros [= E]. apply app_inj_2 in E as [-> E]; [|done]. by injection E as -> -> ->.
Qed.
#[local] Instance addr_lt_trans : Transitive addr_lt.
Proof. intros a b c. apply lex_trans. Qed.
Lemma addr_lt_irrefl a : ~ addr_lt a a.
Proof. unfold addr_lt. by rewrite lex_irrefl. Qed.
Lemma addr_not_lt a b : lex_ltb (addr_key a) (addr_key b) = false -> a <> b -> addr_lt b a.
Proof. intros H Hne. apply lex_total; [done|]. intros E. by apply Hne, addr_key_inj. Qed.

Lemma bset_insert_elem a l b : b ∈ bset_insert a l <-> b = a \/ b ∈ l.
Proof.
  induction l as [|c l IH]; cbn; [set_solver|]. case_decide as E; [subst; set_solver|]. destruct (lex_ltb _ _); set_solver.
Qed.
Lemma bset_insert_sorted a l : StronglySorted addr_lt l -> StronglySorted addr_lt (bset_insert a l).
Proof.
  induction 1 as [|b l Hs IH Hb]; cbn; [repeat constructor|]. case_decide as E; [by constructor|].
  destruct (lex_ltb (addr_key a) (addr_key b)) eqn:El.
  - constructor; [by constructor|]. constructor; [done|]. eapply Forall_impl; [exact Hb|]. intros x Hx. by trans b.
  - constructor; [done|]. apply Forall_forall. intros x [->|Hx]%bset_insert_elem; [by apply addr_not_lt|].
    by eapply Forall_forall in Hb.
Qed.
Lemma sorted_nodup l : StronglySorted addr_lt l -> NoDup l.
Proof.
  induction 1 as [|a l Hs IH Ha]; constructor; [|done]. intros Hin. rewrite Forall_forall in Ha. by apply (addr_lt_irrefl a), Ha.
Qed.
(** Only the smallest entries decide which the smallest ones are. *)
Lemma bset_insert_take n a l : take n (bset_insert a (take n l)) = take n (bset_insert a l).
Proof.
  revert l. induction n as [|n IH]; intros [|b l]; [done|done|done|]. cbn [take bset_insert].
  case_decide; [cbn; by rewrite take_take, Nat.min_id|]. destruct (lex_ltb _ _); cbn [take]; [|by rewrite IH].
  f_equal. destruct n; [done|]. cbn. by rewrite take_take, Nat.min_l by lia.
Qed.
Lemma bset_insert_length a l : (length l <= length (bset_insert a l) <= S (length l))%nat.
Proof. induction l as [|b l IH]; cbn; [lia|]. case_decide; cbn; [lia|]. destruct (lex_ltb _ _); cbn; lia. Qed.
Lemma family_insert_take a l : family_insert a (take MAX_CANDIDATES l) = take MAX_CANDIDATES (bset_insert a l).
Proof.
  rewrite <-bset_insert_take. unfold family_insert. set (k := bset_insert a (take MAX_CANDIDATES l)).
  assert (length k <= S MAX_CANDIDATES)%nat.
  { pose proof (bset_insert_length a (take MAX_CANDIDATES l)) as H. rewrite length_take in H. fold k in H. lia. }
  destruct (Nat.ltb_spec MAX_CANDIDATES (length k)); [f_equal; lia|]. by rewrite take_ge by lia.
Qed.

(** ** What is dialled *)

(** The direct addresses that can be dialled, and those of a family, sorted without repetition. *)
Definition eligible (supported : Addr -> bool) (addrs : list TransportAddr) : list Addr :=
  omap (fun t => match t with
    | TAIp sock => let remote := canonical_addr sock in
        if is_synthetic remote || negb (supported remote) then None else Some remote
    | TAOther => None
    end) addrs.
Definition family_from (s : list Addr) (v6 : bool) (l : list Addr) : list Addr :=
  foldl (fun s a => bset_insert a s) s (filter (fun a => is_ipv6 a = v6) l).
Definition family (v6 : bool) (supported : Addr -> bool) (addrs : list TransportAddr) : list Addr :=
  family_from [] v6 (eligible supported addrs).
Lemma collect_families supported addrs s4 s6 :
  foldl (collect_candidate supported) (take MAX_CANDIDATES s4, take MAX_CANDIDATES s6) addrs =
  (take MAX_CANDIDATES (family_from s4 false (eligible supported addrs)),
   take MAX_CANDIDATES (family_from s6 true (eligible supported addrs))).
Proof.
  revert s4 s6. induction addrs as [|[sock|] addrs IH]; intros s4 s6; [done| |by apply IH].
  cbn [foldl eligible omap list_omap]. unfold collect_candidate at 2. cbn zeta.
  destruct (is_synthetic (canonical_addr sock) || negb (supported (canonical_addr sock))); [by apply IH|].
  unfold family_from. rewrite !filter_cons. destruct (is_ipv6 (canonical_addr sock)) eqn:E; cbn [fst snd];
    rewrite family_insert_take, IH; unfold family_from; repeat (case_decide; [|try congruence]); try congruence; done.
Qed.
Lemma family_sorted v6 supported addrs : StronglySorted addr_lt (family v6 supported addrs).
Proof.
  unfold family, family_from. generalize (filter (fun a => is_ipv6 a = v6) (eligible supported addrs)). intros l.
  assert (StronglySorted addr_lt []) as H by constructor. revert H. generalize (@nil Addr).
  induction l as [|a l IH]; intros s Hs; cbn; [done|]. by apply IH, bset_insert_sorted.
Qed.
Lemma family_elem v6 supported addrs a :
  a ∈ family v6 supported addrs <-> is_ipv6 a = v6 /\ a ∈ eligible supported addrs.
Proof.
  unfold family, family_from. rewrite <-(list_elem_of_filter (fun a => is_ipv6 a = v6)). generalize (filter (fun a => is_ipv6 a = v6) (eligible supported addrs)). intros l.
  assert (forall s, a ∈ foldl (fun s a => bset_insert a s) s l <-> a ∈ s \/ a ∈ l) as H; [|rewrite H; set_solver].
  induction l as [|b l IH]; intros s; cbn; [set_solver|]. rewrite IH, bset_insert_elem. set_solver.
Qed.
(** What the turns hand out: a prefix of each family, nothing left out while there is room. *)
Definition shares (n : nat) (turn : bool) (v4 v6 r : list Addr) : Prop :=
  length r = (n `min` (length v4 + length v6))%nat /\ r ⊆ v4 ++ v6 /\
  exists i j, filter (fun a => is_ipv6 a = false) r = take i v4 /\ filter (fun a => is_ipv6 a = true) r = take j v6 /\
    (Nat.div2 (n + Nat.b2n (negb turn)) `min` length v4 <= i)%nat /\ (Nat.div2 (n + Nat.b2n turn) `min` length v6 <= j)%nat.
Lemma filter_family a l v6 :
  filter (fun a => is_ipv6 a = v6) (a :: l) =
  if Bool.eqb (is_ipv6 a) v6 then a :: filter (fun a => is_ipv6 a = v6) l else filter (fun a => is_ipv6 a = v6) l.
Proof. rewrite filter_cons. by destruct (is_ipv6 a), v6. Qed.
Lemma alternate_shares n turn v4 v6 :
  Forall (fun a => is_ipv6 a = false) v4 -> Forall (fun a => is_ipv6 a = true) v6 ->
  shares n turn v4 v6 (alternate n turn v4 v6).
Proof.
  revert turn v4 v6. induction n as [|n IH]; intros turn v4 v6 H4 H6.
  { split; [done|]. split; [cbn; set_solver|]. exists 0%nat, 0%nat. split; [done|]. split; [done|]. destruct turn; cbn; lia. }
  assert (Hd : Nat.div2 (S n + 1) = S (Nat.div2 (n + 0)) /\ Nat.div2 (S n + 0) = Nat.div2 (n + 1) /\
     (Nat.div2 (n + 0) <= Nat.div2 (n + 1) <= S (Nat.div2 (n + 0)))%nat).
  { rewrite !Nat.add_0_r, !Nat.add_1_r. split; [done|]. split; [done|]. destruct (Nat.Even_or_Odd n) as [[m ->]|[m ->]].
    - rewrite Nat.div2_double, <-Nat.add_1_r, Nat.add_1_r, Nat.div2_succ_double. lia.
    - rewrite Nat.add_1_r, Nat.div2_succ_double. replace (S (S (2 * m))) with (2 * S m)%nat by lia. rewrite Nat.div2_double. lia. }
  assert (H4' : forall a l, Forall (fun a => is_ipv6 a = false) (a :: l) -> is_ipv6 a = false /\ Forall (fun a => is_ipv6 a = false) l)
    by (intros a l [? ?]%Forall_cons; done).
  assert (H6' : forall a l, Forall (fun a => is_ipv6 a = true) (a :: l) -> is_ipv6 a = true /\ Forall (fun a => is_ipv6 a = true) l)
    by (intros a l [? ?]%Forall_cons; done).
  destruct Hd as (Hd1 & Hd0 & Hd). unfold shares. destruct turn; cbn [negb Nat.b2n]; rewrite Hd1, Hd0.
  - destruct v6 as [|b v6]; [destruct v4 as [|a v4]|]; cbn [alternate].
    + split; [done|]. split; [set_solver|]. exists 0%nat, 0%nat. cbn. split; [done|]. split; [done|]. lia.
    + apply H4' in H4 as [Ha H4]. destruct (IH false v4 [] H4 H6) as (Hl & Hs & i & j & Hi & Hj & Bi & Bj). cbn [length Nat.b2n negb] in *.
      split; [lia|]. split; [set_solver +Hs|]. exists (S i), j. rewrite !filter_family, Ha, Hi, Hj. cbn [Bool.eqb take]. split; [done|]. split; [done|]. lia.
    + apply H6' in H6 as [Hb H6]. destruct (IH false v4 v6 H4 H6) as (Hl & Hs & i & j & Hi & Hj & Bi & Bj). cbn [length Nat.b2n negb] in *.
      split; [lia|]. split; [set_solver +Hs|]. exists i, (S j). rewrite !filter_family, Hb, Hi, Hj. cbn [Bool.eqb take]. split; [done|]. split; [done|]. lia.
  - destruct v4 as [|a v4]; [destruct v6 as [|b v6]|]; cbn [alternate].
    + split; [done|]. split; [set_solver|]. exists 0%nat, 0%nat. cbn. split; [done|]. split; [done|]. lia.
    + apply H6' in H6 as [Hb H6]. destruct (IH true [] v6 H4 H6) as (Hl & Hs & i & j & Hi & Hj & Bi & Bj). cbn [length Nat.b2n negb] in *.
      split; [lia|]. split; [set_solver +Hs|]. exists i, (S j). rewrite !filter_family, Hb, Hi, Hj. cbn [Bool.eqb take]. split; [done|]. split; [done|]. lia.
    + apply H4' in H4 as [Ha H4]. destruct (IH true v4 v6 H4 H6) as (Hl & Hs & i & j & Hi & Hj & Bi & Bj). cbn [length Nat.b2n negb] in *.
      split; [lia|]. split; [set_solver +Hs|]. exists (S i), j. rewrite !filter_family, Ha, Hi, Hj. cbn [Bool.eqb take]. split; [done|]. split; [done|]. lia.
Qed.
Lemma nodup_families l :
  NoDup (filter (fun a => is_ipv6 a = false) l) -> NoDup (filter (fun a => is_ipv6 a = true) l) -> NoDup l.
Proof.
  induction l as [|a l IH]; [constructor|]. rewrite !filter_family. destruct (is_ipv6 a) eqn:Ea; cbn [Bool.eqb];
    intros H4 H6; constructor.
  - apply NoDup_cons in H6 as [H6 _]. intros Hin. apply H6. by apply list_elem_of_filter.
  - apply NoDup_cons in H6 as [_ H6]. by apply IH.
  - apply NoDup_cons in H4 as [H4 _]. intros Hin. apply H4. by apply list_elem_of_filter.
  - apply NoDup_cons in H4 as [_ H4]. by apply IH.
Qed.
(** The addresses an endpoint dials are the direct, supported ones of the peer's record, each
    once, at most eight and all of them if there are no more; each family contributes its
    smallest addresses, and at least four of them if it has as many, whatever the other
    family brings. *)
Theorem candidates_share addrs supported :
  let r := matching_candidates addrs supported in
  let f v6 := family v6 supported addrs in
  NoDup r /\ length r = (MAX_CANDIDATES `min` (length (f false) + length (f true)))%nat /\
  (forall a, a ∈ r -> a ∈ eligible supported addrs) /\
  (forall v6, StronglySorted addr_lt (f v6) /\ (forall a, a ∈ f v6 <-> is_ipv6 a = v6 /\ a ∈ eligible supported addrs) /\
     exists i, filter (fun a => is_ipv6 a = v6) r = take i (f v6) /\ (4 `min` length (f v6) <= i)%nat).
Proof.
  cbn zeta. unfold matching_candidates. change ([], []) with (take MAX_CANDIDATES (@nil Addr), take MAX_CANDIDATES (@nil Addr)).
  rewrite collect_families. cbn [fst snd]. fold (family false supported addrs) (family true supported addrs).
  assert (Hf : forall v6, Forall (fun a => is_ipv6 a = v6) (take MAX_CANDIDATES (family v6 supported addrs))).
  { intros v6. apply Forall_take, Forall_forall. intros a Ha. by apply family_elem in Ha as [? _]. }
  destruct (alternate_shares MAX_CANDIDATES false _ _ (Hf false) (Hf true)) as (Hl & Hs & i & j & Hi & Hj & Bi & Bj).
  set (r := alternate _ _ _ _) in *. rewrite take_take in Hi, Hj. cbn [Nat.b2n negb] in *. rewrite !length_take in Hl, Bi, Bj.
  assert (Hpre : forall k v6, NoDup (take k (family v6 supported addrs))).
  { intros k v6. eapply sublist_NoDup; [apply sorted_nodup, family_sorted|apply sublist_take]. }
  change (Nat.div2 (MAX_CANDIDATES + 1)) with 4%nat in Bi. change (Nat.div2 (MAX_CANDIDATES + 0)) with 4%nat in Bj.
  clearbody r. unfold MAX_CANDIDATES in *. rewrite ?length_take in Hl. split; [apply nodup_families; [rewrite Hi|rewrite Hj]; apply Hpre|]. split; [lia|]. split.
  - assert (forall v6 a, a ∈ take 8 (family v6 supported addrs) -> a ∈ eligible supported addrs) as Hin.
    { intros v6 a Ha. apply (family_elem v6). rewrite <-(take_drop 8 (family v6 supported addrs)). apply elem_of_app. by left. }
    intros a [Ha|Ha]%Hs%elem_of_app; by eapply Hin.
  - intros v6. split; [apply family_sorted|]. split; [intros a; apply family_elem|].
    destruct v6; [exists (j `min` 8)%nat|exists (i `min` 8)%nat]; (split; [done|lia]).
Qed.

(** ** Pending paths are tried in time *)

(** The addresses that are due. *)
Definition due (now : Z) (m : list (Addr * PathEntry)) : list Addr :=
  (filter (fun x : Addr * PathEntry => pn_next x.2 <= now < pn_deadline x.2) m).*1.
Definition live_entries (now : Z) (m : list (Addr * PathEntry)) : list (Addr * PathEntry) := filter (fun x => now < pn_deadline x.2) m.
Lemma due_live now m : due now (live_entries now m) = due now m.
Proof.
  unfold due, live_entries. rewrite list_filter_filter. f_equal. apply list_filter_iff. intros x. lia.
Qed.
Lemma due_cons now a e m :
  due now ((a, e) :: m) = if bool_decide (pn_next e <= now < pn_deadline e) then a :: due now m else due now m.
Proof. unfold due. rewrite filter_cons. cbn. case_decide; case_bool_decide; done. Qed.
Lemma poll_entries_spec budget now attempt m m' opened tried :
  poll_entries budget now attempt m = (m', opened, tried) ->
  Forall (fun x => now < pn_deadline x.2 /\ 0 < pn_backoff x.2) m ->
  tried = take budget (due now m) /\ due now m' = drop budget (due now m) /\ m'.*1 `sublist_of` m.*1 /\
  (forall a e', (a, e') ∈ m' -> (a, e') ∈ m \/ exists e, (a, e) ∈ m /\ pn_next e <= now /\ e' = retried now e).
Proof.
  revert budget m' opened tried. induction m as [|[a e] m IH]; intros budget m' opened tried H Hf.
  { cbn in H. injection H as <- <- <-. change (due now []) with (@nil Addr). rewrite take_nil, drop_nil.
    split; [done|]. split; [done|]. split; [done|]. intros a e' Hx. by left. }
  apply Forall_cons in Hf as [[Hd Hb] Hf]. cbn in Hd, Hb. rewrite due_cons. destruct budget as [|budget].
  { cbn in H. injection H as <- <- <-. rewrite due_cons, drop_0.
    split; [done|]. split; [done|]. split; [done|]. intros b e' Hx. by left. }
  cbn [poll_entries] in H. destruct (pn_next e <=? now) eqn:En; cbn [negb] in H; b2p.
  2: { destruct (poll_entries (S budget) now attempt m) as [[m1 o1] t1] eqn:E. injection H as <- <- <-.
       destruct (IH _ _ _ _ E Hf) as (-> & Hm & Hs & Hin). rewrite due_cons, bool_decide_eq_false_2 by lia.
       split; [done|]. split; [done|]. split; [by apply sublist_skip|].
       intros b x [Hx|Hx]%elem_of_cons; [left; rewrite Hx; left|]. destruct (Hin b x Hx) as [?|(y & ? & ?)]; [left; by right|].
       right. exists y. split; [by right|done]. }
  destruct (poll_entries budget now attempt m) as [[m1 o1] t1] eqn:E. destruct (IH _ _ _ _ E Hf) as (-> & Hm & Hs & Hin).
  rewrite bool_decide_eq_true_2 by lia.
  assert (Hin' : forall b x, (b, x) ∈ m1 -> (b, x) ∈ (a, e) :: m \/ exists y, (b, y) ∈ (a, e) :: m /\ pn_next y <= now /\ x = retried now y).
  { intros b x Hx. destruct (Hin b x Hx) as [?|(y & ? & ?)]; [left; by right|]. right. exists y. split; [by right|done]. }
  destruct (attempt a); injection H as <- <- <-; (split; [done|]).
  - split; [done|]. split; [by apply sublist_cons|done].
  - rewrite due_cons. cbn [retried pn_next pn_deadline]. rewrite bool_decide_eq_false_2 by (cbn; lia). split; [done|].
    split; [by apply sublist_skip|]. intros b x [[= -> ->]|Hx]%elem_of_cons; [|by apply Hin'].
    right. exists e. split; [left|done].
  - split; [done|]. split; [by apply sublist_cons|done].
Qed.

Lemma bmap_insert_keys a e m : (bmap_insert a e m).*1 = bset_insert a m.*1.
Proof.
  induction m as [|[b x] m IH]; [done|]. cbn. case_decide; [by subst|]. destruct (lex_ltb _ _); [done|]. cbn. by rewrite IH.
Qed.
Lemma bmap_insert_elem a e m x : x ∈ bmap_insert a e m -> x = (a, e) \/ x ∈ m.
Proof. induction m as [|[b y] m IH]; cbn; [set_solver|]. case_decide; [set_solver|]. destruct (lex_ltb _ _); set_solver. Qed.
Lemma bmap_find_Some a m e : bmap_find a m = Some e -> (a, e) ∈ m.
Proof.
  unfold bmap_find. intros ([b x] & H & ->)%fmap_Some_1. apply find_some in H as [Hin Hb]. cbn in *.
  apply bool_decide_eq_true in Hb as ->. by apply list_elem_of_In.
Qed.
Lemma bset_insert_old a l : a ∈ l -> StronglySorted addr_lt l -> bset_insert a l = l.
Proof.
  induction l as [|b l IH]; [by intros ?%elem_of_nil|]. intros Ha [Hs Hb]%StronglySorted_inv. cbn. case_decide as E; [done|].
  apply elem_of_cons in Ha as [|Ha]; [done|]. rewrite Forall_forall in Hb. rewrite IH by done.
  destruct (lex_ltb _ _) eqn:El; [|done]. exfalso. apply (addr_lt_irrefl a). trans b; [done|by apply Hb].
Qed.

Inductive PendOp : Type :=
| PRetain (keep : Addr -> bool)
| POffer (a : Addr) (ticket : bool) (now : Z)
| PWithdraw (a : Addr)
| PReconcile (addrs : list Addr) (now : Z)
| PPoll (now : Z) (attempt : Addr -> Attempt).
Definition pend_step (op : PendOp) (m : list (Addr * PathEntry)) : list (Addr * PathEntry) * list (Z * Addr) :=
  match op with
  | PRetain keep => (pending_retain keep m, [])
  | POffer a ticket now => (pending_offer a ticket now m, [])
  | PWithdraw a => (pending_withdraw a m, [])
  | PReconcile addrs now => (pending_reconcile addrs now m, [])
  | PPoll now attempt => let '(m, _, tried) := poll_due now attempt m in (m, (fun a => (now, a)) <$> tried)
  end.
Fixpoint pend_run (ops : list PendOp) (m : list (Addr * PathEntry)) : list (Addr * PathEntry) * list (Z * Addr) :=
  match ops with
  | [] => (m, [])
  | op :: ops => let '(m, t) := pend_step op m in let '(m, ts) := pend_run ops m in (m, t ++ ts)
  end.
(** The addresses an operation offers, with its time. *)
Definition offers (op : PendOp) : list (Z * Addr) :=
  match op with
  | POffer a _ now => [(now, canonical_addr a)]
  | PReconcile addrs now => (fun a => (now, canonical_addr a)) <$> addrs
  | _ => []
  end.
Definition entry_ok (os : list (Z * Addr)) (x : Addr * PathEntry) : Prop :=
  0 < pn_backoff x.2 <= MAX_RETRY /\ exists t, (t, x.1) ∈ os /\ pn_deadline x.2 = t + WAIT_LIMIT /\ t <= pn_next x.2.
Record pend_inv (os : list (Z * Addr)) (m : list (Addr * PathEntry)) : Prop := mkPendInv {
  pi_sorted : StronglySorted addr_lt m.*1;
  pi_length : (length m <= MAX_PENDING)%nat;
  pi_entries : Forall (entry_ok os) m
}.
Lemma sorted_sublist l k : l `sublist_of` k -> StronglySorted addr_lt k -> StronglySorted addr_lt l.
Proof.
  induction 1 as [|x l k Hk IH|x l k Hk IH]; [done| |]; intros [Hs Hx]%StronglySorted_inv; [|by apply IH].
  constructor; [by apply IH|]. apply Forall_forall. intros y Hy. rewrite Forall_forall in Hx. apply Hx.
  by eapply elem_of_submseteq, sublist_submseteq.
Qed.
Lemma pend_inv_sub os m m' : pend_inv os m -> m' `sublist_of` m -> pend_inv os m'.
Proof.
  intros [Hs Hl He] Hsub. split.
  - eapply sorted_sublist; [by apply fmap_sublist|done].
  - apply sublist_length in Hsub. lia.
  - apply Forall_forall. intros x Hx. rewrite Forall_forall in He. apply He. by eapply elem_of_submseteq, sublist_submseteq.
Qed.
Lemma entry_ok_weaken os os' x : os ⊆ os' -> entry_ok os x -> entry_ok os' x.
Proof. intros Hs [Hb (t & Ht & Hr)]. split; [done|]. exists t. split; [by apply Hs|done]. Qed.
Lemma pend_inv_weaken os os' m : os ⊆ os' -> pend_inv os m -> pend_inv os' m.
Proof. intros Hs []. split; [done|done|]. eapply Forall_impl; [done|]. intros x. by apply entry_ok_weaken. Qed.
Lemma offer_inv os a ticket now m : pend_inv os m -> (now, canonical_addr a) ∈ os -> pend_inv os (pending_offer a ticket now m).
Proof.
  intros [Hs Hl He] Ho. unfold pending_offer. set (c := canonical_addr a) in *. rewrite Forall_forall in He.
  assert (Hlen : forall e, length (bmap_insert c e m) = length (bset_insert c m.*1))
    by (intros; rewrite <-bmap_insert_keys with (e := e); by rewrite length_fmap).
  destruct (bmap_find c m) as [e|] eqn:Ef.
  - apply bmap_find_Some in Ef. assert (bset_insert c m.*1 = m.*1) as Hold by (apply bset_insert_old; [by apply (list_elem_of_fmap_2 fst) in Ef|done]).
    split; [by rewrite bmap_insert_keys, Hold|by rewrite Hlen, Hold, length_fmap|].
    apply Forall_forall. intros x [->|Hx]%bmap_insert_elem; [|by apply He]. exact (He _ Ef).
  - destruct (Nat.eqb_spec (length m) MAX_PENDING); [by split; [..|apply Forall_forall]|].
    split; [by rewrite bmap_insert_keys; apply bset_insert_sorted| |].
    + rewrite Hlen. pose proof (bset_insert_length c m.*1) as H. rewrite length_fmap in H. lia.
    + apply Forall_forall. intros x [->|Hx]%bmap_insert_elem; [|by apply He]. split; [done|]. exists now. split; [done|]. cbn. lia.
Qed.
Lemma reconcile_inv os addrs now m :
  pend_inv os m -> (forall a, a ∈ addrs -> (now, canonical_addr a) ∈ os) -> pend_inv os (pending_reconcile addrs now m).
Proof.
  intros Hi Ho. unfold pending_reconcile. set (current := foldl _ [] _).
  assert (Hc : forall c, c ∈ current -> (now, canonical_addr c) ∈ os).
  { assert (forall l s, (forall c, c ∈ s -> (now, canonical_addr c) ∈ os) -> l ⊆ addrs ->
      forall c, c ∈ foldl (fun s a => bset_insert (canonical_addr a) s) s l -> (now, canonical_addr c) ∈ os) as H.
    { induction l as [|a l IH]; intros s Hs Hl c; cbn; [by apply Hs|]. apply IH; [|set_solver +Hl].
      intros b [->|Hb]%bset_insert_elem; [rewrite canonical_idem; apply Ho, Hl; left|by apply Hs]. }
    apply H; [intros c []%elem_of_nil|]. intros a Ha. rewrite <-(take_drop MAX_QNT_ADDRESSES addrs). apply elem_of_app. by left. }
  assert (pend_inv os (filter (fun x => pn_ticket x.2 = true \/ x.1 ∈ current) m)) as Hf
    by (eapply pend_inv_sub; [done|apply sublist_filter]).
  clearbody current. revert Hf. generalize (filter (fun x : Addr * PathEntry => pn_ticket x.2 = true \/ x.1 ∈ current) m).
  induction current as [|c current IH]; intros k Hk; cbn; [done|]. apply IH; [intros; apply Hc; by right|].
  apply offer_inv; [done|]. apply Hc. left.
Qed.
Lemma poll_inv os now attempt m m' opened tried :
  pend_inv os m -> poll_due now attempt m = (m', opened, tried) ->
  pend_inv os m' /\ tried = take WORK_BATCH (due now m) /\ due now m' = drop WORK_BATCH (due now m).
Proof.
  intros Hi H. unfold poll_due in H. change (filter _ m) with (live_entries now m) in H.
  assert (pend_inv os (live_entries now m)) as [Hs Hl He] by (eapply pend_inv_sub; [done|apply sublist_filter]).
  apply poll_entries_spec in H as (-> & Hd & Hk & Hin).
  - rewrite due_live in *. split; [|done]. split.
    + by eapply sorted_sublist.
    + apply sublist_length in Hk. rewrite !length_fmap in Hk. lia.
    + apply Forall_forall. intros [a e'] Hx. rewrite Forall_forall in He. destruct (Hin _ _ Hx) as [Hm|(e & Hm & Hn & ->)]; [by apply He|].
      destruct (He _ Hm) as [Hb (t & Ht & Hdl & Hnx)]. split; [cbn in *; unfold MAX_RETRY, from_millis in *; lia|]. exists t. cbn in *. split; [done|lia].
  - apply Forall_forall. intros x Hx. rewrite Forall_forall in He. destruct (He x Hx) as [Hb _].
    apply list_elem_of_filter in Hx as [Hx _]. split; [done|lia].
Qed.
Lemma pend_step_inv os op m m' tried :
  pend_inv os m -> offers op ⊆ os -> pend_step op m = (m', tried) ->
  pend_inv os m' /\ (forall now a, (now, a) ∈ tried -> exists t, (t, a) ∈ os /\ t <= now < t + WAIT_LIMIT).
Proof.
  intros Hi Ho H. assert (Hnil : forall now a, (now, a) ∈ (@nil (Z * Addr)) -> exists t, (t, a) ∈ os /\ t <= now < t + WAIT_LIMIT)
    by (intros ? ? []%elem_of_nil).
  destruct op as [keep|a ticket now|a|addrs now|now attempt]; cbn in H; try (injection H as <- <-; split; [|done]).
  - eapply pend_inv_sub; [done|apply sublist_filter].
  - apply offer_inv; [done|]. apply Ho. left.
  - unfold pending_withdraw. destruct (bmap_find _ m) as [e|]; [|done]. destruct (pn_ticket e); [done|]. eapply pend_inv_sub; [done|apply sublist_filter].
  - apply reconcile_inv; [done|]. intros a Ha. apply Ho. by apply (list_elem_of_fmap_2 (fun a => (now, canonical_addr a))).
  - destruct (poll_due now attempt m) as [[m1 opened] l] eqn:E. injection H as <- <-. pose proof Hi as [_ _ He].
    apply (poll_inv os) in E as (Hi' & -> & _); [|done]. split; [done|]. intros t a (b & [= -> ->] & Hb)%list_elem_of_fmap.
    assert (b ∈ due now m) as Hd by (rewrite <-(take_drop WORK_BATCH (due now m)); apply elem_of_app; by left).
    apply list_elem_of_fmap in Hd as ([c e] & -> & Hd). apply list_elem_of_filter in Hd as [Hd Hin]. cbn in *.
    rewrite Forall_forall in He. destruct (He _ Hin) as [_ (t & Ht & Hdl & Hnx)]. exists t. cbn in *. split; [done|lia].
Qed.
Lemma pend_run_inv os ops m m' tried :
  pend_inv os m -> mjoin (offers <$> ops) ⊆ os -> pend_run ops m = (m', tried) ->
  pend_inv os m' /\ (forall now a, (now, a) ∈ tried -> exists t, (t, a) ∈ os /\ t <= now < t + WAIT_LIMIT).
Proof.
  revert m tried. induction ops as [|op ops IH]; intros m tried Hi Ho H; cbn in H.
  { injection H as <- <-. split; [done|]. intros ? ? []%elem_of_nil. }
  destruct (pend_step op m) as [m1 t] eqn:E. destruct (pend_run ops m1) as [m2 ts] eqn:Er. injection H as <- <-. cbn in Ho.
  destruct (pend_step_inv os op m m1 t) as [Hi1 Ht]; [done|intros x Hx; apply Ho, elem_of_app; by left|done|].
  destruct (IH m1 ts) as [Hi2 Hts]; [done|intros x Hx; apply Ho, elem_of_app; by right|done|].
  split; [done|]. intros now a [Ha|Ha]%elem_of_app; auto.
Qed.
Lemma pend_new_inv os : pend_inv os [].
Proof. split; [constructor|cbn; lia|constructor]. Qed.
Lemma pend_reaches ops : pend_inv (mjoin (offers <$> ops)) (pend_run ops []).1.
Proof.
  destruct (pend_run ops []) as [m tried] eqn:E. by apply (pend_run_inv (mjoin (offers <$> ops))) in E as [? _]; [|apply pend_new_inv|].
Qed.

(** Whatever is offered, advertised, withdrawn and retried, at most 41 addresses wait for a path,
    each once; and an address is tried only within fifteen seconds of an offer of it: repeated
    advertisements never extend the time. *)
Theorem pending_bounded ops :
  let '(m, tried) := pend_run ops [] in
  (length m <= MAX_PENDING)%nat /\ NoDup m.*1 /\
  (forall now a, (now, a) ∈ tried -> exists t, (t, a) ∈ mjoin (offers <$> ops) /\ t <= now < t + WAIT_LIMIT).
Proof.
  destruct (pend_run ops []) as [m tried] eqn:E. apply (pend_run_inv (mjoin (offers <$> ops))) in E as [[Hs Hl _] Ht]; [|apply pend_new_inv|done].
  split; [done|]. split; [by apply sorted_nodup|done].
Qed.
Lemma polls_spec os now attempts m m' tried :
  pend_inv os m -> pend_run (PPoll now <$> attempts) m = (m', tried) ->
  tried = (fun a => (now, a)) <$> take (WORK_BATCH * length attempts) (due now m) /\
  due now m' = drop (WORK_BATCH * length attempts) (due now m).
Proof.
  revert m tried. induction attempts as [|f fs IH]; intros m tried Hi H; cbn [fmap list_fmap pend_run pend_step] in H.
  { injection H as <- <-. cbn. by rewrite take_0, drop_0. }
  destruct (poll_due now f m) as [[m1 opened] t] eqn:E. destruct (pend_run (PPoll now <$> fs) m1) as [m2 ts] eqn:Er. injection H as <- <-.
  destruct (poll_inv os _ _ _ _ _ _ Hi E) as (Hi1 & -> & Hd). destruct (IH _ _ Hi1 Er) as [-> ->]. rewrite Hd, drop_drop. cbn [length].
  replace (WORK_BATCH * S (length fs))%nat with (WORK_BATCH + WORK_BATCH * length fs)%nat by lia. split; [|done].
  rewrite <-fmap_app. f_equal. rewrite <-take_take_drop. done.
Qed.
(** Nothing that is due is forgotten: polls at one moment try the due addresses in order, eight
    at a time and each exactly once, and six of them reach every one, whatever the engine
    answers. *)
Theorem pending_drains ops now attempts :
  let m := (pend_run ops []).1 in
  let '(m', tried) := pend_run (PPoll now <$> attempts) m in
  tried = (fun a => (now, a)) <$> take (8 * length attempts) (due now m) /\
  due now m' = drop (8 * length attempts) (due now m) /\
  (length attempts = 6%nat -> tried.*2 = due now m /\ due now m' = []).
Proof.
  cbn zeta. destruct (pend_run (PPoll now <$> attempts) _) as [m' tried] eqn:E. pose proof (pend_reaches ops) as Hi.
  destruct (polls_spec _ _ _ _ _ _ Hi E) as [-> ->]. change (WORK_BATCH * length attempts)%nat with (8 * length attempts)%nat.
  split; [done|]. split; [done|]. intros ->.
  assert (length (due now (pend_run ops []).1) <= 8 * 6)%nat as Hl.
  { unfold due. rewrite length_fmap. etrans; [apply sublist_length, sublist_filter|]. pose proof (pi_length _ _ Hi) as H.
    unfold MAX_PENDING, MAX_CANDIDATES, MAX_QNT_ADDRESSES in H. lia. }
  rewrite take_ge, drop_ge by lia. split; [|done]. rewrite <-list_fmap_compose. by rewrite list_fmap_id.
Qed.
Lemma next_wake_le m w : next_wake m = Some w -> Forall (fun x => w <= pn_next x.2 /\ w <= pn_deadline x.2) m.
Proof.
  revert w. induction m as [|x m IH]; intros w H; [done|]. cbn in H. injection H as H.
  destruct (next_wake m) as [v|] eqn:E; change (foldr _ None m) with (next_wake m) in H; rewrite E in H.
  - constructor; [lia|]. eapply Forall_impl; [by apply IH|]. cbn. lia.
  - destruct m; [|done]. constructor; [lia|constructor].
Qed.
Lemma poll_early budget now attempt m :
  Forall (fun x => now < pn_next x.2) m -> poll_entries budget now attempt m = (m, [], []).
Proof.
  induction 1 as [|[a e] m Ha Hm IH]; [done|]. destruct budget as [|budget]; [done|]. cbn [poll_entries]. cbn in Ha.
  replace (pn_next e <=? now) with false by (symmetry; b2p; lia). cbn. by rewrite IH.
Qed.
(** The policy task sleeps exactly as long as it may: before [next_wake] a poll tries nothing and
    changes nothing, at that moment an address is due or expires, and without a wake-up time
    nothing waits. *)
Theorem wakes_exactly m attempt :
  match next_wake m with
  | None => m = []
  | Some w => (forall now, now < w -> poll_due now attempt m = (m, [], [])) /\ (due w m <> [] \/ live_entries w m <> m)
  end.
Proof.
  destruct (next_wake m) as [w|] eqn:E; [|by destruct m]. pose proof (next_wake_le _ _ E) as Hw. split.
  - intros now Hn. unfold poll_due. assert (filter (fun x : Addr * PathEntry => now < pn_deadline x.2) m = m) as ->.
    { clear E. induction Hw as [|x m Hx Hm IH]; [done|]. rewrite filter_cons, decide_True by lia. by rewrite IH. }
    apply poll_early. eapply Forall_impl; [done|]. cbn. lia.
  - assert (exists x, x ∈ m /\ (pn_next x.2 = w \/ pn_deadline x.2 = w)) as (x & Hx & Ht).
    { clear Hw. revert w E. induction m as [|x m IH]; intros w E; [done|]. cbn in E. change (foldr _ None m) with (next_wake m) in E.
      destruct (next_wake m) as [v|]; injection E as E.
      - destruct (decide (w = v)) as [->|]; [destruct (IH _ eq_refl) as (y & Hy & Ht); exists y; split; [by right|done]|].
        exists x. split; [left|lia].
      - exists x. split; [left|lia]. }
    rewrite Forall_forall in Hw. destruct (Hw x Hx). destruct (decide (w < pn_deadline x.2)) as [Hlt|Hge].
    + left. intros Hd. assert (x.1 ∈ due w m) as Hin; [|rewrite Hd in Hin; by apply elem_of_nil in Hin].
      apply list_elem_of_fmap_2, list_elem_of_filter. split; [lia|done].
    + right. intros Hl. rewrite <-Hl in Hx. apply list_elem_of_filter in Hx as [Hx _]. lia.
Qed.
