(* ===== verification/PathPolicy.v ===== *)
(** * Path selection

    Models the acknowledgement progress of a path ([src/crates/rds-net/src/ack_progress.rs]) and
    the selection among the paths of a connection ([reselect] of
    [backends/noq/policy.rs]).

    The engine owns the paths.  What it says of one (its addresses, status, round trip time,
    progress and stream work) is a record; whether it accepts a new status or a close is a
    parameter.  The known paths are a list in the order the hash map is walked, which is any
    order.  Durations are saturated where the code saturates them. *)

From S2P Require Import Prelude Net RelayPeers.

(** A saturated sum or product of durations. *)
Definition sat_dur (x : Z) : duration := Z.min x duration_max.

(** ** Acknowledgement progress *)

Record Progress : Type := mkProgress { pg_pending_since : option Z; pg_confirmed_at : option Z }.
Definition progress_default : Progress := mkProgress None None.
(** [Progress::sent], [ack], [end_acks]. *)
Definition pg_sent (now bytes : Z) (p : Progress) : Progress :=
  if (0 <? bytes) && negb (is_some (pg_pending_since p)) then mkProgress (Some now) (pg_confirmed_at p) else p.
Definition pg_ack (now bytes : Z) (p : Progress) : Progress :=
  if 0 <? bytes
  then mkProgress (if is_some (pg_pending_since p) then Some now else pg_pending_since p) (Some now)
  else p.
Definition pg_end_acks (now in_flight : Z) (p : Progress) : Progress :=
  if in_flight =? 0 then mkProgress None (pg_confirmed_at p)
  else if negb (is_some (pg_pending_since p)) then mkProgress (Some now) (pg_confirmed_at p) else p.
Definition pg_confirmed (now rtt : Z) (p : Progress) : bool :=
  let budget := Z.max (sat_dur (rtt * 8)) (from_secs 2) in
  is_some_and (pg_confirmed_at p) (fun at_ => since at_ now <? budget).
Definition pg_needs_probe (now : Z) (p : Progress) : bool :=
  match pg_confirmed_at p with Some at_ => from_secs 1 <=? since at_ now | None => true end.
Definition pg_stalled (now rtt : Z) (p : Progress) : bool :=
  let budget := Z.max (sat_dur (rtt * 4)) (from_millis 500) in
  is_some_and (pg_pending_since p) (fun at_ => budget <=? since at_ now).
Record Observation : Type := mkObservation { ob_progress : Progress; ob_now : Z }.
Definition ob_confirmed (o : Observation) (rtt : Z) : bool := pg_confirmed (ob_now o) rtt (ob_progress o).
Definition ob_stalled (o : Observation) (rtt : Z) : bool := pg_stalled (ob_now o) rtt (ob_progress o).
(** [can_replace]. *)
Definition can_replace (o failed : Observation) (rtt : Z) : bool :=
  match pg_pending_since (ob_progress failed) with
  | None => false
  | Some pending =>
      is_some_and (pg_confirmed_at (ob_progress o)) (fun at_ => pending <? at_) && ob_confirmed o rtt && negb (ob_stalled o rtt)
  end.

(** The controller's callbacks that move the progress, and the first mutation of a clone. *)
Inductive AckEvent : Type :=
| KSent (now bytes : Z)
| KAck (now bytes : Z)
| KEndAcks (now in_flight : Z)
| KOther.
Record Tracked : Type := mkTracked { tk_progress : Progress; tk_reset : bool }.
Definition prepare (t : Tracked) : Tracked := if tk_reset t then mkTracked progress_default false else t.
Definition clone_box (t : Tracked) : Tracked := mkTracked (tk_progress t) true.
Definition tracked_step (e : AckEvent) (t : Tracked) : Tracked :=
  let t := prepare t in
  match e with
  | KSent now bytes => mkTracked (pg_sent now bytes (tk_progress t)) (tk_reset t)
  | KAck now bytes => mkTracked (pg_ack now bytes (tk_progress t)) (tk_reset t)
  | KEndAcks now in_flight => mkTracked (pg_end_acks now in_flight (tk_progress t)) (tk_reset t)
  | KOther => t
  end.

(** ** Paths *)

Record Path : Type := mkPath {
  pa_remote : Addr; pa_local : option IpAddr;
  pa_status : option bool; (* closed, or [Available] *)
  pa_rtt : Z; pa_progress : option Observation; pa_work : bool
}.
Definition pa_open (p : Path) : bool := is_some (pa_status p).
Definition with_status (st : option bool) (p : Path) : Path :=
  mkPath (pa_remote p) (pa_local p) st (pa_rtt p) (pa_progress p) (pa_work p).
Definition RTT_SWITCHING_MIN : Z := from_millis 5.
(** A shift of a 64-bit mask by a byte. *)
Definition mask_bit (mask slot : Z) : bool := Z.testbit mask (slot mod 64).
(** [on_masked_slot]: a closed path has no remote address. *)
Definition on_masked_slot (p : Path) (mask : Z) : bool :=
  pa_open p && is_some_and (synthetic_slot (pa_remote p)) (mask_bit mask).
Record Candidate : Type := mkCandidate {
  cd_id : Z; cd_measured : Z; cd_rank : Z; cd_state : option Observation; cd_work : bool
}.

Section Select.
Context (sets closes : Z -> bool) (transport : option (Addr -> option IpAddr -> bool)).

Definition update (id : Z) (f : Path -> Path) (ps : list (Z * Path)) : list (Z * Path) :=
  (fun x => if x.1 =? id then (x.1, f x.2) else x) <$> ps.
Definition path_of (id : Z) (ps : list (Z * Path)) : option Path := snd <$> find (fun x => x.1 =? id) ps.
#[local] Arguments path_of : simpl never.
#[local] Arguments update : simpl never.
(** [set_status] and [close], with whether they succeed. *)
Definition set_status (id : Z) (want : bool) (ps : list (Z * Path)) : list (Z * Path) * bool :=
  if is_some_and (path_of id ps) pa_open && sets id then (update id (with_status (Some want)) ps, true) else (ps, false).
Definition close_path (id : Z) (ps : list (Z * Path)) : list (Z * Path) * bool :=
  if is_some_and (path_of id ps) pa_open && closes id then (update id (with_status None) ps, true) else (ps, false).

(** Dead relay slots lose their paths, draining ones their status. *)
Definition retire_slots (dead draining : Z) (ps : list (Z * Path)) : list (Z * Path) :=
  if (dead =? 0) && (draining =? 0) then ps else
  foldl (fun ps x =>
    if on_masked_slot x.2 dead then (close_path x.1 (set_status x.1 false ps).1).1
    else if on_masked_slot x.2 draining then (set_status x.1 false ps).1 else ps) ps ps.
Definition candidate (dead draining : Z) (x : Z * Path) : option Candidate :=
  let '(id, p) := x in
  if is_some_and transport (fun available => negb (pa_open p && available (pa_remote p) (pa_local p))) then None
  else if negb (dead =? 0) && on_masked_slot p dead then None
  else Some (mkCandidate id (pa_rtt p)
    (if negb (draining =? 0) && on_masked_slot p draining then duration_max else pa_rtt p) (pa_progress p) (pa_work p)).
Definition stalled (c : Candidate) : bool := is_some_and (cd_state c) (fun o => ob_stalled o (cd_measured c)).
Definition confirmed (c : Candidate) : bool := is_some_and (cd_state c) (fun o => ob_confirmed o (cd_measured c)).
Definition replaces (c other : Candidate) : bool :=
  negb (cd_id other =? cd_id c) &&
  match cd_state c, cd_state other with Some failed, Some o => can_replace o failed (cd_measured other) | _, _ => false end.
(** A stalled path with stream work is closed when a sibling proved itself meanwhile. *)
Definition retire_stalled (cs : list Candidate) (ps : list (Z * Path)) : list (Z * Path) :=
  foldl (fun ps c =>
    if negb (cd_work c) || negb (stalled c) then ps else
    match find (replaces c) cs with
    | None => ps
    | Some other =>
        match set_status (cd_id other) true ps with
        | (ps, true) => (close_path (cd_id c) ps).1
        | (ps, false) => ps
        end
    end) ps cs.
Definition has_confirmed (cs : list Candidate) : bool := existsb (fun c => confirmed c && negb (stalled c)) cs.
Definition eligible_path (cs : list Candidate) (c : Candidate) : bool :=
  negb (stalled c || has_confirmed cs && is_some (cd_state c) && negb (confirmed c)).
(** [min_by_key]: the first of the smallest. *)
Fixpoint min_rank (cs : list Candidate) : option Candidate :=
  match cs with
  | [] => None
  | c :: cs => match min_rank cs with
               | Some b => Some (if cd_rank b <? cd_rank c then b else c)
               | None => Some c
               end
  end.
Definition choose (selected : option Z) (rtts : list Candidate) (best : Candidate) : Z :=
  match selected with
  | Some current =>
      match find (fun c => cd_id c =? current) rtts with
      | Some cur => if negb (current =? cd_id best) && (cd_rank cur <? sat_dur (cd_rank best + RTT_SWITCHING_MIN))
                    then current else cd_id best
      | None => cd_id best
      end
  | None => cd_id best
  end.
Definition apply_choice (choice : Z) (ps : list (Z * Path)) : list (Z * Path) :=
  foldl (fun ps x => if bool_decide (pa_status x.2 = Some (x.1 =? choice)) then ps else (set_status x.1 (x.1 =? choice) ps).1) ps ps.
(** [reselect], for a connection that is alive. *)
Definition reselect (relay_mask : Z) (ps : list (Z * Path)) (selected : option Z) : list (Z * Path) * option Z :=
  let ps := filter (fun x => pa_open x.2 = true) ps in
  let dead := Z.land relay_mask 255 in
  let draining := Z.shiftr relay_mask DRAIN_SHIFT in
  let ps := filter (fun x => pa_open x.2 = true) (retire_slots dead draining ps) in
  if bool_decide (ps = []) then (ps, None) else
  let cs := omap (candidate dead draining) ps in
  let ps := retire_stalled cs ps in
  let rtts := filter (fun c => eligible_path cs c = true) cs in
  match min_rank rtts with
  | None => (ps, None)
  | Some best =>
      let choice := choose selected rtts best in
      let ps := apply_choice choice ps in
      (ps, match path_of choice ps with
           | Some p => if bool_decide (pa_status p = Some true) then Some choice else None
           | None => None
           end)
  end.

(** ** Lookups *)

Lemma path_of_nil id : path_of id [] = None.
Proof. done. Qed.
Lemma path_of_cons id x ps : path_of id (x :: ps) = if x.1 =? id then Some x.2 else path_of id ps.
Proof. unfold path_of. cbn. by destruct (x.1 =? id). Qed.
Lemma path_of_elem id p ps : NoDup ps.*1 -> path_of id ps = Some p <-> (id, p) ∈ ps.
Proof.
  induction ps as [|[j q] ps IH]; [intros _; rewrite path_of_nil; split; [done|by intros ?%elem_of_nil]|].
  rewrite fmap_cons. intros [Hj Hn]%NoDup_cons. rewrite path_of_cons, elem_of_cons. cbn [fst snd] in *. destruct (Z.eqb_spec j id) as [->|Hne].
  - split; [intros [= ->]; by left|]. intros [[= ->]|Hin]; [done|]. exfalso. apply Hj. by apply (list_elem_of_fmap_2 fst) in Hin.
  - rewrite IH by done. split; [by right|]. by intros [[= -> ->]|Hin].
Qed.
Lemma update_keys id f ps : (update id f ps).*1 = ps.*1.
Proof. unfold update. rewrite <-list_fmap_compose. apply list_fmap_ext. intros i x _. cbn. by destruct (x.1 =? id). Qed.
Lemma path_of_update j id f ps : path_of j (update id f ps) = if j =? id then f <$> path_of j ps else path_of j ps.
Proof.
  induction ps as [|x ps IH]; [by destruct (j =? id)|]. unfold update. cbn [fmap list_fmap]. rewrite !path_of_cons. fold (update id f ps). rewrite IH.
  destruct (Z.eqb_spec x.1 id), (Z.eqb_spec j id), (Z.eqb_spec x.1 j); cbn; try done; destruct (Z.eqb_spec x.1 j); congruence.
Qed.
Lemma set_status_keys id w ps : (set_status id w ps).1.*1 = ps.*1.
Proof. unfold set_status. destruct (_ && _); cbn; [apply update_keys|done]. Qed.
Lemma close_keys id ps : (close_path id ps).1.*1 = ps.*1.
Proof. unfold close_path. destruct (_ && _); cbn; [apply update_keys|done]. Qed.
Lemma set_status_of j id w ps :
  path_of j (set_status id w ps).1 =
  if (j =? id) && is_some_and (path_of j ps) pa_open && sets id then with_status (Some w) <$> path_of j ps else path_of j ps.
Proof.
  unfold set_status. destruct (Z.eqb_spec j id) as [->|Hne]; cbn [andb]; destruct (is_some_and (path_of id ps) pa_open && sets id); cbn [fst];
    rewrite ?path_of_update; [by rewrite Z.eqb_refl|done|by destruct (Z.eqb_spec j id)|done].
Qed.
Lemma close_of j id ps :
  path_of j (close_path id ps).1 =
  if (j =? id) && is_some_and (path_of j ps) pa_open && closes id then with_status None <$> path_of j ps else path_of j ps.
Proof.
  unfold close_path. destruct (Z.eqb_spec j id) as [->|Hne]; cbn [andb]; destruct (is_some_and (path_of id ps) pa_open && closes id); cbn [fst];
    rewrite ?path_of_update; [by rewrite Z.eqb_refl|done|by destruct (Z.eqb_spec j id)|done].
Qed.
(** A pass over the paths in which each step touches only its own path. *)
Lemma pass_local (act : Z * Path -> list (Z * Path) -> list (Z * Path)) l ps :
  (forall x ps, (act x ps).*1 = ps.*1) ->
  (forall x ps j, j <> x.1 -> path_of j (act x ps) = path_of j ps) ->
  NoDup l.*1 ->
  (foldl (fun ps x => act x ps) ps l).*1 = ps.*1 /\
  (forall j, j ∉ l.*1 -> path_of j (foldl (fun ps x => act x ps) ps l) = path_of j ps) /\
  (forall x, x ∈ l -> exists ps', path_of x.1 ps' = path_of x.1 ps /\
     path_of x.1 (foldl (fun ps x => act x ps) ps l) = path_of x.1 (act x ps')).
Proof.
  intros Hk Hl. revert ps. induction l as [|y l IH]; intros ps; cbn.
  { intros _. split; [done|]. split; [done|]. intros x Hx. by apply elem_of_nil in Hx. }
  intros [Hy Hn]%NoDup_cons. destruct (IH (act y ps) Hn) as (Hks & Hout & Hin). split; [by rewrite Hks, Hk|]. split.
  - intros j Hj. rewrite Hout by set_solver. apply Hl. set_solver.
  - intros x [->|Hx]%elem_of_cons.
    + exists ps. split; [done|]. by apply Hout.
    + destruct (Hin x Hx) as (ps' & He & Hr). exists ps'. split; [|done]. rewrite He. apply Hl.
      intros E. apply Hy. rewrite <-E. by apply (list_elem_of_fmap_2 fst) in Hx.
Qed.

(** ** The steps of a selection *)

Lemma list_by_lookup (l l' : list (Z * Path)) :
  l'.*1 = l.*1 -> NoDup l.*1 -> l' = (fun x => (x.1, default x.2 (path_of x.1 l'))) <$> l.
Proof.
  revert l'. induction l as [|x l IH]; intros [|[j q] l'] Hk Hn; try done. rewrite !fmap_cons in Hk. injection Hk as Hj Hk. cbn in Hj. subst j.
  rewrite fmap_cons in Hn. apply NoDup_cons in Hn as [Hx Hn]. rewrite fmap_cons, path_of_cons. cbn [fst snd]. rewrite Z.eqb_refl. cbn [default from_option id]. f_equal.
  rewrite (IH l' Hk Hn) at 1. apply list_fmap_ext. intros i y Hy. rewrite path_of_cons. cbn [fst]. destruct (Z.eqb_spec x.1 y.1) as [E|]; [|done].
  exfalso. apply Hx. rewrite E. apply list_elem_of_fmap_2. by eapply list_elem_of_lookup_2.
Qed.
Lemma open_with b p : pa_open (with_status (Some b) p) = true.
Proof. done. Qed.
Lemma mask_zero p : on_masked_slot p 0 = false.
Proof. unfold on_masked_slot, mask_bit. destruct (pa_open p); [|done]. cbn. destruct (synthetic_slot (pa_remote p)); [apply Z.testbit_0_l|done]. Qed.
Lemma candidate_status dead draining j b p :
  pa_open p = true -> candidate dead draining (j, with_status (Some b) p) = candidate dead draining (j, p).
Proof. intros Ho. unfold candidate, on_masked_slot, pa_open in *. cbn. by rewrite Ho. Qed.
(** What the masks make of one path: it is left alone, loses its status, or closes, and it
    closes only on a dead slot. *)
Lemma retire_slots_of dead draining ps j p :
  NoDup ps.*1 -> (j, p) ∈ ps -> pa_open p = true ->
  exists p', path_of j (retire_slots dead draining ps) = Some p' /\
    (p' = p \/ p' = with_status (Some false) p \/ p' = with_status None p /\ on_masked_slot p dead = true).
Proof.
  intros Hn Hin Ho. pose proof (proj2 (path_of_elem j p ps Hn) Hin) as Hp. unfold retire_slots. destruct (_ && _); [by eauto|].
  destruct (pass_local (fun x ps => if on_masked_slot x.2 dead then (close_path x.1 (set_status x.1 false ps).1).1
    else if on_masked_slot x.2 draining then (set_status x.1 false ps).1 else ps) ps ps) as (_ & _ & H); [| |done|].
  - intros x l. destruct (on_masked_slot x.2 dead); [by rewrite close_keys, set_status_keys|]. destruct (on_masked_slot x.2 draining); [apply set_status_keys|done].
  - intros x l i Hi. apply Z.eqb_neq in Hi. destruct (on_masked_slot x.2 dead); [by rewrite close_of, set_status_of, Hi|].
    destruct (on_masked_slot x.2 draining); [by rewrite set_status_of, Hi|done].
  - destruct (H _ Hin) as (l & Hl & Hr). cbn [fst snd] in *. rewrite Hr. clear Hr. rewrite Hp in Hl.
    destruct (on_masked_slot p dead) eqn:Ed; [|destruct (on_masked_slot p draining)].
    + rewrite close_of, set_status_of, Hl, Z.eqb_refl. cbn [is_some_and andb]. rewrite Ho. cbn [andb].
      destruct (sets j); cbn [is_some_and andb fmap option_fmap option_map]; rewrite ?open_with, ?Ho; destruct (closes j); cbn; eauto 10.
    + rewrite set_status_of, Hl, Z.eqb_refl. cbn [is_some_and andb]. rewrite Ho. cbn [andb]. destruct (sets j); cbn; eauto.
    + by eauto.
Qed.
Lemma retire_slots_keys dead draining ps : NoDup ps.*1 -> (retire_slots dead draining ps).*1 = ps.*1.
Proof.
  intros Hn. unfold retire_slots. destruct (_ && _); [done|].
  apply (pass_local (fun x ps => if on_masked_slot x.2 dead then (close_path x.1 (set_status x.1 false ps).1).1
    else if on_masked_slot x.2 draining then (set_status x.1 false ps).1 else ps)); [| |done].
  - intros x l. destruct (on_masked_slot x.2 dead); [by rewrite close_keys, set_status_keys|]. destruct (on_masked_slot x.2 draining); [apply set_status_keys|done].
  - intros x l i Hi. apply Z.eqb_neq in Hi. destruct (on_masked_slot x.2 dead); [by rewrite close_of, set_status_of, Hi|].
    destruct (on_masked_slot x.2 draining); [by rewrite set_status_of, Hi|done].
Qed.
Lemma omap_filter_ext (f : Z * Path -> option Candidate) (P : Z * Path -> Prop) `{forall x, Decision (P x)} (g : Z * Path -> Z * Path) (l : list (Z * Path)) :
  (forall x, x ∈ l -> (if decide (P (g x)) then f (g x) else None) = f x) -> omap f (filter P (g <$> l)) = omap f l.
Proof.
  induction l as [|x l IH]; intros Hx; [done|]. rewrite fmap_cons, filter_cons. cbn [omap list_omap].
  rewrite <-(Hx x) by left. case_decide; cbn; rewrite IH by (intros; apply Hx; by right); done.
Qed.
(** The candidates are those of the paths as they were found. *)
Lemma candidates_kept dead draining ps :
  NoDup ps.*1 -> Forall (fun x => pa_open x.2 = true) ps ->
  omap (candidate dead draining) (filter (fun x => pa_open x.2 = true) (retire_slots dead draining ps)) = omap (candidate dead draining) ps.
Proof.
  intros Hn Ho. rewrite (list_by_lookup ps (retire_slots dead draining ps)) by (try apply retire_slots_keys; done).
  apply omap_filter_ext. intros [j p] Hin. rewrite Forall_forall in Ho. pose proof (Ho _ Hin) as Hp. cbn in Hp.
  destruct (retire_slots_of dead draining ps j p Hn Hin Hp) as (p' & E & Hp'). cbn [fst snd]. rewrite E. cbn [default from_option id].
  destruct Hp' as [->|[->|[-> Hd]]].
  - by rewrite decide_True.
  - rewrite decide_True by done. by apply candidate_status.
  - rewrite decide_False by done. symmetry. unfold candidate. destruct (is_some_and _ _); [done|].
    destruct (Z.eqb_spec dead 0) as [->|]; [by rewrite mask_zero in Hd|]. by rewrite Hd.
Qed.
(** A candidate path is closed only if it is stalled with stream work and a sibling replaces it. *)
Definition retired (cs : list Candidate) (j : Z) : Prop :=
  exists c other, c ∈ cs /\ other ∈ cs /\ cd_id c = j /\ cd_work c = true /\ stalled c = true /\ replaces c other = true.
Lemma retire_stalled_of cs ps j p :
  path_of j ps = Some p ->
  (retire_stalled cs ps).*1 = ps.*1 /\
  exists st, path_of j (retire_stalled cs ps) = Some (with_status st p) /\ (st = pa_status p \/ st = Some true \/ st = None /\ retired cs j) /\
    (pa_status p = None -> st = None).
Proof.
  intros Hp. unfold retire_stalled. set (step := fun ps c => _).
  assert (Hl : forall l ps, l ⊆ cs ->
    (exists st, path_of j ps = Some (with_status st p) /\ (st = pa_status p \/ st = Some true \/ st = None /\ retired cs j) /\ (pa_status p = None -> st = None)) ->
    (foldl step ps l).*1 = ps.*1 /\
    exists st, path_of j (foldl step ps l) = Some (with_status st p) /\ (st = pa_status p \/ st = Some true \/ st = None /\ retired cs j) /\
      (pa_status p = None -> st = None)).
  2: { apply Hl; [done|]. exists (pa_status p). split; [rewrite Hp; by destruct p|]. by eauto. }
  clear ps Hp. induction l as [|c l IH]; intros ps Hsub Hst; [done|]. cbn [foldl].
  assert (Hc : c ∈ cs) by (apply Hsub; left). assert (Hsub' : l ⊆ cs) by set_solver +Hsub.
  assert (Hstep : (step ps c).*1 = ps.*1 /\
    exists st, path_of j (step ps c) = Some (with_status st p) /\ (st = pa_status p \/ st = Some true \/ st = None /\ retired cs j) /\ (pa_status p = None -> st = None)).
  2: { destruct Hstep as [Hk Hst']. destruct (IH (step ps c) Hsub' Hst') as [Hk' Hr]. split; [by rewrite Hk', Hk|done]. }
  unfold step. destruct (negb (cd_work c) || negb (stalled c)) eqn:Ew; [done|].
  apply orb_false_iff in Ew as [Ew Es]. apply negb_false_iff in Ew, Es.
  destruct (find (replaces c) cs) as [other|] eqn:Ef; [|done]. apply find_some in Ef as [Hoth Hrep]. apply list_elem_of_In in Hoth.
  destruct Hst as (st & Hj & Hst & Hno).
  assert (Hset : exists st', path_of j (set_status (cd_id other) true ps).1 = Some (with_status st' p) /\
    (st' = pa_status p \/ st' = Some true \/ st' = None /\ retired cs j) /\ (pa_status p = None -> st' = None)).
  { rewrite set_status_of, Hj. cbn [is_some_and]. unfold pa_open. cbn [with_status pa_status].
    destruct ((j =? cd_id other) && is_some st && sets (cd_id other)) eqn:E; [|by eauto]. exists (Some true). split; [done|]. split; [by auto|].
    intros Hn. rewrite (Hno Hn) in E. by rewrite andb_false_r in E. }
  pose proof (set_status_keys (cd_id other) true ps) as Hk. destruct (set_status (cd_id other) true ps) as [ps1 ok]. cbn [fst] in *.
  destruct ok; [|done]. rewrite close_keys. split; [done|]. destruct Hset as (st' & Hj' & Hst' & Hno'). rewrite close_of, Hj'.
  destruct (Z.eqb_spec j (cd_id c)) as [E|]; cbn [andb]; [|by eauto].
  destruct (is_some_and _ pa_open && closes (cd_id c)); [|by eauto]. exists None. split; [done|]. split; [|done].
  right. right. split; [done|]. by exists c, other.
Qed.
Lemma apply_choice_of choice ps :
  NoDup ps.*1 -> (apply_choice choice ps).*1 = ps.*1 /\
  forall j p, (j, p) ∈ ps -> path_of j (apply_choice choice ps) =
    Some (if bool_decide (pa_status p = Some (j =? choice)) || negb (pa_open p && sets j) then p else with_status (Some (j =? choice)) p).
Proof.
  intros Hn. unfold apply_choice.
  destruct (pass_local (fun x ps => if bool_decide (pa_status x.2 = Some (x.1 =? choice)) then ps else (set_status x.1 (x.1 =? choice) ps).1) ps ps)
    as (Hk & _ & H); [| |done|].
  - intros x l. case_bool_decide; [done|apply set_status_keys].
  - intros x l i Hi. apply Z.eqb_neq in Hi. case_bool_decide; [done|]. by rewrite set_status_of, Hi.
  - split; [exact Hk|]. intros j p Hin. destruct (H _ Hin) as (l & Hl & Hr). cbn [fst snd] in *. rewrite Hr.
    rewrite (proj2 (path_of_elem j p ps Hn) Hin) in Hl. case_bool_decide; [done|]. rewrite set_status_of, Hl, Z.eqb_refl. cbn [is_some_and andb orb].
    by destruct (pa_open p && sets j).
Qed.
Lemma min_rank_spec l : match min_rank l with Some b => b ∈ l /\ (forall d, d ∈ l -> cd_rank b <= cd_rank d) | None => l = [] end.
Proof.
  induction l as [|c l IH]; [done|]. cbn. destruct (min_rank l) as [b|].
  - destruct IH as [Hb Hm]. destruct (Z.ltb_spec (cd_rank b) (cd_rank c)).
    + split; [by right|]. intros d [->|Hd]%elem_of_cons; [lia|by apply Hm].
    + split; [left|]. intros d [->|Hd]%elem_of_cons; [lia|]. specialize (Hm d Hd). lia.
  - subst l. split; [left|]. intros d [->|Hd]%elem_of_cons; [lia|by apply elem_of_nil in Hd].
Qed.
(** The chosen path is the best or the current one within the margin. *)
Lemma choose_spec selected rtts best :
  best ∈ rtts -> (forall d, d ∈ rtts -> cd_rank best <= cd_rank d) ->
  exists c, c ∈ rtts /\ cd_id c = choose selected rtts best /\
    ((forall d, d ∈ rtts -> cd_rank c <= cd_rank d) \/
     selected = Some (cd_id c) /\ forall d, d ∈ rtts -> cd_rank c < sat_dur (cd_rank d + RTT_SWITCHING_MIN)).
Proof.
  intros Hb Hm. unfold choose. destruct selected as [current|]; [|by eauto]. destruct (find _ rtts) as [cur|] eqn:Ef; [|by eauto].
  apply find_some in Ef as [Hin Hid]. apply list_elem_of_In in Hin. apply Z.eqb_eq in Hid. destruct (_ && _) eqn:Ec; [|by eauto].
  apply andb_true_iff in Ec as [_ Hlt]. b2p. exists cur. split; [done|]. split; [done|]. right. split; [by rewrite Hid|].
  intros d Hd. specialize (Hm d Hd). unfold sat_dur in *. lia.
Qed.
Definition candidates_of (mask : Z) (ps : list (Z * Path)) : list Candidate :=
  omap (candidate (Z.land mask 255) (Z.shiftr mask DRAIN_SHIFT)) (filter (fun x => pa_open x.2 = true) ps).
Definition eligible_of (mask : Z) (ps : list (Z * Path)) : list Candidate :=
  filter (fun c => eligible_path (candidates_of mask ps) c = true) (candidates_of mask ps).
Lemma candidate_id dead draining x c : candidate dead draining x = Some c -> cd_id c = x.1.
Proof. destruct x as [id p]. unfold candidate. destruct (is_some_and _ _); [done|]. destruct (_ && _); [done|]. by intros [= <-]. Qed.
Lemma candidates_unique dead draining ps c d :
  NoDup ps.*1 -> c ∈ omap (candidate dead draining) ps -> d ∈ omap (candidate dead draining) ps -> cd_id c = cd_id d -> c = d.
Proof.
  intros Hn (x & Hx & Ec)%list_elem_of_omap (y & Hy & Ed)%list_elem_of_omap E.
  assert (x = y) as ->; [|congruence]. destruct x as [i p], y as [j q]. pose proof (candidate_id _ _ _ _ Ec) as Hi. pose proof (candidate_id _ _ _ _ Ed) as Hj.
  cbn in *. assert (i = j) as -> by congruence. apply path_of_elem in Hx, Hy; [|done..]. congruence.
Qed.
Definition kept (mask : Z) (ps : list (Z * Path)) : list (Z * Path) :=
  filter (fun x => pa_open x.2 = true)
    (retire_slots (Z.land mask 255) (Z.shiftr mask DRAIN_SHIFT) (filter (fun x => pa_open x.2 = true) ps)).
Lemma filter_keys (P : Z * Path -> Prop) `{forall x, Decision (P x)} (ps : list (Z * Path)) : NoDup ps.*1 -> NoDup (filter P ps).*1.
Proof. intros Hn. eapply sublist_NoDup; [exact Hn|]. apply fmap_sublist, sublist_filter. Qed.
Lemma kept_spec mask ps :
  NoDup ps.*1 ->
  NoDup (kept mask ps).*1 /\ Forall (fun x => pa_open x.2 = true) (kept mask ps) /\
  omap (candidate (Z.land mask 255) (Z.shiftr mask DRAIN_SHIFT)) (kept mask ps) = candidates_of mask ps /\
  (forall j p, (j, p) ∈ ps -> pa_open p = true ->
     (exists p', (j, p') ∈ kept mask ps) \/ on_masked_slot p (Z.land mask 255) = true).
Proof.
  intros Hn. pose proof (filter_keys (fun x => pa_open x.2 = true) ps Hn) as Hn1. unfold kept.
  set (l := filter (fun x => pa_open x.2 = true) ps) in *.
  pose proof (retire_slots_keys (Z.land mask 255) (Z.shiftr mask DRAIN_SHIFT) l Hn1) as Hk.
  assert (Hlo : Forall (fun x => pa_open x.2 = true) l) by (apply Forall_forall; intros x [Hx _]%list_elem_of_filter; done).
  split; [apply filter_keys; by rewrite Hk|]. split; [apply Forall_forall; intros x [Hx _]%list_elem_of_filter; done|].
  split; [by apply candidates_kept|]. intros j p Hin Ho.
  assert ((j, p) ∈ l) as Hl by (by apply list_elem_of_filter).
  destruct (retire_slots_of (Z.land mask 255) (Z.shiftr mask DRAIN_SHIFT) l j p Hn1 Hl Ho) as (p' & E & Hp').
  apply path_of_elem in E; [|by rewrite Hk]. destruct Hp' as [->|[->|[-> Hd]]]; [left; exists p; by apply list_elem_of_filter|left; exists (with_status (Some false) p); by apply list_elem_of_filter|by right].
Qed.
Lemma reselect_kept mask ps selected :
  NoDup ps.*1 ->
  reselect mask ps selected =
    match min_rank (eligible_of mask ps) with
    | None => (retire_stalled (candidates_of mask ps) (kept mask ps), None)
    | Some best =>
        let choice := choose selected (eligible_of mask ps) best in
        let ps' := apply_choice choice (retire_stalled (candidates_of mask ps) (kept mask ps)) in
        (ps', match path_of choice ps' with Some p => if bool_decide (pa_status p = Some true) then Some choice else None | None => None end)
    end.
Proof.
  intros Hn. destruct (kept_spec mask ps Hn) as (_ & _ & Hc & _). unfold reselect. fold (kept mask ps).
  case_bool_decide as E; [|by rewrite Hc]. unfold eligible_of. rewrite <-Hc, E. done.
Qed.
Lemma eligible_stays mask ps c :
  NoDup ps.*1 -> c ∈ eligible_of mask ps ->
  exists p, path_of (cd_id c) (retire_stalled (candidates_of mask ps) (kept mask ps)) = Some p /\ pa_open p = true.
Proof.
  intros Hn [He Hc]%list_elem_of_filter. destruct (kept_spec mask ps Hn) as (Hkn & Hko & Hcs & _). rewrite <-Hcs in Hc.
  pose proof Hc as (x & Hx & Ec)%list_elem_of_omap. destruct x as [j p]. pose proof (candidate_id _ _ _ _ Ec) as Hj. cbn in Hj. subst j.
  rewrite Forall_forall in Hko. pose proof (Hko _ Hx) as Ho. cbn in Ho. apply path_of_elem in Hx; [|done].
  destruct (retire_stalled_of (candidates_of mask ps) _ _ _ Hx) as (_ & st & Hr & Hst & _). exists (with_status st p). split; [done|].
  destruct Hst as [->|[->|[-> (d & other & Hd & _ & Hid & _ & Hs & _)]]]; [done|done|].
  exfalso. rewrite <-Hcs in Hd. rewrite (candidates_unique _ _ _ d c Hkn Hd Hc Hid) in Hs. unfold eligible_path in He. by rewrite Hs in He.
Qed.
Lemma stalled_keys mask ps : NoDup ps.*1 -> (retire_stalled (candidates_of mask ps) (kept mask ps)).*1 = (kept mask ps).*1.
Proof.
  intros Hn. destruct (kept mask ps) as [|[j p] l] eqn:E.
  - destruct (kept_spec mask ps Hn) as (_ & _ & Hcs & _). by rewrite <-Hcs, E.
  - apply (retire_stalled_of _ _ j p). rewrite path_of_cons. cbn. by rewrite Z.eqb_refl.
Qed.
(** C37: Reselection closes a path only if it is on a dead relay slot, or if its stream work is stalled
    and a sibling, itself confirmed and not stalled, was acknowledged after that work began. *)
Theorem closes_only_replaced mask ps selected j p :
  NoDup ps.*1 -> path_of j ps = Some p -> pa_open p = true ->
  is_some_and (path_of j (reselect mask ps selected).1) pa_open = false ->
  on_masked_slot p (Z.land mask 255) = true \/ retired (candidates_of mask ps) j.
Proof.
  intros Hn Hp Ho. rewrite reselect_kept by done. apply path_of_elem in Hp; [|done].
  destruct (kept_spec mask ps Hn) as (Hkn & Hko & Hcs & Hkeep). destruct (Hkeep _ _ Hp Ho) as [[q Hq]|]; [|by left].
  rewrite Forall_forall in Hko. pose proof (Hko _ Hq) as Hqo. cbn in Hqo. apply path_of_elem in Hq; [|done].
  destruct (retire_stalled_of (candidates_of mask ps) _ _ _ Hq) as (_ & st & Hr & Hst & _).
  assert (Hopen : is_some st = false -> retired (candidates_of mask ps) j)
    by (destruct Hst as [->|[->|[-> ?]]]; [unfold pa_open in Hqo; by rewrite Hqo|done|done]).
  intros Hcl. right. apply Hopen. destruct (min_rank _) as [best|]; cbn [fst] in Hcl; [|by rewrite Hr in Hcl].
  set (ps1 := retire_stalled _ _) in *. assert (Hn1 : NoDup ps1.*1) by (unfold ps1; rewrite stalled_keys by done; done).
  apply path_of_elem in Hr; [|done]. cbn zeta in Hcl. rewrite (proj2 (apply_choice_of _ ps1 Hn1) _ _ Hr) in Hcl. cbn [is_some_and] in Hcl.
  destruct (_ || _); [done|]. by rewrite open_with in Hcl.
Qed.
(** A selected path that is still eligible stays selected as long as no other beats it by the
    switching margin, whatever the order in which the paths are walked. *)
Theorem selection_sticky mask ps c :
  NoDup ps.*1 -> c ∈ eligible_of mask ps -> cd_rank c < duration_max -> sets (cd_id c) = true ->
  (forall d, d ∈ eligible_of mask ps -> cd_rank c < cd_rank d + RTT_SWITCHING_MIN) ->
  (reselect mask ps (Some (cd_id c))).2 = Some (cd_id c).
Proof.
  intros Hn Hc Hr Hset Hm. rewrite reselect_kept by done. pose proof (min_rank_spec (eligible_of mask ps)) as Hmin.
  destruct (min_rank (eligible_of mask ps)) as [best|]; [|rewrite Hmin in Hc; by apply elem_of_nil in Hc]. destruct Hmin as [Hb _].
  assert (choose (Some (cd_id c)) (eligible_of mask ps) best = cd_id c) as ->.
  { unfold choose. destruct (find _ _) as [cur|] eqn:Ef.
    2: { pose proof (find_none _ _ Ef c (proj1 (list_elem_of_In _ _) Hc)) as E. cbn in E. by rewrite Z.eqb_refl in E. }
    apply find_some in Ef as [Hcur Hid]. apply list_elem_of_In in Hcur. apply Z.eqb_eq in Hid.
    assert (cur = c) as ->.
    { apply list_elem_of_filter in Hc as [_ Hc], Hcur as [_ Hcur]. by eapply candidates_unique; [exact (filter_keys (fun x => pa_open x.2 = true) ps Hn)|..]. }
    destruct (Z.eqb_spec (cd_id c) (cd_id best)) as [->|]; [done|]. cbn [negb andb]. specialize (Hm best Hb).
    destruct (Z.ltb_spec (cd_rank c) (sat_dur (cd_rank best + RTT_SWITCHING_MIN))); [done|]. unfold sat_dur in *. lia. }
  cbn zeta. cbn [snd]. set (ps1 := retire_stalled _ _) in *.
  assert (Hn1 : NoDup ps1.*1) by (unfold ps1; rewrite stalled_keys by done; by apply kept_spec).
  destruct (eligible_stays mask ps c Hn Hc) as (p & Hp & Ho). fold ps1 in Hp. apply path_of_elem in Hp; [|done].
  rewrite (proj2 (apply_choice_of (cd_id c) ps1 Hn1) _ _ Hp), Z.eqb_refl, Ho, Hset. cbn [andb negb]. rewrite orb_false_r.
  destruct (bool_decide (pa_status p = Some true)) eqn:E; [by rewrite E|]. by rewrite bool_decide_eq_true_2.
Qed.
End Select.

(** ** Progress over time *)

Definition tracked_new : Tracked := mkTracked progress_default false.
Definition tracked_run (es : list AckEvent) (t : Tracked) : Tracked := foldl (fun t e => tracked_step e t) t es.
Definition event_time (e : AckEvent) : option Z :=
  match e with KSent now _ | KAck now _ | KEndAcks now _ => Some now | KOther => None end.
(** The clock does not run backwards: every event is not before those that precede it. *)
Fixpoint ordered_until (now : Z) (es : list AckEvent) : Prop :=
  match es with
  | [] => True
  | e :: es => (match event_time e with Some t => t <= now /\ Forall (fun f => match event_time f with Some u => t <= u | None => True end) es | None => True end)
               /\ ordered_until now es
  end.
Definition stall_budget (rtt : Z) : Z := Z.max (sat_dur (rtt * 4)) (from_millis 500).

Lemma tracked_live es t : tk_reset t = false -> tk_reset (tracked_run es t) = false.
Proof.
  revert t. induction es as [|e es IH]; intros t Ht; [done|]. cbn. apply IH. unfold tracked_step, prepare. rewrite Ht. by destruct e.
Qed.
(** No acknowledgement is younger than the pending work it would have confirmed. *)
Lemma pending_after_acks es t :
  tk_reset t = false -> forall lo, (forall s, pg_pending_since (tk_progress t) = Some s -> lo <= s) ->
  Forall (fun e => match event_time e with Some u => lo <= u | None => True end) es ->
  forall s, pg_pending_since (tk_progress (tracked_run es t)) = Some s -> lo <= s.
Proof.
  revert t. induction es as [|e es IH]; intros t Ht lo Hp Hes s; [apply Hp|]. apply Forall_cons in Hes as [He Hes]. cbn. apply IH; [by apply (tracked_live [e])| |done].
  unfold tracked_step, prepare. rewrite Ht. intros u. destruct e as [now bytes|now bytes|now fl|]; cbn in *; [| | |apply Hp].
  - unfold pg_sent. destruct (_ && _); cbn; [by intros [= <-]|apply Hp].
  - unfold pg_ack. destruct (_ <? _); cbn; [|apply Hp]. destruct (is_some _); [by intros [= <-]|apply Hp].
  - unfold pg_end_acks. destruct (_ =? _); cbn; [done|]. destruct (is_some _); cbn; [apply Hp|by intros [= <-]].
Qed.
Lemma ack_sets_pending now bytes t s :
  tk_reset t = false -> 0 < bytes -> pg_pending_since (tk_progress (tracked_step (KAck now bytes) t)) = Some s -> s = now.
Proof.
  intros Ht Hb. unfold tracked_step, prepare. rewrite Ht. cbn. unfold pg_ack. assert ((0 <? bytes) = true) as -> by (b2p; lia). cbn.
  destruct (pg_pending_since (tk_progress t)); cbn; [by intros [= <-]|done].
Qed.
Lemma pending_before es t hi :
  tk_reset t = false -> (forall s, pg_pending_since (tk_progress t) = Some s -> s <= hi) ->
  Forall (fun e => match event_time e with Some u => u <= hi | None => True end) es ->
  forall s, pg_pending_since (tk_progress (tracked_run es t)) = Some s -> s <= hi.
Proof.
  revert t. induction es as [|e es IH]; intros t Ht Hp Hes s; [apply Hp|]. apply Forall_cons in Hes as [He Hes]. cbn. apply IH; [by apply (tracked_live [e])| |done].
  unfold tracked_step, prepare. rewrite Ht. intros u. destruct e as [now bytes|now bytes|now fl|]; cbn in *; [| | |apply Hp].
  - unfold pg_sent. destruct (_ && _); cbn; [by intros [= <-]|apply Hp].
  - unfold pg_ack. destruct (_ <? _); cbn; [|apply Hp]. destruct (is_some _); [by intros [= <-]|apply Hp].
  - unfold pg_end_acks. destruct (_ =? _); cbn; [done|]. destruct (is_some _); cbn; [apply Hp|by intros [= <-]].
Qed.
(** Events that neither acknowledge bytes nor end with nothing in flight. *)
Definition unanswered (e : AckEvent) : Prop :=
  match e with KAck _ bytes => bytes <= 0 | KEndAcks _ in_flight => in_flight <> 0 | _ => True end.
Lemma pending_kept es t s :
  tk_reset t = false -> pg_pending_since (tk_progress t) = Some s -> Forall unanswered es ->
  pg_pending_since (tk_progress (tracked_run es t)) = Some s.
Proof.
  revert t. induction es as [|e es IH]; intros t Ht Hp Hes; [done|]. apply Forall_cons in Hes as [He Hes]. cbn.
  apply IH; [by apply (tracked_live [e])| |done]. unfold tracked_step, prepare. rewrite Ht.
  destruct e as [now bytes|now bytes|now fl|]; cbn in *; [| | |done].
  - unfold pg_sent. rewrite Hp. cbn. by rewrite andb_false_r.
  - unfold pg_ack. by assert ((0 <? bytes) = false) as -> by (b2p; lia).
  - unfold pg_end_acks. assert ((fl =? 0) = false) as -> by (by apply Z.eqb_neq). by rewrite Hp.
Qed.
Lemma ordered_split now es1 e es2 t :
  ordered_until now (es1 ++ e :: es2) -> event_time e = Some t ->
  t <= now /\ Forall (fun f => match event_time f with Some u => u <= t | None => True end) es1 /\
  Forall (fun f => match event_time f with Some u => t <= u | None => True end) es2.
Proof.
  intros H He. induction es1 as [|f es1 IH]; cbn in H.
  - rewrite He in H. destruct H as [[Hn Hf] _]. repeat split; [done|constructor|done].
  - destruct H as [Hf H]. destruct (IH H) as (Hn & H1 & H2). split; [done|]. split; [|done]. constructor; [|done].
    destruct (event_time f) as [u|]; [|done]. destruct Hf as [_ Hf]. apply Forall_app in Hf as [_ Hf]. apply Forall_cons in Hf as [Hf _]. by rewrite He in Hf.
Qed.
(** A path counts as stalled exactly when its work is unanswered for the budget of four round
    trips and at least half a second: if it is stalled then every acknowledgement of bytes is
    at least that old, and if bytes were sent that long ago with nothing acknowledged since and
    something always in flight, it is. *)
Theorem stalled_exact es now rtt :
  ordered_until now es ->
  let stalled := pg_stalled now rtt (tk_progress (tracked_run es tracked_new)) in
  (forall t bytes, KAck t bytes ∈ es -> 0 < bytes -> stalled = true -> stall_budget rtt <= now - t) /\
  (forall es1 t bytes es2, es = es1 ++ KSent t bytes :: es2 -> 0 < bytes -> Forall unanswered es2 ->
     stall_budget rtt <= now - t -> stalled = true).
Proof.
  intros Ho. cbn zeta. assert (Hb : 0 < stall_budget rtt) by (unfold stall_budget, from_millis; lia).
  unfold pg_stalled. fold (stall_budget rtt). split.
  - intros t bytes (es1 & es2 & ->)%list_elem_of_split Hpos Hst. destruct (ordered_split _ _ _ _ t Ho eq_refl) as (_ & _ & H2).
    unfold tracked_run in Hst. rewrite foldl_app in Hst. cbn [foldl] in Hst. fold (tracked_run es1 tracked_new) in Hst.
    set (t1 := tracked_run es1 tracked_new) in *. assert (Ht1 : tk_reset t1 = false) by (by apply tracked_live).
    fold (tracked_run es2 (tracked_step (KAck t bytes) t1)) in Hst.
    destruct (pg_pending_since _) as [s|] eqn:Es; [|done]. cbn in Hst. b2p. unfold since in Hst.
    assert (t <= s); [|lia]. eapply (pending_after_acks es2 (tracked_step (KAck t bytes) t1)); [by apply (tracked_live [KAck t bytes])| |exact H2|exact Es].
    intros u Hu. apply ack_sets_pending in Hu; [lia|done|done].
  - intros es1 t bytes es2 -> Hpos Hq Hl. destruct (ordered_split _ _ _ _ t Ho eq_refl) as (_ & H1 & _).
    unfold tracked_run. rewrite foldl_app. cbn [foldl]. fold (tracked_run es1 tracked_new).
    set (t1 := tracked_run es1 tracked_new) in *. assert (Ht1 : tk_reset t1 = false) by (by apply tracked_live).
    fold (tracked_run es2 (tracked_step (KSent t bytes) t1)).
    assert (exists s, pg_pending_since (tk_progress (tracked_step (KSent t bytes) t1)) = Some s /\ s <= t) as (s & Hs & Hle).
    { unfold tracked_step, prepare. rewrite Ht1. cbn. unfold pg_sent. assert ((0 <? bytes) = true) as -> by (b2p; lia).
      destruct (pg_pending_since (tk_progress t1)) as [s|] eqn:Es; cbn; [|by exists t]. exists s. split; [done|].
      by apply (pending_before es1 tracked_new t) in Es. }
    rewrite (pending_kept _ _ s); [|by apply (tracked_live [KSent t bytes])|done|done]. cbn. b2p. unfold since. lia.
Qed.

Module PathPolicyWitness.
Definition yes (_ : Z) : bool := true.
Definition direct (port : Z) : Addr := addr_new (V4 192 0 2 1) port.
Definition relayed : Addr := addr_new (V4 198 19 0 7) 9.
Definition idle (remote : Addr) (rtt : Z) : Path := mkPath remote None (Some false) (from_millis rtt) None false.
Definition two : list (Z * Path) := [(1, idle (direct 1) 70); (2, idle (direct 2) 67)].
Lemma two_keys : NoDup two.*1.
Proof. apply (bool_decide_eq_true_1 (NoDup two.*1)). vm_compute. reflexivity. Qed.
Definition first : Candidate := mkCandidate 1 (from_millis 70) (from_millis 70) None false.
Lemma first_eligible : eligible_of None 0 two = [first; mkCandidate 2 (from_millis 67) (from_millis 67) None false].
Proof. vm_compute. reflexivity. Qed.
Lemma selection_sticky_witness : (reselect yes yes None 0 two (Some 1)).2 = Some 1.
Proof.
  apply (selection_sticky yes yes None 0 two first two_keys).
  - rewrite first_eligible. left.
  - vm_compute. reflexivity.
  - reflexivity.
  - intros d. rewrite first_eligible. intros [->|[->|[]%elem_of_nil]%elem_of_cons]%elem_of_cons; vm_compute; reflexivity.
Defined.
(** The second path's stream work is pending for three seconds; the first was acknowledged after
    that work began. *)
Definition blocked : list (Z * Path) :=
  [(1, mkPath (direct 1) None (Some false) (from_millis 70) (Some (mkObservation (mkProgress None (Some (from_secs 9))) (from_secs 10))) false);
   (2, mkPath (direct 2) None (Some true) (from_millis 60)
        (Some (mkObservation (mkProgress (Some (from_secs 7)) (Some (from_secs 6))) (from_secs 10))) true)].
Lemma closes_only_replaced_witness :
  (reselect yes yes None 0 blocked (Some 2)).2 = Some 1 /\ (false = true \/ retired (candidates_of None 0 blocked) 2).
Proof.
  split; [vm_compute; reflexivity|].
  apply (closes_only_replaced yes yes None 0 blocked (Some 2) 2 (mkPath (direct 2) None (Some true) (from_millis 60)
        (Some (mkObservation (mkProgress (Some (from_secs 7)) (Some (from_secs 6))) (from_secs 10))) true));
    [apply (bool_decide_eq_true_1 (NoDup blocked.*1)); vm_compute; reflexivity|vm_compute; reflexivity..].
Defined.
(** Both paths are on relay slot 0, which drains. *)
Definition draining_two : list (Z * Path) := [(1, idle relayed 70); (2, idle relayed 60)].
(** Among paths of a draining relay the selected one is not kept: their ranks are all the largest
    duration, to which the switching margin adds nothing, so that the first path the map
    yields is selected although it is slower than the current one. *)
Theorem draining_selection_flaps : (reselect yes yes None (Z.shiftl 1 DRAIN_SHIFT) draining_two (Some 2)).2 = Some 1.
Proof. vm_compute. reflexivity. Qed.
Definition silent : list AckEvent := [KSent 0 1200; KAck (from_millis 70) 1200; KSent (from_millis 100) 1200].
Lemma stalled_exact_witness :
  pg_stalled (from_secs 1) (from_millis 70) (tk_progress (tracked_run silent tracked_new)) = true.
Proof.
  destruct (stalled_exact silent (from_secs 1) (from_millis 70)) as [_ H].
  - vm_compute. repeat (split || constructor || discriminate).
  - apply (H [KSent 0 1200; KAck (from_millis 70) 1200] (from_millis 100) 1200 []); [reflexivity|lia|constructor|vm_compute; discriminate].
Defined.
End PathPolicyWitness.
