(* ===== verification/Mux.v ===== *)
(** * The endpoint's socket

    Models the socket that shares several transports ([src/crates/rds-net/src/backends/noq/socket.rs]),
    their retirement ([socket/health.rs]) and the race of the first handshakes ([dial.rs]).

    What a transport answers to a send or a receive, and the time, are arguments.  Each call
    runs to its end under [&mut self]; a retired transport stays retired, so the order in
    which several senders and the receiver observe it does not matter. *)

From S2P Require Import Prelude Net RelayPeers.

(** ** Health *)

Inductive ErrorKind : Type :=
| ConnectionRefused | ConnectionReset | ConnectionAborted | HostUnreachable | NetworkUnreachable
| AddrNotAvailable | PermissionDenied | TimedOut | OutOfMemory | Interrupted | WouldBlock | OtherKind.
Record IoError : Type := mkIoError { io_kind : ErrorKind; io_raw : option Z }.
(** [Errno::MSGSIZE], [Errno::NOBUFS] on Linux. *)
Definition MSGSIZE : Z := 90.
Definition NOBUFS : Z := 105.
(** [packet_error]. *)
Definition packet_error (e : IoError) : bool :=
  match io_kind e with
  | ConnectionRefused | ConnectionReset | ConnectionAborted | HostUnreachable | NetworkUnreachable
  | AddrNotAvailable | PermissionDenied | TimedOut | OutOfMemory => true
  | _ => is_some_and (io_raw e) (fun code => (code =? MSGSIZE) || (code =? NOBUFS))
  end.
Definition try_again (e : IoError) : bool := match io_kind e with Interrupted | WouldBlock => true | _ => false end.

Record Child : Type := mkChild {
  ch_address : Addr; ch_stopped : bool; ch_error : option ErrorKind; ch_send_errors : Z; ch_receive_errors : Z
}.
Definition health_new (addresses : list Addr) : list Child := (fun a => mkChild a false None 0 0) <$> addresses.
Definition all_failed (h : list Child) : bool := forallb ch_stopped h.
Definition child_alive (i : nat) (h : list Child) : bool := is_some_and (h !! i) (fun c => negb (ch_stopped c)).
(** [Health::error], for one child. *)
Definition child_error (e : IoError) (receive : bool) (c : Child) : Child :=
  let up x := (x + 1) mod 2 ^ 64 in
  let c := mkChild (ch_address c) (ch_stopped c) (ch_error c)
             (if receive then ch_send_errors c else up (ch_send_errors c))
             (if receive then up (ch_receive_errors c) else ch_receive_errors c) in
  if packet_error e || try_again e then c else
  match ch_error c with
  | Some _ => c
  | None => mkChild (ch_address c) true (Some (io_kind e)) (ch_send_errors c) (ch_receive_errors c)
  end.
Definition health_error (i : nat) (e : IoError) (receive : bool) (h : list Child) : list Child :=
  alter (child_error e receive) i h.

Definition is_v4 (ip : IpAddr) : bool := match ip with V4 _ _ _ _ => true | V6 _ => false end.
Definition position (p : Child -> bool) (h : list Child) : option nat := fst <$> list_find (fun c => p c = true) h.
(** [Health::route]. *)
Definition same_family (remote : Addr) (c : Child) : bool :=
  negb (is_synthetic (ch_address c)) && Bool.eqb (is_v4 (to_canonical (ad_ip (ch_address c)))) (is_v4 (ad_ip remote)).
Definition route_child (remote : Addr) (source : option IpAddr) (h : list Child) : option nat :=
  let remote := canonical_addr remote in
  let source := to_canonical <$> source in
  match synthetic_slot remote with
  | Some slot => position (fun c => bool_decide (synthetic_slot (ch_address c) = Some slot)) h
  | None =>
      match source with
      | Some source =>
          if negb (Bool.eqb (is_v4 source) (is_v4 (ad_ip remote))) then None else
          match position (fun c => same_family remote c && bool_decide (to_canonical (ad_ip (ch_address c)) = source)) h with
          | Some i => Some i
          | None => position (fun c => same_family remote c && is_unspecified (ad_ip (ch_address c))) h
          end
      | None => position (same_family remote) h
      end
  end.
(** [path_available], [advertisement_available], [bound_available], [live_addrs]. *)
Definition path_available (remote : Addr) (source : option IpAddr) (h : list Child) : bool :=
  is_some_and (route_child remote source h) (fun i => child_alive i h).
Definition advertisement_available (a : Addr) (h : list Child) : bool :=
  existsb (fun c => negb (ch_stopped c) && (ad_port (ch_address c) =? ad_port a) &&
    Bool.eqb (is_v4 (ad_ip (ch_address c))) (is_v4 (ad_ip a)) &&
    (is_unspecified (ad_ip (ch_address c)) || bool_decide (ad_ip (ch_address c) = ad_ip a))) h.
Definition bound_available (a : Addr) (h : list Child) : bool :=
  existsb (fun c => bool_decide (ch_address c = a) && negb (ch_stopped c)) h.
Definition live_addrs (h : list Child) : list Addr := ch_address <$> filter (fun c => ch_stopped c = false) h.

(** ** Sending *)

Inductive PollSend : Type := SPending | SSent | SFailed (e : IoError).
Inductive SendPoll : Type := MPending | MReady | MExhausted.
Record MuxSender : Type := mkMuxSender { ms_health : list Child; ms_retry : option Z }.
(** The destination and source as real sockets know them. *)
Definition normalized (a : Addr) : Addr := canonical_addr a.
(** [MuxSender::poll_send]; the last component is the transport that was asked. *)
Definition mux_send (dst : Addr) (source : option IpAddr) (now : Z) (answer : nat -> PollSend) (m : MuxSender)
  : MuxSender * SendPoll * option nat :=
  let dst := normalized dst in
  let source := to_canonical <$> source in
  let h := ms_health m in
  if all_failed h then (m, MExhausted, None) else
  match route_child dst source h with
  | None => (m, MReady, None)
  | Some i =>
      if negb (child_alive i h) then (mkMuxSender h None, MReady, None)
      else if is_some_and (ms_retry m) (fun at_ => now <? at_) then (m, MPending, None)
      else match answer i with
           | SFailed e =>
               let h := health_error i e false h in
               if all_failed h then (mkMuxSender h None, MExhausted, Some i)
               else if try_again e then (mkMuxSender h (Some (now + from_millis 1)), MPending, Some i)
               else (mkMuxSender h None, MReady, Some i)
           | SSent => (mkMuxSender h None, MReady, Some i)
           | SPending => (mkMuxSender h None, MPending, Some i)
           end
  end.

(** ** Receiving *)

Record Received : Type := mkReceived { rv_from : Addr; rv_to : option IpAddr; rv_data : bytes }.
Inductive PollRecv : Type := RPending | RReady (r : list Received) | RFailed (e : IoError).
Inductive RecvPoll : Type := VPending | VReady (i : nat) (r : list Received) | VExhausted.
Record Mux : Type := mkMux { mx_health : list Child; mx_cursor : nat; mx_ipv6 : bool; mx_address : Addr; mx_retry : list (option Z) }.
Definition is_ipv6_addr (a : Addr) : bool := negb (is_v4 (ad_ip a)).
(** [Mux::new]. *)
Definition mux_new (addresses : list Addr) : option Mux :=
  match addresses with
  | [] => None
  | first :: _ =>
      let address := default first (find is_ipv6_addr addresses) in
      Some (mkMux (health_new addresses) 0 (is_ipv6_addr address) address ((fun _ => None) <$> addresses))
  end.
(** [Ipv4Addr::to_ipv6_mapped]. *)
Definition mapped_ip (ip : IpAddr) : IpAddr :=
  match ip with V4 a b c d => V6 [0; 0; 0; 0; 0; 65535; a * 256 + b; c * 256 + d] | V6 _ => ip end.
Definition mapped (r : Received) : Received :=
  mkReceived (if is_v4 (ad_ip (rv_from r)) then addr_new (mapped_ip (ad_ip (rv_from r))) (ad_port (rv_from r)) else rv_from r)
    (mapped_ip <$> rv_to r) (rv_data r).
(** The scan of [poll_recv] over the indices [idx]. *)
Fixpoint recv_scan (idx : list nat) (now : Z) (answer : nat -> PollRecv) (m : Mux) : Mux * RecvPoll :=
  match idx with
  | [] => (m, if all_failed (mx_health m) then VExhausted else VPending)
  | i :: idx =>
      if negb (child_alive i (mx_health m)) then recv_scan idx now answer m
      else if is_some_and (mjoin (mx_retry m !! i)) (fun at_ => now <? at_) then recv_scan idx now answer m
      else
        let retry := <[i := None]> (mx_retry m) in
        match answer i with
        | RReady r =>
            (mkMux (mx_health m) ((i + 1) mod length (mx_health m)) (mx_ipv6 m) (mx_address m) retry,
             VReady i (if mx_ipv6 m then mapped <$> r else r))
        | RFailed e =>
            let h := health_error i e true (mx_health m) in
            let retry := if child_alive i h then <[i := Some (now + from_millis 10)]> retry else retry in
            recv_scan idx now answer (mkMux h (mx_cursor m) (mx_ipv6 m) (mx_address m) retry)
        | RPending => recv_scan idx now answer (mkMux (mx_health m) (mx_cursor m) (mx_ipv6 m) (mx_address m) retry)
        end
  end.
Definition mux_recv (now : Z) (answer : nat -> PollRecv) (m : Mux) : Mux * RecvPoll :=
  let n := length (mx_health m) in
  recv_scan ((fun i => ((mx_cursor m + i) mod n)%nat) <$> seq 0 n) now answer m.

(** ** Retirement *)

(** Later states of the transports: the same sockets, and what stopped stays stopped. *)
Definition later (h h' : list Child) : Prop :=
  Forall2 (fun c c' => ch_address c' = ch_address c /\ (ch_stopped c = true -> ch_stopped c' = true) /\
    (forall k, ch_error c = Some k -> ch_error c' = Some k)) h h'.
#[local] Instance later_preorder : PreOrder later.
Proof.
  split.
  - intros h. unfold later. induction h; constructor; auto.
  - intros h1 h2 h3 H. revert h3. induction H as [|c d h h' (Ha & Hs & He) Hh IH]; intros h3 H3; inversion H3 as [|? x ? l (Ha' & Hs' & He') Hl]; subst; constructor.
    + split; [congruence|]. split; auto.
    + by apply IH.
Qed.
Lemma health_error_later i e receive h : later h (health_error i e receive h).
Proof.
  unfold health_error. revert i. induction h as [|c h IH]; intros i; [done|]. destruct i as [|i]; cbn.
  - constructor; [|reflexivity]. unfold child_error. destruct (packet_error e || try_again e); cbn; [auto|].
    destruct (ch_error c) eqn:E; cbn; [repeat split; auto|]. split; [done|]. split; [done|]. intros k Hk. congruence.
  - constructor; [auto|]. apply IH.
Qed.
Lemma health_error_length i e receive h : length (health_error i e receive h) = length h.
Proof. apply length_alter. Qed.
Lemma later_alive h h' i : later h h' -> child_alive i h' = true -> child_alive i h = true.
Proof.
  intros H. unfold child_alive. destruct (h' !! i) as [c'|] eqn:E'; [|done]. cbn. intros Hs.
  destruct (Forall2_lookup_r _ _ _ _ _ H E') as (c & -> & _ & Hst & _). cbn. destruct (ch_stopped c); [by rewrite Hst in Hs|done].
Qed.
Lemma position_Some p h i : position p h = Some i -> exists c, h !! i = Some c /\ p c = true.
Proof. unfold position. intros ([j c] & Hf & ->)%fmap_Some_1. apply list_find_Some in Hf as (Hl & Hp & _). by exists c. Qed.

(** A packet is never sent from another address than the one it names: with a source, the
    transport it goes to is bound to exactly this address or to the unspecified address of the
    same family; to a relayed peer it goes through the relay socket of that peer's slot and
    only there; and to anything else never through a relay socket. *)
Theorem route_exact remote source (h : list Child) i :
  route_child remote source h = Some i ->
  exists c, h !! i = Some c /\
    match synthetic_slot (canonical_addr remote) with
    | Some slot => synthetic_slot (ch_address c) = Some slot
    | None =>
        is_synthetic (ch_address c) = false /\
        is_v4 (to_canonical (ad_ip (ch_address c))) = is_v4 (ad_ip (canonical_addr remote)) /\
        (forall ip, source = Some ip ->
           to_canonical (ad_ip (ch_address c)) = to_canonical ip \/ is_unspecified (ad_ip (ch_address c)) = true)
    end.
Proof.
  unfold route_child. destruct (synthetic_slot (canonical_addr remote)) as [slot|].
  { intros (c & Hc & Hp)%position_Some. exists c. split; [done|]. by apply bool_decide_eq_true in Hp. }
  assert (Hfam : forall c, same_family (canonical_addr remote) c = true -> is_synthetic (ch_address c) = false /\
     is_v4 (to_canonical (ad_ip (ch_address c))) = is_v4 (ad_ip (canonical_addr remote))).
  { intros c [H1 H2]%andb_true_iff. split; [by apply negb_true_iff|by apply eqb_prop]. }
  destruct source as [ip|]; cbn [fmap option_fmap option_map].
  - destruct (negb _); [done|]. destruct (position _ h) as [j|] eqn:E.
    + intros [= <-]. apply position_Some in E as (c & Hc & [Hf Hs]%andb_true_iff). exists c. destruct (Hfam c Hf). split; [done|].
      split; [done|]. split; [done|]. intros x [= <-]. left. by apply bool_decide_eq_true in Hs.
    + intros (c & Hc & [Hf Hs]%andb_true_iff)%position_Some. exists c. destruct (Hfam c Hf). split; [done|].
      split; [done|]. split; [done|]. intros x [= <-]. by right.
  - intros (c & Hc & Hf)%position_Some. exists c. destruct (Hfam c Hf). split; [done|]. split; [done|]. split; [done|]. done.
Qed.

(** A send fails only when every transport has failed.  Otherwise the packet goes to the one live
    transport its route names, is kept by the caller for a retry, or is lost; it is lost without
    being offered to a transport only if its route has no live one. *)
Theorem mux_send_exact dst source now answer (m : MuxSender) :
  let '(m', r, asked) := mux_send dst source now answer m in
  later (ms_health m) (ms_health m') /\ (r = MExhausted <-> all_failed (ms_health m') = true) /\
  (forall i, asked = Some i -> route_child (normalized dst) (to_canonical <$> source) (ms_health m) = Some i /\
     child_alive i (ms_health m) = true) /\
  (r = MReady -> asked = None -> path_available (normalized dst) (to_canonical <$> source) (ms_health m) = false).
Proof.
  unfold mux_send. destruct (all_failed (ms_health m)) eqn:Ef; [by repeat split|].
  unfold path_available. destruct (route_child _ _ _) as [i|] eqn:Er; [|by repeat split; intros; try congruence].
  destruct (child_alive i (ms_health m)) eqn:Ea; cbn [negb is_some_and ms_health]; [|by repeat split; intros; try congruence].
  destruct (is_some_and (ms_retry m) _); [by repeat split; intros; try congruence|].
  destruct (answer i) as [| |e]; cbn [ms_health]; [by repeat split; intros; try congruence..|].
  assert (Hl := health_error_later i e false (ms_health m)).
  destruct (all_failed (health_error i e false (ms_health m))) eqn:Ef'; [by repeat split; intros; try congruence|].
  destruct (try_again e); cbn [ms_health]; by repeat split; intros; try congruence.
Qed.

(** ** Receiving from every transport *)

Lemma health_error_other i k e receive h : i <> k -> child_alive k (health_error i e receive h) = child_alive k h.
Proof. intros Hne. unfold child_alive, health_error. by rewrite list_lookup_alter_ne. Qed.
(** What a scan keeps of a transport it was not asked to retire. *)
Record ready_for (k : nat) (m : Mux) : Prop := mkReadyFor {
  rf_alive : child_alive k (mx_health m) = true;
  rf_retry : mjoin (mx_retry m !! k) = None
}.
Lemma retry_other i k x (l : list (option Z)) : i <> k -> mjoin (<[i := x]> l !! k) = mjoin (l !! k).
Proof. intros Hne. by rewrite list_lookup_insert_ne. Qed.
Lemma recv_scan_spec pre k post now answer r m :
  ready_for k m -> answer k = RReady r -> k ∉ pre ->
  exists j m' r', recv_scan (pre ++ k :: post) now answer m = (m', VReady j r') /\ (j ∈ pre \/ j = k) /\
    ready_for k m' /\ length (mx_health m') = length (mx_health m) /\ mx_cursor m' = ((j + 1) mod length (mx_health m))%nat.
Proof.
  intros Hk Ha. revert m Hk. induction pre as [|i pre IH]; intros m [Hal Hre] Hn; cbn [app recv_scan].
  - rewrite Hal, Hre. cbn [negb is_some_and]. rewrite Ha. eexists k, _, _. split; [done|]. split; [by right|]. split; [|done].
    split; [done|]. cbn. destruct (decide (k < length (mx_retry m))%nat); [by rewrite list_lookup_insert_eq by done|]. rewrite list_insert_ge by lia. done.
  - apply not_elem_of_cons in Hn as [Hne%not_eq_sym Hn].
    assert (Hrec : forall m1, ready_for k m1 -> length (mx_health m1) = length (mx_health m) -> exists j m' r',
       recv_scan (pre ++ k :: post) now answer m1 = (m', VReady j r') /\ (j ∈ i :: pre \/ j = k) /\ ready_for k m' /\
       length (mx_health m') = length (mx_health m) /\ mx_cursor m' = ((j + 1) mod length (mx_health m))%nat).
    { intros m1 H1 Hl. destruct (IH m1 H1 Hn) as (j & m' & r' & Hs & Hj & Hk' & Hl' & Hc). rewrite Hl in *.
      exists j, m', r'. split; [done|]. split; [destruct Hj; [left; by right|by right]|done]. }
    destruct (negb (child_alive i (mx_health m))); [by apply Hrec|].
    destruct (is_some_and _ _); [by apply Hrec|]. destruct (answer i) as [|x|e].
    + apply Hrec; [|done]. split; cbn [mx_health mx_retry]; [done|by rewrite retry_other].
    + eexists i, _, _. split; [done|]. split; [left; left|]. split; [|done]. split; cbn [mx_health mx_retry]; [done|by rewrite retry_other].
    + apply Hrec; cbn [mx_health mx_retry]; [|apply health_error_length]. split; cbn [mx_health mx_retry]; [by rewrite health_error_other|].
      destruct (child_alive i (health_error i e true (mx_health m))); by rewrite !retry_other.
Qed.
Fixpoint recv_run (polls : list (Z * (nat -> PollRecv))) (m : Mux) : Mux * list RecvPoll :=
  match polls with
  | [] => (m, [])
  | (now, answer) :: polls =>
      let '(m, r) := mux_recv now answer m in let '(m, rs) := recv_run polls m in (m, r :: rs)
  end.
Lemma scan_order cursor d n :
  (d < n)%nat ->
  (fun i => ((cursor + i) mod n)%nat) <$> seq 0 n =
  ((fun i => ((cursor + i) mod n)%nat) <$> seq 0 d) ++ ((cursor + d) mod n)%nat :: ((fun i => ((cursor + i) mod n)%nat) <$> seq (S d) (n - S d)).
Proof.
  intros Hd. replace (seq 0 n) with (seq 0 (d + S (n - S d))) by (f_equal; lia). rewrite seq_app, fmap_app. done.
Qed.
Lemma mod_apart c i d n : (i < d)%nat -> (d < n)%nat -> ((c + i) mod n <> (c + d) mod n)%nat.
Proof.
  intros Hi Hd E. pose proof (Nat.div_mod_eq (c + i) n). pose proof (Nat.div_mod_eq (c + d) n). rewrite E in *.
  assert (d - i = n * ((c + d) / n - (c + i) / n))%nat by nia. assert ((c + d) / n - (c + i) / n <> 0)%nat by nia. nia.
Qed.
Lemma recv_fair_run k d polls m :
  ready_for k m -> (d < length (mx_health m))%nat -> k = ((mx_cursor m + d) mod length (mx_health m))%nat -> (d < length polls)%nat ->
  (forall x, x ∈ polls -> exists r, x.2 k = RReady r) -> exists r, VReady k r ∈ (recv_run polls m).2.
Proof.
  revert polls m. induction (lt_wf d) as [d _ IH]. intros polls m Hk Hd Hp Hl Hr. destruct polls as [|[now answer] polls]; [cbn in Hl; lia|].
  destruct (Hr (now, answer)) as [r Ha]; [left|]. cbn in Ha. cbn [recv_run]. unfold mux_recv.
  rewrite (scan_order (mx_cursor m) d _ Hd), <-Hp.
  set (pre := (fun i => ((mx_cursor m + i) mod length (mx_health m))%nat) <$> seq 0 d).
  assert (Hpre : forall j, j ∈ pre -> exists i, (i < d)%nat /\ j = ((mx_cursor m + i) mod length (mx_health m))%nat).
  { intros j (i & -> & Hi)%list_elem_of_fmap. apply elem_of_seq in Hi. exists i. split; [lia|done]. }
  destruct (recv_scan_spec pre k ((fun i => ((mx_cursor m + i) mod length (mx_health m))%nat) <$> seq (S d) (length (mx_health m) - S d)) now answer r m Hk Ha)
    as (j & m' & r' & -> & Hj & Hk' & Hlen & Hc).
  { intros (i & Hi & E)%Hpre. rewrite Hp in E. by apply (mod_apart (mx_cursor m) i d (length (mx_health m)) Hi Hd). }
  destruct Hj as [(i & Hi & ->)%Hpre| ->].
  - destruct (IH (d - i - 1)%nat ltac:(lia) polls m') as [x Hx]; [done|rewrite Hlen; lia| |cbn in Hl; lia|intros y Hy; apply Hr; by right|].
    + rewrite Hlen, Hc, Hp, !Nat.Div0.add_mod_idemp_l, <-!Nat.add_assoc, Nat.Div0.add_mod_idemp_l. f_equal. lia.
    + exists x. destruct (recv_run polls m') as [m2 rs]. cbn. by right.
  - exists r'. destruct (recv_run polls m') as [m2 rs]. cbn. left.
Qed.
(** No transport starves: one that is alive and always has a packet is read within as many polls
    as there are transports, whatever the others deliver and however they fail. *)
Theorem recv_fair (m : Mux) k polls :
  ready_for k m -> (mx_cursor m < length (mx_health m))%nat -> (k < length (mx_health m))%nat ->
  length polls = length (mx_health m) -> (forall x, x ∈ polls -> exists r, x.2 k = RReady r) ->
  exists r, VReady k r ∈ (recv_run polls m).2.
Proof.
  intros Hk Hc Hlt Hl Hr. set (n := length (mx_health m)) in *.
  apply (recv_fair_run k ((k + (n - mx_cursor m)) mod n) polls m Hk); [apply Nat.mod_upper_bound; lia| |rewrite Hl; apply Nat.mod_upper_bound; lia|done].
  fold n. rewrite Nat.Div0.add_mod_idemp_r. replace (mx_cursor m + (k + (n - mx_cursor m)))%nat with (k + 1 * n)%nat by lia.
  by rewrite Nat.Div0.mod_add, Nat.mod_small.
Qed.

(** ** Addresses seen by the engine *)

Lemma canonical_mapped ip : ip_typed ip -> to_canonical (mapped_ip ip) = to_canonical ip.
Proof.
  destruct ip as [a b c d|g]; [|done]. intros (Ha & Hb & Hc & Hd). unfold in_u8, u8_max in *. cbn. f_equal; Z.to_euclidean_division_equations; lia.
Qed.
(** A logical IPv6 socket shows IPv4 peers to the engine as mapped addresses.  What the engine
    sends to an address it received from, naming the address it received on, takes the same
    route as the native addresses do. *)
Theorem reply_takes_same_route r (h : list Child) :
  ip_typed (ad_ip (rv_from r)) -> ad_flowinfo (rv_from r) = 0 -> ad_scope (rv_from r) = 0 ->
  (forall ip, rv_to r = Some ip -> ip_typed ip) ->
  route_child (normalized (rv_from (mapped r))) (to_canonical <$> rv_to (mapped r)) h = route_child (rv_from r) (rv_to r) h.
Proof.
  intros Hf Hfl Hsc Ht. assert (Hfrom : canonical_addr (rv_from (mapped r)) = canonical_addr (rv_from r)).
  { unfold mapped. cbn [rv_from]. destruct r as [[ip port fl sc] to data]. cbn in *. subst. destruct ip as [a b c d|g]; [|done].
    trans (addr_new (to_canonical (mapped_ip (V4 a b c d))) port); [done|]. by rewrite canonical_mapped. }
  assert (Hto : to_canonical <$> (to_canonical <$> rv_to (mapped r)) = to_canonical <$> rv_to r).
  { unfold mapped. cbn [rv_to]. destruct (rv_to r) as [ip|]; [|done]. cbn. f_equal. specialize (Ht ip eq_refl). rewrite (canonical_mapped ip Ht). apply to_canonical_id. by apply to_canonical_ok. }
  unfold normalized, route_child. rewrite Hfrom, canonical_idem, Hto. done.
Qed.

(** ** The race of the first handshakes *)

Inductive DialError : Type :=
| DialEmpty
| DialConnect (e : string)
| DialHandshake (e : string)
| DialTimeout
| DialTask.
(** [race]: the candidates that could not be started, then the attempts in the order they end;
    a connection is its number.  The second component is what is closed. *)
Fixpoint join_attempts (last_error : option DialError) (ended : list (result nat DialError))
  : result nat DialError * list nat :=
  match ended with
  | [] => (Err (default DialEmpty last_error), [])
  | Ok winner :: rest => (Ok winner, omap (fun r => match r with Ok loser => Some loser | Err _ => None end) rest)
  | Err e :: rest => join_attempts (Some e) rest
  end.
Definition race (unstarted : list string) (ended : list (result nat DialError)) : result nat DialError * list nat :=
  join_attempts (DialConnect <$> last unstarted) ended.
(** A dial succeeds exactly if some handshake does, with the first one that completed; every other
    connection that completed is closed, so that one alone is left.  It fails with the last
    error, and with no candidates as such. *)
Theorem race_one_winner unstarted ended :
  let completed := omap (fun r => match r with Ok c => Some c | Err _ => None end) ended in
  match race unstarted ended with
  | (Ok winner, closed) => completed = winner :: closed
  | (Err e, closed) => completed = [] /\ closed = [] /\
      (e = DialEmpty -> (unstarted = [] /\ ended = []) \/ last ended = Some (Err DialEmpty))
  end.
Proof.
  cbn zeta. unfold race. assert (H : forall l, match join_attempts l ended with
    | (Ok winner, closed) => omap (fun r => match r with Ok c => Some c | Err _ => None end) ended = winner :: closed
    | (Err e, closed) => omap (fun r => match r with Ok c => Some c | Err _ => None end) ended = [] /\ closed = [] /\
        match last ended with Some r => r = Err e | None => e = default DialEmpty l end
    end).
  { induction ended as [|[c|e] ended IH]; intros l; [done|done|]. cbn [join_attempts omap list_omap]. specialize (IH (Some e)).
    destruct (join_attempts (Some e) ended) as [[w|e'] closed]; [done|]. destruct IH as (H1 & H2 & H3). split; [done|]. split; [done|].
    rewrite last_cons. destruct (last ended) as [r|]; [done|]. cbn in H3. by subst. }
  specialize (H (DialConnect <$> last unstarted)). destruct (join_attempts _ _) as [[w|e] closed]; [done|].
  destruct H as (H1 & H2 & H3). split; [done|]. split; [done|]. intros ->. destruct (last ended) as [r|] eqn:El; [right; by subst|].
  left. destruct (last unstarted) eqn:Eu; [done|]. apply last_None in El, Eu. done.
Qed.

Module MuxWitness.
Definition wifi : Addr := addr_new (V4 192 168 1 2) 4433.
Definition any6 : Addr := addr_new (V6 [0; 0; 0; 0; 0; 0; 0; 0]) 4433.
Definition peer : Addr := addr_new (V4 203 0 113 9) 7000.
Definition sockets : list Child := health_new [wifi; any6; synthetic_local 0].
Definition packet : Received := mkReceived peer (Some (V4 192 168 1 2)) (bs "x").
Lemma route_exact_witness : exists c, sockets !! 0%nat = Some c /\ is_synthetic (ch_address c) = false.
Proof.
  destruct (route_exact peer (Some (V4 192 168 1 2)) sockets 0) as (c & Hc & H); [vm_compute; reflexivity|].
  exists c. split; [exact Hc|exact (proj1 H)].
Defined.
Definition mux : Mux := mkMux sockets 2 true any6 [None; None; None].
Definition busy (i : nat) : PollRecv := match i with 2%nat => RFailed (mkIoError Interrupted None) | _ => RReady [packet] end.
Lemma recv_fair_witness : exists r, VReady 1 r ∈ (recv_run [(0, busy); (1, busy); (2, busy)] mux).2.
Proof.
  apply (recv_fair mux 1 [(0, busy); (1, busy); (2, busy)]).
  - split; vm_compute; reflexivity.
  - cbn. lia.
  - cbn. lia.
  - reflexivity.
  - intros x Hx. exists [packet]. repeat (apply elem_of_cons in Hx as [->|Hx]; [reflexivity|]). by apply elem_of_nil in Hx.
Defined.
Lemma reply_takes_same_route_witness :
  route_child (normalized (rv_from (mapped packet))) (to_canonical <$> rv_to (mapped packet)) sockets = Some 0%nat.
Proof.
  rewrite (reply_takes_same_route packet sockets); [vm_compute; reflexivity|cbn; unfold in_u8, u8_max; lia|reflexivity|reflexivity|].
  intros ip [= <-]. cbn. unfold in_u8, u8_max. lia.
Defined.
End MuxWitness.
