(* ===== verification/Audio.v ===== *)
(** * Audio packets

    Models [src/crates/rds-audio/src/lib.rs]: formats and frame sizes, packets and their wire
    record, the encoder and decoder around the Opus library, and the jitter buffer.

    Samples and the codec are parameters: what the library says of a packet (how many frames it
    has, how many samples they last) and what it encodes and decodes.  The buffer's [BTreeMap]
    is a list sorted by sequence number. *)

From S2P Require Import Prelude.

Definition MAX_OPUS_FRAME_BYTES : Z := 1275.
Definition MAX_OPUS_PACKET_BYTES : Z := MAX_OPUS_FRAME_BYTES + 1.
Definition MAX_JITTER_PACKETS : Z := 64.
Inductive FrameDuration : Type := Ms2_5 | Ms5 | Ms10 | Ms20 | Ms40 | Ms60.
Definition duration_micros (d : FrameDuration) : Z :=
  match d with Ms2_5 => 2500 | Ms5 => 5000 | Ms10 => 10000 | Ms20 => 20000 | Ms40 => 40000 | Ms60 => 60000 end.
Definition duration_samples (d : FrameDuration) (sample_rate : Z) : Z := sample_rate * duration_micros d / 1000000.

Inductive AudioError : Type :=
| InvalidFormat (s : string)
| InvalidFrame (s : string)
| InvalidPacket (s : string)
| AudioCodec (s : string).
Record AudioFormat : Type := mkFormat { af_sample_rate : Z; af_channels : Z }.
(** [AudioFormat::validate], [frame_samples_for], [frame_samples]. *)
Definition format_validate (f : AudioFormat) : result unit AudioError :=
  if negb (existsb (Z.eqb (af_sample_rate f)) [8000; 12000; 16000; 24000; 48000]) then Err (InvalidFormat "unsupported sample rate")
  else if negb ((af_channels f =? 1) || (af_channels f =? 2)) then Err (InvalidFormat "audio must be mono or stereo")
  else Ok tt.
Definition frame_samples_for (f : AudioFormat) (d : FrameDuration) : result Z AudioError :=
  let? _ := format_validate f in Ok (duration_samples d (af_sample_rate f)).
Definition frame_samples (f : AudioFormat) (duration_ms : Z) : result Z AudioError :=
  let? d := (if duration_ms =? 5 then Ok Ms5 else if duration_ms =? 10 then Ok Ms10 else if duration_ms =? 20 then Ok Ms20
             else if duration_ms =? 40 then Ok Ms40 else if duration_ms =? 60 then Ok Ms60
             else Err (InvalidFrame "frame duration must be 2.5, 5, 10, 20, 40 or 60 ms")) in
  frame_samples_for f d.

Record AudioPacket : Type := mkAudioPacket { ap_seq : Z; ap_timestamp_us : Z; ap_samples : Z; ap_data : bytes }.
Record AudioFrame : Type := mkAudioFrame { au_seq : Z; au_capture_ts_ms : Z; au_samples : Z; au_data : bytes }.

Section Audio.
(** [opus::packet::parse] (the number of frames) and [get_nb_samples]. *)
Context (parse : bytes -> option Z) (get_nb_samples : bytes -> Z -> option Z).

(** [AudioPacket::validate]. *)
Definition packet_validate (f : AudioFormat) (frame : Z) (p : AudioPacket) : result unit AudioError :=
  let? _ := format_validate f in
  if ap_seq p =? u64_max then Err (InvalidPacket "audio sequence exhausted") else
  let valid_duration := existsb (fun d => duration_samples d (af_sample_rate f) =? frame) [Ms2_5; Ms5; Ms10; Ms20; Ms40; Ms60] in
  if negb valid_duration || negb (ap_samples p =? frame) then Err (InvalidFrame "packet sample count mismatch") else
  if (zlen (ap_data p) =? 0) || (MAX_OPUS_PACKET_BYTES <? zlen (ap_data p)) then Err (InvalidPacket "packet size is outside bounds") else
  match parse (ap_data p) with
  | None => Err (InvalidPacket "malformed Opus packet")
  | Some frames =>
      if negb (frames =? 1) then Err (InvalidPacket "expected one Opus frame") else
      match get_nb_samples (ap_data p) (af_sample_rate f) with
      | None => Err (InvalidPacket "invalid Opus duration")
      | Some samples => if negb (samples =? frame) then Err (InvalidFrame "Opus duration mismatch") else Ok tt
      end
  end.
(** [from_wire], [to_wire]. *)
Definition from_wire (w : AudioFrame) (f : AudioFormat) (frame : Z) : result AudioPacket AudioError :=
  match (if au_capture_ts_ms w * 1000 <=? u64_max then Some (au_capture_ts_ms w * 1000) else None) with
  | None => Err (InvalidPacket "wire timestamp overflow")
  | Some ts =>
      let p := mkAudioPacket (au_seq w) ts (au_samples w) (au_data w) in
      let? _ := packet_validate f frame p in Ok p
  end.
Definition to_wire (p : AudioPacket) : AudioFrame :=
  mkAudioFrame (ap_seq p) (ap_timestamp_us p / 1000) (ap_samples p) (ap_data p).

(** ** The encoder and the decoder *)

Context {Sample Enc Dec : Type}.
Context (encode_float : Enc -> list Sample -> Enc * result bytes string).
Context (decode_float : Dec -> bytes -> Z -> Dec * result (list Sample * Z) string).
Record OpusEncoder : Type := mkEncoder { oe_inner : Enc; oe_format : AudioFormat; oe_frame : Z; oe_next_seq : Z }.
Record OpusDecoder : Type := mkDecoder { od_inner : Dec; od_format : AudioFormat; od_frame : Z }.
(** [OpusEncoder::new] once the library made its encoder, and [encode]. *)
Definition encoder_new (inner : result Enc string) (f : AudioFormat) : result OpusEncoder AudioError :=
  let? frame := frame_samples_for f Ms20 in
  match inner with Err e => Err (AudioCodec e) | Ok i => Ok (mkEncoder i f frame 0) end.
Definition decoder_new (inner : result Dec string) (f : AudioFormat) : result OpusDecoder AudioError :=
  let? frame := frame_samples_for f Ms20 in
  match inner with Err e => Err (AudioCodec e) | Ok i => Ok (mkDecoder i f frame) end.
Definition audio_encode (pcm : list Sample) (timestamp_us : Z) (e : OpusEncoder) : OpusEncoder * result AudioPacket AudioError :=
  if negb (zlen pcm =? oe_frame e * af_channels (oe_format e)) then (e, Err (InvalidFrame "PCM frame has the wrong length")) else
  match checked_add64 (oe_next_seq e) 1 with
  | None => (e, Err (InvalidFrame "audio sequence exhausted"))
  | Some next_seq =>
      let '(inner, r) := encode_float (oe_inner e) pcm in
      let e := mkEncoder inner (oe_format e) (oe_frame e) (oe_next_seq e) in
      match r with
      | Err s => (e, Err (AudioCodec s))
      | Ok data =>
          let p := mkAudioPacket (oe_next_seq e) timestamp_us (oe_frame e) data in
          match packet_validate (oe_format e) (oe_frame e) p with
          | Err x => (e, Err x)
          | Ok _ => (mkEncoder inner (oe_format e) (oe_frame e) next_seq, Ok p)
          end
      end
  end.
(** [OpusDecoder::decode] and [decode_plc], which conceals one lost packet. *)
Definition decode_data (data : bytes) (what : string) (d : OpusDecoder) : OpusDecoder * result (list Sample) AudioError :=
  let '(inner, r) := decode_float (od_inner d) data (od_frame d * af_channels (od_format d)) in
  (mkDecoder inner (od_format d) (od_frame d),
   match r with
   | Err s => Err (AudioCodec s)
   | Ok (pcm, decoded) => if negb (decoded =? od_frame d) then Err (AudioCodec what) else Ok pcm
   end).
Definition audio_decode (p : AudioPacket) (d : OpusDecoder) : OpusDecoder * result (list Sample) AudioError :=
  match packet_validate (od_format d) (od_frame d) p with
  | Err e => (d, Err e)
  | Ok _ => decode_data (ap_data p) "decoder returned an unexpected frame size" d
  end.
Definition decode_plc (d : OpusDecoder) : OpusDecoder * result (list Sample) AudioError :=
  decode_data [] "PLC returned an unexpected frame size" d.

(** ** The jitter buffer *)

Inductive PushOutcome : Type := Accepted | Duplicate | Late | DroppedOverflow.
Inductive PopOutcome : Type := PlayPacket (p : AudioPacket) | Gap (sequence : Z) | Discontinuity (from_ to : Z).
Record JitterBuffer : Type := mkJitter {
  jb_format : AudioFormat; jb_frame : Z; jb_capacity : Z; jb_target_delay : Z;
  jb_next : option Z; jb_packets : list AudioPacket;
  jb_accepted : Z; jb_duplicates : Z; jb_late : Z; jb_overflow : Z; jb_gaps : Z
}.
Definition jitter_new (f : AudioFormat) (capacity target_delay : Z) : result JitterBuffer AudioError :=
  let? frame := frame_samples_for f Ms20 in
  if (capacity =? 0) || (MAX_JITTER_PACKETS <? capacity) || (capacity <=? target_delay)
  then Err (InvalidFrame "invalid jitter-buffer bounds")
  else Ok (mkJitter f frame capacity target_delay None [] 0 0 0 0 0).
Definition with_packets (next : option Z) (ps : list AudioPacket) (j : JitterBuffer) : JitterBuffer :=
  mkJitter (jb_format j) (jb_frame j) (jb_capacity j) (jb_target_delay j) next ps
    (jb_accepted j) (jb_duplicates j) (jb_late j) (jb_overflow j) (jb_gaps j).
Definition count_jitter (a d l o g : Z) (j : JitterBuffer) : JitterBuffer :=
  mkJitter (jb_format j) (jb_frame j) (jb_capacity j) (jb_target_delay j) (jb_next j) (jb_packets j)
    (sat_add64 (jb_accepted j) a) (sat_add64 (jb_duplicates j) d) (sat_add64 (jb_late j) l)
    (sat_add64 (jb_overflow j) o) (sat_add64 (jb_gaps j) g).
Fixpoint packet_insert (p : AudioPacket) (l : list AudioPacket) : list AudioPacket :=
  match l with
  | [] => [p]
  | q :: l' => if ap_seq p <? ap_seq q then p :: l else if ap_seq p =? ap_seq q then p :: l' else q :: packet_insert p l'
  end.
(** [JitterBuffer::push]. *)
Definition jitter_push (p : AudioPacket) (j : JitterBuffer) : JitterBuffer * result PushOutcome AudioError :=
  match packet_validate (jb_format j) (jb_frame j) p with
  | Err e => (j, Err e)
  | Ok _ =>
      if is_some_and (jb_next j) (fun next => ap_seq p <? next) then (count_jitter 0 0 1 0 0 j, Ok Late)
      else if existsb (fun q => ap_seq q =? ap_seq p) (jb_packets j) then (count_jitter 0 1 0 0 0 j, Ok Duplicate)
      else if zlen (jb_packets j) =? jb_capacity j then
        match jb_packets j with
        | oldest :: rest =>
            if ap_seq p <? ap_seq oldest then (count_jitter 0 0 0 1 0 j, Ok DroppedOverflow)
            else (count_jitter 1 0 0 1 0 (with_packets (jb_next j) (packet_insert p rest) j), Ok DroppedOverflow)
        | [] => (count_jitter 1 0 0 1 0 (with_packets (jb_next j) [p] j), Ok DroppedOverflow)
        end
      else (count_jitter 1 0 0 0 0 (with_packets (jb_next j) (packet_insert p (jb_packets j)) j), Ok Accepted)
  end.
(** [JitterBuffer::pop]. *)
Definition jitter_pop (j : JitterBuffer) : JitterBuffer * option PopOutcome :=
  match (match jb_next j with Some next => Some next | None => ap_seq <$> head (jb_packets j) end) with
  | None => (j, None)
  | Some next =>
      let j := with_packets (Some next) (jb_packets j) j in
      match find (fun q => ap_seq q =? next) (jb_packets j) with
      | Some p => (with_packets (Some (next + 1)) (filter (fun q => ap_seq q <> next) (jb_packets j)) j, Some (PlayPacket p))
      | None =>
          if jb_target_delay j <? zlen (jb_packets j) then
            match head (jb_packets j) with
            | None => (j, None)
            | Some first =>
                let missing := ap_seq first - next in
                if jb_capacity j <? missing
                then (count_jitter 0 0 0 0 missing (with_packets (Some (ap_seq first)) (jb_packets j) j),
                      Some (Discontinuity next (ap_seq first)))
                else (count_jitter 0 0 0 0 1 (with_packets (Some (next + 1)) (jb_packets j) j), Some (Gap next))
            end
          else (j, None)
      end
  end.
(** [JitterBuffer::start_at]. *)
Definition jitter_start_at (sequence : Z) (j : JitterBuffer) : JitterBuffer * result unit AudioError :=
  if is_some (jb_next j) then (j, Err (InvalidFrame "jitter playout already started"))
  else if sequence =? u64_max then (j, Err (InvalidFrame "audio sequence exhausted"))
  else
    let kept := filter (fun q => sequence <= ap_seq q) (jb_packets j) in
    (count_jitter 0 0 (zlen (jb_packets j) - zlen kept) 0 0 (with_packets (Some sequence) kept j), Ok tt).

(** ** Runs *)

Inductive jitter_event : Type := JPush (p : AudioPacket) | JPop | JStart (sequence : Z).
Inductive jitter_output : Type :=
| OPush (r : result PushOutcome AudioError) | OPop (o : option PopOutcome) | OStart (r : result unit AudioError).
Definition jitter_step (e : jitter_event) (j : JitterBuffer) : JitterBuffer * jitter_output :=
  match e with
  | JPush p => let '(j, r) := jitter_push p j in (j, OPush r)
  | JPop => let '(j, o) := jitter_pop j in (j, OPop o)
  | JStart s => let '(j, r) := jitter_start_at s j in (j, OStart r)
  end.
Fixpoint jitter_run (es : list jitter_event) (j : JitterBuffer) : JitterBuffer * list jitter_output :=
  match es with
  | [] => (j, [])
  | e :: es => let '(j, o) := jitter_step e j in let '(j, os) := jitter_run es j in (j, o :: os)
  end.
Definition is_played (o : jitter_output) : option PopOutcome := match o with OPop r => r | _ => None end.
Definition playout (os : list jitter_output) : list PopOutcome := omap is_played os.
Definition played_packet (o : PopOutcome) : option AudioPacket := match o with PlayPacket p => Some p | _ => None end.
(** The sources of a packet and of a start position are [u64] values. *)
Definition event_ok (e : jitter_event) : Prop :=
  match e with JPush p => 0 <= ap_seq p <= u64_max | JPop => True | JStart s => 0 <= s <= u64_max end.
(** The pop outcomes [os] account for the positions from [s] up to [n], each once. *)
Fixpoint covers (capacity : Z) (s : Z) (os : list PopOutcome) (n : Z) : Prop :=
  match os with
  | [] => s = n
  | PlayPacket p :: os => ap_seq p = s /\ covers capacity (s + 1) os n
  | Gap q :: os => q = s /\ covers capacity (s + 1) os n
  | Discontinuity a b :: os => a = s /\ s + capacity < b /\ covers capacity b os n
  end.

Definition seq_lt (p q : AudioPacket) : Prop := ap_seq p < ap_seq q.
Record jitter_inv (j : JitterBuffer) : Prop := {
  ji_bounds : 0 <= jb_target_delay j < jb_capacity j /\ jb_capacity j <= MAX_JITTER_PACKETS;
  ji_len : zlen (jb_packets j) <= jb_capacity j;
  ji_sorted : StronglySorted seq_lt (jb_packets j);
  ji_floor : Forall (fun p => match jb_next j with Some n => n <= ap_seq p | None => 0 <= ap_seq p end /\ ap_seq p < u64_max) (jb_packets j);
  ji_next : match jb_next j with Some n => 0 <= n <= u64_max | None => True end
}.

Lemma packet_insert_elem p l x :
  ~ existsb (fun q => ap_seq q =? ap_seq p) l -> x ∈ packet_insert p l <-> x = p \/ x ∈ l.
Proof.
  induction l as [|q l IH]; cbn [existsb packet_insert]; intros Hn; [set_solver|].
  destruct (ap_seq p <? ap_seq q); [set_solver|].
  destruct (Z.eqb_spec (ap_seq p) (ap_seq q)) as [E|E].
  { rewrite E, Z.eqb_refl in Hn. destruct Hn. exact I. }
  rewrite elem_of_cons, IH; [set_solver|]. intros H. apply Hn. now rewrite Is_true_true in H |- *; rewrite H, orb_true_r.
Qed.
Lemma packet_insert_sorted p l : StronglySorted seq_lt l -> StronglySorted seq_lt (packet_insert p l).
Proof.
  induction l as [|q l IH]; cbn [packet_insert]; intros Hs; [repeat constructor|].
  pose proof (StronglySorted_inv Hs) as [Hl Hq].
  destruct (Z.ltb_spec (ap_seq p) (ap_seq q)) as [H|H].
  { constructor; [done|]. constructor; [done|]. eapply Forall_impl; [exact Hq|]. unfold seq_lt. intros; lia. }
  destruct (Z.eqb_spec (ap_seq p) (ap_seq q)) as [E|E].
  { constructor; [done|]. eapply Forall_impl; [exact Hq|]. unfold seq_lt. intros; lia. }
  constructor; [auto|]. clear IH Hs Hl. induction l as [|r l IH]; cbn [packet_insert]; [repeat constructor; unfold seq_lt; lia|].
  apply Forall_cons in Hq as [Hr Hl]. specialize (IH Hl). unfold seq_lt in *.
  destruct (ap_seq p <? ap_seq r); [repeat constructor; auto; lia|].
  destruct (ap_seq p =? ap_seq r); repeat constructor; auto; lia.
Qed.
Lemma packet_insert_len p l :
  ~ existsb (fun q => ap_seq q =? ap_seq p) l -> zlen (packet_insert p l) = zlen l + 1.
Proof.
  unfold zlen. induction l as [|q l IH]; cbn [existsb packet_insert length]; intros Hn; [lia|].
  destruct (ap_seq p <? ap_seq q); [cbn [length]; lia|].
  rewrite (Z.eqb_sym (ap_seq p)). destruct (ap_seq q =? ap_seq p); [destruct Hn; exact I|].
  cbn [length]. rewrite Nat2Z.inj_succ, IH by exact Hn. lia.
Qed.
Lemma packet_insert_perm p l :
  ~ existsb (fun q => ap_seq q =? ap_seq p) l -> packet_insert p l ≡ₚ p :: l.
Proof.
  induction l as [|q l IH]; cbn [existsb packet_insert]; intros Hn; [done|].
  destruct (ap_seq p <? ap_seq q); [done|]. rewrite (Z.eqb_sym (ap_seq p)).
  destruct (ap_seq q =? ap_seq p); [destruct Hn; exact I|]. rewrite IH by exact Hn. constructor.
Qed.

Definition not_late (j : JitterBuffer) (p : AudioPacket) : Prop := match jb_next j with Some n => n <= ap_seq p | None => True end.
Inductive push_case (j : JitterBuffer) (p : AudioPacket) : list AudioPacket -> PushOutcome -> Prop :=
| push_late n : jb_next j = Some n -> ap_seq p < n -> push_case j p (jb_packets j) Late
| push_dup q : not_late j p -> q ∈ jb_packets j -> ap_seq q = ap_seq p -> push_case j p (jb_packets j) Duplicate
| push_new : not_late j p -> ~ existsb (fun q => ap_seq q =? ap_seq p) (jb_packets j) ->
    zlen (jb_packets j) < jb_capacity j -> push_case j p (packet_insert p (jb_packets j)) Accepted
| push_full : not_late j p -> ~ existsb (fun q => ap_seq q =? ap_seq p) (jb_packets j) ->
    zlen (jb_packets j) = jb_capacity j -> push_case j p (tail (packet_insert p (jb_packets j))) DroppedOverflow.
Definition same_shape (j j' : JitterBuffer) : Prop :=
  jb_format j' = jb_format j /\ jb_frame j' = jb_frame j /\ jb_capacity j' = jb_capacity j /\ jb_target_delay j' = jb_target_delay j.

Lemma find_existsb {A} (f : A -> bool) (l : list A) : existsb f l = true -> exists x, x ∈ l /\ f x = true.
Proof. intros (x & Hx & Hf)%existsb_exists. exists x. by rewrite list_elem_of_In. Qed.
Lemma push_cases j p j' r :
  jitter_inv j -> jitter_push p j = (j', r) ->
  same_shape j j' /\ jb_next j' = jb_next j /\
  match r with
  | Err e => j' = j /\ packet_validate (jb_format j) (jb_frame j) p = Err e
  | Ok o => packet_validate (jb_format j) (jb_frame j) p = Ok tt /\ push_case j p (jb_packets j') o
  end.
Proof.
  intros Hi. unfold jitter_push. destruct (packet_validate _ _ p) as [[]|e] eqn:V; [|by intros [= <- <-]].
  destruct (is_some_and (jb_next j) _) eqn:L.
  { intros [= <- <-]. split_and!; try done. destruct (jb_next j) as [n|] eqn:N; [|done]. cbn in L. b2p. cbn [count_jitter jb_packets]. by eapply push_late. }
  assert (NL : not_late j p) by (unfold not_late; destruct (jb_next j); [cbn in L; b2p; lia|done]).
  destruct (existsb _ _) eqn:D.
  { intros [= <- <-]. split_and!; try done. apply find_existsb in D as (q & Hq & E). b2p. cbn [count_jitter jb_packets]. by eapply push_dup. }
  assert (ND : ~ existsb (fun q => ap_seq q =? ap_seq p) (jb_packets j)) by (rewrite D; by intros []).
  destruct (Z.eqb_spec (zlen (jb_packets j)) (jb_capacity j)) as [F|F].
  - destruct (jb_packets j) as [|q l] eqn:P.
    { exfalso. destruct (ji_bounds _ Hi). unfold zlen in F; cbn in F; lia. }
    destruct (ap_seq p <? ap_seq q) eqn:O; intros [= <- <-]; split_and!; try done; cbn [count_jitter with_packets jb_packets].
    + rewrite P. replace (q :: l) with (tail (packet_insert p (jb_packets j))) by (by rewrite P; cbn; rewrite O).
      apply push_full; by rewrite ?P.
    + replace (packet_insert p l) with (tail (packet_insert p (jb_packets j))).
      { apply push_full; by rewrite ?P. }
      rewrite P. cbn [packet_insert]. rewrite O. destruct (ap_seq p =? ap_seq q) eqn:E; [|done].
      rewrite Z.eqb_sym in E. cbn [existsb] in D. by rewrite E in D.
  - intros [= <- <-]. split_and!; try done. cbn [count_jitter with_packets jb_packets]. apply push_new; try done. pose proof (ji_len _ Hi). lia.
Qed.
Lemma sorted_tail {A} (R : A -> A -> Prop) l : StronglySorted R l -> StronglySorted R (tail l).
Proof. destruct l; [done|]. intros H. exact (proj1 (StronglySorted_inv H)). Qed.
Lemma elem_of_tail {A} (x : A) l : x ∈ tail l -> x ∈ l.
Proof. destruct l; [done|]. cbn. set_solver. Qed.
Lemma packet_valid_seq f frame p : packet_validate f frame p = Ok tt -> ap_seq p <> u64_max.
Proof. unfold packet_validate. intros H. inv_all; b2p; lia. Qed.
Lemma push_inv j p : jitter_inv j -> 0 <= ap_seq p <= u64_max -> jitter_inv (fst (jitter_push p j)).
Proof.
  intros Hi Hp. destruct (jitter_push p j) as [j' r] eqn:E. cbn [fst].
  apply push_cases in E as ((_ & _ & Ec & Et) & En & Hr); [|done]. destruct r as [o|e]; [|by destruct Hr as [-> _]].
  destruct Hr as [V Hc]. apply packet_valid_seq in V. destruct Hi as [Hb Hl Hs Hf Hn].
  assert (Hins : not_late j p -> ~ existsb (fun q => ap_seq q =? ap_seq p) (jb_packets j) -> forall q, q ∈ packet_insert p (jb_packets j) ->
    match jb_next j with Some n => n <= ap_seq q | None => 0 <= ap_seq q end /\ ap_seq q < u64_max).
  { intros NL ND q [->|Hq]%packet_insert_elem; [|exact (proj1 (Forall_forall _ _) Hf q Hq)|done].
    unfold not_late in NL. destruct (jb_next j); lia. }
  split; rewrite ?Ec, ?Et, ?En; try done; inversion Hc; subst; try done.
  - rewrite packet_insert_len by done. lia.
  - enough (zlen (tail (packet_insert p (jb_packets j))) = zlen (packet_insert p (jb_packets j)) - 1) as -> by (rewrite packet_insert_len by done; lia).
    pose proof (packet_insert_len p (jb_packets j) ltac:(done)) as K. destruct (packet_insert p _); unfold zlen in *; cbn [length tail] in *; lia.
  - by apply packet_insert_sorted.
  - by apply sorted_tail, packet_insert_sorted.
  - apply Forall_forall. auto.
  - apply Forall_forall. intros q Hq%elem_of_tail. auto.
Qed.

Lemma sorted_head_le l first q : StronglySorted seq_lt l -> head l = Some first -> q ∈ l -> ap_seq first <= ap_seq q.
Proof.
  destruct l as [|p l]; [done|]. intros [_ Hp]%StronglySorted_inv [= ->] [->|Hq]%elem_of_cons; [lia|].
  pose proof (proj1 (Forall_forall _ _) Hp q Hq) as H. unfold seq_lt in H. lia.
Qed.
Lemma sorted_seq_nodup l : StronglySorted seq_lt l -> NoDup (ap_seq <$> l).
Proof.
  induction 1 as [|q l Hl IH Hq]; cbn; constructor; [|exact IH].
  intros (r & Er & Hr)%list_elem_of_fmap. pose proof (proj1 (Forall_forall _ _) Hq r Hr) as H. unfold seq_lt in H. lia.
Qed.
(** Where playout stands before a pop: the next position, or the first packet held. *)
Definition position_of (j : JitterBuffer) (n : Z) : Prop :=
  jb_next j = Some n \/ (jb_next j = None /\ exists p, head (jb_packets j) = Some p /\ ap_seq p = n).
Lemma pop_cases j j' o :
  jitter_inv j -> jitter_pop j = (j', o) ->
  same_shape j j' /\
  match o with
  | None => jb_next j' = jb_next j /\ jb_packets j' = jb_packets j /\ zlen (jb_packets j) <= jb_target_delay j
  | Some (PlayPacket p) =>
      p ∈ jb_packets j /\ position_of j (ap_seq p) /\ jb_next j' = Some (ap_seq p + 1) /\
      jb_packets j' = filter (fun q => ap_seq q <> ap_seq p) (jb_packets j)
  | Some (Gap n) =>
      jb_next j = Some n /\ jb_next j' = Some (n + 1) /\ jb_packets j' = jb_packets j /\
      (forall q, q ∈ jb_packets j -> n < ap_seq q) /\ jb_target_delay j < zlen (jb_packets j)
  | Some (Discontinuity a b) =>
      jb_next j = Some a /\ jb_next j' = Some b /\ jb_packets j' = jb_packets j /\ a + jb_capacity j < b /\
      (forall q, q ∈ jb_packets j -> b <= ap_seq q) /\ (exists q, q ∈ jb_packets j /\ ap_seq q = b) /\
      jb_target_delay j < zlen (jb_packets j)
  end.
Proof.
  intros Hi. unfold jitter_pop.
  destruct (match jb_next j with Some _ => _ | None => _ end) as [n|] eqn:N.
  2: { intros [= <- <-]. destruct (jb_next j); [done|]. destruct (jb_packets j); [|done]. pose proof (ji_bounds _ Hi). split; [done|]. unfold zlen. cbn. by repeat split; lia. }
  assert (Hpos : position_of j n).
  { unfold position_of. destruct (jb_next j) as [m|]; [left; congruence|right]. split; [done|].
    destruct (head (jb_packets j)) as [p|]; [|done]. exists p. by injection N. }
  cbn [with_packets jb_packets jb_target_delay jb_capacity].
  destruct (find _ _) as [p|] eqn:F.
  { apply find_some in F as [Hp E]. b2p. subst n. intros [= <- <-]. split; [done|]. by rewrite list_elem_of_In. }
  assert (Hno : forall q, q ∈ jb_packets j -> ap_seq q <> n).
  { intros q Hq E. apply list_elem_of_In in Hq. pose proof (find_none _ _ F q Hq). cbn in *. b2p. lia. }
  destruct Hpos as [Hn|(Hn & p & Hp & E)].
  2: { exfalso. apply (Hno p); [|done]. destruct (jb_packets j); [done|]. injection Hp as ->. set_solver. }
  assert (Hgt : forall q, q ∈ jb_packets j -> n < ap_seq q).
  { intros q Hq. pose proof (proj1 (Forall_forall _ _) (ji_floor _ Hi) q Hq) as [Hfl _]. rewrite Hn in Hfl. specialize (Hno q Hq). lia. }
  destruct (Z.ltb_spec (jb_target_delay j) (zlen (jb_packets j))) as [T|T]; [|intros [= <- <-]; by repeat split; cbn].
  destruct (head (jb_packets j)) as [first|] eqn:H.
  2: { destruct (jb_packets j) eqn:P; [|done]. pose proof (ji_bounds _ Hi). unfold zlen in T. cbn in T. lia. }
  destruct (Z.ltb_spec (jb_capacity j) (ap_seq first - n)) as [C|C]; intros [= <- <-]; (split; [done|]); split_and!; try done.
  - lia.
  - intros q Hq. eapply sorted_head_le; eauto. apply ji_sorted; done.
  - exists first. split; [|done]. destruct (jb_packets j); [done|]. injection H as ->. set_solver.
Qed.
Lemma pop_inv j : jitter_inv j -> jitter_inv (fst (jitter_pop j)).
Proof.
  intros Hi. destruct (jitter_pop j) as [j' o] eqn:E. cbn [fst].
  apply pop_cases in E as ((_ & _ & Ec & Et) & Hr); [|done]. destruct Hi as [Hb Hl Hs Hf Hn].
  destruct o as [[p|n|a b]|].
  - destruct Hr as (Hp & Hpos & En & Ep). pose proof (proj1 (Forall_forall _ _) Hf p Hp) as [Hlo Hhi].
    assert (H0 : 0 <= ap_seq p) by (destruct (jb_next j); lia).
    split; rewrite ?Ec, ?Et, ?En, ?Ep; try done; [| |apply Forall_forall; intros q [Hne Hq]%list_elem_of_filter|lia].
    + pose proof (length_filter (fun q => ap_seq q <> ap_seq p) (jb_packets j)). unfold zlen in *. lia.
    + eapply StronglySorted_sublist; [|exact Hs]. apply sublist_filter.
    + pose proof (proj1 (Forall_forall _ _) Hf q Hq) as [Hlo' ?]. split; [|done].
      destruct Hpos as [Hpos|(_ & first & Hh & Ef)].
      * rewrite Hpos in Hlo'. lia.
      * pose proof (sorted_head_le _ _ q Hs Hh Hq). lia.
  - destruct Hr as (En & En' & Ep & Hgt & Ht).
    split; rewrite ?Ec, ?Et, ?En', ?Ep; try done.
    + apply Forall_forall. intros q Hq. destruct (proj1 (Forall_forall _ _) Hf q Hq). specialize (Hgt q Hq). lia.
    + rewrite En in Hn. destruct (jb_packets j) as [|q l]; [unfold zlen in Ht; cbn in Ht; lia|].
      apply Forall_cons in Hf as [[_ Hq] _]. specialize (Hgt q ltac:(set_solver)). lia.
  - destruct Hr as (En & En' & Ep & Hab & Hge & (q & Hq & Eq) & _). destruct (proj1 (Forall_forall _ _) Hf q Hq).
    rewrite En in Hn. split; rewrite ?Ec, ?Et, ?En', ?Ep; try done; [|lia].
    apply Forall_forall. intros r Hr. destruct (proj1 (Forall_forall _ _) Hf r Hr). specialize (Hge r Hr). lia.
  - destruct Hr as (En & Ep & _). by split; rewrite ?Ec, ?Et, ?En, ?Ep.
Qed.

Lemma start_inv s j : jitter_inv j -> 0 <= s <= u64_max -> jitter_inv (fst (jitter_start_at s j)).
Proof.
  intros [Hb Hl Hs Hf Hn] H. unfold jitter_start_at.
  destruct (is_some (jb_next j)); [done|]. destruct (s =? u64_max); [done|]. cbn [fst].
  split; cbn; try done.
  - pose proof (length_filter (fun q => s <= ap_seq q) (jb_packets j)). unfold zlen in *. lia.
  - eapply StronglySorted_sublist; [|exact Hs]. apply sublist_filter.
  - apply Forall_forall. intros q [Hq Hin]%list_elem_of_filter. destruct (proj1 (Forall_forall _ _) Hf q Hin). done.
Qed.
Lemma jitter_step_inv e j : jitter_inv j -> event_ok e -> jitter_inv (fst (jitter_step e j)).
Proof.
  intros Hi He. destruct e as [p| |s]; cbn [jitter_step].
  - pose proof (push_inv j p Hi He). by destruct (jitter_push p j).
  - pose proof (pop_inv j Hi). by destruct (jitter_pop j).
  - pose proof (start_inv s j Hi He). by destruct (jitter_start_at s j).
Qed.
Lemma jitter_new_inv f c d j : 0 <= c -> 0 <= d -> jitter_new f c d = Ok j -> jitter_inv j.
Proof.
  unfold jitter_new. intros Hc Hd H. destruct (frame_samples_for f Ms20); [|done]. cbn in H.
  destruct (Z.eqb_spec c 0); [done|]. destruct (Z.ltb_spec MAX_JITTER_PACKETS c); [done|].
  destruct (Z.leb_spec c d); [done|]. injection H as <-.
  split; cbn; try done; try constructor; lia.
Qed.

Lemma jitter_new_shape f c d j : jitter_new f c d = Ok j ->
  jb_capacity j = c /\ jb_target_delay j = d /\ jb_next j = None /\ jb_packets j = [] /\ jb_gaps j = 0 /\ jb_format j = f.
Proof. unfold jitter_new. destruct (frame_samples_for f Ms20); [|done]. cbn. case_match; [done|]. by intros [= <-]. Qed.

(** *** Positions *)

Definition missing_of (o : PopOutcome) : Z := match o with PlayPacket _ => 0 | Gap _ => 1 | Discontinuity a b => b - a end.
Definition missing (os : list PopOutcome) : Z := foldr (fun o n => missing_of o + n) 0 os.
Lemma covers_app c s os1 n os2 m : covers c s os1 n -> covers c n os2 m -> covers c s (os1 ++ os2) m.
Proof.
  revert s. induction os1 as [|o os1 IH]; intros s; cbn [covers app]; [by intros ->|].
  destruct o; intros; destruct_and?; split_and?; eauto.
Qed.
(** Playout stands at [n], once it started. *)
Definition advances (c : Z) (from_ : option Z) (os : list PopOutcome) (to : option Z) : Prop :=
  match from_, to with
  | Some n, Some m => covers c n os m
  | Some _, None => False
  | None, None => os = []
  | None, Some m => exists s, 0 <= s /\ covers c s os m
  end.
Lemma advances_trans c a os1 b os2 d : advances c a os1 b -> advances c b os2 d -> advances c a (os1 ++ os2) d.
Proof.
  destruct a as [a|], b as [b|], d as [d|]; cbn; try done.
  - apply covers_app.
  - intros (s & Hs & H1) H2. exists s. split; [done|]. by eapply covers_app.
  - by intros ->.
  - by intros ->.
Qed.
Lemma advances_step e j j' o :
  jitter_inv j -> event_ok e -> jitter_step e j = (j', o) ->
  advances (jb_capacity j) (jb_next j) (option_list (is_played o)) (jb_next j') /\ same_shape j j'.
Proof.
  intros Hi He. destruct e as [p| |s]; cbn [jitter_step].
  - destruct (jitter_push p j) as [j1 r] eqn:E. intros [= <- <-]. apply push_cases in E as (? & En & _); [|done].
    split; [|done]. rewrite En. unfold advances. cbn. by destruct (jb_next j).
  - destruct (jitter_pop j) as [j1 r] eqn:E. intros [= <- <-]. apply pop_cases in E as (? & Hr); [|done].
    split; [|done]. cbn [is_played]. destruct r as [[p|n|a b]|]; cbn [option_list].
    + destruct Hr as (Hp & Hpos & -> & _). destruct (proj1 (Forall_forall _ _) (ji_floor _ Hi) p Hp) as [Hfl _].
      destruct Hpos as [->|(Hn & _)]; [by cbn|]. rewrite Hn in *. cbn. by exists (ap_seq p).
    + by destruct Hr as (-> & -> & _).
    + destruct Hr as (-> & -> & _ & ? & _). by cbn.
    + destruct Hr as (-> & _). unfold advances. by destruct (jb_next j).
  - unfold jitter_start_at. destruct (jb_next j) as [n|] eqn:N; cbn [is_some].
    { intros [= <- <-]. by rewrite N. }
    destruct (s =? u64_max); intros [= <- <-]; [by rewrite N|]. cbn. split; [|done]. exists s. cbn in He. split; [lia|done].
Qed.
Lemma jitter_run_ok es j j' os :
  jitter_inv j -> Forall event_ok es -> jitter_run es j = (j', os) ->
  jitter_inv j' /\ same_shape j j' /\ advances (jb_capacity j) (jb_next j) (playout os) (jb_next j').
Proof.
  revert j os. induction es as [|e es IH]; intros j os Hi Hes; cbn [jitter_run].
  { intros [= <- <-]. split_and!; try done. unfold advances. by destruct (jb_next j). }
  apply Forall_cons in Hes as [He Hes]. pose proof (jitter_step_inv e j Hi He) as Hi1.
  destruct (jitter_step e j) as [j1 o] eqn:E. destruct (jitter_run es j1) as [j2 os2] eqn:R. intros [= <- <-].
  apply advances_step in E as [Ha (? & ? & Ec & ?)]; [|done|done].
  destruct (IH j1 os2 Hi1 Hes R) as (Hi2 & (? & ? & ? & ?) & Ha2). rewrite Ec in Ha2.
  split_and!; [done|by repeat split; congruence|].
  replace (playout (o :: os2)) with (option_list (is_played o) ++ playout os2) by (unfold playout; cbn; by destruct (is_played o)).
  by eapply advances_trans.
Qed.

(** *** Where packets come from, and what is lost *)

Definition from_pushed (es : list jitter_event) (j : JitterBuffer) (p : AudioPacket) : Prop :=
  p ∈ jb_packets j \/ (JPush p ∈ es /\ packet_validate (jb_format j) (jb_frame j) p = Ok tt).
Lemma step_sources e j j' o :
  jitter_inv j -> jitter_step e j = (j', o) ->
  (forall p, p ∈ jb_packets j' -> from_pushed [e] j p) /\
  (forall p, is_played o = Some (PlayPacket p) -> p ∈ jb_packets j).
Proof.
  intros Hi. destruct e as [p| |s]; cbn [jitter_step].
  - destruct (jitter_push p j) as [j1 r] eqn:E. intros [= <- <-]. split; [|done]. intros q Hq.
    apply push_cases in E as (_ & _ & Hr); [|done]. destruct r as [x|x]; [|destruct Hr as [-> _]; by left].
    destruct Hr as [V Hc].
    inversion Hc as [n Hn Hlt Hp|r NL Hr Hs Hp|NL ND Hlen Hp|NL ND Hlen Hp]; rewrite <-Hp in Hq; [by left|by left| |apply elem_of_tail in Hq].
    all: apply packet_insert_elem in Hq as [->|?]; [right; split; [set_solver|done]|by left|done].
  - destruct (jitter_pop j) as [j1 r] eqn:E. intros [= <- <-]. apply pop_cases in E as (_ & Hr); [|done].
    split; [intros q Hq; left|intros q Hq; cbn in Hq; subst r; by destruct Hr].
    destruct r as [[p|n|a b]|]; [|destruct_and?; congruence..].
    destruct Hr as (_ & _ & _ & Ep). rewrite Ep in Hq. by apply list_elem_of_filter in Hq as [_ ?].
  - unfold jitter_start_at. destruct (is_some _); [intros [= <- <-]; split; [by left|done]|].
    destruct (s =? u64_max); intros [= <- <-]; (split; [|done]); [by left|].
    intros q [_ Hq]%list_elem_of_filter. by left.
Qed.
Lemma run_sources es j j' os :
  jitter_inv j -> Forall event_ok es -> jitter_run es j = (j', os) ->
  (forall p, p ∈ jb_packets j' -> from_pushed es j p) /\ (forall p, PlayPacket p ∈ playout os -> from_pushed es j p).
Proof.
  revert j os. induction es as [|e es IH]; intros j os Hi Hes; cbn [jitter_run].
  { intros [= <- <-]. split; [by left|]. intros p Hp. cbn in Hp. by apply not_elem_of_nil in Hp. }
  apply Forall_cons in Hes as [He Hes]. pose proof (jitter_step_inv e j Hi He) as Hi1.
  destruct (jitter_step e j) as [j1 o] eqn:E. destruct (jitter_run es j1) as [j2 os2] eqn:R. intros [= <- <-].
  destruct (step_sources _ _ _ _ Hi E) as [S1 S2]. apply advances_step in E as [_ (Ef & En & _)]; [|done|done].
  destruct (IH j1 os2 Hi1 Hes R) as [R1 R2].
  assert (Hs : forall p, from_pushed es j1 p -> from_pushed (e :: es) j p).
  { intros p [Hp|[Hp V]]; [|right; rewrite Ef, En in V; by split; [set_solver|]].
    destruct (S1 p Hp) as [|[H V]]; [by left|right]. split; [set_solver|done]. }
  split; [by auto|]. intros p Hp. unfold playout in Hp. apply list_elem_of_omap in Hp as (x & [->|Hx]%elem_of_cons & Ex).
  - left. by apply S2.
  - apply Hs, R2. unfold playout. apply list_elem_of_omap. by exists x.
Qed.

(** Every packet number of [seen] is held or already passed. *)
Definition accounted (seen : Z -> Prop) (j : JitterBuffer) : Prop :=
  forall m, seen m -> (exists q, q ∈ jb_packets j /\ ap_seq q = m) \/ (exists n, jb_next j = Some n /\ m < n).
Definition pushed_seq (es : list jitter_event) (f : AudioFormat) (frame m : Z) : Prop :=
  exists p, JPush p ∈ es /\ packet_validate f frame p = Ok tt /\ ap_seq p = m.
Lemma accounted_step seen e j j' o :
  jitter_inv j -> jitter_step e j = (j', o) -> o <> OPush (Ok DroppedOverflow) -> accounted seen j ->
  accounted (fun m => seen m \/ pushed_seq [e] (jb_format j) (jb_frame j) m) j'.
Proof.
  intros Hi E Ho Ha. destruct e as [p| |s]; cbn [jitter_step] in E.
  - destruct (jitter_push p j) as [j1 r] eqn:P. injection E as <- <-. apply push_cases in P as (_ & En & Hr); [|done].
    unfold accounted. rewrite En.
    assert (Hseen : forall m, seen m \/ pushed_seq [JPush p] (jb_format j) (jb_frame j) m -> seen m \/ (packet_validate (jb_format j) (jb_frame j) p = Ok tt /\ m = ap_seq p)).
    { intros m [?|(q & Hq & V & <-)]; [by left|right]. apply list_elem_of_singleton in Hq as [= ->]. done. }
    intros m Hm%Hseen. clear Hseen. destruct r as [x|x].
    2: { destruct Hr as [-> V]. destruct Hm as [Hm|[V' _]]; [by apply Ha|congruence]. }
    destruct Hr as [V Hc]. inversion Hc as [n Hn Hlt Hp|q NL Hq Hs Hp|NL ND Hlen Hp|NL ND Hlen Hp]; subst x.
    + destruct Hm as [Hm|[_ ->]]; [by apply Ha|right; eauto].
    + destruct Hm as [Hm|[_ ->]]; [by apply Ha|left; eauto].
    + destruct Hm as [Hm|[_ ->]]; [|left; exists p; split; [apply packet_insert_elem; auto|done]].
      destruct (Ha m Hm) as [(q & Hq & Eq)|?]; [left; exists q; split; [apply packet_insert_elem; auto|done]|by right].
    + done.
  - destruct (jitter_pop j) as [j1 r] eqn:P. injection E as <- <-. apply pop_cases in P as (_ & Hr); [|done].
    intros m [Hm|(q & Hq & _)]; [|by apply list_elem_of_singleton in Hq].
    destruct r as [[p|n|a b]|]; destruct (Ha m Hm) as [(q & Hq & Eq)|(n0 & Hn & Hlt)].
    + destruct Hr as (_ & _ & En & Ep). rewrite En, Ep. destruct (decide (ap_seq q = ap_seq p)); [right; eexists; split; [done|lia]|].
      left. exists q. by rewrite list_elem_of_filter.
    + destruct Hr as (_ & [Hpos|[Hpos _]] & En & _); [|congruence]. right. eexists. split; [done|]. rewrite Hn in Hpos. injection Hpos as ->. lia.
    + destruct Hr as (_ & _ & -> & _). left; eauto.
    + destruct Hr as (En & En' & _). right. eexists. split; [done|]. rewrite Hn in En. injection En as ->. lia.
    + destruct Hr as (_ & _ & -> & _). left; eauto.
    + destruct Hr as (En & En' & _ & Hab & _). right. eexists. split; [done|]. rewrite Hn in En. injection En as ->.
      pose proof (ji_bounds _ Hi). lia.
    + destruct Hr as (-> & -> & _). left; eauto.
    + destruct Hr as (-> & -> & _). right; eauto.
  - intros m [Hm|(q & Hq & _)]; [|by apply list_elem_of_singleton in Hq]. unfold jitter_start_at in E.
    destruct (jb_next j) as [n|] eqn:N; cbn [is_some] in E; [injection E as <- <-; by apply Ha|].
    destruct (s =? u64_max); injection E as <- <-; [by apply Ha|]. cbn.
    destruct (Ha m Hm) as [(q & Hq & Eq)|(n & ? & _)]; [|congruence].
    destruct (decide (s <= ap_seq q)); [left; exists q; by rewrite list_elem_of_filter|right; exists s; split; [done|lia]].
Qed.
Lemma accounted_run seen es j j' os :
  jitter_inv j -> Forall event_ok es -> jitter_run es j = (j', os) -> OPush (Ok DroppedOverflow) ∉ os -> accounted seen j ->
  accounted (fun m => seen m \/ pushed_seq es (jb_format j) (jb_frame j) m) j'.
Proof.
  revert seen j os. induction es as [|e es IH]; intros seen j os Hi Hes; cbn [jitter_run].
  { intros [= <- <-] _ Ha m [Hm|(p & Hp & _)]; [by apply Ha|by apply not_elem_of_nil in Hp]. }
  apply Forall_cons in Hes as [He Hes]. pose proof (jitter_step_inv e j Hi He) as Hi1.
  destruct (jitter_step e j) as [j1 o] eqn:E. destruct (jitter_run es j1) as [j2 os2] eqn:R. intros [= <- <-] Hno Ha.
  apply not_elem_of_cons in Hno as [Hne Hno].
  pose proof (accounted_step _ _ _ _ _ Hi E ltac:(congruence) Ha) as Ha1.
  apply advances_step in E as [_ (Ef & En & _)]; [|done|done].
  pose proof (IH _ _ _ Hi1 Hes R Hno Ha1) as H. cbn [fst] in H. rewrite Ef, En in H. intros m Hm. apply H.
  destruct Hm as [Hm|(p & [Ee|Hp]%elem_of_cons & V & Em)]; [by left; left|left; right|right]; exists p; split_and!; try done. set_solver.
Qed.

(** *** The missing positions are counted *)

Lemma missing_app a b : missing (a ++ b) = missing a + missing b.
Proof. unfold missing. induction a as [|x a IH]; cbn; [done|rewrite IH; lia]. Qed.
Lemma gaps_step e j j' o :
  jitter_inv j -> jitter_step e j = (j', o) -> 0 <= jb_gaps j <= u64_max ->
  jb_gaps j' = sat_add64 (jb_gaps j) (missing (option_list (is_played o))) /\ 0 <= missing (option_list (is_played o)).
Proof.
  intros Hi E Hg. assert (H0 : sat_add64 (jb_gaps j) 0 = jb_gaps j) by (unfold sat_add64; lia).
  destruct e as [p| |s]; cbn [jitter_step] in E.
  - destruct (jitter_push p j) as [j1 r] eqn:P. injection E as <- <-. change (missing _) with 0. rewrite H0. split; [|lia].
    unfold jitter_push in P. repeat case_match; simplify_eq; cbn; rewrite ?H0; done.
  - destruct (jitter_pop j) as [j1 r] eqn:P. injection E as <- <-. pose proof (pop_cases _ _ _ Hi P) as (_ & Hr).
    cbn [is_played]. unfold jitter_pop in P.
    repeat case_match; simplify_eq; cbn in *; rewrite ?Z.add_0_r, ?H0; split; try done; try lia.
    all: pose proof (ji_bounds _ Hi); destruct_and?; lia.
  - destruct (jitter_start_at s j) as [j1 r] eqn:P. injection E as <- <-. change (missing _) with 0. rewrite H0. split; [|lia].
    unfold jitter_start_at in P. repeat case_match; simplify_eq; cbn; rewrite ?H0; done.
Qed.
Lemma gaps_run es j j' os :
  jitter_inv j -> Forall event_ok es -> jitter_run es j = (j', os) -> 0 <= jb_gaps j <= u64_max ->
  jb_gaps j' = sat_add64 (jb_gaps j) (missing (playout os)) /\ 0 <= missing (playout os).
Proof.
  revert j os. induction es as [|e es IH]; intros j os Hi Hes; cbn [jitter_run].
  { intros [= <- <-] Hg. cbn. unfold sat_add64. lia. }
  apply Forall_cons in Hes as [He Hes]. pose proof (jitter_step_inv e j Hi He) as Hi1.
  destruct (jitter_step e j) as [j1 o] eqn:E. destruct (jitter_run es j1) as [j2 os2] eqn:R. intros [= <- <-] Hg.
  apply gaps_step in E as [E1 E2]; [|done|done].
  destruct (IH j1 os2 Hi1 Hes R) as [-> ?]; [rewrite E1; unfold sat_add64; lia|].
  replace (playout (o :: os2)) with (option_list (is_played o) ++ playout os2) by (unfold playout; cbn; by destruct (is_played o)).
  rewrite missing_app, E1. unfold sat_add64. lia.
Qed.

(** C35: Whatever arrives, and however playout interleaves with arrivals, the outcomes of [pop] are
    the consecutive positions from where playout started to where it stands, each exactly once:
    the packet with that number, one gap, or inside one discontinuity longer than the buffer.
    Only valid packets that were pushed are played; the buffer holds at most its capacity; the
    number of missing positions is what [gaps] counts, up to saturation; the position never
    exceeds the reserved [u64::MAX], so no increment overflows. *)
Theorem playout_exact f c d j0 es j os :
  jitter_new f c d = Ok j0 -> 0 <= c -> 0 <= d -> Forall event_ok es -> jitter_run es j0 = (j, os) ->
  advances c None (playout os) (jb_next j) /\
  (forall p, PlayPacket p ∈ playout os -> JPush p ∈ es /\ packet_validate f (jb_frame j0) p = Ok tt) /\
  zlen (jb_packets j) <= c <= MAX_JITTER_PACKETS /\
  jb_gaps j = Z.min (missing (playout os)) u64_max /\
  match jb_next j with Some n => 0 <= n <= u64_max | None => True end.
Proof.
  intros Hn Hc Hd Hes R. pose proof (jitter_new_inv _ _ _ _ Hc Hd Hn) as Hi.
  destruct (jitter_new_shape _ _ _ _ Hn) as (Ec & _ & En & Ep & Eg & Ef).
  destruct (jitter_run_ok _ _ _ _ Hi Hes R) as (Hi' & (_ & _ & Ec' & _) & Ha). rewrite Ec, En in Ha.
  split_and!; [done| | | | |].
  - intros p Hp. destruct (proj2 (run_sources _ _ _ _ Hi Hes R) p Hp) as [Hin|?]; [|by rewrite <-Ef].
    rewrite Ep in Hin. by apply not_elem_of_nil in Hin.
  - pose proof (ji_len _ Hi'). congruence.
  - pose proof (ji_bounds _ Hi'). destruct_and?. congruence.
  - destruct (gaps_run _ _ _ _ Hi Hes R) as [-> ?]; rewrite ?Eg; [unfold u64_max; lia|]. done.
  - apply (ji_next _ Hi').
Qed.

(** C36: As long as no packet was dropped for lack of room, audio is declared missing only when it is:
    a gap or a discontinuity covers only numbers of which no valid packet was ever pushed, and is
    declared only once more than [target_delay] valid newer packets arrived.  When [pop] yields
    nothing, no more than [target_delay] packets wait. *)
Theorem gap_exact f c d j0 es j os j' o :
  jitter_new f c d = Ok j0 -> 0 <= c -> 0 <= d -> Forall event_ok es -> jitter_run es j0 = (j, os) ->
  OPush (Ok DroppedOverflow) ∉ os -> jitter_pop j = (j', o) ->
  let pushed := pushed_seq es f (jb_frame j0) in
  let newer n := exists ps, NoDup (ap_seq <$> ps) /\ d < zlen ps /\ Forall (fun p => n < ap_seq p /\ pushed (ap_seq p)) ps in
  match o with
  | Some (PlayPacket p) => pushed (ap_seq p)
  | Some (Gap n) => ~ pushed n /\ newer n
  | Some (Discontinuity a b) => c < b - a /\ (forall n, a <= n < b -> ~ pushed n) /\ pushed b /\ newer (b - 1)
  | None => zlen (jb_packets j) <= d
  end.
Proof.
  intros Hn Hc Hd Hes R Hno P. pose proof (jitter_new_inv _ _ _ _ Hc Hd Hn) as Hi.
  destruct (jitter_new_shape _ _ _ _ Hn) as (Ec & Ed & _ & Ep & _ & Ef).
  destruct (jitter_run_ok _ _ _ _ Hi Hes R) as (Hi' & (_ & _ & Ec' & Ed') & _).
  assert (Ha : accounted (pushed_seq es f (jb_frame j0)) j).
  { intros m Hm. apply (accounted_run (fun _ => False) _ _ _ _ Hi Hes R Hno); [by intros ?|]. right. by rewrite Ef. }
  assert (Hsrc : forall p, p ∈ jb_packets j -> pushed_seq es f (jb_frame j0) (ap_seq p)).
  { intros p Hp. destruct (proj1 (run_sources _ _ _ _ Hi Hes R) p Hp) as [Hin|[? V]].
    - rewrite Ep in Hin. by apply not_elem_of_nil in Hin.
    - exists p. by rewrite Ef in V. }
  assert (Hnew : forall n, (forall q, q ∈ jb_packets j -> n < ap_seq q) -> d < zlen (jb_packets j) ->
    exists ps, NoDup (ap_seq <$> ps) /\ d < zlen ps /\ Forall (fun p => n < ap_seq p /\ pushed_seq es f (jb_frame j0) (ap_seq p)) ps).
  { intros n Hlt Hlen. exists (jb_packets j). split_and!; [|done|apply Forall_forall; auto].
    by apply sorted_seq_nodup, ji_sorted. }
  apply pop_cases in P as (_ & Hr); [|done]. cbv zeta. destruct o as [[p|n|a b]|].
  - destruct Hr as (Hp & _). by apply Hsrc.
  - destruct Hr as (En & _ & _ & Hgt & Ht). split; [|apply Hnew; [done|congruence]].
    intros Hp. destruct (Ha n Hp) as [(q & Hq & Eq)|(m & Em & ?)]; [specialize (Hgt q Hq); lia|]. rewrite En in Em. injection Em. lia.
  - destruct Hr as (En & _ & _ & Hab & Hge & (q & Hq & Eq) & Ht).
    split_and!; [lia| |rewrite <-Eq; by apply Hsrc|apply Hnew; [|congruence]].
    + intros n Hn' Hp. destruct (Ha n Hp) as [(r & Hr & Er)|(m & Em & ?)]; [specialize (Hge r Hr); lia|]. rewrite En in Em. injection Em. lia.
    + intros r Hr. specialize (Hge r Hr). lia.
  - destruct Hr as (_ & _ & ?). congruence.
Qed.

(** ** From the encoder to playout *)

(** The successful packets of a sequence of [encode] calls. *)
Fixpoint encode_all (frames : list (list Sample * Z)) (e : OpusEncoder) : OpusEncoder * list AudioPacket :=
  match frames with
  | [] => (e, [])
  | (pcm, ts) :: frames =>
      let '(e, r) := audio_encode pcm ts e in
      let '(e, ps) := encode_all frames e in
      (e, match r with Ok p => p :: ps | Err _ => ps end)
  end.
(** A packet after its trip in a wire record, whose timestamp has millisecond resolution. *)
Definition wire_copy (p : AudioPacket) : AudioPacket :=
  mkAudioPacket (ap_seq p) (ap_timestamp_us p / 1000 * 1000) (ap_samples p) (ap_data p).

Lemma encode_step pcm ts e e' r :
  audio_encode pcm ts e = (e', r) -> 0 <= oe_next_seq e <= u64_max ->
  oe_format e' = oe_format e /\ oe_frame e' = oe_frame e /\
  match r with
  | Ok p => ap_seq p = oe_next_seq e /\ ap_timestamp_us p = ts /\ oe_next_seq e' = oe_next_seq e + 1 /\ oe_next_seq e + 1 <= u64_max /\
      packet_validate (oe_format e) (oe_frame e) p = Ok tt
  | Err _ => oe_next_seq e' = oe_next_seq e
  end.
Proof.
  unfold audio_encode, checked_add64. intros E Hn. case_match; [by injection E as <- <-|].
  destruct (Z.leb_spec (oe_next_seq e + 1) u64_max); [|by injection E as <- <-].
  destruct (encode_float _ _) as [i [data|x]]; [|by injection E as <- <-].
  cbn in E. destruct (packet_validate _ _ _) as [[]|x] eqn:V; injection E as <- <-; cbn; by repeat split.
Qed.
Lemma encode_all_seqs frames e e' ps :
  encode_all frames e = (e', ps) -> 0 <= oe_next_seq e <= u64_max ->
  StronglySorted seq_lt ps /\
  (forall k p, ps !! k = Some p -> ap_seq p = oe_next_seq e + Z.of_nat k /\ ap_timestamp_us p ∈ (snd <$> frames) /\
     packet_validate (oe_format e) (oe_frame e) p = Ok tt) /\ oe_next_seq e' = oe_next_seq e + zlen ps /\ oe_next_seq e' <= u64_max.
Proof.
  revert e ps. induction frames as [|[pcm ts] frames IH]; intros e ps; cbn [encode_all].
  { intros [= <- <-] Hn. split_and!; [constructor|done|unfold zlen; cbn; lia|lia]. }
  destruct (audio_encode pcm ts e) as [e1 r] eqn:E1. destruct (encode_all frames e1) as [e2 ps2] eqn:E2.
  intros [= <- <-] Hn. destruct (encode_step _ _ _ _ _ E1 Hn) as (Ef & En & Hr). destruct r as [p|x].
  - destruct Hr as (Es & Et & Hnx & Hmx & V). destruct (IH e1 ps2 E2 ltac:(lia)) as (Hs & Hk & Hz & Hm).
    split_and!; [constructor; [done|]| |unfold zlen in *; cbn [length]; lia|done].
    + apply Forall_forall. intros q [k Hq]%list_elem_of_lookup_1. destruct (Hk k q Hq) as [Hq' _]. unfold seq_lt. lia.
    + intros [|k] q Hq; cbn in Hq; [injection Hq as ->; split_and!; [lia|set_solver|done]|].
      destruct (Hk k q Hq) as (Hq' & Ht & Hv). rewrite Ef, En in Hv. split_and!; [lia|set_solver|done].
  - destruct (IH e1 ps2 E2 ltac:(lia)) as (Hs & Hk & Hz & Hm). split_and!; [done| |lia|done].
    intros k q Hq. destruct (Hk k q Hq) as (Hq' & Ht & Hv). rewrite Ef, En in Hv. split_and!; [lia|set_solver|done].
Qed.
Lemma wire_copy_valid f frame p : packet_validate f frame (wire_copy p) = packet_validate f frame p.
Proof. done. Qed.
Lemma wire_copy_trip f frame p :
  packet_validate f frame p = Ok tt -> 0 <= ap_timestamp_us p <= u64_max -> from_wire (to_wire p) f frame = Ok (wire_copy p).
Proof.
  intros V Hts. unfold from_wire, to_wire. cbn [au_capture_ts_ms au_seq au_samples au_data].
  assert (H : ap_timestamp_us p / 1000 * 1000 <= u64_max).
  { pose proof (Z.mul_div_le (ap_timestamp_us p) 1000 ltac:(lia)). lia. }
  apply Z.leb_le in H. rewrite H. change (mkAudioPacket _ _ _ _) with (wire_copy p). by rewrite wire_copy_valid, V.
Qed.
Lemma covers_played_sorted c s os n :
  0 <= c -> covers c s os n -> StronglySorted seq_lt (omap played_packet os) /\ Forall (fun p => s <= ap_seq p) (omap played_packet os).
Proof.
  intros Hc. revert s. induction os as [|o os IH]; intros s; [split; constructor|].
  destruct o as [p|q|a b]; cbn [covers]; intros H.
  - destruct H as [Hp Ho]. destruct (IH _ Ho) as [Hs Hf]. cbn. split; constructor; try done; [|lia|];
      (eapply Forall_impl; [exact Hf|]); unfold seq_lt; cbn; lia.
  - destruct H as [_ Ho]. destruct (IH _ Ho) as [Hs Hf]. cbn. split; [done|]. eapply Forall_impl; [exact Hf|]. cbn. lia.
  - destruct H as (_ & Hb & Ho). destruct (IH _ Ho) as [Hs Hf]. cbn. split; [done|]. eapply Forall_impl; [exact Hf|]. cbn. lia.
Qed.
Lemma sorted_subset_sublist l k :
  StronglySorted seq_lt l -> StronglySorted seq_lt k -> (forall p, p ∈ l -> p ∈ k) -> l `sublist_of` k.
Proof.
  intros Hl Hk. revert l Hl. induction Hk as [|y k Hk IH Hy]; intros l Hl Hsub.
  { destruct l as [|x l]; [constructor|]. specialize (Hsub x ltac:(set_solver)). by apply not_elem_of_nil in Hsub. }
  destruct l as [|x l]; [apply sublist_nil_l|]. rewrite Forall_forall in Hy. unfold seq_lt in Hy.
  pose proof Hl as [Hl' Hx]%StronglySorted_inv. rewrite Forall_forall in Hx. unfold seq_lt in Hx.
  assert (Hxk : x ∈ y :: k) by (apply Hsub; set_solver). apply elem_of_cons in Hxk as [->|Hxk].
  - apply sublist_skip, IH; [done|]. intros p Hp. specialize (Hsub p ltac:(set_solver)). specialize (Hx p Hp).
    apply elem_of_cons in Hsub as [->|?]; [lia|done].
  - apply sublist_cons, IH; [done|]. intros p Hp. specialize (Hsub p Hp). apply elem_of_cons in Hsub as [->|?]; [|done].
    specialize (Hy x Hxk). apply elem_of_cons in Hp as [<-|Hp]; [lia|]. specialize (Hx y Hp). lia.
Qed.

(** C33: Audio is heard in the order it was captured: the packets an encoder made have consecutive
    numbers from 0 and survive the wire record, with timestamps cut to milliseconds; and when
    the jitter buffer is fed with such packets, in any order, with any loss, any duplication and
    any interleaving with playout, what it plays is a subsequence of what was encoded. *)
Theorem audio_in_order inner f e0 frames e ps c d j0 es j os :
  encoder_new inner f = Ok e0 -> encode_all frames e0 = (e, ps) -> Forall (fun x => 0 <= snd x <= u64_max) frames ->
  jitter_new f c d = Ok j0 -> 0 <= c -> 0 <= d ->
  Forall (fun x => match x with
    | JPush q => exists p, p ∈ ps /\ from_wire (to_wire p) f (jb_frame j0) = Ok q
    | JPop => True | JStart s => 0 <= s <= u64_max end) es ->
  jitter_run es j0 = (j, os) ->
  ap_seq <$> ps = seqZ 0 (zlen ps) /\
  Forall (fun p => from_wire (to_wire p) f (jb_frame j0) = Ok (wire_copy p)) ps /\
  omap played_packet (playout os) `sublist_of` (wire_copy <$> ps).
Proof.
  intros He Hps Hts Hn Hc Hd Hes R.
  assert (E : oe_next_seq e0 = 0 /\ oe_format e0 = f /\ oe_frame e0 = jb_frame j0).
  { unfold encoder_new in He. unfold jitter_new in Hn. destruct (frame_samples_for f Ms20); [|done]. cbn in He, Hn.
    destruct inner; [|done]. case_match; [done|]. by injection He as <-; injection Hn as <-. }
  destruct E as (E0 & Ef & Efr). apply encode_all_seqs in Hps as (Hs & Hk & Hz & Hm); [|unfold u64_max; lia].
  assert (Hw : forall p, p ∈ ps -> from_wire (to_wire p) f (jb_frame j0) = Ok (wire_copy p) /\ 0 <= ap_seq p <= u64_max).
  { intros p [k Hp]%list_elem_of_lookup_1. destruct (Hk k p Hp) as (Hq & Ht & V). rewrite Ef, Efr in V. split.
    - apply wire_copy_trip; [done|]. apply list_elem_of_fmap in Ht as (x & -> & Hx). exact (proj1 (Forall_forall _ _) Hts x Hx).
    - apply lookup_lt_Some in Hp. unfold zlen in Hz. lia. }
  assert (Hev : Forall event_ok es).
  { eapply Forall_impl; [exact Hes|]. intros [q| |s0]; cbn; [|done..]. intros (p & Hp & Hq). destruct (Hw p Hp) as [Hw1 Hw2].
    rewrite Hq in Hw1. by injection Hw1 as ->. }
  pose proof (jitter_new_inv _ _ _ _ Hc Hd Hn) as Hi. destruct (jitter_new_shape _ _ _ _ Hn) as (Ec & _ & En & Ep & _).
  destruct (jitter_run_ok _ _ _ _ Hi Hev R) as (_ & _ & Ha). rewrite En, Ec in Ha.
  split_and!.
  - apply list_eq. intros k. rewrite list_lookup_fmap. destruct (ps !! k) as [p|] eqn:P; cbn.
    + destruct (Hk k p P) as [-> _]. apply lookup_lt_Some in P. symmetry. apply lookup_seqZ. unfold zlen. lia.
    + apply lookup_ge_None in P. symmetry. apply lookup_seqZ_ge. unfold zlen. lia.
  - apply Forall_forall. intros p Hp. by apply Hw.
  - apply sorted_subset_sublist.
    + unfold advances in Ha. destruct (jb_next j); [destruct Ha as (s0 & _ & Ha); exact (proj1 (covers_played_sorted _ _ _ _ Hc Ha))|].
      rewrite Ha. constructor.
    + clear -Hs. induction Hs as [|p l Hl IH Hp]; cbn; constructor; [done|]. apply Forall_fmap. exact Hp.
    + intros q (x & Hx & Ex)%list_elem_of_omap. destruct x as [p| |]; [|done..]. injection Ex as ->.
      destruct (proj2 (run_sources _ _ _ _ Hi Hev R) q Hx) as [Hin|[Hin _]]; [rewrite Ep in Hin; by apply not_elem_of_nil in Hin|].
      destruct (proj1 (Forall_forall _ _) Hes _ Hin) as (p & Hp & Hq). destruct (Hw p Hp) as [Hw1 _]. rewrite Hq in Hw1.
      injection Hw1 as ->. by apply list_elem_of_fmap_2.
Qed.

(** A full buffer drops exactly its oldest packet, the arriving one included: it stays full, and
    the one packet missing afterwards is older than all it holds. *)
Theorem overflow_drops_oldest f c d j0 es j os p j' :
  jitter_new f c d = Ok j0 -> 0 <= c -> 0 <= d -> Forall event_ok es -> jitter_run es j0 = (j, os) ->
  jitter_push p j = (j', Ok DroppedOverflow) ->
  zlen (jb_packets j) = c /\ zlen (jb_packets j') = c /\
  exists oldest, oldest :: jb_packets j' ≡ₚ p :: jb_packets j /\ Forall (seq_lt oldest) (jb_packets j').
Proof.
  intros Hn Hc Hd Hes R P. pose proof (jitter_new_inv _ _ _ _ Hc Hd Hn) as Hi.
  destruct (jitter_new_shape _ _ _ _ Hn) as (Ec & _). destruct (jitter_run_ok _ _ _ _ Hi Hes R) as (Hi' & (_ & _ & Ec' & _) & _).
  apply push_cases in P as (_ & _ & _ & Hcase); [|done]. inversion Hcase as [| | |NL ND Hlen Hp]. clear Hcase.
  pose proof (packet_insert_len p (jb_packets j) ND) as Hl. pose proof (packet_insert_sorted p _ (ji_sorted _ Hi')) as Hs.
  pose proof (packet_insert_perm p (jb_packets j) ND) as Hperm.
  destruct (packet_insert p (jb_packets j)) as [|x l]; [unfold zlen in *; cbn in *; lia|]. cbn [tail] in *.
  split_and!; [lia|unfold zlen in *; cbn [length] in *; lia|]. exists x. split; [done|]. by apply StronglySorted_inv in Hs as [_ ?].
Qed.
End Audio.

(** ** A concrete codec and session *)

Module AudioWitness.
Definition one_frame (_ : bytes) : option Z := Some 1.
Definition ms20_at_48k (_ : bytes) (_ : Z) : option Z := Some 960.
Definition toy_encode (n : Z) (pcm : list Z) : Z * result bytes string := (n + 1, Ok (bs "opus")).
Definition mono : AudioFormat := mkFormat 48000 1.
Definition pcm : list Z := replicate 960 0.
Definition enc0 : OpusEncoder (Enc := Z) := mkEncoder 7 mono 960 0.
Definition frames : list (list Z * Z) := [(pcm, 1234); (pcm, 21234); ([], 0); (pcm, 41234); (pcm, 61999)].
Definition heard (n ts : Z) : AudioPacket := mkAudioPacket n ts 960 (bs "opus").
Definition jitter0 : JitterBuffer := mkJitter mono 960 3 1 None [] 0 0 0 0 0.
(** Packet 1 is lost, 3 overtakes 2, 2 is duplicated. *)
Definition session : list jitter_event :=
  [JPush (heard 0 1000); JPop; JPush (heard 3 61000); JPop; JPush (heard 2 41000); JPush (heard 2 41000); JPop; JPop; JPop].
Definition overflowing : list jitter_event := [JPush (heard 4 0); JPush (heard 9 0); JPush (heard 6 0)].

Lemma session_ok : Forall event_ok session.
Proof. repeat constructor; done. Qed.
Lemma overflowing_ok : Forall event_ok overflowing.
Proof. repeat constructor; done. Qed.
Lemma jitter0_new : jitter_new mono 3 1 = Ok jitter0.
Proof. vm_compute. reflexivity. Qed.
Lemma three : 0 <= 3.
Proof. lia. Qed.
Lemma one : 0 <= 1.
Proof. lia. Qed.
Definition ended : JitterBuffer := Eval vm_compute in (jitter_run one_frame ms20_at_48k session jitter0).1.
Definition session_outs : list jitter_output := Eval vm_compute in (jitter_run one_frame ms20_at_48k session jitter0).2.
Lemma session_runs : jitter_run one_frame ms20_at_48k session jitter0 = (ended, session_outs).
Proof. reflexivity. Qed.
Definition halfway : JitterBuffer := Eval vm_compute in (jitter_run one_frame ms20_at_48k (take 6 session) jitter0).1.
Definition half_outs : list jitter_output := Eval vm_compute in (jitter_run one_frame ms20_at_48k (take 6 session) jitter0).2.
Lemma half_runs : jitter_run one_frame ms20_at_48k (take 6 session) jitter0 = (halfway, half_outs).
Proof. reflexivity. Qed.
Definition full : JitterBuffer := Eval vm_compute in (jitter_run one_frame ms20_at_48k overflowing jitter0).1.
Definition full_outs : list jitter_output := Eval vm_compute in (jitter_run one_frame ms20_at_48k overflowing jitter0).2.
Lemma overflow_runs : jitter_run one_frame ms20_at_48k overflowing jitter0 = (full, full_outs).
Proof. reflexivity. Qed.

Lemma playout_exact_witness :
  playout session_outs = [PlayPacket (heard 0 1000); Gap 1; PlayPacket (heard 2 41000); PlayPacket (heard 3 61000)] /\
  advances 3 None (playout session_outs) (Some 4).
Proof.
  split; [reflexivity|].
  exact (proj1 (playout_exact one_frame ms20_at_48k mono 3 1 jitter0 session ended session_outs jitter0_new three one session_ok session_runs)).
Defined.
Lemma no_overflow : OPush (Ok DroppedOverflow) ∉ half_outs.
Proof. unfold half_outs. intros H. repeat (apply elem_of_cons in H as [H|H]; [discriminate|]). by apply not_elem_of_nil in H. Qed.
Lemma gap_exact_witness :
  snd (jitter_pop halfway) = Some (Gap 1) /\ ~ pushed_seq one_frame ms20_at_48k (take 6 session) mono 960 1.
Proof.
  split; [reflexivity|].
  exact (proj1 (gap_exact one_frame ms20_at_48k mono 3 1 jitter0 (take 6 session) halfway half_outs (fst (jitter_pop halfway)) (Some (Gap 1))
    jitter0_new three one (Forall_take _ 6 _ session_ok) half_runs no_overflow eq_refl)).
Defined.
Definition pushed7 : JitterBuffer := Eval vm_compute in fst (jitter_push one_frame ms20_at_48k (heard 7 0) full).
Lemma pushed7_is : jitter_push one_frame ms20_at_48k (heard 7 0) full = (pushed7, Ok DroppedOverflow).
Proof. reflexivity. Qed.
Lemma overflow_drops_oldest_witness :
  jb_packets full = [heard 4 0; heard 6 0; heard 9 0] /\ jb_packets pushed7 = [heard 6 0; heard 7 0; heard 9 0] /\
  exists oldest, oldest :: jb_packets pushed7 ≡ₚ heard 7 0 :: jb_packets full /\ Forall (seq_lt oldest) (jb_packets pushed7).
Proof.
  split; [reflexivity|]. split; [reflexivity|].
  exact (proj2 (proj2 (overflow_drops_oldest one_frame ms20_at_48k mono 3 1 jitter0 overflowing full full_outs (heard 7 0) pushed7
    jitter0_new three one overflowing_ok overflow_runs pushed7_is))).
Defined.
Definition encoded : list AudioPacket := Eval vm_compute in (encode_all one_frame ms20_at_48k toy_encode frames enc0).2.
Definition enc5 : OpusEncoder := mkEncoder 11 mono 960 4.
Lemma enc0_new : encoder_new (Ok 7) mono = Ok enc0.
Proof. vm_compute. reflexivity. Qed.
Lemma frames_encode : encode_all one_frame ms20_at_48k toy_encode frames enc0 = (enc5, encoded).
Proof. vm_compute. reflexivity. Qed.
Lemma frames_ok : Forall (fun x => 0 <= snd x <= u64_max) frames.
Proof. unfold frames. repeat apply Forall_cons_2; try apply Forall_nil_2; cbn; unfold u64_max; lia. Qed.
Lemma session_from_encoder :
  Forall (fun x => match x with
    | JPush q => exists p, p ∈ encoded /\ from_wire one_frame ms20_at_48k (to_wire p) mono (jb_frame jitter0) = Ok q
    | JPop => True | JStart s => 0 <= s <= u64_max end) session.
Proof.
  unfold session. repeat apply Forall_cons_2; try apply Forall_nil_2; try done.
  - exists (heard 0 1234). split; [left|reflexivity].
  - exists (heard 3 61999). split; [do 3 right; left|reflexivity].
  - exists (heard 2 41234). split; [do 2 right; left|reflexivity].
  - exists (heard 2 41234). split; [do 2 right; left|reflexivity].
Qed.
Lemma audio_in_order_witness :
  omap played_packet (playout session_outs) = [heard 0 1000; heard 2 41000; heard 3 61000] /\
  omap played_packet (playout session_outs) `sublist_of` (wire_copy <$> encoded).
Proof.
  split; [reflexivity|].
  exact (proj2 (proj2 (audio_in_order one_frame ms20_at_48k toy_encode (Ok 7) mono enc0 frames enc5 encoded 3 1 jitter0 session ended session_outs
    enc0_new frames_encode frames_ok jitter0_new three one session_from_encoder session_runs))).
Defined.
End AudioWitness.
