(* ===== verification/Identity.v ===== *)
(** * Endpoint identities and the TLS handshake

    Models the identity part of [src/crates/rds-core/src/endpoint.rs] (an endpoint id is an
    ed25519 key, printed in hex and parsed from hex or base32) and
    [src/crates/rds-net/src/backends/noq/tls.rs] (the name a client dials, the raw public keys
    both sides present, their verifiers and the identity read off a connection).

    The encodings of [data_encoding], the key syntax of [rustls] and [ed25519_dalek], and the
    step of [rustls] that takes a key out of its syntax to check a handshake signature are
    classes with their documented laws. *)

From S2P Require Import Prelude Paths Net Crypto Http Service Journal Lookup.

Inductive KeyParseError : Type := InvalidKeyData | InvalidLength | FailedToDecodeHex | FailedToDecodeBase32.

(** [hex_write]: two lower case digits a byte. *)
Definition hex_write (b : bytes) : bytes :=
  concat ((fun c => [digit_char (Z.shiftr (byte_val c) 4); digit_char (Z.land (byte_val c) 15)]) <$> b).
Definition hex_val (c : ascii) : option Z :=
  if between 48 57 c then Some (byte_val c - 48)
  else if between 97 102 c then Some (byte_val c - 97 + 10)
  else if between 65 70 c then Some (byte_val c - 65 + 10)
  else None.
Definition nibble_byte (z : Z) : ascii := ascii_of_N (Z.to_N z).
Fixpoint hex_pairs (s : bytes) : result bytes KeyParseError :=
  match s with
  | hi :: lo :: s =>
      match hex_val hi, hex_val lo with
      | Some hi, Some lo => let? rest := hex_pairs s in Ok (nibble_byte (Z.lor (Z.shiftl hi 4) lo) :: rest)
      | _, _ => Err FailedToDecodeHex
      end
  | _ => Ok []
  end.

Section Keys.
Context `{HEd : Ed25519, HB32 : Base32}.
(** [decode_key_string]. *)
Definition decode_key_string (s : bytes) : result bytes KeyParseError :=
  if zlen s =? 64 then hex_pairs s
  else match base32_decode (ascii_upper <$> s) with
       | None => Err FailedToDecodeBase32
       | Some b => if zlen b =? 32 then Ok b else Err InvalidLength
       end.
(** [EndpointId::from_bytes], [try_from], [from_str] and [Display]. *)
Definition id_from_bytes (b : bytes) : result bytes KeyParseError :=
  match vk_from_bytes b with Err _ => Err InvalidKeyData | Ok _ => Ok b end.
Definition id_try_from (b : bytes) : result bytes KeyParseError :=
  if zlen b =? 32 then id_from_bytes b else Err InvalidLength.
Definition id_from_str (s : bytes) : result bytes KeyParseError :=
  let? b := decode_key_string s in id_from_bytes b.
Definition id_display (id : bytes) : bytes := hex_write id.
(** An [EndpointId] holds the 32 bytes of a valid key. *)
Definition endpoint_id (id : bytes) : Prop := length id = 32%nat /\ vk_from_bytes id = Ok tt.
End Keys.

(** ** TLS *)

(** [data_encoding::BASE32_DNSSEC]: digits and lower case letters, no padding. *)
Class Base32Dnssec : Type := { dnssec_encode : bytes -> bytes; dnssec_decode : bytes -> option bytes }.
Definition dnssec_char (c : ascii) : bool := between 48 57 c || between 97 118 c.
Class Base32DnssecLaws `{Base32Dnssec} : Prop := {
  dnssec_roundtrip : forall b, dnssec_decode (dnssec_encode b) = Some b;
  dnssec_alphabet : forall b, forallb dnssec_char (dnssec_encode b) = true
}.

Inductive SignatureScheme : Type := SchemeEd25519 | SchemeOther (code : Z).
#[export] Instance SignatureScheme_eq_dec : EqDecision SignatureScheme.
Proof. solve_decision. Defined.
(** [rustls::sign::public_key_to_spki] for the Ed25519 algorithm,
    [VerifyingKey::from_public_key_der], and [verify_tls13_signature_with_raw_key] for a list
    of supported algorithms. *)
Class RawKeys : Type := {
  public_key_to_spki : bytes -> bytes;
  from_public_key_der : bytes -> option bytes;
  verify_with_raw_key : bytes -> bytes -> SignatureScheme * bytes ->
    list (SignatureScheme * (bytes -> bytes -> bytes -> bool)) -> bool
}.
(** A key is found again in its syntax; reading a valid key from a certificate yields 32 valid
    bytes; a raw-key signature verifies exactly if a supported algorithm of the announced scheme
    accepts it for the key in the certificate. *)
Class RawKeysLaws `{Ed25519, RawKeys} : Prop := {
  der_spki : forall key, endpoint_id key -> from_public_key_der (public_key_to_spki key) = Some key;
  der_valid : forall cert key, from_public_key_der cert = Some key -> endpoint_id key;
  raw_key_spki : forall msg key scheme sig algs, endpoint_id key ->
    (verify_with_raw_key msg (public_key_to_spki key) (scheme, sig) algs = true
     <-> exists verify, (scheme, verify) ∈ algs /\ verify key msg sig = true);
  raw_key_der : forall msg cert key scheme sig algs, from_public_key_der cert = Some key ->
    verify_with_raw_key msg cert (scheme, sig) algs = true ->
    exists verify, (scheme, verify) ∈ algs /\ verify key msg sig = true
}.

Inductive ServerName : Type := DnsName (name : bytes) | IpName (ip : IpAddr).
Inductive TlsError : Type := UnsupportedNameType | NotValidForName | UnknownIssuer | Tls12NotOffered | BadSignature.

Section Tls.
Context `{HEd : Ed25519, HDn : Base32Dnssec, HRk : RawKeys}.

(** [name::encode], [name::decode]. *)
Definition name_encode (id : bytes) : bytes := dnssec_encode id ++ bs ".iroh.invalid".
Definition name_decode (name : bytes) : option bytes :=
  match split_char "."%char name with
  | [label; iroh; invalid] =>
      if bool_decide (iroh = bs "iroh") && bool_decide (invalid = bs "invalid") then
        match dnssec_decode label with
        | None => None
        | Some b => if zlen b =? 32 then match id_from_bytes b with Ok id => Some id | Err _ => None end else None
        end
      else None
  | _ => None
  end.

(** [Ed25519Dalek::verify_signature] and the algorithms both verifiers support. *)
Definition verify_signature (public_key message signature : bytes) : bool :=
  if negb (zlen public_key =? 32) then false else
  match vk_from_bytes public_key with
  | Err _ => false
  | Ok _ => if negb (zlen signature =? 64) then false else verify_strict public_key message signature
  end.
Definition SUPPORTED_SIG_ALGS : list (SignatureScheme * (bytes -> bytes -> bytes -> bool)) := [(SchemeEd25519, verify_signature)].

(** [ServerCertificateVerifier] and [ClientCertificateVerifier]. *)
Definition verify_server_cert (end_entity : bytes) (intermediates : list bytes) (server_name : ServerName) : result unit TlsError :=
  match server_name with
  | IpName _ => Err UnsupportedNameType
  | DnsName name =>
      match name_decode name with
      | None => Err NotValidForName
      | Some remote_peer_id =>
          if negb (bool_decide (intermediates = [])) then Err UnknownIssuer
          else if negb (bool_decide (public_key_to_spki remote_peer_id = end_entity)) then Err UnknownIssuer
          else Ok tt
      end
  end.
Definition verify_client_cert (end_entity : bytes) (intermediates : list bytes) : result unit TlsError :=
  if negb (bool_decide (intermediates = [])) then Err UnknownIssuer else Ok tt.
Definition verify_tls12_signature (message cert : bytes) (dss : SignatureScheme * bytes) : result unit TlsError := Err Tls12NotOffered.
Definition verify_tls13_signature (message cert : bytes) (dss : SignatureScheme * bytes) : result unit TlsError :=
  if verify_with_raw_key message cert dss SUPPORTED_SIG_ALGS then Ok tt else Err BadSignature.

(** [SecretKeySigner]: what this endpoint presents and how it signs. *)
Definition spki_public_key (secret : bytes) : bytes := public_key_to_spki (verifying_key secret).
Definition choose_scheme (secret : bytes) (offered : list SignatureScheme) : option bytes :=
  if bool_decide (SchemeEd25519 ∈ offered) then Some secret else None.
Definition signer_sign (secret message : bytes) : SignatureScheme * bytes := (SchemeEd25519, ed_sign secret message).

(** [peer_endpoint_id] on the certificates of a completed connection. *)
Definition peer_endpoint_id (certs : option (list bytes)) : option bytes :=
  match certs with
  | Some [cert] => from_public_key_der cert
  | _ => None
  end.

(** The parts of a TLS 1.3 handshake [rustls] requires of a verifier: it accepts the chain and
    the signature over the transcript under its first certificate. *)
Definition client_accepts (server_name : ServerName) (certs : list bytes) (transcript : bytes) (dss : SignatureScheme * bytes) : bool :=
  match certs with
  | [] => false
  | cert :: chain =>
      match verify_server_cert cert chain server_name, verify_tls13_signature transcript cert dss with
      | Ok _, Ok _ => true
      | _, _ => false
      end
  end.
Definition server_accepts (certs : list bytes) (transcript : bytes) (dss : SignatureScheme * bytes) : bool :=
  match certs with
  | [] => false
  | cert :: chain =>
      match verify_client_cert cert chain, verify_tls13_signature transcript cert dss with
      | Ok _, Ok _ => true
      | _, _ => false
      end
  end.
End Tls.

(** ** Key strings *)

Lemma nibble_byte_val c : nibble_byte (byte_val c) = c.
Proof. unfold nibble_byte, byte_val. by rewrite N2Z.id, ascii_N_embedding. Qed.
Lemma hex_val_digit (c : ascii) : hex_val c = digit_value c.
Proof. destruct c as [[] [] [] [] [] [] [] []]; reflexivity. Qed.
Lemma nibbles (c : ascii) :
  0 <= Z.shiftr (byte_val c) 4 < 16 /\ 0 <= Z.land (byte_val c) 15 < 16 /\
  Z.lor (Z.shiftl (Z.shiftr (byte_val c) 4) 4) (Z.land (byte_val c) 15) = byte_val c.
Proof. destruct c as [[] [] [] [] [] [] [] []]; vm_compute; repeat split; congruence. Qed.
Lemma hex_write_cons c b :
  hex_write (c :: b) = digit_char (Z.shiftr (byte_val c) 4) :: digit_char (Z.land (byte_val c) 15) :: hex_write b.
Proof. done. Qed.
Lemma hex_pairs_write b : hex_pairs (hex_write b) = Ok b.
Proof.
  induction b as [|c b IH]; [done|]. rewrite hex_write_cons. cbn [hex_pairs]. destruct (nibbles c) as (H1 & H2 & H3).
  rewrite !hex_val_digit, !digit_char_value by done. rewrite IH, H3. cbn. by rewrite nibble_byte_val.
Qed.
Lemma hex_write_length b : length (hex_write b) = (2 * length b)%nat.
Proof. induction b as [|c b IH]; [done|]. rewrite hex_write_cons. cbn [length]. lia. Qed.
(** A digit in either case is the lower case digit of its value. *)
Lemma hex_val_lower c d : hex_val c = Some d -> 0 <= d < 16 /\ ascii_lower c = digit_char d.
Proof. destruct c as [[] [] [] [] [] [] [] []]; vm_compute; try done; intros [= <-]; repeat split; congruence. Qed.
Lemma nibble_byte_split hi lo : 0 <= hi < 16 -> 0 <= lo < 16 ->
  let c := nibble_byte (Z.lor (Z.shiftl hi 4) lo) in Z.shiftr (byte_val c) 4 = hi /\ Z.land (byte_val c) 15 = lo.
Proof.
  intros Hh Hl.
  assert (F : forallb (fun x => forallb (fun y => let c := nibble_byte (Z.lor (Z.shiftl x 4) y) in
    (Z.shiftr (byte_val c) 4 =? x) && (Z.land (byte_val c) 15 =? y)) (seqZ 0 16)) (seqZ 0 16) = true) by (vm_compute; reflexivity).
  rewrite forallb_forall in F. specialize (F hi). rewrite <-list_elem_of_In, elem_of_seqZ in F.
  specialize (F ltac:(lia)). rewrite forallb_forall in F. specialize (F lo).
  rewrite <-list_elem_of_In, elem_of_seqZ in F. specialize (F ltac:(lia)). cbv zeta in *.
  apply andb_true_iff in F as [F1 F2]. by apply Z.eqb_eq in F1, F2.
Qed.
Lemma hex_pairs_exact s b : Nat.Even (length s) -> hex_pairs s = Ok b -> ascii_lower <$> s = hex_write b.
Proof.
  revert s. induction b as [|c b IH]; intros s Hev H.
  - destruct s as [|hi [|lo s]]; [done|destruct Hev as [k Hk]; cbn in Hk; lia|]. cbn in H.
    destruct (hex_val hi), (hex_val lo); try done. by destruct (hex_pairs s).
  - destruct s as [|hi [|lo s]]; [done|done|]. cbn [hex_pairs] in H.
    destruct (hex_val hi) as [h|] eqn:E1; [|done]. destruct (hex_val lo) as [l|] eqn:E2; [|done].
    destruct (hex_pairs s) as [r|] eqn:E3; [|done]. injection H as <- <-.
    apply hex_val_lower in E1 as [B1 L1], E2 as [B2 L2]. destruct (nibble_byte_split h l B1 B2) as [N1 N2].
    rewrite hex_write_cons, N1, N2, <-L1, <-L2. cbn [fmap list_fmap]. f_equal. f_equal. apply IH; [|done].
    destruct Hev as [k Hk]. exists (k - 1)%nat. cbn [length] in Hk. lia.
Qed.

Section KeyStrings.
Context `{HEd : Ed25519, HB32 : Base32, HL32 : !Base32Laws}.

(** An endpoint id survives its printed form, in upper case too, and the base32 form of its
    bytes in either case; and a hex string parses to an id only if it is, up to the case of its
    letters, what this id prints as: no two ids share a string. *)
Theorem key_string_roundtrip id :
  endpoint_id id ->
  id_from_str (id_display id) = Ok id /\
  id_from_str (base32_encode id) = Ok id /\ id_from_str (ascii_lower <$> base32_encode id) = Ok id /\
  forall s id', id_from_str s = Ok id' -> length s = 64%nat -> ascii_lower <$> s = id_display id' /\ (s = id_display id -> id' = id).
Proof.
  intros [Hlen Hvk]. unfold id_from_str, decode_key_string, id_display.
  assert (Hid : id_from_bytes id = Ok id) by (unfold id_from_bytes; by rewrite Hvk).
  assert (H64 : (zlen (hex_write id) =? 64) = true).
  { unfold zlen. rewrite hex_write_length, Hlen. done. }
  assert (Hup : ascii_upper <$> base32_encode id = base32_encode id /\ ascii_upper <$> (ascii_lower <$> base32_encode id) = base32_encode id).
  { pose proof (base32_alphabet id) as F. induction (base32_encode id) as [|c l IH]; [done|]. cbn [forallb] in F.
    apply andb_true_iff in F as [Fc Fl]. destruct (IH Fl) as [I1 I2]. rewrite !fmap_cons, I1, I2, ascii_lower_upper by done.
    split; [|done]. f_equal. revert Fc. clear. destruct c as [[] [] [] [] [] [] [] []]; vm_compute; done. }
  assert (Hn64 : (zlen (base32_encode id) =? 64) = false) by (unfold zlen; by rewrite base32_length).
  assert (H32 : (zlen id =? 32) = true) by (unfold zlen; by rewrite Hlen).
  split_and!.
  - by rewrite H64, hex_pairs_write.
  - by rewrite Hn64, (proj1 Hup), base32_roundtrip, H32.
  - replace (zlen (ascii_lower <$> base32_encode id) =? 64) with false by (unfold zlen; by rewrite length_fmap, base32_length).
    by rewrite (proj2 Hup), base32_roundtrip, H32.
  - intros s id' H Hs. replace (zlen s =? 64) with true in H by (unfold zlen; by rewrite Hs).
    destruct (hex_pairs s) as [b|] eqn:P; [|done]. cbn in H. unfold id_from_bytes in H. destruct (vk_from_bytes b); [|done].
    injection H as <-. split; [apply hex_pairs_exact; [by exists 32%nat|done]|]. intros ->. rewrite hex_pairs_write in P. congruence.
Qed.
End KeyStrings.

Section Handshake.
Context `{HEd : Ed25519, HEL : !Ed25519Laws, HDn : Base32Dnssec, HDL : !Base32DnssecLaws, HRk : RawKeys, HRL : !RawKeysLaws}.

Lemma dnssec_no_dot b : "."%char ∉ dnssec_encode b.
Proof.
  pose proof (dnssec_alphabet b) as F. induction (dnssec_encode b) as [|c l IH]; [apply not_elem_of_nil|]. cbn [forallb] in F.
  apply andb_true_iff in F as [Fc Fl]. apply not_elem_of_cons. split; [|auto]. intros <-. by vm_compute in Fc.
Qed.
Lemma name_decode_encode id : endpoint_id id -> name_decode (name_encode id) = Some id.
Proof.
  intros [Hlen Hvk]. unfold name_decode, name_encode.
  change (bs ".iroh.invalid") with ("."%char :: bs "iroh.invalid"). rewrite split_char_app by apply dnssec_no_dot.
  change (split_char "." (bs "iroh.invalid")) with [bs "iroh"; bs "invalid"]. cbv beta iota. rewrite !bool_decide_eq_true_2 by done.
  cbn [andb]. rewrite dnssec_roundtrip. replace (zlen id =? 32) with true by (unfold zlen; by rewrite Hlen).
  unfold id_from_bytes. by rewrite Hvk.
Qed.
Lemma name_decode_valid name id : name_decode name = Some id -> endpoint_id id.
Proof.
  unfold name_decode. destruct (split_char _ _) as [|l [|i [|n [|]]]]; try done. case_match; [|done].
  destruct (dnssec_decode l) as [b|]; [|done]. destruct (Z.eqb_spec (zlen b) 32) as [Hz|]; [|done].
  unfold id_from_bytes. destruct (vk_from_bytes b) as [[]|] eqn:V; [|done]. intros [= <-]. split; [unfold zlen in Hz; lia|done].
Qed.
Lemma verify_signature_strict key msg sig : verify_signature key msg sig = true -> verify_strict key msg sig = true.
Proof. unfold verify_signature. repeat case_match; done. Qed.
Lemma signature_bound cert key transcript dss :
  from_public_key_der cert = Some key -> verify_tls13_signature transcript cert dss = Ok tt ->
  dss.1 = SchemeEd25519 /\ verify_strict key transcript dss.2 = true.
Proof.
  unfold verify_tls13_signature. destruct dss as [scheme sig]. intros Hd H. case_match eqn:E; [|done].
  apply (raw_key_der _ _ key) in E as (verify & Hin & Hv); [|done].
  apply list_elem_of_singleton in Hin as [= -> ->]. split; [done|]. by apply verify_signature_strict.
Qed.


(** Two honest endpoints meet: the key an endpoint presents and its signature are accepted by a
    client that dials its id and by a server, if Ed25519 is among the offered schemes, and the
    connection reports its id. *)
Theorem honest_handshake secret offered transcript :
  length (verifying_key secret) = 32%nat -> SchemeEd25519 ∈ offered ->
  exists signer, choose_scheme secret offered = Some signer /\
  let id := verifying_key secret in
  let certs := [spki_public_key secret] in
  let dss := signer_sign signer transcript in
  client_accepts (DnsName (name_encode id)) certs transcript dss = true /\
  server_accepts certs transcript dss = true /\ peer_endpoint_id (Some certs) = Some id.
Proof.
  intros Hlen Hoff. exists secret. unfold choose_scheme. rewrite bool_decide_eq_true_2 by done. split; [done|]. cbv zeta.
  assert (Hid : endpoint_id (verifying_key secret)) by (split; [done|apply vk_of_signing]).
  assert (Hsig : verify_tls13_signature transcript (spki_public_key secret) (signer_sign secret transcript) = Ok tt).
  { unfold verify_tls13_signature, spki_public_key, signer_sign.
    rewrite (proj2 (raw_key_spki transcript _ _ _ _ Hid)); [done|]. exists verify_signature. split; [left|].
    unfold verify_signature, zlen. rewrite Hlen, vk_of_signing, ed_sign_length. cbn. apply ed_sign_verifies. }
  unfold client_accepts, server_accepts, verify_client_cert, verify_server_cert, peer_endpoint_id.
  rewrite Hsig, name_decode_encode, !bool_decide_eq_true_2 by done. cbn. split_and!; try done. by apply der_spki.
Qed.
End Handshake.

(** ** Concrete libraries *)

Module IdentityWitness.
Import ToyBase32.
(** The DNSSEC alphabet is the standard one with its 32 letters renamed. *)
Definition to_dnssec (c : ascii) : ascii :=
  let v := if between 65 90 c then byte_val c - 65 else byte_val c - 24 in
  ascii_of_N (Z.to_N (if v <? 10 then 48 + v else 87 + v)).
Definition from_dnssec (c : ascii) : ascii :=
  let v := if between 48 57 c then byte_val c - 48 else byte_val c - 87 in
  ascii_of_N (Z.to_N (if v <? 26 then 65 + v else 24 + v)).
Lemma to_dnssec_ok c : base32_char c = true -> dnssec_char (to_dnssec c) = true /\ from_dnssec (to_dnssec c) = c.
Proof. destruct c as [[] [] [] [] [] [] [] []]; vm_compute; done. Qed.
Definition dnssec : Base32Dnssec := {|
  dnssec_encode b := to_dnssec <$> encode_bits (b ≫= byte_bits);
  dnssec_decode s := Some (decode_bits ((from_dnssec <$> s) ≫= letter_bits))
|}.
Lemma dnssec_laws : @Base32DnssecLaws dnssec.
Proof.
  assert (H : forall b, forallb dnssec_char (to_dnssec <$> encode_bits (b ≫= byte_bits)) = true /\
    from_dnssec <$> (to_dnssec <$> encode_bits (b ≫= byte_bits)) = encode_bits (b ≫= byte_bits)).
  { intros b. pose proof (encode_bits_chars (b ≫= byte_bits)) as F. induction (encode_bits _) as [|c l IH]; [done|].
    cbn [forallb] in F. apply andb_true_iff in F as [Fc Fl]. destruct (to_dnssec_ok c Fc) as [T1 T2]. destruct (IH Fl) as [I1 I2].
    rewrite !fmap_cons. cbn [forallb]. by rewrite T1, I1, T2, I2. }
  split; cbn; intros b; [|apply H]. rewrite (proj2 (H b)). apply (base32_roundtrip (Base32Laws := base32_laws)).
Qed.
Definition raw_keys : RawKeys := {|
  public_key_to_spki k := bs "spki" ++ k;
  from_public_key_der c := if bool_decide (take 4 c = bs "spki") && (zlen (drop 4 c) =? 32) then Some (drop 4 c) else None;
  verify_with_raw_key m c dss algs :=
    bool_decide (take 4 c = bs "spki") && existsb (fun a => bool_decide (a.1 = dss.1) && a.2 (drop 4 c) m dss.2) algs
|}.
Lemma raw_keys_laws : @RawKeysLaws toy_ed25519 raw_keys.
Proof.
  assert (Hex : forall (m k : bytes) scheme sig (algs : list (SignatureScheme * (bytes -> bytes -> bytes -> bool))),
    existsb (fun a => bool_decide (a.1 = scheme) && a.2 k m sig) algs = true <-> exists verify, (scheme, verify) ∈ algs /\ verify k m sig = true).
  { intros. rewrite existsb_exists. split.
    - intros ([s v] & Hin & [Hs Hv]%andb_true_iff). apply bool_decide_eq_true in Hs as <-. exists v. by rewrite list_elem_of_In.
    - intros (v & Hin & Hv). exists (scheme, v). rewrite <-list_elem_of_In. split; [done|]. cbn. by rewrite bool_decide_eq_true_2. }
  split; cbn [public_key_to_spki from_public_key_der verify_with_raw_key raw_keys].
  - intros key [L _]. change (drop 4 (bs "spki" ++ key)) with key. change (take 4 (bs "spki" ++ key)) with (bs "spki").
    rewrite bool_decide_eq_true_2 by done. unfold zlen. by rewrite L.
  - intros cert key. destruct (bool_decide _); [|done]. destruct (Z.eqb_spec (zlen (drop 4 cert)) 32) as [Hz|]; [|done].
    intros [= <-]. split; [unfold zlen in Hz; lia|done].
  - intros msg key scheme sig algs _. rewrite <-(Hex msg key scheme sig algs). cbn. by rewrite bool_decide_eq_true_2.
  - intros msg cert key scheme sig algs. destruct (bool_decide _); [|done]. destruct (_ =? 32); [|done]. intros [= <-]. apply Hex.
Qed.
#[local] Instance w_ed : Ed25519 := toy_ed25519.
#[local] Instance w_ed_laws : Ed25519Laws := toy_ed25519_laws.
#[local] Instance w_base32 : Base32 := base32.
#[local] Instance w_base32_laws : Base32Laws := base32_laws.
#[local] Instance w_dnssec : Base32Dnssec := dnssec.
#[local] Instance w_dnssec_laws : Base32DnssecLaws := dnssec_laws.
#[local] Instance w_raw : RawKeys := raw_keys.
#[local] Instance w_raw_laws : RawKeysLaws := raw_keys_laws.
Definition secret : bytes := bs "0123456789abcdefghijklmnopqrstuv".
Lemma secret_id : endpoint_id secret.
Proof. split; reflexivity. Qed.
Definition transcript : bytes := bs "client hello, server hello".

Lemma key_string_roundtrip_witness :
  id_from_str (bs "303132333435363738396162636465666768696A6B6C6D6E6F70717273747576") = Ok secret /\ id_from_str (id_display secret) = Ok secret.
Proof. split; [vm_compute; reflexivity|]. exact (proj1 (key_string_roundtrip secret secret_id)). Defined.
Lemma honest_handshake_witness :
  exists signer, choose_scheme secret [SchemeOther 4; SchemeEd25519] = Some signer.
Proof.
  destruct (honest_handshake (HEd := w_ed) secret [SchemeOther 4; SchemeEd25519] transcript (proj1 secret_id) ltac:(right; left)) as (signer & H & _).
  exists signer. exact H.
Defined.
End IdentityWitness.
