(* ===== verification/LocalSessions.v ===== *)
(** * Sessions of the local manager

    Models [src/crates/rds-client/src/local/state.rs] and the steps of
    [src/crates/rds-client/src/local/connect.rs] and [local/mod.rs] that use it: one manager
    holds the sessions of all local callers, a caller that connects reserves its peer before it
    dials, others that want the same peer wait for that dial, and whatever a caller does not
    commit is rolled back when its reservation is dropped.

    Every access locks the state, so that a run is a sequence of locked accesses of any number
    of tasks in any order.  A connection and a cancellation token are numbers; which
    connections are closed, which tokens are cancelled and which [ready] channels hold [true]
    is part of the world, since entries, reservations and waiters share them.  Session ids are
    random 128-bit numbers, and a run draws none twice.  The sampler and the transfer semaphore
    of an entry are left out, and a mutex is never poisoned. *)

From S2P Require Import Prelude.

Inductive ErrorCode : Type :=
| LVersion | LInvalidRequest | LCapacity | LBusy | LCredentialConflict | LNotFound | LNoSelection | LResolve | LConnect
| LRemote | LTimeout | LStopped | LInternal | LTransferBusy | LTransfer.
Definition MAX_SESSIONS : Z := 32.
Record LocalEntry : Type := mkEntry {
  le_peer : bytes; le_credential : option bytes; le_renewing : bool; le_token : Z; le_conn : option Z
}.
Record LocalState : Type := mkLocal {
  ls_generation : Z; ls_selected : option Z; ls_entries : list (Z * LocalEntry); ls_stopped : bool
}.
(** A [Reservation], with where its task stands: it may commit once the reply is to be sent.
    One of a new session holds the sender of its [ready] channel. *)
Record Resv : Type := mkResv { rv_id : Z; rv_token : Z; rv_new : bool; rv_reply : bool; rv_committed : bool }.
Record World : Type := mkWorld {
  w_st : LocalState; w_closed : gset Z; w_cancelled : gset Z; w_ready : gset Z; w_res : gmap Z Resv;
  w_next : Z; w_drawn : gset Z; w_opened : gset Z
}.
Definition local_new : World := mkWorld (mkLocal 0 None [] false) ∅ ∅ ∅ ∅ 0 ∅ ∅.

Definition set_state (f : LocalState -> LocalState) (w : World) : World :=
  mkWorld (f (w_st w)) (w_closed w) (w_cancelled w) (w_ready w) (w_res w) (w_next w) (w_drawn w) (w_opened w).
Definition set_res (f : gmap Z Resv -> gmap Z Resv) (w : World) : World :=
  mkWorld (w_st w) (w_closed w) (w_cancelled w) (w_ready w) (f (w_res w)) (w_next w) (w_drawn w) (w_opened w).
Definition conn_close (c : option Z) (w : World) : World :=
  mkWorld (w_st w) (match c with Some c => {[c]} ∪ w_closed w | None => w_closed w end) (w_cancelled w) (w_ready w) (w_res w)
    (w_next w) (w_drawn w) (w_opened w).
(** [Entry::drop]. *)
Definition entry_drop (e : LocalEntry) (w : World) : World :=
  let w := conn_close (le_conn e) w in
  mkWorld (w_st w) (w_closed w) ({[le_token e]} ∪ w_cancelled w) (w_ready w) (w_res w) (w_next w) (w_drawn w) (w_opened w).

Definition with_entries (es : list (Z * LocalEntry)) (s : LocalState) : LocalState :=
  mkLocal (ls_generation s) (ls_selected s) es (ls_stopped s).
Definition select (id : option Z) (s : LocalState) : LocalState := mkLocal (ls_generation s) id (ls_entries s) (ls_stopped s).
(** [State::changed]. *)
Definition changed (s : LocalState) : LocalState :=
  mkLocal (sat_add64 (ls_generation s) 1) (ls_selected s) (ls_entries s) (ls_stopped s).
Definition entry (id : Z) (s : LocalState) : option LocalEntry := snd <$> find (fun x => x.1 =? id) (ls_entries s).
Fixpoint entry_insert (id : Z) (e : LocalEntry) (es : list (Z * LocalEntry)) : list (Z * LocalEntry) :=
  match es with
  | [] => [(id, e)]
  | x :: es' => if id <? x.1 then (id, e) :: es else x :: entry_insert id e es'
  end.
Definition entry_update (id : Z) (f : LocalEntry -> LocalEntry) (es : list (Z * LocalEntry)) : list (Z * LocalEntry) :=
  (fun x => if x.1 =? id then (x.1, f x.2) else x) <$> es.
Definition is_ready (w : World) (e : LocalEntry) : bool := bool_decide (le_token e ∈ w_ready w).
Definition conn_closed (w : World) (e : LocalEntry) : bool := is_some_and (le_conn e) (fun c => bool_decide (c ∈ w_closed w)).

(** [State::prune]; the entries it drops run their destructor. *)
Definition prune (w : World) : World :=
  let es := ls_entries (w_st w) in
  let kept := filter (fun x => conn_closed w x.2 = false) es in
  let gone := filter (fun x => conn_closed w x.2 = true) es in
  if zlen kept =? zlen es then w else
  let s := with_entries kept (w_st w) in
  let s := if is_some_and (ls_selected s) (fun id => negb (is_some (entry id s))) then select None s else s in
  set_state (fun _ => changed s) (foldr entry_drop w gone.*2).
(** [State::remove]. *)
Definition remove_session (id : Z) (w : World) : World * bool :=
  match entry id (w_st w) with
  | None => (w, false)
  | Some e =>
      let w := entry_drop e (set_state (fun s => with_entries (filter (fun x => x.1 <> id) (ls_entries s)) s) w) in
      let w := set_state (fun s => if bool_decide (ls_selected s = Some id) then select None s else s) w in
      (set_state changed w, true)
  end.
(** [State::connection]. *)
Definition session_connection (id : option Z) (w : World) : result (Z * Z) ErrorCode :=
  match (match id with Some id => Some id | None => ls_selected (w_st w) end) with
  | None => Err LNoSelection
  | Some id =>
      match entry id (w_st w) with
      | None => Err LNotFound
      | Some e => if negb (is_ready w e) then Err LBusy else match le_conn e with None => Err LBusy | Some c => Ok (id, c) end
      end
  end.
(** [State::snapshot]: ids, peers and whether they are connected. *)
Definition local_snapshot (w : World) : option Z * list (Z * bytes * bool) :=
  (ls_selected (w_st w), (fun x => (x.1, le_peer x.2, is_some (le_conn x.2) && is_ready w x.2)) <$> ls_entries (w_st w)).

(** [lock]: refused once the manager stopped; the state is pruned. *)
Definition state_lock (w : World) : World * result unit ErrorCode :=
  if ls_stopped (w_st w) then (w, Err LStopped) else (prune w, Ok tt).
Definition locked {A} (w : World) (k : World -> World * result A ErrorCode) : World * result A ErrorCode :=
  match state_lock w with (w, Err e) => (w, Err e) | (w, Ok _) => k w end.

Inductive Reserved : Type := Existing (id : Z) | Pending (id token : Z) | New (r : Z).
(** [existing_in], [existing], [reserve]; [drawn] is the id that [rand] yields. *)
Definition existing_in (peer : bytes) (credential : option bytes) (w : World) : result (option Reserved) ErrorCode :=
  match find (fun x => bool_decide (le_peer x.2 = peer)) (ls_entries (w_st w)) with
  | None => Ok None
  | Some (id, e) =>
      if le_renewing e then Err LBusy
      else if negb (bool_decide (le_credential e = credential)) then Err LCredentialConflict
      else Ok (Some (if is_some (le_conn e) && is_ready w e then Existing id else Pending id (le_token e)))
  end.
Definition existing (peer : bytes) (credential : option bytes) (w : World) : World * result (option Reserved) ErrorCode :=
  locked w (fun w => (w, existing_in peer credential w)).
Definition reserve (peer : bytes) (credential : option bytes) (drawn : Z) (w : World) : World * result Reserved ErrorCode :=
  locked w (fun w =>
    match existing_in peer credential w with
    | Err e => (w, Err e)
    | Ok (Some r) => (w, Ok r)
    | Ok None =>
        if MAX_SESSIONS <=? zlen (ls_entries (w_st w)) then (w, Err LCapacity) else
        let n := w_next w in
        let w := set_state (fun s => changed (with_entries (entry_insert drawn (mkEntry peer credential false n None) (ls_entries s)) s)) w in
        (mkWorld (w_st w) (w_closed w) (w_cancelled w) (w_ready w) (<[n := mkResv drawn n true false false]> (w_res w))
           (n + 1) ({[drawn]} ∪ w_drawn w) (w_opened w), Ok (New n))
    end).
(** The end of a dial in [connect::run]: the connection enters the entry.  Where the entry is
    gone the guard of the dial closes the connection. *)
Definition opened (conn : Z) (w : World) : World :=
  mkWorld (w_st w) (w_closed w) (w_cancelled w) (w_ready w) (w_res w) (w_next w) (w_drawn w) ({[conn]} ∪ w_opened w).
Definition session_install (r : Resv) (conn : Z) (w : World) : World * result unit ErrorCode :=
  let '(w, res) := locked w (fun w =>
    match entry (rv_id r) (w_st w) with
    | None => (w, Err LNotFound)
    | Some _ =>
        let w := set_state (fun s => with_entries (entry_update (rv_id r)
          (fun e => mkEntry (le_peer e) (le_credential e) (le_renewing e) (le_token e) (Some conn)) (ls_entries s)) s) w in
        let w := set_state (fun s => if bool_decide (ls_selected s = None) then select (Some (rv_id r)) s else s) w in
        (set_state changed w, Ok tt)
    end) in
  (opened conn (match res with Ok _ => w | Err _ => conn_close (Some conn) w end), res).
(** [renew], and the end of a renewal in [execute]. *)
Definition renew (id : Z) (w : World) : World * result Z ErrorCode :=
  locked w (fun w =>
    match entry id (w_st w) with
    | None => (w, Err LNotFound)
    | Some e =>
        if negb (is_ready w e) then (w, Err LBusy)
        else if le_renewing e then (w, Err LBusy)
        else if negb (is_some (le_credential e)) then (w, Err LInvalidRequest)
        else if negb (is_some (le_conn e)) then (w, Err LBusy)
        else
          let w := set_state (fun s => changed (with_entries (entry_update id
            (fun e => mkEntry (le_peer e) (le_credential e) true (le_token e) (le_conn e)) (ls_entries s)) s)) w in
          let n := w_next w in
          (mkWorld (w_st w) (w_closed w) (w_cancelled w) (w_ready w) (<[n := mkResv id (le_token e) false false false]> (w_res w))
             (n + 1) (w_drawn w) (w_opened w), Ok n)
    end).
Definition renewed (r : Resv) (credential : bytes) (w : World) : World * result unit ErrorCode :=
  locked w (fun w =>
    match entry (rv_id r) (w_st w) with
    | None => (w, Err LNotFound)
    | Some _ => (set_state (fun s => with_entries (entry_update (rv_id r)
        (fun e => mkEntry (le_peer e) (Some credential) (le_renewing e) (le_token e) (le_conn e)) (ls_entries s)) s) w, Ok tt)
    end).
(** [Reservation::commit] and its destructor. *)
Definition reservation_commit (n : Z) (r : Resv) (w : World) : World * result unit ErrorCode :=
  locked w (fun w =>
    match entry (rv_id r) (w_st w) with
    | None => (w, Err LNotFound)
    | Some e =>
        let w := if le_renewing e then set_state (fun s => changed (with_entries (entry_update (rv_id r)
            (fun e => mkEntry (le_peer e) (le_credential e) false (le_token e) (le_conn e)) (ls_entries s)) s)) w else w in
        let w := set_res (insert n (mkResv (rv_id r) (rv_token r) (rv_new r) (rv_reply r) true)) w in
        if rv_new r then
          let w := mkWorld (w_st w) (w_closed w) (w_cancelled w) ({[rv_token r]} ∪ w_ready w) (w_res w) (w_next w) (w_drawn w) (w_opened w) in
          (set_state changed w, Ok tt)
        else (w, Ok tt)
    end).
Definition reservation_drop (n : Z) (r : Resv) (w : World) : World :=
  let w := if rv_committed r then w else (remove_session (rv_id r) w).1 in
  set_res (delete n) w.
(** [Owner::drop]. *)
Definition owner_drop (w : World) : World :=
  let gone := (ls_entries (w_st w)).*2 in
  set_state (fun s => changed (mkLocal (ls_generation s) None [] true)) (foldr entry_drop w gone).
(** [Pending::wait]: one look at the channel and the token. *)
Definition pending_wait (id token : Z) (w : World) : World * option (result Z ErrorCode) :=
  if bool_decide (token ∈ w_ready w) then
    let '(w, r) := locked w (fun w => (w, match session_connection (Some id) w with Ok _ => Ok id | Err e => Err e end)) in (w, Some r)
  else if bool_decide (token ∈ w_cancelled w) then (w, Some (Err LNotFound))
  else (w, None).
Definition session_select (id : Z) (w : World) : World * result unit ErrorCode :=
  locked w (fun w =>
    match session_connection (Some id) w with
    | Err e => (w, Err e)
    | Ok _ => (if bool_decide (ls_selected (w_st w) = Some id) then w else set_state (fun s => changed (select (Some id) s)) w, Ok tt)
    end).
Definition disconnect (id : Z) (w : World) : World * result unit ErrorCode :=
  locked w (fun w => let '(w, found) := remove_session id w in (w, if found then Ok tt else Err LNotFound)).

(** ** Runs *)

Inductive local_event : Type :=
| LExisting (peer : bytes) (credential : option bytes)
| LReserve (peer : bytes) (credential : option bytes) (drawn : Z)
| LInstall (n conn : Z)
| LRenew (id : Z)
| LRenewed (n : Z) (credential : bytes)
| LCommit (n : Z)
| LDrop (n : Z)
| LWait (id token : Z)
| LConnection (id : option Z)
| LSelect (id : Z)
| LDisconnect (id : Z)
| LList
| LClosed (conn : Z)
| LStop.
Inductive local_out : Type :=
| ODone (r : result unit ErrorCode)
| OExisting (r : result (option Reserved) ErrorCode)
| OReserved (r : result Reserved ErrorCode)
| ORenewal (r : result Z ErrorCode)
| OWait (r : option (result Z ErrorCode))
| OConnection (r : result (Z * Z) ErrorCode)
| OSnapshot (r : result (option Z * list (Z * bytes * bool)) ErrorCode).
(** The reply of a task is due: it may commit. *)
Definition reply_due (n : Z) (r : Resv) (w : World) : World :=
  set_res (insert n (mkResv (rv_id r) (rv_token r) (rv_new r) true (rv_committed r))) w.
(** One access; [None] where the task it belongs to is not at that point, or a number that a
    generator yields was yielded before. *)
Definition local_step (e : local_event) (w : World) : option (World * local_out) :=
  match e with
  | LExisting peer credential => let '(w, r) := existing peer credential w in Some (w, OExisting r)
  | LReserve peer credential drawn =>
      if bool_decide (drawn ∈ w_drawn w) then None else let '(w, r) := reserve peer credential drawn w in Some (w, OReserved r)
  | LInstall n conn =>
      match w_res w !! n with
      | Some r =>
          if negb (rv_new r) || rv_reply r || rv_committed r || bool_decide (conn ∈ w_opened w) then None else
          let '(w, res) := session_install r conn w in Some (match res with Ok _ => reply_due n r w | Err _ => w end, ODone res)
      | None => None
      end
  | LRenew id => let '(w, r) := renew id w in Some (w, ORenewal r)
  | LRenewed n credential =>
      match w_res w !! n with
      | Some r =>
          if rv_new r || rv_reply r || rv_committed r then None else
          let '(w, res) := renewed r credential w in Some (match res with Ok _ => reply_due n r w | Err _ => w end, ODone res)
      | None => None
      end
  | LCommit n =>
      match w_res w !! n with
      | Some r => if negb (rv_reply r) || rv_committed r then None else let '(w, res) := reservation_commit n r w in Some (w, ODone res)
      | None => None
      end
  | LDrop n => match w_res w !! n with Some r => Some (reservation_drop n r w, ODone (Ok tt)) | None => None end
  | LWait id token => let '(w, r) := pending_wait id token w in Some (w, OWait r)
  | LConnection id => let '(w, r) := locked w (fun w => (w, session_connection id w)) in Some (w, OConnection r)
  | LSelect id => let '(w, r) := session_select id w in Some (w, ODone r)
  | LDisconnect id => let '(w, r) := disconnect id w in Some (w, ODone r)
  | LList => let '(w, r) := locked w (fun w => (w, Ok (local_snapshot w))) in Some (w, OSnapshot r)
  | LClosed conn => Some (conn_close (Some conn) w, ODone (Ok tt))
  | LStop => Some (owner_drop w, ODone (Ok tt))
  end.
Fixpoint local_run (es : list local_event) (w : World) : option (World * list local_out) :=
  match es with
  | [] => Some (w, [])
  | e :: es =>
      match local_step e w with
      | None => None
      | Some (w, o) => match local_run es w with None => None | Some (w, os) => Some (w, o :: os) end
      end
  end.

(** ** The invariant *)

Abbreviation entries w := (ls_entries (w_st w)).
Record linv (w : World) : Prop := mkLinv {
  li_ids : NoDup (entries w).*1;
  li_peers : NoDup (le_peer <$> (entries w).*2);
  li_tokens : NoDup (le_token <$> (entries w).*2);
  li_len : zlen (entries w) <= MAX_SESSIONS;
  li_sel : forall id, ls_selected (w_st w) = Some id -> id ∈ (entries w).*1;
  li_stop : ls_stopped (w_st w) = true -> entries w = [];
  li_fresh : forall x, x ∈ entries w -> x.1 ∈ w_drawn w /\ le_token x.2 < w_next w /\ le_token x.2 ∉ w_cancelled w;
  li_used : forall t, t ∈ w_ready w \/ t ∈ w_cancelled w -> t < w_next w;
  li_conn : forall x, x ∈ entries w -> le_token x.2 ∈ w_ready w -> is_Some (le_conn x.2);
  li_dialled : forall x, x ∈ entries w -> le_token x.2 ∉ w_ready w ->
    exists n r, w_res w !! n = Some r /\ rv_id r = x.1 /\ rv_new r = true /\ rv_committed r = false;
  li_renewed : forall x, x ∈ entries w -> le_renewing x.2 = true ->
    exists n r, w_res w !! n = Some r /\ rv_id r = x.1 /\ rv_new r = false /\ rv_committed r = false;
  li_res : forall n r, w_res w !! n = Some r -> n < w_next w /\ rv_id r ∈ w_drawn w /\
    forall e, (rv_id r, e) ∈ entries w -> rv_token r = le_token e /\
      (rv_committed r = false -> if rv_new r then (le_token e ∉ w_ready w) /\ le_renewing e = false /\ (rv_reply r = true -> is_Some (le_conn e)) /\ (rv_reply r = false -> le_conn e = None)
                                 else le_token e ∈ w_ready w /\ le_renewing e = true);
  li_one : forall n m r q, w_res w !! n = Some r -> w_res w !! m = Some q -> rv_committed r = false -> rv_committed q = false ->
    rv_id r = rv_id q -> rv_id r ∈ (entries w).*1 -> n = m;
  li_owned : forall c, c ∈ w_opened w -> c ∈ w_closed w \/ exists x, x ∈ entries w /\ le_conn x.2 = Some c
}.

Lemma local_new_inv : linv local_new.
Proof. split; try (intros; exfalso; set_solver); try done; try constructor. Qed.

Lemma entry_elem id (s : LocalState) e : entry id s = Some e -> (id, e) ∈ ls_entries s.
Proof.
  unfold entry. intros ([i x] & F & [= <-])%fmap_Some. apply find_some in F as [Hin E]. cbn in E. b2p. subst.
  by rewrite list_elem_of_In.
Qed.
Lemma entry_none id (s : LocalState) : entry id s = None -> id ∉ (ls_entries s).*1.
Proof.
  unfold entry. destruct (find _ _) eqn:F; [done|]. intros _ ([i x] & -> & Hin)%list_elem_of_fmap.
  apply list_elem_of_In in Hin. pose proof (find_none _ _ F _ Hin). cbn in *. b2p. lia.
Qed.
Lemma elem_unique (es : list (Z * LocalEntry)) id e e' : NoDup es.*1 -> (id, e) ∈ es -> (id, e') ∈ es -> e = e'.
Proof.
  intros Hn [i Hi]%list_elem_of_lookup_1 [j Hj]%list_elem_of_lookup_1.
  assert (i = j) as -> by (eapply (NoDup_lookup es.*1); [done|rewrite list_lookup_fmap, Hi; done|rewrite list_lookup_fmap, Hj; done]).
  congruence.
Qed.

(** *** Dropping entries *)

Lemma drops_spec es w :
  let w' := foldr entry_drop w es in
  w_st w' = w_st w /\ w_ready w' = w_ready w /\ w_res w' = w_res w /\ w_next w' = w_next w /\ w_drawn w' = w_drawn w /\ w_opened w' = w_opened w /\
  (forall t, t ∈ w_cancelled w' <-> (t ∈ w_cancelled w \/ exists e, e ∈ es /\ le_token e = t)) /\
  (forall c, c ∈ w_closed w' <-> (c ∈ w_closed w \/ exists e, e ∈ es /\ le_conn e = Some c)).
Proof.
  induction es as [|e es IH]; cbn [foldr].
  { split_and!; try done; intros; split; auto; intros [?|(e & He & _)]; auto; by apply not_elem_of_nil in He. }
  destruct IH as (I1 & I2 & I3 & I4 & I5 & I6 & I7 & I8). unfold entry_drop, conn_close. cbn.
  split_and!; try done.
  - intros t. rewrite elem_of_union, I7. setoid_rewrite elem_of_cons. set_solver.
  - intros c. destruct (le_conn e) as [d|] eqn:E; rewrite ?elem_of_union, I8; setoid_rewrite elem_of_cons; [set_solver|].
    split; [naive_solver|]. intros [?|(x & [->|?] & ?)]; [by left|congruence|right; eauto].
Qed.

(** [w'] is [w] without some of its entries, which ran their destructor. *)
Record shrunk (w w' : World) : Prop := mkShrunk {
  sh_sub : entries w' `sublist_of` entries w;
  sh_gone : forall x, x ∈ entries w -> x ∈ entries w' \/ (le_token x.2 ∈ w_cancelled w' /\ forall c, le_conn x.2 = Some c -> c ∈ w_closed w');
  sh_cancelled : forall t, t ∈ w_cancelled w' -> t ∈ w_cancelled w \/ exists x, x ∈ entries w /\ (x ∉ entries w') /\ le_token x.2 = t;
  sh_mono : w_cancelled w ⊆ w_cancelled w' /\ w_closed w ⊆ w_closed w';
  sh_same : w_ready w' = w_ready w /\ w_next w' = w_next w /\ w_drawn w' = w_drawn w /\ w_opened w' = w_opened w;
  sh_sel : forall id, ls_selected (w_st w') = Some id -> ls_selected (w_st w) = Some id /\ id ∈ (entries w').*1;
  sh_stop : ls_stopped (w_st w') = true -> entries w' = [];
  sh_gen : w_st w' = w_st w \/ ls_generation (w_st w') = sat_add64 (ls_generation (w_st w)) 1;
  sh_res : forall x n r, x ∈ entries w' -> rv_id r = x.1 -> rv_committed r = false -> w_res w !! n = Some r -> w_res w' !! n = Some r;
  sh_res_sub : forall n r, w_res w' !! n = Some r -> w_res w !! n = Some r
}.
Lemma shrunk_inv w w' : linv w -> shrunk w w' -> linv w'.
Proof.
  intros [I1 I2 I3 I4 I5 I6 I7 I8 I9 I10 I11 I12 I13 I14] [S1 S2 S3 [S4 S4'] (S5 & S6 & S7 & S8) S9 S10 S11 S12 S13].
  assert (Hin : forall x, x ∈ entries w' -> x ∈ entries w) by (intros x Hx; eapply elem_of_submseteq; [exact Hx|by apply sublist_submseteq]).
  assert (Htok : forall x y, x ∈ entries w -> y ∈ entries w -> le_token x.2 = le_token y.2 -> x = y).
  { intros x y [i Hi]%list_elem_of_lookup_1 [j Hj]%list_elem_of_lookup_1 E.
    assert (i = j) as -> by (apply (NoDup_lookup _ i j (le_token x.2) I3); rewrite !list_lookup_fmap, ?Hi, ?Hj; cbn; congruence). congruence. }
  split; rewrite ?S5, ?S6, ?S7, ?S8.
  - eapply sublist_NoDup; [exact I1|]. by apply sublist_map.
  - eapply sublist_NoDup; [exact I2|]. by do 2 apply sublist_map.
  - eapply sublist_NoDup; [exact I3|]. by do 2 apply sublist_map.
  - apply sublist_length in S1. unfold zlen in *. lia.
  - intros id H. by apply S9.
  - exact S10.
  - intros x Hx. destruct (I7 x (Hin x Hx)) as (F1 & F2 & F3). split_and!; [done|done|].
    intros [?|(y & Hy & Hn & E)]%S3; [done|]. apply Htok in E; [by subst|done|by apply Hin].
  - intros t [Ht|[Ht|(y & Hy & _ & <-)]%S3]; [by apply I8; left|by apply I8; right|by apply I7].
  - intros x Hx. apply I9, Hin, Hx.
  - intros x Hx Hr. destruct (I10 x (Hin x Hx) Hr) as (n & r & Hn & Ei & Ew & Ec). exists n, r. split_and!; eauto.
  - intros x Hx Hr. destruct (I11 x (Hin x Hx) Hr) as (n & r & Hn & Ei & Ew & Ec). exists n, r. split_and!; eauto.
  - intros n r Hr. destruct (I12 n r (S13 n r Hr)) as (F1 & F2 & F3). split_and!; [done|done|]. intros e He. by apply F3, Hin.
  - intros n m r q Hr Hq Cr Cq E Hi. apply (I13 n m r q); auto. eapply elem_of_submseteq; [exact Hi|]. apply sublist_submseteq. by apply sublist_map.
  - intros c Hc. destruct (I14 c Hc) as [?|(x & Hx & E)]; [left; set_solver|]. destruct (S2 x Hx) as [?|[_ Hcl]]; [right; eauto|left; eauto].
Qed.

Lemma prune_shrunk w : linv w -> shrunk w (prune w).
Proof.
  intros Hi. unfold prune. destruct (Z.eqb_spec (zlen (filter (fun x => conn_closed w x.2 = false) (entries w))) (zlen (entries w))) as [E|E].
  { split; try done; try (by left); try (intros; by left); eauto. intros id H. split; [done|by apply li_sel]. apply li_stop; done. }
  set (gone := filter (fun x => conn_closed w x.2 = true) (entries w)). destruct (drops_spec gone.*2 w) as (D1 & D2 & D3 & D4 & D5 & D6 & D7 & D8).
  set (sel := if is_some_and _ _ then _ else _).
  assert (Hsel : ls_entries sel = filter (fun x => conn_closed w x.2 = false) (entries w) /\ ls_stopped sel = ls_stopped (w_st w) /\
    ls_generation sel = ls_generation (w_st w) /\ forall id, ls_selected sel = Some id -> ls_selected (w_st w) = Some id /\ id ∈ (ls_entries sel).*1).
  { subst sel. cbn [with_entries ls_selected]. destruct (ls_selected (w_st w)) as [id|] eqn:S; cbn [is_some_and].
    - destruct (entry id _) as [e|] eqn:En; cbn; [|done]. split_and!; try done. intros id' Ei. rewrite S in Ei. injection Ei as <-. split; [done|].
      apply entry_elem in En. cbn in En. apply list_elem_of_fmap. by exists (id, e).
    - split_and!; try done. cbn. rewrite S. done. }
  clearbody sel. destruct Hsel as (E1 & E2 & E3 & E4). split; cbn; rewrite ?E1, ?D2, ?D3, ?D4, ?D5, ?D6.
  - apply sublist_filter.
  - intros x Hx. destruct (conn_closed w x.2) eqn:C; [right|left; by apply list_elem_of_filter].
    assert (Hg : x.2 ∈ gone.*2) by (apply list_elem_of_fmap; exists x; split; [done|by apply list_elem_of_filter]).
    split; [apply D7; right; eauto|]. intros c Ec. apply D8. right. eauto.
  - intros t [?|(e & (x & -> & [Hc Hx]%list_elem_of_filter)%list_elem_of_fmap & <-)]%D7; [by left|right].
    exists x. split_and!; try done. rewrite list_elem_of_filter. intros [? _]. congruence.
  - split; intros y Hy; [apply D7|apply D8]; by left.
  - done.
  - intros id H. destruct (E4 id H) as [? Hin]. rewrite E1 in Hin. done.
  - rewrite E2. intros H. by rewrite (li_stop _ Hi H).
  - right. by rewrite E3.
  - done.
  - done.
Qed.
Lemma remove_shrunk id w : linv w -> shrunk w (remove_session id w).1 /\ id ∉ (entries (remove_session id w).1).*1.
Proof.
  intros Hi. unfold remove_session. destruct (entry id (w_st w)) as [e|] eqn:En.
  2: { split; [|by apply entry_none]. split; try done; try (by left); try (intros; by left); eauto.
       intros i H. split; [done|by apply li_sel]. apply li_stop; done. }
  apply entry_elem in En. set (rest := filter (fun x => x.1 <> id) (entries w)).
  assert (Hrest : forall x, x ∈ entries w -> x.1 = id -> x = (id, e)).
  { intros [i x] Hx E. cbn in E. subst i. f_equal. by eapply elem_unique; [apply li_ids| |]. }
  assert (Hno : id ∉ rest.*1) by (intros (x & -> & [Hne _]%list_elem_of_filter)%list_elem_of_fmap; done).
  cbn [fst]. split; [|cbn; case_match; exact Hno].
  assert (Hs : forall s, ls_entries (if bool_decide (ls_selected s = Some id) then select None s else s) = ls_entries s /\
    ls_stopped (if bool_decide (ls_selected s = Some id) then select None s else s) = ls_stopped s /\
    ls_generation (if bool_decide (ls_selected s = Some id) then select None s else s) = ls_generation s)
    by (intros s; case_match; done).
  split; cbn [set_state changed w_st ls_entries ls_stopped ls_generation ls_selected w_cancelled w_closed w_ready w_next w_drawn w_opened w_res entry_drop conn_close].
  all: rewrite ?(proj1 (Hs _)), ?(proj1 (proj2 (Hs _))), ?(proj2 (proj2 (Hs _))); cbn [with_entries ls_entries ls_stopped ls_generation ls_selected].
  - apply sublist_filter.
  - intros x Hx. destruct (decide (x.1 = id)) as [E|E]; [right|left; by apply list_elem_of_filter].
    rewrite (Hrest x Hx E). cbn. split; [set_solver|]. intros c ->. set_solver.
  - intros t [->%elem_of_singleton|?]%elem_of_union; [right|by left]. exists (id, e). split_and!; [done| |done].
    intros Hin%(list_elem_of_fmap_2 fst). done.
  - split; [set_solver|]. destruct (le_conn e); set_solver.
  - done.
  - intros i. destruct (bool_decide_reflect (ls_selected (w_st w) = Some id)) as [E|E]; cbn; [done|].
    intros H. split; [done|]. pose proof (li_sel _ Hi i H) as (x & -> & Hx)%list_elem_of_fmap. apply list_elem_of_fmap. exists x.
    split; [done|]. apply list_elem_of_filter. split; [congruence|done].
  - intros H. unfold rest. by rewrite (li_stop _ Hi H).
  - by right.
  - done.
  - done.
Qed.
Lemma owner_shrunk w : shrunk w (owner_drop w) /\ entries (owner_drop w) = [].
Proof.
  split; [|done]. unfold owner_drop. destruct (drops_spec (entries w).*2 w) as (D1 & D2 & D3 & D4 & D5 & D6 & D7 & D8).
  split; cbn; rewrite ?D1, ?D2, ?D3, ?D4, ?D5, ?D6.
  - apply sublist_nil_l.
  - intros x Hx. right. split; [apply D7|intros c Hc; apply D8]; right; exists x.2; (split; [by apply list_elem_of_fmap_2|done]).
  - intros t [?|(e & (x & -> & Hx)%list_elem_of_fmap & <-)]%D7; [by left|right]. exists x. split_and!; [done|apply not_elem_of_nil|done].
  - split; intros y Hy; [apply D7|apply D8]; by left.
  - done.
  - done.
  - done.
  - by right.
  - done.
  - done.
Qed.
Lemma drop_shrunk n r w : linv w -> w_res w !! n = Some r -> shrunk w (reservation_drop n r w).
Proof.
  intros Hi Hr. unfold reservation_drop. destruct (rv_committed r) eqn:C.
  - split; try done; try (by left); try (intros; by left); cbn.
    + intros i H. split; [done|by apply li_sel].
    + apply li_stop; done.
    + intros x m q Hx E Hq Hm. rewrite lookup_delete_ne; [done|]. intros ->. congruence.
    + intros m q Hm. apply lookup_delete_Some in Hm as [_ ?]. done.
  - destruct (remove_shrunk (rv_id r) w Hi) as [[S1 S2 S3 S4 S5 S6 S7 S8 S9 S10] Hno]. split; cbn; try done.
    + intros x m q Hx E Hq Hm. rewrite lookup_delete_ne; [eauto|]. intros ->. apply Hno. assert (q = r) as -> by congruence.
      apply list_elem_of_fmap. by exists x.
    + intros m q Hm. apply lookup_delete_Some in Hm as [_ ?]. eauto.
Qed.

(** *** Changing an entry in place *)

Lemma update_elem id f es x :
  x ∈ entry_update id f es <-> exists y, y ∈ es /\ x = (y.1, if y.1 =? id then f y.2 else y.2).
Proof.
  unfold entry_update. rewrite list_elem_of_fmap.
  split; [intros ([i e] & -> & H)|intros ([i e] & H & ->)]; exists (i, e); cbn; by destruct (i =? id).
Qed.
Lemma update_ids id f es : (entry_update id f es).*1 = es.*1.
Proof. unfold entry_update. rewrite <-list_fmap_compose. apply list_fmap_ext. intros i [j e] _. cbn. by destruct (j =? id). Qed.
Lemma update_proj {A} (p : LocalEntry -> A) id f es : (forall e, p (f e) = p e) -> p <$> (entry_update id f es).*2 = p <$> es.*2.
Proof.
  intros Hf. unfold entry_update. rewrite <-!list_fmap_compose. apply list_fmap_ext. intros i [j e] _. cbn. destruct (j =? id); cbn; auto.
Qed.
Lemma update_same id f es : (forall e, (id, e) ∈ es -> f e = e) -> entry_update id f es = es.
Proof.
  intros H. unfold entry_update. rewrite <-(list_fmap_id es) at 2. apply list_fmap_ext. intros i [j e] Hi%list_elem_of_lookup_2. cbn.
  destruct (Z.eqb_spec j id) as [->|]; [|done]. by rewrite H.
Qed.

(** The facts of one entry. *)
Definition entry_facts (w : World) (id : Z) (e : LocalEntry) : Prop :=
  (le_token e ∈ w_ready w -> is_Some (le_conn e)) /\
  (le_token e ∉ w_ready w -> exists n r, w_res w !! n = Some r /\ rv_id r = id /\ rv_new r = true /\ rv_committed r = false) /\
  (le_renewing e = true -> exists n r, w_res w !! n = Some r /\ rv_id r = id /\ rv_new r = false /\ rv_committed r = false) /\
  (forall n r, w_res w !! n = Some r -> rv_id r = id -> rv_token r = le_token e /\
     (rv_committed r = false -> if rv_new r then (le_token e ∉ w_ready w) /\ le_renewing e = false /\ (rv_reply r = true -> is_Some (le_conn e)) /\ (rv_reply r = false -> le_conn e = None)
                                else le_token e ∈ w_ready w /\ le_renewing e = true)).
Lemma linv_facts w x : linv w -> x ∈ entries w -> entry_facts w x.1 x.2.
Proof.
  intros Hi Hx. split_and!.
  - by apply li_conn.
  - by apply li_dialled.
  - by apply li_renewed.
  - intros n r Hr E. destruct (li_res _ Hi n r Hr) as (_ & _ & H). apply H. rewrite E. by destruct x.
Qed.
Lemma linv_update w w' id f :
  linv w -> entries w' = entry_update id f (entries w) -> (forall e, le_peer (f e) = le_peer e /\ le_token (f e) = le_token e) ->
  (forall i, ls_selected (w_st w') = Some i -> ls_selected (w_st w) = Some i \/ i ∈ (entries w).*1) ->
  ls_stopped (w_st w') = ls_stopped (w_st w) -> w_drawn w' = w_drawn w -> w_next w <= w_next w' -> w_cancelled w' = w_cancelled w ->
  (forall t, t ∈ w_ready w' -> t < w_next w') ->
  (forall y, y ∈ entries w -> entry_facts w' y.1 (if y.1 =? id then f y.2 else y.2)) ->
  (forall n r, w_res w' !! n = Some r -> n < w_next w' /\ rv_id r ∈ w_drawn w) ->
  (forall n m r q, w_res w' !! n = Some r -> w_res w' !! m = Some q -> rv_committed r = false -> rv_committed q = false ->
    rv_id r = rv_id q -> rv_id r ∈ (entries w).*1 -> n = m) ->
  (forall c, c ∈ w_opened w' -> c ∈ w_closed w' \/ exists x, x ∈ entries w' /\ le_conn x.2 = Some c) ->
  linv w'.
Proof.
  intros Hi He Hf Hsel Hst Hd Hn Hc Hr Hfacts Hres Hone Hown.
  assert (Hel : forall x, x ∈ entries w' -> exists y, y ∈ entries w /\ x.1 = y.1 /\ le_token x.2 = le_token y.2 /\ entry_facts w' x.1 x.2).
  { intros x Hx. rewrite He in Hx. apply update_elem in Hx as (y & Hy & ->). exists y. cbn. split_and!; [done|done| |by apply Hfacts].
    destruct (y.1 =? id); [apply Hf|done]. }
  split.
  - rewrite He, update_ids. apply li_ids; done.
  - rewrite He, update_proj by (intros; apply Hf). by apply li_peers.
  - rewrite He, update_proj by (intros; apply Hf). by apply li_tokens.
  - rewrite He. unfold zlen, entry_update. rewrite length_fmap. by apply li_len.
  - intros i Hs. rewrite He, update_ids. destruct (Hsel i Hs) as [?|?]; [by apply li_sel|done].
  - rewrite Hst. intros H. by rewrite He, (li_stop _ Hi H).
  - intros x Hx. destruct (Hel x Hx) as (y & Hy & -> & -> & _). destruct (li_fresh _ Hi y Hy) as (? & ? & ?). rewrite Hd, Hc. split_and!; [done|lia|done].
  - intros t [?|Ht]; [by apply Hr|]. rewrite Hc in Ht. pose proof (li_used _ Hi t (or_intror Ht)). lia.
  - intros x Hx. destruct (Hel x Hx) as (y & _ & _ & _ & (F & _)). exact F.
  - intros x Hx. destruct (Hel x Hx) as (y & _ & _ & _ & (_ & F & _)). exact F.
  - intros x Hx. destruct (Hel x Hx) as (y & _ & _ & _ & (_ & _ & F & _)). exact F.
  - intros n r Hnr. destruct (Hres n r Hnr) as [? ?]. rewrite Hd. split_and!; [done|done|]. intros e Hin.
    destruct (Hel _ Hin) as (y & _ & _ & _ & (_ & _ & _ & F)). by apply (F n r).
  - intros n m r q. rewrite He, update_ids. apply Hone.
  - exact Hown.
Qed.
Lemma tokens_differ w x y : linv w -> x ∈ entries w -> y ∈ entries w -> x.1 <> y.1 -> le_token x.2 <> le_token y.2.
Proof.
  intros Hi [i Hx]%list_elem_of_lookup_1 [j Hy]%list_elem_of_lookup_1 Hne E. apply Hne.
  assert (i = j) as -> by (apply (NoDup_lookup _ i j (le_token x.2) (li_tokens _ Hi)); rewrite !list_lookup_fmap, ?Hx, ?Hy; cbn; congruence).
  congruence.
Qed.

(** *** The operations *)

Lemma prune_fields w : w_res (prune w) = w_res w /\ w_opened (prune w) = w_opened w /\ w_drawn (prune w) = w_drawn w /\ w_next (prune w) = w_next w /\
  ls_stopped (w_st (prune w)) = ls_stopped (w_st w) /\ w_ready (prune w) = w_ready w.
Proof.
  unfold prune. case_match; [done|]. match goal with |- context [foldr entry_drop w ?g] => destruct (drops_spec g w) as (D1 & D2 & D3 & D4 & D5 & D6 & _) end.
  cbn. rewrite D2, D3, D4, D5, D6. split_and!; try done. by case_match.
Qed.
Lemma locked_cases {A} w (k : World -> World * result A ErrorCode) w' r :
  linv w -> locked w k = (w', r) ->
  (ls_stopped (w_st w) = true /\ w' = w /\ r = Err LStopped) \/ (ls_stopped (w_st w) = false /\ linv (prune w) /\ k (prune w) = (w', r)).
Proof.
  intros Hi. unfold locked, state_lock. destruct (ls_stopped (w_st w)); [intros [= <- <-]; by left|]. intros H. right.
  split_and!; [done| |done]. eapply shrunk_inv; [done|by apply prune_shrunk].
Qed.
Lemma close_inv c w : linv w -> linv (conn_close c w).
Proof.
  intros [I1 I2 I3 I4 I5 I6 I7 I8 I9 I10 I11 I12 I13 I14]. split; try done. cbn. intros d Hd.
  destruct (I14 d Hd) as [?|?]; [left|by right]. destruct c; set_solver.
Qed.
Lemma opened_inv c w : linv w -> c ∈ w_closed w \/ (exists x, x ∈ entries w /\ le_conn x.2 = Some c) -> linv (opened c w).
Proof.
  intros [I1 I2 I3 I4 I5 I6 I7 I8 I9 I10 I11 I12 I13 I14] Hc. split; try done. cbn. intros d [->%elem_of_singleton|Hd]%elem_of_union; auto.
Qed.
Lemma insert_res_inv (m : gmap Z Resv) n r q k :
  <[n := r]> m !! k = Some q -> (k = n /\ q = r) \/ (k <> n /\ m !! k = Some q).
Proof. intros [[-> <-]|[? ?]]%lookup_insert_Some; [by left|right; by split]. Qed.
Lemma sel_if (b : bool) i s : (if b then select i s else s) = select (if b then i else ls_selected s) s.
Proof. by destruct b, s. Qed.
Lemma set_sel i w : set_state (fun s => if bool_decide (ls_selected s = None) then select (Some i) s else s) w =
  set_state (fun s => select (if bool_decide (ls_selected s = None) then Some i else ls_selected s) s) w.
Proof. unfold set_state. by rewrite sel_if. Qed.
Lemma session_install_inv n r conn w w' res :
  linv w -> w_res w !! n = Some r -> rv_new r = true -> rv_reply r = false -> rv_committed r = false ->
  session_install r conn w = (w', res) -> linv (match res with Ok _ => reply_due n r w' | Err _ => w' end).
Proof.
  intros Hi Hr Hnew Hrep Hcom H. unfold session_install in H. destruct (locked w _) as [w1 res1] eqn:L. injection H as <- <-.
  assert (Hbad : linv w1 -> linv (opened conn (conn_close (Some conn) w1))).
  { intros H1. apply opened_inv; [by apply close_inv|left; cbn; set_solver]. }
  apply locked_cases in L as [(_ & -> & ->)|(Hst & Hp & L)]; [by apply Hbad| |done].
  destruct (prune_fields w) as (P1 & P2 & P3 & P4 & P5 & P6). set (v := prune w) in *. clearbody v. rewrite <-P1 in Hr.
  destruct (entry (rv_id r) (w_st v)) as [e|] eqn:En; [|injection L as <- <-; by apply Hbad].
  apply entry_elem in En. injection L as <- <-.
  destruct (linv_facts _ _ Hp En) as (_ & _ & _ & Fr). destruct (Fr n r Hr eq_refl) as [Ht Fu]. specialize (Fu Hcom). rewrite Hnew in Fu.
  destruct Fu as (Fn & Frn & _ & Fc). specialize (Fc Hrep). cbn [fst snd] in *.
  assert (Huniq : forall y, y ∈ entries v -> y.1 = rv_id r -> y.2 = e).
  { intros [i x] Hy E. cbn in *. subst i. by eapply elem_unique; [apply li_ids| |]. }
  match goal with |- linv (reply_due n r (opened conn ?u)) => change (linv (opened conn (reply_due n r u))) end.
  rewrite set_sel. apply opened_inv.
  2: { right. exists (rv_id r, mkEntry (le_peer e) (le_credential e) (le_renewing e) (le_token e) (Some conn)). split; [|done]. cbn.
       apply update_elem. exists (rv_id r, e). cbn. by rewrite Z.eqb_refl. }
  eapply (linv_update v _ (rv_id r)); cbn; try done.
  - intros i. case_match; [|by left]. intros [= <-]. right. apply list_elem_of_fmap. by exists (rv_id r, e).
  - intros t Ht'. apply (li_used _ Hp). by left.
  - intros y Hy. destruct (linv_facts _ _ Hp Hy) as (F1 & F2 & F3 & F4).
    assert (Hex : forall b, (exists m q, w_res v !! m = Some q /\ rv_id q = y.1 /\ rv_new q = b /\ rv_committed q = false) ->
      exists m q, <[n := mkResv (rv_id r) (rv_token r) (rv_new r) true (rv_committed r)]> (w_res v) !! m = Some q /\ rv_id q = y.1 /\ rv_new q = b /\ rv_committed q = false).
    { intros b (m & q & Hm & E1 & E2 & E3). destruct (decide (m = n)) as [->|Hne].
      - eexists n, _. rewrite lookup_insert_eq. split; [done|]. cbn. assert (q = r) as -> by congruence. done.
      - exists m, q. by rewrite lookup_insert_ne. }
    destruct (Z.eqb_spec y.1 (rv_id r)) as [E|E]; cbn.
    + rewrite (Huniq y Hy E) in *. split_and!; cbn; eauto.
      intros m q [[-> ->]|[Hne Hm]]%insert_res_inv Eq; cbn.
      * split; [done|]. intros _. by rewrite Hnew.
      * destruct (F4 m q Hm Eq) as [? Fu]. split; [done|]. intros Cq. exfalso. apply Hne.
        apply (li_one _ Hp m n q r); try done; [congruence|]. rewrite Eq. by apply (list_elem_of_fmap_2 fst).
    + split_and!; cbn; eauto. intros m q [[-> ->]|[Hne Hm]]%insert_res_inv Eq; cbn in *; [done|by apply (F4 m q)].
  - intros m q [[-> ->]|[Hne Hm]]%insert_res_inv; cbn; [destruct (li_res _ Hp n r Hr) as (? & ? & _)|destruct (li_res _ Hp m q Hm) as (? & ? & _)]; done.
  - intros m1 m2 q1 q2 H1 H2 C1 C2 E Hin.
    apply insert_res_inv in H1 as [[-> ->]|[N1 H1]], H2 as [[-> ->]|[N2 H2]]; cbn in *; try done.
    + by apply (li_one _ Hp n m2 r q2).
    + by apply (li_one _ Hp m1 n q1 r).
    + by apply (li_one _ Hp m1 m2 q1 q2).
  - intros c Hc. destruct (li_owned _ Hp c Hc) as [?|(x & Hx & Ex)]; [by left|right].
    exists x. split; [|done]. apply update_elem. exists x. split; [done|]. destruct (Z.eqb_spec x.1 (rv_id r)) as [E|E]; [|by destruct x].
    rewrite (Huniq x Hx E) in Ex. congruence.
Qed.
Lemma renew_inv id w w' res : linv w -> renew id w = (w', res) -> linv w'.
Proof.
  intros Hi H. unfold renew in H. apply locked_cases in H as [(_ & -> & _)|(_ & Hp & H)]; [done| |done].
  set (v := prune w) in *. clearbody v. destruct (entry id (w_st v)) as [e|] eqn:En; [|by injection H as <- <-].
  destruct (is_ready v e) eqn:Rd; cbn [negb] in H; [|by injection H as <- <-]. destruct (le_renewing e) eqn:Rn; [by injection H as <- <-|].
  destruct (is_some (le_credential e)); cbn [negb] in H; [|by injection H as <- <-].
  destruct (is_some (le_conn e)); cbn [negb] in H; [|by injection H as <- <-]. injection H as <- <-.
  apply entry_elem in En. apply bool_decide_eq_true in Rd.
  assert (Huniq : forall y, y ∈ entries v -> y.1 = id -> y.2 = e).
  { intros [i x] Hy E. cbn in *. subst i. by eapply elem_unique; [apply li_ids| |]. }
  assert (Hnone : forall m q, w_res v !! m = Some q -> rv_id q = id -> rv_committed q = true).
  { intros m q Hm E. destruct (linv_facts _ _ Hp En) as (_ & _ & _ & F). destruct (F m q Hm E) as [_ Fu]. cbn in Fu.
    destruct (rv_committed q); [done|]. specialize (Fu eq_refl). destruct (rv_new q); [destruct Fu as [Fu _]; done|]. destruct Fu. congruence. }
  assert (Hlt : forall m q, w_res v !! m = Some q -> m < w_next v) by (intros m q Hm; apply (li_res _ Hp m q Hm)).
  eapply (linv_update v _ id); cbn; try done.
  - by left.
  - lia.
  - intros t Ht. pose proof (li_used _ Hp t (or_introl Ht)). lia.
  - intros y Hy. destruct (linv_facts _ _ Hp Hy) as (F1 & F2 & F3 & F4).
    assert (Hex : forall b, (exists m q, w_res v !! m = Some q /\ rv_id q = y.1 /\ rv_new q = b /\ rv_committed q = false) ->
      exists m q, <[w_next v := mkResv id (le_token e) false false false]> (w_res v) !! m = Some q /\ rv_id q = y.1 /\ rv_new q = b /\ rv_committed q = false).
    { intros b (m & q & Hm & ?). exists m, q. rewrite lookup_insert_ne; [done|]. specialize (Hlt m q Hm). lia. }
    destruct (Z.eqb_spec y.1 id) as [E|E]; cbn.
    + rewrite (Huniq y Hy E) in *. split_and!; cbn; eauto.
      * intros _. eexists (w_next v), _. by rewrite lookup_insert_eq, E.
      * intros m q [[-> ->]|[Hne Hm]]%insert_res_inv Eq; cbn; [done|]. destruct (F4 m q Hm Eq) as [? _]. split; [done|].
        intros Cq. rewrite (Hnone m q Hm) in Cq; congruence.
    + split_and!; cbn; eauto. intros m q [[-> ->]|[Hne Hm]]%insert_res_inv Eq; cbn in *; [done|by apply (F4 m q)].
  - intros m q [[-> ->]|[Hne Hm]]%insert_res_inv; cbn; [split; [lia|by apply (li_fresh _ Hp _ En)]|].
    destruct (li_res _ Hp m q Hm) as (? & ? & _). split; [lia|done].
  - intros m1 m2 q1 q2 H1 H2 C1 C2 E Hin.
    apply insert_res_inv in H1 as [[-> ->]|[N1 H1]], H2 as [[-> ->]|[N2 H2]]; cbn in *; try done.
    + rewrite (Hnone m2 q2 H2) in C2; congruence.
    + rewrite (Hnone m1 q1 H1) in C1; congruence.
    + by apply (li_one _ Hp m1 m2 q1 q2).
  - intros c Hc. destruct (li_owned _ Hp c Hc) as [?|(x & Hx & Ex)]; [by left|right].
    eexists. split; [apply update_elem; exists x; split; [done|reflexivity]|]. cbn. by destruct (x.1 =? id).
Qed.
Lemma renewed_inv n r credential w w' res :
  linv w -> w_res w !! n = Some r -> rv_new r = false -> rv_committed r = false ->
  renewed r credential w = (w', res) -> linv (match res with Ok _ => reply_due n r w' | Err _ => w' end).
Proof.
  intros Hi Hr Hnew Hcom H. unfold renewed in H. apply locked_cases in H as [(_ & -> & ->)|(_ & Hp & H)]; [done| |done].
  destruct (prune_fields w) as (P1 & _). set (v := prune w) in *. clearbody v. rewrite <-P1 in Hr.
  destruct (entry (rv_id r) (w_st v)) as [e|] eqn:En; [|by injection H as <- <-]. injection H as <- <-.
  eapply (linv_update v _ (rv_id r)); cbn; try done.
  - by left.
  - intros t Ht. by apply (li_used _ Hp t (or_introl Ht)).
  - intros y Hy. destruct (linv_facts _ _ Hp Hy) as (F1 & F2 & F3 & F4).
    assert (Hex : forall b, (exists m q, w_res v !! m = Some q /\ rv_id q = y.1 /\ rv_new q = b /\ rv_committed q = false) ->
      exists m q, <[n := mkResv (rv_id r) (rv_token r) (rv_new r) true (rv_committed r)]> (w_res v) !! m = Some q /\ rv_id q = y.1 /\ rv_new q = b /\ rv_committed q = false).
    { intros b (m & q & Hm & E1 & E2 & E3). destruct (decide (m = n)) as [->|Hne].
      - eexists n, _. rewrite lookup_insert_eq. split; [done|]. cbn. assert (q = r) as -> by congruence. done.
      - exists m, q. by rewrite lookup_insert_ne. }
    assert (HF : forall m q, <[n := mkResv (rv_id r) (rv_token r) (rv_new r) true (rv_committed r)]> (w_res v) !! m = Some q -> rv_id q = y.1 ->
      rv_token q = le_token y.2 /\ (rv_committed q = false -> if rv_new q then (le_token y.2 ∉ w_ready v) /\ le_renewing y.2 = false /\ (rv_reply q = true -> is_Some (le_conn y.2)) /\ (rv_reply q = false -> le_conn y.2 = None)
                                else le_token y.2 ∈ w_ready v /\ le_renewing y.2 = true)).
    { intros m q [[-> ->]|[Hne Hm]]%insert_res_inv Eq; cbn in *; [|by apply (F4 m q)]. destruct (F4 n r Hr Eq) as [? Fu]. rewrite Hnew in *. done. }
    destruct (y.1 =? rv_id r); split_and!; cbn; eauto.
  - intros m q [[-> ->]|[Hne Hm]]%insert_res_inv; cbn; [destruct (li_res _ Hp n r Hr) as (? & ? & _)|destruct (li_res _ Hp m q Hm) as (? & ? & _)]; done.
  - intros m1 m2 q1 q2 H1 H2 C1 C2 E Hin.
    apply insert_res_inv in H1 as [[-> ->]|[N1 H1]], H2 as [[-> ->]|[N2 H2]]; cbn in *; try done.
    + by apply (li_one _ Hp n m2 r q2).
    + by apply (li_one _ Hp m1 n q1 r).
    + by apply (li_one _ Hp m1 m2 q1 q2).
  - intros c Hc. destruct (li_owned _ Hp c Hc) as [?|(x & Hx & Ex)]; [by left|right].
    eexists. split; [apply update_elem; exists x; split; [done|reflexivity]|]. cbn. by destruct (x.1 =? _).
Qed.
Definition settle (e : LocalEntry) : LocalEntry := mkEntry (le_peer e) (le_credential e) false (le_token e) (le_conn e).
Lemma commit_inv n r w w' res :
  linv w -> w_res w !! n = Some r -> rv_reply r = true -> rv_committed r = false -> reservation_commit n r w = (w', res) -> linv w'.
Proof.
  intros Hi Hr Hrep Hcom H. unfold reservation_commit in H. apply locked_cases in H as [(_ & -> & _)|(_ & Hp & H)]; [done| |done].
  destruct (prune_fields w) as (P1 & _). set (v := prune w) in *. clearbody v. rewrite <-P1 in Hr.
  destruct (entry (rv_id r) (w_st v)) as [e|] eqn:En; [|by injection H as <- <-]. apply entry_elem in En.
  destruct (linv_facts _ _ Hp En) as (_ & _ & _ & Fr). destruct (Fr n r Hr eq_refl) as [Ht Fu]. specialize (Fu Hcom). cbn [fst snd] in *.
  assert (Huniq : forall y, y ∈ entries v -> y.1 = rv_id r -> y.2 = e).
  { intros [i x] Hy E. cbn in *. subst i. by eapply elem_unique; [apply li_ids| |]. }
  set (ready' := if rv_new r then {[rv_token r]} ∪ w_ready v else w_ready v).
  assert (Hw : w_ready w' = ready' /\ entries w' = entry_update (rv_id r) settle (entries v) /\ ls_selected (w_st w') = ls_selected (w_st v) /\
    ls_stopped (w_st w') = ls_stopped (w_st v) /\ w_drawn w' = w_drawn v /\ w_next w' = w_next v /\ w_cancelled w' = w_cancelled v /\
    w_res w' = <[n := mkResv (rv_id r) (rv_token r) (rv_new r) (rv_reply r) true]> (w_res v) /\ w_opened w' = w_opened v /\ w_closed w' = w_closed v).
  { unfold ready'. destruct (le_renewing e) eqn:Rn, (rv_new r) eqn:Nw; injection H as <- <-; cbn; split_and!; try done.
    all: symmetry; apply update_same; intros x Hx; pose proof (Huniq _ Hx eq_refl) as Hux; cbn in Hux; subst x; destruct e; cbn in *; by subst. }
  destruct Hw as (W1 & W2 & W3 & W4 & W5 & W6 & W7 & W8 & W9 & W10). clear H.
  assert (Hready : forall y, y ∈ entries v -> y.1 <> rv_id r -> (le_token y.2 ∈ ready' <-> le_token y.2 ∈ w_ready v)).
  { intros y Hy Hne. unfold ready'. destruct (rv_new r); [|done]. rewrite elem_of_union, elem_of_singleton, Ht.
    pose proof (tokens_differ _ y (rv_id r, e) Hp Hy En Hne). cbn in *. tauto. }
  assert (Hmine : le_token e ∈ ready' /\ is_Some (le_conn e)).
  { unfold ready'. destruct (rv_new r); [|destruct Fu as [Fu _]; split; [done|by apply (li_conn _ Hp _ En)]].
    destruct Fu as (_ & _ & Fu & _). split; [rewrite Ht; set_solver|auto]. }
  eapply (linv_update v _ (rv_id r) settle); rewrite ?W3, ?W4, ?W5, ?W6, ?W7, ?W8, ?W9, ?W10; try done.
  - by left.
  - rewrite W1. intros t. unfold ready'. destruct (rv_new r); [intros [->%elem_of_singleton|Hu]%elem_of_union|intros Hu].
    + rewrite Ht. by apply (li_fresh _ Hp _ En).
    + by apply (li_used _ Hp t (or_introl Hu)).
    + by apply (li_used _ Hp t (or_introl Hu)).
  - intros y Hy. destruct (linv_facts _ _ Hp Hy) as (F1 & F2 & F3 & F4). unfold entry_facts. rewrite W1, W8.
    destruct (Z.eqb_spec y.1 (rv_id r)) as [E|E].
    + rewrite (Huniq y Hy E) in *. cbn. destruct Hmine as [Hm1 Hm2]. split_and!; try done.
      intros m q [[-> ->]|[Hne Hm]]%insert_res_inv Eq; [done|]. destruct (F4 m q Hm Eq) as [? _]. split; [done|]. intros Cq. exfalso. apply Hne.
      apply (li_one _ Hp m n q r); try done; [congruence|]. rewrite Eq. by apply (list_elem_of_fmap_2 fst).
    + rewrite (Hready y Hy E).
      assert (Hex : forall b, (exists m q, w_res v !! m = Some q /\ rv_id q = y.1 /\ rv_new q = b /\ rv_committed q = false) ->
        exists m q, <[n := mkResv (rv_id r) (rv_token r) (rv_new r) (rv_reply r) true]> (w_res v) !! m = Some q /\ rv_id q = y.1 /\ rv_new q = b /\ rv_committed q = false).
      { intros b (m & q & Hm & ? & ?). exists m, q. rewrite lookup_insert_ne; [done|]. intros ->. congruence. }
      split_and!; eauto. intros m q [[-> ->]|[Hne Hm]]%insert_res_inv Eq; cbn in *; [done|].
      destruct (F4 m q Hm Eq) as [? Fq]. split; [done|]. intros Cq. specialize (Fq Cq). destruct (rv_new q); rewrite (Hready y Hy E); done.
  - intros m q [[-> ->]|[Hne Hm]]%insert_res_inv; cbn; [destruct (li_res _ Hp n r Hr) as (? & ? & _)|destruct (li_res _ Hp m q Hm) as (? & ? & _)]; done.
  - intros m1 m2 q1 q2 H1 H2 C1 C2 E Hin.
    apply insert_res_inv in H1 as [[-> ->]|[N1 H1]], H2 as [[-> ->]|[N2 H2]]; cbn in *; try done. by apply (li_one _ Hp m1 m2 q1 q2).
  - intros c Hc. destruct (li_owned _ Hp c Hc) as [?|(x & Hx & Ex)]; [by left|right].
    eexists. rewrite W2. split; [apply update_elem; exists x; split; [done|reflexivity]|]. cbn. by destruct (x.1 =? _).
Qed.
Lemma entry_insert_perm id e es : entry_insert id e es ≡ₚ (id, e) :: es.
Proof. induction es as [|x es IH]; cbn; [done|]. destruct (id <? x.1); [done|]. rewrite IH. constructor. Qed.
Lemma no_peer peer credential w : existing_in peer credential w = Ok None -> peer ∉ le_peer <$> (entries w).*2.
Proof.
  unfold existing_in. destruct (find _ _) as [[id e]|] eqn:F; [by repeat case_match|]. intros _.
  intros (e & -> & (x & -> & Hx)%list_elem_of_fmap)%list_elem_of_fmap. apply list_elem_of_In in Hx.
  pose proof (find_none _ _ F _ Hx) as H. cbn in H. apply bool_decide_eq_false in H. done.
Qed.
Lemma reserve_inv peer credential drawn w w' res :
  linv w -> drawn ∉ w_drawn w -> reserve peer credential drawn w = (w', res) -> linv w'.
Proof.
  intros Hi Hd H. unfold reserve in H. apply locked_cases in H as [(_ & -> & _)|(Hst & Hp & H)]; [done| |done].
  destruct (prune_fields w) as (P1 & P2 & P3 & P4 & P5 & P6). rewrite <-P3 in Hd. rewrite <-P5 in Hst.
  set (v := prune w) in *. clearbody v. destruct (existing_in peer credential v) as [[x|]|x] eqn:Ex; [by injection H as <- <-| |by injection H as <- <-].
  apply no_peer in Ex. destruct (Z.leb_spec MAX_SESSIONS (zlen (entries v))) as [|Hlen]; [by injection H as <- <-|]. injection H as <- <-.
  set (e := mkEntry peer credential false (w_next v) None).
  assert (Hperm : entry_insert drawn e (entries v) ≡ₚ (drawn, e) :: entries v) by apply entry_insert_perm.
  assert (Hnid : drawn ∉ (entries v).*1).
  { intros (x & -> & Hx)%list_elem_of_fmap. apply Hd. by apply (li_fresh _ Hp). }
  assert (Hntok : w_next v ∉ le_token <$> (entries v).*2).
  { intros (y & E & (x & -> & Hx)%list_elem_of_fmap)%list_elem_of_fmap. destruct (li_fresh _ Hp x Hx) as (_ & ? & _). lia. }
  assert (Hlt : forall m q, w_res v !! m = Some q -> m < w_next v /\ rv_id q ∈ w_drawn v) by (intros m q Hm; destruct (li_res _ Hp m q Hm) as (? & ? & _); done).
  assert (Hex : forall id b, (exists m q, w_res v !! m = Some q /\ rv_id q = id /\ rv_new q = b /\ rv_committed q = false) ->
    exists m q, <[w_next v := mkResv drawn (w_next v) true false false]> (w_res v) !! m = Some q /\ rv_id q = id /\ rv_new q = b /\ rv_committed q = false).
  { intros id b (m & q & Hm & ?). exists m, q. rewrite lookup_insert_ne; [done|]. destruct (Hlt m q Hm). lia. }
  split; cbn; fold e.
  - rewrite Hperm. cbn. constructor; [done|by apply li_ids].
  - rewrite Hperm. cbn. constructor; [done|by apply li_peers].
  - rewrite Hperm. cbn. constructor; [done|by apply li_tokens].
  - unfold zlen in *. rewrite Hperm. cbn [length]. lia.
  - intros id Hs. rewrite Hperm. right. by apply (li_sel _ Hp).
  - congruence.
  - intros x. rewrite Hperm, elem_of_cons. intros [->|Hx]; cbn.
    + split_and!; [set_solver|lia|]. intros Hc. pose proof (li_used _ Hp _ (or_intror Hc)). lia.
    + destruct (li_fresh _ Hp x Hx) as (? & ? & ?). split_and!; [set_solver|lia|done].
  - intros t Ht. pose proof (li_used _ Hp t Ht). lia.
  - intros x. rewrite Hperm, elem_of_cons. intros [->|Hx]; cbn; [|by apply (li_conn _ Hp)].
    intros Hc. pose proof (li_used _ Hp _ (or_introl Hc)). lia.
  - intros x. rewrite Hperm, elem_of_cons. intros [->|Hx]; cbn; intros Hnr.
    + eexists (w_next v), _. by rewrite lookup_insert_eq.
    + apply Hex. by apply (li_dialled _ Hp).
  - intros x. rewrite Hperm, elem_of_cons. intros [->|Hx]; cbn; [done|]. intros Hrn. apply Hex. by apply (li_renewed _ Hp).
  - intros m q [[-> ->]|[Hne Hm]]%insert_res_inv; cbn.
    + split_and!; [lia|set_solver|]. intros e'. rewrite Hperm, elem_of_cons. intros [[= ->]|Hin].
      * split; [done|]. intros _. split_and!; [|done|done|done]. intros Hc. pose proof (li_used _ Hp _ (or_introl Hc)). cbn in *. lia.
      * destruct Hnid. apply list_elem_of_fmap. by exists (drawn, e').
    + destruct (li_res _ Hp m q Hm) as (L1 & L2 & L3). split_and!; [lia|set_solver|]. intros e'. rewrite Hperm, elem_of_cons.
      intros [[= E ->]|Hin]; [congruence|by apply L3].
  - intros m1 m2 q1 q2 H1 H2 C1 C2 E Hin. rewrite Hperm in Hin.
    apply insert_res_inv in H1 as [[-> ->]|[N1 H1]], H2 as [[-> ->]|[N2 H2]]; cbn in *; try done.
    + destruct (Hlt m2 q2 H2). congruence.
    + destruct (Hlt m1 q1 H1). congruence.
    + apply elem_of_cons in Hin as [Eh|Hin]; [destruct (Hlt m1 q1 H1); congruence|]. by apply (li_one _ Hp m1 m2 q1 q2).
  - intros c Hc. destruct (li_owned _ Hp c Hc) as [?|(x & Hx & Ex')]; [by left|right]. exists x. rewrite Hperm. split; [by right|done].
Qed.
Lemma locked_pure_inv {A} w (k : World -> result A ErrorCode) w' r : linv w -> locked w (fun w => (w, k w)) = (w', r) -> linv w'.
Proof. intros Hi H. apply locked_cases in H as [(_ & -> & _)|(_ & Hp & H)]; [done| |done]. by injection H as <- _. Qed.
Lemma select_inv id w w' r : linv w -> session_select id w = (w', r) -> linv w'.
Proof.
  intros Hi H. unfold session_select in H. apply locked_cases in H as [(_ & -> & _)|(_ & Hp & H)]; [done| |done].
  unfold session_connection in H. destruct (entry id (w_st (prune w))) as [e|] eqn:En; [|by injection H as <- _].
  repeat case_match; simplify_eq; try done. destruct Hp as [I1 I2 I3 I4 I5 I6 I7 I8 I9 I10 I11 I12 I13 I14]. split; cbn; try done.
  intros i [= <-]. apply list_elem_of_fmap. exists (id, e). split; [done|]. by apply entry_elem.
Qed.
Lemma disconnect_inv id w w' r : linv w -> disconnect id w = (w', r) -> linv w'.
Proof.
  intros Hi H. unfold disconnect in H. apply locked_cases in H as [(_ & -> & _)|(_ & Hp & H)]; [done| |done].
  pose proof (shrunk_inv _ _ Hp (proj1 (remove_shrunk id _ Hp))) as H2. destruct (remove_session id (prune w)) as [w2 b]. by injection H as <- _.
Qed.
Lemma wait_inv id token w w' r : linv w -> pending_wait id token w = (w', r) -> linv w'.
Proof.
  intros Hi H. unfold pending_wait in H. case_match; [|case_match; by injection H as <- _].
  destruct (locked w _) as [w1 r1] eqn:L. injection H as <- _. exact (locked_pure_inv w _ w1 r1 Hi L).
Qed.
Lemma local_step_inv e w w' o : linv w -> local_step e w = Some (w', o) -> linv w'.
Proof.
  intros Hi H. destruct e as [peer c|peer c d|n conn|id|n c|n|n|id t|id|id|id| |c|]; cbn [local_step] in H.
  - destruct (existing peer c w) as [w1 r] eqn:E. injection H as <- _. exact (locked_pure_inv w (existing_in peer c) w1 r Hi E).
  - case_bool_decide; [done|]. destruct (reserve peer c d w) as [w1 r] eqn:E. injection H as <- _. by eapply reserve_inv.
  - destruct (w_res w !! n) as [r|] eqn:R; [|done]. destruct (rv_new r) eqn:?, (rv_reply r) eqn:?, (rv_committed r) eqn:?; cbn in H; try done.
    case_bool_decide; [done|]. destruct (session_install r conn w) as [w1 res] eqn:E. injection H as <- _. by eapply session_install_inv.
  - destruct (renew id w) as [w1 r] eqn:E. injection H as <- _. by eapply renew_inv.
  - destruct (w_res w !! n) as [r|] eqn:R; [|done]. destruct (rv_new r) eqn:?, (rv_reply r) eqn:?, (rv_committed r) eqn:?; cbn in H; try done.
    destruct (renewed r c w) as [w1 res] eqn:E. injection H as <- _. by eapply renewed_inv.
  - destruct (w_res w !! n) as [r|] eqn:R; [|done]. destruct (rv_reply r) eqn:?, (rv_committed r) eqn:?; cbn in H; try done.
    destruct (reservation_commit n r w) as [w1 res] eqn:E. injection H as <- _. by eapply commit_inv.
  - destruct (w_res w !! n) as [r|] eqn:R; [|done]. injection H as <- _. eapply shrunk_inv; [done|by apply drop_shrunk].
  - destruct (pending_wait id t w) as [w1 r] eqn:E. injection H as <- _. by eapply wait_inv.
  - destruct (locked w _) as [w1 r] eqn:E. injection H as <- _. exact (locked_pure_inv w (session_connection id) w1 r Hi E).
  - destruct (session_select id w) as [w1 r] eqn:E. injection H as <- _. by eapply select_inv.
  - destruct (disconnect id w) as [w1 r] eqn:E. injection H as <- _. by eapply disconnect_inv.
  - destruct (locked w _) as [w1 r] eqn:E. injection H as <- _. exact (locked_pure_inv w (fun w => Ok (local_snapshot w)) w1 r Hi E).
  - injection H as <- _. by apply close_inv.
  - injection H as <- _. eapply shrunk_inv; [done|apply owner_shrunk].
Qed.
Lemma local_run_inv es w w' os : linv w -> local_run es w = Some (w', os) -> linv w'.
Proof.
  revert w os. induction es as [|e es IH]; intros w os Hi; cbn [local_run]; [by intros [= <- _]|].
  destruct (local_step e w) as [[w1 o]|] eqn:E; [|done]. destruct (local_run es w1) as [[w2 os2]|] eqn:R; [|done].
  intros [= <- _]. eapply IH; [|exact R]. by eapply local_step_inv.
Qed.

(** C30: Whatever tasks do and in whatever order, the manager holds at most 32 sessions, one for each
    peer at most, with an existing one selected; every connection that was made is closed or
    belongs to a session; after the manager stopped there are no sessions, so all are closed.
    A session that is still connecting, or being renewed, has a live task that will settle or
    remove it, exactly one of them: with no such task left every session is connected and free
    for use. *)
Theorem sessions_consistent es w os :
  local_run es local_new = Some (w, os) ->
  zlen (entries w) <= MAX_SESSIONS /\ NoDup (le_peer <$> (entries w).*2) /\ NoDup (entries w).*1 /\
  (forall id, ls_selected (w_st w) = Some id -> id ∈ (entries w).*1) /\
  (forall c, c ∈ w_opened w -> c ∈ w_closed w \/ exists x, x ∈ entries w /\ le_conn x.2 = Some c) /\
  (ls_stopped (w_st w) = true -> entries w = [] /\ w_opened w ⊆ w_closed w) /\
  (forall x, x ∈ entries w -> is_ready w x.2 = false \/ le_renewing x.2 = true ->
     exists n, forall m, n = m <-> exists r, w_res w !! m = Some r /\ rv_id r = x.1 /\ rv_committed r = false) /\
  ((forall n r, w_res w !! n = Some r -> rv_committed r = true) ->
     forall x, x ∈ entries w -> is_ready w x.2 = true /\ le_renewing x.2 = false /\ is_Some (le_conn x.2)).
Proof.
  intros R. pose proof (local_run_inv _ _ _ _ local_new_inv R) as Hi.
  assert (Hlive : forall x, x ∈ entries w -> is_ready w x.2 = false \/ le_renewing x.2 = true ->
    exists n r, w_res w !! n = Some r /\ rv_id r = x.1 /\ rv_committed r = false).
  { intros x Hx [Hr|Hr].
    - apply bool_decide_eq_false in Hr. destruct (li_dialled _ Hi x Hx Hr) as (n & r & ? & ? & _ & ?). by exists n, r.
    - destruct (li_renewed _ Hi x Hx Hr) as (n & r & ? & ? & _ & ?). by exists n, r. }
  split_and!.
  - by apply li_len.
  - by apply li_peers.
  - by apply li_ids.
  - by apply li_sel.
  - by apply li_owned.
  - intros Hs. pose proof (li_stop _ Hi Hs) as E. split; [done|]. intros c Hc. destruct (li_owned _ Hi c Hc) as [?|(x & Hx & _)]; [done|].
    rewrite E in Hx. by apply not_elem_of_nil in Hx.
  - intros x Hx Hr. destruct (Hlive x Hx Hr) as (n & r & Hn & Ei & Hc). exists n. intros m. split.
    + intros <-. by exists r.
    + intros (q & Hm & Eq & Cq). apply (li_one _ Hi n m r q); try done; [congruence|]. rewrite Ei. by apply list_elem_of_fmap_2.
  - intros Hall x Hx.
    assert (Hno : ~ (is_ready w x.2 = false \/ le_renewing x.2 = true)).
    { intros H. destruct (Hlive x Hx H) as (n & r & Hn & _ & Hc). rewrite (Hall n r Hn) in Hc. done. }
    destruct (is_ready w x.2) eqn:E1, (le_renewing x.2) eqn:E2; try (exfalso; apply Hno; auto; fail). split_and!; try done.
    apply (li_conn _ Hi x Hx). by apply bool_decide_eq_true in E1.
Qed.

(** ** What later accesses keep *)

Abbreviation gen w := (ls_generation (w_st w)).
Record evolves (w w' : World) : Prop := mkEvolves {
  ev_ready : w_ready w ⊆ w_ready w';
  ev_cancelled : w_cancelled w ⊆ w_cancelled w';
  ev_entries : forall x, x ∈ entries w -> (exists x', x' ∈ entries w' /\ x'.1 = x.1 /\ le_token x'.2 = le_token x.2) \/ le_token x.2 ∈ w_cancelled w';
  ev_gen : gen w <= u64_max -> gen w <= gen w' <= u64_max /\ (local_snapshot w' = local_snapshot w \/ gen w < gen w' \/ gen w' = u64_max)
}.
Lemma evolves_refl w : evolves w w.
Proof. split; [done|done|intros x Hx; left; eauto|intros; split; [lia|by left]]. Qed.
Lemma evolves_trans w1 w2 w3 : evolves w1 w2 -> evolves w2 w3 -> evolves w1 w3.
Proof.
  intros [A1 A2 A3 A4] [B1 B2 B3 B4]. split; [set_solver|set_solver| |].
  - intros x Hx. destruct (A3 x Hx) as [(y & Hy & E1 & E2)|?]; [|right; set_solver]. destruct (B3 y Hy) as [(z & Hz & E3 & E4)|?].
    + left. exists z. split_and!; [done|congruence|congruence].
    + right. congruence.
  - intros Hg. destruct (A4 Hg) as [H1 H2]. destruct (B4 ltac:(lia)) as [H3 H4]. split; [lia|].
    destruct H2 as [E|[?|?]]; [|right; lia|right; lia]. destruct H4 as [E'|[?|?]]; [left; congruence|right; lia|right; lia].
Qed.
Lemma grown w : gen w <= u64_max -> gen w <= sat_add64 (gen w) 1 <= u64_max /\ (gen w < sat_add64 (gen w) 1 \/ sat_add64 (gen w) 1 = u64_max).
Proof. unfold sat_add64. lia. Qed.
Lemma shrunk_evolves w w' : shrunk w w' -> evolves w w'.
Proof.
  intros [S1 S2 S3 [S4 S4'] (S5 & S6 & S7 & S8) S9 S10 S11 S12 S13]. split; [by rewrite S5|done| |].
  - intros x Hx. destruct (S2 x Hx) as [?|[? _]]; [left; eauto|by right].
  - intros Hg. destruct S11 as [E|E].
    + split; [rewrite E; lia|left]. unfold local_snapshot, is_ready. by rewrite E, S5.
    + rewrite E. destruct (grown w Hg). split; [done|by right].
Qed.
(** An update in place that keeps tokens and tells of a change. *)
Lemma update_evolves w w' id f :
  entries w' = entry_update id f (entries w) -> (forall e, le_token (f e) = le_token e) -> w_ready w ⊆ w_ready w' -> w_cancelled w ⊆ w_cancelled w' ->
  (gen w <= u64_max -> gen w <= gen w' <= u64_max /\ (local_snapshot w' = local_snapshot w \/ gen w < gen w' \/ gen w' = u64_max)) -> evolves w w'.
Proof.
  intros E Hf Hr Hc Hg. split; try done. intros x Hx. left. rewrite E. eexists. split; [apply update_elem; exists x; split; [done|reflexivity]|].
  cbn. split; [done|]. destruct (x.1 =? id); [apply Hf|done].
Qed.
Lemma locked_evolves {A} w (k : World -> World * result A ErrorCode) w' r :
  linv w -> locked w k = (w', r) -> (forall v, linv v -> w_res v = w_res w -> ls_stopped (w_st v) = false -> k v = (w', r) -> evolves v w') -> evolves w w'.
Proof.
  intros Hi H Hk. destruct (prune_fields w) as (P1 & _ & _ & _ & P5 & _).
  destruct (locked_cases w k w' r Hi H) as [(_ & -> & _)|(Hst & Hp & K)]; [apply evolves_refl|].
  eapply evolves_trans; [apply shrunk_evolves, prune_shrunk, Hi|]. apply Hk; try done. congruence.
Qed.
Lemma install_evolves n r conn w w' res :
  linv w -> session_install r conn w = (w', res) -> evolves w (match res with Ok _ => reply_due n r w' | Err _ => w' end).
Proof.
  intros Hi H. unfold session_install in H. destruct (locked w _) as [w1 res1] eqn:L. injection H as <- <-.
  assert (Hw : evolves w w1).
  { eapply locked_evolves; [done|exact L|]. intros v Hv _ _ K. cbv beta in K. destruct (entry (rv_id r) (w_st v)) as [e|]; [|injection K as <- _; apply evolves_refl].
    injection K as <- _. rewrite set_sel. eapply (update_evolves v _ (rv_id r)); cbn; try done. intros Hg. destruct (grown v Hg). split; [done|by right]. }
  destruct Hw as [A1 A2 A3 A4]. destruct res1; split; cbn; try done.
Qed.
Lemma renew_evolves id w w' res : linv w -> renew id w = (w', res) -> evolves w w'.
Proof.
  intros Hi H. eapply locked_evolves; [done|exact H|]. intros v Hv _ _ K. cbv beta in K.
  repeat case_match; injection K as <- _; try apply evolves_refl.
  eapply (update_evolves v _ id); cbn; try done. intros Hg. destruct (grown v Hg). split; [done|by right].
Qed.
Lemma renewed_evolves n r c w w' res :
  linv w -> renewed r c w = (w', res) -> evolves w (match res with Ok _ => reply_due n r w' | Err _ => w' end).
Proof.
  intros Hi H.
  assert (Hw : evolves w w').
  { eapply locked_evolves; [done|exact H|]. intros v Hv _ _ K. cbv beta in K. destruct (entry (rv_id r) (w_st v)) as [e|]; [|injection K as <- _; apply evolves_refl].
    injection K as <- _. eapply (update_evolves v _ (rv_id r)); cbn; try done. intros Hg. split; [lia|left].
    unfold local_snapshot, entry_update. cbn. rewrite <-list_fmap_compose. f_equal. apply list_fmap_ext. intros i [j x] _. cbn. by destruct (j =? rv_id r). }
  destruct Hw as [A1 A2 A3 A4]. destruct res; split; cbn; try done.
Qed.
Lemma commit_evolves n r w w' res : linv w -> w_res w !! n = Some r -> rv_committed r = false -> reservation_commit n r w = (w', res) -> evolves w w'.
Proof.
  intros Hi Hr Hcom H. eapply locked_evolves; [done|exact H|]. intros v Hv Er _ K. cbv beta in K. rewrite <-Er in Hr.
  destruct (entry (rv_id r) (w_st v)) as [e|] eqn:En; [|injection K as <- _; apply evolves_refl]. apply entry_elem in En.
  destruct (linv_facts _ _ Hv En) as (_ & _ & _ & Fr). destruct (Fr n r Hr eq_refl) as [Ht Fu]. specialize (Fu Hcom). cbn [fst snd] in *.
  destruct (rv_new r) eqn:Nw.
  - destruct Fu as (_ & Rn & _). rewrite Rn in K. injection K as <- _.
    split; cbn; [set_solver|done|intros x Hx; left; eauto|]. intros Hg. destruct (grown v Hg). split; [done|by right].
  - destruct Fu as (_ & Rn). rewrite Rn in K. injection K as <- _. eapply (update_evolves v _ (rv_id r)); cbn; try done.
    intros Hg. destruct (grown v Hg). split; [done|by right].
Qed.
Lemma reserve_evolves peer c d w w' res : linv w -> reserve peer c d w = (w', res) -> evolves w w'.
Proof.
  intros Hi H. eapply locked_evolves; [done|exact H|]. intros v Hv _ _ K. cbv beta in K.
  destruct (existing_in peer c v) as [[x|]|x]; [injection K as <- _; apply evolves_refl| |injection K as <- _; apply evolves_refl].
  case_match; injection K as <- _; [apply evolves_refl|]. split; cbn; try done.
  - intros x Hx. left. exists x. rewrite entry_insert_perm. split; [by right|done].
  - intros Hg. destruct (grown v Hg). split; [done|by right].
Qed.
Lemma pure_evolves {A} w (k : World -> result A ErrorCode) w' r : linv w -> locked w (fun w => (w, k w)) = (w', r) -> evolves w w'.
Proof. intros Hi H. eapply locked_evolves; [done|exact H|]. intros v _ _ _ K. cbv beta in K. injection K as <- _. apply evolves_refl. Qed.
Lemma local_step_evolves e w w' o : linv w -> local_step e w = Some (w', o) -> evolves w w'.
Proof.
  intros Hi H. destruct e as [peer c|peer c d|n conn|id|n c|n|n|id t|id|id|id| |c|]; cbn [local_step] in H.
  - destruct (existing peer c w) as [w1 r] eqn:E. injection H as <- _. exact (pure_evolves w (existing_in peer c) w1 r Hi E).
  - case_bool_decide; [done|]. destruct (reserve peer c d w) as [w1 r] eqn:E. injection H as <- _. by eapply reserve_evolves.
  - destruct (w_res w !! n) as [r|] eqn:R; [|done]. case_match; [done|].
    destruct (session_install r conn w) as [w1 res] eqn:E. injection H as <- _. by eapply install_evolves.
  - destruct (renew id w) as [w1 r] eqn:E. injection H as <- _. by eapply renew_evolves.
  - destruct (w_res w !! n) as [r|] eqn:R; [|done]. case_match; [done|].
    destruct (renewed r c w) as [w1 res] eqn:E. injection H as <- _. by eapply renewed_evolves.
  - destruct (w_res w !! n) as [r|] eqn:R; [|done]. destruct (rv_reply r) eqn:?, (rv_committed r) eqn:?; cbn in H; try done.
    destruct (reservation_commit n r w) as [w1 res] eqn:E. injection H as <- _. by eapply commit_evolves.
  - destruct (w_res w !! n) as [r|] eqn:R; [|done]. injection H as <- _. by apply shrunk_evolves, drop_shrunk.
  - destruct (pending_wait id t w) as [w1 r] eqn:E. injection H as <- _. unfold pending_wait in E.
    case_match; [|case_match; injection E as <- _; apply evolves_refl]. destruct (locked w _) as [w2 r2] eqn:L. injection E as <- _.
    exact (pure_evolves w _ w2 r2 Hi L).
  - destruct (locked w _) as [w1 r] eqn:E. injection H as <- _. exact (pure_evolves w (session_connection id) w1 r Hi E).
  - destruct (session_select id w) as [w1 r] eqn:E. injection H as <- _. eapply locked_evolves; [done|exact E|]. intros v _ _ _ K. cbv beta in K.
    destruct (session_connection (Some id) v); [|injection K as <- _; apply evolves_refl]. case_match; injection K as <- _; [apply evolves_refl|].
    split; cbn; try done; [intros x Hx; left; eauto|]. intros Hg. destruct (grown v Hg). split; [done|by right].
  - destruct (disconnect id w) as [w1 r] eqn:E. injection H as <- _. eapply locked_evolves; [done|exact E|]. intros v Hv _ _ K. cbv beta in K.
    destruct (remove_session id v) as [w2 b] eqn:Rm. injection K as <- _. apply shrunk_evolves.
    pose proof (proj1 (remove_shrunk id v Hv)) as Hs. by rewrite Rm in Hs.
  - destruct (locked w _) as [w1 r] eqn:E. injection H as <- _. exact (pure_evolves w (fun w => Ok (local_snapshot w)) w1 r Hi E).
  - injection H as <- _. split; cbn; try done; [intros x Hx; left; eauto|]. intros Hg. split; [lia|by left].
  - injection H as <- _. apply shrunk_evolves, owner_shrunk.
Qed.
Lemma local_run_evolves es w w' os : linv w -> local_run es w = Some (w', os) -> evolves w w'.
Proof.
  revert w os. induction es as [|e es IH]; intros w os Hi; cbn [local_run]; [intros [= <- _]; apply evolves_refl|].
  destruct (local_step e w) as [[w1 o]|] eqn:E; [|done]. destruct (local_run es w1) as [[w2 os2]|] eqn:R; [|done].
  intros [= <- _]. eapply evolves_trans; [by eapply local_step_evolves|]. eapply IH; [|exact R]. by eapply local_step_inv.
Qed.

(** A client that lists the sessions again under an unchanged generation missed nothing: whenever
    the visible list or the selection changes the generation grows, until it saturates. *)
Theorem generation_tells es1 w1 os1 es2 w2 os2 :
  local_run es1 local_new = Some (w1, os1) -> local_run es2 w1 = Some (w2, os2) ->
  gen w1 <= gen w2 <= u64_max /\ (local_snapshot w2 = local_snapshot w1 \/ gen w1 < gen w2 \/ gen w2 = u64_max).
Proof.
  intros R1 R2. pose proof (local_run_inv _ _ _ _ local_new_inv R1) as Hi.
  destruct (local_run_evolves _ _ _ _ local_new_inv R1) as [_ _ _ G]. destruct (G ltac:(cbn; unfold u64_max; lia)) as [Hg _].
  destruct (local_run_evolves _ _ _ _ Hi R2) as [_ _ _ G2]. apply G2. lia.
Qed.

Lemma existing_in_spec peer c w r :
  linv w -> existing_in peer c w = Ok (Some r) ->
  exists id e, (id, e) ∈ entries w /\ le_peer e = peer /\ le_credential e = c /\ le_renewing e = false /\
    match r with
    | Existing i => i = id /\ is_ready w e = true /\ is_Some (le_conn e)
    | Pending i t => i = id /\ t = le_token e /\ (is_ready w e = false \/ le_conn e = None) /\
        exists n q, w_res w !! n = Some q /\ rv_id q = id /\ rv_new q = true /\ rv_committed q = false
    | New _ => False
    end.
Proof.
  intros Hi. unfold existing_in. destruct (find _ _) as [[id e]|] eqn:F; [|done]. apply find_some in F as [Hin Hp].
  apply list_elem_of_In in Hin. cbn in Hp. apply bool_decide_eq_true in Hp. destruct (le_renewing e) eqn:Rn; [done|].
  case_bool_decide as Hc; [|done]. cbn. intros [= <-]. exists id, e. split_and!; try done.
  destruct (le_conn e) as [conn|] eqn:Co, (is_ready w e) eqn:Rd; cbn; split_and!; try done; try (by auto).
  - apply bool_decide_eq_false in Rd. by apply (li_dialled _ Hi _ Hin).
  - apply bool_decide_eq_true in Rd. destruct (li_conn _ Hi _ Hin Rd) as [x Hx]. cbn in Hx. congruence.
  - apply bool_decide_eq_false in Rd. by apply (li_dialled _ Hi _ Hin).
Qed.
(** C31: A caller is given a session of another one only if it named the same peer with the same
    credential and no renewal is under way: a connected one at once, or one whose dial a live
    task still carries.  Otherwise it gets a reservation of its own, and then no other session
    with this peer exists. *)
Theorem shared_session_exact es w os peer c d w' r :
  local_run es local_new = Some (w, os) -> local_step (LReserve peer c d) w = Some (w', OReserved (Ok r)) ->
  exists id e, (id, e) ∈ entries w' /\ le_peer e = peer /\ le_credential e = c /\ le_renewing e = false /\
    (forall id' e', (id', e') ∈ entries w' -> le_peer e' = peer -> id' = id) /\
    match r with
    | Existing i => i = id /\ is_ready w' e = true /\ is_Some (le_conn e)
    | Pending i t => i = id /\ t = le_token e /\ exists n q, w_res w' !! n = Some q /\ rv_id q = id /\ rv_new q = true /\ rv_committed q = false
    | New n => id = d /\ w_res w' !! n = Some (mkResv id (le_token e) true false false) /\ is_ready w' e = false /\ d ∉ (entries w).*1
    end.
Proof.
  intros R H. pose proof (local_run_inv _ _ _ _ local_new_inv R) as Hi. pose proof (local_step_inv _ _ _ _ Hi H) as Hi'.
  cbn [local_step] in H. case_bool_decide as Hd; [done|]. destruct (reserve peer c d w) as [w1 res] eqn:E. injection H as <- ->.
  assert (Hu : forall id e, (id, e) ∈ entries w1 -> le_peer e = peer -> forall id' e', (id', e') ∈ entries w1 -> le_peer e' = peer -> id' = id).
  { intros id e [i Hx]%list_elem_of_lookup_1 Ep id' e' [j Hy]%list_elem_of_lookup_1 Ep'.
    assert (j = i) as -> by (apply (NoDup_lookup _ j i peer (li_peers _ Hi')); rewrite !list_lookup_fmap, ?Hx, ?Hy; cbn; congruence). congruence. }
  unfold reserve in E. apply locked_cases in E as [(_ & _ & ?)|(_ & Hp & E)]; [done| |done].
  destruct (existing_in peer c (prune w)) as [[x|]|x] eqn:Ex; [| |done].
  - injection E as <- ->. destruct (existing_in_spec _ _ _ _ Hp Ex) as (id & e & Hin & Ep & Ec & Er & Hr).
    exists id, e. split_and!; try done; [by eapply Hu|]. destruct r; [done| |done]. destruct Hr as (? & ? & _ & ?). done.
  - destruct (MAX_SESSIONS <=? _); [done|]. injection E as <- <-. set (v := prune w) in *.
    assert (Hin : (d, mkEntry peer c false (w_next v) None) ∈ entry_insert d (mkEntry peer c false (w_next v) None) (entries v))
      by (rewrite entry_insert_perm; left).
    exists d, (mkEntry peer c false (w_next v) None). split_and!; try done.
    + by eapply Hu.
    + cbn. by rewrite lookup_insert_eq.
    + unfold is_ready. cbn. apply bool_decide_eq_false. intros Hr. pose proof (li_used _ Hp _ (or_introl Hr)). lia.
    + intros (x & -> & Hx)%list_elem_of_fmap. by apply Hd, (li_fresh _ Hi).
Qed.

Lemma pending_given e w w1 o id t :
  linv w -> local_step e w = Some (w1, o) -> o = OReserved (Ok (Pending id t)) \/ o = OExisting (Ok (Some (Pending id t))) ->
  exists en, (id, en) ∈ entries w1 /\ le_token en = t.
Proof.
  intros Hi H Ho.
  assert (Hp : exists p c, linv w1 /\ existing_in p c w1 = Ok (Some (Pending id t))).
  { destruct e as [peer c|peer c d|n conn|i|n c|n|n|i k|i|i|i| |c|]; cbn [local_step] in H; try (exfalso; destruct Ho; subst o; repeat case_match; simplify_eq; fail).
    - exists peer, c. unfold existing in H. destruct (locked w _) as [v r] eqn:L. injection H as <- <-. destruct Ho as [?|[= ->]]; [done|].
      apply locked_cases in L as [(_ & _ & ?)|(_ & Hv & L)]; [done| |done]. by injection L as <- ->.
    - case_bool_decide; [done|]. exists peer, c. destruct (reserve peer c d w) as [v r] eqn:L. injection H as <- <-. destruct Ho as [[= ->]|?]; [|done].
      unfold reserve in L. apply locked_cases in L as [(_ & _ & ?)|(_ & Hv & L)]; [done| |done].
      destruct (existing_in peer c (prune w)) as [[x|]|x] eqn:Ex; [by injection L as <- ->|by case_match|done]. }
  destruct Hp as (p & c & Hv & Ex). destruct (existing_in_spec _ _ _ _ Hv Ex) as (i & en & Hin & _ & _ & _ & -> & -> & _). by exists en.
Qed.
(** C32: A caller told to wait for the dial of another is never left behind.  However the run goes on,
    its wait either ends, with the session connected or with an error, or the dial it waits for
    is still carried by a live task. *)
Theorem waiter_never_stranded es w os e w1 o id t es2 w2 os2 :
  local_run es local_new = Some (w, os) -> local_step e w = Some (w1, o) ->
  o = OReserved (Ok (Pending id t)) \/ o = OExisting (Ok (Some (Pending id t))) -> local_run es2 w1 = Some (w2, os2) ->
  match pending_wait id t w2 with
  | (w3, Some (Ok i)) => i = id /\ exists en, (id, en) ∈ entries w3 /\ is_ready w3 en = true /\ is_Some (le_conn en)
  | (_, Some (Err _)) => True
  | (_, None) => exists n r, w_res w2 !! n = Some r /\ rv_id r = id /\ rv_new r = true /\ rv_committed r = false
  end.
Proof.
  intros R H Ho R2. pose proof (local_run_inv _ _ _ _ local_new_inv R) as Hi. pose proof (local_step_inv _ _ _ _ Hi H) as Hi1.
  destruct (pending_given _ _ _ _ _ _ Hi H Ho) as (en & Hin & <-). pose proof (local_run_inv _ _ _ _ Hi1 R2) as Hi2.
  destruct (local_run_evolves _ _ _ _ Hi1 R2) as [_ _ Hev _]. specialize (Hev _ Hin). cbn in Hev. unfold pending_wait.
  case_bool_decide as Hr.
  - destruct (locked w2 _) as [w3 r] eqn:L. apply locked_cases in L as [(_ & -> & ->)|(_ & Hp & L)]; [done| |done].
    injection L as <- <-. destruct (session_connection (Some id) (prune w2)) as [[i c]|] eqn:S; [|done]. split; [done|].
    cbn in S. destruct (entry id _) as [x|] eqn:E; [|done]. apply entry_elem in E. destruct (is_ready (prune w2) x) eqn:Rd; [|done].
    cbn in S. destruct (le_conn x) eqn:C; [|done]. exists x. by rewrite C.
  - case_bool_decide as Hc; [done|]. destruct Hev as [([i x] & Hx & E1 & E2)|?]; [|done]. cbn in E1, E2. subst i.
    apply (li_dialled _ Hi2 _ Hx). cbn. by rewrite E2.
Qed.

(** Whatever a task did not commit is undone when it ends: its session is gone, the waiters of its
    dial are told and its connection is closed; every other session stays. *)
Theorem rollback_exact es w os n r w' o :
  local_run es local_new = Some (w, os) -> w_res w !! n = Some r -> rv_committed r = false -> local_step (LDrop n) w = Some (w', o) ->
  (rv_id r ∉ (entries w').*1) /\ w_res w' !! n = None /\
  (forall e, (rv_id r, e) ∈ entries w -> le_token e ∈ w_cancelled w' /\ forall c, le_conn e = Some c -> c ∈ w_closed w') /\
  (forall x, x ∈ entries w -> x.1 <> rv_id r -> x ∈ entries w').
Proof.
  intros R Hr Hc H. pose proof (local_run_inv _ _ _ _ local_new_inv R) as Hi. cbn [local_step] in H. rewrite Hr in H. injection H as <- _.
  unfold reservation_drop. rewrite Hc. destruct (remove_shrunk (rv_id r) w Hi) as [[_ S2 _ _ _ _ _ _ _ _] Hno].
  split_and!; [done|cbn; by rewrite lookup_delete_eq| |].
  - intros e He. destruct (S2 _ He) as [Hin|?]; [|done]. destruct Hno. apply list_elem_of_fmap. by exists (rv_id r, e).
  - intros x Hx Hne. cbn. unfold remove_session. destruct (entry (rv_id r) (w_st w)) as [e|]; [|done]. cbn. case_match; cbn; by apply list_elem_of_filter.
Qed.

(** ** A concrete run *)

Module LocalWitness.
Definition laptop : bytes := bs "laptop".
Definition badge : option bytes := Some (bs "grant").
(** Two windows connect to one device; the first dials, the second waits; then the first renews. *)
Definition dialling : list local_event := [LReserve laptop badge 77].
Definition second : local_event := LReserve laptop badge 78.
Definition answered : list local_event := [LInstall 0 5; LCommit 0; LDrop 0].
Definition end_of (es : list local_event) (w : World) : World * list local_out := default (w, []) (local_run es w).
Lemma runs es w : is_some (local_run es w) = true -> local_run es w = Some ((end_of es w).1, (end_of es w).2).
Proof. unfold end_of. by destruct (local_run es w) as [[]|]. Qed.
Definition w_dialling : World := (end_of dialling local_new).1.
Definition w_waiting : World := (end_of [second] w_dialling).1.
Lemma dialling_runs : local_run dialling local_new = Some (w_dialling, (end_of dialling local_new).2).
Proof. apply runs. vm_compute. reflexivity. Qed.
Lemma second_waits : local_step second w_dialling = Some (w_waiting, OReserved (Ok (Pending 77 0))).
Proof. vm_compute. reflexivity. Qed.
Lemma answer_runs : local_run answered w_waiting = Some ((end_of answered w_waiting).1, (end_of answered w_waiting).2).
Proof. apply runs. vm_compute. reflexivity. Qed.
Definition whole : list local_event := dialling ++ [second] ++ answered ++ [LRenew 77; LRenewed 1 (bs "newer"); LCommit 1; LStop].
Lemma whole_runs : local_run whole local_new = Some ((end_of whole local_new).1, (end_of whole local_new).2).
Proof. apply runs. vm_compute. reflexivity. Qed.
Lemma wait_ends : (pending_wait 77 0 (end_of answered w_waiting).1).2 = Some (Ok 77).
Proof. vm_compute. reflexivity. Qed.

Lemma sessions_consistent_witness :
  ls_stopped (w_st (end_of whole local_new).1) = true /\ w_opened (end_of whole local_new).1 ⊆ w_closed (end_of whole local_new).1.
Proof.
  assert (H : ls_stopped (w_st (end_of whole local_new).1) = true) by (vm_compute; reflexivity). split; [exact H|].
  destruct (sessions_consistent whole (end_of whole local_new).1 (end_of whole local_new).2 whole_runs) as (_ & _ & _ & _ & _ & Hs & _).
  exact (proj2 (Hs H)).
Defined.
Lemma generation_tells_witness :
  ls_generation (w_st w_dialling) <= ls_generation (w_st (end_of [second] w_dialling).1) <= u64_max.
Proof.
  assert (R2 : local_run [second] w_dialling = Some (w_waiting, [OReserved (Ok (Pending 77 0))])) by (vm_compute; reflexivity).
  exact (proj1 (generation_tells dialling w_dialling _ [second] w_waiting _ dialling_runs R2)).
Defined.
Lemma shared_session_exact_witness : exists id e, (id, e) ∈ ls_entries (w_st w_waiting) /\ le_peer e = laptop /\ le_credential e = badge.
Proof.
  destruct (shared_session_exact dialling w_dialling _ laptop badge 78 w_waiting (Pending 77 0) dialling_runs second_waits)
    as (id & e & H1 & H2 & H3 & _).
  exists id, e. exact (conj H1 (conj H2 H3)).
Defined.
Lemma waiter_never_stranded_witness :
  exists en, (77, en) ∈ ls_entries (w_st (pending_wait 77 0 (end_of answered w_waiting).1).1).
Proof.
  pose proof (waiter_never_stranded dialling w_dialling _ second w_waiting _ 77 0 answered _ _ dialling_runs second_waits
    (or_introl eq_refl) answer_runs) as H.
  pose proof wait_ends as E. destruct (pending_wait 77 0 (end_of answered w_waiting).1) as [w3 r]. cbn [snd] in E. subst r.
  destruct H as (_ & en & Hin & _). exists en. exact Hin.
Defined.
Lemma rollback_exact_witness : 77 ∉ (ls_entries (w_st (end_of [LDrop 0] w_dialling).1)).*1.
Proof.
  assert (Hr : w_res w_dialling !! 0 = Some (mkResv 77 0 true false false)) by (vm_compute; reflexivity).
  assert (Hs : local_step (LDrop 0) w_dialling = Some ((end_of [LDrop 0] w_dialling).1, ODone (Ok tt))) by (vm_compute; reflexivity).
  exact (proj1 (rollback_exact dialling w_dialling _ 0 _ _ _ dialling_runs Hr eq_refl Hs)).
Defined.
End LocalWitness.
